(* ===== verification/_CoqProject ===== *)
-Q . S2P
Prelude.v
ByteOrder.v
BTree.v
BTreeInv.v
BTreeSpec.v
OrderedIndex.v
Page.v
Value.v
OrderKey.v
SecondaryIndex.v
Tuple.v
Schema.v
Civil.v
Literals.v
Transaction.v
Ssi.v
VersionStore.v
Mvcc.v
Wal.v
LockManager.v
DiskManager.v
BufferPool.v
FreeSpace.v
Replacer.v
Sql.v
TableFiles.v
Lexer.v
Parser.v
ParserTotal.v
SqlPrint.v
SqlRoundTrip.v
Float64.v
Like.v
DbFiles.v
Strings.v
Eval.v
Scan.v
EvalProps.v
Plan.v
Collections.v
Stats.v
Cost.v
Optimizer.v
Exec.v
Window.v
Join.v
ExecSpec.v
SetOpsSpec.v
Aggregate.v
AggregateSpec.v
TableAccess.v
TableSpec.v
Subquery.v
Query.v
IndexScanSpec.v
QuerySpec.v
QueryFindings.v
RowShape.v
Dml.v
DmlFindings.v
RollbackSpec.v
Journal.v
TableFilesSpec.v
DbFilesSpec.v
Catalog.v
Ddl.v
DdlFindings.v
DdlSpec.v
Persist.v
PersistSpec.v
PersistFindings.v
Batch.v
BatchSpec.v
Blobs.v
BlobsSpec.v
Context.v
Stores.v
Server.v
Snapshots.v
Backup.v
