(* ===== verification/Prelude.v ===== *)
(** * ByteDB

    ByteDB is a relational database server in Rust with a key-value store and a
    document store beside its tables. This library models the program from the pages
    and trees up to the connections of the server, as executable definitions, and
    proves what the parts promise to each other.

    ** The program

    A client sends frames with requests to the server ([bytedb-server]), which checks
    a password, keeps a session and a transaction for the connection, and hands
    statements to the query engine ([bytedb-query]). The engine parses SQL
    ([parser/]), plans and optimises queries ([planner/]), and executes plans and
    statements ([executor/engine.rs]) over tables. A table is a B+Tree of encoded rows
    keyed by the primary key, a store of the versions that transactions have written,
    and secondary indexes ([bytedb-core/src/index], [mvcc], [tuple]). Changes are
    written to a write-ahead log ([wal/]), to the log files of the tables and to a
    catalog ([dbstore/], [executor/diskstore.rs]); large values are kept in files of
    their own ([blob.rs]). Pages, the buffer pool, the free space map and the replacer
    ([storage/], [buffer/]) form a page store.

    ** Conventions

    Definitions carry the names of the source, in one Module per component. State is
    passed explicitly, or through the small monads [E] (evaluation), [Q] (operators),
    [Db_of] (statements) and the parser's.

    - A Rust panic (a slice or index out of range, [unwrap] of [None], an overflow of
      checked arithmetic, as in a build with overflow checks) is the [None] of an outer
      [option]; an error of the program is a value of [result] ([CoreError]) or
      [qresult] ([QueryError]) inside it.
    - Machine integers are [Z] with [wrap], or with a range check where overflow panics;
      floating-point numbers are 64-bit patterns ([Float64]).
    - A text value is the list of its UTF-8 bytes; names and SQL text are lists of code
      points.
    - Third-party code is a class of operations, with a class of laws where a theorem
      needs them: JSON, LZ4 and zstd ([Tuple.Codecs]), CRC-32 ([DiskManager.Crc32],
      [Wal.LogCodec]), the Unicode tables and the text of floats ([Sql.Unicode],
      [Sql.FloatText]), [log2] and [powf] ([Cost.Libm]), Argon2 ([Server.Passwords]),
      the text of a catalog ([DbFiles.CatalogCodec]). Every theorem that uses such laws
      has a witness with concrete instances.
    - The order of a hash table, of equal elements after an unstable sort and of a heap
      is a parameter ([HashOrder], [Collections.Unordered]); theorems hold
      for every choice.
    - Loops and recursions that are not structural count down a bound that is computed
      from their input: one more than the length of the text or of the tokens in the
      lexer and the parser ([lexer_total] and [parse_total] show that it is enough),
      the height and the number of nodes of a B+Tree ([BTreeInv] shows that every
      operation ends within it), the number of transactions in the search for
      deadlocks. Running out is [None], so that theorems that give a result also say
      that the bound is enough.

    ** Storage and indexes

    - [ByteOrder]: byte strings in the order of [&[u8]].
    - [BTree], [BTreeInv], [BTreeSpec]: [index/btree.rs] and [index/iterator.rs], a
      B-link tree in a heap of nodes. The invariant is kept by every operation; from a
      new tree any sequence of operations behaves like a finite map
      ([btree_refines_map]), and traversals deliver its entries in order.
    - [OrderedIndex]: the interface [KvTree] with its laws [KvTreeLaws], through which
      indexes, tables and stores use the tree, and the instance for [BTree].
    - [OrderKey]: [index/order_key.rs]; encoded keys compare column by column, decimals
      by their digits alone, and as the values do where the decimals of a column have one
      scale and there is no NaN, negative zero or JSON ([encode_okey_order]).
    - [SecondaryIndex]: [index/secondary.rs] over [KvTree]; an index is a set of pairs of
      keys and primary keys ([index_is_set]), and look-ups find what lies between the keys
      ([index_lookup_range]).
    - [Page], [DiskManager], [BufferPool], [FreeSpace], [Replacer]: [storage/] and
      [buffer/replacer.rs]. A page is a list of slots ([page_refinement]); the pool with
      its file is a map of pages ([pool_refines_pages]).

    ** Values and rows

    - [Value], [Civil], [Literals]: [tuple/value.rs], with dates, timestamps, UUIDs and
      decimals in text and their round trips.
    - [Tuple], [Schema]: [tuple/tuple.rs], [compress.rs], [tuple/schema.rs]. A row is read
      back as it was written, if its JSON values are read back from their texts
      ([row_round_trip]); columns are read without decoding the row.
    - [Blobs], [BlobsSpec]: [blob.rs] and its use in the engine: a spilled row resolves to
      the row it was, also after files have been collected ([spilled_row_resolves]).
      Values that are stored compressed are excluded here and wherever columns are found
      without decoding: stepping over such a value goes one byte too far
      ([compressed_column_misread], [compressed_row_panics]).

    ** Transactions and the log

    - [Transaction], [VersionStore], [Mvcc]: [mvcc/transaction.rs], [version_store.rs],
      [visibility.rs], and the protocol of the statements over them, as a step relation.
      A snapshot shows what was committed before it and its own writes
      ([visible_iff_committed_before]), does not change ([snapshot_stable]), the first of
      two writers wins ([first_committer_wins]), and vacuum keeps what is visible
      ([vacuum_keeps_visible]).
    - [Ssi]: the serializable level; committed transactions have no write skew on rows
      ([write_skew_free]).
    - [LockManager]: [mvcc/lock_manager.rs], by steps of an atomic attempt.
    - [Wal]: [wal/]: framing, repair of a torn tail, truncation and the analysis of
      recovery; after a crash the records that were flushed are found and the committed
      transactions are those to redo ([crash_recovery]).

    ** SQL

    - [Sql], [Lexer], [Parser], [ParserTotal]: [parser/]; parsing ends on every input
      ([parse_total]).
    - [SqlPrint], [SqlRoundTrip]: [expr_to_sql] and its inverse ([print_parse]).
    - [Strings], [Float64], [Like], [Eval], [EvalProps]: expressions; LIKE and
      ILIKE are pattern matching ([like_correct]).
    - [Plan], [Stats], [Cost], [Optimizer]: [planner/] and [stats/mod.rs].
    - [Collections], [Scan], [Exec], [Window], [Join], [Aggregate], with [ExecSpec],
      [SetOpsSpec], [AggregateSpec]: the operators of the executor against nested loops
      ([hash_join_correct]), orders with the places of NULLs ([apply_sort_sorts],
      [top_n_correct]), first occurrences and multiplicities of rows
      ([distinct_correct], [set_operations_count]), and groups of rows that agree on
      the grouping columns ([aggregate_groups]).
    - [TableAccess], [TableSpec], [IndexScanSpec], [Subquery], [Query], [QuerySpec],
      [RowShape]: scans, subqueries and plans. A query over one table returns the visible
      rows for which its condition holds, whatever the optimiser chooses
      ([select_where_correct], whose conditions leave out the paths of
      [pk_range_loses_rows] and [serial_scan_drops_rows]); every result has the columns of
      its plan ([plans_typed]; but [group_by_missing_name]).
    - [Batch], [BatchSpec]: the vectorised scan of [executor/batch.rs].
    - [Context]: [executor/context.rs] with the cache of statements and the log of slow
      ones.

    ** Statements and persistence

    - [Dml]: INSERT, UPDATE, DELETE and the ends of transactions. [RollbackSpec]: ROLLBACK
      restores every table of a transaction that is alone, where no index is unique
      ([rollback_restores_tables]; but [refused_insert_seen]). [Journal]: the changes a
      statement notes are the changes it makes.
    - [Catalog], [Ddl], [DdlSpec]: statements on tables, indexes and databases; a new index
      finds exactly the rows of its table, where decimals have one scale
      ([create_index_correct]; but [decimal_index_wrong]).
    - [TableFiles], [TableFilesSpec]: [dbstore/tablelog.rs] and [tablefile.rs]: what a crash
      leaves of the files of a table ([table_files_survive_crash]).
    - [DbFiles], [DbFilesSpec]: [dbstore/catalog.rs], [registry.rs] and
      [executor/diskstore.rs]: a store opened again on the files, and switched to the
      database in use, is the same store ([store_survives_restart]).
    - [Persist], [PersistSpec]: the engine with its disk store; committed rows are found by
      an engine that starts on the files, where no index is unique
      ([committed_rows_survive_restart]; but [failed_rebuild_ignored]).

    ** Stores, server, copies

    - [Stores]: [kv/kv_engine.rs], a map of strings ([kv_refines_map]), and [document/],
      with paths into JSON.
    - [Server]: [connection.rs], [protocol/], [auth/credentials.rs]. A connection without
      a password changes nothing ([stranger_changes_nothing]); one that logs in once
      leaves no session ([sessions_closed]).
    - [Snapshots]: [snapshot/] and the start of a server ([server.rs]): a snapshot is read
      back and restores the tables it was taken of ([snapshot_restores]).
    - [Backup]: [backup.rs] and [migration.rs]: what is restored from a backup is what was
      there ([backup_restores]).

    The files called [...Findings], and some theorems of the other files, compute
    statements for which the program does not do what it says.

    ** Not modelled

    - Interleavings inside an operation, except where a component has explicit steps (the
      buffer pool, the lock manager, the multi-version protocol): the tree's latches,
      the group commit of the log and background threads (flusher, checkpoint, vacuum's
      schedule).
    - Failing devices; a crash is modelled where files are written ([Wal],
      [TableFilesSpec], [PersistFindings]).
    - Statements run on tables in memory, without spilled values, query limits or
      cancellation; these are modelled apart ([Persist], [Blobs], [Context]). The texts
      that EXPLAIN and Display give are parameters.
    - Not part of the library: the frame pool of [buffer/pool.rs], which nothing uses;
      metrics and fault injection; the command line, listening, TLS and configuration of
      the server; the client and the benchmarks. *)
From stdpp Require Export base list gmap sets strings pretty list_numbers sorting.
From Stdlib Require Export ssreflect ZArith Lia Sorted.

#[global] Set Default Goal Selector "!".
#[global] Open Scope general_if_scope.
#[global] Open Scope Z_scope.

(** ** Results and panics

    [result] is the crate's [Result<T, CoreError>]; a Rust panic (a slice or
    index out of range, an [unwrap] on [None]) is the [None] of an outer
    [option], so that a total operation has type [option (state * result A)]. *)

(** [CoreError] of [bytedb-core/src/error.rs]; an [Io] error carries nothing
    the code inspects. *)
Inductive CoreError : Type :=
  | Io
  | PageNotFound (page : Z)
  | BufferPoolFull
  | ChecksumMismatch (page : Z)
  | KeyNotFound
  | DuplicateKey
  | TransactionAborted (txn : Z)
  | TransactionNotFound (txn : Z)
  | Deadlock
  | SerializationConflict
  | WriteConflict
  | LockTimeout (txn : Z)
  | TransactionTimeout (txn : Z)
  | WalCorrupted (lsn : Z)
  | TableNotFound (name : string)
  | TableAlreadyExists (name : string)
  | ColumnNotFound (name : string)
  | TypeMismatch (expected got : string)
  | ValueTooLarge (bytes : Z)
  | Internal (msg : string).

Inductive result (A : Type) : Type :=
  | Ok (a : A)
  | Err (e : CoreError).
Arguments Ok {A} a.
Arguments Err {A} e.

Definition is_ok {A} (r : result A) : bool :=
  match r with Ok _ => true | Err _ => false end.

#[export] Instance CoreError_eq_dec : EqDecision CoreError.
Proof. solve_decision. Defined.

#[export] Instance result_eq_dec {A} `{EqDecision A} : EqDecision (result A).
Proof. solve_decision. Defined.

(** ** Machine integers *)

Definition u8_max : Z := 255.
Definition u16_max : Z := 65535.

(** Truncation to [w] bits, the meaning of [as u16] and of wrapping
    arithmetic. *)
Definition wrap (w z : Z) : Z := z mod 2 ^ w.

Lemma wrap_small w z : 0 ≤ z < 2 ^ w → wrap w z = z.
Proof. intros. by apply Z.mod_small. Qed.

Lemma wrap_range w z : 0 ≤ w → 0 ≤ wrap w z < 2 ^ w.
Proof. intros. apply Z.mod_pos_bound. lia. Qed.

(** [usize::saturating_sub] and the like. *)
Definition sat_sub (a b : Z) : Z := Z.max 0 (a - b).

(** ** Fixed-width little- and big-endian encodings *)

Fixpoint le_bytes (n : nat) (z : Z) : list Z :=
  match n with
  | O => []
  | S n' => z mod 256 :: le_bytes n' (z / 256)
  end.

Fixpoint le_val (bs : list Z) : Z :=
  match bs with
  | [] => 0
  | b :: bs' => b + 256 * le_val bs'
  end.

Definition be_bytes (n : nat) (z : Z) : list Z := reverse (le_bytes n z).
Definition be_val (bs : list Z) : Z := le_val (reverse bs).

(** A byte: what the type [u8] of the elements guarantees. *)
Definition byte_ok (b : Z) : Prop := 0 ≤ b < 256.
Definition bytes_ok (bs : list Z) : Prop := Forall byte_ok bs.

#[export] Instance byte_ok_dec b : Decision (byte_ok b).
Proof. apply _. Defined.
#[export] Instance bytes_ok_dec bs : Decision (bytes_ok bs).
Proof. apply _. Defined.

Lemma length_le_bytes n z : length (le_bytes n z) = n.
Proof. revert z. induction n as [|n IH]; intros z; simpl; [done|]. by rw IH. Qed.

Lemma length_be_bytes n z : length (be_bytes n z) = n.
Proof. unfold be_bytes. by rw length_reverse length_le_bytes. Qed.

Lemma pow256_succ n : 256 ^ Z.of_nat (S n) = 256 * 256 ^ Z.of_nat n.
Proof. rw Nat2Z.inj_succ Z.pow_succ_r; [lia|done]. Qed.

Lemma le_bytes_val n z : le_val (le_bytes n z) = z mod 256 ^ Z.of_nat n.
Proof.
  revert z. induction n as [|n IH]; intros z; cbn [le_bytes le_val].
  - by rw Z.mod_1_r.
  - rw IH pow256_succ.
    rw Z.rem_mul_r; [lia..|]. lia.
Qed.

Lemma le_bytes_val_small n z : 0 ≤ z < 256 ^ Z.of_nat n → le_val (le_bytes n z) = z.
Proof. intros. rw le_bytes_val. by apply Z.mod_small. Qed.

Lemma le_bytes_ok n z : bytes_ok (le_bytes n z).
Proof.
  revert z. induction n as [|n IH]; intros z; cbn [le_bytes]; constructor; [|apply IH].
  unfold byte_ok. apply Z.mod_pos_bound. lia.
Qed.

Lemma be_bytes_ok n z : bytes_ok (be_bytes n z).
Proof. unfold bytes_ok, be_bytes. apply Forall_reverse, le_bytes_ok. Qed.

Lemma le_val_range bs : bytes_ok bs → 0 ≤ le_val bs < 256 ^ Z.of_nat (length bs).
Proof.
  induction 1 as [|b bs Hb _ IH]; cbn [le_val length].
  - simpl; lia.
  - rw pow256_succ. unfold byte_ok in Hb. lia.
Qed.

Lemma le_val_bytes bs : bytes_ok bs → le_bytes (length bs) (le_val bs) = bs.
Proof.
  induction 1 as [|b bs Hb Hbs IH]; cbn [le_val length le_bytes]; [done|].
  unfold byte_ok in Hb. f_equal.
  - rw Z.mul_comm Z.mod_add; [lia|]. by apply Z.mod_small.
  - rw Z.mul_comm Z.div_add; [lia|]. rw Z.div_small; [lia|]. by rw Z.add_0_l IH.
Qed.

Lemma be_bytes_val n z : be_val (be_bytes n z) = z mod 256 ^ Z.of_nat n.
Proof. unfold be_val, be_bytes. by rw reverse_involutive le_bytes_val. Qed.

Lemma le_bytes_inj n a b :
  0 ≤ a < 256 ^ Z.of_nat n → 0 ≤ b < 256 ^ Z.of_nat n →
  le_bytes n a = le_bytes n b → a = b.
Proof.
  intros Ha Hb Heq%(f_equal le_val). by rw !le_bytes_val_small in Heq.
Qed.

(** ** Byte arrays

    Offsets and lengths are [Z], as the [usize] of the code; [slice] is
    [&buf[off..off+len]] and [write_at] is [copy_from_slice] into it. The
    checked versions return [None] where the Rust indexing panics. *)

Definition slice {A} (l : list A) (off len : Z) : list A :=
  take (Z.to_nat len) (drop (Z.to_nat off) l).

Definition write_at {A} (l : list A) (off : Z) (bs : list A) : list A :=
  take (Z.to_nat off) l ++ bs ++ drop (Z.to_nat off + length bs) l.

Definition in_range {A} (l : list A) (off len : Z) : bool :=
  (0 <=? off) && (0 <=? len) && (off + len <=? Z.of_nat (length l)).

Definition get_slice {A} (l : list A) (off len : Z) : option (list A) :=
  if in_range l off len then Some (slice l off len) else None.

Definition set_slice {A} (l : list A) (off : Z) (bs : list A) : option (list A) :=
  if in_range l off (Z.of_nat (length bs)) then Some (write_at l off bs) else None.

Definition zlen {A} (l : list A) : Z := Z.of_nat (length l).

Section arrays.
Context {A : Type}.
Implicit Types (l bs : list A) (off len : Z).

Lemma in_range_true l off len :
  in_range l off len = true ↔ 0 ≤ off ∧ 0 ≤ len ∧ off + len ≤ zlen l.
Proof. unfold in_range, zlen. lia. Qed.

Lemma get_slice_Some l off len :
  0 ≤ off → 0 ≤ len → off + len ≤ zlen l → get_slice l off len = Some (slice l off len).
Proof. intros. unfold get_slice. by rw (proj2 (in_range_true l off len)). Qed.

Lemma set_slice_Some l off bs :
  0 ≤ off → off + zlen bs ≤ zlen l → set_slice l off bs = Some (write_at l off bs).
Proof.
  intros. unfold set_slice.
  rw (proj2 (in_range_true l off (Z.of_nat (length bs)))); [|done].
  unfold zlen in *. lia.
Qed.

Lemma zlen_nonneg l : 0 ≤ zlen l.
Proof. unfold zlen. lia. Qed.

Lemma zlen_nil : zlen (@nil A) = 0.
Proof. done. Qed.

Lemma zlen_cons x l : zlen (x :: l) = 1 + zlen l.
Proof. unfold zlen. cbn [length]. lia. Qed.

Lemma zlen_app l bs : zlen (l ++ bs) = zlen l + zlen bs.
Proof. unfold zlen. rw length_app. lia. Qed.

Lemma get_slice_app (pre mid rest : list A) off len :
  off = zlen pre → len = zlen mid → get_slice (pre ++ mid ++ rest) off len = Some mid.
Proof.
  intros -> ->. rw get_slice_Some; [apply zlen_nonneg|apply zlen_nonneg| |].
  - rw !zlen_app. pose proof (zlen_nonneg rest). lia.
  - f_equal. unfold slice, zlen. rw !Nat2Z.id drop_app_length take_app_length. done.
Qed.

Lemma get_slice_short l off len : zlen l < off + len → get_slice l off len = None.
Proof.
  intros Hlt. unfold get_slice. destruct (in_range l off len) eqn:E; [|done].
  apply in_range_true in E. lia.
Qed.

Lemma length_slice l off len :
  0 ≤ off → 0 ≤ len → off + len ≤ zlen l → zlen (slice l off len) = len.
Proof. unfold zlen, slice. intros. rw length_take length_drop. lia. Qed.

Lemma zlen_write_at l off bs :
  0 ≤ off → off + zlen bs ≤ zlen l → zlen (write_at l off bs) = zlen l.
Proof.
  unfold zlen, write_at. intros. rw !length_app length_take length_drop. lia.
Qed.

Lemma lookup_slice l off len (i : nat) :
  0 ≤ off → (i < Z.to_nat len)%nat →
  slice l off len !! i = l !! (Z.to_nat off + i)%nat.
Proof. intros. unfold slice. rw lookup_take_lt; [done|]. by rw lookup_drop. Qed.

Lemma lookup_write_at l off bs (i : nat) :
  0 ≤ off → off + zlen bs ≤ zlen l →
  write_at l off bs !! i =
    if decide (off ≤ Z.of_nat i < off + zlen bs)
    then bs !! (i - Z.to_nat off)%nat else l !! i.
Proof.
  unfold zlen, write_at. intros.
  assert (length (take (Z.to_nat off) l) = Z.to_nat off) as Htk by (rw length_take; lia).
  case_decide.
  - rw lookup_app_r Htk; [lia|]. rw lookup_app_l; [lia|done].
  - destruct (decide (Z.of_nat i < off)).
    + rw lookup_app_l ?Htk; [lia|]. rw lookup_take_lt; [lia|done].
    + rw lookup_app_r Htk; [lia|]. rw lookup_app_r; [lia|].
      rw lookup_drop. f_equal. lia.
Qed.

Lemma slice_write_same l off bs :
  0 ≤ off → off + zlen bs ≤ zlen l → slice (write_at l off bs) off (zlen bs) = bs.
Proof.
  intros. apply list_eq. intros i. destruct (decide (i < length bs)%nat).
  - rw lookup_slice; [lia|unfold zlen; lia|].
    rw lookup_write_at; [lia..|]. unfold zlen in *.
    rw decide_True; [lia|]. f_equal. lia.
  - unfold slice. rw lookup_take_ge; [unfold zlen; lia|].
    symmetry. apply lookup_ge_None_2. lia.
Qed.

Lemma slice_write_disjoint l off bs off' len' :
  0 ≤ off → off + zlen bs ≤ zlen l → 0 ≤ off' →
  off' + len' ≤ off ∨ off + zlen bs ≤ off' →
  slice (write_at l off bs) off' len' = slice l off' len'.
Proof.
  intros ??? Hd. apply list_eq. intros i. destruct (decide (i < Z.to_nat len')%nat).
  - rw !lookup_slice; [lia..|]. rw lookup_write_at; [lia..|].
    rw decide_False; [|done]. lia.
  - unfold slice. rw !lookup_take_ge; [lia..|done].
Qed.

Lemma slice_write_inner l off bs off' len' :
  0 ≤ off → off + zlen bs ≤ zlen l → off ≤ off' → 0 ≤ len' → off' + len' ≤ off + zlen bs →
  slice (write_at l off bs) off' len' = slice bs (off' - off) len'.
Proof.
  intros. apply list_eq. intros i. destruct (decide (i < Z.to_nat len')%nat).
  - rw !lookup_slice; [lia..|]. rw lookup_write_at; [lia..|].
    rw decide_True; [lia|]. f_equal. lia.
  - unfold slice. rw !lookup_take_ge; [lia..|done].
Qed.
End arrays.

#[export] Instance zlen_Permutation {A} : Proper ((≡ₚ) ==> (=)) (@zlen A).
Proof. intros l1 l2 Hp. unfold zlen. by rw Hp. Qed.

#[export] Instance filter_Permutation {A} (P : A → Prop) `{!∀ x, Decision (P x)} :
  Proper ((≡ₚ) ==> (≡ₚ)) (filter P : list A → list A).
Proof.
  induction 1 as [|x l1 l2 _ IH|x y l|l1 l2 l3 _ IH1 _ IH2]; [done|..].
  - rw !filter_cons. case_decide; by rw IH.
  - rw !filter_cons. repeat case_decide; try done. by constructor.
  - by rw IH1.
Qed.

(** ** Weighted sums over lists *)

Fixpoint zsum {A} (f : A → Z) (l : list A) : Z :=
  match l with
  | [] => 0
  | x :: l' => f x + zsum f l'
  end.

Section zsum.
Context {A : Type} (f : A → Z).
Implicit Types l : list A.

Lemma zsum_app l1 l2 : zsum f (l1 ++ l2) = zsum f l1 + zsum f l2.
Proof. induction l1 as [|x l1 IH]; simpl; lia. Qed.

Lemma zsum_nonneg l : (∀ x, x ∈ l → 0 ≤ f x) → 0 ≤ zsum f l.
Proof.
  induction l as [|x l IH]; simpl; [lia|]. intros H.
  assert (0 ≤ f x) by (apply H; set_solver).
  assert (0 ≤ zsum f l) by (apply IH; set_solver). lia.
Qed.

Lemma zsum_insert l (i : nat) x y :
  l !! i = Some x → zsum f (<[i:=y]> l) = zsum f l - f x + f y.
Proof.
  revert i. induction l as [|z l IH]; intros [|i] H; simplify_eq/=; [lia|].
  rw (IH _ H). lia.
Qed.

Lemma zsum_lookup_le l (i : nat) x :
  (∀ y, y ∈ l → 0 ≤ f y) → l !! i = Some x → f x ≤ zsum f l.
Proof.
  revert i. induction l as [|z l IH]; intros [|i] Hn H; simplify_eq/=.
  - assert (0 ≤ zsum f l) by (apply zsum_nonneg; set_solver). lia.
  - assert (0 ≤ f z) by (apply Hn; set_solver).
    assert (f x ≤ zsum f l) by (eapply IH; set_solver). lia.
Qed.
End zsum.

Lemma zsum_ext {A} (f g : A → Z) l : (∀ x, x ∈ l → f x = g x) → zsum f l = zsum g l.
Proof.
  induction l as [|x l IH]; simpl; [done|]. intros H. f_equal; [apply H|apply IH]; set_solver.
Qed.

Lemma zsum_fmap {A B} (f : B → Z) (g : A → B) l : zsum f (g <$> l) = zsum (f ∘ g) l.
Proof. induction l as [|x l IH]; simpl; [done|]. by rw IH. Qed.

(** A list without duplicates splits at an element in one way. *)
Lemma NoDup_app_cons_inj {A} (l1 l2 k1 k2 : list A) x :
  NoDup (l1 ++ x :: k1) → l1 ++ x :: k1 = l2 ++ x :: k2 → l1 = l2 ∧ k1 = k2.
Proof.
  revert l2. induction l1 as [|a l1 IH]; intros [|b l2] Hnd Heq; simplify_eq/=.
  - done.
  - exfalso. apply NoDup_cons in Hnd as [Hx _]. apply Hx, elem_of_app. right. by left.
  - exfalso. apply NoDup_cons in Hnd as [Hx _]. apply Hx, elem_of_app. right. by left.
  - apply NoDup_cons in Hnd as [_ Hnd]. destruct (IH l2) as [-> ->]; done.
Qed.

Lemma list_omap_cons {A B} (f : A → option B) x (l : list A) :
  omap f (x :: l) = match f x with Some y => y :: omap f l | None => omap f l end.
Proof. done. Qed.

(** Mapping over [seqZ 0 n] as an array initialiser. *)
Lemma lookup_fmap_seqZ {A} (f : Z → A) n (k : nat) :
  (f <$> seqZ 0 n) !! k = if decide (Z.of_nat k < n) then Some (f (Z.of_nat k)) else None.
Proof.
  rw list_lookup_fmap. case_decide.
  - rw lookup_seqZ_lt; [lia|]. simpl. f_equal.
  - rw lookup_seqZ_ge; [lia|done].
Qed.

Lemma fmap_seqZ_insert {A} (f g : Z → A) n (k : nat) x :
  Z.of_nat k < n →
  (∀ j : nat, Z.of_nat j < n → f (Z.of_nat j) = if decide (j = k) then x else g (Z.of_nat j)) →
  f <$> seqZ 0 n = <[k := x]> (g <$> seqZ 0 n).
Proof.
  intros Hk H. apply list_eq. intros j. rw lookup_fmap_seqZ.
  destruct (decide (j = k)) as [->|Hne].
  - rw decide_True; [done|]. rw H; [done|]. rw decide_True; [done|].
    rw list_lookup_insert_eq; [|done]. rw length_fmap length_seqZ. lia.
  - rw list_lookup_insert_ne; [congruence|]. rw lookup_fmap_seqZ. case_decide; [|done].
    rw H; [done|]. by rw decide_False.
Qed.

Lemma seqZ_snoc n : 0 ≤ n → seqZ 0 (n + 1) = seqZ 0 n ++ [n].
Proof. intros. rw seqZ_app; [lia..|]. f_equal. Qed.

(** ** Proof automation *)

Create HintDb bytedb.
Create Rewrite HintDb bytedb.
#[export] Hint Resolve zlen_nonneg le_bytes_ok be_bytes_ok : bytedb.
#[export] Hint Rewrite @length_le_bytes @length_be_bytes : bytedb.

(** Split the boolean tests the code branches on into propositions. *)
Ltac case_bool :=
  match goal with
  | H : context [?a <=? ?b] |- _ => destruct (Z.leb_spec a b)
  | H : context [?a <? ?b] |- _ => destruct (Z.ltb_spec a b)
  | H : context [?a =? ?b] |- _ => destruct (Z.eqb_spec a b)
  | |- context [?a <=? ?b] => destruct (Z.leb_spec a b)
  | |- context [?a <? ?b] => destruct (Z.ltb_spec a b)
  | |- context [?a =? ?b] => destruct (Z.eqb_spec a b)
  end.

(** Invert the binds and matches of an equation [op s = Some r]. *)
Ltac inv_opt :=
  repeat match goal with
  | H : mbind _ _ = Some _ |- _ => apply bind_Some in H as (? & ? & ?)
  | H : Some _ = Some _ |- _ => injection H as H; try subst
  | H : Some _ = None |- _ => discriminate H
  | H : None = Some _ |- _ => discriminate H
  end.

(** Filters that keep nothing, and everything. *)
Lemma filter_none {A} (P : A → Prop) `{!∀ x, Decision (P x)} l :
  Forall (λ x, ¬ P x) l → filter P l = [].
Proof. induction 1 as [|x l Hx _ IH]; [done|]. by rw filter_cons_False. Qed.

Lemma filter_every {A} (P : A → Prop) `{!∀ x, Decision (P x)} l :
  Forall P l → filter P l = l.
Proof. induction 1 as [|x l Hx _ IH]; [done|]. by rw filter_cons_True; [|rw IH]. Qed.

Lemma Forall_filter_keep {A} (P Q : A → Prop) `{!∀ x, Decision (Q x)} l :
  Forall P l → Forall P (filter Q l).
Proof. rw !Forall_forall. intros HP x [_ Hx]%list_elem_of_filter. by apply HP. Qed.

(** ** Hash maps

    A [HashMap] is a [gmap]; the order in which it is iterated is not
    specified by its interface, so that the code that iterates one is modelled
    for every order: [hash_iter] is any enumeration of the entries. *)
Class HashOrder := {
  hash_iter : ∀ {K V : Type} `{Countable K}, gmap K V → list (K * V);
  hash_iter_perm : ∀ {K V : Type} `{Countable K} (m : gmap K V), hash_iter m ≡ₚ map_to_list m
}.

#[export] Instance some_hash_order : HashOrder.
Proof. exists (λ _ _ _ _ m, map_to_list m). done. Defined.

Section hash.
Context `{HashOrder} {K V : Type} `{Countable K}.
Implicit Types m : gmap K V.

Definition hash_keys m : list K := (hash_iter m).*1.
Definition hash_values m : list V := (hash_iter m).*2.

Lemma elem_of_hash_iter m k v : (k, v) ∈ hash_iter m ↔ m !! k = Some v.
Proof. rw hash_iter_perm. apply elem_of_map_to_list. Qed.

Lemma elem_of_hash_keys m k : k ∈ hash_keys m ↔ is_Some (m !! k).
Proof.
  unfold hash_keys. rw list_elem_of_fmap. split.
  - intros [[k' v] [-> Hin%elem_of_hash_iter]]. by exists v.
  - intros [v Hv]. exists (k, v). split; [done|]. by apply elem_of_hash_iter.
Qed.

Lemma elem_of_hash_values m v : v ∈ hash_values m ↔ ∃ k, m !! k = Some v.
Proof.
  unfold hash_values. rw list_elem_of_fmap. split.
  - intros [[k v'] [-> Hin%elem_of_hash_iter]]. by exists k.
  - intros [k Hv]. exists (k, v). split; [done|]. by apply elem_of_hash_iter.
Qed.

Lemma NoDup_hash_keys m : NoDup (hash_keys m).
Proof. unfold hash_keys. rw hash_iter_perm. apply NoDup_fst_map_to_list. Qed.
End hash.

(** [Iterator::all] decides [Forall]. *)
Lemma forallb_Forall {A} (f : A → bool) (P : A → Prop) l :
  (∀ x, f x = true ↔ P x) → forallb f l = true ↔ Forall P l.
Proof.
  intros Hf. induction l as [|x l IH]; cbn [forallb]; [split; [constructor|done]|].
  rw andb_true_iff Forall_cons Hf IH. done.
Qed.

(** [Iterator::min]. *)
Definition list_min (l : list Z) : option Z :=
  match l with
  | [] => None
  | x :: l' => Some (foldr Z.min x l')
  end.

Lemma foldr_min_spec x l : foldr Z.min x l ≤ x ∧ ∀ y, y ∈ l → foldr Z.min x l ≤ y.
Proof.
  induction l as [|a l [IH1 IH2]]; simpl; [split; [lia|set_solver]|].
  split; [lia|]. intros y [->|Hy]%elem_of_cons; [lia|]. specialize (IH2 y Hy). lia.
Qed.

Lemma list_min_le l y d : y ∈ l → default d (list_min l) ≤ y.
Proof.
  destruct l as [|x l]; [set_solver|]. simpl.
  destruct (foldr_min_spec x l) as [H1 H2]. intros [->|Hy]%elem_of_cons; auto.
Qed.

(** [AtomicU64::fetch_add]: the counter wraps at [2^64]. *)
Definition fetch_add (z d : Z) : Z := wrap 64 (z + d).
