(* ===== verification/ByteOrder.v ===== *)
(** Byte strings ordered as Rust orders [&[u8]]: lexicographically, a prefix
    before its extensions. The key order of the B+Tree and the order that
    [index/order_key.rs] has to reflect. *)
From S2P Require Import Prelude.
From Stdlib Require Import OrdersTac Orders.
#[local] Open Scope Z_scope.

(** [<[u8] as Ord>::cmp]. *)
Fixpoint bcmp (a b : list Z) : comparison :=
  match a, b with
  | [], [] => Eq
  | [], _ :: _ => Lt
  | _ :: _, [] => Gt
  | x :: a', y :: b' =>
      match x ?= y with
      | Eq => bcmp a' b'
      | c => c
      end
  end.

Definition blt (a b : list Z) : Prop := bcmp a b = Lt.
Definition ble (a b : list Z) : Prop := bcmp a b ≠ Gt.

(** The comparisons the code writes. *)
Definition bltb (a b : list Z) : bool := match bcmp a b with Lt => true | _ => false end.
Definition bleb (a b : list Z) : bool := match bcmp a b with Gt => false | _ => true end.

(** [slice::starts_with]. *)
Fixpoint starts_with (k p : list Z) {struct p} : bool :=
  match p, k with
  | [], _ => true
  | _ :: _, [] => false
  | y :: p', x :: k' => (x =? y) && starts_with k' p'
  end.

Lemma bcmp_refl a : bcmp a a = Eq.
Proof. induction a as [|x a IH]; simpl; [done|]. by rw Z.compare_refl. Qed.

Lemma bcmp_eq a b : bcmp a b = Eq ↔ a = b.
Proof.
  split; [|intros ->; apply bcmp_refl].
  revert b. induction a as [|x a IH]; intros [|y b]; simpl; try done.
  destruct (Z.compare_spec x y); try done. intros ?%IH. congruence.
Qed.

Lemma bcmp_antisym a b : bcmp b a = CompOpp (bcmp a b).
Proof.
  revert b. induction a as [|x a IH]; intros [|y b]; simpl; try done.
  rw (Z.compare_antisym x y). by destruct (x ?= y); simpl.
Qed.

Lemma bcmp_trans a b c : bcmp a b = Lt → bcmp b c = Lt → bcmp a c = Lt.
Proof.
  revert b c. induction a as [|x a IH]; intros [|y b] [|z c]; simpl; try done.
  destruct (Z.compare_spec x y), (Z.compare_spec y z); try done; subst; intros H1 H2.
  - rw Z.compare_refl. by apply IH with b.
  - by rw (proj2 (Z.compare_lt_iff _ _)).
  - by rw (proj2 (Z.compare_lt_iff _ _)).
  - rw (proj2 (Z.compare_lt_iff _ _)); [lia|done].
Qed.

(** The decision procedure for chains of [blt], [ble] and [=]. *)
Module ByteStringTO <: TotalOrder.
Definition t := list Z.
Definition eq := @Logic.eq t.
Definition lt := blt.
Definition le := ble.
Definition eq_equiv : Equivalence eq := _.
Lemma lt_strorder : StrictOrder lt.
Proof.
  split.
  - intros a H. unfold lt, blt in H. by rw bcmp_refl in H.
  - intros a b c. apply bcmp_trans.
Qed.
Lemma lt_compat : Proper (eq ==> eq ==> iff) lt.
Proof. by intros a b -> c d ->. Qed.
Lemma le_lteq x y : le x y ↔ lt x y ∨ eq x y.
Proof.
  unfold le, ble, lt, blt, eq. rw -bcmp_eq. destruct (bcmp x y); naive_solver.
Qed.
Lemma lt_total x y : lt x y ∨ eq x y ∨ lt y x.
Proof.
  unfold lt, blt, eq. rw -bcmp_eq (bcmp_antisym x y). destruct (bcmp x y); naive_solver.
Qed.
End ByteStringTO.

Module ByteStringTac := MakeOrderTac ByteStringTO ByteStringTO.

(** [border] proves facts that follow from a linear order on byte strings. *)
Ltac border :=
  change blt with ByteStringTO.lt in *; change ble with ByteStringTO.le in *;
  ByteStringTac.order.

#[export] Instance blt_strict : StrictOrder blt.
Proof. apply ByteStringTO.lt_strorder. Qed.

#[export] Instance blt_dec a b : Decision (blt a b).
Proof. unfold blt. destruct (bcmp a b); [right|left|right]; done. Defined.
#[export] Instance ble_dec a b : Decision (ble a b).
Proof. unfold ble. destruct (bcmp a b); [left|left|right]; naive_solver. Defined.

Lemma bltb_spec a b : reflect (blt a b) (bltb a b).
Proof. unfold bltb, blt. destruct (bcmp a b); by constructor. Qed.

Lemma bleb_spec a b : reflect (ble a b) (bleb a b).
Proof. unfold bleb, ble. destruct (bcmp a b); constructor; congruence. Qed.

Lemma blt_total a b : blt a b ∨ a = b ∨ blt b a.
Proof. apply ByteStringTO.lt_total. Qed.

Lemma not_blt a b : ¬ blt a b ↔ ble b a.
Proof. destruct (blt_total a b) as [?|[?|?]]; split; intros; border. Qed.

Lemma not_ble a b : ¬ ble a b ↔ blt b a.
Proof. destruct (blt_total a b) as [?|[?|?]]; split; intros; border. Qed.

Lemma ble_refl a : ble a a.
Proof. border. Qed.

Lemma blt_irrefl a : ¬ blt a a.
Proof. border. Qed.

Lemma ble_trans a b c : ble a b → ble b c → ble a c.
Proof. intros. border. Qed.

Lemma ble_blt_trans a b c : ble a b → blt b c → blt a c.
Proof. intros. border. Qed.

Lemma blt_ble_trans a b c : blt a b → ble b c → blt a c.
Proof. intros. border. Qed.

Lemma blt_ble a b : blt a b → ble a b.
Proof. intros. border. Qed.

(** ** Prefixes *)

Lemma starts_with_app p k : starts_with (p ++ k) p = true.
Proof. induction p as [|x p IH]; simpl; [done|]. by rw Z.eqb_refl. Qed.

Lemma starts_with_true k p : starts_with k p = true ↔ ∃ s, k = p ++ s.
Proof.
  split; [|intros [s ->]; apply starts_with_app].
  revert k. induction p as [|y p IH]; intros k; [by exists k|].
  destruct k as [|x k]; simpl; [done|]. intros [->%Z.eqb_eq [s ->]%IH]%andb_prop. by exists s.
Qed.

Lemma bcmp_app_l p a b : bcmp (p ++ a) (p ++ b) = bcmp a b.
Proof. induction p as [|x p IH]; simpl; [done|]. by rw Z.compare_refl. Qed.

Lemma starts_with_ble k p : starts_with k p = true → ble p k.
Proof.
  intros [s ->]%starts_with_true. unfold ble.
  rw -{1}(app_nil_r p) bcmp_app_l. by destruct s.
Qed.

(** Keys with a given prefix form an interval: beyond the first key that is
    above the prefix and does not extend it, no key does. *)
Lemma starts_with_convex k k' p :
  starts_with k p = false → blt p k → ble k k' → starts_with k' p = false.
Proof.
  revert k k'. induction p as [|y p IH]; intros k k'; [done|].
  destruct k as [|x k], k' as [|x' k']; try done; unfold blt, ble; simpl.
  destruct (Z.compare_spec y x) as [->|Hyx|]; try done.
  - rw Z.eqb_refl. cbn [andb]. destruct (Z.compare_spec x x') as [->|?|?]; try done.
    + rw Z.eqb_refl. apply IH.
    + intros. by rw (proj2 (Z.eqb_neq x' x)); [lia|].
  - intros _ _ Hle. rw (proj2 (Z.eqb_neq x' y)); [|done].
    destruct (Z.compare_spec x x'); try done; lia.
Qed.

(** ** Sorted key lists *)

Lemma SSorted_NoDup (l : list (list Z)) : StronglySorted blt l → NoDup l.
Proof.
  induction 1 as [|a l _ IH Hall]; constructor; [|done].
  intros Hin. rw Forall_forall in Hall. by apply (blt_irrefl a), Hall.
Qed.

Lemma SSorted_unique (l1 l2 : list (list Z)) :
  StronglySorted blt l1 → StronglySorted blt l2 → (∀ k, k ∈ l1 ↔ k ∈ l2) → l1 = l2.
Proof.
  intros H1. revert l2. induction H1 as [|a l1 Hs IH Ha]; intros l2 H2 Heq.
  { destruct l2 as [|b l2]; [done|]. exfalso. apply (not_elem_of_nil b), Heq. by left. }
  rw Forall_forall in Ha. destruct H2 as [|b l2 Hs2 Hb].
  { exfalso. apply (not_elem_of_nil a), Heq. by left. }
  rw Forall_forall in Hb.
  assert (a = b) as ->.
  { assert (a ∈ b :: l2) as [?|Hin]%elem_of_cons by (apply Heq; by left); [done|].
    assert (b ∈ a :: l1) as [?|Hin']%elem_of_cons by (apply Heq; by left); [done|].
    specialize (Ha _ Hin'). specialize (Hb _ Hin). border. }
  f_equal. apply IH; [done|]. intros k. specialize (Heq k). rw !elem_of_cons in Heq.
  assert (k = b → k ∈ l1 → False) by (intros -> Hk; apply (blt_irrefl b), Ha, Hk).
  assert (k = b → k ∈ l2 → False) by (intros -> Hk; apply (blt_irrefl b), Hb, Hk).
  naive_solver.
Qed.
