(* ===== verification/BTree.v ===== *)
(** The B+Tree index of [bytedb-core/src/index/btree.rs] (a B-link tree: every
    node has a high key and a right link), with the iterator of
    [index/iterator.rs].

    Nodes are shared through [Arc]s, so the model keeps them in a heap indexed
    by node identity; an operation is a function of the heap. Threads are not
    interleaved: every lock is free, the re-check and root-change branches that
    guard against concurrent splits are part of the definitions all the same. *)
From S2P Require Import Prelude ByteOrder.

Module BTree.

Inductive BTreeNode : Type :=
  | Internal (keys : list (list Z)) (children : list nat)
      (high_key : option (list Z)) (right_link : option nat)
  | Leaf (keys values : list (list Z))
      (high_key : option (list Z)) (right_link : option nat).

Definition high_key (n : BTreeNode) : option (list Z) :=
  match n with Internal _ _ hk _ => hk | Leaf _ _ hk _ => hk end.

Definition right_link (n : BTreeNode) : option nat :=
  match n with Internal _ _ _ rl => rl | Leaf _ _ _ rl => rl end.

(** [next] is the identity the next allocated node gets. *)
Record BPlusTree : Type := mkTree {
  root : nat;
  order : nat;
  name : string;
  len : Z;
  heap : gmap nat BTreeNode;
  next : nat
}.

Definition new (nm : string) (ord : nat) : BPlusTree :=
  mkTree 0 ord nm 0 {[0%nat := Leaf [] [] None None]} 1.

Definition approx_len (t : BPlusTree) : Z := len t.

(** [slice::partition_point (|k| k <= key)]: the length of the prefix that
    satisfies the predicate. *)
Fixpoint partition_point (ks : list (list Z)) (key : list Z) : nat :=
  match ks with
  | [] => 0%nat
  | k :: ks' => if bleb k key then S (partition_point ks' key) else 0%nat
  end.

(** [slice::binary_search_by (|k| k.cmp(key))] on a sorted slice without
    duplicates: [inl] the position of the key, or [inr] where it belongs. *)
Fixpoint binary_search (ks : list (list Z)) (key : list Z) : nat + nat :=
  match ks with
  | [] => inr 0%nat
  | k :: ks' =>
      match bcmp k key with
      | Lt => match binary_search ks' key with inl i => inl (S i) | inr i => inr (S i) end
      | Eq => inl 0%nat
      | Gt => inr 0%nat
      end
  end.

(** [Vec::insert]. *)
Definition vec_insert {A} (i : nat) (x : A) (l : list A) : list A := take i l ++ x :: drop i l.
(** [Vec::remove]. *)
Definition vec_remove {A} (i : nat) (l : list A) : list A := take i l ++ drop (S i) l.

(** [move_right_read] and [move_right_write]: the same loop; a dangling link or
    exhausted fuel is [None]. *)
Fixpoint move_right (fuel : nat) (h : gmap nat BTreeNode) (p : nat) (key : list Z) : option nat :=
  match fuel with
  | O => None
  | S fuel' =>
      node ← h !! p;
      match high_key node, right_link node with
      | Some hk, Some q => if bltb hk key then move_right fuel' h q key else Some p
      | _, _ => Some p
      end
  end.

(** [find_leaf_read]. *)
Fixpoint find_leaf_loop (fuel : nat) (h : gmap nat BTreeNode) (p : nat) (key : list Z) : option nat :=
  match fuel with
  | O => None
  | S fuel' =>
      cur ← move_right (size h) h p key;
      node ← h !! cur;
      match node with
      | Leaf _ _ _ _ => Some cur
      | Internal ks cs _ _ =>
          c ← cs !! partition_point ks key;
          find_leaf_loop fuel' h c key
      end
  end.

Definition find_leaf_read (t : BPlusTree) (key : list Z) : option nat :=
  find_leaf_loop (size (heap t)) (heap t) (root t) key.

(** The descent of [insert], which also records the path; the node visited
    last comes first. *)
Fixpoint descend (fuel : nat) (h : gmap nat BTreeNode) (p : nat) (key : list Z)
    (path : list nat) : option (nat * list nat) :=
  match fuel with
  | O => None
  | S fuel' =>
      cur ← move_right (size h) h p key;
      node ← h !! cur;
      match node with
      | Leaf _ _ _ _ => Some (cur, path)
      | Internal ks cs _ _ =>
          c ← cs !! partition_point ks key;
          descend fuel' h c key (cur :: path)
      end
  end.

(** [leaf_insert_locked] on the leaf's fields: the changed leaf, the new right
    leaf with its split key if it split ([q] is the new leaf's identity), and
    the change of [len]. *)
Definition leaf_insert_locked (ord q : nat) (ks vs : list (list Z)) (hk : option (list Z))
    (rl : option nat) (key value : list Z)
    : option (BTreeNode * option (list Z * BTreeNode) * Z) :=
  match binary_search ks key with
  | inl i => Some (Leaf ks (<[i := value]> vs) hk rl, None, 0)
  | inr pos =>
      let ks1 := vec_insert pos key ks in
      let vs1 := vec_insert pos value vs in
      if (length ks1 <? ord)%nat then Some (Leaf ks1 vs1 hk rl, None, 1)
      else
        let mid := (length ks1 / 2)%nat in
        let right_keys := drop mid ks1 in
        let right_values := drop mid vs1 in
        split_key ← right_keys !! 0%nat;
        let right_leaf := Leaf right_keys right_values (last right_keys) rl in
        let left_keys := take mid ks1 in
        Some (Leaf left_keys (take mid vs1) (last left_keys) (Some q),
              Some (split_key, right_leaf), 1)
  end.

(** [internal_insert_locked] on the node's fields. *)
Definition internal_insert_locked (ord q : nat) (ks : list (list Z)) (cs : list nat)
    (hk : option (list Z)) (rl : option nat) (split_key : list Z) (new_child : nat)
    : option (BTreeNode * option (list Z * BTreeNode)) :=
  let idx := partition_point ks split_key in
  let ks1 := vec_insert idx split_key ks in
  let cs1 := vec_insert (S idx) new_child cs in
  if (length ks1 <? ord)%nat then Some (Internal ks1 cs1 hk rl, None)
  else
    let mid := (length ks1 / 2)%nat in
    promoted ← ks1 !! mid;
    let right_node := Internal (drop (S mid) ks1) (drop (S mid) cs1) hk rl in
    (* [split_off (mid + 1)] keeps [mid + 1] keys, [pop] drops the promoted one *)
    Some (Internal (take mid ks1) (take (S mid) cs1) (Some promoted) (Some q),
          Some (promoted, right_node)).

(** The loop over [path.iter().rev()]: the heap, the next free identity, and
    the split that is still to be handled above the path. *)
Fixpoint propagate (ord : nat) (h : gmap nat BTreeNode) (nxt : nat) (path : list nat)
    (sk : list Z) (child : nat)
    : option (gmap nat BTreeNode * nat * option (list Z * nat)) :=
  match path with
  | [] => Some (h, nxt, Some (sk, child))
  | parent :: path' =>
      p ← move_right (size h) h parent sk;
      node ← h !! p;
      match node with
      | Internal ks cs hk rl =>
          r ← internal_insert_locked ord nxt ks cs hk rl sk child;
          match r with
          | (node', None) => Some (<[p := node']> h, nxt, None)
          | (node', Some (promoted, right_node)) =>
              propagate ord (<[nxt := right_node]> (<[p := node']> h)) (S nxt) path' promoted nxt
          end
      | Leaf _ _ _ _ => None
      end
  end.

(** The branch taken when another thread replaced the root: look for the split
    node from the new root, and return. *)
Fixpoint locate_split (fuel : nat) (h : gmap nat BTreeNode) (p : nat) (sk : list Z) (child : nat)
    : option unit :=
  match fuel with
  | O => None
  | S fuel' =>
      cur ← move_right (size h) h p sk;
      node ← h !! cur;
      match node with
      | Internal ks cs _ _ =>
          if bool_decide (child ∈ cs) then Some tt
          else
            c ← cs !! partition_point ks sk;
            locate_split fuel' h c sk child
      | Leaf _ _ _ _ => Some tt
      end
  end.

(** The loop of [insert]. [root_now] is what the root lock shows at the end: the
    root the operation started from, unless another thread changed it. *)
Fixpoint insert_loop (root_now fuel : nat) (t : BPlusTree) (key value : list Z)
    : option BPlusTree :=
  match fuel with
  | O => None
  | S fuel' =>
      '(leaf, path) ← descend (size (heap t)) (heap t) (root t) key [];
      node ← heap t !! leaf;
      match node with
      | Internal _ _ _ _ => None
      | Leaf ks vs hk rl =>
          if match hk with
             | Some hkv => bltb hkv key && (if rl is Some _ then true else false)
             | None => false
             end
          then insert_loop root_now fuel' t key value
          else
            '(leaf', split, dlen) ← leaf_insert_locked (order t) (next t) ks vs hk rl key value;
            let h1 := <[leaf := leaf']> (heap t) in
            match split with
            | None => Some (mkTree (root t) (order t) (name t) (len t + dlen) h1 (next t))
            | Some (sk, right_leaf) =>
                '(h2, nxt, rest) ←
                  propagate (order t) (<[next t := right_leaf]> h1) (S (next t)) path sk (next t);
                match rest with
                | None => Some (mkTree (root t) (order t) (name t) (len t + dlen) h2 nxt)
                | Some (sk', child) =>
                    if bool_decide (root_now = root t) then
                      Some (mkTree nxt (order t) (name t) (len t + dlen)
                              (<[nxt := Internal [sk'] [root_now; child] None None]> h2) (S nxt))
                    else
                      _ ← locate_split (size h2) h2 root_now sk' child;
                      Some (mkTree root_now (order t) (name t) (len t + dlen) h2 nxt)
                end
            end
      end
  end.

(** One pass always suffices without interference; the second is there so that
    the retry is part of the model. *)
Definition insert (t : BPlusTree) (key value : list Z) : option BPlusTree :=
  insert_loop (root t) 2 t key value.

Definition search (t : BPlusTree) (key : list Z) : option (option (list Z)) :=
  leaf ← find_leaf_read t key;
  node ← heap t !! leaf;
  match node with
  | Leaf ks vs _ _ =>
      match binary_search ks key with
      | inl i => Some <$> vs !! i
      | inr _ => Some None
      end
  | Internal _ _ _ _ => Some None
  end.

Definition delete (t : BPlusTree) (key : list Z) : option (BPlusTree * bool) :=
  leaf ← find_leaf_read t key;
  node ← heap t !! leaf;
  match node with
  | Leaf ks vs hk rl =>
      match binary_search ks key with
      | inl pos =>
          Some (mkTree (root t) (order t) (name t) (len t - 1)
                  (<[leaf := Leaf (vec_remove pos ks) (vec_remove pos vs) hk rl]> (heap t))
                  (next t), true)
      | inr _ => Some (t, false)
      end
  | Internal _ _ _ _ => Some (t, false)
  end.

(** [find_leftmost_leaf]. *)
Fixpoint leftmost_loop (fuel : nat) (h : gmap nat BTreeNode) (p : nat) : option nat :=
  match fuel with
  | O => None
  | S fuel' =>
      node ← h !! p;
      match node with
      | Leaf _ _ _ _ => Some p
      | Internal _ cs _ _ => c ← cs !! 0%nat; leftmost_loop fuel' h c
      end
  end.

Definition find_leftmost_leaf (t : BPlusTree) : option nat :=
  leftmost_loop (size (heap t)) (heap t) (root t).

(** The scans share one loop: walk the leaf chain from [cur] and hand the
    pairs of each leaf to [visit], whose answer says whether to go on. *)
Fixpoint scan_loop {R} (fuel : nat) (h : gmap nat BTreeNode)
    (visit : R → list (list Z) → list (list Z) → R * bool)
    (cur : option nat) (acc : R) : option R :=
  match cur with
  | None => Some acc
  | Some p =>
      match fuel with
      | O => None
      | S fuel' =>
          node ← h !! p;
          match node with
          | Internal _ _ _ _ => Some acc
          | Leaf ks vs _ rl =>
              let '(acc', continue) := visit acc ks vs in
              if continue then scan_loop fuel' h visit rl acc' else Some acc'
          end
      end
  end.

(** The position the first leaf of a ranged scan starts from. *)
Definition scan_start (ks : list (list Z)) (start : list Z) : nat :=
  match binary_search ks start with inl i => i | inr i => i end.

(** The inner loop of [range_scan]: the pairs up to [end], and whether the leaf
    was exhausted. *)
Fixpoint take_to (stop : list Z) (kvs : list (list Z * list Z)) : list (list Z * list Z) * bool :=
  match kvs with
  | [] => ([], true)
  | (k, v) :: kvs' =>
      if bltb stop k then ([], false)
      else let '(r, b) := take_to stop kvs' in ((k, v) :: r, b)
  end.

Definition range_visit (start stop : list Z)
    (acc : bool * list (list Z * list Z)) (ks vs : list (list Z))
    : bool * list (list Z * list Z) * bool :=
  let start_idx := if acc.1 then scan_start ks start else 0%nat in
  let '(r, b) := take_to stop (drop start_idx (zip ks vs)) in
  (false, acc.2 ++ r, b).

Definition range_scan (t : BPlusTree) (start stop : list Z) : option (list (list Z * list Z)) :=
  leaf ← find_leaf_read t start;
  snd <$> scan_loop (size (heap t)) (heap t) (range_visit start stop) (Some leaf) (true, []).

(** The inner loop of [prefix_scan]. *)
Fixpoint take_prefix (prefix : list Z) (kvs : list (list Z * list Z))
    : list (list Z * list Z) * bool :=
  match kvs with
  | [] => ([], true)
  | (k, v) :: kvs' =>
      if negb (starts_with k prefix) then
        if bltb prefix k then ([], false) else take_prefix prefix kvs'
      else let '(r, b) := take_prefix prefix kvs' in ((k, v) :: r, b)
  end.

Definition prefix_visit (prefix : list Z)
    (acc : bool * list (list Z * list Z)) (ks vs : list (list Z))
    : bool * list (list Z * list Z) * bool :=
  let start_idx := if acc.1 then scan_start ks prefix else 0%nat in
  let '(r, b) := take_prefix prefix (drop start_idx (zip ks vs)) in
  (false, acc.2 ++ r, b).

Definition scan_all (t : BPlusTree) : option (list (list Z * list Z)) :=
  leaf ← find_leftmost_leaf t;
  scan_loop (size (heap t)) (heap t) (λ acc ks vs, (acc ++ zip ks vs, true)) (Some leaf) [].

Definition prefix_scan (t : BPlusTree) (prefix : list Z) : option (list (list Z * list Z)) :=
  if prefix is [] then scan_all t
  else
    leaf ← find_leaf_read t prefix;
    snd <$> scan_loop (size (heap t)) (heap t) (prefix_visit prefix) (Some leaf) (true, []).

Definition count (t : BPlusTree) : option nat :=
  leaf ← find_leftmost_leaf t;
  scan_loop (size (heap t)) (heap t) (λ acc ks _, ((acc + length ks)%nat, true)) (Some leaf) 0%nat.

(** [for_each] with a callback that threads a state and says whether to go on. *)
Fixpoint visit_pairs {S} (f : S → list Z → list Z → S * bool) (s : S)
    (kvs : list (list Z * list Z)) : S * bool :=
  match kvs with
  | [] => (s, true)
  | (k, v) :: kvs' =>
      let '(s', go) := f s k v in
      if go then visit_pairs f s' kvs' else (s', false)
  end.

Definition for_each {S} (t : BPlusTree) (f : S → list Z → list Z → S * bool) (s : S) : option S :=
  leaf ← find_leftmost_leaf t;
  scan_loop (size (heap t)) (heap t) (λ s ks vs, visit_pairs f s (zip ks vs)) (Some leaf) s.

(** The loop of [for_each_batch] over one leaf's values: a full batch is handed
    to the callback; the flag says whether to go on. *)
Fixpoint batch_values {S} (batch_size : nat) (f : S → list (list Z) → S * bool)
    (s : S) (owned_batch vs : list (list Z)) : S * list (list Z) * bool :=
  match vs with
  | [] => (s, owned_batch, true)
  | v :: vs' =>
      let owned_batch := owned_batch ++ [v] in
      if (batch_size <=? length owned_batch)%nat then
        let '(s', go) := f s owned_batch in
        if go then batch_values batch_size f s' [] vs' else (s', [], false)
      else batch_values batch_size f s owned_batch vs'
  end.

Definition batch_visit {S} (batch_size : nat) (f : S → list (list Z) → S * bool)
    (acc : S * list (list Z) * bool) (_ vs : list (list Z)) : S * list (list Z) * bool * bool :=
  let r := batch_values batch_size f acc.1.1 acc.1.2 vs in (r, r.2).

Definition for_each_batch {S} (t : BPlusTree) (batch_size : nat)
    (f : S → list (list Z) → S * bool) (s : S) : option S :=
  leaf ← find_leftmost_leaf t;
  '(s', owned_batch, _) ←
    scan_loop (size (heap t)) (heap t) (batch_visit batch_size f) (Some leaf) (s, [], true);
  (* an early return leaves nothing in the batch *)
  Some (if owned_batch is [] then s' else (f s' owned_batch).1).

Definition for_each_leaf_batch {S} (t : BPlusTree) (f : S → list (list Z) → S * bool) (s : S)
    : option S :=
  leaf ← find_leftmost_leaf t;
  scan_loop (size (heap t)) (heap t)
    (λ s _ vs, if vs is [] then (s, true) else f s vs) (Some leaf) s.

Definition collect_leaves (t : BPlusTree) : option (list (list (list Z * list Z))) :=
  leaf ← find_leftmost_leaf t;
  scan_loop (size (heap t)) (heap t)
    (λ acc ks vs, (if zip ks vs is [] then acc else acc ++ [zip ks vs], true)) (Some leaf) [].

Definition collect_leaf_values (t : BPlusTree) : option (list (list (list Z))) :=
  leaf ← find_leftmost_leaf t;
  scan_loop (size (heap t)) (heap t)
    (λ acc _ vs, (if vs is [] then acc else acc ++ [vs], true)) (Some leaf) [].

(** *** [index/iterator.rs] *)

Record BTreeIterator : Type := mkIter {
  items : list (list Z * list Z);
  position : nat
}.

Definition iter_new (t : BPlusTree) (start stop : option (list Z)) : option BTreeIterator :=
  l ← match start, stop with
      | Some s, Some e => range_scan t s e
      | _, _ => scan_all t
      end;
  Some (mkIter l 0).

Definition has_next (it : BTreeIterator) : bool := (position it <? length (items it))%nat.

Definition iter_next (it : BTreeIterator) : option (list Z * list Z) * BTreeIterator :=
  match items it !! position it with
  | Some item => (Some item, mkIter (items it) (S (position it)))
  | None => (None, it)
  end.

(** ** Searching sorted keys *)

Lemma binary_search_found ks key i : binary_search ks key = inl i → ks !! i = Some key.
Proof.
  revert i. induction ks as [|k ks IH]; intros i; simpl; [done|].
  destruct (bcmp k key) eqn:Hc; [|destruct (binary_search ks key); [|done]|done];
    intros [= <-]; simpl; [|by apply IH]. by apply bcmp_eq in Hc as ->.
Qed.

Lemma binary_search_absent ks key i :
  StronglySorted blt ks → binary_search ks key = inr i →
  (i ≤ length ks)%nat ∧ Forall (λ k, blt k key) (take i ks) ∧ Forall (blt key) (drop i ks).
Proof.
  intros Hs. revert i. induction Hs as [|k ks Hs IH Hk]; intros i; simpl.
  { intros [= <-]. by simpl. }
  destruct (bcmp k key) eqn:Hc; [done| |].
  - destruct (binary_search ks key) as [|j]; [done|]. intros [= <-].
    destruct (IH j eq_refl) as (?&?&?). simpl. split_and!; [lia|by constructor|done].
  - intros [= <-]. simpl. split_and!; [lia|constructor|].
    assert (blt key k) by (unfold blt; by rw bcmp_antisym Hc).
    constructor; [done|]. apply (Forall_impl _ _ _ Hk). intros x ?. border.
Qed.

Lemma partition_point_le ks key : (partition_point ks key ≤ length ks)%nat.
Proof. induction ks as [|k ks IH]; simpl; [lia|]. destruct (bleb k key); simpl; lia. Qed.

(** The separator in front of the chosen child is not above the key. *)
Lemma partition_point_pred ks key i s :
  partition_point ks key = S i → ks !! i = Some s → ble s key.
Proof.
  revert i. induction ks as [|k ks IH]; intros i; simpl; [done|].
  destruct (bleb_spec k key); [|done]. intros [= Hi]. destruct i as [|i]; simpl.
  - by intros [= <-].
  - by apply IH.
Qed.

Lemma partition_point_sorted ks key :
  StronglySorted ble ks → StronglySorted ble (vec_insert (partition_point ks key) key ks).
Proof.
  unfold vec_insert. induction 1 as [|k ks Hs IH Hk]; simpl; [repeat constructor|].
  destruct (bleb_spec k key) as [Hle|Hgt]; simpl.
  - constructor; [done|]. apply Forall_app. split; [by apply Forall_take|].
    constructor; [done|by apply Forall_drop].
  - apply not_ble in Hgt. constructor; [by constructor|]. constructor; [by apply blt_ble|].
    apply (Forall_impl _ _ _ Hk). intros x ?. border.
Qed.

(** ** Vectors *)

Lemma length_vec_insert {A} i (x : A) l : length (vec_insert i x l) = S (length l).
Proof. unfold vec_insert. rw length_app. simpl. rw -{3}(take_drop i l) length_app. lia. Qed.

Lemma length_vec_remove {A} i (l : list A) :
  (i < length l)%nat → length (vec_remove i l) = (length l - 1)%nat.
Proof. intros. unfold vec_remove. rw length_app length_take length_drop. lia. Qed.

Lemma elem_of_vec_insert {A} i (x y : A) l : y ∈ vec_insert i x l ↔ y = x ∨ y ∈ l.
Proof.
  unfold vec_insert. rw elem_of_app elem_of_cons -{3}(take_drop i l) elem_of_app. naive_solver.
Qed.

Lemma lookup_vec_insert {A} i (x : A) l (j : nat) :
  (i ≤ length l)%nat →
  vec_insert i x l !! j =
    if decide (j < i)%nat then l !! j else if decide (j = i) then Some x else l !! (j - 1)%nat.
Proof.
  intros Hi. unfold vec_insert.
  assert (length (take i l) = i) as Hl by (rw length_take; lia).
  case_decide; [rw lookup_app_l; [lia|]; by rw lookup_take_lt; [lia|]|].
  rw lookup_app_r; [lia|]. rw Hl. case_decide as Hji.
  - by rw Hji Nat.sub_diag.
  - destruct (j - i)%nat as [|m] eqn:Hm; [lia|]. simpl. rw lookup_drop. f_equal. lia.
Qed.

Lemma zip_vec_insert {A B} i (x : A) (y : B) l k :
  length l = length k → zip (vec_insert i x l) (vec_insert i y k) = vec_insert i (x, y) (zip l k).
Proof.
  intros Hl. unfold vec_insert. revert l k Hl.
  induction i as [|i IH]; intros [|a l] [|b k] [=]; simpl; try done. f_equal. by apply IH.
Qed.

Lemma zip_vec_remove {A B} i (l : list A) (k : list B) :
  length l = length k → zip (vec_remove i l) (vec_remove i k) = vec_remove i (zip l k).
Proof.
  intros Hl. unfold vec_remove. revert l k Hl.
  induction i as [|i IH]; intros [|a l] [|b k] [=]; simpl; try done. f_equal. by apply IH.
Qed.

Lemma fmap_vec_insert {A B} (f : A → B) i x l :
  f <$> vec_insert i x l = vec_insert i (f x) (f <$> l).
Proof. unfold vec_insert. by rw fmap_app fmap_cons fmap_take fmap_drop. Qed.

Lemma fmap_vec_remove {A B} (f : A → B) i l : f <$> vec_remove i l = vec_remove i (f <$> l).
Proof. unfold vec_remove. by rw fmap_app fmap_take fmap_drop. Qed.

Lemma vec_remove_sublist {A} i (l : list A) : vec_remove i l `sublist_of` l.
Proof.
  unfold vec_remove. rw -{3}(take_drop i l). apply sublist_app; [done|].
  replace (S i) with (i + 1)%nat by lia. rw -drop_drop. apply sublist_drop.
Qed.

End BTree.
