(* ===== verification/BTreeInv.v ===== *)
(** The B-link tree invariant and its preservation: every operation of
    [BTree.v] terminates within its fuel, keeps the invariant, and acts on the
    tree's sorted contents as the corresponding map operation. *)
From S2P Require Import Prelude ByteOrder BTree.
Import BTree.

(** ** The leaf level *)

Definition hk_of (h : gmap nat BTreeNode) (p : nat) : option (list Z) := h !! p ≫= high_key.

Definition lpairs (h : gmap nat BTreeNode) (p : nat) : list (list Z * list Z) :=
  match h !! p with Some (Leaf ks vs _ _) => zip ks vs | _ => [] end.

Definition content (h : gmap nat BTreeNode) (chain : list nat) : list (list Z * list Z) :=
  chain ≫= lpairs h.

Definition keys_of (l : list (list Z * list Z)) : list (list Z) := l.*1.

(** The leaf [p], followed in the chain by [B]: its link, and a high key that
    separates its keys from those behind it. *)
Definition leaf_at (h : gmap nat BTreeNode) (p : nat) (B : list nat) : Prop :=
  ∃ ks vs hk, h !! p = Some (Leaf ks vs hk (head B)) ∧ length ks = length vs ∧
    (B ≠ [] → ∃ hkv, hk = Some hkv ∧ Forall (λ k, ble k hkv) ks ∧
                     Forall (blt hkv) (keys_of (content h B))).

Record leaf_inv (h : gmap nat BTreeNode) (chain : list nat) : Prop := {
  li_nodup : NoDup chain;
  li_node : ∀ A p B, chain = A ++ p :: B → leaf_at h p B;
  li_sorted : StronglySorted blt (keys_of (content h chain))
}.

(** The high key of [p] is below [s]. *)
Definition hk_below (h : gmap nat BTreeNode) (s : list Z) (p : nat) : Prop :=
  ∃ hkv, hk_of h p = Some hkv ∧ blt hkv s.

(** Every leaf in front of [l] has its high key below [s]: a search for a key
    not below [s] may start at [l]. *)
Definition before (h : gmap nat BTreeNode) (chain : list nat) (l : nat) (s : list Z) : Prop :=
  ∃ A B, chain = A ++ l :: B ∧ Forall (hk_below h s) A.

(** The leaf a key belongs to. *)
Definition target (h : gmap nat BTreeNode) (key : list Z) (A : list nat) (p : nat) (B : list nat) : Prop :=
  Forall (hk_below h key) A ∧ (B ≠ [] → ∃ hkv, hk_of h p = Some hkv ∧ ble key hkv).

Lemma content_app h A B : content h (A ++ B) = content h A ++ content h B.
Proof. apply bind_app. Qed.

Lemma content_cons h p B : content h (p :: B) = lpairs h p ++ content h B.
Proof. done. Qed.

Lemma keys_of_app l1 l2 : keys_of (l1 ++ l2) = keys_of l1 ++ keys_of l2.
Proof. apply fmap_app. Qed.

Lemma keys_of_zip (ks vs : list (list Z)) : length ks = length vs → keys_of (zip ks vs) = ks.
Proof. intros. apply fst_zip. lia. Qed.

Lemma content_ext h h' C :
  (∀ p, p ∈ C → lpairs h' p = lpairs h p) → content h' C = content h C.
Proof.
  unfold content. induction C as [|p C IH]; intros He; [done|]. cbn [mbind list_bind].
  rw (He p); [by left|]. by rw IH; [intros q Hq; apply He; by right|].
Qed.

Lemma lpairs_heap h h' p : h' !! p = h !! p → lpairs h' p = lpairs h p.
Proof. unfold lpairs. by intros ->. Qed.

Lemma hk_of_heap h h' p : h' !! p = h !! p → hk_of h' p = hk_of h p.
Proof. unfold hk_of. by intros ->. Qed.

Lemma hk_below_mono h s s' p : hk_below h s p → ble s s' → hk_below h s' p.
Proof. intros (hkv & ? & ?) ?. exists hkv. split; [done|]. border. Qed.

Lemma before_mono h C l s s' : before h C l s → ble s s' → before h C l s'.
Proof.
  intros (A & B & -> & HA) ?. exists A, B. split; [done|].
  apply (Forall_impl _ _ _ HA). intros p ?. by apply (hk_below_mono h s).
Qed.

Lemma before_elem h C l s : before h C l s → l ∈ C.
Proof. intros (A & B & -> & _). apply elem_of_app. right. by left. Qed.

Lemma before_ext h h' C l s :
  (∀ p, p ∈ C → hk_of h' p = hk_of h p) → before h C l s → before h' C l s.
Proof.
  intros He (A & B & -> & HA). exists A, B. split; [done|].
  rw Forall_forall in HA. apply Forall_forall. intros p Hp.
  destruct (HA p Hp) as (hkv & Hhk & Hlt). exists hkv. split; [|done].
  rw He; [|done]. apply elem_of_app. by left.
Qed.

Lemma before_head h C l s : head C = Some l → before h C l s.
Proof. destruct C as [|x C]; [done|]. intros [= ->]. exists [], C. split; [done|constructor]. Qed.

Section leaf_facts.
Context (h : gmap nat BTreeNode) (C : list nat) (Hinv : leaf_inv h C).

Lemma li_keys_sorted A p B : C = A ++ p :: B → StronglySorted blt (keys_of (lpairs h p)).
Proof using Hinv.
  intros ->. pose proof (li_sorted _ _ Hinv) as Hs.
  rw content_app content_cons !keys_of_app in Hs.
  apply StronglySorted_app in Hs as (_ & _ & Hs). by apply StronglySorted_app in Hs as (_ & ? & _).
Qed.

(** Keys of leaves whose high key is below [s] are below [s]. *)
Lemma keys_below A B' s k :
  C = A ++ B' → B' ≠ [] → Forall (hk_below h s) A → k ∈ keys_of (content h A) → blt k s.
Proof using Hinv.
  intros HC HB HA Hk. unfold keys_of, content in Hk.
  apply list_elem_of_fmap in Hk as ([k' v] & -> & (p & Hkv & Hp)%list_elem_of_bind).
  apply list_elem_of_split in Hp as (A1 & A2 & ->).
  destruct (li_node _ _ Hinv A1 p (A2 ++ B')) as (ks & vs & hk & Hp & Hlen & Hhk).
  { rw HC -app_assoc. done. }
  destruct Hhk as (hkv & -> & Hle & _); [by destruct A2, B'|].
  rw Forall_app Forall_cons in HA. destruct HA as (_ & (hkv' & Hhk' & Hlt) & _).
  unfold hk_of in Hhk'. rw Hp in Hhk'. simpl in Hhk'. simplify_eq.
  unfold lpairs in Hkv. rw Hp in Hkv. apply elem_of_zip_l in Hkv.
  rw Forall_forall in Hle. specialize (Hle _ Hkv). simpl. border.
Qed.

(** At the target leaf the rest of the chain is above the key. *)
Lemma keys_above A p B key k :
  C = A ++ p :: B → target h key A p B → k ∈ keys_of (content h B) → blt key k.
Proof using Hinv.
  intros HC [_ Hhi] Hk. destruct (li_node _ _ Hinv A p B HC) as (ks & vs & hk & Hp & _ & Hhk).
  assert (B ≠ []) as HB by (intros ->; by apply elem_of_nil in Hk).
  destruct (Hhi HB) as (hkv & Hhkv & Hle), (Hhk HB) as (hkv' & -> & _ & Hab).
  unfold hk_of in Hhkv. rw Hp in Hhkv. simpl in Hhkv. simplify_eq.
  rw Forall_forall in Hab. specialize (Hab _ Hk). border.
Qed.

(** Where a key's pair can be. *)
Lemma target_pair A p B key v :
  C = A ++ p :: B → target h key A p B → (key, v) ∈ content h C ↔ (key, v) ∈ lpairs h p.
Proof using Hinv.
  intros HC Ht. rw HC content_app content_cons !elem_of_app. split; [|by auto].
  intros [HA|[?|HB]]; [|done|]; exfalso; apply (blt_irrefl key).
  - apply (keys_below A (p :: B) key); [done..|by destruct Ht|].
    apply list_elem_of_fmap. by exists (key, v).
  - apply (keys_above A p B key); [done..|]. apply list_elem_of_fmap. by exists (key, v).
Qed.
End leaf_facts.

(** ** Replacing one leaf of the chain by one or two *)

Lemma split3 {A} (X S Y L B : list A) p :
  X ++ S ++ Y = L ++ p :: B →
  (∃ X2, X = L ++ p :: X2 ∧ B = X2 ++ S ++ Y) ∨
  (∃ S1 S2, S = S1 ++ p :: S2 ∧ L = X ++ S1 ∧ B = S2 ++ Y) ∨
  (∃ Y1, Y = Y1 ++ p :: B ∧ L = X ++ S ++ Y1).
Proof.
  intros [(K & -> & HK)|(K & -> & HK)]%app_eq_inv.
  - destruct K as [|x K]; simpl in HK; simplify_eq/=; [|by left; exists K].
    rw app_nil_r. destruct S as [|y S]; simpl in *; simplify_eq/=.
    + right; right. exists []. by rw app_nil_r.
    + right; left. exists [], S. by rw app_nil_r.
  - apply app_eq_inv in HK as [(M & -> & HM)|(M & -> & HM)].
    + destruct M as [|x M]; simpl in HM; simplify_eq/=.
      * right; right. exists []. by rw !app_nil_r.
      * right; left. by exists K, M.
    + right; right. exists M. by rw app_assoc.
Qed.

Section replace.
Context (h h' : gmap nat BTreeNode) (X : list nat) (j : nat) (Y S' : list nat).
Context (Hinv : leaf_inv h (X ++ j :: Y)).
Context (Hsame : ∀ p, p ∈ X ∨ p ∈ Y → h' !! p = h !! p).
Context (Hhead : head S' = Some j).

Lemma replace_content_outer :
  content h' X = content h X ∧ content h' Y = content h Y.
Proof using Hsame.
  split; apply content_ext; intros p Hp; apply lpairs_heap, Hsame; auto.
Qed.

Lemma replace_content_length :
  (length (content h' (X ++ S' ++ Y)) + length (lpairs h j) =
   length (content h (X ++ j :: Y)) + length (content h' S'))%nat.
Proof using Hsame.
  destruct replace_content_outer as [HX HY]. rw !content_app content_cons HX HY !length_app. lia.
Qed.

Lemma replace_leaf_inv key :
  NoDup (X ++ S' ++ Y) →
  (∀ A p B, S' = A ++ p :: B → leaf_at h' p (B ++ Y)) →
  StronglySorted blt (keys_of (content h' S')) →
  (∀ k, k ∈ keys_of (content h' S') → k ∈ keys_of (lpairs h j) ∨ k = key) →
  target h key X j Y →
  leaf_inv h' (X ++ S' ++ Y).
Proof using Hinv Hsame Hhead.
  intros Hnd Hseg Hsort Hkeys Ht. destruct replace_content_outer as [HX HY].
  pose proof (li_sorted _ _ Hinv) as Hs0. rw content_app content_cons !keys_of_app in Hs0.
  apply StronglySorted_app in Hs0 as (HXr & HsX & (HjY & _ & HsY)%StronglySorted_app).
  assert (∀ A p X2, X = A ++ p :: X2 →
            leaf_at h p (X2 ++ j :: Y) ∧
            ∃ hkv, hk_of h p = Some hkv ∧ blt hkv key) as HXn.
  { intros A p X2 HXs. split.
    - apply (li_node _ _ Hinv A). by rw HXs -app_assoc.
    - destruct Ht as [HA _]. rw HXs Forall_app Forall_cons in HA. by destruct HA as (_ & ? & _). }
  split; [done| |].
  - intros A p B [(X2 & HXe & ->)|[(S1 & S2 & HSe & -> & ->)|(Y1 & HYe & ->)]]%split3.
    + destruct (HXn A p X2 HXe) as [(ks & vs & hk & Hp & Hl & Hhk) (hkv & Hhkv & Hlt)].
      exists ks, vs, hk. split_and!; [|done|].
      * rw Hsame; [left; rw HXe; set_solver|]. rw Hp. do 2 f_equal.
        destruct X2; [|done]. destruct S'; simplify_eq/=. done.
      * intros _. destruct Hhk as (hkv' & -> & Hle & Hab); [by destruct X2|].
        unfold hk_of in Hhkv. rw Hp in Hhkv. simpl in Hhkv. injection Hhkv as ->.
        exists hkv. split_and!; [done|done|].
        rw content_app content_cons !keys_of_app !Forall_app in Hab.
        destruct Hab as (Hab1 & Hab2 & Hab3).
        rw !content_app !keys_of_app !Forall_app. split_and!.
        -- rw (content_ext h h' X2); [|done]. intros q Hq. apply lpairs_heap, Hsame.
           left. rw HXe. set_solver.
        -- apply Forall_forall. intros k [Hk| ->]%Hkeys; [|done]. rw Forall_forall in Hab2. auto.
        -- by rw HY.
    + by apply (Hseg S1).
    + destruct (li_node _ _ Hinv (X ++ j :: Y1) p B) as (ks & vs & hk & Hp & Hl & Hhk).
      { rw HYe -app_assoc. done. }
      exists ks, vs, hk. split_and!; [|done|].
      * rw Hsame; [right; rw HYe; set_solver|done].
      * intros HB. destruct (Hhk HB) as (hkv & -> & ? & ?). exists hkv. split_and!; [done..|].
        rw (content_ext h h' B); [|done]. intros q Hq. apply lpairs_heap, Hsame.
        right. rw HYe. set_solver.
  - rw !content_app !keys_of_app HX HY. apply StronglySorted_app. split_and!; [|done|].
    + intros k k' HkX [Hk'| Hk']%elem_of_app; [|apply HXr; [done|set_solver]].
      destruct (Hkeys k' Hk') as [Hold| ->]; [apply HXr; [done|set_solver]|].
      apply (keys_below h _ Hinv X (j :: Y) key k); [done|done|by destruct Ht|done].
    + apply StronglySorted_app. split_and!; [|done|done].
      intros k k' Hk HkY. destruct (Hkeys k Hk) as [Hold| ->]; [by apply HjY|].
      by apply (keys_above h _ Hinv X j Y key k').
Qed.

(** A leaf reachable for [s] stays so when the new leaves' high keys are not
    above the old one. *)
Lemma replace_before l s :
  (Y ≠ [] → hk_below h s j → Forall (hk_below h' s) S') →
  before h (X ++ j :: Y) l s → before h' (X ++ S' ++ Y) l s.
Proof using Hinv Hsame Hhead.
  intros Hnew (A & B & HC & HA).
  assert (∀ L, (∀ q, q ∈ L → q ∈ X ∨ q ∈ Y) → Forall (hk_below h s) L → Forall (hk_below h' s) L)
    as Hkeep.
  { intros L HL HF. rw Forall_forall in HF. apply Forall_forall. intros q Hq.
    destruct (HF q Hq) as (v & ? & ?). exists v. split; [|done].
    rw (hk_of_heap h); [apply Hsame; auto|done]. }
  change (X ++ j :: Y) with (X ++ [j] ++ Y) in HC.
  apply split3 in HC as [(X2 & HXe & ->)|[(S1 & S2 & HSe & -> & ->)|(Y1 & HYe & ->)]].
  - exists A, (X2 ++ S' ++ Y). split; [by rw HXe -app_assoc|]. apply Hkeep; [|done]. set_solver.
  - destruct S1 as [|? [|]]; simplify_eq/=. destruct S' as [|j' S2]; simplify_eq/=.
    rw app_nil_r in HA. exists X, (S2 ++ Y). split; [done|]. apply Hkeep; [|done]. auto.
  - rw !Forall_app Forall_singleton in HA. destruct HA as (HX & Hj & HY).
    exists (X ++ S' ++ Y1), B. split; [by rw HYe -!app_assoc|]. rw !Forall_app. split_and!.
    + apply Hkeep; [|done]. auto.
    + apply Hnew; [by rw HYe; destruct Y1|done].
    + apply Hkeep; [|done]. set_solver.
Qed.
End replace.

(** ** Inserting into a leaf *)

(** [l'] is [l] with [key] bound to [value], or without [key]. *)
Definition pair_upd (key : list Z) (value : option (list Z)) (l l' : list (list Z * list Z)) : Prop :=
  ∀ k v, (k, v) ∈ l' ↔ k = key ∧ value = Some v ∨ k ≠ key ∧ (k, v) ∈ l.

Lemma pair_upd_insert key value old l (i : nat) :
  NoDup (keys_of l) → l !! i = Some (key, old) → pair_upd key (Some value) l (<[i := (key, value)]> l).
Proof.
  intros Hnd Hi k v. rw !list_elem_of_lookup. split.
  - intros [n Hn]. apply list_lookup_insert_Some in Hn as [(-> & [= -> ->] & _)|[Hne Hn]]; [by left|].
    right. split; [|by exists n]. intros ->. apply Hne.
    apply (NoDup_lookup (keys_of l) i n key); [done|..]; unfold keys_of; rw list_lookup_fmap.
    + by rw Hi.
    + by rw Hn.
  - intros [[-> [= ->]]|[Hne [n Hn]]].
    + exists i. apply list_lookup_insert_eq. by apply lookup_lt_Some in Hi.
    + exists n. rw list_lookup_insert_ne; [congruence|done].
Qed.

Lemma pair_upd_vec_insert key value l (i : nat) :
  key ∉ keys_of l → pair_upd key (Some value) l (vec_insert i (key, value) l).
Proof.
  intros Hnk k v. rw elem_of_vec_insert. split.
  - intros [[= -> ->]|Hin]; [by left|]. right. split; [|done]. intros ->. apply Hnk.
    apply list_elem_of_fmap. by exists (key, v).
  - intros [[-> [= ->]]|[_ ?]]; auto.
Qed.

Lemma pair_upd_keys key value l l' k :
  pair_upd key value l l' → k ∈ keys_of l' → k ∈ keys_of l ∨ k = key.
Proof.
  intros Hp ([k' v] & -> & Hin)%list_elem_of_fmap. apply Hp in Hin as [[-> _]|[_ Hin]]; [by right|].
  left. apply list_elem_of_fmap. by exists (k', v).
Qed.

Lemma vec_insert_sorted key ks (i : nat) :
  StronglySorted blt ks → Forall (λ k, blt k key) (take i ks) → Forall (blt key) (drop i ks) →
  StronglySorted blt (vec_insert i key ks).
Proof.
  intros Hs Hlo Hhi. unfold vec_insert. rw -(take_drop i ks) in Hs.
  apply StronglySorted_app in Hs as (Hx & Hs1 & Hs2).
  rw !Forall_forall in Hlo, Hhi. apply StronglySorted_app. split_and!; [|done|].
  - intros a b Ha [->|Hb]%elem_of_cons; auto.
  - constructor; [done|]. by apply Forall_forall.
Qed.

(** The outcome of [leaf_insert_locked] on the pairs of the leaf. *)
Lemma leaf_insert_pairs ord q ks vs hk rl key value :
  (2 ≤ ord)%nat → length ks = length vs → StronglySorted blt ks →
  ∃ ks1 vs1 dlen,
    length ks1 = length vs1 ∧ StronglySorted blt ks1 ∧
    pair_upd key (Some value) (zip ks vs) (zip ks1 vs1) ∧ Z.of_nat (length ks1) = Z.of_nat (length ks) + dlen ∧
    (leaf_insert_locked ord q ks vs hk rl key value = Some (Leaf ks1 vs1 hk rl, None, dlen) ∨
     ∃ mid sk lk rk, (0 < mid < length ks1)%nat ∧ ks1 !! mid = Some sk ∧
       ks1 !! (mid - 1)%nat = Some lk ∧ last ks1 = Some rk ∧
       leaf_insert_locked ord q ks vs hk rl key value =
         Some (Leaf (take mid ks1) (take mid vs1) (Some lk) (Some q),
               Some (sk, Leaf (drop mid ks1) (drop mid vs1) (Some rk) rl), dlen)).
Proof.
  intros Hord Hlen Hs. unfold leaf_insert_locked.
  destruct (binary_search ks key) as [i|pos] eqn:Hbs.
  - apply binary_search_found in Hbs as Hi. destruct (lookup_lt_is_Some_2 vs i) as [old Hold].
    { apply lookup_lt_Some in Hi. lia. }
    exists ks, (<[i := value]> vs), 0. split_and!; [by rw length_insert|done| |lia|by left].
    assert (zip ks (<[i:=value]> vs) = <[i := (key, value)]> (zip ks vs)) as ->.
    { rw insert_zip_with (list_insert_id ks); done. }
    apply (pair_upd_insert key value old).
    + rw keys_of_zip; [done|]. by apply SSorted_NoDup.
    + rw lookup_zip_with Hi. cbn. by rw Hold.
  - destruct (binary_search_absent ks key pos Hs Hbs) as (Hpos & Hlo & Hhi).
    set (ks1 := vec_insert pos key ks). set (vs1 := vec_insert pos value vs).
    assert (length ks1 = S (length ks)) as Hl1 by apply length_vec_insert.
    assert (length vs1 = S (length vs)) as Hl2 by apply length_vec_insert.
    exists ks1, vs1, 1. split_and!; [lia|by apply vec_insert_sorted| |lia|].
    { unfold ks1, vs1. rw zip_vec_insert; [done|]. apply pair_upd_vec_insert.
      rw keys_of_zip; [done|]. rw -(take_drop pos ks) elem_of_app. rw !Forall_forall in Hlo, Hhi.
      intros [Hin|Hin]; [specialize (Hlo _ Hin)|specialize (Hhi _ Hin)]; border. }
    destruct (Nat.ltb_spec (length ks1) ord); [by left|]. right.
    set (mid := (length ks1 / 2)%nat).
    assert (0 < mid < length ks1)%nat as Hmid.
    { unfold mid. pose proof (Nat.div_mod_eq (length ks1) 2).
      pose proof (Nat.mod_upper_bound (length ks1) 2). lia. }
    destruct (lookup_lt_is_Some_2 ks1 mid) as [sk Hsk]; [lia|].
    destruct (lookup_lt_is_Some_2 ks1 (mid - 1)) as [lk Hlk]; [lia|].
    destruct (last ks1) as [rk|] eqn:Hrk; [|by apply last_None in Hrk; subst ks1; rw Hrk in Hl1].
    exists mid, sk, lk, rk. split_and!; [lia|lia|done|done|done|].
    rw lookup_drop Nat.add_0_r Hsk. cbn [mbind option_bind].
    assert (last (take mid ks1) = Some lk) as ->.
    { rw last_lookup length_take. replace (pred (mid `min` length ks1)) with (mid - 1)%nat by lia.
      rw lookup_take_lt; [lia|done]. }
    assert (last (drop mid ks1) = Some rk) as ->.
    { rw last_lookup length_drop lookup_drop -Hrk last_lookup. f_equal. lia. }
    done.
Qed.

Lemma sorted_last_max l x y : StronglySorted blt l → last l = Some x → y ∈ l → ble y x.
Proof.
  intros Hs. revert y. induction Hs as [|a l Hs IH Ha]; [done|]. intros y Hx Hy.
  destruct l as [|b l]; [apply list_elem_of_singleton in Hy; simplify_eq/=; apply ble_refl|].
  apply elem_of_cons in Hy as [->|Hy]; [|by apply IH].
  rw Forall_forall in Ha. apply blt_ble, Ha. apply last_Some_elem_of. done.
Qed.

(** The separators a split leaves: the last key of the left half, the first
    and the last of the right half. *)
Lemma sorted_halves ks mid sk lk rk :
  StronglySorted blt ks → (0 < mid < length ks)%nat → ks !! mid = Some sk →
  ks !! (mid - 1)%nat = Some lk → last ks = Some rk →
  Forall (λ k, ble k lk) (take mid ks) ∧ Forall (λ k, ble k rk) (drop mid ks) ∧
  Forall (blt lk) (drop mid ks) ∧ blt lk sk ∧ ble lk rk.
Proof.
  intros Hs Hmid Hsk Hlk Hrk. pose proof Hs as Hs'. rw -(take_drop mid ks) in Hs'.
  apply StronglySorted_app in Hs' as (Hx & Hs1 & Hs2).
  assert (last (take mid ks) = Some lk) as Hl.
  { rw last_lookup length_take. replace (pred (mid `min` length ks)) with (mid - 1)%nat by lia.
    rw lookup_take_lt; [lia|done]. }
  assert (lk ∈ take mid ks) as Hlin by (by apply last_Some_elem_of).
  split_and!.
  - apply Forall_forall. intros k Hk. by apply (sorted_last_max (take mid ks)).
  - apply Forall_forall. intros k Hk. apply (sorted_last_max ks); [done..|].
    rw -(take_drop mid ks). set_solver.
  - apply Forall_forall. intros k Hk. by apply Hx.
  - apply Hx; [done|]. apply list_elem_of_lookup. exists 0%nat. by rw lookup_drop Nat.add_0_r.
  - apply (sorted_last_max ks); [done..|]. rw -(take_drop mid ks). set_solver.
Qed.

(** What an insertion does to the leaf level: the leaf [j] of the chain
    becomes [j] or [j; q], and a split key for [q] comes out. *)
Definition leaf_result (h : gmap nat BTreeNode) (X : list nat) (j : nat) (Y : list nat)
    (key : list Z) (value : option (list Z)) (q : nat) (h' : gmap nat BTreeNode) (S' : list nat)
    (n1 : nat) (split : option (list Z)) : Prop :=
  leaf_inv h' (X ++ S' ++ Y) ∧ head S' = Some j ∧
  pair_upd key value (content h (X ++ j :: Y)) (content h' (X ++ S' ++ Y)) ∧
  (∀ l s, before h (X ++ j :: Y) l s → before h' (X ++ S' ++ Y) l s) ∧
  (∀ p, p ∉ S' → h' !! p = h !! p) ∧
  (length (content h' (X ++ S' ++ Y)) + length (lpairs h j) =
   length (content h (X ++ j :: Y)) + n1)%nat ∧
  match split with
  | None => S' = [j]
  | Some sk => S' = [j; q] ∧ before h' (X ++ S' ++ Y) q sk
  end.

Lemma pair_upd_content h h' X j Y S' key value :
  leaf_inv h (X ++ j :: Y) → target h key X j Y →
  content h' X = content h X → content h' Y = content h Y →
  pair_upd key value (lpairs h j) (content h' S') →
  pair_upd key value (content h (X ++ j :: Y)) (content h' (X ++ S' ++ Y)).
Proof.
  intros Hinv Ht HX HY Hp k v. specialize (Hp k v).
  rw !content_app content_cons HX HY !elem_of_app Hp.
  assert (k = key → ¬ (k, v) ∈ content h X) as HnX.
  { intros -> Hin. apply (blt_irrefl key), (keys_below h _ Hinv X (j :: Y) key key); try done.
    - by destruct Ht.
    - apply list_elem_of_fmap. by exists (key, v). }
  assert (k = key → ¬ (k, v) ∈ content h Y) as HnY.
  { intros -> Hin. apply (blt_irrefl key), (keys_above h _ Hinv X j Y key key); try done.
    apply list_elem_of_fmap. by exists (key, v). }
  destruct (decide (k = key)); naive_solver.
Qed.

(** Consequences of the target leaf's position for the keys it gets. *)
Lemma upd_keys ks vs ks1 vs1 key value k :
  length ks1 = length vs1 → pair_upd key value (zip ks vs) (zip ks1 vs1) →
  k ∈ ks1 → k ∈ ks ∨ k = key.
Proof.
  intros Hlen Hput Hk. rw -(keys_of_zip ks1 vs1 Hlen) in Hk.
  destruct (pair_upd_keys _ _ _ _ _ Hput Hk) as [Hin|?]; [left|by right].
  unfold keys_of in Hin. apply list_elem_of_fmap in Hin as ([a b] & -> & Hin).
  by apply elem_of_zip_l in Hin.
Qed.

Lemma upd_keys_high h X j Y ks vs hk key k :
  leaf_inv h (X ++ j :: Y) → h !! j = Some (Leaf ks vs hk (head Y)) → target h key X j Y →
  Y ≠ [] → k ∈ ks ∨ k = key →
  ∃ hkv, hk = Some hkv ∧ ble k hkv ∧ Forall (blt hkv) (keys_of (content h Y)).
Proof.
  intros Hinv Hj [_ Hhi] HB Hk.
  destruct (li_node _ _ Hinv X j Y eq_refl) as (ks0 & vs0 & hk0 & Hj0 & _ & Hhk). simplify_eq.
  destruct (Hhk HB) as (hkv & -> & Hle & Hab), (Hhi HB) as (v & Hv & ?). exists hkv.
  unfold hk_of in Hv. rw Hj in Hv. simpl in Hv. simplify_eq. rw Forall_forall in Hle.
  split_and!; [done| |done]. destruct Hk as [Hk| ->]; auto.
Qed.

Lemma upd_keys_front h X j Y ks vs hk key k :
  leaf_inv h (X ++ j :: Y) → h !! j = Some (Leaf ks vs hk (head Y)) → target h key X j Y →
  k ∈ ks ∨ k = key → Forall (hk_below h k) X.
Proof.
  intros Hinv Hj [HX _] [Hk| ->]; [|done]. apply Forall_forall. intros p Hp.
  apply list_elem_of_split in Hp as (X1 & X2 & ->).
  destruct (li_node _ _ Hinv X1 p (X2 ++ j :: Y)) as (ks0 & vs0 & hk0 & Hp & _ & Hhk).
  { by rw -app_assoc. }
  destruct Hhk as (hkv & -> & _ & Hab); [by destruct X2|]. exists hkv.
  split; [unfold hk_of; by rw Hp|].
  rw content_app content_cons !keys_of_app !Forall_app in Hab. destruct Hab as (_ & Hab & _).
  rw Forall_forall in Hab. apply Hab. unfold lpairs. rw Hj.
  destruct (li_node _ _ Hinv (X1 ++ p :: X2) j Y eq_refl) as (? & ? & ? & Hj0 & Hl & _).
  rw Hj in Hj0. simplify_eq. by rw keys_of_zip.
Qed.

Lemma leaf_insert_same h X j Y ks vs ks1 vs1 hk key value q :
  leaf_inv h (X ++ j :: Y) → h !! j = Some (Leaf ks vs hk (head Y)) → target h key X j Y →
  length ks1 = length vs1 → StronglySorted blt ks1 →
  pair_upd key value (zip ks vs) (zip ks1 vs1) →
  leaf_result h X j Y key value q (<[j := Leaf ks1 vs1 hk (head Y)]> h) [j] (length ks1) None.
Proof.
  intros Hinv Hj Ht Hlen Hs Hput. set (h' := <[j := _]> h).
  assert (h' !! j = Some (Leaf ks1 vs1 hk (head Y))) as Hj' by apply lookup_insert_eq.
  assert (lpairs h j = zip ks vs) as Hlp by (unfold lpairs; by rw Hj).
  assert (content h' [j] = zip ks1 vs1) as Hc'.
  { unfold content, lpairs. cbn. by rw Hj' app_nil_r. }
  pose proof (li_nodup _ _ Hinv) as Hnd.
  assert (∀ p, p ∈ X ∨ p ∈ Y → h' !! p = h !! p) as Hsame.
  { intros p Hp. apply lookup_insert_ne. intros ->. apply NoDup_app in Hnd as (_ & Hd & Hnd).
    apply NoDup_cons in Hnd as [? _]. destruct Hp as [Hp|Hp]; [|done]. apply (Hd p Hp). by left. }
  pose proof (λ k, upd_keys ks vs ks1 vs1 key value k Hlen Hput) as Hks.
  assert (leaf_inv h' (X ++ [j] ++ Y)) as Hinv'.
  { apply (replace_leaf_inv h h' X j Y [j] Hinv Hsame eq_refl key); [done| | | |done].
    - intros A p B HS. assert (p = j ∧ B = []) as [-> ->].
      { destruct A as [|a [|]]; simplify_eq/=; done. }
      exists ks1, vs1, hk. split_and!; [done..|].
      intros HB. destruct (upd_keys_high h X j Y ks vs hk key key) as (hkv & -> & _ & Hab); auto.
      exists hkv. split_and!; [done| |].
      + apply Forall_forall. intros k Hk%Hks.
        by destruct (upd_keys_high h X j Y ks vs (Some hkv) key k) as (? & [= <-] & ? & _).
      + rw (content_ext h h' Y); [|done]. intros r Hr. apply lpairs_heap, Hsame. auto.
    - rw Hc' keys_of_zip; done.
    - intros k. rw Hc' Hlp. by apply (pair_upd_keys key value). }
  split_and!; [done|done| | | | |done].
  - apply pair_upd_content; [done..| | |by rw Hlp Hc'];
      apply content_ext; intros r Hr; apply lpairs_heap, Hsame; auto.
  - intros l s. apply (replace_before h h' X j Y [j] Hinv Hsame eq_refl).
    intros _ (v & Hv & ?). constructor; [|done]. exists v. split; [|done].
    unfold hk_of in *. rw Hj in Hv. by rw Hj'.
  - intros p Hp. apply lookup_insert_ne. set_solver.
  - rw (replace_content_length h h' X j Y [j] Hsame) Hc' length_zip_with. lia.
Qed.

Lemma leaf_insert_split h X j Y ks vs ks1 vs1 hk key value q mid sk lk rk :
  leaf_inv h (X ++ j :: Y) → h !! j = Some (Leaf ks vs hk (head Y)) → target h key X j Y →
  q ∉ X ++ j :: Y →
  length ks1 = length vs1 → StronglySorted blt ks1 →
  pair_upd key value (zip ks vs) (zip ks1 vs1) →
  (0 < mid < length ks1)%nat → ks1 !! mid = Some sk → ks1 !! (mid - 1)%nat = Some lk →
  last ks1 = Some rk →
  leaf_result h X j Y key value q
    (<[q := Leaf (drop mid ks1) (drop mid vs1) (Some rk) (head Y)]>
       (<[j := Leaf (take mid ks1) (take mid vs1) (Some lk) (Some q)]> h)) [j; q] (length ks1) (Some sk).
Proof.
  intros Hinv Hj Ht Hq Hlen Hs Hput Hmid Hsk Hlk Hrk. set (h' := <[q := _]> _).
  pose proof (li_nodup _ _ Hinv) as Hnd. pose proof (proj1 (NoDup_app _ _) Hnd) as (_ & HdX & HdY).
  apply NoDup_cons in HdY as [HjY _].
  assert (q ≠ j) as Hqj by set_solver.
  assert (h' !! q = Some (Leaf (drop mid ks1) (drop mid vs1) (Some rk) (head Y))) as Hq'
    by apply lookup_insert_eq.
  assert (h' !! j = Some (Leaf (take mid ks1) (take mid vs1) (Some lk) (Some q))) as Hj'.
  { unfold h'. rw lookup_insert_ne; [done|]. apply lookup_insert_eq. }
  assert (∀ p, p ∈ X ∨ p ∈ Y → h' !! p = h !! p) as Hsame.
  { intros p Hp. unfold h'. rw !lookup_insert_ne; [set_solver..|done]. }
  assert (lpairs h j = zip ks vs) as Hlp by (unfold lpairs; by rw Hj).
  assert (content h' [j; q] = zip ks1 vs1) as Hc'.
  { unfold content, lpairs. cbn. rw Hj' Hq' app_nil_r -zip_with_take -zip_with_drop. apply take_drop. }
  pose proof (λ k, upd_keys ks vs ks1 vs1 key value k Hlen Hput) as Hks.
  destruct (sorted_halves ks1 mid sk lk rk) as (Hlo & Hhi & Hll & Hls & Hrs); [done..|].
  assert (content h' Y = content h Y) as HcY by (apply content_ext; intros; apply lpairs_heap; auto).
  assert (∀ k s, Y ≠ [] → k ∈ ks1 → hk_below h s j → blt k s) as Hbel.
  { intros k s HY Hk%Hks (v & Hv & ?). unfold hk_of in Hv. rw Hj in Hv. simpl in Hv.
    destruct (upd_keys_high h X j Y ks vs hk key k) as (hkv & -> & ? & _); [done..|].
    simplify_eq. border. }
  assert (Y ≠ [] → Forall (blt rk) (keys_of (content h Y))) as HrY.
  { intros HY. destruct (upd_keys_high h X j Y ks vs hk key rk) as (hkv & _ & ? & Hab); [done..| |].
    - apply Hks. by apply last_Some_elem_of.
    - apply (Forall_impl _ _ _ Hab). intros; border. }
  split_and!.
  - apply (replace_leaf_inv h h' X j Y [j; q] Hinv Hsame eq_refl key); [| | | |done].
    + cbn. apply NoDup_app. apply NoDup_app in Hnd as (HX & HXd & HYd).
      split_and!; [done|set_solver|]. apply NoDup_cons in HYd as [? ?].
      repeat constructor; set_solver.
    + intros A p B HS. destruct A as [|a [|b [|]]]; [|injection HS as _ <- <-|done..].
      * injection HS as <- <-. eexists _, _, _. split_and!; [exact Hj'|rw !length_take; lia|].
        intros _. exists lk. cbn [app].
        split_and!; [done|done|]. rw content_cons keys_of_app Forall_app. unfold lpairs.
        rw Hq' HcY keys_of_zip; [rw !length_drop; lia|]. split; [done|].
        destruct (decide (Y = [])) as [->|HY]; [constructor|].
        apply (Forall_impl _ _ _ (HrY HY)). intros; border.
      * eexists _, _, _. split_and!; [exact Hq'|rw !length_drop; lia|]. intros HY. exists rk.
        split_and!; [done|done|]. cbn [app] in *. rw HcY. auto.
    + rw Hc' keys_of_zip; done.
    + intros k. rw Hc' Hlp. by apply (pair_upd_keys key value).
  - done.
  - apply pair_upd_content; [done..| |done|by rw Hlp Hc'].
    apply content_ext; intros; apply lpairs_heap; auto.
  - intros l s. apply (replace_before h h' X j Y [j; q] Hinv Hsame eq_refl). intros HY Hb.
    constructor; [|constructor; [|done]].
    + exists lk. split; [unfold hk_of; by rw Hj'|]. apply (Hbel lk s); [done| |done].
      by apply list_elem_of_lookup_2 in Hlk.
    + exists rk. split; [unfold hk_of; by rw Hq'|]. apply (Hbel rk s); [done| |done].
      by apply last_Some_elem_of.
  - intros p Hp. unfold h'. rw !lookup_insert_ne; [set_solver..|done].
  - rw (replace_content_length h h' X j Y [j; q] Hsame) Hc' length_zip_with. lia.
  - done.
  - exists (X ++ [j]), Y. split; [by rw -app_assoc|]. apply Forall_app. split.
    + apply Forall_forall. intros p Hp.
      pose proof (upd_keys_front h X j Y ks vs hk key sk Hinv Hj Ht) as HF.
      rw Forall_forall in HF. destruct (HF (Hks sk (list_elem_of_lookup_2 _ _ _ Hsk)) p Hp) as (v & ? & ?).
      exists v. split; [|done]. rw (hk_of_heap h); [auto|done].
    + constructor; [|done]. exists lk. split; [unfold hk_of; by rw Hj'|done].
Qed.

(** ** The index levels

    [chains n] lists the nodes of level [n] from left to right ([chains 0] is
    the leaf chain) and [lm p] is the leftmost leaf below [p]. *)

Definition seps_ok (h : gmap nat BTreeNode) (C : list nat) (lm : nat → nat)
    (ks : list (list Z)) (cs : list nat) : Prop :=
  ∀ (i : nat) s c, ks !! i = Some s → cs !! S i = Some c → before h C (lm c) s.

Record fan_ok (h : gmap nat BTreeNode) (chains : nat → list nat) (lm : nat → nat) (n : nat)
    (ks : list (list Z)) (cs : list nat) : Prop := {
  fan_len : length cs = S (length ks);
  fan_sorted : StronglySorted ble ks;
  fan_level : ∀ c, c ∈ cs → c ∈ chains n;
  fan_seps : seps_ok h (chains 0%nat) lm ks cs
}.

Definition internal_at (h : gmap nat BTreeNode) (chains : nat → list nat) (lm : nat → nat)
    (n p : nat) (rl : option nat) : Prop :=
  ∃ ks cs hk c0, h !! p = Some (Internal ks cs hk rl) ∧ fan_ok h chains lm n ks cs ∧
    cs !! 0%nat = Some c0 ∧ lm p = lm c0 ∧
    (∀ q hkv, rl = Some q → hk = Some hkv → before h (chains 0%nat) (lm q) hkv).

Record index_inv (h : gmap nat BTreeNode) (chains : nat → list nat) (lm : nat → nat)
    (nxt : nat) : Prop := {
  ix_leaf : leaf_inv h (chains 0%nat);
  ix_nodup : ∀ n, NoDup (chains n);
  ix_node : ∀ n A p B, chains (S n) = A ++ p :: B → internal_at h chains lm n p (head B);
  ix_lm0 : ∀ p, p ∈ chains 0%nat → lm p = p;
  ix_lm : ∀ n p, p ∈ chains n → lm p ∈ chains 0%nat;
  ix_level : ∀ n m p, p ∈ chains n → p ∈ chains m → n = m;
  ix_fresh : ∀ p, is_Some (h !! p) → (p < nxt)%nat
}.

Section index_facts.
Context (h : gmap nat BTreeNode) (chains : nat → list nat) (lm : nat → nat) (nxt : nat).
Context (Hix : index_inv h chains lm nxt).

Lemma ix_elem_heap n p : p ∈ chains n → is_Some (h !! p).
Proof using Hix.
  intros (A & B & HC)%list_elem_of_split. destruct n as [|n].
  - destruct (li_node _ _ (ix_leaf _ _ _ _ Hix) A p B HC) as (ks & vs & hk & -> & _). done.
  - destruct (ix_node _ _ _ _ Hix n A p B HC) as (ks & cs & hk & c0 & -> & _). done.
Qed.

Lemma ix_elem_fresh n p : p ∈ chains n → (p < nxt)%nat.
Proof using Hix. intros Hp. by apply (ix_fresh _ _ _ _ Hix), (ix_elem_heap n). Qed.

Lemma ix_chain_length n : (length (chains n) ≤ size h)%nat.
Proof using Hix.
  rw -size_dom -(size_list_to_set (C := gset nat) (chains n)); [apply Hix|].
  apply subseteq_size. intros p Hp%elem_of_list_to_set. by apply elem_of_dom, (ix_elem_heap n).
Qed.

(** The node at a position of a level, with the link to the next. *)
Lemma ix_link n A p B :
  chains n = A ++ p :: B → ∃ node, h !! p = Some node ∧ right_link node = head B.
Proof using Hix.
  intros HC. destruct n as [|n].
  - destruct (li_node _ _ (ix_leaf _ _ _ _ Hix) A p B HC) as (ks & vs & hk & -> & _).
    by eexists.
  - destruct (ix_node _ _ _ _ Hix n A p B HC) as (ks & cs & hk & c0 & -> & _). by eexists.
Qed.

(** Following the right link for a key above the high key is safe. *)
Lemma ix_move n A p q B node hkv key :
  chains n = A ++ p :: q :: B → h !! p = Some node → high_key node = Some hkv →
  blt hkv key → before h (chains 0%nat) (lm p) key → before h (chains 0%nat) (lm q) key.
Proof using Hix.
  intros HC Hp Hhk Hlt Hb. destruct n as [|n].
  - assert (p ∈ chains 0%nat ∧ q ∈ chains 0%nat) as [Hp0 Hq0] by (rw HC; set_solver).
    rw (ix_lm0 _ _ _ _ Hix) in Hb; [done|]. rw (ix_lm0 _ _ _ _ Hix); [done|].
    destruct Hb as (A' & B' & HC' & HA').
    assert (A' = A ∧ B' = q :: B) as [-> ->].
    { rw HC in HC'. pose proof (ix_nodup _ _ _ _ Hix 0%nat) as Hnd. rw HC in Hnd.
      destruct (NoDup_app_cons_inj A A' (q :: B) B' p) as [<- <-]; done. }
    exists (A ++ [p]), B. split; [by rw HC -app_assoc|]. apply Forall_app. split; [done|].
    constructor; [|done]. exists hkv. split; [unfold hk_of; by rw Hp|done].
  - destruct (ix_node _ _ _ _ Hix n A p (q :: B) HC) as (ks & cs & hk & c0 & Hp' & _ & _ & _ & Hr).
    simplify_eq/=. apply (before_mono _ _ _ hkv); [by apply Hr|]. by apply blt_ble.
Qed.
End index_facts.

(** ** Traversal *)

(** A node at which the move to the right stops. *)
Definition stops (h : gmap nat BTreeNode) (p : nat) (key : list Z) : Prop :=
  ∀ node hkv q, h !! p = Some node → high_key node = Some hkv → right_link node = Some q →
    ble key hkv.

(** [path_at chains n path]: the [i]-th node of [path] is on level [n + i + 1]. *)
Definition path_at (chains : nat → list nat) (n : nat) (path : list nat) : Prop :=
  ∀ (i : nat) p, path !! i = Some p → p ∈ chains (S (n + i)).

Section traversal.
Context (h : gmap nat BTreeNode) (chains : nat → list nat) (lm : nat → nat) (nxt : nat).
Context (Hix : index_inv h chains lm nxt).

Lemma move_right_spec n key fuel A p B :
  chains n = A ++ p :: B → before h (chains 0%nat) (lm p) key → (length B < fuel)%nat →
  ∃ p', move_right fuel h p key = Some p' ∧ p' ∈ chains n ∧
        before h (chains 0%nat) (lm p') key ∧ stops h p' key.
Proof using Hix.
  revert fuel A p. induction B as [|q B IH]; intros [|fuel] A p HC Hb Hf; simpl in Hf; try lia;
    destruct (ix_link _ _ _ _ Hix n A p _ HC) as (node & Hp & Hrl); simpl; rw Hp; simpl; rw Hrl; simpl.
  - exists p. split_and!; [by destruct (high_key node)|rw HC; set_solver|done|].
    intros node' hkv q ? ? Hq. simplify_eq. by rw Hrl in Hq.
  - destruct (high_key node) as [hkv|] eqn:Hhk.
    + destruct (bltb_spec hkv key) as [Hlt|Hge].
      * apply (IH fuel (A ++ [p])); [by rw HC -app_assoc| |lia].
        by apply (ix_move _ _ _ _ Hix n A p q B node hkv).
      * exists p. split_and!; [done|rw HC; set_solver|done|].
        intros node' hkv' q' ? ? _. simplify_eq. by apply not_blt.
    + exists p. split_and!; [done|rw HC; set_solver|done|].
      intros node' hkv' q' ? ? _. simplify_eq.
Qed.

Lemma move_right_ok n key p :
  p ∈ chains n → before h (chains 0%nat) (lm p) key →
  ∃ p', move_right (size h) h p key = Some p' ∧ p' ∈ chains n ∧
        before h (chains 0%nat) (lm p') key ∧ stops h p' key.
Proof using Hix.
  intros (A & B & HC)%list_elem_of_split Hb. apply (move_right_spec n key _ A p B HC Hb).
  pose proof (ix_chain_length _ _ _ _ Hix n) as Hl. rw HC length_app in Hl. simpl in Hl. lia.
Qed.

(** The move ends on the same level, whatever the key. *)
Lemma move_right_total n key p :
  p ∈ chains n → ∃ p', move_right (size h) h p key = Some p' ∧ p' ∈ chains n.
Proof using Hix.
  intros (A & B & HC)%list_elem_of_split.
  assert (length B < size h)%nat as Hf.
  { pose proof (ix_chain_length _ _ _ _ Hix n) as Hl. rw HC length_app in Hl. simpl in Hl. lia. }
  revert Hf. generalize (size h) as fuel. revert A p HC.
  induction B as [|q B IH]; intros A p HC [|fuel] Hf; simpl in Hf; try lia;
    destruct (ix_link _ _ _ _ Hix n A p _ HC) as (node & Hp & Hrl); simpl; rw Hp; simpl; rw Hrl; simpl;
    (assert (p ∈ chains n) by (rw HC; set_solver)).
  - exists p. by destruct (high_key node).
  - destruct (high_key node) as [hkv|]; [|by exists p]. destruct (bltb hkv key); [|by exists p].
    apply (IH (A ++ [p])); [by rw HC -app_assoc|lia].
Qed.

(** A leaf where the move stops is the key's leaf. *)
Lemma stops_target p key :
  p ∈ chains 0%nat → before h (chains 0%nat) (lm p) key → stops h p key →
  ∃ A B, chains 0%nat = A ++ p :: B ∧ target h key A p B.
Proof using Hix.
  intros Hp Hb Hstop. rw (ix_lm0 _ _ _ _ Hix) in Hb; [done|].
  destruct Hb as (A & B & HC & HA). exists A, B. split; [done|]. split; [done|]. intros HB.
  destruct (li_node _ _ (ix_leaf _ _ _ _ Hix) A p B HC) as (ks & vs & hk & Hn & _ & Hhk).
  destruct (Hhk HB) as (hkv & -> & _). exists hkv. split; [unfold hk_of; by rw Hn|].
  destruct B as [|q B]; [done|]. by apply (Hstop _ hkv q Hn).
Qed.

(** The child an internal node selects is safe for the key. *)
Lemma select_child n p key :
  p ∈ chains (S n) → before h (chains 0%nat) (lm p) key →
  ∃ ks cs hk rl c, h !! p = Some (Internal ks cs hk rl) ∧
    cs !! partition_point ks key = Some c ∧ c ∈ chains n ∧ before h (chains 0%nat) (lm c) key.
Proof using Hix.
  intros (A & B & HC)%list_elem_of_split Hb.
  destruct (ix_node _ _ _ _ Hix n A p B HC) as (ks & cs & hk & c0 & Hp & [Hl Hs Hlv Hse] & H0 & Hlm & _).
  destruct (lookup_lt_is_Some_2 cs (partition_point ks key)) as [c Hc].
  { pose proof (partition_point_le ks key). lia. }
  exists ks, cs, hk, (head B), c. split_and!; [done|done|exact (Hlv _ (list_elem_of_lookup_2 _ _ _ Hc))|].
  destruct (partition_point ks key) as [|i] eqn:Hpp; [by simplify_eq; rw -Hlm|].
  destruct (lookup_lt_is_Some_2 ks i) as [s Hsi]; [apply lookup_lt_Some in Hc; lia|].
  apply (before_mono _ _ _ s); [by apply (Hse i)|]. by apply (partition_point_pred ks key i).
Qed.

Lemma level_zero_leaf p : p ∈ chains 0%nat → ∃ ks vs hk rl, h !! p = Some (Leaf ks vs hk rl).
Proof using Hix.
  intros (A & B & HC)%list_elem_of_split.
  destruct (li_node _ _ (ix_leaf _ _ _ _ Hix) A p B HC) as (ks & vs & hk & -> & _). by eexists _, _, _, _.
Qed.

Lemma descend_spec n key fuel p path :
  p ∈ chains n → before h (chains 0%nat) (lm p) key → (n < fuel)%nat →
  ∃ leaf path1 A B, descend fuel h p key path = Some (leaf, path1 ++ path) ∧
    length path1 = n ∧ path_at chains 0 path1 ∧
    chains 0%nat = A ++ leaf :: B ∧ target h key A leaf B.
Proof using Hix.
  revert fuel p path. induction n as [|n IH]; intros [|fuel] p path Hp Hb Hf; try lia;
    destruct (move_right_ok _ key p Hp Hb) as (p' & Hmv & Hp' & Hb' & Hstop); simpl; rw Hmv; simpl.
  - destruct (level_zero_leaf p' Hp') as (ks & vs & hk & rl & Hn). rw Hn. simpl.
    destruct (stops_target p' key Hp' Hb' Hstop) as (A & B & HC & Ht).
    exists p', [], A, B. split_and!; done.
  - destruct (select_child n p' key Hp' Hb') as (ks & cs & hk & rl & c & Hn & Hc & Hcl & Hcb).
    rw Hn. simpl. rw Hc. simpl.
    destruct (IH fuel c (p' :: path)) as (leaf & path1 & A & B & Hrun & Hlen & Hpa & HC & Ht);
      [done|done|lia|].
    exists leaf, (path1 ++ [p']), A, B. split_and!; [by rw Hrun -app_assoc|rw length_app; simpl; lia| |done|done].
    intros i q. rw lookup_app_Some. intros [Hi|[Hi Hq]]; [by apply Hpa|].
    apply list_lookup_singleton_Some in Hq as [Hz <-]. by replace (0 + i)%nat with n by lia.
Qed.

Lemma find_leaf_descend fuel p key path :
  find_leaf_loop fuel h p key = fst <$> descend fuel h p key path.
Proof.
  revert p path. induction fuel as [|fuel IH]; intros p path; simpl; [done|].
  destruct (move_right _ _ _ _) as [cur|]; simpl; [|done].
  destruct (h !! cur) as [[ks cs hk rl|ks vs hk rl]|]; simpl; [|done|done].
  destruct (cs !! _) as [c|]; simpl; [apply IH|done].
Qed.

Lemma leftmost_spec n fuel p : p ∈ chains n → (n < fuel)%nat → leftmost_loop fuel h p = Some (lm p).
Proof using Hix.
  revert fuel p. induction n as [|n IH]; intros [|fuel] p Hp Hf; try lia; simpl.
  - destruct (level_zero_leaf p Hp) as (ks & vs & hk & rl & ->). simpl.
    by rw (ix_lm0 _ _ _ _ Hix).
  - apply list_elem_of_split in Hp as (A & B & HC).
    destruct (ix_node _ _ _ _ Hix n A p B HC) as (ks & cs & hk & c0 & -> & Hfan & H0 & -> & _).
    simpl. rw H0. simpl. apply IH; [|lia]. apply Hfan. by apply list_elem_of_lookup_2 in H0.
Qed.
End traversal.

(** ** Inserting into an internal node *)

Lemma leaf_inv_ext h h' C : (∀ p, p ∈ C → h' !! p = h !! p) → leaf_inv h C → leaf_inv h' C.
Proof.
  intros He [Hnd Hn Hs].
  assert (∀ B, (∀ p, p ∈ B → p ∈ C) → content h' B = content h B) as Hc.
  { intros B HB. apply content_ext. intros p Hp. apply lpairs_heap, He, HB, Hp. }
  split; [done| |rw Hc; done].
  intros A p B HC. destruct (Hn A p B HC) as (ks & vs & hk & Hp & Hl & Hhk).
  exists ks, vs, hk. rw He; [rw HC; set_solver|]. rw Hc; [rw HC; set_solver|]. done.
Qed.

Section fan.
Context (h : gmap nat BTreeNode) (chains : nat → list nat) (lm : nat → nat) (n : nat).

Lemma fan_insert ks cs sk child :
  fan_ok h chains lm n ks cs → child ∈ chains n → before h (chains 0%nat) (lm child) sk →
  let pp := partition_point ks sk in
  fan_ok h chains lm n (vec_insert pp sk ks) (vec_insert (S pp) child cs) ∧
  vec_insert (S pp) child cs !! 0%nat = cs !! 0%nat.
Proof.
  intros [Hl Hs Hlv Hse] Hc Hb pp. pose proof (partition_point_le ks sk) as Hpp. fold pp in Hpp.
  split; [split|].
  - rw !length_vec_insert. lia.
  - by apply partition_point_sorted.
  - intros c [->|Hin]%elem_of_vec_insert; auto.
  - intros i s c. rw !lookup_vec_insert; [lia..|].
    repeat case_decide; try lia; intros Hi Hci.
    + by apply (Hse i).
    + by simplify_eq.
    + apply (Hse (i - 1)%nat); [done|]. by replace (S (i - 1)) with (S i - 1)%nat by lia.
  - rw lookup_vec_insert; [lia|]. by case_decide; [|lia].
Qed.

Lemma fan_take ks cs mid :
  fan_ok h chains lm n ks cs → (mid < length ks)%nat →
  fan_ok h chains lm n (take mid ks) (take (S mid) cs).
Proof.
  intros [Hl Hs Hlv Hse] Hm. split.
  - rw !length_take. lia.
  - rw -(take_drop mid ks) in Hs. by apply StronglySorted_app in Hs as (_ & ? & _).
  - intros c (i & Hi)%list_elem_of_lookup. apply lookup_take_Some in Hi as [Hi _].
    by apply Hlv, (list_elem_of_lookup_2 _ i).
  - intros i s c [Hi _]%lookup_take_Some [Hci _]%lookup_take_Some. by apply (Hse i).
Qed.

Lemma fan_drop ks cs mid :
  fan_ok h chains lm n ks cs → (mid < length ks)%nat →
  fan_ok h chains lm n (drop (S mid) ks) (drop (S mid) cs).
Proof.
  intros [Hl Hs Hlv Hse] Hm. split.
  - rw !length_drop. lia.
  - rw -(take_drop (S mid) ks) in Hs. by apply StronglySorted_app in Hs as (_ & _ & ?).
  - intros c (i & Hi)%list_elem_of_lookup. rw lookup_drop in Hi.
    by apply Hlv, (list_elem_of_lookup_2 _ (S mid + i)%nat).
  - intros i s c. rw !lookup_drop. intros Hi Hci. apply (Hse (S mid + i)%nat); [done|].
    by replace (S (S mid + i)) with (S mid + S i)%nat by lia.
Qed.
End fan.

Lemma fan_frame h h' chains chains' lm lm' n ks cs :
  fan_ok h chains lm n ks cs →
  (∀ c, c ∈ chains n → c ∈ chains' n ∧ lm' c = lm c) →
  (∀ l s, before h (chains 0%nat) l s → before h' (chains' 0%nat) l s) →
  fan_ok h' chains' lm' n ks cs.
Proof.
  intros [Hl Hs Hlv Hse] Hc Hb. split; [done|done| |].
  - intros c Hin. by apply Hc, Hlv.
  - intros i s c Hi Hci. destruct (Hc c) as [_ ->].
    + by apply Hlv, (list_elem_of_lookup_2 _ (S i)).
    + by apply Hb, (Hse i).
Qed.

Lemma internal_frame h h' chains chains' lm lm' n p rl :
  internal_at h chains lm n p rl → h' !! p = h !! p → lm' p = lm p →
  (∀ c, c ∈ chains n → c ∈ chains' n ∧ lm' c = lm c) →
  (∀ l s, before h (chains 0%nat) l s → before h' (chains' 0%nat) l s) →
  (∀ q, rl = Some q → lm' q = lm q) →
  internal_at h' chains' lm' n p rl.
Proof.
  intros (ks & cs & hk & c0 & Hp & Hf & H0 & Hlm & Hr) He Hlp Hc Hb Hq.
  exists ks, cs, hk, c0. split_and!; [by rw He|by apply (fan_frame h h' chains chains' lm lm')|done| |].
  - rw Hlp Hlm. destruct (Hc c0) as [_ ->]; [|done].
    by apply Hf, (list_elem_of_lookup_2 _ 0%nat).
  - intros q hkv -> ->. rw Hq; [done|]. by apply Hb, Hr.
Qed.

(** Rewriting one internal node. *)
Lemma index_write h chains lm nxt n A p B node :
  index_inv h chains lm nxt → chains (S n) = A ++ p :: B →
  internal_at (<[p := node]> h) chains lm n p (head B) →
  index_inv (<[p := node]> h) chains lm nxt.
Proof.
  intros Hix HC Hnode. set (h' := <[p := node]> h).
  assert (∀ m q, q ∈ chains m → m ≠ S n ∨ q ≠ p → h' !! q = h !! q) as Hsame.
  { intros m q Hq Hne. apply lookup_insert_ne. intros <-. destruct Hne as [Hne|]; [|done].
    apply Hne, (ix_level _ _ _ _ Hix m (S n) p); [done|]. rw HC. set_solver. }
  assert (∀ l s, before h (chains 0%nat) l s → before h' (chains 0%nat) l s) as Hb.
  { intros l s. apply before_ext. intros q Hq. apply hk_of_heap, (Hsame 0%nat); [done|by left]. }
  split; try apply Hix.
  - apply (leaf_inv_ext h); [|apply Hix]. intros q Hq. apply (Hsame 0%nat); [done|by left].
  - intros m A' q B' HC'. destruct (decide (m = n ∧ q = p)) as [[-> ->]|Hne].
    + pose proof (ix_nodup _ _ _ _ Hix (S n)) as Hnd. rw HC in HC', Hnd.
      destruct (NoDup_app_cons_inj A A' B B' p Hnd HC') as [_ <-]. done.
    + apply (internal_frame h h' chains chains lm lm);
        [by apply (ix_node _ _ _ _ Hix m A')| |done..].
      apply (Hsame (S m)); [rw HC'; set_solver|].
      destruct (decide (m = n)) as [->|]; [right; naive_solver|left; naive_solver].
  - intros q [x Hq]. destruct (decide (q = p)) as [->|].
    + apply (ix_elem_fresh _ _ _ _ Hix (S n)). rw HC. set_solver.
    + unfold h' in Hq. rw lookup_insert_ne in Hq; [congruence|].
      apply (ix_fresh _ _ _ _ Hix). by exists x.
Qed.

(** Splitting one internal node: [nxt] is the new right sibling of [p]. *)
Definition chains_split (chains : nat → list nat) (n : nat) (A : list nat) (p nxt : nat)
    (B : list nat) (m : nat) : list nat :=
  if decide (m = S n) then A ++ p :: nxt :: B else chains m.

Definition lm_split (lm : nat → nat) (nxt l : nat) (r : nat) : nat :=
  if decide (r = nxt) then l else lm r.

Section index_split.
Context (h : gmap nat BTreeNode) (chains : nat → list nat) (lm : nat → nat) (nxt : nat).
Context (n : nat) (A : list nat) (p : nat) (B : list nat) (l : nat).
Context (Hix : index_inv h chains lm nxt) (HC : chains (S n) = A ++ p :: B).
Context (left right : BTreeNode).
Local Abbreviation h' := (<[nxt := right]> (<[p := left]> h)).
Local Abbreviation chains' := (chains_split chains n A p nxt B).
Local Abbreviation lm' := (lm_split lm nxt l).

Lemma nxt_notin m : nxt ∉ chains m.
Proof using Hix. intros Hin%(ix_elem_fresh _ _ _ _ Hix). lia. Qed.

Lemma split_lm r m : r ∈ chains m → lm' r = lm r.
Proof using Hix.
  intros Hr. unfold lm_split. case_decide; [|done]. subst r. by destruct (nxt_notin m).
Qed.

Lemma split_heap q m : q ∈ chains m → q ≠ p → h' !! q = h !! q.
Proof using Hix.
  intros Hq ?. rw lookup_insert_ne; [|rw lookup_insert_ne; [congruence|done]].
  intros <-. by destruct (nxt_notin m).
Qed.

Lemma split_heap_other q m : q ∈ chains m → m ≠ S n → h' !! q = h !! q.
Proof using Hix HC.
  intros Hq Hm. apply (split_heap q m); [done|]. intros ->. apply Hm.
  apply (ix_level _ _ _ _ Hix m (S n) p); [done|]. rw HC. set_solver.
Qed.

Lemma split_before k s : before h (chains 0%nat) k s → before h' (chains' 0%nat) k s.
Proof using Hix HC.
  apply before_ext. intros q Hq. apply hk_of_heap, (split_heap_other q 0%nat); done.
Qed.

Lemma split_elem q m : q ∈ chains' m ↔ q ∈ chains m ∨ m = S n ∧ q = nxt.
Proof using HC.
  clear Hix h lm l left right. unfold chains_split. case_decide; [subst m; rw HC|]; set_solver.
Qed.

Lemma split_fan m ks cs : fan_ok h chains lm m ks cs → fan_ok h' chains' lm' m ks cs.
Proof using Hix HC.
  intros Hf. apply (fan_frame h _ chains _ lm); [done| |apply split_before].
  intros c Hc. split; [apply split_elem; by left|by apply (split_lm c m)].
Qed.

Lemma index_split :
  internal_at h' chains' lm' n p (Some nxt) → internal_at h' chains' lm' n nxt (head B) →
  l ∈ chains 0%nat → index_inv h' chains' lm' (S nxt).
Proof using Hix HC.
  intros Hl Hr Hlm. pose proof (ix_nodup _ _ _ _ Hix (S n)) as Hnd. rw HC in Hnd.
  assert (nxt ∉ A ++ p :: B) as Hnx by (rw -HC; apply nxt_notin).
  assert (NoDup (A ++ p :: nxt :: B)) as Hnd'.
  { apply NoDup_app in Hnd as (? & ? & [? ?]%NoDup_cons). apply NoDup_app.
    split_and!; [done|set_solver|]. repeat constructor; set_solver. }
  split.
  - apply (leaf_inv_ext h); [|apply Hix]. intros q Hq. by apply (split_heap_other q 0%nat).
  - intros m. unfold chains_split. case_decide; [done|apply Hix].
  - intros m A' q B' HC'. destruct (decide (m = n ∧ (q = p ∨ q = nxt))) as [[-> Hq]|Hne].
    + unfold chains_split in HC'. rw decide_True in HC'; [done|].
      destruct Hq as [->| ->].
      * by destruct (NoDup_app_cons_inj A A' (nxt :: B) B' p Hnd' HC') as [_ <-].
      * destruct (NoDup_app_cons_inj (A ++ [p]) A' B B' nxt) as [_ <-]; [by rw -app_assoc..|done].
    + assert (q ∈ chains' (S m)) as Hin by (rw HC'; set_solver).
      apply split_elem in Hin as [Hin|[Hm ->]]; [|naive_solver].
      assert (∃ A0 rl, chains (S m) = A0 ++ q :: rl ∧ (head rl = head B')) as (A0 & B0 & HC0 & Hh).
      { revert HC'. unfold chains_split. case_decide as Hm; [injection Hm as ->|intros; by exists A', B'].
        intros HC'. change (A ++ p :: nxt :: B) with (A ++ [p; nxt] ++ B) in HC'.
        apply split3 in HC' as [(X2 & -> & ->)|[(S1 & S2 & HS & -> & ->)|(Y1 & -> & ->)]].
        - exists A', (X2 ++ p :: B). rw HC -app_assoc. split; [done|]. by destruct X2.
        - exfalso. assert (q ∈ [p; nxt]) by (rw HS; set_solver). set_solver.
        - exists (A ++ p :: Y1), B'. rw HC -app_assoc. done. }
      pose proof (ix_node _ _ _ _ Hix m A0 q B0 HC0) as Hnode. rw Hh in Hnode.
      apply (internal_frame h _ chains _ lm); [done| | | |apply split_before|].
      * apply (split_heap q (S m)); [done|]. intros ->. apply Hne. split; [|by left].
        enough (S m = S n) by lia. apply (ix_level _ _ _ _ Hix _ _ p); [done|]. rw HC. set_solver.
      * by apply (split_lm q (S m)).
      * intros c Hc. split; [apply split_elem; by left|by apply (split_lm c m)].
      * intros r Hr'. apply (split_lm r (S m)). rw HC0. destruct B0; [by rw -Hh in Hr'|].
        rw -Hh in Hr'. simplify_eq/=. set_solver.
  - intros q Hq. rw (split_lm q 0%nat); [done|]. by apply (ix_lm0 _ _ _ _ Hix).
  - intros m q [Hq|[-> ->]]%split_elem.
    + rw (split_lm q m); [done|]. by apply (ix_lm _ _ _ _ Hix m).
    + unfold lm_split. by rw decide_True.
  - intros m1 m2 q [H1|[-> ->]]%split_elem [H2|[-> ?]]%split_elem; try done.
    + by apply (ix_level _ _ _ _ Hix m1 m2 q).
    + subst q. by destruct (nxt_notin m1).
    + by destruct (nxt_notin m2).
  - intros q [x Hq]. destruct (decide (q = nxt)) as [->|]; [lia|].
    rw lookup_insert_ne in Hq; [congruence|]. destruct (decide (q = p)) as [->|].
    + enough (p < nxt)%nat by lia. apply (ix_elem_fresh _ _ _ _ Hix (S n)). rw HC. set_solver.
    + rw lookup_insert_ne in Hq; [congruence|].
      enough (q < nxt)%nat by lia. apply (ix_fresh _ _ _ _ Hix). by exists x.
Qed.
End index_split.

(** ** Splits on the way up *)

(** The index levels change, the leaf level does not. *)
Record index_step (h : gmap nat BTreeNode) (chains : nat → list nat) (lm : nat → nat)
    (h' : gmap nat BTreeNode) (chains' : nat → list nat) (lm' : nat → nat) : Prop := {
  is_leaves : chains' 0%nat = chains 0%nat;
  is_heap : ∀ q, q ∈ chains 0%nat → h' !! q = h !! q;
  is_keep : ∀ m q, q ∈ chains m → q ∈ chains' m ∧ lm' q = lm q;
  is_size : (size h ≤ size h')%nat
}.

Lemma index_step_trans h1 c1 l1 h2 c2 l2 h3 c3 l3 :
  index_step h1 c1 l1 h2 c2 l2 → index_step h2 c2 l2 h3 c3 l3 → index_step h1 c1 l1 h3 c3 l3.
Proof.
  intros [Hl1 Hh1 Hk1 Hs1] [Hl2 Hh2 Hk2 Hs2]. split.
  - by rw Hl2.
  - intros q Hq. rw Hh2; [by rw Hl1|]. by apply Hh1.
  - intros m q Hq. destruct (Hk1 m q Hq) as [H1 <-]. by apply Hk2.
  - lia.
Qed.

Lemma size_insert_ge (h : gmap nat BTreeNode) p x : (size h ≤ size (<[p := x]> h))%nat.
Proof.
  rw map_size_insert. destruct (h !! p); simpl; lia.
Qed.

Section internal_insert.
Context (h : gmap nat BTreeNode) (chains : nat → list nat) (lm : nat → nat) (nxt : nat).
Context (ord n : nat) (A : list nat) (p : nat) (B : list nat).
Context (Hix : index_inv h chains lm nxt) (HC : chains (S n) = A ++ p :: B).
Context (Hord : (2 ≤ ord)%nat).

(** Keys and children distributed over two siblings. *)
Lemma internal_split_index ks cs hk mid promoted c0 :
  fan_ok h chains lm n ks cs → cs !! 0%nat = Some c0 → lm p = lm c0 →
  (∀ q hkv, head B = Some q → hk = Some hkv → before h (chains 0%nat) (lm q) hkv) →
  ks !! mid = Some promoted →
  let left := Internal (take mid ks) (take (S mid) cs) (Some promoted) (Some nxt) in
  let right := Internal (drop (S mid) ks) (drop (S mid) cs) hk (head B) in
  let h' := <[nxt := right]> (<[p := left]> h) in
  ∃ chains' lm', index_inv h' chains' lm' (S nxt) ∧ nxt ∈ chains' (S n) ∧
    before h' (chains' 0%nat) (lm' nxt) promoted ∧ index_step h chains lm h' chains' lm'.
Proof using Hix HC.
  clear Hord ord. intros Hf H0 Hlm Hrl Hpr left right h'.
  assert (mid < length ks)%nat as Hmid by (by apply lookup_lt_Some in Hpr).
  destruct (lookup_lt_is_Some_2 cs (S mid)) as [c1 Hc1]; [rw (fan_len _ _ _ _ _ _ Hf); lia|].
  assert (c1 ∈ chains n) as Hc1n by (apply Hf; by apply list_elem_of_lookup_2 in Hc1).
  assert (c0 ∈ chains n) as Hc0n by (apply Hf; by apply list_elem_of_lookup_2 in H0).
  assert (p ∈ chains (S n)) as Hpn by (rw HC; set_solver).
  assert (nxt ≠ p) as Hnp by (intros ->; by apply (nxt_notin h chains lm p Hix (S n))).
  set (l := lm c1).
  pose proof (split_lm h chains lm nxt l Hix) as Hkeep.
  pose proof (split_before h chains lm nxt n A p B Hix HC left right) as Hb.
  assert (before h (chains 0%nat) l promoted) as Hl by (by apply (fan_seps _ _ _ _ _ _ Hf mid)).
  assert (lm_split lm nxt l nxt = l) as Hln by (unfold lm_split; by rw decide_True).
  assert (h' !! p = Some left) as Hp' by (unfold h'; rw lookup_insert_ne; [done|apply lookup_insert_eq]).
  exists (chains_split chains n A p nxt B), (lm_split lm nxt l). split_and!.
  - apply (index_split h chains lm nxt n A p B l Hix HC).
    + exists (take mid ks), (take (S mid) cs), (Some promoted), c0.
      split_and!; [done| |by rw lookup_take_lt; [lia|]| |].
      * apply (split_fan h chains lm nxt n A p B l Hix HC). by apply fan_take.
      * rw (Hkeep p (S n)); [done|]. by rw (Hkeep c0 n).
      * intros q hkv [= <-] [= <-]. rw Hln. by apply Hb.
    + exists (drop (S mid) ks), (drop (S mid) cs), hk, c1.
      split_and!; [apply lookup_insert_eq| |by rw lookup_drop Nat.add_0_r| |].
      * apply (split_fan h chains lm nxt n A p B l Hix HC). by apply fan_drop.
      * rw Hln. by rw (Hkeep c1 n).
      * intros q hkv Hq Hhk. rw (Hkeep q (S n)).
        { rw HC. destruct B; simplify_eq/=. set_solver. }
        apply Hb. by apply Hrl.
    + by apply (ix_lm _ _ _ _ Hix n).
  - apply (split_elem chains nxt n A p B HC). by right.
  - rw Hln. by apply Hb.
  - split; [done| | |].
    + intros q Hq. by apply (split_heap_other h chains lm nxt n A p B Hix HC left right q 0%nat).
    + intros m q Hq. split; [apply (split_elem chains nxt n A p B HC); by left|by apply (Hkeep q m)].
    + etrans; [|apply size_insert_ge]. apply size_insert_ge.
Qed.

Lemma internal_insert_index sk child ks cs hk rl :
  h !! p = Some (Internal ks cs hk rl) → child ∈ chains n → before h (chains 0%nat) (lm child) sk →
  (∃ node', internal_insert_locked ord nxt ks cs hk rl sk child = Some (node', None) ∧
     index_inv (<[p := node']> h) chains lm nxt ∧
     index_step h chains lm (<[p := node']> h) chains lm) ∨
  (∃ node' right promoted chains' lm',
     internal_insert_locked ord nxt ks cs hk rl sk child = Some (node', Some (promoted, right)) ∧
     let h' := <[nxt := right]> (<[p := node']> h) in
     index_inv h' chains' lm' (S nxt) ∧ nxt ∈ chains' (S n) ∧
     before h' (chains' 0%nat) (lm' nxt) promoted ∧ index_step h chains lm h' chains' lm').
Proof using Hix HC Hord.
  intros Hp Hc Hb. destruct (ix_node _ _ _ _ Hix n A p B HC) as (ks0 & cs0 & hk0 & c0 & Hp0 & Hf & H0 & Hlm & Hr).
  rw Hp in Hp0. injection Hp0 as <- <- <- ->.
  destruct (fan_insert h chains lm n ks cs sk child Hf Hc Hb) as [Hf' H0'].
  unfold internal_insert_locked. revert Hf' H0'.
  set (ks1 := vec_insert (partition_point ks sk) sk ks).
  set (cs1 := vec_insert (S (partition_point ks sk)) child cs). intros Hf' H0'. rw H0 in H0'.
  destruct (Nat.ltb_spec (length ks1) ord) as [Hlt|Hge].
  - left. eexists. split; [done|].
    set (h' := <[p := _]> h).
    assert (∀ q, q ∈ chains 0%nat → h' !! q = h !! q) as Hsame.
    { intros q Hq. apply lookup_insert_ne. intros <-.
      enough (0%nat = S n) by done. apply (ix_level _ _ _ _ Hix _ _ p); [done|]. rw HC. set_solver. }
    assert (∀ l s, before h (chains 0%nat) l s → before h' (chains 0%nat) l s) as Hbe.
    { intros l s. apply before_ext. intros q Hq. by apply hk_of_heap, Hsame. }
    split; [apply (index_write h chains lm nxt n A p B); [done..|]|].
    + exists ks1, cs1, hk, c0. split_and!; [apply lookup_insert_eq| |done|done|].
      * by apply (fan_frame h _ chains _ lm).
      * intros q hkv ? ?. by apply Hbe, Hr.
    + split; [done..|]. apply size_insert_ge.
  - right. destruct (lookup_lt_is_Some_2 ks1 (length ks1 / 2)) as [pr Hpr].
    { apply Nat.div_lt; lia. }
    rw Hpr. cbn [mbind option_bind].
    destruct (internal_split_index ks1 cs1 hk _ pr c0 Hf' H0' Hlm Hr Hpr) as (chains' & lm' & H).
    eexists _, _, pr, chains', lm'. split; [done|]. exact H.
Qed.
End internal_insert.

(** The pass over the recorded path. [top] is the level of the tree's root;
    what remains is a split of that level. *)
Lemma propagate_spec ord h chains lm nxt n path sk child :
  (2 ≤ ord)%nat → index_inv h chains lm nxt → path_at chains n path →
  child ∈ chains n → before h (chains 0%nat) (lm child) sk →
  ∃ h' nxt' rest chains' lm', propagate ord h nxt path sk child = Some (h', nxt', rest) ∧
    index_inv h' chains' lm' nxt' ∧ index_step h chains lm h' chains' lm' ∧
    match rest with
    | None => True
    | Some (sk', child') =>
        child' ∈ chains' (n + length path)%nat ∧ before h' (chains' 0%nat) (lm' child') sk'
    end.
Proof.
  intros Hord. revert h chains lm nxt n sk child.
  induction path as [|parent path IH]; intros h chains lm nxt n sk child Hix Hpath Hc Hb; simpl.
  { exists h, nxt, (Some (sk, child)), chains, lm. split_and!; [done|done| |by rw Nat.add_0_r|done].
    by split. }
  pose proof (Hpath 0%nat parent eq_refl) as Hpar. rw Nat.add_0_r in Hpar.
  destruct (move_right_total h chains lm nxt Hix (S n) sk parent Hpar) as (p & Hmv & Hp). rw Hmv. simpl.
  apply list_elem_of_split in Hp as (A & B & HC).
  destruct (ix_node _ _ _ _ Hix n A p B HC) as (ks & cs & hk & c0 & Hp & _). rw Hp. simpl.
  destruct (internal_insert_index h chains lm nxt ord n A p B Hix HC Hord sk child ks cs hk (head B) Hp Hc Hb)
    as [(node' & Hrun & Hix' & Hst)|(node' & right & pr & chains' & lm' & Hrun & Hix' & Hn' & Hb' & Hst)];
    rw Hrun; simpl.
  - by exists (<[p := node']> h), nxt, None, chains, lm.
  - destruct (IH _ chains' lm' (S nxt) (S n) pr nxt Hix')
      as (h2 & nxt2 & rest & chains2 & lm2 & Hrun2 & Hix2 & Hst2 & Hrest); [|done|done|].
    { intros i q Hq. apply (is_keep _ _ _ _ _ _ Hst). replace (S n + i)%nat with (n + S i)%nat by lia.
      by apply Hpath. }
    exists h2, nxt2, rest, chains2, lm2. split_and!; [done|done|by apply (index_step_trans _ _ _ _ _ _ _ _ _ Hst)|].
    destruct rest as [[sk' child']|]; [|done]. by replace (n + S (length path))%nat with (S n + length path)%nat by lia.
Qed.
