(* ===== verification/BTreeSpec.v ===== *)
(** What the B+Tree's operations do: each returns within its fuel, keeps the
    tree invariant, and acts as the corresponding operation of a finite map
    ordered by key. *)
From S2P Require Import Prelude ByteOrder BTree BTreeInv.
Import BTree.

(** ** Inserting at the leaf level of a tree *)

Definition chains_leaf (chains : nat → list nat) (C : list nat) (m : nat) : list nat :=
  match m with O => C | S _ => chains m end.

Section index_leaf.
Context (h : gmap nat BTreeNode) (chains : nat → list nat) (lm : nat → nat) (nxt : nat).
Context (X : list nat) (j : nat) (Y : list nat) (key : list Z) (value : option (list Z)).
Context (h' : gmap nat BTreeNode) (S' : list nat) (n1 : nat) (split : option (list Z)).
Context (Hix : index_inv h chains lm nxt) (HC : chains 0%nat = X ++ j :: Y).
Context (Hres : leaf_result h X j Y key value nxt h' S' n1 split).
Local Abbreviation chains' := (chains_leaf chains (X ++ S' ++ Y)).
Local Abbreviation lm' := (lm_split lm nxt nxt).

Lemma leaf_elem q : q ∈ chains' 0%nat ↔ q ∈ chains 0%nat ∨ q = nxt ∧ q ∈ S'.
Proof using HC Hres.
  destruct Hres as (_ & _ & _ & _ & _ & _ & Hs). simpl. rw HC.
  clear - Hs. destruct split as [sk|]; [destruct Hs as [-> _]|subst S']; set_solver.
Qed.

Lemma leaf_keep m q : q ∈ chains m → q ∈ chains' m ∧ lm' q = lm q.
Proof using Hix HC Hres.
  intros Hq. split; [|by apply (split_lm h chains lm nxt nxt Hix q m)].
  destruct m as [|m]; [|done]. apply leaf_elem. by left.
Qed.

Lemma leaf_same m q : q ∈ chains (S m) → h' !! q = h !! q.
Proof using Hix HC Hres.
  intros Hq. assert (q ≠ nxt) as Hn by (intros ->; by destruct (nxt_notin h chains lm nxt Hix (S m))).
  assert (q ≠ j) as Hj.
  { intros ->. enough (S m = 0%nat) by done. apply (ix_level _ _ _ _ Hix _ _ j Hq). rw HC. set_solver. }
  destruct Hres as (_ & _ & _ & _ & He & _ & Hs). apply He.
  clear - Hs Hn Hj. destruct split as [sk|]; [destruct Hs as [-> _]|subst S']; set_solver.
Qed.

Context (nxt' : nat) (Hle : (nxt ≤ nxt')%nat) (Hlt : ∀ p, p ∈ S' → (p < nxt')%nat).

Lemma index_leaf : index_inv h' chains' lm' nxt'.
Proof using Hix HC Hres Hle Hlt.
  destruct Hres as (Hli & Hhd & _ & Hbe & He & _ & _).
  assert (∀ q, q ∈ chains' 0%nat → q ∈ S' ∨ q ∈ chains 0%nat) as Hsub.
  { intros q [?|[_ ?]]%leaf_elem; auto. }
  split; [done| | | | | |].
  - intros [|m]; [apply Hli|apply Hix].
  - intros m A p B Hm. simpl in Hm.
    assert (p ∈ chains (S m)) as Hp by (rw Hm; set_solver).
    apply (internal_frame h _ chains _ lm);
      [by apply (ix_node _ _ _ _ Hix m A)|by apply (leaf_same m)|by apply (leaf_keep (S m))|apply leaf_keep| |].
    + intros l s. rw HC. apply Hbe.
    + intros q Hq. apply (leaf_keep (S m)). rw Hm. destruct B; simplify_eq/=. set_solver.
  - intros p [Hp|[-> _]]%leaf_elem; [|unfold lm_split; by rw decide_True].
    destruct (leaf_keep 0 p Hp) as [_ ->]. by apply (ix_lm0 _ _ _ _ Hix).
  - intros [|m] p Hp.
    + apply leaf_elem in Hp as [Hp|[-> Hp]].
      * destruct (leaf_keep 0 p Hp) as [_ ->]. apply leaf_elem. left. by apply (ix_lm _ _ _ _ Hix 0%nat).
      * unfold lm_split. rw decide_True; [done|]. apply leaf_elem. by right.
    + destruct (leaf_keep (S m) p Hp) as [_ ->]. apply leaf_elem. left. by apply (ix_lm _ _ _ _ Hix (S m)).
  - assert (∀ m p, p ∈ chains' 0%nat → p ∈ chains (S m) → False) as Hx.
    { intros m p [Hp|[-> _]]%leaf_elem Hm; [by specialize (ix_level _ _ _ _ Hix _ _ p Hp Hm)|].
      by destruct (nxt_notin h chains lm nxt Hix (S m)). }
    intros [|m1] [|m2] p H1 H2; [done|by destruct (Hx m2 p)|by destruct (Hx m1 p)|].
    by apply (ix_level _ _ _ _ Hix _ _ p).
  - intros p [x Hp]. destruct (decide (p ∈ S')) as [|Hn]; [by apply Hlt|].
    rw He in Hp; [done|]. enough (p < nxt)%nat by lia. apply (ix_fresh _ _ _ _ Hix). by exists x.
Qed.
End index_leaf.

(** ** A new root *)

Definition chains_root (chains : nat → list nat) (top nxt : nat) (m : nat) : list nat :=
  if decide (m = S top) then [nxt] else if decide (m ≤ top)%nat then chains m else [].

Lemma index_root h chains lm nxt top r child sk :
  index_inv h chains lm nxt → r ∈ chains top → child ∈ chains top →
  before h (chains 0%nat) (lm child) sk →
  index_inv (<[nxt := Internal [sk] [r; child] None None]> h)
    (chains_root chains top nxt) (lm_split lm nxt (lm r)) (S nxt).
Proof.
  intros Hix Hr Hc Hb. set (h' := <[nxt := _]> h).
  assert (∀ m, nxt ∉ chains m) as Hnx by apply (nxt_notin h chains lm nxt Hix).
  assert (∀ q m, q ∈ chains m → h' !! q = h !! q) as Hsame.
  { intros q m Hq. apply lookup_insert_ne. intros <-. by destruct (Hnx m). }
  assert (∀ m, (m ≤ top)%nat → chains_root chains top nxt m = chains m) as Hch.
  { intros m Hm. unfold chains_root. do 2 (case_decide; try lia). done. }
  assert (∀ q m, q ∈ chains_root chains top nxt m → q ∈ chains m ∨ m = S top ∧ q = nxt) as Hin.
  { intros q m. unfold chains_root. repeat case_decide; set_solver. }
  pose proof (split_lm h chains lm nxt (lm r) Hix) as Hlm.
  assert (∀ l s, before h (chains 0%nat) l s → before h' (chains_root chains top nxt 0%nat) l s) as Hbe.
  { intros l s. rw Hch; [lia|]. apply before_ext. intros q Hq. by apply hk_of_heap, (Hsame q 0%nat). }
  split.
  - rw Hch; [lia|]. apply (leaf_inv_ext h); [|apply Hix]. intros q. apply Hsame.
  - intros m. unfold chains_root. repeat case_decide; [apply NoDup_singleton|apply Hix|constructor].
  - intros m A p B Hm. destruct (decide (m = top)) as [->|Hne].
    + unfold chains_root in Hm. rw decide_True in Hm; [done|].
      destruct A as [|? [|]]; simplify_eq/=. eexists [sk], [r; child], None, r.
      split_and!; [apply lookup_insert_eq| |done| |done].
      * split; [done|repeat constructor| |].
        -- rw Hch; [lia|]. set_solver.
        -- intros [|i] s c; [|done]. intros [= <-] [= <-]. apply Hbe. by rw (Hlm child top).
      * unfold lm_split at 1. rw decide_True; [done|]. by rw (Hlm r top).
    + assert (m < top ∧ chains (S m) = A ++ p :: B)%nat as [Hlt HC].
      { revert Hm. unfold chains_root. repeat case_decide; try lia; [done|]. by destruct A. }
      assert (∀ q, q ∈ p :: B → q ∈ chains (S m)) as Hq by (rw HC; set_solver).
      apply (internal_frame h h' chains _ lm); [by apply (ix_node _ _ _ _ Hix m A)| | | |apply Hbe|].
      * apply (Hsame p (S m)), Hq. by left.
      * apply (Hlm p (S m)), Hq. by left.
      * intros c Hcm. split; [rw Hch; [lia|done]|by apply (Hlm c m)].
      * intros q Hhd. apply (Hlm q (S m)), Hq. destruct B; simplify_eq/=. set_solver.
  - intros p. rw Hch; [lia|]. intros Hp. rw (Hlm p 0%nat Hp). by apply (ix_lm0 _ _ _ _ Hix).
  - intros m p [Hp|[-> ->]]%Hin; rw Hch; try lia.
    + rw (Hlm p m Hp). by apply (ix_lm _ _ _ _ Hix m).
    + unfold lm_split. rw decide_True; [done|]. by apply (ix_lm _ _ _ _ Hix top).
  - intros m1 m2 p [H1|[-> ->]]%Hin [H2|[-> ?]]%Hin; try done.
    + by apply (ix_level _ _ _ _ Hix m1 m2 p).
    + subst p. by destruct (Hnx m1).
    + by destruct (Hnx m2).
  - intros p [x Hp]. destruct (decide (p = nxt)) as [->|]; [lia|].
    unfold h' in Hp. rw lookup_insert_ne in Hp; [congruence|].
    enough (p < nxt)%nat by lia. apply (ix_fresh _ _ _ _ Hix). by exists x.
Qed.

(** ** The tree invariant *)

Record tree_at (t : BPlusTree) (chains : nat → list nat) (lm : nat → nat) (top : nat) : Prop := {
  ta_index : index_inv (heap t) chains lm (next t);
  ta_root : root t ∈ chains top;
  ta_first : head (chains 0%nat) = Some (lm (root t));
  ta_height : (top < size (heap t))%nat;
  ta_order : (2 ≤ order t)%nat;
  ta_len : len t = Z.of_nat (length (content (heap t) (chains 0%nat)))
}.

(** The tree satisfies the invariant and holds the pairs [l], in order. *)
Definition holds (t : BPlusTree) (l : list (list Z * list Z)) : Prop :=
  ∃ chains lm top, tree_at t chains lm top ∧ l = content (heap t) (chains 0%nat).

Lemma holds_new nm ord : (2 ≤ ord)%nat → holds (new nm ord) [].
Proof.
  intros Hord. exists (λ m, if decide (m = 0%nat) then [0%nat] else []), (λ _, 0%nat), 0%nat.
  set (h := heap (new nm ord)).
  assert (content h [0%nat] = []) as Hc by done.
  split; [|done]. split; simpl; [|set_solver|done| |done|done].
  - split.
    + split; simpl; [apply NoDup_singleton| |by constructor].
      intros [|? [|]] p B HC; simplify_eq/=. exists [], [], None. by split_and!.
    + intros m. case_decide; [apply NoDup_singleton|constructor].
    + intros m A p B HC. by destruct A.
    + intros p. simpl. set_solver.
    + intros m p. case_decide; set_solver.
    + intros m1 m2 p. repeat case_decide; set_solver.
    + intros p [x Hp]. apply lookup_singleton_Some in Hp as [<- _]. lia.
  - rw map_size_singleton. lia.
Qed.

Section tree_facts.
Context (t : BPlusTree) (chains : nat → list nat) (lm : nat → nat) (top : nat).
Context (Ht : tree_at t chains lm top).

Lemma tree_descend key :
  ∃ leaf path A B ks vs hk, descend (size (heap t)) (heap t) (root t) key [] = Some (leaf, path) ∧
    length path = top ∧ path_at chains 0 path ∧ chains 0%nat = A ++ leaf :: B ∧
    target (heap t) key A leaf B ∧ heap t !! leaf = Some (Leaf ks vs hk (head B)) ∧
    length ks = length vs ∧ StronglySorted blt ks.
Proof using Ht.
  destruct (descend_spec _ _ _ _ (ta_index _ _ _ _ Ht) top key (size (heap t)) (root t) [])
    as (leaf & path & A & B & Hrun & Hlen & Hpath & HC & Htg); [apply Ht| |apply Ht|].
  { apply before_head, Ht. }
  pose proof (ix_leaf _ _ _ _ (ta_index _ _ _ _ Ht)) as Hli.
  destruct (li_node _ _ Hli A leaf B HC) as (ks & vs & hk & Hn & Hl & _).
  rw app_nil_r in Hrun. exists leaf, path, A, B, ks, vs, hk. split_and!; try done.
  pose proof (li_keys_sorted _ _ Hli A leaf B HC) as Hs. unfold lpairs in Hs.
  rw Hn keys_of_zip in Hs; done.
Qed.

Lemma tree_find key :
  ∃ leaf A B ks vs hk, find_leaf_read t key = Some leaf ∧ chains 0%nat = A ++ leaf :: B ∧
    target (heap t) key A leaf B ∧ heap t !! leaf = Some (Leaf ks vs hk (head B)) ∧
    length ks = length vs ∧ StronglySorted blt ks.
Proof using Ht.
  destruct (tree_descend key) as (leaf & path & A & B & ks & vs & hk & Hrun & _ & _ & ?).
  exists leaf, A, B, ks, vs, hk. unfold find_leaf_read.
  by rw (find_leaf_descend (heap t) _ _ _ []) Hrun.
Qed.
End tree_facts.

(** ** Insert *)

Section tree_insert.
Context (t : BPlusTree) (chains : nat → list nat) (lm : nat → nat) (top : nat).
Context (Ht : tree_at t chains lm top) (key : list Z) (value : option (list Z)).
Context (leaf : nat) (A B : list nat) (HC : chains 0%nat = A ++ leaf :: B).

(** The tree after a leaf insertion without a split. *)
Lemma tree_leaf_same h' n1 dlen :
  leaf_result (heap t) A leaf B key value (next t) h' [leaf] n1 None →
  Z.of_nat n1 = Z.of_nat (length (lpairs (heap t) leaf)) + dlen → (size (heap t) ≤ size h')%nat →
  ∃ chains' lm', tree_at (mkTree (root t) (order t) (name t) (len t + dlen) h' (next t)) chains' lm' top ∧
    pair_upd key value (content (heap t) (chains 0%nat)) (content h' (chains' 0%nat)).
Proof using Ht HC.
  intros Hres Hn Hsz. pose proof (ta_index _ _ _ _ Ht) as Hix.
  pose proof (index_leaf _ _ _ _ A leaf B key value h' [leaf] n1 None Hix HC Hres (next t)) as Hix'.
  pose proof (leaf_keep _ _ _ _ A leaf B key value h' [leaf] n1 None Hix HC Hres) as Hk.
  pose proof Hres as (_ & _ & Hput & _ & _ & Hl & _).
  exists (chains_leaf chains (A ++ [leaf] ++ B)), (lm_split lm (next t) (next t)).
  split; [|rw HC; exact Hput]. destruct Ht as [_ Hr Hf Hh Ho Hln]. split; simpl.
  - apply Hix'; [done|]. intros p ->%list_elem_of_singleton. apply (ix_elem_fresh _ _ _ _ Hix 0%nat).
    rw HC. set_solver.
  - by apply Hk.
  - destruct (Hk top (root t) Hr) as [_ ->]. rw -Hf HC. by destruct A.
  - lia.
  - done.
  - rw Hln HC. cbn [app] in *. lia.
Qed.

Context (path : list nat) (Hlen : length path = top) (Hpath : path_at chains 0 path).

(** The tree after a leaf split has been propagated. *)
Lemma tree_leaf_split h' n1 sk dlen :
  leaf_result (heap t) A leaf B key value (next t) h' [leaf; next t] n1 (Some sk) →
  Z.of_nat n1 = Z.of_nat (length (lpairs (heap t) leaf)) + dlen → (size (heap t) ≤ size h')%nat →
  ∃ h2 nxt rest, propagate (order t) h' (S (next t)) path sk (next t) = Some (h2, nxt, rest) ∧
  ∃ chains' lm' top',
    tree_at
      match rest with
      | None => mkTree (root t) (order t) (name t) (len t + dlen) h2 nxt
      | Some (sk', child) =>
          mkTree nxt (order t) (name t) (len t + dlen)
            (<[nxt := Internal [sk'] [root t; child] None None]> h2) (S nxt)
      end chains' lm' top' ∧
    content h2 (chains' 0%nat) = content h' (A ++ [leaf; next t] ++ B) ∧
    (∀ x, content (<[nxt := x]> h2) (chains' 0%nat) = content h2 (chains' 0%nat)).
Proof using Ht HC Hlen Hpath.
  intros Hres Hn Hsz. pose proof (ta_index _ _ _ _ Ht) as Hix.
  pose proof (index_leaf _ _ _ _ A leaf B key value h' _ n1 _ Hix HC Hres (S (next t))) as Hix'.
  pose proof (leaf_keep _ _ _ _ A leaf B key value h' _ n1 _ Hix HC Hres) as Hk.
  set (chains1 := chains_leaf chains (A ++ [leaf; next t] ++ B)) in *.
  set (lm1 := lm_split lm (next t) (next t)) in *.
  assert (lm1 (next t) = next t) as Hlq by (unfold lm1, lm_split; by rw decide_True).
  destruct Hres as (_ & _ & _ & _ & _ & Hl & _ & Hb).
  destruct (propagate_spec (order t) h' chains1 lm1 (S (next t)) 0 path sk (next t))
    as (h2 & nxt & rest & chains2 & lm2 & Hrun & Hix2 & [Hlv Hhp Hkp Hs2] & Hrest).
  { apply Ht. }
  { apply Hix'; [lia|]. intros p [->|Hp]%elem_of_cons; [|apply list_elem_of_singleton in Hp; lia].
    enough (leaf < next t)%nat by lia. apply (ix_elem_fresh _ _ _ _ Hix 0%nat). rw HC. set_solver. }
  { intros i p Hi. by apply Hk, Hpath. }
  { simpl. set_solver. }
  { rw Hlq. exact Hb. }
  exists h2, nxt, rest. split; [done|].
  assert (root t ∈ chains2 top ∧ lm2 (root t) = lm (root t)) as [Hr2 Hlr].
  { destruct (Hk top (root t)) as [H1 H2]; [apply Ht|]. destruct (Hkp top (root t) H1) as [? H3].
    split; [done|]. by rw H3 H2. }
  assert (content h2 (chains2 0%nat) = content h' (chains1 0%nat)) as Hc2.
  { rw Hlv. apply content_ext. intros q Hq. by apply lpairs_heap, Hhp. }
  assert (∀ x, content (<[nxt := x]> h2) (chains2 0%nat) = content h2 (chains2 0%nat)) as Hcx.
  { intros x. apply content_ext. intros q Hq. apply lpairs_heap, lookup_insert_ne. intros <-.
    by apply (nxt_notin h2 chains2 lm2 nxt Hix2 0%nat). }
  assert (head (chains2 0%nat) = Some (lm (root t))) as Hf2.
  { rw Hlv. rw -(ta_first _ _ _ _ Ht) HC. by destruct A. }
  assert (len t + dlen = Z.of_nat (length (content h2 (chains2 0%nat)))) as Hln.
  { rw Hc2 (ta_len _ _ _ _ Ht) HC. unfold chains1, chains_leaf. lia. }
  destruct Ht as [_ _ _ Hh Ho _]. destruct rest as [[sk' child]|].
  - destruct Hrest as [Hch Hbc]. rw Hlen in Hch.
    exists (chains_root chains2 top nxt), (lm_split lm2 nxt (lm2 (root t))), (S top).
    assert (chains_root chains2 top nxt 0%nat = chains2 0%nat) as Hc0.
    { unfold chains_root. by repeat case_decide; try lia. }
    rw Hc0. split; [|done]. split; simpl.
    + by apply index_root.
    + unfold chains_root. rw decide_True; [done|]. set_solver.
    + rw Hc0 Hf2. unfold lm_split. rw decide_True; [done|]. by rw Hlr.
    + rw map_size_insert_None; [|lia]. apply eq_None_not_Some. intros Hx%(ix_fresh _ _ _ _ Hix2). lia.
    + done.
    + by rw Hc0 Hcx.
  - exists chains2, lm2, top. split; [|done]. split; simpl; [done|done| |lia|done|done].
    by rw Hlr.
Qed.

Lemma insert_at (v : list Z) (ks vs : list (list Z)) hk :
  value = Some v →
  descend (size (heap t)) (heap t) (root t) key [] = Some (leaf, path) →
  target (heap t) key A leaf B → heap t !! leaf = Some (Leaf ks vs hk (head B)) →
  length ks = length vs → StronglySorted blt ks →
  ∃ t' chains' lm' top', insert t key v = Some t' ∧ tree_at t' chains' lm' top' ∧
    order t' = order t ∧ name t' = name t ∧
    pair_upd key value (content (heap t) (chains 0%nat)) (content (heap t') (chains' 0%nat)).
Proof using Ht HC Hlen Hpath.
  intros Hv Hrun Htg Hn Hl Hs. pose proof (ta_index _ _ _ _ Ht) as Hix.
  pose proof (ix_leaf _ _ _ _ Hix) as Hli. rw HC in Hli.
  assert (lpairs (heap t) leaf = zip ks vs) as Hlp by (unfold lpairs; by rw Hn).
  destruct (leaf_insert_pairs (order t) (next t) ks vs hk (head B) key v)
    as (ks1 & vs1 & dlen & Hl1 & Hs1 & Hput & Hd & Hcase); [apply Ht|done|done|]. rw -Hv in Hput.
  assert (Z.of_nat (length ks1) = Z.of_nat (length (lpairs (heap t) leaf)) + dlen) as Hd'.
  { rw Hlp length_zip_with. lia. }
  unfold insert. cbn [insert_loop]. rw Hrun. cbn [mbind option_bind]. rw Hn. cbn [mbind option_bind].
  assert (match hk with
          | Some hkv => bltb hkv key && (if head B is Some _ then true else false)
          | None => false end = false) as ->.
  { destruct hk as [hkv|]; [|done]. destruct B as [|b B']; [by rw andb_false_r|].
    destruct (bltb_spec hkv key) as [Hlt|]; [|done]. exfalso. destruct Htg as [_ Htg].
    destruct Htg as (w & Hw & ?); [done|]. unfold hk_of in Hw. rw Hn in Hw. simplify_eq/=. border. }
  destruct Hcase as [Hc|(mid & sk & lk & rk & Hmid & Hsk & Hlk & Hrk & Hc)]; rw Hc;
    cbn [mbind option_bind].
  - pose proof (leaf_insert_same _ A leaf B ks vs ks1 vs1 hk key value (next t) Hli Hn Htg Hl1 Hs1 Hput) as Hres.
    destruct (tree_leaf_same _ _ dlen Hres Hd' (size_insert_ge _ _ _)) as (chains' & lm' & Ht' & Hp).
    by eexists _, chains', lm', top.
  - assert (next t ∉ A ++ leaf :: B) as Hq by (rw -HC; by apply (nxt_notin _ _ _ _ Hix)).
    pose proof (leaf_insert_split _ A leaf B ks vs ks1 vs1 hk key value (next t) mid sk lk rk
                  Hli Hn Htg Hq Hl1 Hs1 Hput Hmid Hsk Hlk Hrk) as Hres.
    destruct (tree_leaf_split _ _ sk dlen Hres Hd') as (h2 & nxt & rest & Hpr & chains' & lm' & top' & Ht' & Hc' & Hx).
    { etrans; [|apply size_insert_ge]. apply size_insert_ge. }
    rw Hpr. cbn [mbind option_bind]. destruct Hres as (_ & _ & Hpp & _). rw HC.
    destruct rest as [[sk' child]|]; [rw bool_decide_true; [done|]|];
      eexists _, chains', lm', top'; (split_and!; [done|done|done|done|]); simpl; rw ?Hx Hc'; exact Hpp.
Qed.
End tree_insert.

Lemma insert_holds t l key value :
  holds t l →
  ∃ t' l', insert t key value = Some t' ∧ holds t' l' ∧ order t' = order t ∧ pair_upd key (Some value) l l'.
Proof.
  intros (chains & lm & top & Ht & ->).
  destruct (tree_descend t chains lm top Ht key)
    as (leaf & path & A & B & ks & vs & hk & Hrun & Hlen & Hpath & HC & Htg & Hn & Hl & Hs).
  destruct (insert_at t chains lm top Ht key (Some value) leaf A B HC path Hlen Hpath value ks vs hk)
    as (t' & chains' & lm' & top' & Hi & Ht' & Ho & _ & Hp); [done..|].
  exists t', (content (heap t') (chains' 0%nat)). split_and!; try done. by exists chains', lm', top'.
Qed.

(** ** Search and delete *)

Lemma binary_search_lookup (ks vs : list (list Z)) key :
  length ks = length vs → StronglySorted blt ks →
  match binary_search ks key with
  | inl i => ∃ v, ks !! i = Some key ∧ vs !! i = Some v ∧ (key, v) ∈ zip ks vs
  | inr _ => ∀ v, (key, v) ∉ zip ks vs
  end.
Proof.
  intros Hl Hs. destruct (binary_search ks key) as [i|i] eqn:Hb.
  - apply binary_search_found in Hb as Hi. destruct (lookup_lt_is_Some_2 vs i) as [v Hv].
    { apply lookup_lt_Some in Hi. lia. }
    exists v. split_and!; [done..|]. apply list_elem_of_lookup. exists i.
    rw lookup_zip_with Hi. simpl. by rw Hv.
  - intros v Hin%elem_of_zip_l. destruct (binary_search_absent ks key i Hs Hb) as (_ & Hlo & Hhi).
    rw -(take_drop i ks) in Hin. rw !Forall_forall in Hlo, Hhi.
    apply elem_of_app in Hin as [Hin|Hin]; [specialize (Hlo _ Hin)|specialize (Hhi _ Hin)]; border.
Qed.

(** [o] is what the pairs [l] hold for [key]. *)
Definition pair_get (key : list Z) (l : list (list Z * list Z)) (o : option (list Z)) : Prop :=
  ∀ v, (key, v) ∈ l ↔ o = Some v.

Lemma holds_sorted t l : holds t l → StronglySorted blt (keys_of l).
Proof. intros (chains & lm & top & Ht & ->). apply (ta_index _ _ _ _ Ht). Qed.

Lemma sorted_functional l k v v' :
  StronglySorted blt (keys_of l) → (k, v) ∈ l → (k, v') ∈ l → v = v'.
Proof.
  intros Hs Hv Hv'. apply SSorted_NoDup in Hs.
  apply list_elem_of_lookup in Hv as [i Hi]. apply list_elem_of_lookup in Hv' as [j Hj].
  assert (i = j) as ->; [|by simplify_eq].
  apply (NoDup_lookup (keys_of l) i j k Hs); unfold keys_of; rw list_lookup_fmap; [by rw Hi|by rw Hj].
Qed.

Lemma search_holds t l key : holds t l → ∃ o, search t key = Some o ∧ pair_get key l o.
Proof.
  intros Hh. pose proof (holds_sorted t l Hh) as Hsl.
  destruct Hh as (chains & lm & top & Ht & ->).
  destruct (tree_find t chains lm top Ht key) as (leaf & A & B & ks & vs & hk & Hf & HC & Htg & Hn & Hl & Hs).
  pose proof (ix_leaf _ _ _ _ (ta_index _ _ _ _ Ht)) as Hli.
  pose proof (λ v, target_pair _ _ Hli A leaf B key v HC Htg) as Hp.
  assert (lpairs (heap t) leaf = zip ks vs) as Hlp by (unfold lpairs; by rw Hn). rw Hlp in Hp.
  pose proof (binary_search_lookup ks vs key Hl Hs) as Hb.
  unfold search. rw Hf. simpl. rw Hn. simpl. destruct (binary_search ks key) as [i|i].
  - destruct Hb as (v & _ & -> & Hin). exists (Some v). split; [done|]. intros v'. split.
    + intros Hv'. f_equal. apply Hp in Hin. by apply (sorted_functional _ key v v' Hsl).
    + intros [= <-]. by apply Hp.
  - exists None. split; [done|]. intros v'. split; [|done]. intros Hv%Hp. by destruct (Hb v').
Qed.

Lemma pair_upd_remove key v l (i : nat) :
  NoDup (keys_of l) → l !! i = Some (key, v) → pair_upd key None l (vec_remove i l).
Proof.
  intros Hnd Hi k w. apply list_elem_of_split_length in Hi as (l1 & l2 & -> & ->).
  assert (vec_remove (length l1) (l1 ++ (key, v) :: l2) = l1 ++ l2) as ->.
  { unfold vec_remove. rw take_app_length. f_equal.
    rw drop_app_ge; [lia|]. by replace (S (length l1) - length l1)%nat with 1%nat by lia. }
  unfold keys_of in Hnd. rw fmap_app fmap_cons in Hnd. apply NoDup_app in Hnd as (_ & H1 & H2).
  apply NoDup_cons in H2 as [H2 _]. rw !elem_of_app elem_of_cons.
  assert (∀ L : list (list Z * list Z), k = key → (k, w) ∈ L → key ∈ L.*1) as Hx.
  { intros L -> ?. apply list_elem_of_fmap. by exists (key, w). }
  split.
  - intros Hin. right. split; [|naive_solver]. intros Hk. destruct Hin as [Hin|Hin].
    + apply (H1 key); [by apply Hx|by left].
    + apply H2. by apply (Hx l2).
  - intros [[_ ?]|[Hne [?|[[= -> _]|?]]]]; auto; done.
Qed.

Lemma StronglySorted_sublist (l1 l2 : list (list Z)) :
  l1 `sublist_of` l2 → StronglySorted blt l2 → StronglySorted blt l1.
Proof.
  intros Hsub. induction Hsub as [|x l1 l2 Hsub IH|x l1 l2 Hsub IH]; intros Hs; [done|..];
    inversion Hs as [|? ? Hs' Hf]; subst.
  - constructor; [by apply IH|]. rw Forall_forall in Hf. apply Forall_forall.
    intros y Hy. apply Hf. by apply (elem_of_submseteq l1), sublist_submseteq.
  - by apply IH.
Qed.

Lemma delete_holds t l key :
  holds t l →
  ∃ t' b l', delete t key = Some (t', b) ∧ holds t' l' ∧ order t' = order t ∧
    pair_upd key None l l' ∧ (b = true ↔ key ∈ keys_of l).
Proof.
  intros (chains & lm & top & Ht & ->).
  destruct (tree_find t chains lm top Ht key) as (leaf & A & B & ks & vs & hk & Hf & HC & Htg & Hn & Hl & Hs).
  pose proof (ix_leaf _ _ _ _ (ta_index _ _ _ _ Ht)) as Hli.
  pose proof (λ v, target_pair _ _ Hli A leaf B key v HC Htg) as Hp.
  assert (lpairs (heap t) leaf = zip ks vs) as Hlp by (unfold lpairs; by rw Hn). rw Hlp in Hp.
  pose proof (binary_search_lookup ks vs key Hl Hs) as Hb.
  assert (key ∈ keys_of (content (heap t) (chains 0%nat)) ↔ ∃ v, (key, v) ∈ zip ks vs) as Hkey.
  { unfold keys_of. rw list_elem_of_fmap. split.
    - intros ([k v] & -> & Hin). exists v. by apply Hp.
    - intros [v Hin%Hp]. by exists (key, v). }
  unfold delete. rw Hf. simpl. rw Hn. simpl. destruct (binary_search ks key) as [i|i].
  - destruct Hb as (v & Hi & Hv & Hin).
    assert (i < length ks)%nat as Hik by (by apply lookup_lt_Some in Hi).
    rw HC in Hli.
    assert (pair_upd key None (zip ks vs) (zip (vec_remove i ks) (vec_remove i vs))) as Hput.
    { rw zip_vec_remove; [done|]. apply (pair_upd_remove key v).
      - rw keys_of_zip; [done|]. by apply SSorted_NoDup.
      - rw lookup_zip_with Hi. simpl. by rw Hv. }
    destruct (tree_leaf_same t chains lm top Ht key None leaf A B HC
                (<[leaf := Leaf (vec_remove i ks) (vec_remove i vs) hk (head B)]> (heap t))
                (length (vec_remove i ks)) (-1)) as (chains' & lm' & Ht' & Hp').
    + apply (leaf_insert_same _ A leaf B ks vs); [done..| | |done].
      * rw !length_vec_remove; lia.
      * apply (StronglySorted_sublist _ ks); [apply vec_remove_sublist|done].
    + rw Hlp length_zip_with length_vec_remove; lia.
    + apply size_insert_ge.
    + eexists _, true, _. split_and!; [done|by exists chains', lm', top|done|done|].
      split; [|done]. intros _. apply Hkey. by exists v.
  - exists t, false, (content (heap t) (chains 0%nat)). split_and!; [done|by exists chains, lm, top|done| |].
    + intros k v. split; [|naive_solver]. intros Hin. right. split; [|done]. intros ->.
      by apply (Hb v), Hp.
    + split; [done|]. intros [v Hv]%Hkey. by destruct (Hb v).
Qed.

(** ** Scans *)

(** What the scan loop computes on the leaves it is given. *)
Definition leaf_data (h : gmap nat BTreeNode) (p : nat) : list (list Z) * list (list Z) :=
  match h !! p with Some (Leaf ks vs _ _) => (ks, vs) | _ => ([], []) end.

Fixpoint fold_leaves {R} (visit : R → list (list Z) → list (list Z) → R * bool) (acc : R)
    (L : list (list (list Z) * list (list Z))) : R :=
  match L with
  | [] => acc
  | (ks, vs) :: L' =>
      let '(acc', continue) := visit acc ks vs in
      if continue then fold_leaves visit acc' L' else acc'
  end.

Lemma scan_loop_fold {R} h chains lm nxt visit (acc : R) fuel A B :
  index_inv h chains lm nxt → chains 0%nat = A ++ B → (length B ≤ fuel)%nat →
  scan_loop fuel h visit (head B) acc = Some (fold_leaves visit acc (leaf_data h <$> B)).
Proof.
  intros Hix. revert A acc fuel. induction B as [|p B IH]; intros A acc fuel HC Hf; [by destruct fuel|].
  destruct fuel as [|fuel]; simpl in Hf; [lia|].
  destruct (li_node _ _ (ix_leaf _ _ _ _ Hix) A p B HC) as (ks & vs & hk & Hp & _).
  simpl. rw Hp. unfold leaf_data at 1. rw Hp. simpl. destruct (visit acc ks vs) as [acc' []]; [|done].
  apply (IH (A ++ [p])); [by rw HC -app_assoc|lia].
Qed.

Definition pairs_of (d : list (list Z) * list (list Z)) : list (list Z * list Z) := zip d.1 d.2.

Lemma content_data h C : content h C = (leaf_data h <$> C) ≫= pairs_of.
Proof.
  unfold content. induction C as [|p C IH]; [done|]. cbn. rw IH. f_equal.
  unfold lpairs, pairs_of, leaf_data. by destruct (h !! p) as [[]|].
Qed.

(** A scan from the leftmost leaf folds over all leaves. *)
Lemma scan_from_left {R} t chains lm top visit (acc : R) :
  tree_at t chains lm top →
  (leaf ← find_leftmost_leaf t; scan_loop (size (heap t)) (heap t) visit (Some leaf) acc) =
    Some (fold_leaves visit acc (leaf_data (heap t) <$> chains 0%nat)).
Proof.
  intros Ht. pose proof (ta_index _ _ _ _ Ht) as Hix. unfold find_leftmost_leaf.
  rw (leftmost_spec _ _ _ _ Hix top); [apply Ht..|]. cbn [mbind option_bind].
  rw -(ta_first _ _ _ _ Ht). apply (scan_loop_fold _ chains lm (next t) visit acc _ []); [done|done|].
  apply (ix_chain_length _ _ _ _ Hix).
Qed.

Lemma fold_leaves_visit {S} (f : S → list Z → list Z → S * bool) s L :
  fold_leaves (λ s ks vs, visit_pairs f s (zip ks vs)) s L = (visit_pairs f s (L ≫= pairs_of)).1.
Proof.
  revert s. induction L as [|[ks vs] L IH]; intros s; [done|]. simpl.
  change (pairs_of (ks, vs)) with (zip ks vs).
  assert (∀ l1 l2 s, visit_pairs f s (l1 ++ l2) =
            let '(s', go) := visit_pairs f s l1 in if go then visit_pairs f s' l2 else (s', false)) as Happ.
  { clear. induction l1 as [|[k v] l1 IH]; intros l2 s; simpl; [done|].
    destruct (f s k v) as [s' []]; [apply IH|done]. }
  rw Happ. destruct (visit_pairs f s (zip ks vs)) as [s' []]; [apply IH|done].
Qed.

Lemma fold_leaves_all acc L :
  fold_leaves (λ acc ks vs, (acc ++ zip ks vs, true)) acc L = acc ++ (L ≫= pairs_of).
Proof.
  revert acc. induction L as [|[ks vs] L IH]; intros acc; simpl; [by rw app_nil_r|].
  by rw IH -app_assoc.
Qed.

Lemma fold_leaves_count acc L :
  Forall (λ d, length d.1 = length d.2) L →
  fold_leaves (λ acc ks _, ((acc + length ks)%nat, true)) acc L = (acc + length (L ≫= pairs_of))%nat.
Proof.
  intros HF. revert acc. induction HF as [|[ks vs] L Hl HF IH]; intros acc; simpl; [lia|].
  change (list_bind _ _ pairs_of L) with (L ≫= pairs_of).
  rw IH length_app length_zip_with. simpl in Hl |- *. lia.
Qed.

Lemma scan_all_holds t l : holds t l → scan_all t = Some l.
Proof.
  intros (chains & lm & top & Ht & ->). unfold scan_all.
  by rw (scan_from_left _ _ _ _ _ _ Ht) fold_leaves_all content_data.
Qed.

Lemma for_each_holds {S} t l (f : S → list Z → list Z → S * bool) s :
  holds t l → for_each t f s = Some (visit_pairs f s l).1.
Proof.
  intros (chains & lm & top & Ht & ->). unfold for_each.
  by rw (scan_from_left _ _ _ _ _ _ Ht) fold_leaves_visit content_data.
Qed.

Lemma count_holds t l : holds t l → count t = Some (length l) ∧ approx_len t = Z.of_nat (length l).
Proof.
  intros (chains & lm & top & Ht & ->). split; [|apply Ht]. unfold count.
  rw (scan_from_left _ _ _ _ _ _ Ht) fold_leaves_count ?content_data; [|done].
  apply Forall_forall. intros d (p & -> & (A & B & HC)%list_elem_of_split)%list_elem_of_fmap.
  destruct (li_node _ _ (ix_leaf _ _ _ _ (ta_index _ _ _ _ Ht)) A p B HC) as (ks & vs & hk & Hp & Hl & _).
  unfold leaf_data. by rw Hp.
Qed.

(** *** Scans that start at a key and stop early *)

Lemma scan_start_split ks start :
  StronglySorted blt ks →
  Forall (λ k, blt k start) (take (scan_start ks start) ks) ∧
  Forall (ble start) (drop (scan_start ks start) ks).
Proof.
  unfold scan_start. induction 1 as [|k ks Hs IH Hk]; simpl; [done|].
  destruct (bcmp k start) eqn:Hc; simpl.
  - apply bcmp_eq in Hc as ->. split; [done|]. constructor; [apply ble_refl|].
    apply (Forall_impl _ _ _ Hk). intros; border.
  - destruct IH as [IH1 IH2]. destruct (binary_search ks start); simpl; (split; [by constructor|done]).
  - assert (blt start k) by (unfold blt; by rw bcmp_antisym Hc). split; [done|].
    constructor; [by apply blt_ble|]. apply (Forall_impl _ _ _ Hk). intros; border.
Qed.

Section ranged.
Context (start : list Z) (P : list Z * list Z → Prop) `{∀ kv, Decision (P kv)}.
Context (tk : list (list Z * list Z) → list (list Z * list Z) * bool).
Context (Hlow : ∀ k v, P (k, v) → ble start k).
Context (Htk : ∀ l rest, StronglySorted blt (keys_of (l ++ rest)) → Forall (ble start) (keys_of l) →
           (tk l).1 = filter P l ∧ ((tk l).2 = false → filter P rest = [])).

Definition ranged_visit (acc : bool * list (list Z * list Z)) (ks vs : list (list Z))
    : bool * list (list Z * list Z) * bool :=
  let i := if acc.1 then scan_start ks start else 0%nat in
  let '(r, b) := tk (drop i (zip ks vs)) in (false, acc.2 ++ r, b).

Lemma ranged_tail acc L :
  StronglySorted blt (keys_of (L ≫= pairs_of)) → Forall (ble start) (keys_of (L ≫= pairs_of)) →
  (fold_leaves ranged_visit (false, acc) L).2 = acc ++ filter P (L ≫= pairs_of).
Proof using Htk.
  revert acc. induction L as [|[ks vs] L IH]; intros acc Hs Hf; simpl; [by rw app_nil_r|].
  unfold ranged_visit at 1. cbn [mbind list_bind] in Hs, Hf. rw keys_of_app Forall_app in Hf.
  destruct Hf as [Hf1 Hf2]. destruct (Htk _ _ Hs Hf1) as [H1 H2].
  change (pairs_of (ks, vs)) with (zip ks vs) in H1, H2. cbn [fst snd]. rw drop_0.
  rw keys_of_app in Hs. apply StronglySorted_app in Hs as (_ & _ & Hs2).
  change (pairs_of (ks, vs)) with (zip ks vs).
  change (list_bind _ _ pairs_of L) with (L ≫= pairs_of).
  destruct (tk (zip ks vs)) as [r b]. simpl in H1, H2. subst r. rw filter_app.
  destruct b; simpl; [by rw IH -?app_assoc|]. by rw (H2 eq_refl) app_nil_r.
Qed.

Lemma filter_below (l : list (list Z * list Z)) :
  (∀ k, k ∈ keys_of l → blt k start) → filter P l = [].
Proof using Hlow.
  intros Hb. apply filter_none,  Forall_forall. intros [k v] Hin HP.
  assert (blt k start) as Hlt by (apply Hb, list_elem_of_fmap; by exists (k, v)).
  apply Hlow in HP. border.
Qed.

Lemma ranged_scan t l :
  holds t l →
  (leaf ← find_leaf_read t start;
   snd <$> scan_loop (size (heap t)) (heap t) ranged_visit (Some leaf) (true, [])) = Some (filter P l).
Proof using Hlow Htk.
  intros (chains & lm & top & Ht & ->). pose proof (ta_index _ _ _ _ Ht) as Hix.
  pose proof (ix_leaf _ _ _ _ Hix) as Hli.
  destruct (tree_find t chains lm top Ht start) as (leaf & A & B & ks & vs & hk & Hf & HC & Htg & Hn & Hl & Hs).
  rw Hf. cbn [mbind option_bind].
  change (Some leaf) with (head (leaf :: B)).
  rw (scan_loop_fold _ chains lm (next t) _ _ _ A (leaf :: B)); [done|done| |].
  { pose proof (ix_chain_length _ _ _ _ Hix 0%nat) as Hlen. rw HC length_app in Hlen. lia. }
  cbn [fmap option_fmap option_map]. f_equal.
  pose proof (li_sorted _ _ Hli) as Hsl. rw HC (content_app _ A) keys_of_app in Hsl.
  apply StronglySorted_app in Hsl as (_ & _ & Hsl). rw content_cons in Hsl.
  rw HC content_app content_cons !filter_app (filter_below (content (heap t) A)).
  { intros k. apply (keys_below _ _ Hli A (leaf :: B)); [done|done|apply Htg]. }
  assert (lpairs (heap t) leaf = zip ks vs) as Hlp by (unfold lpairs; by rw Hn). rw Hlp in Hsl |- *.
  destruct (scan_start_split ks start Hs) as [Hlo Hhi].
  set (i := scan_start ks start) in *. cbn [list_fmap fmap fold_leaves]. unfold leaf_data at 1. rw Hn.
  unfold ranged_visit at 1. cbn [fst snd]. fold i. rw -(take_drop i (zip ks vs)) -app_assoc in Hsl.
  rw keys_of_app in Hsl. apply StronglySorted_app in Hsl as (_ & _ & Hsl).
  assert (keys_of (drop i (zip ks vs)) = drop i ks) as Hdr.
  { unfold keys_of. rw fmap_drop. f_equal. by apply keys_of_zip. }
  destruct (Htk _ _ Hsl) as [H1 H2]; [by rw Hdr|].
  assert (filter P (zip ks vs) = filter P (drop i (zip ks vs))) as ->.
  { rw -{1}(take_drop i (zip ks vs)) filter_app filter_below; [|done]. intros k.
    unfold keys_of. rw fmap_take. fold (keys_of (zip ks vs)). rw keys_of_zip; [done|].
    rw Forall_forall in Hlo. apply Hlo. }
  destruct (tk (drop i (zip ks vs))) as [r b]. simpl in H1, H2. subst r. simpl.
  destruct b; simpl; [|by rw (H2 eq_refl) app_nil_r].
  rw keys_of_app in Hsl. apply StronglySorted_app in Hsl as (_ & _ & Hsl).
  rw content_data in Hsl |- *. apply ranged_tail; [done|]. rw -content_data.
  apply Forall_forall. intros k Hk. apply blt_ble. by apply (keys_above _ _ Hli A leaf B start k).
Qed.
End ranged.

(** Keys between two bounds, and keys with a prefix. *)
Definition in_range (start stop : list Z) (kv : list Z * list Z) : Prop :=
  ble start kv.1 ∧ ble kv.1 stop.
Definition has_prefix (prefix : list Z) (kv : list Z * list Z) : Prop :=
  starts_with kv.1 prefix = true.

#[export] Instance in_range_dec start stop kv : Decision (in_range start stop kv).
Proof. unfold in_range. apply _. Defined.
#[export] Instance has_prefix_dec prefix kv : Decision (has_prefix prefix kv).
Proof. unfold has_prefix. apply _. Defined.

Lemma take_to_range start stop l rest :
  StronglySorted blt (keys_of (l ++ rest)) → Forall (ble start) (keys_of l) →
  (take_to stop l).1 = filter (in_range start stop) l ∧
  ((take_to stop l).2 = false → filter (in_range start stop) rest = []).
Proof.
  induction l as [|[k v] l IH]; simpl; [done|]. intros Hs Hf.
  apply StronglySorted_cons in Hs as [Hk Hs]. apply Forall_cons in Hf as [Hf1 Hf2]. simpl in Hf1.
  destruct (bltb_spec stop k) as [Hlt|Hge].
  - rw Forall_forall in Hk.
    assert (∀ x, x ∈ l ++ rest → ¬ in_range start stop x) as Hout.
    { intros [k' v'] Hin [_ Hle]. simpl in Hle.
      assert (blt k k') by (apply Hk, list_elem_of_fmap; by exists (k', v')). border. }
    split; [symmetry|intros _]; apply filter_none; [constructor|]; try (apply Forall_forall; set_solver).
    intros [_ Hle]. simpl in Hle. border.
  - apply not_blt in Hge. destruct (IH Hs Hf2) as [IH1 IH2].
    rw filter_cons_True; [done|]. destruct (take_to stop l) as [r b]. simpl in *. by rw -IH1.
Qed.

Lemma take_prefix_range prefix l rest :
  StronglySorted blt (keys_of (l ++ rest)) → Forall (ble prefix) (keys_of l) →
  (take_prefix prefix l).1 = filter (has_prefix prefix) l ∧
  ((take_prefix prefix l).2 = false → filter (has_prefix prefix) rest = []).
Proof.
  induction l as [|[k v] l IH]; simpl; [done|]. intros Hs Hf.
  apply StronglySorted_cons in Hs as [Hk Hs]. apply Forall_cons in Hf as [Hf1 Hf2]. simpl in Hf1.
  destruct (IH Hs Hf2) as [IH1 IH2].
  destruct (starts_with k prefix) eqn:Hsw; simpl.
  - rw filter_cons_True; [done|]. destruct (take_prefix prefix l) as [r b]. simpl in *. by rw -IH1.
  - rw filter_cons_False; [unfold has_prefix; simpl; congruence|].
    destruct (bltb_spec prefix k) as [Hlt|Hge]; [|done]. rw Forall_forall in Hk.
    assert (∀ x, x ∈ l ++ rest → ¬ has_prefix prefix x) as Hout.
    { intros [k' v'] Hin Hpx. unfold has_prefix in Hpx. simpl in Hpx.
      assert (blt k k') by (apply Hk, list_elem_of_fmap; by exists (k', v')).
      enough (starts_with k' prefix = false) by congruence.
      apply (starts_with_convex k k'); [done|done|]. by apply blt_ble. }
    split; [symmetry|intros _]; apply filter_none; apply Forall_forall; set_solver.
Qed.

Lemma range_scan_holds t l start stop :
  holds t l → range_scan t start stop = Some (filter (in_range start stop) l).
Proof.
  intros Hh. unfold range_scan.
  apply (ranged_scan start (in_range start stop) (take_to stop)); [|apply take_to_range|done].
  intros k v [? _]. done.
Qed.

Lemma prefix_scan_holds t l prefix :
  holds t l → prefix_scan t prefix = Some (filter (has_prefix prefix) l).
Proof.
  intros Hh. unfold prefix_scan. destruct prefix as [|b prefix'] eqn:Hp.
  { rw (scan_all_holds t l Hh). f_equal. symmetry. apply filter_every, Forall_forall. done. }
  apply (ranged_scan (b :: prefix') _ (take_prefix (b :: prefix'))); [|apply take_prefix_range|done].
  intros k v Hpx. by apply starts_with_ble.
Qed.

(** ** The map the tree implements *)

(** The pairs of a map in key order. *)
Definition key_le (a b : list Z * list Z) : Prop := ble a.1 b.1.

#[export] Instance key_le_dec a b : Decision (key_le a b).
Proof. unfold key_le. apply _. Defined.

Definition sorted_pairs (m : gmap (list Z) (list Z)) : list (list Z * list Z) :=
  merge_sort key_le (map_to_list m).

#[local] Instance key_le_trans : Transitive key_le.
Proof. intros a b c. unfold key_le. apply ble_trans. Qed.
#[local] Instance key_le_total : Total key_le.
Proof.
  intros a b. unfold key_le. destruct (blt_total a.1 b.1) as [?|[->|?]].
  - left. by apply blt_ble.
  - left. apply ble_refl.
  - right. by apply blt_ble.
Qed.

(** [l] lists the map [m] in key order. *)
Definition lists_map (m : gmap (list Z) (list Z)) (l : list (list Z * list Z)) : Prop :=
  StronglySorted blt (keys_of l) ∧ ∀ k v, (k, v) ∈ l ↔ m !! k = Some v.

Lemma lists_map_sorted m l : lists_map m l → l = sorted_pairs m.
Proof.
  intros [Hs Hm]. unfold sorted_pairs. apply (StronglySorted_unique_strong key_le).
  - intros [k1 v1] [k2 v2] H1 H2 Hle1 Hle2. unfold key_le in *. simpl in *.
    assert (k1 = k2) as -> by border. f_equal.
    rw Hm in H1. rw merge_sort_Permutation elem_of_map_to_list in H2. congruence.
  - clear Hm. unfold keys_of in Hs. induction l as [|[k v] l IH]; [constructor|].
    rw fmap_cons in Hs. apply StronglySorted_cons in Hs as [Hk Hs]. constructor; [by apply IH|].
    rw Forall_fmap in Hk. apply (Forall_impl _ _ _ Hk). intros [k' v'] ?. by apply blt_ble.
  - apply StronglySorted_merge_sort; apply _.
  - rw merge_sort_Permutation. apply NoDup_Permutation.
    + apply (NoDup_fmap_1 fst). by apply SSorted_NoDup.
    + apply NoDup_map_to_list.
    + intros [k v]. by rw Hm elem_of_map_to_list.
Qed.

Lemma lists_map_length m l : lists_map m l → length l = size m.
Proof.
  intros Hl. rw (lists_map_sorted m l Hl). unfold sorted_pairs. rw merge_sort_Permutation. apply length_map_to_list.
Qed.

Lemma lists_map_upd m l l' key value :
  lists_map m l → StronglySorted blt (keys_of l') → pair_upd key value l l' →
  lists_map (partial_alter (λ _, value) key m) l'.
Proof.
  intros [_ Hm] Hs Hu. split; [done|]. intros k v. rw Hu Hm.
  destruct (decide (k = key)) as [->|Hne]; [rw lookup_partial_alter_eq|rw lookup_partial_alter_ne];
    naive_solver.
Qed.

(** The operations a client runs, and what they answer. *)
Inductive op : Type :=
  | OInsert (key value : list Z)
  | ODelete (key : list Z)
  | OSearch (key : list Z)
  | ORange (start stop : list Z)
  | OPrefix (prefix : list Z)
  | OScan
  | OCount.

Inductive answer : Type :=
  | ADone
  | AFound (b : bool)
  | AValue (o : option (list Z))
  | APairs (l : list (list Z * list Z))
  | ANum (n : nat) (approx : Z).

Definition tree_op (t : BPlusTree) (o : op) : option (BPlusTree * answer) :=
  match o with
  | OInsert k v => t' ← insert t k v; Some (t', ADone)
  | ODelete k => '(t', b) ← delete t k; Some (t', AFound b)
  | OSearch k => r ← search t k; Some (t, AValue r)
  | ORange s e => l ← range_scan t s e; Some (t, APairs l)
  | OPrefix p => l ← prefix_scan t p; Some (t, APairs l)
  | OScan => l ← scan_all t; Some (t, APairs l)
  | OCount => n ← count t; Some (t, ANum n (approx_len t))
  end.

Definition map_op (m : gmap (list Z) (list Z)) (o : op) : gmap (list Z) (list Z) * answer :=
  match o with
  | OInsert k v => (<[k := v]> m, ADone)
  | ODelete k => (base.delete k m, AFound (bool_decide (is_Some (m !! k))))
  | OSearch k => (m, AValue (m !! k))
  | ORange s e => (m, APairs (filter (in_range s e) (sorted_pairs m)))
  | OPrefix p => (m, APairs (filter (has_prefix p) (sorted_pairs m)))
  | OScan => (m, APairs (sorted_pairs m))
  | OCount => (m, ANum (size m) (Z.of_nat (size m)))
  end.

Fixpoint run_tree (t : BPlusTree) (ops : list op) : option (list answer) :=
  match ops with
  | [] => Some []
  | o :: ops' => '(t', a) ← tree_op t o; r ← run_tree t' ops'; Some (a :: r)
  end.

Fixpoint run_map (m : gmap (list Z) (list Z)) (ops : list op) : list answer :=
  match ops with
  | [] => []
  | o :: ops' => let '(m', a) := map_op m o in a :: run_map m' ops'
  end.

Definition refines (t : BPlusTree) (m : gmap (list Z) (list Z)) : Prop :=
  ∃ l, holds t l ∧ lists_map m l.

Lemma refines_get m l k o : lists_map m l → pair_get k l o → o = m !! k.
Proof.
  intros [_ Hm] Hg. apply option_eq. intros v. by rw -Hg Hm.
Qed.

Lemma tree_op_refines t m o :
  refines t m → ∃ t', tree_op t o = Some (t', (map_op m o).2) ∧ refines t' (map_op m o).1.
Proof.
  intros (l & Hh & Hl).
  destruct o as [k v|k|k|s e|p| |]; simpl.
  - destruct (insert_holds t l k v Hh) as (t' & l' & -> & Hh' & _ & Hu). exists t'. split; [done|].
    exists l'. split; [done|]. apply (lists_map_upd m l l' k (Some v)); [done| |done].
    by apply (holds_sorted t').
  - destruct (delete_holds t l k Hh) as (t' & b & l' & -> & Hh' & _ & Hu & Hb). exists t'. split.
    + cbn. do 3 f_equal. apply Bool.eq_true_iff_eq. rw Hb bool_decide_eq_true. destruct Hl as [_ Hl].
      unfold keys_of. rw list_elem_of_fmap. split.
      * intros ([k' v] & -> & Hin). exists v. by apply Hl.
      * intros [v Hv]. exists (k, v). by rw Hl.
    + exists l'. split; [done|]. apply (lists_map_upd m l l' k None); [done| |done].
      by apply (holds_sorted t').
  - destruct (search_holds t l k Hh) as (r & -> & Hr). exists t.
    rw (refines_get m l k r Hl Hr). split; [done|]. by exists l.
  - rw (range_scan_holds t l s e Hh) (lists_map_sorted m l Hl). exists t. split; [done|].
    exists l. done.
  - rw (prefix_scan_holds t l p Hh) (lists_map_sorted m l Hl). exists t. split; [done|].
    exists l. done.
  - rw (scan_all_holds t l Hh) (lists_map_sorted m l Hl). exists t. split; [done|].
    exists l. done.
  - destruct (count_holds t l Hh) as [-> ->]. rw (lists_map_length m l Hl). exists t. split; [done|].
    by exists l.
Qed.

Lemma refines_new nm ord : (2 ≤ ord)%nat → refines (new nm ord) ∅.
Proof.
  intros. exists []. split; [by apply holds_new|]. split; [constructor|].
  intros k v. rw lookup_empty. set_solver.
Qed.

Lemma run_tree_refines t m ops : refines t m → run_tree t ops = Some (run_map m ops).
Proof.
  revert t m. induction ops as [|o ops IH]; intros t m Hr; simpl; [done|].
  destruct (tree_op_refines t m o Hr) as (t' & -> & Hr'). cbn.
  destruct (map_op m o) as [m' a]. simpl in *. by rw (IH t' m' Hr').
Qed.

(** C1: A B+Tree of order at least 2 is a finite map ordered by key: any
    sequence of inserts, deletes, lookups, range, prefix and full scans and
    counts, started on a new tree, runs to completion (every descent, move to
    the right, split propagation and scan ends within its fuel, no link
    dangles) and answers exactly what the map answers, the scans in key order
    and [len] equal to the number of keys. *)
Theorem btree_refines_map nm ord ops :
  (2 ≤ ord)%nat → run_tree (new nm ord) ops = Some (run_map ∅ ops).
Proof. intros. by apply run_tree_refines, refines_new. Qed.

Lemma btree_refines_map_witness :
  run_tree (new "idx" 3)
    [OInsert [2] [20]; OInsert [1] [10]; OInsert [3] [30]; OInsert [4] [40]; OInsert [2; 5] [50];
     ODelete [3]; OSearch [2]; ORange [2] [4]; OPrefix [2]; OCount] =
  Some (run_map ∅
    [OInsert [2] [20]; OInsert [1] [10]; OInsert [3] [30]; OInsert [4] [40]; OInsert [2; 5] [50];
     ODelete [3]; OSearch [2]; ORange [2] [4]; OPrefix [2]; OCount]).
Proof. apply (btree_refines_map "idx" 3). lia. Defined.

(** ** Batched traversals and the iterator *)

Definition collect_batch (s : list (list (list Z))) (b : list (list Z)) : list (list (list Z)) * bool :=
  (s ++ [b], true).

(** A batch is not empty and not larger than asked for. *)
Definition batch_ok (n : nat) (b : list (list Z)) : Prop := (0 < length b ≤ Nat.max 1 n)%nat.

Lemma batch_values_collect n s ob vs :
  (length ob < Nat.max 1 n)%nat →
  ∃ bs ob', batch_values n collect_batch s ob vs = (s ++ bs, ob', true) ∧
    mjoin bs ++ ob' = ob ++ vs ∧ Forall (batch_ok n) bs ∧ (length ob' < Nat.max 1 n)%nat.
Proof.
  revert s ob. induction vs as [|v vs IH]; intros s ob Hob; simpl.
  { exists [], ob. by rw !app_nil_r. }
  rw length_app. simpl. destruct (Nat.leb_spec n (length ob + 1)) as [Hle|Hgt].
  - destruct (IH (s ++ [ob ++ [v]]) []) as (bs & ob' & Hrun & Hj & Hf & Hl); [simpl; lia|].
    exists ((ob ++ [v]) :: bs), ob'. rw Hrun. split_and!; [by rw -app_assoc| | |done].
    + simpl. simpl in Hj. by rw -!app_assoc Hj.
    + constructor; [|done]. unfold batch_ok. rw length_app. simpl. lia.
  - destruct (IH s (ob ++ [v])) as (bs & ob' & Hrun & Hj & Hf & Hl); [rw length_app; simpl; lia|].
    exists bs, ob'. split_and!; [done|by rw Hj -app_assoc|done|done].
Qed.

Lemma fold_leaves_batch n s ob L :
  (length ob < Nat.max 1 n)%nat →
  ∃ bs ob', fold_leaves (batch_visit n collect_batch) (s, ob, true) L = (s ++ bs, ob', true) ∧
    mjoin bs ++ ob' = ob ++ mjoin L.*2 ∧ Forall (batch_ok n) bs ∧ (length ob' < Nat.max 1 n)%nat.
Proof.
  revert s ob. induction L as [|[ks vs] L IH]; intros s ob Hob.
  { exists [], ob. simpl. by rw !app_nil_r. }
  cbn [fold_leaves]. unfold batch_visit at 1. cbn [fst snd].
  destruct (batch_values_collect n s ob vs Hob) as (bs & ob' & -> & Hj & Hf & Hl). cbn [fst snd].
  destruct (IH (s ++ bs) ob' Hl) as (bs2 & ob2 & -> & Hj2 & Hf2 & Hl2).
  exists (bs ++ bs2), ob2. split_and!; [by rw app_assoc| |by apply Forall_app|done].
  rw join_app -app_assoc Hj2 !app_assoc Hj. done.
Qed.

Lemma pairs_values L :
  Forall (λ d, length d.1 = length d.2) L → (L ≫= pairs_of).*2 = mjoin L.*2.
Proof.
  induction 1 as [|[ks vs] L Hl _ IH]; [done|]. simpl in Hl. cbn [mbind list_bind].
  rw fmap_app fmap_cons. simpl. f_equal; [|done]. apply snd_zip. simpl. lia.
Qed.

Lemma tree_data_ok t chains lm top :
  tree_at t chains lm top →
  Forall (λ d, length d.1 = length d.2) (leaf_data (heap t) <$> chains 0%nat).
Proof.
  intros Ht. apply Forall_forall. intros d (p & -> & (A & B & HC)%list_elem_of_split)%list_elem_of_fmap.
  destruct (li_node _ _ (ix_leaf _ _ _ _ (ta_index _ _ _ _ Ht)) A p B HC) as (ks & vs & hk & Hp & Hl & _).
  unfold leaf_data. by rw Hp.
Qed.

Lemma for_each_batch_holds t l n :
  holds t l →
  ∃ bs, for_each_batch t n collect_batch [] = Some bs ∧ mjoin bs = l.*2 ∧ Forall (batch_ok n) bs.
Proof.
  intros (chains & lm & top & Ht & ->).
  destruct (fold_leaves_batch n [] [] (leaf_data (heap t) <$> chains 0%nat)) as (bs & ob & Hf & Hj & Hok & Hl);
    [simpl; lia|].
  pose proof (scan_from_left t chains lm top (batch_visit n collect_batch) ([], [], true) Ht) as Hsc.
  rw Hf in Hsc. unfold for_each_batch. destruct (find_leftmost_leaf t) as [leaf|]; [|done].
  cbn [mbind option_bind] in Hsc |- *. rw Hsc. cbn [mbind option_bind app].
  rw content_data pairs_values; [by apply (tree_data_ok t chains lm top)|].
  cbn [app] in Hj. rw -Hj. destruct ob as [|b ob].
  - exists bs. split_and!; [done|by rw app_nil_r|done].
  - exists (bs ++ [b :: ob]). split_and!; [done|by rw join_app; simpl; rw app_nil_r|].
    apply Forall_app. split; [done|]. constructor; [|done]. unfold batch_ok. simpl in *. lia.
Qed.

Lemma fold_leaves_lists acc L :
  mjoin (fold_leaves (λ acc ks vs, (if zip ks vs is [] then acc else acc ++ [zip ks vs], true)) acc L) =
  mjoin acc ++ (L ≫= pairs_of).
Proof.
  revert acc. induction L as [|[ks vs] L IH]; intros acc; cbn [fold_leaves]; [by rw app_nil_r|].
  rw IH. cbn [mbind list_bind]. change (pairs_of (ks, vs)) with (zip ks vs).
  destruct (zip ks vs) as [|x l]; [done|]. rw join_app. simpl. by rw app_nil_r -app_assoc.
Qed.

Lemma collect_leaves_holds t l : holds t l → ∃ ls, collect_leaves t = Some ls ∧ mjoin ls = l.
Proof.
  intros (chains & lm & top & Ht & ->). eexists. unfold collect_leaves.
  split; [apply (scan_from_left _ _ _ _ _ _ Ht)|]. by rw fold_leaves_lists content_data.
Qed.

Lemma fold_leaves_values acc (L : list (list (list Z) * list (list Z))) :
  mjoin (fold_leaves (λ acc (_ vs : list (list Z)), (if vs is [] then acc else acc ++ [vs], true)) acc L) =
  mjoin acc ++ mjoin L.*2.
Proof.
  revert acc. induction L as [|[ks vs] L IH]; intros acc; cbn [fold_leaves]; [by rw app_nil_r|].
  rw IH fmap_cons. cbn. destruct vs as [|x l]; [done|]. rw join_app. simpl. by rw app_nil_r -app_assoc.
Qed.

Lemma collect_leaf_values_holds t l :
  holds t l → ∃ ls, collect_leaf_values t = Some ls ∧ mjoin ls = l.*2.
Proof.
  intros (chains & lm & top & Ht & ->). eexists. unfold collect_leaf_values.
  split; [apply (scan_from_left _ _ _ _ _ _ Ht)|]. rw fold_leaves_values content_data pairs_values; [|done].
  by apply (tree_data_ok t chains lm top).
Qed.

(** The tree a sequence of operations leaves. *)
Fixpoint exec_tree (t : BPlusTree) (ops : list op) : option BPlusTree :=
  match ops with
  | [] => Some t
  | o :: ops' => '(t', _) ← tree_op t o; exec_tree t' ops'
  end.

Fixpoint exec_map (m : gmap (list Z) (list Z)) (ops : list op) : gmap (list Z) (list Z) :=
  match ops with [] => m | o :: ops' => exec_map (map_op m o).1 ops' end.

Lemma exec_tree_refines t m ops :
  refines t m → ∃ t', exec_tree t ops = Some t' ∧ refines t' (exec_map m ops).
Proof.
  revert t m. induction ops as [|o ops IH]; intros t m Hr; [by exists t|]. simpl.
  destruct (tree_op_refines t m o Hr) as (t' & -> & Hr'). cbn. by apply IH.
Qed.

(** The traversals agree with the map too: after any operations,
    [for_each] hands the callback the pairs in key order until it declines,
    [collect_leaves] and [collect_leaf_values] return all pairs and all values
    in key order, and [for_each_batch] delivers every value exactly once, in
    key order, in non-empty batches of at most the requested size. *)
Theorem btree_traversals {S} nm ord ops (f : S → list Z → list Z → S * bool) s n :
  (2 ≤ ord)%nat →
  ∃ t, exec_tree (new nm ord) ops = Some t ∧
    let l := sorted_pairs (exec_map ∅ ops) in
    for_each t f s = Some (visit_pairs f s l).1 ∧
    (∃ ls, collect_leaves t = Some ls ∧ mjoin ls = l) ∧
    (∃ vs, collect_leaf_values t = Some vs ∧ mjoin vs = l.*2) ∧
    (∃ bs, for_each_batch t n collect_batch [] = Some bs ∧ mjoin bs = l.*2 ∧ Forall (batch_ok n) bs).
Proof.
  intros Hord. destruct (exec_tree_refines (new nm ord) ∅ ops (refines_new nm ord Hord)) as (t & Ht & l & Hh & Hl).
  exists t. split; [done|]. rw -(lists_map_sorted _ l Hl). split_and!.
  - by apply for_each_holds.
  - by apply collect_leaves_holds.
  - by apply collect_leaf_values_holds.
  - by apply for_each_batch_holds.
Qed.

Lemma btree_traversals_witness :
  ∃ t, exec_tree (new "idx" 2) [OInsert [2] [20]; OInsert [1] [10]; OInsert [3] [30]] = Some t ∧
    let l := sorted_pairs (exec_map ∅ [OInsert [2] [20]; OInsert [1] [10]; OInsert [3] [30]]) in
    for_each t (λ n _ _, (S n, (n <? 1)%nat)) 0%nat = Some (visit_pairs (λ n _ _, (S n, (n <? 1)%nat)) 0%nat l).1 ∧
    (∃ ls, collect_leaves t = Some ls ∧ mjoin ls = l) ∧
    (∃ vs, collect_leaf_values t = Some vs ∧ mjoin vs = l.*2) ∧
    (∃ bs, for_each_batch t 2 collect_batch [] = Some bs ∧ mjoin bs = l.*2 ∧ Forall (batch_ok 2) bs).
Proof. apply (btree_traversals "idx" 2). lia. Defined.

(** Draining an iterator. *)
Fixpoint drain (fuel : nat) (it : BTreeIterator) : list (list Z * list Z) :=
  match fuel with
  | O => []
  | S fuel' => match iter_next it with (Some x, it') => x :: drain fuel' it' | (None, _) => [] end
  end.

Lemma drain_items fuel it :
  (length (items it) ≤ position it + fuel)%nat → drain fuel it = drop (position it) (items it).
Proof.
  revert it. induction fuel as [|fuel IH]; intros [l i] Hf; simpl in *.
  { by rw drop_ge; [lia|]. }
  unfold iter_next. simpl. destruct (l !! i) as [x|] eqn:Hi.
  - rw IH; [simpl; lia|]. simpl. symmetry. by apply drop_S.
  - apply lookup_ge_None in Hi. by rw drop_ge; [lia|].
Qed.

(** An iterator delivers, in key order and each exactly once, the pairs
    between its bounds when both are given; when one bound is missing the other
    one is ignored and all pairs are delivered. *)
Theorem iterator_delivers nm ord ops start stop :
  (2 ≤ ord)%nat →
  ∃ t it, exec_tree (new nm ord) ops = Some t ∧ iter_new t start stop = Some it ∧
    has_next it = bool_decide (drain (length (items it)) it ≠ []) ∧
    drain (length (items it)) it =
      let l := sorted_pairs (exec_map ∅ ops) in
      match start, stop with
      | Some s, Some e => filter (in_range s e) l
      | _, _ => l
      end.
Proof.
  intros Hord. destruct (exec_tree_refines (new nm ord) ∅ ops (refines_new nm ord Hord)) as (t & Ht & l & Hh & Hl).
  assert (∀ l', has_next (mkIter l' 0) = bool_decide (drain (length l') (mkIter l' 0) ≠ []) ∧
                drain (length l') (mkIter l' 0) = l') as Hd.
  { intros l'. rw (drain_items (length l') (mkIter l' 0)); [simpl; lia|]. unfold has_next. simpl. rw drop_0.
    by destruct l'. }
  rw -(lists_map_sorted _ l Hl). unfold iter_new.
  destruct start as [s|], stop as [e|];
    [exists t, (mkIter (filter (in_range s e) l) 0)|exists t, (mkIter l 0)..];
    [rw (range_scan_holds t l s e Hh)|rw (scan_all_holds t l Hh)..];
    (split_and!; [done|done|apply Hd|apply Hd]).
Qed.

Lemma iterator_delivers_witness :
  ∃ t it, exec_tree (new "idx" 2) [OInsert [2] [20]; OInsert [1] [10]] = Some t ∧
    iter_new t (Some [2]) None = Some it ∧
    has_next it = bool_decide (drain (length (items it)) it ≠ []) ∧
    drain (length (items it)) it = sorted_pairs (exec_map ∅ [OInsert [2] [20]; OInsert [1] [10]]).
Proof. apply (iterator_delivers "idx" 2 _ (Some [2]) None). lia. Defined.
