(* ===== verification/OrderedIndex.v ===== *)
(** What the B+Tree promises to the components built on it: a typeclass of the
    operations they call, a class of laws over a finite map, and the instance
    for [BPlusTree]. *)
From S2P Require Import Prelude ByteOrder BTree BTreeInv BTreeSpec.

(** The calls a client makes. [None] is a run that does not end or panics. *)
Class KvTree (T : Type) : Type := {
  kt_new : string → nat → T;
  kt_insert : T → list Z → list Z → option T;
  kt_delete : T → list Z → option (T * bool);
  kt_prefix_scan : T → list Z → option (list (list Z * list Z));
  kt_range_scan : T → list Z → list Z → option (list (list Z * list Z));
  kt_len : T → Z;
  kt_search : T → list Z → option (option (list Z));
  kt_scan_all : T → option (list (list Z * list Z));
  kt_for_each : ∀ {S : Type}, T → (S → list Z → list Z → S * bool) → S → option S;
  kt_leaf_values : T → option (list (list (list Z)))
}.

Class KvTreeLaws (T : Type) `{!KvTree T} : Type := {
  kt_rep : T → gmap (list Z) (list Z) → Prop;
  kt_new_rep nm ord : (2 ≤ ord)%nat → kt_rep (kt_new nm ord) ∅;
  kt_insert_rep t m k v :
    kt_rep t m → ∃ t', kt_insert t k v = Some t' ∧ kt_rep t' (<[k := v]> m);
  kt_delete_rep t m k :
    kt_rep t m →
    ∃ t', kt_delete t k = Some (t', bool_decide (is_Some (m !! k))) ∧ kt_rep t' (base.delete k m);
  kt_prefix_rep t m p :
    kt_rep t m → kt_prefix_scan t p = Some (filter (has_prefix p) (sorted_pairs m));
  kt_range_rep t m s e :
    kt_rep t m → kt_range_scan t s e = Some (filter (in_range s e) (sorted_pairs m));
  kt_len_rep t m : kt_rep t m → kt_len t = Z.of_nat (size m);
  kt_search_rep t m k : kt_rep t m → kt_search t k = Some (m !! k);
  kt_scan_all_rep t m : kt_rep t m → kt_scan_all t = Some (sorted_pairs m);
  kt_for_each_rep {S} t m (f : S → list Z → list Z → S * bool) s :
    kt_rep t m → kt_for_each t f s = Some (BTree.visit_pairs f s (sorted_pairs m)).1;
  kt_leaf_values_rep t m :
    kt_rep t m → ∃ ls, kt_leaf_values t = Some ls ∧ mjoin ls = (sorted_pairs m).*2
}.

#[export] Instance btree_kv : KvTree BTree.BPlusTree := {
  kt_new := BTree.new;
  kt_insert := BTree.insert;
  kt_delete := BTree.delete;
  kt_prefix_scan := BTree.prefix_scan;
  kt_range_scan := BTree.range_scan;
  kt_len := BTree.approx_len;
  kt_search := BTree.search;
  kt_scan_all := BTree.scan_all;
  kt_for_each S t f s := BTree.for_each t f s;
  kt_leaf_values := BTree.collect_leaf_values
}.

#[export] Instance btree_kv_laws : KvTreeLaws BTree.BPlusTree.
Proof.
  refine {| kt_rep := refines |}.
  - apply refines_new.
  - intros t m k v Hr. destruct (tree_op_refines t m (OInsert k v) Hr) as (t' & Ht & Hr').
    exists t'. split; [|done]. cbn [kt_insert btree_kv tree_op] in Ht |- *.
    destruct (BTree.insert t k v) as [t0|]; [|done]. cbn in Ht. by injection Ht as ->.
  - intros t m k Hr. destruct (tree_op_refines t m (ODelete k) Hr) as (t' & Ht & Hr').
    exists t'. split; [|done]. cbn [kt_delete btree_kv tree_op] in Ht |- *.
    destruct (BTree.delete t k) as [[t0 b]|]; [|done]. cbn in Ht. by injection Ht as -> ->.
  - intros t m p (l & Hh & Hl). cbn [kt_prefix_scan btree_kv]. by rw (prefix_scan_holds t l p Hh) (lists_map_sorted m l Hl).
  - intros t m s e (l & Hh & Hl). cbn [kt_range_scan btree_kv]. by rw (range_scan_holds t l s e Hh) (lists_map_sorted m l Hl).
  - intros t m (l & Hh & Hl). cbn [kt_len btree_kv]. destruct (count_holds t l Hh) as [_ ->]. by rw (lists_map_length m l Hl).
  - intros t m k (l & Hh & Hl). cbn [kt_search btree_kv]. destruct (search_holds t l k Hh) as (o & -> & Ho).
    by rw (refines_get m l k o Hl Ho).
  - intros t m (l & Hh & Hl). cbn [kt_scan_all btree_kv]. by rw (scan_all_holds t l Hh) (lists_map_sorted m l Hl).
  - intros S t m f s (l & Hh & Hl). cbn [kt_for_each btree_kv]. by rw (for_each_holds t l f s Hh) (lists_map_sorted m l Hl).
  - intros t m (l & Hh & Hl). cbn [kt_leaf_values btree_kv]. rw -(lists_map_sorted m l Hl). by apply collect_leaf_values_holds.
Qed.

Lemma elem_of_sorted_pairs m k v : (k, v) ∈ sorted_pairs m ↔ m !! k = Some v.
Proof. unfold sorted_pairs. by rw merge_sort_Permutation elem_of_map_to_list. Qed.
