(* ===== verification/Page.v ===== *)
(** The slotted page of [bytedb-core/src/storage/page.rs]: its byte layout,
    the slot directory, and the operations [alloc_slot], [get_slot],
    [delete_slot], [update_slot], [compact] and [iter_live], with the
    refinement of a page to the list of its slots' contents. *)
From S2P Require Import Prelude.

Module Page.

Definition PAGE_SIZE : Z := 8192.
Definition INVALID_PAGE_ID : Z := 0.
Definition PAGE_FORMAT_VERSION : Z := 2.
Definition PAGE_HEADER_SIZE : Z := 32.
Definition SLOT_ENTRY_SIZE : Z := 5.
Definition SLOT_FLAG_DEAD : Z := 1.

Inductive PageType : Type :=
  | Free | Data | BTreeInternal | BTreeLeaf | Overflow | FreeList | Meta.

(** [impl From<u8> for PageType]: an unknown tag reads as [Free]. *)
Definition PageType_from (v : Z) : PageType :=
  match v with
  | 0 => Free
  | 1 => Data
  | 2 => BTreeInternal
  | 3 => BTreeLeaf
  | 4 => Overflow
  | 5 => FreeList
  | 6 => Meta
  | _ => Free
  end.

(** [pt as u8]. *)
Definition PageType_as_u8 (pt : PageType) : Z :=
  match pt with
  | Free => 0
  | Data => 1
  | BTreeInternal => 2
  | BTreeLeaf => 3
  | Overflow => 4
  | FreeList => 5
  | Meta => 6
  end.

Record SlotEntry : Type := mkSlot { offset : Z; length : Z; flags : Z }.

Definition encode (e : SlotEntry) : list Z :=
  le_bytes 2 (offset e) ++ le_bytes 2 (length e) ++ [flags e].

Definition decode (buf : list Z) : SlotEntry :=
  mkSlot (le_val (slice buf 0 2)) (le_val (slice buf 2 2)) (default 0 (buf !! 4%nat)).

Definition is_dead (e : SlotEntry) : bool :=
  negb (Z.land (flags e) SLOT_FLAG_DEAD =? 0).

Record Page : Type := mkPage { id : Z; data : list Z }.

(** Header fields sit at fixed offsets of the array [[u8; PAGE_SIZE]], so the
    accesses cannot be out of range. *)
Definition get_field (p : Page) (off len : Z) : Z := le_val (slice (data p) off len).
Definition set_field (p : Page) (off : Z) (n : nat) (v : Z) : Page :=
  mkPage (id p) (write_at (data p) off (le_bytes n v)).

Definition page_type (p : Page) : PageType := PageType_from (get_field p 4 1).
Definition set_page_type (p : Page) (pt : PageType) : Page :=
  set_field p 4 1 (PageType_as_u8 pt).
Definition format_version (p : Page) : Z := get_field p 5 1.
Definition set_page_id (p : Page) (i : Z) : Page :=
  mkPage i (write_at (data p) 0 (le_bytes 4 i)).
Definition get_page_id (p : Page) : Z := get_field p 0 4.
Definition lsn (p : Page) : Z := get_field p 8 8.
Definition set_lsn (p : Page) (v : Z) : Page := set_field p 8 8 v.
Definition checksum (p : Page) : Z := get_field p 16 4.
Definition set_checksum (p : Page) (v : Z) : Page := set_field p 16 4 v.
Definition slot_count (p : Page) : Z := get_field p 20 2.
Definition set_slot_count (p : Page) (v : Z) : Page := set_field p 20 2 v.
Definition live_count (p : Page) : Z := get_field p 22 2.
Definition set_live_count (p : Page) (v : Z) : Page := set_field p 22 2 v.
Definition free_start (p : Page) : Z := get_field p 24 2.
Definition set_free_start (p : Page) (v : Z) : Page := set_field p 24 2 v.
Definition free_end (p : Page) : Z := get_field p 26 2.
Definition set_free_end (p : Page) (v : Z) : Page := set_field p 26 2 v.

(** [compute_checksum]; [crc32] stands for [crc32fast::hash]. *)
Definition compute_checksum (crc32 : list Z → Z) (p : Page) : Z :=
  crc32 (drop 20 (data p)).

Definition new (i : Z) : Page :=
  let p := mkPage i (replicate (Z.to_nat PAGE_SIZE) 0) in
  let p := set_page_id p i in
  let p := set_field p 5 1 PAGE_FORMAT_VERSION in
  let p := set_slot_count p 0 in
  let p := set_live_count p 0 in
  let p := set_free_start p PAGE_HEADER_SIZE in
  set_free_end p PAGE_SIZE.

Definition free_space (p : Page) : Z := sat_sub (free_end p) (free_start p).
Definition item_count (p : Page) : Z := live_count p.

Definition slot_entry_offset (slot_id : Z) : Z :=
  PAGE_HEADER_SIZE + slot_id * SLOT_ENTRY_SIZE.

(** [read_slot] and [write_slot] index the array: [None] is the panic. *)
Definition read_slot (p : Page) (slot_id : Z) : option SlotEntry :=
  decode <$> get_slice (data p) (slot_entry_offset slot_id) SLOT_ENTRY_SIZE.

Definition write_slot (p : Page) (slot_id : Z) (e : SlotEntry) : option Page :=
  mkPage (id p) <$> set_slice (data p) (slot_entry_offset slot_id) (encode e).

(** [get_slot]: the outer [option] is the panic, the inner one the result. *)
Definition get_slot (p : Page) (slot_id : Z) : option (option (list Z)) :=
  if slot_count p <=? slot_id then Some None
  else
    e ← read_slot p slot_id;
    if is_dead e then Some None
    else if PAGE_SIZE <? offset e + length e then Some None
    else Some <$> get_slice (data p) (offset e) (length e).

Definition alloc_slot (p : Page) (d : list Z) : option (Page * result Z) :=
  if u16_max <? zlen d
  then Some (p, Err (Internal "alloc_slot: tuple too large for page"))
  else
    let need := zlen d + SLOT_ENTRY_SIZE in
    if free_space p <? need
    then Some (p, Err (Internal "alloc_slot: not enough free space (caller should split)"))
    else
      let slot_id := slot_count p in
      let tuple_off := wrap 16 (free_end p - wrap 16 (zlen d)) in
      dat ← set_slice (data p) tuple_off d;
      let p1 := set_slot_count (mkPage (id p) dat) (wrap 16 (slot_id + 1)) in
      p2 ← write_slot p1 slot_id (mkSlot tuple_off (wrap 16 (zlen d)) 0);
      let p3 := set_free_start p2 (wrap 16 (free_start p2 + SLOT_ENTRY_SIZE)) in
      let p4 := set_free_end p3 tuple_off in
      let p5 := set_live_count p4 (wrap 16 (live_count p4 + 1)) in
      Some (p5, Ok slot_id).

Definition delete_slot (p : Page) (slot_id : Z) : option (Page * result unit) :=
  if slot_count p <=? slot_id
  then Some (p, Err (Internal
         ("delete_slot: slot " +:+ pretty slot_id +:+ " out of range (count="
            +:+ pretty (slot_count p) +:+ ")")))
  else
    e ← read_slot p slot_id;
    if is_dead e then Some (p, Ok tt)
    else
      p1 ← write_slot p slot_id (mkSlot (offset e) (length e) (Z.lor (flags e) SLOT_FLAG_DEAD));
      let live := live_count p1 in
      Some (if 0 <? live then set_live_count p1 (live - 1) else p1, Ok tt).

(** The first loop of [compact]: the live slots with their bytes. *)
Fixpoint collect_live (p : Page) (ids : list Z) : option (list (Z * list Z)) :=
  match ids with
  | [] => Some []
  | i :: ids' =>
      e ← read_slot p i;
      if is_dead e then collect_live p ids'
      else
        bs ← get_slice (data p) (offset e) (length e);
        rest ← collect_live p ids';
        Some ((i, bs) :: rest)
  end.

(** The second loop: lay the live tuples out from the end of the page; a
    cursor below zero is the panic of the [usize] subtraction. *)
Fixpoint place_live (p : Page) (cursor : Z) (live : list (Z * list Z)) : option (Page * Z) :=
  match live with
  | [] => Some (p, cursor)
  | (i, bs) :: live' =>
      let start := cursor - zlen bs in
      dat ← set_slice (data p) start bs;
      let p1 := mkPage (id p) dat in
      e ← read_slot p1 i;
      p2 ← write_slot p1 i (mkSlot (wrap 16 start) (wrap 16 (zlen bs)) (flags e));
      place_live p2 start live'
  end.

Definition compact (p : Page) : option Page :=
  let count := slot_count p in
  let dir_end := PAGE_HEADER_SIZE + count * SLOT_ENTRY_SIZE in
  let p1 := set_free_start p (wrap 16 dir_end) in
  if count =? 0 then Some (set_free_end p1 PAGE_SIZE)
  else
    live ← collect_live p1 (seqZ 0 count);
    dat ← (if dir_end <=? PAGE_SIZE
           then set_slice (data p1) dir_end (replicate (Z.to_nat (PAGE_SIZE - dir_end)) 0)
           else None);
    r ← place_live (mkPage (id p1) dat) PAGE_SIZE live;
    Some (set_free_end r.1 (wrap 16 r.2)).

(** The relocation at the end of [update_slot]. *)
Definition relocate_slot (p : Page) (slot_id : Z) (e : SlotEntry) (d : list Z) :
    option (Page * result unit) :=
  let new_off := wrap 16 (free_end p - wrap 16 (zlen d)) in
  dat ← set_slice (data p) new_off d;
  let p1 := set_free_end (mkPage (id p) dat) new_off in
  p2 ← write_slot p1 slot_id (mkSlot new_off (wrap 16 (zlen d)) (flags e));
  Some (p2, Ok tt).

Definition update_slot (p : Page) (slot_id : Z) (d : list Z) : option (Page * result unit) :=
  if slot_count p <=? slot_id
  then Some (p, Err (Internal ("update_slot: slot " +:+ pretty slot_id +:+ " out of range")))
  else
    e ← read_slot p slot_id;
    if is_dead e then Some (p, Err (Internal "update_slot: slot is dead"))
    else if zlen d <=? length e then
      dat ← set_slice (data p) (offset e) d;
      p1 ← write_slot (mkPage (id p) dat) slot_id
             (mkSlot (offset e) (wrap 16 (zlen d)) (flags e));
      Some (p1, Ok tt)
    else if free_space p <? zlen d + 0 then
      p1 ← compact p;
      if free_space p1 <? zlen d
      then Some (p1, Err (Internal "update_slot: not enough room even after compact"))
      else relocate_slot p1 slot_id e d
    else relocate_slot p slot_id e d.

(** [iter_live]: the slots [get_slot] finds, in order, with their ids. *)
Fixpoint iter_live_from (p : Page) (ids : list Z) : option (list (Z * list Z)) :=
  match ids with
  | [] => Some []
  | i :: ids' =>
      r ← get_slot p i;
      rest ← iter_live_from p ids';
      Some (match r with Some d => (i, d) :: rest | None => rest end)
  end.

Definition iter_live (p : Page) : option (list (Z * list Z)) :=
  iter_live_from p (seqZ 0 (slot_count p)).

Definition body (p : Page) : list Z := drop (Z.to_nat PAGE_HEADER_SIZE) (data p).


(** ** Reading through writes *)

Definition len_ok (p : Page) : Prop := zlen (data p) = PAGE_SIZE.

Definition entry_at (p : Page) (i : Z) : SlotEntry :=
  decode (slice (data p) (slot_entry_offset i) SLOT_ENTRY_SIZE).

Definition entries (p : Page) : list SlotEntry := entry_at p <$> seqZ 0 (slot_count p).

(** What a reader of slot entry [e] sees. *)
Definition content (p : Page) (e : SlotEntry) : option (list Z) :=
  if is_dead e then None else Some (slice (data p) (offset e) (length e)).

(** The abstract page: slot [k] holds a tuple, or is dead. *)
Definition contents (p : Page) : list (option (list Z)) := content p <$> entries p.

#[global] Arguments entry_at : simpl never.
#[global] Arguments decode : simpl never.
#[global] Arguments encode : simpl never.
#[global] Arguments get_field : simpl never.
#[global] Arguments set_field : simpl never.

(** Arithmetic with the layout constants unfolded. *)
Ltac plia :=
  unfold slot_entry_offset, PAGE_SIZE, PAGE_HEADER_SIZE, SLOT_ENTRY_SIZE, u16_max in *; lia.

Lemma zlen_le_bytes n v : zlen (le_bytes n v) = Z.of_nat n.
Proof. unfold zlen. by rw length_le_bytes. Qed.

Lemma zlen_encode e : zlen (encode e) = 5.
Proof. unfold encode. by rw !zlen_app !zlen_le_bytes. Qed.

Lemma decode_encode e :
  0 ≤ offset e < 65536 → 0 ≤ length e < 65536 → decode (encode e) = e.
Proof.
  destruct e as [o l f]; simpl. intros Ho Hl. unfold decode, encode; simpl offset; simpl length.
  unfold slice. cbn [flags].
  rw take_app_le; [by rw length_le_bytes|].
  rw firstn_all2; [by rw length_le_bytes|].
  rw (drop_app_length' (le_bytes 2 o)); [by rw length_le_bytes|].
  rw take_app_length'; [by rw length_le_bytes|].
  rw !le_bytes_val_small; [done..|]. done.
Qed.

Lemma decode_encode_flags e : flags (decode (encode e)) = flags e.
Proof. reflexivity. Qed.

Lemma len_ok_write p i off bs :
  len_ok p → 0 ≤ off → off + zlen bs ≤ PAGE_SIZE → len_ok (mkPage i (write_at (data p) off bs)).
Proof. unfold len_ok. intros <- ??. simpl. by apply zlen_write_at. Qed.

Lemma len_ok_set_field p off n v :
  len_ok p → 0 ≤ off → off + Z.of_nat n ≤ PAGE_SIZE → len_ok (set_field p off n v).
Proof. intros. apply len_ok_write; [done..|]. by rw zlen_le_bytes. Qed.

Lemma get_set_field_same p off n v len :
  len_ok p → 0 ≤ off → off + Z.of_nat n ≤ PAGE_SIZE → 0 ≤ v < 256 ^ Z.of_nat n →
  len = Z.of_nat n → get_field (set_field p off n v) off len = v.
Proof.
  intros Hl ??? ->. unfold get_field, set_field; simpl. rw -(zlen_le_bytes n v).
  rw slice_write_same; [done|rw zlen_le_bytes Hl; lia|]. by apply le_bytes_val_small.
Qed.

Lemma slice_set_field p off n v off' len' :
  len_ok p → 0 ≤ off → off + Z.of_nat n ≤ PAGE_SIZE → 0 ≤ off' →
  off' + len' ≤ off ∨ off + Z.of_nat n ≤ off' →
  slice (data (set_field p off n v)) off' len' = slice (data p) off' len'.
Proof.
  intros Hl ????. unfold set_field; simpl.
  apply slice_write_disjoint; rw ?zlen_le_bytes ?Hl; lia.
Qed.

Lemma get_set_field_other p off n v off' len' :
  len_ok p → 0 ≤ off → off + Z.of_nat n ≤ PAGE_SIZE → 0 ≤ off' →
  off' + len' ≤ off ∨ off + Z.of_nat n ≤ off' →
  get_field (set_field p off n v) off' len' = get_field p off' len'.
Proof. intros. unfold get_field. by rw slice_set_field. Qed.

(** A header write leaves the directory and the tuples alone. *)
Lemma entry_at_set_field p off n v i :
  len_ok p → 0 ≤ off → off + Z.of_nat n ≤ 32 → 0 ≤ i → entry_at (set_field p off n v) i = entry_at p i.
Proof.
  intros. unfold entry_at. rw slice_set_field; [done|plia..|done].
Qed.

(** A write behind the header leaves the header fields alone. *)
Lemma get_field_write p i off bs off' len' :
  len_ok p → 32 ≤ off → off + zlen bs ≤ PAGE_SIZE → 0 ≤ off' → off' + len' ≤ 32 →
  get_field (mkPage i (write_at (data p) off bs)) off' len' = get_field p off' len'.
Proof.
  intros Hl ????. unfold get_field; simpl. rw slice_write_disjoint; [lia| | |lia|done].
  - rw Hl. lia.
  - lia.
Qed.

Lemma entry_at_write p i off bs j :
  len_ok p → 0 ≤ j → slot_entry_offset (j + 1) ≤ off → off + zlen bs ≤ PAGE_SIZE →
  entry_at (mkPage i (write_at (data p) off bs)) j = entry_at p j.
Proof.
  unfold entry_at, slot_entry_offset, PAGE_HEADER_SIZE, SLOT_ENTRY_SIZE.
  intros Hl ???. simpl. rw slice_write_disjoint; [lia| | |lia|done].
  - rw Hl. lia.
  - lia.
Qed.

(** The two ways the operations write behind the header, without the bounds
    checks. *)
Definition put_slot (p : Page) (i : Z) (e : SlotEntry) : Page :=
  mkPage (id p) (write_at (data p) (slot_entry_offset i) (encode e)).
Definition put_data (p : Page) (off : Z) (d : list Z) : Page :=
  mkPage (id p) (write_at (data p) off d).

Lemma write_slot_put p i e :
  len_ok p → 0 ≤ i → slot_entry_offset (i + 1) ≤ PAGE_SIZE →
  write_slot p i e = Some (put_slot p i e).
Proof.
  intros Hl ??. unfold write_slot. rw set_slice_Some; [plia| |done].
  rw zlen_encode Hl. plia.
Qed.

Lemma set_slice_put p off d :
  len_ok p → 0 ≤ off → off + zlen d ≤ PAGE_SIZE →
  set_slice (data p) off d = Some (data (put_data p off d)).
Proof. intros Hl ??. rw set_slice_Some; [done|by rw Hl|done]. Qed.

Lemma read_slot_entry p i :
  len_ok p → 0 ≤ i → slot_entry_offset (i + 1) ≤ PAGE_SIZE →
  read_slot p i = Some (entry_at p i).
Proof.
  intros Hl ??. unfold read_slot, entry_at. rw get_slice_Some; [plia..|rw Hl; plia|done].
Qed.

Lemma len_ok_put_slot p i e :
  len_ok p → 0 ≤ i → slot_entry_offset (i + 1) ≤ PAGE_SIZE → len_ok (put_slot p i e).
Proof. intros. apply len_ok_write; [done|plia|rw zlen_encode; plia]. Qed.

Lemma len_ok_put_data p off d :
  len_ok p → 0 ≤ off → off + zlen d ≤ PAGE_SIZE → len_ok (put_data p off d).
Proof. intros. by apply len_ok_write. Qed.

Lemma field_put_slot p i e off len :
  len_ok p → 0 ≤ i → slot_entry_offset (i + 1) ≤ PAGE_SIZE → 0 ≤ off → off + len ≤ 32 →
  get_field (put_slot p i e) off len = get_field p off len.
Proof. intros. apply get_field_write; [done|plia|rw zlen_encode; plia|done..]. Qed.

Lemma field_put_data p o d off len :
  len_ok p → 32 ≤ o → o + zlen d ≤ PAGE_SIZE → 0 ≤ off → off + len ≤ 32 →
  get_field (put_data p o d) off len = get_field p off len.
Proof. intros. by apply get_field_write. Qed.

Lemma entry_put_slot p i e j :
  len_ok p → 0 ≤ i → 0 ≤ j → slot_entry_offset (i + 1) ≤ PAGE_SIZE →
  entry_at (put_slot p i e) j = if decide (j = i) then decode (encode e) else entry_at p j.
Proof.
  intros Hl ???. unfold entry_at, put_slot; simpl. case_decide as Hij.
  - subst. f_equal. transitivity (slice (write_at (data p) (slot_entry_offset i) (encode e))
                           (slot_entry_offset i) (zlen (encode e))).
    + by rw zlen_encode.
    + apply slice_write_same; [plia|]. rw zlen_encode Hl. plia.
  - rw slice_write_disjoint; [plia|rw zlen_encode Hl; plia|plia| |done].
    rw zlen_encode. plia.
Qed.

Lemma slice_put_slot p i e off len :
  len_ok p → 0 ≤ i → slot_entry_offset (i + 1) ≤ PAGE_SIZE → slot_entry_offset (i + 1) ≤ off →
  slice (data (put_slot p i e)) off len = slice (data p) off len.
Proof.
  intros Hl ???. unfold put_slot; simpl.
  apply slice_write_disjoint; [plia|rw zlen_encode Hl; plia|plia|]. rw zlen_encode. plia.
Qed.

Lemma slice_put_data p o d off len :
  len_ok p → 0 ≤ o → o + zlen d ≤ PAGE_SIZE → 0 ≤ off →
  off + len ≤ o ∨ o + zlen d ≤ off →
  slice (data (put_data p o d)) off len = slice (data p) off len.
Proof. intros Hl ????. unfold put_data; simpl. apply slice_write_disjoint; rw ?Hl; lia. Qed.

Lemma slice_put_data_same p o d len :
  len_ok p → 0 ≤ o → o + zlen d ≤ PAGE_SIZE → len = zlen d →
  slice (data (put_data p o d)) o len = d.
Proof. intros Hl ?? ->. unfold put_data; simpl. apply slice_write_same; rw ?Hl; lia. Qed.

Lemma entry_put_data p o d j :
  len_ok p → 0 ≤ j → slot_entry_offset (j + 1) ≤ o → o + zlen d ≤ PAGE_SIZE →
  entry_at (put_data p o d) j = entry_at p j.
Proof. intros. by apply entry_at_write. Qed.

Ltac lenok :=
  repeat first
    [ assumption
    | apply len_ok_set_field; [|plia|plia]
    | apply len_ok_put_slot; [|plia|plia]
    | apply len_ok_put_data; [|plia|plia] ].

(** Evaluate header reads through header, slot and tuple writes. *)
Ltac fields :=
  unfold slot_count, live_count, free_start, free_end, set_slot_count, set_live_count,
    set_free_start, set_free_end in *;
  repeat first
    [ rw get_set_field_same; [solve [lenok]|plia|plia|change (Z.of_nat 2) with 2; plia|done|]
    | rw get_set_field_other; [solve [lenok]|plia|plia|plia|plia|]
    | rw field_put_slot; [solve [lenok]|plia|plia|plia|plia|]
    | rw field_put_data; [solve [lenok]|plia|plia|plia|plia|] ].

(** Evaluate entries and tuple slices through header writes. *)
Ltac unhead :=
  repeat first
    [ rw entry_at_set_field; [solve [lenok]|plia|plia|plia|]
    | rw slice_set_field; [solve [lenok]|plia|plia|plia|plia|] ].

(** ** The page invariant *)

Definition live_size (e : SlotEntry) : Z := if is_dead e then 0 else length e.
Definition live_unit (e : SlotEntry) : Z := if is_dead e then 0 else 1.

Definition disjoint (e f : SlotEntry) : Prop :=
  offset e + length e ≤ offset f ∨ offset f + length f ≤ offset e.

(** The directory ends where free space starts, every live tuple lies between
    the end of free space and the end of the page, no two live tuples overlap,
    and the live counter is right. *)
Record wf (p : Page) : Prop := {
  wf_len : len_ok p;
  wf_count : 0 ≤ slot_count p;
  wf_start : free_start p = slot_entry_offset (slot_count p);
  wf_order : free_start p ≤ free_end p ≤ PAGE_SIZE;
  wf_entry : ∀ (k : nat) e, entries p !! k = Some e → is_dead e = false →
    free_end p ≤ offset e ∧ 0 ≤ length e ∧ offset e + length e ≤ PAGE_SIZE;
  wf_disj : ∀ (j k : nat) e f, j ≠ k → entries p !! j = Some e → entries p !! k = Some f →
    is_dead e = false → is_dead f = false → disjoint e f;
  wf_bytes : zsum live_size (entries p) ≤ PAGE_SIZE - free_end p;
  wf_live : live_count p = zsum live_unit (entries p)
}.

Lemma lookup_entries p (k : nat) :
  entries p !! k =
    if decide (Z.of_nat k < slot_count p) then Some (entry_at p (Z.of_nat k)) else None.
Proof. apply lookup_fmap_seqZ. Qed.

Lemma lookup_entries_Some p (k : nat) e :
  entries p !! k = Some e → Z.of_nat k < slot_count p ∧ e = entry_at p (Z.of_nat k).
Proof. rw lookup_entries. case_decide; intros; by simplify_eq. Qed.

Lemma lookup_contents p (k : nat) :
  contents p !! k =
    if decide (Z.of_nat k < slot_count p)
    then Some (content p (entry_at p (Z.of_nat k))) else None.
Proof. unfold contents. rw list_lookup_fmap lookup_entries. by case_decide. Qed.

Lemma length_contents p : 0 ≤ slot_count p → zlen (contents p) = slot_count p.
Proof. intros. unfold zlen, contents, entries. rw 2!length_fmap length_seqZ. lia. Qed.

Lemma live_unit_zero_one e : 0 ≤ live_unit e ≤ 1.
Proof. unfold live_unit. destruct (is_dead e); lia. Qed.

Lemma zsum_live_unit l : 0 ≤ zsum live_unit l ≤ zlen l.
Proof.
  induction l as [|e l IH]; unfold zlen in *; simpl; [lia|].
  pose proof (live_unit_zero_one e). lia.
Qed.

Lemma contents_ext p p' :
  slot_count p' = slot_count p →
  (∀ i, 0 ≤ i < slot_count p → content p' (entry_at p' i) = content p (entry_at p i)) →
  contents p' = contents p.
Proof.
  intros Hc He. apply list_eq. intros k. rw !lookup_contents Hc. case_decide; [|done].
  f_equal. apply He. lia.
Qed.

Section wf_facts.
Context (p : Page) (Hwf : wf p).

Lemma wf_dir_bound i : 0 ≤ i < slot_count p → slot_entry_offset (i + 1) ≤ PAGE_SIZE.
Proof using Hwf. intros. destruct Hwf. plia. Qed.

Lemma wf_read_slot i : 0 ≤ i < slot_count p → read_slot p i = Some (entry_at p i).
Proof using Hwf.
  intros Hi. apply read_slot_entry; [apply Hwf|lia|]. by apply wf_dir_bound.
Qed.

Lemma wf_entry_at i :
  0 ≤ i < slot_count p → is_dead (entry_at p i) = false →
  free_end p ≤ offset (entry_at p i) ∧ 0 ≤ length (entry_at p i) ∧
  offset (entry_at p i) + length (entry_at p i) ≤ PAGE_SIZE.
Proof using Hwf.
  intros Hi. apply (wf_entry p Hwf (Z.to_nat i)).
  rw lookup_entries Z2Nat.id; [lia|]. rw decide_True; [lia|done].
Qed.

Lemma wf_disj_at i j :
  0 ≤ i < slot_count p → 0 ≤ j < slot_count p → i ≠ j →
  is_dead (entry_at p i) = false → is_dead (entry_at p j) = false →
  disjoint (entry_at p i) (entry_at p j).
Proof using Hwf.
  intros. apply (wf_disj p Hwf (Z.to_nat i) (Z.to_nat j)); [lia| | |done..];
    rw lookup_entries Z2Nat.id ?decide_True; first [lia|done].
Qed.

Lemma wf_live_size_nonneg e : e ∈ entries p → 0 ≤ live_size e.
Proof using Hwf.
  intros [k Hk]%list_elem_of_lookup. unfold live_size. destruct (is_dead e) eqn:?; [lia|].
  by destruct (wf_entry p Hwf k e) as (_ & ? & _).
Qed.

Lemma wf_live_bound : 0 ≤ live_count p ≤ slot_count p.
Proof using Hwf.
  rw (wf_live p Hwf). pose proof (zsum_live_unit (entries p)) as Hz.
  unfold zlen in Hz. unfold entries in Hz at 3. rw length_fmap length_seqZ in Hz. destruct Hwf. lia.
Qed.

(** A live slot makes the live counter positive. *)
Lemma wf_live_pos i :
  0 ≤ i < slot_count p → is_dead (entry_at p i) = false → 1 ≤ live_count p.
Proof using Hwf.
  intros Hi Hd. rw (wf_live p Hwf).
  assert (entries p !! Z.to_nat i = Some (entry_at p i)) as Hk.
  { rw lookup_entries Z2Nat.id; [lia|]. rw decide_True; [lia|done]. }
  pose proof (zsum_lookup_le live_unit (entries p) (Z.to_nat i) _
                (λ y _, proj1 (live_unit_zero_one y)) Hk) as Hge.
  unfold live_unit at 1 in Hge. by rw Hd in Hge.
Qed.

Lemma wf_free_space : free_space p = free_end p - free_start p.
Proof using Hwf. unfold free_space, sat_sub. destruct Hwf. lia. Qed.

(** [get_slot] reads exactly the abstract contents, and never panics. *)
Lemma get_slot_contents i :
  0 ≤ i → get_slot p i = Some (default None (contents p !! Z.to_nat i)).
Proof using Hwf.
  intros Hi. unfold get_slot. rw lookup_contents Z2Nat.id; [done|].
  destruct (Z.leb_spec (slot_count p) i) as [Hge|Hlt].
  { by rw decide_False; [lia|]. }
  rw decide_True; [lia|]. rw wf_read_slot; [lia|]. cbn [mbind option_bind default]. unfold content.
  destruct (is_dead (entry_at p i)) eqn:Hd; [done|].
  destruct (wf_entry_at i) as (Ho & Hl & Hb); [lia|done|].
  rw (proj2 (Z.ltb_ge _ _)); [done|].
  pose proof (wf_len p Hwf) as Hlen. unfold len_ok in Hlen.
  destruct Hwf. rw get_slice_Some; [plia|done|lia|done].
Qed.
End wf_facts.

(** ** [Page::new] *)

Lemma len_ok_new_raw i : len_ok (mkPage i (replicate (Z.to_nat PAGE_SIZE) 0)).
Proof. unfold len_ok, zlen. cbn [data]. rw length_replicate. plia. Qed.

Lemma new_wf i : wf (new i) ∧ slot_count (new i) = 0 ∧ get_page_id (new i) = wrap 32 i.
Proof.
  pose proof (len_ok_new_raw i) as Hl.
  assert (len_ok (set_page_id (mkPage i (replicate (Z.to_nat PAGE_SIZE) 0)) i)) as Hl'.
  { apply len_ok_write; [done|lia|]. by rw zlen_le_bytes. }
  assert (slot_count (new i) = 0) as Hc by (unfold new; fields; done).
  assert (entries (new i) = []) as He by (unfold entries; by rw Hc).
  split_and!; [|done|].
  - split; rw ?He ?Hc; [unfold new; lenok|lia|..]; try (unfold new; fields; simpl; plia);
      intros *; by rw lookup_nil.
  - unfold new, get_page_id. fields. unfold set_page_id, get_field. cbn [data].
    transitivity (le_val (le_bytes 4 i)); [|apply le_bytes_val].
    reflexivity.
Qed.

Lemma new_contents i : contents (new i) = [].
Proof. unfold contents, entries. destruct (new_wf i) as (_ & -> & _). done. Qed.

(** ** [alloc_slot] *)

Section alloc.
Context (p : Page) (d : list Z) (Hwf : wf p).
Context (Hfit : zlen d + SLOT_ENTRY_SIZE ≤ free_space p).

Let off := free_end p - zlen d.
Let new_entry := mkSlot off (zlen d) 0.
Let p1 := set_slot_count (put_data p off d) (slot_count p + 1).
Let p2 := put_slot p1 (slot_count p) new_entry.
Let p3 := set_free_start p2 (free_start p + SLOT_ENTRY_SIZE).
Let p' := set_live_count (set_free_end p3 off) (live_count p + 1).

Lemma alloc_bounds :
  0 ≤ zlen d ∧ 32 ≤ slot_entry_offset (slot_count p) ∧
  slot_entry_offset (slot_count p + 1) ≤ off ∧ off + zlen d ≤ PAGE_SIZE ∧
  0 ≤ live_count p ≤ slot_count p ∧ len_ok p.
Proof using Hwf Hfit.
  pose proof (zlen_nonneg d). pose proof Hfit as Hfit'. rw (wf_free_space p Hwf) in Hfit'.
  pose proof (wf_live_bound p Hwf).
  destruct Hwf. unfold off. split_and!; try done; plia.
Qed.

Lemma alloc_entry (k : Z) :
  0 ≤ k ≤ slot_count p →
  entry_at p' k = if decide (k = slot_count p) then new_entry else entry_at p k.
Proof using Hwf Hfit.
  intros Hk. destruct alloc_bounds as (?&?&?&?&?&?).
  unfold p', p3, set_live_count, set_free_end, set_free_start.
  assert (len_ok p1) by (unfold p1, set_slot_count; lenok).
  assert (len_ok p2) by (unfold p2; lenok).
  unhead. unfold p2. rw entry_put_slot; [done|plia..|].
  case_decide.
  - apply decode_encode; simpl; plia.
  - unfold p1, set_slot_count. unhead. apply entry_put_data; [done|plia..].
Qed.

Lemma alloc_fields :
  slot_count p' = slot_count p + 1 ∧ free_start p' = free_start p + SLOT_ENTRY_SIZE ∧
  free_end p' = off ∧ live_count p' = live_count p + 1 ∧ len_ok p'.
Proof using Hwf Hfit.
  destruct alloc_bounds as (?&?&?&?&?&?). destruct Hwf as [_ ? Hst ? _ _ _ _].
  unfold p', p3, p2, p1. split_and!; [fields; done..|].
  unfold set_live_count, set_free_end, set_free_start, set_slot_count. lenok.
Qed.

Lemma alloc_entries : entries p' = entries p ++ [new_entry].
Proof using Hwf Hfit.
  destruct alloc_fields as (Hc&_). destruct alloc_bounds as (_&_&_&_&?&_).
  unfold entries. rw Hc seqZ_snoc; [lia|]. rw fmap_app. f_equal.
  - apply list_fmap_ext. intros k x [-> Hx]%lookup_seqZ. simpl.
    rw alloc_entry; [lia|]. by rw decide_False; [lia|].
  - simpl. f_equal. rw alloc_entry; [lia|]. by rw decide_True.
Qed.

Lemma alloc_slice o l :
  off + zlen d ≤ o ∨ o = off ∧ l = zlen d →
  slice (data p') o l = if decide (o = off ∧ l = zlen d) then d else slice (data p) o l.
Proof using Hwf Hfit.
  intros Ho. destruct alloc_bounds as (?&?&?&?&?&?).
  assert (len_ok p1) by (unfold p1, set_slot_count; lenok).
  assert (len_ok p2) by (unfold p2; lenok).
  unfold p', p3, set_live_count, set_free_end, set_free_start. unhead.
  unfold p2. rw slice_put_slot; [done|plia..|].
  unfold p1, set_slot_count. unhead. case_decide as Hd.
  - destruct Hd as [-> ->]. apply slice_put_data_same; [done|plia..].
  - apply slice_put_data; [done|plia..].
Qed.

Lemma alloc_run : alloc_slot p d = Some (p', Ok (slot_count p)).
Proof using Hwf Hfit.
  destruct alloc_bounds as (?&?&?&?&?&?). unfold alloc_slot.
  assert (len_ok p1) by (unfold p1, set_slot_count; lenok).
  pose proof Hfit as Hfit'. rw (wf_free_space p Hwf) in Hfit'.
  pose proof (wf_order p Hwf). pose proof (wf_start p Hwf).
  rw (proj2 (Z.ltb_ge _ _)); [plia|].
  rw (wf_free_space p Hwf) (proj2 (Z.ltb_ge _ _)); [plia|].
  rw (wrap_small 16 (zlen d)); [plia|]. fold off. rw (wrap_small 16 off); [plia|].
  rw (wrap_small 16 (slot_count p + 1)); [plia|].
  rw set_slice_put; [done|plia..|]. cbn [mbind option_bind].
  change (mkPage (id p) (data (put_data p off d))) with (put_data p off d). fold p1.
  rw write_slot_put; [done|plia..|]. cbn [mbind option_bind]. fold new_entry. fold p2.
  assert (free_start p2 = free_start p) as -> by (unfold p2, p1; fields; done).
  rw (wrap_small 16 (free_start p + _)); [plia|]. fold p3.
  assert (live_count (set_free_end p3 off) = live_count p) as ->.
  { unfold p3, p2, p1. fields. done. }
  rw (wrap_small 16 (live_count p + 1)); [plia|]. done.
Qed.
End alloc.

Lemma alloc_refines p d :
  wf p → zlen d + SLOT_ENTRY_SIZE ≤ free_space p →
  ∃ p', alloc_slot p d = Some (p', Ok (slot_count p)) ∧ wf p' ∧
        contents p' = contents p ++ [Some d].
Proof.
  intros Hwf Hfit. eexists. split; [by apply alloc_run|].
  pose proof (alloc_bounds p d Hwf Hfit) as (?&?&?&?&?&?).
  destruct (alloc_fields p d Hwf Hfit) as (Hc & Hs & He & Hv & Hl).
  pose proof (alloc_entries p d Hwf Hfit) as Hes.
  pose proof (alloc_slice p d Hwf Hfit) as Hsl. cbv zeta in *.
  set (p' := set_live_count _ _) in *. set (ne := mkSlot _ _ _) in *.
  assert (∀ (k : nat) e, entries p' !! k = Some e →
            entries p !! k = Some e ∨ k = List.length (entries p) ∧ e = ne) as Hlk.
  { intros k e. rw Hes lookup_app_Some list_lookup_singleton_Some.
    intros [?|[? [? <-]]]; [by left|right; split; [lia|done]]. }
  pose proof (wf_order p Hwf). pose proof (wf_start p Hwf). pose proof (wf_count p Hwf). split.
  - split.
    + done.
    + lia.
    + rw Hs Hc. plia.
    + rw Hs He. plia.
    + intros k e Hk Hd. rw He. destruct (Hlk _ _ Hk) as [Hk'|[_ ->]]; [|simpl; plia].
      destruct (wf_entry p Hwf k e Hk' Hd). plia.
    + intros j k e f Hjk Hj Hk Hde Hdf.
      destruct (Hlk _ _ Hj) as [Hj'|[-> ->]], (Hlk _ _ Hk) as [Hk'|[-> ->]].
      * by apply (wf_disj p Hwf j k).
      * destruct (wf_entry p Hwf j e Hj' Hde) as (?&?&?). right. simpl. lia.
      * destruct (wf_entry p Hwf k f Hk' Hdf) as (?&?&?). left. simpl. lia.
      * done.
    + rw Hes zsum_app He. pose proof (wf_bytes p Hwf). simpl. unfold live_size at 2. simpl. lia.
    + rw Hes zsum_app Hv (wf_live p Hwf). done.
  - unfold contents at 1. rw Hes fmap_app. f_equal.
    + unfold contents. apply list_fmap_ext. intros k e Hk. unfold content.
      destruct (is_dead e) eqn:Hd; [done|]. f_equal.
      destruct (wf_entry p Hwf k e Hk Hd) as (?&?&?).
      rw Hsl; [left; lia|]. case_decide as Hcase; [|done].
      destruct Hcase as [Ho Hle]. assert (zlen d = 0) as Hz by lia.
      rw Hle Hz. unfold zlen in Hz. destruct d; [|simpl in Hz; lia]. done.
    + simpl. unfold content. simpl. rw Hsl; [by right|]. by rw decide_True.
Qed.

(** ** Changing one directory entry *)

Lemma wf_set_entry p p' (k : nat) e e' :
  wf p → len_ok p' → slot_count p' = slot_count p → free_start p' = free_start p →
  entries p !! k = Some e → entries p' = <[k := e']> (entries p) →
  free_start p ≤ free_end p' ≤ free_end p →
  (is_dead e' = false →
     free_end p' ≤ offset e' ∧ 0 ≤ length e' ∧ offset e' + length e' ≤ PAGE_SIZE ∧
     ∀ (j : nat) f, j ≠ k → entries p !! j = Some f → is_dead f = false → disjoint e' f) →
  live_size e' - live_size e ≤ free_end p - free_end p' →
  live_count p' = live_count p - live_unit e + live_unit e' →
  wf p'.
Proof.
  intros Hwf Hl Hc Hs Hk Hes Hfe Hlive Hsz Hcnt.
  assert (∀ (j : nat) f, entries p' !! j = Some f →
            j = k ∧ f = e' ∨ j ≠ k ∧ entries p !! j = Some f) as Hlk.
  { intros j f. rw Hes. intros [(->&->&_)|[? ?]]%list_lookup_insert_Some; auto. }
  pose proof (wf_order p Hwf). split.
  - done.
  - rw Hc. apply Hwf.
  - rw Hs Hc. apply Hwf.
  - rw Hs. lia.
  - intros j f Hj Hd. destruct (Hlk _ _ Hj) as [[-> ->]|[? Hj']].
    + destruct (Hlive Hd) as (?&?&?&_). done.
    + destruct (wf_entry p Hwf j f Hj' Hd) as (?&?&?). lia.
  - intros i j f g Hij Hi Hj Hdf Hdg.
    destruct (Hlk _ _ Hi) as [[-> ->]|[? Hi']], (Hlk _ _ Hj) as [[-> ->]|[? Hj']].
    + done.
    + destruct (Hlive Hdf) as (_&_&_&Hd). by apply (Hd j).
    + destruct (Hlive Hdg) as (_&_&_&Hd). destruct (Hd i f); [done..|by right|by left].
    + by apply (wf_disj p Hwf i j).
  - rw Hes (zsum_insert _ _ _ e); [done|]. pose proof (wf_bytes p Hwf). lia.
  - rw Hes (zsum_insert _ _ _ e); [done|]. rw Hcnt (wf_live p Hwf). done.
Qed.

(** The contents change at [k] alone when every other live tuple is intact. *)
Lemma contents_set_entry p p' (k : nat) e e' :
  entries p !! k = Some e → entries p' = <[k := e']> (entries p) →
  (∀ (j : nat) f, j ≠ k → entries p !! j = Some f → is_dead f = false →
     slice (data p') (offset f) (length f) = slice (data p) (offset f) (length f)) →
  contents p' = <[k := content p' e']> (contents p).
Proof.
  intros Hk Hes Hsl. unfold contents. rw Hes list_fmap_insert.
  apply list_eq. intros j. destruct (decide (j = k)) as [->|Hjk].
  - apply lookup_lt_Some in Hk.
    rw list_lookup_insert_eq; [by rw length_fmap|]. by rw list_lookup_insert_eq; [rw length_fmap|].
  - rw list_lookup_insert_ne; [congruence|]. rw list_lookup_insert_ne; [congruence|].
    rw (list_lookup_fmap (content p')) (list_lookup_fmap (content p)).
    destruct (entries p !! j) as [f|] eqn:Hj; [|done]. simpl. f_equal.
    unfold content. destruct (is_dead f) eqn:Hd; [done|]. f_equal. by apply (Hsl j).
Qed.

Lemma entries_put_slot p i e :
  wf p → 0 ≤ i < slot_count p →
  entries (put_slot p i e) = <[Z.to_nat i := decode (encode e)]> (entries p).
Proof.
  intros Hwf Hi. pose proof (wf_dir_bound p Hwf i Hi) as Hb. pose proof (wf_len p Hwf).
  assert (slot_count (put_slot p i e) = slot_count p) as Hc by (fields; done).
  unfold entries. rw Hc. apply fmap_seqZ_insert; [lia|]. intros j Hj.
  rw entry_put_slot; [done|lia..|]. do 2 case_decide; done || lia.
Qed.

Lemma entries_fields p p' :
  slot_count p' = slot_count p → (∀ i, 0 ≤ i < slot_count p → entry_at p' i = entry_at p i) →
  entries p' = entries p.
Proof.
  intros Hc He. unfold entries. rw Hc. apply list_fmap_ext.
  intros k x [-> Hx]%lookup_seqZ. apply He. lia.
Qed.

(** ** [delete_slot] *)

Lemma is_dead_lor e o l : is_dead (mkSlot o l (Z.lor (flags e) SLOT_FLAG_DEAD)) = true.
Proof.
  unfold is_dead, SLOT_FLAG_DEAD. simpl. apply negb_true_iff, Z.eqb_neq. intros H.
  assert (Z.testbit (Z.land (Z.lor (flags e) 1) 1) 0 = false) as Ht by (rw H; done).
  rw Z.land_spec Z.lor_spec in Ht. change (Z.testbit 1 0) with true in Ht.
  by rw orb_true_r in Ht.
Qed.

Lemma delete_refines p i :
  wf p → 0 ≤ i < slot_count p →
  ∃ p', delete_slot p i = Some (p', Ok tt) ∧ wf p' ∧ slot_count p' = slot_count p ∧
        contents p' = <[Z.to_nat i := None]> (contents p).
Proof.
  intros Hwf Hi. unfold delete_slot. rw (proj2 (Z.leb_gt _ _)); [lia|].
  rw (wf_read_slot p Hwf i Hi). cbn [mbind option_bind].
  assert (entries p !! Z.to_nat i = Some (entry_at p i)) as Hk.
  { rw lookup_entries Z2Nat.id; [lia|]. rw decide_True; [lia|done]. }
  pose proof (wf_dir_bound p Hwf i Hi) as Hb. pose proof (wf_len p Hwf) as Hl.
  destruct (is_dead (entry_at p i)) eqn:Hd.
  { exists p. split_and!; [done..|]. symmetry. apply list_insert_id.
    rw lookup_contents Z2Nat.id; [lia|]. rw decide_True; [lia|]. unfold content. by rw Hd. }
  set (e' := mkSlot _ _ _). rw write_slot_put; [done|lia|done|]. cbn [mbind option_bind].
  assert (1 ≤ live_count p ≤ 65535) as Hlive.
  { pose proof (wf_live_pos p Hwf i Hi Hd). pose proof (wf_live_bound p Hwf).
    pose proof (wf_order p Hwf). pose proof (wf_start p Hwf). plia. }
  assert (live_count (put_slot p i e') = live_count p) as Hlp by (fields; done).
  rw Hlp (proj2 (Z.ltb_lt _ _)); [lia|].
  set (p1 := put_slot p i e') in *. set (p' := set_live_count p1 (live_count p - 1)).
  assert (len_ok p1) as Hl1 by (unfold p1; lenok).
  assert (slot_count p' = slot_count p) as Hc by (unfold p', p1; fields; done).
  assert (entries p' = <[Z.to_nat i := decode (encode e')]> (entries p)) as Hes.
  { rw -(entries_put_slot p i e' Hwf Hi). apply entries_fields.
    - unfold p'. fields. done.
    - intros j Hj. unfold p', set_live_count. by unhead. }
  assert (is_dead (decode (encode e')) = true) as Hdead.
  { unfold is_dead. rw decode_encode_flags. apply is_dead_lor. }
  assert (free_start p' = free_start p ∧ free_end p' = free_end p ∧
          live_count p' = live_count p - 1) as (Hfs & Hfe & Hlv).
  { unfold p', p1. split_and!; fields; done. }
  exists p'. split_and!; [done| |done|].
  - apply (wf_set_entry p p' (Z.to_nat i) (entry_at p i) (decode (encode e'))); try done.
    + unfold p', set_live_count. lenok.
    + rw Hfe. pose proof (wf_order p Hwf). lia.
    + by rw Hdead.
    + unfold live_size. rw Hdead Hd Hfe. destruct (wf_entry_at p Hwf i Hi Hd). lia.
    + unfold live_unit. rw Hdead Hd Hlv. lia.
  - rw (contents_set_entry p p' (Z.to_nat i) (entry_at p i) (decode (encode e'))); [done..| |].
    + intros j f Hj Hf Hdf. destruct (wf_entry p Hwf j f Hf Hdf) as (?&?&?).
      pose proof (wf_order p Hwf). pose proof (wf_start p Hwf). pose proof (wf_count p Hwf).
      unfold p', set_live_count. unhead.
      unfold p1. apply slice_put_slot; [done|lia|done|plia].
    + unfold content. by rw Hdead.
Qed.

(** ** [update_slot]: in place and relocated *)

(** The tuple of slot [i] is replaced by [d], written at [off]; [p0] is the
    page after the bytes are written and free space adjusted, before the
    directory entry is. *)
Lemma replace_tuple p p0 i off d fl :
  wf p → 0 ≤ i < slot_count p → is_dead (entry_at p i) = false →
  len_ok p0 → slot_count p0 = slot_count p → free_start p0 = free_start p →
  live_count p0 = live_count p → entries p0 = entries p →
  free_start p ≤ free_end p0 ≤ free_end p → free_end p0 ≤ off → off + zlen d ≤ PAGE_SIZE →
  zlen d - length (entry_at p i) ≤ free_end p - free_end p0 →
  is_dead (mkSlot off (zlen d) fl) = false →
  (∀ j, 0 ≤ j < slot_count p → j ≠ i → is_dead (entry_at p j) = false →
     disjoint (mkSlot off (zlen d) fl) (entry_at p j)) →
  slice (data p0) off (zlen d) = d →
  (∀ j, 0 ≤ j < slot_count p → j ≠ i → is_dead (entry_at p j) = false →
     slice (data p0) (offset (entry_at p j)) (length (entry_at p j)) =
     slice (data p) (offset (entry_at p j)) (length (entry_at p j))) →
  let p' := put_slot p0 i (mkSlot off (zlen d) fl) in
  wf p' ∧ slot_count p' = slot_count p ∧
  contents p' = <[Z.to_nat i := Some d]> (contents p).
Proof.
  intros Hwf Hi Hd Hl0 Hc0 Hs0 Hv0 He0 Hfe Hoff Hend Hsz Hd' Hdisj Hsame Hother p'.
  set (e' := mkSlot off (zlen d) fl) in *.
  pose proof (wf_dir_bound p Hwf i Hi) as Hb. pose proof (zlen_nonneg d) as Hz.
  pose proof (wf_order p Hwf). pose proof (wf_start p Hwf). pose proof (wf_count p Hwf).
  assert (entries p !! Z.to_nat i = Some (entry_at p i)) as Hk.
  { rw lookup_entries Z2Nat.id; [lia|]. rw decide_True; [lia|done]. }
  assert (len_ok p') as Hl' by (unfold p'; lenok).
  assert (decode (encode e') = e') as Hdec by (apply decode_encode; simpl; plia).
  assert (slot_count p' = slot_count p ∧ free_start p' = free_start p ∧
          free_end p' = free_end p0 ∧ live_count p' = live_count p) as (Hc'&Hs'&Hf'&Hv').
  { unfold p'. fields. done. }
  assert (entries p' = <[Z.to_nat i := e']> (entries p)) as Hes.
  { rw -He0. unfold entries. rw Hc' Hc0. apply fmap_seqZ_insert; [lia|].
    intros j Hj. unfold p'. rw entry_put_slot; [done|lia..|]. rw Hdec.
    do 2 case_decide; done || lia. }
  split_and!; [|done|].
  - apply (wf_set_entry p p' (Z.to_nat i) (entry_at p i) e'); try done; rw ?Hf'; [done|..].
    + intros _. split_and!; [done|done|done|].
      intros j f Hj [Hjc ->]%lookup_entries_Some Hdf. apply Hdisj; [lia..|done].
    + unfold live_size. by rw Hd Hd'.
    + unfold live_unit. rw Hd Hd' Hv'. lia.
  - rw (contents_set_entry p p' (Z.to_nat i) (entry_at p i) e'); [done..| |].
    + intros j f Hj [Hjc ->]%lookup_entries_Some Hdf.
      destruct (wf_entry_at p Hwf (Z.of_nat j)) as (?&?&?); [lia|done|].
      unfold p'. rw slice_put_slot; [done|lia|plia|plia|]. apply Hother; [lia..|done].
    + unfold content. rw Hd'. do 2 f_equal. simpl. unfold p'.
      rw slice_put_slot; [done|lia|plia|plia|done].
Qed.

Lemma is_dead_flags o l o' l' fl : is_dead (mkSlot o l fl) = is_dead (mkSlot o' l' fl).
Proof. done. Qed.

Lemma entry_eta e : mkSlot (offset e) (length e) (flags e) = e.
Proof. by destruct e. Qed.

(** A tuple write behind the directory keeps header and entries. *)
Lemma put_data_view p off d :
  wf p → free_start p ≤ off → off + zlen d ≤ PAGE_SIZE →
  let p0 := put_data p off d in
  len_ok p0 ∧ slot_count p0 = slot_count p ∧ free_start p0 = free_start p ∧
  free_end p0 = free_end p ∧ live_count p0 = live_count p ∧ entries p0 = entries p.
Proof.
  intros Hwf Hoff Hend p0. pose proof (wf_len p Hwf). pose proof (wf_start p Hwf).
  pose proof (wf_count p Hwf). pose proof (zlen_nonneg d).
  assert (len_ok p0) by (unfold p0; apply len_ok_put_data; [done|plia|done]).
  assert (slot_count p0 = slot_count p) as Hc by (unfold p0; fields; done).
  split_and!; [done|done|unfold p0; fields; done..|].
  apply entries_fields; [done|]. intros j Hj. apply entry_put_data; [done|plia..].
Qed.

Lemma update_in_place p i d :
  wf p → 0 ≤ i < slot_count p → is_dead (entry_at p i) = false →
  zlen d ≤ length (entry_at p i) →
  ∃ p', update_slot p i d = Some (p', Ok tt) ∧ wf p' ∧ slot_count p' = slot_count p ∧
        contents p' = <[Z.to_nat i := Some d]> (contents p).
Proof.
  intros Hwf Hi Hd Hle. unfold update_slot. rw (proj2 (Z.leb_gt _ _)); [lia|].
  rw (wf_read_slot p Hwf i Hi). cbn [mbind option_bind]. rw Hd (proj2 (Z.leb_le _ _) Hle).
  set (e := entry_at p i) in *. destruct (wf_entry_at p Hwf i Hi Hd) as (Ho&Hlen&Hend).
  fold e in Ho, Hlen, Hend. pose proof (wf_order p Hwf). pose proof (wf_start p Hwf).
  pose proof (wf_count p Hwf). pose proof (wf_dir_bound p Hwf i Hi). pose proof (zlen_nonneg d).
  destruct (put_data_view p (offset e) d) as (Hl0&Hc0&Hs0&Hf0&Hv0&He0); [done|lia..|].
  rw set_slice_put; [apply Hwf|plia|lia|]. cbn [mbind option_bind].
  change (mkPage (id p) (data (put_data p (offset e) d))) with (put_data p (offset e) d).
  rw (wrap_small 16 (zlen d)); [plia|]. rw write_slot_put; [done|lia|done|].
  cbn [mbind option_bind]. eexists; split; [done|].
  apply (replace_tuple p); try done; rw ?Hf0; try (unfold e in *; lia).
  - intros j Hj Hji Hdj.
    destruct (wf_disj_at p Hwf i j) as [?|?]; [done|done|congruence|done|done|left|right];
      cbn [offset length]; unfold e in *; lia.
  - apply slice_put_data_same; [apply Hwf|plia|lia|done].
  - intros j Hj Hji Hdj. destruct (wf_entry_at p Hwf j Hj Hdj) as (?&?&?).
    apply slice_put_data; [apply Hwf|plia|lia|plia|].
    destruct (wf_disj_at p Hwf i j); [done|done|congruence|done|done|right|left];
      unfold e in *; lia.
Qed.

Lemma relocate_refines p i e d :
  wf p → 0 ≤ i < slot_count p → is_dead (entry_at p i) = false → is_dead e = false →
  length (entry_at p i) < zlen d → zlen d ≤ free_space p →
  ∃ p', relocate_slot p i e d = Some (p', Ok tt) ∧ wf p' ∧ slot_count p' = slot_count p ∧
        contents p' = <[Z.to_nat i := Some d]> (contents p).
Proof.
  intros Hwf Hi Hd Hde Hgt Hfit. rw (wf_free_space p Hwf) in Hfit. unfold relocate_slot.
  pose proof (wf_order p Hwf). pose proof (wf_start p Hwf). pose proof (wf_count p Hwf).
  pose proof (wf_dir_bound p Hwf i Hi). destruct (wf_entry_at p Hwf i Hi Hd) as (_&?&_).
  rw (wrap_small 16 (zlen d)); [plia|]. set (off := free_end p - zlen d).
  rw (wrap_small 16 off); [unfold off; plia|].
  rw set_slice_put; [apply Hwf|unfold off; plia..|]. cbn [mbind option_bind].
  change (mkPage (id p) (data (put_data p off d))) with (put_data p off d).
  destruct (put_data_view p off d) as (Hl0&Hc0&Hs0&Hf0&Hv0&He0); [done|unfold off; lia..|].
  set (p0 := put_data p off d) in *. set (p1 := set_free_end p0 off).
  assert (len_ok p1) as Hl1 by (unfold p1, set_free_end; lenok).
  assert (free_end p1 = off) as Hf1 by (unfold p1; fields; unfold off; plia).
  rw write_slot_put; [done|lia|done|]. cbn [mbind option_bind]. eexists; split; [done|].
  assert (∀ o l, 32 ≤ o → slice (data p1) o l = slice (data p0) o l) as Hsl.
  { intros. unfold p1, set_free_end. by unhead. }
  apply (replace_tuple p); try done; rw ?Hf1; try (unfold off in *; lia).
  - unfold p1. rw -Hc0. fields. done.
  - unfold p1. rw -Hs0. fields. done.
  - unfold p1. rw -Hv0. fields. done.
  - rw -He0. apply entries_fields; [unfold p1; fields; done|].
    intros j Hj. unfold p1, set_free_end. by unhead.
  - intros j Hj Hji Hdj. destruct (wf_entry_at p Hwf j Hj Hdj) as (?&?&?).
    left. cbn [offset length]. unfold off. lia.
  - rw Hsl; [unfold off; plia|]. apply slice_put_data_same; [apply Hwf|unfold off; plia..].
  - intros j Hj Hji Hdj. destruct (wf_entry_at p Hwf j Hj Hdj) as (?&?&?).
    rw Hsl; [plia|]. apply slice_put_data; [apply Hwf|unfold off; plia..].
Qed.

(** ** [compact] *)

Lemma wf_same_view p p' :
  wf p → len_ok p' → slot_count p' = slot_count p → free_start p' = free_start p →
  free_end p' = free_end p → live_count p' = live_count p → entries p' = entries p → wf p'.
Proof.
  intros [] ? Hc Hs Hf Hv He. split; rw ?Hc ?Hs ?Hf ?Hv ?He; done.
Qed.

(** The live tuples of the slots [ids]. *)
Definition live_of (p : Page) (ids : list Z) : list (Z * list Z) :=
  omap (λ i, (λ bs, (i, bs)) <$> content p (entry_at p i)) ids.

Lemma collect_live_spec p ids :
  wf p → (∀ i, i ∈ ids → 0 ≤ i < slot_count p) → collect_live p ids = Some (live_of p ids).
Proof.
  intros Hwf. induction ids as [|i ids IH]; intros Hids; [done|].
  assert (0 ≤ i < slot_count p) as Hi by (apply Hids; by left).
  cbn [collect_live]. rw (wf_read_slot p Hwf i Hi). cbn [mbind option_bind].
  rw IH; [intros j Hj; apply Hids; by right|]. unfold live_of. cbn [omap list_omap]. unfold content.
  destruct (is_dead (entry_at p i)) eqn:Hd; [done|].
  destruct (wf_entry_at p Hwf i Hi Hd) as (?&?&?). pose proof (wf_len p Hwf) as Hl.
  unfold len_ok in Hl. pose proof (wf_order p Hwf). pose proof (wf_start p Hwf).
  rw get_slice_Some; [plia|done|lia|]. done.
Qed.

Lemma elem_of_live_of p ids i bs :
  (i, bs) ∈ live_of p ids ↔ i ∈ ids ∧ content p (entry_at p i) = Some bs.
Proof.
  unfold live_of. rw list_elem_of_omap. split.
  - intros (j & Hj & (b & ? & ?)%fmap_Some). by simplify_eq.
  - intros [Hi Hc]. exists i. by rw Hc.
Qed.

Lemma NoDup_live_of p ids : NoDup ids → NoDup (live_of p ids).*1.
Proof.
  induction 1 as [|i ids Hi Hnd IH]; [constructor|]. unfold live_of in *. cbn [omap list_omap].
  destruct (content p (entry_at p i)) as [bs|]; [|done]. cbn. constructor; [|done].
  intros ([j b] & ? & Hj%(elem_of_live_of p ids))%list_elem_of_fmap. simplify_eq/=. naive_solver.
Qed.

Lemma zsum_live_of p ids :
  (∀ i, i ∈ ids → is_dead (entry_at p i) = false →
     0 ≤ offset (entry_at p i) ∧ 0 ≤ length (entry_at p i) ∧
     offset (entry_at p i) + length (entry_at p i) ≤ zlen (data p)) →
  zsum (λ x, zlen x.2) (live_of p ids) = zsum live_size (entry_at p <$> ids).
Proof.
  induction ids as [|i ids IH]; intros Hb; [done|]. unfold live_of in *. cbn [omap list_omap].
  cbn [fmap list_fmap zsum]. rw -IH; [intros j Hj; apply Hb; by right|]. unfold content, live_size.
  destruct (is_dead (entry_at p i)) eqn:Hd; [done|]. cbn.
  destruct (Hb i) as (?&?&?); [by left|done|]. rw length_slice; [done..|]. done.
Qed.

(** What the placement loop achieves from [p] at [cursor]. *)
Record placed (n : Z) (p p' : Page) (cursor cursor' : Z) (live : list (Z * list Z)) : Prop := {
  pl_len : len_ok p';
  pl_field : ∀ off len, 0 ≤ off → off + len ≤ 32 → get_field p' off len = get_field p off len;
  pl_other : ∀ j, 0 ≤ j < n → j ∉ live.*1 → entry_at p' j = entry_at p j;
  pl_live : ∀ i bs, (i, bs) ∈ live →
    flags (entry_at p' i) = flags (entry_at p i) ∧ length (entry_at p' i) = zlen bs ∧
    slice (data p') (offset (entry_at p' i)) (length (entry_at p' i)) = bs ∧
    cursor' ≤ offset (entry_at p' i) ∧
    offset (entry_at p' i) + length (entry_at p' i) ≤ cursor;
  pl_disj : ∀ i j, i ∈ live.*1 → j ∈ live.*1 → i ≠ j →
    disjoint (entry_at p' i) (entry_at p' j);
  pl_keep : ∀ o l, cursor ≤ o → slice (data p') o l = slice (data p) o l
}.

Lemma placed_cons n p p1 p' cursor cursor' i bs live :
  0 ≤ i < n → slot_entry_offset n ≤ cursor' → cursor' ≤ cursor - zlen bs →
  (∀ j, j ∈ live.*1 → 0 ≤ j < n) →
  len_ok p → cursor ≤ PAGE_SIZE → i ∉ live.*1 →
  p1 = put_slot (put_data p (cursor - zlen bs) bs) i
         (mkSlot (cursor - zlen bs) (zlen bs) (flags (entry_at p i))) →
  placed n p1 p' (cursor - zlen bs) cursor' live →
  placed n p p' cursor cursor' ((i, bs) :: live).
Proof.
  intros Hi Hc' Hcur Hids Hl Hcp Hni Hp1 [Hl' Hf Ho Hlv Hd Hk].
  pose proof (zlen_nonneg bs). set (start := cursor - zlen bs) in *.
  set (e := mkSlot start (zlen bs) _) in *.
  assert (len_ok (put_data p start bs)) as Hl0 by (apply len_ok_put_data; [done|plia..]).
  assert (decode (encode e) = e) as Hdec by (apply decode_encode; simpl; plia).
  assert (∀ j, 0 ≤ j < n → entry_at p1 j = if decide (j = i) then e else entry_at p j) as He1.
  { intros j Hj. rw Hp1 entry_put_slot; [done|lia|lia|plia|]. rw Hdec.
    case_decide; [done|]. apply entry_put_data; [done|lia|plia..]. }
  assert (entry_at p' i = e) as Hei by (rw Ho; [done..|]; rw He1; [done|]; by rw decide_True).
  assert (∀ o l, start ≤ o → slice (data p1) o l = slice (data (put_data p start bs)) o l) as Hs1.
  { intros. rw Hp1. apply slice_put_slot; [done|lia|plia|plia]. }
  split.
  - done.
  - intros. rw Hf; [done..|]. rw Hp1 field_put_slot; [done|lia|plia|done..|].
    apply field_put_data; [done|plia|plia|done..].
  - cbn [fmap list_fmap fst]. intros j Hj [Hji Hjl]%not_elem_of_cons.
    rw Ho; [done..|]. rw He1; [done|]. by rw decide_False.
  - intros k b [[= -> ->]|Hin]%elem_of_cons.
    + rw Hei. cbn [e offset length flags]. split_and!; [done|done| |done|lia].
      rw Hk; [lia|]. rw Hs1; [lia|]. apply slice_put_data_same; [done|plia..].
    + destruct (Hlv k b Hin) as (Hfl & ? & ? & ? & ?). split_and!; [|done|done|done|lia].
      assert (k ∈ live.*1) as Hkl by (apply list_elem_of_fmap; exists (k, b); done).
      rw Hfl He1; [by apply Hids|]. by rw decide_False; [congruence|].
  - assert (∀ j, j ∈ live.*1 → offset (entry_at p' j) + length (entry_at p' j) ≤ start) as Hle.
    { intros j ([k b] & -> & Hin)%list_elem_of_fmap. by destruct (Hlv k b Hin) as (?&?&?&?&?). }
    cbn [fmap list_fmap fst]. intros j k [->|Hj]%elem_of_cons [->|Hk']%elem_of_cons Hne.
    + done.
    + right. rw Hei. by apply Hle.
    + left. rw Hei. by apply Hle.
    + by apply Hd.
  - intros o l Hol. rw Hk; [lia|]. rw Hs1; [lia|]. apply slice_put_data; [done|plia..].
Qed.

Lemma place_live_spec n live p cursor :
  len_ok p → 0 ≤ n → cursor ≤ PAGE_SIZE →
  slot_entry_offset n ≤ cursor - zsum (λ x, zlen x.2) live →
  (∀ i, i ∈ live.*1 → 0 ≤ i < n) → NoDup live.*1 →
  ∃ p', place_live p cursor live = Some (p', cursor - zsum (λ x, zlen x.2) live) ∧
        placed n p p' cursor (cursor - zsum (λ x, zlen x.2) live) live.
Proof.
  intros Hl Hn. revert p cursor Hl.
  induction live as [|[i bs] live IH]; intros p cursor Hl Hcur Hfit Hids Hnd.
  { exists p. cbn [place_live zsum]. rw Z.sub_0_r. split; [done|].
    split; try done; intros *; by intros ?%not_elem_of_nil. }
  cbn [place_live zsum snd fmap list_fmap fst] in *. apply NoDup_cons in Hnd as [Hni Hnd].
  pose proof (zsum_nonneg (λ x : Z * list Z, zlen x.2) live (λ x _, zlen_nonneg _)).
  pose proof (zlen_nonneg bs). assert (0 ≤ i < n) as Hi by (apply Hids; by left).
  rw set_slice_put; [done|plia..|]. cbn [mbind option_bind].
  set (start := cursor - zlen bs).
  change (mkPage (id p) (data (put_data p start bs))) with (put_data p start bs).
  assert (len_ok (put_data p start bs)) as Hl0 by (apply len_ok_put_data; [done|unfold start; plia..]).
  rw read_slot_entry; [done|lia|plia|]. cbn [mbind option_bind].
  rw entry_put_data; [done|lia|unfold start; plia..|].
  rw (wrap_small 16 start); [unfold start; plia|]. rw (wrap_small 16 (zlen bs)); [plia|].
  rw write_slot_put; [done|lia|plia|]. cbn [mbind option_bind].
  set (p1 := put_slot _ _ _).
  destruct (IH p1 start) as (p' & Hrun & Hpl); [unfold p1; lenok|unfold start; lia..| |done|].
  { intros j Hj. apply Hids. by right. }
  rw Z.sub_add_distr. exists p'. split; [done|].
  apply (placed_cons n p p1); [done|plia|lia|intros j Hj; apply Hids; by right|done..].
Qed.

(** The layout after the placement loop, slot by slot. *)
Lemma placed_layout p pz r c :
  wf p → (∀ i, 0 ≤ i < slot_count p → entry_at pz i = entry_at p i) →
  placed (slot_count p) pz r PAGE_SIZE c (live_of p (seqZ 0 (slot_count p))) →
  ∀ i, 0 ≤ i < slot_count p →
    is_dead (entry_at r i) = is_dead (entry_at p i) ∧
    (is_dead (entry_at p i) = false →
       length (entry_at r i) = length (entry_at p i) ∧
       content r (entry_at r i) = content p (entry_at p i) ∧
       c ≤ offset (entry_at r i) ∧ offset (entry_at r i) + length (entry_at r i) ≤ PAGE_SIZE).
Proof.
  intros Hwf Hz [_ _ Ho Hlv _ _] i Hi. set (live := live_of _ _) in *.
  destruct (is_dead (entry_at p i)) eqn:Hd.
  - split; [|done]. rw Ho; [done| |rw Hz; done].
    intros ([j b] & -> & [_ Hc]%elem_of_live_of)%list_elem_of_fmap. simpl in *.
    unfold content in Hc. by rw Hd in Hc.
  - destruct (wf_entry_at p Hwf i Hi Hd) as (?&?&?).
    set (b := slice (data p) (offset (entry_at p i)) (length (entry_at p i))).
    assert (content p (entry_at p i) = Some b) as Hc by (unfold content; by rw Hd).
    destruct (Hlv i b) as (Hfl & Hle & Hsl & Hlo & Hhi).
    { apply elem_of_live_of. split; [|done]. apply elem_of_seqZ. lia. }
    rw Hz in Hfl; [done|].
    assert (is_dead (entry_at r i) = false) as Hd' by (unfold is_dead in *; by rw Hfl).
    split; [done|]. intros _. rw Hc. split_and!; [|unfold content; rw Hd' Hsl; done|done|done].
    rw Hle. pose proof (wf_len p Hwf) as Hl. unfold len_ok in Hl.
    pose proof (wf_order p Hwf). pose proof (wf_start p Hwf). pose proof (wf_count p Hwf).
    apply length_slice; [plia|done|lia].
Qed.

Lemma elem_of_live_fst p i :
  0 ≤ i < slot_count p → is_dead (entry_at p i) = false →
  i ∈ (live_of p (seqZ 0 (slot_count p))).*1.
Proof.
  intros Hi Hd. apply list_elem_of_fmap. eexists (i, _). split; [done|].
  apply elem_of_live_of. split; [apply elem_of_seqZ; lia|].
  unfold content. by rw Hd.
Qed.

Lemma zsum_live_entries p :
  wf p → zsum (λ x, zlen x.2) (live_of p (seqZ 0 (slot_count p))) = zsum live_size (entries p).
Proof.
  intros Hwf. apply zsum_live_of. intros i Hi%elem_of_seqZ Hd.
  destruct (wf_entry_at p Hwf i) as (?&?&?); [lia|done|].
  pose proof (wf_len p Hwf) as Hl. unfold len_ok in Hl.
  pose proof (wf_order p Hwf). pose proof (wf_start p Hwf). plia.
Qed.

(** [p'] is [p] compacted: same slots, tuples packed against the page end. *)
Record compacted (p p' : Page) : Prop := {
  cp_wf : wf p';
  cp_count : slot_count p' = slot_count p;
  cp_contents : contents p' = contents p;
  cp_free_end : free_end p' = PAGE_SIZE - zsum live_size (entries p);
  cp_entry : ∀ i, 0 ≤ i < slot_count p → is_dead (entry_at p' i) = is_dead (entry_at p i) ∧
    (is_dead (entry_at p i) = false → length (entry_at p' i) = length (entry_at p i))
}.

Lemma compact_entries_sum p p' (f : SlotEntry → Z) :
  slot_count p' = slot_count p →
  (∀ i, 0 ≤ i < slot_count p → f (entry_at p' i) = f (entry_at p i)) →
  zsum f (entries p') = zsum f (entries p).
Proof.
  intros Hc Hf. unfold entries. rw Hc (zsum_fmap f (entry_at p')) (zsum_fmap f (entry_at p)). apply zsum_ext.
  intros i Hi%elem_of_seqZ. apply Hf. lia.
Qed.

(** From the loop's layout to the compacted page. *)
Lemma compacted_of_placed p pz r c :
  wf p → (∀ i, 0 ≤ i < slot_count p → entry_at pz i = entry_at p i) →
  (∀ off len, 0 ≤ off → off + len ≤ 32 → get_field pz off len = get_field p off len) →
  c = PAGE_SIZE - zsum live_size (entries p) →
  placed (slot_count p) pz r PAGE_SIZE c (live_of p (seqZ 0 (slot_count p))) →
  compacted p (set_free_end r (wrap 16 c)).
Proof.
  intros Hwf Hz Hfz Hc Hpl. pose proof (placed_layout p pz r c Hwf Hz Hpl) as Hlay.
  destruct Hpl as [Hl Hf _ _ Hd _].
  pose proof (wf_order p Hwf). pose proof (wf_start p Hwf). pose proof (wf_count p Hwf).
  pose proof (wf_bytes p Hwf). pose proof (zsum_nonneg _ _ (wf_live_size_nonneg p Hwf)).
  rw (wrap_small 16 c); [plia|]. set (p' := set_free_end r c).
  assert (∀ i, 0 ≤ i → entry_at p' i = entry_at r i) as He.
  { intros i Hi. unfold p', set_free_end. by unhead. }
  assert (∀ o l, 32 ≤ o → slice (data p') o l = slice (data r) o l) as Hsl.
  { intros. unfold p', set_free_end. by unhead. }
  assert (∀ off, 0 ≤ off ≤ 24 → get_field p' off 2 = get_field p off 2) as Hg.
  { intros. unfold p', set_free_end. rw get_set_field_other; [done|plia..|].
    rw Hf; [lia..|]. apply Hfz; lia. }
  assert (slot_count p' = slot_count p) as Hcnt by (unfold slot_count; apply Hg; lia).
  assert (free_end p' = c) as Hfe by (unfold p'; fields; plia).
  split; [|done| |congruence|].
  - split.
    + unfold p', set_free_end. lenok.
    + lia.
    + rw Hcnt -(wf_start p Hwf). unfold free_start. apply Hg. lia.
    + rw Hfe. unfold free_start at 1. rw Hg; [lia|]. fold (free_start p). lia.
    + intros k e [Hk ->]%lookup_entries_Some. rw Hfe He; [lia|]. rw Hcnt in Hk. intros Hde.
      destruct (Hlay (Z.of_nat k)) as [Hdk Hlk]; [lia|]. rw Hdk in Hde.
      destruct (Hlk Hde) as (Hle & _ & ? & ?).
      destruct (wf_entry_at p Hwf (Z.of_nat k)) as (?&?&?); [lia|done|]. lia.
    + intros j k e f Hjk [Hj ->]%lookup_entries_Some [Hk ->]%lookup_entries_Some.
      rw Hcnt in Hj, Hk. rw !He; [lia..|].
      destruct (Hlay (Z.of_nat j)) as [-> _]; [lia|]. destruct (Hlay (Z.of_nat k)) as [-> _]; [lia|].
      intros. apply Hd; [apply elem_of_live_fst; [lia|done]..|lia].
    + rw Hfe (compact_entries_sum p p'); [done| |lia].
      intros i Hi. rw He; [lia|]. destruct (Hlay i Hi) as [Hdi Hli]. unfold live_size. rw Hdi.
      destruct (is_dead (entry_at p i)); [done|]. by apply Hli.
    + rw (compact_entries_sum p p'); [done| |].
      * intros i Hi. rw He; [lia|]. unfold live_unit. by destruct (Hlay i Hi) as [-> _].
      * rw -(wf_live p Hwf). unfold live_count. apply Hg. lia.
  - apply contents_ext; [done|]. intros i Hi. rw He; [lia|]. destruct (Hlay i Hi) as [Hdi Hli].
    destruct (is_dead (entry_at p i)) eqn:Hdp; [unfold content; by rw Hdi Hdp|].
    destruct (Hli eq_refl) as (_ & Hcont & ? & _). rw -Hcont. unfold content. rw Hdi.
    f_equal. apply Hsl. plia.
  - intros i Hi. rw He; [lia|]. destruct (Hlay i Hi) as [? Hli]. split; [done|]. by intros []%Hli.
Qed.

(** The directory end [compact] stores first is the one the invariant gives. *)
Lemma compact_start_view p :
  wf p → let p1 := set_free_start p (slot_entry_offset (slot_count p)) in
  wf p1 ∧ slot_count p1 = slot_count p ∧ contents p1 = contents p ∧
  (∀ i, 0 ≤ i → entry_at p1 i = entry_at p i).
Proof.
  intros Hwf p1. pose proof (wf_len p Hwf) as Hl. pose proof (wf_count p Hwf).
  pose proof (wf_order p Hwf). pose proof (wf_start p Hwf).
  assert (slot_count p1 = slot_count p ∧ free_start p1 = free_start p ∧
          free_end p1 = free_end p ∧ live_count p1 = live_count p) as (Hc1&Hs1&Hf1&Hv1).
  { unfold p1. split_and!; fields; plia. }
  assert (∀ i, 0 ≤ i → entry_at p1 i = entry_at p i) as He1.
  { intros i Hi. unfold p1, set_free_start. by unhead. }
  assert (entries p1 = entries p) as Hes.
  { apply entries_fields; [done|]. intros; apply He1; lia. }
  split_and!; [|done| |done].
  - apply (wf_same_view p); try done. unfold p1, set_free_start. lenok.
  - apply contents_ext; [done|]. intros i Hi. rw He1; [lia|]. unfold content.
    destruct (is_dead (entry_at p i)) eqn:Hd; [done|]. f_equal.
    destruct (wf_entry_at p Hwf i Hi Hd). unfold p1, set_free_start. by unhead.
Qed.

Lemma compacted_view p p1 p' :
  slot_count p1 = slot_count p → contents p1 = contents p →
  (∀ i, 0 ≤ i → entry_at p1 i = entry_at p i) → compacted p1 p' → compacted p p'.
Proof.
  intros Hc Hco He [Hw Hc' Hco' Hf' He'].
  assert (entries p1 = entries p) as Hes by (apply entries_fields; [done|]; intros; apply He; lia).
  split; [done|congruence|congruence|congruence|].
  rw -Hc. intros i Hi. rw -He; [lia|]. by apply He'.
Qed.

Lemma compacted_empty p : wf p → slot_count p = 0 → compacted p (set_free_end p PAGE_SIZE).
Proof.
  intros Hwf Hc. set (p' := set_free_end p PAGE_SIZE). pose proof (wf_len p Hwf).
  pose proof (wf_order p Hwf). pose proof (wf_start p Hwf) as Hs. rw Hc in Hs.
  assert (entries p = []) as He by (unfold entries; by rw Hc).
  pose proof (wf_live p Hwf) as Hv. rw He in Hv. simpl in Hv.
  assert (slot_count p' = 0 ∧ free_start p' = free_start p ∧
          free_end p' = PAGE_SIZE ∧ live_count p' = 0) as (Hc1&Hs1&Hf1&Hv1).
  { unfold p'. split_and!; fields; plia. }
  assert (entries p' = []) as He' by (unfold entries; by rw Hc1).
  split; [|congruence|unfold contents; by rw He He'|rw He; simpl; lia|lia].
  split; rw ?He' ?Hc1 ?Hs1 ?Hf1 ?Hv1; try done; try (simpl; plia).
  unfold p', set_free_end. lenok.
Qed.

Lemma compact_refines p : wf p → ∃ p', compact p = Some p' ∧ compacted p p'.
Proof.
  intros Hwf. unfold compact. fold (slot_entry_offset (slot_count p)).
  pose proof (wf_order p Hwf). pose proof (wf_start p Hwf). pose proof (wf_count p Hwf).
  rw (wrap_small 16); [plia|].
  destruct (compact_start_view p Hwf) as (Hwf1 & Hc1 & Hco1 & He1).
  set (p1 := set_free_start p _) in *. destruct (Z.eqb_spec (slot_count p) 0) as [Hz|Hz].
  { eexists. split; [done|]. apply (compacted_view p p1); [done..|].
    apply compacted_empty; [done|lia]. }
  pose proof (wf_len p1 Hwf1). pose proof (wf_bytes p1 Hwf1). pose proof (wf_order p1 Hwf1).
  pose proof (wf_start p1 Hwf1). rw -Hc1 in Hz |- *.
  rw collect_live_spec; [done|intros i Hi%elem_of_seqZ; lia|]. cbn [mbind option_bind].
  rw (proj2 (Z.leb_le _ _)); [plia|].
  set (zs := replicate _ 0).
  assert (zlen zs = PAGE_SIZE - slot_entry_offset (slot_count p1)) as Hzs.
  { unfold zs, zlen. rw length_replicate. plia. }
  rw set_slice_put; [done|plia..|]. cbn [mbind option_bind].
  set (pz := mkPage _ _).
  destruct (place_live_spec (slot_count p1) (live_of p1 (seqZ 0 (slot_count p1))) pz PAGE_SIZE)
    as (r & Hrun & Hpl).
  - apply len_ok_put_data; [done|plia..].
  - lia.
  - done.
  - rw zsum_live_entries; [done|]. plia.
  - intros i ([j b] & -> & [Hj%elem_of_seqZ _]%elem_of_live_of)%list_elem_of_fmap. simpl. lia.
  - apply NoDup_live_of, NoDup_seqZ.
  - rw Hrun. cbn [mbind option_bind fst snd]. eexists. split; [done|].
    apply (compacted_view p p1); [done..|].
    apply (compacted_of_placed p1 pz); [done| | | |done].
    + intros i Hi. apply entry_put_data; [done|plia..].
    + intros. apply field_put_data; [done|plia..].
    + by rw zsum_live_entries.
Qed.

(** ** The abstract page

    A page is a list of slots, each a tuple or dead, with the room the layout
    leaves once the live tuples are packed. *)

Definition tuple_size (o : option (list Z)) : Z := from_option zlen 0 o.

Definition room (cs : list (option (list Z))) : Z :=
  PAGE_SIZE - slot_entry_offset (zlen cs) - zsum tuple_size cs.

Lemma live_size_content p : wf p → zsum live_size (entries p) = zsum tuple_size (contents p).
Proof.
  intros Hwf. unfold contents. rw (zsum_fmap tuple_size (content p)). apply zsum_ext.
  intros e [k [Hk ->]%lookup_entries_Some]%list_elem_of_lookup.
  unfold live_size, content, compose. destruct (is_dead _) eqn:Hd; [done|]. cbn [tuple_size from_option].
  destruct (wf_entry_at p Hwf (Z.of_nat k)) as (?&?&?); [lia|done|].
  pose proof (wf_len p Hwf) as Hl. unfold len_ok in Hl.
  pose proof (wf_order p Hwf). pose proof (wf_start p Hwf). pose proof (wf_count p Hwf).
  rw length_slice; [plia|done|lia|done].
Qed.

Lemma free_space_room p : wf p → free_space p ≤ room (contents p).
Proof.
  intros Hwf. rw (wf_free_space p Hwf) (wf_start p Hwf). unfold room.
  rw length_contents; [apply Hwf|]. rw -live_size_content; [done|]. pose proof (wf_bytes p Hwf). lia.
Qed.

Lemma compacted_room p p' : wf p → compacted p p' → free_space p' = room (contents p).
Proof.
  intros Hwf [Hw Hc Hco Hf _]. rw (wf_free_space p' Hw) Hf (wf_start p' Hw) Hc. unfold room.
  rw length_contents; [apply Hwf|]. rw -live_size_content; [done|]. lia.
Qed.

Inductive op : Type :=
  | OpAlloc (d : list Z)
  | OpDelete (slot : nat)
  | OpUpdate (slot : nat) (d : list Z)
  | OpCompact.

(** One operation on the concrete page, with its result. *)
Definition exec (p : Page) (o : op) : option (Page * result (option Z)) :=
  match o with
  | OpAlloc d =>
      r ← alloc_slot p d;
      Some (r.1, match r.2 with Ok i => Ok (Some i) | Err e => Err e end)
  | OpDelete i =>
      r ← delete_slot p (Z.of_nat i);
      Some (r.1, match r.2 with Ok _ => Ok None | Err e => Err e end)
  | OpUpdate i d =>
      r ← update_slot p (Z.of_nat i) d;
      Some (r.1, match r.2 with Ok _ => Ok None | Err e => Err e end)
  | OpCompact => p' ← compact p; Some (p', Ok None)
  end.

Fixpoint exec_all (p : Page) (os : list op) : option (Page * list (result (option Z))) :=
  match os with
  | [] => Some (p, [])
  | o :: os' =>
      r ← exec p o;
      rs ← exec_all r.1 os';
      Some (rs.1, r.2 :: rs.2)
  end.

(** The specification: what each operation may do to the slots. An allocation
    may be refused although [room] would suffice (the space is fragmented);
    everything else is determined. *)
Inductive spec_step : list (option (list Z)) → op →
    list (option (list Z)) → result (option Z) → Prop :=
  | spec_alloc cs d :
      zlen d + SLOT_ENTRY_SIZE ≤ room cs →
      spec_step cs (OpAlloc d) (cs ++ [Some d]) (Ok (Some (zlen cs)))
  | spec_alloc_full cs d e :
      spec_step cs (OpAlloc d) cs (Err e)
  | spec_delete cs i :
      (i < List.length cs)%nat →
      spec_step cs (OpDelete i) (<[i := None]> cs) (Ok None)
  | spec_delete_range cs i e :
      (List.length cs ≤ i)%nat →
      spec_step cs (OpDelete i) cs (Err e)
  | spec_update cs i old d :
      cs !! i = Some (Some old) → zlen d ≤ zlen old ∨ zlen d ≤ room cs →
      spec_step cs (OpUpdate i d) (<[i := Some d]> cs) (Ok None)
  | spec_update_full cs i old d e :
      cs !! i = Some (Some old) → zlen old < zlen d → room cs < zlen d →
      spec_step cs (OpUpdate i d) cs (Err e)
  | spec_update_dead cs i d e :
      cs !! i = Some None ∨ cs !! i = None →
      spec_step cs (OpUpdate i d) cs (Err e)
  | spec_compact cs :
      spec_step cs OpCompact cs (Ok None).

Inductive spec_steps : list (option (list Z)) → list op →
    list (option (list Z)) → list (result (option Z)) → Prop :=
  | spec_nil cs : spec_steps cs [] cs []
  | spec_cons cs o cs1 r os cs2 rs :
      spec_step cs o cs1 r → spec_steps cs1 os cs2 rs →
      spec_steps cs (o :: os) cs2 (r :: rs).

(** ** Refinement, operation by operation *)

Lemma alloc_full p d :
  free_space p < zlen d + SLOT_ENTRY_SIZE → ∃ e, alloc_slot p d = Some (p, Err e).
Proof.
  intros Hf. unfold alloc_slot. case_bool; [by eexists|].
  rw (proj2 (Z.ltb_lt _ _)); [done|]. by eexists.
Qed.

Lemma content_live p i :
  wf p → 0 ≤ i < slot_count p → is_dead (entry_at p i) = false →
  ∃ old, contents p !! Z.to_nat i = Some (Some old) ∧ zlen old = length (entry_at p i).
Proof.
  intros Hwf Hi Hd. exists (slice (data p) (offset (entry_at p i)) (length (entry_at p i))).
  rw lookup_contents Z2Nat.id; [lia|]. rw decide_True; [lia|]. unfold content. rw Hd.
  split; [done|]. destruct (wf_entry_at p Hwf i Hi Hd) as (?&?&?).
  pose proof (wf_len p Hwf) as Hl. unfold len_ok in Hl.
  pose proof (wf_order p Hwf). pose proof (wf_start p Hwf). pose proof (wf_count p Hwf).
  apply length_slice; [plia|done|lia].
Qed.

(** [update_slot] on a live slot, by the sizes involved. *)
Lemma update_refines p i d old :
  wf p → 0 ≤ i → contents p !! Z.to_nat i = Some (Some old) →
  ∃ p', wf p' ∧
    ((zlen d ≤ zlen old ∨ zlen d ≤ room (contents p)) ∧
       update_slot p i d = Some (p', Ok tt) ∧
       contents p' = <[Z.to_nat i := Some d]> (contents p)
     ∨ (zlen old < zlen d ∧ room (contents p) < zlen d) ∧
       (∃ e, update_slot p i d = Some (p', Err e)) ∧ contents p' = contents p).
Proof.
  intros Hwf Hi0 Hold.
  assert (0 ≤ i < slot_count p ∧ is_dead (entry_at p i) = false) as [Hi Hd].
  { rw lookup_contents Z2Nat.id in Hold; [done|]. case_decide; [|done]. split; [lia|].
    unfold content in Hold. by destruct (is_dead _). }
  destruct (content_live p i Hwf Hi Hd) as (old' & Hold' & Hlen). simplify_eq.
  destruct (Z.leb_spec (zlen d) (length (entry_at p i))) as [Hle|Hgt].
  { destruct (update_in_place p i d Hwf Hi Hd Hle) as (p' & Hrun & Hw & _ & Hco).
    exists p'. split; [done|]. left. split_and!; [lia|done|done]. }
  assert (update_slot p i d =
            if free_space p <? zlen d then
              p1 ← compact p;
              if free_space p1 <? zlen d
              then Some (p1, Err (Internal "update_slot: not enough room even after compact"))
              else relocate_slot p1 i (entry_at p i) d
            else relocate_slot p i (entry_at p i) d) as ->.
  { unfold update_slot. rw (proj2 (Z.leb_gt _ _)); [lia|]. rw (wf_read_slot p Hwf i Hi).
    cbn [mbind option_bind]. rw Hd (proj2 (Z.leb_gt _ _)); [done|]. by rw Z.add_0_r. }
  pose proof (free_space_room p Hwf). case_bool.
  - destruct (compact_refines p Hwf) as (p1 & -> & Hcp). cbn [mbind option_bind].
    pose proof (compacted_room p p1 Hwf Hcp) as Hroom. rw Hroom. destruct Hcp as [Hw1 Hc1 Hco1 _ He1]. case_bool.
    + exists p1. split; [done|]. right. split_and!; [lia|lia|by eexists|done].
    + destruct (He1 i Hi) as [Hd1 Hl1].
      destruct (relocate_refines p1 i (entry_at p i) d) as (p' & Hrun & Hw & _ & Hco);
        [done|lia|congruence|done|rw Hl1; done|lia|].
      exists p'. split; [done|]. left. split_and!; [lia|done|congruence].
  - destruct (relocate_refines p i (entry_at p i) d) as (p' & Hrun & Hw & _ & Hco); [done..|].
    exists p'. split; [done|]. left. split_and!; [lia|done|done].
Qed.

Lemma update_refused p (i : nat) d :
  wf p → contents p !! i = Some None ∨ contents p !! i = None →
  ∃ e, update_slot p (Z.of_nat i) d = Some (p, Err e).
Proof.
  intros Hwf Hi. unfold update_slot. case_bool; [by eexists|].
  rw (wf_read_slot p Hwf); [lia|]. cbn [mbind option_bind].
  rw lookup_contents decide_True in Hi; [lia|].
  unfold content in Hi. destruct (is_dead _); [by eexists|]. by destruct Hi.
Qed.

Lemma exec_refines p o :
  wf p → ∃ p' r, exec p o = Some (p', r) ∧ wf p' ∧ spec_step (contents p) o (contents p') r.
Proof.
  intros Hwf. pose proof (length_contents p (wf_count p Hwf)) as Hlen. unfold zlen in Hlen.
  destruct o as [d|i|i d|]; cbn [exec].
  - destruct (Z.leb_spec (zlen d + SLOT_ENTRY_SIZE) (free_space p)) as [Hfit|Hfull].
    + destruct (alloc_refines p d Hwf Hfit) as (p' & -> & Hw & Hco). do 2 eexists.
      split_and!; [done|done|]. rw Hco -Hlen. constructor. pose proof (free_space_room p Hwf). lia.
    + destruct (alloc_full p d Hfull) as [e ->]. do 2 eexists. split_and!; [done|done|]. constructor.
  - destruct (decide (Z.of_nat i < slot_count p)) as [Hi|Hi].
    + destruct (delete_refines p (Z.of_nat i)) as (p' & -> & Hw & _ & Hco); [done|lia|].
      rw Nat2Z.id in Hco. do 2 eexists. split_and!; [done|done|]. rw Hco. constructor. lia.
    + unfold delete_slot. rw (proj2 (Z.leb_le (slot_count p) _)); [lia|].
      cbn [mbind option_bind fst snd]. do 2 eexists. split_and!; [done|done|]. constructor. lia.
  - destruct (contents p !! i) as [[old|]|] eqn:Hold.
    + destruct (update_refines p (Z.of_nat i) d old) as (p' & Hw & Hcase); [done|lia|by rw Nat2Z.id|].
      rw Nat2Z.id in Hcase.
      destruct Hcase as [(Hsz & -> & Hco)|((? & ?) & [e ->] & Hco)]; do 2 eexists;
        (split_and!; [done|done|]); rw Hco; [by apply (spec_update _ _ old)|by apply (spec_update_full _ _ old)].
    + destruct (update_refused p i d) as [e ->]; [done|by left|]. do 2 eexists.
      split_and!; [done|done|]. apply spec_update_dead. by left.
    + destruct (update_refused p i d) as [e ->]; [done|by right|]. do 2 eexists.
      split_and!; [done|done|]. apply spec_update_dead. by right.
  - destruct (compact_refines p Hwf) as (p' & -> & [Hw _ Hco _ _]). do 2 eexists.
    split_and!; [done|done|]. rw Hco. constructor.
Qed.

Lemma exec_all_refines os p :
  wf p → ∃ p' rs, exec_all p os = Some (p', rs) ∧ wf p' ∧
                  spec_steps (contents p) os (contents p') rs.
Proof.
  revert p. induction os as [|o os IH]; intros p Hwf; cbn [exec_all].
  { do 2 eexists. split_and!; [done|done|constructor]. }
  destruct (exec_refines p o Hwf) as (p1 & r & -> & Hw1 & Hs1). cbn [mbind option_bind fst snd].
  destruct (IH p1 Hw1) as (p2 & rs & -> & Hw2 & Hs2). do 2 eexists.
  split_and!; [done|done|]. by apply (spec_cons _ _ (contents p1)).
Qed.

Lemma iter_live_from_spec p ids :
  wf p → (∀ i, i ∈ ids → 0 ≤ i < slot_count p) → iter_live_from p ids = Some (live_of p ids).
Proof.
  intros Hwf. induction ids as [|i ids IH]; intros Hids; [done|]. cbn [iter_live_from].
  assert (0 ≤ i < slot_count p) as Hi by (apply Hids; left).
  rw (get_slot_contents p Hwf); [lia|]. cbn [mbind option_bind].
  rw IH; [intros j Hj; apply Hids; by right|]. cbn [mbind option_bind].
  rw lookup_contents Z2Nat.id; [lia|]. rw decide_True; [lia|]. cbn [default].
  unfold live_of. cbn [omap list_omap]. by destruct (content p (entry_at p i)).
Qed.

(** ** Properties *)

(** C16: every sequence of page operations started on a fresh page runs without
    a panic, keeps the page invariant, refines the abstract slot list
    (allocation appends, deletion kills, update replaces, compaction changes
    nothing visible), and [get_slot] afterwards reads exactly that list. *)
Theorem page_refinement i os :
  ∃ p rs, exec_all (new i) os = Some (p, rs) ∧ wf p ∧ spec_steps [] os (contents p) rs ∧
          ∀ k : nat, get_slot p (Z.of_nat k) = Some (default None (contents p !! k)).
Proof.
  destruct (new_wf i) as [Hw _].
  destruct (exec_all_refines os (new i) Hw) as (p & rs & Hrun & Hwf & Hs).
  rw new_contents in Hs. exists p, rs. split_and!; [done..|].
  intros k. rw (get_slot_contents p Hwf); [lia|]. by rw Nat2Z.id.
Qed.

(** compaction never panics, changes no slot, and leaves exactly the room
    that the directory and the live tuples do not need. *)
Theorem compact_reclaims p (Hwf : wf p) :
  ∃ p', compact p = Some p' ∧ wf p' ∧ contents p' = contents p ∧
        free_space p' = room (contents p).
Proof.
  destruct (compact_refines p Hwf) as (p' & Hrun & Hcp). exists p'.
  pose proof (compacted_room p p' Hwf Hcp). by destruct Hcp.
Qed.

Lemma compact_reclaims_witness :
  ∃ p', compact (new 3) = Some p' ∧ wf p' ∧ contents p' = contents (new 3) ∧
        free_space p' = room (contents (new 3)).
Proof. apply (compact_reclaims (new 3)). apply new_wf. Defined.

(** an allocation succeeds exactly when the tuple and its directory entry
    fit into the free space; it then returns the next slot id and appends the
    tuple, and otherwise it returns an error and leaves the page as it was. *)
Theorem alloc_slot_spec p d (Hwf : wf p) :
  if zlen d + SLOT_ENTRY_SIZE <=? free_space p
  then ∃ p', alloc_slot p d = Some (p', Ok (slot_count p)) ∧ wf p' ∧
             contents p' = contents p ++ [Some d]
  else ∃ e, alloc_slot p d = Some (p, Err e).
Proof.
  case_bool; [by apply alloc_refines|by apply alloc_full].
Qed.

Lemma alloc_slot_spec_witness :
  if zlen [104; 105] + SLOT_ENTRY_SIZE <=? free_space (new 1)
  then ∃ p', alloc_slot (new 1) [104; 105] = Some (p', Ok (slot_count (new 1))) ∧ wf p' ∧
             contents p' = contents (new 1) ++ [Some [104; 105]]
  else ∃ e, alloc_slot (new 1) [104; 105] = Some (new 1, Err e).
Proof. apply (alloc_slot_spec (new 1) [104; 105]). apply new_wf. Defined.

(** [iter_live] lists the live slots in slot order, each with its tuple,
    and skips the dead ones. *)
Theorem iter_live_spec p (Hwf : wf p) :
  ∃ l, iter_live p = Some l ∧ NoDup l.*1 ∧
       ∀ (k : nat) d, (Z.of_nat k, d) ∈ l ↔ contents p !! k = Some (Some d).
Proof.
  exists (live_of p (seqZ 0 (slot_count p))). split_and!.
  - apply iter_live_from_spec; [done|]. intros j Hj%elem_of_seqZ. lia.
  - apply NoDup_live_of, NoDup_seqZ.
  - intros k d. rw elem_of_live_of elem_of_seqZ lookup_contents. case_decide; [|naive_solver lia].
    split; [by intros [_ ->]|]. intros [= ->]. split; [lia|done].
Qed.

Lemma iter_live_spec_witness :
  ∃ l, iter_live (new 9) = Some l ∧ NoDup l.*1 ∧
       ∀ (k : nat) d, (Z.of_nat k, d) ∈ l ↔ contents (new 9) !! k = Some (Some d).
Proof. apply (iter_live_spec (new 9)). apply new_wf. Defined.

(** A run that fragments the page, fills it, and forces an update to compact. *)
Example update_compacts :
  (r ← exec_all (new 1)
         [OpAlloc (replicate 4000%nat 1); OpAlloc (replicate 4000%nat 2); OpAlloc [3; 3];
          OpDelete 0; OpUpdate 2 (replicate 200%nat 4)];
   Some (r.2, get_slot r.1 2))
  = Some ([Ok (Some 0); Ok (Some 1); Ok (Some 2); Ok None; Ok None],
          Some (Some (replicate 200%nat 4))).
Proof. vm_compute. reflexivity. Qed.

End Page.
