(* ===== verification/Value.v ===== *)
(** The values of [bytedb-core/src/tuple/value.rs]: data types, accessors and
    the two comparison functions.

    A [Text] is kept as its UTF-8 bytes, a [Float64] as its 64-bit pattern, and
    the JSON type of [serde_json] is a parameter [J]. An arithmetic overflow is
    a panic, the [None] of an outer [option]. *)
From S2P Require Import Prelude ByteOrder.

Module Value.

Inductive DataType : Type :=
  | TBool | TInt64 | TFloat64 | TText | TBytes | TJson | TTimestamp | TDate | TDecimal | TUuid | TInterval.

#[export] Instance DataType_eq_dec : EqDecision DataType.
Proof. solve_decision. Defined.

(** [impl Display for DataType]. *)
Definition DataType_to_string (d : DataType) : string :=
  match d with
  | TBool => "BOOL" | TInt64 => "INT" | TFloat64 => "FLOAT" | TText => "TEXT" | TBytes => "BYTES"
  | TJson => "JSON" | TTimestamp => "TIMESTAMP" | TDate => "DATE" | TDecimal => "DECIMAL"
  | TUuid => "UUID" | TInterval => "INTERVAL"
  end.

Inductive Value (J : Type) : Type :=
  | Null
  | Bool (b : bool)
  | Int64 (n : Z)
  | Float64 (bits : Z)
  | Text (s : list Z)
  | Bytes (b : list Z)
  | Json (j : J)
  | Timestamp (t : Z)
  | Date (d : Z)
  | Decimal (m scale : Z)
  | Uuid (b : list Z)
  | Interval (us : Z).
Arguments Null {J}.
Arguments Bool {J} b.
Arguments Int64 {J} n.
Arguments Float64 {J} bits.
Arguments Text {J} s.
Arguments Bytes {J} b.
Arguments Json {J} j.
Arguments Timestamp {J} t.
Arguments Date {J} d.
Arguments Decimal {J} m scale.
Arguments Uuid {J} b.
Arguments Interval {J} us.

(** Signed machine integers. *)
Definition i32_ok (z : Z) : Prop := - 2 ^ 31 ≤ z < 2 ^ 31.
Definition i64_ok (z : Z) : Prop := - 2 ^ 63 ≤ z < 2 ^ 63.
Definition i128_ok (z : Z) : Prop := - 2 ^ 127 ≤ z < 2 ^ 127.

#[export] Instance i32_ok_dec z : Decision (i32_ok z).
Proof. unfold i32_ok. apply _. Defined.
#[export] Instance i64_ok_dec z : Decision (i64_ok z).
Proof. unfold i64_ok. apply _. Defined.
#[export] Instance i128_ok_dec z : Decision (i128_ok z).
Proof. unfold i128_ok. apply _. Defined.

(** What the Rust types of the payloads guarantee. *)
Definition value_ok {J} (v : Value J) : Prop :=
  match v with
  | Null | Bool _ | Json _ => True
  | Int64 n | Timestamp n | Interval n => i64_ok n
  | Float64 f => 0 ≤ f < 2 ^ 64
  | Text s | Bytes s => bytes_ok s
  | Date d => i32_ok d
  | Decimal m s => i128_ok m ∧ byte_ok s
  | Uuid b => bytes_ok b ∧ length b = 16%nat
  end.

(** ** 64-bit floats *)

(** [f64::is_nan]: all exponent bits set and a mantissa. *)
Definition f64_nan (f : Z) : bool := 2047 * 2 ^ 52 <? f mod 2 ^ 63.

(** The sign and magnitude of the pattern as one integer: for two patterns
    that are not NaN it orders as the numbers do, and both zeros are 0. *)
Definition f64_key (f : Z) : Z := if f <? 2 ^ 63 then f else 2 ^ 63 - f.

(** [f64::partial_cmp]. *)
Definition f64_cmp (a b : Z) : option comparison :=
  if f64_nan a || f64_nan b then None else Some (f64_key a ?= f64_key b).

(** [n as f64]: the nearest double, ties to even. *)
Definition i64_as_f64 (n : Z) : Z :=
  if n =? 0 then 0
  else
    let a := Z.abs n in
    let e := Z.log2 a in
    let m :=
      if e <=? 52 then a * 2 ^ (52 - e)
      else
        let s := e - 52 in
        let q := a / 2 ^ s in
        let r := a mod 2 ^ s in
        let half := 2 ^ (s - 1) in
        if (half <? r) || ((r =? half) && Z.odd q) then q + 1 else q in
    (* a mantissa of 2^53 carries into the exponent *)
    (if n <? 0 then 2 ^ 63 else 0) + (e + 1023) * 2 ^ 52 + (m - 2 ^ 52).

(** ** Decimals *)

(** [10i128.pow(k)]. *)
Definition pow10 (k : Z) : option Z :=
  let r := 10 ^ k in if bool_decide (i128_ok r) then Some r else None.

(** [i128::checked_mul] and [i128::saturating_mul]. *)
Definition checked_mul128 (a b : Z) : option Z :=
  if bool_decide (i128_ok (a * b)) then Some (a * b) else None.
Definition saturating_mul128 (a b : Z) : Z := Z.max (- 2 ^ 127) (Z.min (2 ^ 127 - 1) (a * b)).

Definition decimal_align (a sa b sb : Z) : option (Z * Z) :=
  if sa =? sb then Some (a, b)
  else if sa <? sb then mul ← pow10 (sb - sa); Some (saturating_mul128 a mul, b)
  else mul ← pow10 (sa - sb); Some (a, saturating_mul128 b mul).

Section values.
Context {J : Type}.
Implicit Types a b v : Value J.

Definition data_type v : option DataType :=
  match v with
  | Null => None
  | Bool _ => Some TBool
  | Int64 _ => Some TInt64
  | Float64 _ => Some TFloat64
  | Text _ => Some TText
  | Bytes _ => Some TBytes
  | Json _ => Some TJson
  | Timestamp _ => Some TTimestamp
  | Date _ => Some TDate
  | Decimal _ _ => Some TDecimal
  | Uuid _ => Some TUuid
  | Interval _ => Some TInterval
  end.

Definition is_null v : bool := match v with Null => true | _ => false end.
Definition as_i64 v : option Z := match v with Int64 n => Some n | _ => None end.
Definition as_f64 v : option Z :=
  match v with Float64 f => Some f | Int64 n => Some (i64_as_f64 n) | _ => None end.
Definition as_text v : option (list Z) := match v with Text s => Some s | _ => None end.
Definition as_bool v : option bool := match v with Bool b => Some b | _ => None end.

Definition bool_cmp (x y : bool) : comparison :=
  match x, y with false, true => Lt | true, false => Gt | _, _ => Eq end.

(** [compare]: the outer [None] is a panic, the inner one an undefined order. *)
Definition compare a b : option (option comparison) :=
  match a, b with
  | Null, Null => Some (Some Eq)
  | Null, _ => Some (Some Lt)
  | _, Null => Some (Some Gt)
  | Bool x, Bool y => Some (Some (bool_cmp x y))
  | Int64 x, Int64 y => Some (Some (x ?= y))
  | Int64 x, Float64 y => Some (f64_cmp (i64_as_f64 x) y)
  | Float64 x, Int64 y => Some (f64_cmp x (i64_as_f64 y))
  | Float64 x, Float64 y => Some (f64_cmp x y)
  | Text x, Text y => Some (Some (bcmp x y))
  | Bytes x, Bytes y => Some (Some (bcmp x y))
  | Timestamp x, Timestamp y => Some (Some (x ?= y))
  | Date x, Date y => Some (Some (x ?= y))
  | Uuid x, Uuid y => Some (Some (bcmp x y))
  | Decimal x sx, Decimal y sy =>
      '(nx, ny) ← decimal_align x sx y sy; Some (Some (nx ?= ny))
  | Decimal x sx, Int64 y =>
      scale ← pow10 sx;
      Some (yy ← checked_mul128 y scale; Some (x ?= yy))
  | Int64 x, Decimal y sy =>
      scale ← pow10 sy;
      Some (xx ← checked_mul128 x scale; Some (xx ?= y))
  | _, _ => Some None
  end.

(** [cmp_fast]. *)
Definition cmp_fast a b : option comparison :=
  match a, b with
  | Null, Null => Some Eq
  | Null, _ => Some Lt
  | _, Null => Some Gt
  | Int64 x, Int64 y => Some (x ?= y)
  | Int64 x, Float64 y => Some (default Eq (f64_cmp (i64_as_f64 x) y))
  | Float64 x, Int64 y => Some (default Eq (f64_cmp x (i64_as_f64 y)))
  | Float64 x, Float64 y => Some (default Eq (f64_cmp x y))
  | Text x, Text y => Some (bcmp x y)
  | Bool x, Bool y => Some (bool_cmp x y)
  | Bytes x, Bytes y => Some (bcmp x y)
  | Timestamp x, Timestamp y => Some (x ?= y)
  | Date x, Date y => Some (x ?= y)
  | Uuid x, Uuid y => Some (bcmp x y)
  | Interval x, Interval y => Some (x ?= y)
  | Decimal x sx, Decimal y sy => '(nx, ny) ← decimal_align x sx y sy; Some (nx ?= ny)
  | _, _ => Some Eq
  end.

(** [impl PartialEq for Value]. *)
Definition value_eq a b : option bool :=
  o ← compare a b; Some (bool_decide (o = Some Eq)).

(** A decimal against an integer. *)
Definition decimal_int a b : bool :=
  match a, b with Decimal _ _, Int64 _ | Int64 _, Decimal _ _ => true | _, _ => false end.

(** [cmp_fast] is [compare] with the undefined orders made equal: where
    [compare] orders two values [cmp_fast] gives the same order, except that a
    decimal and an integer always come out equal. *)
Theorem cmp_fast_compare a b o :
  compare a b = Some (Some o) → cmp_fast a b = Some (if decimal_int a b then Eq else o).
Proof.
  destruct a, b; simpl; intros Hc; try (by simplify_eq); try (by destruct (f64_cmp _ _); simplify_eq/=).
  destruct (decimal_align _ _ _ _) as [[nx ny]|]; simplify_eq/=. done.
Qed.

End values.

Lemma cmp_fast_compare_witness :
  @cmp_fast unit (Decimal 150 2) (Int64 2) = Some Eq ∧ @cmp_fast unit (Decimal 150 2) (Decimal 15 1) = Some Eq.
Proof.
  split.
  - apply (cmp_fast_compare (Decimal 150 2) (Int64 2) Lt). by vm_compute.
  - apply (cmp_fast_compare (Decimal 150 2) (Decimal 15 1) Eq). by vm_compute.
Defined.

(** Two intervals are never equal for [PartialEq], not even an interval
    and itself, while [cmp_fast] orders them by their length. *)
Theorem interval_never_equal {J} x y :
  value_eq (J := J) (Interval x) (Interval y) = Some false ∧
  cmp_fast (J := J) (Interval x) (Interval y) = Some (x ?= y).
Proof. done. Qed.

End Value.
