(* ===== verification/OrderKey.v ===== *)
(** The order-preserving key encoding of [bytedb-core/src/index/order_key.rs]. *)
From S2P Require Import Prelude ByteOrder Value.
Import Value.

Module OrderKey.

(** [serde_json]'s printer. *)
Class JsonShow (J : Type) : Type := json_to_string : J → list Z.

(** [encode_var]. *)
Definition encode_var (bytes : list Z) : list Z :=
  (bytes ≫= λ b, if b =? 0 then [0; 255] else [b]) ++ [0; 0].

(** [(n as uW) ^ (1 << (W - 1))] for a signed [n]. *)
Definition flip_sign (w n : Z) : Z := Z.lxor (wrap w n) (Z.shiftl 1 (w - 1)).

(** The bits of a float, ordered. *)
Definition f64_ordered (bits : Z) : Z :=
  if negb (Z.land bits (Z.shiftl 1 63) =? 0) then wrap 64 (Z.lnot bits)
  else Z.lor bits (Z.shiftl 1 63).

Section encode.
Context {J : Type} `{!JsonShow J}.
Implicit Types v : Value J.

Definition encode_body v : list Z :=
  match v with
  | Null => []
  | Bool b => [if b then 1 else 0]
  | Int64 n => be_bytes 8 (flip_sign 64 n)
  | Timestamp n => be_bytes 8 (flip_sign 64 n)
  | Interval n => be_bytes 8 (flip_sign 64 n)
  | Date d => be_bytes 4 (flip_sign 32 d)
  | Float64 f => be_bytes 8 (f64_ordered f)
  | Decimal m _ => be_bytes 16 (flip_sign 128 m)
  | Uuid b => b
  | Text s => encode_var s
  | Json j => encode_var (json_to_string j)
  | Bytes b => encode_var b
  end.

Definition encode_one v : list Z :=
  match v with Null => [0] | _ => 1 :: encode_body v end.

Definition encode_okey_into (values : list (Value J)) (buf : list Z) : list Z :=
  buf ++ (values ≫= encode_one).

Definition encode_okey (values : list (Value J)) : list Z := encode_okey_into values [].
End encode.

(** ** Comparing encodings piece by piece *)

(** Lexicographic composition. *)
Definition then_cmp (o p : comparison) : comparison := match o with Eq => p | _ => o end.

Lemma bcmp_cons a b x y : bcmp (a :: x) (b :: y) = then_cmp (a ?= b) (bcmp x y).
Proof. cbn [bcmp]. by destruct (a ?= b). Qed.

Lemma be_bytes_succ n z : be_bytes (S n) z = be_bytes n (z / 256) ++ [z mod 256].
Proof. unfold be_bytes. cbn [le_bytes]. by rw reverse_cons. Qed.

Lemma div_mod_compare a b :
  (a ?= b) = then_cmp (a / 256 ?= b / 256) (a mod 256 ?= b mod 256).
Proof.
  pose proof (Z.div_mod a 256). pose proof (Z.div_mod b 256).
  pose proof (Z.mod_pos_bound a 256). pose proof (Z.mod_pos_bound b 256).
  destruct (Z.compare_spec a b), (Z.compare_spec (a / 256) (b / 256)), (Z.compare_spec (a mod 256) (b mod 256));
    simpl; try done; lia.
Qed.

(** Big-endian encodings of one width compare as the numbers. *)
Lemma bcmp_be n a b x y :
  0 ≤ a < 256 ^ Z.of_nat n → 0 ≤ b < 256 ^ Z.of_nat n →
  bcmp (be_bytes n a ++ x) (be_bytes n b ++ y) = then_cmp (a ?= b) (bcmp x y).
Proof.
  revert a b x y. induction n as [|n IH]; intros a b x y Ha Hb.
  { simpl in Ha, Hb. assert (a = 0) as -> by lia. by assert (b = 0) as -> by lia. }
  rw pow256_succ in Ha, Hb. rw !be_bytes_succ -!app_assoc.
  rw IH; [split; [apply Z.div_pos; lia|apply Z.div_lt_upper_bound; lia]..|].
  cbn [app]. rw bcmp_cons (div_mod_compare a b). by destruct (a / 256 ?= b / 256).
Qed.

Lemma land_pow2 k x : 0 ≤ k → 0 ≤ x < 2 ^ k → Z.land x (2 ^ k) = 0.
Proof.
  intros Hk Hx. apply Z.bits_inj'. intros i Hi.
  rw Z.land_spec Z.bits_0 Z.pow2_bits_eqb; [lia|].
  destruct (Z.eqb_spec k i) as [<-|]; [|by rw andb_false_r].
  rw andb_true_r. destruct (decide (x = 0)) as [->|]; [apply Z.bits_0|].
  apply Z.bits_above_log2; [lia|]. apply Z.log2_lt_pow2; lia.
Qed.

Lemma lxor_pow2 k x : 0 ≤ k → 0 ≤ x < 2 ^ k → Z.lxor x (2 ^ k) = x + 2 ^ k.
Proof. intros. rw Z.add_nocarry_lxor; [|done]. by apply land_pow2. Qed.

(** Flipping the sign bit shifts the signed range onto the unsigned one. *)
Lemma flip_sign_spec w n :
  0 < w → - 2 ^ (w - 1) ≤ n < 2 ^ (w - 1) → flip_sign w n = n + 2 ^ (w - 1).
Proof.
  intros Hw Hn. unfold flip_sign, wrap. rw Z.shiftl_mul_pow2; [lia|]. rw Z.mul_1_l.
  assert (2 ^ w = 2 * 2 ^ (w - 1)) as Hp.
  { rw -Z.pow_succ_r; [lia|]. f_equal. lia. }
  destruct (Z.leb_spec 0 n).
  - rw Z.mod_small; [lia|]. apply lxor_pow2; lia.
  - assert (n mod 2 ^ w = (n + 2 ^ (w - 1)) + 2 ^ (w - 1)) as ->.
    { rw (Z.mod_eq n (2 ^ w)); [lia|]. assert (n / 2 ^ w = -1) as ->; [|lia].
      symmetry. apply (Z.div_unique n (2 ^ w) (-1) (n + 2 ^ w)); lia. }
    rw -lxor_pow2; [lia..|]. by rw Z.lxor_assoc Z.lxor_nilpotent Z.lxor_0_r.
Qed.

Lemma bcmp_flip w n a b x y :
  0 < w → 2 ^ w = 256 ^ Z.of_nat n →
  - 2 ^ (w - 1) ≤ a < 2 ^ (w - 1) → - 2 ^ (w - 1) ≤ b < 2 ^ (w - 1) →
  bcmp (be_bytes n (flip_sign w a) ++ x) (be_bytes n (flip_sign w b) ++ y) =
    then_cmp (a ?= b) (bcmp x y).
Proof.
  intros Hw Hn Ha Hb. rw !flip_sign_spec; [lia..|].
  assert (2 ^ w = 2 * 2 ^ (w - 1)) as Hp.
  { rw -Z.pow_succ_r; [lia|]. f_equal. lia. }
  rw bcmp_be; [lia..|]. f_equal.
  destruct (Z.compare_spec a b), (Z.compare_spec (a + 2 ^ (w - 1)) (b + 2 ^ (w - 1))); try done; lia.
Qed.

(** The terminator makes a variable part stop before anything that continues
    it: no part is a prefix of another, and they compare as the bytes do. *)
Lemma bcmp_var s t x y :
  bytes_ok s → bytes_ok t →
  bcmp (encode_var s ++ x) (encode_var t ++ y) = then_cmp (bcmp s t) (bcmp x y).
Proof.
  unfold encode_var. intros Hs. revert t. induction Hs as [|a s Ha Hs IH]; intros t Ht.
  - destruct Ht as [|b t Hb Ht]; [done|]. unfold byte_ok in Hb. cbn.
    destruct (Z.eqb_spec b 0) as [->|]; [done|]. cbn. destruct b; try done; lia.
  - destruct Ht as [|b t Hb Ht]; unfold byte_ok in *; cbn [mbind list_bind].
    + destruct (Z.eqb_spec a 0) as [->|]; [done|]. cbn. destruct a; try done; lia.
    + specialize (IH t Ht). rw -!app_assoc. rw -!app_assoc in IH.
      cbn [bcmp]. destruct (Z.eqb_spec a 0) as [->|], (Z.eqb_spec b 0) as [->|]; cbn [app bcmp].
      * by rw !Z.compare_refl.
      * destruct (Z.compare_spec 0 b); try done; lia.
      * destruct (Z.compare_spec a 0); try done; lia.
      * destruct (Z.compare_spec a b); try done.
Qed.

Lemma bcmp_fixed s t x y :
  length s = length t → bcmp (s ++ x) (t ++ y) = then_cmp (bcmp s t) (bcmp x y).
Proof.
  revert t. induction s as [|a s IH]; intros [|b t] Hl; simplify_eq/=; [done|].
  rw IH; [done|]. by destruct (a ?= b).
Qed.

(** ** Floats *)

Lemma f64_ordered_spec f :
  0 ≤ f < 2 ^ 64 →
  0 ≤ f64_ordered f < 2 ^ 64 ∧
  f64_ordered f = (if f <? 2 ^ 63 then f64_key f + 2 ^ 63 else f64_key f + 2 ^ 63 - 1).
Proof.
  intros Hf. unfold f64_ordered, f64_key. rw Z.shiftl_mul_pow2; [lia|]. rw Z.mul_1_l.
  destruct (Z.ltb_spec f (2 ^ 63)) as [Hlt|Hge].
  - assert (Z.land f (2 ^ 63) = 0) as Hl by (apply land_pow2; lia). rw Hl. cbn [negb Z.eqb].
    rw -Z.lxor_lor; [done|]. rw lxor_pow2; lia.
  - destruct (Z.eqb_spec (Z.land f (2 ^ 63)) 0) as [Hl|_].
    { exfalso. assert (Z.testbit (Z.land f (2 ^ 63)) 63 = true) as Ht; [|by rw Hl in Ht].
      rw Z.land_spec Z.pow2_bits_true; [lia|]. rw andb_true_r. apply Z.testbit_true; [lia|].
      assert (f / 2 ^ 63 = 1) as ->; [|done].
      symmetry. apply (Z.div_unique f (2 ^ 63) 1 (f - 2 ^ 63)); lia. }
    cbn [negb]. unfold wrap, Z.lnot.
    assert (Z.pred (- f) mod 2 ^ 64 = 2 ^ 64 - 1 - f) as ->; [|lia].
    symmetry. apply (Z.mod_unique (Z.pred (- f)) (2 ^ 64) (-1)); lia.
Qed.

Lemma bcmp_float f g x y :
  0 ≤ f < 2 ^ 64 → 0 ≤ g < 2 ^ 64 → (f = g ∨ f64_key f ≠ 0 ∨ f64_key g ≠ 0) →
  bcmp (be_bytes 8 (f64_ordered f) ++ x) (be_bytes 8 (f64_ordered g) ++ y) =
    then_cmp (f64_key f ?= f64_key g) (bcmp x y).
Proof.
  intros Hf Hg Hz. destruct (f64_ordered_spec f Hf) as [Hfr Hfo], (f64_ordered_spec g Hg) as [Hgr Hgo].
  rw bcmp_be; [exact Hfr|exact Hgr|]. f_equal. rw Hfo Hgo.
  assert (∀ h, f64_key h = if h <? 2 ^ 63 then h else 2 ^ 63 - h) as Hk by done.
  pose proof (Hk f) as Hkf. pose proof (Hk g) as Hkg.
  destruct (Z.ltb_spec f (2 ^ 63)), (Z.ltb_spec g (2 ^ 63));
    destruct (Z.compare_spec (f64_key f) (f64_key g)); apply Z.compare_eq_iff || apply Z.compare_lt_iff || apply Z.compare_gt_iff; lia.
Qed.

(** ** The encoding preserves order *)

Section order.
Context {J : Type} `{!JsonShow J}.
Implicit Types a b v : Value J.

(** Values a key column can hold together: one type, or NULL; decimals of one
    scale; floats that are numbers, and not the two zeros. *)
Definition comparable a b : Prop :=
  match a, b with
  | Null, _ | _, Null => True
  | Bool _, Bool _ | Int64 _, Int64 _ | Timestamp _, Timestamp _ | Date _, Date _
  | Interval _, Interval _ | Uuid _, Uuid _ | Text _, Text _ | Bytes _, Bytes _ => True
  | Float64 f, Float64 g =>
      f64_nan f = false ∧ f64_nan g = false ∧ (f = g ∨ f64_key f ≠ 0 ∨ f64_key g ≠ 0)
  | Decimal _ s, Decimal _ t => s = t
  | _, _ => False
  end.

#[export] Instance comparable_dec a b : Decision (comparable a b).
Proof. destruct a, b; simpl; apply _. Defined.

(** Column by column, the first difference decides. *)
Fixpoint lex_cmp (vs ws : list (Value J)) : option comparison :=
  match vs, ws with
  | v :: vs', w :: ws' =>
      o ← cmp_fast v w; if o is Eq then lex_cmp vs' ws' else Some o
  | _, _ => Some Eq
  end.

Lemma encode_one_cmp a b o x y :
  value_ok a → value_ok b → comparable a b → cmp_fast a b = Some o →
  bcmp (encode_one a ++ x) (encode_one b ++ y) = then_cmp o (bcmp x y).
Proof.
  intros Ha Hb Hc Ho.
  destruct a, b; simpl in Hc; try done; cbn [cmp_fast] in Ho; try (by injection Ho as <-);
    cbn [encode_one encode_body app]; rw bcmp_cons Z.compare_refl; cbn [then_cmp];
    cbn [value_ok] in Ha, Hb; unfold i64_ok, i32_ok, i128_ok in *.
  - injection Ho as <-. by destruct b0, b.
  - injection Ho as <-. by apply (bcmp_flip 64 8).
  - destruct Hc as (Hn1 & Hn2 & Hz). unfold f64_cmp in Ho. rw Hn1 Hn2 in Ho. injection Ho as <-.
    by apply bcmp_float.
  - injection Ho as <-. by apply bcmp_var.
  - injection Ho as <-. by apply bcmp_var.
  - injection Ho as <-. by apply (bcmp_flip 64 8).
  - injection Ho as <-. by apply (bcmp_flip 32 4).
  - subst. unfold decimal_align in Ho. rw Z.eqb_refl in Ho. injection Ho as <-.
    apply (bcmp_flip 128 16); [done|done|apply Ha|apply Hb].
  - injection Ho as <-. apply bcmp_fixed. lia.
  - injection Ho as <-. by apply (bcmp_flip 64 8).
Qed.

Lemma encode_okey_cmp vs ws o x y :
  Forall value_ok vs → Forall value_ok ws → Forall2 comparable vs ws → lex_cmp vs ws = Some o →
  bcmp (encode_okey vs ++ x) (encode_okey ws ++ y) = then_cmp o (bcmp x y).
Proof.
  unfold encode_okey, encode_okey_into. cbn [app]. intros Hvs Hws Hc. revert o Hvs Hws.
  induction Hc as [|v w vs ws Hvw Hc IH]; intros o Hvs Hws Ho; [by injection Ho as <-|].
  apply Forall_cons in Hvs as [Hv Hvs]. apply Forall_cons in Hws as [Hw Hws].
  simpl in Ho. destruct (cmp_fast v w) as [o1|] eqn:Ho1; [|done]. cbn in Ho.
  cbn [mbind list_bind]. rw -!app_assoc (encode_one_cmp v w o1 _ _ Hv Hw Hvw Ho1).
  destruct o1; [|by injection Ho as <-..]. by apply IH.
Qed.

(** *** The order of the keys

    What the encoding compares, for two values of one type: NULL comes first, floats
    come in the total order of IEEE 754 (the negative zero before the other one, NaNs
    at the ends), JSON values as their texts, and decimals as their mantissas, whatever
    their scales are. *)

Definition same_type a b : Prop :=
  match a, b with
  | Null, _ | _, Null => True
  | Bool _, Bool _ | Int64 _, Int64 _ | Timestamp _, Timestamp _ | Date _, Date _ | Interval _, Interval _ | Uuid _, Uuid _
  | Text _, Text _ | Bytes _, Bytes _ | Float64 _, Float64 _ | Decimal _ _, Decimal _ _ | Json _, Json _ => True
  | _, _ => False
  end.

(** The sign and magnitude of a pattern as one integer, with two zeros. *)
Definition f64_total (f : Z) : Z := if f <? 2 ^ 63 then f else 2 ^ 63 - 1 - f.

Definition key_cmp a b : comparison :=
  match a, b with
  | Null, Null => Eq
  | Null, _ => Lt
  | _, Null => Gt
  | Bool x, Bool y => bool_cmp x y
  | Int64 x, Int64 y | Timestamp x, Timestamp y | Date x, Date y | Interval x, Interval y | Decimal x _, Decimal y _ => x ?= y
  | Float64 f, Float64 g => f64_total f ?= f64_total g
  | Uuid x, Uuid y | Text x, Text y | Bytes x, Bytes y => bcmp x y
  | Json i, Json j => bcmp (json_to_string i) (json_to_string j)
  | _, _ => Eq
  end.

Fixpoint lex_key_cmp (vs ws : list (Value J)) : comparison :=
  match vs, ws with v :: vs', w :: ws' => then_cmp (key_cmp v w) (lex_key_cmp vs' ws') | _, _ => Eq end.

(** A value whose numbers fit their fields; the text of a JSON value is made of bytes. *)
Definition key_ok v : Prop := value_ok v ∧ match v with Json j => bytes_ok (json_to_string j) | _ => True end.

Lemma bcmp_total f g x y : 0 ≤ f < 2 ^ 64 → 0 ≤ g < 2 ^ 64 →
  bcmp (be_bytes 8 (f64_ordered f) ++ x) (be_bytes 8 (f64_ordered g) ++ y) = then_cmp (f64_total f ?= f64_total g) (bcmp x y).
Proof.
  intros Hf Hg. destruct (f64_ordered_spec f Hf) as [Hfr Hfo], (f64_ordered_spec g Hg) as [Hgr Hgo].
  rw bcmp_be; [exact Hfr|exact Hgr|]. f_equal. rw Hfo Hgo. unfold f64_total, f64_key.
  destruct (Z.ltb_spec f (2 ^ 63)), (Z.ltb_spec g (2 ^ 63));
    match goal with |- (?a ?= ?b) = (?c ?= ?d) => destruct (Z.compare_spec a b), (Z.compare_spec c d); try done; lia end.
Qed.

Lemma encode_one_key a b x y : key_ok a → key_ok b → same_type a b →
  bcmp (encode_one a ++ x) (encode_one b ++ y) = then_cmp (key_cmp a b) (bcmp x y).
Proof.
  intros [Ha Hja] [Hb Hjb] Ht. destruct a, b; simpl in Ht; try done; cbn [encode_one encode_body app key_cmp]; rw bcmp_cons Z.compare_refl;
    cbn [then_cmp]; cbn [value_ok] in Ha, Hb; unfold i64_ok, i32_ok, i128_ok in *.
  - by destruct b0, b.
  - by apply (bcmp_flip 64 8).
  - by apply bcmp_total.
  - by apply bcmp_var.
  - by apply bcmp_var.
  - by apply bcmp_var.
  - by apply (bcmp_flip 64 8).
  - by apply (bcmp_flip 32 4).
  - apply (bcmp_flip 128 16); [done|done|apply Ha|apply Hb].
  - apply bcmp_fixed. lia.
  - by apply (bcmp_flip 64 8).
Qed.

(** Where the values are comparable, the order of the keys is that of the values. *)
Lemma key_cmp_fast a b : value_ok a → value_ok b → comparable a b → cmp_fast a b = Some (key_cmp a b).
Proof.
  intros Ha Hb Hc. destruct a, b; simpl in Hc; try done.
  - destruct Hc as (Hn1 & Hn2 & Hz). cbn [cmp_fast key_cmp]. unfold f64_cmp. rw Hn1 Hn2. cbn [orb default from_option id]. f_equal.
    cbn [value_ok] in Ha, Hb. unfold f64_total, f64_key in *.
    destruct (Z.ltb_spec bits (2 ^ 63)), (Z.ltb_spec bits0 (2 ^ 63));
      match goal with |- (?a ?= ?b) = (?c ?= ?d) => destruct (Z.compare_spec a b), (Z.compare_spec c d); try done; lia end.
  - subst. cbn [cmp_fast key_cmp]. unfold decimal_align. by rw Z.eqb_refl.
Qed.

(** C21: Encoded keys of rows whose columns have one type each compare column by
    column: as [key_cmp] says for all such rows, decimals by their mantissas only; and
    as the values compare ([cmp_fast]) if the decimals of a column have one scale, and
    it has no NaN, no negative zero beside the other one, and no JSON. *)
Theorem encode_okey_order vs ws :
  Forall key_ok vs → Forall key_ok ws → Forall2 same_type vs ws →
  bcmp (encode_okey vs) (encode_okey ws) = lex_key_cmp vs ws ∧
  (Forall2 comparable vs ws → lex_cmp vs ws = Some (lex_key_cmp vs ws)).
Proof.
  unfold encode_okey, encode_okey_into. cbn [app]. intros Hv Hw Ht. split.
  - revert Hv Hw. induction Ht as [|v w vs ws Hvw _ IH]; intros Hv Hw; [done|]. apply Forall_cons in Hv as [Hv Hvs]. apply Forall_cons in Hw as [Hw Hws].
    cbn [mbind list_bind lex_key_cmp]. rw (encode_one_key v w _ _ Hv Hw Hvw). f_equal. by apply IH.
  - intros Hc. revert Hv Hw. clear Ht. induction Hc as [|v w vs ws Hvw _ IH]; intros Hv Hw; [done|].
    apply Forall_cons in Hv as [[Hv _] Hvs]. apply Forall_cons in Hw as [[Hw _] Hws]. cbn [lex_cmp lex_key_cmp]. rw (key_cmp_fast v w Hv Hw Hvw).
    cbn [mbind option_bind]. destruct (key_cmp v w); [by apply IH|done|done].
Qed.

(** The decimal 2 is written before 1.5, although it is greater; and 1 and 0.1 have
    the same key. *)
Theorem scale_not_in_key : let two : Value J := Decimal 2 0 in let fifteen : Value J := Decimal 15 1 in
  cmp_fast two fifteen = Some Gt ∧ bcmp (encode_okey [two]) (encode_okey [fifteen]) = Lt ∧
  cmp_fast (J := J) (Decimal 1 0) (Decimal 1 1) = Some Gt ∧ encode_okey (J := J) [Decimal 1 0] = encode_okey [Decimal 1 1].
Proof. by vm_compute. Qed.

(** The encoding is prefix-free: a key that starts with the encoding of a
    column list is the encoding of an equal list, whatever follows. *)
Theorem encode_okey_prefix_free vs ws x o :
  Forall value_ok vs → Forall value_ok ws → Forall2 comparable vs ws → lex_cmp vs ws = Some o →
  starts_with (encode_okey ws ++ x) (encode_okey vs) = true ↔ o = Eq.
Proof.
  intros Hv Hw Hc Ho. rw starts_with_true. split.
  - intros [y Hy]. pose proof (encode_okey_cmp vs ws o y x Hv Hw Hc Ho) as H.
    rw Hy bcmp_refl in H. by destruct o.
  - intros ->. pose proof (encode_okey_cmp vs ws Eq [] [] Hv Hw Hc Ho) as H.
    rw !app_nil_r in H. apply bcmp_eq in H. exists x. by rw H.
Qed.
End order.

#[local] Instance unit_show : JsonShow unit := λ _, [].

Lemma encode_okey_order_witness :
  let vs : list (Value unit) := [Text [97]; Decimal 15 1] in let ws := [Text [97]; Decimal 2 0] in
  bcmp (encode_okey vs) (encode_okey ws) = Gt ∧ (Forall2 comparable vs ws → lex_cmp vs ws = Some Gt).
Proof.
  apply (encode_okey_order [Text [97]; Decimal 15 1] [Text [97]; Decimal 2 0]); repeat constructor; done.
Defined.

Lemma encode_okey_prefix_free_witness :
  starts_with (encode_okey [Text (J := unit) [97; 0]; Null] ++ [5]) (encode_okey [Text [97; 0]; Null]) = true
    ↔ Eq = Eq.
Proof.
  apply encode_okey_prefix_free; [repeat constructor; done..| |by vm_compute].
  repeat constructor.
Defined.
End OrderKey.
