(* ===== verification/SecondaryIndex.v ===== *)
(** Secondary indexes ([bytedb-core/src/index/secondary.rs]): a B+Tree keyed by
    the encoded columns followed by the primary key. Everything is proved
    against the interface [KvTree]. *)
From S2P Require Import Prelude ByteOrder Value OrderKey BTreeSpec OrderedIndex.
Import Value OrderKey.

Module SecondaryIndex.

(** [prefix_successor]: the loop looks at the last byte, so it runs over the
    reversed prefix. *)
Fixpoint successor_rev (rev_out : list Z) : option (list Z) :=
  match rev_out with
  | [] => None
  | last :: rest => if last =? 255 then successor_rev rest else Some (reverse (last + 1 :: rest))
  end.

Definition prefix_successor (prefix : list Z) : option (list Z) := successor_rev (reverse prefix).

Section index.
Context {J T : Type} `{!JsonShow J} `{!KvTree T}.

Record SecondaryIndex : Type := mkIndex {
  name : string;
  columns : list nat;
  unique : bool;
  tree : T
}.

Definition new (nm : string) (cols : list nat) (uniq : bool) : SecondaryIndex :=
  mkIndex nm cols uniq (kt_new (nm +:+ "_sec") 128).

Definition key_prefix (col_values : list (Value J)) : list Z := encode_okey col_values.

Definition composite (col_values : list (Value J)) (pk : list Z) : list Z :=
  key_prefix col_values ++ pk.

Definition with_tree (ix : SecondaryIndex) (t : T) : SecondaryIndex :=
  mkIndex (name ix) (columns ix) (unique ix) t.

Definition insert (ix : SecondaryIndex) (col_values : list (Value J)) (pk : list Z)
    : option (SecondaryIndex * result unit) :=
  violated ←
    (if unique ix then
       existing ← kt_prefix_scan (tree ix) (key_prefix col_values);
       Some (existsb (λ kv, bool_decide (kv.2 ≠ pk)) existing)
     else Some false);
  if (violated : bool) then
    Some (ix, Err (Internal ("unique index " +:+ name ix +:+ " violated")))
  else
    t ← kt_insert (tree ix) (composite col_values pk) pk;
    Some (with_tree ix t, Ok tt).

Definition remove (ix : SecondaryIndex) (col_values : list (Value J)) (pk : list Z)
    : option (SecondaryIndex * result unit) :=
  '(t, _) ← kt_delete (tree ix) (composite col_values pk);
  Some (with_tree ix t, Ok tt).

Definition lookup_eq (ix : SecondaryIndex) (col_values : list (Value J)) : option (list (list Z)) :=
  entries ← kt_prefix_scan (tree ix) (key_prefix col_values);
  Some (entries.*2).

Definition lookup_range (ix : SecondaryIndex) (lo hi : option (Value J)) : option (list (list Z)) :=
  let start := match lo with Some v => encode_okey [v] | None => [] end in
  let stop :=
    match hi with
    | Some v => default [255] (prefix_successor (encode_okey [v]))
    | None => [255]
    end in
  entries ← kt_range_scan (tree ix) start stop;
  Some (entries.*2).

Definition len (ix : SecondaryIndex) : Z := kt_len (tree ix).
Definition is_empty (ix : SecondaryIndex) : bool := len ix =? 0.
End index.
Arguments SecondaryIndex T : clear implicits.

(** ** Column types *)

(** The type of an indexed column; decimals of one column have one scale. *)
Record ColType : Type := mkColType { ct_type : DataType; ct_scale : Z }.

Section typed.
Context {J : Type} `{!JsonShow J}.
Implicit Types v : Value J.

(** A value the column can hold: NULL, or a value of its type; no JSON, no
    NaN, no negative zero. *)
Definition col_ok (t : ColType) v : Prop :=
  value_ok v ∧
  match v with
  | Null => True
  | Json _ => False
  | Float64 f => ct_type t = TFloat64 ∧ f64_nan f = false ∧ f ≠ 2 ^ 63
  | Decimal _ s => ct_type t = TDecimal ∧ s = ct_scale t
  | _ => data_type v = Some (ct_type t)
  end.

Definition row_ok (ts : list ColType) (vs : list (Value J)) : Prop := Forall2 col_ok ts vs.

Lemma f64_key_zero f : 0 ≤ f < 2 ^ 64 → f64_key f = 0 → f = 0 ∨ f = 2 ^ 63.
Proof. unfold f64_key. destruct (Z.ltb_spec f (2 ^ 63)); lia. Qed.

Lemma f64_key_inj f g :
  0 ≤ f < 2 ^ 64 → 0 ≤ g < 2 ^ 64 → f ≠ 2 ^ 63 → g ≠ 2 ^ 63 → f64_key f = f64_key g → f = g.
Proof. unfold f64_key. destruct (Z.ltb_spec f (2 ^ 63)), (Z.ltb_spec g (2 ^ 63)); lia. Qed.

Lemma col_comparable t a b : col_ok t a → col_ok t b → comparable a b.
Proof.
  intros [Ha Ha'] [Hb Hb'].
  destruct a as [|?|?|f|?|?|?|?|?|? s|?|?], b as [|?|?|g|?|?|?|?|?|? s'|?|?]; simpl in *; try done;
    repeat match goal with H : _ = _ ∧ _ |- _ => destruct H end; try congruence.
  split_and!; [done..|]. destruct (decide (f64_key f = 0)) as [Hf|]; [|by right; left].
  destruct (decide (f64_key g = 0)) as [Hg|]; [|by right; right]. left.
  destruct (f64_key_zero f Ha Hf), (f64_key_zero g Hb Hg); congruence.
Qed.

(** Values of one column: the order is defined, and equal means identical. *)
Lemma col_cmp t a b : col_ok t a → col_ok t b → ∃ o, cmp_fast a b = Some o ∧ (o = Eq ↔ a = b).
Proof.
  assert (∀ x y : Z, (x ?= y) = Eq ↔ x = y) as Hz by apply Z.compare_eq_iff.
  intros [Ha Ha'] [Hb Hb'].
  destruct a as [|x|x|f|x|x|?|x|x|x s|x|x], b as [|y|y|g|y|y|?|y|y|y s'|y|y]; simpl in *; try done;
    repeat match goal with H : _ = _ ∧ _ |- _ => destruct H end; try congruence;
    try (eexists; split; [done|]; first [done | by rw Hz; split; congruence | by rw bcmp_eq; split; congruence]).
  - exists (bool_cmp x y). split; [done|]. by destruct x, y.
  - unfold f64_cmp. rw (_ : f64_nan f || f64_nan g = false); [by apply orb_false_iff|].
    eexists. split; [done|]. rw Hz. split; [|congruence]. intros. f_equal. by apply f64_key_inj.
  - unfold decimal_align. rw (_ : s =? s' = true); [apply Z.eqb_eq; congruence|].
    eexists. split; [done|]. rw Hz. split; congruence.
Qed.

Lemma row_cmp ts vs ws :
  row_ok ts vs → row_ok ts ws →
  Forall value_ok vs ∧ Forall2 comparable vs ws ∧ ∃ o, lex_cmp vs ws = Some o ∧ (o = Eq ↔ vs = ws).
Proof.
  intros Hv. revert ws. induction Hv as [|t v ts vs Hv Hvs IH]; intros ws Hw.
  { inversion Hw; subst. split_and!; [done|done|]. by exists Eq. }
  inversion Hw as [|? w ? ws' Hw1 Hw2]; subst. destruct (IH ws' Hw2) as (Hok & Hcmp & o & Ho & Heq).
  split_and!; [constructor; [apply Hv|done]|constructor; [by apply (col_comparable t)|done]|].
  destruct (col_cmp t v w Hv Hw1) as (o1 & Ho1 & Heq1). simpl. rw Ho1. cbn.
  destruct o1; [exists o|exists Lt|exists Gt]; (split; [done|]).
  - rw Heq. assert (v = w) as -> by (by apply Heq1). split; congruence.
  - split; [done|]. intros Hx. assert (v = w) as Hvw by congruence. by apply Heq1 in Hvw.
  - split; [done|]. intros Hx. assert (v = w) as Hvw by congruence. by apply Heq1 in Hvw.
Qed.

(** The composite key determines the row and the primary key. *)
Lemma composite_inj ts vs ws p q :
  row_ok ts vs → row_ok ts ws →
  encode_okey vs ++ p = encode_okey ws ++ q ↔ vs = ws ∧ p = q.
Proof.
  intros Hv Hw. split; [|by intros [-> ->]]. intros He.
  destruct (row_cmp ts vs ws Hv Hw) as (Hok & Hcmp & o & Ho & Heq).
  destruct (row_cmp ts ws vs Hw Hv) as (Hok' & _).
  pose proof (encode_okey_cmp vs ws o p q Hok Hok' Hcmp Ho) as H. rw He bcmp_refl in H.
  assert (vs = ws) as -> by (apply Heq; by destruct o).
  split; [done|]. by apply app_inv_head in He.
Qed.

(** A composite key starts with a row's prefix exactly if it is of that row. *)
Lemma composite_prefix ts vs ws q :
  row_ok ts vs → row_ok ts ws →
  starts_with (encode_okey ws ++ q) (encode_okey vs) = true ↔ vs = ws.
Proof.
  intros Hv Hw. rw starts_with_true. split; [|intros ->; by exists q].
  intros [s Hs]. symmetry. by apply (composite_inj ts ws vs q s Hw Hv).
Qed.
End typed.

(** ** The set of entries the index keeps *)

Section refinement.
Context {J T : Type} `{!EqDecision J} `{!JsonShow J} `{!KvTree T} `{!KvTreeLaws T}.
Local Abbreviation entry := (list (Value J) * list Z)%type.

#[export] Instance Value_eq_dec : EqDecision (Value J).
Proof. solve_decision. Defined.

(** [ix] keeps exactly the entries [E]. *)
Definition keeps (ts : list ColType) (ix : SecondaryIndex T) (E : list entry) : Prop :=
  Forall (λ e, row_ok ts e.1) E ∧
  ∃ m, kt_rep (tree ix) m ∧
    ∀ k v, m !! k = Some v ↔ ∃ cs, (cs, v) ∈ E ∧ k = encode_okey cs ++ v.

(** A primary key other than [pk] is indexed under [cs]. *)
Definition taken (E : list entry) (cs : list (Value J)) (pk : list Z) : bool :=
  existsb (λ e, bool_decide (e.1 = cs ∧ e.2 ≠ pk)) E.

Lemma taken_spec E cs pk : taken E cs pk = true ↔ ∃ pk', (cs, pk') ∈ E ∧ pk' ≠ pk.
Proof.
  unfold taken. rw existsb_exists. split.
  - intros ([cs' pk'] & Hin & [? ?]%bool_decide_eq_true). simpl in *. subst cs'. exists pk'.
    by rw list_elem_of_In.
  - intros (pk' & Hin & Hne). exists (cs, pk'). by rw -list_elem_of_In bool_decide_eq_true.
Qed.

Section facts.
Context (ts : list ColType) (ix : SecondaryIndex T) (E : list entry) (Hk : keeps ts ix E).

Lemma keeps_row cs pk : (cs, pk) ∈ E → row_ok ts cs.
Proof using Hk. destruct Hk as [HF _]. rw Forall_forall in HF. apply (HF (cs, pk)). Qed.

(** The scan of a row's prefix. *)
Lemma keeps_scan cs :
  row_ok ts cs →
  ∃ l, kt_prefix_scan (tree ix) (key_prefix cs) = Some l ∧ NoDup l.*2 ∧
    ∀ k v, (k, v) ∈ l ↔ (cs, v) ∈ E ∧ k = encode_okey cs ++ v.
Proof using Hk.
  intros Hcs. pose proof keeps_row as Hrow. destruct Hk as (_ & m & Hm & Hkey).
  eexists. split; [exact (kt_prefix_rep _ m _ Hm)|].
  assert (∀ k v, (k, v) ∈ filter (has_prefix (key_prefix cs)) (sorted_pairs m) ↔
                 (cs, v) ∈ E ∧ k = encode_okey cs ++ v) as Hin.
  { intros k v. rw list_elem_of_filter elem_of_sorted_pairs Hkey. unfold has_prefix, key_prefix. cbn [fst]. split.
    - intros [Hpx (ds & Hin & ->)]. apply (composite_prefix ts) in Hpx as ->; [done|done|by apply (Hrow ds v)].
    - intros [Hin ->]. split; [by apply starts_with_app|by exists cs]. }
  split; [|done]. apply NoDup_fmap_2_strong.
  - intros [k1 v1] [k2 v2] [_ ->]%Hin [_ ->]%Hin [= ->]. done.
  - apply NoDup_filter. unfold sorted_pairs. rw merge_sort_Permutation. apply NoDup_map_to_list.
Qed.

(** [insert] on a unique index fails exactly when another primary key has
    the same columns, and then changes nothing; otherwise it adds the entry. *)
Lemma insert_entry cs pk :
  row_ok ts cs →
  ∃ ix' r, insert ix cs pk = Some (ix', r) ∧ unique ix' = unique ix ∧ name ix' = name ix ∧
    if unique ix && taken E cs pk
    then r = Err (Internal ("unique index " +:+ name ix +:+ " violated")) ∧ ix' = ix
    else r = Ok tt ∧ keeps ts ix' ((cs, pk) :: E).
Proof using Hk.
  intros Hcs. unfold insert. destruct (keeps_scan cs Hcs) as (l & Hl & _ & Hin). pose proof keeps_row as Hrow.
  assert (existsb (λ kv, bool_decide (kv.2 ≠ pk)) l = taken E cs pk) as Hv.
  { apply Bool.eq_true_iff_eq. rw taken_spec existsb_exists. split.
    - intros ([k v] & Hkv & Hne%bool_decide_eq_true). exists v. rw -list_elem_of_In in Hkv.
      by apply Hin in Hkv as [? _].
    - intros (v & Hv & Hne). exists (encode_okey cs ++ v, v). rw -list_elem_of_In bool_decide_eq_true.
      split; [|done]. by apply Hin. }
  assert (∃ ix', (t ← kt_insert (tree ix) (composite cs pk) pk; Some (with_tree ix t, Ok tt)) = Some (ix', Ok tt) ∧
            unique ix' = unique ix ∧ name ix' = name ix ∧ keeps ts ix' ((cs, pk) :: E))
    as (ix' & Hrun & Hu & Hn & Hk').
  { destruct Hk as (HF & m & Hm & Hkey).
    destruct (kt_insert_rep (tree ix) m (composite cs pk) pk Hm) as (t' & -> & Hm').
    eexists. split; [done|]. split; [done|]. split; [done|]. split; [by constructor|]. exists (<[composite cs pk := pk]> m).
    split; [done|]. intros k v. rw lookup_insert_Some Hkey. unfold composite, key_prefix. split.
    - intros [[<- <-]|[_ (ds & Hds & ->)]]; [exists cs; by set_solver|exists ds; by set_solver].
    - intros (ds & [[= -> ->]|Hds]%elem_of_cons & ->); [by left|].
      destruct (decide (ds = cs ∧ v = pk)) as [[-> ->]|Hne]; [by left|]. right. split; [|by exists ds].
      intros He. apply Hne. apply (composite_inj ts) in He as [-> ->]; [done|done|by apply (Hrow ds v)]. }
  destruct (unique ix) eqn:Hun; cbn [andb].
  - rw Hl. cbn [mbind option_bind]. rw Hv. destruct (taken E cs pk).
    + exists ix. eexists. split_and!; [done|by rw Hun|done|done|done].
    + by exists ix', (Ok tt).
  - cbn [mbind option_bind]. by exists ix', (Ok tt).
Qed.

(** [remove] takes exactly the given entry out. *)
Lemma remove_entry cs pk :
  row_ok ts cs →
  ∃ ix', remove ix cs pk = Some (ix', Ok tt) ∧ unique ix' = unique ix ∧ name ix' = name ix ∧
    keeps ts ix' (filter (λ e, e ≠ (cs, pk)) E).
Proof using Hk.
  intros Hcs. pose proof keeps_row as Hrow. destruct Hk as (HF & m & Hm & Hkey). unfold remove.
  destruct (kt_delete_rep (tree ix) m (composite cs pk) Hm) as (t' & -> & Hm').
  eexists. split; [done|]. split; [done|]. split; [done|]. split.
  { apply Forall_forall. intros e [_ He]%list_elem_of_filter. rw Forall_forall in HF. by apply HF. }
  exists (base.delete (composite cs pk) m). split; [done|]. intros k v.
  rw lookup_delete_Some Hkey. unfold composite, key_prefix. split.
  - intros [Hne (ds & Hds & ->)]. exists ds. rw list_elem_of_filter. split_and!; [|done|done].
    intros [= -> ->]. done.
  - intros (ds & [Hne Hds]%list_elem_of_filter & ->). split; [|by exists ds].
    intros He. apply Hne. apply (composite_inj ts) in He as [-> ->]; [done|done|by apply (Hrow ds v)].
Qed.

(** [lookup_eq] returns exactly the primary keys of the rows with the given
    column values, each once. *)
Lemma lookup_eq_entries cs :
  row_ok ts cs →
  ∃ r, lookup_eq ix cs = Some r ∧ NoDup r ∧ ∀ pk, pk ∈ r ↔ (cs, pk) ∈ E.
Proof using Hk.
  intros Hcs. destruct (keeps_scan cs Hcs) as (l & Hl & Hnd & Hin). unfold lookup_eq. rw Hl.
  eexists. split; [done|]. split; [done|]. intros pk. rw list_elem_of_fmap. split.
  - intros ([k v] & -> & [? _]%Hin). done.
  - intros HE. exists (encode_okey cs ++ pk, pk). split; [done|]. by apply Hin.
Qed.
End facts.

(** *** Ranges *)

Lemma successor_rev_above r s :
  Forall byte_ok r → successor_rev r = Some s →
  ∃ n b r', r = replicate n 255 ++ b :: r' ∧ b < 255 ∧ s = reverse r' ++ [b + 1].
Proof.
  induction 1 as [|b r Hb Hr IH]; intros Hs; [done|]. simpl in Hs.
  destruct (Z.eqb_spec b 255) as [->|Hne].
  - destruct (IH Hs) as (n & b & r' & -> & ? & ->). by exists (S n), b, r'.
  - injection Hs as <-. exists 0%nat, b, r. unfold byte_ok in Hb. rw reverse_cons. split_and!; [done|lia|done].
Qed.

Lemma prefix_successor_spec p s :
  bytes_ok p → prefix_successor p = Some s →
  ∃ n b q, p = q ++ b :: replicate n 255 ∧ 0 ≤ b < 255 ∧ s = q ++ [b + 1].
Proof.
  intros Hp Hs. destruct (successor_rev_above (reverse p) s) as (n & b & r & Hr & Hb & ->);
    [by apply Forall_reverse|done|].
  exists n, b, (reverse r). assert (p = reverse r ++ b :: replicate n 255) as Hpe.
  { rw -(reverse_involutive p) Hr reverse_app reverse_cons reverse_replicate -app_assoc. done. }
  split_and!; [done| |done|done]. rw Hpe in Hp. apply Forall_app in Hp as [_ Hp].
  apply Forall_cons in Hp as [Hp _]. unfold byte_ok in Hp. lia.
Qed.

Lemma bcmp_pad (k : list Z) (n : nat) : bytes_ok k → bcmp k (replicate n 255 ++ k) ≠ Gt.
Proof.
  intros Hk. revert n. induction Hk as [|c k Hc Hk IH]; intros n; [by destruct n|].
  destruct n as [|n]; [by rw bcmp_refl|]. cbn [replicate app bcmp]. unfold byte_ok in Hc.
  destruct (Z.compare_spec c 255) as [->|?|?]; [|done|lia].
  change (255 :: k) with ([255] ++ k). rw app_assoc -replicate_cons_app. apply (IH (S n)).
Qed.

(** A key above every continuation of a prefix is not below its successor. *)
Lemma above_successor (q k : list Z) b (n : nat) :
  bytes_ok k → (∀ y, bcmp k ((q ++ b :: replicate n 255) ++ y) = Gt) → bcmp k (q ++ [b + 1]) ≠ Lt.
Proof.
  intros Hk. revert q. induction Hk as [|x k Hx Hk IH]; intros q Hgt.
  { specialize (Hgt []). by destruct q. }
  destruct q as [|a q]; cbn [app bcmp] in Hgt |- *.
  - destruct (Z.compare_spec x b) as [->|Hlt|Hgt'].
    + exfalso. by apply (bcmp_pad k n Hk), Hgt.
    + by specialize (Hgt []).
    + destruct (Z.compare_spec x (b + 1)); [|lia|done]. by destruct k.
  - destruct (x ?= a); [by apply IH|by specialize (Hgt [])|done].
Qed.

Lemma prefix_not_gt (w z p : list Z) : w ++ z = p → bcmp w p ≠ Gt.
Proof. intros <-. revert z. induction w as [|x w IH]; intros z; [by destruct z|]. simpl. by rw Z.compare_refl. Qed.

(** The upper bound a range scan uses. *)
Lemma upper_bound t v h r s :
  col_ok (J := J) t v → col_ok t h → r ≠ [] → bytes_ok (encode_one v ++ r) → bytes_ok (encode_one h) →
  prefix_successor (encode_one h) = Some s →
  ble (encode_one v ++ r) s ↔ cmp_fast v h ≠ Some Gt.
Proof.
  intros Hv Hh Hr Hb Hbh Hs. destruct (prefix_successor_spec _ s Hbh Hs) as (n & b & q & Hp & Hb0 & ->).
  destruct (col_cmp t v h Hv Hh) as (o & Ho & Heq).
  pose proof (λ x y, encode_one_cmp v h o x y (proj1 Hv) (proj1 Hh) (col_comparable t v h Hv Hh) Ho) as Hc.
  rw Ho. split.
  - intros Hle [= ->]. cbn in Hc. unfold ble in Hle.
    pose proof (above_successor q (encode_one v ++ r) b n Hb) as Hab. rw -Hp in Hab.
    specialize (Hab (Hc r)). destruct (bcmp (encode_one v ++ r) (q ++ [b + 1])) eqn:E; [|done|done].
    apply bcmp_eq in E. specialize (Hc [] []). rw !app_nil_r in Hc.
    destruct r as [|x r] using rev_ind; [done|]. clear IHr. rw app_assoc in E.
    apply app_inj_tail in E as [E _].
    apply (prefix_not_gt (encode_one v) (r ++ b :: replicate n 255) (encode_one h)); [|done].
    by rw Hp -E -app_assoc.
  - intros Hne. apply blt_ble.
    assert (blt (encode_one h) (q ++ [b + 1])) as Hlt.
    { rw Hp. unfold blt. rw bcmp_app_l. cbn. destruct (Z.compare_spec b (b + 1)); [lia|done|lia]. }
    destruct o; [|specialize (Hc r []); rw app_nil_r in Hc; cbn in Hc|done].
    + assert (v = h) as -> by (by apply Heq). rw Hp. unfold blt. rw -app_assoc bcmp_app_l. cbn.
      destruct (Z.compare_spec b (b + 1)); [lia|done|lia].
    + change (blt (encode_one v ++ r) (encode_one h)) in Hc. border.
Qed.

Lemma encode_var_bytes b : bytes_ok b → bytes_ok (encode_var b).
Proof.
  intros Hb. unfold encode_var. apply Forall_app. split; [|by repeat constructor].
  apply Forall_bind. apply (Forall_impl _ _ _ Hb). intros x Hx. unfold compose.
  destruct (x =? 0); [by repeat constructor|by constructor].
Qed.

Lemma byte_ok_01 : byte_ok 0 ∧ byte_ok 1.
Proof. unfold byte_ok. lia. Qed.

Lemma encode_one_bytes t v : col_ok (J := J) t v → bytes_ok (encode_one v).
Proof.
  intros [Hv Hc]. destruct byte_ok_01 as [H0 H1].
  destruct v as [|b| | | | | | | | |b|]; cbn [encode_one encode_body]; simpl in Hv, Hc;
    [by constructor|constructor; [done|]..];
    try apply be_bytes_ok; try (by apply encode_var_bytes); try done; try apply Hv.
  destruct b; by constructor.
Qed.

Lemma encode_one_head v : ∃ c l, encode_one (J := J) v = c :: l ∧ 0 ≤ c ≤ 1.
Proof. destruct v; eexists _, _; (split; [done|lia]). Qed.

Lemma successor_rev_None r : successor_rev r = None → Forall (λ b, b = 255) r.
Proof.
  induction r as [|b r IH]; intros Hn; [constructor|]. simpl in Hn.
  destruct (Z.eqb_spec b 255); [|done]. constructor; [done|by apply IH].
Qed.

Lemma successor_exists v : is_Some (prefix_successor (encode_one (J := J) v)).
Proof.
  destruct (prefix_successor (encode_one v)) as [s|] eqn:Hs; [done|]. exfalso.
  apply successor_rev_None, Forall_reverse in Hs. destruct (encode_one_head v) as (c & l & He1 & Hc). rw reverse_involutive He1 in Hs.
  apply Forall_cons in Hs as [? _]. lia.
Qed.

(** [v] lies between the bounds given. *)
Definition between (lo hi : option (Value J)) (v : Value J) : Prop :=
  (∀ l, lo = Some l → cmp_fast l v ≠ Some Gt) ∧ (∀ h, hi = Some h → cmp_fast v h ≠ Some Gt).

Definition bound_ok (t : ColType) (o : option (Value J)) : Prop := ∀ v, o = Some v → col_ok t v.

(** The encoded bounds select the values between the bounds. *)
Lemma range_key t lo hi v r :
  col_ok t v → bound_ok t lo → bound_ok t hi → r ≠ [] → bytes_ok r →
  in_range match lo with Some v => encode_okey [v] | None => [] end
           match hi with Some v => default [255] (prefix_successor (encode_okey [v])) | None => [255] end
           (encode_one v ++ r, r) ↔ between lo hi v.
Proof.
  intros Hv Hlo Hhi Hr Hb. unfold in_range, between. cbn [fst].
  assert (∀ x : Value J, encode_okey [x] = encode_one x) as He.
  { intros x. unfold encode_okey, encode_okey_into. cbn. apply app_nil_r. }
  assert (bytes_ok (encode_one v ++ r)) as Hvr.
  { apply Forall_app. split; [by apply (encode_one_bytes t)|done]. }
  split; intros [H1 H2]; split.
  - intros l ->. rw He in H1. destruct (col_cmp t l v (Hlo l eq_refl) Hv) as (o & Ho & _).
    pose proof (encode_one_cmp l v o [] r (proj1 (Hlo l eq_refl)) (proj1 Hv)
                  (col_comparable t l v (Hlo l eq_refl) Hv) Ho) as Hc.
    rw app_nil_r in Hc. unfold ble in H1. rw Hc in H1. rw Ho. intros [= ->]. done.
  - intros h ->. rw He in H2. destruct (successor_exists h) as [s Hs]. rw Hs in H2. cbn in H2.
    apply (upper_bound t v h r s); auto. by apply (encode_one_bytes t), Hhi.
  - destruct lo as [l|]; [|by unfold ble; destruct (encode_one v ++ r)]. rw He.
    specialize (H1 l eq_refl). destruct (col_cmp t l v (Hlo l eq_refl) Hv) as (o & Ho & _).
    pose proof (encode_one_cmp l v o [] r (proj1 (Hlo l eq_refl)) (proj1 Hv)
                  (col_comparable t l v (Hlo l eq_refl) Hv) Ho) as Hc.
    rw app_nil_r in Hc. unfold ble. rw Hc. rw Ho in H1. destruct o; [by destruct r|done|done].
  - destruct hi as [h|].
    + rw He. destruct (successor_exists h) as [s Hs]. rw Hs. cbn.
      apply (upper_bound t v h r s); auto. by apply (encode_one_bytes t), Hhi.
    + destruct (encode_one_head v) as (c & l & -> & Hc). unfold ble. cbn.
      destruct (Z.compare_spec c 255); [lia|done|lia].
Qed.

(** [lookup_range] returns exactly the primary keys of the rows whose first
    column lies between the bounds, both inclusive. *)
Lemma lookup_range_entries t ts ix E lo hi :
  keeps (t :: ts) ix E → Forall (λ e, e.2 ≠ [] ∧ bytes_ok e.2) E → bound_ok t lo → bound_ok t hi →
  ∃ r, lookup_range ix lo hi = Some r ∧
    ∀ pk, pk ∈ r ↔ ∃ v rest, (v :: rest, pk) ∈ E ∧ between lo hi v.
Proof.
  intros Hk Hpk Hlo Hhi. pose proof (keeps_row _ _ _ Hk) as Hrow. destruct Hk as (_ & m & Hm & Hkey).
  unfold lookup_range. rw (kt_range_rep (tree ix) m _ _ Hm). eexists. split; [done|]. intros pk.
  rw list_elem_of_fmap. rw Forall_forall in Hpk.
  assert (∀ cs, (cs, pk) ∈ E → ∃ v rest, cs = v :: rest ∧ col_ok t v ∧
            encode_okey cs ++ pk = encode_one v ++ ((rest ≫= encode_one) ++ pk) ∧
            (rest ≫= encode_one) ++ pk ≠ [] ∧ bytes_ok ((rest ≫= encode_one) ++ pk)) as Hcs.
  { intros cs Hin. pose proof (Hrow cs pk Hin) as Hr. inversion Hr as [|? v ? rest Hv Hrest]; subst.
    destruct (Hpk _ Hin) as [Hne Hb]. simpl in Hne, Hb. exists v, rest. split_and!; [done|done| | |].
    - unfold encode_okey, encode_okey_into. cbn. by rw app_assoc.
    - intros [_ ?]%app_eq_nil. done.
    - apply Forall_app. split; [|done]. apply Forall_bind. clear -Hrest.
      induction Hrest as [|? w ? ws Hw _ IH]; constructor; [by apply (encode_one_bytes x)|done]. }
  split.
  - intros ([k v] & -> & [Hin Hk]%list_elem_of_filter). apply elem_of_sorted_pairs, Hkey in Hk as (cs & HE & ->).
    destruct (Hcs cs HE) as (w & rest & -> & Hw & Hek & Hne & Hb). exists w, rest. split; [done|].
    unfold in_range in Hin. cbn [fst] in Hin. simpl in Hek. rw Hek in Hin. by apply (range_key t lo hi w ((rest ≫= encode_one) ++ v)).
  - intros (w & rest & HE & Hbt). destruct (Hcs _ HE) as (w' & rest' & [= <- <-] & Hw & Hek & Hne & Hb).
    exists (encode_okey (w :: rest) ++ pk, pk). split; [done|]. rw list_elem_of_filter elem_of_sorted_pairs Hkey.
    split; [|by exists (w :: rest)]. unfold in_range. cbn [fst]. rw Hek. by apply (range_key t lo hi w ((rest ≫= encode_one) ++ pk)).
Qed.

(** *** Runs *)

Inductive iop : Type :=
  | IInsert (cs : list (Value J)) (pk : list Z)
  | IRemove (cs : list (Value J)) (pk : list Z).

Definition iop_ok (ts : list ColType) (o : iop) : Prop :=
  match o with
  | IInsert cs pk => row_ok ts cs ∧ pk ≠ [] ∧ bytes_ok pk
  | IRemove cs pk => row_ok ts cs
  end.

Fixpoint run_index (ix : SecondaryIndex T) (ops : list iop)
    : option (SecondaryIndex T * list (result unit)) :=
  match ops with
  | [] => Some (ix, [])
  | o :: ops' =>
      '(ix1, r) ← match o with IInsert cs pk => insert ix cs pk | IRemove cs pk => remove ix cs pk end;
      '(ix2, rs) ← run_index ix1 ops';
      Some (ix2, r :: rs)
  end.

(** The set of entries: an insert is refused if the index is unique and the
    columns are taken, a remove always succeeds. *)
Fixpoint run_set (nm : string) (uniq : bool) (E : list entry) (ops : list iop)
    : list entry * list (result unit) :=
  match ops with
  | [] => (E, [])
  | IInsert cs pk :: ops' =>
      if uniq && taken E cs pk then
        let '(E', rs) := run_set nm uniq E ops' in
        (E', Err (Internal ("unique index " +:+ nm +:+ " violated")) :: rs)
      else
        let '(E', rs) := run_set nm uniq (if bool_decide ((cs, pk) ∈ E) then E else (cs, pk) :: E) ops' in
        (E', Ok tt :: rs)
  | IRemove cs pk :: ops' =>
      let '(E', rs) := run_set nm uniq (filter (λ e, e ≠ (cs, pk)) E) ops' in
      (E', Ok tt :: rs)
  end.

(** What holds of the entries along a run. *)
Record entries_ok (uniq : bool) (E : list entry) : Prop := {
  eo_nodup : NoDup E;
  eo_pk : Forall (λ e, e.2 ≠ [] ∧ bytes_ok e.2) E;
  eo_unique : uniq = true → ∀ cs p q, (cs, p) ∈ E → (cs, q) ∈ E → p = q
}.

Lemma keeps_ext ts ix E E' : keeps ts ix E → (∀ e, e ∈ E' ↔ e ∈ E) → keeps ts ix E'.
Proof.
  intros (HF & m & Hm & Hk) He. split.
  - rw Forall_forall in HF. apply Forall_forall. intros e Hin%He. by apply HF.
  - exists m. split; [done|]. intros k v. rw Hk. split; intros (cs & Hin & ->); exists cs; (split; [by apply He|done]).
Qed.

Lemma run_index_set ts ix E ops :
  keeps ts ix E → entries_ok (unique ix) E → Forall (iop_ok ts) ops →
  ∃ ix', run_index ix ops = Some (ix', (run_set (name ix) (unique ix) E ops).2) ∧
    keeps ts ix' (run_set (name ix) (unique ix) E ops).1 ∧
    entries_ok (unique ix) (run_set (name ix) (unique ix) E ops).1.
Proof.
  intros Hk Hok Hops. revert ix E Hk Hok. induction Hops as [|o ops Ho _ IH]; intros ix E Hk Hok.
  { by exists ix. }
  destruct o as [cs pk|cs pk]; simpl in Ho; cbn [run_index run_set].
  - destruct Ho as (Hcs & Hne & Hb).
    destruct (insert_entry ts ix E Hk cs pk Hcs) as (ix' & r & -> & Hu & Hn & Hr).
    cbn [mbind option_bind]. destruct (unique ix && taken E cs pk) eqn:Hv.
    + destruct Hr as [-> ->]. destruct (IH ix E Hk Hok) as (ix2 & -> & Hk2 & Hok2).
      destruct (run_set (name ix) (unique ix) E ops) as [E2 rs]. by exists ix2.
    + destruct Hr as [-> Hk']. rw -Hn -Hu. set (E1 := if bool_decide _ then E else _).
      destruct (IH ix' E1) as (ix2 & -> & Hk2 & Hok2).
      * apply (keeps_ext ts ix' ((cs, pk) :: E)); [done|]. intros e. unfold E1.
        case_bool_decide; [|done]. set_solver.
      * rw Hu. destruct Hok as [Hnd Hpk Hun]. unfold E1. case_bool_decide as Hin; [by split|]. split.
        -- by constructor.
        -- by constructor.
        -- intros Hux cs' p q. specialize (Hun Hux). rw Hux in Hv. cbn in Hv.
           assert (∀ p', (cs, p') ∈ E → p' = pk) as Hx.
           { intros p' Hp'. destruct (decide (p' = pk)); [done|]. exfalso.
             assert (taken E cs pk = true) by (apply taken_spec; by exists p'). congruence. }
           rw !elem_of_cons. intros [H1|H1] [H2|H2]; simplify_eq; [done| |by apply Hx|by apply (Hun cs')].
           symmetry. by apply Hx.
      * destruct (run_set _ _ E1 ops) as [E2 rs]. by exists ix2.
  - destruct (remove_entry ts ix E Hk cs pk Ho) as (ix' & -> & Hu & Hn & Hk').
    cbn [mbind option_bind]. rw -Hn -Hu.
    destruct (IH ix' _ Hk') as (ix2 & -> & Hk2 & Hok2).
    { rw Hu. destruct Hok as [Hnd Hpk Hun]. split.
      - by apply NoDup_filter.
      - rw Forall_forall in Hpk. apply Forall_forall. intros e [_ He]%list_elem_of_filter. by apply Hpk.
      - intros Hux cs' p q [_ H1]%list_elem_of_filter [_ H2]%list_elem_of_filter. by apply (Hun Hux cs'). }
    destruct (run_set _ _ _ ops) as [E2 rs]. by exists ix2.
Qed.

Lemma new_keeps ts nm cols uniq : keeps ts (new nm cols uniq) [].
Proof.
  split; [constructor|]. exists ∅. split; [apply kt_new_rep; lia|]. intros k v. rw lookup_empty. split; [done|].
  intros (cs & Hin & _). by apply not_elem_of_nil in Hin.
Qed.

(** The index after a run from an empty one. *)
Lemma new_run ts nm cols uniq ops :
  Forall (iop_ok ts) ops →
  ∃ ix, run_index (new nm cols uniq) ops = Some (ix, (run_set nm uniq [] ops).2) ∧
    keeps ts ix (run_set nm uniq [] ops).1 ∧ entries_ok uniq (run_set nm uniq [] ops).1.
Proof.
  intros Hops. apply (run_index_set ts (new nm cols uniq) []); [apply new_keeps| |done].
  split; [constructor|constructor|]. intros _ cs p q Hin. by apply not_elem_of_nil in Hin.
Qed.

Lemma keeps_size ts ix E m :
  Forall (λ e, row_ok ts e.1) E → NoDup E →
  (∀ k v, m !! k = Some v ↔ ∃ cs, (cs, v) ∈ E ∧ k = encode_okey cs ++ v) →
  kt_rep (tree ix) m → len ix = Z.of_nat (length E).
Proof.
  intros HF Hnd Hk Hm. unfold len. rw (kt_len_rep (tree ix) m Hm) -length_map_to_list. f_equal.
  rw -(length_fmap (λ e : entry, (encode_okey e.1 ++ e.2, e.2)) E).
  apply Permutation_length, NoDup_Permutation; [apply NoDup_map_to_list| |].
  - apply NoDup_fmap_2_strong; [|done]. rw Forall_forall in HF.
    intros [cs p] [ds q] H1 H2 [= He ->]. apply (composite_inj ts) in He as [-> _]; [done|..].
    + apply (HF _ H1).
    + apply (HF _ H2).
  - intros [k v]. rw elem_of_map_to_list Hk list_elem_of_fmap. split.
    + intros (cs & Hin & ->). by exists (cs, v).
    + intros ([cs w] & [= -> ->] & Hin). by exists cs.
Qed.

(** *** What the keys keep of the values

    Two values of a column have the same key exactly if they have the same
    [key_value]: of a decimal the mantissa is kept and not the scale, of a float its
    place in the total order of IEEE 754, of a JSON value its text. *)

Definition key_value (v : Value J) : Value J :=
  match v with Decimal m _ => Decimal m 0 | Float64 f => Int64 (f64_total f) | Json j => Text (json_to_string j) | _ => v end.
Definition key_op (o : iop) : iop :=
  match o with IInsert cs pk => IInsert (key_value <$> cs) pk | IRemove cs pk => IRemove (key_value <$> cs) pk end.

(** A value of the type of a column, or NULL. *)
Definition typed (t : DataType) (v : Value J) : Prop := key_ok v ∧ (v = Null ∨ data_type v = Some t).
Definition op_typed (ts : list DataType) (o : iop) : Prop :=
  match o with
  | IInsert cs pk => Forall2 typed ts cs ∧ pk ≠ [] ∧ bytes_ok pk
  | IRemove cs pk => Forall2 typed ts cs
  end.

(** The type of the keys of a column. *)
Definition key_type (t : DataType) : ColType := mkColType match t with TFloat64 => TInt64 | TJson => TText | _ => t end 0.

Lemma key_value_encode (v : Value J) : value_ok v → encode_one (key_value v) = encode_one v.
Proof.
  destruct v as [| | |f| | | | | | | |]; try done. cbn [value_ok key_value encode_one encode_body]. intros Hf. do 2 f_equal. destruct (f64_ordered_spec f Hf) as [_ ->].
  rw flip_sign_spec; [lia|unfold f64_total; destruct (Z.ltb_spec f (2 ^ 63)); lia|]. unfold f64_total, f64_key. destruct (Z.ltb_spec f (2 ^ 63)); lia.
Qed.

Lemma key_values_encode ts (cs : list (Value J)) : Forall2 typed ts cs → encode_okey (key_value <$> cs) = encode_okey cs.
Proof.
  unfold encode_okey, encode_okey_into. cbn [app]. induction 1 as [|t v ts cs [[Hv _] _] _ IH]; [done|]. cbn. by rw (key_value_encode v Hv) IH.
Qed.

Lemma typed_key t (v : Value J) : typed t v → col_ok (key_type t) (key_value v).
Proof.
  intros [[Hok Hj] [->|Ht]]; [done|]. destruct v as [| | |f| | | | | | | |]; cbn in Ht; try done; injection Ht as <-; try (by split).
  - split; [|done]. cbn in Hok |- *. unfold i64_ok, f64_total. destruct (Z.ltb_spec f (2 ^ 63)); lia.
  - destruct Hok. by split; [split|].
Qed.

Lemma typed_keys ts (cs : list (Value J)) : Forall2 typed ts cs → row_ok (key_type <$> ts) (key_value <$> cs).
Proof. induction 1; constructor; [by apply typed_key|done]. Qed.

Lemma key_ops_ok ts ops : Forall (op_typed ts) ops → Forall (iop_ok (key_type <$> ts)) (key_op <$> ops).
Proof.
  induction 1 as [|o ops Ho _ IH]; constructor; [|done]. destruct o as [cs pk|cs pk]; cbn in *; [destruct Ho as (? & ? & ?); split_and!; [by apply typed_keys|done|done]|].
  by apply typed_keys.
Qed.

(** The index does the same with the rows and with what their keys keep. *)
Lemma key_ops_run ts ix ops : Forall (op_typed ts) ops → run_index ix (key_op <$> ops) = run_index ix ops.
Proof.
  intros Hops. revert ix. induction Hops as [|o ops Ho _ IH]; intros ix; [done|]. cbn.
  assert (∀ ix, match key_op o with IInsert cs pk => insert ix cs pk | IRemove cs pk => remove ix cs pk end =
                match o with IInsert cs pk => insert ix cs pk | IRemove cs pk => remove ix cs pk end) as Hone.
  { intros ix'. destruct o as [cs pk|cs pk]; cbn in Ho |- *; unfold insert, remove, composite, key_prefix.
    - destruct Ho as [Hcs _]. by rw (key_values_encode ts cs Hcs).
    - by rw (key_values_encode ts cs Ho). }
  rw Hone. destruct (match o with IInsert _ _ => _ | IRemove _ _ => _ end) as [[ix1 r]|]; [|done]. cbn. by rw IH.
Qed.

(** C20: A secondary index is a set of entries, each the keys of the indexed columns
    with a primary key: any run of inserts and removes on a new index, of rows whose
    columns have one type each, completes and answers as the set does, with the
    duplicate error exactly when the index is unique and another primary key has the
    same keys; [len] counts the entries, and a unique index never holds two primary
    keys under the same keys. Decimals with one mantissa have the same key, whatever
    their scales are; floats have the same key if they have the same bits. *)
Theorem index_is_set ts nm cols uniq ops :
  Forall (op_typed ts) ops →
  let E := (run_set nm uniq [] (key_op <$> ops)).1 in
  ∃ ix, run_index (new nm cols uniq) ops = Some (ix, (run_set nm uniq [] (key_op <$> ops)).2) ∧
    len ix = Z.of_nat (length E) ∧ is_empty ix = bool_decide (E = []) ∧
    (uniq = true → ∀ cs p q, (cs, p) ∈ E → (cs, q) ∈ E → p = q).
Proof.
  intros Hty E. pose proof (key_ops_ok ts ops Hty) as Hops.
  destruct (new_run (key_type <$> ts) nm cols uniq _ Hops) as (ix & Hrun & (HF & m & Hm & Hk) & Hok). rw (key_ops_run ts _ _ Hty) in Hrun.
  fold E in HF, Hk, Hok. exists ix. pose proof (keeps_size (key_type <$> ts) ix E m HF (eo_nodup _ _ Hok) Hk Hm) as Hlen.
  split_and!; [done|done| |apply Hok]. unfold is_empty. rw Hlen. clear. by destruct E.
Qed.

(** After any such run, [lookup_eq] returns exactly the primary keys of the
    rows with the given column values, each once. *)
Theorem index_lookup_eq ts nm cols uniq ops cs :
  Forall (iop_ok ts) ops → row_ok ts cs →
  ∃ ix outs r, run_index (new nm cols uniq) ops = Some (ix, outs) ∧ lookup_eq ix cs = Some r ∧
    NoDup r ∧ ∀ pk, pk ∈ r ↔ (cs, pk) ∈ (run_set nm uniq [] ops).1.
Proof.
  intros Hops Hcs. destruct (new_run ts nm cols uniq ops Hops) as (ix & Hrun & Hk & _).
  destruct (lookup_eq_entries ts ix _ Hk cs Hcs) as (r & Hr). by exists ix, (run_set nm uniq [] ops).2, r.
Qed.

Lemma key_encode t (v : Value J) : typed t v → encode_okey [key_value v] = encode_okey [v].
Proof. intros Hv. apply (key_values_encode [t] [v]). by constructor; [|constructor]. Qed.

(** Between the bounds in the order of the keys. *)
Lemma between_key t lo hi (v : Value J) : (∀ w, lo = Some w → typed t w) → (∀ w, hi = Some w → typed t w) → col_ok (key_type t) v →
  between (key_value <$> lo) (key_value <$> hi) v ↔
  (∀ l, lo = Some l → key_cmp (key_value l) v ≠ Gt) ∧ (∀ h, hi = Some h → key_cmp v (key_value h) ≠ Gt).
Proof.
  intros Hlo Hhi Hv. assert (∀ a b : Value J, col_ok (key_type t) a → col_ok (key_type t) b → cmp_fast a b = Some (key_cmp a b)) as Hc.
  { intros a b Ha Hb. apply key_cmp_fast; [apply Ha|apply Hb|by apply (col_comparable (key_type t))]. }
  unfold between. split; intros [Hl Hh]; split.
  - intros l Hl'. rw -(inj_iff Some) -Hc; [by apply typed_key, Hlo|done|]. apply Hl. by rw Hl'.
  - intros h Hh'. rw -(inj_iff Some) -Hc; [done|by apply typed_key, Hhi|]. apply Hh. by rw Hh'.
  - intros l Hl'. apply fmap_Some in Hl' as (w & Hw & ->). rw Hc; [by apply typed_key, Hlo|done|]. rw (inj_iff Some). by apply Hl.
  - intros h Hh'. apply fmap_Some in Hh' as (w & Hw & ->). rw Hc; [done|by apply typed_key, Hhi|]. rw (inj_iff Some). by apply Hh.
Qed.

(** C17: After any run of inserts and removes of rows whose columns have one type
    each, [lookup_range] returns exactly the primary keys of the rows whose first
    column lies between the bounds, both inclusive, in the order of the keys
    ([key_cmp]): decimals are compared by their mantissas, whatever their scales are,
    floats in the total order of IEEE 754, JSON values as texts, and the others as
    their values; NULL is below all of them. A missing bound does not restrict. *)
Theorem index_lookup_range t ts nm cols uniq ops lo hi :
  Forall (op_typed (t :: ts)) ops → (∀ v, lo = Some v → typed t v) → (∀ v, hi = Some v → typed t v) →
  ∃ ix outs r, run_index (new nm cols uniq) ops = Some (ix, outs) ∧ lookup_range ix lo hi = Some r ∧
    ∀ pk, pk ∈ r ↔ ∃ v rest, (v :: rest, pk) ∈ (run_set nm uniq [] (key_op <$> ops)).1 ∧
      (∀ l, lo = Some l → key_cmp (key_value l) v ≠ Gt) ∧ (∀ h, hi = Some h → key_cmp v (key_value h) ≠ Gt).
Proof.
  intros Hty Hlo Hhi. pose proof (key_ops_ok _ ops Hty) as Hops.
  destruct (new_run (map key_type (t :: ts)) nm cols uniq _ Hops) as (ix & Hrun & Hk & Hok). rw (key_ops_run _ _ _ Hty) in Hrun.
  destruct (lookup_range_entries (key_type t) (map key_type ts) ix _ (option_map key_value lo) (option_map key_value hi) Hk (eo_pk _ _ Hok)) as (r & Hr & Hin).
  { intros v Hv. apply fmap_Some in Hv as (w & Hw & ->). by apply typed_key, Hlo. }
  { intros v Hv. apply fmap_Some in Hv as (w & Hw & ->). by apply typed_key, Hhi. }
  exists ix, (run_set nm uniq [] (key_op <$> ops)).2, r. split_and!; [done| |].
  - rw -Hr. unfold lookup_range. destruct lo as [l|], hi as [h|]; cbn [option_map];
      try rw (key_encode t l (Hlo l eq_refl)); try rw (key_encode t h (Hhi h eq_refl)); done.
  - intros pk. rw Hin. split; intros (v & rest & Hv & Hb); exists v, rest; (split; [done|]);
      pose proof (keeps_row _ _ _ Hk _ _ Hv) as Hrow; apply Forall2_cons_inv_l in Hrow as (? & ? & Hc & _ & [= <- <-]);
      by apply (between_key t lo hi v).
Qed.
End refinement.

#[local] Instance unit_show : JsonShow unit := λ _, [].

(** A unique index on one integer column: the second row is refused. *)
Definition sample_ops : list (@iop unit) :=
  [IInsert [Int64 7] [1]; IInsert [Int64 7] [2]; IInsert [Int64 (-3)] [2]; IInsert [Int64 9] [4];
   IRemove [Int64 9] [4]].

Lemma sample_ops_ok : Forall (iop_ok [mkColType TInt64 0]) sample_ops.
Proof. repeat constructor; done. Qed.

(** A unique index on a DECIMAL column: 1 and 0.1 have one key, and the second is
    refused. *)
Definition decimal_ops : list (@iop unit) :=
  [IInsert [Decimal 1 0] [1]; IInsert [Decimal 1 1] [2]; IInsert [Decimal 15 1] [3]; IInsert [Decimal 2 0] [4]; IInsert [Null] [5]].

Lemma decimal_ops_typed : Forall (op_typed [TDecimal]) decimal_ops.
Proof.
  unfold decimal_ops. repeat (apply Forall_cons_2; [|]); [..|apply Forall_nil_2]; (split_and!; [|done|by repeat constructor]);
    apply Forall2_cons; (split; [|by apply Forall2_nil]); (split; [by repeat split|by (left + right)]).
Qed.

Lemma index_is_set_witness :
  let E := (run_set "i" true [] (key_op <$> decimal_ops)).1 in
  ∃ ix : SecondaryIndex BTree.BTree.BPlusTree,
    run_index (new "i" [0%nat] true) decimal_ops = Some (ix, (run_set "i" true [] (key_op <$> decimal_ops)).2) ∧
    len ix = Z.of_nat (length E) ∧ is_empty ix = bool_decide (E = []) ∧
    (true = true → ∀ cs p q, (cs, p) ∈ E → (cs, q) ∈ E → p = q).
Proof. apply (index_is_set [TDecimal] "i" [0%nat] true decimal_ops), decimal_ops_typed. Defined.

Lemma index_lookup_eq_witness :
  ∃ (ix : SecondaryIndex BTree.BTree.BPlusTree) outs r,
    run_index (new "i" [0%nat] true) sample_ops = Some (ix, outs) ∧ lookup_eq ix [Int64 (J := unit) 7] = Some r ∧
    NoDup r ∧ ∀ pk, pk ∈ r ↔ ([Int64 7], pk) ∈ (run_set "i" true [] sample_ops).1.
Proof.
  apply (index_lookup_eq [mkColType TInt64 0] "i" [0%nat] true sample_ops [Int64 7]); [apply sample_ops_ok|].
  repeat constructor; done.
Defined.

Lemma index_lookup_range_witness :
  ∃ (ix : SecondaryIndex BTree.BTree.BPlusTree) outs r,
    run_index (new "i" [0%nat] true) decimal_ops = Some (ix, outs) ∧
    lookup_range ix (Some (Decimal (J := unit) 2 0)) None = Some r ∧
    ∀ pk, pk ∈ r ↔ ∃ v rest, (v :: rest, pk) ∈ (run_set "i" true [] (key_op <$> decimal_ops)).1 ∧
      (∀ l, Some (Decimal 2 0) = Some l → key_cmp (key_value l) v ≠ Gt) ∧ (∀ h, None = Some h → key_cmp v (key_value h) ≠ Gt).
Proof.
  apply (index_lookup_range TDecimal [] "i" [0%nat] true decimal_ops (Some (Decimal 2 0)) None);
    [apply decimal_ops_typed|intros v [= <-]; split; [by split|by right]|done].
Defined.

(** The index looks at mantissas only: 0.1 is refused although only 1 is there, and
    the rows from 2 on contain 1.5. *)
Theorem decimal_index_wrong :
  match run_index (T := BTree.BTree.BPlusTree) (new "i" [0%nat] true) decimal_ops with
  | Some (ix, outs) => outs = [Ok tt; Err (Internal "unique index i violated"); Ok tt; Ok tt; Ok tt] ∧
      lookup_range ix (Some (Decimal (J := unit) 2 0)) None = Some [[4]; [3]]
  | None => False
  end.
Proof. by vm_compute. Qed.
End SecondaryIndex.
