(* ===== verification/Tuple.v ===== *)
(** Row encoding ([bytedb-core/src/tuple/tuple.rs]) and the compression of large
    byte values ([bytedb-core/src/compress.rs]).

    LZ4, zstd and the JSON printer and parser are third-party code: parameters
    with the laws the round trips rely on. *)
From S2P Require Import Prelude ByteOrder Value OrderKey.
Import Value OrderKey.

(** ** Third-party codecs *)

(** [lz4_flex::compress]/[decompress], [zstd::bulk::compress] and
    [zstd::stream::decode_all]. *)
Class Codecs : Type := {
  lz4_compress : list Z → list Z;
  lz4_decompress : list Z → Z → option (list Z);
  zstd_compress : list Z → option (list Z);
  zstd_decode : list Z → option (list Z)
}.

Class CodecLaws `{!Codecs} : Prop := {
  lz4_round d : lz4_decompress (lz4_compress d) (zlen d) = Some d;
  lz4_nonempty d : d ≠ [] → lz4_compress d ≠ [];
  zstd_round d z : zstd_compress d = Some z → zstd_decode z = Some d;
  zstd_nonempty d z : zstd_compress d = Some z → z ≠ []
}.

(** [serde_json::from_str]; the printer is [JsonShow]. *)
Class JsonRead (J : Type) : Type := json_from_str : list Z → option J.

(** The text of a value is UTF-8. Whether it is read back as the same value depends on
    the value: floats may change, and deep values are refused. *)
Class JsonLaws (J : Type) `{!JsonShow J, !JsonRead J} (utf8 : list Z → bool) : Prop := {
  json_utf8 j : utf8 (json_to_string j) = true
}.

Module Tuple.

(** ** [compress.rs] *)

Definition MIN_COMPRESS_SIZE : Z := 1024.

Inductive Algo : Type := Lz4 | Zstd.

Section compress.
Context `{!Codecs}.

Definition frame (tag : Z) (data buf : list Z) : list Z :=
  tag :: le_bytes 8 (zlen data) ++ le_bytes 4 (wrap 32 (zlen buf)) ++ buf.

Definition compress (data : list Z) : option (list Z * Algo) :=
  if zlen data <? MIN_COMPRESS_SIZE then None
  else
    let lz4_buf := lz4_compress data in
    if zlen lz4_buf <? zlen data then Some (frame 12 data lz4_buf, Lz4)
    else
      zstd_buf ← zstd_compress data;
      if zlen zstd_buf <? zlen data then Some (frame 13 data zstd_buf, Zstd) else None.

Definition decompress (data : list Z) : option (list Z) :=
  if zlen data <? 13 then None
  else
    tag ← data !! 0%nat;
    let orig_size := le_val (slice data 1 8) in
    let comp_size := le_val (slice data 9 4) in
    if zlen data <? 13 + comp_size then None
    else
      let compressed := slice data 13 comp_size in
      if tag =? 12 then
        out ← lz4_decompress compressed orig_size;
        if zlen out =? orig_size then Some out else None
      else if tag =? 13 then
        out ← zstd_decode compressed;
        if zlen out =? orig_size then Some out else None
      else None.
End compress.

(** ** UTF-8 *)

Definition cont (b : Z) : bool := (128 <=? b) && (b <=? 191).
Definition within (lo hi b : Z) : bool := (lo <=? b) && (b <=? hi).

(** [std::str::from_utf8(..).is_ok()]. *)
Fixpoint utf8_valid (s : list Z) : bool :=
  match s with
  | [] => true
  | b :: s1 =>
      if b <=? 127 then utf8_valid s1
      else
        match s1 with
        | [] => false
        | c :: s2 =>
            if within 194 223 b then cont c && utf8_valid s2
            else
              match s2 with
              | [] => false
              | d :: s3 =>
                  if within 224 239 b then
                    (if b =? 224 then within 160 191 c else if b =? 237 then within 128 159 c else cont c)
                    && cont d && utf8_valid s3
                  else
                    match s3 with
                    | [] => false
                    | e :: s4 =>
                        within 240 244 b &&
                        (if b =? 240 then within 144 191 c else if b =? 244 then within 128 143 c else cont c)
                        && cont d && cont e && utf8_valid s4
                    end
              end
        end
  end.

(** ** Values *)

Definition TAG_NULL : Z := 0.
Definition TAG_BOOL : Z := 1.
Definition TAG_INT64 : Z := 2.
Definition TAG_FLOAT64 : Z := 3.
Definition TAG_TEXT : Z := 4.
Definition TAG_BYTES : Z := 5.
Definition TAG_JSON : Z := 6.
Definition TAG_TIMESTAMP : Z := 7.
Definition TAG_DATE : Z := 8.
Definition TAG_DECIMAL : Z := 9.
Definition TAG_UUID : Z := 10.
Definition TAG_INTERVAL : Z := 11.
Definition TAG_BLOB_REF : Z := 22.

(** Two's complement: [iW::from_le_bytes]. *)
Definition signed (w z : Z) : Z := if z <? 2 ^ (w - 1) then z else z - 2 ^ w.

(** [data[pos]], guarded by [pos < data.len()]. *)
Definition byte_at (data : list Z) (pos : Z) : option Z :=
  if pos <? 0 then None else data !! Z.to_nat pos.

Section tuple.
Context {J : Type} `{!JsonShow J, !JsonRead J} `{!Codecs}.
Implicit Types v : Value J.

Definition len_prefixed (tag : Z) (bytes : list Z) : list Z :=
  tag :: le_bytes 4 (wrap 32 (zlen bytes)) ++ bytes.

Definition encode_value v : list Z :=
  match v with
  | Null => [TAG_NULL]
  | Bool b => [TAG_BOOL; if b then 1 else 0]
  | Int64 n => TAG_INT64 :: le_bytes 8 (wrap 64 n)
  | Float64 f => TAG_FLOAT64 :: le_bytes 8 f
  | Text s => len_prefixed TAG_TEXT s
  | Bytes b =>
      match compress b with
      | Some (compressed, _) => compressed
      | None => len_prefixed TAG_BYTES b
      end
  | Json j => len_prefixed TAG_JSON (json_to_string j)
  | Timestamp t => TAG_TIMESTAMP :: le_bytes 8 (wrap 64 t)
  | Date d => TAG_DATE :: le_bytes 4 (wrap 32 d)
  | Decimal m s => TAG_DECIMAL :: le_bytes 16 (wrap 128 m) ++ [s]
  | Uuid b => TAG_UUID :: b
  | Interval us => TAG_INTERVAL :: le_bytes 8 (wrap 64 us)
  end.

(** The length-prefixed part at [p]: [if p + 4 > data.len() ...], the length,
    and the bytes with the position behind them. *)
Definition read_prefixed (data : list Z) (p : Z) : option (list Z * Z) :=
  l ← get_slice data p 4;
  let len := le_val l in
  b ← get_slice data (p + 4) len;
  Some (b, p + 4 + len).

Definition decode_value (data : list Z) (pos : Z) : option (Value J * Z) :=
  tag ← byte_at data pos;
  let p := pos + 1 in
  if tag =? TAG_NULL then Some (Null, p)
  else if tag =? TAG_BOOL then b ← byte_at data p; Some (Bool (negb (b =? 0)), p + 1)
  else if tag =? TAG_INT64 then b ← get_slice data p 8; Some (Int64 (signed 64 (le_val b)), p + 8)
  else if tag =? TAG_FLOAT64 then b ← get_slice data p 8; Some (Float64 (le_val b), p + 8)
  else if tag =? TAG_TEXT then '(s, e) ← read_prefixed data p; Some (Text s, e)
  else if tag =? TAG_BYTES then '(b, e) ← read_prefixed data p; Some (Bytes b, e)
  else if (tag =? 12) || (tag =? 13) then
    _ ← get_slice data p 13;
    let comp_size := le_val (slice data (p + 8) 4) in
    let stop := pos + 13 + comp_size in
    d ← get_slice data pos (stop - pos);
    b ← decompress d;
    Some (Bytes b, stop)
  else if tag =? TAG_JSON then
    '(s, e) ← read_prefixed data p;
    if utf8_valid s then j ← json_from_str s; Some (Json j, e) else None
  else if tag =? TAG_TIMESTAMP then b ← get_slice data p 8; Some (Timestamp (signed 64 (le_val b)), p + 8)
  else if tag =? TAG_DATE then b ← get_slice data p 4; Some (Date (signed 32 (le_val b)), p + 4)
  else if tag =? TAG_DECIMAL then
    b ← get_slice data p 17;
    s ← byte_at data (p + 16);
    Some (Decimal (signed 128 (le_val (take 16 b))) s, p + 17)
  else if tag =? TAG_UUID then b ← get_slice data p 16; Some (Uuid b, p + 16)
  else if tag =? TAG_INTERVAL then b ← get_slice data p 8; Some (Interval (signed 64 (le_val b)), p + 8)
  else None.

Definition skip_value (data : list Z) (pos : Z) : option Z :=
  tag ← byte_at data pos;
  let p := pos + 1 in
  if tag =? TAG_NULL then Some p
  else if tag =? TAG_BOOL then Some (p + 1)
  else if (tag =? TAG_INT64) || (tag =? TAG_FLOAT64) || (tag =? TAG_TIMESTAMP) then Some (p + 8)
  else if tag =? TAG_DATE then Some (p + 4)
  else if tag =? TAG_UUID then Some (p + 16)
  else if tag =? TAG_DECIMAL then Some (p + 17)
  else if tag =? TAG_INTERVAL then Some (p + 8)
  else if (tag =? 12) || (tag =? 13) then
    _ ← get_slice data p 12;
    Some (p + 13 + le_val (slice data (p + 8) 4))
  else if tag =? TAG_BLOB_REF then _ ← get_slice data p 16; Some (p + 16)
  else if (tag =? TAG_TEXT) || (tag =? TAG_BYTES) || (tag =? TAG_JSON) then
    l ← get_slice data p 4; Some (p + 4 + le_val l)
  else None.

(** ** Rows *)

Definition serialize (values : list (Value J)) : list Z :=
  wrap 8 (zlen values) :: (values ≫= encode_value).

Fixpoint decode_n (n : nat) (data : list Z) (pos : Z) : option (list (Value J)) :=
  match n with
  | O => Some []
  | S n' => '(v, pos') ← decode_value data pos; vs ← decode_n n' data pos'; Some (v :: vs)
  end.

Definition deserialize_to_vec (data : list Z) : option (list (Value J)) :=
  match data with
  | [] => None
  | count :: _ => decode_n (Z.to_nat count) data 1
  end.

Definition deserialize (data : list Z) : option (list (Value J)) := deserialize_to_vec data.

(** The loop of [deserialize_columns]: column [col], [n] columns left, and the
    needed columns not yet met. *)
Fixpoint columns_loop (n : nat) (col : Z) (needed : list Z) (data : list Z) (pos : Z)
    : option (list (Value J)) :=
  match n with
  | O => Some []
  | S n' =>
      match needed with
      | c :: needed' =>
          if c =? col then
            '(v, pos') ← decode_value data pos;
            vs ← columns_loop n' (col + 1) needed' data pos';
            Some (v :: vs)
          else
            pos' ← skip_value data pos;
            vs ← columns_loop n' (col + 1) needed data pos';
            Some (Null :: vs)
      | [] =>
          pos' ← skip_value data pos;
          vs ← columns_loop n' (col + 1) [] data pos';
          Some (Null :: vs)
      end
  end.

Definition deserialize_columns (data : list Z) (needed : list Z) : option (list (Value J)) :=
  match data with
  | [] => None
  | count :: _ => columns_loop (Z.to_nat count) 0 needed data 1
  end.

Definition key_bytes (values : list (Value J)) (key_columns : list nat) : list Z :=
  key_columns ≫= λ i, match values !! i with Some v => encode_value v | None => [] end.

Fixpoint ranges_loop (n : nat) (data : list Z) (pos : Z) : option (list (Z * Z)) :=
  match n with
  | O => Some []
  | S n' => e ← skip_value data pos; rs ← ranges_loop n' data e; Some ((pos, e) :: rs)
  end.

Definition column_ranges (data : list Z) : option (list (Z * Z)) :=
  match data with
  | [] => None
  | count :: _ => ranges_loop (Z.to_nat count) data 1
  end.

Fixpoint blob_loop (n : nat) (data : list Z) (pos : Z) : bool :=
  match n with
  | O => false
  | S n' =>
      match byte_at data pos with
      | None => false
      | Some t =>
          if t =? TAG_BLOB_REF then true
          else match skip_value data pos with Some pos' => blob_loop n' data pos' | None => false end
      end
  end.

Definition has_blob_ref (data : list Z) : bool :=
  match data with [] => false | count :: _ => blob_loop (Z.to_nat count) data 1 end.

Fixpoint collect_loop (n : nat) (data : list Z) (pos : Z) : list (list Z) :=
  match n with
  | O => []
  | S n' =>
      match byte_at data pos with
      | None => []
      | Some t =>
          (if t =? TAG_BLOB_REF then
             match get_slice data (pos + 1) 16 with Some u => [u] | None => [] end
           else []) ++
          match skip_value data pos with Some pos' => collect_loop n' data pos' | None => [] end
      end
  end.

Definition collect_blob_refs (data : list Z) (out : list (list Z)) : list (list Z) :=
  out ++ match data with [] => [] | count :: _ => collect_loop (Z.to_nat count) data 1 end.

Fixpoint skip_n (n : nat) (data : list Z) (pos : Z) : option Z :=
  match n with O => Some pos | S n' => pos' ← skip_value data pos; skip_n n' data pos' end.

Definition column_offset (data : list Z) (col_idx : nat) : option Z :=
  match data with
  | [] => None
  | count :: _ => if count <=? Z.of_nat col_idx then None else skip_n col_idx data 1
  end.

Definition read_int64_at (data : list Z) (col_idx : nat) : option Z :=
  pos ← column_offset data col_idx;
  tag ← byte_at data pos;
  if (tag =? TAG_INT64) || (tag =? TAG_TIMESTAMP) then
    b ← get_slice data (pos + 1) 8; Some (signed 64 (le_val b))
  else None.

Definition read_value_at (data : list Z) (col_idx : nat) : option (Value J) :=
  pos ← column_offset data col_idx;
  '(v, _) ← decode_value data pos;
  Some v.

Definition compare_column_int64 (data : list Z) (col_idx : nat) (literal : Z) : option comparison :=
  pos ← column_offset data col_idx;
  tag ← byte_at data pos;
  if tag =? TAG_NULL then None
  else if (tag =? TAG_INT64) || (tag =? TAG_TIMESTAMP) then
    b ← get_slice data (pos + 1) 8; Some (signed 64 (le_val b) ?= literal)
  else None.

Definition compare_column_float64 (data : list Z) (col_idx : nat) (literal : Z) : option comparison :=
  pos ← column_offset data col_idx;
  tag ← byte_at data pos;
  if tag =? TAG_NULL then None
  else if tag =? TAG_FLOAT64 then b ← get_slice data (pos + 1) 8; f64_cmp (le_val b) literal
  else if tag =? TAG_INT64 then
    b ← get_slice data (pos + 1) 8; f64_cmp (i64_as_f64 (signed 64 (le_val b))) literal
  else None.

Definition compare_column_text (data : list Z) (col_idx : nat) (literal : list Z) : option comparison :=
  pos ← column_offset data col_idx;
  tag ← byte_at data pos;
  if tag =? TAG_NULL then None
  else if tag =? TAG_TEXT then
    '(s, _) ← read_prefixed data (pos + 1);
    if utf8_valid s then Some (bcmp s literal) else None
  else None.

(** What a comparison operator of the filter keeps. *)
Definition op_holds (op : Z) (ord : comparison) : bool :=
  if op =? 0 then bool_decide (ord = Eq)
  else if op =? 1 then bool_decide (ord ≠ Eq)
  else if op =? 2 then bool_decide (ord = Lt)
  else if op =? 3 then bool_decide (ord = Gt)
  else if op =? 4 then bool_decide (ord ≠ Gt)
  else if op =? 5 then bool_decide (ord ≠ Lt)
  else true.

Definition raw_filter_matches (data : list Z) (col_idx : nat) (op : Z) (literal : Value J) : option bool :=
  ord ← match literal with
        | Int64 n => compare_column_int64 data col_idx n
        | Float64 f => compare_column_float64 data col_idx f
        | Text s => compare_column_text data col_idx s
        | _ => None
        end;
  Some (op_holds op ord).
End tuple.

(** ** Reading back what was written *)

Lemma get_slice_mid (data x b y : list Z) off n :
  data = x ++ b ++ y → off = zlen x → n = zlen b → get_slice data off n = Some b.
Proof. intros ->. apply get_slice_app. Qed.

Lemma slice_mid (data x b y : list Z) off n :
  data = x ++ b ++ y → off = zlen x → n = zlen b → slice data off n = b.
Proof. intros -> -> ->. unfold slice, zlen. by rw !Nat2Z.id drop_app_length take_app_length. Qed.

Lemma byte_at_mid (data x y : list Z) b off : data = x ++ b :: y → off = zlen x → byte_at data off = Some b.
Proof.
  intros -> ->. unfold byte_at. pose proof (zlen_nonneg x). destruct (Z.ltb_spec (zlen x) 0); [lia|].
  unfold zlen. rw Nat2Z.id. by apply list_lookup_middle.
Qed.

Lemma zlen_le_bytes' n z : zlen (le_bytes n z) = Z.of_nat n.
Proof. unfold zlen. by rw length_le_bytes. Qed.

Lemma signed_wrap w n : 0 < w → - 2 ^ (w - 1) ≤ n < 2 ^ (w - 1) → signed w (wrap w n) = n.
Proof.
  intros Hw Hn. assert (2 ^ w = 2 * 2 ^ (w - 1)) as Hp.
  { rw -Z.pow_succ_r; [lia|]. f_equal. lia. }
  unfold signed, wrap. destruct (Z.leb_spec 0 n).
  - rw Z.mod_small; [lia|]. destruct (Z.ltb_spec n (2 ^ (w - 1))); lia.
  - assert (n mod 2 ^ w = n + 2 ^ w) as ->.
    { symmetry. apply (Z.mod_unique n (2 ^ w) (-1)); lia. }
    destruct (Z.ltb_spec (n + 2 ^ w) (2 ^ (w - 1))); lia.
Qed.

Lemma le_signed w (k : nat) n :
  0 < w → 2 ^ w = 256 ^ Z.of_nat k → - 2 ^ (w - 1) ≤ n < 2 ^ (w - 1) →
  signed w (le_val (le_bytes k (wrap w n))) = n.
Proof.
  intros Hw Hk Hn. rw le_bytes_val_small; [|by apply signed_wrap].
  rw -Hk. apply wrap_range. lia.
Qed.

Lemma le_len z : 0 ≤ z < 2 ^ 32 → le_val (le_bytes 4 (wrap 32 z)) = z.
Proof. intros. rw wrap_small; [done|]. apply le_bytes_val_small. done. Qed.

Section roundtrip.
Context `{!Codecs, !CodecLaws}.

Lemma compress_frame d out a :
  compress d = Some (out, a) →
  ∃ tag buf, out = frame tag d buf ∧ (tag = 12 ∨ tag = 13) ∧ 0 < zlen buf < zlen d ∧
    (if tag =? 12 then lz4_decompress buf (zlen d) else zstd_decode buf) = Some d.
Proof.
  unfold compress, MIN_COMPRESS_SIZE. destruct (Z.ltb_spec (zlen d) 1024); [done|].
  assert (d ≠ []) as Hd by (intros ->; unfold zlen in *; simpl in *; lia).
  assert (∀ b : list Z, b ≠ [] → 0 < zlen b) as Hpos by (intros [|x b] ?; [done|unfold zlen; simpl; lia]).
  destruct (Z.ltb_spec (zlen (lz4_compress d)) (zlen d)).
  - intros [= <- <-]. exists 12, (lz4_compress d). split_and!; [done|by left| |done|apply lz4_round].
    apply Hpos. by apply lz4_nonempty.
  - destruct (zstd_compress d) as [z|] eqn:Hz; [|done]. cbn.
    destruct (Z.ltb_spec (zlen z) (zlen d)); [|done]. intros [= <- <-].
    exists 13, z. split_and!; [done|by right| |done|by apply zstd_round].
    apply Hpos. by apply (zstd_nonempty d).
Qed.

Lemma decompress_frame tag d buf :
  (tag = 12 ∨ tag = 13) → zlen d < 2 ^ 32 → zlen buf < zlen d →
  (if tag =? 12 then lz4_decompress buf (zlen d) else zstd_decode buf) = Some d →
  decompress (frame tag d buf) = Some d.
Proof.
  intros Htag Hd Hbuf Hdec. pose proof (zlen_nonneg buf). unfold decompress, frame.
  set (data := tag :: _).
  assert (zlen data = 13 + zlen buf) as Hlen.
  { unfold data. rw zlen_cons !zlen_app !zlen_le_bytes'. lia. }
  destruct (Z.ltb_spec (zlen data) 13); [lia|]. cbn [lookup list_lookup data mbind option_bind].
  assert (slice data 1 8 = le_bytes 8 (zlen d)) as ->.
  { by apply (slice_mid data [tag] _ (le_bytes 4 (wrap 32 (zlen buf)) ++ buf)). }
  assert (slice data 9 4 = le_bytes 4 (wrap 32 (zlen buf))) as ->.
  { apply (slice_mid data (tag :: le_bytes 8 (zlen d)) _ buf); [done|..].
    - by rw zlen_cons zlen_le_bytes'.
    - by rw zlen_le_bytes'. }
  rw le_len; [lia|]. rw le_bytes_val_small; [split; [apply zlen_nonneg|lia]|].
  destruct (Z.ltb_spec (zlen data) (13 + zlen buf)); [lia|].
  assert (slice data 13 (zlen buf) = buf) as ->.
  { apply (slice_mid data (tag :: le_bytes 8 (zlen d) ++ le_bytes 4 (wrap 32 (zlen buf))) _ []); [|..|done].
    - unfold data. by rw app_nil_r -app_comm_cons -app_assoc.
    - by rw zlen_cons zlen_app !zlen_le_bytes'. }
  destruct Htag as [-> | ->]; cbn in Hdec |- *; rw Hdec; cbn; by rw Z.eqb_refl.
Qed.

(** Compression is lossless: what [compress] produces, [decompress] turns
    back into the original bytes. *)
Theorem compress_round_trip d out a :
  zlen d < 2 ^ 32 → compress d = Some (out, a) → decompress out = Some d.
Proof.
  intros Hd Hc. destruct (compress_frame d out a Hc) as (tag & buf & -> & Htag & Hlen & Hdec).
  apply decompress_frame; [done|done|lia|done].
Qed.

Context {J : Type} `{!JsonShow J, !JsonRead J, !JsonLaws J utf8_valid}.
Implicit Types v : Value J.

(** Lengths that fit the 32-bit length field, and JSON values that are read back from
    their texts. *)
Definition fits v : Prop :=
  match v with
  | Text s | Bytes s => zlen s < 2 ^ 32
  | Json j => zlen (json_to_string j) < 2 ^ 32 ∧ json_from_str (json_to_string j) = Some j
  | _ => True
  end.

(** A byte value stored compressed. *)
Definition compressed v : bool :=
  match v with Bytes b => if compress b is Some _ then true else false | _ => false end.

Section at_pos.
Context (data pre post : list Z).

Lemma tag_at tag body : data = pre ++ (tag :: body) ++ post → byte_at data (zlen pre) = Some tag.
Proof. intros ->. by apply (byte_at_mid _ pre (body ++ post)). Qed.

Lemma body_at tag body n :
  data = pre ++ (tag :: body) ++ post → n = zlen body → get_slice data (zlen pre + 1) n = Some body.
Proof.
  intros -> ->. apply (get_slice_mid _ (pre ++ [tag]) body post); [by rw -app_assoc| |done].
  by rw zlen_app.
Qed.

Lemma prefixed_at tag b :
  data = pre ++ len_prefixed tag b ++ post → zlen b < 2 ^ 32 →
  read_prefixed data (zlen pre + 1) = Some (b, zlen pre + zlen (len_prefixed tag b)) ∧
  get_slice data (zlen pre + 1) 4 = Some (le_bytes 4 (wrap 32 (zlen b))).
Proof.
  intros -> Hb. pose proof (zlen_nonneg b). unfold len_prefixed, read_prefixed. set (l4 := le_bytes 4 _).
  assert (zlen l4 = 4) as Hl4 by apply zlen_le_bytes'.
  rw (get_slice_mid _ (pre ++ [tag]) l4 (b ++ post)); [by rw -!app_assoc|by rw zlen_app|done|]. cbn [mbind option_bind].
  assert (le_val l4 = zlen b) as Hv by (unfold l4; apply le_len; lia). rw Hv. split; [|done].
  rw (get_slice_mid _ (pre ++ tag :: l4) b post); [by simplify_list_eq| |done|].
  - rw zlen_app zlen_cons Hl4. lia.
  - cbn [mbind option_bind]. do 2 f_equal. rw zlen_cons zlen_app Hl4. lia.
Qed.

Lemma frame_at tag d buf :
  data = pre ++ frame tag d buf ++ post → 0 < zlen buf < 2 ^ 32 →
  is_Some (get_slice data (zlen pre + 1) 13) ∧ is_Some (get_slice data (zlen pre + 1) 12) ∧
  le_val (slice data (zlen pre + 1 + 8) 4) = zlen buf ∧
  zlen (frame tag d buf) = 13 + zlen buf ∧
  get_slice data (zlen pre) (13 + zlen buf) = Some (frame tag d buf).
Proof.
  intros Hd Hbuf. assert (zlen (frame tag d buf) = 13 + zlen buf) as Hl.
  { unfold frame. rw zlen_cons !zlen_app !zlen_le_bytes'. lia. }
  pose proof (zlen_nonneg pre). pose proof (zlen_nonneg post).
  assert (zlen data = zlen pre + (13 + zlen buf) + zlen post) as Hdl by (rw Hd !zlen_app Hl; lia).
  split_and!; [rw get_slice_Some; [lia..|done]|rw get_slice_Some; [lia..|done]| |done|].
  - rw (slice_mid data (pre ++ tag :: le_bytes 8 (zlen d)) (le_bytes 4 (wrap 32 (zlen buf))) (buf ++ post)).
    + rw Hd. unfold frame. by simplify_list_eq.
    + rw zlen_app zlen_cons zlen_le_bytes'. lia.
    + by rw zlen_le_bytes'.
    + apply le_len. lia.
  - by apply (get_slice_mid data pre _ post).
Qed.
End at_pos.

(** Reading the value at its position gives it back, and its end. *)
Lemma decode_encode_value v data pre post :
  value_ok v → fits v → data = pre ++ encode_value v ++ post →
  decode_value data (zlen pre) = Some (v, zlen pre + zlen (encode_value v)).
Proof.
  intros Hok Hfit Hd. unfold decode_value.
  assert (∀ (tag : Z) (k : nat) z, zlen (tag :: le_bytes k z) = 1 + Z.of_nat k) as Hz.
  { intros. by rw zlen_cons zlen_le_bytes'. }
  assert (∀ tag (k : nat) z, data = pre ++ (tag :: le_bytes k z) ++ post →
            get_slice data (zlen pre + 1) (Z.of_nat k) = Some (le_bytes k z)) as Hget.
  { intros tag k z Hdd. apply (body_at data pre post tag); [done|]. by rw zlen_le_bytes'. }
  destruct v as [|b|n|f|s|b|j|t|d|m sc|u|us]; cbn [encode_value value_ok fits] in *; unfold i64_ok, i32_ok, i128_ok in *.
  - by rw (tag_at data pre post _ [] Hd).
  - rw (tag_at data pre post _ _ Hd). cbn -[le_bytes zlen get_slice].
    rw (byte_at_mid data (pre ++ [TAG_BOOL]) post (if b then 1 else 0)); [rw Hd; by simplify_list_eq|by rw zlen_app|].
    cbn. rw !zlen_cons zlen_nil. do 2 f_equal; [by destruct b|lia].
  - rw (tag_at data pre post _ _ Hd). cbn -[le_bytes zlen get_slice]. rw (Hget _ 8%nat _ Hd). cbn [mbind option_bind].
    rw Hz (le_signed 64 8); [done..|]. do 2 f_equal. lia.
  - rw (tag_at data pre post _ _ Hd). cbn -[le_bytes zlen get_slice]. rw (Hget _ 8%nat _ Hd). cbn [mbind option_bind].
    rw Hz le_bytes_val_small; [done|]. do 2 f_equal. lia.
  - destruct (prefixed_at data pre post TAG_TEXT s Hd Hfit) as [Hp _].
    rw (tag_at data pre post _ _ Hd). cbn -[le_bytes zlen get_slice]. by rw Hp.
  - destruct (compress b) as [[out a]|] eqn:Hc.
    + destruct (compress_frame b out a Hc) as (tag & buf & -> & Htag & Hbl & Hdec).
      destruct (frame_at data pre post tag b buf Hd) as ([x Hx] & _ & Hcs & Hfl & Hfr); [lia|].
      pose proof (decompress_frame tag b buf Htag Hfit (proj2 Hbl) Hdec) as Hdc.
      rw (tag_at data pre post tag _ Hd). destruct Htag as [-> | ->]; cbn -[le_bytes zlen get_slice slice decompress frame];
        rw Hx; cbn [mbind option_bind]; rw Hcs; replace (zlen pre + 13 + zlen buf - zlen pre) with (13 + zlen buf) by lia;
        rw Hfr; cbn [mbind option_bind]; rw Hdc; cbn [mbind option_bind]; do 2 f_equal; lia.
    + destruct (prefixed_at data pre post TAG_BYTES b Hd Hfit) as [Hp _].
      rw (tag_at data pre post _ _ Hd). cbn -[le_bytes zlen get_slice]. by rw Hp.
  - destruct Hfit as [Hfit Hj]. destruct (prefixed_at data pre post TAG_JSON _ Hd Hfit) as [Hp _].
    rw (tag_at data pre post _ _ Hd). cbn -[le_bytes zlen get_slice]. rw Hp. cbn [mbind option_bind]. by rw json_utf8 Hj.
  - rw (tag_at data pre post _ _ Hd). cbn -[le_bytes zlen get_slice]. rw (Hget _ 8%nat _ Hd). cbn [mbind option_bind].
    rw Hz (le_signed 64 8); [done..|]. do 2 f_equal. lia.
  - rw (tag_at data pre post _ _ Hd). cbn -[le_bytes zlen get_slice]. rw (Hget _ 4%nat _ Hd). cbn [mbind option_bind].
    rw Hz (le_signed 32 4); [done..|]. do 2 f_equal. lia.
  - rw (tag_at data pre post _ _ Hd). cbn [mbind option_bind]. set (l16 := le_bytes 16 (wrap 128 m)) in *.
    assert (zlen l16 = 16) as Hl by apply zlen_le_bytes'.
    rw (body_at data pre post TAG_DECIMAL (l16 ++ [sc]) 17 Hd); [by rw zlen_app Hl|]. cbn -[take le_bytes zlen].
    rw (byte_at_mid data (pre ++ TAG_DECIMAL :: l16) post sc);
      [rw Hd; by simplify_list_eq|rw zlen_app zlen_cons Hl; lia|]. cbn -[take le_bytes zlen].
    rw take_app_length'; [unfold l16; by rw length_le_bytes|]. unfold l16 at 1.
    rw (le_signed 128 16); [done|done|apply Hok|]. rw zlen_cons zlen_app Hl zlen_cons zlen_nil. do 2 f_equal. lia.
  - destruct Hok as [_ Hu]. rw (tag_at data pre post _ _ Hd). cbn -[le_bytes zlen get_slice].
    rw (body_at data pre post TAG_UUID u 16 Hd); [unfold zlen; by rw Hu|]. cbn. rw zlen_cons. unfold zlen at 3. rw Hu.
    do 2 f_equal. lia.
  - rw (tag_at data pre post _ _ Hd). cbn -[le_bytes zlen get_slice]. rw (Hget _ 8%nat _ Hd). cbn [mbind option_bind].
    rw Hz (le_signed 64 8); [done..|]. do 2 f_equal. lia.
Qed.

(** Skipping it reaches its end too, unless it is compressed: then [skip_value]
    is one byte too far. *)
Lemma skip_encode_value v data pre post :
  value_ok v → fits v → data = pre ++ encode_value v ++ post →
  skip_value data (zlen pre) =
    Some (zlen pre + zlen (encode_value v) + if compressed v then 1 else 0).
Proof.
  intros Hok Hfit Hd. unfold skip_value.
  assert (∀ (tag : Z) (k : nat) z, zlen (tag :: le_bytes k z) = 1 + Z.of_nat k) as Hz.
  { intros. by rw zlen_cons zlen_le_bytes'. }
  assert (∀ tag b, data = pre ++ len_prefixed tag b ++ post → zlen b < 2 ^ 32 →
            (l ← get_slice data (zlen pre + 1) 4; Some (zlen pre + 1 + 4 + le_val l)) =
            Some (zlen pre + zlen (len_prefixed tag b) + 0)) as Hpf.
  { intros tag b Hdd Hb. pose proof (zlen_nonneg b). destruct (prefixed_at data pre post tag b Hdd Hb) as [_ ->].
    cbn [mbind option_bind]. rw le_len; [lia|]. unfold len_prefixed. rw zlen_cons zlen_app zlen_le_bytes'.
    f_equal. lia. }
  destruct v as [|b|n|f|s|b|j|t|d|m sc|u|us]; cbn [encode_value value_ok fits compressed] in *.
  6: { destruct (compress b) as [[out a]|] eqn:Hc.
    - destruct (compress_frame b out a Hc) as (tag & buf & -> & Htag & Hbl & Hdec).
      destruct (frame_at data pre post tag b buf Hd) as (_ & [x Hx] & Hcs & Hfl & _); [lia|].
      rw (tag_at data pre post tag _ Hd).
      destruct Htag as [-> | ->]; cbn -[le_bytes zlen get_slice slice frame]; rw Hx; cbn [mbind option_bind];
        rw Hcs Hfl; f_equal; lia.
    - rw (tag_at data pre post _ _ Hd). cbn -[le_bytes zlen get_slice len_prefixed]. by apply Hpf. }
  all: rw (tag_at data pre post _ _ Hd); cbn -[le_bytes zlen get_slice len_prefixed]; try (first [by apply Hpf | by destruct Hfit; apply Hpf]).
  all: rw ?Hz ?zlen_cons ?zlen_app ?zlen_le_bytes' ?zlen_cons ?zlen_nil; try (f_equal; lia).
  destruct Hok as [_ Hu]. unfold zlen at 3. rw Hu. f_equal. lia.
Qed.

(** A value is read back from where it was written, whatever stands before
    and after it, and the position behind it is the end of its encoding. *)
Theorem value_round_trip v pre post :
  value_ok v → fits v →
  decode_value (pre ++ encode_value v ++ post) (zlen pre) =
    Some (v, zlen pre + zlen (encode_value v)).
Proof. intros. by apply (decode_encode_value v _ pre post). Qed.

(** [skip_value] steps over a value to where [decode_value] ends, except over
    a compressed byte value, where it lands one byte too far. *)
Theorem skip_value_end v pre post :
  value_ok v → fits v →
  skip_value (pre ++ encode_value v ++ post) (zlen pre) =
    (λ r, r.2 + if compressed v then 1 else 0) <$> decode_value (J := J) (pre ++ encode_value v ++ post) (zlen pre).
Proof.
  intros Hok Hfit. rw (decode_encode_value v _ pre post); [done..|].
  by rw (skip_encode_value v _ pre post).
Qed.

(** ** Rows *)

Definition row_fits (vs : list (Value J)) : Prop := Forall value_ok vs ∧ Forall fits vs.

Lemma decode_n_rows vs data pre post :
  row_fits vs → data = pre ++ (vs ≫= encode_value) ++ post →
  decode_n (length vs) data (zlen pre) = Some vs.
Proof.
  intros [Hok Hfit]. revert pre. induction vs as [|v vs IH]; intros pre Hd; [done|].
  apply Forall_cons in Hok as [Hv Hok]. apply Forall_cons in Hfit as [Hf Hfit].
  cbn [mbind list_bind] in Hd. rw -app_assoc in Hd. cbn [length decode_n].
  rw (decode_encode_value v data pre _ Hv Hf Hd). cbn [mbind option_bind].
  rw -zlen_app (IH Hok Hfit (pre ++ encode_value v)); [by rw Hd -app_assoc|]. done.
Qed.

Lemma row_decodes vs : row_fits vs → zlen vs ≤ 255 → deserialize (serialize vs) = Some vs.
Proof.
  intros Hr Hl. unfold deserialize, deserialize_to_vec, serialize. pose proof (zlen_nonneg vs).
  rw wrap_small; [lia|]. unfold zlen at 1. rw Nat2Z.id.
  apply (decode_n_rows vs _ [zlen vs] []); [done|]. by rw app_nil_r.
Qed.

(** C18: A row survives serialization if it has at most 255 columns, its numbers and
    the lengths of its values fit their fields, and each of its JSON values is read
    back from its text. *)
Theorem row_round_trip vs :
  row_fits vs → zlen vs ≤ 255 → deserialize (serialize vs) = Some vs.
Proof. apply row_decodes. Qed.

(** Columns before the one sought are stored uncompressed. *)
Definition plain (vs : list (Value J)) : Prop := Forall (λ v, compressed v = false) vs.

Lemma skip_n_rows vs data pre post :
  row_fits vs → plain vs → data = pre ++ (vs ≫= encode_value) ++ post →
  skip_n (length vs) data (zlen pre) = Some (zlen (pre ++ (vs ≫= encode_value))).
Proof.
  intros [Hok Hfit] Hp. revert pre. induction vs as [|v vs IH]; intros pre Hd.
  { cbn. by rw app_nil_r. }
  apply Forall_cons in Hok as [Hv Hok]. apply Forall_cons in Hfit as [Hf Hfit]. apply Forall_cons in Hp as [Hc Hp].
  cbn [mbind list_bind] in Hd |- *. rw -app_assoc in Hd. cbn [length skip_n].
  rw (skip_encode_value v data pre _ Hv Hf Hd) Hc Z.add_0_r. cbn [mbind option_bind].
  rw -zlen_app (IH Hok Hfit Hp (pre ++ encode_value v)); [by rw Hd -app_assoc|]. by rw -app_assoc.
Qed.

Lemma serialize_split vs (i : nat) v :
  vs !! i = Some v → zlen vs ≤ 255 →
  ∃ post, serialize vs = ([zlen vs] ++ (take i vs ≫= encode_value)) ++ encode_value v ++ post.
Proof.
  intros Hi Hl. unfold serialize. pose proof (zlen_nonneg vs). rw wrap_small; [lia|].
  exists (drop (S i) vs ≫= encode_value). rw -{2}(take_drop_middle vs i v Hi) bind_app. by simplify_list_eq.
Qed.

Lemma row_fits_take vs (i : nat) : row_fits vs → row_fits (take i vs).
Proof. intros [? ?]. split; by apply Forall_take. Qed.

(** The offset of a column. *)
Lemma column_offset_row vs (i : nat) v :
  row_fits vs → plain (take i vs) → zlen vs ≤ 255 → vs !! i = Some v →
  column_offset (serialize vs) i = Some (zlen ([zlen vs] ++ (take i vs ≫= encode_value))).
Proof.
  intros Hr Hp Hl Hi. destruct (serialize_split vs i v Hi Hl) as [post Hs].
  pose proof (lookup_lt_Some vs i v Hi) as Hlt. unfold column_offset. rw Hs. cbn [app].
  destruct (Z.leb_spec (zlen vs) (Z.of_nat i)); [unfold zlen in *; lia|].
  pose proof (skip_n_rows (take i vs) (serialize vs) [zlen vs] (encode_value v ++ post) (row_fits_take vs i Hr) Hp) as Hsk.
  rw length_take_le in Hsk; [lia|]. rw Hs in Hsk. cbn [app] in Hsk. apply Hsk. by simplify_list_eq.
Qed.

(** Random access: the value read at a column of a serialized row is that
    column, when no column before it is stored compressed. *)
Theorem read_value_at_row vs (i : nat) v :
  row_fits vs → plain (take i vs) → zlen vs ≤ 255 → vs !! i = Some v →
  read_value_at (serialize vs) i = Some v.
Proof.
  intros Hr Hp Hl Hi. unfold read_value_at. rw (column_offset_row vs i v Hr Hp Hl Hi). cbn [mbind option_bind].
  destruct (serialize_split vs i v Hi Hl) as [post Hs]. destruct Hr as [Hok Hfit].
  rw (decode_encode_value v _ _ post); [..|exact Hs|done].
  - rw Forall_lookup in Hok. by apply (Hok i).
  - rw Forall_lookup in Hfit. by apply (Hfit i).
Qed.

(** The columns asked for; NULL in the others. *)
Fixpoint keep_columns (col : Z) (needed : list Z) (vs : list (Value J)) : list (Value J) :=
  match vs with
  | [] => []
  | v :: vs' => (if bool_decide (col ∈ needed) then v else Null) :: keep_columns (col + 1) needed vs'
  end.

Lemma keep_columns_drop c col needed vs :
  c < col → keep_columns col (c :: needed) vs = keep_columns col needed vs.
Proof.
  revert col. induction vs as [|v vs IH]; intros col Hc; [done|]. cbn [keep_columns].
  rw IH; [lia|]. f_equal.
  assert (bool_decide (col ∈ c :: needed) = bool_decide (col ∈ needed)) as ->; [|done].
  apply bool_decide_ext. rw elem_of_cons. split; [|by right]. intros [->|?]; [lia|done].
Qed.

Lemma columns_loop_rows vs col needed data pre post :
  row_fits vs → plain vs → data = pre ++ (vs ≫= encode_value) ++ post →
  StronglySorted Z.lt needed → Forall (λ c, col ≤ c) needed →
  columns_loop (length vs) col needed data (zlen pre) = Some (keep_columns col needed vs).
Proof.
  intros [Hok Hfit] Hp. revert pre col needed. induction vs as [|v vs IH]; intros pre col needed Hd Hs Hn; [done|].
  apply Forall_cons in Hok as [Hv Hok]. apply Forall_cons in Hfit as [Hf Hfit]. apply Forall_cons in Hp as [Hc Hp].
  cbn [mbind list_bind] in Hd. rw -app_assoc in Hd. cbn [length columns_loop keep_columns].
  pose proof (decode_encode_value v data pre _ Hv Hf Hd) as Hdec.
  pose proof (skip_encode_value v data pre _ Hv Hf Hd) as Hsk. rw Hc Z.add_0_r in Hsk.
  assert (data = (pre ++ encode_value v) ++ (vs ≫= encode_value) ++ post) as Hd' by (by rw Hd -app_assoc).
  destruct needed as [|c needed].
  { rw Hsk. cbn [mbind option_bind]. by rw -zlen_app (IH Hok Hfit Hp _ (col + 1) [] Hd'). }
  apply StronglySorted_cons in Hs as [Hlt Hs]. apply Forall_cons in Hn as [Hcc Hn].
  destruct (Z.eqb_spec c col) as [->|Hne].
  - rw Hdec. cbn [mbind option_bind]. rw -zlen_app (IH Hok Hfit Hp _ (col + 1) needed Hd'); [done| |].
    + apply (Forall_impl _ _ _ Hlt). intros; lia.
    + cbn [mbind option_bind]. rw bool_decide_true; [by left|]. by rw keep_columns_drop; [lia|].
  - rw Hsk. cbn [mbind option_bind]. rw -zlen_app (IH Hok Hfit Hp _ (col + 1) (c :: needed) Hd').
    + by constructor.
    + constructor; [lia|]. apply (Forall_impl _ _ _ Hlt). intros; lia.
    + cbn [mbind option_bind]. rw bool_decide_false; [|done]. rw Forall_forall in Hlt.
      intros [->|Hin]%elem_of_cons; [done|]. specialize (Hlt _ Hin). lia.
Qed.

(** Projection: decoding only the columns asked for (listed in increasing
    order) gives those columns, and NULL in the others, when no column is
    stored compressed. *)
Theorem deserialize_columns_row vs needed :
  row_fits vs → plain vs → zlen vs ≤ 255 → StronglySorted Z.lt needed → Forall (λ c, 0 ≤ c) needed →
  deserialize_columns (serialize vs) needed = Some (keep_columns 0 needed vs).
Proof.
  intros Hr Hp Hl Hs Hn. unfold deserialize_columns, serialize. pose proof (zlen_nonneg vs).
  rw wrap_small; [lia|]. unfold zlen at 1. rw Nat2Z.id.
  apply (columns_loop_rows vs 0 needed _ [zlen vs] []); try done. by rw app_nil_r.
Qed.

(** What the filter on the encoded row compares a column with. *)
Definition filter_order v (lit : Value J) : option comparison :=
  match lit, v with
  | Int64 n, Int64 x | Int64 n, Timestamp x => Some (x ?= n)
  | Float64 f, Float64 g => f64_cmp g f
  | Float64 f, Int64 x => f64_cmp (i64_as_f64 x) f
  | Text s, Text t => if utf8_valid t then Some (bcmp t s) else None
  | _, _ => None
  end.

Lemma compressed_tag b data pre post :
  data = pre ++ encode_value (J := J) (Bytes b) ++ post →
  ∃ tag, byte_at data (zlen pre) = Some tag ∧ (tag = 5 ∨ tag = 12 ∨ tag = 13).
Proof.
  cbn [encode_value]. destruct (compress b) as [[out a]|] eqn:Hc; intros Hd.
  - destruct (compress_frame b out a Hc) as (tag & buf & -> & Htag & _). exists tag.
    split; [by apply (tag_at data pre post _ _ Hd)|naive_solver].
  - exists TAG_BYTES. split; [by apply (tag_at data pre post _ _ Hd)|by left].
Qed.

Lemma raw_filter_spec vs (i : nat) v op lit :
  row_fits vs → plain (take i vs) → zlen vs ≤ 255 → vs !! i = Some v →
  raw_filter_matches (serialize vs) i op lit = op_holds op <$> filter_order v lit.
Proof.
  intros Hr Hp Hl Hi. pose proof (column_offset_row vs i v Hr Hp Hl Hi) as Hoff.
  destruct (serialize_split vs i v Hi Hl) as [post Hs]. destruct Hr as [Hok Hfit].
  assert (value_ok v) as Hv by (rw Forall_lookup in Hok; by apply (Hok i)).
  assert (fits v) as Hf by (rw Forall_lookup in Hfit; by apply (Hfit i)).
  unfold raw_filter_matches, compare_column_int64, compare_column_float64, compare_column_text.
  rw Hoff. cbn [mbind option_bind]. set (data := serialize vs) in *. set (pre := [zlen vs] ++ _) in *. clearbody pre.
  assert (∀ tag z, data = pre ++ (tag :: le_bytes 8 z) ++ post →
            get_slice data (zlen pre + 1) 8 = Some (le_bytes 8 z)) as Hget.
  { intros tag z Hdd. apply (body_at data pre post tag); [done|]. by rw zlen_le_bytes'. }
  destruct v as [|b|n|f|s|b|j|t|d|m sc|u|us].
  6: { destruct (compressed_tag b data pre post Hs) as (tag & -> & Htag). cbn [mbind option_bind].
       destruct Htag as [->|[->| ->]]; by destruct lit. }
  all: cbn [encode_value value_ok fits] in *; rw (tag_at data pre post _ _ Hs); destruct lit;
    cbn -[le_bytes zlen get_slice read_prefixed]; try done.
  - rw (Hget _ _ Hs). cbn [mbind option_bind]. by rw (le_signed 64 8).
  - rw (Hget _ _ Hs). cbn [mbind option_bind]. rw (le_signed 64 8); [done..|]. by destruct (f64_cmp _ _).
  - rw (Hget _ _ Hs). cbn [mbind option_bind]. rw le_bytes_val_small; [done|]. by destruct (f64_cmp _ _).
  - destruct (prefixed_at data pre post TAG_TEXT s Hs Hf) as [-> _]. cbn [mbind option_bind].
    by destruct (utf8_valid s).
  - rw (Hget _ _ Hs). cbn [mbind option_bind]. by rw (le_signed 64 8).
Qed.

(** Filtering without decoding: on an encoded row, [raw_filter_matches]
    compares the stored column with the literal directly; it answers exactly
    for integer, float and text literals against columns of a matching type,
    and then as the decoded values compare. *)
Theorem raw_filter_row vs (i : nat) v op lit :
  row_fits vs → plain (take i vs) → zlen vs ≤ 255 → vs !! i = Some v →
  raw_filter_matches (serialize vs) i op lit = op_holds op <$> filter_order v lit.
Proof. apply raw_filter_spec. Qed.

(** Behind a compressed column random access misreads: the integer 0 stored
    after a compressed byte value is read as NULL. *)
Theorem compressed_column_misread b :
  value_ok (J := J) (Bytes b) → fits (Bytes b) → compressed (Bytes b) = true →
  read_value_at (serialize (J := J) [Bytes b; Int64 0]) 1 = Some Null ∧
  deserialize (serialize [Bytes b; Int64 (J := J) 0]) = Some [Bytes b; Int64 0].
Proof.
  intros Hok Hfit Hc. split.
  - unfold read_value_at, column_offset, serialize. change (wrap 8 (zlen [Bytes b; Int64 0])) with 2.
    set (data := 2 :: _). change (2 <=? Z.of_nat 1) with false. cbn [skip_n].
    assert (data = [2] ++ encode_value (J := J) (Bytes b) ++ encode_value (J := J) (Int64 0)) as Hd.
    { unfold data. cbn [mbind list_bind]. by rw app_nil_r. }
    rw (skip_encode_value (Bytes b) data [2] _ Hok Hfit Hd) Hc. change (if true then 1 else 0) with 1. cbn [mbind option_bind].
    unfold decode_value. rw (byte_at_mid data ([2] ++ encode_value (J := J) (Bytes b) ++ [2]) (le_bytes 7 0) 0
      (zlen [2] + zlen (encode_value (J := J) (Bytes b)) + 1)).
    + rw Hd. by simplify_list_eq.
    + rw !zlen_app. change (zlen [2]) with 1. lia.
    + done.
  - apply (decode_n_rows [Bytes b; Int64 0] _ [2] []); [|by rw app_nil_r].
    split; repeat constructor; done.
Qed.
End roundtrip.

(** ** Concrete codecs, for the witnesses *)

Definition zeros : list Z := replicate 1024 0.

(** A codec that compresses one block and copies everything else. *)
#[local] Instance sample_codecs : Codecs := {
  lz4_compress d := if bool_decide (d = zeros) then [7] else 9 :: d;
  lz4_decompress b _ := match b with [] => None | t :: d => Some (if t =? 7 then zeros else d) end;
  zstd_compress d := Some (1 :: d);
  zstd_decode b := match b with [] => None | _ :: d => Some d end
}.

#[local] Instance sample_codec_laws : CodecLaws.
Proof.
  split; cbn -[zeros].
  - intros d. by case_bool_decide as H; [rw H|].
  - intros d _. by case_bool_decide.
  - by intros d z [= <-].
  - by intros d z [= <-].
Qed.

#[local] Instance sample_show : JsonShow unit := λ _, [110].
#[local] Instance sample_read : JsonRead unit := λ _, Some tt.
#[local] Instance sample_json : JsonLaws unit utf8_valid.
Proof. split. by intros []. Qed.

Definition sample_row : list (Value unit) := [Int64 (-5); Null; Text [104; 105]; Float64 0].

Lemma sample_row_fits : row_fits sample_row.
Proof. split; repeat constructor; done. Qed.

Lemma sample_plain n : plain (take n sample_row).
Proof. apply Forall_take. by repeat constructor. Qed.

Lemma zeros_ok : value_ok (J := unit) (Bytes zeros) ∧ fits (J := unit) (Bytes zeros) ∧ compressed (J := unit) (Bytes zeros) = true.
Proof. split_and!; [|done|by vm_compute]. cbn -[zeros]. unfold bytes_ok, zeros. apply Forall_replicate. done. Qed.

Lemma compress_round_trip_witness : decompress (frame 12 zeros [7]) = Some zeros.
Proof. apply (compress_round_trip zeros (frame 12 zeros [7]) Lz4); by vm_compute. Defined.

Lemma value_round_trip_witness :
  decode_value ([1; 2] ++ encode_value (Date (J := unit) (-7)) ++ [3]) 2 = Some (Date (J := unit) (-7), 7).
Proof. apply (value_round_trip (Date (J := unit) (-7)) [1; 2] [3]); done. Defined.

Lemma skip_value_end_witness :
  skip_value ([0] ++ encode_value (Bytes (J := unit) zeros) ++ [3]) 1 =
    (λ r, r.2 + if compressed (J := unit) (Bytes zeros) then 1 else 0) <$>
      decode_value (J := unit) ([0] ++ encode_value (Bytes (J := unit) zeros) ++ [3]) 1.
Proof. apply (skip_value_end (Bytes (J := unit) zeros) [0] [3]); apply zeros_ok. Defined.

Lemma row_round_trip_witness : deserialize (serialize sample_row) = Some sample_row.
Proof. apply row_round_trip; [apply sample_row_fits|done]. Defined.

Lemma read_value_at_row_witness : read_value_at (serialize sample_row) 2 = Some (Text (J := unit) [104; 105]).
Proof. apply (read_value_at_row sample_row 2); [apply sample_row_fits|apply sample_plain|done|done]. Defined.

Lemma deserialize_columns_row_witness :
  deserialize_columns (serialize sample_row) [0; 3] = Some [Int64 (J := unit) (-5); Null; Null; Float64 0].
Proof.
  apply (deserialize_columns_row sample_row [0; 3]);
    [apply sample_row_fits|apply (sample_plain 4)|done|repeat constructor|repeat constructor]; done.
Defined.

Lemma raw_filter_row_witness :
  raw_filter_matches (serialize sample_row) 0 2 (Int64 (J := unit) 3) = Some true.
Proof. apply (raw_filter_row sample_row 0 (Int64 (-5))); [apply sample_row_fits|apply sample_plain|done|done]. Defined.

Lemma compressed_column_misread_witness :
  read_value_at (serialize (J := unit) [Bytes zeros; Int64 0]) 1 = Some Null ∧
  deserialize (serialize [Bytes zeros; Int64 (J := unit) 0]) = Some [Bytes zeros; Int64 0].
Proof. apply (compressed_column_misread zeros); apply zeros_ok. Defined.
End Tuple.
