(* ===== verification/Schema.v ===== *)
(** Schemas, row validation and sequences ([bytedb-core/src/tuple/schema.rs] and
    [Tuple::validate] of [tuple.rs]). *)
From S2P Require Import Prelude ByteOrder Value.
Import Value.

Module Schema.

Section schema.
Context {J : Type}.

Record Column : Type := mkColumn {
  col_name : string;
  col_data_type : DataType;
  nullable : bool;
  primary_key : bool;
  unique : bool;
  auto_increment : bool;
  col_default : option (Value J);
  max_length : option Z
}.

Definition column_new (name : string) (data_type : DataType) : Column :=
  mkColumn name data_type true false false false None None.

Definition not_null (c : Column) : Column :=
  mkColumn (col_name c) (col_data_type c) false (primary_key c) (unique c) (auto_increment c)
    (col_default c) (max_length c).

Definition with_primary_key (c : Column) : Column :=
  mkColumn (col_name c) (col_data_type c) false true (unique c) (auto_increment c)
    (col_default c) (max_length c).

Definition with_unique (c : Column) : Column :=
  mkColumn (col_name c) (col_data_type c) (nullable c) (primary_key c) true (auto_increment c)
    (col_default c) (max_length c).

Definition with_auto_increment (c : Column) : Column :=
  mkColumn (col_name c) (col_data_type c) (nullable c) (primary_key c) (unique c) true
    (col_default c) (max_length c).

Definition with_default (c : Column) (v : Value J) : Column :=
  mkColumn (col_name c) (col_data_type c) (nullable c) (primary_key c) (unique c) (auto_increment c)
    (Some v) (max_length c).

Definition with_max_length (c : Column) (len : Z) : Column :=
  mkColumn (col_name c) (col_data_type c) (nullable c) (primary_key c) (unique c) (auto_increment c)
    (col_default c) (Some len).

Inductive FkAction : Type := Restrict | Cascade | SetNull.

Record ForeignKey : Type := mkFk {
  fk_columns : list string;
  ref_table : string;
  ref_columns : list string;
  on_delete : FkAction;
  on_update : FkAction
}.

Record Schema : Type := mkSchema {
  columns : list Column;
  table_name : string;
  check_constraints : list string;
  foreign_keys : list ForeignKey;
  column_map : gmap string nat
}.

(** [columns.iter().enumerate().map(..).collect::<HashMap<_, _>>()]: a later
    column of the same name overwrites an earlier one. *)
Definition collect_map (cols : list Column) : gmap string nat :=
  foldl (λ m ic, <[col_name ic.2 := ic.1]> m) ∅ (imap (λ i c, (i, c)) cols).

Definition new (name : string) (cols : list Column) : Schema :=
  mkSchema cols name [] [] (collect_map cols).

Definition column_index (s : Schema) (name : string) : option nat := column_map s !! name.

(** The [None] inside is the panic of [&self.columns[i]]. *)
Definition column (s : Schema) (name : string) : option (option Column) :=
  match column_map s !! name with
  | None => Some None
  | Some i => c ← columns s !! i; Some (Some c)
  end.

(** The positions of the columns that satisfy [p]. *)
Definition positions (p : Column → bool) (cols : list Column) : list nat :=
  fst <$> filter (λ ic, p ic.2 = true) (imap (λ i c, (i, c)) cols).

Definition primary_key_columns (s : Schema) : list nat := positions primary_key (columns s).

Definition unique_columns (s : Schema) : list nat :=
  positions (λ c, unique c && negb (primary_key c)) (columns s).

Definition num_columns (s : Schema) : nat := length (columns s).

Definition column_names (s : Schema) : list string := col_name <$> columns s.

(** ** [Tuple::validate] *)

Definition validate_one (v : Value J) (col : Column) : result unit :=
  if is_null v then
    if nullable col then Ok tt
    else Err (TypeMismatch ("non-null " +:+ DataType_to_string (col_data_type col)) "NULL")
  else
    match data_type v with
    | Some t =>
        if bool_decide (t ≠ col_data_type col) then
          Err (TypeMismatch (DataType_to_string (col_data_type col)) (DataType_to_string t))
        else
          match max_length col, v with
          | Some m, Bytes b => if m <? zlen b then Err (ValueTooLarge (zlen b)) else Ok tt
          | _, _ => Ok tt
          end
    | None => Ok tt
    end.

(** The loop over [values.iter().zip(columns)]: the first error is returned. *)
Fixpoint validate_all (vs : list (Value J)) (cols : list Column) : result unit :=
  match vs, cols with
  | v :: vs', c :: cols' =>
      match validate_one v c with Ok _ => validate_all vs' cols' | Err e => Err e end
  | _, _ => Ok tt
  end.

Definition validate (vs : list (Value J)) (s : Schema) : result unit :=
  if bool_decide (length vs ≠ length (columns s)) then
    Err (TypeMismatch (pretty (length (columns s)) +:+ " columns") (pretty (length vs) +:+ " values"))
  else validate_all vs (columns s).

(** ** Facts *)

Lemma collect_map_lookup (cols : list Column) (k : nat) (m : gmap string nat) name :
  foldl (λ m ic, <[col_name ic.2 := ic.1]> m) m (imap (λ i c, (k + i, c)%nat) cols) !! name =
    match list_find (λ ic, col_name ic.2 = name) (reverse (imap (λ i c, (k + i, c)%nat) cols)) with
    | Some (_, (i, _)) => Some i
    | None => m !! name
    end.
Proof.
  revert m. induction cols as [|c cols IH] using rev_ind; intros m; [done|].
  rw imap_app foldl_app reverse_app. cbn [imap foldl]. rw reverse_singleton. cbn [app list_find].
  case_decide as Hn; cbn [fst snd] in Hn.
  - rw Hn lookup_insert_eq. done.
  - rw lookup_insert_ne; [done|]. rw IH. by destruct (list_find _ _) as [[? [? ?]]|].
Qed.

(** The name map points at the last column of that name. *)
Lemma column_index_spec name cols s (i : nat) :
  s = new name cols →
  ∀ n, column_index s n = Some i ↔
    ∃ c, cols !! i = Some c ∧ col_name c = n ∧ ∀ (j : nat) d, cols !! j = Some d → col_name d = n → (j ≤ i)%nat.
Proof.
  intros -> n. unfold column_index, new, collect_map. cbn [column_map].
  pose proof (collect_map_lookup cols 0 ∅ n) as Hl. cbn [plus] in Hl. rw Hl. clear Hl. rw lookup_empty.
  assert (∀ j d, imap (λ i c, (i, c)) cols !! j = Some d ↔ ∃ c, cols !! j = Some c ∧ d = (j, c)) as Him.
  { intros j d. rw list_lookup_imap. destruct (cols !! j); simpl; naive_solver. }
  destruct (list_find _ _) as [[r [k c]]|] eqn:Hf.
  - apply list_find_Some in Hf as (Hr & Hn & Hbefore). cbn [snd] in Hn.
    pose proof (lookup_lt_Some _ _ _ Hr) as Hlt. rw length_reverse length_imap in Hlt.
    rw reverse_lookup in Hr; [by rw length_imap|]. rw length_imap in Hr. apply Him in Hr as (c' & Hc & [= -> ->]).
    assert (∀ (j : nat) d, cols !! j = Some d → col_name d = n → (j ≤ length cols - S r)%nat) as Hmax.
    { intros j d Hj Hd. destruct (decide (j ≤ length cols - S r)%nat); [done|]. exfalso.
      pose proof (lookup_lt_Some _ _ _ Hj) as Hjl.
      apply (Hbefore (length cols - S j)%nat (j, d)); [|lia|done].
      rw reverse_lookup; [rw length_imap; lia|]. rw length_imap.
      replace (length cols - S (length cols - S j))%nat with j by lia. apply Him. by exists d. }
    split.
    + intros [= <-]. by exists c'.
    + intros (c & Hci & Hcn & Hlast). f_equal. specialize (Hlast _ c' Hc Hn). specialize (Hmax i c Hci Hcn). lia.
  - split; [done|]. intros (c & Hc & Hn & _). exfalso.
    apply list_find_None in Hf. rw Forall_forall in Hf. apply (Hf (i, c)); [|done].
    rw elem_of_reverse. apply list_elem_of_lookup. exists i. apply Him. by exists c.
Qed.

(** The name map of a schema built from its columns is right: a name maps to
    the position of the last column that has it, looking the column up never
    panics and gives that column, and a name that no column has is absent. *)
Theorem schema_columns name cols n :
  let s := new name cols in
  match column_index s n with
  | Some i =>
      ∃ c, cols !! i = Some c ∧ col_name c = n ∧ column s n = Some (Some c) ∧
        ∀ (j : nat) d, cols !! j = Some d → col_name d = n → (j ≤ i)%nat
  | None => n ∉ column_names s ∧ column s n = Some None
  end.
Proof.
  intros s. pose proof (λ i, column_index_spec name cols s i eq_refl n) as Hs.
  destruct (column_index s n) as [i|] eqn:Hi; unfold column; unfold column_index in Hi; rw Hi.
  - destruct (proj1 (Hs i) eq_refl) as (c & Hc & Hn & Hl). exists c. split_and!; [done|done| |done].
    unfold s, new. cbn [columns]. by rw Hc.
  - split; [|done]. unfold column_names, s, new. cbn [columns].
    intros (c & -> & (k & Hk)%list_elem_of_lookup)%list_elem_of_fmap.
    (* the last column of the name would be found *)
    assert (∃ i, ∃ c', cols !! i = Some c' ∧ col_name c' = col_name c ∧
              ∀ (j : nat) d, cols !! j = Some d → col_name d = col_name c → (j ≤ i)%nat) as (i & Hex).
    { clear -Hk. revert k Hk. induction cols as [|x l IH] using rev_ind; intros k Hk; [done|].
      destruct (decide (col_name x = col_name c)) as [Hx|Hx].
      - exists (length l), x. split_and!; [by apply list_lookup_middle|done|].
        intros j d Hj _. apply lookup_lt_Some in Hj. rw length_app in Hj. simpl in Hj. lia.
      - apply lookup_app_Some in Hk as [Hk|[_ Hk]].
        + destruct (IH k Hk) as (i & c' & Hi & Hn & Hl). exists i, c'. split_and!; [by apply lookup_app_l_Some|done|].
          intros j d [Hj|[_ Hj]]%lookup_app_Some Hd; [by apply (Hl j d)|].
          apply list_lookup_singleton_Some in Hj as [_ <-]. done.
        + apply list_lookup_singleton_Some in Hk as [_ <-]. done. }
    by apply (Hs i) in Hex.
Qed.

(** What a column accepts. *)
Definition accepts (c : Column) (v : Value J) : Prop :=
  (v = Null ∧ nullable c = true) ∨
  (data_type v = Some (col_data_type c) ∧
   ∀ m b, max_length c = Some m → v = Bytes b → zlen b ≤ m).

Lemma validate_one_ok v c : validate_one v c = Ok tt ↔ accepts c v.
Proof.
  unfold validate_one, accepts. destruct (is_null v) eqn:Hn.
  - destruct v; try done. simpl. destruct (nullable c); split; try done; [by left|naive_solver].
  - assert (v ≠ Null) as Hnn by (by intros ->).
    destruct (data_type v) as [t|] eqn:Ht; [|by destruct v].
    case_bool_decide as Hne; [split; naive_solver|]. subst t.
    destruct (max_length c) as [m|]; [|split; [intros _; right; split; naive_solver|done]].
    destruct v as [| | | | |b| | | | | |]; try (split; [intros _; right; split; naive_solver|done]).
    destruct (Z.ltb_spec m (zlen b)); split; try done.
    + intros [[? _]|[_ Hb]]; [done|]. specialize (Hb m b eq_refl eq_refl). lia.
    + intros _. right. split; [done|]. intros ? ? [= <-] [= <-]. done.
Qed.

Lemma validate_all_ok vs cols :
  length vs = length cols → validate_all vs cols = Ok tt ↔ Forall2 (λ v c, accepts c v) vs cols.
Proof.
  revert cols. induction vs as [|v vs IH]; intros [|c cols] [=]; [by split; constructor|]. cbn [validate_all].
  pose proof (validate_one_ok v c) as Hv. destruct (validate_one v c) as [[]|e].
  - rw IH; [done|]. rw Forall2_cons. naive_solver.
  - split; [done|]. rw Forall2_cons. naive_solver.
Qed.

(** [validate] accepts exactly the rows with one value per column where
    every value is NULL in a nullable column, or of the column's type and, for
    bytes, not longer than the column allows. *)
Theorem validate_accepts vs s :
  validate vs s = Ok tt ↔ Forall2 (λ v c, accepts c v) vs (columns s).
Proof.
  unfold validate. case_bool_decide as Hl.
  - split; [done|]. intros Hf%Forall2_length. done.
  - by apply validate_all_ok.
Qed.
End schema.

(** ** [SequenceGenerator] *)

(** [AtomicI64::fetch_add] wraps around. *)
Definition i64_wrap (z : Z) : Z := (z + 2 ^ 63) mod 2 ^ 64 - 2 ^ 63.

Definition seq_next (counter : Z) : Z * Z := (counter, i64_wrap (counter + 1)).

(** Without interference the exchange succeeds at once; [value + 1] panics on
    overflow. *)
Definition seq_observe (counter value : Z) : option Z :=
  if counter <=? value then
    if bool_decide (i64_ok (value + 1)) then Some (value + 1) else None
  else Some counter.

(** A run of [next] ([None]) and [observe v] ([Some v]); the trace records what
    [next] returned ([inl]) and what was observed ([inr]). *)
Fixpoint seq_run (counter : Z) (ops : list (option Z)) : option (list (Z + Z)) :=
  match ops with
  | [] => Some []
  | None :: ops' =>
      let '(v, c) := seq_next counter in tr ← seq_run c ops'; Some (inl v :: tr)
  | Some v :: ops' => c ← seq_observe counter v; tr ← seq_run c ops'; Some (inr v :: tr)
  end.

Definition event_val (e : Z + Z) : Z := match e with inl v => v | inr v => v end.

Lemma seq_run_above ops counter B :
  - 2 ^ 63 ≤ counter ≤ B → Forall (λ o, ∀ v, o = Some v → v < B) ops → B + zlen ops < 2 ^ 63 →
  ∃ tr, seq_run counter ops = Some tr ∧
    (∀ (j : nat) v, tr !! j = Some (inl v) → counter ≤ v) ∧
    ∀ (i j : nat) e v, (i < j)%nat → tr !! i = Some e → tr !! j = Some (inl v) → event_val e < v.
Proof.
  revert counter B. induction ops as [|o ops IH]; intros c B Hc Hf Hb; cbn [seq_run].
  { exists []. done. }
  apply Forall_cons in Hf as [Ho Hf]. rw zlen_cons in Hb. pose proof (zlen_nonneg ops).
  destruct o as [w|].
  - specialize (Ho w eq_refl). unfold seq_observe. destruct (Z.leb_spec c w).
    + rw bool_decide_true; [unfold i64_ok; lia|]. cbn [mbind option_bind].
      destruct (IH (w + 1) B) as (tr & -> & Hlo & Hinc); [lia|done|lia|]. cbn [mbind option_bind].
      eexists. split; [done|]. split.
      * intros [|j] v Hj; [done|]. specialize (Hlo j v Hj). lia.
      * intros [|i] [|j] e v Hij Hi Hj; try lia; simpl in *; [|by apply (Hinc i j e v); [lia|..]].
        simplify_eq. simpl. specialize (Hlo j v Hj). lia.
    + cbn [mbind option_bind]. destruct (IH c B) as (tr & -> & Hlo & Hinc); [lia|done|lia|]. cbn [mbind option_bind].
      eexists. split; [done|]. split.
      * intros [|j] v Hj; [done|]. by apply (Hlo j).
      * intros [|i] [|j] e v Hij Hi Hj; try lia; simpl in *; [|by apply (Hinc i j e v); [lia|..]].
        simplify_eq. simpl. specialize (Hlo j v Hj). lia.
  - cbn [seq_next]. assert (i64_wrap (c + 1) = c + 1) as ->.
    { unfold i64_wrap. rw Z.mod_small; lia. }
    destruct (IH (c + 1) (B + 1)) as (tr & -> & Hlo & Hinc); [lia| |lia|].
    { apply (Forall_impl _ _ _ Hf). intros o Hx v Hv. specialize (Hx v Hv). lia. }
    cbn [mbind option_bind]. eexists. split; [done|]. split.
    + intros [|j] v Hj; simpl in Hj; [simplify_eq; lia|]. specialize (Hlo j v Hj). lia.
    + intros [|i] [|j] e v Hij Hi Hj; try lia; simpl in *; [|by apply (Hinc i j e v); [lia|..]].
      simplify_eq. simpl. specialize (Hlo j v Hj). lia.
Qed.

(** A sequence never repeats: as long as the counter stays below the largest
    [i64], every value [next] returns is above all values returned or observed
    before. *)
Theorem sequence_increasing start ops B :
  - 2 ^ 63 ≤ start ≤ B → Forall (λ o, ∀ v, o = Some v → v < B) ops → B + zlen ops < 2 ^ 63 →
  ∃ tr, seq_run start ops = Some tr ∧
    ∀ (i j : nat) e v, (i < j)%nat → tr !! i = Some e → tr !! j = Some (inl v) → event_val e < v.
Proof. intros. destruct (seq_run_above ops start B) as (tr & ? & _ & ?); [done..|]. by exists tr. Qed.

Lemma sequence_increasing_witness :
  ∃ tr, seq_run 1 [None; Some 41; None; Some 3; None] = Some tr ∧
    ∀ (i j : nat) e v, (i < j)%nat → tr !! i = Some e → tr !! j = Some (inl v) → event_val e < v.
Proof.
  apply (sequence_increasing 1 _ 100); [lia| |done].
  repeat constructor; intros v Hv; simplify_eq; lia.
Defined.
End Schema.
