(* ===== verification/Civil.v ===== *)
(** Dates and timestamps of [bytedb-core/src/tuple/value.rs]: the civil calendar
    and the text forms.

    A [&str] is the list of its characters (code points). Arithmetic is kept at
    its width: an overflow is a panic, the [None] of the conversions [i32], [u32]
    and [i64] below. *)
From S2P Require Import Prelude Value.
Import Value.

Module Civil.

Definition i32 (z : Z) : option Z := if bool_decide (i32_ok z) then Some z else None.
Definition i64 (z : Z) : option Z := if bool_decide (i64_ok z) then Some z else None.
Definition u32 (z : Z) : option Z := if (0 <=? z) && (z <? 2 ^ 32) then Some z else None.

(** [as i32] of a [u32]. *)
Definition as_i32 (z : Z) : Z := if z <? 2 ^ 31 then z else z - 2 ^ 32.

(** Division on [i32] and [i64] truncates ([Z.quot]); on [u32] it is [Z.div]. *)
Definition days_from_civil (y m d : Z) : option Z :=
  y ← i32 (y - (if m <=? 2 then 1 else 0));
  n ← (if 0 <=? y then Some y else i32 (y - 399));
  let era := Z.quot n 400 in
  e ← i32 (era * 400);
  r ← i32 (y - e);
  let yoe := wrap 32 r in
  mm ← (if 2 <? m then u32 (m - 3) else u32 (m + 9));
  a ← u32 (153 * mm);
  a2 ← u32 (a + 2);
  b ← u32 (a2 / 5 + d);
  doy ← u32 (b - 1);
  y365 ← u32 (yoe * 365);
  s1 ← u32 (y365 + yoe / 4);
  s2 ← u32 (s1 - yoe / 100);
  doe ← u32 (s2 + doy);
  f ← i32 (era * 146097);
  g ← i32 (f + as_i32 doe);
  i32 (g - 719468).

Definition civil_from_days (z : Z) : option (Z * Z * Z) :=
  z ← i32 (z + 719468);
  n ← (if 0 <=? z then Some z else i32 (z - 146096));
  let era := Z.quot n 146097 in
  f ← i32 (era * 146097);
  r ← i32 (z - f);
  let doe := wrap 32 r in
  t1 ← u32 (doe - doe / 1460);
  t2 ← u32 (t1 + doe / 36524);
  t3 ← u32 (t2 - doe / 146096);
  let yoe := t3 / 365 in
  e400 ← i32 (era * 400);
  y ← i32 (as_i32 yoe + e400);
  y365 ← u32 (365 * yoe);
  s1 ← u32 (y365 + yoe / 4);
  s2 ← u32 (s1 - yoe / 100);
  doy ← u32 (doe - s2);
  d5 ← u32 (5 * doy);
  d52 ← u32 (d5 + 2);
  let mp := d52 / 153 in
  q ← u32 (153 * mp + 2);
  d0 ← u32 (doy - q / 5);
  d ← u32 (d0 + 1);
  m ← (if mp <? 10 then u32 (mp + 3) else u32 (mp - 9));
  y ← i32 (y + (if m <=? 2 then 1 else 0));
  Some (y, m, d).

(** ** Text *)

(** Decimal digits, most significant first. *)
Fixpoint digits_fuel (fuel : nat) (n : Z) : list Z :=
  match fuel with
  | O => []
  | S fuel' =>
      if n <? 10 then [48 + n] else digits_fuel fuel' (n / 10) ++ [48 + n mod 10]
  end.

Definition show_nat (n : Z) : list Z := digits_fuel (S (Z.to_nat (Z.log2 n))) n.

(** [{:0w}]: zeros fill up to the width, after the sign. *)
Definition show_padded (w : nat) (n : Z) : list Z :=
  if n <? 0 then
    let s := show_nat (- n) in 45 :: replicate (w - 1 - length s) 48 ++ s
  else
    let s := show_nat n in replicate (w - length s) 48 ++ s.

Fixpoint digits_val (acc : Z) (s : list Z) : option Z :=
  match s with
  | [] => Some acc
  | c :: s' => if (48 <=? c) && (c <=? 57) then digits_val (10 * acc + (c - 48)) s' else None
  end.

(** [str::parse::<u32>] and [str::parse::<i32>]. *)
Definition parse_u32 (s : list Z) : option Z :=
  match s with
  | [] => None
  | 43 :: r => match r with [] => None | _ => v ← digits_val 0 r; u32 v end
  | _ => v ← digits_val 0 s; u32 v
  end.

Definition parse_i32 (s : list Z) : option Z :=
  match s with
  | [] => None
  | 45 :: r => match r with [] => None | _ => v ← digits_val 0 r; i32 (- v) end
  | 43 :: r => match r with [] => None | _ => v ← digits_val 0 r; i32 v end
  | _ => v ← digits_val 0 s; i32 v
  end.

(** [str::split(c)] collected. *)
Fixpoint split_on (c : Z) (s : list Z) : list (list Z) :=
  match s with
  | [] => [[]]
  | x :: s' =>
      if x =? c then [] :: split_on c s'
      else match split_on c s' with p :: ps => (x :: p) :: ps | [] => [[x]] end
  end.

(** The outer [option] is a panic. *)
Definition parse_date (s : list Z) : option (option Z) :=
  match split_on 45 s with
  | [py; pm; pd] =>
      match parse_i32 py, parse_u32 pm, parse_u32 pd with
      | Some y, Some m, Some d =>
          if ((1 <=? m) && (m <=? 12)) && ((1 <=? d) && (d <=? 31)) then
            Some <$> days_from_civil y m d
          else Some None
      | _, _, _ => Some None
      end
  | _ => Some None
  end.

Definition format_date (days : Z) : option (list Z) :=
  '(y, m, d) ← civil_from_days days;
  Some (show_padded 4 y ++ [45] ++ show_padded 2 m ++ [45] ++ show_padded 2 d).

(** [char::is_whitespace]. *)
Definition is_whitespace (c : Z) : bool :=
  ((9 <=? c) && (c <=? 13)) || (c =? 32) || (c =? 133) || (c =? 160) || (c =? 5760)
  || ((8192 <=? c) && (c <=? 8202)) || (c =? 8232) || (c =? 8233) || (c =? 8239) || (c =? 8287) || (c =? 12288).

Fixpoint trim_start (s : list Z) : list Z :=
  match s with [] => [] | c :: s' => if is_whitespace c then trim_start s' else s end.

Definition trim (s : list Z) : list Z := reverse (trim_start (reverse (trim_start s))).

Fixpoint drop_char (c : Z) (s : list Z) : list Z :=
  match s with [] => [] | x :: s' => if x =? c then drop_char c s' else s end.

(** [trim_end_matches(c)]. *)
Definition trim_end_matches (c : Z) (s : list Z) : list Z := reverse (drop_char c (reverse s)).

(** [find(c)] and the parts around it. *)
Fixpoint split_once (c : Z) (s : list Z) : option (list Z * list Z) :=
  match s with
  | [] => None
  | x :: s' =>
      if x =? c then Some ([], s')
      else '(a, b) ← split_once c s'; Some (x :: a, b)
  end.

(** The microseconds of the time of day; [None]: the function returns [None]. *)
Definition parse_time (t : list Z) : option Z :=
  match split_on 58 (trim_end_matches 90 t) with
  | ph :: pm :: rest =>
      h ← parse_u32 ph;
      m ← parse_u32 pm;
      s ← match rest with ps :: _ => parse_u32 ps | [] => Some 0 end;
      if (23 <? h) || (59 <? m) || (59 <? s) then None
      else Some (((h * 3600) + (m * 60) + s) * 1000000)
  | _ => None
  end.

Definition parse_timestamp (s : list Z) : option (option Z) :=
  let s := trim s in
  match (match split_once 32 s with Some p => Some p | None => split_once 84 s end) with
  | None => Some None
  | Some (date_part, time_part) =>
      days ← parse_date date_part;
      match days with
      | None => Some None
      | Some d =>
          match parse_time time_part with
          | None => Some None
          | Some micros =>
              a ← i64 (d * 86400);
              b ← i64 (a * 1000000);
              Some <$> i64 (b + micros)
          end
      end
  end.

Definition format_timestamp (us : Z) : option (list Z) :=
  let days := Z.quot us (86400 * 1000000) in
  let rem := Z.rem us (86400 * 1000000) in
  '(y, m, d) ← civil_from_days (as_i32 (wrap 32 days));
  let h := Z.quot rem (3600 * 1000000) in
  let min := Z.quot (Z.rem rem (3600 * 1000000)) (60 * 1000000) in
  let sec := Z.quot (Z.rem rem (60 * 1000000)) 1000000 in
  Some (show_padded 4 y ++ [45] ++ show_padded 2 m ++ [45] ++ show_padded 2 d ++ [32] ++
        show_padded 2 h ++ [58] ++ show_padded 2 min ++ [58] ++ show_padded 2 sec).

(** ** The calendar *)

(** Quotients and remainders become linear constraints. *)
Ltac dlia := zify; Z.to_euclidean_division_equations; lia.

Lemma i32_small z : - 2 ^ 31 ≤ z < 2 ^ 31 → i32 z = Some z.
Proof. intros. unfold i32. by rw bool_decide_true. Qed.

Lemma u32_small z : 0 ≤ z < 2 ^ 32 → u32 z = Some z.
Proof. intros. unfold u32. destruct (Z.leb_spec 0 z), (Z.ltb_spec z (2 ^ 32)); done || lia. Qed.

Lemma as_i32_small z : 0 ≤ z < 2 ^ 31 → as_i32 z = z.
Proof. intros. unfold as_i32. destruct (Z.ltb_spec z (2 ^ 31)); done || lia. Qed.

Lemma quot_floor k z : k = 400 ∨ k = 146097 → Z.quot (if 0 <=? z then z else z - (k - 1)) k = z / k.
Proof. intros [-> | ->]; destruct (Z.leb_spec 0 z); dlia. Qed.

(** The day within a 400-year era, split into year and day of year. *)
Definition year_of_era (doe : Z) : Z := (doe - doe / 1460 + doe / 36524 - doe / 146096) / 365.
Definition year_start (yoe : Z) : Z := 365 * yoe + yoe / 4 - yoe / 100.

Lemma year_of_era_spec doe :
  0 ≤ doe < 146097 →
  0 ≤ year_of_era doe < 400 ∧ 0 ≤ doe - year_start (year_of_era doe) ≤ 365.
Proof. unfold year_of_era, year_start. intros. set (y := (_ / 365)). assert (y = (doe - doe / 1460 + doe / 36524 - doe / 146096) / 365) by done. dlia. Qed.

(** Month and day of a day of year counted from March 1st. *)
Definition month_index (doy : Z) : Z := (5 * doy + 2) / 153.
Definition month_of (mp : Z) : Z := if mp <? 10 then mp + 3 else mp - 9.

Lemma month_index_spec doy :
  0 ≤ doy ≤ 365 →
  0 ≤ month_index doy ≤ 11 ∧ 0 ≤ doy - (153 * month_index doy + 2) / 5 ≤ 30.
Proof. unfold month_index. intros. dlia. Qed.

(** What [civil_from_days] computes, without the checks. *)
Definition civil (z : Z) : Z * Z * Z :=
  let era := z / 146097 in
  let doe := z mod 146097 in
  let yoe := year_of_era doe in
  let doy := doe - year_start yoe in
  let mp := month_index doy in
  let m := month_of mp in
  (yoe + era * 400 + (if m <=? 2 then 1 else 0), m, doy - (153 * mp + 2) / 5 + 1).

(** Discharge one overflow check. *)
Ltac check_ok :=
  match goal with
  | |- i32 ?e ≫= _ = _ => rw (i32_small e); [lia|]
  | |- u32 ?e ≫= _ = _ => rw (u32_small e); [lia|]
  end; cbn [mbind option_bind].

Lemma civil_from_days_ok z :
  - 2 ^ 31 ≤ z → z + 719468 < 2 ^ 31 → civil_from_days z = Some (civil (z + 719468)).
Proof.
  intros Hlo Hhi. unfold civil_from_days. check_ok. set (w := z + 719468).
  assert ((if 0 <=? w then Some w else i32 (w - 146096)) = Some (if 0 <=? w then w else w - (146097 - 1))) as ->.
  { destruct (Z.leb_spec 0 w); [done|]. apply i32_small. lia. }
  cbn [mbind option_bind]. rw quot_floor; [by right|].
  set (era := w / 146097). assert (-16000 ≤ era ≤ 16000) as Hera by (unfold era; dlia).
  assert (0 ≤ w mod 146097 < 146097 ∧ w - era * 146097 = w mod 146097) as [Hdoe Hrem] by (unfold era; dlia).
  check_ok. rw Hrem. check_ok. unfold wrap. rw Z.mod_small; [lia|].
  unfold civil. fold era. set (doe := w mod 146097) in *.
  destruct (year_of_era_spec doe Hdoe) as [Hy Hd].
  assert (0 ≤ doe / 1460 ≤ doe ∧ 0 ≤ doe / 36524 ≤ 4 ∧ 0 ≤ doe / 146096 ≤ 1) as (? & ? & ?) by dlia.
  assert (0 ≤ doe - doe / 1460 + doe / 36524 - doe / 146096) by dlia.
  do 3 check_ok. fold (year_of_era doe). set (yoe := year_of_era doe) in *.
  assert (0 ≤ yoe / 4 ≤ 100 ∧ 0 ≤ yoe / 100 ≤ 3 ∧ yoe / 100 ≤ yoe / 4) as (? & ? & ?) by dlia.
  check_ok. rw as_i32_small; [lia|]. check_ok. do 3 check_ok. fold (year_start yoe).
  set (doy := doe - year_start yoe) in *. unfold year_start in Hd. check_ok. do 2 check_ok.
  fold (month_index doy). destruct (month_index_spec doy) as [Hm Hdd]; [lia|].
  set (mp := month_index doy) in *. do 3 check_ok.
  assert ((if mp <? 10 then u32 (mp + 3) else u32 (mp - 9)) = Some (month_of mp)) as ->.
  { unfold month_of. destruct (Z.ltb_spec mp 10); apply u32_small; lia. }
  cbn [mbind option_bind]. destruct (month_of mp <=? 2); by check_ok.
Qed.

(** What [days_from_civil] computes, without the checks. *)
Definition days (y m d : Z) : Z :=
  let y' := y - (if m <=? 2 then 1 else 0) in
  (y' / 400) * 146097 + (year_start (y' mod 400) + ((153 * (if 2 <? m then m - 3 else m + 9) + 2) / 5 + d - 1)) - 719468.

Lemma days_from_civil_ok y m d :
  -5879000 ≤ y ≤ 5880000 → 1 ≤ m ≤ 12 → 1 ≤ d ≤ 31 →
  - 2 ^ 31 ≤ days y m d → days y m d + 719468 < 2 ^ 31 →
  days_from_civil y m d = Some (days y m d).
Proof.
  intros Hy Hm Hd. unfold days_from_civil, days.
  set (k := if m <=? 2 then 1 else 0). assert (0 ≤ k ≤ 1) as Hk by (unfold k; destruct (m <=? 2); lia).
  set (y' := y - k). intros Hlo Hhi. check_ok.
  assert ((if 0 <=? y' then Some y' else i32 (y' - 399)) = Some (if 0 <=? y' then y' else y' - (400 - 1))) as ->.
  { destruct (Z.leb_spec 0 y'); [done|]. apply i32_small. lia. }
  cbn [mbind option_bind]. rw quot_floor; [by left|]. set (era := y' / 400) in *.
  assert (-14698 ≤ era ≤ 14700 ∧ 0 ≤ y' mod 400 < 400 ∧ y' - era * 400 = y' mod 400) as (? & ? & Hr) by (unfold era; dlia).
  check_ok. rw Hr. check_ok. unfold wrap. rw Z.mod_small; [lia|]. set (yoe := y' mod 400) in *.
  assert ((if 2 <? m then u32 (m - 3) else u32 (m + 9)) = Some (if 2 <? m then m - 3 else m + 9)) as ->.
  { destruct (Z.ltb_spec 2 m); apply u32_small; lia. }
  cbn [mbind option_bind]. set (mm := if 2 <? m then m - 3 else m + 9) in *.
  assert (0 ≤ mm ≤ 11) as Hmm by (unfold mm; destruct (Z.ltb_spec 2 m); lia).
  assert (0 ≤ (153 * mm + 2) / 5 ≤ 337) by dlia. do 4 check_ok.
  assert (0 ≤ yoe / 4 ≤ 100 ∧ 0 ≤ yoe / 100 ≤ 3 ∧ yoe / 100 ≤ yoe / 4) as (? & ? & ?) by dlia.
  unfold year_start in Hlo, Hhi. do 4 check_ok. rw as_i32_small; [lia|]. do 2 check_ok.
  rw i32_small; [lia|]. f_equal. unfold year_start. lia.
Qed.

Lemma days_civil w : let '(y, m, d) := civil w in
  1 ≤ m ≤ 12 ∧ 1 ≤ d ≤ 31 ∧ days y m d = w - 719468 ∧ w / 146097 * 400 ≤ y ≤ w / 146097 * 400 + 400.
Proof.
  unfold civil. set (era := w / 146097). set (doe := w mod 146097).
  assert (0 ≤ doe < 146097 ∧ w = era * 146097 + doe) as [Hdoe Hw] by (unfold era, doe; dlia).
  destruct (year_of_era_spec doe Hdoe) as [Hy Hd]. set (yoe := year_of_era doe) in *.
  set (doy := doe - year_start yoe) in *. destruct (month_index_spec doy) as [Hm Hdd]; [done|].
  set (mp := month_index doy) in *. set (q := (153 * mp + 2) / 5) in *.
  assert (month_of mp = if mp <? 10 then mp + 3 else mp - 9) as Hmo by done. set (m := month_of mp) in *.
  set (k := if m <=? 2 then 1 else 0). assert (0 ≤ k ≤ 1) as Hk by (unfold k; destruct (m <=? 2); lia).
  split_and!; [destruct (Z.ltb_spec mp 10); lia..| |lia|lia].
  unfold days. fold k. replace (yoe + era * 400 + k - k) with (yoe + era * 400) by lia.
  rw Z.div_add; [lia|]. rw Z.mod_add; [lia|]. rw Z.div_small; [lia|]. rw Z.mod_small; [lia|].
  assert ((if 2 <? m then m - 3 else m + 9) = mp) as ->.
  { destruct (Z.ltb_spec mp 10), (Z.ltb_spec 2 m); lia. }
  fold q. unfold doy. lia.
Qed.

(** The civil calendar inverts: for every [i32] day number whose shifted
    value does not overflow, [civil_from_days] gives a month between 1 and 12
    and a day between 1 and 31, and [days_from_civil] leads back to the day. *)
Theorem civil_round_trip z :
  - 2 ^ 31 ≤ z → z + 719468 < 2 ^ 31 →
  ∃ y m d, civil_from_days z = Some (y, m, d) ∧ 1 ≤ m ≤ 12 ∧ 1 ≤ d ≤ 31 ∧
    days_from_civil y m d = Some z.
Proof.
  intros Hlo Hhi. rw (civil_from_days_ok z Hlo Hhi). pose proof (days_civil (z + 719468)) as Hd.
  destruct (civil (z + 719468)) as [[y m] d]. destruct Hd as (Hm & Hdd & Hdays & Hy).
  exists y, m, d. split_and!; [done|lia..|]. assert (-14695 ≤ (z + 719468) / 146097 ≤ 14699) by dlia.
  rw days_from_civil_ok; [lia..|]. f_equal. lia.
Qed.

(** ** Numbers in text *)

Definition digit (c : Z) : Prop := 48 ≤ c ≤ 57.

Lemma digits_val_app acc a b :
  digits_val acc (a ++ b) = v ← digits_val acc a; digits_val v b.
Proof.
  revert acc. induction a as [|c a IH]; intros acc; [done|]. cbn [app digits_val].
  by destruct ((48 <=? c) && (c <=? 57)).
Qed.

Lemma digits_val_one acc c : digit c → digits_val acc [c] = Some (10 * acc + (c - 48)).
Proof. intros Hc. unfold digit in Hc. cbn [digits_val]. destruct (Z.leb_spec 48 c), (Z.leb_spec c 57); done || lia. Qed.

Lemma digits_fuel_spec (fuel : nat) n :
  0 ≤ n < 2 ^ Z.of_nat fuel →
  Forall digit (digits_fuel fuel n) ∧ digits_fuel fuel n ≠ [] ∨ fuel = 0%nat.
Proof.
  revert n. induction fuel as [|fuel IH]; intros n Hn; [by right|left]. cbn [digits_fuel].
  destruct (Z.ltb_spec n 10).
  - split; [|done]. constructor; [unfold digit; lia|done].
  - split; [|by destruct (digits_fuel fuel (n / 10))]. apply Forall_app. split.
    + destruct (IH (n / 10)) as [[? _]| ->]; [|done|by constructor].
      rw Nat2Z.inj_succ Z.pow_succ_r in Hn; [lia|]. dlia.
    + constructor; [|done]. unfold digit. dlia.
Qed.

Lemma digits_fuel_val (fuel : nat) n :
  0 ≤ n < 2 ^ Z.of_nat (S fuel) → digits_val 0 (digits_fuel (S fuel) n) = Some n.
Proof.
  revert n. induction fuel as [|fuel IH]; intros n Hn; cbn [digits_fuel].
  - destruct (Z.ltb_spec n 10); [|simpl in Hn; lia]. rw digits_val_one; [unfold digit; lia|]. f_equal. lia.
  - destruct (Z.ltb_spec n 10).
    { rw digits_val_one; [unfold digit; lia|]. f_equal. lia. }
    rw digits_val_app. fold (digits_fuel (S fuel) (n / 10)). rw IH.
    { rw Nat2Z.inj_succ Z.pow_succ_r in Hn; [lia|]. dlia. }
    cbn [mbind option_bind]. rw digits_val_one; [unfold digit; dlia|]. f_equal. dlia.
Qed.

Lemma log2_fuel n : 0 ≤ n → 0 ≤ n < 2 ^ Z.of_nat (S (Z.to_nat (Z.log2 n))).
Proof.
  intros Hn. split; [done|]. rw Nat2Z.inj_succ Z2Nat.id; [apply Z.log2_nonneg|].
  destruct (Z.eqb_spec n 0) as [->|]; [done|]. apply Z.log2_spec. lia.
Qed.

(** A padded natural number is a non-empty string of digits with its value. *)
Lemma show_padded_spec w n :
  0 ≤ n → Forall digit (show_padded w n) ∧ show_padded w n ≠ [] ∧ digits_val 0 (show_padded w n) = Some n.
Proof.
  intros Hn. unfold show_padded. destruct (Z.ltb_spec n 0); [lia|]. set (s := show_nat n).
  assert (Forall digit s ∧ s ≠ []) as [Hd Hne].
  { destruct (digits_fuel_spec _ n (log2_fuel n Hn)) as [?|?]; done. }
  split_and!.
  - apply Forall_app. split; [apply Forall_replicate; unfold digit; lia|done].
  - intros [_ ?]%app_eq_nil. done.
  - assert (∀ k, digits_val 0 (replicate k 48) = Some 0) as Hz by (by induction k).
    rw digits_val_app Hz. apply digits_fuel_val, log2_fuel, Hn.
Qed.

Lemma parse_digits s :
  Forall digit s → s ≠ [] →
  parse_u32 s = (v ← digits_val 0 s; u32 v) ∧ parse_i32 s = (v ← digits_val 0 s; i32 v).
Proof.
  intros Hd Hne. destruct s as [|c s]; [done|]. apply Forall_cons in Hd as [Hc _]. unfold digit in Hc.
  assert (c = 48 ∨ c = 49 ∨ c = 50 ∨ c = 51 ∨ c = 52 ∨ c = 53 ∨ c = 54 ∨ c = 55 ∨ c = 56 ∨ c = 57) as Hcs by lia.
  repeat destruct Hcs as [->|Hcs]; done || by subst c.
Qed.

Lemma parse_padded w n :
  0 ≤ n → parse_u32 (show_padded w n) = u32 n ∧ parse_i32 (show_padded w n) = i32 n.
Proof.
  intros Hn. destruct (show_padded_spec w n Hn) as (Hd & Hne & Hv).
  destruct (parse_digits _ Hd Hne) as [-> ->]. by rw Hv.
Qed.

Lemma split_on_digits c s : Forall digit s → ¬ digit c → split_on c s = [s].
Proof.
  intros Hd Hc. induction Hd as [|x s Hx Hd IH]; [done|]. cbn [split_on].
  destruct (Z.eqb_spec x c) as [->|]; [done|]. by rw IH.
Qed.

Lemma split_on_cons c s r : Forall digit s → ¬ digit c → split_on c (s ++ c :: r) = s :: split_on c r.
Proof.
  intros Hd Hc. induction Hd as [|x s Hx Hd IH]; cbn [app split_on]; [by rw Z.eqb_refl|].
  destruct (Z.eqb_spec x c) as [->|]; [done|]. by rw IH.
Qed.

Lemma parse_date_parts y m d :
  0 ≤ y < 2 ^ 31 → 1 ≤ m ≤ 12 → 1 ≤ d ≤ 31 →
  parse_date (show_padded 4 y ++ [45] ++ show_padded 2 m ++ [45] ++ show_padded 2 d) = Some <$> days_from_civil y m d.
Proof.
  intros Hy Hm Hd. unfold parse_date. cbn [app].
  assert (¬ digit 45) as Hc by (unfold digit; lia).
  rw split_on_cons; [apply show_padded_spec; lia|done|].
  rw split_on_cons; [apply show_padded_spec; lia|done|].
  rw split_on_digits; [apply show_padded_spec; lia|done|].
  destruct (parse_padded 4 y) as [_ ->]; [lia|]. destruct (parse_padded 2 m) as [-> _]; [lia|].
  destruct (parse_padded 2 d) as [-> _]; [lia|]. rw i32_small; [lia|]. rw !u32_small; [lia..|].
  destruct (Z.leb_spec 1 m), (Z.leb_spec m 12), (Z.leb_spec 1 d), (Z.leb_spec d 31); done || lia.
Qed.

(** Printing and parsing a date are inverse for all years from 0 on. *)
Theorem date_round_trip z y m d :
  - 2 ^ 31 ≤ z → z + 719468 < 2 ^ 31 → civil_from_days z = Some (y, m, d) → 0 ≤ y →
  (s ← format_date z; parse_date s) = Some (Some z).
Proof.
  intros Hlo Hhi Hc Hy. unfold format_date. rw Hc. cbn [mbind option_bind].
  rw (civil_from_days_ok z Hlo Hhi) in Hc. assert (civil (z + 719468) = (y, m, d)) as Hc' by congruence.
  pose proof (days_civil (z + 719468)) as Hd. rw Hc' in Hd. destruct Hd as (Hm & Hdd & Hdays & Hyb).
  assert (-14695 ≤ (z + 719468) / 146097 ≤ 14699) by dlia.
  rw parse_date_parts; [lia..|]. rw days_from_civil_ok; [lia..|]. cbn. do 2 f_equal. lia.
Qed.

Lemma date_round_trip_witness : (s ← format_date 19782; parse_date s) = Some (Some 19782).
Proof. by apply (date_round_trip 19782 2024 2 29). Defined.

(** *** Timestamps *)

Lemma trim_start_id c s : is_whitespace c = false → trim_start (c :: s) = c :: s.
Proof. intros Hc. cbn [trim_start]. by rw Hc. Qed.

Lemma digit_not_space c : digit c → is_whitespace c = false ∧ c ≠ 32 ∧ c ≠ 90 ∧ c ≠ 58.
Proof.
  unfold digit, is_whitespace. intros Hc. split_and!; lia.
Qed.

Lemma last_digit s t : Forall digit t → t ≠ [] → ∃ r c, s ++ t = r ++ [c] ∧ digit c.
Proof.
  intros Hd Hne. destruct t as [|c t _] using rev_ind; [done|]. exists (s ++ t), c.
  rw app_assoc. split; [done|]. apply Forall_app in Hd as [_ Hd]. by apply Forall_cons in Hd as [? _].
Qed.

(** A string between two digits is not trimmed. *)
Lemma trim_digits a s b :
  Forall digit a → a ≠ [] → Forall digit b → b ≠ [] →
  trim (a ++ s ++ b) = a ++ s ++ b ∧ trim_end_matches 90 (a ++ s ++ b) = a ++ s ++ b.
Proof.
  intros Ha Hane Hb Hbne. destruct (last_digit (a ++ s) b Hb Hbne) as (r & c & He & Hc).
  rw -app_assoc in He. destruct (digit_not_space c Hc) as (Hws & _ & H90 & _). split.
  - unfold trim. assert (trim_start (a ++ s ++ b) = a ++ s ++ b) as ->.
    { destruct a as [|x a]; [done|]. apply Forall_cons in Ha as [Hx _].
      apply (trim_start_id x (a ++ s ++ b)), digit_not_space, Hx. }
    rw He reverse_app. cbn [reverse]. rw reverse_singleton. cbn [app]. rw trim_start_id; [done|].
    rw reverse_cons reverse_involutive. done.
  - unfold trim_end_matches. rw He reverse_app reverse_singleton. cbn [app drop_char].
    destruct (Z.eqb_spec c 90); [done|]. by rw reverse_cons reverse_involutive.
Qed.

Lemma split_once_first c a b : Forall (λ x, x ≠ c) a → split_once c (a ++ c :: b) = Some (a, b).
Proof.
  induction 1 as [|x a Hx _ IH]; cbn [app split_once]; [by rw Z.eqb_refl|].
  destruct (Z.eqb_spec x c); [done|]. by rw IH.
Qed.

Lemma parse_time_parts h m s :
  0 ≤ h ≤ 23 → 0 ≤ m ≤ 59 → 0 ≤ s ≤ 59 →
  parse_time (show_padded 2 h ++ ([58] ++ show_padded 2 m ++ [58]) ++ show_padded 2 s) =
    Some ((h * 3600 + m * 60 + s) * 1000000).
Proof.
  intros Hh Hm Hs. unfold parse_time.
  destruct (trim_digits (show_padded 2 h) ([58] ++ show_padded 2 m ++ [58]) (show_padded 2 s)) as [_ ->];
    [apply show_padded_spec; lia..|].
  assert (¬ digit 58) as Hc by (unfold digit; lia). rw -!app_assoc. cbn [app].
  rw split_on_cons; [apply show_padded_spec; lia|done|].
  rw split_on_cons; [apply show_padded_spec; lia|done|].
  rw split_on_digits; [apply show_padded_spec; lia|done|].
  destruct (parse_padded 2 h) as [-> _]; [lia|]. destruct (parse_padded 2 m) as [-> _]; [lia|].
  destruct (parse_padded 2 s) as [-> _]; [lia|]. rw !u32_small; [lia..|]. cbn [mbind option_bind].
  destruct (Z.ltb_spec 23 h), (Z.ltb_spec 59 m), (Z.ltb_spec 59 s); done || lia.
Qed.

(** The printed form of a moment from 1970 on. *)
Lemma format_timestamp_parts us :
  0 ≤ us → us / 86400000000 + 719468 < 2 ^ 31 →
  ∃ y m d h mi sec, civil_from_days (us / 86400000000) = Some (y, m, d) ∧
    0 ≤ h ≤ 23 ∧ 0 ≤ mi ≤ 59 ∧ 0 ≤ sec ≤ 59 ∧
    us - us mod 1000000 = us / 86400000000 * 86400000000 + (h * 3600 + mi * 60 + sec) * 1000000 ∧
    format_timestamp us =
      Some ((show_padded 4 y ++ [45] ++ show_padded 2 m ++ [45] ++ show_padded 2 d) ++ 32 ::
            (show_padded 2 h ++ ([58] ++ show_padded 2 mi ++ [58]) ++ show_padded 2 sec)).
Proof.
  intros Hus Hhi. set (dy := us / 86400000000) in *. set (rem := us mod 86400000000).
  assert (0 ≤ dy ∧ 0 ≤ rem < 86400000000 ∧ us = dy * 86400000000 + rem) as (Hdy & Hrem & Hu) by (unfold dy, rem; dlia).
  assert (civil_from_days dy = Some (civil (dy + 719468))) as Hc by (apply civil_from_days_ok; lia).
  destruct (civil (dy + 719468)) as [[y m] d].
  exists y, m, d, (rem / 3600000000), (rem mod 3600000000 / 60000000), (rem mod 60000000 / 1000000).
  split_and!; [done|dlia..|].
  unfold format_timestamp. change (86400 * 1000000) with 86400000000. change (3600 * 1000000) with 3600000000.
  change (60 * 1000000) with 60000000.
  rw (Z.quot_div_nonneg us 86400000000 Hus); [lia|]. rw (Z.rem_mod_nonneg us 86400000000 Hus); [lia|]. fold dy rem.
  rw (Z.quot_div_nonneg rem 3600000000); [lia|lia|]. rw (Z.rem_mod_nonneg rem 3600000000); [lia|lia|].
  rw (Z.rem_mod_nonneg rem 60000000); [lia|lia|]. rw (Z.quot_div_nonneg (rem mod 3600000000) 60000000); [dlia|lia|].
  rw (Z.quot_div_nonneg (rem mod 60000000) 1000000); [dlia|lia|].
  unfold wrap. rw (Z.mod_small dy (2 ^ 32)); [lia|]. rw as_i32_small; [lia|].
  rw Hc. cbn [mbind option_bind]. f_equal. by rw -!app_assoc.
Qed.

(** Printing and parsing a timestamp from 1970 on gives it back truncated to
    whole seconds. *)
Theorem timestamp_round_trip us :
  0 ≤ us → us < 2 ^ 63 → us / 86400000000 + 719468 < 2 ^ 31 →
  (s ← format_timestamp us; parse_timestamp s) = Some (Some (us - us mod 1000000)).
Proof.
  intros Hus Hmax Hhi. destruct (format_timestamp_parts us Hus Hhi) as (y & m & d & h & mi & sec & Hc & Hh & Hmi & Hs & Hu & ->).
  cbn [mbind option_bind]. set (dy := us / 86400000000) in *. assert (0 ≤ dy) by (unfold dy; dlia).
  rw civil_from_days_ok in Hc; [lia..|]. assert (civil (dy + 719468) = (y, m, d)) as Hc' by congruence.
  pose proof (days_civil (dy + 719468)) as Hd. rw Hc' in Hd. destruct Hd as (Hm & Hdd & Hdays & Hyb).
  assert (0 ≤ (dy + 719468) / 146097 ≤ 14699) by dlia.
  set (time := show_padded 2 h ++ _). set (date := show_padded 4 y ++ _).
  assert (trim (date ++ 32 :: time) = date ++ 32 :: time) as Htr.
  { set (mid := ([45] ++ show_padded 2 m ++ [45] ++ show_padded 2 d) ++ 32 :: (show_padded 2 h ++ [58] ++ show_padded 2 mi ++ [58])).
    assert (date ++ 32 :: time = show_padded 4 y ++ mid ++ show_padded 2 sec) as ->.
    { unfold date, time, mid. by simplify_list_eq. }
    apply trim_digits; apply show_padded_spec; lia. }
  unfold parse_timestamp. rw Htr split_once_first.
  { unfold date. assert (∀ w n, 0 ≤ n → Forall (λ x, x ≠ 32) (show_padded w n)) as Hp.
    { intros w n Hn. destruct (show_padded_spec w n Hn) as [Hf _]. apply (Forall_impl _ _ _ Hf).
      intros x Hx. by apply digit_not_space in Hx as (_ & ? & _). }
    rw !Forall_app. split_and!; try (apply Hp; lia); by repeat constructor. }
  unfold date. rw parse_date_parts; [lia..|]. rw days_from_civil_ok; [lia..|]. cbn [fmap option_fmap option_map mbind option_bind].
  unfold time. rw parse_time_parts; [done..|]. replace (days y m d) with dy by lia.
  assert (0 ≤ us mod 1000000 ∧ us mod 1000000 ≤ us) by dlia.
  assert (∀ z, 0 ≤ z < 2 ^ 63 → i64 z = Some z) as Hi.
  { intros z Hz. unfold i64. rw bool_decide_true; [unfold i64_ok; lia|done]. }
  rw Hi; [lia|]. cbn [mbind option_bind]. rw Hi; [lia|]. cbn [mbind option_bind]. rw Hi; [lia|]. cbn. do 2 f_equal. lia.
Qed.

Lemma timestamp_round_trip_witness :
  (s ← format_timestamp 1700000000123456; parse_timestamp s) = Some (Some (1700000000123456 - 1700000000123456 mod 1000000)).
Proof. by apply (timestamp_round_trip 1700000000123456). Defined.

(** A timestamp before 1970 that is not at midnight is printed with negative
    time fields (one second before the epoch as "1970-01-01 00:00:-1"), which
    the parser rejects; and a day that does not exist is accepted and moved (the
    31st of February is read as the 3rd of March). *)
Theorem timestamp_before_epoch :
  format_timestamp (-1000000) =
    Some [49; 57; 55; 48; 45; 48; 49; 45; 48; 49; 32; 48; 48; 58; 48; 48; 58; 45; 49] ∧
  (s ← format_timestamp (-1000000); parse_timestamp s) = Some None ∧
  parse_date [50; 48; 50; 51; 45; 48; 50; 45; 51; 49] = parse_date [50; 48; 50; 51; 45; 48; 51; 45; 48; 51].
Proof. by vm_compute. Qed.

Lemma civil_round_trip_witness :
  ∃ y m d, civil_from_days 19782 = Some (y, m, d) ∧ 1 ≤ m ≤ 12 ∧ 1 ≤ d ≤ 31 ∧ days_from_civil y m d = Some 19782.
Proof. by apply (civil_round_trip 19782). Defined.

End Civil.
