(* ===== verification/Literals.v ===== *)
(** UUIDs and decimals in text ([parse_uuid], [format_uuid], [parse_decimal] and
    [format_decimal] of [bytedb-core/src/tuple/value.rs]). *)
From S2P Require Import Prelude Value Civil.
Import Value Civil.

Module Literals.

(** ** UUIDs *)

(** The UTF-8 bytes of a character: [str::bytes]. *)
Definition utf8_char (c : Z) : list Z :=
  if c <? 128 then [c]
  else if c <? 2048 then [192 + c / 64; 128 + c mod 64]
  else if c <? 65536 then [224 + c / 4096; 128 + c / 64 mod 64; 128 + c mod 64]
  else [240 + c / 262144; 128 + c / 4096 mod 64; 128 + c / 64 mod 64; 128 + c mod 64].

Definition hex_nibble (c : Z) : option Z :=
  if (48 <=? c) && (c <=? 57) then Some (c - 48)
  else if (97 <=? c) && (c <=? 102) then Some (c - 97 + 10)
  else if (65 <=? c) && (c <=? 70) then Some (c - 65 + 10)
  else None.

(** The loop over the sixteen pairs. *)
Fixpoint hex_pairs (bytes : list Z) : option (list Z) :=
  match bytes with
  | a :: b :: rest =>
      hi ← hex_nibble a;
      lo ← hex_nibble b;
      out ← hex_pairs rest;
      Some (Z.lor (Z.shiftl hi 4) lo :: out)
  | _ => Some []
  end.

Definition parse_uuid (s : list Z) : option (list Z) :=
  let bytes := filter (λ b, b ≠ 45) (s ≫= utf8_char) in
  if bool_decide (length bytes = 32%nat) then hex_pairs bytes else None.

(** [T[i]] of "0123456789abcdef". *)
Definition hex_digit (n : Z) : Z := if n <? 10 then 48 + n else 97 + (n - 10).

Definition hex_byte (b : Z) : list Z := [hex_digit (Z.shiftr b 4); hex_digit (Z.land b 15)].

Definition format_uuid (b : list Z) : list Z :=
  mjoin (imap (λ i x, (if bool_decide (i ∈ [4; 6; 8; 10]%nat) then [45] else []) ++ hex_byte x) b).

Lemma forall_below (n : nat) (P : Z → bool) :
  forallb P (seqZ 0 (Z.of_nat n)) = true → ∀ z, 0 ≤ z < Z.of_nat n → P z = true.
Proof.
  intros HP z Hz. rw forallb_forall in HP. apply HP. apply list_elem_of_In, elem_of_seqZ. lia.
Qed.

Lemma hex_byte_spec x :
  byte_ok x →
  ∃ a b hi lo, hex_byte x = [a; b] ∧ hex_nibble a = Some hi ∧ hex_nibble b = Some lo ∧
    Z.lor (Z.shiftl hi 4) lo = x ∧ utf8_char a = [a] ∧ utf8_char b = [b] ∧ a ≠ 45 ∧ b ≠ 45.
Proof.
  intros Hx.
  assert (match hex_byte x with
          | [a; b] =>
              match hex_nibble a, hex_nibble b with
              | Some hi, Some lo =>
                  (Z.lor (Z.shiftl hi 4) lo =? x) && (a <? 128) && (b <? 128) && negb (a =? 45) && negb (b =? 45)
              | _, _ => false
              end
          | _ => false
          end = true) as Hb.
  { by apply (forall_below 256 (λ x, match hex_byte x with
          | [a; b] =>
              match hex_nibble a, hex_nibble b with
              | Some hi, Some lo =>
                  (Z.lor (Z.shiftl hi 4) lo =? x) && (a <? 128) && (b <? 128) && negb (a =? 45) && negb (b =? 45)
              | _, _ => false
              end
          | _ => false
          end)). }
  unfold hex_byte in *. exists (hex_digit (Z.shiftr x 4)), (hex_digit (Z.land x 15)).
  destruct (hex_nibble (hex_digit (Z.shiftr x 4))) as [hi|] eqn:Hhi; [|done].
  destruct (hex_nibble (hex_digit (Z.land x 15))) as [lo|] eqn:Hlo; [|done].
  exists hi, lo. rw !andb_true_iff !negb_true_iff in Hb. destruct Hb as ((((H1 & H2) & H3) & H4) & H5).
  unfold utf8_char. rw H2 H3. apply Z.eqb_eq in H1. apply Z.eqb_neq in H4, H5. split_and!; done.
Qed.

(** Dashes drop out; the pairs give the bytes back. *)
Lemma hex_groups (b : list Z) (f : nat → Z → list Z) (g : nat → bool) :
  bytes_ok b → (∀ i x, f i x = (if g i then [45] else []) ++ hex_byte x) →
  length (filter (λ c, c ≠ 45) (mjoin (imap f b) ≫= utf8_char)) = (2 * length b)%nat ∧
  hex_pairs (filter (λ c, c ≠ 45) (mjoin (imap f b) ≫= utf8_char)) = Some b.
Proof.
  intros Hb. revert f g. induction Hb as [|x b Hx Hb IH]; intros f g Hf; [done|].
  rw imap_cons. cbn [mjoin list_join]. rw bind_app filter_app Hf.
  destruct (IH (f ∘ S) (g ∘ S)) as [IH1 IH2]; [intros; apply Hf|].
  destruct (hex_byte_spec x Hx) as (a & c & hi & lo & -> & Ha & Hc & Hlor & Hua & Huc & Hna & Hnc).
  assert (filter (λ c, c ≠ 45) (((if g 0%nat then [45] else []) ++ [a; c]) ≫= utf8_char) = [a; c]) as ->.
  { rw bind_app filter_app. assert (filter (λ c, c ≠ 45) ((if g 0%nat then [45] else []) ≫= utf8_char) = []) as ->.
    { by destruct (g 0%nat). }
    cbn [mbind list_bind app]. rw Hua Huc. cbn [app]. by rw !filter_cons_True. }
  split.
  - rw length_app IH1. simpl. lia.
  - cbn [app hex_pairs]. rw Ha Hc. cbn [mbind option_bind]. rw IH2. cbn [mbind option_bind]. by rw Hlor.
Qed.

(** A UUID survives printing and parsing. *)
Theorem uuid_round_trip b :
  bytes_ok b → length b = 16%nat → parse_uuid (format_uuid b) = Some b.
Proof.
  intros Hb Hl. unfold parse_uuid, format_uuid.
  destruct (hex_groups b _ (λ i, bool_decide (i ∈ [4; 6; 8; 10]%nat)) Hb (λ i x, eq_refl)) as [H1 H2].
  rw H1 H2 Hl. done.
Qed.

Lemma uuid_round_trip_witness :
  parse_uuid (format_uuid (replicate 15 171 ++ [7])) = Some (replicate 15 171 ++ [7]).
Proof. apply uuid_round_trip; [|done]. by repeat constructor. Defined.

(** ** Decimals *)

Definition i128 (z : Z) : option Z := if bool_decide (i128_ok z) then Some z else None.

(** The mantissa: [checked_mul(10)?.checked_add(digit)?]. *)
Fixpoint mantissa (acc : Z) (s : list Z) : option Z :=
  match s with
  | [] => Some acc
  | c :: s' =>
      if (48 <=? c) && (c <=? 57) then
        a ← i128 (acc * 10); b ← i128 (a + (c - 48)); mantissa b s'
      else None
  end.

Definition parse_decimal (s : list Z) : option (Z * Z) :=
  let s := trim s in
  let '(sign, body) :=
    match s with
    | 45 :: rest => (-1, rest)
    | 43 :: rest => (1, rest)
    | _ => (1, s)
    end in
  let '(int_part, frac_part) := match split_once 46 body with Some p => p | None => (body, []) end in
  if bool_decide (int_part = [] ∧ frac_part = []) then None
  else
    m ← mantissa 0 (int_part ++ frac_part);
    r ← i128 (sign * m);
    Some (r, wrap 8 (zlen frac_part)).

Definition format_decimal (m scale : Z) : list Z :=
  if scale =? 0 then (if m <? 0 then 45 :: show_nat (- m) else show_nat m)
  else
    let neg := m <? 0 in
    let s := show_nat (Z.abs m) in
    let int_part := if scale <? zlen s then take (length s - Z.to_nat scale) s else [48] in
    let frac_part := if scale <? zlen s then drop (length s - Z.to_nat scale) s else s in
    let frac_padded :=
      if zlen s <? scale then replicate (Z.to_nat scale - length s) 48 ++ s else frac_part in
    let body := int_part ++ [46] ++ frac_padded in
    if neg then 45 :: body else body.

Lemma i128_small z : - 2 ^ 127 ≤ z < 2 ^ 127 → i128 z = Some z.
Proof. intros. unfold i128. by rw bool_decide_true. Qed.

(** The checked accumulation agrees with the plain one while in range. *)
Lemma mantissa_val s acc v :
  0 ≤ acc → digits_val acc s = Some v → v < 2 ^ 127 → acc ≤ v ∧ mantissa acc s = Some v.
Proof.
  revert acc. induction s as [|c s IH]; intros acc Ha Hv Hlt; cbn [digits_val mantissa] in *.
  { simplify_eq. split; [lia|done]. }
  destruct (Z.leb_spec 48 c), (Z.leb_spec c 57); try done. cbn [andb] in *.
  destruct (IH (10 * acc + (c - 48))) as [Hle Hm]; [lia|done|done|]. split; [lia|].
  rw i128_small; [lia|]. cbn [mbind option_bind]. rw i128_small; [lia|]. cbn [mbind option_bind].
  by replace (acc * 10 + (c - 48)) with (10 * acc + (c - 48)) by lia.
Qed.

Lemma show_nat_spec n :
  0 ≤ n → Forall digit (show_nat n) ∧ show_nat n ≠ [] ∧ digits_val 0 (show_nat n) = Some n.
Proof.
  intros Hn. destruct (show_padded_spec 0 n Hn) as (Hd & Hne & Hv). unfold show_padded in *.
  destruct (Z.ltb_spec n 0); [lia|]. done.
Qed.

(** The two parts around the point. *)
Lemma decimal_parts n scale :
  0 ≤ n → 0 < scale ≤ 255 →
  ∃ ip fp, Forall digit ip ∧ Forall digit fp ∧ ip ≠ [] ∧ fp ≠ [] ∧ zlen fp = scale ∧ digits_val 0 (ip ++ fp) = Some n ∧
    ∀ m, m ≠ 0 ∨ n = 0 → Z.abs m = n →
      format_decimal m scale = (if m <? 0 then [45] else []) ++ ip ++ [46] ++ fp.
Proof.
  intros Hn Hs. destruct (show_nat_spec n Hn) as (Hd & Hne & Hv). set (s := show_nat n) in *.
  set (ip := if scale <? zlen s then take (length s - Z.to_nat scale) s else [48]).
  set (fp := if zlen s <? scale then replicate (Z.to_nat scale - length s) 48 ++ s
             else if scale <? zlen s then drop (length s - Z.to_nat scale) s else s).
  exists ip, fp.
  assert (∀ k, Forall digit (replicate k 48) ∧ digits_val 0 (replicate k 48) = Some 0) as Hz.
  { intros k. split; [apply Forall_replicate; unfold digit; lia|by induction k]. }
  assert (zlen fp = scale ∧ Forall digit fp) as [Hfl Hfd].
  { unfold fp, zlen. destruct (Z.ltb_spec (Z.of_nat (length s)) scale).
    - rw length_app length_replicate. split; [lia|]. apply Forall_app. split; [apply Hz|done].
    - destruct (Z.ltb_spec scale (Z.of_nat (length s))); [|split; [lia|done]].
      rw length_drop. split; [lia|]. by apply Forall_drop. }
  split_and!; [|done| |intros ->; rw zlen_nil in Hfl; lia|done| |].
  - unfold ip. destruct (scale <? zlen s); [by apply Forall_take|]. constructor; [unfold digit; lia|done].
  - unfold ip, zlen. destruct (Z.ltb_spec scale (Z.of_nat (length s))); [|done].
    intros Hx%(f_equal length). rw length_take in Hx. simpl in Hx. lia.
  - unfold ip, fp, zlen. destruct (Z.ltb_spec scale (Z.of_nat (length s))).
    + destruct (Z.ltb_spec (Z.of_nat (length s)) scale); [lia|]. by rw take_drop.
    + assert (∀ l, digits_val 0 ([48] ++ l) = digits_val 0 l) as -> by done.
      destruct (Z.ltb_spec (Z.of_nat (length s)) scale); [|done].
      rw digits_val_app. destruct (Hz (Z.to_nat scale - length s)%nat) as [_ ->]. done.
  - intros m _ Hm. unfold format_decimal. destruct (Z.eqb_spec scale 0); [lia|]. rw Hm. fold s.
    fold ip. fold fp. by destruct (m <? 0).
Qed.

Lemma parse_sign_digits neg c r :
  digit c →
  match (if (neg : bool) then [45] else []) ++ c :: r with
  | 45 :: rest => (-1, rest)
  | 43 :: rest => (1, rest)
  | _ => (1, (if neg then [45] else []) ++ c :: r)
  end = (if neg then -1 else 1, c :: r).
Proof.
  intros Hc. unfold digit in Hc. destruct neg; [done|]. cbn [app].
  assert (c = 48 ∨ c = 49 ∨ c = 50 ∨ c = 51 ∨ c = 52 ∨ c = 53 ∨ c = 54 ∨ c = 55 ∨ c = 56 ∨ c = 57) as Hcs by lia.
  repeat destruct Hcs as [->|Hcs]; done || by subst c.
Qed.

Lemma split_once_none c s : Forall (λ x, x ≠ c) s → split_once c s = None.
Proof.
  induction 1 as [|x s Hx _ IH]; [done|]. cbn [split_once]. destruct (Z.eqb_spec x c); [done|]. by rw IH.
Qed.

Lemma trim_signed neg (a b : list Z) :
  Forall digit a → a ≠ [] → Forall digit b → b ≠ [] →
  trim ((if (neg : bool) then [45] else []) ++ a ++ [46] ++ b) = (if neg then [45] else []) ++ a ++ [46] ++ b ∧
  trim ((if neg then [45] else []) ++ a) = (if neg then [45] else []) ++ a.
Proof.
  assert (∀ x r c, is_whitespace x = false → is_whitespace c = false → trim (x :: r ++ [c]) = x :: r ++ [c]) as Ht.
  { intros x r c Hx Hc. unfold trim. rw trim_start_id; [done|].
    rw (app_comm_cons r [c] x) reverse_app reverse_singleton. cbn [app]. rw trim_start_id; [done|].
    by rw reverse_cons reverse_involutive. }
  intros Ha Hane Hb Hbne.
  assert (∀ l, Forall digit l → l ≠ [] → ∃ c r, l = r ++ [c] ∧ is_whitespace c = false) as Hl.
  { intros l Hd Hne. destruct l as [|c r _] using rev_ind; [done|]. exists c, r. split; [done|].
    apply Forall_app in Hd as [_ Hd]. apply Forall_cons in Hd as [Hd _]. by apply digit_not_space. }
  destruct (Hl b Hb Hbne) as (cb & rb & -> & Hcb). destruct (Hl a Ha Hane) as (ca & ra & Hea & Hca).
  destruct a as [|x a]; [done|]. apply Forall_cons in Ha as [Hx Ha]. apply digit_not_space in Hx as (Hx & _).
  assert (is_whitespace 45 = false) as H45 by done. destruct neg; cbn [app]; split.
  - specialize (Ht 45 (x :: a ++ 46 :: rb) cb H45 Hcb).
    cbn [app] in Ht. by rw -app_assoc in Ht.
  - rw Hea. by apply Ht.
  - specialize (Ht x (a ++ 46 :: rb) cb Hx Hcb). by rw -app_assoc in Ht.
  - destruct ra as [|y ra]; simplify_eq/=; [|by apply Ht]. unfold trim. by rw !trim_start_id.
Qed.

(** A decimal survives printing and parsing, mantissa and scale, for every
    mantissa but the smallest [i128]. *)
Theorem decimal_round_trip m scale :
  - 2 ^ 127 < m < 2 ^ 127 → 0 ≤ scale ≤ 255 → parse_decimal (format_decimal m scale) = Some (m, scale).
Proof.
  intros Hm Hs. assert (¬ digit 46) as H46 by (unfold digit; lia).
  assert (∀ l, Forall digit l → Forall (λ x, x ≠ 46) l) as Hno.
  { intros l Hl. apply (Forall_impl _ _ _ Hl). intros x Hx ->. done. }
  assert (∀ v, v = Z.abs m → (if m <? 0 then -1 else 1) * v = m) as Hsg.
  { intros v ->. destruct (Z.ltb_spec m 0); lia. }
  destruct (Z.eqb_spec scale 0) as [->|Hs0].
  - destruct (show_nat_spec (Z.abs m)) as (Hd & Hne & Hv); [lia|]. set (s := show_nat (Z.abs m)) in *.
    assert (format_decimal m 0 = (if m <? 0 then [45] else []) ++ s) as ->.
    { unfold format_decimal, s. cbn. destruct (Z.ltb_spec m 0); [by rw Z.abs_neq; [lia|]|by rw Z.abs_eq]. }
    unfold parse_decimal. destruct (trim_signed (m <? 0) s s Hd Hne Hd Hne) as [_ ->].
    destruct s as [|c r]; [done|]. pose proof Hd as Hd'. apply Forall_cons in Hd' as [Hc _].
    rw (parse_sign_digits (m <? 0) c r Hc) split_once_none; [by apply Hno|].
    rw bool_decide_false; [naive_solver|]. rw app_nil_r.
    destruct (mantissa_val (c :: r) 0 (Z.abs m)) as [_ ->]; [lia|done|lia|]. cbn [mbind option_bind].
    rw Hsg; [done|]. rw i128_small; [lia|]. done.
  - destruct (decimal_parts (Z.abs m) scale) as (ip & fp & Hip & Hfp & Hin & Hfn & Hfl & Hv & Hf); [lia|lia|].
    rw Hf; [lia|done|]. unfold parse_decimal. destruct (trim_signed (m <? 0) ip fp Hip Hin Hfp Hfn) as [-> _].
    destruct ip as [|c r]; [done|]. pose proof Hip as Hip'. apply Forall_cons in Hip' as [Hc _]. cbn [app].
    rw (parse_sign_digits (m <? 0) c (r ++ 46 :: fp) Hc).
    rw (app_comm_cons r) split_once_first; [by apply Hno|].
    rw bool_decide_false; [naive_solver|].
    destruct (mantissa_val ((c :: r) ++ fp) 0 (Z.abs m)) as [_ ->]; [lia|done|lia|]. cbn [mbind option_bind].
    rw Hsg; [done|]. rw i128_small; [lia|]. cbn [mbind option_bind]. rw Hfl wrap_small; [lia|]. done.
Qed.

Lemma decimal_round_trip_witness : parse_decimal (format_decimal (-7) 3) = Some (-7, 3).
Proof. by apply (decimal_round_trip (-7) 3). Defined.

End Literals.
