(* ===== verification/Transaction.v ===== *)
(** The transaction manager ([bytedb-core/src/mvcc/transaction.rs]): identifier
    and timestamp allocation, the active and committed tables, snapshots,
    deadlines, and the bookkeeping of serializable snapshot isolation (reads,
    writes, predicate scans and rw-conflict flags).

    An operation is one atomic step on a [TransactionManager]: the code takes
    the locks of the tables it uses one after the other, and the interleavings
    of two operations between those acquisitions are not modelled. [Instant] and
    [Duration] are integers, and the operations that read the clock take the
    current instant as an argument. The [Arc<SsiState>] that an operation
    clones out of the [ssi] map is the entry of the map: the flags it sets are
    set there. *)
From S2P Require Import Prelude.

Module Transaction.

Definition RwKey : Type := string * list Z.

Record SsiState := mkSsiState {
  ss_start_ts : Z;
  reads : gset RwKey;
  scanned : gset string;
  writes : gset RwKey;
  in_conflict : bool;
  out_conflict : bool;
  aborted : bool;
}.

Definition SsiState_new (start_ts : Z) : SsiState :=
  mkSsiState start_ts ∅ ∅ ∅ false false false.

Definition is_dangerous (s : SsiState) : bool := aborted s.

Definition is_pivot (s : SsiState) : bool :=
  negb (aborted s) && in_conflict s && out_conflict s.

(** The stores into the atomics and the insertions into the sets of an
    [SsiState]. *)
Definition ssi_abort (s : SsiState) : SsiState :=
  mkSsiState (ss_start_ts s) (reads s) (scanned s) (writes s) (in_conflict s) (out_conflict s) true.
Definition set_in (s : SsiState) : SsiState :=
  mkSsiState (ss_start_ts s) (reads s) (scanned s) (writes s) true (out_conflict s) (aborted s).
Definition set_out (s : SsiState) : SsiState :=
  mkSsiState (ss_start_ts s) (reads s) (scanned s) (writes s) (in_conflict s) true (aborted s).
Definition add_read (rk : RwKey) (s : SsiState) : SsiState :=
  mkSsiState (ss_start_ts s) ({[rk]} ∪ reads s) (scanned s) (writes s)
    (in_conflict s) (out_conflict s) (aborted s).
Definition add_scan (table : string) (s : SsiState) : SsiState :=
  mkSsiState (ss_start_ts s) (reads s) ({[table]} ∪ scanned s) (writes s)
    (in_conflict s) (out_conflict s) (aborted s).
Definition add_write (rk : RwKey) (s : SsiState) : SsiState :=
  mkSsiState (ss_start_ts s) (reads s) (scanned s) ({[rk]} ∪ writes s)
    (in_conflict s) (out_conflict s) (aborted s).

Record CommittedSsi := mkCommittedSsi {
  c_commit_ts : Z;
  c_reads : gset RwKey;
  c_scanned : gset string;
  c_writes : gset RwKey;
}.

Inductive IsolationLevel := ReadCommitted | RepeatableRead | Serializable.

Inductive TxnStatus := Active | Committed | Aborted.

#[export] Instance IsolationLevel_eq_dec : EqDecision IsolationLevel.
Proof. solve_decision. Defined.
#[export] Instance TxnStatus_eq_dec : EqDecision TxnStatus.
Proof. solve_decision. Defined.

Record Transaction := mkTransaction {
  id : Z;
  isolation : IsolationLevel;
  start_ts : Z;
  commit_ts : option Z;
  status : TxnStatus;
  started_at : Z;
  deadline_of : option Z;
  snapshot_active : list Z;
}.

Record Snapshot := mkSnapshot {
  sn_txn_id : Z;
  sn_start_ts : Z;
  sn_active_txns : list Z;
}.

Record TransactionManager := mkTM {
  next_txn_id : Z;
  next_timestamp : Z;
  active_txns : gmap Z Transaction;
  committed_txns : gmap Z Z;
  default_txn_timeout : option Z;
  ssi : gmap Z SsiState;
  ssi_recent : gmap Z CommittedSsi;
}.

Definition new : TransactionManager := mkTM 1 1 ∅ ∅ None ∅ ∅.

(** The assignments to single fields. *)
Definition with_active (a : gmap Z Transaction) (tm : TransactionManager) : TransactionManager :=
  mkTM (next_txn_id tm) (next_timestamp tm) a (committed_txns tm) (default_txn_timeout tm)
    (ssi tm) (ssi_recent tm).
Definition with_committed (c : gmap Z Z) (tm : TransactionManager) : TransactionManager :=
  mkTM (next_txn_id tm) (next_timestamp tm) (active_txns tm) c (default_txn_timeout tm)
    (ssi tm) (ssi_recent tm).
Definition with_ssi (m : gmap Z SsiState) (tm : TransactionManager) : TransactionManager :=
  mkTM (next_txn_id tm) (next_timestamp tm) (active_txns tm) (committed_txns tm)
    (default_txn_timeout tm) m (ssi_recent tm).
Definition with_recent (r : gmap Z CommittedSsi) (tm : TransactionManager) : TransactionManager :=
  mkTM (next_txn_id tm) (next_timestamp tm) (active_txns tm) (committed_txns tm)
    (default_txn_timeout tm) (ssi tm) r.
Definition with_counters (i t : Z) (tm : TransactionManager) : TransactionManager :=
  mkTM i t (active_txns tm) (committed_txns tm) (default_txn_timeout tm) (ssi tm) (ssi_recent tm).

Definition set_default_txn_timeout (d : option Z) (tm : TransactionManager) : TransactionManager :=
  mkTM (next_txn_id tm) (next_timestamp tm) (active_txns tm) (committed_txns tm) d
    (ssi tm) (ssi_recent tm).

Section ops.
Context `{HashOrder}.

Definition begin_with_timeout (iso : IsolationLevel) (timeout : option Z) (now : Z)
    (tm : TransactionManager) : TransactionManager * Z :=
  let txn_id := next_txn_id tm in
  let ts := next_timestamp tm in
  let txn := mkTransaction txn_id iso ts None Active now
               ((λ d, now + d) <$> timeout) (hash_keys (active_txns tm)) in
  let tm1 := with_active (<[txn_id := txn]> (active_txns tm))
               (with_counters (fetch_add txn_id 1) (fetch_add ts 1) tm) in
  let tm2 := if bool_decide (iso = Serializable)
             then with_ssi (<[txn_id := SsiState_new ts]> (ssi tm1)) tm1 else tm1 in
  (tm2, txn_id).

Definition begin (iso : IsolationLevel) (now : Z) (tm : TransactionManager)
    : TransactionManager * Z :=
  begin_with_timeout iso (default_txn_timeout tm) now tm.

Definition oldest_active_serializable_start (tm : TransactionManager) : Z :=
  default (next_timestamp tm) (list_min (ss_start_ts <$> hash_values (ssi tm))).

(** [if me.is_pivot() { me.abort() } else if other.is_pivot() { other.abort() }] *)
Definition abort_pivot (me oid : Z) (m : gmap Z SsiState) : gmap Z SsiState :=
  if from_option is_pivot false (m !! me) then alter ssi_abort me m
  else if from_option is_pivot false (m !! oid) then alter ssi_abort oid m
  else m.

(** One iteration of the loop over the other serializable transactions in
    [ssi_record_read] and in [ssi_record_write]. *)
Definition read_other (me : Z) (rk : RwKey) (m : gmap Z SsiState) (oid : Z) : gmap Z SsiState :=
  if bool_decide (oid = me) then m
  else match m !! oid with
  | None => m
  | Some other =>
      if bool_decide (rk ∈ writes other)
      then abort_pivot me oid (alter set_in oid (alter set_out me m))
      else m
  end.

Definition write_other (me : Z) (rk : RwKey) (m : gmap Z SsiState) (oid : Z) : gmap Z SsiState :=
  if bool_decide (oid = me) then m
  else match m !! oid with
  | None => m
  | Some other =>
      let read_it := bool_decide (rk ∈ reads other) in
      let scanned_it := bool_decide (rk.1 ∈ scanned other) in
      if read_it || scanned_it
      then abort_pivot me oid (alter set_in me (alter set_out oid m))
      else m
  end.

(** [if me.is_pivot() { me.abort() }] *)
Definition abort_if_pivot (s : SsiState) : SsiState := if is_pivot s then ssi_abort s else s.

(** One iteration of the loop over [ssi_recent]. *)
Definition read_recent (rk : RwKey) (me : SsiState) (c : CommittedSsi) : SsiState :=
  if (ss_start_ts me <? c_commit_ts c) && bool_decide (rk ∈ c_writes c)
  then abort_if_pivot (set_out me) else me.

Definition write_recent (rk : RwKey) (me : SsiState) (c : CommittedSsi) : SsiState :=
  if (ss_start_ts me <? c_commit_ts c) &&
     (bool_decide (rk ∈ c_reads c) || bool_decide (rk.1 ∈ c_scanned c))
  then abort_if_pivot (set_in me) else me.

Definition ssi_record_read (txn_id : Z) (table : string) (key : list Z)
    (tm : TransactionManager) : TransactionManager :=
  match ssi tm !! txn_id with
  | None => tm
  | Some _ =>
      let rk := (table, key) in
      let m1 := alter (add_read rk) txn_id (ssi tm) in
      let m2 := foldl (read_other txn_id rk) m1 (hash_keys m1) in
      let m3 := alter (λ me, foldl (read_recent rk) me (hash_values (ssi_recent tm))) txn_id m2 in
      with_ssi m3 tm
  end.

Definition ssi_record_predicate (txn_id : Z) (table : string) (tm : TransactionManager)
    : TransactionManager :=
  match ssi tm !! txn_id with
  | None => tm
  | Some _ => with_ssi (alter (add_scan table) txn_id (ssi tm)) tm
  end.

Definition ssi_record_write (txn_id : Z) (table : string) (key : list Z)
    (tm : TransactionManager) : TransactionManager :=
  match ssi tm !! txn_id with
  | None => tm
  | Some _ =>
      let rk := (table, key) in
      let m1 := alter (add_write rk) txn_id (ssi tm) in
      let m2 := foldl (write_other txn_id rk) m1 (hash_keys m1) in
      let m3 := alter (λ me, foldl (write_recent rk) me (hash_values (ssi_recent tm))) txn_id m2 in
      with_ssi m3 tm
  end.

Definition check_deadline (txn_id now : Z) (tm : TransactionManager) : result () :=
  match active_txns tm !! txn_id with
  | None => Err (TransactionNotFound txn_id)
  | Some txn =>
      match deadline_of txn with
      | Some dl => if dl <=? now then Err (TransactionTimeout txn_id) else Ok ()
      | None => Ok ()
      end
  end.

Definition deadline (txn_id : Z) (tm : TransactionManager) : option Z :=
  active_txns tm !! txn_id ≫= deadline_of.

Definition timed_out_txns (now : Z) (tm : TransactionManager) : list Z :=
  id <$> filter (λ t, from_option (λ d, d <=? now) false (deadline_of t) = true)
           (hash_values (active_txns tm)).

Definition gc_ssi_recent (tm : TransactionManager) : TransactionManager :=
  let oldest := oldest_active_serializable_start tm in
  with_recent (filter (λ kc, oldest ≤ c_commit_ts kc.2) (ssi_recent tm)) tm.

(** The bookkeeping of a successful commit of a serializable transaction. *)
Definition retire_ssi (txn_id ts : Z) (state : SsiState) (tm : TransactionManager)
    : TransactionManager :=
  let tm1 := if bool_decide (writes state = ∅) then tm
             else with_recent (<[txn_id := mkCommittedSsi ts (reads state) (scanned state)
                                             (writes state)]> (ssi_recent tm)) tm in
  gc_ssi_recent (with_ssi (delete txn_id (ssi tm1)) tm1).

Definition commit (txn_id : Z) (tm : TransactionManager) : TransactionManager * result Z :=
  let ssi_state := ssi tm !! txn_id in
  if from_option is_dangerous false ssi_state then
    (with_active (delete txn_id (active_txns tm)) (with_ssi (delete txn_id (ssi tm)) tm),
     Err SerializationConflict)
  else
    match active_txns tm !! txn_id with
    | None => (tm, Err (TransactionNotFound txn_id))
    | Some txn =>
        if negb (bool_decide (status txn = Active)) then (tm, Err (TransactionAborted txn_id))
        else
          let ts := next_timestamp tm in
          let tm1 := with_active (delete txn_id (active_txns tm))
                       (with_counters (next_txn_id tm) (fetch_add ts 1) tm) in
          let tm2 := with_committed (<[txn_id := ts]> (committed_txns tm1)) tm1 in
          (from_option (λ state, retire_ssi txn_id ts state tm2) tm2 ssi_state, Ok ts)
    end.

Definition abort (txn_id : Z) (tm : TransactionManager) : TransactionManager * result () :=
  let was_ssi := bool_decide (is_Some (ssi tm !! txn_id)) in
  let tm1 := with_ssi (delete txn_id (ssi tm)) tm in
  match active_txns tm1 !! txn_id with
  | None => (tm1, Err (TransactionNotFound txn_id))
  | Some _ =>
      let tm2 := with_active (delete txn_id (active_txns tm1)) tm1 in
      (if was_ssi then gc_ssi_recent tm2 else tm2, Ok ())
  end.

Definition get_snapshot (txn_id : Z) (tm : TransactionManager) : result Snapshot :=
  match active_txns tm !! txn_id with
  | None => Err (TransactionNotFound txn_id)
  | Some txn => Ok (mkSnapshot txn_id (start_ts txn) (snapshot_active txn))
  end.

Definition is_committed (txn_id : Z) (tm : TransactionManager) : bool :=
  bool_decide (is_Some (committed_txns tm !! txn_id)).

Definition get_commit_ts (txn_id : Z) (tm : TransactionManager) : option Z :=
  committed_txns tm !! txn_id.

Definition is_active (txn_id : Z) (tm : TransactionManager) : bool :=
  bool_decide (is_Some (active_txns tm !! txn_id)).

Definition active_count (tm : TransactionManager) : Z := Z.of_nat (size (active_txns tm)).

Definition oldest_active_start_ts (tm : TransactionManager) : Z :=
  default (next_timestamp tm) (list_min (start_ts <$> hash_values (active_txns tm))).

Definition active_txn_ids (tm : TransactionManager) : list Z := hash_keys (active_txns tm).

Definition gc_committed (oldest_active_ts : Z) (tm : TransactionManager)
    : TransactionManager * Z :=
  let kept := filter (λ kt, oldest_active_ts ≤ kt.2) (committed_txns tm) in
  (with_committed kept tm,
   Z.of_nat (size (committed_txns tm)) - Z.of_nat (size kept)).

Definition committed_count (tm : TransactionManager) : Z := Z.of_nat (size (committed_txns tm)).
Definition ssi_recent_count (tm : TransactionManager) : Z := Z.of_nat (size (ssi_recent tm)).
Definition ssi_active_count (tm : TransactionManager) : Z := Z.of_nat (size (ssi tm)).

Definition is_aborted (txn_id : Z) (tm : TransactionManager) : bool :=
  negb (is_active txn_id tm) && negb (is_committed txn_id tm).

(** ** Runs *)

Inductive op :=
  | OBegin (iso : IsolationLevel) (timeout : option Z) (now : Z)
  | OCommit (txn_id : Z)
  | OAbort (txn_id : Z)
  | ORead (txn_id : Z) (table : string) (key : list Z)
  | OScan (txn_id : Z) (table : string)
  | OWrite (txn_id : Z) (table : string) (key : list Z)
  | OTimeout (d : option Z)
  | OGcCommitted (oldest : Z)
  | OGcSsi.

Definition step (tm : TransactionManager) (o : op) : TransactionManager :=
  match o with
  | OBegin iso timeout now => (begin_with_timeout iso timeout now tm).1
  | OCommit t => (commit t tm).1
  | OAbort t => (abort t tm).1
  | ORead t table key => ssi_record_read t table key tm
  | OScan t table => ssi_record_predicate t table tm
  | OWrite t table key => ssi_record_write t table key tm
  | OTimeout d => set_default_txn_timeout d tm
  | OGcCommitted oldest => (gc_committed oldest tm).1
  | OGcSsi => gc_ssi_recent tm
  end.

Definition run (ops : list op) : TransactionManager := foldl step new ops.
End ops.

(** ** The flags only grow *)

Record flags_le (s s' : SsiState) : Prop := {
  fl_start : ss_start_ts s' = ss_start_ts s;
  fl_reads : reads s' = reads s;
  fl_scanned : scanned s' = scanned s;
  fl_writes : writes s' = writes s;
  fl_in : in_conflict s = true → in_conflict s' = true;
  fl_out : out_conflict s = true → out_conflict s' = true;
  fl_aborted : aborted s = true → aborted s' = true;
}.

#[export] Instance flags_le_preorder : PreOrder flags_le.
Proof.
  split.
  - intros s. by split.
  - intros a b c [] []. split; try congruence; auto.
Qed.

Lemma flags_le_abort s : flags_le s (ssi_abort s).
Proof. by split. Qed.
Lemma flags_le_in s : flags_le s (set_in s).
Proof. by split. Qed.
Lemma flags_le_out s : flags_le s (set_out s).
Proof. by split. Qed.
Lemma flags_le_abort_if s : flags_le s (abort_if_pivot s).
Proof. unfold abort_if_pivot. case_match; [apply flags_le_abort|done]. Qed.
#[local] Hint Resolve flags_le_abort flags_le_in flags_le_out flags_le_abort_if : core.

(** Lifted to the map of serializable transactions. *)
Definition mflags_le (m m' : gmap Z SsiState) : Prop :=
  ∀ t, match m !! t, m' !! t with
       | Some s, Some s' => flags_le s s'
       | None, None => True
       | _, _ => False
       end.

#[export] Instance mflags_le_preorder : PreOrder mflags_le.
Proof.
  split.
  - intros m t. by case_match.
  - intros a b c H1 H2 t. specialize (H1 t). specialize (H2 t).
    destruct (a !! t), (b !! t), (c !! t); try done. exact (transitivity H1 H2).
Qed.

Lemma mflags_le_alter f t m : (∀ s, flags_le s (f s)) → mflags_le m (alter f t m).
Proof.
  intros Hf t'. destruct (decide (t = t')) as [<-|Hne].
  - rw lookup_alter_eq. destruct (m !! t); simpl; [apply Hf|done].
  - rw lookup_alter_ne; [done|]. by case_match.
Qed.

Lemma mflags_le_Some m m' t s :
  mflags_le m m' → m !! t = Some s → ∃ s', m' !! t = Some s' ∧ flags_le s s'.
Proof. intros Hm Hs. specialize (Hm t). rw Hs in Hm. case_match; [eauto|done]. Qed.

Lemma mflags_le_Some_inv m m' t s' :
  mflags_le m m' → m' !! t = Some s' → ∃ s, m !! t = Some s ∧ flags_le s s'.
Proof. intros Hm Hs. specialize (Hm t). rw Hs in Hm. case_match; [eauto|done]. Qed.

Lemma mflags_le_None m m' t : mflags_le m m' → m !! t = None ↔ m' !! t = None.
Proof. intros Hm. specialize (Hm t). by destruct (m !! t), (m' !! t). Qed.

Lemma mflags_le_abort_pivot me oid m : mflags_le m (abort_pivot me oid m).
Proof.
  unfold abort_pivot. case_match; [by apply mflags_le_alter|].
  case_match; [by apply mflags_le_alter|reflexivity].
Qed.

Lemma mflags_le_read_other me rk m oid : mflags_le m (read_other me rk m oid).
Proof.
  unfold read_other. case_match; [reflexivity|]. case_match; [|reflexivity]. case_match; [|reflexivity].
  etrans; [|apply mflags_le_abort_pivot].
  etrans; apply mflags_le_alter; auto.
Qed.

Lemma mflags_le_write_other me rk m oid : mflags_le m (write_other me rk m oid).
Proof.
  unfold write_other. case_match; [reflexivity|]. case_match; [|reflexivity]. case_match; [|reflexivity].
  etrans; [|apply mflags_le_abort_pivot].
  etrans; apply mflags_le_alter; auto.
Qed.

Lemma mflags_le_foldl (f : gmap Z SsiState → Z → gmap Z SsiState) m l :
  (∀ m t, mflags_le m (f m t)) → mflags_le m (foldl f m l).
Proof.
  intros Hf. revert m. induction l as [|t l IH]; intros m; simpl; [reflexivity|].
  etrans; [apply Hf|apply IH].
Qed.

Lemma flags_le_read_recent rk s c : flags_le s (read_recent rk s c).
Proof. unfold read_recent. case_match; [etrans; [apply flags_le_out|auto]|reflexivity]. Qed.

Lemma flags_le_write_recent rk s c : flags_le s (write_recent rk s c).
Proof. unfold write_recent. case_match; [etrans; [apply flags_le_in|auto]|reflexivity]. Qed.

Lemma flags_le_foldl {A} (f : SsiState → A → SsiState) s l :
  (∀ s a, flags_le s (f s a)) → flags_le s (foldl f s l).
Proof.
  intros Hf. revert s. induction l as [|a l IH]; intros s; simpl; [reflexivity|].
  etrans; [apply Hf|apply IH].
Qed.

(** ** Invariant of the manager *)

(** [k] bounds the counters: they cannot wrap in a run of fewer than [2^64 - 2]
    operations. The last three fields say what a snapshot is: it lists the
    transactions that began before it and were still active, so that a
    transaction committed before the snapshot exactly when it began before it
    and is not in the list. *)
Record tm_inv (k : Z) (tm : TransactionManager) : Prop := {
  inv_id : 1 ≤ next_txn_id tm ≤ k + 1;
  inv_ts : 1 ≤ next_timestamp tm ≤ k + 1;
  inv_active : ∀ t x, active_txns tm !! t = Some x →
    id x = t ∧ status x = Active ∧ commit_ts x = None ∧ 1 ≤ t < next_txn_id tm ∧
    1 ≤ start_ts x < next_timestamp tm ∧ Forall (λ s, 1 ≤ s < t) (snapshot_active x);
  inv_committed : ∀ t c, committed_txns tm !! t = Some c →
    1 ≤ t < next_txn_id tm ∧ 1 ≤ c < next_timestamp tm ∧ active_txns tm !! t = None;
  inv_ssi : ∀ t s, ssi tm !! t = Some s → ∃ x,
    active_txns tm !! t = Some x ∧ isolation x = Serializable ∧ start_ts x = ss_start_ts s;
  inv_recent : ∀ t c, ssi_recent tm !! t = Some c →
    1 ≤ t < next_txn_id tm ∧ c_commit_ts c < next_timestamp tm ∧ ssi tm !! t = None;
  inv_order : ∀ t x t' y, active_txns tm !! t = Some x → active_txns tm !! t' = Some y →
    t < t' → start_ts x < start_ts y;
  inv_concurrent : ∀ t x t' y, active_txns tm !! t = Some x → active_txns tm !! t' = Some y →
    t < t' → t ∈ snapshot_active y;
  inv_before : ∀ t c t' y, committed_txns tm !! t = Some c → active_txns tm !! t' = Some y →
    c ≠ start_ts y ∧ (c < start_ts y ↔ t < t' ∧ t ∉ snapshot_active y);
}.

Lemma tm_inv_new : tm_inv 0 new.
Proof. split; simpl; try lia; intros; simplify_map_eq. Qed.

(** The invariant does not depend on the sets and flags of the [ssi] entries,
    nor on a larger bound. *)
Lemma tm_inv_mono k k' tm : tm_inv k tm → k ≤ k' → tm_inv k' tm.
Proof. intros [] Hk. split; try done; lia. Qed.

Lemma tm_inv_with_ssi k tm m :
  tm_inv k tm →
  (∀ t, ss_start_ts <$> m !! t = ss_start_ts <$> ssi tm !! t) → tm_inv k (with_ssi m tm).
Proof.
  intros [] Hm. split; simpl; try done.
  - intros t s Hs. specialize (Hm t). rw Hs in Hm. simpl in Hm.
    destruct (ssi tm !! t) as [s'|] eqn:Hs'; [|done]. simpl in Hm. simplify_eq.
    destruct (inv_ssi0 _ _ Hs') as (x & ? & ? & ?). exists x. split_and!; congruence.
  - intros t c Hc. destruct (inv_recent0 _ _ Hc) as (? & ? & Hn). split_and!; [lia..|].
    specialize (Hm t). rw Hn in Hm. by destruct (m !! t).
Qed.

Lemma mflags_le_start m m' t : mflags_le m m' → ss_start_ts <$> m' !! t = ss_start_ts <$> m !! t.
Proof.
  intros Hm. specialize (Hm t). destruct (m !! t), (m' !! t); try done.
  simpl. f_equal. by apply fl_start.
Qed.

Lemma alter_start f t t' (m : gmap Z SsiState) :
  (∀ s, ss_start_ts (f s) = ss_start_ts s) →
  ss_start_ts <$> alter f t m !! t' = ss_start_ts <$> m !! t'.
Proof.
  intros Hf. destruct (decide (t = t')) as [<-|Hne]; [|by rw lookup_alter_ne].
  rw lookup_alter_eq. destruct (m !! t); simpl; congruence.
Qed.

Section invariant.
Context `{HashOrder}.
Implicit Types tm : TransactionManager.

Lemma tm_inv_read k t table key tm : tm_inv k tm → tm_inv k (ssi_record_read t table key tm).
Proof.
  intros Hinv. unfold ssi_record_read. case_match; [|done].
  apply tm_inv_with_ssi; [done|]. intros t'.
  rw alter_start; [intros ?; apply fl_start, flags_le_foldl; intros; apply flags_le_read_recent|].
  erewrite mflags_le_start by (apply mflags_le_foldl; intros; apply mflags_le_read_other).
  by apply alter_start.
Qed.

Lemma tm_inv_write k t table key tm : tm_inv k tm → tm_inv k (ssi_record_write t table key tm).
Proof.
  intros Hinv. unfold ssi_record_write. case_match; [|done].
  apply tm_inv_with_ssi; [done|]. intros t'.
  rw alter_start; [intros ?; apply fl_start, flags_le_foldl; intros; apply flags_le_write_recent|].
  erewrite mflags_le_start by (apply mflags_le_foldl; intros; apply mflags_le_write_other).
  by apply alter_start.
Qed.

Lemma tm_inv_scan k t table tm : tm_inv k tm → tm_inv k (ssi_record_predicate t table tm).
Proof.
  intros Hinv. unfold ssi_record_predicate. case_match; [|done].
  apply tm_inv_with_ssi; [done|]. intros t'. by apply alter_start.
Qed.

Lemma tm_inv_with_recent k tm r : r ⊆ ssi_recent tm → tm_inv k tm → tm_inv k (with_recent r tm).
Proof.
  intros Hr []. split; simpl; try done. intros t c Hc. eapply inv_recent0, lookup_weaken; eauto.
Qed.

Lemma tm_inv_gc_ssi k tm : tm_inv k tm → tm_inv k (gc_ssi_recent tm).
Proof. intros. apply tm_inv_with_recent; [apply map_filter_subseteq|done]. Qed.

Lemma tm_inv_gc_committed k oldest tm : tm_inv k tm → tm_inv k (gc_committed oldest tm).1.
Proof.
  intros []. split; simpl; try done; intros t c.
  - intros [Hc _]%map_lookup_filter_Some. by apply inv_committed0.
  - intros ?? [Hc _]%map_lookup_filter_Some. by apply inv_before0.
Qed.

Lemma fetch_add_small k z : k + 3 ≤ 2 ^ 64 → 1 ≤ z ≤ k + 1 → fetch_add z 1 = z + 1.
Proof. intros. apply wrap_small. lia. Qed.

Lemma fresh_id k tm :
  tm_inv k tm → active_txns tm !! next_txn_id tm = None ∧ ssi tm !! next_txn_id tm = None.
Proof.
  intros [].
  assert (active_txns tm !! next_txn_id tm = None) as Hfresh.
  { destruct (active_txns tm !! next_txn_id tm) as [y|] eqn:Hy; [|done].
    apply inv_active0 in Hy. lia. }
  split; [done|]. destruct (ssi tm !! next_txn_id tm) as [y|] eqn:Hy; [|done].
  apply inv_ssi0 in Hy as (? & ? & _). congruence.
Qed.

(** The transaction that [begin] registers, before its [ssi] entry. *)
Lemma tm_inv_register k tm x :
  k + 3 ≤ 2 ^ 64 → tm_inv k tm →
  id x = next_txn_id tm → start_ts x = next_timestamp tm → status x = Active →
  commit_ts x = None → snapshot_active x = hash_keys (active_txns tm) →
  tm_inv (k + 1)
    (with_active (<[next_txn_id tm := x]> (active_txns tm))
       (with_counters (next_txn_id tm + 1) (next_timestamp tm + 1) tm)).
Proof.
  intros Hk Hinv Hid Hts Hst Hct Hsn. destruct (fresh_id _ _ Hinv) as [Hfr Hfr'].
  destruct Hinv. set (tm1 := with_active _ _).
  assert (∀ t y, active_txns tm1 !! t = Some y →
    (t = next_txn_id tm ∧ y = x) ∨ (t < next_txn_id tm ∧ active_txns tm !! t = Some y)) as Hact.
  { intros t y. subst tm1. simpl. intros [[<- <-]|[Hne Hy]]%lookup_insert_Some; [by left|].
    right. split; [|done]. apply inv_active0 in Hy. lia. }
  assert (∀ s, s ∈ snapshot_active x ↔ is_Some (active_txns tm !! s)) as Hmem.
  { intros s. rw Hsn. apply elem_of_hash_keys. }
  split; try (simpl; lia).
  - intros t y [[-> ->]|[Hlt Hy]]%Hact; simpl.
    + rw Hts. split_and!; try done; try lia. apply Forall_forall. intros s [z Hz]%Hmem.
      apply inv_active0 in Hz. lia.
    + destruct (inv_active0 _ _ Hy) as (? & ? & ? & ? & ? & ?). split_and!; try done; lia.
  - intros t c Hc. destruct (inv_committed0 _ _ Hc) as (? & ? & Hn).
    simpl. split_and!; [lia..|]. rw lookup_insert_ne; [lia|done].
  - intros t s Hs. destruct (inv_ssi0 _ _ Hs) as (y & Hy & ? & ?). exists y.
    split; [|done]. simpl. rw lookup_insert_ne; [congruence|done].
  - intros t c Hc. destruct (inv_recent0 _ _ Hc) as (? & ? & ?). simpl. split_and!; [lia..|done].
  - intros t y t' z [[-> ->]|[Hlt Hy]]%Hact [[-> ->]|[Hlt' Hz]]%Hact ?; [lia..| |by eauto].
    rw Hts. apply inv_active0 in Hy. lia.
  - intros t y t' z [[-> ->]|[Hlt Hy]]%Hact [[-> ->]|[Hlt' Hz]]%Hact ?; [lia..| |by eauto].
    apply Hmem. eauto.
  - intros t c t' y Hc [[-> ->]|[Hlt' Hz]]%Hact; [|by eauto]. rw Hts Hmem.
    destruct (inv_committed0 _ _ Hc) as (? & ? & Hn). rw Hn. split; [lia|]. split; [|lia].
    intros _. split; [lia|]. by intros [].
Qed.

Lemma tm_inv_begin k iso timeout now tm :
  k + 3 ≤ 2 ^ 64 → tm_inv k tm → tm_inv (k + 1) (begin_with_timeout iso timeout now tm).1.
Proof.
  intros Hk Hinv. unfold begin_with_timeout. set (x := mkTransaction _ _ _ _ _ _ _ _).
  rw !(fetch_add_small k); [done|apply Hinv|done|apply Hinv|].
  pose proof (tm_inv_register k tm x Hk Hinv eq_refl eq_refl eq_refl eq_refl eq_refl) as Hreg.
  destruct (fresh_id _ _ Hinv) as [Hfr Hfr']. set (tm1 := with_active _ _) in *.
  case_bool_decide; [|done]. destruct Hreg. split; try done.
  - intros t s Hs. cbn in Hs. apply lookup_insert_Some in Hs as [[<- <-]|[Hne Hs]]; [|by eauto].
    exists x. split; [|done]. subst tm1. simpl. by rw lookup_insert_eq.
  - intros t c Hc. destruct (inv_recent0 _ _ Hc) as (? & ? & ?). split; [done|]. split; [done|].
    cbn. rw lookup_insert_ne; [|done]. apply Hinv in Hc. lia.
Qed.

(** Removing an active transaction, with its [ssi] entry. *)
Lemma tm_inv_remove k t tm :
  tm_inv k tm →
  tm_inv k (with_active (delete t (active_txns tm)) (with_ssi (delete t (ssi tm)) tm)).
Proof.
  intros []. split; simpl; try done.
  - intros ?? [? Ht]%lookup_delete_Some. by apply inv_active0.
  - intros ?? Hc. destruct (inv_committed0 _ _ Hc) as (? & ? & ?). split_and!; [lia..|].
    by apply lookup_delete_None; right.
  - intros t' s [? Ht]%lookup_delete_Some. rw lookup_delete_ne; [done|]. by eapply inv_ssi0.
  - intros t' c Hc. destruct (inv_recent0 _ _ Hc) as (? & ? & ?). split_and!; [lia..|].
    by apply lookup_delete_None; right.
  - intros ???? [? ?]%lookup_delete_Some [? ?]%lookup_delete_Some. by apply inv_order0.
  - intros ???? [? ?]%lookup_delete_Some [? ?]%lookup_delete_Some. intros; eapply inv_concurrent0; eauto.
  - intros ????? [? ?]%lookup_delete_Some. intros; eapply inv_before0; eauto.
Qed.

Lemma tm_inv_abort k t tm : tm_inv k tm → tm_inv k (abort t tm).1.
Proof.
  intros Hinv. unfold abort. pose proof (tm_inv_remove k t tm Hinv) as Hrem.
  simpl. destruct (active_txns tm !! t) as [x|] eqn:Hx; simpl.
  - case_bool_decide; [by apply tm_inv_gc_ssi|done].
  - rw delete_id in Hrem; [done|]. by destruct tm.
Qed.

(** The commit of an active transaction, before the [ssi] bookkeeping. *)
Lemma tm_inv_publish k t x tm :
  k + 3 ≤ 2 ^ 64 → tm_inv k tm → active_txns tm !! t = Some x →
  tm_inv (k + 1)
    (with_ssi (delete t (ssi tm)) (with_committed (<[t := next_timestamp tm]> (committed_txns tm))
       (with_active (delete t (active_txns tm))
          (with_counters (next_txn_id tm) (next_timestamp tm + 1) tm)))).
Proof.
  intros Hk Hinv Hx. pose proof (tm_inv_remove k t tm Hinv) as Hrem.
  destruct (inv_active _ _ Hinv _ _ Hx) as (_ & _ & _ & Ht & Hst & _).
  pose proof (inv_active _ _ Hinv) as Hall.
  destruct Hrem. split; cbn in *; try done; try lia.
  - intros t' y Hy. destruct (inv_active0 _ _ Hy) as (? & ? & ? & ? & ? & ?). split_and!; try done; lia.
  - intros t' c [[<- <-]|[Hne Hc]]%lookup_insert_Some.
    + split_and!; [lia..|]. by rw lookup_delete_eq.
    + destruct (inv_committed0 _ _ Hc) as (? & ? & ?). split_and!; [lia..|done].
  - intros t' c Hc. destruct (inv_recent0 _ _ Hc) as (? & ? & ?). split_and!; [lia..|done].
  - intros t' c t'' y [[<- <-]|[Hne Hc]]%lookup_insert_Some Hy; [|by apply inv_before0].
    apply lookup_delete_Some in Hy as [Hne Hy].
    destruct (Hall _ _ Hy) as (_ & _ & _ & ? & ? & _). split; [lia|]. split; [lia|].
    intros [Hlt Hnin]. destruct Hnin. exact (inv_concurrent _ _ Hinv _ _ _ _ Hx Hy Hlt).
Qed.

Lemma tm_inv_commit k t tm : k + 3 ≤ 2 ^ 64 → tm_inv k tm → tm_inv (k + 1) (commit t tm).1.
Proof.
  intros Hk Hinv. unfold commit.
  assert (tm_inv (k + 1) tm) as Hinv' by (apply (tm_inv_mono k); [done|lia]).
  case_match; [by apply tm_inv_remove|].
  destruct (active_txns tm !! t) as [x|] eqn:Hx; [|done].
  case_bool_decide; [|done]. cbn [negb fst].
  rw (fetch_add_small k); [done|apply Hinv|]. pose proof (tm_inv_publish k t x tm Hk Hinv Hx) as Hp.
  destruct (ssi tm !! t) as [s|] eqn:Hs; cbn [from_option].
  - unfold retire_ssi. apply tm_inv_gc_ssi. case_bool_decide; [exact Hp|].
    destruct Hp. split; try done. intros t' c Hc. cbn in Hc |- *.
    apply lookup_insert_Some in Hc as [[<- <-]|[Hne Hc]].
    + simpl. rw lookup_delete_eq. pose proof (inv_active _ _ Hinv _ _ Hx). split_and!; [lia..|done].
    + by apply inv_recent0.
  - rw delete_id in Hp; [done|]. by destruct tm.
Qed.

Lemma tm_inv_step k o tm : k + 3 ≤ 2 ^ 64 → tm_inv k tm → tm_inv (k + 1) (step tm o).
Proof.
  intros Hk Hinv. destruct o; simpl.
  - by apply tm_inv_begin.
  - by apply tm_inv_commit.
  - apply (tm_inv_mono k); [|lia]. by apply tm_inv_abort.
  - apply (tm_inv_mono k); [|lia]. by apply tm_inv_read.
  - apply (tm_inv_mono k); [|lia]. by apply tm_inv_scan.
  - apply (tm_inv_mono k); [|lia]. by apply tm_inv_write.
  - apply (tm_inv_mono k); [|lia]. by destruct Hinv.
  - apply (tm_inv_mono k); [|lia]. by apply tm_inv_gc_committed.
  - apply (tm_inv_mono k); [|lia]. by apply tm_inv_gc_ssi.
Qed.

Lemma tm_inv_run ops : zlen ops + 2 ≤ 2 ^ 64 → tm_inv (zlen ops) (run ops).
Proof.
  induction ops as [|o ops IH] using rev_ind; [intros; apply tm_inv_new|].
  unfold run. rw foldl_snoc zlen_app zlen_cons zlen_nil. intros Hk.
  apply tm_inv_step; [lia|]. apply IH. lia.
Qed.

(** What [commit] and [abort] do to the tables of transactions and to the
    counters, on each branch. *)
Lemma commit_core k t tm :
  k + 3 ≤ 2 ^ 64 → tm_inv k tm →
  match (commit t tm).2 with
  | Ok ts => ∃ x, active_txns tm !! t = Some x ∧ from_option aborted false (ssi tm !! t) = false ∧
      ts = next_timestamp tm ∧
      active_txns (commit t tm).1 = delete t (active_txns tm) ∧
      committed_txns (commit t tm).1 = <[t := ts]> (committed_txns tm) ∧
      next_txn_id (commit t tm).1 = next_txn_id tm ∧ next_timestamp (commit t tm).1 = ts + 1
  | Err e =>
      (e = TransactionNotFound t ∧ active_txns tm !! t = None ∧ (commit t tm).1 = tm) ∨
      (e = SerializationConflict ∧ from_option aborted false (ssi tm !! t) = true ∧
       active_txns (commit t tm).1 = delete t (active_txns tm) ∧
       committed_txns (commit t tm).1 = committed_txns tm ∧
       next_txn_id (commit t tm).1 = next_txn_id tm ∧
       next_timestamp (commit t tm).1 = next_timestamp tm)
  end.
Proof.
  intros Hk Hinv. unfold commit.
  destruct (from_option is_dangerous false (ssi tm !! t)) eqn:Hd; cbn [fst snd]; [by right|].
  destruct (active_txns tm !! t) as [x|] eqn:Hx; cbn [fst snd]; [|by left].
  pose proof (inv_active _ _ Hinv _ _ Hx) as (_ & -> & _).
  rw bool_decide_eq_true_2; [done|]. cbn [fst snd negb].
  rw (fetch_add_small k); [done|apply Hinv|]. exists x.
  destruct (ssi tm !! t) as [s|]; cbn [from_option]; [|done].
  unfold retire_ssi. by case_bool_decide.
Qed.

Lemma abort_core t tm :
  active_txns (abort t tm).1 = delete t (active_txns tm) ∧
  committed_txns (abort t tm).1 = committed_txns tm ∧
  next_txn_id (abort t tm).1 = next_txn_id tm ∧ next_timestamp (abort t tm).1 = next_timestamp tm.
Proof.
  unfold abort. cbn. destruct (active_txns tm !! t) as [x|] eqn:Hx; cbn.
  - by case_bool_decide.
  - by rw delete_id.
Qed.

(** What a snapshot separates. In every run of fewer than [2^64 - 2]
    operations, the snapshot of an active transaction lists exactly the
    transactions that began before it and have not ended, among those still
    active; and a committed transaction committed before the snapshot was taken
    exactly when it began before it and is not in the list. *)
Theorem snapshot_separates ops t' sn :
  zlen ops + 2 ≤ 2 ^ 64 → get_snapshot t' (run ops) = Ok sn →
  (∀ t, is_active t (run ops) = true → t ≠ t' → (t ∈ sn_active_txns sn ↔ t < t')) ∧
  (∀ t c, get_commit_ts t (run ops) = Some c →
     (c < sn_start_ts sn ↔ t < t' ∧ t ∉ sn_active_txns sn)).
Proof.
  intros Hk Hsn. pose proof (tm_inv_run ops Hk) as Hinv. unfold get_snapshot in Hsn.
  destruct (active_txns (run ops) !! t') as [y|] eqn:Hy; simplify_eq/=. split.
  - intros t [x Hx]%bool_decide_eq_true Hne. split.
    + pose proof (inv_active _ _ Hinv _ _ Hy) as (_ & _ & _ & _ & _ & Hall).
      rw Forall_forall in Hall. intros Hin%Hall. lia.
    + by apply (inv_concurrent _ _ Hinv _ _ _ _ Hx Hy).
  - intros t c Hc. by apply (inv_before _ _ Hinv _ _ _ _ Hc Hy).
Qed.

(** The reaper sees exactly the transactions whose next deadline check
    fails: at the same instant [timed_out_txns] lists a transaction if and only
    if [check_deadline] returns [TransactionTimeout] for it. *)
Theorem timed_out_iff ops now t :
  zlen ops + 2 ≤ 2 ^ 64 →
  t ∈ timed_out_txns now (run ops) ↔ check_deadline t now (run ops) = Err (TransactionTimeout t).
Proof.
  intros Hk. pose proof (tm_inv_run ops Hk) as Hinv. unfold timed_out_txns, check_deadline.
  rw list_elem_of_fmap. split.
  - intros (x & -> & [Hdl [t' Hx]%elem_of_hash_values]%list_elem_of_filter).
    pose proof (inv_active _ _ Hinv _ _ Hx) as (-> & _). rw Hx.
    destruct (deadline_of x); [|done]. cbn in Hdl. by rw Hdl.
  - destruct (active_txns (run ops) !! t) as [x|] eqn:Hx; [|done]. intros Hd. exists x.
    split; [by apply (inv_active _ _ Hinv) in Hx as (-> & _)|]. apply list_elem_of_filter. split.
    + destruct (deadline_of x); [|done]. cbn. by destruct (_ <=? _).
    + apply elem_of_hash_values. by exists t.
Qed.

(** [commit] on every branch, in a reachable state: it succeeds exactly for
    the active transactions that are not marked for abort; the timestamp it
    returns is larger than every start and commit timestamp handed out before;
    afterwards the transaction is committed with that timestamp and no longer
    active, and every other transaction is as before. A refused transaction is
    removed without being committed. *)
Theorem commit_behaviour ops t :
  zlen ops + 3 ≤ 2 ^ 64 → let tm := run ops in
  match (commit t tm).2 with
  | Ok ts =>
      is_active t tm = true ∧ from_option aborted false (ssi tm !! t) = false ∧
      (∀ t' x, active_txns tm !! t' = Some x → start_ts x < ts) ∧
      (∀ t' c, committed_txns tm !! t' = Some c → c < ts) ∧
      get_commit_ts t (commit t tm).1 = Some ts ∧
      active_txns (commit t tm).1 = delete t (active_txns tm) ∧
      (∀ t', t' ≠ t → get_commit_ts t' (commit t tm).1 = get_commit_ts t' tm)
  | Err e =>
      (e = TransactionNotFound t ∧ is_active t tm = false ∧ (commit t tm).1 = tm) ∨
      (e = SerializationConflict ∧ from_option aborted false (ssi tm !! t) = true ∧
       committed_txns (commit t tm).1 = committed_txns tm ∧
       active_txns (commit t tm).1 = delete t (active_txns tm) ∧
       is_aborted t (commit t tm).1 = true)
  end.
Proof.
  intros Hk tm. assert (tm_inv (zlen ops) tm) as Hinv by (apply tm_inv_run; lia). clearbody tm.
  pose proof (commit_core (zlen ops) t tm ltac:(lia) Hinv) as Hc.
  unfold get_commit_ts, is_aborted, is_active, is_committed.
  destruct (commit t tm) as [tm' [ts|e]]; cbn [fst snd] in *.
  - destruct Hc as (x & Hx & Hnab & -> & -> & -> & _ & _). split_and!; try done.
    + by rw Hx.
    + intros t' y Hy. apply (inv_active _ _ Hinv) in Hy. lia.
    + intros t' c Hc. apply (inv_committed _ _ Hinv) in Hc. lia.
    + by rw lookup_insert_eq.
    + intros t' Hne. rw lookup_insert_ne; [congruence|done].
  - destruct Hc as [(-> & Hx & ->)|(-> & Hd & E1 & E2 & _)]; [left|right].
    + by rw Hx.
    + rw E1 E2 lookup_delete_eq. split_and!; try done.
      destruct (ssi tm !! t) as [s|] eqn:Hs; [|done].
      destruct (inv_ssi _ _ Hinv _ _ Hs) as (x & Hx & _).
      destruct (committed_txns tm !! t) as [c|] eqn:Hc; [|done].
      apply (inv_committed _ _ Hinv) in Hc as (_ & _ & ?). congruence.
Qed.
End invariant.

(** A run with a deadline: the second transaction begins while the first is
    active and is still active when the first commits. *)
Definition sample_run : list op :=
  [OBegin ReadCommitted None 0; OBegin RepeatableRead (Some 5) 10; OCommit 1].

Lemma snapshot_separates_witness :
  get_commit_ts 1 (run sample_run) = Some 3 ∧ (3 < 2 ↔ 1 < 2 ∧ 1 ∉ [1]).
Proof.
  assert (get_commit_ts 1 (run sample_run) = Some 3) as Hc by (vm_compute; reflexivity).
  split; [exact Hc|].
  exact (proj2 (snapshot_separates sample_run 2 (mkSnapshot 2 2 [1]) ltac:(vm_compute; discriminate)
    ltac:(vm_compute; reflexivity)) 1 3 Hc).
Defined.

Lemma timed_out_iff_witness :
  2 ∈ timed_out_txns 15 (run sample_run) ↔
  check_deadline 2 15 (run sample_run) = Err (TransactionTimeout 2).
Proof. apply (timed_out_iff sample_run 15 2). vm_compute; discriminate. Defined.

Lemma commit_behaviour_witness :
  (commit 2 (run sample_run)).2 = Ok 4 ∧ get_commit_ts 2 (commit 2 (run sample_run)).1 = Some 4.
Proof.
  pose proof (commit_behaviour sample_run 2 ltac:(vm_compute; discriminate)) as Hc.
  split; [vm_compute; reflexivity|]. vm_compute (commit 2 _).2 in Hc.
  destruct Hc as (_ & _ & _ & _ & Hc & _). exact Hc.
Defined.

(** After the vacuum has collected the table of committed transactions, a
    transaction that committed is reported as aborted. *)
Example committed_reported_aborted :
  is_committed 1 (run (sample_run ++ [OCommit 2])) = true ∧
  is_aborted 1 (run (sample_run ++ [OCommit 2; OGcCommitted 5])) = true.
Proof. split; vm_compute; reflexivity. Qed.

End Transaction.
