(* ===== verification/Ssi.v ===== *)
(** Serializable snapshot isolation: what the conflict flags that
    [transaction.rs] maintains guarantee. An rw-edge goes from a transaction
    that read an item to a concurrent one that wrote it. The development shows
    that every edge is flagged at both ends, that two consecutive edges between
    active transactions always have an aborted transaction among their ends,
    and that the committed transactions are free of write skew on items; and
    that predicate scans do not give the same guarantee. *)
From S2P Require Import Prelude Transaction.

Module Ssi.
Import Transaction.

(** ** Edges and flags *)

Definition outf (m : gmap Z SsiState) (t : Z) : Prop := from_option out_conflict false (m !! t) = true.
Definition inf (m : gmap Z SsiState) (t : Z) : Prop := from_option in_conflict false (m !! t) = true.
Definition abf (m : gmap Z SsiState) (t : Z) : Prop := from_option aborted false (m !! t) = true.

Definition edge (m : gmap Z SsiState) (r w : Z) : Prop :=
  r ≠ w ∧ ∃ sr sw rk, m !! r = Some sr ∧ m !! w = Some sw ∧ rk ∈ reads sr ∧ rk ∈ writes sw.

Record ssi_inv (m : gmap Z SsiState) : Prop := {
  flagged : ∀ r w, edge m r w → outf m r ∧ inf m w;
  no_danger : ∀ r t w, edge m r t → edge m t w → abf m r ∨ abf m t ∨ abf m w;
}.

(** What one iteration of the loops establishes for the edge it finds. *)
Definition conflict (r w : Z) (m m' : gmap Z SsiState) : Prop :=
  outf m' r ∧ inf m' w ∧ (inf m r ∨ outf m w → abf m' r ∨ abf m' w).

Lemma mflags_le_flags m m' t :
  mflags_le m m' → (outf m t → outf m' t) ∧ (inf m t → inf m' t) ∧ (abf m t → abf m' t).
Proof.
  intros Hm. specialize (Hm t). unfold outf, inf, abf.
  destruct (m !! t), (m' !! t); simpl; try done. destruct Hm. auto.
Qed.

Lemma mflags_le_edge m m' r w : mflags_le m m' → edge m' r w → edge m r w.
Proof.
  intros Hm (Hne & sr & sw & rk & Hr & Hw & Hin1 & Hin2). split; [done|].
  destruct (mflags_le_Some_inv _ _ _ _ Hm Hr) as (sr0 & ? & []).
  destruct (mflags_le_Some_inv _ _ _ _ Hm Hw) as (sw0 & ? & []).
  exists sr0, sw0, rk. split_and!; congruence.
Qed.

Lemma conflict_mono r w m0 m m' m'' :
  mflags_le m0 m → conflict r w m m' → mflags_le m' m'' → conflict r w m0 m''.
Proof.
  intros H0 (Ho & Hi & Ha) H1.
  destruct (mflags_le_flags _ _ r H0) as (_ & Hi0 & _).
  destruct (mflags_le_flags _ _ w H0) as (Ho0 & _ & _).
  destruct (mflags_le_flags _ _ r H1) as (Hor & _ & Har).
  destruct (mflags_le_flags _ _ w H1) as (_ & Hiw & Haw).
  unfold conflict. tauto.
Qed.

Lemma abort_pivot_lookup a b sa sb m :
  a ≠ b → m !! a = Some sa → m !! b = Some sb →
  abort_pivot a b m !! a = Some (if is_pivot sa then ssi_abort sa else sa) ∧
  abort_pivot a b m !! b =
    Some (if is_pivot sa then sb else if is_pivot sb then ssi_abort sb else sb).
Proof.
  intros Hne Ha Hb. unfold abort_pivot. rw Ha Hb /=.
  destruct (is_pivot sa); [|destruct (is_pivot sb)].
  - rw lookup_alter_eq lookup_alter_ne; [done|]. by rw Ha Hb.
  - rw lookup_alter_eq lookup_alter_ne; [congruence|]. by rw Ha Hb.
  - done.
Qed.

Lemma abort_pivot_conflict r w a b m :
  r ≠ w → is_Some (m !! r) → is_Some (m !! w) → (a = r ∧ b = w) ∨ (a = w ∧ b = r) →
  conflict r w m (abort_pivot a b (alter set_in w (alter set_out r m))).
Proof.
  intros Hne [sr Hr] [sw Hw] Hab.
  set (m1 := alter set_in w (alter set_out r m)).
  assert (m1 !! r = Some (set_out sr)) as Hr1.
  { subst m1. rw lookup_alter_ne; [congruence|]. by rw lookup_alter_eq Hr. }
  assert (m1 !! w = Some (set_in sw)) as Hw1.
  { subst m1. rw lookup_alter_eq lookup_alter_ne; [congruence|]. by rw Hw. }
  clearbody m1. unfold conflict, outf, inf, abf. rw Hr Hw /=.
  destruct Hab as [[-> ->]|[-> ->]].
  - destruct (abort_pivot_lookup r w _ _ m1 Hne Hr1 Hw1) as [-> ->].
    destruct sr as [????[] ? []], sw as [????? [] []]; simpl; naive_solver.
  - destruct (abort_pivot_lookup w r _ _ m1 (not_eq_sym Hne) Hw1 Hr1) as [-> ->].
    destruct sr as [????[] ? []], sw as [????? [] []]; simpl; naive_solver.
Qed.

Lemma read_other_conflict me rk m oid o :
  oid ≠ me → is_Some (m !! me) → m !! oid = Some o → rk ∈ writes o →
  conflict me oid m (read_other me rk m oid).
Proof.
  intros Hne Hme Ho Hrk. unfold read_other. rw bool_decide_eq_false_2; [done|]. rw Ho.
  rw bool_decide_eq_true_2; [done|]. apply abort_pivot_conflict; eauto.
Qed.

Lemma write_other_conflict me rk m oid o :
  oid ≠ me → is_Some (m !! me) → m !! oid = Some o → rk ∈ reads o ∨ rk.1 ∈ scanned o →
  conflict oid me m (write_other me rk m oid).
Proof.
  intros Hne Hme Ho Hrk. unfold write_other. rw bool_decide_eq_false_2; [done|]. rw Ho.
  cbv zeta iota. case_match eqn:E; [apply abort_pivot_conflict; eauto|].
  apply orb_false_iff in E as [E1%bool_decide_eq_false E2%bool_decide_eq_false]. tauto.
Qed.

(** A loop establishes the conflict of every iteration it performs. *)
Lemma foldl_conflict (f : gmap Z SsiState → Z → gmap Z SsiState) r w oid l m :
  (∀ m t, mflags_le m (f m t)) →
  (∀ m', mflags_le m m' → conflict r w m' (f m' oid)) →
  oid ∈ l → conflict r w m (foldl f m l).
Proof.
  intros Hle. revert m. induction l as [|t l IH]; [by intros ??; rw elem_of_nil|].
  intros m HC Hin. apply elem_of_cons in Hin as [<-|Hin]; simpl.
  - eapply (conflict_mono r w m m); [reflexivity|apply HC; reflexivity|]. by apply mflags_le_foldl.
  - eapply conflict_mono; [apply (Hle m t)| |reflexivity]. apply IH; [|done].
    intros m' Hm'. apply HC. exact (transitivity (Hle m t) Hm').
Qed.

Lemma mflags_le_is_Some m m' t : mflags_le m m' → is_Some (m !! t) → is_Some (m' !! t).
Proof. intros Hm [s Hs]. destruct (mflags_le_Some _ _ _ _ Hm Hs) as (s' & ? & _). eauto. Qed.

(** What the loops over [ssi_recent] establish. *)
Lemma abort_if_pivot_spec s :
  (in_conflict s = true → out_conflict s = true → aborted (abort_if_pivot s) = true).
Proof.
  unfold abort_if_pivot, is_pivot. destruct s as [???? [] [] []]; done.
Qed.

Lemma foldl_recent (f : SsiState → CommittedSsi → SsiState) (Q : SsiState → SsiState → Prop) l s c :
  (∀ s c, flags_le s (f s c)) →
  (∀ s', flags_le s s' → Q s' (f s' c)) →
  (∀ a b d e, flags_le a b → Q b d → flags_le d e → Q a e) →
  c ∈ l → Q s (foldl f s l).
Proof.
  intros Hle HQ Hmono. revert s HQ. induction l as [|t l IH]; [by intros ??; rw elem_of_nil|].
  intros s HQ [<-|Hin]%elem_of_cons; simpl.
  - eapply (Hmono s s); [reflexivity|apply HQ; reflexivity|]. by apply flags_le_foldl.
  - eapply Hmono; [apply (Hle s t)| |reflexivity]. apply IH; [|done].
    intros s' Hs'. apply HQ. exact (transitivity (Hle s t) Hs').
Qed.

Lemma read_recent_spec rk l s c :
  c ∈ l → ss_start_ts s < c_commit_ts c → rk ∈ c_writes c →
  let s' := foldl (read_recent rk) s l in
  out_conflict s' = true ∧ (in_conflict s = true → aborted s' = true).
Proof.
  intros Hc Hts Hrk.
  apply (foldl_recent (read_recent rk)
    (λ s s', out_conflict s' = true ∧ (in_conflict s = true → aborted s' = true)) l s c);
    [intros; apply flags_le_read_recent| | |done].
  - intros s' Hs'. unfold read_recent. rw (fl_start _ _ Hs').
    rw (proj2 (Z.ltb_lt _ _) Hts) bool_decide_eq_true_2; [done|]. simpl. split.
    + by apply (fl_out _ _ (flags_le_abort_if _)).
    + intros Hi. by apply abort_if_pivot_spec.
  - intros a b d e [] [] []. auto.
Qed.

Lemma write_recent_spec rk l s c :
  c ∈ l → ss_start_ts s < c_commit_ts c → rk ∈ c_reads c →
  let s' := foldl (write_recent rk) s l in
  in_conflict s' = true ∧ (out_conflict s = true → aborted s' = true).
Proof.
  intros Hc Hts Hrk.
  apply (foldl_recent (write_recent rk)
    (λ s s', in_conflict s' = true ∧ (out_conflict s = true → aborted s' = true)) l s c);
    [intros; apply flags_le_write_recent| | |done].
  - intros s' Hs'. unfold write_recent. rw (fl_start _ _ Hs').
    rw (proj2 (Z.ltb_lt _ _) Hts) (bool_decide_eq_true_2 (rk ∈ c_reads c)); [done|]. simpl. split.
    + by apply (fl_in _ _ (flags_le_abort_if _)).
    + intros Ho. by apply abort_if_pivot_spec.
  - intros a b d e [] [] []. auto.
Qed.

(** ** Recording a read or a write keeps the invariant

    [m1] is the map with the item added to the sets of one transaction, [m3]
    the map after the loops. *)
Lemma ssi_inv_extend (new : Z → Z → Prop) m m1 m3 :
  ssi_inv m →
  (∀ t, (outf m t → outf m1 t) ∧ (inf m t → inf m1 t) ∧ (abf m t → abf m1 t)) →
  mflags_le m1 m3 →
  (∀ r w, edge m1 r w → edge m r w ∨ (new r w ∧ conflict r w m1 m3)) →
  (∀ r t w, new r t → new t w → False) →
  ssi_inv m3.
Proof.
  intros [HA HB] H1 H3 Hedge Hnew.
  assert (∀ t, (outf m t → outf m3 t) ∧ (inf m t → inf m3 t) ∧ (abf m t → abf m3 t)) as H13.
  { intros t. destruct (H1 t) as (? & ? & ?), (mflags_le_flags _ _ t H3) as (? & ? & ?). tauto. }
  split.
  - intros r w He%(mflags_le_edge _ _ _ _ H3). destruct (Hedge _ _ He) as [Ho|[_ Hc]].
    + destruct (HA _ _ Ho). split; apply H13; done.
    + by destruct Hc as (? & ? & _).
  - intros r t w He1%(mflags_le_edge _ _ _ _ H3) He2%(mflags_le_edge _ _ _ _ H3).
    destruct (Hedge _ _ He1) as [Ho1|[Hn1 Hc1]], (Hedge _ _ He2) as [Ho2|[Hn2 Hc2]].
    + destruct (HB _ _ _ Ho1 Ho2) as [?|[?|?]]; [left|right; left|right; right]; by apply H13.
    + destruct (HA _ _ Ho1) as [_ Hi]. destruct Hc2 as (_ & _ & Hc2).
      destruct Hc2; [left; by apply H1|tauto..].
    + destruct (HA _ _ Ho2) as [Hi _]. destruct Hc1 as (_ & _ & Hc1).
      destruct Hc1; [right; by apply H1|tauto..].
    + by destruct (Hnew r t w).
Qed.

Section history.
Context `{HashOrder}.
Implicit Types (tm : TransactionManager) (m : gmap Z SsiState).

(** The map after the loop over the other transactions, and the state of the
    calling one after the loop over [ssi_recent]. *)
Lemma read_loop rk me m :
  let m1 := alter (add_read rk) me m in
  let m2 := foldl (read_other me rk) m1 (hash_keys m1) in
  is_Some (m !! me) → mflags_le m1 m2 ∧
  ∀ w sw, w ≠ me → m !! w = Some sw → rk ∈ writes sw → conflict me w m1 m2.
Proof.
  intros m1 m2 Hme. split; [apply mflags_le_foldl, mflags_le_read_other|].
  intros w sw Hne Hw Hrk.
  assert (m1 !! w = Some sw) as Hw1. { subst m1. rw lookup_alter_ne; [congruence|done]. }
  assert (is_Some (m1 !! me)) as Hme1. { subst m1. by rw lookup_alter_eq fmap_is_Some. }
  apply (foldl_conflict _ _ _ w); [apply mflags_le_read_other| |].
  - intros m' Hm'. destruct (mflags_le_Some _ _ _ _ Hm' Hw1) as (sw' & Hsw' & Hle).
    eapply read_other_conflict; [done| |exact Hsw'|by rw (fl_writes _ _ Hle)].
    exact (mflags_le_is_Some _ _ _ Hm' Hme1).
  - apply elem_of_hash_keys. eauto.
Qed.

Lemma write_loop rk me m :
  let m1 := alter (add_write rk) me m in
  let m2 := foldl (write_other me rk) m1 (hash_keys m1) in
  is_Some (m !! me) → mflags_le m1 m2 ∧
  ∀ r sr, r ≠ me → m !! r = Some sr → rk ∈ reads sr ∨ rk.1 ∈ scanned sr → conflict r me m1 m2.
Proof.
  intros m1 m2 Hme. split; [apply mflags_le_foldl, mflags_le_write_other|].
  intros r sr Hne Hr Hrk.
  assert (m1 !! r = Some sr) as Hr1. { subst m1. rw lookup_alter_ne; [congruence|done]. }
  assert (is_Some (m1 !! me)) as Hme1. { subst m1. by rw lookup_alter_eq fmap_is_Some. }
  apply (foldl_conflict _ _ _ r); [apply mflags_le_write_other| |].
  - intros m' Hm'. destruct (mflags_le_Some _ _ _ _ Hm' Hr1) as (sr' & Hsr' & Hle).
    eapply write_other_conflict;
      [done| |exact Hsr'|by rw (fl_reads _ _ Hle) (fl_scanned _ _ Hle)].
    exact (mflags_le_is_Some _ _ _ Hm' Hme1).
  - apply elem_of_hash_keys. eauto.
Qed.

Lemma alter_flags f me m :
  (∀ s, out_conflict (f s) = out_conflict s ∧ in_conflict (f s) = in_conflict s ∧
        aborted (f s) = aborted s) →
  ∀ t, (outf m t → outf (alter f me m) t) ∧ (inf m t → inf (alter f me m) t) ∧
       (abf m t → abf (alter f me m) t).
Proof.
  intros Hf t. unfold outf, inf, abf. destruct (decide (me = t)) as [<-|Hne].
  - rw lookup_alter_eq. destruct (m !! me) as [s|]; simpl; [|done].
    by destruct (Hf s) as (-> & -> & ->).
  - by rw lookup_alter_ne.
Qed.

Lemma ssi_inv_read me table key tm :
  ssi_inv (ssi tm) → ssi_inv (ssi (ssi_record_read me table key tm)).
Proof.
  intros Hinv. unfold ssi_record_read. destruct (ssi tm !! me) as [s|] eqn:Hs; [|done]. cbn.
  set (rk := (table, key)). destruct (read_loop rk me (ssi tm)) as [Hle Hc]; [by exists s|].
  set (m1 := alter (add_read rk) me (ssi tm)) in *. set (m2 := foldl _ m1 _) in *.
  set (m3 := alter _ me m2).
  assert (mflags_le m2 m3) as Hle3.
  { apply mflags_le_alter. intros. apply flags_le_foldl, flags_le_read_recent. }
  apply (ssi_inv_extend (λ r w, r = me ∧ w ≠ me) (ssi tm) m1 m3); [done| | | |].
  - by apply alter_flags.
  - exact (transitivity Hle Hle3).
  - intros r w (Hne & sr & sw & rk' & Hr & Hw & Hin1 & Hin2).
    assert (∃ sw0, ssi tm !! w = Some sw0 ∧ writes sw0 = writes sw) as (sw0 & Hw0 & Hws).
    { subst m1. apply lookup_alter_Some in Hw as [(-> & s' & ? & ->)|[? ?]]; eauto. }
    subst m1. apply lookup_alter_Some in Hr as [(-> & s' & Hs' & ->)|[? ?]].
    + cbn in Hin1. apply elem_of_union in Hin1 as [->%elem_of_singleton|Hin1].
      * right. split; [split; congruence|]. eapply (conflict_mono _ _ _ _ m2); [reflexivity| |exact Hle3].
        apply (Hc w sw0); [congruence|done|]. by rw Hws.
      * left. split; [done|]. exists s', sw0, rk'. split_and!; try done. by rw Hws.
    + left. split; [done|]. exists sr, sw0, rk'. split_and!; try done. by rw Hws.
  - intros r t w [] []. congruence.
Qed.

Lemma ssi_inv_write me table key tm :
  ssi_inv (ssi tm) → ssi_inv (ssi (ssi_record_write me table key tm)).
Proof.
  intros Hinv. unfold ssi_record_write. destruct (ssi tm !! me) as [s|] eqn:Hs; [|done]. cbn.
  set (rk := (table, key)). destruct (write_loop rk me (ssi tm)) as [Hle Hc]; [by exists s|].
  set (m1 := alter (add_write rk) me (ssi tm)) in *. set (m2 := foldl _ m1 _) in *.
  set (m3 := alter _ me m2).
  assert (mflags_le m2 m3) as Hle3.
  { apply mflags_le_alter. intros. apply flags_le_foldl, flags_le_write_recent. }
  apply (ssi_inv_extend (λ r w, w = me ∧ r ≠ me) (ssi tm) m1 m3); [done| | | |].
  - by apply alter_flags.
  - exact (transitivity Hle Hle3).
  - intros r w (Hne & sr & sw & rk' & Hr & Hw & Hin1 & Hin2).
    assert (∃ sr0, ssi tm !! r = Some sr0 ∧ reads sr0 = reads sr) as (sr0 & Hr0 & Hrs).
    { subst m1. apply lookup_alter_Some in Hr as [(-> & s' & ? & ->)|[? ?]]; eauto. }
    subst m1. apply lookup_alter_Some in Hw as [(-> & s' & Hs' & ->)|[? ?]].
    + cbn in Hin2. apply elem_of_union in Hin2 as [->%elem_of_singleton|Hin2].
      * right. split; [split; congruence|]. eapply (conflict_mono _ _ _ _ m2); [reflexivity| |exact Hle3].
        apply (Hc r sr0); [congruence|done|]. left. by rw Hrs.
      * left. split; [done|]. exists sr0, s', rk'. split_and!; try done. by rw Hrs.
    + left. split; [done|]. exists sr0, sw, rk'. split_and!; try done. by rw Hrs.
  - intros r t w [] []. congruence.
Qed.

Lemma ssi_inv_scan me table tm :
  ssi_inv (ssi tm) → ssi_inv (ssi (ssi_record_predicate me table tm)).
Proof.
  intros Hinv. unfold ssi_record_predicate. destruct (ssi tm !! me) as [s|] eqn:Hs; [|done]. cbn.
  apply (ssi_inv_extend (λ r w, False) (ssi tm) (alter (add_scan table) me (ssi tm)));
    [done|by apply alter_flags|reflexivity| |done].
  intros r w (Hne & sr & sw & rk' & Hr & Hw & Hin1 & Hin2). left. split; [done|].
  apply lookup_alter_Some in Hr as [(<- & sr0 & Hr & ->)|[_ Hr]];
    apply lookup_alter_Some in Hw as [(<- & sw0 & Hw & ->)|[_ Hw]]; cbn in *; eauto 10.
Qed.

(** Dropping a transaction, and adding a fresh one. *)
Lemma ssi_inv_delete t m : ssi_inv m → ssi_inv (delete t m).
Proof.
  intros [HA HB].
  assert (∀ r w, edge (delete t m) r w → r ≠ t ∧ w ≠ t ∧ edge m r w) as Hedge.
  { intros r w (Hne & sr & sw & rk & [? Hr]%lookup_delete_Some & [? Hw]%lookup_delete_Some & ? & ?).
    split_and!; [congruence..|]. split; [done|]. by exists sr, sw, rk. }
  unfold outf, inf, abf in *. split.
  - intros r w (? & ? & He)%Hedge. unfold outf, inf. rw !lookup_delete_ne; [congruence..|].
    by apply HA.
  - intros r t' w (? & ? & He1)%Hedge (? & ? & He2)%Hedge. unfold abf.
    rw !lookup_delete_ne; [congruence..|]. by apply HB.
Qed.

Lemma ssi_inv_fresh t ts m : m !! t = None → ssi_inv m → ssi_inv (<[t := SsiState_new ts]> m).
Proof.
  intros Hn Hinv. pose proof (ssi_inv_delete t m Hinv) as Hd.
  apply (ssi_inv_extend (λ _ _, False) m (<[t := SsiState_new ts]> m)); [done| |reflexivity| |done].
  - intros t'. unfold outf, inf, abf. destruct (decide (t = t')) as [<-|Hne].
    + by rw Hn.
    + by rw lookup_insert_ne.
  - intros r w (Hne & sr & sw & rk & Hr & Hw & Hin1 & Hin2). left.
    apply lookup_insert_Some in Hr as [[<- <-]|[? Hr]]; [by apply elem_of_empty in Hin1|].
    apply lookup_insert_Some in Hw as [[<- <-]|[? Hw]]; [by apply elem_of_empty in Hin2|].
    split; [done|]. by exists sr, sw, rk.
Qed.

Lemma ssi_retire t ts s tm : ssi (retire_ssi t ts s tm) = delete t (ssi tm).
Proof. unfold retire_ssi. by case_bool_decide. Qed.

Lemma ssi_commit t tm :
  ssi (commit t tm).1 = ssi tm ∨ ssi (commit t tm).1 = delete t (ssi tm).
Proof.
  unfold commit. case_match; [by right|]. case_match; [|by left]. case_match; [by left|].
  destruct (ssi tm !! t); [right; etrans; [apply ssi_retire|done]|by left].
Qed.

Lemma ssi_inv_step k o tm : tm_inv k tm → ssi_inv (ssi tm) → ssi_inv (ssi (step tm o)).
Proof.
  intros Htm Hinv. destruct o; simpl.
  - unfold begin_with_timeout. case_bool_decide; [|done]. cbn.
    apply ssi_inv_fresh; [|done]. by destruct (fresh_id k tm Htm).
  - destruct (ssi_commit txn_id tm) as [-> | ->]; [done|by apply ssi_inv_delete].
  - unfold abort. pose proof (ssi_inv_delete txn_id _ Hinv). case_match; [|done].
    by case_bool_decide.
  - by apply ssi_inv_read.
  - by apply ssi_inv_scan.
  - by apply ssi_inv_write.
  - done.
  - done.
  - done.
Qed.

(** ** The history of committed serializable transactions *)

Record Done := mkDone {
  d_start : Z;
  d_ssi : CommittedSsi;
}.

Definition record_commit (t : Z) (tm : TransactionManager) (h : gmap Z Done) : gmap Z Done :=
  match (commit t tm).2, ssi tm !! t with
  | Ok ts, Some s =>
      <[t := mkDone (ss_start_ts s) (mkCommittedSsi ts (reads s) (scanned s) (writes s))]> h
  | _, _ => h
  end.

(** The commits of a run, with the read and write sets each had. *)
Fixpoint history_from (tm : TransactionManager) (h : gmap Z Done) (ops : list op) : gmap Z Done :=
  match ops with
  | [] => h
  | o :: ops' =>
      history_from (step tm o) (match o with OCommit t => record_commit t tm h | _ => h end) ops'
  end.

Definition history (ops : list op) : gmap Z Done := history_from new ∅ ops.

(** [a], still active, read an item that [c] wrote; and conversely. *)
Definition reads_from (s : SsiState) (d : Done) : Prop :=
  ∃ rk, rk ∈ reads s ∧ rk ∈ c_writes (d_ssi d).
Definition read_by (s : SsiState) (d : Done) : Prop :=
  ∃ rk, rk ∈ c_reads (d_ssi d) ∧ rk ∈ writes s.
Definition overlaps (s : SsiState) (d : Done) : Prop := ss_start_ts s < c_commit_ts (d_ssi d).

(** Two committed transactions that ran concurrently and that each read an
    item the other wrote. *)
Definition write_skew (a c : Done) : Prop :=
  d_start a < c_commit_ts (d_ssi c) ∧ d_start c < c_commit_ts (d_ssi a) ∧
  (∃ rk, rk ∈ c_reads (d_ssi a) ∧ rk ∈ c_writes (d_ssi c)) ∧
  (∃ rk, rk ∈ c_reads (d_ssi c) ∧ rk ∈ c_writes (d_ssi a)).

Record hist_inv (tm : TransactionManager) (h : gmap Z Done) : Prop := {
  hist_old : ∀ c d, h !! c = Some d →
    c < next_txn_id tm ∧ c_commit_ts (d_ssi d) < next_timestamp tm ∧ active_txns tm !! c = None;
  hist_kept : ∀ a s c d, ssi tm !! a = Some s → h !! c = Some d → overlaps s d →
    c_writes (d_ssi d) ≠ ∅ → ssi_recent tm !! c = Some (d_ssi d);
  hist_out : ∀ a s c d, ssi tm !! a = Some s → h !! c = Some d → overlaps s d →
    reads_from s d → out_conflict s = true;
  hist_in : ∀ a s c d, ssi tm !! a = Some s → h !! c = Some d → overlaps s d →
    c_writes (d_ssi d) ≠ ∅ → read_by s d → in_conflict s = true;
  hist_aborted : ∀ a s c d, ssi tm !! a = Some s → h !! c = Some d → overlaps s d →
    reads_from s d → read_by s d → aborted s = true;
  hist_skew : ∀ a c d d', h !! a = Some d → h !! c = Some d' → a ≠ c → ¬ write_skew d d';
}.

(** A step that changes only the [ssi] map: what it must establish for the
    transactions whose sets it extends. *)
Lemma hist_inv_with_ssi tm h m :
  hist_inv tm h →
  (∀ a s', m !! a = Some s' → ∃ s, ssi tm !! a = Some s ∧ ss_start_ts s' = ss_start_ts s ∧
     (in_conflict s = true → in_conflict s' = true) ∧
     (out_conflict s = true → out_conflict s' = true) ∧
     (aborted s = true → aborted s' = true) ∧
     (reads s' = reads s ∨ writes s' = writes s) ∧
     (∀ c d, h !! c = Some d → overlaps s d → reads_from s' d →
        reads_from s d ∨ (out_conflict s' = true ∧ (in_conflict s = true → aborted s' = true))) ∧
     (∀ c d, h !! c = Some d → overlaps s d → c_writes (d_ssi d) ≠ ∅ → read_by s' d →
        read_by s d ∨ (in_conflict s' = true ∧ (out_conflict s = true → aborted s' = true)))) →
  hist_inv (with_ssi m tm) h.
Proof.
  intros [] Hm. split; simpl; try done.
  - intros a s' c d Ha Hc Ho. destruct (Hm _ _ Ha) as (s & Hs & Hst & _).
    apply (hist_kept0 a s); [done..|]. unfold overlaps in *. congruence.
  - intros a s' c d Ha Hc Ho Hr. destruct (Hm _ _ Ha) as (s & Hs & Hst & _ & ? & _ & _ & Hrd & _).
    unfold overlaps in Ho. rw Hst in Ho. destruct (Hrd c d) as [?|[??]]; eauto.
  - intros a s' c d Ha Hc Ho Hw Hr. destruct (Hm _ _ Ha) as (s & Hs & Hst & ? & _ & _ & _ & _ & Hrd).
    unfold overlaps in Ho. rw Hst in Ho. destruct (Hrd c d) as [?|[??]]; eauto.
  - intros a s' c d Ha Hc Ho Hr Hb.
    destruct (Hm _ _ Ha) as (s & Hs & Hst & ? & ? & ? & Hsame & Hrd & Hwr).
    unfold overlaps in Ho. rw Hst in Ho.
    assert (c_writes (d_ssi d) ≠ ∅) by (destruct Hr as (rk & _ & ?); set_solver).
    destruct (Hrd c d) as [?|[??]], (Hwr c d) as [?|[??]]; eauto.
    destruct Hsame as [He|He].
    + unfold reads_from in Hr. rw He in Hr. eauto.
    + unfold read_by in Hb. rw He in Hb. eauto.
Qed.

(** The shape of the map after [ssi_record_read] and [ssi_record_write]. *)
Lemma record_lookup f g (loop : gmap Z SsiState → Z → gmap Z SsiState) me a s' l m :
  (∀ m t, mflags_le m (loop m t)) →
  alter g me (foldl loop (alter f me m) l) !! a = Some s' →
  (a ≠ me ∧ ∃ s, m !! a = Some s ∧ flags_le s s') ∨
  (a = me ∧ ∃ s s2, m !! me = Some s ∧ flags_le (f s) s2 ∧ s' = g s2).
Proof.
  intros Hloop Ha. pose proof (mflags_le_foldl loop (alter f me m) l Hloop) as Hle.
  apply lookup_alter_Some in Ha as [(-> & s2 & Hs2 & ->)|[Hne Ha]].
  - right. split; [done|]. destruct (mflags_le_Some_inv _ _ _ _ Hle Hs2) as (s1 & Hs1 & Hfl).
    rw lookup_alter_eq in Hs1. apply fmap_Some in Hs1 as (s & Hs & ->). by exists s, s2.
  - left. split; [congruence|]. destruct (mflags_le_Some_inv _ _ _ _ Hle Ha) as (s1 & Hs1 & Hfl).
    rw lookup_alter_ne in Hs1; [done|]. by exists s1.
Qed.

Lemma hist_inv_read me table key tm h :
  hist_inv tm h → hist_inv (ssi_record_read me table key tm) h.
Proof.
  intros Hinv. unfold ssi_record_read. destruct (ssi tm !! me) as [s0|] eqn:Hs0; [|done]. cbn zeta.
  apply hist_inv_with_ssi; [done|]. intros a s' Ha.
  destruct (record_lookup _ _ _ _ _ _ _ _ (mflags_le_read_other _ _) Ha)
    as [[Hne (s & Hs & [])]|(-> & s & s2 & Hs & Hle & ->)].
  { exists s. split_and!; try done; [by left|..]; intros c d _ _; [|intros _]; intros [rk [??]];
      left; exists rk; split; congruence. }
  set (rk := (table, key)) in *. set (l := hash_values (ssi_recent tm)).
  assert (flags_le s2 (foldl (read_recent rk) s2 l)) as Hle3
    by (apply flags_le_foldl, flags_le_read_recent).
  set (s3 := foldl _ s2 l) in *. pose proof (transitivity Hle Hle3) as [Hst Hr _ Hw Hi Ho Hab].
  cbn in *. exists s. split_and!; try done; [by right| |].
  - intros c d Hc Hov [rk0 [Hin1 Hin2]]. rw Hr in Hin1.
    apply elem_of_union in Hin1 as [->%elem_of_singleton|Hin1]; [|left; by exists rk0]. right.
    destruct (read_recent_spec rk l s2 (d_ssi d)) as [Ho3 Ha3].
    + apply elem_of_hash_values. exists c. apply (hist_kept _ _ Hinv me s); [done..|set_solver].
    + by rw (fl_start _ _ Hle).
    + done.
    + split; [done|]. intros Hin. apply Ha3. by apply (fl_in _ _ Hle).
  - intros c d Hc Hov _ [rk0 [Hin1 Hin2]]. left. exists rk0. split; congruence.
Qed.

Lemma hist_inv_write me table key tm h :
  hist_inv tm h → hist_inv (ssi_record_write me table key tm) h.
Proof.
  intros Hinv. unfold ssi_record_write. destruct (ssi tm !! me) as [s0|] eqn:Hs0; [|done]. cbn zeta.
  apply hist_inv_with_ssi; [done|]. intros a s' Ha.
  destruct (record_lookup _ _ _ _ _ _ _ _ (mflags_le_write_other _ _) Ha)
    as [[Hne (s & Hs & [])]|(-> & s & s2 & Hs & Hle & ->)].
  { exists s. split_and!; try done; [by left|..]; intros c d _ _; [|intros _]; intros [rk [??]];
      left; exists rk; split; congruence. }
  set (rk := (table, key)) in *. set (l := hash_values (ssi_recent tm)).
  assert (flags_le s2 (foldl (write_recent rk) s2 l)) as Hle3
    by (apply flags_le_foldl, flags_le_write_recent).
  set (s3 := foldl _ s2 l) in *. pose proof (transitivity Hle Hle3) as [Hst Hr _ Hw Hi Ho Hab].
  cbn in *. exists s. split_and!; try done; [by left| |].
  - intros c d Hc Hov [rk0 [Hin1 Hin2]]. left. exists rk0. split; congruence.
  - intros c d Hc Hov Hne [rk0 [Hin1 Hin2]]. rw Hw in Hin2.
    apply elem_of_union in Hin2 as [->%elem_of_singleton|Hin2]; [|left; by exists rk0]. right.
    destruct (write_recent_spec rk l s2 (d_ssi d)) as [Ho3 Ha3].
    + apply elem_of_hash_values. exists c. by apply (hist_kept _ _ Hinv me s).
    + by rw (fl_start _ _ Hle).
    + done.
    + split; [done|]. intros Hin. apply Ha3. by apply (fl_out _ _ Hle).
Qed.

Lemma hist_inv_scan me table tm h :
  hist_inv tm h → hist_inv (ssi_record_predicate me table tm) h.
Proof.
  intros Hinv. unfold ssi_record_predicate. destruct (ssi tm !! me) as [s0|] eqn:Hs0; [|done].
  apply hist_inv_with_ssi; [done|]. intros a s' Ha.
  apply lookup_alter_Some in Ha as [(-> & s & Hs & ->)|[Hne Hs]].
  - exists s. split_and!; try done; [by left|..]; intros; by left.
  - exists s'. split_and!; try done; [by left|..]; intros; by left.
Qed.

(** Transactions leave the [ssi] map; the collection keeps what an active
    serializable transaction still overlaps. *)
Lemma hist_inv_shrink tm tm' h :
  hist_inv tm h → next_txn_id tm ≤ next_txn_id tm' → next_timestamp tm ≤ next_timestamp tm' →
  ssi tm' ⊆ ssi tm →
  (∀ c r, ssi_recent tm !! c = Some r → active_txns tm !! c = None →
     ssi_recent tm' !! c = Some r) →
  (∀ c, active_txns tm !! c = None → c < next_txn_id tm → active_txns tm' !! c = None) →
  hist_inv tm' h.
Proof.
  intros [] Hid Hts Hssi Hrec Hact. split.
  - intros c d Hc. destruct (hist_old0 _ _ Hc) as (? & ? & ?). split_and!; [lia..|auto].
  - intros a s c d Ha Hc ??. apply Hrec; [|by apply (hist_old0 c d)].
    apply (hist_kept0 a s); try done. by apply (lookup_weaken _ (ssi tm)) in Ha.
  - intros a s c d Ha. apply (hist_out0 a). by apply (lookup_weaken _ (ssi tm)) in Ha.
  - intros a s c d Ha. apply (hist_in0 a). by apply (lookup_weaken _ (ssi tm)) in Ha.
  - intros a s c d Ha. apply (hist_aborted0 a). by apply (lookup_weaken _ (ssi tm)) in Ha.
  - done.
Qed.

Lemma hist_inv_gc tm h : hist_inv tm h → hist_inv (gc_ssi_recent tm) h.
Proof.
  intros []. split; try done. intros a s c d Ha Hc Hov Hw. cbn in Ha |- *.
  apply map_lookup_filter_Some. split; [by apply (hist_kept0 a s)|]. cbn.
  trans (ss_start_ts s); [|unfold overlaps in Hov; lia].
  apply list_min_le, list_elem_of_fmap. exists s. split; [done|].
  apply elem_of_hash_values. by exists a.
Qed.

Lemma hist_inv_begin k iso timeout now tm h :
  k + 3 ≤ 2 ^ 64 → tm_inv k tm → hist_inv tm h →
  hist_inv (begin_with_timeout iso timeout now tm).1 h.
Proof.
  intros Hk Htm Hinv. destruct (fresh_id k tm Htm) as [Hf Hf'].
  unfold begin_with_timeout. set (x := mkTransaction _ _ _ _ _ _ _ _).
  rw !(fetch_add_small k); [done|apply Htm|done|apply Htm|].
  set (tm1 := with_active _ _).
  assert (hist_inv tm1 h) as H1.
  { apply (hist_inv_shrink tm); subst tm1; simpl; try done; try lia.
    intros c Hc Hlt. rw lookup_insert_ne; [lia|done]. }
  case_bool_decide; [|done]. destruct H1.
  assert (∀ a s c d, ssi (with_ssi (<[next_txn_id tm := SsiState_new (next_timestamp tm)]> (ssi tm1)) tm1) !! a
    = Some s → h !! c = Some d → overlaps s d → ssi tm1 !! a = Some s) as Hold.
  { intros a s c d Ha Hc Hov. cbn in Ha.
    apply lookup_insert_Some in Ha as [[<- <-]|[? ?]]; [|done].
    unfold overlaps in Hov. cbn in Hov. pose proof (hist_old _ _ Hinv _ _ Hc). lia. }
  split; [done|..|done]; intros a s c d Ha Hc Hov;
    pose proof (Hold _ _ _ _ Ha Hc Hov) as Ha1; eauto.
Qed.

Lemma hist_inv_abort t tm h : hist_inv tm h → hist_inv (abort t tm).1 h.
Proof.
  intros Hinv. unfold abort. case_match; [|].
  - assert (hist_inv (with_active (delete t (active_txns tm)) (with_ssi (delete t (ssi tm)) tm)) h).
    { apply (hist_inv_shrink tm); simpl; try done; try lia; [apply delete_subseteq|].
      intros. by apply lookup_delete_None; right. }
    simpl. case_bool_decide; [by apply hist_inv_gc|done].
  - apply (hist_inv_shrink tm); simpl; try done; try lia. apply delete_subseteq.
Qed.

Lemma write_skew_sym a c : write_skew a c → write_skew c a.
Proof. intros (? & ? & ? & ?). done. Qed.

(** A new entry of the history. *)
Lemma hist_inv_add t d tm h :
  hist_inv tm h →
  t < next_txn_id tm → c_commit_ts (d_ssi d) < next_timestamp tm → active_txns tm !! t = None →
  (∀ a s, ssi tm !! a = Some s → overlaps s d →
     (c_writes (d_ssi d) ≠ ∅ → ssi_recent tm !! t = Some (d_ssi d)) ∧
     (reads_from s d → out_conflict s = true) ∧ (read_by s d → in_conflict s = true) ∧
     (reads_from s d → read_by s d → aborted s = true)) →
  (∀ c d', h !! c = Some d' → c ≠ t → ¬ write_skew d d') →
  hist_inv tm (<[t := d]> h).
Proof.
  intros [] Hid Hts Hn Hnew Hskew. split.
  - intros c d' [[<- <-]|[? ?]]%lookup_insert_Some; [done|by apply (hist_old0 c)].
  - intros a s c d' Ha [[<- <-]|[? ?]]%lookup_insert_Some Ho; [by apply (Hnew a s)|].
    by apply (hist_kept0 a s).
  - intros a s c d' Ha [[<- <-]|[? ?]]%lookup_insert_Some Ho; [by apply (Hnew a s)|].
    by apply (hist_out0 a s c).
  - intros a s c d' Ha [[<- <-]|[? ?]]%lookup_insert_Some Ho Hw; [by apply (Hnew a s)|].
    by apply (hist_in0 a s c).
  - intros a s c d' Ha [[<- <-]|[? ?]]%lookup_insert_Some Ho; [by apply (Hnew a s)|].
    by apply (hist_aborted0 a s c).
  - intros a c d1 d2 [[<- <-]|[? ?]]%lookup_insert_Some [[<- <-]|[? ?]]%lookup_insert_Some Hne.
    + done.
    + apply (Hskew c); [done|congruence].
    + intros Hsk%write_skew_sym. apply (Hskew a d1); [done|congruence|done].
    + by apply (hist_skew0 a c).
Qed.

(** The edges of an active transaction with the one that commits. *)
Lemma edge_commit t s a sa st ts m :
  ssi_inv m → m !! t = Some s → m !! a = Some sa → a ≠ t → aborted s = false →
  let d := mkDone st (mkCommittedSsi ts (reads s) (scanned s) (writes s)) in
  (reads_from sa d → out_conflict sa = true) ∧ (read_by sa d → in_conflict sa = true) ∧
  (reads_from sa d → read_by sa d → aborted sa = true).
Proof.
  intros [HA HB] Ht Ha Hne Hnab d.
  assert (reads_from sa d → edge m a t) as E1.
  { intros (rk & ? & ?). split; [done|]. by exists sa, s, rk. }
  assert (read_by sa d → edge m t a) as E2.
  { intros (rk & ? & ?). split; [congruence|]. by exists s, sa, rk. }
  unfold outf, inf, abf in *. split_and!.
  - intros He%E1%HA. rw Ha in He. tauto.
  - intros He%E2%HA. rw Ha in He. tauto.
  - intros He1%E1 He2%E2. specialize (HB _ _ _ He1 He2). unfold abf in HB.
    rw Ha Ht /= in HB. rw Hnab in HB. naive_solver.
Qed.

(** A serializable commit, before the collection. *)
Lemma hist_inv_retire k t s x tm h :
  tm_inv k tm → ssi_inv (ssi tm) → hist_inv tm h →
  ssi tm !! t = Some s → active_txns tm !! t = Some x → aborted s = false →
  let ts := next_timestamp tm in
  let tm1 := with_committed (<[t := ts]> (committed_txns tm))
               (with_active (delete t (active_txns tm)) (with_counters (next_txn_id tm) (ts + 1) tm)) in
  hist_inv (retire_ssi t ts s tm1)
    (<[t := mkDone (ss_start_ts s) (mkCommittedSsi ts (reads s) (scanned s) (writes s))]> h).
Proof.
  intros Htm Hssi Hinv Hs Hx Hnab ts tm1. unfold retire_ssi. apply hist_inv_gc.
  set (e := mkCommittedSsi ts (reads s) (scanned s) (writes s)).
  set (tm2 := if bool_decide (writes s = ∅) then tm1 else _).
  pose proof (inv_active _ _ Htm _ _ Hx) as (_ & _ & _ & Ht & Hst & _).
  assert (ssi tm2 = ssi tm ∧ active_txns tm2 = delete t (active_txns tm) ∧
          next_timestamp tm2 = ts + 1 ∧ next_txn_id tm2 = next_txn_id tm ∧
          (∀ c, c ≠ t → ssi_recent tm2 !! c = ssi_recent tm !! c) ∧
          (writes s ≠ ∅ → ssi_recent tm2 !! t = Some e)) as (E1 & E2 & E3 & E4 & E5 & E6).
  { subst tm2. case_bool_decide; split_and!; try done.
    - intros. cbn. rw lookup_insert_ne; [congruence|done].
    - intros. cbn. by rw lookup_insert_eq. }
  clearbody tm2. apply hist_inv_add.
  - apply (hist_inv_shrink tm); cbn; rw ?E1 ?E2 ?E3 ?E4; try done; try lia.
    + apply delete_subseteq.
    + intros c r Hr Hn. rw E5; [congruence|done].
    + intros c Hn _. by apply lookup_delete_None; right.
  - cbn. lia.
  - cbn. lia.
  - cbn. by rw E2 lookup_delete_eq.
  - cbn. rw E1. intros a sa [Hne Ha]%lookup_delete_Some Hov.
    destruct (edge_commit t s a sa (ss_start_ts s) ts (ssi tm)) as (? & ? & ?); try done.
    congruence.
  - intros c d' Hc Hne (Hov & _ & (rk1 & Hr1 & Hw1) & (rk2 & Hr2 & Hw2)). cbn in *.
    assert (aborted s = true) as Habs; [|congruence].
    apply (hist_aborted _ _ Hinv t s c d'); try done; [by exists rk1|by exists rk2].
Qed.

Lemma hist_inv_commit k t tm h :
  k + 3 ≤ 2 ^ 64 → tm_inv k tm → ssi_inv (ssi tm) → hist_inv tm h →
  hist_inv (commit t tm).1 (record_commit t tm h).
Proof.
  intros Hk Htm Hssi Hinv. unfold record_commit, commit.
  destruct (ssi tm !! t) as [s|] eqn:Hs; cbn [from_option].
  - unfold is_dangerous. destruct (aborted s) eqn:Hab; cbn [fst snd].
    { apply (hist_inv_shrink tm); simpl; try done; try lia; [apply delete_subseteq|].
      intros. by apply lookup_delete_None; right. }
    destruct (active_txns tm !! t) as [x|] eqn:Hx; [|done].
    case_bool_decide; [|done]. cbn [fst snd negb from_option].
    rw (fetch_add_small k); [done|apply Htm|]. exact (hist_inv_retire k t s x tm h Htm Hssi Hinv Hs Hx Hab).
  - destruct (active_txns tm !! t) as [x|] eqn:Hx; [|done].
    case_bool_decide; [|done]. cbn [fst snd negb from_option].
    rw (fetch_add_small k); [done|apply Htm|].
    apply (hist_inv_shrink tm); simpl; try done; try lia.
    intros. by apply lookup_delete_None; right.
Qed.

Lemma hist_inv_from k tm h ops :
  k + zlen ops + 2 ≤ 2 ^ 64 → tm_inv k tm → ssi_inv (ssi tm) → hist_inv tm h →
  hist_inv (foldl step tm ops) (history_from tm h ops).
Proof.
  revert k tm h. induction ops as [|o ops IH]; intros k tm h; [done|].
  rw zlen_cons. intros Hk Htm Hssi Hinv. pose proof (zlen_nonneg ops). cbn [foldl history_from].
  apply (IH (k + 1)); [lia|apply tm_inv_step; [lia|done]|by apply (ssi_inv_step k)|].
  destruct o; cbn [step].
  - apply (hist_inv_begin k); [lia|done..].
  - apply (hist_inv_commit k); [lia|done..].
  - by apply hist_inv_abort.
  - by apply hist_inv_read.
  - by apply hist_inv_scan.
  - by apply hist_inv_write.
  - by destruct Hinv.
  - by destruct Hinv.
  - by apply hist_inv_gc.
Qed.

Lemma hist_inv_run ops :
  zlen ops + 2 ≤ 2 ^ 64 → hist_inv (run ops) (history ops) ∧ ssi_inv (ssi (run ops)).
Proof.
  intros Hk. assert (ssi_inv ∅) as H0.
  { split; [intros r w|intros r t w]; intros (_ & sr & _ & _ & Hr & _);
      by rw lookup_empty in Hr. }
  split.
  - apply (hist_inv_from 0); [lia|apply tm_inv_new|done|].
    split; intros *; rw ?lookup_empty; done.
  - induction ops as [|o ops IH] using rev_ind; [done|].
    unfold run. rw zlen_app zlen_cons zlen_nil in Hk. rw foldl_snoc.
    apply (ssi_inv_step (zlen ops)); [apply tm_inv_run|apply IH]; lia.
Qed.

(** C15: Serializable transactions are free of write skew on items. In every run
    of fewer than [2^64 - 2] operations and for every iteration order of the
    hash maps, no two committed serializable transactions that overlapped in
    time have each read an item that the other wrote. *)
Theorem write_skew_free ops a c d d' :
  zlen ops + 2 ≤ 2 ^ 64 → history ops !! a = Some d → history ops !! c = Some d' → a ≠ c →
  ¬ write_skew d d'.
Proof.
  intros Hk Ha Hc Hne. destruct (hist_inv_run ops Hk) as [Hinv _].
  exact (hist_skew _ _ Hinv a c d d' Ha Hc Hne).
Qed.

(** Dangerous structures do not commit. When active serializable
    transactions [r], [t] and [w] are connected by two consecutive rw-edges
    ([r] read what [t] wrote and [t] read what [w] wrote; [r] and [w] may be
    the same), the commit of at least one of them is refused with
    [SerializationConflict]. *)
Theorem dangerous_structure_refused ops r t w :
  zlen ops + 2 ≤ 2 ^ 64 → edge (ssi (run ops)) r t → edge (ssi (run ops)) t w →
  ∃ v, v ∈ [r; t; w] ∧ (commit v (run ops)).2 = Err SerializationConflict.
Proof.
  intros Hk He1 He2. destruct (hist_inv_run ops Hk) as [_ [_ HB]].
  assert (∀ v, abf (ssi (run ops)) v → (commit v (run ops)).2 = Err SerializationConflict) as Hab.
  { intros v Hv. unfold commit. unfold abf in Hv.
    destruct (ssi (run ops) !! v); [|done]. cbn in *. unfold is_dangerous. by rw Hv. }
  destruct (HB r t w He1 He2) as [?|[?|?]]; [exists r|exists t|exists w];
    (split; [set_solver|by apply Hab]).
Qed.
End history.

(** ** Concrete runs *)

Definition k1 : list Z := [1].
Definition k2 : list Z := [2].
Definition two_serializable : list op := [OBegin Serializable None 0; OBegin Serializable None 0].

(** Two overlapping transactions that each read and write their own item. *)
Definition disjoint_run : list op :=
  two_serializable ++ [ORead 1 "t" k1; ORead 2 "t" k2; OWrite 1 "t" k1; OWrite 2 "t" k2;
                       OCommit 1; OCommit 2].

Definition empty_done : Done := mkDone 0 (mkCommittedSsi 0 ∅ ∅ ∅).

Lemma write_skew_free_witness :
  ∃ d d', history disjoint_run !! 1 = Some d ∧ history disjoint_run !! 2 = Some d' ∧
  ¬ write_skew d d'.
Proof.
  exists (default empty_done (history disjoint_run !! 1)), (default empty_done (history disjoint_run !! 2)).
  split; [vm_compute; reflexivity|]. split; [vm_compute; reflexivity|].
  apply (write_skew_free disjoint_run 1 2);
    [vm_compute; discriminate|vm_compute; reflexivity|vm_compute; reflexivity|lia].
Defined.

(** Write skew: each reads the item of the other before writing its own. *)
Definition skew_run : list op :=
  two_serializable ++ [ORead 1 "t" k2; ORead 2 "t" k1; OWrite 1 "t" k1; OWrite 2 "t" k2].

Lemma dangerous_structure_refused_witness :
  ∃ v, v ∈ [1; 2; 1] ∧ (commit v (run skew_run)).2 = Err SerializationConflict.
Proof.
  apply (dangerous_structure_refused skew_run 1 2 1); [vm_compute; discriminate| |].
  - split; [lia|]. eexists _, _, ("t"%string, k2).
    split; [vm_compute; reflexivity|]. split; [vm_compute; reflexivity|].
    split; (eapply bool_decide_eq_true_1; vm_compute; reflexivity).
  - split; [lia|]. eexists _, _, ("t"%string, k1).
    split; [vm_compute; reflexivity|]. split; [vm_compute; reflexivity|].
    split; (eapply bool_decide_eq_true_1; vm_compute; reflexivity).
Defined.

(** Each transaction inserts a row and then scans the table the other inserted
    into: [ssi_record_predicate] does not look at the writes already recorded. *)
Definition phantom_run : list op :=
  two_serializable ++ [OWrite 1 "t" k1; OWrite 2 "t" k2; OScan 1 "t"; OScan 2 "t";
                       OCommit 1; OCommit 2].

(** Phantoms are not prevented when the scan comes after the write: two
    overlapping serializable transactions that each inserted into a table and
    then scanned it, each without the row of the other, both commit. *)
Theorem phantom_skew_commits : ∃ d d',
  history phantom_run !! 1 = Some d ∧ history phantom_run !! 2 = Some d' ∧
  d_start d < c_commit_ts (d_ssi d') ∧ d_start d' < c_commit_ts (d_ssi d) ∧
  bool_decide ("t" ∈ c_scanned (d_ssi d)) = true ∧ bool_decide (("t", k2) ∈ c_writes (d_ssi d')) = true ∧
  bool_decide ("t" ∈ c_scanned (d_ssi d')) = true ∧ bool_decide (("t", k1) ∈ c_writes (d_ssi d)) = true.
Proof.
  exists (default empty_done (history phantom_run !! 1)), (default empty_done (history phantom_run !! 2)).
  split_and!; vm_compute; reflexivity.
Qed.

End Ssi.
