(* ===== verification/VersionStore.v ===== *)
(** The multi-version store of a table ([bytedb-core/src/mvcc/version_store.rs])
    and the snapshot-level predicates of [mvcc/visibility.rs]: 64 shards of
    version chains selected by an FNV hash of the key, and a counter of keys.

    The store never looks inside a [Tuple], which is the type parameter [T].
    Every operation holds the lock of the shard it works on; the operations
    that visit all the shards lock them one at a time and are modelled as one
    step. *)
From S2P Require Import Prelude Transaction.

Module VersionStore.
Import Transaction.

Definition SHARD_COUNT : Z := 64.

Record VersionedTuple (T : Type) := mkVersion {
  data : T;
  created_by : Z;
  deleted_by : option Z;
  created_ts : Z;
  deleted_ts : option Z;
}.
Arguments mkVersion {T} _ _ _ _ _.
Arguments data {T} _.
Arguments created_by {T} _.
Arguments deleted_by {T} _.
Arguments created_ts {T} _.
Arguments deleted_ts {T} _.

Definition Shard (T : Type) : Type := gmap (list Z) (list (VersionedTuple T)).

Record VersionStore (T : Type) := mkStore {
  shards : list (Shard T);
  approx_keys : Z;
}.
Arguments mkStore {T} _ _.
Arguments shards {T} _.
Arguments approx_keys {T} _.

Record GcStats := mkGcStats {
  versions_removed : Z;
  keys_removed : Z;
}.

Inductive ReadResult (T : Type) :=
  | Visible (t : T)
  | Tombstone
  | NoVersions.
Arguments Visible {T} t.
Arguments Tombstone {T}.
Arguments NoVersions {T}.

(** [AtomicUsize::fetch_sub] *)
Definition fetch_sub (z d : Z) : Z := wrap 64 (z - d).

(** FNV-1a, reduced to a shard number. *)
Definition shard_index (key : list Z) : Z :=
  let h := foldl (λ h b, wrap 64 (Z.lxor h b * 0x100000001b3)) 0xcbf29ce484222325 key in
  Z.land h (SHARD_COUNT - 1).

Section store.
Context {T : Type}.
Implicit Types (vs : VersionStore T) (v : VersionedTuple T) (chain : list (VersionedTuple T)).

Definition new : VersionStore T := mkStore (replicate (Z.to_nat SHARD_COUNT) ∅) 0.

Definition is_empty_fast vs : bool := approx_keys vs =? 0.

(** [self.shards[shard_index(key)]]; the index is always in range. *)
Definition shard_for (key : list Z) vs : Shard T :=
  default ∅ (shards vs !! Z.to_nat (shard_index key)).

Definition set_shard (key : list Z) (sh : Shard T) vs : list (Shard T) :=
  <[Z.to_nat (shard_index key) := sh]> (shards vs).

Definition fresh_version (tuple : T) (txn_id ts : Z) : VersionedTuple T :=
  mkVersion tuple txn_id None ts None.

Definition with_deleted (txn_id ts : Z) v : VersionedTuple T :=
  mkVersion (data v) (created_by v) (Some txn_id) (created_ts v) (Some ts).

Definition insert (key : list Z) (tuple : T) (txn_id ts : Z) vs : VersionStore T :=
  let shard := shard_for key vs in
  let was_empty := bool_decide (shard !! key = None) in
  let shard' := <[key := default [] (shard !! key) ++ [fresh_version tuple txn_id ts]]> shard in
  mkStore (set_shard key shard' vs)
    (if was_empty then fetch_add (approx_keys vs) 1 else approx_keys vs).

(** The loop of [delete]: the versions from the newest to the oldest. *)
Fixpoint mark_newest (txn_id ts : Z) (rev_chain : list (VersionedTuple T))
    : option (list (VersionedTuple T)) :=
  match rev_chain with
  | [] => None
  | v :: rest =>
      match deleted_by v with
      | None => Some (with_deleted txn_id ts v :: rest)
      | Some _ => cons v <$> mark_newest txn_id ts rest
      end
  end.

Definition delete (key : list Z) (txn_id ts : Z) vs : VersionStore T * bool :=
  match shard_for key vs !! key with
  | None => (vs, false)
  | Some chain =>
      match mark_newest txn_id ts (reverse chain) with
      | None => (vs, false)
      | Some rc => (mkStore (set_shard key (<[key := reverse rc]> (shard_for key vs)) vs)
                      (approx_keys vs), true)
      end
  end.

(** [active_txns.contains(&t)] *)
Definition contains (l : list Z) (t : Z) : bool := bool_decide (t ∈ l).

(** The tests that [try_delete] and [try_update] share, from the test of the
    creator on. *)
Definition stale_write (latest : VersionedTuple T) (txn_id snapshot_ts : Z) (active : list Z) : bool :=
  if negb (created_by latest =? txn_id) && contains active (created_by latest) then true
  else if negb (created_by latest =? txn_id) && (snapshot_ts <? created_ts latest) then true
  else match deleted_ts latest with
       | Some dts => negb (bool_decide (deleted_by latest = Some txn_id)) && (snapshot_ts <? dts)
       | None => false
       end.

Definition try_delete (key : list Z) (txn_id ts snapshot_ts : Z) (active : list Z) vs
    : VersionStore T * result bool :=
  match shard_for key vs !! key with
  | None => (vs, Ok false)
  | Some chain =>
      match last chain with
      | None => (vs, Ok false)
      | Some latest =>
          let proceed :=
            if stale_write latest txn_id snapshot_ts active then (vs, Err WriteConflict)
            else
              let chain' := take (length chain - 1) chain ++ [with_deleted txn_id ts latest] in
              (mkStore (set_shard key (<[key := chain']> (shard_for key vs)) vs) (approx_keys vs),
               Ok true) in
          match deleted_by latest with
          | Some deleter =>
              if negb (deleter =? txn_id) && contains active deleter then (vs, Err WriteConflict)
              else if negb (deleter =? txn_id) then (vs, Ok false)
              else proceed
          | None => proceed
          end
      end
  end.

Definition ensure_base (key : list Z) (committed : T) vs : VersionStore T :=
  let shard := shard_for key vs in
  let was_absent := bool_decide (shard !! key = None) in
  let chain := default [] (shard !! key) in
  if bool_decide (length chain = 0%nat)
  then mkStore (set_shard key (<[key := [fresh_version committed 0 0]]> shard) vs)
         (if was_absent then fetch_add (approx_keys vs) 1 else approx_keys vs)
  else mkStore (set_shard key (<[key := chain]> shard) vs) (approx_keys vs).

(** The tests of [try_update] on the latest version. *)
Definition update_conflict (latest : VersionedTuple T) (txn_id snapshot_ts : Z) (active : list Z)
    : bool :=
  match deleted_by latest with
  | Some deleter =>
      if negb (deleter =? txn_id) && contains active deleter then true
      else stale_write latest txn_id snapshot_ts active
  | None => stale_write latest txn_id snapshot_ts active
  end.

Definition try_update (key : list Z) (new_tuple : T) (txn_id ts snapshot_ts : Z) (active : list Z) vs
    : VersionStore T * result () :=
  let shard := shard_for key vs in
  let was_empty_chain := bool_decide (shard !! key = None) in
  let chain := default [] (shard !! key) in
  if from_option (λ latest, update_conflict latest txn_id snapshot_ts active) false (last chain)
  then (mkStore (set_shard key (<[key := chain]> shard) vs) (approx_keys vs), Err WriteConflict)
  else
    (mkStore (set_shard key (<[key := chain ++ [fresh_version new_tuple txn_id ts]]> shard) vs)
       (if was_empty_chain then fetch_add (approx_keys vs) 1 else approx_keys vs), Ok ()).

Definition is_visible v (txn_id snapshot_ts : Z) (active : list Z) : bool :=
  if created_by v =? txn_id then
    bool_decide (deleted_by v = None) || bool_decide (deleted_by v = Some txn_id)
  else if contains active (created_by v) then false
  else if snapshot_ts <? created_ts v then false
  else match deleted_by v with
  | None => true
  | Some d =>
      if d =? txn_id then false
      else if negb (contains active d)
           then match deleted_ts v with
                | Some dts => negb (dts <=? snapshot_ts)
                | None => true
                end
           else true
  end.

(** [for version in chain.iter().rev() { if is_visible(..) { .. } }] *)
Definition newest_visible (txn_id snapshot_ts : Z) (active : list Z) chain : option T :=
  data <$> (list_find (λ v, is_visible v txn_id snapshot_ts active = true) (reverse chain) ≫= λ iv, Some iv.2).

Definition get_visible (key : list Z) (txn_id snapshot_ts : Z) (active : list Z) vs : option T :=
  shard_for key vs !! key ≫= newest_visible txn_id snapshot_ts active.

Definition lookup_for_read (key : list Z) (txn_id snapshot_ts : Z) (active : list Z) vs
    : ReadResult T :=
  match shard_for key vs !! key with
  | None => NoVersions
  | Some chain =>
      if bool_decide (length chain = 0%nat) then NoVersions
      else match newest_visible txn_id snapshot_ts active chain with
           | Some t => Visible t
           | None => Tombstone
           end
  end.

(** ** Collection and rollback *)

(** The closure of the inner [retain] of [gc_with_aborted]. *)
Definition gc_keep (oldest : Z) (aborted_txns : list Z) v : bool :=
  if contains aborted_txns (created_by v) then false
  else match deleted_ts v with
       | Some dts => negb (dts <? oldest)
       | None => true
       end.

(** A chain after a [retain]: dropped from the shard when it is empty. *)
Definition retained (chain' : list (VersionedTuple T)) : option (list (VersionedTuple T)) :=
  match chain' with [] => None | _ => Some chain' end.

Definition retain_shard (f : list (VersionedTuple T) → list (VersionedTuple T))
    (sh : gmap (list Z) (list (VersionedTuple T))) : gmap (list Z) (list (VersionedTuple T)) :=
  omap (λ chain, retained (f chain)) sh.

Definition gc_chain (oldest : Z) (aborted_txns : list Z) chain : list (VersionedTuple T) :=
  filter (λ v, gc_keep oldest aborted_txns v = true) chain.

Section iteration.
Context `{HashOrder}.

(** The entries and the chains of the shards, in the order of the loops. *)
Definition all_entries vs : list (list Z * list (VersionedTuple T)) :=
  shards vs ≫= λ sh : Shard T, hash_iter sh.
Definition all_chains vs : list (list (VersionedTuple T)) := (all_entries vs).*2.

Definition gc_with_aborted (oldest : Z) (aborted_txns : list Z) vs : VersionStore T * GcStats :=
  let gc := gc_chain oldest aborted_txns in
  let chains := all_chains vs in
  let vr := zsum (λ chain, zlen chain - zlen (gc chain)) chains in
  let kr := zlen (filter (λ chain, length (gc chain) = 0%nat) chains) in
  (mkStore (retain_shard gc <$> shards vs)
     (if 0 <? kr then fetch_sub (approx_keys vs) kr else approx_keys vs),
   mkGcStats (wrap 64 vr) (wrap 64 kr)).

Definition gc (oldest : Z) vs : VersionStore T := (gc_with_aborted oldest [] vs).1.

(** The closure of the outer [retain] of [rollback_txn]. *)
Definition undelete (txn_id : Z) v : VersionedTuple T :=
  if bool_decide (deleted_by v = Some txn_id)
  then mkVersion (data v) (created_by v) None (created_ts v) None else v.

Definition rollback_chain (txn_id : Z) chain : list (VersionedTuple T) :=
  filter (λ v, created_by v ≠ txn_id) (undelete txn_id <$> chain).

Definition rollback_txn (txn_id : Z) vs : VersionStore T :=
  let chains := all_chains vs in
  let removed := zlen (filter (λ chain, length (rollback_chain txn_id chain) = 0%nat) chains) in
  mkStore (retain_shard (rollback_chain txn_id) <$> shards vs)
    (if 0 <? removed then fetch_sub (approx_keys vs) removed else approx_keys vs).

Definition key_count vs : Z := approx_keys vs.

Definition total_versions vs : Z := zsum zlen (all_chains vs).

Definition live_dead_counts (oldest : Z) vs : Z * Z :=
  let versions := mjoin (all_chains vs) in
  let is_dead v := match deleted_ts v with Some dts => dts <? oldest | None => false end in
  (zlen (filter (λ v, is_dead v = false) versions), zlen (filter (λ v, is_dead v = true) versions)).

(** ** Scans *)

Definition get_all_visible (txn_id snapshot_ts : Z) (active : list Z) vs : list (list Z * T) :=
  omap (λ kc, pair kc.1 <$> newest_visible txn_id snapshot_ts active kc.2) (all_entries vs).

Definition snapshot_resolved (txn_id snapshot_ts : Z) (active : list Z) vs
    : gmap (list Z) (option T) :=
  foldl (λ out (kc : list Z * list (VersionedTuple T)),
           <[kc.1 := newest_visible txn_id snapshot_ts active kc.2]> out)
    ∅ (all_entries vs).

(** [for_each_visible] with a callback that threads a state and returns
    [false] to stop. *)
Fixpoint visit_entries {S} (f : S → list Z → T → S * bool) (txn_id snapshot_ts : Z) (active : list Z)
    (entries : list (list Z * list (VersionedTuple T))) (s : S) : S :=
  match entries with
  | [] => s
  | (key, chain) :: rest =>
      match newest_visible txn_id snapshot_ts active chain with
      | None => visit_entries f txn_id snapshot_ts active rest s
      | Some t =>
          let '(s', go) := f s key t in
          if go then visit_entries f txn_id snapshot_ts active rest s' else s'
      end
  end.

Definition for_each_visible {S} (txn_id snapshot_ts : Z) (active : list Z)
    (f : S → list Z → T → S * bool) vs (s : S) : S :=
  visit_entries f txn_id snapshot_ts active (all_entries vs) s.
End iteration.

(** ** [visibility.rs] *)

Definition is_tuple_visible v (sn : Snapshot) : bool :=
  if created_by v =? sn_txn_id sn then
    bool_decide (deleted_by v = None) || negb (bool_decide (deleted_by v = Some (sn_txn_id sn)))
  else if contains (sn_active_txns sn) (created_by v) then false
  else if sn_start_ts sn <? created_ts v then false
  else match deleted_by v with
  | None => true
  | Some d =>
      if d =? sn_txn_id sn then false
      else if negb (contains (sn_active_txns sn) d)
           then match deleted_ts v with
                | Some dts => negb (dts <=? sn_start_ts sn)
                | None => true
                end
           else true
  end.

Definition check_write_conflict v (txn_id : Z) (sn : Snapshot) : bool :=
  match deleted_by v with
  | Some d => negb (d =? txn_id) && contains (sn_active_txns sn) d
  | None => false
  end
  || (negb (created_by v =? txn_id) && contains (sn_active_txns sn) (created_by v)
      && (sn_start_ts sn <? created_ts v)).
End store.

(** ** The chains of a store *)

Lemma shard_index_range key : 0 ≤ shard_index key < SHARD_COUNT.
Proof.
  unfold shard_index, SHARD_COUNT. change (64 - 1) with (Z.ones 6).
  rw Z.land_ones; [lia|]. change 64 with (2 ^ 6). apply Z.mod_pos_bound. lia.
Qed.

Section chains.
Context {T : Type} `{HashOrder}.
Implicit Types (vs : VersionStore T) (v : VersionedTuple T) (chain : list (VersionedTuple T)).
Implicit Types m : gmap (list Z) (list (VersionedTuple T)).

Definition chain_of vs (key : list Z) : option (list (VersionedTuple T)) := shard_for key vs !! key.

(** The key-value map that a store stands for: the union of the shards. *)
Record store_rel vs m : Prop := {
  rel_len : zlen (shards vs) = SHARD_COUNT;
  rel_home : ∀ i sh key, shards vs !! i = Some sh → is_Some (sh !! key) → Z.to_nat (shard_index key) = i;
  rel_chain : ∀ key, chain_of vs key = m !! key;
  rel_full : ∀ key, m !! key ≠ Some [];
  rel_count : approx_keys vs = wrap 64 (Z.of_nat (size m));
}.

Lemma store_rel_new : store_rel new ∅.
Proof.
  split; try done.
  - intros i sh key [-> _]%lookup_replicate [? Hk]. by rw lookup_empty in Hk.
  - intros key. unfold chain_of, shard_for, new. cbn [shards].
    pose proof (shard_index_range key). unfold SHARD_COUNT in *.
    rw lookup_replicate_2; [lia|]. by rw lookup_empty.
Qed.

Lemma shard_for_Some vs m key :
  store_rel vs m → shards vs !! Z.to_nat (shard_index key) = Some (shard_for key vs).
Proof.
  intros [Hlen _ _ _ _]. unfold shard_for, zlen in *. pose proof (shard_index_range key).
  destruct (lookup_lt_is_Some_2 (shards vs) (Z.to_nat (shard_index key))) as [sh ->]; [lia|done].
Qed.

Lemma lookup_set_shard vs m key sh key' :
  store_rel vs m →
  default ∅ (set_shard key sh vs !! Z.to_nat (shard_index key')) =
    if decide (Z.to_nat (shard_index key') = Z.to_nat (shard_index key)) then sh else shard_for key' vs.
Proof.
  intros Hrel. unfold set_shard. case_decide as Heq.
  - rw Heq list_lookup_insert_eq; [|done]. pose proof (shard_for_Some _ _ key Hrel) as Hs.
    by apply lookup_lt_Some in Hs.
  - rw list_lookup_insert_ne; [congruence|]. by rw (shard_for_Some _ _ key' Hrel).
Qed.

(** Writing one chain. *)
Lemma store_rel_put vs m key c n :
  store_rel vs m → c ≠ [] → n = wrap 64 (Z.of_nat (size (<[key := c]> m))) →
  store_rel (mkStore (set_shard key (<[key := c]> (shard_for key vs)) vs) n) (<[key := c]> m).
Proof.
  intros Hrel Hc Hn. pose proof (shard_for_Some _ _ key Hrel) as Hsome. split; try done.
  - cbn. unfold set_shard, zlen. rw length_insert. apply Hrel.
  - intros i sh key' Hi Hk. cbn in Hi. unfold set_shard in Hi.
    apply list_lookup_insert_Some in Hi as [(<- & <- & _)|[Hne Hi]]; [|exact (rel_home _ _ Hrel _ _ _ Hi Hk)].
    destruct (decide (key' = key)) as [->|Hnk]; [done|].
    rw lookup_insert_ne in Hk; [congruence|]. exact (rel_home _ _ Hrel _ _ _ Hsome Hk).
  - intros key'. unfold chain_of, shard_for at 1. cbn [shards]. rw (lookup_set_shard _ m); [done|].
    destruct (decide (key' = key)) as [->|Hnk].
    + rw decide_True; [done|]. by rw !lookup_insert_eq.
    + rw (lookup_insert_ne m); [congruence|]. rw -(rel_chain _ _ Hrel key'). unfold chain_of.
      case_decide as Heq; [|done]. rw lookup_insert_ne; [congruence|].
      unfold shard_for. by rw Heq.
  - intros key'. destruct (decide (key' = key)) as [->|Hnk].
    + rw lookup_insert_eq. congruence.
    + rw lookup_insert_ne; [congruence|]. by apply (rel_full _ _ Hrel).
Qed.

(** The count after writing a chain, as the code computes it. *)
Lemma put_count vs m key c :
  store_rel vs m →
  (if bool_decide (shard_for key vs !! key = None) then fetch_add (approx_keys vs) 1 else approx_keys vs)
    = wrap 64 (Z.of_nat (size (<[key := c]> m))).
Proof.
  intros Hrel. pose proof (rel_chain _ _ Hrel key) as Hk. unfold chain_of in Hk. rw Hk.
  rw (rel_count _ _ Hrel). case_bool_decide as Hn.
  - rw map_size_insert_None; [done|]. unfold fetch_add, wrap.
    rw Zplus_mod_idemp_l. f_equal. lia.
  - destruct (m !! key) as [c'|] eqn:Hc; [|done]. rw map_size_insert_Some; [by exists c'|done].
Qed.

(** The entries that the loops over the shards visit. *)
Lemma elem_of_all_entries vs m key c :
  store_rel vs m → (key, c) ∈ all_entries vs ↔ m !! key = Some c.
Proof.
  intros Hrel. unfold all_entries. rw list_elem_of_bind. rw -(rel_chain _ _ Hrel). split.
  - intros (sh & Hin%elem_of_hash_iter & [i Hi]%list_elem_of_lookup_1).
    unfold chain_of, shard_for. rw (rel_home _ _ Hrel i sh key); [done|by exists c|]. by rw Hi.
  - intros Hc. exists (shard_for key vs). split; [by apply elem_of_hash_iter|].
    eapply list_elem_of_lookup_2. by apply (shard_for_Some _ m).
Qed.

Lemma NoDup_entries (g : list Z → nat) (off : nat) (l : list (Shard T)) :
  (∀ i sh key, l !! i = Some sh → is_Some (sh !! key) → g key = (off + i)%nat) →
  NoDup (l ≫= λ sh, hash_iter sh).
Proof.
  revert off. induction l as [|sh l IH]; intros off Hg; [by constructor|].
  rw bind_cons. apply NoDup_app. split_and!.
  - rw hash_iter_perm. apply NoDup_map_to_list.
  - intros [key c] H1%elem_of_hash_iter (sh' & H2%elem_of_hash_iter & [j Hj]%list_elem_of_lookup_1)%list_elem_of_bind.
    pose proof (Hg 0%nat sh key eq_refl ltac:(by exists c)) as E1.
    pose proof (Hg (S j) sh' key Hj ltac:(by exists c)) as E2. lia.
  - apply (IH (S off)). intros i sh' key Hi Hk. rw (Hg (S i) sh' key); [done|done|lia].
Qed.

Lemma all_entries_perm vs m : store_rel vs m → all_entries vs ≡ₚ map_to_list m.
Proof.
  intros Hrel. apply NoDup_Permutation.
  - apply (NoDup_entries (λ key, Z.to_nat (shard_index key)) 0). intros i sh key Hi Hk.
    exact (rel_home _ _ Hrel _ _ _ Hi Hk).
  - apply NoDup_map_to_list.
  - intros [key c]. rw (elem_of_all_entries _ m); [done|]. by rw elem_of_map_to_list.
Qed.

(** Applying a [retain] to every shard. *)
Definition retain_map (f : list (VersionedTuple T) → list (VersionedTuple T)) m
    : gmap (list Z) (list (VersionedTuple T)) :=
  omap (λ chain, retained (f chain)) m.

Lemma retain_map_size f m :
  Z.of_nat (size (retain_map f m)) =
  Z.of_nat (size m) - zlen (filter (λ chain, length (f chain) = 0%nat) (map_to_list m).*2).
Proof.
  unfold retain_map. induction m as [|k c m Hk IH] using map_ind; [done|].
  rw map_to_list_insert; [done|]. rw fmap_cons. cbn [snd]. rw omap_insert.
  assert (omap (λ chain, retained (f chain)) m !! k = None) as Hn by by rw lookup_omap Hk.
  destruct (f c) as [|v vs'] eqn:Hf; cbn [retained].
  - rw filter_cons_True; [by rw Hf|]. rw zlen_cons map_size_insert_None; [done|].
    rw delete_id; [done|]. lia.
  - rw filter_cons_False; [by rw Hf|]. rw !map_size_insert_None; [done..|]. lia.
Qed.

Lemma retained_full c : retained c ≠ Some (@nil (VersionedTuple T)).
Proof. by destruct c. Qed.

Lemma store_rel_retain f vs m :
  store_rel vs m →
  let removed := zlen (filter (λ chain, length (f chain) = 0%nat) (all_chains vs)) in
  store_rel (mkStore (retain_shard f <$> shards vs)
    (if 0 <? removed then fetch_sub (approx_keys vs) removed else approx_keys vs)) (retain_map f m).
Proof.
  intros Hrel removed. split; cbn [shards approx_keys].
  - unfold zlen. rw length_fmap. apply Hrel.
  - intros i sh key Hi Hk. rw list_lookup_fmap in Hi. apply fmap_Some in Hi as (sh0 & Hi & ->).
    apply (rel_home _ _ Hrel _ _ _ Hi). unfold retain_shard in Hk. rw lookup_omap in Hk.
    destruct (sh0 !! key) as [c|] eqn:E; [exists c; exact E|]. by destruct Hk.
  - intros key. unfold chain_of, shard_for. cbn [shards]. rw list_lookup_fmap.
    rw (shard_for_Some _ _ key Hrel). cbn. unfold retain_map, retain_shard.
    rw !lookup_omap -(rel_chain _ _ Hrel). done.
  - intros key. unfold retain_map. rw lookup_omap. destruct (m !! key); [apply retained_full|done].
  - assert (removed = Z.of_nat (size m) - Z.of_nat (size (retain_map f m))) as Hrm.
    { rw retain_map_size. subst removed. unfold all_chains.
      rw (all_entries_perm _ _ Hrel). lia. }
    rw (rel_count _ _ Hrel) Hrm. case_bool.
    + unfold fetch_sub, wrap. rw Zminus_mod_idemp_l. f_equal. lia.
    + f_equal. pose proof (retain_map_size f m). pose proof (zlen_nonneg (filter (λ chain, length (f chain) = 0%nat) (map_to_list m).*2)).
      lia.
Qed.

(** ** Runs, and the map they maintain *)

Inductive vop :=
  | VInsert (key : list Z) (t : T) (txn ts : Z)
  | VDelete (key : list Z) (txn ts : Z)
  | VTryDelete (key : list Z) (txn ts snapshot_ts : Z) (active : list Z)
  | VEnsureBase (key : list Z) (t : T)
  | VTryUpdate (key : list Z) (t : T) (txn ts snapshot_ts : Z) (active : list Z)
  | VGc (oldest : Z) (aborted_txns : list Z)
  | VRollback (txn : Z).

Definition vstep vs (o : vop) : VersionStore T :=
  match o with
  | VInsert key t txn ts => insert key t txn ts vs
  | VDelete key txn ts => (delete key txn ts vs).1
  | VTryDelete key txn ts sts active => (try_delete key txn ts sts active vs).1
  | VEnsureBase key t => ensure_base key t vs
  | VTryUpdate key t txn ts sts active => (try_update key t txn ts sts active vs).1
  | VGc oldest ab => (gc_with_aborted oldest ab vs).1
  | VRollback txn => rollback_txn txn vs
  end.

Definition vrun (ops : list vop) : VersionStore T := foldl vstep new ops.

(** The effect of an operation on the chain of its key, and on every chain. *)
Definition spec_chain (o : vop) (c : list (VersionedTuple T)) : list (VersionedTuple T) :=
  match o with
  | VInsert _ t txn ts => c ++ [fresh_version t txn ts]
  | VDelete _ txn ts => from_option reverse c (mark_newest txn ts (reverse c))
  | VTryDelete _ txn ts sts active =>
      match last c with
      | None => c
      | Some v =>
          if stale_write v txn sts active || from_option (λ d, negb (d =? txn)) false (deleted_by v)
          then c else removelast c ++ [with_deleted txn ts v]
      end
  | VEnsureBase _ t => match c with [] => [fresh_version t 0 0] | _ => c end
  | VTryUpdate _ t txn ts sts active =>
      if from_option (λ v, update_conflict v txn sts active) false (last c) then c
      else c ++ [fresh_version t txn ts]
  | VGc oldest ab => gc_chain oldest ab c
  | VRollback txn => rollback_chain txn c
  end.

Definition spec_step m (o : vop) : gmap (list Z) (list (VersionedTuple T)) :=
  match o with
  | VInsert key _ _ _ | VDelete key _ _ | VTryDelete key _ _ _ _ | VEnsureBase key _
  | VTryUpdate key _ _ _ _ _ => partial_alter (λ c, retained (spec_chain o (default [] c))) key m
  | VGc _ _ | VRollback _ => retain_map (spec_chain o) m
  end.

Definition spec_run (ops : list vop) : gmap (list Z) (list (VersionedTuple T)) :=
  foldl spec_step ∅ ops.

(** The map is written at the key, or left as it is. *)
Lemma spec_put (g : list (VersionedTuple T) → list (VersionedTuple T)) key m c :
  g (default [] (m !! key)) = c → c ≠ [] →
  partial_alter (λ c, retained (g (default [] c))) key m = <[key := c]> m.
Proof.
  intros Hg Hc. apply map_eq. intros k. destruct (decide (k = key)) as [->|Hne].
  - rw lookup_partial_alter_eq lookup_insert_eq Hg. by destruct c.
  - rw lookup_partial_alter_ne; [congruence|]. rw lookup_insert_ne; [congruence|done].
Qed.

Lemma spec_same (g : list (VersionedTuple T) → list (VersionedTuple T)) key m :
  m !! key ≠ Some [] → g (default [] (m !! key)) = default [] (m !! key) →
  partial_alter (λ c, retained (g (default [] c))) key m = m.
Proof.
  intros Hfull Hg. apply map_eq. intros k. destruct (decide (k = key)) as [->|Hne].
  - rw lookup_partial_alter_eq Hg. destruct (m !! key) as [[|v c]|]; done.
  - rw lookup_partial_alter_ne; [congruence|done].
Qed.

Lemma size_rewrite vs m key c :
  store_rel vs m → is_Some (m !! key) →
  approx_keys vs = wrap 64 (Z.of_nat (size (<[key := c]> m))).
Proof. intros Hrel Hs. rw map_size_insert_Some; [done|]. apply Hrel. Qed.

Lemma take_last chain : take (length chain - 1) chain = removelast chain.
Proof.
  induction chain as [|v chain IH] using rev_ind; [done|]. rw removelast_last length_app /=.
  replace (length chain + 1 - 1)%nat with (length chain) by lia. by rw take_app_length.
Qed.

Lemma app_one_full (c : list (VersionedTuple T)) v : c ++ [v] ≠ [].
Proof. by destruct c. Qed.

Lemma mark_newest_full txn ts c rc : mark_newest txn ts c = Some rc → reverse rc ≠ @nil (VersionedTuple T).
Proof.
  intros Hm Hr%(f_equal reverse). rw reverse_involutive in Hr. subst rc.
  destruct c as [|v c]; [done|]. cbn in Hm. destruct (deleted_by v); [|done].
  by destruct (mark_newest txn ts c).
Qed.

Lemma store_rel_insert vs m key t txn ts :
  store_rel vs m → store_rel (insert key t txn ts vs) (spec_step m (VInsert key t txn ts)).
Proof.
  intros Hrel. cbn [spec_step]. unfold insert.
  rw (spec_put _ key m (default [] (shard_for key vs !! key) ++ [fresh_version t txn ts])).
  - cbn. by rw -(rel_chain _ _ Hrel).
  - apply app_one_full.
  - apply store_rel_put; [done|apply app_one_full|by apply put_count].
Qed.

Lemma store_rel_delete vs m key txn ts :
  store_rel vs m → store_rel (delete key txn ts vs).1 (spec_step m (VDelete key txn ts)).
Proof.
  intros Hrel. cbn [spec_step]. unfold delete.
  pose proof (rel_chain _ _ Hrel key) as Hk. unfold chain_of in Hk. rw Hk.
  destruct (m !! key) as [c|] eqn:Hc; cbn [fst].
  - destruct (mark_newest txn ts (reverse c)) as [rc|] eqn:Hm; cbn [fst].
    + pose proof (mark_newest_full _ _ _ _ Hm) as Hf.
      rw (spec_put _ key m (reverse rc)); [by rw Hc /= Hm|done|].
      apply store_rel_put; [done..|]. apply size_rewrite; [done|by exists c].
    + rw spec_same; [by apply Hrel|by rw Hc /= Hm|done].
  - rw spec_same; [by apply Hrel|by rw Hc|done].
Qed.

Lemma store_rel_try_delete vs m key txn ts sts active :
  store_rel vs m →
  store_rel (try_delete key txn ts sts active vs).1 (spec_step m (VTryDelete key txn ts sts active)).
Proof.
  intros Hrel. cbn [spec_step]. unfold try_delete.
  pose proof (rel_chain _ _ Hrel key) as Hk. unfold chain_of in Hk. rw Hk.
  destruct (m !! key) as [c|] eqn:Hc; cbn [fst].
  2: { rw spec_same; [by apply Hrel|by rw Hc|done]. }
  destruct (last c) as [v|] eqn:Hl.
  2: { rw spec_same; [by apply Hrel|by rw Hc /= Hl|done]. }
  assert (spec_chain (VTryDelete key txn ts sts active) c = c →
    store_rel vs (partial_alter (λ c, retained (spec_chain (VTryDelete key txn ts sts active) (default [] c))) key m))
    as Hsame by (intros ?; rw spec_same; [by apply Hrel|by rw Hc|done]).
  assert (spec_chain (VTryDelete key txn ts sts active) c = removelast c ++ [with_deleted txn ts v] →
    store_rel (mkStore (set_shard key (<[key := take (length c - 1) c ++ [with_deleted txn ts v]]>
      (shard_for key vs)) vs) (approx_keys vs))
      (partial_alter (λ c, retained (spec_chain (VTryDelete key txn ts sts active) (default [] c))) key m))
    as Hput.
  { intros Hsc. rw take_last (spec_put _ key m (removelast c ++ [with_deleted txn ts v]));
      [by rw Hc|apply app_one_full|].
    apply store_rel_put; [done|apply app_one_full|]. apply size_rewrite; [done|by exists c]. }
  cbn [spec_chain] in Hsame, Hput. rw Hl in Hsame Hput.
  destruct (deleted_by v) as [d|]; cbn [from_option] in Hsame, Hput.
  - destruct (d =? txn); cbn [negb andb orb] in *.
    + rw orb_false_r in Hsame Hput. destruct (stale_write v txn sts active); cbn [fst]; auto.
    + rw orb_true_r in Hsame. destruct (contains active d); cbn [fst]; auto.
  - rw orb_false_r in Hsame Hput. destruct (stale_write v txn sts active); cbn [fst]; auto.
Qed.

Lemma store_rel_ensure_base vs m key t :
  store_rel vs m → store_rel (ensure_base key t vs) (spec_step m (VEnsureBase key t)).
Proof.
  intros Hrel. cbn [spec_step]. unfold ensure_base.
  pose proof (put_count vs m key [fresh_version t 0 0] Hrel) as Hcount.
  pose proof (rel_chain _ _ Hrel key) as Hk. unfold chain_of in Hk. rw Hk in Hcount |- *.
  pose proof (rel_full _ _ Hrel key) as Hf.
  destruct (m !! key) as [[|v c]|] eqn:Hc; cbn [default length] in *; [done|..].
  - rw bool_decide_eq_false_2; [done|]. rw (spec_put _ key m (v :: c)); [by rw Hc|done|].
    apply store_rel_put; [done..|]. apply size_rewrite; [done|by exists (v :: c)].
  - rw bool_decide_eq_true_2; [done|]. rw (spec_put _ key m [fresh_version t 0 0]); [by rw Hc|done|].
    by apply store_rel_put.
Qed.

Lemma store_rel_try_update vs m key t txn ts sts active :
  store_rel vs m →
  store_rel (try_update key t txn ts sts active vs).1 (spec_step m (VTryUpdate key t txn ts sts active)).
Proof.
  intros Hrel. cbn [spec_step]. unfold try_update.
  pose proof (put_count vs m key (default [] (m !! key) ++ [fresh_version t txn ts]) Hrel) as Hcount.
  pose proof (rel_chain _ _ Hrel key) as Hk. unfold chain_of in Hk. rw Hk in Hcount |- *.
  destruct (from_option _ false (last (default [] (m !! key)))) eqn:Hconf; cbn [fst].
  - destruct (m !! key) as [c|] eqn:Hc; [|done]. cbn [default] in *.
    assert (c ≠ []) by (intros ->; by apply (rel_full _ _ Hrel key)).
    rw (spec_put _ key m c); [by rw Hc /= Hconf|done|].
    apply store_rel_put; [done..|]. apply size_rewrite; [done|by exists c].
  - rw (spec_put _ key m (default [] (m !! key) ++ [fresh_version t txn ts]));
      [by rw /= Hconf|apply app_one_full|].
    apply store_rel_put; [done|apply app_one_full|done].
Qed.

Lemma store_rel_step vs m o : store_rel vs m → store_rel (vstep vs o) (spec_step m o).
Proof.
  intros Hrel. destruct o; cbn [vstep].
  - by apply store_rel_insert.
  - by apply store_rel_delete.
  - by apply store_rel_try_delete.
  - by apply store_rel_ensure_base.
  - by apply store_rel_try_update.
  - exact (store_rel_retain _ vs m Hrel).
  - exact (store_rel_retain _ vs m Hrel).
Qed.

Lemma store_rel_run ops : store_rel (vrun ops) (spec_run ops).
Proof.
  induction ops as [|o ops IH] using rev_ind; [apply store_rel_new|].
  unfold vrun, spec_run. rw !foldl_snoc. by apply store_rel_step.
Qed.

(** ** Scans *)

(** A traversal of a list with a callback that can stop it. *)
Fixpoint visit_list {S} (f : S → list Z → T → S * bool) (l : list (list Z * T)) (s : S) : S :=
  match l with
  | [] => s
  | (key, t) :: l' => let '(s', go) := f s key t in if go then visit_list f l' s' else s'
  end.

Lemma visit_entries_list {S} (f : S → list Z → T → S * bool) txn sts active l (s : S) :
  visit_entries f txn sts active l s =
  visit_list f (omap (λ kc, pair kc.1 <$> newest_visible txn sts active kc.2) l) s.
Proof.
  revert s. induction l as [|[key c] l IH]; intros s; [done|]. cbn [visit_entries].
  rw list_omap_cons. cbn [fst snd].
  destruct (newest_visible txn sts active c) as [t|]; cbn; [|by apply IH].
  destruct (f s key t) as [s' []]; [by apply IH|done].
Qed.

Lemma snapshot_resolved_spec txn sts active vs m :
  store_rel vs m → snapshot_resolved txn sts active vs = newest_visible txn sts active <$> m.
Proof.
  intros Hrel. unfold snapshot_resolved.
  assert (NoDup (all_entries vs).*1) as Hnd.
  { rw (all_entries_perm _ _ Hrel). apply NoDup_fst_map_to_list. }
  assert (∀ l (out : gmap (list Z) (option T)), NoDup l.*1 →
    foldl (λ out (kc : list Z * list (VersionedTuple T)),
             <[kc.1 := newest_visible txn sts active kc.2]> out) out l
    = (newest_visible txn sts active <$> (list_to_map l : gmap _ _)) ∪ out) as Hgen.
  { induction l as [|[k c] l IH]; intros out Hn; cbn.
    - by rw fmap_empty left_id_L.
    - apply NoDup_cons in Hn as [Hk Hn]. rw IH; [done|]. rw fmap_insert.
      rw -insert_union_l insert_union_r; [|done]. rw lookup_fmap fmap_None.
      by apply not_elem_of_list_to_map. }
  rw Hgen; [done|]. rw right_id_L. f_equal.
  rw (list_to_map_proper _ _ Hnd (all_entries_perm _ _ Hrel)). apply list_to_map_to_list.
Qed.

(** C19: The sharded store is one map from keys to version chains. After any
    sequence of operations the chain of each key is the one that a single map
    would hold, no empty chain is kept, the key counter is the number of keys,
    a snapshot resolves every key that has versions to its newest visible
    version, and the two scans visit exactly the resolved rows. *)
Theorem store_refines_map ops txn sts active :
  let vs := vrun ops in let m := spec_run ops in
  (∀ key, chain_of vs key = m !! key) ∧ (∀ key, chain_of vs key ≠ Some []) ∧
  key_count vs = wrap 64 (Z.of_nat (size m)) ∧
  snapshot_resolved txn sts active vs = newest_visible txn sts active <$> m ∧
  (∀ key t, (key, t) ∈ get_all_visible txn sts active vs ↔
            snapshot_resolved txn sts active vs !! key = Some (Some t)) ∧
  NoDup (get_all_visible txn sts active vs).*1 ∧
  (∀ (S : Type) (f : S → list Z → T → S * bool) s, for_each_visible txn sts active f vs s =
               visit_list f (get_all_visible txn sts active vs) s).
Proof.
  intros vs m. pose proof (store_rel_run ops) as Hrel. fold vs m in Hrel.
  pose proof (snapshot_resolved_spec txn sts active vs m Hrel) as Hsr. split_and!.
  - apply Hrel.
  - intros key. rw (rel_chain _ _ Hrel). apply Hrel.
  - apply Hrel.
  - done.
  - intros key t. unfold get_all_visible. rw (all_entries_perm _ _ Hrel) Hsr lookup_fmap.
    rw list_elem_of_omap. split.
    + intros ([k c] & Hin%elem_of_map_to_list & Hp). apply fmap_Some in Hp as (t' & Ht & ?).
      simplify_eq/=. by rw Hin /= Ht.
    + intros (c & Hc & Ht)%fmap_Some. exists (key, c). split; [by apply elem_of_map_to_list|].
      cbn [fst snd]. by rw -Ht.
  - unfold get_all_visible. rw (all_entries_perm _ _ Hrel).
    eapply sublist_NoDup; [apply (NoDup_fst_map_to_list m)|].
    induction (map_to_list m) as [|[k c] l IH]; [done|]. rw list_omap_cons fmap_cons. cbn [fst snd].
    destruct (newest_visible txn sts active c); cbn; by constructor.
  - intros S f s. apply visit_entries_list.
Qed.

(** ** Rollback *)

Definition op_txn (o : vop) : option Z :=
  match o with
  | VInsert _ _ txn _ | VDelete _ txn _ | VTryDelete _ txn _ _ _ | VTryUpdate _ _ txn _ _ _ => Some txn
  | VEnsureBase _ _ => Some 0
  | VGc _ _ | VRollback _ => None
  end.

(** A version nobody has deleted has no deletion time, and a version that
    transaction [t] neither created nor deleted. *)
Definition version_ok v : Prop := deleted_by v = None → deleted_ts v = None.
Definition foreign (t : Z) v : Prop := created_by v ≠ t ∧ deleted_by v ≠ Some t.

Lemma undelete_marked txn ts v :
  version_ok v → deleted_by v = None ∨ deleted_by v = Some txn →
  undelete txn (with_deleted txn ts v) = undelete txn v.
Proof.
  unfold undelete, version_ok. cbn. rw bool_decide_eq_true_2; [done|]. intros Hok [Hd|Hd].
  - rw bool_decide_eq_false_2; [congruence|]. destruct v; cbn in *. by rw Hd Hok.
  - by rw bool_decide_eq_true_2.
Qed.

Lemma rollback_app txn (c1 c2 : list (VersionedTuple T)) :
  rollback_chain txn (c1 ++ c2) = rollback_chain txn c1 ++ rollback_chain txn c2.
Proof. unfold rollback_chain. by rw fmap_app filter_app. Qed.

Lemma rollback_fresh txn (t : T) ts : rollback_chain txn [fresh_version t txn ts] = [].
Proof.
  unfold rollback_chain. rw fmap_cons filter_cons_False; [|done].
  unfold fresh_version, undelete. cbn. tauto.
Qed.

Lemma rollback_marked txn ts v :
  version_ok v → deleted_by v = None ∨ deleted_by v = Some txn →
  rollback_chain txn [with_deleted txn ts v] = rollback_chain txn [v].
Proof. intros. unfold rollback_chain. cbn [fmap list_fmap]. by rw undelete_marked. Qed.

Lemma rollback_mark_newest txn ts (rc rc' : list (VersionedTuple T)) :
  Forall version_ok rc → mark_newest txn ts rc = Some rc' →
  rollback_chain txn (reverse rc') = rollback_chain txn (reverse rc).
Proof.
  intros Hok. revert rc'. induction Hok as [|v rc Hv Hok IH]; intros rc' Hm; [done|].
  cbn in Hm. destruct (deleted_by v) as [d|] eqn:Hd.
  - apply fmap_Some in Hm as (rc'' & Hm & ->). rw !reverse_cons !rollback_app. by rw (IH rc'').
  - simplify_eq. rw !reverse_cons !rollback_app. f_equal. apply rollback_marked; [done|by left].
Qed.

(** The operations of a transaction on a chain are undone by its rollback. *)
Lemma rollback_undoes txn o (c : list (VersionedTuple T)) :
  op_txn o = Some txn → txn ≠ 0 → Forall version_ok c →
  rollback_chain txn (spec_chain o c) = rollback_chain txn c.
Proof.
  intros Ho Hz Hok. destruct o; cbn in Ho; simplify_eq; cbn [spec_chain].
  - by rw rollback_app rollback_fresh app_nil_r.
  - destruct (mark_newest txn ts (reverse c)) as [rc|] eqn:Hm; [|done]. cbn [from_option].
    rw (rollback_mark_newest _ ts (reverse c) rc); [by apply Forall_reverse|done|].
    by rw reverse_involutive.
  - destruct (last c) as [v|] eqn:Hl; [|done]. destruct (_ || _) eqn:Hb; [done|].
    apply last_Some in Hl as [c' ->]. rw removelast_last !rollback_app. f_equal.
    apply Forall_app in Hok as [_ Hv]. apply Forall_inv in Hv.
    apply rollback_marked; [done|]. apply orb_false_iff in Hb as [_ Hb].
    destruct (deleted_by v) as [d|]; [|by left]. cbn in Hb. right. f_equal.
    destruct (Z.eqb_spec d txn); done.
  - destruct (from_option _ false (last c)); [done|].
    by rw rollback_app rollback_fresh app_nil_r.
Qed.

Lemma rollback_foreign txn (c : list (VersionedTuple T)) : Forall (foreign txn) c → rollback_chain txn c = c.
Proof.
  unfold rollback_chain. induction 1 as [|v c [Hc Hd] _ IH]; [done|]. rw fmap_cons.
  assert (undelete txn v = v) as ->. { unfold undelete. by rw bool_decide_eq_false_2. }
  rw filter_cons_True; [done|]. by rw IH.
Qed.

(** Versions stay well formed, and foreign to a transaction that does not
    act. *)
Definition good (t : Z) v : Prop := version_ok v ∧ foreign t v.

Lemma mark_newest_Forall (P : VersionedTuple T → Prop) txn ts rc rc' :
  (∀ v, P v → P (with_deleted txn ts v)) →
  Forall P rc → mark_newest txn ts rc = Some rc' → Forall P rc'.
Proof.
  intros HP Hok. revert rc'. induction Hok as [|v rc Hv Hok IH]; intros rc' Hm; [done|].
  cbn in Hm. destruct (deleted_by v) as [d|] eqn:Hd.
  - apply fmap_Some in Hm as (rc'' & Hm & ->). constructor; eauto.
  - simplify_eq. constructor; auto.
Qed.

Lemma spec_chain_Forall (P : VersionedTuple T → Prop) txn o c :
  op_txn o = Some txn →
  (∀ v ts, P v → P (with_deleted txn ts v)) → (∀ t ts, P (fresh_version t txn ts)) →
  Forall P c → Forall P (spec_chain o c).
Proof.
  intros Ho Hdel Hfresh Hc. destruct o; cbn in Ho; simplify_eq; cbn [spec_chain].
  - apply Forall_app. split; [done|]. by constructor.
  - destruct (mark_newest txn ts (reverse c)) as [rc|] eqn:Hm; [|done]. cbn [from_option].
    apply Forall_reverse. apply (mark_newest_Forall P txn ts (reverse c)); [auto|by apply Forall_reverse|done].
  - destruct (last c) as [v|] eqn:Hl; [|done]. destruct (_ || _); [done|].
    apply last_Some in Hl as [c' ->]. rw removelast_last.
    apply Forall_app in Hc as [? Hv]. apply Forall_inv in Hv.
    apply Forall_app. split; [done|]. constructor; auto.
  - destruct c; [|done]. by constructor.
  - destruct (from_option _ false (last c)); [done|].
    apply Forall_app. split; [done|]. by constructor.
Qed.

Lemma version_ok_marked txn ts v : version_ok (with_deleted txn ts v).
Proof. done. Qed.

Lemma good_own txn t o c :
  op_txn o = Some txn → txn ≠ t → Forall (good t) c → Forall (good t) (spec_chain o c).
Proof.
  intros Ho Hne. apply (spec_chain_Forall _ txn); [done| |].
  - intros v ts [_ [? _]]. split; [apply version_ok_marked|]. split; cbn; [done|congruence].
  - intros x ts. split; [done|]. split; cbn; [done|congruence].
Qed.

Lemma ok_own txn o c : op_txn o = Some txn → Forall version_ok c → Forall version_ok (spec_chain o c).
Proof. intros Ho. apply (spec_chain_Forall _ txn); [done| |]; intros; done. Qed.

Definition op_key (o : vop) : list Z :=
  match o with
  | VInsert key _ _ _ | VDelete key _ _ | VTryDelete key _ _ _ _ | VEnsureBase key _
  | VTryUpdate key _ _ _ _ _ => key
  | VGc _ _ | VRollback _ => []
  end.

Lemma lookup_spec_step m o txn key :
  op_txn o = Some txn →
  spec_step m o !! key =
    if decide (key = op_key o) then retained (spec_chain o (default [] (m !! key))) else m !! key.
Proof.
  intros Ho. destruct o; cbn in Ho; simplify_eq; cbn [spec_step op_key];
    (case_decide as Hk;
     [subst; by rw lookup_partial_alter_eq|rw lookup_partial_alter_ne; [congruence|done]]).
Qed.

(** Every version of a map satisfies [P]. *)
Definition all_versions (P : VersionedTuple T → Prop) m : Prop :=
  ∀ key c, m !! key = Some c → Forall P c.

Lemma all_versions_step P m o txn :
  op_txn o = Some txn → (∀ c, Forall P c → Forall P (spec_chain o c)) →
  all_versions P m → all_versions P (spec_step m o).
Proof.
  intros Ho Hsc Hm key c. rw (lookup_spec_step _ _ _ _ Ho). case_decide; [|apply Hm].
  assert (Forall P (default [] (m !! key))) as Hd.
  { destruct (m !! key) as [c'|] eqn:Hc; [by apply (Hm key)|by constructor]. }
  apply Hsc in Hd. destruct (spec_chain o (default [] (m !! key))); [done|]. cbn. by intros [= <-].
Qed.

Lemma all_versions_retain P f m :
  (∀ c, Forall P c → Forall P (f c)) → all_versions P m → all_versions P (retain_map f m).
Proof.
  intros Hf Hm key c. unfold retain_map. rw lookup_omap.
  destruct (m !! key) as [c'|] eqn:Hc; [|done]. cbn. specialize (Hf _ (Hm _ _ Hc)).
  destruct (f c'); [done|]. cbn. by intros [= <-].
Qed.

Lemma good_run t ops :
  t ≠ 0 → Forall (λ o, op_txn o ≠ Some t) ops → all_versions (good t) (spec_run ops).
Proof.
  intros Ht. induction ops as [|o ops IH] using rev_ind; intros Hops.
  { intros key c Hc. by rw lookup_empty in Hc. }
  apply Forall_app in Hops as [Hops Ho%Forall_inv]. specialize (IH Hops).
  unfold spec_run. rw foldl_snoc. destruct (op_txn o) as [txn|] eqn:Htxn.
  - apply (all_versions_step _ _ o txn); [done| |done]. intros c. apply (good_own txn); [done|congruence].
  - destruct o; try done; cbn [spec_step]; apply all_versions_retain; try done; intros c Hc.
    + cbn. unfold gc_chain. by apply Forall_filter_keep.
    + cbn. unfold rollback_chain. apply Forall_filter_keep, Forall_fmap.
      apply (Forall_impl _ _ _ Hc). intros v [Hok [Hcr Hdl]]. unfold undelete. cbn.
      case_bool_decide; by split.
Qed.

Lemma rollback_step txn o m :
  op_txn o = Some txn → txn ≠ 0 → all_versions version_ok m → (∀ key, m !! key ≠ Some []) →
  retain_map (rollback_chain txn) (spec_step m o) = retain_map (rollback_chain txn) m.
Proof.
  intros Ho Hz Hok Hfull. apply map_eq. intros key. unfold retain_map. rw !lookup_omap.
  rw (lookup_spec_step _ _ _ _ Ho). case_decide; [|done].
  assert (Forall version_ok (default [] (m !! key))) as Hd.
  { destruct (m !! key) as [c'|] eqn:Hc; [by apply (Hok key)|by constructor]. }
  pose proof (rollback_undoes txn o _ Ho Hz Hd) as Hr. revert Hr.
  generalize (spec_chain o (default [] (m !! key))) as c1. intros c1 Hr.
  assert (retained c1 ≫= (λ c, retained (rollback_chain txn c)) = retained (rollback_chain txn c1)) as E.
  { by destruct c1. }
  etrans; [exact E|]. rw Hr. by destruct (m !! key).
Qed.

(** Rollback undoes exactly the operations of the transaction. From any
    store that other transactions produced, whatever inserts, deletes,
    [try_delete]s and [try_update]s transaction [t] performs, successful or
    refused, [rollback_txn t] restores every version chain and the key count. *)
Theorem rollback_restores t before ops :
  t ≠ 0 → Forall (λ o, op_txn o ≠ Some t) before → Forall (λ o, op_txn o = Some t) ops →
  let vs := vrun before in
  let vs' := rollback_txn t (foldl vstep vs ops) in
  (∀ key, chain_of vs' key = chain_of vs key) ∧ key_count vs' = key_count vs.
Proof.
  intros Ht Hb Hops vs vs'. pose proof (store_rel_run before) as Hrel. fold vs in Hrel.
  pose proof (good_run t before Ht Hb) as Hgood.
  assert (∀ ops vs0 m0, Forall (λ o, op_txn o = Some t) ops → store_rel vs0 m0 →
    all_versions version_ok m0 →
    ∃ m1, store_rel (foldl vstep vs0 ops) m1 ∧
      retain_map (rollback_chain t) m1 = retain_map (rollback_chain t) m0) as Hrun.
  { clear -Ht. induction ops as [|o ops IH]; intros vs0 m0 Hops Hrel Hok; [by exists m0|].
    apply Forall_cons in Hops as [Ho Hops]. destruct (IH (vstep vs0 o) (spec_step m0 o)) as (m1 & ? & E).
    - done.
    - by apply store_rel_step.
    - apply (all_versions_step _ _ _ t); [done| |done]. intros c. by apply (ok_own t).
    - exists m1. split; [done|]. rw E. apply rollback_step; try done. apply Hrel. }
  destruct (Hrun ops vs (spec_run before)) as (m1 & Hrel1 & E); [done|done| |].
  { intros key c Hc. apply (Forall_impl _ _ _ (Hgood _ _ Hc)). by intros v [? _]. }
  assert (store_rel vs' (retain_map (rollback_chain t) m1)) as Hrel'
    by exact (store_rel_retain _ _ _ Hrel1).
  assert (retain_map (rollback_chain t) (spec_run before) = spec_run before) as E2.
  { apply map_eq. intros key. unfold retain_map. rw lookup_omap.
    destruct (spec_run before !! key) as [c|] eqn:Hc; [|done]. cbn. rw rollback_foreign.
    - apply (Forall_impl _ _ _ (Hgood _ _ Hc)). by intros v [_ ?].
    - destruct c; [|done]. by destruct (rel_full _ _ Hrel key). }
  rw E E2 in Hrel'. split.
  - intros key. by rw (rel_chain _ _ Hrel') (rel_chain _ _ Hrel).
  - unfold key_count. by rw (rel_count _ _ Hrel') (rel_count _ _ Hrel).
Qed.

End chains.

(** A committed row, updated and then deleted by transaction 2. *)
Definition sample_before : list (vop (T := Z)) := [VInsert [7] 10 1 1].
Definition sample_ops : list (vop (T := Z)) :=
  [VTryUpdate [7] 11 2 2 2 []; VInsert [8] 12 2 2; VTryDelete [7] 2 2 2 []; VDelete [7] 2 2].

Lemma rollback_restores_witness :
  (∀ key, chain_of (rollback_txn 2 (foldl vstep (vrun sample_before) sample_ops)) key =
          chain_of (vrun sample_before) key) ∧
  key_count (rollback_txn 2 (foldl vstep (vrun sample_before) sample_ops)) = key_count (vrun sample_before).
Proof.
  apply (rollback_restores 2 sample_before sample_ops); [lia| |].
  - repeat (constructor; [cbn; congruence|]). constructor.
  - repeat (constructor; [reflexivity|]). constructor.
Defined.

End VersionStore.
