(* ===== verification/Mvcc.v ===== *)
(** The multi-version protocol: the transaction manager and the version store
    of a table composed the way the statements of the query engine compose
    them ([bytedb-query/src/executor/engine.rs]: [BEGIN], [COMMIT],
    [ROLLBACK], and the row writes of [INSERT], [UPDATE] and [DELETE] inside a
    transaction), and the vacuum pass ([bytedb-core/src/workers/vacuum.rs]).

    The state is one table: its version store and the set of transactions that
    have an undo record for it, which is what decides whether a rollback visits
    the store. Rows in the primary index, secondary indexes and the log are not
    part of this model. *)
From S2P Require Import Prelude Transaction VersionStore.

Module Mvcc.
Import Transaction VersionStore.

Section mvcc.
Context {T : Type} `{HashOrder} (table : string).

Record Db := mkDb {
  tm : TransactionManager;
  store : VersionStore T;
  undo : gset Z;
}.

Definition empty_db : Db := mkDb Transaction.new VersionStore.new ∅.

Inductive mop :=
  | MBegin (iso : IsolationLevel) (timeout : option Z) (now : Z)
  | MInsert (t : Z) (key : list Z) (row : T)
  | MUpdate (t : Z) (key : list Z) (old row : T)
  | MDelete (t : Z) (key : list Z) (old : T)
  | MRead (t : Z) (key : list Z)
  | MScan (t : Z)
  | MCommit (t : Z)
  | MRollback (t : Z).

(** A row written by [INSERT]. *)
Definition insert_row (t : Z) (key : list Z) (row : T) (db : Db) : Db * result () :=
  match get_snapshot t (tm db) with
  | Err e => (db, Err e)
  | Ok sn =>
      (mkDb (ssi_record_write t table key (tm db))
         (insert key row t (sn_start_ts sn) (store db)) ({[t]} ∪ undo db), Ok ())
  end.

(** A row written by [UPDATE]; [old] is the row as the statement read it, so
    that a transaction without a snapshot has failed before. The undo record is
    made before the write is attempted. *)
Definition update_row (t : Z) (key : list Z) (old row : T) (db : Db) : Db * result () :=
  match get_snapshot t (tm db) with
  | Err e => (db, Err e)
  | Ok sn =>
      let vs1 := ensure_base key old (store db) in
      let '(vs2, r) := try_update key row t (sn_start_ts sn) (sn_start_ts sn) (sn_active_txns sn) vs1 in
      match r with
      | Err e => (mkDb (tm db) vs2 ({[t]} ∪ undo db), Err e)
      | Ok _ => (mkDb (ssi_record_write t table key (tm db)) vs2 ({[t]} ∪ undo db), Ok ())
      end
  end.

(** A row removed by [DELETE]. *)
Definition delete_row (t : Z) (key : list Z) (old : T) (db : Db) : Db * result () :=
  match get_snapshot t (tm db) with
  | Err e => (db, Err e)
  | Ok sn =>
      let vs1 := ensure_base key old (store db) in
      let '(vs2, r) := try_delete key t (sn_start_ts sn) (sn_start_ts sn) (sn_active_txns sn) vs1 in
      match r with
      | Err e => (mkDb (tm db) vs2 ({[t]} ∪ undo db), Err e)
      | Ok _ => (mkDb (ssi_record_write t table key (tm db)) vs2 ({[t]} ∪ undo db), Ok ())
      end
  end.

(** [rollback_txn_effects] on the version store. *)
Definition rollback_txn_effects (t : Z) (db : Db) : Db :=
  if bool_decide (t ∈ undo db)
  then mkDb (tm db) (rollback_txn t (store db)) (undo db ∖ {[t]})
  else db.

Definition commit_txn (t : Z) (db : Db) : Db * result () :=
  let '(tm', r) := commit t (tm db) in
  match r with
  | Ok _ => (mkDb tm' (store db) (undo db ∖ {[t]}), Ok ())
  | Err e => (rollback_txn_effects t (mkDb tm' (store db) (undo db)), Err e)
  end.

Definition rollback (t : Z) (db : Db) : Db * result () :=
  let db1 := rollback_txn_effects t db in
  let '(tm', r) := abort t (tm db1) in
  (mkDb tm' (store db1) (undo db1), r).

Definition mstep (db : Db) (o : mop) : Db :=
  match o with
  | MBegin iso timeout now =>
      mkDb (begin_with_timeout iso timeout now (tm db)).1 (store db) (undo db)
  | MInsert t key row => (insert_row t key row db).1
  | MUpdate t key old row => (update_row t key old row db).1
  | MDelete t key old => (delete_row t key old db).1
  | MRead t key => mkDb (ssi_record_read t table key (tm db)) (store db) (undo db)
  | MScan t => mkDb (ssi_record_predicate t table (tm db)) (store db) (undo db)
  | MCommit t => (commit_txn t db).1
  | MRollback t => (rollback t db).1
  end.

Definition mrun (ops : list mop) : Db := foldl mstep empty_db ops.

(** What transaction [t] reads at a key. *)
Definition read_row (t : Z) (key : list Z) (db : Db) : option T :=
  match get_snapshot t (tm db) with
  | Err _ => None
  | Ok sn => get_visible key t (sn_start_ts sn) (sn_active_txns sn) (store db)
  end.

(** ** The vacuum pass *)

Record VacuumTotals := mkTotals {
  total_versions_removed : Z;
  total_keys_removed : Z;
  runs : Z;
}.

(** The loop over the stores: the collected stores and the two totals. *)
Fixpoint vacuum_stores (oldest : Z) (stores : list (VersionStore T)) : list (VersionStore T) * Z * Z :=
  match stores with
  | [] => ([], 0, 0)
  | vs :: rest =>
      let '(vs', stats) := gc_with_aborted oldest [] vs in
      let '(rest', v, k) := vacuum_stores oldest rest in
      (vs' :: rest', versions_removed stats + v, keys_removed stats + k)
  end.

Definition run_once (mgr : TransactionManager) (stores : list (VersionStore T)) (tot : VacuumTotals)
    : TransactionManager * list (VersionStore T) * VacuumTotals :=
  let oldest := oldest_active_start_ts mgr in
  let '(stores', total_v, total_k) := vacuum_stores oldest stores in
  let mgr' := gc_ssi_recent (gc_committed oldest mgr).1 in
  (mgr', stores', mkTotals (fetch_add (total_versions_removed tot) total_v)
                    (fetch_add (total_keys_removed tot) total_k) (fetch_add (runs tot) 1)).

(** The pass over the table of a [Db]. *)
Definition vacuum (db : Db) : Db :=
  let '(mgr', stores', _) := run_once (tm db) [store db] (mkTotals 0 0 0) in
  mkDb mgr' (default (store db) (head stores')) (undo db).

(** ** The invariant *)

(** The commit of [c] precedes the snapshot of a transaction that started at
    [ts]; the base versions have creator 0. *)
Definition committed_before (mgr : TransactionManager) (ts c : Z) : Prop :=
  c = 0 ∨ ∃ ct, committed_txns mgr !! c = Some ct ∧ ct < ts.

(** The mark that transaction [c] left at time [ts]: [c] is the base, is
    active and can be rolled back, or has committed; and its start is ordered
    with the starts of the active transactions as the identifiers are. *)
Record mark_ok (mgr : TransactionManager) (u : gset Z) (c ts : Z) : Prop := {
  mk_who : (c = 0 ∧ ts = 0) ∨
    (∃ x, active_txns mgr !! c = Some x ∧ start_ts x = ts ∧ c ∈ u) ∨
    (is_Some (committed_txns mgr !! c) ∧ active_txns mgr !! c = None ∧ ts < next_timestamp mgr);
  mk_order : ∀ t' y, active_txns mgr !! t' = Some y → c ≠ t' →
    (ts < start_ts y ↔ c < t') ∧ ts ≠ start_ts y;
  mk_id : c < next_txn_id mgr;
}.

Definition ver_ok (mgr : TransactionManager) (u : gset Z) (v : VersionedTuple T) : Prop :=
  mark_ok mgr u (created_by v) (created_ts v) ∧
  match deleted_by v, deleted_ts v with
  | None, None => True
  | Some d, Some dts =>
      d ≠ 0 ∧ mark_ok mgr u d dts ∧ (is_Some (active_txns mgr !! created_by v) → d = created_by v)
  | _, _ => False
  end.

Record mvcc_inv (k : Z) (db : Db) : Prop := {
  mv_tm : tm_inv k (tm db);
  mv_rel : ∃ m, store_rel (store db) m;
  mv_ver : ∀ key c, chain_of (store db) key = Some c → Forall (ver_ok (tm db) (undo db)) c;
  mv_undo : ∀ t, t ∈ undo db → is_Some (active_txns (tm db) !! t);
}.

Implicit Types (mgr : TransactionManager) (u : gset Z) (v : VersionedTuple T).
Implicit Types (vs : VersionStore T) (c : list (VersionedTuple T)).

(** The parts of the manager that marks depend on. *)
Definition same_core mgr mgr' : Prop :=
  active_txns mgr' = active_txns mgr ∧ committed_txns mgr' = committed_txns mgr ∧
  next_txn_id mgr' = next_txn_id mgr ∧ next_timestamp mgr' = next_timestamp mgr.

Lemma same_core_write t key mgr : same_core mgr (ssi_record_write t table key mgr).
Proof. unfold ssi_record_write. by case_match. Qed.
Lemma same_core_read t key mgr : same_core mgr (ssi_record_read t table key mgr).
Proof. unfold ssi_record_read. by case_match. Qed.
Lemma same_core_scan t mgr : same_core mgr (ssi_record_predicate t table mgr).
Proof. unfold ssi_record_predicate. by case_match. Qed.

Lemma mark_ok_core mgr mgr' u u' (c ts : Z) :
  same_core mgr mgr' → u ⊆ u' → mark_ok mgr u c ts → mark_ok mgr' u' c ts.
Proof.
  intros (Ea & Ec & Ei & Et) Hu [Hw Ho Hid].
  split; rw ?Ea ?Ec ?Ei ?Et; try done. destruct Hw as [?|[(x & ? & ? & ?)|?]]; [by left| |by right; right].
  right. left. exists x. split_and!; [done..|set_solver].
Qed.

Lemma ver_ok_impl mgr mgr' u u' v :
  (∀ (c ts : Z), c = created_by v ∨ deleted_by v = Some c → mark_ok mgr u c ts → mark_ok mgr' u' c ts) →
  (is_Some (active_txns mgr' !! created_by v) → is_Some (active_txns mgr !! created_by v)) →
  ver_ok mgr u v → ver_ok mgr' u' v.
Proof.
  intros Hm Ha [Hc Hd]. split; [apply Hm; auto|].
  destruct (deleted_by v) as [d|], (deleted_ts v) as [dts|]; try done.
  destruct Hd as (? & ? & ?). split_and!; auto.
Qed.

Lemma mark_ok_begin k mgr u iso timeout now (c ts : Z) :
  k + 3 ≤ 2 ^ 64 → tm_inv k mgr → mark_ok mgr u c ts →
  mark_ok (begin_with_timeout iso timeout now mgr).1 u c ts.
Proof.
  intros Hk Htm [Hw Ho Hid]. destruct (fresh_id k mgr Htm) as [Hf _].
  pose proof (inv_ts _ _ Htm). pose proof (inv_id _ _ Htm).
  unfold begin_with_timeout. set (x := mkTransaction _ _ _ _ _ _ _ _).
  rw !(fetch_add_small k); [done|apply Htm|done|apply Htm|]. set (mgr1 := with_active _ _).
  assert (ts < next_timestamp mgr) as Hts.
  { destruct Hw as [[-> ->]|[(y & Hy & <- & _)|(_ & _ & ?)]]; [lia| |done].
    apply (inv_active _ _ Htm) in Hy. lia. }
  assert (mark_ok mgr1 u c ts) as Hm.
  { split; subst mgr1; cbn.
    - destruct Hw as [?|[(y & Hy & ? & ?)|(? & ? & ?)]]; [by left|right; left|right; right].
      + exists y. split_and!; [|done..]. rw lookup_insert_ne; [congruence|done].
      + split_and!; [done| |lia]. rw lookup_insert_ne; [lia|done].
    - intros t' y [[<- <-]|[Hne Hy]]%lookup_insert_Some Hct; [cbn; lia|by apply Ho].
    - lia. }
  case_bool_decide; [|done]. eapply mark_ok_core; [|reflexivity|exact Hm]. done.
Qed.

(** Transaction [t] leaves: its marks are gone, or it commits. *)
Lemma mark_ok_drop mgr mgr' u t (c ts : Z) :
  mark_ok mgr u c ts → c ≠ t →
  active_txns mgr' = base.delete t (active_txns mgr) → committed_txns mgr' = committed_txns mgr →
  next_txn_id mgr' = next_txn_id mgr → next_timestamp mgr' = next_timestamp mgr →
  mark_ok mgr' (u ∖ {[t]}) c ts.
Proof.
  intros [Hw Ho Hid] Hne Ea Ec Ei Et. split; rw ?Ea ?Ec ?Ei ?Et; [| |done].
  - destruct Hw as [?|[(y & Hy & ? & ?)|(? & ? & ?)]]; [by left|right; left|right; right].
    + exists y. rw lookup_delete_ne; [congruence|]. split_and!; [done..|set_solver].
    + split_and!; [done| |done]. by apply lookup_delete_None; right.
  - intros t' y [? Hy]%lookup_delete_Some. by apply Ho.
Qed.

Lemma mark_ok_publish k mgr mgr' u t x (c ts : Z) :
  tm_inv k mgr → mark_ok mgr u c ts → active_txns mgr !! t = Some x →
  active_txns mgr' = base.delete t (active_txns mgr) →
  committed_txns mgr' = <[t := next_timestamp mgr]> (committed_txns mgr) →
  next_txn_id mgr' = next_txn_id mgr → next_timestamp mgr' = next_timestamp mgr + 1 →
  mark_ok mgr' (u ∖ {[t]}) c ts.
Proof.
  intros Htm [Hw Ho Hid] Hx Ea Ec Ei Et. split; rw ?Ea ?Ec ?Ei ?Et; [| |done].
  - destruct (decide (c = t)) as [->|Hne].
    + pose proof (inv_active _ _ Htm _ _ Hx). destruct Hw as [[-> _]|[(y & Hy & <- & _)|(_ & ? & _)]].
      * lia.
      * right. right. rw lookup_insert_eq lookup_delete_eq. simplify_eq. split; [by eexists|]. split; [done|lia].
      * congruence.
    + destruct Hw as [?|[(y & Hy & ? & ?)|(? & ? & ?)]]; [by left|right; left|right; right].
      * exists y. rw lookup_delete_ne; [congruence|]. split_and!; [done..|set_solver].
      * rw lookup_insert_ne; [congruence|]. split_and!; [done| |lia].
        by apply lookup_delete_None; right.
  - intros t' y [? Hy]%lookup_delete_Some. by apply Ho.
Qed.

(** ** Preservation *)

Lemma chain_step vs o t key (c' : list (VersionedTuple T)) :
  (∃ m, store_rel vs m) → op_txn o = Some t → chain_of (vstep vs o) key = Some c' →
  (key = op_key o ∧ c' = spec_chain o (default [] (chain_of vs key))) ∨ chain_of vs key = Some c'.
Proof.
  intros [m Hrel] Ho Hc. rw (rel_chain _ _ (store_rel_step _ _ o Hrel)) in Hc.
  rw (lookup_spec_step _ _ _ _ Ho) in Hc. rw (rel_chain _ _ Hrel).
  case_decide; [left|by right]. split; [done|].
  destruct (spec_chain o (default [] (m !! key))); [done|]. cbn in Hc. by simplify_eq.
Qed.

Lemma chain_step_Forall (P : VersionedTuple T → Prop) vs o t :
  (∃ m, store_rel vs m) → op_txn o = Some t →
  (∀ key c, chain_of vs key = Some c → Forall P c) →
  (∀ c, Forall P c → Forall P (spec_chain o c)) →
  ∀ key c, chain_of (vstep vs o) key = Some c → Forall P c.
Proof.
  intros Hrel Ho Hvs Hsc key c Hc.
  destruct (chain_step _ _ _ _ _ Hrel Ho Hc) as [[_ ->]|Hold]; [|by apply (Hvs key)].
  apply Hsc. destruct (chain_of vs key) as [c'|] eqn:Hk; [by apply (Hvs key)|by constructor].
Qed.

Lemma rel_step vs o : (∃ m : gmap (list Z) (list (VersionedTuple T)), store_rel vs m) →
  ∃ m, store_rel (vstep vs o) m.
Proof. intros [m Hm]. exists (spec_step m o). by apply store_rel_step. Qed.

Section active.
Context (k : Z) (mgr : TransactionManager) (Htm : tm_inv k mgr).

Lemma concurrent_active t x (c : Z) y :
  active_txns mgr !! t = Some x → active_txns mgr !! c = Some y → c ≠ t →
  c ∈ snapshot_active x ∨ start_ts x < start_ts y.
Proof using Htm.
  intros Hx Hy Hne. destruct (decide (c < t)).
  - left. exact (inv_concurrent _ _ Htm _ _ _ _ Hy Hx ltac:(done)).
  - right. apply (inv_order _ _ Htm _ _ _ _ Hx Hy). lia.
Qed.

Lemma mark_ok_self u t x :
  active_txns mgr !! t = Some x → t ∈ u → mark_ok mgr u t (start_ts x).
Proof using Htm.
  intros Hx Hu. pose proof (inv_active _ _ Htm _ _ Hx). split; [|..|lia].
  - right. left. by exists x.
  - intros t' y Hy Hne. destruct (decide (t < t')).
    + pose proof (inv_order _ _ Htm _ _ _ _ Hx Hy ltac:(done)). lia.
    + pose proof (inv_order _ _ Htm _ _ _ _ Hy Hx ltac:(lia)). lia.
Qed.

Lemma mark_ok_base u : mark_ok mgr u 0 0.
Proof using Htm.
  split; [by left| |pose proof (inv_id _ _ Htm); lia].
  intros t' y Hy _. apply (inv_active _ _ Htm) in Hy. lia.
Qed.

Lemma ver_ok_fresh u t x row :
  active_txns mgr !! t = Some x → t ∈ u → ver_ok mgr u (fresh_version row t (start_ts x)).
Proof using Htm. intros. split; [by apply mark_ok_self|done]. Qed.

(** A version whose write is not stale was not created by another active
    transaction. *)
Lemma not_stale_own u t x v :
  active_txns mgr !! t = Some x → ver_ok mgr u v →
  stale_write v t (start_ts x) (snapshot_active x) = false →
  is_Some (active_txns mgr !! created_by v) → created_by v = t.
Proof using Htm.
  intros Hx [[Hw _ _] _] Hs [y Hy]. destruct (decide (created_by v = t)) as [|Hne]; [done|].
  exfalso. destruct Hw as [[H0 _]|[(y' & Hy' & Hst & _)|(_ & ? & _)]]; [| |congruence].
  { apply (inv_active _ _ Htm) in Hy. lia. }
  unfold stale_write in Hs. rw (proj2 (Z.eqb_neq _ _) Hne) in Hs. cbn in Hs.
  destruct (concurrent_active _ _ _ _ Hx Hy' Hne) as [Hin|Hlt].
  - unfold contains in Hs. by rw bool_decide_eq_true_2 in Hs.
  - destruct (contains _ _); [done|]. rw Hst in Hlt. by rw (proj2 (Z.ltb_lt _ _) Hlt) in Hs.
Qed.

(** The operations of an active transaction keep the versions well formed. *)
Lemma ver_ok_update u t x key row c :
  active_txns mgr !! t = Some x → t ∈ u → Forall (ver_ok mgr u) c →
  Forall (ver_ok mgr u) (spec_chain (VTryUpdate key row t (start_ts x) (start_ts x) (snapshot_active x)) c).
Proof using Htm.
  intros Hx Hu Hc. cbn [spec_chain]. case_match; [done|]. apply Forall_app. split; [done|].
  constructor; [by apply ver_ok_fresh|constructor].
Qed.

Lemma ver_ok_delete u t x key c :
  active_txns mgr !! t = Some x → t ∈ u → Forall (ver_ok mgr u) c →
  Forall (ver_ok mgr u) (spec_chain (VTryDelete key t (start_ts x) (start_ts x) (snapshot_active x)) c).
Proof using Htm.
  intros Hx Hu Hc. cbn [spec_chain]. destruct (last c) as [v|] eqn:Hl; [|done].
  destruct (_ || _) eqn:Hb; [done|]. apply orb_false_iff in Hb as [Hs _].
  apply last_Some in Hl as [c' ->]. rw removelast_last.
  apply Forall_app in Hc as [Hc' Hv]. apply Forall_inv in Hv.
  apply Forall_app. split; [done|]. constructor; [|constructor].
  pose proof (inv_active _ _ Htm _ _ Hx). split; [by apply Hv|]. cbn. split_and!; [lia|by apply mark_ok_self|].
  intros Ha. symmetry. by apply (not_stale_own u t x v).
Qed.

Lemma ver_ok_base u key old c :
  Forall (ver_ok mgr u) c → Forall (ver_ok mgr u) (spec_chain (VEnsureBase key old) c).
Proof using Htm.
  intros Hc. cbn [spec_chain]. destruct c; [|done]. constructor; [|constructor].
  split; [apply mark_ok_base|done].
Qed.
End active.

Lemma ver_ok_grow mgr mgr' u u' v :
  same_core mgr mgr' → u ⊆ u' → ver_ok mgr u v → ver_ok mgr' u' v.
Proof.
  intros Hcore Hu. apply ver_ok_impl.
  - intros c ts _. by apply mark_ok_core.
  - by destruct Hcore as (-> & _).
Qed.

(** The invariant after a change of the store by an active transaction. *)
Lemma mvcc_inv_write k db mgr' vs' t x :
  mvcc_inv k db → active_txns (tm db) !! t = Some x → same_core (tm db) mgr' → tm_inv k mgr' →
  (∃ m, store_rel vs' m) →
  (∀ key c, chain_of vs' key = Some c → Forall (ver_ok (tm db) ({[t]} ∪ undo db)) c) →
  mvcc_inv k (mkDb mgr' vs' ({[t]} ∪ undo db)).
Proof.
  intros [Htm Hrel Hver Hund] Hx Hcore Htm' Hrel' Hver'. split; cbn; [done|done| |].
  - intros key c Hc. apply (Forall_impl _ _ _ (Hver' _ _ Hc)). intros v.
    apply ver_ok_grow; [done|reflexivity].
  - destruct Hcore as (-> & _). intros t'. rw elem_of_union elem_of_singleton.
    intros [->|?]; [by exists x|by apply Hund].
Qed.

Lemma get_snapshot_Ok t mgr sn :
  get_snapshot t mgr = Ok sn → ∃ x, active_txns mgr !! t = Some x ∧
    sn = mkSnapshot t (start_ts x) (snapshot_active x).
Proof. unfold get_snapshot. case_match; [|done]. intros [= <-]. eauto. Qed.

Lemma mvcc_inv_insert k t key row db : mvcc_inv k db → mvcc_inv k (insert_row t key row db).1.
Proof.
  intros Hinv. unfold insert_row. destruct (get_snapshot t (tm db)) as [sn|e] eqn:Hsn; [|done].
  apply get_snapshot_Ok in Hsn as (x & Hx & ->). cbn [fst sn_start_ts].
  pose proof (mv_tm _ _ Hinv) as Htm.
  apply (mvcc_inv_write k db _ _ t x); [done|done|apply same_core_write|by apply tm_inv_write|..].
  - exact (rel_step _ (VInsert key row t (start_ts x)) (mv_rel _ _ Hinv)).
  - apply (chain_step_Forall _ _ (VInsert key row t (start_ts x)) t); [apply Hinv|done| |].
    + intros key' c Hc. apply (Forall_impl _ _ _ (mv_ver _ _ Hinv _ _ Hc)). intros v.
      apply ver_ok_grow; [done|set_solver].
    + intros c Hc. cbn. apply Forall_app. split; [done|]. constructor; [|constructor].
      apply (ver_ok_fresh k); [done..|set_solver].
Qed.

(** A write statement: the base version, then the write itself. *)
Lemma mvcc_inv_base_then k t x key old o db mgr' :
  mvcc_inv k db → active_txns (tm db) !! t = Some x → op_txn o = Some t →
  same_core (tm db) mgr' → tm_inv k mgr' →
  (∀ c, Forall (ver_ok (tm db) ({[t]} ∪ undo db)) c →
        Forall (ver_ok (tm db) ({[t]} ∪ undo db)) (spec_chain o c)) →
  mvcc_inv k (mkDb mgr' (vstep (ensure_base key old (store db)) o) ({[t]} ∪ undo db)).
Proof.
  intros Hinv Hx Ho Hcore Htm' Hsc.
  pose proof (rel_step _ (VEnsureBase key old) (mv_rel _ _ Hinv)) as Hrel1.
  apply (mvcc_inv_write k db _ _ t x); [done..|by apply rel_step|].
  apply (chain_step_Forall _ _ o t); [done|done| |done].
  apply (chain_step_Forall _ _ (VEnsureBase key old) 0); [apply Hinv|done| |].
  - intros key' c Hc. apply (Forall_impl _ _ _ (mv_ver _ _ Hinv _ _ Hc)). intros v.
    apply ver_ok_grow; [done|set_solver].
  - intros c. apply (ver_ok_base k). apply Hinv.
Qed.

Lemma mvcc_inv_update k t key old row db : mvcc_inv k db → mvcc_inv k (update_row t key old row db).1.
Proof.
  intros Hinv. unfold update_row. destruct (get_snapshot t (tm db)) as [sn|e] eqn:Hsn; [|done].
  apply get_snapshot_Ok in Hsn as (x & Hx & ->). cbn [sn_start_ts sn_active_txns].
  pose proof (mv_tm _ _ Hinv) as Htm.
  set (o := VTryUpdate key row t (start_ts x) (start_ts x) (snapshot_active x)).
  assert (∀ mgr', same_core (tm db) mgr' → tm_inv k mgr' →
    mvcc_inv k (mkDb mgr' (vstep (ensure_base key old (store db)) o) ({[t]} ∪ undo db))) as Hstep.
  { intros mgr' Hc Ht. apply (mvcc_inv_base_then k t x); try done.
    intros c. apply (ver_ok_update k); [done..|set_solver]. }
  unfold vstep, o in Hstep. destruct (try_update _ _ _ _ _ _ _) as [vs2 [[]|e]]; cbn [fst] in *.
  - apply Hstep; [apply same_core_write|by apply tm_inv_write].
  - by apply Hstep.
Qed.

Lemma mvcc_inv_delete k t key old db : mvcc_inv k db → mvcc_inv k (delete_row t key old db).1.
Proof.
  intros Hinv. unfold delete_row. destruct (get_snapshot t (tm db)) as [sn|e] eqn:Hsn; [|done].
  apply get_snapshot_Ok in Hsn as (x & Hx & ->). cbn [sn_start_ts sn_active_txns].
  pose proof (mv_tm _ _ Hinv) as Htm.
  set (o := VTryDelete key t (start_ts x) (start_ts x) (snapshot_active x) : vop (T := T)).
  assert (∀ mgr', same_core (tm db) mgr' → tm_inv k mgr' →
    mvcc_inv k (mkDb mgr' (vstep (ensure_base key old (store db)) o) ({[t]} ∪ undo db))) as Hstep.
  { intros mgr' Hc Ht. apply (mvcc_inv_base_then k t x); try done.
    intros c. apply (ver_ok_delete k); [done..|set_solver]. }
  unfold vstep, o in Hstep. destruct (try_delete _ _ _ _ _ _) as [vs2 [b|e]]; cbn [fst] in *.
  - apply Hstep; [apply same_core_write|by apply tm_inv_write].
  - by apply Hstep.
Qed.

Lemma chain_rollback vs t key :
  (∃ m : gmap (list Z) (list (VersionedTuple T)), store_rel vs m) →
  chain_of (rollback_txn t vs) key = chain_of vs key ≫= λ c, retained (rollback_chain t c).
Proof.
  intros [m Hrel]. rw (rel_chain _ _ (store_rel_step _ _ (VRollback t) Hrel)).
  cbn [spec_step]. unfold retain_map. rw lookup_omap. by rw (rel_chain _ _ Hrel).
Qed.

Lemma rollback_ver_ok mgr mgr' u t c :
  Forall (ver_ok mgr u) c → t ≠ 0 →
  active_txns mgr' = base.delete t (active_txns mgr) → committed_txns mgr' = committed_txns mgr →
  next_txn_id mgr' = next_txn_id mgr → next_timestamp mgr' = next_timestamp mgr →
  Forall (ver_ok mgr' (u ∖ {[t]})) (rollback_chain t c).
Proof.
  intros Hc Ht Ea Ec Ei Et. unfold rollback_chain. apply Forall_forall.
  intros v [Hcr (v0 & -> & Hin)%list_elem_of_fmap]%list_elem_of_filter.
  rw Forall_forall in Hc. specialize (Hc _ Hin). unfold undelete in *. case_bool_decide as Hd; cbn in *.
  - destruct Hc as [Hm _]. split; cbn; [|done]. by apply (mark_ok_drop mgr).
  - apply (ver_ok_impl mgr _ u); [| |done].
    + intros c' ts Hwho Hm. apply (mark_ok_drop mgr); try done. destruct Hwho as [->|?]; congruence.
    + rw Ea. intros [y [_ ?]%lookup_delete_Some]. by exists y.
Qed.

(** Ending transaction [t] without committing it: the rollback of the store
    and its removal from the active transactions. *)
Lemma mvcc_inv_end k db mgr' t :
  mvcc_inv k db → tm_inv k mgr' → t ≠ 0 →
  active_txns mgr' = base.delete t (active_txns (tm db)) →
  committed_txns mgr' = committed_txns (tm db) → next_txn_id mgr' = next_txn_id (tm db) →
  next_timestamp mgr' = next_timestamp (tm db) →
  mvcc_inv k (rollback_txn_effects t (mkDb mgr' (store db) (undo db))).
Proof.
  intros Hinv Htm' Ht Ea Ec Ei Et. unfold rollback_txn_effects. cbn [undo tm store].
  pose proof (mv_undo _ _ Hinv) as Hund. case_bool_decide as Hin.
  - split; cbn; [done|exact (rel_step _ (VRollback t) (mv_rel _ _ Hinv))| |].
    + intros key c. rw chain_rollback; [apply Hinv|].
      destruct (chain_of (store db) key) as [c0|] eqn:Hc0; [|done]. cbn.
      destruct (rollback_chain t c0) as [|v0 c1] eqn:Hrb; [done|]. cbn. intros [= <-]. rw -Hrb.
      apply (rollback_ver_ok (tm db)); try done. exact (mv_ver _ _ Hinv _ _ Hc0).
    + rw Ea. intros t' [Hin' Hne%not_elem_of_singleton]%elem_of_difference.
      rw lookup_delete_ne; [congruence|by apply Hund].
  - split; cbn; [done|apply Hinv| |].
    + intros key c Hc. apply (Forall_impl _ _ _ (mv_ver _ _ Hinv _ _ Hc)). intros v.
      apply ver_ok_impl; [|rw Ea; intros [y [_ ?]%lookup_delete_Some]; by exists y].
      intros c' ts Hwho Hm. replace (undo db) with (undo db ∖ {[t]}) by set_solver.
      destruct (decide (c' = t)) as [->|Hne]; [|by apply (mark_ok_drop (tm db))].
      destruct Hm as [[[-> _]|[(x & _ & _ & ?)|(? & ? & ?)]] Ho Hid]; [done..|].
      split; rw ?Ea ?Ec ?Ei ?Et; [|intros t' y [_ ?]%lookup_delete_Some; by apply Ho|done].
      right. right. split_and!; [done| |done]. by apply lookup_delete_None; left.
    + rw Ea. intros t' Hin'. rw lookup_delete_ne; [congruence|by apply Hund].
Qed.

Lemma mvcc_inv_core k db mgr' :
  mvcc_inv k db → same_core (tm db) mgr' → tm_inv k mgr' → mvcc_inv k (mkDb mgr' (store db) (undo db)).
Proof.
  intros [Htm Hrel Hver Hund] Hcore Htm'. split; cbn; [done|done| |].
  - intros key c Hc. apply (Forall_impl _ _ _ (Hver _ _ Hc)). intros v.
    by apply ver_ok_grow.
  - by destruct Hcore as (-> & _).
Qed.

Lemma mvcc_inv_mono k k' db : mvcc_inv k db → k ≤ k' → mvcc_inv k' db.
Proof. intros [] Hk. split; try done. by apply (tm_inv_mono k). Qed.

(** A transaction that is not active has nothing to roll back. *)
Lemma rollback_inactive k t db mgr' :
  mvcc_inv k db → active_txns (tm db) !! t = None →
  rollback_txn_effects t (mkDb mgr' (store db) (undo db)) = mkDb mgr' (store db) (undo db).
Proof.
  intros Hinv Hn. unfold rollback_txn_effects. cbn. rw bool_decide_eq_false_2; [|done].
  intros [x Hx]%(mv_undo _ _ Hinv). congruence.
Qed.

Lemma active_pos k t x db : mvcc_inv k db → active_txns (tm db) !! t = Some x → t ≠ 0.
Proof. intros Hinv Hx. pose proof (inv_active _ _ (mv_tm _ _ Hinv) _ _ Hx). lia. Qed.

Lemma mvcc_inv_commit k t db :
  k + 3 ≤ 2 ^ 64 → mvcc_inv k db → mvcc_inv (k + 1) (commit_txn t db).1.
Proof.
  intros Hk Hinv. pose proof (mv_tm _ _ Hinv) as Htm.
  pose proof (commit_core k t (tm db) Hk Htm) as Hc. pose proof (tm_inv_commit k t (tm db) Hk Htm) as Htm'.
  assert (mvcc_inv (k + 1) db) as Hinv' by (apply (mvcc_inv_mono k); [done|lia]).
  unfold commit_txn. destruct (commit t (tm db)) as [mgr' [ts|e]]; cbn [fst snd] in *.
  - destruct Hc as (x & Hx & _ & -> & Ea & Ec & Ei & Et). split; cbn; [done|apply Hinv| |].
    + intros key c Hc. apply (Forall_impl _ _ _ (mv_ver _ _ Hinv _ _ Hc)). intros v.
      apply ver_ok_impl; [|rw Ea; intros [y [_ ?]%lookup_delete_Some]; by exists y].
      intros c' ts _ Hm. by apply (mark_ok_publish k (tm db) _ _ t x).
    + intros t' [Hin Hne%not_elem_of_singleton]%elem_of_difference. rw Ea lookup_delete_ne; [congruence|].
      by apply Hinv.
  - destruct Hc as [(_ & Hn & ->)|(_ & Hab & Ea & Ec & Ei & Et)].
    + rw (rollback_inactive k); [done|done|]. by destruct db.
    + destruct (active_txns (tm db) !! t) as [x|] eqn:Hx.
      * apply mvcc_inv_end; try done. by apply (active_pos k t x db).
      * rw (rollback_inactive k); [done|done|]. apply mvcc_inv_core; [done| |done].
        rw delete_id in Ea; done.
Qed.

Lemma mvcc_inv_rollback k t db : mvcc_inv k db → mvcc_inv k (rollback t db).1.
Proof.
  intros Hinv. pose proof (mv_tm _ _ Hinv) as Htm.
  pose proof (tm_inv_abort k t (tm db) Htm) as Htm'.
  destruct (abort_core t (tm db)) as (Ea & Ec & Ei & Et).
  assert ((rollback t db).1 = rollback_txn_effects t (mkDb (abort t (tm db)).1 (store db) (undo db))) as ->.
  { unfold rollback, rollback_txn_effects. cbn [undo tm store].
    case_bool_decide; cbn [undo tm store]; by destruct (abort t (tm db)). }
  destruct (active_txns (tm db) !! t) as [x|] eqn:Hx.
  - apply mvcc_inv_end; try done. by apply (active_pos k t x db).
  - rw (rollback_inactive k); [done|done|]. apply mvcc_inv_core; [done| |done].
    rw delete_id in Ea; done.
Qed.

Lemma mvcc_inv_step k o db : k + 3 ≤ 2 ^ 64 → mvcc_inv k db → mvcc_inv (k + 1) (mstep db o).
Proof.
  intros Hk Hinv. pose proof (mv_tm _ _ Hinv) as Htm. destruct o; cbn [mstep].
  - destruct Hinv as [_ Hrel Hver Hund]. split; cbn; [by apply tm_inv_begin|done| |].
    + intros key c Hc. apply (Forall_impl _ _ _ (Hver _ _ Hc)). intros v [Hm Hd].
      assert (mark_ok (begin_with_timeout iso timeout now (tm db)).1 (undo db) (created_by v) (created_ts v))
        as Hm' by by apply (mark_ok_begin k).
      revert Hm Hd. intros Hm Hd. split; [done|].
      destruct (deleted_by v) as [d|], (deleted_ts v) as [dts|]; try done.
      destruct Hd as (? & Hmd & Ha). split_and!; [done|by apply (mark_ok_begin k)|].
      intros Hact. apply Ha. pose proof (mk_id _ _ _ _ Hm). unfold begin_with_timeout in Hact.
      case_bool_decide; cbn in Hact; (rw lookup_insert_ne in Hact; [lia|done]).
    + intros t' Hin. destruct (Hund _ Hin) as [x Hx]. destruct (fresh_id k _ Htm) as [Hf _].
      unfold begin_with_timeout. exists x.
      case_bool_decide; cbn; (rw lookup_insert_ne; [congruence|done]).
  - apply (mvcc_inv_mono k); [|lia]. by apply mvcc_inv_insert.
  - apply (mvcc_inv_mono k); [|lia]. by apply mvcc_inv_update.
  - apply (mvcc_inv_mono k); [|lia]. by apply mvcc_inv_delete.
  - apply (mvcc_inv_mono k); [|lia]. apply mvcc_inv_core; [done|apply same_core_read|by apply tm_inv_read].
  - apply (mvcc_inv_mono k); [|lia]. apply mvcc_inv_core; [done|apply same_core_scan|by apply tm_inv_scan].
  - by apply mvcc_inv_commit.
  - apply (mvcc_inv_mono k); [|lia]. by apply mvcc_inv_rollback.
Qed.

Lemma mvcc_inv_run ops : zlen ops + 2 ≤ 2 ^ 64 → mvcc_inv (zlen ops) (mrun ops).
Proof.
  induction ops as [|o ops IH] using rev_ind; intros Hk.
  - split; cbn; [apply tm_inv_new|exists ∅; apply store_rel_new| |set_solver].
    intros key c Hc. rw (rel_chain _ _ store_rel_new) in Hc. by rw lookup_empty in Hc.
  - unfold mrun. rw zlen_app zlen_cons zlen_nil in Hk |- *. rw foldl_snoc.
    apply mvcc_inv_step; [lia|]. apply IH. lia.
Qed.

(** ** Visibility *)

Section reader.
Context (k : Z) (mgr : TransactionManager) (Htm : tm_inv k mgr).
Context (r : Z) (x : Transaction) (Hr : active_txns mgr !! r = Some x).

Local Abbreviation visible v := (is_visible v r (start_ts x) (snapshot_active x)).

Lemma before_iff u (c ts : Z) :
  mark_ok mgr u c ts → c ≠ r →
  c ∉ snapshot_active x ∧ ts ≤ start_ts x ↔ committed_before mgr (start_ts x) c.
Proof using Htm Hr.
  intros [Hw Ho _] Hne. destruct (Ho _ _ Hr Hne) as [Hord Hneq].
  destruct (inv_active _ _ Htm _ _ Hr) as (_ & _ & _ & Hid & Hst & Hsn). rw Forall_forall in Hsn.
  destruct Hw as [[-> ->]|[(y & Hy & Hyts & _)|([ct Hct] & Hn & _)]].
  - split; [by left|]. intros _. split; [|lia]. intros Hin%Hsn. lia.
  - split.
    + intros [Hni Hle]. exfalso. destruct (concurrent_active k mgr Htm _ _ _ _ Hr Hy Hne); [done|lia].
    + intros [->|(ct & Hct & _)].
      * apply (inv_active _ _ Htm) in Hy. lia.
      * apply (inv_committed _ _ Htm) in Hct as (_ & _ & ?). congruence.
  - destruct (inv_before _ _ Htm _ _ _ _ Hct Hr) as [_ Hb]. split.
    + intros [Hni Hle]. right. exists ct. split; [done|]. apply Hb. split; [|done]. apply Hord. lia.
    + intros [->|(ct' & Hct' & Hlt)].
      * apply (inv_committed _ _ Htm) in Hct. lia.
      * simplify_eq. apply Hb in Hlt as [Hlt Hni]. split; [done|]. apply Hord in Hlt. lia.
Qed.

Lemma visible_spec u v :
  ver_ok mgr u v →
  visible v = true ↔
    (created_by v = r ∧ (deleted_by v = None ∨ deleted_by v = Some r)) ∨
    (created_by v ≠ r ∧ committed_before mgr (start_ts x) (created_by v) ∧
     ∀ d, deleted_by v = Some d → d ≠ r ∧ ¬ committed_before mgr (start_ts x) d).
Proof using Htm Hr.
  intros [Hm Hd]. unfold is_visible. destruct (Z.eqb_spec (created_by v) r) as [Hc|Hc].
  - rw orb_true_iff !bool_decide_eq_true. naive_solver.
  - pose proof (before_iff u _ _ Hm Hc) as Hbc. unfold contains.
    destruct (bool_decide_reflect (created_by v ∈ snapshot_active x)) as [Hin|Hin]; [naive_solver|].
    destruct (Z.ltb_spec (start_ts x) (created_ts v)) as [Hlt|Hle].
    { split; [done|]. intros [[]|(_ & Hcb & _)]; [done|]. apply Hbc in Hcb. lia. }
    assert (committed_before mgr (start_ts x) (created_by v)) as Hcb by (apply Hbc; split; [done|lia]).
    destruct (deleted_by v) as [d|], (deleted_ts v) as [dts|]; try done; [|naive_solver].
    destruct Hd as (Hd0 & Hmd & _). destruct (Z.eqb_spec d r) as [->|Hdr]; [naive_solver|].
    pose proof (before_iff u _ _ Hmd Hdr) as Hbd.
    destruct (bool_decide_reflect (d ∈ snapshot_active x)) as [Hdin|Hdin]; cbn.
    + split; [|done]. intros _. right. split_and!; [done|done|]. intros d' [= <-]. naive_solver.
    + destruct (Z.leb_spec dts (start_ts x)); cbn.
      * split; [done|]. intros [[]|(_ & _ & Hn)]; [done|]. destruct (Hn d) as [_ Hnb]; [done|].
        destruct Hnb. by apply Hbd.
      * split; [|done]. intros _. right. split_and!; [done|done|]. intros d' [= <-].
        split; [done|]. intros [_ ?]%Hbd. lia.
Qed.

(** What an active transaction other than the reader leaves is invisible. *)
Lemma other_created t y v :
  active_txns mgr !! t = Some y → t ≠ r → created_by v = t → created_ts v = start_ts y →
  visible v = false.
Proof using Htm Hr.
  intros Hy Hne Hc Hts. unfold is_visible, contains. rw Hc Hts (proj2 (Z.eqb_neq t r) Hne).
  destruct (concurrent_active k mgr Htm _ _ _ _ Hr Hy Hne) as [Hin|Hlt].
  - by rw bool_decide_eq_true_2.
  - rw (proj2 (Z.ltb_lt _ _) Hlt). by case_match.
Qed.

Lemma other_deleted t y v v' :
  active_txns mgr !! t = Some y → t ≠ r → created_by v ≠ r →
  created_by v' = created_by v → created_ts v' = created_ts v →
  deleted_by v = Some t → deleted_ts v = Some (start_ts y) →
  (deleted_by v' = None ∨ (deleted_by v' = Some t ∧ deleted_ts v' = Some (start_ts y))) →
  visible v' = visible v.
Proof using Htm Hr.
  intros Hy Hne Hcr Ec Et Hd Hdts Hd'. unfold is_visible. rw Ec Et (proj2 (Z.eqb_neq _ r) Hcr).
  destruct Hd' as [->|[-> ->]]; rw Hd Hdts; [|done].
  destruct (contains _ (created_by v)); [done|]. destruct (_ <? created_ts v); [done|].
  rw (proj2 (Z.eqb_neq t r) Hne). unfold contains.
  destruct (concurrent_active k mgr Htm _ _ _ _ Hr Hy Hne) as [Hin|Hlt].
  - by rw (bool_decide_eq_true_2 (t ∈ snapshot_active x)).
  - case_match; [|done]. cbn. symmetry. apply negb_true_iff, Z.leb_gt. lia.
Qed.
End reader.

(** The rows of a chain that a snapshot sees, oldest first. *)
Definition visible_rows (r sts : Z) (active : list Z) c : list T :=
  data <$> filter (λ v, is_visible v r sts active = true) c.

Lemma newest_visible_last r sts active c :
  newest_visible r sts active c = last (visible_rows r sts active c).
Proof.
  unfold newest_visible, visible_rows. rw fmap_last.
  induction c as [|v c IH] using rev_ind; [done|]. rw reverse_snoc filter_app. cbn [list_find].
  case_decide as Hv.
  - rw filter_cons_True; [done|]. by rw filter_nil last_snoc.
  - rw filter_cons_False; [done|]. rw filter_nil app_nil_r -IH.
    by destruct (list_find _ (reverse c)) as [[]|].
Qed.

Lemma visible_rows_app r sts active c1 c2 :
  visible_rows r sts active (c1 ++ c2) = visible_rows r sts active c1 ++ visible_rows r sts active c2.
Proof. unfold visible_rows. by rw filter_app fmap_app. Qed.

Lemma visible_rows_single r sts active v :
  visible_rows r sts active [v] = if is_visible v r sts active then [data v] else [].
Proof.
  unfold visible_rows. destruct (is_visible v r sts active) eqn:Hv.
  - by rw filter_cons_True.
  - rw filter_cons_False; [congruence|done].
Qed.

(** ** The statements of other transactions do not change what a snapshot sees *)

Section others.
Context (k : Z) (mgr : TransactionManager) (u : gset Z) (Htm : tm_inv k mgr).
Context (r : Z) (x : Transaction) (Hr : active_txns mgr !! r = Some x).
Context (t : Z) (y : Transaction) (Ht : active_txns mgr !! t = Some y) (Hne : t ≠ r).

Local Abbreviation rows c := (visible_rows r (start_ts x) (snapshot_active x) c).

Lemma rows_append row c : rows (c ++ [fresh_version row t (start_ts y)]) = rows c.
Proof using Htm Hr Ht Hne.
  rw visible_rows_app visible_rows_single.
  rw (other_created k mgr Htm r x Hr t y); [done..|]. apply app_nil_r.
Qed.

Lemma rows_update key row sts active c :
  rows (spec_chain (VTryUpdate key row t (start_ts y) sts active) c) = rows c.
Proof using Htm Hr Ht Hne. cbn [spec_chain]. case_match; [done|]. apply rows_append. Qed.

Lemma ver_ok_deleted_by v :
  ver_ok mgr u v → deleted_by v = Some t → deleted_ts v = Some (start_ts y) ∧ created_by v ≠ r.
Proof using Htm Hr Ht Hne.
  intros [_ Hd] E. rw E in Hd. destruct (deleted_ts v) as [dts|]; [|done].
  destruct Hd as (H0 & [[[? _]|[(y' & Hy' & <- & _)|(_ & ? & _)]] _ _] & Ha); [done| |congruence].
  split; [congruence|]. intros Hc. rw Hc in Ha. specialize (Ha ltac:(by exists x)). congruence.
Qed.

Lemma rows_delete key c :
  Forall (ver_ok mgr u) c →
  rows (spec_chain (VTryDelete key t (start_ts y) (start_ts y) (snapshot_active y)) c) = rows c.
Proof using Htm Hr Ht Hne.
  intros Hc. cbn [spec_chain]. destruct (last c) as [v|] eqn:Hl; [|done].
  destruct (_ || _) eqn:Hb; [done|]. apply orb_false_iff in Hb as [Hs Hd].
  apply last_Some in Hl as [c' ->]. rw removelast_last !visible_rows_app !visible_rows_single. f_equal.
  apply Forall_app in Hc as [_ Hv]. apply Forall_inv in Hv.
  assert (created_by v ≠ r) as Hcr.
  { intros Hcr. pose proof (not_stale_own k mgr Htm u t y v Ht Hv Hs ltac:(rw Hcr; by exists x)). congruence. }
  rw -(other_deleted k mgr Htm r x Hr t y (with_deleted t (start_ts y) v) v); try done.
  destruct (deleted_by v) as [d|] eqn:E; [right|by left]. cbn in Hd.
  apply negb_false_iff, Z.eqb_eq in Hd. subst d. split; [done|]. by apply ver_ok_deleted_by.
Qed.

Lemma rows_rollback c : Forall (ver_ok mgr u) c → rows (rollback_chain t c) = rows c.
Proof using Htm Hr Ht Hne.
  induction c as [|v c IH] using rev_ind; intros Hc; [done|].
  apply Forall_app in Hc as [Hc Hv]. apply Forall_inv in Hv.
  rw rollback_app !visible_rows_app (IH Hc). f_equal. unfold rollback_chain. cbn [fmap list_fmap].
  destruct (decide (created_by v = t)) as [Hct|Hct].
  - assert (created_by (undelete t v) = t) by (unfold undelete; by case_bool_decide).
    rw filter_cons_False; [tauto|]. rw visible_rows_single.
    destruct Hv as [[[[? _]|[(y' & Hy' & Hts & _)|(_ & ? & _)]] _ _] _]; [|..|congruence].
    + pose proof (inv_active _ _ Htm _ _ Ht). lia.
    + rw Hct Ht in Hy'. injection Hy' as <-. by rw (other_created k mgr Htm r x Hr t y v).
  - rw filter_cons_True; [by unfold undelete; case_bool_decide|]. rw filter_nil !visible_rows_single.
    unfold undelete. case_bool_decide as Hd; [|done]. cbn.
    destruct (ver_ok_deleted_by v Hv Hd) as [Hts Hcr].
    rw (other_deleted k mgr Htm r x Hr t y v); [done..|by left|done].
Qed.
End others.

(** ** Ending and beginning transactions leaves the other snapshots alone *)

Definition actor (o : mop) : option Z :=
  match o with
  | MBegin _ _ _ => None
  | MInsert t _ _ | MUpdate t _ _ _ | MDelete t _ _ | MRead t _ | MScan t | MCommit t | MRollback t =>
      Some t
  end.

Lemma active_others k db o r x :
  k + 3 ≤ 2 ^ 64 → mvcc_inv k db → actor o ≠ Some r → active_txns (tm db) !! r = Some x →
  active_txns (tm (mstep db o)) !! r = Some x.
Proof.
  intros Hk Hinv Hact Hx. pose proof (mv_tm _ _ Hinv) as Htm.
  assert (∀ mgr', same_core (tm db) mgr' → active_txns mgr' !! r = Some x) as Hcore
    by by intros mgr' (-> & _).
  destruct o as [iso timeout now|t key row|t key old row|t key old|t key|t|t|t]; cbn [mstep actor] in *.
  - destruct (fresh_id k _ Htm) as [Hf _]. unfold begin_with_timeout.
    case_bool_decide; cbn; (rw lookup_insert_ne; [congruence|done]).
  - unfold insert_row. case_match; [|done]. apply Hcore, same_core_write.
  - unfold update_row. case_match; [|done]. destruct (try_update _ _ _ _ _ _ _) as [vs [[]|e]]; [|done].
    apply Hcore, same_core_write.
  - unfold delete_row. case_match; [|done]. destruct (try_delete _ _ _ _ _ _) as [vs [b|e]]; [|done].
    apply Hcore, same_core_write.
  - apply Hcore, same_core_read.
  - apply Hcore, same_core_scan.
  - pose proof (commit_core k t (tm db) Hk Htm) as Hc. unfold commit_txn.
    destruct (commit t (tm db)) as [mgr' [ts|e]]; cbn [fst snd] in *.
    + destruct Hc as (? & _ & _ & _ & Ea & _). cbn. rw Ea lookup_delete_ne; [congruence|done].
    + unfold rollback_txn_effects. cbn.
      assert (active_txns mgr' !! r = Some x) as Hm; [|by case_bool_decide].
      destruct Hc as [(_ & _ & ->)|(_ & _ & Ea & _)]; [done|]. rw Ea lookup_delete_ne; [congruence|done].
  - destruct (abort_core t (tm db)) as (Ea & _). unfold rollback, rollback_txn_effects.
    case_bool_decide; cbn [tm]; destruct (abort t (tm db)); cbn in *;
      (rw Ea lookup_delete_ne; [congruence|done]).
Qed.

Lemma retained_newest r sts active c :
  retained c ≫= newest_visible r sts active = newest_visible r sts active c.
Proof. by destruct c. Qed.

Lemma get_visible_step vs o t key c r sts active :
  (∃ m, store_rel vs m) → op_txn o = Some t → chain_of vs key = Some c →
  visible_rows r sts active (spec_chain o c) = visible_rows r sts active c →
  get_visible key r sts active (vstep vs o) = newest_visible r sts active c.
Proof.
  intros [m Hrel] Ho Hc Hrows. unfold get_visible.
  pose proof (rel_chain _ _ (store_rel_step _ _ o Hrel) key) as Hk. unfold chain_of in Hk. rw Hk.
  rw (lookup_spec_step _ _ _ _ Ho). rw (rel_chain _ _ Hrel) in Hc. rw Hc. case_decide; [|done].
  rw retained_newest. cbn [default]. by rw !newest_visible_last Hrows.
Qed.

(** The chain is still there after the base version is ensured. *)
Lemma ensure_base_chain vs key key' old c :
  (∃ m, store_rel vs m) → chain_of vs key = Some c → chain_of (ensure_base key' old vs) key = Some c.
Proof.
  intros [m Hrel] Hc. pose proof (rel_chain _ _ (store_rel_step _ _ (VEnsureBase key' old) Hrel) key) as Hk.
  cbn [vstep] in Hk. rw Hk (lookup_spec_step _ _ 0); [done|]. rw (rel_chain _ _ Hrel) in Hc. rw Hc.
  case_decide; [|done]. destruct c; [|done]. by destruct (rel_full _ _ Hrel key).
Qed.

Lemma get_visible_chain vs key c r sts active :
  chain_of vs key = Some c → get_visible key r sts active vs = newest_visible r sts active c.
Proof. intros Hc. unfold get_visible, chain_of in *. by rw Hc. Qed.

(** The store after a statement of transaction [t] shows the reader [r] what
    it showed before. *)
Lemma get_visible_write k db t y r x key c o :
  mvcc_inv k db → active_txns (tm db) !! t = Some y → active_txns (tm db) !! r = Some x → t ≠ r →
  chain_of (store db) key = Some c →
  (∃ key' row, o = VInsert key' row t (start_ts y)) ∨
  (∃ key' row, o = VTryUpdate key' row t (start_ts y) (start_ts y) (snapshot_active y)) ∨
  (∃ key', o = VTryDelete key' t (start_ts y) (start_ts y) (snapshot_active y)) →
  ∀ vs, (∃ m, store_rel vs m) → chain_of vs key = Some c →
  get_visible key r (start_ts x) (snapshot_active x) (vstep vs o) =
  newest_visible r (start_ts x) (snapshot_active x) c.
Proof.
  intros Hinv Ht Hr Hne Hc Ho vs Hrel Hcv. pose proof (mv_tm _ _ Hinv) as Htm.
  pose proof (mv_ver _ _ Hinv _ _ Hc) as Hver.
  apply (get_visible_step vs o t); [done| |done|].
  - by destruct Ho as [(? & ? & ->)|[(? & ? & ->)|(? & ->)]].
  - destruct Ho as [(? & ? & ->)|[(? & ? & ->)|(? & ->)]].
    + by apply (rows_append k (tm db) Htm r x Hr t y).
    + by apply (rows_update k (tm db) Htm r x Hr t y).
    + by apply (rows_delete k (tm db) (undo db) Htm r x Hr t y).
Qed.

Lemma get_visible_rollback k db mgr' t r x key c :
  mvcc_inv k db → active_txns (tm db) !! r = Some x → t ≠ r → chain_of (store db) key = Some c →
  get_visible key r (start_ts x) (snapshot_active x)
    (store (rollback_txn_effects t (mkDb mgr' (store db) (undo db)))) =
  newest_visible r (start_ts x) (snapshot_active x) c.
Proof.
  intros Hinv Hr Hne Hc. unfold rollback_txn_effects. cbn [undo store tm].
  case_bool_decide as Hin; cbn [store]; [|by apply get_visible_chain].
  destruct (mv_undo _ _ Hinv _ Hin) as [y Ht]. unfold get_visible.
  pose proof (chain_rollback (store db) t key (mv_rel _ _ Hinv)) as Hk. unfold chain_of in Hk, Hc.
  rw Hk Hc. cbn [mbind option_bind]. rw retained_newest !newest_visible_last.
  f_equal. apply (rows_rollback k (tm db) (undo db) (mv_tm _ _ Hinv) r x Hr t y); [done..|].
  exact (mv_ver _ _ Hinv _ _ Hc).
Qed.

(** C13: Snapshots are stable. In every reachable state, no operation of another
    transaction (beginning, inserting, updating, deleting, committing, rolling
    back, whether it succeeds or fails) changes what an active transaction
    reads at a key that has versions. *)
Theorem snapshot_stable ops o r key :
  zlen ops + 3 ≤ 2 ^ 64 → is_active r (tm (mrun ops)) = true → actor o ≠ Some r →
  is_Some (chain_of (store (mrun ops)) key) →
  read_row r key (mstep (mrun ops) o) = read_row r key (mrun ops).
Proof.
  intros Hk Hr Hact [c Hc]. assert (mvcc_inv (zlen ops) (mrun ops)) as Hinv by (apply mvcc_inv_run; lia).
  set (db := mrun ops) in *. clearbody db. unfold is_active in Hr. apply bool_decide_eq_true in Hr as [x Hr].
  pose proof (active_others _ db o r x Hk Hinv Hact Hr) as Hr'.
  unfold read_row, get_snapshot. rw Hr Hr'. cbn [sn_start_ts sn_active_txns].
  rw (get_visible_chain (store db) _ _ _ _ _ Hc). pose proof (mv_rel _ _ Hinv) as Hrel.
  destruct o as [iso timeout now|t key' row|t key' old row|t key' old|t key'|t|t|t]; cbn [mstep actor] in *;
    try by apply get_visible_chain.
  - unfold insert_row. destruct (get_snapshot t (tm db)) as [sn|] eqn:Hsn; [|by apply get_visible_chain].
    apply get_snapshot_Ok in Hsn as (y & Ht & ->). cbn [fst store sn_start_ts].
    apply (get_visible_write _ db t y r x key c (VInsert key' row t (start_ts y)) Hinv); eauto. congruence.
  - unfold update_row. destruct (get_snapshot t (tm db)) as [sn|] eqn:Hsn; [|by apply get_visible_chain].
    apply get_snapshot_Ok in Hsn as (y & Ht & ->). cbn [sn_start_ts sn_active_txns].
    pose proof (get_visible_write _ db t y r x key c _ Hinv Ht Hr ltac:(congruence) Hc
      (or_intror (or_introl (ex_intro _ key' (ex_intro _ row eq_refl)))) (ensure_base key' old (store db))
      (rel_step _ (VEnsureBase key' old) Hrel) ltac:(by apply ensure_base_chain)) as Hg.
    cbn [vstep] in Hg. destruct (try_update _ _ _ _ _ _ _) as [vs [[]|e]]; exact Hg.
  - unfold delete_row. destruct (get_snapshot t (tm db)) as [sn|] eqn:Hsn; [|by apply get_visible_chain].
    apply get_snapshot_Ok in Hsn as (y & Ht & ->). cbn [sn_start_ts sn_active_txns].
    pose proof (get_visible_write _ db t y r x key c _ Hinv Ht Hr ltac:(congruence) Hc
      (or_intror (or_intror (ex_intro _ key' eq_refl))) (ensure_base key' old (store db))
      (rel_step _ (VEnsureBase key' old) Hrel) ltac:(by apply ensure_base_chain)) as Hg.
    cbn [vstep] in Hg. destruct (try_delete _ _ _ _ _ _) as [vs [b|e]]; exact Hg.
  - unfold commit_txn. destruct (commit t (tm db)) as [mgr' [ts|e]]; [by apply get_visible_chain|].
    cbn [fst]. apply (get_visible_rollback (zlen ops)); [done..|congruence|done].
  - pose proof (get_visible_rollback _ db (tm db) t r x key c Hinv Hr ltac:(congruence) Hc) as Hg.
    unfold rollback. destruct db as [mgr vs und]; cbn [tm store undo] in *.
    destruct (abort t _); exact Hg.
Qed.

(** C12: Visibility is snapshot visibility. In every reachable state, a version
    is visible to an active transaction [r] exactly when [r] created it and
    nobody else deleted it, or its creator committed before [r] began and it
    was deleted neither by [r] nor by a transaction that committed before [r]
    began. *)
Theorem visible_iff_committed_before ops r sn key c v :
  zlen ops + 2 ≤ 2 ^ 64 → get_snapshot r (tm (mrun ops)) = Ok sn →
  chain_of (store (mrun ops)) key = Some c → v ∈ c →
  let before := committed_before (tm (mrun ops)) (sn_start_ts sn) in
  is_visible v r (sn_start_ts sn) (sn_active_txns sn) = true ↔
    (created_by v = r ∧ (deleted_by v = None ∨ deleted_by v = Some r)) ∨
    (created_by v ≠ r ∧ before (created_by v) ∧
     ∀ d, deleted_by v = Some d → d ≠ r ∧ ¬ before d).
Proof.
  intros Hk (x & Hr & ->)%get_snapshot_Ok Hc Hv before.
  pose proof (mvcc_inv_run ops Hk) as Hinv.
  apply (visible_spec _ _ (mv_tm _ _ Hinv) r x Hr (undo (mrun ops))).
  pose proof (mv_ver _ _ Hinv _ _ Hc) as Hver. rw Forall_forall in Hver. by apply Hver.
Qed.

(** The test of [try_update] in terms of commits. *)
Lemma update_conflict_spec k mgr u t x v :
  tm_inv k mgr → active_txns mgr !! t = Some x → ver_ok mgr u v →
  update_conflict v t (start_ts x) (snapshot_active x) = true ↔
    (created_by v ≠ t ∧ ¬ committed_before mgr (start_ts x) (created_by v)) ∨
    (∃ d, deleted_by v = Some d ∧ d ≠ t ∧ ¬ committed_before mgr (start_ts x) d).
Proof.
  intros Htm Hx [Hm Hd].
  pose proof (λ Hne, before_iff k mgr Htm t x Hx u _ _ Hm Hne) as Hbc.
  assert (stale_write v t (start_ts x) (snapshot_active x) = true ↔
    (created_by v ≠ t ∧ (created_by v ∈ snapshot_active x ∨ start_ts x < created_ts v)) ∨
    (∃ dts, deleted_ts v = Some dts ∧ deleted_by v ≠ Some t ∧ start_ts x < dts)) as Hs.
  { unfold stale_write, contains. destruct (Z.eqb_spec (created_by v) t) as [E|E]; cbn.
    - destruct (deleted_ts v) as [dts|]; [|naive_solver].
      rw andb_true_iff negb_true_iff bool_decide_eq_false Z.ltb_lt. naive_solver.
    - destruct (bool_decide_reflect (created_by v ∈ snapshot_active x)); [naive_solver|].
      destruct (Z.ltb_spec (start_ts x) (created_ts v)); [naive_solver|].
      destruct (deleted_ts v) as [dts|].
      + rw andb_true_iff negb_true_iff bool_decide_eq_false Z.ltb_lt. split; [naive_solver|].
        intros [[_ [?|?]]|(? & [= <-] & ? & ?)]; [done|lia|done].
      + split; [done|]. intros [[_ [?|?]]|(? & ? & _)]; [done|lia|done]. }
  assert (created_by v ≠ t ∧ (created_by v ∈ snapshot_active x ∨ start_ts x < created_ts v) ↔
    created_by v ≠ t ∧ ¬ committed_before mgr (start_ts x) (created_by v)) as Hcr.
  { split; intros [Hne Hor]; (split; [done|]).
    - intros [? ?]%(Hbc Hne). destruct Hor; [done|lia].
    - destruct (decide (created_by v ∈ snapshot_active x)); [by left|]. right.
      destruct (decide (start_ts x < created_ts v)); [done|]. destruct Hor. apply (Hbc Hne). split; [done|lia]. }
  unfold update_conflict. destruct (deleted_by v) as [d|], (deleted_ts v) as [dts|]; try done.
  2: { rw Hs Hcr. naive_solver. }
  destruct Hd as (_ & Hmd & _). unfold contains.
  destruct (Z.eqb_spec d t) as [->|Hdt]; cbn.
  { rw Hs Hcr. naive_solver. }
  pose proof (before_iff k mgr Htm t x Hx u _ _ Hmd Hdt) as Hbd.
  destruct (bool_decide_reflect (d ∈ snapshot_active x)) as [Hin|Hin].
  - split; [|done]. intros _. right. exists d. split_and!; [done..|]. intros [? ?]%Hbd. done.
  - rw Hs Hcr. split; (intros [?|Hr]; [by left|right]).
    + destruct Hr as (dts' & [= <-] & ? & ?). exists d. split_and!; [done..|]. intros [? ?]%Hbd. lia.
    + destruct Hr as (d' & [= <-] & ? & Hnb). exists dts. split_and!; [done|congruence|].
      destruct (decide (start_ts x < dts)); [done|]. destruct Hnb. apply Hbd. split; [done|lia].
Qed.

Lemma ensure_base_same vs key old c key' :
  (∃ m, store_rel vs m) → chain_of vs key = Some c →
  chain_of (ensure_base key old vs) key' = chain_of vs key'.
Proof.
  intros [m Hrel] Hc. destruct (chain_of vs key') as [c'|] eqn:Hk'.
  { apply ensure_base_chain; [by exists m|done]. }
  rw (rel_chain _ _ Hrel) in Hk'. rw (rel_chain _ _ Hrel) in Hc.
  pose proof (rel_chain _ _ (store_rel_step _ _ (VEnsureBase key old) Hrel) key') as E. cbn [vstep] in E.
  rw E (lookup_spec_step _ _ 0); [done|]. rw decide_False; [|done]. cbn. congruence.
Qed.

Lemma try_update_effect vs key row t ts sts active c v :
  (∃ m, store_rel vs m) → chain_of vs key = Some c → last c = Some v →
  let '(vs', res) := try_update key row t ts sts active vs in
  if update_conflict v t sts active
  then res = Err WriteConflict ∧ ∀ key', chain_of vs' key' = chain_of vs key'
  else res = Ok () ∧ chain_of vs' key = Some (c ++ [fresh_version row t ts]).
Proof.
  intros [m Hrel] Hc Hl. set (o := VTryUpdate key row t ts sts active).
  pose proof (λ key', rel_chain _ _ (store_rel_step _ _ o Hrel) key') as Hch.
  assert (∀ key', spec_step m o !! key' =
    if decide (key' = key) then retained (spec_chain o c) else chain_of vs key') as Hsp.
  { intros key'. rw (lookup_spec_step _ _ t); [done|]. rw -(rel_chain _ _ Hrel). cbn [op_key o].
    case_decide; [subst; by rw Hc|done]. }
  subst o. cbn [vstep spec_chain] in *. unfold try_update in *. unfold chain_of in Hc.
  rw Hc in Hch |- *. cbn [default] in *. rw Hl in Hch Hsp |- *. cbn [from_option] in *.
  apply last_Some in Hl as [c0 ->].
  destruct (update_conflict v t sts active); cbn [fst] in *; (split; [done|]).
  - intros key'. rw Hch Hsp. case_decide; [|done]. subst. unfold chain_of. rw Hc. by destruct c0.
  - rw Hch Hsp decide_True; [done|]. by destruct c0.
Qed.

(** C14: First committer wins. In every reachable state, an [UPDATE] by an
    active transaction [t] of a key that has versions is refused with
    [WriteConflict] exactly when the newest version was created or deleted by
    another transaction that had not committed before [t] began; and then no
    version chain changes. *)
Theorem first_committer_wins ops t sn key old row c v :
  zlen ops + 2 ≤ 2 ^ 64 → get_snapshot t (tm (mrun ops)) = Ok sn →
  chain_of (store (mrun ops)) key = Some c → last c = Some v →
  let before := committed_before (tm (mrun ops)) (sn_start_ts sn) in
  let '(db', res) := update_row t key old row (mrun ops) in
  (res = Err WriteConflict ↔
     (created_by v ≠ t ∧ ¬ before (created_by v)) ∨
     (∃ d, deleted_by v = Some d ∧ d ≠ t ∧ ¬ before d)) ∧
  (res = Err WriteConflict → ∀ key', chain_of (store db') key' = chain_of (store (mrun ops)) key') ∧
  (res ≠ Err WriteConflict → res = Ok () ∧
     chain_of (store db') key = Some (c ++ [fresh_version row t (sn_start_ts sn)])).
Proof.
  intros Hk Hsn Hc Hl before. pose proof (mvcc_inv_run ops Hk) as Hinv. unfold update_row. rw Hsn.
  apply get_snapshot_Ok in Hsn as (x & Hx & ->). cbn [sn_start_ts sn_active_txns] in *.
  pose proof (mv_ver _ _ Hinv _ _ Hc) as Hver. pose proof (mv_rel _ _ Hinv) as Hrel.
  assert (ver_ok (tm (mrun ops)) (undo (mrun ops)) v) as Hv.
  { rw Forall_forall in Hver. apply Hver. apply last_Some in Hl as [c0 ->]. set_solver. }
  pose proof (update_conflict_spec _ _ _ t x v (mv_tm _ _ Hinv) Hx Hv) as Hspec.
  pose proof (λ key', ensure_base_same _ key old c key' Hrel Hc) as Hsame.
  pose proof (try_update_effect (ensure_base key old (store (mrun ops))) key row t (start_ts x) (start_ts x)
    (snapshot_active x) c v (rel_step _ (VEnsureBase key old) Hrel) ltac:(by rw Hsame) Hl) as Heff.
  destruct (try_update _ _ _ _ _ _ _) as [vs' res].
  destruct (update_conflict v t (start_ts x) (snapshot_active x)); destruct Heff as [-> Hch]; cbn.
  - split; [by rw -Hspec|]. split; [|done]. intros _ key'. by rw Hch Hsame.
  - split; [rw -Hspec; naive_solver|]. done.
Qed.

(** C27: The vacuum keeps what a snapshot needs, as far as it goes. In every
    reachable state, a version that is visible to an active transaction
    survives the pass, unless the transaction that deleted it was running when
    the reader began. *)
Theorem vacuum_keeps_visible ops r sn key c v :
  zlen ops + 2 ≤ 2 ^ 64 → get_snapshot r (tm (mrun ops)) = Ok sn →
  chain_of (store (mrun ops)) key = Some c → v ∈ c →
  is_visible v r (sn_start_ts sn) (sn_active_txns sn) = true →
  (∀ d, deleted_by v = Some d → d ∉ sn_active_txns sn) →
  ∃ c', chain_of (store (vacuum (mrun ops))) key = Some c' ∧ v ∈ c'.
Proof.
  intros Hk (x & Hr & ->)%get_snapshot_Ok Hc Hv Hvis Hdel. cbn [sn_start_ts sn_active_txns] in *.
  pose proof (mvcc_inv_run ops Hk) as Hinv. set (db := mrun ops) in *. clearbody db.
  pose proof (mv_ver _ _ Hinv _ _ Hc) as Hver. rw Forall_forall in Hver. specialize (Hver _ Hv).
  set (oldest := oldest_active_start_ts (tm db)).
  assert (oldest ≤ start_ts x) as Hold.
  { apply list_min_le, list_elem_of_fmap. exists x. split; [done|]. apply elem_of_hash_values. by exists r. }
  assert (gc_keep oldest [] v = true) as Hgc.
  { unfold gc_keep. cbn. destruct Hver as [_ Hd].
    destruct (deleted_by v) as [d|] eqn:Hdb, (deleted_ts v) as [dts|] eqn:Hdt; try done.
    apply negb_true_iff, Z.ltb_ge. trans (start_ts x); [done|]. destruct Hd as (_ & Hmd & _).
    destruct (decide (d = r)) as [->|Hdr].
    { destruct Hmd as [[[-> ->]|[(y & Hy & <- & _)|(_ & ? & _)]] _ _]; [|simplify_eq; lia|congruence].
      pose proof (inv_active _ _ (mv_tm _ _ Hinv) _ _ Hr). lia. }
    unfold is_visible, contains in Hvis. rw Hdb Hdt in Hvis. specialize (Hdel d eq_refl).
    rw (bool_decide_eq_false_2 (d ∈ _)) in Hvis; [done|]. rw (proj2 (Z.eqb_neq d r) Hdr) in Hvis. cbn in Hvis.
    destruct (created_by v =? r); [by rw bool_decide_eq_false_2 in Hvis; [congruence|]|].
    repeat case_match; try done. apply negb_true_iff, Z.leb_gt in Hvis. lia. }
  destruct (mv_rel _ _ Hinv) as [m Hrel].
  pose proof (rel_chain _ _ (store_rel_step _ _ (VGc oldest []) Hrel) key) as E. cbn [vstep spec_step] in E.
  unfold vacuum, run_once. fold oldest. cbn [vacuum_stores]. destruct (gc_with_aborted oldest [] (store db)) as [vs' st].
  cbn in E |- *. rw E. unfold retain_map. rw lookup_omap. rw (rel_chain _ _ Hrel) in Hc. rw Hc. cbn.
  assert (v ∈ gc_chain oldest [] c) as Hin by by apply list_elem_of_filter.
  exists (gc_chain oldest [] c). split; [|done]. by destruct (gc_chain oldest [] c); [apply not_elem_of_nil in Hin|].
Qed.

End mvcc.

(** ** Concrete runs *)

Definition key7 : list Z := [7].
Definition begin_rc : mop (T := Z) := MBegin ReadCommitted None 0.

(** Transaction 1 commits a row; 2 and 3 begin. *)
Definition committed_row : list (mop (T := Z)) :=
  [begin_rc; MInsert 1 key7 10; MCommit 1; begin_rc; begin_rc].

Local Abbreviation db0 := (mrun "t" committed_row).

Lemma snapshot_stable_witness :
  read_row 2 key7 (mstep "t" db0 (MUpdate 3 key7 10 11)) = read_row 2 key7 db0.
Proof.
  apply (snapshot_stable "t" committed_row (MUpdate 3 key7 10 11) 2 key7).
  - vm_compute; discriminate.
  - vm_compute; reflexivity.
  - discriminate.
  - exists [fresh_version 10 1 1]. vm_compute; reflexivity.
Defined.

Lemma visible_iff_committed_before_witness :
  is_visible (fresh_version 10 1 1) 2 3 [] = true ↔
    (1 = 2 ∧ (@None Z = None ∨ None = Some 2)) ∨
    (1 ≠ 2 ∧ committed_before (tm db0) 3 1 ∧
     ∀ d, None = Some d → d ≠ 2 ∧ ¬ committed_before (tm db0) 3 d).
Proof.
  apply (visible_iff_committed_before "t" committed_row 2 (mkSnapshot 2 3 []) key7 [fresh_version 10 1 1]
    (fresh_version 10 1 1)).
  - vm_compute; discriminate.
  - vm_compute; reflexivity.
  - vm_compute; reflexivity.
  - by apply list_elem_of_singleton.
Defined.

(** Transaction 2 has updated the row and 3 tries to. *)
Definition pending_update : list (mop (T := Z)) := committed_row ++ [MUpdate 2 key7 10 11].

Lemma first_committer_wins_witness :
  (update_row "t" 3 key7 10 12 (mrun "t" pending_update)).2 = Err WriteConflict ∧
  ∀ key', chain_of (store (update_row "t" 3 key7 10 12 (mrun "t" pending_update)).1) key' =
          chain_of (store (mrun "t" pending_update)) key'.
Proof.
  pose proof (first_committer_wins "t" pending_update 3 (mkSnapshot 3 4 [2]) key7 10 12
    [fresh_version 10 1 1; fresh_version 11 2 3] (fresh_version 11 2 3)
    ltac:(vm_compute; discriminate) ltac:(vm_compute; reflexivity) ltac:(vm_compute; reflexivity)
    ltac:(reflexivity)) as Hw.
  assert ((update_row "t" 3 key7 10 12 (mrun "t" pending_update)).2 = Err WriteConflict) as Hres
    by (vm_compute; reflexivity).
  destruct (update_row "t" 3 key7 10 12 (mrun "t" pending_update)) as [db' res].
  split; [exact Hres|]. exact (proj1 (proj2 Hw) Hres).
Defined.

Lemma vacuum_keeps_visible_witness :
  ∃ c', chain_of (store (vacuum db0)) key7 = Some c' ∧ fresh_version 10 1 1 ∈ c'.
Proof.
  apply (vacuum_keeps_visible "t" committed_row 2 (mkSnapshot 2 3 []) key7 [fresh_version 10 1 1]).
  - vm_compute; discriminate.
  - vm_compute; reflexivity.
  - vm_compute; reflexivity.
  - by apply list_elem_of_singleton.
  - vm_compute; reflexivity.
  - discriminate.
Defined.

(** Transaction 1 inserts a row, 2 updates it, 3 deletes it, and all commit. *)
Definition update_then_delete (a b : Z) : list (mop (T := Z)) :=
  [begin_rc; MInsert 1 key7 a; MCommit 1; begin_rc; MUpdate 2 key7 a b; MCommit 2;
   begin_rc; MDelete 3 key7 b; MCommit 3; begin_rc].

(** A deleted row comes back. A transaction that begins after an insert, an
    update and a delete of a row have been committed reads the row as it was
    inserted, because an update does not mark the version it replaces and a
    delete marks only the newest one. *)
Theorem deleted_row_resurrected a b : read_row 4 key7 (mrun "t" (update_then_delete a b)) = Some a.
Proof. vm_compute. reflexivity. Qed.

(** A transaction keeps reading a row that it inserted and deleted itself,
    where [is_tuple_visible] of [visibility.rs] says that it is gone. *)
Example own_delete_still_visible a :
  read_row 1 key7 (mrun "t" [begin_rc; MInsert 1 key7 a; MDelete 1 key7 a]) = Some a ∧
  is_visible (mkVersion a 1 (Some 1) 1 (Some 1)) 1 1 [] = true ∧
  is_tuple_visible (mkVersion a 1 (Some 1) 1 (Some 1)) (mkSnapshot 1 1 []) = false.
Proof. split_and!; vm_compute; reflexivity. Qed.

(** Transaction 2 began before the reader 3, deletes a row and commits while 3
    is running. *)
Definition delete_during_snapshot (a : Z) : list (mop (T := Z)) :=
  [begin_rc; MInsert 1 key7 a; MCommit 1; begin_rc; begin_rc; MDelete 2 key7 a; MCommit 2].

(** The vacuum takes a row away from a running snapshot. The reader still
    reads the row deleted by a transaction that was running when it began,
    until the pass removes the version: the pass compares the start of the
    deleting transaction, not its commit, with the oldest active start. *)
Theorem vacuum_loses_row a :
  read_row 3 key7 (mrun "t" (delete_during_snapshot a)) = Some a ∧
  read_row 3 key7 (vacuum (mrun "t" (delete_during_snapshot a))) = None.
Proof. split; vm_compute; reflexivity. Qed.

End Mvcc.
