(* ===== verification/Wal.v ===== *)
(** The write-ahead log ([bytedb-core/src/wal/log_record.rs],
    [log_manager.rs]) and the recovery that reads it ([recovery.rs]).

    A log manager is its file on disk, the bytes its buffered writer has not
    written yet, and its counters. The two readers, [scan_and_repair] at
    opening and [read_all_records], work on the bytes of the file and may
    truncate it. The JSON encoding of a record (serde) and CRC-32 (crc32fast)
    are the parameters [LogCodec]. Operations are atomic steps: the group
    commit of several threads (leader, followers and condition variable) is
    not modelled beyond what a single caller sees, and I/O errors do not
    occur. A crash keeps what is on disk and any part of the unwritten bytes
    that follows. *)
From S2P Require Import Prelude.

Module Wal.

Inductive LogRecord :=
  | Begin (txn_id : Z)
  | Insert (txn_id table_id page_id slot : Z) (data : list Z)
  | Update (txn_id table_id page_id slot : Z) (old_data new_data : list Z)
  | Delete (txn_id table_id page_id slot : Z) (old_data : list Z)
  | Commit (txn_id : Z)
  | Abort (txn_id : Z)
  | Checkpoint (active_txns : list Z).

Definition record_txn_id (r : LogRecord) : option Z :=
  match r with
  | Begin t | Insert t _ _ _ _ | Update t _ _ _ _ _ | Delete t _ _ _ _ | Commit t | Abort t => Some t
  | Checkpoint _ => None
  end.

(** The code outside the crate: [serde_json] on log records and
    [crc32fast::hash]. *)
Class LogCodec := {
  serialize : LogRecord → list Z;
  deserialize : list Z → option LogRecord;
  crc32 : list Z → Z;
}.

(** What the log relies on: a record survives its encoding, which is made of
    bytes, and a checksum is a [u32]. *)
Class LogCodecLaws (C : LogCodec) := {
  deserialize_serialize : ∀ r, deserialize (serialize r) = Some r;
  serialize_bytes : ∀ r, bytes_ok (serialize r);
  crc32_range : ∀ bs, 0 ≤ crc32 bs < 2 ^ 32;
}.

Definition LOG_RECORD_HEADER_SIZE : Z := 16.
Definition MAX_LOG_RECORD_SIZE : Z := 64 * 1024 * 1024.

Inductive DurabilityMode := Strict | Relaxed.

Record LogManager := mkLog {
  disk : list Z;
  buffer : list Z;
  current_lsn : Z;
  flushed_lsn : Z;
  durability_mode : DurabilityMode;
  group_commit_delay_us : Z;
  fsyncs : Z;
  commits_served : Z;
  relaxed_acks : Z;
}.

Section log.
Context `{LogCodec}.

(** The header and the payload of a frame. *)
Definition frame (prev_lsn : Z) (data : list Z) : list Z :=
  le_bytes 4 (wrap 32 (zlen data)) ++ le_bytes 4 (crc32 (le_bytes 8 prev_lsn ++ data)) ++
  le_bytes 8 prev_lsn ++ data.

Definition append (record : LogRecord) (lm : LogManager) : LogManager * result Z :=
  let data := serialize record in
  if MAX_LOG_RECORD_SIZE <? zlen data then (lm, Err (Internal "log record too large"))
  else
    let lsn := fetch_add (current_lsn lm) 1 in
    let prev_lsn := sat_sub lsn 1 in
    (mkLog (disk lm) (buffer lm ++ frame prev_lsn data) lsn (flushed_lsn lm) (durability_mode lm)
       (group_commit_delay_us lm) (fsyncs lm) (commits_served lm) (relaxed_acks lm), Ok lsn).

(** A caller that finds no other flush in progress is the leader. *)
Definition flush_through (target_lsn : Z) (lm : LogManager) : LogManager * result Z :=
  if target_lsn <=? flushed_lsn lm then
    (mkLog (disk lm) (buffer lm) (current_lsn lm) (flushed_lsn lm) (durability_mode lm)
       (group_commit_delay_us lm) (fsyncs lm) (fetch_add (commits_served lm) 1) (relaxed_acks lm),
     Ok (flushed_lsn lm))
  else
    (mkLog (disk lm ++ buffer lm) [] (current_lsn lm) (current_lsn lm) (durability_mode lm)
       (group_commit_delay_us lm) (fetch_add (fsyncs lm) 1) (fetch_add (commits_served lm) 1)
       (relaxed_acks lm),
     Ok (current_lsn lm)).

Definition flush (lm : LogManager) : LogManager * result Z := flush_through (current_lsn lm) lm.

Definition commit (target_lsn : Z) (lm : LogManager) : LogManager * result Z :=
  match durability_mode lm with
  | Strict => flush_through target_lsn lm
  | Relaxed =>
      (mkLog (disk lm) (buffer lm) (current_lsn lm) (flushed_lsn lm) Relaxed
         (group_commit_delay_us lm) (fsyncs lm) (fetch_add (commits_served lm) 1)
         (fetch_add (relaxed_acks lm) 1),
       Ok (flushed_lsn lm))
  end.

Definition set_durability_mode (mode : DurabilityMode) (lm : LogManager) : LogManager :=
  mkLog (disk lm) (buffer lm) (current_lsn lm) (flushed_lsn lm) mode (group_commit_delay_us lm)
    (fsyncs lm) (commits_served lm) (relaxed_acks lm).

Definition truncate (lm : LogManager) : LogManager * result () :=
  (mkLog [] [] 0 0 (durability_mode lm) (group_commit_delay_us lm) (fsyncs lm) (commits_served lm)
     (relaxed_acks lm), Ok ()).

(** ** Reading *)

(** The fields of a header: length, checksum, previous sequence number. *)
Definition parse_header (header : list Z) : Z * Z * Z :=
  (le_val (slice header 0 4), le_val (slice header 4 4), le_val (slice header 8 8)).

Definition truncate_to (file : list Z) (offset : Z) : list Z := take (Z.to_nat offset) file.

(** The loop of [scan_and_repair]: the file position is [last_good_offset]. *)
Fixpoint scan_loop (fuel : nat) (file : list Z) (lsn last_good_offset : Z)
    : option (list Z * result Z) :=
  match fuel with
  | O => None
  | S fuel' =>
      let total_len := zlen file in
      match get_slice file last_good_offset LOG_RECORD_HEADER_SIZE with
      | None => Some (file, Ok lsn)
      | Some header =>
          let '(len, expected_checksum, prev_lsn) := parse_header header in
          let frame_end := last_good_offset + LOG_RECORD_HEADER_SIZE + len in
          if (MAX_LOG_RECORD_SIZE <? len) || (total_len <? frame_end)
          then Some (truncate_to file last_good_offset, Ok lsn)
          else
            match get_slice file (last_good_offset + LOG_RECORD_HEADER_SIZE) len with
            | None => Some (truncate_to file last_good_offset, Ok lsn)
            | Some data =>
                let bad := negb (crc32 (le_bytes 8 prev_lsn ++ data) =? expected_checksum)
                           || negb (prev_lsn =? lsn)
                           || bool_decide (deserialize data = None) in
                if bad then
                  if total_len <=? frame_end then Some (truncate_to file last_good_offset, Ok lsn)
                  else Some (file, Err (WalCorrupted (lsn + 1)))
                else scan_loop fuel' file (lsn + 1) frame_end
            end
      end
  end.

Definition scan_and_repair (file : list Z) : option (list Z * result Z) :=
  scan_loop (S (length file)) file 0 0.

(** Opening the log of a path: [file] is its content, empty when absent. *)
Definition new (file : list Z) : option (result LogManager) :=
  '(file', r) ← (if 0 <? zlen file then scan_and_repair file else Some (file, Ok 0));
  Some match r with
       | Err e => Err e
       | Ok lsn => Ok (mkLog file' [] lsn lsn Strict 0 0 0 0)
       end.

Fixpoint read_loop (fuel : nat) (file : list Z) (lsn last_good_offset : Z)
    (records : list (Z * LogRecord)) : option (list Z * result (list (Z * LogRecord))) :=
  match fuel with
  | O => None
  | S fuel' =>
      let total_len := zlen file in
      match get_slice file last_good_offset LOG_RECORD_HEADER_SIZE with
      | None => Some (file, Ok records)
      | Some header =>
          let '(len, expected_checksum, prev_lsn) := parse_header header in
          if MAX_LOG_RECORD_SIZE <? len then Some (truncate_to file last_good_offset, Ok records)
          else
            let frame_end := last_good_offset + LOG_RECORD_HEADER_SIZE + len in
            match get_slice file (last_good_offset + LOG_RECORD_HEADER_SIZE) len with
            | None =>
                if total_len <? frame_end then Some (truncate_to file last_good_offset, Ok records)
                else Some (file, Err (WalCorrupted (lsn + 1)))
            | Some data =>
                if negb (crc32 (le_bytes 8 prev_lsn ++ data) =? expected_checksum) then
                  if total_len <=? frame_end then Some (truncate_to file last_good_offset, Ok records)
                  else Some (file, Err (WalCorrupted (lsn + 1)))
                else if negb (prev_lsn =? lsn) then
                  if total_len <=? frame_end then Some (truncate_to file last_good_offset, Ok records)
                  else Some (file, Err (WalCorrupted (lsn + 1)))
                else
                  match deserialize data with
                  | Some record => read_loop fuel' file (lsn + 1) frame_end (records ++ [(lsn + 1, record)])
                  | None =>
                      if total_len <=? frame_end
                      then Some (truncate_to file last_good_offset, Ok records)
                      else Some (file, Err (WalCorrupted (lsn + 1)))
                  end
            end
      end
  end.

Definition read_all_records (lm : LogManager) : option (LogManager * result (list (Z * LogRecord))) :=
  '(file', r) ← read_loop (S (length (disk lm))) (disk lm) 0 0 [];
  Some (mkLog file' (buffer lm) (current_lsn lm) (flushed_lsn lm) (durability_mode lm)
          (group_commit_delay_us lm) (fsyncs lm) (commits_served lm) (relaxed_acks lm), r).

Definition verify_chain (lm : LogManager) : option (LogManager * result ()) :=
  '(lm', r) ← read_all_records lm;
  Some (lm', match r with Ok _ => Ok () | Err e => Err e end).

(** ** Recovery *)

Record RecoveryResult := mkRecovery {
  redo_records : list (Z * LogRecord);
  undo_records : list (Z * LogRecord);
  committed_txns : gset Z;
  aborted_txns : gset Z;
}.

(** The first pass: the active and the committed transactions. *)
Definition analyze_step (s : gset Z * gset Z) (lr : Z * LogRecord) : gset Z * gset Z :=
  let '(active, committed) := s in
  match lr.2 with
  | Begin t => ({[t]} ∪ active, committed)
  | Commit t => (active ∖ {[t]}, {[t]} ∪ committed)
  | Abort t => (active ∖ {[t]}, committed)
  | Checkpoint ts => (list_to_set ts, committed)
  | _ => (active, committed)
  end.

(** The tests of the second and third passes. *)
Definition is_data (r : LogRecord) : bool :=
  match r with Insert _ _ _ _ _ | Update _ _ _ _ _ _ | Delete _ _ _ _ _ => true | _ => false end.

Definition selected (txns : gset Z) (lr : Z * LogRecord) : bool :=
  match record_txn_id lr.2 with
  | Some t => bool_decide (t ∈ txns) && is_data lr.2
  | None => false
  end.

Definition analyze_records (records : list (Z * LogRecord)) : RecoveryResult :=
  let '(active, committed) := foldl analyze_step (∅, ∅) records in
  mkRecovery (filter (λ lr, selected committed lr = true) records)
    (filter (λ lr, selected active lr = true) (reverse records)) committed active.

Definition recover_inner (lm : LogManager) (target_lsn : option Z)
    : option (LogManager * result RecoveryResult) :=
  '(lm', r) ← read_all_records lm;
  Some (lm', match r with
             | Err e => Err e
             | Ok all =>
                 Ok (analyze_records match target_lsn with
                                     | Some t => filter (λ lr : Z * LogRecord, lr.1 ≤ t) all
                                     | None => all
                                     end)
             end).

Definition recover (lm : LogManager) : option (LogManager * result RecoveryResult) :=
  recover_inner lm None.

Definition recover_to_lsn (lm : LogManager) (target : Z) : option (LogManager * result RecoveryResult) :=
  recover_inner lm (Some target).
End log.

(** ** The file that the appends of a list of records write *)

Section frames.
Context `{LogCodecLaws}.

Fixpoint frames (lsn : Z) (rs : list LogRecord) : list Z :=
  match rs with
  | [] => []
  | r :: rs' => frame lsn (serialize r) ++ frames (lsn + 1) rs'
  end.

Definition fits (r : LogRecord) : Prop := zlen (serialize r) ≤ MAX_LOG_RECORD_SIZE.

Lemma frames_app lsn rs rs' : frames lsn (rs ++ rs') = frames lsn rs ++ frames (lsn + zlen rs) rs'.
Proof.
  revert lsn. induction rs as [|r rs IH]; intros lsn; cbn [frames app].
  - by rw zlen_nil Z.add_0_r.
  - rw IH -app_assoc zlen_cons. do 2 f_equal. f_equal. lia.
Qed.

Lemma zlen_frame lsn data : zlen (frame lsn data) = 16 + zlen data.
Proof.
  unfold frame, zlen. rw !length_app !length_le_bytes. lia.
Qed.

Definition header (lsn : Z) (data : list Z) : list Z :=
  le_bytes 4 (wrap 32 (zlen data)) ++ le_bytes 4 (crc32 (le_bytes 8 lsn ++ data)) ++ le_bytes 8 lsn.

Lemma frame_header lsn data : frame lsn data = header lsn data ++ data.
Proof. unfold frame, header. by rw -!app_assoc. Qed.

Lemma zlen_header lsn data : zlen (header lsn data) = 16.
Proof. unfold header, zlen. rw !length_app !length_le_bytes. lia. Qed.

Lemma parse_header_frame lsn data :
  0 ≤ lsn < 2 ^ 64 → zlen data ≤ MAX_LOG_RECORD_SIZE →
  parse_header (header lsn data) = (zlen data, crc32 (le_bytes 8 lsn ++ data), lsn).
Proof.
  intros Hl Hd. unfold parse_header, header.
  pose proof (crc32_range (le_bytes 8 lsn ++ data)). pose proof (zlen_nonneg data).
  set (a := le_bytes 4 (wrap 32 (zlen data))). set (b := le_bytes 4 (crc32 _)). set (c := le_bytes 8 lsn).
  assert (length a = 4%nat ∧ length b = 4%nat ∧ length c = 8%nat) as (La & Lb & Lc)
    by (subst a b c; by rw !length_le_bytes).
  assert (slice (a ++ b ++ c) 0 4 = a) as ->.
  { unfold slice. rw drop_0 take_app_length'; [lia|done]. }
  assert (slice (a ++ b ++ c) 4 4 = b) as ->.
  { unfold slice. rw drop_app_length'; [lia|]. rw take_app_length'; [lia|done]. }
  assert (slice (a ++ b ++ c) 8 8 = c) as ->.
  { unfold slice. rw app_assoc drop_app_length'; [rw length_app; lia|]. rw take_ge; [lia|done]. }
  subst a b c. unfold MAX_LOG_RECORD_SIZE in Hd.
  rw (wrap_small 32); [lia|]. rw !le_bytes_val_small; [lia|lia|lia|done].
Qed.

(** The header and the payload of the frame at the end of [pre]. *)
Lemma log_frame_at pre lsn data rest :
  let file := pre ++ frame lsn data ++ rest in
  get_slice file (zlen pre) 16 = Some (header lsn data) ∧
  get_slice file (zlen pre + 16) (zlen data) = Some data ∧
  zlen file = zlen pre + 16 + zlen data + zlen rest.
Proof.
  intros file. subst file. pose proof (zlen_header lsn data) as Hh. rw frame_header.
  generalize dependent (header lsn data). intros h Hh. rw -app_assoc. split_and!.
  - by apply get_slice_app.
  - rw app_assoc. apply get_slice_app; [|done]. rw zlen_app. lia.
  - rw !zlen_app. lia.
Qed.

(** One good frame: both readers go past it. *)
Lemma scan_frame fuel pre lsn r rest :
  0 ≤ lsn < 2 ^ 64 → fits r →
  scan_loop (S fuel) (pre ++ frame lsn (serialize r) ++ rest) lsn (zlen pre) =
  scan_loop fuel (pre ++ frame lsn (serialize r) ++ rest) (lsn + 1)
    (zlen pre + zlen (frame lsn (serialize r))).
Proof.
  intros Hl Hr. destruct (log_frame_at pre lsn (serialize r) rest) as (E1 & E2 & E3).
  cbn [scan_loop]. unfold LOG_RECORD_HEADER_SIZE. rw E1. rw parse_header_frame; [done|done|].
  rw E2. pose proof (zlen_nonneg rest). unfold fits in Hr.
  rw (proj2 (Z.ltb_ge _ _) Hr). cbn [orb].
  rw (proj2 (Z.ltb_ge (zlen (pre ++ frame lsn (serialize r) ++ rest)) _)); [lia|].
  rw !Z.eqb_refl deserialize_serialize. cbn. f_equal. rw zlen_frame. lia.
Qed.

Lemma read_frame fuel pre lsn r rest acc :
  0 ≤ lsn < 2 ^ 64 → fits r →
  read_loop (S fuel) (pre ++ frame lsn (serialize r) ++ rest) lsn (zlen pre) acc =
  read_loop fuel (pre ++ frame lsn (serialize r) ++ rest) (lsn + 1)
    (zlen pre + zlen (frame lsn (serialize r))) (acc ++ [(lsn + 1, r)]).
Proof.
  intros Hl Hr. destruct (log_frame_at pre lsn (serialize r) rest) as (E1 & E2 & E3).
  cbn [read_loop]. unfold LOG_RECORD_HEADER_SIZE. rw E1. rw parse_header_frame; [done|done|].
  unfold fits in Hr. rw (proj2 (Z.ltb_ge _ _) Hr). rw E2 !Z.eqb_refl deserialize_serialize. cbn [negb].
  f_equal. rw zlen_frame. lia.
Qed.

(** The records with their sequence numbers. *)
Fixpoint number (lsn : Z) (rs : list LogRecord) : list (Z * LogRecord) :=
  match rs with
  | [] => []
  | r :: rs' => (lsn + 1, r) :: number (lsn + 1) rs'
  end.

Lemma scan_frames rs fuel pre lsn rest :
  0 ≤ lsn → lsn + zlen rs ≤ 2 ^ 64 → Forall fits rs →
  scan_loop (length rs + fuel) (pre ++ frames lsn rs ++ rest) lsn (zlen pre) =
  scan_loop fuel (pre ++ frames lsn rs ++ rest) (lsn + zlen rs) (zlen pre + zlen (frames lsn rs)).
Proof.
  revert pre lsn. induction rs as [|r rs IH]; intros pre lsn Hl Hb Hf; cbn [frames].
  - rw zlen_nil !Z.add_0_r. done.
  - apply Forall_cons in Hf as [Hr Hf]. rw zlen_cons in Hb |- *. pose proof (zlen_nonneg rs).
    cbn [length Nat.add]. rw -app_assoc scan_frame; [lia|done|].
    pose proof (IH (pre ++ frame lsn (serialize r)) (lsn + 1)) as IHr. rw -app_assoc zlen_app in IHr.
    rw IHr; [lia|lia|done|]. rw zlen_app. f_equal; lia.
Qed.

Lemma read_frames rs fuel pre lsn rest acc :
  0 ≤ lsn → lsn + zlen rs ≤ 2 ^ 64 → Forall fits rs →
  read_loop (length rs + fuel) (pre ++ frames lsn rs ++ rest) lsn (zlen pre) acc =
  read_loop fuel (pre ++ frames lsn rs ++ rest) (lsn + zlen rs) (zlen pre + zlen (frames lsn rs))
    (acc ++ number lsn rs).
Proof.
  revert pre lsn acc. induction rs as [|r rs IH]; intros pre lsn acc Hl Hb Hf; cbn [frames number].
  - rw zlen_nil !Z.add_0_r app_nil_r. done.
  - apply Forall_cons in Hf as [Hr Hf]. rw zlen_cons in Hb |- *. pose proof (zlen_nonneg rs).
    cbn [length Nat.add]. rw -app_assoc read_frame; [lia|done|].
    pose proof (IH (pre ++ frame lsn (serialize r)) (lsn + 1)) as IHr. rw -app_assoc zlen_app in IHr.
    rw IHr; [lia|lia|done|]. rw zlen_app -app_assoc. f_equal; lia.
Qed.

(** What a crash leaves after the last whole frame: nothing, or a strict
    prefix of a frame. *)
Definition torn (lsn : Z) (tail : list Z) : Prop :=
  tail = [] ∨ ∃ r rest, fits r ∧ frame lsn (serialize r) = tail ++ rest ∧ rest ≠ [].

Lemma torn_short lsn tail :
  torn lsn tail → zlen tail < 16 ∨
  ∃ data rest, zlen (serialize data) ≤ MAX_LOG_RECORD_SIZE ∧
    tail = header lsn (serialize data) ++ rest ∧ zlen rest < zlen (serialize data).
Proof.
  intros [->|(r & rest & Hf & E & Hne)]; [left; by rw zlen_nil|].
  destruct (decide (zlen tail < 16)); [by left|]. right.
  assert (zlen (tail ++ rest) = 16 + zlen (serialize r)) as Hlen by by rw -E zlen_frame.
  rw zlen_app in Hlen. assert (0 < zlen rest) by (destruct rest; [done|rw zlen_cons; pose proof (zlen_nonneg rest); lia]).
  rw frame_header in E. exists r, (drop 16 tail). split; [done|].
  assert (take 16 (tail ++ rest) = header lsn (serialize r)) as Ht.
  { rw -E take_app_length'; [|done]. pose proof (zlen_header lsn (serialize r)). unfold zlen in *. lia. }
  unfold zlen in *. rw take_app_le in Ht; [lia|]. split; [by rw -Ht take_drop|]. rw length_drop. lia.
Qed.

Lemma scan_torn fuel pre lsn tail :
  0 ≤ lsn < 2 ^ 64 → torn lsn tail →
  scan_loop (S fuel) (pre ++ tail) lsn (zlen pre) =
  Some (if zlen tail <? 16 then pre ++ tail else pre, Ok lsn).
Proof.
  intros Hl [Hs|(r & rest & Hr & -> & Hlt)]%torn_short; cbn [scan_loop].
  - rw get_slice_short; [unfold LOG_RECORD_HEADER_SIZE; rw zlen_app; lia|].
    by rw (proj2 (Z.ltb_lt _ _) Hs).
  - pose proof (zlen_header lsn (serialize r)) as Hh.
    unfold LOG_RECORD_HEADER_SIZE. rw get_slice_app; [done|by rw Hh|].
    rw parse_header_frame; [done|done|]. generalize dependent (header lsn (serialize r)). intros h Hh.
    rw (proj2 (Z.ltb_lt (zlen (pre ++ h ++ rest)) _)); [rw !zlen_app Hh; lia|].
    rw orb_true_r (proj2 (Z.ltb_ge (zlen (_ ++ rest)) 16)); [rw zlen_app Hh; pose proof (zlen_nonneg rest); lia|].
    unfold truncate_to, zlen. by rw Nat2Z.id take_app_length.
Qed.

Lemma read_torn fuel pre lsn tail acc :
  0 ≤ lsn < 2 ^ 64 → torn lsn tail →
  read_loop (S fuel) (pre ++ tail) lsn (zlen pre) acc =
  Some (if zlen tail <? 16 then pre ++ tail else pre, Ok acc).
Proof.
  intros Hl [Hs|(r & rest & Hr & -> & Hlt)]%torn_short; cbn [read_loop].
  - rw get_slice_short; [unfold LOG_RECORD_HEADER_SIZE; rw zlen_app; lia|].
    by rw (proj2 (Z.ltb_lt _ _) Hs).
  - pose proof (zlen_header lsn (serialize r)) as Hh.
    unfold LOG_RECORD_HEADER_SIZE. rw get_slice_app; [done|by rw Hh|].
    rw parse_header_frame; [done|done|]. rw (proj2 (Z.ltb_ge _ _) Hr).
    generalize dependent (header lsn (serialize r)). intros h Hh.
    rw get_slice_short; [rw !zlen_app Hh; lia|].
    rw (proj2 (Z.ltb_lt (zlen (pre ++ h ++ rest)) _)); [rw !zlen_app Hh; lia|].
    rw (proj2 (Z.ltb_ge (zlen (_ ++ rest)) 16)); [rw zlen_app Hh; pose proof (zlen_nonneg rest); lia|].
    unfold truncate_to, zlen. by rw Nat2Z.id take_app_length.
Qed.
(** Cutting the file anywhere. *)
Lemma cut_frames (k : nat) lsn rs :
  Forall fits rs → ∃ (m : nat) tail, (m ≤ length rs)%nat ∧
    take k (frames lsn rs) = frames lsn (take m rs) ++ tail ∧ torn (lsn + Z.of_nat m) tail ∧
    (∀ j, (j ≤ length rs)%nat → zlen (frames lsn (take j rs)) ≤ Z.of_nat k → (j ≤ m)%nat).
Proof.
  intros Hf. revert k lsn. induction Hf as [|r rs Hr Hf IH]; intros k lsn.
  { exists 0%nat, []. cbn. split_and!; [lia|by rw take_nil|by left|lia]. }
  cbn [frames]. destruct (decide (length (frame lsn (serialize r)) ≤ k)%nat) as [Hle|Hgt].
  - destruct (IH (k - length (frame lsn (serialize r)))%nat (lsn + 1)) as (m & tail & Hm & E & Ht & Hmax).
    exists (S m), tail. cbn [length take frames]. split_and!; [lia| | |].
    + rw take_app_ge; [done|]. by rw E app_assoc.
    + replace (lsn + Z.of_nat (S m)) with (lsn + 1 + Z.of_nat m) by lia. done.
    + intros [|j] Hj Hz; [lia|]. cbn [take frames] in Hz. rw zlen_app in Hz. unfold zlen in Hz.
      assert (j ≤ m)%nat; [|lia]. apply Hmax; [lia|]. unfold zlen. lia.
  - exists 0%nat, (take k (frame lsn (serialize r))). cbn [take frames]. split_and!; [lia| | |].
    + rw take_app_le; [lia|done].
    + rw Z.add_0_r. right. exists r, (drop k (frame lsn (serialize r))). split_and!; [done|by rw take_drop|].
      intros E%(f_equal length). rw length_drop in E. change (length []) with 0%nat in E. lia.
    + intros [|j] Hj Hz; [lia|]. cbn [take frames] in Hz. rw zlen_app in Hz.
      pose proof (zlen_nonneg (frames (lsn + 1) (take j rs))). unfold zlen in *. lia.
Qed.

Lemma frames_length lsn rs : (length rs ≤ length (frames lsn rs))%nat.
Proof.
  revert lsn. induction rs as [|r rs IH]; intros lsn; cbn [frames length]; [lia|].
  rw length_app. specialize (IH (lsn + 1)). pose proof (zlen_frame lsn (serialize r)).
  pose proof (zlen_nonneg (serialize r)). unfold zlen in *. lia.
Qed.

(** Both readers on whole frames followed by a torn one. *)
Lemma scan_prefix rs tail :
  zlen rs < 2 ^ 64 → Forall fits rs → torn (zlen rs) tail →
  scan_and_repair (frames 0 rs ++ tail) =
  Some (if zlen tail <? 16 then frames 0 rs ++ tail else frames 0 rs, Ok (zlen rs)).
Proof.
  intros Hb Hf Ht. unfold scan_and_repair. pose proof (frames_length 0 rs). pose proof (zlen_nonneg rs).
  replace (S (length (frames 0 rs ++ tail)))
    with (length rs + S (length (frames 0 rs ++ tail) - length rs))%nat by (rw length_app; lia).
  pose proof (scan_frames rs (S (length (frames 0 rs ++ tail) - length rs)) [] 0 tail) as Hs.
  rw app_nil_l zlen_nil in Hs. rw Hs; [lia|lia|done|]. rw !Z.add_0_l. by apply scan_torn.
Qed.

Lemma read_prefix rs tail :
  zlen rs < 2 ^ 64 → Forall fits rs → torn (zlen rs) tail →
  read_loop (S (length (frames 0 rs ++ tail))) (frames 0 rs ++ tail) 0 0 [] =
  Some (if zlen tail <? 16 then frames 0 rs ++ tail else frames 0 rs, Ok (number 0 rs)).
Proof.
  intros Hb Hf Ht. pose proof (frames_length 0 rs). pose proof (zlen_nonneg rs).
  replace (S (length (frames 0 rs ++ tail)))
    with (length rs + S (length (frames 0 rs ++ tail) - length rs))%nat by (rw length_app; lia).
  pose proof (read_frames rs (S (length (frames 0 rs ++ tail) - length rs)) [] 0 tail []) as Hs.
  rw !app_nil_l zlen_nil in Hs. rw Hs; [lia|lia|done|]. rw !Z.add_0_l. by apply read_torn.
Qed.

Lemma torn_nil lsn : torn lsn [].
Proof. by left. Qed.

(** ** Runs of the log manager *)

Inductive lop :=
  | LAppend (r : LogRecord)
  | LCommit (target : Z)
  | LFlush
  | LMode (mode : DurabilityMode)
  | LTruncate.

Definition lstep (lm : LogManager) (o : lop) : LogManager :=
  match o with
  | LAppend r => (append r lm).1
  | LCommit target => (commit target lm).1
  | LFlush => (flush lm).1
  | LMode mode => set_durability_mode mode lm
  | LTruncate => (truncate lm).1
  end.

Definition opened : LogManager := mkLog [] [] 0 0 Strict 0 0 0 0.
Definition lrun (ops : list lop) : LogManager := foldl lstep opened ops.

(** The records a run has logged since the last truncation. *)
Definition logged_step (rs : list LogRecord) (o : lop) : list LogRecord :=
  match o with
  | LAppend r => if MAX_LOG_RECORD_SIZE <? zlen (serialize r) then rs else rs ++ [r]
  | LTruncate => []
  | _ => rs
  end.
Definition logged (ops : list lop) : list LogRecord := foldl logged_step [] ops.

Record log_rel (lm : LogManager) (rs : list LogRecord) : Prop := {
  lr_bytes : disk lm ++ buffer lm = frames 0 rs;
  lr_cur : current_lsn lm = zlen rs;
  lr_flushed : 0 ≤ flushed_lsn lm ≤ zlen rs;
  lr_disk : disk lm = frames 0 (take (Z.to_nat (flushed_lsn lm)) rs);
  lr_fits : Forall fits rs;
}.

Lemma log_rel_append r lm rs :
  zlen rs + 1 < 2 ^ 64 → log_rel lm rs → log_rel (append r lm).1 (logged_step rs (LAppend r)).
Proof.
  intros Hb [Hbytes Hcur Hfl Hdisk Hfits]. unfold append. cbn [logged_step].
  destruct (Z.ltb_spec MAX_LOG_RECORD_SIZE (zlen (serialize r))) as [|Hle]; [done|].
  pose proof (zlen_nonneg rs). cbn [fst].
  assert (fetch_add (current_lsn lm) 1 = zlen rs + 1) as E.
  { rw Hcur. apply wrap_small. lia. }
  rw E. split; cbn [disk buffer current_lsn flushed_lsn].
  - rw app_assoc Hbytes frames_app. cbn [frames]. rw app_nil_r.
    replace (sat_sub (zlen rs + 1) 1) with (0 + zlen rs) by (unfold sat_sub; lia). done.
  - by rw zlen_app.
  - rw zlen_app zlen_cons zlen_nil. lia.
  - rw take_app_le; [unfold zlen in *; lia|done].
  - apply Forall_app. split; [done|]. by constructor.
Qed.

Lemma log_rel_flush target lm rs : log_rel lm rs → log_rel (flush_through target lm).1 rs.
Proof.
  intros [Hbytes Hcur Hfl Hdisk Hfits]. unfold flush_through.
  destruct (target <=? flushed_lsn lm); cbn [fst]; [by split|].
  pose proof (zlen_nonneg rs). split; cbn [disk buffer current_lsn flushed_lsn]; try done.
  - by rw app_nil_r.
  - rw Hcur. lia.
  - rw Hcur Hbytes take_ge; [unfold zlen; lia|done].
Qed.

Lemma log_rel_run ops :
  zlen ops < 2 ^ 64 → log_rel (lrun ops) (logged ops) ∧ zlen (logged ops) ≤ zlen ops.
Proof.
  induction ops as [|o ops IH] using rev_ind; intros Hb.
  { split; [|done]. split; cbn; try done. }
  unfold lrun, logged. rw zlen_app zlen_cons zlen_nil in Hb |- *. rw !foldl_snoc.
  destruct IH as [IH Hlen]; [lia|]. fold (lrun ops) (logged ops) in *.
  destruct o as [r|target| |mode|]; cbn [lstep].
  - split; [apply log_rel_append; [lia|done]|]. cbn [logged_step]. case_match; [lia|].
    rw zlen_app zlen_cons zlen_nil. lia.
  - cbn [logged_step]. split; [|lia]. unfold commit. case_match; [by apply log_rel_flush|].
    destruct IH. by split.
  - cbn [logged_step]. split; [|lia]. by apply log_rel_flush.
  - cbn [logged_step]. split; [|lia]. destruct IH. by split.
  - cbn [logged_step]. split; [|pose proof (zlen_nonneg ops); rw zlen_nil; lia]. split; cbn; try done.
Qed.

(** Opening and reading a file of whole frames and a torn one. *)
Lemma open_prefix rs tail :
  zlen rs < 2 ^ 64 → Forall fits rs → torn (zlen rs) tail →
  ∃ file', new (frames 0 rs ++ tail) = Some (Ok (mkLog file' [] (zlen rs) (zlen rs) Strict 0 0 0 0)) ∧
    (file' = frames 0 rs ++ tail ∨ file' = frames 0 rs).
Proof.
  intros Hb Hf Ht. unfold new. destruct (Z.ltb_spec 0 (zlen (frames 0 rs ++ tail))) as [|Hz].
  - rw scan_prefix; [done..|]. cbn [mbind option_bind]. eexists. split; [reflexivity|].
    destruct (zlen tail <? 16); [by left|by right].
  - assert (frames 0 rs ++ tail = []) as E.
    { destruct (frames 0 rs ++ tail) as [|z l] eqn:E; [done|]. rw zlen_cons in Hz.
      pose proof (zlen_nonneg l). lia. }
    apply app_eq_nil in E as [E1 E2]. rw E1 E2. cbn.
    pose proof (frames_length 0 rs) as Hl. rw E1 in Hl. cbn in Hl. destruct rs; [|cbn in Hl; lia].
    exists []. split; [done|by left].
Qed.

Lemma read_open rs tail file' lsn mode d a b c :
  zlen rs < 2 ^ 64 → Forall fits rs → torn (zlen rs) tail →
  file' = frames 0 rs ++ tail ∨ file' = frames 0 rs →
  ∃ lm, read_all_records (mkLog file' [] lsn lsn mode d a b c) = Some (lm, Ok (number 0 rs)).
Proof.
  intros Hb Hf Ht Hfile. unfold read_all_records. cbn [disk].
  assert (∃ t, torn (zlen rs) t ∧ file' = frames 0 rs ++ t) as (t & Ht' & ->).
  { destruct Hfile as [->| ->]; [by exists tail|]. exists []. split; [apply torn_nil|by rw app_nil_r]. }
  rw read_prefix; [done..|]. eexists. reflexivity.
Qed.

(** C2: A crash loses nothing that was flushed and invents nothing. After any
    run of appends, commits, flushes, mode changes and truncations, let a crash
    keep the file and any part of the bytes not yet written: opening the log
    again succeeds, recovery succeeds, and what it analyses is exactly a prefix
    of the logged records, with their sequence numbers, that contains at least
    the records up to the flushed sequence number. *)
Theorem crash_recovery ops (k : Z) :
  zlen ops < 2 ^ 64 → let lm := lrun ops in zlen (disk lm) ≤ k →
  ∃ (m : Z) lm1 lm2, flushed_lsn lm ≤ m ≤ zlen (logged ops) ∧
    new (take (Z.to_nat k) (disk lm ++ buffer lm)) = Some (Ok lm1) ∧ current_lsn lm1 = m ∧
    recover lm1 = Some (lm2, Ok (analyze_records (number 0 (take (Z.to_nat m) (logged ops))))).
Proof.
  intros Hb lm Hk. destruct (log_rel_run ops Hb) as [[Hbytes Hcur Hfl Hdisk Hfits] Hlen]. fold lm in Hbytes, Hcur, Hfl, Hdisk.
  clearbody lm. rw Hbytes. destruct (cut_frames (Z.to_nat k) 0 (logged ops) Hfits) as (m & tail & Hm & -> & Ht & Hmax).
  set (rs := take m (logged ops)).
  assert (Z.of_nat (length (logged ops)) = zlen (logged ops)) as Hlz by done.
  assert (zlen rs = Z.of_nat m) as Hz by (unfold zlen, rs; rw length_take; lia).
  assert (zlen rs < 2 ^ 64) as Hb' by lia.
  assert (Forall fits rs) by by apply Forall_take. rw Z.add_0_l -Hz in Ht.
  destruct (open_prefix rs tail) as (file' & Hnew & Hfile); [done..|].
  destruct (read_open rs tail file' (zlen rs) Strict 0 0 0 0) as [lm2 Hread]; [done..|].
  exists (zlen rs), (mkLog file' [] (zlen rs) (zlen rs) Strict 0 0 0 0), lm2. split_and!.
  - rw Hz. assert (Z.to_nat (flushed_lsn lm) ≤ m)%nat; [|lia]. apply Hmax; [lia|].
    rw -Hdisk. lia.
  - lia.
  - done.
  - done.
  - unfold recover, recover_inner. rw Hread. cbn [mbind option_bind]. by rw Hz Nat2Z.id.
Qed.

Lemma number_filter lsn t rs :
  filter (λ lr : Z * LogRecord, lr.1 ≤ t) (number lsn rs) = number lsn (take (Z.to_nat (t - lsn)) rs).
Proof.
  revert lsn. induction rs as [|r rs IH]; intros lsn; cbn [number]; [by rw take_nil|].
  destruct (decide (lsn + 1 ≤ t)).
  - rw filter_cons_True; [done|]. rw IH. replace (Z.to_nat (t - lsn)) with (S (Z.to_nat (t - (lsn + 1)))) by lia.
    done.
  - rw filter_cons_False; [done|]. rw IH. replace (Z.to_nat (t - lsn)) with 0%nat by lia.
    replace (Z.to_nat (t - (lsn + 1))) with 0%nat by lia. by rw !take_0.
Qed.

(** Point-in-time recovery. After a flush, recovery up to a sequence number
    analyses exactly the records logged up to it. *)
Theorem recover_to_lsn_prefix ops t :
  zlen ops + 1 < 2 ^ 64 → let lm := lrun (ops ++ [LFlush]) in
  recover_to_lsn lm t = Some (lm, Ok (analyze_records (number 0 (take (Z.to_nat t) (logged ops))))).
Proof.
  intros Hb lm.
  destruct (log_rel_run (ops ++ [LFlush])) as [Hrel Hlen]; [by rw zlen_app|]. fold lm in Hrel.
  assert (logged (ops ++ [LFlush]) = logged ops) as El by (unfold logged; by rw foldl_snoc).
  rw El in Hrel Hlen.
  assert (flushed_lsn lm = current_lsn lm) as Hfl.
  { subst lm. unfold lrun. rw foldl_snoc. cbn [lstep]. unfold flush, flush_through.
    destruct (log_rel_run ops) as [[_ Hc Hf _ _] _]; [lia|]. fold (lrun ops) in *.
    destruct (Z.leb_spec (current_lsn (lrun ops)) (flushed_lsn (lrun ops))); cbn; [|done]. lia. }
  destruct Hrel as [Hbytes Hcur _ Hdisk Hfits].
  assert (disk lm = frames 0 (logged ops)) as Hd.
  { rw Hdisk Hfl Hcur take_ge; [unfold zlen; lia|done]. }
  unfold recover_to_lsn, recover_inner, read_all_records. rw Hd.
  pose proof (read_prefix (logged ops) []) as Hr. rw app_nil_r in Hr.
  rw Hr; [rw zlen_app zlen_cons zlen_nil in Hlen; lia|done|apply torn_nil|]. cbn [mbind option_bind].
  rw number_filter Z.sub_0_r. replace (zlen [] <? 16) with true by done. rw -Hd. by destruct lm.
Qed.

(** Three stray bytes in front of a frame: its length, read one byte off, is
    out of range. *)
Lemma read_misaligned fuel pre tail lsn data acc :
  length tail = 3%nat → bytes_ok tail → 4 < zlen data mod 256 → zlen data ≤ MAX_LOG_RECORD_SIZE →
  read_loop (S fuel) (pre ++ tail ++ frame lsn data) lsn (zlen pre) acc =
  Some (truncate_to (pre ++ tail ++ frame lsn data) (zlen pre), Ok acc).
Proof.
  intros Hl Hok Hlow Hd. destruct tail as [|a [|b [|c []]]]; try done.
  apply Forall_cons in Hok as [Ha Hok]. apply Forall_cons in Hok as [Hb Hok]. apply Forall_cons in Hok as [Hc _].
  unfold byte_ok in *. pose proof (zlen_nonneg data). unfold MAX_LOG_RECORD_SIZE in Hd.
  assert (∃ f, frame lsn data = zlen data mod 256 :: f ∧ (15 ≤ length f)%nat) as (f & -> & Hf).
  { pose proof (zlen_frame lsn data) as Hz. unfold frame in *. rw (wrap_small 32) in Hz |- *; [lia|].
    change (le_bytes 4 (zlen data)) with (zlen data mod 256 :: le_bytes 3 (zlen data / 256)) in Hz |- *.
    cbn [app] in *. eexists. split; [reflexivity|]. rw zlen_cons in Hz. unfold zlen in *. lia. }
  cbn [read_loop]. unfold LOG_RECORD_HEADER_SIZE.
  rw -(take_drop 12 f).
  assert (length (take 12 f) = 12%nat) by (rw length_take; lia).
  set (f1 := take 12 f) in *. set (f2 := drop 12 f). clearbody f1 f2.
  change ([a; b; c] ++ zlen data mod 256 :: f1 ++ f2)
    with (([a; b; c; zlen data mod 256] ++ f1) ++ f2).
  rw get_slice_app; [done|rw zlen_app; unfold zlen; cbn; lia|].
  destruct (parse_header ([a; b; c; zlen data mod 256] ++ f1)) as [[len ck] prev] eqn:E.
  assert (len = le_val [a; b; c; zlen data mod 256]) as ->.
  { unfold parse_header in E. injection E as <- _ _. reflexivity. }
  rw (proj2 (Z.ltb_lt _ _)); [|done]. cbn [le_val]. unfold MAX_LOG_RECORD_SIZE. lia.
Qed.

(** A torn header swallows the next commit. When a crash leaves the first
    three bytes of a frame at the end of the log, opening the log keeps them;
    a record appended and flushed afterwards (in strict mode, so that its
    commit is acknowledged as durable) is not among the records that the next
    reading returns, whenever the lowest byte of its length is above 4. *)
Theorem torn_header_loses_commit rs r0 r :
  zlen rs + 1 < 2 ^ 64 → Forall fits rs → fits r0 → fits r → 4 < zlen (serialize r) mod 256 →
  let file := frames 0 rs ++ take 3 (frame (zlen rs) (serialize r0)) in
  ∃ lm1 lm3, new file = Some (Ok lm1) ∧
    let '(lm2, res) := append r lm1 in
    let '(lm2', res') := commit (zlen rs + 1) lm2 in
    res = Ok (zlen rs + 1) ∧ res' = Ok (zlen rs + 1) ∧ flushed_lsn lm2' = zlen rs + 1 ∧
    read_all_records lm2' = Some (lm3, Ok (number 0 rs)).
Proof.
  intros Hb Hf Hf0 Hfr Hlow file. set (tail := take 3 (frame (zlen rs) (serialize r0))) in *.
  pose proof (zlen_nonneg rs). pose proof (zlen_frame (zlen rs) (serialize r0)) as Hz0.
  pose proof (zlen_nonneg (serialize r0)).
  assert (length tail = 3%nat) as Hl3 by (subst tail; rw length_take; unfold zlen in *; lia).
  assert (torn (zlen rs) tail) as Ht.
  { right. exists r0, (drop 3 (frame (zlen rs) (serialize r0))). split_and!; [done|by rw take_drop|].
    intros E%(f_equal length). rw length_drop in E. change (length []) with 0%nat in E.
    unfold zlen in *. lia. }
  assert (new file = Some (Ok (mkLog file [] (zlen rs) (zlen rs) Strict 0 0 0 0))) as Hnew.
  { unfold new, file. rw (proj2 (Z.ltb_lt 0 (zlen (_ ++ tail)))).
    { rw zlen_app. pose proof (zlen_nonneg (frames 0 rs)). unfold zlen in *. lia. }
    rw scan_prefix; [lia|done|done|]. by rw (proj2 (Z.ltb_lt (zlen tail) 16)); [unfold zlen; lia|]. }
  set (f2 := file ++ frame (zlen rs) (serialize r)).
  assert (bytes_ok tail) as Hok.
  { subst tail. apply Forall_take. unfold frame. repeat (apply Forall_app; split); try apply le_bytes_ok.
    apply serialize_bytes. }
  assert (read_loop (S (length f2)) f2 0 0 [] = Some (truncate_to f2 (zlen (frames 0 rs)), Ok (number 0 rs))) as Hread.
  { pose proof (frames_length 0 rs).
    replace (S (length f2)) with (length rs + S (length f2 - length rs))%nat
      by (unfold f2, file; rw !length_app; lia).
    unfold f2, file. rw -app_assoc.
    pose proof (read_frames rs (S (length f2 - length rs)) [] 0 (tail ++ frame (zlen rs) (serialize r)) []) as Hs.
    rw !app_nil_l zlen_nil !Z.add_0_l in Hs. unfold f2, file in Hs. rw -app_assoc in Hs.
    rw Hs; [lia|lia|done|]. by apply read_misaligned. }
  eexists _, _. split; [exact Hnew|]. unfold append. unfold fits in Hfr. rw (proj2 (Z.ltb_ge _ _) Hfr).
  cbn [current_lsn disk buffer flushed_lsn durability_mode group_commit_delay_us fsyncs commits_served relaxed_acks app].
  assert (fetch_add (zlen rs) 1 = zlen rs + 1) as -> by (apply wrap_small; lia).
  assert (sat_sub (zlen rs + 1) 1 = zlen rs) as -> by (unfold sat_sub; lia).
  unfold commit, flush_through. cbn [durability_mode flushed_lsn current_lsn disk buffer].
  rw (proj2 (Z.leb_gt (zlen rs + 1) (zlen rs))); [lia|]. split_and!; [done..|].
  unfold read_all_records. cbn [disk]. fold f2. rw Hread. reflexivity.
Qed.

End frames.

(** ** The analysis of recovery *)

(** A record that makes [t] active, and one that ends its activity. *)
Definition starts (t : Z) (r : LogRecord) : bool :=
  match r with
  | Begin t' => t' =? t
  | Checkpoint ts => bool_decide (t ∈ ts)
  | _ => false
  end.
Definition ends (t : Z) (r : LogRecord) : bool :=
  match r with
  | Commit t' | Abort t' => t' =? t
  | Checkpoint ts => negb (bool_decide (t ∈ ts))
  | _ => false
  end.

(** [t] is active at the end of the log: something started it and nothing
    ended it afterwards. *)
Definition in_flight (t : Z) (records : list (Z * LogRecord)) : Prop :=
  ∃ pre lr post, records = pre ++ lr :: post ∧ starts t lr.2 = true ∧
    Forall (λ lr', ends t lr'.2 = false) post.

Lemma in_flight_snoc t records lr :
  in_flight t (records ++ [lr]) ↔ starts t lr.2 = true ∨ (in_flight t records ∧ ends t lr.2 = false).
Proof.
  split.
  - intros (pre & lr' & post & E & Hs & He). destruct post as [|x post _] using rev_ind.
    + apply app_inj_tail in E as [_ ->]. by left.
    + rw app_comm_cons app_assoc in E. apply app_inj_tail in E as [-> ->].
      apply Forall_app in He as [He Hl]. apply Forall_inv in Hl. right. split; [|done].
      by exists pre, lr', post.
  - intros [Hs|[(pre & lr' & post & -> & Hs & He) Hl]].
    + exists records, lr, []. split_and!; [done|done|constructor].
    + exists pre, lr', (post ++ [lr]). split_and!; [by rw -app_assoc|done|].
      apply Forall_app. split; [done|]. by constructor.
Qed.

Lemma analyze_fold records :
  let '(active, committed) := foldl analyze_step (∅, ∅) records in
  (∀ t, t ∈ active ↔ in_flight t records) ∧ (∀ t, t ∈ committed ↔ ∃ lsn, (lsn, Commit t) ∈ records).
Proof.
  induction records as [|lr records IH] using rev_ind.
  { split; intros t; cbn.
    - split; [set_solver|]. intros (pre & lr & post & E & _). by destruct pre.
    - split; [set_solver|]. intros [lsn Hin]. by apply not_elem_of_nil in Hin. }
  rw foldl_snoc. destruct (foldl analyze_step (∅, ∅) records) as [active committed].
  destruct IH as [IHa IHc].
  assert (∀ t, (∃ lsn, (lsn, Commit t) ∈ records ++ [lr]) ↔ t ∈ committed ∨ lr.2 = Commit t) as Hcom.
  { intros t. rw IHc. split.
    - intros [lsn Hin]. apply elem_of_app in Hin as [?|Hin]; [left; by exists lsn|].
      apply list_elem_of_singleton in Hin. subst lr. by right.
    - intros [[lsn Hin]|E]; [exists lsn; apply elem_of_app; by left|].
      exists lr.1. apply elem_of_app. right. apply list_elem_of_singleton. by rw -E; destruct lr. }
  destruct lr as [lsn r]; destruct r; cbn [analyze_step snd] in *; (split; intros t;
    [rw in_flight_snoc -IHa; cbn [starts ends snd]|rw Hcom]);
    rw ?bool_decide_eq_true ?negb_false_iff ?bool_decide_eq_true ?Z.eqb_eq ?Z.eqb_neq;
    try set_solver.
Qed.

(** What recovery decides. The committed transactions are those with a
    commit record; the ones to undo are those in flight at the end of the log;
    the redo list is the data records of the committed transactions in log
    order and the undo list the data records of those in flight in reverse
    order; and when no transaction is started after its commit, no record is
    both redone and undone. *)
Theorem analysis_spec records :
  let res := analyze_records records in
  (∀ t, t ∈ committed_txns res ↔ ∃ lsn, (lsn, Commit t) ∈ records) ∧
  (∀ t, t ∈ aborted_txns res ↔ in_flight t records) ∧
  redo_records res = filter (λ lr, selected (committed_txns res) lr = true) records ∧
  reverse (undo_records res) = filter (λ lr, selected (aborted_txns res) lr = true) records ∧
  ((∀ pre lr post t, records = pre ++ lr :: post → lr.2 = Commit t →
      Forall (λ lr', starts t lr'.2 = false) post) →
   ∀ lr, lr ∈ redo_records res → lr ∈ undo_records res → False).
Proof.
  intros res. unfold res, analyze_records. pose proof (analyze_fold records) as Hf.
  destruct (foldl analyze_step (∅, ∅) records) as [active committed]. destruct Hf as [Ha Hc].
  cbn [redo_records undo_records committed_txns aborted_txns].
  split_and!; [done..| |].
  - by rw filter_reverse reverse_involutive.
  - intros Hwf lr [Hs _]%list_elem_of_filter [Hs' _]%list_elem_of_filter. unfold selected in *.
    destruct (record_txn_id lr.2) as [t|]; [|done].
    apply andb_true_iff in Hs as [Hs%bool_decide_eq_true _], Hs' as [Hs'%bool_decide_eq_true _].
    apply Hc in Hs as [lsn Hin]. apply Ha in Hs' as (pre & lr' & post & -> & Hst & Hen).
    apply elem_of_app in Hin as [Hin|[Hin|Hin]%elem_of_cons].
    + apply list_elem_of_split in Hin as (l1 & l2 & ->).
      pose proof (Hwf l1 (lsn, Commit t) (l2 ++ lr' :: post) t ltac:(by rw -app_assoc) eq_refl) as Hf.
      apply Forall_app in Hf as [_ Hf]. apply Forall_inv in Hf. congruence.
    + subst lr'. done.
    + rw Forall_forall in Hen. specialize (Hen _ Hin). cbn in Hen. by rw Z.eqb_refl in Hen.
Qed.

(** ** A concrete codec *)

(** Records as a tag and three lists, and those as the bits of a number. *)
Definition to_fields (r : LogRecord) : Z * list Z * list Z * list Z :=
  match r with
  | Begin t => (0, [t], [], [])
  | Insert t a b c d => (1, [t; a; b; c], d, [])
  | Update t a b c d e => (2, [t; a; b; c], d, e)
  | Delete t a b c d => (3, [t; a; b; c], d, [])
  | Commit t => (4, [t], [], [])
  | Abort t => (5, [t], [], [])
  | Checkpoint ts => (6, ts, [], [])
  end.
Definition of_fields (f : Z * list Z * list Z * list Z) : option LogRecord :=
  match f with
  | (0, [t], _, _) => Some (Begin t)
  | (1, [t; a; b; c], d, _) => Some (Insert t a b c d)
  | (2, [t; a; b; c], d, e) => Some (Update t a b c d e)
  | (3, [t; a; b; c], d, _) => Some (Delete t a b c d)
  | (4, [t], _, _) => Some (Commit t)
  | (5, [t], _, _) => Some (Abort t)
  | (6, ts, _, _) => Some (Checkpoint ts)
  | _ => None
  end.

Fixpoint pos_bits (p : positive) : list Z :=
  match p with
  | xH => []
  | xO p' => 0 :: pos_bits p'
  | xI p' => 1 :: pos_bits p'
  end.
Fixpoint bits_pos (l : list Z) : positive :=
  match l with
  | [] => 1
  | b :: l' => if b =? 0 then xO (bits_pos l') else xI (bits_pos l')
  end.

#[export] Instance bit_codec : LogCodec := {
  serialize r := pos_bits (encode (to_fields r));
  deserialize l := decode (bits_pos l) ≫= of_fields;
  crc32 l := 0;
}.

#[export] Instance bit_codec_laws : LogCodecLaws bit_codec.
Proof.
  assert (∀ p, bits_pos (pos_bits p) = p) as Hb by (intros p; induction p; cbn; congruence).
  split; [|intros r; cbn [serialize bit_codec]; generalize (encode (to_fields r)) as p|cbn; lia].
  - intros r. cbn. rw Hb decode_encode. by destruct r.
  - intros p. induction p; cbn; constructor; try done; unfold byte_ok; lia.
Qed.

(** Two transactions, the first flushed, the second not. *)
Definition sample_log : list lop :=
  [LAppend (Begin 1); LAppend (Insert 1 1 0 0 [65]); LAppend (Commit 1); LCommit 3;
   LAppend (Begin 2); LAppend (Insert 2 1 0 1 [66])].

Lemma crash_recovery_witness :
  ∃ (m : Z) lm1 lm2, flushed_lsn (lrun sample_log) ≤ m ≤ zlen (logged sample_log) ∧
    new (take (Z.to_nat 250) (disk (lrun sample_log) ++ buffer (lrun sample_log))) = Some (Ok lm1) ∧
    current_lsn lm1 = m ∧
    recover lm1 = Some (lm2, Ok (analyze_records (number 0 (take (Z.to_nat m) (logged sample_log))))).
Proof. apply (crash_recovery sample_log 250); vm_compute; [reflexivity|discriminate]. Defined.

Lemma recover_to_lsn_prefix_witness :
  recover_to_lsn (lrun (sample_log ++ [LFlush])) 3 =
  Some (lrun (sample_log ++ [LFlush]), Ok (analyze_records (number 0 (take (Z.to_nat 3) (logged sample_log))))).
Proof. apply (recover_to_lsn_prefix sample_log 3). vm_compute. reflexivity. Defined.

Lemma torn_header_loses_commit_witness :
  ∃ lm1 lm3, new (frames 0 [Begin 1] ++ take 3 (frame 1 (serialize (Abort 1)))) = Some (Ok lm1) ∧
    let '(lm2, res) := append (Commit 1) lm1 in
    let '(lm2', res') := commit 2 lm2 in
    res = Ok 2 ∧ res' = Ok 2 ∧ flushed_lsn lm2' = 2 ∧
    read_all_records lm2' = Some (lm3, Ok (number 0 [Begin 1])).
Proof.
  apply (torn_header_loses_commit [Begin 1] (Abort 1) (Commit 1));
    [vm_compute; reflexivity|repeat constructor; vm_compute; discriminate|vm_compute; discriminate..|
     vm_compute; reflexivity].
Defined.

End Wal.
