(* ===== verification/LockManager.v ===== *)
(** The lock manager ([bytedb-core/src/mvcc/lock_manager.rs]): shared and
    exclusive locks on keys, queues of waiters, grants on release, and deadlock
    detection by a depth-first search of the waits-for graph.

    The mutex on the lock table makes an iteration of the loop of
    [acquire_with_timeout], a [release] and a [release_all] atomic: each is one
    step here, and a thread that waits on the condition variable makes another
    [attempt] later, after any steps of other threads. *)
From S2P Require Import Prelude.

Module LockManager.

Inductive LockMode := Shared | Exclusive.

#[export] Instance LockMode_eq_dec : EqDecision LockMode.
Proof. solve_decision. Defined.

(** [LockKey]: a table and the bytes of a key. *)
Definition LockKey : Type := string * list Z.

Record Holder := mkHolder { h_txn : Z; h_mode : LockMode }.
Record WaitEntry := mkWait { w_txn : Z; w_mode : LockMode }.

#[export] Instance Holder_eq_dec : EqDecision Holder.
Proof. solve_decision. Defined.
#[export] Instance WaitEntry_eq_dec : EqDecision WaitEntry.
Proof. solve_decision. Defined.

Record LockState := mkState { holders : list Holder; waiters : list WaitEntry }.

Definition default_state : LockState := mkState [] [].

Definition is_compatible (st : LockState) (mode : LockMode) (requesting : Z) : bool :=
  if bool_decide (length (holders st) = 0%nat) then true
  else if forallb (λ h, h_txn h =? requesting) (holders st) then true
  else match mode with
       | Shared => forallb (λ h, bool_decide (h_mode h = Shared)) (holders st)
       | Exclusive => false
       end.

(** The holder found by [iter_mut().find] is updated in place. *)
Fixpoint upgrade_first (txn : Z) (mode : LockMode) (hs : list Holder) : option (list Holder) :=
  match hs with
  | [] => None
  | h :: hs' =>
      if h_txn h =? txn
      then Some ((if bool_decide (mode = Exclusive) then mkHolder (h_txn h) Exclusive else h) :: hs')
      else cons h <$> upgrade_first txn mode hs'
  end.

Definition add_holder (txn : Z) (mode : LockMode) (st : LockState) : LockState :=
  match upgrade_first txn mode (holders st) with
  | Some hs => mkState hs (waiters st)
  | None => mkState (holders st ++ [mkHolder txn mode]) (waiters st)
  end.

Definition remove_holder (txn : Z) (st : LockState) : LockState * bool :=
  let hs := filter (λ h, h_txn h ≠ txn) (holders st) in
  (mkState hs (waiters st), negb (bool_decide (length hs = length (holders st)))).

Record LockMetrics := mkMetrics {
  acquires : Z;
  releases : Z;
  waits : Z;
  timeouts : Z;
  deadlocks : Z;
  total_wait_micros : Z;
}.

Record LockManager := mkLM {
  locks : gmap LockKey LockState;
  metrics : LockMetrics;
  default_timeout : Z;
  deadlock_check_interval : Z;
}.

Definition new : LockManager := mkLM ∅ (mkMetrics 0 0 0 0 0 0) 5000000 50.

Definition set_default_timeout (d : Z) (lm : LockManager) : LockManager :=
  mkLM (locks lm) (metrics lm) d (deadlock_check_interval lm).
Definition set_deadlock_check_interval_ms (ms : Z) (lm : LockManager) : LockManager :=
  mkLM (locks lm) (metrics lm) (default_timeout lm) ms.

(** The while loop pops a waiter in every iteration. *)
Fixpoint grant_loop (hs : list Holder) (ws : list WaitEntry) : LockState :=
  match ws with
  | [] => mkState hs []
  | front :: ws' =>
      if is_compatible (mkState hs ws) (w_mode front) (w_txn front)
      then grant_loop (holders (add_holder (w_txn front) (w_mode front) (mkState hs ws'))) ws'
      else mkState hs ws
  end.

Definition grant_pending (st : LockState) : LockState := grant_loop (holders st) (waiters st).

Definition remove_waiter (txn : Z) (st : LockState) : LockState :=
  mkState (holders st) (filter (λ w, w_txn w ≠ txn) (waiters st)).

(** ** Deadlock detection *)

Section order.
Context `{HashOrder}.

(** The elements of a [HashSet] in the order of its iteration. *)
Definition set_iter (X : gset Z) : list Z := hash_keys (gset_to_gmap tt X : gmap Z ()).

(** The waits-for edges of one lock. *)
Definition add_waits (g : gmap Z (gset Z)) (st : LockState) : gmap Z (gset Z) :=
  foldl (λ g w,
    <[w_txn w := default ∅ (g !! w_txn w) ∪
                 list_to_set (h_txn <$> filter (λ h, h_txn h ≠ w_txn w) (holders st))]> g)
    g (waiters st).

Definition waits_for_graph (ls : gmap LockKey LockState) : gmap Z (gset Z) :=
  foldl add_waits ∅ (hash_values ls).

Definition neighbors (g : gmap Z (gset Z)) (n : Z) : gset Z := default ∅ (g !! n).

(** The while loop of the search: [stack] has its last element first. *)
Fixpoint dfs_loop (fuel : nat) (g : gmap Z (gset Z)) (visited : gset Z) (stack : list Z)
    (on_path : gset Z) : option bool :=
  match fuel with
  | O => None
  | S fuel' =>
      match stack with
      | [] => Some false
      | node :: rest =>
          match list_find (λ n, n ∉ visited) (set_iter (neighbors g node)) with
          | Some (_, next) =>
              if bool_decide (next ∈ on_path) then Some true
              else dfs_loop fuel' g visited (next :: stack) ({[next]} ∪ on_path)
          | None => dfs_loop fuel' g ({[node]} ∪ visited) rest (on_path ∖ {[node]})
          end
      end
  end.

(** The nodes of the graph, and a number of iterations that is enough. *)
Definition graph_nodes (g : gmap Z (gset Z)) (starting : Z) : gset Z :=
  {[starting]} ∪ dom g ∪ ⋃ (map_to_list g).*2.

Definition dfs_fuel (g : gmap Z (gset Z)) (starting : Z) : nat := 2 * size (graph_nodes g starting) + 2.

Definition detect_deadlock (ls : gmap LockKey LockState) (starting : Z) : option bool :=
  let g := waits_for_graph ls in
  dfs_loop (dfs_fuel g starting) g ∅ [starting] {[starting]}.

(** ** The operations *)

Inductive Attempt := Granted | Blocked | Failed (e : CoreError).

Definition with_metrics (f : LockMetrics → LockMetrics) (lm : LockManager) : LockManager :=
  mkLM (locks lm) (f (metrics lm)) (default_timeout lm) (deadlock_check_interval lm).
Definition with_locks (ls : gmap LockKey LockState) (lm : LockManager) : LockManager :=
  mkLM ls (metrics lm) (default_timeout lm) (deadlock_check_interval lm).

Definition count_acquire (waited : Z) (m : LockMetrics) : LockMetrics :=
  mkMetrics (fetch_add (acquires m) 1) (releases m) (waits m) (timeouts m) (deadlocks m)
    (if 0 <? waited then fetch_add (total_wait_micros m) waited else total_wait_micros m).
Definition count_wait (m : LockMetrics) : LockMetrics :=
  mkMetrics (acquires m) (releases m) (fetch_add (waits m) 1) (timeouts m) (deadlocks m)
    (total_wait_micros m).
Definition count_deadlock (m : LockMetrics) : LockMetrics :=
  mkMetrics (acquires m) (releases m) (waits m) (timeouts m) (fetch_add (deadlocks m) 1)
    (total_wait_micros m).
Definition count_timeout (elapsed : Z) (m : LockMetrics) : LockMetrics :=
  mkMetrics (acquires m) (releases m) (waits m) (fetch_add (timeouts m) 1) (deadlocks m)
    (fetch_add (total_wait_micros m) elapsed).
Definition count_releases (n : Z) (m : LockMetrics) : LockMetrics :=
  mkMetrics (acquires m) (fetch_add (releases m) n) (waits m) (timeouts m) (deadlocks m)
    (total_wait_micros m).

(** One iteration of the loop of [acquire_with_timeout], [elapsed]
    microseconds after its start. *)
Definition attempt (txn : Z) (key : LockKey) (mode : LockMode) (elapsed timeout : Z) (lm : LockManager)
    : option (LockManager * Attempt) :=
  let st := default default_state (locks lm !! key) in
  if is_compatible st mode txn then
    Some (with_metrics (count_acquire elapsed)
            (with_locks (<[key := add_holder txn mode st]> (locks lm)) lm), Granted)
  else
    let queued := bool_decide (Exists (λ w, w_txn w = txn) (waiters st)) in
    let st1 := if queued then st else mkState (holders st) (waiters st ++ [mkWait txn mode]) in
    let ls1 := <[key := st1]> (locks lm) in
    let lm1 := with_locks ls1 (if queued then lm else with_metrics count_wait lm) in
    let removed := with_locks (<[key := remove_waiter txn st1]> ls1) lm1 in
    dead ← detect_deadlock ls1 txn;
    Some (if (dead : bool) then (with_metrics count_deadlock removed, Failed Deadlock)
          else if timeout <=? elapsed
          then (with_metrics (count_timeout elapsed) removed, Failed (LockTimeout txn))
          else (lm1, Blocked)).

(** The state of a lock when [txn] gives it up, or [None] when nobody is left. *)
Definition settle (st : LockState) : option LockState :=
  let st' := grant_pending st in
  if bool_decide (length (holders st') = 0%nat) && bool_decide (length (waiters st') = 0%nat)
  then None else Some st'.

Definition release (txn : Z) (key : LockKey) (lm : LockManager) : LockManager :=
  match locks lm !! key with
  | None => lm
  | Some st =>
      let '(st1, removed) := remove_holder txn st in
      let ls := partial_alter (λ _, settle st1) key (locks lm) in
      let lm1 := with_locks ls lm in
      if removed then with_metrics (count_releases 1) lm1 else lm1
  end.

Definition release_all (txn : Z) (lm : LockManager) : LockManager :=
  let n := zlen (filter (λ st, (remove_holder txn st).2 = true) (hash_values (locks lm))) in
  with_metrics (count_releases n)
    (with_locks (omap (λ st, settle (remove_waiter txn (remove_holder txn st).1)) (locks lm)) lm).
End order.

(** ** The search finds exactly the reachable cycles *)

Section dfs.
Context `{HashOrder} (g : gmap Z (gset Z)) (starting : Z).

Definition waits_on (a b : Z) : Prop := b ∈ neighbors g a.

Lemma elem_of_set_iter (X : gset Z) n : n ∈ set_iter X ↔ n ∈ X.
Proof.
  unfold set_iter. rw elem_of_hash_keys. rw lookup_gset_to_gmap.
  destruct (decide (n ∈ X)) as [Hn|Hn].
  - rw option_guard_True; [done|]. split; [done|]. intros _. by exists tt.
  - rw option_guard_False; [done|]. split; [by intros []|done].
Qed.

(** The stack is a path from [starting], its last element first. *)
Fixpoint is_path (stack : list Z) : Prop :=
  match stack with
  | [] => True
  | x :: rest => match rest with [] => x = starting | y :: _ => waits_on y x end ∧ is_path rest
  end.

(** The finished nodes, the last finished first: each waits only for nodes
    finished before it. *)
Fixpoint topo (fin : list Z) : Prop :=
  match fin with
  | [] => True
  | x :: fin' => x ∉ fin' ∧ (∀ n, waits_on x n → n ∈ fin') ∧ topo fin'
  end.

Lemma topo_closed fin x y : topo fin → x ∈ fin → waits_on x y → y ∈ fin.
Proof.
  induction fin as [|z fin IH]; [by intros _ ?%not_elem_of_nil|].
  intros (_ & Hz & Ht) [->|Hx]%elem_of_cons Hxy; apply elem_of_cons; right; [by apply Hz|by apply IH].
Qed.

Lemma topo_closed_rtc fin x y : topo fin → x ∈ fin → rtc waits_on x y → y ∈ fin.
Proof. intros Ht Hx Hxy. induction Hxy; [done|]. eauto using topo_closed. Qed.

Lemma topo_acyclic fin x : topo fin → x ∈ fin → ¬ tc waits_on x x.
Proof.
  induction fin as [|z fin IH]; [by intros _ ?%not_elem_of_nil|].
  intros (Hnz & Hz & Ht) [->|Hx]%elem_of_cons Hc; [|by apply IH].
  assert (∃ y, waits_on z y ∧ rtc waits_on y z) as (y & Hzy & Hyz).
  { inversion Hc as [? ? Hs|? y ? Hs Hr]; subst; [exists z|exists y]; (split; [done|]); [reflexivity|].
    by apply tc_rtc. }
  apply Hnz. apply (topo_closed_rtc fin y); [done|by apply Hz|done].
Qed.

Lemma path_reaches stack x rest n : is_path stack → stack = x :: rest → n ∈ stack → rtc waits_on n x.
Proof.
  revert x rest. induction stack as [|z stack IH]; intros x rest Hp E Hn; [done|].
  injection E as -> ->. apply elem_of_cons in Hn as [->|Hn]; [reflexivity|].
  destruct Hp as [He Hp]. destruct rest as [|y rest]; [by apply not_elem_of_nil in Hn|].
  eapply rtc_r; [|exact He]. by apply (IH y rest).
Qed.

Lemma path_from_start stack n : is_path stack → n ∈ stack → rtc waits_on starting n.
Proof.
  revert n. induction stack as [|z stack IH]; intros n Hp Hn; [by apply not_elem_of_nil in Hn|].
  destruct Hp as [He Hp]. apply elem_of_cons in Hn as [->|Hn]; [|by apply IH].
  destruct stack as [|y rest]; [subst z; reflexivity|]. eapply rtc_r; [|exact He]. apply IH; [done|set_solver].
Qed.

(** The invariant of the search, with the nodes in the order they finished. *)
Record dfs_inv (visited : gset Z) (stack : list Z) (on_path : gset Z) (fin : list Z) : Prop := {
  di_path : is_path stack;
  di_nodup : NoDup stack;
  di_on : on_path = list_to_set stack;
  di_vis : visited = list_to_set fin;
  di_topo : topo fin;
  di_disj : ∀ n, n ∈ stack → n ∉ fin;
  di_start : starting ∈ stack ∨ starting ∈ fin;
  di_nodes : ∀ n, n ∈ stack ∨ n ∈ fin → n ∈ graph_nodes g starting;
}.

Lemma waits_on_nodes a b : waits_on a b → b ∈ graph_nodes g starting.
Proof.
  unfold waits_on, neighbors, graph_nodes. destruct (g !! a) as [X|] eqn:Ha; cbn; [|set_solver].
  intros Hb. apply elem_of_union. right. apply elem_of_union_list. exists X. split; [|done].
  apply list_elem_of_fmap. exists (a, X). split; [done|]. by apply elem_of_map_to_list.
Qed.

Lemma topo_nodup fin : topo fin → NoDup fin.
Proof. induction fin as [|x fin IH]; [constructor|]. intros (? & _ & ?). constructor; auto. Qed.

(** There is room for both lists among the nodes. *)
Lemma dfs_room visited stack on_path fin :
  dfs_inv visited stack on_path fin →
  (length stack + length fin ≤ size (graph_nodes g starting))%nat.
Proof.
  intros [Hp Hnd _ _ Ht Hd _ Hn]. rw -length_app.
  assert (NoDup (stack ++ fin)) as Hnd2.
  { apply NoDup_app. split_and!; [done|by apply Hd|by apply topo_nodup]. }
  assert (list_to_set (stack ++ fin) ⊆ graph_nodes g starting) as Hsub.
  { intros n Hn'%elem_of_list_to_set. apply Hn. by apply elem_of_app. }
  apply subseteq_size in Hsub. by rw size_list_to_set in Hsub.
Qed.

Definition reachable_cycle : Prop := ∃ n, rtc waits_on starting n ∧ tc waits_on n n.

(** One push and one pop. *)
Lemma dfs_push visited node rest on_path fin next :
  dfs_inv visited (node :: rest) on_path fin → waits_on node next → next ∉ visited → next ∉ on_path →
  dfs_inv visited (next :: node :: rest) ({[next]} ∪ on_path) fin.
Proof.
  intros [Hp Hnd Ho Hv Ht Hd Hs Hn] He Hnv Hno. rw Ho elem_of_list_to_set in Hno.
  split; [split; done|by constructor|set_solver|done|done| | |].
  - intros n [->|?]%elem_of_cons; [set_solver|by apply Hd].
  - destruct Hs; [left; set_solver|by right].
  - intros n [[->|?]%elem_of_cons|?]; [exact (waits_on_nodes _ _ He)|apply Hn; by left|apply Hn; by right].
Qed.

Lemma dfs_pop visited node rest on_path fin :
  dfs_inv visited (node :: rest) on_path fin → (∀ n, waits_on node n → n ∈ visited) →
  dfs_inv ({[node]} ∪ visited) rest (on_path ∖ {[node]}) (node :: fin).
Proof.
  intros [Hp Hnd Ho Hv Ht Hd Hs Hn] Hall. apply NoDup_cons in Hnd as [Hnr Hnd].
  split; [by destruct Hp|done| |set_solver| | | |].
  - rw Ho. cbn. set_solver.
  - split; [apply Hd; by left|]. split; [|done]. intros n Hw%Hall. rw Hv in Hw.
    by apply elem_of_list_to_set in Hw.
  - intros n Hin [->|Hf]%elem_of_cons; [done|]. apply (Hd n); [by right|done].
  - destruct Hs as [[->|?]%elem_of_cons|?]; [right; by left|by left|right; by right].
  - intros n [?|[->|?]%elem_of_cons]; apply Hn; [left; by right|left; by left|by right].
Qed.

Lemma dfs_loop_spec fuel visited stack on_path fin :
  dfs_inv visited stack on_path fin →
  (2 * size (graph_nodes g starting) + 1 ≤ fuel + 2 * length fin + length stack)%nat →
  ∃ b, dfs_loop fuel g visited stack on_path = Some b ∧ (b = true ↔ reachable_cycle).
Proof.
  revert visited stack on_path fin. induction fuel as [|fuel IH]; intros visited stack on_path fin Hinv Hf.
  { pose proof (dfs_room _ _ _ _ Hinv). lia. }
  cbn [dfs_loop]. destruct stack as [|node rest].
  - exists false. split; [done|]. split; [done|]. intros (n & Hr & Hc). exfalso.
    destruct Hinv as [_ _ _ _ Ht _ [Hs|Hs] _]; [by apply not_elem_of_nil in Hs|].
    apply (topo_acyclic fin n Ht); [|done]. by apply (topo_closed_rtc fin starting).
  - destruct (list_find _ _) as [[i next]|] eqn:Hfind.
    + apply list_find_Some in Hfind as (Hnext & Hnv & _).
      apply list_elem_of_lookup_2, elem_of_set_iter in Hnext.
      case_bool_decide as Hon.
      * exists true. split; [done|]. split; [|done]. intros _.
        destruct Hinv as [Hp _ Ho _ _ _ _ _]. rw Ho in Hon. apply elem_of_list_to_set in Hon.
        exists next. split; [by apply (path_from_start (node :: rest))|].
        eapply tc_rtc_l; [by apply (path_reaches (node :: rest) node rest)|by apply tc_once].
      * apply (IH _ _ _ fin); [by apply dfs_push|]. cbn [length] in *. lia.
    + apply (IH _ _ _ (node :: fin)); [|cbn [length] in *; lia]. apply dfs_pop; [done|].
      apply list_find_None in Hfind. rw Forall_forall in Hfind. intros n Hw.
      destruct (decide (n ∈ visited)); [done|]. exfalso. apply (Hfind n); [|done]. by apply elem_of_set_iter.
Qed.
End dfs.

(** ** What the edges of the graph are *)

Lemma tc_mono {A} (R1 R2 : relation A) :
  (∀ x y, R1 x y → R2 x y) → ∀ x y, tc R1 x y → tc R2 x y.
Proof. intros Hsub x y. apply (tc_congruence id). exact Hsub. Qed.

Section graph.
Context `{HashOrder}.

(** [a] is queued on a lock that [b], another transaction, holds. *)
Definition blocked_by (ls : gmap LockKey LockState) (a b : Z) : Prop :=
  ∃ key st, ls !! key = Some st ∧ a ∈ w_txn <$> waiters st ∧ b ∈ h_txn <$> holders st ∧ b ≠ a.

Lemma waits_on_add_waits g st a b :
  waits_on (add_waits g st) a b ↔
  waits_on g a b ∨ (a ∈ w_txn <$> waiters st ∧ b ∈ h_txn <$> holders st ∧ b ≠ a).
Proof.
  unfold add_waits. generalize (waiters st) as ws. intros ws. revert g.
  induction ws as [|w ws IH]; intros g; cbn [foldl fmap list_fmap].
  { split; [by left|]. intros [?|[[]%not_elem_of_nil _]]. done. }
  rw IH. unfold waits_on at 1, neighbors at 1. rw elem_of_cons.
  destruct (decide (w_txn w = a)) as [<-|Hne].
  - rw lookup_insert_eq. cbn [default]. rw elem_of_union elem_of_list_to_set.
    assert (b ∈ h_txn <$> filter (λ h, h_txn h ≠ w_txn w) (holders st)
            ↔ b ∈ h_txn <$> holders st ∧ b ≠ w_txn w) as ->; [|unfold waits_on, neighbors; tauto].
    rw !list_elem_of_fmap. setoid_rewrite list_elem_of_filter. naive_solver.
  - rw lookup_insert_ne; [done|]. unfold waits_on, neighbors. naive_solver.
Qed.

Lemma waits_on_graph ls a b : waits_on (waits_for_graph ls) a b ↔ blocked_by ls a b.
Proof.
  unfold waits_for_graph, blocked_by.
  trans (waits_on ∅ a b ∨ ∃ st, st ∈ hash_values ls ∧
           a ∈ w_txn <$> waiters st ∧ b ∈ h_txn <$> holders st ∧ b ≠ a).
  - generalize (hash_values ls) as l, (∅ : gmap Z (gset Z)) as g. intros l. induction l as [|st l IH]; intros g; cbn [foldl].
    { set_solver. }
    rw IH waits_on_add_waits. set_solver.
  - setoid_rewrite elem_of_hash_values. unfold waits_on, neighbors. rw lookup_empty. cbn [default].
    set_solver.
Qed.

Definition deadlocked (ls : gmap LockKey LockState) (t : Z) : Prop :=
  ∃ n, rtc (blocked_by ls) t n ∧ tc (blocked_by ls) n n.

Lemma detect_deadlock_total ls t :
  ∃ b, detect_deadlock ls t = Some b ∧ (b = true ↔ deadlocked ls t).
Proof.
  set (g := waits_for_graph ls).
  destruct (dfs_loop_spec g t (dfs_fuel g t) ∅ [t] {[t]} []) as (b & Hb & Hiff).
  - split; [done|apply NoDup_singleton|set_solver|done|done|set_solver|left; set_solver|].
    intros n [->%list_elem_of_singleton|[]%not_elem_of_nil]. unfold graph_nodes. set_solver.
  - unfold dfs_fuel. cbn [length]. lia.
  - exists b. split; [exact Hb|]. rw Hiff. unfold reachable_cycle, deadlocked.
    assert (∀ x y, waits_on g x y ↔ blocked_by ls x y) as Hg by (intros; apply waits_on_graph).
    split; intros (n & Hr & Hc); exists n; (split; [|by apply (tc_mono _ _ (λ x y, proj1 (Hg x y)))
      || by apply (tc_mono _ _ (λ x y, proj2 (Hg x y)))]).
    + eapply rtc_subrel; [|exact Hr]. intros x y. apply Hg.
    + eapply rtc_subrel; [|exact Hr]. intros x y. apply Hg.
Qed.

(** The lock table with [txn] queued on [key]. *)
Definition enqueue (txn : Z) (key : LockKey) (mode : LockMode) (ls : gmap LockKey LockState) :
    gmap LockKey LockState :=
  let st := default default_state (ls !! key) in
  <[key := if bool_decide (Exists (λ w, w_txn w = txn) (waiters st)) then st
           else mkState (holders st) (waiters st ++ [mkWait txn mode])]> ls.

(** C22: an iteration of [acquire_with_timeout] always ends: the search for a
    deadlock terminates whatever the order in which the hash tables are walked.
    It grants the lock exactly when the holders allow it; otherwise, with the
    transaction queued, it fails with [Deadlock] exactly when a chain of
    transactions waiting for each other's locks leads from the requester into a
    cycle, fails with [LockTimeout] when there is none and the time is up, and
    else leaves the transaction waiting. *)
Theorem attempt_outcome txn key mode elapsed timeout lm :
  let ls := locks lm in
  ∃ lm' r, attempt txn key mode elapsed timeout lm = Some (lm', r) ∧
    match r with
    | Granted => is_compatible (default default_state (ls !! key)) mode txn = true
    | Failed e =>
        is_compatible (default default_state (ls !! key)) mode txn = false ∧
        ((e = Deadlock ∧ deadlocked (enqueue txn key mode ls) txn) ∨
         (e = LockTimeout txn ∧ ¬ deadlocked (enqueue txn key mode ls) txn ∧ timeout ≤ elapsed))
    | Blocked =>
        is_compatible (default default_state (ls !! key)) mode txn = false ∧
        ¬ deadlocked (enqueue txn key mode ls) txn ∧ elapsed < timeout
    end.
Proof.
  intros ls. unfold attempt. fold ls. destruct (is_compatible _ _ _) eqn:Hc; [by eexists _, Granted|].
  destruct (detect_deadlock_total (enqueue txn key mode ls) txn) as (b & Hb & Hiff).
  unfold enqueue in *. rw Hb. cbn. destruct b.
  - eexists _, (Failed Deadlock). split; [done|]. split; [done|]. left. split; [done|]. by apply Hiff.
  - assert (¬ deadlocked (enqueue txn key mode ls) txn) as Hn by (intros ?%Hiff; done).
    unfold enqueue in Hn. destruct (timeout <=? elapsed) eqn:Ht.
    + eexists _, (Failed _). split; [done|]. split; [done|]. right. split_and!; [done|done|lia].
    + eexists _, Blocked. split; [done|]. split_and!; [done|done|lia].
Qed.
End graph.

(** ** Mutual exclusion *)

(** Holders of one lock: one entry per transaction, and an exclusive one is alone. *)
Definition excl (hs : list Holder) : Prop :=
  NoDup (h_txn <$> hs) ∧ ∀ h, h ∈ hs → h_mode h = Exclusive → hs = [h].

Record lock_ok (st : LockState) : Prop := {
  lo_excl : excl (holders st);
  lo_held : holders st ≠ [];
  lo_queue : NoDup (w_txn <$> waiters st);
}.

Definition ok (lm : LockManager) : Prop := map_Forall (λ _, lock_ok) (locks lm).

Lemma excl_nil : excl [].
Proof. split; [constructor|]. by intros h ?%not_elem_of_nil. Qed.

Lemma excl_filter (P : Holder → Prop) `{∀ h, Decision (P h)} hs : excl hs → excl (filter P hs).
Proof.
  intros [Hnd Hx]. split.
  - eapply sublist_NoDup; [exact Hnd|]. apply fmap_sublist, sublist_filter.
  - intros h [HP Hin]%list_elem_of_filter Hm. rw (Hx h Hin Hm). rw filter_cons_True; [done|]. done.
Qed.

Lemma all_mine hs txn :
  NoDup (h_txn <$> hs) → Forall (λ h, h_txn h = txn) hs → hs = [] ∨ ∃ h, hs = [h] ∧ h_txn h = txn.
Proof.
  destruct hs as [|h [|h' hs]]; [by left| |].
  - intros _ Hf. right. exists h. split; [done|]. by apply Forall_inv in Hf.
  - intros Hnd Hf. cbn in Hnd. apply NoDup_cons in Hnd as [Hn _]. destruct Hn.
    apply Forall_cons in Hf as [E1 Hf]. apply Forall_inv in Hf. rw E1 Hf. by left.
Qed.

Lemma is_compatible_true st mode txn :
  is_compatible st mode txn = true ↔
  Forall (λ h, h_txn h = txn) (holders st) ∨
  (mode = Shared ∧ Forall (λ h, h_mode h = Shared) (holders st)).
Proof.
  unfold is_compatible. case_bool_decide as He.
  { apply nil_length_inv in He. rw He. split; [|done]. intros _. left. constructor. }
  pose proof (forallb_Forall (λ h, h_txn h =? txn) (λ h, h_txn h = txn) (holders st)
                (λ h, Z.eqb_eq _ _)) as H1.
  pose proof (forallb_Forall (λ h, bool_decide (h_mode h = Shared)) (λ h, h_mode h = Shared)
                (holders st) (λ h, bool_decide_eq_true _)) as H2.
  destruct (forallb (λ h, h_txn h =? txn) _); [naive_solver|].
  destruct mode; naive_solver.
Qed.

Lemma upgrade_first_None txn mode hs : upgrade_first txn mode hs = None ↔ txn ∉ h_txn <$> hs.
Proof.
  induction hs as [|h hs IH]; cbn; [split; [by intros _ ?%not_elem_of_nil|done]|].
  rw not_elem_of_cons. destruct (h_txn h =? txn) eqn:E.
  - apply Z.eqb_eq in E. naive_solver.
  - apply Z.eqb_neq in E. rw fmap_None IH. naive_solver.
Qed.

Lemma upgrade_first_Shared txn hs hs' : upgrade_first txn Shared hs = Some hs' → hs' = hs.
Proof.
  revert hs'. induction hs as [|h hs IH]; intros hs'; cbn; [done|].
  destruct (h_txn h =? txn); [by intros [= <-]|].
  intros (hs2 & E & ->)%fmap_Some. by rw (IH hs2 E).
Qed.

(** A grant to a transaction the holders are compatible with. *)
Lemma add_holder_excl st mode txn :
  excl (holders st) → is_compatible st mode txn = true → excl (holders (add_holder txn mode st)).
Proof.
  intros [Hnd Hx] [Hall|[-> Hsh]]%is_compatible_true; unfold add_holder.
  - destruct (all_mine _ _ Hnd Hall) as [E|(h & E & Ht)]; rw E; cbn.
    + split; [apply NoDup_singleton|]. by intros h ->%list_elem_of_singleton.
    + rw Ht Z.eqb_refl. cbn. split; [apply NoDup_singleton|]. by intros h' ->%list_elem_of_singleton.
  - destruct (upgrade_first _ _ _) as [hs|] eqn:E; cbn [holders].
    + by rw (upgrade_first_Shared _ _ _ E).
    + apply upgrade_first_None in E. split.
      * rw fmap_app. apply NoDup_app. split_and!; [done|set_solver|apply NoDup_singleton].
      * intros h [Hin|Hin]%elem_of_app Hm; [|by apply list_elem_of_singleton in Hin as ->].
        rw Forall_forall in Hsh. rw (Hsh h Hin) in Hm. done.
Qed.

(** The transaction holds the lock, at least in the mode it was granted. *)
Definition holds (hs : list Holder) (txn : Z) (mode : LockMode) : Prop :=
  ∃ h, h ∈ hs ∧ h_txn h = txn ∧ (mode = Exclusive → h_mode h = Exclusive).

Lemma upgrade_first_holds txn mode hs hs' : upgrade_first txn mode hs = Some hs' → holds hs' txn mode.
Proof.
  revert hs'. induction hs as [|h hs IH]; intros hs'; cbn; [done|].
  destruct (h_txn h =? txn) eqn:E.
  - intros [= <-]. apply Z.eqb_eq in E. case_bool_decide; eexists; (split; [by left|]); done.
  - intros (hs2 & (h' & ? & ?)%IH & ->)%fmap_Some. exists h'. split; [by right|done].
Qed.

Lemma add_holder_holds st mode txn : holds (holders (add_holder txn mode st)) txn mode.
Proof.
  unfold add_holder. destruct (upgrade_first _ _ _) as [hs|] eqn:E; cbn.
  - exact (upgrade_first_holds _ _ _ _ E).
  - exists (mkHolder txn mode). split; [set_solver|done].
Qed.

Lemma upgrade_first_keeps txn mode hs hs' t m :
  upgrade_first txn mode hs = Some hs' → holds hs t m → holds hs' t m.
Proof.
  revert hs'. induction hs as [|h hs IH]; intros hs'; cbn; [done|].
  destruct (h_txn h =? txn) eqn:E.
  - intros [= <-] (h' & [->|?]%elem_of_cons & ? & ?).
    + case_bool_decide; eexists; (split; [by left|]); done.
    + exists h'. split; [by right|done].
  - intros (hs2 & E2 & ->)%fmap_Some (h' & [->|Hin]%elem_of_cons & ? & ?).
    + exists h. split; [by left|done].
    + destruct (IH hs2 E2) as (h2 & ? & ?); [by exists h'|]. exists h2. split; [by right|done].
Qed.

Lemma add_holder_keeps st mode txn t m :
  holds (holders st) t m → holds (holders (add_holder txn mode st)) t m.
Proof.
  unfold add_holder. destruct (upgrade_first _ _ _) as [hs|] eqn:E; cbn.
  - intros Hh. exact (upgrade_first_keeps _ _ _ _ _ _ E Hh).
  - intros (h & ? & ?). exists h. split; [set_solver|done].
Qed.

Lemma holds_cons hs t m : holds hs t m → hs ≠ [].
Proof. intros (h & Hin & _) ->. by apply not_elem_of_nil in Hin. Qed.

Lemma holds_compatible st txn mode :
  excl (holders st) → holds (holders st) txn mode → is_compatible st mode txn = true.
Proof.
  intros [_ Hx] (h & Hin & Ht & Hm). apply is_compatible_true.
  destruct (h_mode h) eqn:E.
  - right. destruct mode; [|by specialize (Hm eq_refl)]. split; [done|]. apply Forall_forall.
    intros h' Hin'. destruct (h_mode h') eqn:E'; [done|]. rw (Hx h' Hin' E') in Hin.
    apply list_elem_of_singleton in Hin. congruence.
  - left. rw (Hx h Hin E). by constructor.
Qed.

(** The queue is served from its front until a waiter has to go on waiting. *)
Definition front_waits (st : LockState) : Prop :=
  match waiters st with
  | [] => True
  | w :: _ => is_compatible st (w_mode w) (w_txn w) = false
  end.

Lemma grant_loop_spec hs ws :
  excl hs →
  let st := grant_loop hs ws in
  excl (holders st) ∧ front_waits st ∧
  (∃ granted, ws = granted ++ waiters st ∧ Forall (λ w, holds (holders st) (w_txn w) (w_mode w)) granted) ∧
  (∀ t m, holds hs t m → holds (holders st) t m).
Proof.
  revert hs. induction ws as [|w ws IH]; intros hs Hx; cbn [grant_loop].
  { split_and!; [done|done|by exists []|done]. }
  destruct (is_compatible (mkState hs (w :: ws)) _ _) eqn:Hc.
  - pose proof (add_holder_excl (mkState hs ws) _ _ Hx Hc) as Hx'.
    destruct (IH _ Hx') as (? & ? & (gr & Hg & Hall) & Hkeep). split_and!; [done|done| |].
    + exists (w :: gr). split; [cbn; by rw -Hg|]. constructor; [|done]. apply Hkeep, add_holder_holds.
    + intros t m Hh. apply Hkeep. by apply (add_holder_keeps (mkState hs ws)).
  - split_and!; [done|exact Hc|by exists []|done].
Qed.

Lemma settle_spec st st' :
  excl (holders st) → NoDup (w_txn <$> waiters st) → settle st = Some st' → lock_ok st'.
Proof.
  intros Hx Hnd. unfold settle, grant_pending.
  destruct (grant_loop_spec (holders st) (waiters st) Hx) as (Hx' & Hf & (gr & Hg & _) & _).
  set (st2 := grant_loop _ _) in *. rw Hg fmap_app in Hnd. apply NoDup_app in Hnd as (_ & _ & Hnd).
  unfold front_waits in Hf. destruct (holders st2) as [|h hs] eqn:Eh, (waiters st2) as [|w ws] eqn:Ew; cbn;
    intros [= <-].
  - unfold is_compatible in Hf. by rw Eh in Hf.
  - by split; rw ?Eh ?Ew.
  - by split; rw ?Eh ?Ew.
Qed.

Lemma filter_queue (P : WaitEntry → Prop) `{∀ w, Decision (P w)} ws :
  NoDup (w_txn <$> ws) → NoDup (w_txn <$> filter P ws).
Proof. intros Hnd. eapply sublist_NoDup; [exact Hnd|]. apply fmap_sublist, sublist_filter. Qed.

Lemma grant_free w ws : holds (holders (grant_loop [] (w :: ws))) (w_txn w) (w_mode w).
Proof.
  cbn [grant_loop is_compatible]. apply grant_loop_spec.
  - by apply add_holder_excl; [apply excl_nil|].
  - apply add_holder_holds.
Qed.

Section steps.
Context `{HashOrder}.

Inductive step : LockManager → LockManager → Prop :=
  | step_attempt txn key mode elapsed timeout lm lm' r :
      attempt txn key mode elapsed timeout lm = Some (lm', r) → step lm lm'
  | step_release txn key lm : step lm (release txn key lm)
  | step_release_all txn lm : step lm (release_all txn lm)
  | step_set_timeout d lm : step lm (set_default_timeout d lm)
  | step_set_interval ms lm : step lm (set_deadlock_check_interval_ms ms lm).

Lemma enqueued_ok st txn mode :
  lock_ok st →
  lock_ok (if bool_decide (Exists (λ w, w_txn w = txn) (waiters st)) then st
           else mkState (holders st) (waiters st ++ [mkWait txn mode])).
Proof.
  intros [Hx Hh Hq]. case_bool_decide as He; [done|]. split; cbn; [done|done|].
  rw fmap_app. apply NoDup_app. split_and!; [done| |apply NoDup_singleton].
  intros t Hin ->%list_elem_of_singleton. apply He. apply Exists_exists.
  apply list_elem_of_fmap in Hin as (w & ? & ?). exists w. by split.
Qed.

Lemma remove_waiter_ok st txn : lock_ok st → lock_ok (remove_waiter txn st).
Proof. intros [Hx Hh Hq]. split; cbn; [done|done|by apply filter_queue]. Qed.

Lemma attempt_ok txn key mode elapsed timeout lm lm' r :
  ok lm → attempt txn key mode elapsed timeout lm = Some (lm', r) → ok lm'.
Proof.
  intros Hok. unfold attempt. set (st := default default_state (locks lm !! key)).
  assert (excl (holders st) ∧ NoDup (w_txn <$> waiters st)) as [Hx Hq].
  { unfold st. destruct (locks lm !! key) as [st'|] eqn:E; cbn.
    - destruct (Hok _ _ E). done.
    - split; [apply excl_nil|constructor]. }
  destruct (is_compatible st mode txn) eqn:Hc.
  - intros [= <- <-]. apply map_Forall_insert_2; [|exact Hok]. split.
    + by apply add_holder_excl.
    + eapply holds_cons, add_holder_holds.
    + unfold add_holder. by destruct (upgrade_first _ _ _).
  - assert (lock_ok st) as Hst.
    { unfold st. destruct (locks lm !! key) as [st'|] eqn:E; [exact (Hok _ _ E)|]. cbn in Hc. done. }
    intros (dead & _ & E)%bind_Some. injection E as E.
    pose proof (enqueued_ok st txn mode Hst) as H1.
    destruct dead, (timeout <=? elapsed); injection E as <- <-; unfold ok; cbn;
      repeat apply map_Forall_insert_2; try apply remove_waiter_ok; done.
Qed.

Lemma remove_holder_excl st txn : excl (holders st) → excl (holders (remove_holder txn st).1).
Proof. apply excl_filter. Qed.

Lemma release_ok txn key lm : ok lm → ok (release txn key lm).
Proof.
  intros Hok. unfold release. destruct (locks lm !! key) as [st|] eqn:E; [|done].
  destruct (Hok _ _ E) as [Hx _ Hq].
  assert (map_Forall (λ _, lock_ok) (partial_alter (λ _, settle (remove_holder txn st).1) key (locks lm))).
  { intros k st' Hk. destruct (decide (key = k)) as [<-|Hne].
    - rw lookup_partial_alter_eq in Hk. eapply settle_spec; [| |exact Hk]; [by apply remove_holder_excl|done].
    - rw lookup_partial_alter_ne in Hk; [done|]. by apply (Hok k). }
  unfold ok. cbn. by case_bool_decide.
Qed.

Lemma release_all_ok txn lm : ok lm → ok (release_all txn lm).
Proof.
  intros Hok k st' (st & Hk & Hst)%lookup_omap_Some. destruct (Hok _ _ Hst) as [Hx _ Hq].
  eapply settle_spec; [| |exact Hk]; [by apply remove_holder_excl|]. by apply filter_queue.
Qed.

Lemma step_ok lm lm' : step lm lm' → ok lm → ok lm'.
Proof.
  intros [] Hok; [eapply attempt_ok; eassumption|by apply release_ok|by apply release_all_ok|done|done].
Qed.

Lemma reachable_ok lm : rtc step new lm → ok lm.
Proof.
  intros Hr. assert (ok new) as Hok by apply map_Forall_empty. revert Hok.
  induction Hr as [|x y z Hxy _ IH]; intros Hok; [done|]. apply IH. exact (step_ok _ _ Hxy Hok).
Qed.
(** C23: in every state the manager can reach, whatever requests, timeouts and
    releases threads interleave, a lock in the table has a holder, a transaction
    holds it at most once, and two transactions that hold it at the same time
    both hold it shared. *)
Theorem mutual_exclusion lm key st :
  rtc step new lm → locks lm !! key = Some st →
  holders st ≠ [] ∧
  ∀ h1 h2, h1 ∈ holders st → h2 ∈ holders st →
    h1 = h2 ∨ (h_txn h1 ≠ h_txn h2 ∧ h_mode h1 = Shared ∧ h_mode h2 = Shared).
Proof.
  intros Hr Hst. destruct (reachable_ok lm Hr key st Hst) as [[Hnd Hx] Hh _]. split; [done|].
  intros h1 h2 H1 H2. destruct (decide (h1 = h2)) as [|Hne]; [by left|]. right. split_and!.
  - intros E. apply Hne. destruct (proj1 (list_elem_of_lookup _ _) H1) as [i Hi].
    destruct (proj1 (list_elem_of_lookup _ _) H2) as [j Hj].
    assert (i = j) as ->; [|congruence].
    apply (NoDup_lookup _ i j (h_txn h1) Hnd); rw list_lookup_fmap; [by rw Hi|]. by rw Hj E.
  - destruct (h_mode h1) eqn:E; [done|]. rw (Hx h1 H1 E) in H2.
    apply list_elem_of_singleton in H2. congruence.
  - destruct (h_mode h2) eqn:E; [done|]. rw (Hx h2 H2 E) in H1.
    apply list_elem_of_singleton in H1. congruence.
Qed.

(** C24: when the last holder of a lock releases it, the longest-waiting
    transaction gets the lock in the release itself, in the mode it asked for,
    and its next attempt returns; waiters behind it go on waiting only if the
    first of them is incompatible with the new holders. *)
Theorem release_hands_over txn key lm st w ws elapsed timeout :
  rtc step new lm → locks lm !! key = Some st →
  Forall (λ h, h_txn h = txn) (holders st) → waiters st = w :: ws →
  ∃ st' lm2, locks (release txn key lm) !! key = Some st' ∧
    holds (holders st') (w_txn w) (w_mode w) ∧ front_waits st' ∧
    attempt (w_txn w) key (w_mode w) elapsed timeout (release txn key lm) = Some (lm2, Granted).
Proof.
  intros Hr Hst Hall Hw. pose proof (release_ok txn key lm (reachable_ok lm Hr)) as Hok.
  assert (locks (release txn key lm) !! key = Some (grant_loop [] (w :: ws))) as Hst'.
  { unfold release. rw Hst. unfold remove_holder. rw filter_none.
    { eapply Forall_impl; [exact Hall|]. naive_solver. }
    assert (settle (mkState [] (waiters st)) = Some (grant_loop [] (w :: ws))) as Hs.
    { unfold settle, grant_pending. rw Hw. cbn [holders waiters].
      pose proof (holds_cons _ _ _ (grant_free w ws)) as Hne. by destruct (holders (grant_loop _ _)). }
    case_match; cbn [locks with_locks with_metrics]; by rw lookup_partial_alter_eq. }
  destruct (grant_loop_spec [] (w :: ws) excl_nil) as (Hx & Hf & _ & _).
  exists (grant_loop [] (w :: ws)). unfold attempt. rw Hst'. cbn [default].
  rw holds_compatible; [done|apply grant_free|]. eexists. split_and!; [done|apply grant_free|done|done].
Qed.
End steps.

(** ** Runs *)

Inductive op := Acquire (txn : Z) (key : LockKey) (mode : LockMode) | Release (txn : Z) (key : LockKey).

(** A schedule of attempts, 1 microsecond after their start, and releases. *)
Definition run_op `{HashOrder} (o : op) (lm : LockManager) : option (LockManager * option Attempt) :=
  match o with
  | Acquire txn key mode => '(lm', r) ← attempt txn key mode 1 5000000 lm; Some (lm', Some r)
  | Release txn key => Some (release txn key lm, None)
  end.

Fixpoint run_ops `{HashOrder} (os : list op) (lm : LockManager) : option (LockManager * list (option Attempt)) :=
  match os with
  | [] => Some (lm, [])
  | o :: os' =>
      '(lm1, r) ← run_op o lm;
      '(lm2, rs) ← run_ops os' lm1;
      Some (lm2, r :: rs)
  end.

Lemma run_ops_reachable `{HashOrder} os lm lm' rs : run_ops os lm = Some (lm', rs) → rtc step lm lm'.
Proof.
  revert lm rs. induction os as [|o os IH]; intros lm rs; cbn [run_ops].
  { intros [= <- <-]. reflexivity. }
  intros ([lm1 r] & H1 & ([lm2 rs2] & H2 & [= <- <-])%bind_Some)%bind_Some.
  eapply rtc_l; [|exact (IH _ _ H2)]. destruct o; cbn in H1.
  - apply bind_Some in H1 as ([lm3 r3] & H3 & [= <- <-]). exact (step_attempt _ _ _ _ _ _ _ _ H3).
  - injection H1 as <- <-. apply step_release.
Qed.

Definition row1 : LockKey := ("t"%string, [1]).

(** Two readers, and a writer that waits for them. *)
Definition queue_run := run_ops [Acquire 1 row1 Shared; Acquire 2 row1 Shared; Acquire 3 row1 Exclusive;
                                 Release 2 row1] new.

(** The lock of [row1] in a run. *)
Definition row1_of (r : option (LockManager * list (option Attempt))) : option LockState :=
  '(lm, _) ← r; locks lm !! row1.

Lemma mutual_exclusion_witness :
  ∃ lm st, locks lm !! row1 = Some st ∧ holders st = [mkHolder 1 Shared; mkHolder 2 Shared] ∧ holders st ≠ [].
Proof.
  destruct (run_ops [Acquire 1 row1 Shared; Acquire 2 row1 Shared] new) as [[lm rs]|] eqn:E;
    [|vm_compute in E; discriminate].
  exists lm, (mkState [mkHolder 1 Shared; mkHolder 2 Shared] []).
  assert (locks lm !! row1 = Some (mkState [mkHolder 1 Shared; mkHolder 2 Shared] [])) as Hst.
  { assert (row1_of (Some (lm, rs)) = Some (mkState [mkHolder 1 Shared; mkHolder 2 Shared] [])) as Hr.
    { rewrite <- E. vm_compute. reflexivity. }
    exact Hr. }
  split; [exact Hst|]. split; [reflexivity|].
  exact (proj1 (mutual_exclusion lm row1 _ (run_ops_reachable _ _ _ _ E) Hst)).
Defined.

Lemma release_hands_over_witness :
  ∃ lm st, locks lm !! row1 = Some st ∧ holders st = [mkHolder 3 Exclusive].
Proof.
  destruct queue_run as [[lm rs]|] eqn:E; [|vm_compute in E; discriminate].
  assert (locks lm !! row1 = Some (mkState [mkHolder 1 Shared] [mkWait 3 Exclusive])) as Hst.
  { assert (row1_of (Some (lm, rs)) = Some (mkState [mkHolder 1 Shared] [mkWait 3 Exclusive])) as Hr.
    { rewrite <- E. vm_compute. reflexivity. }
    exact Hr. }
  destruct (release_hands_over 1 row1 lm _ (mkWait 3 Exclusive) [] 10 100
             (run_ops_reachable _ _ _ _ E) Hst) as (st' & _ & H1 & _ & _ & _).
  - repeat constructor.
  - reflexivity.
  - exists (release 1 row1 lm), st'. split; [exact H1|].
    assert (locks (release 1 row1 lm) !! row1 = Some (mkState [mkHolder 3 Exclusive] [])) as H2.
    { unfold release. rw Hst. vm_compute (remove_holder _ _). cbn [locks with_locks with_metrics].
      rw lookup_partial_alter_eq. reflexivity. }
    rw H1 in H2. injection H2 as ->. reflexivity.
Defined.

(** a request that is granted when its thread looks again leaves its entry
    in the queue. Transactions 1 and 2 read a row, 3 queues to write it and 1
    queues behind it to upgrade; 2 releases, 1 wakes and is granted the upgrade,
    and releases the row. When 3, served next, releases it as well, the stale
    entry makes 1, which has finished with the row, its exclusive holder again. *)
Theorem stale_waiter_granted :
  ∃ lm, run_ops [Acquire 1 row1 Shared; Acquire 2 row1 Shared; Acquire 3 row1 Exclusive;
                 Acquire 1 row1 Exclusive; Release 2 row1; Acquire 1 row1 Exclusive; Release 1 row1;
                 Acquire 3 row1 Exclusive; Release 3 row1] new =
          Some (lm, [Some Granted; Some Granted; Some Blocked; Some Blocked; None; Some Granted; None;
                     Some Granted; None]) ∧
        locks lm !! row1 = Some (mkState [mkHolder 1 Exclusive] []).
Proof. eexists. split; vm_compute; reflexivity. Qed.

End LockManager.
