(* ===== verification/DiskManager.v ===== *)
(** The file of pages ([bytedb-core/src/storage/disk_manager.rs]): reading and
    writing pages with their checksum, and the allocation of page numbers.

    The file is the list of its bytes and a write behind its end fills the gap
    with zeros, as the operating system does. Reading behind the end is the
    error [Io]; a failing device is not modelled. *)
From S2P Require Import Prelude Page.
Import Page.

Module DiskManager.

(** [crc32fast::hash], whose value is a [u32]. *)
Class Crc32 := {
  crc32 : list Z → Z;
  crc32_range : ∀ bs, 0 ≤ crc32 bs < 2 ^ 32;
}.

Record DiskManager := mkDisk { file : list Z; next_page_id : Z }.

(** The bounds of the [u32] conversions are the code's. *)
Definition new (file : list Z) : DiskManager :=
  let file_len := zlen file in
  mkDisk file (if file_len =? 0 then 1 else wrap 32 file_len / wrap 32 PAGE_SIZE).

Definition page_offset (page_id : Z) : Z := page_id * PAGE_SIZE.

(** [read_exact_at] and [write_all_at]. *)
Definition read_at (f : list Z) (off len : Z) : result (list Z) :=
  match get_slice f off len with Some bs => Ok bs | None => Err Io end.

Definition file_write (f : list Z) (off : Z) (buf : list Z) : list Z :=
  write_at (f ++ replicate (Z.to_nat (off + zlen buf - zlen f)) 0) off buf.

Section crc.
Context `{Crc32}.

Definition read_page (dm : DiskManager) (page_id : Z) : result Page :=
  match read_at (file dm) (page_offset page_id) PAGE_SIZE with
  | Err e => Err e
  | Ok bs =>
      let page := mkPage page_id bs in
      let stored := checksum page in
      if negb (stored =? 0) && negb (stored =? compute_checksum crc32 page)
      then Err (ChecksumMismatch page_id)
      else Ok page
  end.

(** The bytes [write_page] writes for a page. *)
Definition sealed (d : list Z) : list Z :=
  let buf := write_at d 16 (le_bytes 4 0) in
  let cs := crc32 (drop 20 buf) in
  write_at buf 16 (le_bytes 4 cs).

Definition write_page (page_id : Z) (page : Page) (dm : DiskManager) : DiskManager :=
  mkDisk (file_write (file dm) (page_offset page_id) (sealed (data page))) (next_page_id dm).

Definition allocate_page (dm : DiskManager) : DiskManager * Z :=
  let page_id := next_page_id dm in
  let dm1 := mkDisk (file dm) (wrap 32 (page_id + 1)) in
  (write_page page_id (Page.new page_id) dm1, page_id).

(** The lock is not taken, the page stays in the file. *)
Definition deallocate_page (_page_id : Z) (dm : DiskManager) : DiskManager := dm.

Definition num_pages (dm : DiskManager) : Z := next_page_id dm.

(** ** Sealed pages *)

(** What a page holds, its checksum aside. *)
Definition body (d : list Z) : list Z := take 16 d ++ drop 20 d.

Definition page_len (d : list Z) : Prop := zlen d = PAGE_SIZE.

Lemma write_checksum_len d n : page_len d → page_len (write_at d 16 (le_bytes 4 n)).
Proof. unfold page_len, PAGE_SIZE. intros Hd. rw zlen_write_at; [done|rw zlen_le_bytes; lia|done]. Qed.

Lemma sealed_len d : page_len d → page_len (sealed d).
Proof. intros Hd. by do 2 apply write_checksum_len. Qed.

(** Writing the checksum leaves the rest of the page alone. *)
Lemma write_checksum_take d n :
  page_len d → take 16 (write_at d 16 (le_bytes 4 n)) = take 16 d.
Proof.
  intros Hd. unfold write_at. rw take_app_le.
  { rw length_take. unfold page_len, zlen, PAGE_SIZE in Hd. lia. }
  rw take_take. done.
Qed.

Lemma write_checksum_drop d n :
  page_len d → drop 20 (write_at d 16 (le_bytes 4 n)) = drop 20 d.
Proof.
  intros Hd. unfold page_len, zlen, PAGE_SIZE in Hd. unfold write_at. change (Z.to_nat 16) with 16%nat.
  rw drop_app_ge; [rw length_take; lia|]. rw length_take.
  replace (20 - 16 `min` Datatypes.length d)%nat with 4%nat by lia. rw drop_app_ge; [rw length_le_bytes; lia|].
  rw length_le_bytes. done.
Qed.

Lemma body_sealed d : page_len d → body (sealed d) = body d.
Proof.
  intros Hd. unfold body, sealed.
  rw !write_checksum_take ?write_checksum_drop; try apply write_checksum_len; try done.
Qed.

Lemma checksum_sealed i d : page_len d → checksum (mkPage i (sealed d)) = crc32 (drop 20 d).
Proof.
  intros Hd. unfold checksum, get_field, sealed. cbn [data].
  rw (write_checksum_drop d 0 Hd). set (c := crc32 (drop 20 d)).
  assert (slice (write_at (write_at d 16 (le_bytes 4 0)) 16 (le_bytes 4 c)) 16 4 = le_bytes 4 c) as ->.
  { apply (slice_write_same _ 16 (le_bytes 4 c)); [lia|].
    pose proof (write_checksum_len d 0 Hd) as Hl. unfold page_len, PAGE_SIZE in Hl.
    rw Hl zlen_le_bytes. lia. }
  apply le_bytes_val_small. exact (crc32_range _).
Qed.

Lemma compute_sealed i d : page_len d → compute_checksum crc32 (mkPage i (sealed d)) = crc32 (drop 20 d).
Proof.
  intros Hd. unfold compute_checksum, sealed. cbn [data].
  rw write_checksum_drop; [by apply write_checksum_len|]. by rw write_checksum_drop.
Qed.
(** ** Reading back *)

(** The page lies in the file. *)
Definition stored (dm : DiskManager) (page_id : Z) : Prop :=
  0 ≤ page_id ∧ page_offset page_id + PAGE_SIZE ≤ zlen (file dm).

Lemma padded_len (f : list Z) off (buf : list Z) :
  0 ≤ off → off + zlen buf ≤ zlen (f ++ replicate (Z.to_nat (off + zlen buf - zlen f)) 0).
Proof. intros. rw zlen_app. unfold zlen at 3. rw length_replicate. pose proof (zlen_nonneg f). lia. Qed.

Lemma file_write_len f off buf :
  0 ≤ off → zlen (file_write f off buf) = Z.max (zlen f) (off + zlen buf).
Proof.
  intros. unfold file_write. rw zlen_write_at; [done|by apply padded_len|].
  rw zlen_app. unfold zlen at 2. rw length_replicate. lia.
Qed.

Lemma get_file_write_same f off buf :
  0 ≤ off → get_slice (file_write f off buf) off (zlen buf) = Some buf.
Proof.
  intros. rw get_slice_Some; [done|apply zlen_nonneg|rw file_write_len; lia|].
  f_equal. apply slice_write_same; [done|by apply padded_len].
Qed.

Lemma get_file_write_other f off buf off' len' :
  0 ≤ off → 0 ≤ off' → 0 ≤ len' → off' + len' ≤ zlen f →
  off' + len' ≤ off ∨ off + zlen buf ≤ off' →
  get_slice (file_write f off buf) off' len' = get_slice f off' len'.
Proof.
  intros. rw !get_slice_Some; try done; [rw file_write_len; lia|]. f_equal. unfold file_write.
  rw slice_write_disjoint; [done|by apply padded_len|done|done|].
  apply list_eq. intros i. destruct (decide (i < Z.to_nat len')%nat).
  - rw !lookup_slice; [lia..|]. rw lookup_app_l; [|done]. unfold zlen in *. lia.
  - unfold slice. rw !lookup_take_ge; [lia..|done].
Qed.

Lemma stored_write dm i p j :
  page_len (data p) → 0 ≤ i → stored dm j ∨ j = i → stored (write_page i p dm) j.
Proof.
  intros Hp Hi Hj. unfold stored, write_page. cbn [file]. pose proof (sealed_len _ Hp) as Hl.
  unfold page_len in Hl. rw file_write_len; [unfold page_offset, PAGE_SIZE; lia|].
  rw Hl. unfold stored in Hj. destruct Hj as [Hj|Hj]; [destruct Hj; split; [done|lia]|subst j; split; lia].
Qed.

Lemma read_write_same dm i p :
  page_len (data p) → 0 ≤ i → read_page (write_page i p dm) i = Ok (mkPage i (sealed (data p))).
Proof.
  intros Hp Hi. unfold read_page, read_at, write_page. cbn [file].
  assert (PAGE_SIZE = zlen (sealed (data p))) as E by (symmetry; by apply sealed_len).
  rewrite {1} E. rw get_file_write_same; [unfold page_offset, PAGE_SIZE; lia|].
  rw checksum_sealed; [done|]. rw compute_sealed; [done|]. rw Z.eqb_refl andb_false_r. done.
Qed.

Lemma read_write_other dm i j p :
  page_len (data p) → 0 ≤ i → stored dm j → i ≠ j → read_page (write_page i p dm) j = read_page dm j.
Proof.
  intros Hp Hi [Hj Hs] Hne. unfold read_page, read_at, write_page. cbn [file].
  pose proof (sealed_len _ Hp) as Hl. unfold page_len in Hl.
  rw get_file_write_other; [| | |done| |done]; unfold page_offset, PAGE_SIZE in *; rw ?Hl; lia.
Qed.

Lemma new_page_len i : page_len (data (Page.new i)).
Proof.
  unfold page_len, zlen. destruct (new_wf i) as [Hwf _]. apply Hwf.
Qed.

(** a page written to the file reads back, whatever the file held, with
    everything but its checksum field as it was written; the other pages of the
    file read as before. *)
Theorem disk_round_trip dm i p :
  page_len (data p) → 0 ≤ i →
  (∃ q, read_page (write_page i p dm) i = Ok q ∧ id q = i ∧ body (data q) = body (data p)) ∧
  (∀ j, stored dm j → i ≠ j → read_page (write_page i p dm) j = read_page dm j).
Proof.
  intros Hp Hi. split.
  - exists (mkPage i (sealed (data p))). split; [by apply read_write_same|]. split; [done|by apply body_sealed].
  - intros j Hs Hne. by apply read_write_other.
Qed.

(** C26: opening a file of [n] pages resumes the page numbers at [n] modulo
    [2^19]: from 4 GiB on, the number the next allocation returns belongs to a
    page of the file, and that page is overwritten with an empty one. *)
Theorem reopen_overwrites f n :
  zlen f = n * PAGE_SIZE → 2 ^ 19 ≤ n →
  let dm := new f in
  let '(dm', i) := allocate_page dm in
  stored dm i ∧ i = n mod 2 ^ 19 ∧
  read_page dm' i = Ok (mkPage i (sealed (data (Page.new i)))).
Proof.
  intros Hf Hn dm. unfold dm, allocate_page, new. rw Hf. cbn [next_page_id file].
  assert (n * PAGE_SIZE =? 0 = false) as -> by (unfold PAGE_SIZE; lia).
  set (i := wrap 32 (n * PAGE_SIZE) / wrap 32 PAGE_SIZE).
  assert (i = n mod 2 ^ 19) as Hi.
  { unfold i, wrap, PAGE_SIZE. change (8192 mod 2 ^ 32) with 8192. change (2 ^ 32) with (2 ^ 19 * 8192).
    rw Z.mul_mod_distr_r; [lia|lia|]. by rw Z.div_mul. }
  pose proof (Z.mod_pos_bound n (2 ^ 19) ltac:(lia)) as Hr. split_and!; [| |].
  - unfold stored, page_offset. cbn [file]. rw Hf Hi. unfold PAGE_SIZE in *. lia.
  - done.
  - rw read_write_same; [apply new_page_len|lia|done].
Qed.

End crc.

(** ** Concrete instances *)

(** A checksum for the examples: the sum of the bytes. *)
#[export] Instance sum_crc32 : Crc32.
Proof.
  exists (λ bs, wrap 32 (zsum (λ b, b) bs)). intros bs. apply wrap_range. lia.
Defined.

Definition empty_page : Page := Page.new 3.

Lemma disk_round_trip_witness :
  ∃ q, read_page (write_page 3 empty_page (new [])) 3 = Ok q ∧ id q = 3 ∧ body (data q) = body (data empty_page).
Proof. exact (proj1 (disk_round_trip (new []) 3 empty_page (new_page_len 3) ltac:(lia))). Defined.

Lemma reopen_overwrites_witness :
  ∃ f, zlen f = 2 ^ 32 ∧ stored (new f) (allocate_page (new f)).2 ∧ (allocate_page (new f)).2 = 0.
Proof.
  exists (replicate (Z.to_nat (2 ^ 32)) 0).
  assert (zlen (replicate (Z.to_nat (2 ^ 32)) 0) = 2 ^ 32) as Hf.
  { unfold zlen. rw length_replicate. lia. }
  split; [exact Hf|]. revert Hf. generalize (replicate (Z.to_nat (2 ^ 32)) 0). intros f Hf.
  pose proof (reopen_overwrites f (2 ^ 19) Hf ltac:(lia)) as Hr. cbv zeta in Hr.
  destruct (allocate_page (new f)) as [dm' i]. destruct Hr as (H1 & H2 & _).
  split; [exact H1|]. rewrite H2. reflexivity.
Defined.

End DiskManager.
