(* ===== verification/BufferPool.v ===== *)
(** The buffer pool ([bytedb-core/src/storage/buffer_pool.rs]): a fixed number of
    frames that cache pages of the file, pinned by guards and replaced by the
    LRU-2 rule.

    An operation under the lock of the pool is one step. [fetch_page] gives the
    lock up while it reads the file and [flush_all] while it writes, so both are
    also given as the steps between which other threads can run. *)
From S2P Require Import Prelude Page DiskManager.
Import Page DiskManager.

Module BufferPool.

Definition LRU_K : Z := 2.

(** The page behind the frame's [Arc] never changes its frame: a guard on the
    frame reads and writes [fpage]. *)
Record Frame := mkFrame {
  fpage : Page;
  page_id : Z;
  pin_count : Z;
  dirty : bool;
  access_history : list Z;
  access_count : Z;
}.

Definition empty_frame : Frame := mkFrame (Page.new INVALID_PAGE_ID) INVALID_PAGE_ID 0 false [0; 0] 0.

(** The [for] loop shifts the [LRU_K = 2] entries by one. *)
Definition record_access (ts : Z) (f : Frame) : Frame :=
  if access_count f <? LRU_K
  then mkFrame (fpage f) (page_id f) (pin_count f) (dirty f)
         (<[Z.to_nat (access_count f) := ts]> (access_history f)) (access_count f + 1)
  else mkFrame (fpage f) (page_id f) (pin_count f) (dirty f)
         (<[1%nat := ts]> (<[0%nat := default 0 (access_history f !! 1%nat)]> (access_history f)))
         (access_count f).

Definition kth_oldest (f : Frame) : Z :=
  if access_count f <? LRU_K then 0 else default 0 (access_history f !! 0%nat).

(** [free_frames] has the end of the vector, where it is pushed and popped, first. *)
Record BufferPool := mkPool {
  frames : list Frame;
  page_table : gmap Z nat;
  free_frames : list nat;
  clock : Z;
  disk : DiskManager;
  hits : Z;
  misses : Z;
}.

Definition new (dm : DiskManager) (num_frames : nat) : BufferPool :=
  let n := (num_frames `max` 2)%nat in
  mkPool (replicate n empty_frame) ∅ (seq 0 n) 0 dm 0 0.

Definition tick (bp : BufferPool) : BufferPool :=
  mkPool (frames bp) (page_table bp) (free_frames bp) (wrap 64 (clock bp + 1)) (disk bp) (hits bp) (misses bp).

(** One iteration of [pick_victim]: [best] is a frame with its [kth_oldest]
    and its number of accesses. *)
Definition better (best : option (nat * Z * Z)) (i : nat) (f : Frame) : option (nat * Z * Z) :=
  if (0 <? pin_count f) || (page_id f =? INVALID_PAGE_ID) then best
  else
    let kth := kth_oldest f in
    match best with
    | None => Some (i, kth, access_count f)
    | Some (_, bk, bc) =>
        if (access_count f <? bc) || ((access_count f =? bc) && (kth <? bk))
        then Some (i, kth, access_count f) else best
    end.

Fixpoint pick_loop (i : nat) (fs : list Frame) (best : option (nat * Z * Z)) : option (nat * Z * Z) :=
  match fs with
  | [] => best
  | f :: fs' => pick_loop (S i) fs' (better best i f)
  end.

Definition pick_victim (bp : BufferPool) : option nat :=
  (λ r, r.1.1) <$> pick_loop 0 (frames bp) None.

Record BufferGuard := mkGuard { g_frame : nat; g_page : Z; g_dirtied : bool }.

Definition with_frames (fs : list Frame) (bp : BufferPool) : BufferPool :=
  mkPool fs (page_table bp) (free_frames bp) (clock bp) (disk bp) (hits bp) (misses bp).
Definition with_disk (dm : DiskManager) (bp : BufferPool) : BufferPool :=
  mkPool (frames bp) (page_table bp) (free_frames bp) (clock bp) dm (hits bp) (misses bp).
Definition set_page_table (t : gmap Z nat) (bp : BufferPool) : BufferPool :=
  mkPool (frames bp) t (free_frames bp) (clock bp) (disk bp) (hits bp) (misses bp).
Definition set_free (l : list nat) (bp : BufferPool) : BufferPool :=
  mkPool (frames bp) (page_table bp) l (clock bp) (disk bp) (hits bp) (misses bp).
Definition count_hit (bp : BufferPool) : BufferPool :=
  mkPool (frames bp) (page_table bp) (free_frames bp) (clock bp) (disk bp) (fetch_add (hits bp) 1) (misses bp).
Definition count_miss (bp : BufferPool) : BufferPool :=
  mkPool (frames bp) (page_table bp) (free_frames bp) (clock bp) (disk bp) (hits bp) (fetch_add (misses bp) 1).

Definition pin (f : Frame) : Frame :=
  mkFrame (fpage f) (page_id f) (wrap 32 (pin_count f + 1)) (dirty f) (access_history f) (access_count f).

(** The frame of a page that is in the pool is pinned once more: what both
    critical sections of [fetch_page] do. An index out of range panics. *)
Definition hit (pid : Z) (idx : nat) (bp : BufferPool) : option (BufferPool * BufferGuard) :=
  let bp1 := tick bp in
  f ← frames bp1 !! idx;
  Some (with_frames (<[idx := record_access (clock bp1) (pin f)]> (frames bp1)) bp1, mkGuard idx pid false).

Section crc.
Context `{Crc32}.

Definition evict_locked (idx : nat) (bp : BufferPool) : option BufferPool :=
  f ← frames bp !! idx;
  if page_id f =? INVALID_PAGE_ID then Some bp
  else
    let bp1 := if dirty f then with_disk (write_page (page_id f) (fpage f) (disk bp)) bp else bp in
    let bp2 := set_page_table (delete (page_id f) (page_table bp1)) bp1 in
    Some (with_frames (<[idx := mkFrame (fpage f) INVALID_PAGE_ID 0 false (access_history f) 0]> (frames bp2)) bp2).

(** A frame for a new page: a free one, or that of a victim. *)
Definition take_frame (bp : BufferPool) : option (BufferPool * result nat) :=
  match free_frames bp with
  | idx :: rest => Some (set_free rest bp, Ok idx)
  | [] =>
      match pick_victim bp with
      | None => Some (bp, Err (Internal "buffer_pool: every frame is pinned, cannot evict"))
      | Some victim => bp1 ← evict_locked victim bp; Some (bp1, Ok victim)
      end
  end.

(** The second critical section of [fetch_page], with the page read from the file. *)
Definition fetch_install (pid : Z) (page_from_disk : Page) (bp : BufferPool)
    : option (BufferPool * result BufferGuard) :=
  match page_table bp !! pid with
  | Some idx => '(bp1, g) ← hit pid idx bp; Some (bp1, Ok g)
  | None =>
      '(bp1, r) ← take_frame bp;
      match r with
      | Err e => Some (bp1, Err e)
      | Ok idx =>
          let bp2 := tick bp1 in
          f ← frames bp2 !! idx;
          let f1 := record_access (clock bp2) (mkFrame page_from_disk pid 1 false [0; 0] 0) in
          let bp3 := with_frames (<[idx := f1]> (frames bp2)) bp2 in
          Some (set_page_table (<[pid := idx]> (page_table bp3)) bp3, Ok (mkGuard idx pid false))
      end
  end.

(** What the first critical section found, and the page read after a miss. *)
Inductive Fetch :=
  | Done (r : result BufferGuard)
  | Pending (page : Page).

Definition fetch_begin (pid : Z) (bp : BufferPool) : option (BufferPool * Fetch) :=
  if pid =? INVALID_PAGE_ID
  then Some (bp, Done (Err (Internal "buffer_pool: refusing to fetch INVALID_PAGE_ID")))
  else
    match page_table bp !! pid with
    | Some idx => '(bp1, g) ← hit pid idx bp; Some (count_hit bp1, Done (Ok g))
    | None =>
        let bp1 := count_miss bp in
        Some (bp1, match read_page (disk bp1) pid with Ok p => Pending p | Err e => Done (Err e) end)
    end.

Definition fetch_page (pid : Z) (bp : BufferPool) : option (BufferPool * result BufferGuard) :=
  '(bp1, r) ← fetch_begin pid bp;
  match r with
  | Done r => Some (bp1, r)
  | Pending p => fetch_install pid p bp1
  end.

Definition new_page (bp : BufferPool) : option (BufferPool * result BufferGuard) :=
  let '(dm, pid) := allocate_page (disk bp) in
  '(bp1, r) ← fetch_page pid (with_disk dm bp);
  Some (bp1, match r with Ok g => Ok (mkGuard (g_frame g) (g_page g) true) | Err e => Err e end).

(** [Drop] of a guard. *)
Definition unpin (g : BufferGuard) (bp : BufferPool) : option BufferPool :=
  f ← frames bp !! g_frame g;
  Some (if (page_id f =? g_page g) && (0 <? pin_count f)
        then with_frames (<[g_frame g := mkFrame (fpage f) (page_id f) (pin_count f - 1)
                                           (if g_dirtied g then true else dirty f)
                                           (access_history f) (access_count f)]> (frames bp)) bp
        else bp).

Definition clean (f : Frame) : Frame :=
  mkFrame (fpage f) (page_id f) (pin_count f) false (access_history f) (access_count f).

Definition flush_page (pid : Z) (bp : BufferPool) : option BufferPool :=
  match page_table bp !! pid with
  | None => Some bp
  | Some idx =>
      f ← frames bp !! idx;
      Some (if dirty f
            then with_frames (<[idx := clean f]> (frames bp)) (with_disk (write_page pid (fpage f) (disk bp)) bp)
            else bp)
  end.

(** The three parts of [flush_all]: the copies made under the lock, their
    writing without it, and the second critical section. *)
Definition flush_collect (bp : BufferPool) : list (Z * Page) :=
  (λ f, (page_id f, fpage f)) <$> filter (λ f, dirty f = true ∧ page_id f ≠ INVALID_PAGE_ID) (frames bp).

Definition flush_write (dirties : list (Z * Page)) (dm : DiskManager) : DiskManager :=
  foldl (λ dm pp, write_page pp.1 pp.2 dm) dm dirties.

Definition flush_clear (bp : BufferPool) : BufferPool :=
  with_frames ((λ f, if page_id f =? INVALID_PAGE_ID then f else clean f) <$> frames bp) bp.

Definition flush_all (bp : BufferPool) : BufferPool :=
  flush_clear (with_disk (flush_write (flush_collect bp) (disk bp)) bp).

(** [page] and [page_mut] of a guard, on the frame it pins; the client writes
    the bytes [d] of the page. *)
Definition guard_read (g : BufferGuard) (bp : BufferPool) : option Page :=
  f ← frames bp !! g_frame g; Some (fpage f).

Definition guard_write (g : BufferGuard) (d : list Z) (bp : BufferPool) : option (BufferPool * BufferGuard) :=
  f ← frames bp !! g_frame g;
  Some (with_frames (<[g_frame g := mkFrame (mkPage (id (fpage f)) d) (page_id f) (pin_count f) (dirty f)
                                      (access_history f) (access_count f)]> (frames bp)) bp,
        mkGuard (g_frame g) (g_page g) true).
(** ** Clients of the pool *)

(** A guard is known by a number, the order in which guards were handed out. *)
Inductive op :=
  | Fetch_ (pid : Z)
  | NewPage
  | Read (g : nat)
  | Write (g : nat) (d : list Z)
  | DropGuard (g : nat)
  | FlushPage (pid : Z)
  | FlushAll.

Inductive answer :=
  | AGuard (g : nat) (pid : Z)
  | AData (d : list Z)
  | ADone
  | ANoGuard
  | AErr (e : CoreError).

Record client := mkClient { pool : BufferPool; guards : gmap nat BufferGuard; next_guard : nat }.

Definition give (r : option (BufferPool * result BufferGuard)) (c : client) : option (client * answer) :=
  '(bp, r) ← r;
  Some match r with
       | Ok g => (mkClient bp (<[next_guard c := g]> (guards c)) (S (next_guard c)), AGuard (next_guard c) (g_page g))
       | Err e => (mkClient bp (guards c) (next_guard c), AErr e)
       end.

Definition step (o : op) (c : client) : option (client * answer) :=
  match o with
  | Fetch_ pid => give (fetch_page pid (pool c)) c
  | NewPage => give (new_page (pool c)) c
  | Read k =>
      match guards c !! k with
      | None => Some (c, ANoGuard)
      | Some g => p ← guard_read g (pool c); Some (c, AData (body (data p)))
      end
  | Write k d =>
      match guards c !! k with
      | None => Some (c, ANoGuard)
      | Some g =>
          '(bp, g') ← guard_write g d (pool c);
          Some (mkClient bp (<[k := g']> (guards c)) (next_guard c), ADone)
      end
  | DropGuard k =>
      match guards c !! k with
      | None => Some (c, ANoGuard)
      | Some g => bp ← unpin g (pool c); Some (mkClient bp (delete k (guards c)) (next_guard c), ADone)
      end
  | FlushPage pid => bp ← flush_page pid (pool c); Some (mkClient bp (guards c) (next_guard c), ADone)
  | FlushAll => Some (mkClient (flush_all (pool c)) (guards c) (next_guard c), ADone)
  end.

Fixpoint run (os : list op) (c : client) : option (client * list answer) :=
  match os with
  | [] => Some (c, [])
  | o :: os' =>
      '(c1, a) ← step o c;
      '(c2, l) ← run os' c1;
      Some (c2, a :: l)
  end.

(** ** The abstract store: the contents of the pages, and which guards are open *)

Record spec := mkSpec { contents_of : gmap Z (list Z); open : gmap nat Z; next_open : nat; next_pid : Z }.

Definition pinned (s : spec) : gset Z := list_to_set (map_to_list (open s)).*2.

(** A page can be pinned when it is already, or when a frame is left. *)
Definition spec_fetch (n : nat) (pid : Z) (s : spec) : spec * answer :=
  if pid =? INVALID_PAGE_ID then (s, AErr (Internal "buffer_pool: refusing to fetch INVALID_PAGE_ID"))
  else if bool_decide (contents_of s !! pid = None) then (s, AErr Io)
  else if bool_decide (pid ∈ pinned s) || (size (pinned s) <? n)%nat
  then (mkSpec (contents_of s) (<[next_open s := pid]> (open s)) (S (next_open s)) (next_pid s),
        AGuard (next_open s) pid)
  else (s, AErr (Internal "buffer_pool: every frame is pinned, cannot evict")).

Definition spec_step (n : nat) (o : op) (s : spec) : spec * answer :=
  match o with
  | Fetch_ pid => spec_fetch n pid s
  | NewPage =>
      let pid := next_pid s in
      spec_fetch n pid (mkSpec (<[pid := body (data (Page.new pid))]> (contents_of s)) (open s) (next_open s) (pid + 1))
  | Read k =>
      match open s !! k with
      | None => (s, ANoGuard)
      | Some pid => (s, match contents_of s !! pid with Some d => AData d | None => ANoGuard end)
      end
  | Write k d =>
      match open s !! k with
      | None => (s, ANoGuard)
      | Some pid => (mkSpec (<[pid := body d]> (contents_of s)) (open s) (next_open s) (next_pid s), ADone)
      end
  | DropGuard k =>
      match open s !! k with
      | None => (s, ANoGuard)
      | Some _ => (mkSpec (contents_of s) (delete k (open s)) (next_open s) (next_pid s), ADone)
      end
  | FlushPage _ | FlushAll => (s, ADone)
  end.

Fixpoint spec_run (n : nat) (os : list op) (s : spec) : spec * list answer :=
  match os with
  | [] => (s, [])
  | o :: os' =>
      let '(s1, a) := spec_step n o s in
      let '(s2, l) := spec_run n os' s1 in
      (s2, a :: l)
  end.

(** What is written is a page, and a page number is unsigned. *)
Definition op_ok (o : op) : Prop :=
  match o with Write _ d => page_len d | Fetch_ pid => 0 ≤ pid | _ => True end.

(** ** The invariant *)

Definition pins (gs : gmap nat BufferGuard) (i : nat) : nat :=
  size (filter (λ kg : nat * BufferGuard, g_frame kg.2 = i) gs).

Definition touched (gs : gmap nat BufferGuard) (i : nat) : Prop :=
  ∃ k g, gs !! k = Some g ∧ g_frame g = i ∧ g_dirtied g = true.

(** The page of a number in the file. *)
Definition on_disk (dm : DiskManager) (pid : Z) (c : list Z) : Prop :=
  stored dm pid ∧ ∃ q, read_page dm pid = Ok q ∧ body (data q) = c.

(** A frame and the guards on it. *)
Record frame_ok (dm : DiskManager) (gs : gmap nat BufferGuard) (i : nat) (f : Frame) : Prop := {
  fo_len : page_len (data (fpage f));
  fo_pins : pin_count f = Z.of_nat (pins gs i);
  fo_pid : page_id f ≠ 0 → 1 ≤ page_id f < next_page_id dm;
  fo_clean : page_id f ≠ 0 → dirty f = false → ¬ touched gs i → on_disk dm (page_id f) (body (data (fpage f)));
}.

Record inv (b : Z) (bp : BufferPool) (gs : gmap nat BufferGuard) : Prop := {
  i_table : ∀ pid i, page_table bp !! pid = Some i ↔ ∃ f, frames bp !! i = Some f ∧ page_id f = pid ∧ pid ≠ 0;
  i_free : ∀ i, i ∈ free_frames bp ↔ ∃ f, frames bp !! i = Some f ∧ page_id f = 0;
  i_nodup : NoDup (free_frames bp);
  i_frames : ∀ i f, frames bp !! i = Some f → frame_ok (disk bp) gs i f;
  i_guards : ∀ k g, gs !! k = Some g → g_page g ≠ 0 ∧ page_table bp !! g_page g = Some (g_frame g);
  i_disk : 1 ≤ next_page_id (disk bp) ∧ ∀ j, 1 ≤ j < next_page_id (disk bp) → ∃ c, on_disk (disk bp) j c;
  i_budget : Z.of_nat (size gs) + b < 2 ^ 32 ∧ next_page_id (disk bp) + b < 2 ^ 32;
  i_end : zlen (file (disk bp)) < (next_page_id (disk bp) + 1) * PAGE_SIZE;
}.

(** The content of a page: in its frame, or in the file. *)
Definition holds_content (bp : BufferPool) (pid : Z) (c : list Z) : Prop :=
  match page_table bp !! pid with
  | Some i => ∃ f, frames bp !! i = Some f ∧ c = body (data (fpage f))
  | None => on_disk (disk bp) pid c
  end.

Record rel (n : nat) (c : client) (s : spec) : Prop := {
  r_len : Datatypes.length (frames (pool c)) = n;
  r_dom : ∀ pid, is_Some (contents_of s !! pid) ↔ 1 ≤ pid < next_page_id (disk (pool c));
  r_cont : ∀ pid d, contents_of s !! pid = Some d → holds_content (pool c) pid d;
  r_open : open s = g_page <$> guards c;
  r_next : next_open s = next_guard c;
  r_fresh : ∀ k, (next_guard c ≤ k)%nat → guards c !! k = None;
  r_pid : next_pid s = next_page_id (disk (pool c));
}.

(** ** Counting guards *)

Lemma pins_insert gs k g i :
  gs !! k = None → pins (<[k := g]> gs) i = (pins gs i + if decide (g_frame g = i) then 1 else 0)%nat.
Proof.
  intros Hk. unfold pins. case_decide as Hi.
  - rw map_filter_insert_True; [done|]. rw map_size_insert_None; [by apply map_lookup_filter_None_2; left|lia].
  - rw map_filter_insert_not'; [done| |lia]. intros g' Hg'. congruence.
Qed.

Lemma pins_delete gs k g i :
  gs !! k = Some g → pins gs i = (pins (delete k gs) i + if decide (g_frame g = i) then 1 else 0)%nat.
Proof.
  intros Hk. rewrite <- (insert_delete_id gs k g Hk) at 1. apply pins_insert. apply lookup_delete_eq.
Qed.

Lemma pins_update gs k g g' i :
  gs !! k = Some g → g_frame g' = g_frame g → pins (<[k := g']> gs) i = pins gs i.
Proof.
  intros Hk Hf. rw (pins_delete gs k g i Hk). rw -insert_delete_eq. rw pins_insert; [apply lookup_delete_eq|].
  by rw Hf.
Qed.

Lemma pins_zero gs i : pins gs i = 0%nat ↔ ∀ k g, gs !! k = Some g → g_frame g ≠ i.
Proof.
  unfold pins. rw map_size_empty_iff. rw map_empty. split.
  - intros He k g Hk Hf. specialize (He k). rw map_lookup_filter_None in He.
    destruct He as [He|He]; [congruence|]. by apply (He g Hk).
  - intros Hall k. apply map_lookup_filter_None_2. destruct (gs !! k) as [g|] eqn:E; [right|by left].
    intros g' [= <-] Hf. exact (Hall k g E Hf).
Qed.

Lemma pins_le gs i : (pins gs i ≤ size gs)%nat.
Proof. unfold pins. apply map_subseteq_size, map_filter_subseteq. Qed.

Lemma untouched gs i : pins gs i = 0%nat → ¬ touched gs i.
Proof. intros Hz (k & g & Hk & Hf & _). exact (proj1 (pins_zero gs i) Hz k g Hk Hf). Qed.

(** ** Pages in the file *)

Lemma on_disk_write dm i p j c :
  page_len (data p) → 0 ≤ i → i ≠ j → on_disk dm j c → on_disk (write_page i p dm) j c.
Proof.
  intros Hp Hi Hne [Hs (q & Hq & Hb)]. split; [apply stored_write; auto|].
  exists q. split; [|done]. by rw read_write_other.
Qed.

Lemma on_disk_write_same dm i p :
  page_len (data p) → 0 ≤ i → on_disk (write_page i p dm) i (body (data p)).
Proof.
  intros Hp Hi. split; [apply stored_write; auto|]. eexists. split; [by apply read_write_same|].
  by apply body_sealed.
Qed.

Lemma on_disk_read dm i c :
  on_disk dm i c → ∃ q, read_page dm i = Ok q ∧ page_len (data q) ∧ body (data q) = c.
Proof.
  intros [[Hi Hs] (q & Hq & Hb)]. exists q. split_and!; [done| |done].
  unfold read_page, read_at in Hq. destruct (get_slice _ _ _) as [bs|] eqn:E; [|done].
  case_match; [done|]. injection Hq as <-. cbn. unfold get_slice in E.
  destruct (in_range _ _ _) eqn:Hr; [|done]. injection E as <-. apply in_range_true in Hr.
  destruct Hr as (? & ? & ?). by apply length_slice.
Qed.

Lemma on_disk_inj dm i c c' : on_disk dm i c → on_disk dm i c' → c = c'.
Proof. intros [_ (q & Hq & <-)] [_ (q' & Hq' & <-)]. congruence. Qed.

(** ** What the invariant depends on *)

Definition core (bp : BufferPool) := (frames bp, page_table bp, free_frames bp, disk bp).

Lemma inv_core b bp bp' gs : core bp' = core bp → inv b bp gs → inv b bp' gs.
Proof. intros [= E1 E2 E3 E4] [H1 H2 H3 H4 H5 H6 H7 H8]. split; rw ?E1 ?E2 ?E3 ?E4; done. Qed.

Lemma content_core bp bp' pid c : core bp' = core bp → holds_content bp' pid c ↔ holds_content bp pid c.
Proof. intros [= E1 E2 E3 E4]. unfold holds_content. by rw E1 E2 E4. Qed.

Lemma frame_unique b bp gs i j f f' :
  inv b bp gs → frames bp !! i = Some f → frames bp !! j = Some f' →
  page_id f = page_id f' → page_id f ≠ 0 → i = j.
Proof.
  intros Hinv Hi Hj E Hne. assert (page_table bp !! page_id f = Some i) as H1.
  { apply (i_table _ _ _ Hinv). by exists f. }
  assert (page_table bp !! page_id f = Some j) as H2; [|congruence].
  apply (i_table _ _ _ Hinv). by exists f'.
Qed.

(** A change of one frame that keeps its page. *)
Lemma inv_update b b' bp gs gs' i f f' :
  inv b bp gs → frames bp !! i = Some f → page_id f' = page_id f → frame_ok (disk bp) gs' i f' →
  (∀ j, j ≠ i → pins gs' j = pins gs j ∧ (touched gs j → touched gs' j)) →
  (∀ k g, gs' !! k = Some g → g_page g ≠ 0 ∧ page_table bp !! g_page g = Some (g_frame g)) →
  Z.of_nat (size gs') + b' < 2 ^ 32 → b' ≤ b →
  inv b' (with_frames (<[i := f']> (frames bp)) bp) gs'.
Proof.
  intros [H1 H2 H3 H4 H5 H6 H7 H8] Hi Hid Hok Hother Hgs Hsz Hb.
  assert (∀ j, (∃ g, <[i := f']> (frames bp) !! j = Some g ∧ page_id g = page_id f ∧ j = i) ∨
               (j ≠ i ∧ <[i := f']> (frames bp) !! j = frames bp !! j)) as Hlk.
  { intros j. destruct (decide (j = i)) as [->|Hne].
    - left. exists f'. split; [|done]. apply list_lookup_insert_eq. exact (lookup_lt_Some _ _ _ Hi).
    - right. split; [done|]. rw list_lookup_insert_ne; congruence. }
  split; cbn [frames page_table free_frames disk with_frames].
  - intros pid j. rw H1. destruct (Hlk j) as [(g & -> & Hg & ->)|[_ ->]]; [|done].
    rw Hi. split; intros (g' & [= <-] & ? & ?); eexists; (split; [done|]); split; congruence.
  - intros j. rw H2. destruct (Hlk j) as [(g & -> & Hg & ->)|[_ ->]]; [|done].
    rw Hi. split; intros (g' & [= <-] & ?); eexists; (split; [done|]); congruence.
  - done.
  - intros j g Hj. destruct (decide (j = i)) as [->|Hne].
    + rw list_lookup_insert_eq in Hj; [exact (lookup_lt_Some _ _ _ Hi)|]. by injection Hj as <-.
    + rw list_lookup_insert_ne in Hj; [congruence|]. destruct (Hother j Hne) as [Hp Ht].
      destruct (H4 j g Hj) as [F1 F2 F3 F4]. split; [done|by rw Hp|done|]. intros ???. apply F4; auto.
  - done.
  - done.
  - lia.
  - done.
Qed.

Lemma content_update b bp gs i f f' pid c :
  inv b bp gs → frames bp !! i = Some f → page_id f' = page_id f → 
  holds_content (with_frames (<[i := f']> (frames bp)) bp) pid c ↔
  if decide (pid = page_id f ∧ pid ≠ 0) then c = body (data (fpage f')) else holds_content bp pid c.
Proof.
  intros Hinv Hi Hid. unfold holds_content. cbn [frames page_table disk with_frames].
  case_decide as Hd.
  - destruct Hd as [-> Hne]. rw (proj2 (i_table _ _ _ Hinv (page_id f) i)); [by exists f|].
    rw list_lookup_insert_eq; [exact (lookup_lt_Some _ _ _ Hi)|]. split; [intros (g & [= <-] & ->); done|].
    intros ->. by exists f'.
  - destruct (page_table bp !! pid) as [j|] eqn:E; [|done].
    apply (i_table _ _ _ Hinv) in E as (g & Hj & Hg & Hne).
    rw list_lookup_insert_ne; [|done]. intros ->. apply Hd. split; [|done]. congruence.
Qed.
(** ** The operations keep the invariant and the contents *)

Record stable (bp bp' : BufferPool) : Prop := {
  s_cont : ∀ p c, holds_content bp p c → holds_content bp' p c;
  s_next : next_page_id (disk bp') = next_page_id (disk bp);
  s_len : Datatypes.length (frames bp') = Datatypes.length (frames bp);
}.

#[local] Instance stable_preorder : PreOrder stable.
Proof.
  split; [by intros bp; split|]. intros x y z [A1 A2 A3] [B1 B2 B3]. split; [auto|congruence|congruence].
Qed.

Lemma stable_core bp bp' : core bp' = core bp → stable bp bp'.
Proof.
  intros E. split; [intros p c Hc; by apply (content_core bp bp')| |]; injection E as E1 E2 E3 E4; congruence.
Qed.

(** A frame changed without its content. *)
Lemma stable_update b bp gs i f f' :
  inv b bp gs → frames bp !! i = Some f → page_id f' = page_id f →
  body (data (fpage f')) = body (data (fpage f)) →
  stable bp (with_frames (<[i := f']> (frames bp)) bp).
Proof.
  intros Hinv Hi Hid Hb. split; [|done|cbn; by rw length_insert].
  intros p c Hc. rw (content_update b bp gs i f f'); [done..|]. case_decide as Hd; [|done].
  destruct Hd as [-> Hne]. unfold holds_content in Hc.
  rw (proj2 (i_table _ _ _ Hinv (page_id f) i)) in Hc; [by exists f|].
  destruct Hc as (f0 & E & ->). congruence.
Qed.

Lemma record_access_fields ts f :
  fpage (record_access ts f) = fpage f ∧ page_id (record_access ts f) = page_id f ∧
  pin_count (record_access ts f) = pin_count f ∧ dirty (record_access ts f) = dirty f.
Proof. unfold record_access. by case_match. Qed.

(** The guard map with a new guard. *)
Lemma touched_fresh gs k g j : gs !! k = None → touched gs j → touched (<[k := g]> gs) j.
Proof.
  intros Hk (k' & g' & Hk' & ? & ?). exists k', g'. split; [|done]. rw lookup_insert_ne; [congruence|done].
Qed.

Lemma hit_ok b bp gs k pid idx :
  0 ≤ b → inv (b + 1) bp gs → gs !! k = None → page_table bp !! pid = Some idx →
  ∃ bp', hit pid idx bp = Some (bp', mkGuard idx pid false) ∧
    inv b bp' (<[k := mkGuard idx pid false]> gs) ∧ stable bp bp'.
Proof.
  intros Hb Hinv Hk Hpid. pose proof (proj1 (i_table _ _ _ Hinv _ _) Hpid) as (f & Hf & Hid & Hne).
  unfold hit. cbn [frames tick]. rw Hf. cbn [mbind option_bind].
  destruct (record_access_fields (clock (tick bp)) (pin f)) as (R1 & R2 & R3 & R4).
  set (f' := record_access _ _) in *. eexists. split; [reflexivity|].
  assert (inv (b + 1) (tick bp) gs) as Hinv' by by apply (inv_core _ bp).
  pose proof (i_budget _ _ _ Hinv) as [Hb1 Hb2]. pose proof (pins_le gs idx) as Hle.
  destruct (i_frames _ _ _ Hinv idx f Hf) as [F1 F2 F3 F4].
  split.
  - apply (inv_update (b + 1) b (tick bp) gs _ idx f f'); [done|done|done| | | | |lia].
    + split; [by rw R1| |by rw R2|].
      * rw R3. cbn [pin_count pin]. rw pins_insert; [done|]. rw decide_True; [done|].
        rw F2 wrap_small; lia.
      * rw R1 R2 R4. intros ?? Ht. apply F4; [done|done|]. intros Ht'. apply Ht. by apply touched_fresh.
    + intros j Hj. split; [|by apply touched_fresh]. rw pins_insert; [done|]. rw decide_False; [cbn; congruence|lia].
    + intros k' g. rw lookup_insert_Some. intros [[-> <-]|[_ Hg]]; [done|]. exact (i_guards _ _ _ Hinv k' g Hg).
    + rw map_size_insert_None; [done|]. lia.
  - trans (tick bp); [by apply stable_core|].
    by apply (stable_update (b + 1) (tick bp) gs idx f f'); [..|rw R1].
Qed.

Lemma guard_frame b bp gs k g :
  inv b bp gs → gs !! k = Some g →
  ∃ f, frames bp !! g_frame g = Some f ∧ page_id f = g_page g ∧ g_page g ≠ 0 ∧
       frame_ok (disk bp) gs (g_frame g) f ∧ 0 < pin_count f.
Proof.
  intros Hinv Hk. destruct (i_guards _ _ _ Hinv k g Hk) as [Hne Ht].
  apply (i_table _ _ _ Hinv) in Ht as (f & Hf & Hid & _). exists f.
  pose proof (i_frames _ _ _ Hinv _ f Hf) as Hok. split_and!; [done|done|done|done|].
  rw (fo_pins _ _ _ _ Hok). rw (pins_delete gs k g _ Hk). rw decide_True; [done|lia].
Qed.

Lemma touched_delete gs k g j : gs !! k = Some g → g_frame g ≠ j → touched gs j → touched (delete k gs) j.
Proof.
  intros Hk Hne (k' & g' & Hk' & Hf & Hd). exists k', g'. split; [|done].
  rw lookup_delete_ne; [|done]. intros ->. congruence.
Qed.

Lemma unpin_ok b bp gs k g :
  inv b bp gs → gs !! k = Some g →
  ∃ bp', unpin g bp = Some bp' ∧ inv b bp' (delete k gs) ∧ stable bp bp'.
Proof.
  intros Hinv Hk. destruct (guard_frame b bp gs k g Hinv Hk) as (f & Hf & Hid & Hne & [F1 F2 F3 F4] & Hp).
  unfold unpin. rw Hf. cbn [mbind option_bind]. rw Hid Z.eqb_refl (proj2 (Z.ltb_lt _ _) Hp). cbn [andb].
  eexists. split; [reflexivity|]. pose proof (i_budget _ _ _ Hinv) as [Hb1 Hb2]. split.
  - apply (inv_update b b bp gs _ (g_frame g) f); [done|done|done| | | | |lia].
    + split; cbn [fpage page_id pin_count dirty]; [done| |by rw -Hid|].
      * rw F2 (pins_delete gs k g _ Hk). rw decide_True; [done|lia].
      * rw -Hid. intros Hn Hd Ht. destruct (g_dirtied g) eqn:Eg; [done|]. apply F4; [done|done|].
        intros (k' & g' & Hk' & Hf' & Hd'). apply Ht. exists k', g'. split; [|done].
        rw lookup_delete_ne; [|done]. intros ->. congruence.
    + intros j Hj. split; [|apply (touched_delete _ _ g); [done|congruence]].
      rw (pins_delete gs k g j Hk). rw decide_False; [congruence|lia].
    + intros k' g' Hk'. apply lookup_delete_Some in Hk' as [_ Hk']. exact (i_guards _ _ _ Hinv k' g' Hk').
    + rw map_size_delete_Some; [by exists g|lia].
  - by apply (stable_update b bp gs (g_frame g) f).
Qed.
(** Writing through a guard changes the content of its page and of no other. *)
Lemma guard_write_ok b bp gs k g d :
  inv b bp gs → gs !! k = Some g → page_len d →
  ∃ bp', guard_write g d bp = Some (bp', mkGuard (g_frame g) (g_page g) true) ∧
    inv b bp' (<[k := mkGuard (g_frame g) (g_page g) true]> gs) ∧
    holds_content bp' (g_page g) (body d) ∧
    (∀ p c, p ≠ g_page g → holds_content bp p c → holds_content bp' p c) ∧
    next_page_id (disk bp') = next_page_id (disk bp) ∧
    Datatypes.length (frames bp') = Datatypes.length (frames bp).
Proof.
  intros Hinv Hk Hd. destruct (guard_frame b bp gs k g Hinv Hk) as (f & Hf & Hid & Hne & [F1 F2 F3 F4] & Hp).
  unfold guard_write. rw Hf. cbn [mbind option_bind]. set (f' := mkFrame _ _ _ _ _ _).
  set (g' := mkGuard _ _ true). eexists. split; [reflexivity|].
  pose proof (i_budget _ _ _ Hinv) as [Hb1 Hb2]. split_and!.
  - apply (inv_update b b bp gs _ (g_frame g) f); [done|done|done| | | | |lia].
    + split; [done|by rw (pins_update gs k g)|done|]. intros _ _ [].
      exists k, g'. split; [apply lookup_insert_eq|done].
    + intros j Hj. split; [by apply (pins_update gs k g)|]. intros (k' & g0 & Hk' & Hf' & Hd').
      exists k', g0. split; [|done]. rw lookup_insert_ne; [|done]. intros ->. congruence.
    + intros k' g0. rw lookup_insert_Some. intros [[-> <-]|[_ Hg]]; [|exact (i_guards _ _ _ Hinv k' g0 Hg)].
      exact (i_guards _ _ _ Hinv k' g Hk).
    + rw map_size_insert_Some; [by exists g|]. lia.
  - rw (content_update b bp gs (g_frame g) f f'); [done..|]. by rw decide_True.
  - intros p c Hp' Hc. rw (content_update b bp gs (g_frame g) f f'); [done..|]. rw decide_False; [|done].
    intros [-> _]. done.
  - done.
  - cbn. by rw length_insert.
Qed.

Lemma guard_read_ok b bp gs k g c :
  inv b bp gs → gs !! k = Some g → holds_content bp (g_page g) c →
  ∃ p, guard_read g bp = Some p ∧ body (data p) = c.
Proof.
  intros Hinv Hk Hc. destruct (i_guards _ _ _ Hinv k g Hk) as [_ Ht]. unfold holds_content in Hc. rw Ht in Hc.
  destruct Hc as (f & Hf & ->). exists (fpage f). unfold guard_read. by rw Hf.
Qed.

(** ** Writing pages of the pool to the file *)

(** The file after some pages of the pool were written to it. *)
Lemma inv_disk b bp gs dm :
  inv b bp gs → next_page_id dm = next_page_id (disk bp) →
  (∀ i f, frames bp !! i = Some f → page_id f ≠ 0 → dirty f = false → ¬ touched gs i →
          on_disk dm (page_id f) (body (data (fpage f)))) →
  (∀ j c, on_disk (disk bp) j c → ∃ c', on_disk dm j c') →
  zlen (file dm) = zlen (file (disk bp)) →
  inv b (with_disk dm bp) gs.
Proof.
  intros [H1 H2 H3 H4 H5 H6 H7 H8] Hn Hclean Hall Hlen. split; cbn [frames page_table free_frames disk with_disk]; try done.
  - intros i f Hi. destruct (H4 i f Hi) as [F1 F2 F3 F4]. split; [done|done|by rw Hn|]. by apply Hclean.
  - rw Hn. split; [by destruct H6|]. intros j Hj. destruct H6 as [_ H6]. destruct (H6 j Hj) as (c & Hc).
    exact (Hall j c Hc).
  - by rw Hn.
  - by rw Hn Hlen.
Qed.

Lemma stable_disk bp dm :
  next_page_id dm = next_page_id (disk bp) →
  (∀ j c, page_table bp !! j = None → on_disk (disk bp) j c → on_disk dm j c) → stable bp (with_disk dm bp).
Proof.
  intros Hn Hd. split; [|done|done]. intros p c. unfold holds_content. cbn [page_table frames disk with_disk].
  destruct (page_table bp !! p) eqn:E; [done|]. by apply Hd.
Qed.

(** A frame may be marked clean when its page is in the file. *)
Lemma clean_ok b bp gs i f :
  inv b bp gs → frames bp !! i = Some f →
  (page_id f ≠ 0 → on_disk (disk bp) (page_id f) (body (data (fpage f)))) →
  inv b (with_frames (<[i := clean f]> (frames bp)) bp) gs ∧
  stable bp (with_frames (<[i := clean f]> (frames bp)) bp).
Proof.
  intros Hinv Hf Hd. split; [|by apply (stable_update b bp gs i f)].
  pose proof (i_budget _ _ _ Hinv) as [Hb1 Hb2]. destruct (i_frames _ _ _ Hinv i f Hf) as [F1 F2 F3 F4].
  apply (inv_update b b bp gs gs i f); [done|done|done| |done| |lia|lia]; [|apply (i_guards _ _ _ Hinv)].
  split; [done|done|done|]. intros ? _ _. by apply Hd.
Qed.

Lemma next_write_page i p dm : next_page_id (write_page i p dm) = next_page_id dm.
Proof. done. Qed.

Lemma write_keeps_len i p dm :
  page_len (data p) → stored dm i → zlen (file (write_page i p dm)) = zlen (file dm).
Proof.
  intros Hp [Hi Hs]. cbn [file write_page]. pose proof (sealed_len _ Hp) as Hl. unfold page_len in Hl.
  rw file_write_len; [unfold page_offset, PAGE_SIZE; lia|]. lia.
Qed.

(** One page written, in the state it has in the pool. *)
Lemma write_frame_ok b bp gs i f :
  inv b bp gs → frames bp !! i = Some f → page_id f ≠ 0 →
  let dm := write_page (page_id f) (fpage f) (disk bp) in
  inv b (with_disk dm bp) gs ∧ stable bp (with_disk dm bp) ∧
  on_disk dm (page_id f) (body (data (fpage f))).
Proof.
  intros Hinv Hf Hne dm. destruct (i_frames _ _ _ Hinv i f Hf) as [F1 F2 F3 F4]. specialize (F3 Hne).
  assert (on_disk dm (page_id f) (body (data (fpage f)))) as Hd by (apply on_disk_write_same; [done|lia]).
  split_and!; [| |done].
  - apply inv_disk; [done|done| | |].
    + intros j f' Hj Hne' Hcl Ht. destruct (decide (page_id f = page_id f')) as [E|E].
      * assert (i = j) as -> by by apply (frame_unique b bp gs i j f f'). by simplify_eq.
      * apply on_disk_write; [done|lia|done|]. by apply (i_frames _ _ _ Hinv j f' Hj).
    + intros j c Hc. destruct (decide (page_id f = j)) as [<-|E]; [eexists; exact Hd|].
      exists c. apply on_disk_write; [done|lia|done|done].
    + destruct (i_disk _ _ _ Hinv) as [_ Hst]. destruct (Hst (page_id f) F3) as (c & Hc & _).
      by apply write_keeps_len.
  - apply stable_disk; [done|]. intros j c Hj Hc. apply on_disk_write; [done|lia| |done].
    intros <-. assert (page_table bp !! page_id f = Some i); [|congruence].
    apply (i_table _ _ _ Hinv). by exists f.
Qed.

Lemma flush_page_ok b bp gs pid :
  inv b bp gs → ∃ bp', flush_page pid bp = Some bp' ∧ inv b bp' gs ∧ stable bp bp'.
Proof.
  intros Hinv. unfold flush_page. destruct (page_table bp !! pid) as [i|] eqn:Ht; [|by exists bp; split_and!; [done|done|reflexivity]].
  apply (i_table _ _ _ Hinv) in Ht as (f & Hf & <- & Hne). rw Hf. cbn [mbind option_bind].
  destruct (dirty f); [|by exists bp; split_and!; [done|done|reflexivity]]. eexists. split; [reflexivity|].
  destruct (write_frame_ok b bp gs i f Hinv Hf Hne) as (H1 & H2 & H3).
  destruct (clean_ok b _ gs i f H1 Hf (λ _, H3)) as [H4 H5]. split; [exact H4|].
  etrans; [exact H2|exact H5].
Qed.
(** [flush_all] writes the dirty frames one by one. *)
Lemma flush_write_ok b bp gs l :
  inv b bp gs →
  (∀ x, x ∈ l → ∃ i f, frames bp !! i = Some f ∧ page_id f ≠ 0 ∧ x = (page_id f, fpage f)) →
  let bp' := with_disk (flush_write l (disk bp)) bp in
  inv b bp' gs ∧ stable bp bp' ∧
  ∀ i f, frames bp !! i = Some f → page_id f ≠ 0 →
    (page_id f, fpage f) ∈ l ∨ on_disk (disk bp) (page_id f) (body (data (fpage f))) →
    on_disk (disk bp') (page_id f) (body (data (fpage f))).
Proof.
  revert bp. induction l as [|x l IH]; intros bp Hinv Hl; cbn [flush_write foldl].
  { destruct bp. split_and!; [done|reflexivity|]. intros i f _ _ [[]%not_elem_of_nil|Hd]. done. }
  destruct (Hl x) as (i0 & f0 & Hf0 & Hne0 & ->); [by left|].
  destruct (write_frame_ok b bp gs i0 f0 Hinv Hf0 Hne0) as (H1 & H2 & H3).
  destruct (IH _ H1) as (H4 & H5 & H6); [intros y Hy; apply Hl; by right|].
  split_and!; [exact H4|etrans; [exact H2|exact H5]|].
  intros i f Hf Hne Hor. apply (H6 i f Hf Hne).
  destruct (decide (page_id f0 = page_id f)) as [E|E].
  - right. assert (i0 = i) as -> by by apply (frame_unique b bp gs i0 i f0 f). by simplify_eq.
  - destruct Hor as [[Hx|Hin]%elem_of_cons|Hd]; [|by left|].
    + injection Hx as Hx _. by destruct E.
    + right. destruct (i_frames _ _ _ Hinv i0 f0 Hf0) as [F1 _ F3 _]. specialize (F3 Hne0).
      apply on_disk_write; [done|lia|done|done].
Qed.

Lemma flush_clear_ok b bp gs :
  inv b bp gs →
  (∀ i f, frames bp !! i = Some f → page_id f ≠ 0 → dirty f = true →
          on_disk (disk bp) (page_id f) (body (data (fpage f)))) →
  inv b (flush_clear bp) gs ∧ stable bp (flush_clear bp).
Proof.
  intros [H1 H2 H3 H4 H5 H6 H7 H8] Hd. set (cl := λ f, if page_id f =? INVALID_PAGE_ID then f else clean f).
  assert (∀ f, page_id (cl f) = page_id f ∧ fpage (cl f) = fpage f ∧ pin_count (cl f) = pin_count f) as Hcl.
  { intros f. unfold cl. by case_match. }
  assert (∀ i, frames (flush_clear bp) !! i = cl <$> frames bp !! i) as Hlk by (intros; apply list_lookup_fmap).
  split; [split|split].
  - intros pid i. cbn [page_table flush_clear with_frames]. rw H1 Hlk. split.
    + intros (f & -> & Hp & ?). exists (cl f). split; [done|]. by rw (proj1 (Hcl f)).
    + intros (f & (f0 & -> & ->)%fmap_Some & Hp & ?). exists f0. rw (proj1 (Hcl f0)) in Hp. done.
  - intros i. cbn [free_frames flush_clear with_frames]. rw H2 Hlk. split.
    + intros (f & -> & Hp). exists (cl f). split; [done|]. by rw (proj1 (Hcl f)).
    + intros (f & (f0 & -> & ->)%fmap_Some & Hp). exists f0. rw (proj1 (Hcl f0)) in Hp. done.
  - done.
  - intros i f'. rw Hlk. intros (f & Hf & ->)%fmap_Some. destruct (Hcl f) as (E1 & E2 & E3).
    destruct (H4 i f Hf) as [F1 F2 F3 F4]. split; rw ?E1 ?E2 ?E3; [done|done|done|].
    intros Hne _ Ht. destruct (dirty f) eqn:Edirty; [by apply (Hd i f)|by apply F4].
  - done.
  - done.
  - done.
  - done.
  - intros p c. unfold holds_content. cbn [page_table disk flush_clear with_frames].
    destruct (page_table bp !! p) as [i|]; [|done]. rw Hlk. intros (f & -> & ->). exists (cl f).
    split; [done|]. by rw (proj1 (proj2 (Hcl f))).
  - done.
  - cbn. apply length_fmap.
Qed.

Lemma flush_all_ok b bp gs : inv b bp gs → inv b (flush_all bp) gs ∧ stable bp (flush_all bp).
Proof.
  intros Hinv. unfold flush_all.
  destruct (flush_write_ok b bp gs (flush_collect bp) Hinv) as (H1 & H2 & H3).
  { intros x (f & -> & [[_ Hne] Hin]%list_elem_of_filter)%list_elem_of_fmap.
    apply list_elem_of_lookup in Hin as [i Hi]. exists i, f. done. }
  destruct (flush_clear_ok b _ gs H1) as [H4 H5].
  { intros i f Hf Hne Hd. apply (H3 i f Hf Hne). left. apply list_elem_of_fmap. exists f. split; [done|].
    apply list_elem_of_filter. split; [done|]. exact (list_elem_of_lookup_2 _ _ _ Hf). }
  split; [exact H4|]. etrans; [exact H2|exact H5].
Qed.

(** ** The victim *)

Definition candidate (f : Frame) : Prop := pin_count f ≤ 0 ∧ page_id f ≠ INVALID_PAGE_ID.

(** Fewer accesses first; of frames with as many, the one whose access before
    the last is older. *)
Definition lru_le (f g : Frame) : Prop :=
  access_count f < access_count g ∨ (access_count f = access_count g ∧ kth_oldest f ≤ kth_oldest g).

Definition best_of (best : option (nat * Z * Z)) (fs : list Frame) : Prop :=
  match best with
  | None => ∀ j g, fs !! j = Some g → ¬ candidate g
  | Some (v, k, c) =>
      ∃ f, fs !! v = Some f ∧ candidate f ∧ k = kth_oldest f ∧ c = access_count f ∧
           ∀ j g, fs !! j = Some g → candidate g → lru_le f g
  end.

Lemma lookup_snoc_inv {A} (l : list A) x j y :
  (l ++ [x]) !! j = Some y → l !! j = Some y ∨ (j = Datatypes.length l ∧ y = x).
Proof.
  intros [?|[Hge Hj]]%lookup_app_Some; [by left|]. right. apply list_lookup_singleton_Some in Hj as [? <-].
  split; [lia|done].
Qed.

Lemma better_spec best pre f :
  best_of best pre → best_of (better best (Datatypes.length pre) f) (pre ++ [f]).
Proof.
  intros Hb. unfold better. destruct ((0 <? pin_count f) || _) eqn:Hc.
  - assert (¬ candidate f) as Hnc by (unfold candidate; lia).
    destruct best as [[[v k] c]|]; cbn in *.
    + destruct Hb as (f0 & Hv & Hcand & Hk & Hac & Hmin). exists f0. split; [by apply lookup_app_l_Some|].
      split_and!; [done|done|done|]. intros j g [Hj|[_ ->]]%lookup_snoc_inv; [by apply (Hmin j)|done].
    + intros j g [Hj|[_ ->]]%lookup_snoc_inv; [by apply (Hb j)|done].
  - assert (candidate f) as Hcf by (unfold candidate; lia).
    assert ((pre ++ [f]) !! Datatypes.length pre = Some f) as Hlast by by apply list_lookup_middle.
    destruct best as [[[v k] c]|]; cbn in *.
    + destruct Hb as (f0 & Hv & Hcand & -> & -> & Hmin). case_match eqn:Hlt.
      * exists f. split_and!; [done|done|done|done|]. intros j g [Hj|[_ ->]]%lookup_snoc_inv Hg; [|right; lia].
        specialize (Hmin j g Hj Hg). unfold lru_le in *. lia.
      * exists f0. split; [by apply lookup_app_l_Some|]. split_and!; [done|done|done|].
        intros j g [Hj|[_ ->]]%lookup_snoc_inv Hg; [by apply (Hmin j)|]. unfold lru_le. lia.
    + exists f. split_and!; [done|done|done|done|]. intros j g [Hj|[_ ->]]%lookup_snoc_inv Hg; [|right; lia].
      by destruct (Hb j g Hj).
Qed.

Lemma pick_loop_spec fs pre best :
  best_of best pre → best_of (pick_loop (Datatypes.length pre) fs best) (pre ++ fs).
Proof.
  revert pre best. induction fs as [|f fs IH]; intros pre best Hb; cbn [pick_loop]; [by rw app_nil_r|].
  specialize (IH (pre ++ [f]) _ (better_spec _ _ f Hb)). rw length_app -app_assoc in IH.
  cbn [Datatypes.length app] in IH. by rw Nat.add_1_r in IH.
Qed.

Lemma pick_victim_spec bp :
  match pick_victim bp with
  | None => ∀ j g, frames bp !! j = Some g → ¬ candidate g
  | Some v => ∃ f, frames bp !! v = Some f ∧ candidate f ∧
                   ∀ j g, frames bp !! j = Some g → candidate g → lru_le f g
  end.
Proof.
  unfold pick_victim. pose proof (pick_loop_spec (frames bp) [] None) as Hs. cbn [app Datatypes.length] in Hs.
  specialize (Hs ltac:(intros j g Hj; by rewrite lookup_nil in Hj)).
  destruct (pick_loop _ _ _) as [[[v k] c]|]; cbn; [|done]. destruct Hs as (f & ? & ? & _ & _ & ?). by exists f.
Qed.
(** ** Frames for new pages *)

(** A frame that lost its page and belongs to nobody: as if it were free. *)
Definition reserved (idx : nat) (bp : BufferPool) : BufferPool := set_free (idx :: free_frames bp) bp.

Lemma unmap_ok b bp gs v f :
  inv b bp gs → frames bp !! v = Some f → candidate f →
  on_disk (disk bp) (page_id f) (body (data (fpage f))) →
  let bp' := with_frames (<[v := mkFrame (fpage f) INVALID_PAGE_ID 0 false (access_history f) 0]> (frames bp))
               (set_page_table (delete (page_id f) (page_table bp)) bp) in
  inv b (reserved v bp') gs ∧ stable bp bp'.
Proof.
  intros Hinv Hf [Hpin Hne] Hd. set (f' := mkFrame _ _ _ _ _ _). intros bp'.
  pose proof Hinv as [H1 H2 H3 H4 H5 H6 H7 H8]. destruct (H4 v f Hf) as [F1 F2 F3 F4].
  assert (pins gs v = 0%nat) as Hz by lia. pose proof (lookup_lt_Some _ _ _ Hf) as Hlt.
  assert (page_table bp !! page_id f = Some v) as Htv by (apply H1; by exists f).
  assert (frames bp' !! v = Some f') as Hv by by apply list_lookup_insert_eq.
  assert (∀ j, j ≠ v → frames bp' !! j = frames bp !! j) as Hj by (intros; apply list_lookup_insert_ne; congruence).
  split; [split; cbn [page_table free_frames disk reserved set_free set_page_table with_frames frames]|split].
  - intros pid i. change (delete (page_id f) (page_table bp) !! pid = Some i ↔ ∃ g, frames bp' !! i = Some g ∧ page_id g = pid ∧ pid ≠ 0).
    rw lookup_delete_Some H1. destruct (decide (i = v)) as [->|Hiv].
    + rw Hv Hf. split; [intros (? & g & [= <-] & ? & ?); congruence|].
      intros (g & [= <-] & E & ?). change (0 = pid) in E. congruence.
    + rw Hj; [done|]. split; [by intros [_ ?]|]. intros (g & Hg & Hgp & Hn). split; [|by exists g].
      intros E. apply Hiv. apply (frame_unique b bp gs i v g f); [done..| |]; congruence.
  - intros i. change (i ∈ v :: free_frames bp ↔ ∃ g, frames bp' !! i = Some g ∧ page_id g = 0).
    rw elem_of_cons H2. destruct (decide (i = v)) as [->|Hiv].
    + rw Hv. split; [intros _; by exists f'|by left].
    + rw Hj; [done|]. split; [intros [?|?]; done|by right].
  - apply NoDup_cons. split; [|done]. rw H2. intros (g & Hg & Hgp). unfold INVALID_PAGE_ID in Hne. congruence.
  - intros i g. change (frames bp' !! i = Some g → frame_ok (disk bp) gs i g). destruct (decide (i = v)) as [->|Hiv].
    + rw Hv. intros [= <-]. split; [done|cbn; by rw Hz|done|done].
    + rw Hj; [done|]. apply H4.
  - intros k g Hk. destruct (H5 k g Hk) as [Hn Ht]. split; [done|]. rw lookup_delete_ne; [|done].
    intros E. apply (proj1 (pins_zero gs v) Hz k g Hk). rw -E Htv in Ht. by injection Ht.
  - done.
  - done.
  - done.
  - intros p c. unfold holds_content. cbn [page_table disk bp' with_frames set_page_table].
    destruct (decide (p = page_id f)) as [->|Hp].
    + rw Htv lookup_delete_eq. intros (g & Hg & ->). by simplify_eq.
    + rw lookup_delete_ne; [congruence|]. destruct (page_table bp !! p) as [i|] eqn:E; [|done].
      change (frames (with_frames _ _)) with (frames bp'). rw Hj; [|done]. intros ->.
      apply H1 in E as (g & Hg & Hgp & _). congruence.
  - done.
  - cbn. by rw length_insert.
Qed.

Lemma evict_ok b bp gs v f :
  inv b bp gs → frames bp !! v = Some f → candidate f →
  ∃ bp' f', evict_locked v bp = Some bp' ∧ inv b (reserved v bp') gs ∧ stable bp bp' ∧
    frames bp' !! v = Some f' ∧ page_id f' = 0 ∧ page_table bp' = delete (page_id f) (page_table bp).
Proof.
  intros Hinv Hf Hc. pose proof Hc as [Hpin Hne]. unfold evict_locked. rw Hf. cbn [mbind option_bind].
  destruct (page_id f =? INVALID_PAGE_ID) eqn:E; [unfold INVALID_PAGE_ID in *; lia|]. clear E.
  set (bp1 := if dirty f then _ else _).
  assert (inv b bp1 gs ∧ stable bp bp1 ∧ on_disk (disk bp1) (page_id f) (body (data (fpage f))) ∧
          frames bp1 = frames bp ∧ page_table bp1 = page_table bp) as (H1 & H2 & H3 & H4 & H5).
  { unfold bp1. destruct (dirty f) eqn:Ed.
    - destruct (write_frame_ok b bp gs v f Hinv Hf Hne) as (? & ? & ?). done.
    - destruct (i_frames _ _ _ Hinv v f Hf) as [F1 F2 F3 F4]. split_and!; [done|reflexivity| |done|done].
      apply F4; [done|done|]. apply untouched. lia. }
  rw -H4 in Hf. destruct (unmap_ok b bp1 gs v f H1 Hf Hc H3) as [H6 H7]. eexists _, (mkFrame (fpage f) INVALID_PAGE_ID 0 false (access_history f) 0).
  split; [reflexivity|]. split; [exact H6|]. split; [by trans bp1|]. split_and!; [|done|cbn; by rw H5].
  cbn. apply list_lookup_insert_eq. exact (lookup_lt_Some _ _ _ Hf).
Qed.

Lemma take_frame_ok b bp gs :
  inv b bp gs →
  ∃ bp' r, take_frame bp = Some (bp', r) ∧
    match r with
    | Ok idx =>
        inv b (reserved idx bp') gs ∧ stable bp bp' ∧ (∃ f, frames bp' !! idx = Some f ∧ page_id f = 0) ∧
        (∀ p, page_table bp !! p = None → page_table bp' !! p = None) ∧
        (∃ i f, frames bp !! i = Some f ∧ pin_count f ≤ 0)
    | Err e =>
        bp' = bp ∧ e = Internal "buffer_pool: every frame is pinned, cannot evict" ∧
        (∀ i f, frames bp !! i = Some f → 0 < pin_count f)
    end.
Proof.
  intros Hinv. unfold take_frame. destruct (free_frames bp) as [|idx rest] eqn:Efree.
  - pose proof (pick_victim_spec bp) as Hv. destruct (pick_victim bp) as [v|].
    + destruct Hv as (f & Hf & Hc & _). destruct (evict_ok b bp gs v f Hinv Hf Hc) as (bp' & f' & -> & H1 & H2 & H3 & H4 & H5).
      eexists _, (Ok v). split; [reflexivity|]. split_and!; [done|done|by exists f'| |].
      * intros p Hp. rw H5 lookup_delete_None. by right.
      * exists v, f. split; [done|]. apply Hc.
    + eexists _, (Err _). split; [reflexivity|]. split_and!; [done|done|]. intros i f Hf.
      destruct (decide (0 < pin_count f)) as [|Hn]; [done|]. exfalso. apply (Hv i f Hf). split; [lia|].
      intros E0. assert (i ∈ free_frames bp) as Hin by (apply (i_free _ _ _ Hinv); by exists f).
      rw Efree in Hin. by apply not_elem_of_nil in Hin.
  - assert (idx ∈ free_frames bp) as Hin by (rw Efree; by left).
    apply (i_free _ _ _ Hinv) in Hin as (f & Hf & Hid).
    eexists _, (Ok idx). split; [reflexivity|]. split_and!.
    + apply (inv_core _ bp); [|done]. unfold core, reserved, set_free. cbn. by rw Efree.
    + split; [|done|done]. intros p c. unfold holds_content. done.
    + by exists f.
    + done.
    + exists idx, f. split; [done|]. destruct (i_frames _ _ _ Hinv idx f Hf) as [_ F2 _ _]. rw F2.
      rw (proj2 (pins_zero gs idx)); [|done]. intros k g Hk E.
      destruct (i_guards _ _ _ Hinv k g Hk) as [Hn Ht]. apply (i_table _ _ _ Hinv) in Ht as (f' & Hf' & Hid' & _).
      rw E in Hf'. congruence.
Qed.
(** A page read from the file takes the reserved frame. *)
Lemma map_ok b bp gs k idx f f' pid :
  0 ≤ b → inv (b + 1) (reserved idx bp) gs → gs !! k = None →
  frames bp !! idx = Some f → page_id f = 0 → page_table bp !! pid = None → 1 ≤ pid < next_page_id (disk bp) →
  page_id f' = pid → pin_count f' = 1 → page_len (data (fpage f')) →
  on_disk (disk bp) pid (body (data (fpage f'))) →
  let bp' := set_page_table (<[pid := idx]> (page_table bp)) (with_frames (<[idx := f']> (frames bp)) bp) in
  inv b bp' (<[k := mkGuard idx pid false]> gs) ∧ stable bp bp'.
Proof.
  intros Hb Hinv Hk Hf Hid0 Ht Hpid Hid Hpin Hlen Hd bp'. pose proof Hinv as [H1 H2 H3 H4 H5 H6 H7 H8].
  cbn [frames page_table free_frames disk reserved set_free] in *.
  pose proof (lookup_lt_Some _ _ _ Hf) as Hlt.
  assert (frames bp' !! idx = Some f') as Hv by by apply list_lookup_insert_eq.
  assert (∀ j, j ≠ idx → frames bp' !! j = frames bp !! j) as Hj by (intros; apply list_lookup_insert_ne; congruence).
  assert (∀ k' g, gs !! k' = Some g → g_frame g ≠ idx) as Hnog.
  { intros k' g Hk' E. destruct (H5 k' g Hk') as [Hn Htg]. apply H1 in Htg as (f0 & Hf0 & ? & _). congruence. }
  assert (pins gs idx = 0%nat) as Hz by by apply pins_zero.
  split; [split|split].
  - intros p i. change (page_table bp') with (<[pid := idx]> (page_table bp)).
    rw lookup_insert_Some H1. destruct (decide (i = idx)) as [->|Hi].
    + rw Hv Hf. split; [intros [[<- _]|(Hne & g & [= <-] & ? & ?)]; [exists f'; split_and!; [done|done|lia]|congruence]|].
      intros (g & [= <-] & E & ?). left. split; congruence.
    + rw Hj; [done|]. split; [intros [[_ ?]|[_ ?]]; [congruence|done]|]. intros Hg. right. split; [|done].
      intros <-. apply H1 in Hg. congruence.
  - intros i. change (free_frames bp') with (free_frames bp).
    assert (i ∈ idx :: free_frames bp ↔ i = idx ∨ i ∈ free_frames bp) as Hc by apply elem_of_cons.
    apply NoDup_cons in H3 as [Hnin _]. destruct (decide (i = idx)) as [->|Hi].
    + rw Hv. split; [done|]. intros (g & [= <-] & E). lia.
    + rw Hj; [done|]. rw -H2 Hc. split; [by right|]. intros [?|?]; done.
  - by apply NoDup_cons in H3 as [_ ?].
  - intros i g. destruct (decide (i = idx)) as [->|Hi].
    + rw Hv. intros [= <-]. split; [done| |by rw Hid|by rw Hid].
      rw Hpin pins_insert; [done|]. rw Hz decide_True; done.
    + rw Hj; [done|]. intros Hg. destruct (H4 i g Hg) as [F1 F2 F3 F4]. split; [done| |done|].
      * rw pins_insert; [done|]. rw decide_False; [cbn; congruence|]. by rw Nat.add_0_r.
      * intros ?? Hnt. apply F4; [done|done|]. intros Htt. apply Hnt. by apply touched_fresh.
  - intros k' g. change (page_table bp') with (<[pid := idx]> (page_table bp)). rw lookup_insert_Some.
    intros [[-> <-]|[_ Hg]]; [split; [cbn; lia|apply lookup_insert_eq]|]. destruct (H5 k' g Hg) as [Hn Htg].
    split; [done|]. rw lookup_insert_ne; [congruence|done].
  - done.
  - rw map_size_insert_None; [done|]. cbn. lia.
  - done.
  - intros p c. unfold holds_content. change (page_table bp') with (<[pid := idx]> (page_table bp)).
    destruct (decide (p = pid)) as [->|Hp].
    + rw Ht lookup_insert_eq. intros Hc. exists f'. split; [done|]. by apply (on_disk_inj (disk bp) pid).
    + rw lookup_insert_ne; [congruence|]. destruct (page_table bp !! p) as [i|] eqn:E; [|done]. rw Hj; [|done].
      intros ->. apply H1 in E as (g & Hg & Hgp & Hne). congruence.
  - done.
  - cbn. by rw length_insert.
Qed.

(** What [fetch_page] does: [all_pinned] is the case in which it has no frame. *)
Definition all_pinned (bp : BufferPool) : Prop := ∀ i f, frames bp !! i = Some f → 0 < pin_count f.

Lemma fetch_install_ok b bp gs k pid q :
  0 ≤ b → inv (b + 1) bp gs → gs !! k = None → page_table bp !! pid = None → 1 ≤ pid < next_page_id (disk bp) →
  page_len (data q) → on_disk (disk bp) pid (body (data q)) →
  ∃ bp' r, fetch_install pid q bp = Some (bp', r) ∧ stable bp bp' ∧
    match r with
    | Ok g => g_page g = pid ∧ g_dirtied g = false ∧ inv b bp' (<[k := g]> gs) ∧ ¬ all_pinned bp
    | Err e => e = Internal "buffer_pool: every frame is pinned, cannot evict" ∧ bp' = bp ∧ all_pinned bp
    end.
Proof.
  intros Hb Hinv Hk Ht Hpid Hlen Hd. unfold fetch_install. rw Ht.
  destruct (take_frame_ok (b + 1) bp gs Hinv) as (bp1 & r & -> & Hr). cbn [mbind option_bind].
  destruct r as [idx|e].
  - destruct Hr as (H1 & H2 & (f & Hf & Hf0) & H4 & (i & fi & Hi & Hpin)). rw Hf. cbn [mbind option_bind].
    destruct (record_access_fields (clock (tick bp1)) (mkFrame q pid 1 false [0; 0] 0)) as (R1 & R2 & R3 & R4).
    set (f' := record_access _ _) in *. pose proof (s_next _ _ H2) as Hn.
    assert (inv (b + 1) (reserved idx (tick bp1)) gs) as H1' by by apply (inv_core _ (reserved idx bp1)).
    assert (stable bp (tick bp1)) as H2' by (etrans; [exact H2|by apply stable_core]).
    assert (on_disk (disk (tick bp1)) pid (body (data q))) as Hd'.
    { pose proof (s_cont _ _ H2' pid (body (data q))) as Hc. unfold holds_content in Hc. rw Ht in Hc.
      change (page_table (tick bp1)) with (page_table bp1) in Hc. rw (H4 pid Ht) in Hc. by apply Hc. }
    destruct (map_ok b (tick bp1) gs k idx f f' pid) as [H5 H6];
      [done|done|done|done|done|by apply H4|by cbn; rw Hn|done|done|by rw R1|by rw R1|].
    eexists _, (Ok _). split; [reflexivity|]. split; [etrans; [exact H2'|exact H6]|]. split_and!; [done|done|exact H5|].
    intros Hall. specialize (Hall i fi Hi). lia.
  - destruct Hr as (-> & -> & Hall). eexists _, (Err _). split; [reflexivity|]. split; [reflexivity|done].
Qed.

Lemma fetch_page_ok b bp gs k pid :
  0 ≤ b → inv (b + 1) bp gs → gs !! k = None → 1 ≤ pid < next_page_id (disk bp) →
  ∃ bp' r, fetch_page pid bp = Some (bp', r) ∧ stable bp bp' ∧
    match r with
    | Ok g => g_page g = pid ∧ g_dirtied g = false ∧ inv b bp' (<[k := g]> gs) ∧
              (page_table bp !! pid ≠ None ∨ ¬ all_pinned bp)
    | Err e => e = Internal "buffer_pool: every frame is pinned, cannot evict" ∧
               inv (b + 1) bp' gs ∧ page_table bp !! pid = None ∧ all_pinned bp
    end.
Proof.
  intros Hb Hinv Hk Hpid. unfold fetch_page, fetch_begin.
  rw (proj2 (Z.eqb_neq pid INVALID_PAGE_ID)); [unfold INVALID_PAGE_ID; lia|].
  destruct (page_table bp !! pid) as [idx|] eqn:Ht.
  - destruct (hit_ok b bp gs k pid idx Hb Hinv Hk Ht) as (bp' & -> & H1 & H2). cbn [mbind option_bind].
    eexists _, (Ok _). split; [reflexivity|]. split; [etrans; [exact H2|by apply stable_core]|].
    split_and!; [done|done|by apply (inv_core _ bp')|by left].
  - destruct (i_disk _ _ _ Hinv) as [_ Hall]. destruct (Hall pid Hpid) as (c & Hc).
    destruct (on_disk_read _ _ _ Hc) as (q & Hq & Hlen & <-).
    cbn [mbind option_bind count_miss disk]. rw Hq.
    assert (inv (b + 1) (count_miss bp) gs) as Hinv' by by apply (inv_core _ bp).
    destruct (fetch_install_ok b (count_miss bp) gs k pid q) as (bp' & r & -> & H1 & H2); try done.
    eexists _, r. split; [reflexivity|]. split; [etrans; [by apply (stable_core bp (count_miss bp))|exact H1]|].
    destruct r; [naive_solver|]. destruct H2 as (? & -> & ?). done.
Qed.
(** ** New pages *)

Lemma allocate_ok b bp gs :
  0 ≤ b → inv (b + 1) bp gs →
  let '(dm, pid) := allocate_page (disk bp) in
  pid = next_page_id (disk bp) ∧ next_page_id dm = pid + 1 ∧ inv b (with_disk dm bp) gs ∧
  (∀ p c, p ≠ pid → holds_content bp p c → holds_content (with_disk dm bp) p c) ∧
  holds_content (with_disk dm bp) pid (body (data (Page.new pid))).
Proof.
  intros Hb Hinv. pose proof Hinv as [H1 H2 H3 H4 H5 [H6 H6'] [H7 H8] H9]. unfold allocate_page.
  set (pid := next_page_id (disk bp)) in *. set (dm1 := mkDisk _ _). set (dm := write_page _ _ _).
  assert (next_page_id dm = pid + 1) as Hn by (unfold dm, dm1; cbn; rw wrap_small; lia).
  assert (∀ j c, j ≠ pid → on_disk (disk bp) j c → on_disk dm j c) as Hkeep.
  { intros j c Hj Hc. apply on_disk_write; [apply new_page_len|lia|congruence|exact Hc]. }
  assert (on_disk dm pid (body (data (Page.new pid)))) as Hnew.
  { apply on_disk_write_same; [apply new_page_len|lia]. }
  assert (page_table bp !! pid = None) as Ht.
  { destruct (page_table bp !! pid) as [i|] eqn:E; [|done]. apply H1 in E as (f & Hf & Hid & Hne).
    destruct (H4 i f Hf) as [_ _ F3 _]. rw Hid in F3. specialize (F3 Hne). lia. }
  split_and!; [done|done| | |].
  - split; cbn [frames page_table free_frames disk with_disk]; try done.
    + intros i f Hi. destruct (H4 i f Hi) as [F1 F2 F3 F4]. split; [done|done| |].
      * intros Hne. specialize (F3 Hne). lia.
      * intros Hne Hd Hnt. apply Hkeep; [specialize (F3 Hne); lia|by apply F4].
    + rw Hn. split; [lia|]. intros j Hj. destruct (decide (j = pid)) as [->|Hjp]; [eexists; exact Hnew|].
      destruct (H6' j) as (c & Hc); [lia|]. exists c. by apply Hkeep.
    + rw Hn. lia.
    + rw Hn. unfold dm, write_page. cbn [file dm1]. pose proof (sealed_len _ (new_page_len pid)) as Hl.
      unfold page_len in Hl. rw file_write_len; [unfold page_offset, PAGE_SIZE; lia|]. rw Hl.
      unfold page_offset, PAGE_SIZE in *. fold pid in H9. lia.
  - intros p c Hp. unfold holds_content. cbn [page_table frames disk with_disk].
    destruct (page_table bp !! p); [done|]. by apply Hkeep.
  - unfold holds_content. cbn [page_table frames disk with_disk]. by rw Ht.
Qed.

(** ** Which pages are pinned *)

Lemma NoDup_fmap_filter {A B} (P : A → Prop) `{!∀ x, Decision (P x)} (h : A → B) (l : list A) :
  (∀ i j x y, l !! i = Some x → l !! j = Some y → P x → P y → h x = h y → i = j) →
  NoDup (h <$> filter P l).
Proof.
  induction l as [|a l IH]; intros Hinj; [constructor|].
  assert (NoDup (h <$> filter P l)) as Hnd.
  { apply IH. intros i j x y Hx Hy HPx HPy E. by injection (Hinj (S i) (S j) x y Hx Hy HPx HPy E). }
  rw filter_cons. case_decide as HP; [|done]. cbn. apply NoDup_cons. split; [|done].
  intros (y & E & [HPy [j Hj]%list_elem_of_lookup]%list_elem_of_filter)%list_elem_of_fmap.
  by specialize (Hinj 0%nat (S j) a y eq_refl Hj HP HPy E).
Qed.

Lemma elem_of_pinned (m : gmap nat BufferGuard) pid :
  pid ∈ (list_to_set (map_to_list (g_page <$> m)).*2 : gset Z) ↔ ∃ k g, m !! k = Some g ∧ g_page g = pid.
Proof.
  rw elem_of_list_to_set list_elem_of_fmap. split.
  - intros ([k p] & -> & Hin%elem_of_map_to_list). apply lookup_fmap_Some in Hin as (g & <- & Hg). by exists k, g.
  - intros (k & g & Hk & <-). exists (k, g_page g). split; [done|]. apply elem_of_map_to_list.
    by rw lookup_fmap Hk.
Qed.

Lemma pinned_frames b bp gs :
  inv b bp gs →
  (list_to_set (map_to_list (g_page <$> gs)).*2 : gset Z) =
  list_to_set (page_id <$> filter (λ f, 0 < pin_count f) (frames bp)).
Proof.
  intros Hinv. apply set_eq. intros pid. rw elem_of_pinned elem_of_list_to_set list_elem_of_fmap. split.
  - intros (k & g & Hk & <-). destruct (guard_frame b bp gs k g Hinv Hk) as (f & Hf & Hid & _ & _ & Hp).
    exists f. split; [done|]. apply list_elem_of_filter. split; [done|]. exact (list_elem_of_lookup_2 _ _ _ Hf).
  - intros (f & -> & [Hp [i Hi]%list_elem_of_lookup]%list_elem_of_filter).
    destruct (i_frames _ _ _ Hinv i f Hi) as [_ F2 _ _].
    destruct (decide (pins gs i = 0%nat)) as [Hz|Hz]; [lia|].
    assert (∃ k g, gs !! k = Some g ∧ g_frame g = i) as (k & g & Hk & Hg).
    { apply map_size_non_empty_iff, map_choose in Hz as (k & g & [Hk Hg]%map_lookup_filter_Some). by exists k, g. }
    exists k, g. split; [done|]. destruct (guard_frame b bp gs k g Hinv Hk) as (f' & Hf' & Hid & _).
    rw Hg in Hf'. congruence.
Qed.

(** A frame is left for another page unless every frame is pinned. *)
Lemma pinned_full b bp gs :
  inv b bp gs →
  (size (list_to_set (map_to_list (g_page <$> gs)).*2 : gset Z) <? Datatypes.length (frames bp))%nat = false ↔
  all_pinned bp.
Proof.
  intros Hinv. rw (pinned_frames b bp gs Hinv). rw size_list_to_set.
  { apply NoDup_fmap_filter. intros i j f f' Hi Hj Hp _ E. apply (frame_unique b bp gs i j f f' Hinv Hi Hj E).
    intros E0. destruct (i_frames _ _ _ Hinv i f Hi) as [_ F2 _ _]. rw F2 in Hp.
    rw (proj2 (pins_zero gs i)) in Hp; [|done]. intros k g Hk Hg.
    destruct (guard_frame b bp gs k g Hinv Hk) as (f0 & Hf0 & Hid & Hne & _). rw Hg in Hf0. congruence. }
  rw length_fmap Nat.ltb_ge. split.
  - intros Hle i f Hf. destruct (decide (0 < pin_count f)) as [|Hn]; [done|].
    pose proof (length_filter_lt (λ f, 0 < pin_count f) (frames bp) f (list_elem_of_lookup_2 _ _ _ Hf) Hn). lia.
  - intros Hall. rw filter_every; [|done]. apply Forall_lookup. exact Hall.
Qed.

Lemma not_cached_not_pinned b bp gs pid :
  inv b bp gs → page_table bp !! pid = None → pid ∉ (list_to_set (map_to_list (g_page <$> gs)).*2 : gset Z).
Proof.
  intros Hinv Ht (k & g & Hk & <-)%elem_of_pinned. destruct (i_guards _ _ _ Hinv k g Hk). congruence.
Qed.
(** ** Refinement *)

Lemma inv_weaken b b' bp gs : b' ≤ b → inv b bp gs → inv b' bp gs.
Proof. intros Hb [H1 H2 H3 H4 H5 H6 H7 H8]. split; [done..|lia|done]. Qed.

(** Only cleared frames owe the file their content. *)
Lemma inv_dirty b bp gs k g :
  inv b bp gs → gs !! k = Some g → inv b bp (<[k := mkGuard (g_frame g) (g_page g) true]> gs).
Proof.
  intros Hinv Hk. destruct (guard_frame b bp gs k g Hinv Hk) as (f & Hf & _).
  destruct (guard_write_ok b bp gs k g (data (fpage f)) Hinv Hk) as (bp' & E & H1 & _).
  { apply (i_frames _ _ _ Hinv _ f Hf). }
  unfold guard_write in E. rw Hf in E. injection E as <-. apply (inv_core _ _ bp) in H1; [done|].
  unfold core. cbn. rw list_insert_id; [|done]. destruct f as [[]]. exact Hf.
Qed.

(** The first page number that is not in the file. *)
Lemma read_missing b bp gs pid :
  inv b bp gs → 0 ≤ pid → next_page_id (disk bp) ≤ pid →
  page_table bp !! pid = None ∧ read_page (disk bp) pid = Err Io.
Proof.
  intros Hinv Hp Hn. split.
  - destruct (page_table bp !! pid) as [i|] eqn:E; [|done]. apply (i_table _ _ _ Hinv) in E as (f & Hf & <- & Hne).
    destruct (i_frames _ _ _ Hinv i f Hf) as [_ _ F3 _]. specialize (F3 Hne). lia.
  - unfold read_page, read_at. rw get_slice_short; [|done]. pose proof (i_end _ _ _ Hinv) as He.
    unfold page_offset, PAGE_SIZE in *. nia.
Qed.

Lemma fetch_core n b c s pid :
  0 ≤ b → 0 ≤ pid → inv (b + 1) (pool c) (guards c) → rel n c s →
  ∃ bp' r, fetch_page pid (pool c) = Some (bp', r) ∧ stable (pool c) bp' ∧
    match r with
    | Ok g =>
        g_page g = pid ∧ inv b bp' (<[next_guard c := g]> (guards c)) ∧
        spec_fetch n pid s =
          (mkSpec (contents_of s) (<[next_open s := pid]> (open s)) (S (next_open s)) (next_pid s),
           AGuard (next_open s) pid)
    | Err e => inv b bp' (guards c) ∧ spec_fetch n pid s = (s, AErr e)
    end.
Proof.
  intros Hb Hp Hinv [Rl Rd Rc Ro Rn Rf Rp]. unfold spec_fetch. destruct (pid =? INVALID_PAGE_ID) eqn:E0.
  { eexists _, (Err _). unfold fetch_page, fetch_begin. rw E0. split; [reflexivity|]. split; [reflexivity|].
    split; [|done]. apply (inv_weaken (b + 1)); [lia|done]. }
  destruct (decide (pid < next_page_id (disk (pool c)))) as [Hlt|Hge].
  - unfold INVALID_PAGE_ID in E0. assert (1 ≤ pid < next_page_id (disk (pool c))) as Hr by lia.
    rw bool_decide_eq_false_2; [apply not_eq_None_Some, Rd; exact Hr|].
    destruct (fetch_page_ok b (pool c) (guards c) (next_guard c) pid Hb Hinv) as (bp' & r & H1 & H2 & H3);
      [by apply Rf|done|].
    exists bp', r. split; [done|]. split; [done|]. unfold pinned. rw Ro.
    pose proof (pinned_full _ _ _ Hinv) as Hfull. rw Rl in Hfull.
    destruct r as [g|e].
    + destruct H3 as (Hg & _ & H4 & H5). split_and!; [done|done|]. case_match eqn:Hc; [done|]. exfalso.
      apply orb_false_iff in Hc as [Hc1 Hc2]. apply Hfull in Hc2. apply bool_decide_eq_false in Hc1.
      destruct H5 as [H5|H5]; [|done]. destruct (page_table (pool c) !! pid) as [i|] eqn:Et; [|done].
      apply (i_table _ _ _ Hinv) in Et as (f & Hf & Hid & _). apply Hc1.
      rw (pinned_frames _ _ _ Hinv). rw elem_of_list_to_set. apply list_elem_of_fmap. exists f. split; [done|].
      apply list_elem_of_filter. split; [exact (Hc2 i f Hf)|exact (list_elem_of_lookup_2 _ _ _ Hf)].
    + destruct H3 as (-> & H4 & H5 & H6). split; [by apply (inv_weaken (b + 1)); [lia|]|].
      rw bool_decide_eq_false_2; [by apply (not_cached_not_pinned _ _ _ _ Hinv)|].
      by rw (proj2 Hfull H6).
  - destruct (read_missing _ _ _ pid Hinv Hp) as [H1 H2]; [lia|].
    rw bool_decide_eq_true_2. { apply eq_None_not_Some. intros Hs%Rd. lia. }
    eexists _, (Err Io). unfold fetch_page, fetch_begin. rw E0 H1. cbn [mbind option_bind disk count_miss]. rw H2.
    split; [reflexivity|]. split; [by apply stable_core|]. split; [|done].
    apply (inv_core _ (pool c)); [done|]. apply (inv_weaken (b + 1)); [lia|done].
Qed.

(** The relation after a step that hands out a guard, or none. *)
Lemma rel_stable n c s bp' gs' ng' :
  rel n c s → stable (pool c) bp' → g_page <$> gs' = g_page <$> guards c → ng' = next_guard c →
  rel n (mkClient bp' gs' ng') s.
Proof.
  intros [Rl Rd Rc Ro Rn Rf Rp] [S1 S2 S3] Hg ->. split; cbn [pool guards next_guard].
  - congruence.
  - by rw S2.
  - intros pid d Hd. by apply S1, Rc.
  - congruence.
  - done.
  - intros k Hk. specialize (Rf k Hk). apply fmap_None with (f := g_page). rw -lookup_fmap Hg lookup_fmap Rf. done.
  - by rw S2.
Qed.

Lemma rel_guard n c s bp' g pid :
  rel n c s → stable (pool c) bp' → g_page g = pid →
  rel n (mkClient bp' (<[next_guard c := g]> (guards c)) (S (next_guard c)))
        (mkSpec (contents_of s) (<[next_open s := pid]> (open s)) (S (next_open s)) (next_pid s)).
Proof.
  intros [Rl Rd Rc Ro Rn Rf Rp] [S1 S2 S3] Hg. split; cbn [pool guards next_guard contents_of open next_open next_pid].
  - congruence.
  - by rw S2.
  - intros q d Hd. by apply S1, Rc.
  - by rw fmap_insert Ro Rn Hg.
  - congruence.
  - intros k Hk. rw lookup_insert_ne; [lia|]. apply Rf. lia.
  - by rw S2.
Qed.
Definition refined (n : nat) (b : Z) (r : option (client * answer)) (sa : spec * answer) : Prop :=
  ∃ c', r = Some (c', sa.2) ∧ inv b (pool c') (guards c') ∧ rel n c' sa.1.

Lemma fetch_refines n b c s pid :
  0 ≤ b → 0 ≤ pid → inv (b + 1) (pool c) (guards c) → rel n c s →
  refined n b (give (fetch_page pid (pool c)) c) (spec_fetch n pid s).
Proof.
  intros Hb Hp Hinv Hrel. destruct (fetch_core n b c s pid Hb Hp Hinv Hrel) as (bp' & r & -> & H1 & H2).
  unfold refined, give. cbn [mbind option_bind]. destruct r as [g|e].
  - destruct H2 as (Hg & H3 & ->). eexists. split; [cbn; by rw Hg (r_next _ _ _ Hrel)|]. split; [exact H3|].
    by apply rel_guard.
  - destruct H2 as (H3 & ->). eexists. split; [reflexivity|]. split; [exact H3|]. by apply (rel_stable n c).
Qed.

(** The client and the store after the page number was taken. *)
Lemma rel_allocate n b c s :
  0 ≤ b → inv (b + 1) (pool c) (guards c) → rel n c s →
  let '(dm, pid) := allocate_page (disk (pool c)) in
  let c1 := mkClient (with_disk dm (pool c)) (guards c) (next_guard c) in
  pid = next_pid s ∧ 1 ≤ pid ∧ inv b (pool c1) (guards c1) ∧
  rel n c1 (mkSpec (<[pid := body (data (Page.new pid))]> (contents_of s)) (open s) (next_open s) (pid + 1)).
Proof.
  intros Hb Hinv [Rl Rd Rc Ro Rn Rf Rp]. pose proof (allocate_ok b (pool c) (guards c) Hb Hinv) as Ha.
  pose proof (i_disk _ _ _ Hinv) as [Hge _].
  destruct (allocate_page (disk (pool c))) as [dm pid]. destruct Ha as (H1 & H2 & H3 & H4 & H5). cbn zeta.
  split_and!; [congruence|lia|done|]. split; cbn [pool guards next_guard contents_of open next_open next_pid disk with_disk frames].
  - done.
  - intros p. rw H2. destruct (decide (p = pid)) as [->|Hp].
    + rw lookup_insert_eq. split; [lia|]. intros _. by eexists.
    + rw lookup_insert_ne; [congruence|]. rw Rd -H1. lia.
  - intros p d. rw lookup_insert_Some. intros [[<- <-]|[Hp Hd]]; [done|]. apply H4; [congruence|]. by apply Rc.
  - done.
  - done.
  - done.
  - done.
Qed.

Lemma new_page_refines n b c s :
  0 ≤ b → inv (b + 2) (pool c) (guards c) → rel n c s →
  refined n b (step NewPage c) (spec_step n NewPage s).
Proof.
  intros Hb Hinv Hrel. replace (b + 2) with (b + 1 + 1) in Hinv by lia.
  pose proof (rel_allocate n (b + 1) c s ltac:(lia) Hinv Hrel) as Ha. cbn [step spec_step]. unfold new_page.
  destruct (allocate_page (disk (pool c))) as [dm pid]. cbn zeta in Ha. destruct Ha as (-> & Hge & H1 & H2).
  set (c1 := mkClient _ _ _) in *. set (s1 := mkSpec _ _ _ _) in *.
  destruct (fetch_core n b c1 s1 (next_pid s) Hb ltac:(lia) H1 H2) as (bp' & r & E & H3 & H4).
  cbn [pool c1] in E. rw E. unfold refined, give. cbn [mbind option_bind]. destruct r as [g|e].
  - destruct H4 as (Hg & H5 & ->). exists (mkClient bp' (<[next_guard c := mkGuard (g_frame g) (g_page g) true]> (guards c)) (S (next_guard c))). split; [cbn; by rw Hg (r_next _ _ _ Hrel)|]. split.
    + cbn [pool guards]. pose proof (inv_dirty b bp' _ (next_guard c) g H5) as H6. rw insert_insert_eq in H6.
      exact (H6 (lookup_insert_eq _ _ _)).
    + by apply (rel_guard n c1 s1 bp' (mkGuard (g_frame g) (g_page g) true)).
  - destruct H4 as (H5 & ->). eexists. split; [reflexivity|]. split; [exact H5|]. by apply (rel_stable n c1).
Qed.

Lemma rel_guards n c s k :
  rel n c s → open s !! k = g_page <$> guards c !! k.
Proof. intros Hrel. by rw (r_open _ _ _ Hrel) lookup_fmap. Qed.

Lemma guard_content n b c s k g :
  inv b (pool c) (guards c) → rel n c s → guards c !! k = Some g →
  ∃ d, contents_of s !! g_page g = Some d ∧ holds_content (pool c) (g_page g) d.
Proof.
  intros Hinv Hrel Hk. destruct (guard_frame _ _ _ _ _ Hinv Hk) as (f & Hf & Hid & Hne & [_ _ F3 _] & _).
  destruct (proj2 (r_dom _ _ _ Hrel (g_page g))) as [d Hd]; [rw -Hid; apply F3; congruence|].
  exists d. split; [done|]. by apply (r_cont _ _ _ Hrel).
Qed.

Lemma write_refines n b c s k d :
  page_len d → inv b (pool c) (guards c) → rel n c s →
  refined n b (step (Write k d) c) (spec_step n (Write k d) s).
Proof.
  intros Hd Hinv Hrel. cbn [step spec_step]. rw (rel_guards n c s k Hrel).
  destruct (guards c !! k) as [g|] eqn:Hk; cbn [fmap option_fmap option_map]; [|by exists c].
  destruct (guard_write_ok b _ _ k g d Hinv Hk Hd) as (bp' & -> & H1 & H2 & H3 & H4 & H5).
  cbn [mbind option_bind]. eexists. split; [reflexivity|]. split; [exact H1|].
  destruct Hrel as [Rl Rd Rc Ro Rn Rf Rp]. split; cbn [pool guards next_guard contents_of open next_open next_pid fst].
  - congruence.
  - intros p. rw H4 -Rd lookup_insert_is_Some'. split; [|by right]. intros [<-|?]; [|done].
    destruct (guard_content n b c s k g Hinv) as (d0 & Hd0 & _); [by split|done|by exists d0].
  - intros p e. rw lookup_insert_Some. intros [[<- <-]|[Hp He]]; [done|]. apply H3; [congruence|by apply Rc].
  - rw fmap_insert Ro. cbn. rw insert_id; [by rw lookup_fmap Hk|done].
  - done.
  - intros j Hj. rw lookup_insert_ne; [|by apply Rf]. intros ->. rw (Rf j Hj) in Hk. done.
  - congruence.
Qed.

Lemma step_refines n b o c s :
  0 ≤ b → op_ok o → inv (b + 2) (pool c) (guards c) → rel n c s → refined n b (step o c) (spec_step n o s).
Proof.
  intros Hb Hok Hinv Hrel. assert (inv b (pool c) (guards c)) as Hinv0 by (apply (inv_weaken (b + 2)); [lia|done]).
  assert (refined n b (Some (c, ANoGuard)) (s, ANoGuard)) as Hno by by exists c.
  destruct o as [pid| |k|k d|k|pid|].
  - apply fetch_refines; [done|done| |done]. apply (inv_weaken (b + 2)); [lia|done].
  - by apply new_page_refines.
  - cbn [step spec_step]. rw (rel_guards n c s k Hrel). destruct (guards c !! k) as [g|] eqn:Hk; [|exact Hno].
    destruct (guard_content n b c s k g Hinv0 Hrel Hk) as (d & Hd & Hc).
    destruct (guard_read_ok b _ _ k g d Hinv0 Hk Hc) as (p & -> & Hp). cbn. rw Hd Hp. by exists c.
  - by apply write_refines.
  - cbn [step spec_step]. rw (rel_guards n c s k Hrel). destruct (guards c !! k) as [g|] eqn:Hk; [|exact Hno].
    destruct (unpin_ok b _ _ k g Hinv0 Hk) as (bp' & -> & H1 & [S1 S2 S3]). eexists. split; [reflexivity|].
    split; [exact H1|]. destruct Hrel as [Rl Rd Rc Ro Rn Rf Rp]. split; cbn; [congruence|by rw S2|auto| |done| |congruence].
    + by rw fmap_delete Ro.
    + intros j Hj. apply lookup_delete_None. right. by apply Rf.
  - cbn [step spec_step]. destruct (flush_page_ok b (pool c) (guards c) pid Hinv0) as (bp' & -> & H1 & H2).
    eexists. split; [reflexivity|]. split; [exact H1|]. by apply (rel_stable n c).
  - cbn [step spec_step]. destruct (flush_all_ok b (pool c) (guards c) Hinv0) as (H1 & H2).
    eexists. split; [reflexivity|]. split; [exact H1|]. by apply (rel_stable n c).
Qed.

Lemma run_refines n b os c s :
  0 ≤ b → Forall op_ok os → inv (b + 2 * zlen os) (pool c) (guards c) → rel n c s →
  ∃ c', run os c = Some (c', (spec_run n os s).2) ∧ inv b (pool c') (guards c') ∧ rel n c' (spec_run n os s).1.
Proof.
  intros Hb Hok. revert c s. induction Hok as [|o os Ho _ IH]; intros c s Hinv Hrel; cbn [run spec_run].
  { exists c. split_and!; [done| |done]. apply (inv_weaken (b + 2 * zlen (@nil op))); [rw zlen_nil; lia|done]. }
  rw zlen_cons in Hinv. pose proof (zlen_nonneg os) as Hz.
  destruct (step_refines n (b + 2 * zlen os) o c s) as (c1 & H1 & H2 & H3); [lia|done| |done|].
  { by replace (b + 2 * zlen os + 2) with (b + 2 * (1 + zlen os)) by lia. }
  rw H1. destruct (spec_step n o s) as [s1 a]. cbn [fst snd mbind option_bind] in *.
  destruct (IH c1 s1 H2 H3) as (c2 & -> & H5 & H6). destruct (spec_run n os s1) as [s2 l]. by exists c2.
Qed.
(** ** From a file *)

(** Every page below the next number can be read, and the file ends there. *)
Record disk_ok (dm : DiskManager) : Prop := {
  d_next : 1 ≤ next_page_id dm;
  d_pages : ∀ j, 1 ≤ j < next_page_id dm → ∃ c, on_disk dm j c;
  d_end : zlen (file dm) < (next_page_id dm + 1) * PAGE_SIZE;
}.

Definition file_contents (dm : DiskManager) : gmap Z (list Z) :=
  map_imap (λ pid _, match read_page dm pid with Ok q => Some (body (data q)) | Err _ => None end)
    (gset_to_gmap tt (list_to_set (seqZ 1 (next_page_id dm - 1)))).

Definition start (dm : DiskManager) (num_frames : nat) : client := mkClient (new dm num_frames) ∅ 0.
Definition spec_start (dm : DiskManager) : spec := mkSpec (file_contents dm) ∅ 0 (next_page_id dm).

Lemma lookup_file_contents dm pid d :
  disk_ok dm → file_contents dm !! pid = Some d ↔ 1 ≤ pid < next_page_id dm ∧ on_disk dm pid d.
Proof.
  intros [H1 H2 H3]. unfold file_contents. rw map_lookup_imap lookup_gset_to_gmap.
  assert (pid ∈ (list_to_set (seqZ 1 (next_page_id dm - 1)) : gset Z) ↔ 1 ≤ pid < next_page_id dm) as Hin.
  { rw elem_of_list_to_set elem_of_seqZ. lia. }
  destruct (decide (1 ≤ pid < next_page_id dm)) as [Hr|Hr].
  - rw option_guard_True; [by apply Hin|]. cbn. destruct (H2 pid Hr) as (c & Hs & q & Hq & <-). rw Hq. split.
    + intros [= <-]. split; [done|]. split; [done|]. by exists q.
    + intros (_ & _ & q' & Hq' & <-). congruence.
  - rw option_guard_False; [by rw Hin|]. cbn. split; [done|]. by intros [? _].
Qed.

Lemma start_inv b dm num_frames :
  disk_ok dm → b < 2 ^ 32 → next_page_id dm + b < 2 ^ 32 → inv b (new dm num_frames) ∅.
Proof.
  intros [H1 H2 H3] Hb Hb'. unfold new.
  assert (∀ i f, replicate (num_frames `max` 2) empty_frame !! i = Some f → f = empty_frame ∧ (i < num_frames `max` 2)%nat) as Hrep.
  { intros i f Hf. by apply lookup_replicate in Hf as [-> ?]. }
  split; cbn [frames page_table free_frames disk]; [| | | | |done| |done].
  - intros pid i. rw lookup_empty. split; [done|]. intros (f & [-> _]%Hrep & E & Hn). cbn in E. by subst pid.
  - intros i. rw elem_of_seq. split.
    + intros Hi. exists empty_frame. split; [|done]. rw lookup_replicate. split; [done|lia].
    + intros (f & [_ ?]%Hrep & _). lia.
  - apply NoDup_seq.
  - intros i f [-> Hi]%Hrep. split; [apply new_page_len|done|done|done].
  - intros k g Hk. by rw lookup_empty in Hk.
  - rw map_size_empty. lia.
Qed.

Lemma start_rel dm num_frames :
  disk_ok dm → rel (num_frames `max` 2) (start dm num_frames) (spec_start dm).
Proof.
  intros Hd. split; cbn [pool guards next_guard contents_of open next_open next_pid start spec_start].
  - unfold new. cbn [frames]. apply length_replicate.
  - intros pid. split.
    + intros [d Hd']. by apply lookup_file_contents in Hd' as [? _].
    + intros Hr. destruct (d_pages _ Hd pid Hr) as (c & Hc). exists c. by apply lookup_file_contents.
  - intros pid d Hc. apply lookup_file_contents in Hc as [_ Hc]; [|done]. unfold holds_content.
    cbn [page_table new]. by rw lookup_empty.
  - by rw fmap_empty.
  - done.
  - intros k _. apply lookup_empty.
  - done.
Qed.

(** C25: whatever pages clients fetch, create, read, write, release and flush, a
    pool of frames over a readable file never panics and answers as a map from
    page numbers to contents does: a page reads as it was last written, however
    often it was replaced in between, and a fetch fails only for a page that
    does not exist or when every frame is pinned for another page. Once no
    guard is left, [flush_all] leaves every page in the file as the map has it. *)
Theorem pool_refines_pages dm num_frames os :
  disk_ok dm → Forall op_ok os → next_page_id dm + 2 * zlen os < 2 ^ 32 →
  let '(s, answers) := spec_run (num_frames `max` 2) os (spec_start dm) in
  ∃ c, run os (start dm num_frames) = Some (c, answers) ∧
    (guards c = ∅ → ∀ pid d, contents_of s !! pid = Some d → on_disk (disk (flush_all (pool c))) pid d).
Proof.
  intros Hd Hok Hb. pose proof (d_next _ Hd) as Hn.
  destruct (run_refines (num_frames `max` 2) 0 os (start dm num_frames) (spec_start dm)) as (c & H1 & H2 & H3);
    [done|done|apply start_inv; [done|lia|lia]|by apply start_rel|].
  destruct (spec_run _ _ _) as [s l]. cbn [fst snd] in *. exists c. split; [done|]. intros Hg pid d Hc. destruct (flush_all_ok 0 _ _ H2) as [H4 [S1 _ _]].
  pose proof (S1 pid d (r_cont _ _ _ H3 pid d Hc)) as Hh. unfold holds_content in Hh.
  destruct (page_table (flush_all (pool c)) !! pid) as [i|] eqn:E; [|done]. destruct Hh as (f & Hf & ->).
  apply (i_table _ _ _ H4) in E as (f' & Hf' & <- & Hne). rw Hf in Hf'. injection Hf' as <-.
  apply (i_frames _ _ _ H4 i f Hf); [done| |rw Hg; intros (k & g & Hk & _); by rw lookup_empty in Hk].
  cbn in Hf. rw list_lookup_fmap in Hf. apply fmap_Some in Hf as (f0 & _ & ->). revert Hne. unfold INVALID_PAGE_ID. destruct (page_id f0 =? 0) eqn:E0; [|done]. intros Hne. lia.
Qed.

(** the frame that gives up its page is unpinned, and of the unpinned ones it
    was accessed the fewest times (counted up to two) and, among those with as
    many accesses, the longest time ago; there is none only when every frame
    with a page is pinned. *)
Theorem victim_is_lru bp :
  match pick_victim bp with
  | None => ∀ j g, frames bp !! j = Some g → ¬ candidate g
  | Some v => ∃ f, frames bp !! v = Some f ∧ candidate f ∧
                   ∀ j g, frames bp !! j = Some g → candidate g → lru_le f g
  end.
Proof. apply pick_victim_spec. Qed.
End crc.

(** ** Concrete runs *)

Definition byte_page (pid b : Z) : list Z := write_at (data (Page.new pid)) 100 [b].

(** Page 1 is written, replaced by pages 3 and 4, and fetched again. *)
Definition example_ops : list op :=
  [NewPage; NewPage; Write 0 (byte_page 1 7); DropGuard 0; DropGuard 1; NewPage; NewPage; DropGuard 2;
   Fetch_ 1; Read 4; DropGuard 3; DropGuard 4].

Lemma pool_refines_pages_witness :
  ∃ c answers, run example_ops (start (DiskManager.new []) 2) = Some (c, answers) ∧
         answers !! 9%nat = Some (AData (body (byte_page 1 7))).
Proof.
  pose proof (pool_refines_pages (DiskManager.new []) 2 example_ops) as Ht.
  destruct (spec_run (2 `max` 2) example_ops (spec_start (DiskManager.new []))) as [s l] eqn:E.
  destruct Ht as (c & H2 & _).
  - split; [vm_compute; discriminate|intros j Hj; change (next_page_id (DiskManager.new [])) with 1 in Hj; lia|vm_compute; reflexivity].
  - repeat apply Forall_cons_2; try apply Forall_nil_2; try exact I; vm_compute; [reflexivity|discriminate].
  - vm_compute; reflexivity.
  - exists c, l. split; [exact H2|]. assert (l = (spec_run (2 `max` 2) example_ops (spec_start (DiskManager.new []))).2) as ->.
    { rewrite E. reflexivity. }
    vm_compute. reflexivity.
Defined.
(** The pool of two frames over a file with the pages 1, 2 and 3. *)
Definition three_pages : option BufferPool :=
  '(c, _) ← run [NewPage; DropGuard 0; NewPage; DropGuard 1; NewPage; DropGuard 2; FlushAll]
              (start (DiskManager.new []) 2);
  Some (pool c).

(** A client that fetches page [pid], writes [d] when there is one, and lets go. *)
Definition visit (pid : Z) (d : option (list Z)) (bp : BufferPool) : option BufferPool :=
  '(bp1, r) ← fetch_page pid bp;
  match r with
  | Err _ => None
  | Ok g =>
      '(bp2, g') ← match d with Some d => guard_write g d bp1 | None => Some (bp1, g) end;
      unpin g' bp2
  end.

Fixpoint visits (l : list (Z * option (list Z))) (bp : BufferPool) : option BufferPool :=
  match l with
  | [] => Some bp
  | (pid, d) :: l' => bp1 ← visit pid d bp; visits l' bp1
  end.

(** What a client reads at offset 100 of page [pid]. *)
Definition seen (pid : Z) (bp : BufferPool) : option Z :=
  '(bp1, r) ← fetch_page pid bp;
  match r with
  | Err _ => None
  | Ok g => p ← guard_read g bp1; data p !! 100%nat
  end.

(** A thread misses page 1 and reads it from the file; others write page 1 and
    go on to pages 2 and 3; then the first thread enters its second critical
    section. The byte of page 1 that was written, seen before that and after. *)
Definition overtaken_fetch : option (option Z * option Z) :=
  bp0 ← three_pages;
  bp ← visits [(2, None); (3, None)] bp0;
  '(bp1, r) ← fetch_begin 1 bp;
  match r with
  | Done _ => None
  | Pending old =>
      bp2 ← visits [(1, Some (byte_page 1 7)); (2, None); (3, None)] bp1;
      '(bp3, _) ← fetch_install 1 old bp2;
      Some (seen 1 bp2, seen 1 bp3)
  end.

(** [fetch_page] reads the file without the lock. A thread that is overtaken
    between its reading and its second critical section by one that writes the
    page and by others that drive it out of the pool installs the bytes it read
    before: a completed write is gone from the pool. *)
Theorem overtaken_fetch_is_stale :
  overtaken_fetch = Some (Some 7, Some 0).
Proof. vm_compute. reflexivity. Qed.

(** Page 1 is written and [flush_all] copies it; while the copies are written to
    the file, the page is written again; [flush_all] marks the frames clean; then
    pages 2 and 3 drive page 1 out. The byte of page 1 before that, and after. *)
Definition overtaken_flush : option (option Z * option Z) :=
  bp0 ← three_pages;
  bp1 ← visits [(1, Some (byte_page 1 7))] bp0;
  let copies := flush_collect bp1 in
  bp2 ← visits [(1, Some (byte_page 1 8))] bp1;
  let bp3 := flush_clear (with_disk (flush_write copies (disk bp2)) bp2) in
  bp4 ← visits [(2, None); (2, None); (3, None)] bp3;
  Some (seen 1 bp3, seen 1 bp4).

(** [flush_all] marks every frame clean, also one that was written after its
    copy was taken: the second write of a page is lost when its frame is reused. *)
Theorem overtaken_flush_loses_write :
  overtaken_flush = Some (Some 8, Some 7).
Proof. vm_compute. reflexivity. Qed.
End BufferPool.
