(* ===== verification/FreeSpace.v ===== *)
(** Free pages: the free space map ([bytedb-core/src/storage/fsm.rs]), which sorts
    pages into 16 buckets by the share of them that is free, and the free list
    ([bytedb-core/src/storage/freelist.rs]). *)
From S2P Require Import Prelude.

Module FreeSpace.

Definition NUM_BUCKETS : Z := 16.

Record FreeSpaceMap := mkFsm {
  page_size : Z;
  pages : gmap Z Z;
  buckets : list (list Z);
}.

Definition new (page_size : Z) : FreeSpaceMap := mkFsm page_size ∅ (replicate 16 []).

(** The product is a [usize]: it wraps. *)
Definition bucket_index (fsm : FreeSpaceMap) (free_bytes : Z) : Z :=
  if page_size fsm =? 0 then 0
  else
    let cap := page_size fsm in
    let pct := wrap 64 (free_bytes * NUM_BUCKETS) / Z.max cap 1 in
    Z.min pct (NUM_BUCKETS - 1).

(** [Vec::swap_remove]: the last element takes the place of the removed one. *)
Definition swap_remove {A} (pos : nat) (l : list A) : list A :=
  match last l with
  | None => l
  | Some x => take (length l - 1) (<[pos := x]> l)
  end.

(** [iter().position(..)] and [swap_remove] of what it finds. *)
Definition remove_page (page_id : Z) (bucket : list Z) : list Z :=
  match list_find (λ p, p = page_id) bucket with
  | Some (pos, _) => swap_remove pos bucket
  | None => bucket
  end.

(** The buckets are always 16, so the indexing cannot panic. *)
Definition push_to (idx : Z) (page_id : Z) (bs : list (list Z)) : list (list Z) :=
  alter (λ b, b ++ [page_id]) (Z.to_nat idx) bs.
Definition remove_from (idx : Z) (page_id : Z) (bs : list (list Z)) : list (list Z) :=
  alter (remove_page page_id) (Z.to_nat idx) bs.

Definition record (page_id free_bytes : Z) (fsm : FreeSpaceMap) : FreeSpaceMap :=
  let new_idx := bucket_index fsm free_bytes in
  let ps := <[page_id := free_bytes]> (pages fsm) in
  match pages fsm !! page_id with
  | Some old_free =>
      let old_idx := bucket_index fsm old_free in
      if negb (old_idx =? new_idx)
      then mkFsm (page_size fsm) ps (push_to new_idx page_id (remove_from old_idx page_id (buckets fsm)))
      else mkFsm (page_size fsm) ps (buckets fsm)
  | None => mkFsm (page_size fsm) ps (push_to new_idx page_id (buckets fsm))
  end.

Definition forget (page_id : Z) (fsm : FreeSpaceMap) : FreeSpaceMap :=
  match pages fsm !! page_id with
  | Some free =>
      mkFsm (page_size fsm) (base.delete page_id (pages fsm))
        (remove_from (bucket_index fsm free) page_id (buckets fsm))
  | None => fsm
  end.

Definition fits (fsm : FreeSpaceMap) (needed_bytes pid : Z) : bool :=
  match pages fsm !! pid with Some free => needed_bytes <=? free | None => false end.

(** The inner loop looks at a bucket from its end. *)
Fixpoint find_in_buckets (fsm : FreeSpaceMap) (needed_bytes : Z) (bs : list (list Z)) : option Z :=
  match bs with
  | [] => None
  | b :: bs' =>
      match list_find (λ pid, fits fsm needed_bytes pid = true) (reverse b) with
      | Some (_, pid) => Some pid
      | None => find_in_buckets fsm needed_bytes bs'
      end
  end.

Definition find_with_at_least (needed_bytes : Z) (fsm : FreeSpaceMap) : option Z :=
  let start := bucket_index fsm needed_bytes in
  find_in_buckets fsm needed_bytes (drop (Z.to_nat start) (buckets fsm)).

Definition page_count (fsm : FreeSpaceMap) : Z := Z.of_nat (size (pages fsm)).
Definition free_bytes_for (page_id : Z) (fsm : FreeSpaceMap) : option Z := pages fsm !! page_id.

Definition total_free_bytes `{HashOrder} (fsm : FreeSpaceMap) : Z :=
  wrap 64 (zsum (λ v, v) (hash_values (pages fsm))).

(** ** The free list *)

Definition FreeList : Type := list Z.
Definition fl_new : FreeList := [].
Definition push (page_id : Z) (l : FreeList) : FreeList := l ++ [page_id].
Definition pop (l : FreeList) : FreeList * option Z :=
  match l with [] => ([], None) | p :: l' => (l', Some p) end.
Definition len (l : FreeList) : Z := zlen l.
Definition is_empty (l : FreeList) : bool := bool_decide (length l = 0%nat).

(** ** Buckets *)

Lemma swap_remove_perm {A} (pos : nat) (l : list A) x : l !! pos = Some x → l ≡ₚ x :: swap_remove pos l.
Proof.
  intros Hp. unfold swap_remove. destruct l as [|y l _] using rev_ind; [done|].
  rw last_snoc length_app. cbn [length]. replace (length l + 1 - 1)%nat with (length l) by lia.
  destruct (decide (pos < length l)%nat) as [Hlt|Hge].
  - rw insert_app_l; [done|]. rw take_app_length'; [by rw length_insert|].
    rw lookup_app_l in Hp; [done|]. rw insert_take_drop; [done|].
    rewrite <- (take_drop_middle l pos x Hp) at 1. rw -!app_assoc. cbn [app].
    trans (x :: take pos l ++ drop (S pos) l ++ [y]); [symmetry; apply Permutation_middle|]. constructor.
    apply Permutation_app_head. by rw Permutation_app_comm.
  - pose proof (lookup_lt_Some _ _ _ Hp) as Hl. rw length_app in Hl. cbn in Hl.
    assert (pos = length l) as -> by lia. rw list_lookup_middle in Hp; [done|]. injection Hp as <-.
    rw take_insert_ge; [done|]. rw take_app_length. by rw Permutation_app_comm.
Qed.

Lemma remove_page_spec pid b :
  NoDup b → NoDup (remove_page pid b) ∧ ∀ q, q ∈ remove_page pid b ↔ q ∈ b ∧ q ≠ pid.
Proof.
  intros Hnd. unfold remove_page. destruct (list_find _ b) as [[pos q]|] eqn:E.
  - apply list_find_Some in E as (Hp & -> & _). pose proof (swap_remove_perm pos b pid Hp) as Hperm.
    rw Hperm in Hnd. apply NoDup_cons in Hnd as [Hn Hnd]. split; [done|]. intros q.
    rw {2} Hperm. rw elem_of_cons. split; [|naive_solver]. intros Hq. split; [by right|]. by intros ->.
  - apply list_find_None in E. rw Forall_forall in E. split; [done|]. intros q. split; [|by intros [? _]].
    intros Hq. split; [done|]. by apply E.
Qed.

Definition nbucket (fsm : FreeSpaceMap) (free : Z) : nat := Z.to_nat (bucket_index fsm free).

Lemma nbucket_bound fsm free : 0 ≤ page_size fsm → (nbucket fsm free < 16)%nat.
Proof.
  intros Hp. unfold nbucket, bucket_index, NUM_BUCKETS. destruct (page_size fsm =? 0); [lia|].
  pose proof (wrap_range 64 (free * 16) ltac:(lia)). pose proof (Z.div_pos (wrap 64 (free * 16)) (Z.max (page_size fsm) 1)). lia.
Qed.

(** Each recorded page is in the bucket of its free space, once, and nowhere else. *)
Record fsm_ok (fsm : FreeSpaceMap) : Prop := {
  fo_size : 0 ≤ page_size fsm;
  fo_len : length (buckets fsm) = 16%nat;
  fo_nodup : ∀ i b, buckets fsm !! i = Some b → NoDup b;
  fo_mem : ∀ i b pid, buckets fsm !! i = Some b →
             pid ∈ b ↔ ∃ free, pages fsm !! pid = Some free ∧ nbucket fsm free = i;
}.

Lemma new_ok ps : 0 ≤ ps → fsm_ok (new ps).
Proof.
  intros Hp. split; cbn [page_size buckets pages new]; [done|done| |].
  - intros i b [-> _]%lookup_replicate. constructor.
  - intros i b pid [-> _]%lookup_replicate. rw lookup_empty. split; [by intros ?%not_elem_of_nil|by intros (? & ? & _)].
Qed.

Lemma lookup_alter_bucket (f : list Z → list Z) (k i : nat) (bs : list (list Z)) b :
  alter f k bs !! i = Some b → ∃ b0, bs !! i = Some b0 ∧ b = if decide (i = k) then f b0 else b0.
Proof.
  destruct (decide (i = k)) as [->|Hne].
  - rw list_lookup_alter_eq. intros (b0 & Hb & ->)%fmap_Some. by exists b0.
  - rw list_lookup_alter_ne; [congruence|]. intros Hb. by exists b.
Qed.

(** The page of a recorded free space leaves its bucket. *)
Lemma remove_mem fsm pid free i b :
  fsm_ok fsm → pages fsm !! pid = Some free →
  remove_from (bucket_index fsm free) pid (buckets fsm) !! i = Some b →
  NoDup b ∧ ∀ q, q ∈ b ↔ q ≠ pid ∧ ∃ fr, pages fsm !! q = Some fr ∧ nbucket fsm fr = i.
Proof.
  intros [H1 H2 H3 H4] Hpid (b0 & Hb & ->)%lookup_alter_bucket. fold (nbucket fsm free).
  destruct (decide (i = nbucket fsm free)) as [->|Hi].
  - destruct (remove_page_spec pid b0 (H3 _ _ Hb)) as [Hnd Hin]. split; [done|]. intros q.
    rw Hin (H4 _ _ q Hb). naive_solver.
  - split; [by apply (H3 _ _ Hb)|]. intros q. rw (H4 _ _ q Hb). split; [|by intros [_ ?]].
    intros (fr & Hq & Hf). split; [|by exists fr]. intros ->. congruence.
Qed.

(** A page joins the bucket of its new free space; [bs] holds all others. *)
Lemma push_ok fsm pid free bs :
  0 ≤ page_size fsm → length bs = 16%nat →
  (∀ i b, bs !! i = Some b →
     NoDup b ∧ ∀ q, q ∈ b ↔ q ≠ pid ∧ ∃ fr, pages fsm !! q = Some fr ∧ nbucket fsm fr = i) →
  fsm_ok (mkFsm (page_size fsm) (<[pid := free]> (pages fsm)) (push_to (bucket_index fsm free) pid bs)).
Proof.
  intros Hp Hlen Hbs.
  assert (∀ i b, push_to (bucket_index fsm free) pid bs !! i = Some b →
            NoDup b ∧ ∀ q, q ∈ b ↔ ∃ fr, <[pid := free]> (pages fsm) !! q = Some fr ∧ nbucket fsm fr = i) as Hall.
  { intros i b (b0 & Hb & ->)%lookup_alter_bucket. fold (nbucket fsm free). destruct (Hbs i b0 Hb) as [Hnd Hin].
    assert (pid ∉ b0) as Hnp by (rw Hin; by intros [? _]).
    assert (∀ q, q ∈ b0 ↔ q ≠ pid ∧ ∃ fr, <[pid := free]> (pages fsm) !! q = Some fr ∧ nbucket fsm fr = i) as Hin'.
    { intros q. rw Hin. split; intros [Hq Hf]; (split; [done|]); rw lookup_insert_ne in Hf |- *; congruence || done. }
    destruct (decide (i = nbucket fsm free)) as [->|Hi].
    - split; [apply NoDup_app; split_and!; [done|set_solver|apply NoDup_singleton]|]. intros q.
      rw elem_of_app Hin' list_elem_of_singleton. destruct (decide (q = pid)) as [->|Hq]; [|naive_solver].
      rw lookup_insert_eq. naive_solver.
    - split; [done|]. intros q. rw Hin'. split; [by intros [_ ?]|]. intros (fr & Hq & Hf). split; [|by exists fr].
      intros ->. rw lookup_insert_eq in Hq. congruence. }
  split; cbn [page_size buckets pages]; [done|unfold push_to; by rw length_alter| |].
  - intros i b Hb. by apply (Hall i b).
  - intros i b q Hb. by apply (Hall i b).
Qed.

Lemma record_ok pid free fsm : fsm_ok fsm → fsm_ok (record pid free fsm).
Proof.
  intros Hok. pose proof Hok as [H1 H2 H3 H4]. unfold record. destruct (pages fsm !! pid) as [old|] eqn:E.
  - destruct (negb _) eqn:Hne.
    + apply push_ok; [done|unfold remove_from; by rw length_alter|]. intros i b Hb. by apply (remove_mem fsm pid old).
    + apply negb_false_iff, Z.eqb_eq in Hne. split; cbn [page_size buckets pages]; [done|done|done|].
      intros i b q Hb. rw (H4 i b q Hb). destruct (decide (q = pid)) as [->|Hq].
      * rw lookup_insert_eq E. unfold nbucket in *. cbn [page_size bucket_index] in *.
        split; intros (fr & [= <-] & Hf); eexists; (split; [done|]); rewrite -Hf; by unfold nbucket; f_equal.
      * by rw lookup_insert_ne; [congruence|].
  - apply push_ok; [done|done|]. intros i b Hb. split; [by apply (H3 i b)|]. intros q. rw (H4 i b q Hb).
    split; [|by intros [_ ?]]. intros (fr & Hq & Hf). split; [|by exists fr]. intros ->. congruence.
Qed.

Lemma forget_ok pid fsm : fsm_ok fsm → fsm_ok (forget pid fsm).
Proof.
  intros Hok. pose proof Hok as [H1 H2 H3 H4]. unfold forget. destruct (pages fsm !! pid) as [free|] eqn:E; [|done].
  split; cbn [page_size buckets pages]; [done|unfold remove_from; by rw length_alter| |].
  - intros i b Hb. by apply (remove_mem fsm pid free i b).
  - intros i b q Hb. rw (proj2 (remove_mem fsm pid free i b Hok E Hb) q). unfold nbucket. cbn [bucket_index page_size].
    split; intros H; [destruct H as (Hq & fr & Hl & Hf)|destruct H as (fr & [Hq Hl]%lookup_delete_Some & Hf)].
    + exists fr. split; [|done]. rw lookup_delete_ne; congruence.
    + split; [congruence|]. by exists fr.
Qed.

(** ** Searching *)

Lemma nbucket_mono fsm a b : 0 ≤ a ≤ b → b < 2 ^ 60 → (nbucket fsm a ≤ nbucket fsm b)%nat.
Proof.
  intros Hab Hb. unfold nbucket, bucket_index, NUM_BUCKETS. destruct (page_size fsm =? 0); [lia|].
  rw !wrap_small; [lia|lia|]. pose proof (Z.div_le_mono (a * 16) (b * 16) (Z.max (page_size fsm) 1)). lia.
Qed.

Lemma find_in_buckets_spec fsm n bs :
  match find_in_buckets fsm n bs with
  | Some pid => fits fsm n pid = true
  | None => ∀ b pid, b ∈ bs → pid ∈ b → fits fsm n pid = false
  end.
Proof.
  induction bs as [|b bs IH]; cbn [find_in_buckets]; [by intros b pid ?%not_elem_of_nil|].
  destruct (list_find _ (reverse b)) as [[i pid]|] eqn:E.
  - by apply list_find_Some in E as (_ & ? & _).
  - apply list_find_None in E. rw Forall_forall in E. destruct (find_in_buckets fsm n bs); [done|].
    intros b' pid [->|Hb]%elem_of_cons Hp; [|by apply (IH b')].
    apply not_true_is_false. apply E. by apply elem_of_reverse.
Qed.

Lemma find_spec fsm n :
  fsm_ok fsm → 0 ≤ n → (∀ pid free, pages fsm !! pid = Some free → free < 2 ^ 60) →
  match find_with_at_least n fsm with
  | Some pid => ∃ free, pages fsm !! pid = Some free ∧ n ≤ free
  | None => ∀ pid free, pages fsm !! pid = Some free → free < n
  end.
Proof.
  intros [H1 H2 H3 H4] Hn Hmax. unfold find_with_at_least. fold (nbucket fsm n).
  pose proof (find_in_buckets_spec fsm n (drop (nbucket fsm n) (buckets fsm))) as Hs.
  destruct (find_in_buckets _ _ _) as [pid|]; unfold fits in Hs.
  - destruct (pages fsm !! pid) as [free|]; [|done]. exists free. split; [done|lia].
  - intros pid free Hp. destruct (decide (free < n)) as [|Hge]; [done|]. exfalso.
    pose proof (Hmax pid free Hp) as Hb. pose proof (nbucket_mono fsm n free ltac:(lia) Hb) as Hm.
    pose proof (nbucket_bound fsm free H1) as Hlt. rw -H2 in Hlt.
    destruct (lookup_lt_is_Some_2 _ _ Hlt) as [b Hb'].
    assert (pid ∈ b) as Hin by (apply (H4 _ b pid Hb'); by exists free).
    specialize (Hs b pid). rw Hp in Hs. assert (n <=? free = false) as Hc; [|lia]. apply Hs; [|done].
    apply (list_elem_of_lookup_2 _ (nbucket fsm free - nbucket fsm n)). rw lookup_drop.
    by replace (nbucket fsm n + (nbucket fsm free - nbucket fsm n))%nat with (nbucket fsm free) by lia.
Qed.

(** ** Sequences of operations *)

Inductive op := Record_ (pid free : Z) | Forget_ (pid : Z).

Definition apply_op (fsm : FreeSpaceMap) (o : op) : FreeSpaceMap :=
  match o with Record_ pid free => record pid free fsm | Forget_ pid => forget pid fsm end.

(** What is known of the pages: the last record that was not forgotten. *)
Definition known (m : gmap Z Z) (o : op) : gmap Z Z :=
  match o with Record_ pid free => <[pid := free]> m | Forget_ pid => base.delete pid m end.

(** Amounts of free space far below the width of [usize]. *)
Definition op_small (o : op) : Prop := match o with Record_ _ free => 0 ≤ free < 2 ^ 60 | Forget_ _ => True end.

Lemma apply_op_ok fsm o : fsm_ok fsm → fsm_ok (apply_op fsm o) ∧ pages (apply_op fsm o) = known (pages fsm) o.
Proof.
  intros Hok. destruct o as [pid free|pid]; cbn [apply_op known].
  - split; [by apply record_ok|]. unfold record. destruct (pages fsm !! pid); [|done]. by case_match.
  - split; [by apply forget_ok|]. unfold forget. destruct (pages fsm !! pid) eqn:E; [done|]. by rw delete_id.
Qed.

Lemma run_ok os fsm m :
  fsm_ok fsm → pages fsm = m → (∀ pid free, m !! pid = Some free → free < 2 ^ 60) → Forall op_small os →
  fsm_ok (foldl apply_op fsm os) ∧ pages (foldl apply_op fsm os) = foldl known m os ∧
  (∀ pid free, foldl known m os !! pid = Some free → free < 2 ^ 60).
Proof.
  intros Hok Hp Hm Hs. revert fsm m Hok Hp Hm.
  induction Hs as [|o os Ho _ IH]; intros fsm m Hok Hp Hm; cbn [foldl]; [done|].
  destruct (apply_op_ok fsm o Hok) as [H1 H2]. apply IH; [done|congruence|].
  intros pid free Hl. destruct o as [q fr|q]; cbn in Hl, Ho.
  - apply lookup_insert_Some in Hl as [[_ <-]|[_ Hl]]; [lia|by apply (Hm pid)].
  - apply lookup_delete_Some in Hl as [_ Hl]. by apply (Hm pid).
Qed.

(** after any records and removals, [find_with_at_least] returns a page whose
    last recorded free space is enough, and finds none only when no page has
    enough, although it looks only at the buckets from that of the request on;
    the count and the space of each page are those last recorded. *)
Theorem fsm_finds_space ps os n :
  0 ≤ ps → Forall op_small os → 0 ≤ n →
  let fsm := foldl apply_op (new ps) os in
  let m := foldl known ∅ os in
  match find_with_at_least n fsm with
  | Some pid => ∃ free, m !! pid = Some free ∧ n ≤ free
  | None => ∀ pid free, m !! pid = Some free → free < n
  end ∧
  (∀ pid, free_bytes_for pid fsm = m !! pid) ∧ page_count fsm = Z.of_nat (size m).
Proof.
  intros Hps Hos Hn fsm m. destruct (run_ok os (new ps) ∅) as (H1 & H2 & H3); [by apply new_ok|done| |done|].
  { intros pid free Hl. by rw lookup_empty in Hl. }
  fold fsm in H1, H2. fold m in H2, H3. unfold free_bytes_for, page_count. rw H2. split; [|done].
  pose proof (find_spec fsm n H1 Hn) as Hf. rw H2 in Hf. by apply Hf.
Qed.

Lemma fsm_finds_space_witness :
  find_with_at_least 3000 (foldl apply_op (new 8192) [Record_ 1 100; Record_ 2 3100; Record_ 3 8000; Forget_ 3]) = Some 2 ∧
  ∃ free, foldl known ∅ [Record_ 1 100; Record_ 2 3100; Record_ 3 8000; Forget_ 3] !! 2 = Some free ∧ 3000 ≤ free.
Proof.
  split; [vm_compute; reflexivity|].
  pose proof (proj1 (fsm_finds_space 8192 [Record_ 1 100; Record_ 2 3100; Record_ 3 8000; Forget_ 3] 3000
    ltac:(lia) ltac:(repeat constructor; cbn; lia) ltac:(lia))) as Hf.
  cbv zeta in Hf. exact Hf.
Defined.

End FreeSpace.
