(* ===== verification/Replacer.v ===== *)
(** The LRU-K replacer ([bytedb-core/src/buffer/replacer.rs]): the history of
    accesses to the frames of a pool and the choice of the frame to reuse. *)
From S2P Require Import Prelude.

Module Replacer.

Record LruKReplacer := mkReplacer {
  k : Z;
  access_history : gmap Z (list Z);
  current_timestamp : Z;
  evictable : gmap Z bool;
}.

Definition new (_max_size k : Z) : LruKReplacer := mkReplacer k ∅ 0 ∅.

Definition record_access (frame_id : Z) (r : LruKReplacer) : LruKReplacer :=
  let ts := current_timestamp r + 1 in
  let entry := default [] (access_history r !! frame_id) ++ [ts] in
  let entry' := if k r <? zlen entry then tail entry else entry in
  mkReplacer (k r) (<[frame_id := entry']> (access_history r)) ts (evictable r).

Definition set_evictable (frame_id : Z) (e : bool) (r : LruKReplacer) : LruKReplacer :=
  mkReplacer (k r) (access_history r) (current_timestamp r) (<[frame_id := e]> (evictable r)).

Definition remove (frame_id : Z) (r : LruKReplacer) : LruKReplacer :=
  mkReplacer (k r) (delete frame_id (access_history r)) (current_timestamp r) (delete frame_id (evictable r)).

(** The local variables of the loop of [evict]. *)
Record scan := mkScan { victim : option Z; max_distance : Z; found_less_than_k : bool }.

Definition front (l : list Z) : Z := default 0 (head l).

Definition visit (r : LruKReplacer) (s : scan) (fe : Z * bool) : scan :=
  let '(frame_id, is_evictable) := fe in
  if negb is_evictable then s
  else match access_history r !! frame_id with
  | Some accesses =>
      if zlen accesses <? k r then
        if negb (found_less_than_k s) then mkScan (Some frame_id) (front accesses) true
        else if front accesses <? max_distance s then mkScan (Some frame_id) (front accesses) (found_less_than_k s)
        else s
      else if negb (found_less_than_k s) then
        let distance := sat_sub (current_timestamp r) (front accesses) in
        if max_distance s <? distance then mkScan (Some frame_id) distance (found_less_than_k s) else s
      else s
  | None => mkScan (Some frame_id) 0 true
  end.

Section order.
Context `{HashOrder}.

Definition evict (r : LruKReplacer) : LruKReplacer * option Z :=
  let s := foldl (visit r) (mkScan None 0 false) (hash_iter (evictable r)) in
  match victim s with
  | Some frame_id => (remove frame_id r, Some frame_id)
  | None => (r, None)
  end.

Definition size (r : LruKReplacer) : Z :=
  zlen (filter (λ v, v = true) (hash_values (evictable r))).

(** ** The order of replacement *)

(** Frames without a history first, then those with fewer than [k] accesses,
    then the others. *)
Definition class (r : LruKReplacer) (f : Z) : Z :=
  match access_history r !! f with
  | None => 0
  | Some l => if zlen l <? k r then 1 else 2
  end.

(** The oldest access that is remembered: the [k]-th last one of a full history. *)
Definition oldest (r : LruKReplacer) (f : Z) : Z := front (default [] (access_history r !! f)).

Definition goes_before (r : LruKReplacer) (f g : Z) : Prop :=
  class r f < class r g ∨ (class r f = class r g ∧ (class r f = 0 ∨ oldest r f ≤ oldest r g)).

Record ok (r : LruKReplacer) : Prop := {
  ok_k : 2 ≤ k r;
  ok_now : 0 ≤ current_timestamp r;
  ok_hist : ∀ f l, access_history r !! f = Some l →
    l ≠ [] ∧ zlen l ≤ k r ∧ StronglySorted Z.lt l ∧ Forall (λ t, 0 < t ≤ current_timestamp r) l;
}.

Lemma record_access_ok f r : ok r → ok (record_access f r).
Proof.
  intros [H1 H2 H3]. unfold record_access. split; cbn [k current_timestamp access_history]; [done|lia|].
  intros g l. rw lookup_insert_Some. intros [[<- <-]|[_ Hg]].
  - set (e := default [] (access_history r !! f)).
    assert (zlen e ≤ k r ∧ StronglySorted Z.lt e ∧ Forall (λ t, 0 < t ≤ current_timestamp r) e) as (E1 & E2 & E3).
    { unfold e. destruct (access_history r !! f) as [l|] eqn:E; cbn [default]; [by destruct (H3 f l E) as (_ & ?)|].
      split_and!; [rw zlen_nil; lia|constructor|constructor]. }
    assert (StronglySorted Z.lt (e ++ [current_timestamp r + 1])) as Hs.
    { apply StronglySorted_app. split_and!; [|done|by repeat constructor]. intros x y Hx ->%list_elem_of_singleton.
      rw Forall_forall in E3. specialize (E3 x Hx). lia. }
    assert (Forall (λ t, 0 < t ≤ current_timestamp r + 1) (e ++ [current_timestamp r + 1])) as Hf.
    { apply Forall_app. split; [eapply Forall_impl; [exact E3|]; cbn; intros; lia|]. repeat constructor; lia. }
    rw zlen_app zlen_cons zlen_nil. case_match eqn:Hk.
    + destruct e as [|x e]; [rw zlen_nil in Hk; lia|]. cbn [tail app] in *. split_and!.
      * by destruct e.
      * rw zlen_app zlen_cons zlen_nil. rw zlen_cons in E1. lia.
      * by inversion Hs.
      * by inversion Hf.
    + split_and!; [by destruct e|rw zlen_app zlen_cons zlen_nil; lia|done|done].
  - destruct (H3 g l Hg) as (A & B & C & D). split_and!; [done|done|done|]. eapply Forall_impl; [exact D|]. cbn. lia.
Qed.

Lemma remove_ok f r : ok r → ok (remove f r).
Proof.
  intros [H1 H2 H3]. split; [done|done|]. intros g l Hg. cbn in Hg. apply lookup_delete_Some in Hg as [_ Hg].
  exact (H3 g l Hg).
Qed.

(** The loop, after the frames [seen]. *)
Definition scanned (r : LruKReplacer) (seen : list (Z * bool)) (s : scan) : Prop :=
  match victim s with
  | None => found_less_than_k s = false ∧ max_distance s = 0 ∧ ∀ f, (f, true) ∉ seen
  | Some v =>
      (v, true) ∈ seen ∧ (∀ f, (f, true) ∈ seen → goes_before r v f) ∧
      found_less_than_k s = bool_decide (class r v ≠ 2) ∧
      max_distance s = (if bool_decide (class r v = 0) then 0
                        else if bool_decide (class r v = 1) then oldest r v
                        else current_timestamp r - oldest r v)
  end.

Lemma class_cases r f : class r f = 0 ∨ class r f = 1 ∨ class r f = 2.
Proof. unfold class. repeat case_match; auto. Qed.

(** A full history of at least two accesses begins before now. *)
Lemma oldest_bound r f : ok r → class r f ≠ 0 → 0 < oldest r f ∧ (class r f = 2 → oldest r f < current_timestamp r).
Proof.
  intros [H1 H2 H3]. unfold class, oldest. destruct (access_history r !! f) as [l|] eqn:E; [|done]. intros _.
  destruct (H3 f l E) as (A & B & C & D). cbn [default]. destruct l as [|x l]; [done|]. change (front (id (x :: l))) with x.
  apply Forall_cons in D as [D1 D2]. split; [lia|]. case_match eqn:Hc; [done|]. intros _.
  destruct l as [|y l]; [rw zlen_cons zlen_nil in Hc; lia|]. apply Forall_cons in D2 as [D2 _].
  inversion C as [|? ? _ F]; subst. apply Forall_cons in F as [F _]. lia.
Qed.
Lemma goes_before_refl r f : goes_before r f f.
Proof. right. split; [done|]. right. lia. Qed.

Lemma goes_before_trans r f g h : goes_before r f g → goes_before r g h → goes_before r f h.
Proof. unfold goes_before. lia. Qed.

(** Replacing the victim by a frame that goes before it. *)
Lemma scanned_replace r seen f s :
  (∀ v, victim s = Some v → goes_before r f v) → scanned r seen s →
  (f, true) ∈ seen ++ [(f, true)] ∧ ∀ g, (g, true) ∈ seen ++ [(f, true)] → goes_before r f g.
Proof.
  intros Hv Hs. split; [set_solver|]. intros g [Hg|Hg]%elem_of_app.
  - unfold scanned in Hs. destruct (victim s) as [v|]; [|by destruct Hs as (_ & _ & Hs); destruct (Hs g)].
    destruct Hs as (_ & Hs & _). eapply goes_before_trans; [by apply Hv|by apply Hs].
  - apply list_elem_of_singleton in Hg as [= ->]. apply goes_before_refl.
Qed.

Lemma scanned_keep r seen f b s :
  scanned r seen s → (b = true → ∃ v, victim s = Some v ∧ goes_before r v f) → scanned r (seen ++ [(f, b)]) s.
Proof.
  unfold scanned. intros Hs Hb. destruct (victim s) as [v|].
  - destruct Hs as (H1 & H2 & H3 & H4). split_and!; [set_solver| |done|done].
    intros g [Hg|Hg]%elem_of_app; [by apply H2|]. apply list_elem_of_singleton in Hg as [= -> Hb'].
    destruct (Hb (eq_sym Hb')) as (v' & [= <-] & ?). done.
  - destruct Hs as (H1 & H2 & H3). split_and!; [done|done|]. intros g [Hg|Hg]%elem_of_app; [by apply (H3 g)|].
    apply list_elem_of_singleton in Hg as [= -> Hb']. by destruct (Hb (eq_sym Hb')) as (v' & ? & _).
Qed.

Lemma scanned_new r seen f s dist found :
  (∀ v, victim s = Some v → goes_before r f v) → scanned r seen s → found = bool_decide (class r f ≠ 2) →
  dist = (if bool_decide (class r f = 0) then 0 else if bool_decide (class r f = 1) then oldest r f
          else current_timestamp r - oldest r f) →
  scanned r (seen ++ [(f, true)]) (mkScan (Some f) dist found).
Proof. intros Hv Hs -> ->. destruct (scanned_replace r seen f s Hv Hs). by split_and!. Qed.

Lemma visit_scanned r seen s fe : ok r → scanned r seen s → scanned r (seen ++ [fe]) (visit r s fe).
Proof.
  intros Hok Hs. destruct fe as [f b]. unfold visit. destruct b; cbn [negb]; [|by apply scanned_keep].
  assert (∀ v, victim s = Some v → found_less_than_k s = bool_decide (class r v ≠ 2) ∧
            max_distance s = (if bool_decide (class r v = 0) then 0 else if bool_decide (class r v = 1)
                              then oldest r v else current_timestamp r - oldest r v)) as Hvic.
  { intros v Hv. unfold scanned in Hs. rw Hv in Hs. tauto. }
  assert (victim s = None → found_less_than_k s = false ∧ max_distance s = 0) as Hnone.
  { intros Hv. unfold scanned in Hs. rw Hv in Hs. tauto. }
  pose proof (oldest_bound r f Hok) as Hb.
  assert (∀ v, class r v ≠ 0 → 0 < oldest r v ∧ (class r v = 2 → oldest r v < current_timestamp r)) as Hbv
    by (intros v; by apply oldest_bound).
  assert (class r f = match access_history r !! f with None => 0 | Some l => if zlen l <? k r then 1 else 2 end) as Hcf by done.
  assert (oldest r f = front (default [] (access_history r !! f))) as Hof by done.
  destruct (access_history r !! f) as [l|]; cbn [default] in Hof; [rw -!Hof|].
  - destruct (zlen l <? k r).
    + destruct (found_less_than_k s) eqn:Ef; cbn [negb].
      * destruct (victim s) as [v|] eqn:Ev; [|by destruct Hnone]. destruct (Hvic v eq_refl) as [V1 V2].
        symmetry in V1. apply bool_decide_eq_true in V1. specialize (Hbv v). pose proof (class_cases r v) as Hc.
        destruct (oldest r f <? max_distance s) eqn:El.
        -- apply (scanned_new r seen f s); [|done|by rw Hcf|by rw Hcf]. rw Ev. intros ? [= <-].
           unfold goes_before. repeat case_bool_decide; lia.
        -- apply scanned_keep; [done|]. intros _. exists v. split; [done|]. unfold goes_before.
           repeat case_bool_decide; lia.
      * apply (scanned_new r seen f s); [|done|by rw Hcf|by rw Hcf]. intros v Hv. left. rw Hcf.
        destruct (Hvic v Hv) as [V1 _]. symmetry in V1. apply bool_decide_eq_false in V1. lia.
    + specialize (Hb ltac:(lia)) as [Hb1 Hb2]. specialize (Hb2 Hcf).
      destruct (found_less_than_k s) eqn:Ef; cbn [negb].
      * apply scanned_keep; [done|]. intros _. destruct (victim s) as [v|] eqn:Ev; [|by destruct Hnone].
        exists v. split; [done|]. destruct (Hvic v eq_refl) as [V1 _]. symmetry in V1. apply bool_decide_eq_true in V1.
        left. pose proof (class_cases r v). lia.
      * assert (∀ v, victim s = Some v → class r v = 2 ∧ max_distance s = current_timestamp r - oldest r v) as Hv2.
        { intros v Hv. destruct (Hvic v Hv) as [V1 V2]. symmetry in V1. apply bool_decide_eq_false in V1.
          split; [lia|]. rw V2. repeat case_bool_decide; lia. }
        unfold sat_sub. destruct (max_distance s <? _) eqn:El.
        -- apply (scanned_new r seen f s); [|done|by rw Hcf|repeat case_bool_decide; lia]. intros v Hv. right.
           destruct (Hv2 v Hv). lia.
        -- apply scanned_keep; [done|]. intros _. destruct (victim s) as [v|] eqn:Ev; [|destruct Hnone; [done|lia]].
           exists v. split; [done|]. destruct (Hv2 v eq_refl). right. lia.
  - apply (scanned_new r seen f s); [|done|by rw Hcf|by rw Hcf]. intros v Hv. unfold goes_before.
    pose proof (class_cases r v). lia.
Qed.

Lemma fold_scanned r l seen s :
  ok r → scanned r seen s → scanned r (seen ++ l) (foldl (visit r) s l).
Proof.
  intros Hok. revert seen s. induction l as [|fe l IH]; intros seen s Hs; cbn [foldl]; [by rw app_nil_r|].
  specialize (IH (seen ++ [fe]) _ (visit_scanned r seen s fe Hok Hs)). by rw -app_assoc in IH.
Qed.

(** The states a replacer can be in. *)
Inductive reachable (kk : Z) : LruKReplacer → Prop :=
  | reach_new m : reachable kk (new m kk)
  | reach_access f r : reachable kk r → reachable kk (record_access f r)
  | reach_set f e r : reachable kk r → reachable kk (set_evictable f e r)
  | reach_remove f r : reachable kk r → reachable kk (remove f r)
  | reach_evict r : reachable kk r → reachable kk (evict r).1.

Lemma lru_reachable_ok kk r : 2 ≤ kk → reachable kk r → ok r.
Proof.
  intros Hk. induction 1 as [m|f r _ IH|f e r _ IH|f r _ IH|r _ IH].
  - split; [done|done|]. intros f l Hl. by rw lookup_empty in Hl.
  - by apply record_access_ok.
  - destruct IH as [H1 H2 H3]. by split.
  - by apply remove_ok.
  - unfold evict. destruct (victim _); [by apply remove_ok|done].
Qed.

(** with [k] at least 2, [evict] chooses an evictable frame whenever there is
    one, and the frame it chooses goes before every other evictable one: frames
    without recorded accesses first, then those with fewer than [k] accesses in
    the order of their first, then the one whose [k]-th last access is the
    oldest; the order in which the hash table is walked does not matter. The
    victim is forgotten, and no other frame is. *)
Theorem evict_lru_k kk r :
  2 ≤ kk → reachable kk r →
  match evict r with
  | (r', None) => r' = r ∧ ∀ f, evictable r !! f ≠ Some true
  | (r', Some v) =>
      evictable r !! v = Some true ∧ (∀ f, evictable r !! f = Some true → goes_before r v f) ∧
      evictable r' !! v = None ∧ access_history r' !! v = None ∧
      (∀ f, f ≠ v → evictable r' !! f = evictable r !! f ∧ access_history r' !! f = access_history r !! f)
  end.
Proof.
  intros Hk Hr. pose proof (lru_reachable_ok kk r Hk Hr) as Hok. unfold evict.
  pose proof (fold_scanned r (hash_iter (evictable r)) [] (mkScan None 0 false) Hok) as Hs.
  cbn [app] in Hs. specialize (Hs ltac:(by repeat split; intros f ?%not_elem_of_nil)). unfold scanned in Hs.
  destruct (victim _) as [v|].
  - destruct Hs as (H1 & H2 & _). apply elem_of_hash_iter in H1. split_and!; [done| | | |].
    + intros f Hf. apply H2. by apply elem_of_hash_iter.
    + apply lookup_delete_eq.
    + apply lookup_delete_eq.
    + intros f Hf. cbn. split; apply lookup_delete_ne; congruence.
  - destruct Hs as (_ & _ & Hs). split; [done|]. intros f Hf. apply (Hs f). by apply elem_of_hash_iter.
Qed.
End order.

(** Frame 1 was accessed before frame 2, both twice. *)
Definition two_frames : LruKReplacer :=
  set_evictable 2 true (set_evictable 1 true
    (record_access 2 (record_access 1 (record_access 2 (record_access 1 (new 8 2)))))).

Lemma evict_lru_k_witness : (evict two_frames).2 = Some 1 ∧ goes_before two_frames 1 2.
Proof.
  assert (reachable 2 two_frames) as Hr by (unfold two_frames; repeat constructor).
  pose proof (evict_lru_k 2 two_frames ltac:(lia) Hr) as Ht.
  assert ((evict two_frames).2 = Some 1) as E by (vm_compute; reflexivity). split; [exact E|].
  destruct (evict two_frames) as [r' o]. cbn in E. rewrite E in Ht. apply (proj1 (proj2 Ht)). vm_compute. reflexivity.
Defined.

End Replacer.
