(* ===== verification/Sql.v ===== *)
(** The vocabulary of the SQL front end: characters and strings, the tokens of
    [bytedb-query/src/parser/token.rs] with their keywords, and the syntax trees of
    [bytedb-query/src/parser/ast.rs] with [expr_to_sql], the printer of expressions.

    A [String] is the list of its code points. What the standard library's
    tables say of characters outside ASCII, and the text of floating-point
    numbers, are parameters. *)
From S2P Require Import Prelude ByteOrder Value Civil Transaction.
Import Value.

Module Sql.

(** ** Characters *)

Definition str : Type := list Z.

(** An ASCII literal of the source. *)
Definition chars (s : string) : str := (λ a, Z.of_nat (Ascii.nat_of_ascii a)) <$> String.list_ascii_of_string s.

(** The Unicode tables, asked only about code points from 128 on, and the lower
    case of a text that has some, where a sigma depends on what is around it. *)
Class Unicode := {
  u_alphabetic : Z → bool;
  u_numeric : Z → bool;
  u_whitespace : Z → bool;
  u_upper : Z → str;
  u_lower : Z → str;
  u_str_lower : str → str;
}.

(** [f64]: parsing, [{:?}] and [{}] of a bit pattern. *)
Class FloatText := {
  parse_f64 : str → option Z;
  debug_f64 : Z → str;
  display_f64 : Z → str;
}.

Definition between (a c b : Z) : bool := (a <=? c) && (c <=? b).

Definition is_ascii_digit (c : Z) : bool := between 48 c 57.
Definition is_ascii_alpha (c : Z) : bool := between 65 c 90 || between 97 c 122.
Definition is_ascii_hexdigit (c : Z) : bool := is_ascii_digit c || between 65 c 70 || between 97 c 102.
Definition to_ascii_lowercase (c : Z) : Z := if between 65 c 90 then c + 32 else c.
Definition to_ascii_uppercase (c : Z) : Z := if between 97 c 122 then c - 32 else c.
Definition eq_ignore_ascii_case (a b : str) : bool :=
  bool_decide ((to_ascii_lowercase <$> a) = (to_ascii_lowercase <$> b)).

Section unicode.
Context `{Unicode}.
Definition is_alphabetic (c : Z) : bool := if c <? 128 then is_ascii_alpha c else u_alphabetic c.
Definition is_alphanumeric (c : Z) : bool :=
  if c <? 128 then is_ascii_alpha c || is_ascii_digit c else u_alphabetic c || u_numeric c.
Definition is_whitespace (c : Z) : bool := if c <? 128 then between 9 c 13 || (c =? 32) else u_whitespace c.
Definition char_upper (c : Z) : str := if c <? 128 then [to_ascii_uppercase c] else u_upper c.
Definition char_lower (c : Z) : str := if c <? 128 then [to_ascii_lowercase c] else u_lower c.
Definition to_uppercase (s : str) : str := s ≫= char_upper.
Definition to_lowercase (s : str) : str :=
  if forallb (λ c, c <? 128) s then to_ascii_lowercase <$> s else u_str_lower s.
End unicode.

(** ** Tokens *)

Inductive Token : Type :=
  | TkSelect | TkDistinct | TkFrom | TkWhere | TkInsert | TkInto | TkValues | TkUpdate | TkSet
  | TkDelete | TkCreate | TkDrop | TkAlter | TkAdd | TkRename | TkColumn | TkUnion | TkAll
  | TkTable | TkIndex | TkOn | TkPrimary | TkKey | TkNot | TkNull | TkUnique | TkIf | TkExists
  | TkAnd | TkOr | TkOrder | TkBy | TkAsc | TkDesc | TkLimit | TkOffset | TkJoin | TkInner
  | TkLeft | TkRight | TkGroup | TkHaving | TkAs | TkIn | TkLike | TkBetween | TkIs | TkBegin
  | TkCommit | TkRollback | TkSerializable | TkCase | TkWhen | TkThen | TkElse | TkEnd | TkCast
  | TkReturning | TkConflict | TkDo | TkNothing | TkIlike | TkWith | TkRecursive | TkOver
  | TkPartition | TkRows | TkRange | TkUnbounded | TkPreceding | TkFollowing | TkCurrent | TkRow
  | TkExplain | TkAnalyze | TkNulls | TkFirst | TkLast | TkIntersect | TkExcept | TkShow
  | TkColumns | TkTables | TkTruncate | TkDefault | TkDatabase | TkUse | TkCascade | TkRestrict
  | TkBackup | TkRestore | TkMigrate | TkTo | TkLsn | TkKv | TkGet | TkScan | TkDoc | TkFind
  | TkInt | TkFloat | TkText | TkBool | TkBytes | TkJson | TkTimestamp | TkVarchar | TkInteger
  | TkBigint | TkSmallint | TkReal | TkDoublePrecision | TkNumeric | TkSerial | TkUuid | TkDate
  | TkInterval | TkBlob | TkHexBlob (bytes : list Z) | TkIntLit (n : Z) | TkFloatLit (bits : Z)
  | TkStringLit (s : str) | TkBoolLit (b : bool) | TkNullLit | TkIdent (s : str) | TkEq | TkNeq
  | TkLt | TkGt | TkLte | TkGte | TkPlus | TkMinus | TkStar | TkSlash | TkPercent | TkDoubleColon
  | TkLParen | TkRParen | TkLBrace | TkRBrace | TkLBracket | TkRBracket | TkComma | TkSemicolon
  | TkDot | TkDollarDot | TkColon | TkEof.

(** [std::mem::discriminant]. *)
Definition discriminant (t : Token) : Z :=
  match t with
  | TkSelect => 0 | TkDistinct => 1 | TkFrom => 2 | TkWhere => 3 | TkInsert => 4 | TkInto => 5
  | TkValues => 6 | TkUpdate => 7 | TkSet => 8 | TkDelete => 9 | TkCreate => 10 | TkDrop => 11
  | TkAlter => 12 | TkAdd => 13 | TkRename => 14 | TkColumn => 15 | TkUnion => 16 | TkAll => 17
  | TkTable => 18 | TkIndex => 19 | TkOn => 20 | TkPrimary => 21 | TkKey => 22 | TkNot => 23
  | TkNull => 24 | TkUnique => 25 | TkIf => 26 | TkExists => 27 | TkAnd => 28 | TkOr => 29
  | TkOrder => 30 | TkBy => 31 | TkAsc => 32 | TkDesc => 33 | TkLimit => 34 | TkOffset => 35
  | TkJoin => 36 | TkInner => 37 | TkLeft => 38 | TkRight => 39 | TkGroup => 40 | TkHaving => 41
  | TkAs => 42 | TkIn => 43 | TkLike => 44 | TkBetween => 45 | TkIs => 46 | TkBegin => 47
  | TkCommit => 48 | TkRollback => 49 | TkSerializable => 50 | TkCase => 51 | TkWhen => 52
  | TkThen => 53 | TkElse => 54 | TkEnd => 55 | TkCast => 56 | TkReturning => 57
  | TkConflict => 58 | TkDo => 59 | TkNothing => 60 | TkIlike => 61 | TkWith => 62
  | TkRecursive => 63 | TkOver => 64 | TkPartition => 65 | TkRows => 66 | TkRange => 67
  | TkUnbounded => 68 | TkPreceding => 69 | TkFollowing => 70 | TkCurrent => 71 | TkRow => 72
  | TkExplain => 73 | TkAnalyze => 74 | TkNulls => 75 | TkFirst => 76 | TkLast => 77
  | TkIntersect => 78 | TkExcept => 79 | TkShow => 80 | TkColumns => 81 | TkTables => 82
  | TkTruncate => 83 | TkDefault => 84 | TkDatabase => 85 | TkUse => 86 | TkCascade => 87
  | TkRestrict => 88 | TkBackup => 89 | TkRestore => 90 | TkMigrate => 91 | TkTo => 92
  | TkLsn => 93 | TkKv => 94 | TkGet => 95 | TkScan => 96 | TkDoc => 97 | TkFind => 98
  | TkInt => 99 | TkFloat => 100 | TkText => 101 | TkBool => 102 | TkBytes => 103 | TkJson => 104
  | TkTimestamp => 105 | TkVarchar => 106 | TkInteger => 107 | TkBigint => 108
  | TkSmallint => 109 | TkReal => 110 | TkDoublePrecision => 111 | TkNumeric => 112
  | TkSerial => 113 | TkUuid => 114 | TkDate => 115 | TkInterval => 116 | TkBlob => 117
  | TkHexBlob _ => 118 | TkIntLit _ => 119 | TkFloatLit _ => 120 | TkStringLit _ => 121
  | TkBoolLit _ => 122 | TkNullLit => 123 | TkIdent _ => 124 | TkEq => 125 | TkNeq => 126
  | TkLt => 127 | TkGt => 128 | TkLte => 129 | TkGte => 130 | TkPlus => 131 | TkMinus => 132
  | TkStar => 133 | TkSlash => 134 | TkPercent => 135 | TkDoubleColon => 136 | TkLParen => 137
  | TkRParen => 138 | TkLBrace => 139 | TkRBrace => 140 | TkLBracket => 141 | TkRBracket => 142
  | TkComma => 143 | TkSemicolon => 144 | TkDot => 145 | TkDollarDot => 146 | TkColon => 147
  | TkEof => 148
  end.

(** The table of [Token::is_keyword]. *)
Definition keywords : list (string * Token) :=
  [
   ("SELECT", TkSelect); ("DISTINCT", TkDistinct); ("FROM", TkFrom); ("WHERE", TkWhere);
   ("INSERT", TkInsert); ("INTO", TkInto); ("VALUES", TkValues); ("UPDATE", TkUpdate);
   ("SET", TkSet); ("DELETE", TkDelete); ("CREATE", TkCreate); ("DROP", TkDrop);
   ("ALTER", TkAlter); ("ADD", TkAdd); ("RENAME", TkRename); ("COLUMN", TkColumn);
   ("UNION", TkUnion); ("ALL", TkAll); ("TABLE", TkTable); ("INDEX", TkIndex); ("ON", TkOn);
   ("PRIMARY", TkPrimary); ("KEY", TkKey); ("NOT", TkNot); ("NULL", TkNullLit);
   ("UNIQUE", TkUnique); ("IF", TkIf); ("EXISTS", TkExists); ("AND", TkAnd); ("OR", TkOr);
   ("ORDER", TkOrder); ("BY", TkBy); ("ASC", TkAsc); ("DESC", TkDesc); ("LIMIT", TkLimit);
   ("OFFSET", TkOffset); ("JOIN", TkJoin); ("INNER", TkInner); ("LEFT", TkLeft);
   ("RIGHT", TkRight); ("GROUP", TkGroup); ("HAVING", TkHaving); ("AS", TkAs); ("IN", TkIn);
   ("LIKE", TkLike); ("BETWEEN", TkBetween); ("IS", TkIs); ("BEGIN", TkBegin);
   ("COMMIT", TkCommit); ("ROLLBACK", TkRollback); ("SERIALIZABLE", TkSerializable);
   ("CASE", TkCase); ("WHEN", TkWhen); ("THEN", TkThen); ("ELSE", TkElse); ("END", TkEnd);
   ("CAST", TkCast); ("RETURNING", TkReturning); ("CONFLICT", TkConflict); ("DO", TkDo);
   ("NOTHING", TkNothing); ("ILIKE", TkIlike); ("WITH", TkWith); ("RECURSIVE", TkRecursive);
   ("OVER", TkOver); ("PARTITION", TkPartition); ("ROWS", TkRows); ("RANGE", TkRange);
   ("UNBOUNDED", TkUnbounded); ("PRECEDING", TkPreceding); ("FOLLOWING", TkFollowing);
   ("CURRENT", TkCurrent); ("ROW", TkRow); ("EXPLAIN", TkExplain); ("ANALYZE", TkAnalyze);
   ("NULLS", TkNulls); ("FIRST", TkFirst); ("LAST", TkLast); ("INTERSECT", TkIntersect);
   ("EXCEPT", TkExcept); ("SHOW", TkShow); ("COLUMNS", TkColumns); ("TABLES", TkTables);
   ("TRUNCATE", TkTruncate); ("DEFAULT", TkDefault); ("DATABASE", TkDatabase);
   ("SCHEMA", TkDatabase); ("USE", TkUse); ("CASCADE", TkCascade); ("RESTRICT", TkRestrict);
   ("BACKUP", TkBackup); ("RESTORE", TkRestore); ("MIGRATE", TkMigrate); ("TO", TkTo);
   ("LSN", TkLsn); ("KV", TkKv); ("GET", TkGet); ("SCAN", TkScan); ("DOC", TkDoc);
   ("FIND", TkFind); ("INT", TkInt); ("FLOAT", TkFloat); ("TEXT", TkText); ("BOOL", TkBool);
   ("BYTES", TkBytes); ("JSON", TkJson); ("TIMESTAMP", TkTimestamp); ("VARCHAR", TkVarchar);
   ("INTEGER", TkInteger); ("BIGINT", TkBigint); ("SMALLINT", TkSmallint); ("REAL", TkReal);
   ("DOUBLE", TkDoublePrecision); ("NUMERIC", TkNumeric); ("DECIMAL", TkNumeric);
   ("SERIAL", TkSerial); ("UUID", TkUuid); ("DATE", TkDate); ("INTERVAL", TkInterval);
   ("BLOB", TkBlob); ("TRUE", TkBoolLit true); ("FALSE", TkBoolLit false)].

Definition is_keyword `{Unicode} (s : str) : option Token :=
  snd <$> (snd <$> list_find (λ kt : string * Token, chars kt.1 = to_uppercase s) keywords).

(** [QueryError::Parse] with its message: a text, or a text and what [format!]
    puts behind it. *)
Inductive ParseError :=
  | Msg (msg : string)
  | MsgChar (msg : string) (c : Z)
  | MsgText (msg : string) (s : str)
  | MsgToken (msg : string) (t : Token)
  | MsgExpected (expected got : Token).

(** [Result<A>] of the front end. *)
Inductive presult (A : Type) :=
  | POk (a : A)
  | PErr (e : ParseError).
Arguments POk {A} a.
Arguments PErr {A} e.

(** ** Syntax trees *)

Inductive LiteralValue :=
  | Integer (n : Z)
  | Float (bits : Z)
  | LString (s : str)
  | LBool (b : bool)
  | LNull
  | LHexBlob (bytes : list Z).

Inductive BinOp :=
  | OpEq | OpNeq | OpLt | OpGt | OpLte | OpGte | OpAnd | OpOr | OpPlus | OpMinus | OpMul | OpDiv | OpMod
  | OpLike | OpIlike.

Inductive UnaryOp := OpNot | OpNeg.

Inductive JoinType := JInner | JLeft | JRight.

Inductive Expr : Type :=
  | Literal (v : LiteralValue)
  | Column (name : str)
  | QualifiedColumn (table column : str)
  | BinaryOp (left : Expr) (op : BinOp) (right : Expr)
  | Unary (op : UnaryOp) (expr : Expr)
  | Function (name : str) (args : list Expr)
  | JsonPath (path : str)
  | IsNull (expr : Expr)
  | IsNotNull (expr : Expr)
  | InList (expr : Expr) (items : list Expr)
  | Between (expr low high : Expr)
  | Case (operand : option Expr) (when_clauses : list (Expr * Expr)) (else_result : option Expr)
  | Cast (expr : Expr) (data_type : DataType)
  | Subquery (query : SelectStmt)
  | InSubquery (expr : Expr) (subquery : SelectStmt)
  | ExistsQuery (query : SelectStmt)
  | WindowFunction (name : str) (args partition_by : list Expr) (order_by : list OrderByExpr)
  | DefaultExpr
  | IntervalLit (s : str)
with SelectStmt : Type :=
  | mkSelect (columns : list SelectColumn) (distinct : bool) (from : FromClause) (from_alias : option str)
      (joins : list JoinClause) (where_clause : option Expr) (group_by : list Expr) (having : option Expr)
      (order_by : list OrderByExpr) (limit offset : option Z) (ctes : list Cte)
with FromClause : Type :=
  | FromTable (name : str)
  | FromSubquery (query : SelectStmt)
  | FromNone
with SelectColumn : Type :=
  | SelectStar
  | SelectExpr (expr : Expr) (alias : option str)
with JoinClause : Type :=
  | mkJoin (join_type : JoinType) (table : str) (alias : option str) (condition : Expr)
with OrderByExpr : Type :=
  | mkOrderBy (expr : Expr) (ascending : bool) (nulls_first : option bool)
with Cte : Type :=
  | mkCte (name : str) (query : SelectStmt).

Inductive FkAction := FkRestrict | FkCascade | FkSetNull.

Record ForeignKeyDef := mkForeignKey {
  fk_columns : list str;
  ref_table : str;
  ref_columns : list str;
  fk_on_delete : FkAction;
  fk_on_update : FkAction;
}.

Record ColumnDef := mkColumnDef {
  col_name : str;
  col_data_type : DataType;
  max_length : option Z;
  nullable : bool;
  primary_key : bool;
  col_unique : bool;
  auto_increment : bool;
  default_value : option Expr;
  check : option Expr;
  references : option (str * str);
  col_on_delete : FkAction;
  col_on_update : FkAction;
}.

Record CreateTableStmt := mkCreateTable {
  ct_name : str;
  ct_columns : list ColumnDef;
  ct_if_not_exists : bool;
  check_constraints : list Expr;
  foreign_keys : list ForeignKeyDef;
}.

Record CreateIndexStmt := mkCreateIndex {
  ci_name : str;
  ci_table : str;
  ci_columns : list str;
  ci_unique : bool;
}.

Inductive AlterTableAction :=
  | AddColumn (c : ColumnDef)
  | DropColumn (name : str)
  | RenameColumn (old_name new_name : str).

Inductive InsertSource :=
  | InsertValues (rows : list (list Expr))
  | InsertSelect (query : SelectStmt).

Inductive ConflictAction := DoNothing | DoUpdate (assignments : list (str * Expr)).

Record OnConflict := mkOnConflict { oc_columns : list str; oc_action : ConflictAction }.

Record InsertStmt := mkInsert {
  ins_table : str;
  ins_columns : option (list str);
  ins_source : InsertSource;
  on_conflict : option OnConflict;
  ins_returning : option (list SelectColumn);
}.

Record UpdateStmt := mkUpdate {
  upd_table : str;
  assignments : list (str * Expr);
  upd_where : option Expr;
  upd_returning : option (list SelectColumn);
}.

Record DeleteStmt := mkDelete {
  del_table : str;
  del_where : option Expr;
  del_returning : option (list SelectColumn);
}.

Inductive Statement :=
  | CreateTable (s : CreateTableStmt)
  | DropTable (name : str) (if_exists : bool)
  | CreateIndex (s : CreateIndexStmt)
  | DropIndex (name : str)
  | AlterTable (table : str) (action : AlterTableAction)
  | Union (left right : Statement) (all : bool)
  | Intersect (left right : Statement) (all : bool)
  | Except (left right : Statement) (all : bool)
  | Select (s : SelectStmt)
  | Insert (s : InsertStmt)
  | Update (s : UpdateStmt)
  | Delete (s : DeleteStmt)
  | KvGet (key : str)
  | KvSet (key value : str)
  | KvDelete (key : str)
  | KvScan (start stop : str)
  | DocInsert (collection document : str)
  | DocFind (collection : str) (filter : option Expr)
  | DocUpdate (collection : str) (filter : option Expr) (updates : list (str * Expr))
  | DocDelete (collection : str) (filter : option Expr)
  | Begin (level : option Transaction.IsolationLevel)
  | Commit
  | Rollback
  | ShowTables
  | ShowColumns (table : str)
  | ShowCreateTable (table : str)
  | Describe (table : str)
  | Explain (s : Statement) (analyze : bool)
  | Truncate (table : str)
  | CreateDatabase (name : str) (if_not_exists : bool)
  | DropDatabase (name : str) (if_exists : bool)
  | UseDatabase (name : str)
  | ShowDatabases
  | Analyze (table : option str)
  | ShowStats (table : option str)
  | Backup (path : str)
  | RestoreFrom (path : str) (to_lsn : option Z)
  | Migrate.

(** ** Printing *)

Definition binop_sql (op : BinOp) : str :=
  chars match op with
        | OpEq => "=" | OpNeq => "<>" | OpLt => "<" | OpGt => ">" | OpLte => "<=" | OpGte => ">="
        | OpAnd => "AND" | OpOr => "OR" | OpPlus => "+" | OpMinus => "-" | OpMul => "*" | OpDiv => "/"
        | OpMod => "%" | OpLike => "LIKE" | OpIlike => "ILIKE"
        end.

Definition quote_string (s : str) : str := [39] ++ (s ≫= λ c, if c =? 39 then [39; 39] else [c]) ++ [39].

(** [to_string] of an [i64]. *)
Definition show_int (n : Z) : str := if n <? 0 then 45 :: Civil.show_nat (- n) else Civil.show_nat n.

(** [{:02X}] of a byte. *)
Definition hex_digit (d : Z) : Z := if d <? 10 then 48 + d else 55 + d.
Definition show_hex (b : Z) : str := [hex_digit (b / 16); hex_digit (b mod 16)].

Section print.
Context `{FloatText}.

Definition write_literal (v : LiteralValue) : str :=
  match v with
  | Integer n => show_int n
  | Float f => debug_f64 f
  | LString s => quote_string s
  | LBool b => chars (if b then "TRUE" else "FALSE")
  | LNull => chars "NULL"
  | LHexBlob bytes => chars "X'" ++ (bytes ≫= show_hex) ++ [39]
  end.

(** The list of the arguments, after each has been written. *)
Definition comma_separated (l : list str) : str :=
  match l with [] => [] | s :: l' => s ++ (l' ≫= λ x, chars ", " ++ x) end.

Fixpoint write_expr (e : Expr) : str :=
  match e with
  | Literal v => write_literal v
  | Column name => name
  | QualifiedColumn t c => t ++ chars "." ++ c
  | BinaryOp l op r => chars "(" ++ write_expr l ++ chars " " ++ binop_sql op ++ chars " " ++ write_expr r ++ chars ")"
  | Unary OpNot e => chars "(NOT " ++ write_expr e ++ chars ")"
  | Unary OpNeg e => chars "(-" ++ write_expr e ++ chars ")"
  | Function name args => name ++ chars "(" ++ comma_separated (map write_expr args) ++ chars ")"
  | IsNull e => chars "(" ++ write_expr e ++ chars " IS NULL)"
  | IsNotNull e => chars "(" ++ write_expr e ++ chars " IS NOT NULL)"
  | InList e l => chars "(" ++ write_expr e ++ chars " IN (" ++ comma_separated (map write_expr l) ++ chars "))"
  | Between e lo hi =>
      chars "(" ++ write_expr e ++ chars " BETWEEN " ++ write_expr lo ++ chars " AND " ++ write_expr hi ++ chars ")"
  | Case operand whens els =>
      chars "CASE" ++ match operand with Some o => chars " " ++ write_expr o | None => [] end ++
      concat (map (λ wt, chars " WHEN " ++ write_expr wt.1 ++ chars " THEN " ++ write_expr wt.2) whens) ++
      match els with Some e => chars " ELSE " ++ write_expr e | None => [] end ++ chars " END"
  | Cast e dt => chars "CAST(" ++ write_expr e ++ chars " AS " ++ chars (DataType_to_string dt) ++ chars ")"
  | IntervalLit s => chars "INTERVAL " ++ quote_string s
  | JsonPath path => path
  | Subquery _ | InSubquery _ _ | ExistsQuery _ | WindowFunction _ _ _ _ | DefaultExpr => chars "NULL"
  end.

Definition expr_to_sql (e : Expr) : str := write_expr e.
End print.

End Sql.
