(* ===== verification/TableFiles.v ===== *)
(** The files of a table ([bytedb-core/src/dbstore/tablelog.rs] and
    [tablefile.rs], and the calls of [bytedb-query/src/executor/diskstore.rs]): a
    base file that is replaced as a whole and a log of changes that is appended to
    and folded over the base when the table is loaded.

    A directory maps file names to contents; a rename is atomic. The checksum is a
    parameter. *)
From S2P Require Import Prelude DiskManager Sql.
Import DiskManager.
Import Sql (chars).

Module TableFiles.

(** ** Names *)

(** [sanitize]: characters that may be in a file name stay, the others become an
    underscore. *)
Definition file_char (c : Z) : bool :=
  ((97 <=? c) && (c <=? 122)) || ((65 <=? c) && (c <=? 90)) || ((48 <=? c) && (c <=? 57)) || (c =? 95) || (c =? 45) || (c =? 46).
Definition sanitize (name : list Z) : list Z := (λ c, if file_char c then c else 95) <$> name.

Definition log_path (table : list Z) : list Z := chars "tables/" ++ sanitize table ++ chars ".log".
Definition tbl_path (table : list Z) : list Z := chars "tables/" ++ sanitize table ++ chars ".tbl".
(** [path.with_extension] replaces what is behind the last point; a name that only
    starts with a point has no extension. *)
Definition tmp_path (table : list Z) : list Z :=
  chars "tables/" ++ (if bool_decide (table = []) then chars ".tbl" else sanitize table) ++ chars ".tbl.tmp".

Definition Dir : Type := gmap (list Z) (list Z).

(** ** Reading *)

Definition take_bytes (n : Z) (rest : list Z) : option (list Z * list Z) :=
  if n <=? zlen rest then Some (take (Z.to_nat n) rest, drop (Z.to_nat n) rest) else None.

Definition read_le (n : Z) (rest : list Z) : option (Z * list Z) :=
  '(bs, rest) ← take_bytes n rest; Some (le_val bs, rest).

(** A length of four bytes and that many bytes. *)
Definition read_prefixed (rest : list Z) : option (list Z * list Z) :=
  '(n, rest) ← read_le 4 rest; take_bytes n rest.

Definition prefixed (bs : list Z) : list Z := le_bytes 4 (wrap 32 (zlen bs)) ++ bs.

(** ** The log of changes *)

Definition LOG_MAGIC : list Z := chars "BTLG".
Definition LOG_VERSION : Z := 1.
Definition OP_PUT : Z := 0.
Definition OP_DEL : Z := 1.

Record LogDelta : Type := mkDelta { op : Z; key : list Z; value : list Z }.

Section files.
Context `{Crc32} `{HashOrder}.

Definition log_header : list Z := LOG_MAGIC ++ le_bytes 4 LOG_VERSION.

Definition body_of (d : LogDelta) : list Z := op d :: prefixed (key d) ++ prefixed (value d).

(** The length, the checksum and the body of a record. *)
Definition record_of (d : LogDelta) : list Z :=
  let body := body_of d in le_bytes 4 (wrap 32 (zlen body)) ++ le_bytes 4 (crc32 body) ++ body.

(** The bytes [append] writes: a header if the file is new or empty. *)
Definition log_bytes (old : option (list Z)) (deltas : list LogDelta) : list Z :=
  (if bool_decide (default [] old = []) then log_header else []) ++ (deltas ≫= record_of).

Definition log_append (dir : Dir) (table : list Z) (deltas : list LogDelta) : Dir :=
  match deltas with
  | [] => dir
  | _ => let old := dir !! log_path table in <[log_path table := default [] old ++ log_bytes old deltas]> dir
  end.

Definition decode_body (body : list Z) : option LogDelta :=
  match body with
  | [] => None
  | op :: rest =>
      '(key, rest) ← read_prefixed rest;
      '(value, _) ← read_prefixed rest;
      Some (mkDelta op key value)
  end.

(** One record: [None] where the loop stops. *)
Definition read_record (rest : list Z) : option (LogDelta * list Z) :=
  if zlen rest <? 8 then None
  else
    '(len, rest) ← read_le 4 rest;
    '(crc, rest) ← read_le 4 rest;
    '(body, rest) ← take_bytes len rest;
    if negb (crc32 body =? crc) then None
    else d ← decode_body body; Some (d, rest).

Fixpoint read_records (fuel : nat) (rest : list Z) : list LogDelta :=
  match fuel with
  | O => []
  | S fuel' => match read_record rest with Some (d, rest') => d :: read_records fuel' rest' | None => [] end
  end.

Definition log_load (dir : Dir) (table : list Z) : result (list LogDelta) :=
  match dir !! log_path table with
  | None => Ok []
  | Some all =>
      if zlen all <? 8 then Ok []
      else if negb (bool_decide (take 4 all = LOG_MAGIC)) then Err (Internal "bad magic")
      else if negb (le_val (slice all 4 4) =? LOG_VERSION) then Err (Internal "unsupported version")
      else Ok (read_records (length all) (drop 8 all))
  end.

Definition log_truncate (dir : Dir) (table : list Z) : Dir := delete (log_path table) dir.
Definition log_size (dir : Dir) (table : list Z) : Z := from_option zlen 0 (dir !! log_path table).

(** [fold]: the changes applied to the rows; without changes the rows stay as they
    are, otherwise they come in the order of a hash table. *)
Definition apply_delta (m : gmap (list Z) (list Z)) (d : LogDelta) : gmap (list Z) (list Z) :=
  if op d =? OP_DEL then delete (key d) m else <[key d := value d]> m.

Definition of_entries (base : list (list Z * list Z)) : gmap (list Z) (list Z) := foldl (λ m kv, <[kv.1 := kv.2]> m) ∅ base.

Definition fold (base : list (list Z * list Z)) (deltas : list LogDelta) : list (list Z * list Z) :=
  match deltas with
  | [] => base
  | _ => hash_iter (foldl apply_delta (of_entries base) deltas)
  end.

(** ** The base file *)

Definition TABLE_MAGIC : list Z := chars "BTBL".
Definition TABLE_VERSION : Z := 2.
Definition TABLE_VERSION_LEGACY : Z := 1.

Definition entry_bytes (kv : list Z * list Z) : list Z := prefixed kv.1 ++ prefixed kv.2.
Definition payload_of (entries : list (list Z * list Z)) : list Z := le_bytes 8 (wrap 64 (zlen entries)) ++ (entries ≫= entry_bytes).

Definition table_bytes (entries : list (list Z * list Z)) : list Z :=
  let payload := payload_of entries in TABLE_MAGIC ++ le_bytes 4 TABLE_VERSION ++ payload ++ le_bytes 4 (crc32 payload).

Fixpoint read_entries (n : nat) (rest : list Z) : option (list (list Z * list Z)) :=
  match n with
  | O => Some []
  | S n' =>
      '(k, rest) ← read_prefixed rest;
      '(v, rest) ← read_prefixed rest;
      l ← read_entries n' rest;
      Some ((k, v) :: l)
  end.

Definition truncated : CoreError := Internal "truncated".

(** The entries of a payload. [Vec::with_capacity] panics on a number of entries
    whose size is no [isize]. *)
Definition load_payload (payload : list Z) : option (result (list (list Z * list Z))) :=
  match read_le 8 payload with
  | None => Some (Err truncated)
  | Some (count, rest) =>
      if 48 * count <? 2 ^ 63 then
        Some (match read_entries (Z.to_nat count) rest with Some l => Ok l | None => Err truncated end)
      else None
  end.

(** The trailer of the current version is checked; the old version has none. *)
Definition check_payload (version : Z) (payload : list Z) : result (list Z) :=
  if version =? TABLE_VERSION then
    if zlen payload <? 4 then Err (Internal "truncated trailer")
    else
      let pos := Z.to_nat (zlen payload - 4) in
      if le_val (drop pos payload) =? crc32 (take pos payload) then Ok (take pos payload)
      else Err (Internal "checksum mismatch (corruption)")
  else Ok payload.

Definition table_load (dir : Dir) (table : list Z) : option (result (list (list Z * list Z))) :=
  match dir !! tbl_path table with
  | None => Some (Ok [])
  | Some all =>
      match take_bytes 4 all with
      | None => Some (Err Io)
      | Some (magic, rest) =>
          if negb (bool_decide (magic = TABLE_MAGIC)) then Some (Err (Internal "bad magic"))
          else
            match read_le 4 rest with
            | None => Some (Err Io)
            | Some (version, payload) =>
                if negb ((version =? TABLE_VERSION) || (version =? TABLE_VERSION_LEGACY)) then Some (Err (Internal "unsupported version"))
                else match check_payload version payload with Err e => Some (Err e) | Ok payload => load_payload payload end
            end
      end
  end.

(** The file is written under another name, which is then given to it. *)
Definition table_save (dir : Dir) (table : list Z) (entries : list (list Z * list Z)) : Dir :=
  <[tbl_path table := table_bytes entries]> (delete (tmp_path table) dir).

Definition table_delete (dir : Dir) (table : list Z) : Dir := delete (tbl_path table) dir.

(** ** The store *)

Definition compact_table (dir : Dir) (table : list Z) (entries : list (list Z * list Z)) : Dir :=
  log_truncate (table_save dir table entries) table.

Definition drop_files (dir : Dir) (table : list Z) : Dir := log_truncate (table_delete dir table) table.

Definition load_table_data (dir : Dir) (table : list Z) : option (result (list (list Z * list Z))) :=
  base ← table_load dir table;
  Some match base with
       | Err e => Err e
       | Ok base => match log_load dir table with Err e => Err e | Ok deltas => Ok (fold base deltas) end
       end.
End files.
End TableFiles.
