(* ===== verification/Lexer.v ===== *)
(** The lexer ([bytedb-query/src/parser/lexer.rs]).

    The position in the input is the list of the characters not read yet. The
    two loops that are not structural, over comments and over tokens, count
    their iterations down from one more than the length of the input; [None] is
    running out of them, which [lexer_total] excludes. *)
From S2P Require Import Prelude Civil Sql.
Import Sql.

Module Lexer.

Section lexer.
Context `{Unicode} `{FloatText}.

Fixpoint skip_whitespace (input : str) : str :=
  match input with
  | c :: rest => if is_whitespace c then skip_whitespace rest else input
  | [] => []
  end.

Fixpoint skip_line_comment (input : str) : str :=
  match input with
  | c :: rest => if c =? 10 then input else skip_line_comment rest
  | [] => []
  end.

(** What an escape stands for. *)
Definition unescape (d : Z) : str :=
  if d =? 110 then [10] else if d =? 116 then [9] else if d =? 92 then [92] else [92; d].

(** [None] is the end of the input before the closing quote. *)
Fixpoint read_string (quote : Z) (input : str) : option (str * str) :=
  match input with
  | [] => None
  | c :: rest =>
      if c =? quote then Some ([], rest)
      else if c =? 92 then
        match rest with
        | [] => None
        | d :: rest' => '(s, r) ← read_string quote rest'; Some (unescape d ++ s, r)
        end
      else '(s, r) ← read_string quote rest; Some (c :: s, r)
  end.

Definition hex_char_to_nibble (c : Z) : Z :=
  if between 48 c 57 then c - 48
  else if between 97 c 102 then c - 97 + 10
  else if between 65 c 70 then c - 65 + 10
  else 0.

(** The byte of two digits; a missing second one is a zero. *)
Definition hex_byte (h l : Z) : Z :=
  Z.lor (wrap 8 (Z.shiftl (hex_char_to_nibble (to_ascii_lowercase h)) 4)) (hex_char_to_nibble (to_ascii_lowercase l)).

Fixpoint decode_hex (hex : str) : list Z :=
  match hex with
  | [] => []
  | h :: [] => [hex_byte h 48]
  | h :: l :: hex' => hex_byte h l :: decode_hex hex'
  end.

(** The digits up to the closing quote; blanks between them are skipped. *)
Fixpoint read_hex_digits (input : str) : presult (str * str) :=
  match input with
  | [] => PErr (Msg "Unterminated blob literal")
  | c :: rest =>
      if c =? 39 then POk ([], rest)
      else if is_ascii_hexdigit c then
        match read_hex_digits rest with POk (s, r) => POk (c :: s, r) | PErr e => PErr e end
      else if negb (is_whitespace c) then PErr (MsgChar "Invalid hex character in blob literal" c)
      else read_hex_digits rest
  end.

(** The character in front of the quote is skipped without being looked at. *)
Definition read_hex_blob (input : str) : presult (Token * str) :=
  match tail input with
  | q :: rest =>
      if q =? 39 then
        match read_hex_digits rest with
        | PErr e => PErr e
        | POk (hex, r) =>
            if negb (zlen hex mod 2 =? 0) then PErr (Msg "Blob literal must have even number of hex digits")
            else POk (TkHexBlob (decode_hex hex), r)
        end
      else PErr (Msg "Expected ''' after x")
  | [] => PErr (Msg "Expected ''' after x")
  end.

(** The characters the loop of [read_number] consumes, the rest, and [is_float]. *)
Fixpoint number_span (is_float : bool) (input : str) : str * str * bool :=
  match input with
  | [] => ([], [], is_float)
  | c :: rest =>
      if is_ascii_digit c then let '(s, r, f) := number_span is_float rest in (c :: s, r, f)
      else if c =? 46 then
        if is_float then ([], input, is_float)
        else let '(s, r, f) := number_span true rest in (c :: s, r, f)
      else ([], input, is_float)
  end.

Fixpoint digit_span (input : str) : str * str :=
  match input with
  | c :: rest => if is_ascii_digit c then let '(s, r) := digit_span rest in (c :: s, r) else ([], input)
  | [] => ([], [])
  end.

Definition starts_with_digit (input : str) : bool :=
  match input with c :: _ => is_ascii_digit c | [] => false end.

(** The exponent after the digits, when there is a complete one. *)
Definition exponent (input : str) : option (str * str) :=
  match input with
  | e :: rest =>
      if (e =? 101) || (e =? 69) then
        let '(sign, look) :=
          match rest with
          | s :: rest' => if (s =? 43) || (s =? 45) then ([s], rest') else ([], rest)
          | [] => ([], [])
          end in
        if starts_with_digit look
        then let '(ds, r) := digit_span look in Some (e :: sign ++ ds, r)
        else None
      else None
  | [] => None
  end.

(** [str::parse::<i64>] on digits. *)
Definition parse_i64 (s : str) : option Z :=
  n ← Civil.digits_val 0 s; if n <? 2 ^ 63 then Some n else None.

Definition peek_next (input : str) : option Z := head (tail input).

(** The end of [read_number]. *)
Definition number_token (num_str rest : str) (is_float : bool) : presult (Token * str) :=
  if is_float
  then match parse_f64 num_str with
       | Some v => POk (TkFloatLit v, rest)
       | None => PErr (MsgText "Invalid float: " num_str)
       end
  else match parse_i64 num_str with
       | Some v => POk (TkIntLit v, rest)
       | None => PErr (MsgText "Invalid integer: " num_str)
       end.

Definition read_number (input : str) : presult (Token * str) :=
  let '(num, rest, is_float) := number_span false input in
  if bool_decide (num = [48]) && bool_decide (peek_next rest = Some 39) then read_hex_blob rest
  else match exponent rest with
       | Some (e, r) => number_token (num ++ e) r true
       | None => number_token num rest is_float
       end.

Definition is_ident_char (c : Z) : bool := is_alphanumeric c || (c =? 95).

Fixpoint ident_span (input : str) : str * str :=
  match input with
  | c :: rest => if is_ident_char c then let '(s, r) := ident_span rest in (c :: s, r) else ([], input)
  | [] => ([], [])
  end.

Definition ident_token (ident : str) : Token :=
  match is_keyword ident with Some t => t | None => TkIdent ident end.

Definition read_ident (input : str) : presult (Token * str) :=
  let '(ident, rest) := ident_span input in POk (ident_token ident, rest).

(** The match on the first character of a token; [rest] follows it. *)
Definition lex_char (ch : Z) (rest : str) : presult (Token * str) :=
  let next := head rest in
  if ch =? 40 then POk (TkLParen, rest)
  else if ch =? 41 then POk (TkRParen, rest)
  else if ch =? 123 then POk (TkLBrace, rest)
  else if ch =? 125 then POk (TkRBrace, rest)
  else if ch =? 91 then POk (TkLBracket, rest)
  else if ch =? 93 then POk (TkRBracket, rest)
  else if ch =? 44 then POk (TkComma, rest)
  else if ch =? 59 then POk (TkSemicolon, rest)
  else if ch =? 58 then
    if bool_decide (next = Some 58) then POk (TkDoubleColon, tail rest) else POk (TkColon, rest)
  else if ch =? 43 then POk (TkPlus, rest)
  else if ch =? 45 then POk (TkMinus, rest)
  else if ch =? 42 then POk (TkStar, rest)
  else if ch =? 47 then POk (TkSlash, rest)
  else if ch =? 37 then POk (TkPercent, rest)
  else if ch =? 46 then POk (TkDot, rest)
  else if ch =? 36 then
    if bool_decide (next = Some 46) then POk (TkDollarDot, tail rest) else PErr (Msg "Expected '.' after '$'")
  else if ch =? 61 then POk (TkEq, if bool_decide (next = Some 61) then tail rest else rest)
  else if ch =? 33 then
    if bool_decide (next = Some 61) then POk (TkNeq, tail rest) else PErr (Msg "Expected '=' after '!'")
  else if ch =? 60 then
    if bool_decide (next = Some 61) then POk (TkLte, tail rest)
    else if bool_decide (next = Some 62) then POk (TkNeq, tail rest)
    else POk (TkLt, rest)
  else if ch =? 62 then
    if bool_decide (next = Some 61) then POk (TkGte, tail rest) else POk (TkGt, rest)
  else if (ch =? 34) || (ch =? 39) then
    match read_string ch rest with
    | Some (s, r) => POk (TkStringLit s, r)
    | None => PErr (Msg "Unterminated string")
    end
  else if is_ascii_digit ch then read_number (ch :: rest)
  else if is_alphabetic ch || (ch =? 95) then
    if ((ch =? 120) || (ch =? 88)) && bool_decide (next = Some 39) then read_hex_blob (ch :: rest)
    else read_ident (ch :: rest)
  else PErr (MsgChar "Unexpected character: " ch).

Fixpoint next_token (fuel : nat) (input : str) : option (presult (Token * str)) :=
  match fuel with
  | O => None
  | S fuel' =>
      match skip_whitespace input with
      | [] => Some (POk (TkEof, []))
      | ch :: rest =>
          if (ch =? 45) && bool_decide (head rest = Some 45) then next_token fuel' (skip_line_comment (ch :: rest))
          else Some (lex_char ch rest)
      end
  end.

Fixpoint tokenize_loop (fuel : nat) (input : str) : option (presult (list Token)) :=
  match fuel with
  | O => None
  | S fuel' =>
      r ← next_token (S (length input)) input;
      match r with
      | PErr e => Some (PErr e)
      | POk (tok, rest) =>
          if discriminant tok =? discriminant TkEof then Some (POk [tok])
          else
            r' ← tokenize_loop fuel' rest;
            Some match r' with POk toks => POk (tok :: toks) | PErr e => PErr e end
      end
  end.

Definition tokenize (input : str) : option (presult (list Token)) := tokenize_loop (S (length input)) input.
(** ** Every token takes at least one character *)

Lemma skip_whitespace_length input : (length (skip_whitespace input) ≤ length input)%nat.
Proof. induction input as [|c input IH]; cbn; [done|]. case_match; cbn; lia. Qed.

Lemma skip_line_comment_length input : (length (skip_line_comment input) ≤ length input)%nat.
Proof. induction input as [|c input IH]; cbn; [done|]. case_match; cbn; lia. Qed.

Lemma read_string_length q input s r : read_string q input = Some (s, r) → (length r < length input)%nat.
Proof.
  remember (length input) as n eqn:Hn. revert input Hn s r.
  induction n as [n IH] using lt_wf_ind. intros input Hn s r. destruct input as [|c input]; [done|].
  cbn [read_string length] in *. case_match; [by intros [= <- <-]; lia|]. case_match.
  - destruct input as [|d input]; [done|]. intros ([s' r'] & E & [= <- <-])%bind_Some. cbn [length] in *.
    assert (length r' < length input)%nat; [|lia]. by apply (IH (length input) ltac:(lia) input eq_refl s' r').
  - intros ([s' r'] & E & [= <- <-])%bind_Some.
    assert (length r' < length input)%nat; [|lia]. by apply (IH (length input) ltac:(lia) input eq_refl s' r').
Qed.

Lemma read_hex_digits_length input s r : read_hex_digits input = POk (s, r) → (length r < length input)%nat.
Proof.
  revert s r. induction input as [|c input IH]; intros s r; cbn [read_hex_digits length]; [done|].
  case_match; [by intros [= <- <-]; lia|]. case_match.
  - destruct (read_hex_digits input) as [[s' r']|e]; [|done]. intros [= <- <-]. specialize (IH _ _ eq_refl). lia.
  - case_match; [done|]. intros E. specialize (IH _ _ E). lia.
Qed.

Lemma read_hex_blob_length input t r :
  read_hex_blob input = POk (t, r) → (S (length r) < length input)%nat ∧ discriminant t ≠ discriminant TkEof.
Proof.
  unfold read_hex_blob. destruct input as [|c [|q input]]; cbn [tail]; [done|done|]. case_match; [|done].
  destruct (read_hex_digits input) as [[s' r']|e] eqn:E; [|done]. case_match; [done|]. intros [= <- <-].
  apply read_hex_digits_length in E. cbn [length]. split; [lia|done].
Qed.

Lemma number_span_length b input s r f :
  number_span b input = (s, r, f) → (length s + length r = length input)%nat.
Proof.
  revert b s r f. induction input as [|c input IH]; intros b s r f; cbn [number_span]; [by intros [= <- <- <-]|].
  destruct (is_ascii_digit c); [|destruct (c =? 46); [destruct b|]]; try (by intros [= <- <- <-]);
    destruct (number_span _ input) as [[s' r'] f'] eqn:E; intros [= <- <- <-]; apply IH in E; cbn [length]; lia.
Qed.

Lemma digit_span_length input s r : digit_span input = (s, r) → (length s + length r = length input)%nat.
Proof.
  revert s r. induction input as [|c input IH]; intros s r; cbn [digit_span]; [by intros [= <- <-]|].
  case_match; [|by intros [= <- <-]]. destruct (digit_span input) as [s' r'] eqn:E. intros [= <- <-].
  specialize (IH s' r' eq_refl). cbn [length]. lia.
Qed.

Lemma ident_span_length input s r : ident_span input = (s, r) → (length s + length r = length input)%nat.
Proof.
  revert s r. induction input as [|c input IH]; intros s r; cbn [ident_span]; [by intros [= <- <-]|].
  case_match; [|by intros [= <- <-]]. destruct (ident_span input) as [s' r'] eqn:E. intros [= <- <-].
  specialize (IH s' r' eq_refl). cbn [length]. lia.
Qed.

Lemma exponent_length input s r : exponent input = Some (s, r) → (length r ≤ length input)%nat.
Proof.
  unfold exponent. destruct input as [|e input]; [done|]. case_match; [|done].
  destruct (match input with [] => _ | s :: rest' => _ end) as [sign look] eqn:E.
  assert (length look ≤ length input)%nat as Hl.
  { destruct input as [|x input]; [by injection E as <- <-|]. revert E. case_match; intros [= <- <-]; cbn; lia. }
  destruct (starts_with_digit look); [|done]. destruct (digit_span look) as [ds r'] eqn:Ed. intros [= <- <-].
  apply digit_span_length in Ed. cbn [length]. lia.
Qed.

Lemma number_token_length num rest b t r :
  number_token num rest b = POk (t, r) → r = rest ∧ discriminant t ≠ discriminant TkEof.
Proof. unfold number_token. repeat case_match; intros [= <- <-]; done. Qed.

Lemma read_number_length c input t r :
  is_ascii_digit c = true → read_number (c :: input) = POk (t, r) →
  (length r ≤ length input)%nat ∧ discriminant t ≠ discriminant TkEof.
Proof.
  intros Hc. unfold read_number. destruct (number_span false (c :: input)) as [[num rest] f] eqn:E.
  assert (length rest ≤ length input)%nat as Hl.
  { pose proof (number_span_length _ _ _ _ _ E) as Hn. cbn [number_span] in E. rw Hc in E.
    destruct (number_span false input) as [[s' r'] f']. injection E as <- <- <-. cbn [length] in Hn. lia. }
  case_match.
  - intros [? ?]%read_hex_blob_length. split; [lia|done].
  - destruct (exponent rest) as [[e r']|] eqn:Ee.
    + apply exponent_length in Ee. intros [-> ?]%number_token_length. split; [lia|done].
    + by intros [-> ?]%number_token_length.
Qed.

Lemma keyword_not_eof s t : is_keyword s = Some t → discriminant t ≠ discriminant TkEof.
Proof.
  unfold is_keyword. intros ([k t'] & ([i kt] & E & ->)%fmap_Some & ->)%fmap_Some. cbn [snd].
  apply list_find_Some in E as (E & _ & _). apply list_elem_of_lookup_2 in E.
  assert (Forall (λ kt, discriminant kt.2 ≠ discriminant TkEof) keywords) as Hall.
  { apply Forall_forall. intros x Hx. assert (forallb (λ kt, negb (discriminant kt.2 =? discriminant TkEof)) keywords = true) as Hb
      by (vm_compute; reflexivity). rw forallb_forall in Hb. apply list_elem_of_In, Hb in Hx.
    apply negb_true_iff, Z.eqb_neq in Hx. done. }
  rw Forall_forall in Hall. exact (Hall _ E).
Qed.

Lemma alphabetic_ident c : is_alphabetic c || (c =? 95) = true → is_ident_char c = true.
Proof. unfold is_ident_char, is_alphabetic, is_alphanumeric. destruct (c <? 128); rw !orb_true_iff; tauto. Qed.

Lemma read_ident_length c input t r :
  is_ident_char c = true → read_ident (c :: input) = POk (t, r) →
  (length r ≤ length input)%nat ∧ discriminant t ≠ discriminant TkEof.
Proof.
  intros Hc. unfold read_ident. destruct (ident_span (c :: input)) as [s r'] eqn:E. intros [= <- <-].
  pose proof (ident_span_length _ _ _ E) as Hn. cbn [ident_span] in E. rw Hc in E.
  destruct (ident_span input) as [s0 r0]. injection E as <- <-. cbn [length] in Hn. split; [lia|].
  unfold ident_token. destruct (is_keyword _) as [t|] eqn:Ek; [exact (keyword_not_eof _ _ Ek)|done].
Qed.

Lemma tail_length (l : str) : (length (tail l) ≤ length l)%nat.
Proof. destruct l; cbn; lia. Qed.

(** Two outcomes that read no further than the next character. *)
Lemma lex_char_length ch rest t r :
  lex_char ch rest = POk (t, r) → (length r ≤ length rest)%nat ∧ discriminant t ≠ discriminant TkEof.
Proof.
  pose proof (tail_length rest) as Ht. unfold lex_char.
  repeat match goal with
  | |- (if ch =? ?n then _ else _) = _ → _ => destruct (ch =? n)
  | |- (if bool_decide ?b then _ else _) = _ → _ => destruct (bool_decide b)
  | |- POk (_, ?x) = _ → _ => intros [= <- <-]; split; [try case_match; lia|done]
  | |- PErr _ = _ → _ => done
  end.
  destruct (_ || _).
  { destruct (read_string ch rest) as [[s r']|] eqn:E; [|done]. intros [= <- <-].
    apply read_string_length in E. split; [lia|done]. }
  destruct (is_ascii_digit ch) eqn:Ed; [by apply read_number_length|].
  destruct (is_alphabetic ch || _) eqn:Ea; [|done]. case_match.
  - intros [? ?]%read_hex_blob_length. cbn [length] in *. split; [lia|done].
  - apply read_ident_length. by apply alphabetic_ident.
Qed.

Lemma next_token_total fuel input :
  (length input < fuel)%nat →
  ∃ r, next_token fuel input = Some r ∧
    match r with
    | POk (t, rest) => (t = TkEof ∧ rest = []) ∨ ((length rest < length input)%nat ∧ discriminant t ≠ discriminant TkEof)
    | PErr _ => True
    end.
Proof.
  revert input. induction fuel as [|fuel IH]; intros input Hf; [lia|]. cbn [next_token].
  pose proof (skip_whitespace_length input) as Hw. destruct (skip_whitespace input) as [|ch rest] eqn:E.
  { eexists. split; [reflexivity|]. by left. }
  cbn [length] in Hw. destruct (_ && _) eqn:Hc.
  - apply andb_true_iff in Hc as [Hch Hn]. apply bool_decide_eq_true in Hn. destruct rest as [|d rest]; [done|].
    cbn in Hn. injection Hn as ->. apply Z.eqb_eq in Hch as ->. cbn [length] in Hw.
    assert (length (skip_line_comment (45%Z :: 45%Z :: rest)) ≤ length rest)%nat as Hl.
    { cbn [skip_line_comment Z.eqb]. apply skip_line_comment_length. }
    destruct (IH (skip_line_comment (45 :: 45 :: rest))) as (r & -> & Hr); [lia|]. exists r. split; [done|].
    destruct r as [[t rest']|]; [|done]. destruct Hr as [?|[? ?]]; [by left|right; split; [lia|done]].
  - eexists. split; [reflexivity|]. destruct (lex_char ch rest) as [[t r]|] eqn:El; [|done]. right.
    apply lex_char_length in El as [? ?]. split; [lia|done].
Qed.

(** The tokens end in the only [Eof]. *)
Definition well_ended (toks : list Token) : Prop :=
  ∃ l, toks = l ++ [TkEof] ∧ Forall (λ t, discriminant t ≠ discriminant TkEof) l.

Lemma tokenize_loop_total fuel input :
  (length input < fuel)%nat →
  ∃ r, tokenize_loop fuel input = Some r ∧ match r with POk toks => well_ended toks ∧ (length toks ≤ S (length input))%nat | PErr _ => True end.
Proof.
  revert input. induction fuel as [|fuel IH]; intros input Hf; [lia|]. cbn [tokenize_loop].
  destruct (next_token_total (S (length input)) input) as (r & -> & Hr); [lia|]. cbn [mbind option_bind].
  destruct r as [[t rest]|e]; [|by eexists]. destruct Hr as [[-> ->]|[Hl Hne]].
  - rw Z.eqb_refl. eexists. split; [reflexivity|]. split; [by exists []|cbn; lia].
  - rw (proj2 (Z.eqb_neq _ _) Hne). destruct (IH rest) as (r' & -> & Hr'); [lia|]. cbn [mbind option_bind].
    eexists. split; [reflexivity|]. destruct r' as [toks|e]; [|done]. destruct Hr' as [(l & -> & Hall) Hlen].
    split; [|cbn [length]; lia]. exists (t :: l). split; [done|]. by constructor.
Qed.

(** the lexer terminates on every input, with an error or with a list of
    tokens of which the last and only the last is [Eof]; there are at most as
    many tokens as characters, and that one. *)
Theorem lexer_total input :
  ∃ r, tokenize input = Some r ∧
    match r with POk toks => well_ended toks ∧ (length toks ≤ S (length input))%nat | PErr _ => True end.
Proof. apply tokenize_loop_total. lia. Qed.
End lexer.

(** ** Concrete inputs *)

(** A character table without letters outside ASCII, and no floats. *)
#[export] Instance ascii_only : Unicode := {
  u_alphabetic _ := false;
  u_numeric _ := false;
  u_whitespace _ := false;
  u_upper c := [c];
  u_lower c := [c];
  u_str_lower s := s;
}.
#[export] Instance no_floats : FloatText := {
  parse_f64 _ := None;
  debug_f64 _ := [];
  display_f64 _ := [];
}.

(** a zero followed by any character and a quote is read as a blob literal:
    in [(0,'ab')] the number, the comma and the string become one blob, while a
    blank after the comma gives the three tokens that were written. *)
Theorem zero_comma_string_is_blob :
  tokenize (chars "(0,'ab')") = Some (POk [TkLParen; TkHexBlob [171]; TkRParen; TkEof]) ∧
  tokenize (chars "(0, 'ab')") =
    Some (POk [TkLParen; TkIntLit 0; TkComma; TkStringLit (chars "ab"); TkRParen; TkEof]).
Proof. split; vm_compute; reflexivity. Qed.

End Lexer.
