(* ===== verification/Parser.v ===== *)
(** The parser ([bytedb-query/src/parser/parser.rs]), a recursive descent over the
    tokens of the lexer.

    A parsing function is a function of the tokens not read yet and of
    [last_data_type_serial]. Loops count their iterations down from one more
    than the number of these tokens. The functions for expressions and queries
    call each other; each takes the ones it calls for smaller parts, [parse_expr]
    and [parse_select_body], as arguments, and [level] ties the knot a given
    number of times. *)
From S2P Require Import Prelude ByteOrder Value Transaction Sql Lexer.
Import Value Sql Lexer.

Module Parser.

(** ** The state and its operations *)

Record pstate := mkP { toks : list Token; last_data_type_serial : bool }.

(** [Fuel] is running out of iterations, which [parse_total] excludes. *)
Inductive outcome (A : Type) :=
  | Ret (a : A) (p : pstate)
  | Fail (e : ParseError)
  | Fuel.
Arguments Ret {A} a p.
Arguments Fail {A} e.
Arguments Fuel {A}.

Definition M (A : Type) : Type := pstate → outcome A.

#[export] Instance M_ret : MRet M := λ A a p, Ret a p.
#[export] Instance M_bind : MBind M := λ A B (f : A → M B) m p,
  match m p with Ret a p' => f a p' | Fail e => Fail e | Fuel => Fuel end.

Definition fail {A} (e : ParseError) : M A := λ p, Fail e.
Definition out_of_fuel {A} : M A := λ p, Fuel.

(** [self.current()] and [self.advance()]. *)
Definition current : M Token := λ p, Ret (default TkEof (head (toks p))) p.
Definition advance : M () := λ p, Ret () (mkP (tail (toks p)) (last_data_type_serial p)).

Definition same (a b : Token) : bool := discriminant a =? discriminant b.

(** [if self.current() == &t { self.advance(); true } else { false }], for a
    token [t] without a payload. *)
Definition accept (t : Token) : M bool :=
  c ← current; if same c t then _ ← advance; mret true else mret false.

Definition expect (expected : Token) : M () :=
  c ← current; if same c expected then advance else fail (MsgExpected expected c).

(** A loop, with as many iterations as it can need. *)
Definition with_fuel {A} (f : nat → M A) : M A := λ p, f (S (length (toks p))) p.

(** [loop { m; if current != Comma break; advance }], with its results. *)
Fixpoint comma_loop {A} (m : M A) (n : nat) : M (list A) :=
  match n with
  | O => out_of_fuel
  | S n' =>
      x ← m;
      c ← accept TkComma;
      if (c : bool) then xs ← comma_loop m n'; mret (x :: xs) else mret [x]
  end.
Definition comma_list {A} (m : M A) : M (list A) := with_fuel (comma_loop m).

(** [if current == t { advance; Some(m) } else { None }]. *)
Definition optional {A} (t : Token) (m : M A) : M (option A) :=
  c ← accept t; if (c : bool) then a ← m; mret (Some a) else mret None.

Definition expect_ident : M str :=
  c ← current;
  let word (s : string) : M str := (_ ← advance; mret (chars s)) in
  match c with
  | TkIdent s => _ ← advance; mret s
  | TkTables => word "tables" | TkColumns => word "columns" | TkShow => word "show" | TkIndex => word "index"
  | TkKey => word "key" | TkColumn => word "column" | TkRows => word "rows" | TkRow => word "row"
  | TkDate => word "date" | TkTimestamp => word "timestamp" | TkText => word "text" | TkInt => word "int"
  | TkFloat => word "float" | TkBool => word "bool" | TkUuid => word "uuid" | TkJson => word "json"
  | TkFirst => word "first" | TkLast => word "last" | TkPartition => word "partition" | TkOver => word "over"
  | _ => fail (MsgToken "Expected identifier, got " c)
  end.

Definition expect_string : M str :=
  c ← current;
  match c with
  | TkStringLit s => _ ← advance; mret s
  | _ => fail (MsgToken "Expected string, got " c)
  end.

Definition expect_integer : M Z :=
  c ← current;
  match c with
  | TkIntLit n => _ ← advance; mret n
  | _ => fail (MsgToken "Expected integer, got " c)
  end.

(** [matches!(self.current(), Token::Ident(s) if s.eq_ignore_ascii_case(w))]. *)
Definition is_word (w : string) (t : Token) : bool :=
  match t with TkIdent s => eq_ignore_ascii_case s (chars w) | _ => false end.

Definition accept_word (w : string) : M bool :=
  c ← current; if is_word w c then _ ← advance; mret true else mret false.

(** [self.expect_ident().ok()]: on an error nothing has been read. *)
Definition ident_ok : M (option str) :=
  λ p, match expect_ident p with Ret s p' => Ret (Some s) p' | Fail _ => Ret None p | Fuel => Fuel end.

Definition try_parse_alias : M (option str) :=
  c ← current;
  match c with
  | TkAs => _ ← advance; ident_ok
  | TkIdent s => _ ← advance; mret (Some s)
  | _ => mret None
  end.

Definition parse_ident_list : M (list str) := comma_list expect_ident.

(** ** Data types *)

Definition data_type_of (t : Token) : option DataType :=
  match t with
  | TkInt | TkInteger | TkBigint | TkSmallint | TkSerial => Some TInt64
  | TkFloat | TkReal | TkDoublePrecision => Some TFloat64
  | TkNumeric => Some TDecimal
  | TkText | TkVarchar => Some TText
  | TkBool => Some TBool
  | TkBytes | TkBlob => Some TBytes
  | TkJson => Some TJson
  | TkTimestamp => Some TTimestamp
  | TkDate => Some TDate
  | TkUuid => Some TUuid
  | TkInterval => Some TInterval
  | _ => None
  end.

Section parser.
Context `{Unicode} `{FloatText}.

Definition parse_data_type : M (DataType * option Z) :=
  c ← current;
  _ ← ((λ p, Ret () (mkP (toks p) (same c TkSerial))) : M ());
  match data_type_of c with
  | None => fail (MsgToken "Expected data type, got " c)
  | Some dt =>
      _ ← advance;
      c1 ← current;
      _ ← (match dt, c1 with
           | (TFloat64 | TDecimal), TkIdent s =>
               if bool_decide (to_uppercase s = chars "PRECISION") then advance else mret ()
           | _, _ => mret ()
           end : M ());
      paren ← accept TkLParen;
      if (paren : bool) then
        n ← expect_integer;
        comma ← accept TkComma;
        _ ← (if (comma : bool) then _ ← expect_integer; mret () else mret () : M ());
        _ ← expect TkRParen;
        mret (dt, match dt with TText | TBytes => Some (wrap 64 n) | _ => None end)
      else mret (dt, None)
  end.

(** ** Expressions *)

Section expressions.
Context (parse_expr : M Expr) (parse_select_body : M SelectStmt).

Definition parse_expr_list : M (list Expr) := comma_list parse_expr.

Definition parse_order_item : M OrderByExpr :=
  expr ← parse_expr;
  desc ← accept TkDesc;
  ascending ← (if (desc : bool) then mret false else _ ← accept TkAsc; mret true : M bool);
  nulls ← accept TkNulls;
  nulls_first ←
    (if (nulls : bool) then
       first ← accept TkFirst;
       if (first : bool) then mret (Some true) else _ ← expect TkLast; mret (Some false)
     else mret None : M (option bool));
  mret (mkOrderBy expr ascending nulls_first).

Definition parse_order_by : M (list OrderByExpr) := comma_list parse_order_item.

(** [(SELECT ...)] after the opening parenthesis. *)
Definition parse_subquery : M SelectStmt :=
  _ ← expect TkSelect;
  s ← parse_select_body;
  _ ← expect TkRParen;
  mret s.

(** [WHEN .. THEN ..] clauses. *)
Fixpoint when_loop (n : nat) : M (list (Expr * Expr)) :=
  match n with
  | O => out_of_fuel
  | S n' =>
      w ← accept TkWhen;
      if (w : bool) then
        condition ← parse_expr;
        _ ← expect TkThen;
        result ← parse_expr;
        rest ← when_loop n';
        mret ((condition, result) :: rest)
      else mret []
  end.

Definition parse_case : M Expr :=
  c ← current;
  operand ← (match c with TkWhen => mret None | _ => e ← parse_expr; mret (Some e) end : M (option Expr));
  when_clauses ← with_fuel when_loop;
  else_result ← optional TkElse parse_expr;
  _ ← expect TkEnd;
  mret (Case operand when_clauses else_result).

(** The arguments of a function named [name], after the opening parenthesis. *)
Definition parse_args (name : str) : M (str * list Expr) :=
  c ← current;
  match c with
  | TkRParen => mret (name, [])
  | TkStar => _ ← advance; mret (name, [Column (chars "*")])
  | TkDistinct => _ ← advance; args ← parse_expr_list; mret (to_uppercase name ++ chars "_DISTINCT", args)
  | _ => args ← parse_expr_list; mret (name, args)
  end.

Definition parse_over (name : str) (args : list Expr) : M Expr :=
  _ ← expect TkLParen;
  p ← accept TkPartition;
  partition_by ← (if (p : bool) then _ ← expect TkBy; parse_expr_list else mret [] : M (list Expr));
  o ← accept TkOrder;
  order_by ← (if (o : bool) then _ ← expect TkBy; parse_order_by else mret [] : M (list OrderByExpr));
  _ ← expect TkRParen;
  mret (WindowFunction name args partition_by order_by).

(** What follows an identifier in an expression. *)
Definition parse_ident_expr (name : str) : M Expr :=
  c ← current;
  match c with
  | TkLParen =>
      _ ← advance;
      '(func_name, args) ← parse_args name;
      _ ← expect TkRParen;
      over ← accept TkOver;
      if (over : bool) then parse_over func_name args else mret (Function func_name args)
  | TkDot => _ ← advance; col ← expect_ident; mret (QualifiedColumn name col)
  | _ => mret (Column name)
  end.

(** The match of [parse_primary]. *)
Definition parse_atom (parse_unary : M Expr) : M Expr :=
  c ← current;
  match c with
  | TkIntLit n => _ ← advance; mret (Literal (Integer n))
  | TkFloatLit f => _ ← advance; mret (Literal (Float f))
  | TkStringLit s => _ ← advance; mret (Literal (LString s))
  | TkBoolLit b => _ ← advance; mret (Literal (LBool b))
  | TkNullLit => _ ← advance; mret (Literal LNull)
  | TkHexBlob bytes => _ ← advance; mret (Literal (LHexBlob bytes))
  | TkInterval =>
      _ ← advance;
      c1 ← current;
      match c1 with
      | TkStringLit s => _ ← advance; mret (IntervalLit s)
      | _ => fail (Msg "Expected string literal after INTERVAL")
      end
  | TkDollarDot => _ ← advance; path ← expect_ident; mret (JsonPath path)
  | TkCase => _ ← advance; parse_case
  | TkCast =>
      _ ← advance;
      _ ← expect TkLParen;
      e ← parse_expr;
      _ ← expect TkAs;
      '(dt, _) ← parse_data_type;
      _ ← expect TkRParen;
      mret (Cast e dt)
  | TkExists => _ ← advance; _ ← expect TkLParen; s ← parse_subquery; mret (ExistsQuery s)
  | TkNot =>
      _ ← advance;
      ex ← accept TkExists;
      if (ex : bool) then
        _ ← expect TkLParen; s ← parse_subquery; mret (Unary OpNot (ExistsQuery s))
      else e ← parse_unary; mret (Unary OpNot e)
  | TkIdent name => _ ← advance; parse_ident_expr name
  | TkLParen =>
      _ ← advance;
      c1 ← current;
      match c1 with
      | TkSelect => s ← parse_subquery; mret (Subquery s)
      | _ => e ← parse_expr; _ ← expect TkRParen; mret e
      end
  | TkDefault => _ ← advance; mret DefaultExpr
  | _ => fail (MsgToken "Unexpected token in expression: " c)
  end.

(** The casts [::type] behind a primary. *)
Fixpoint cast_loop (e : Expr) (n : nat) : M Expr :=
  match n with
  | O => out_of_fuel
  | S n' =>
      c ← accept TkDoubleColon;
      if (c : bool) then '(dt, _) ← parse_data_type; cast_loop (Cast e dt) n' else mret e
  end.

Definition parse_primary (parse_unary : M Expr) : M Expr :=
  e ← parse_atom parse_unary; with_fuel (cast_loop e).

(** A minus in front of a number makes a negative number. *)
Definition negate (e : Expr) : Expr :=
  match e with
  | Literal (Integer n) => Literal (Integer (- n))
  | Literal (Float f) => Literal (Float (Z.lxor f (2 ^ 63)))
  | _ => Unary OpNeg e
  end.

Fixpoint unary_loop (n : nat) : M Expr :=
  match n with
  | O => out_of_fuel
  | S n' =>
      c ← current;
      match c with
      | TkNot => _ ← advance; e ← unary_loop n'; mret (Unary OpNot e)
      | TkMinus => _ ← advance; e ← unary_loop n'; mret (negate e)
      | _ => parse_primary (unary_loop n')
      end
  end.
Definition parse_unary : M Expr := with_fuel unary_loop.

(** [left] and the operators of one precedence behind it. *)
Fixpoint binary_loop (ops : Token → option BinOp) (operand : M Expr) (left : Expr) (n : nat) : M Expr :=
  match n with
  | O => out_of_fuel
  | S n' =>
      c ← current;
      match ops c with
      | Some op => _ ← advance; right ← operand; binary_loop ops operand (BinaryOp left op right) n'
      | None => mret left
      end
  end.

Definition mul_op (t : Token) : option BinOp :=
  match t with TkStar => Some OpMul | TkSlash => Some OpDiv | TkPercent => Some OpMod | _ => None end.
Definition add_op (t : Token) : option BinOp :=
  match t with TkPlus => Some OpPlus | TkMinus => Some OpMinus | _ => None end.
Definition and_op (t : Token) : option BinOp := match t with TkAnd => Some OpAnd | _ => None end.
Definition or_op (t : Token) : option BinOp := match t with TkOr => Some OpOr | _ => None end.
Definition cmp_op (t : Token) : option BinOp :=
  match t with
  | TkEq => Some OpEq | TkNeq => Some OpNeq | TkLt => Some OpLt | TkGt => Some OpGt | TkLte => Some OpLte
  | TkGte => Some OpGte | TkLike => Some OpLike | TkIlike => Some OpIlike | _ => None
  end.

Definition parse_multiplication : M Expr :=
  left ← parse_unary; with_fuel (binary_loop mul_op parse_unary left).
Definition parse_addition : M Expr :=
  left ← parse_multiplication; with_fuel (binary_loop add_op parse_multiplication left).

(** [IN], after the keyword. *)
Definition parse_in (left : Expr) : M Expr :=
  _ ← expect TkLParen;
  sel ← accept TkSelect;
  if (sel : bool) then subquery ← parse_select_body; _ ← expect TkRParen; mret (InSubquery left subquery)
  else items ← parse_expr_list; _ ← expect TkRParen; mret (InList left items).

(** [BETWEEN], after the keyword. *)
Definition parse_between (left : Expr) : M Expr :=
  low ← parse_addition; _ ← expect TkAnd; high ← parse_addition; mret (Between left low high).

(** [NOT] behind an operand, after the keyword. *)
Definition parse_negated (left : Expr) : M Expr :=
  c ← current;
  match c with
  | TkIn => _ ← advance; e ← parse_in left; mret (Unary OpNot e)
  | TkBetween => _ ← advance; e ← parse_between left; mret (Unary OpNot e)
  | TkLike => _ ← advance; right ← parse_addition; mret (Unary OpNot (BinaryOp left OpLike right))
  | TkIlike => _ ← advance; right ← parse_addition; mret (Unary OpNot (BinaryOp left OpIlike right))
  | _ => fail (Msg "Expected IN, BETWEEN, or LIKE after NOT")
  end.

(** [IS], after the keyword. *)
Definition parse_is (left : Expr) : M Expr :=
  no ← accept TkNot; _ ← expect TkNullLit; mret (if (no : bool) then IsNotNull left else IsNull left).

(** What a token begins behind an operand. *)
Inductive comparison_kind := CmpIs | CmpNot | CmpIn | CmpBetween | CmpOp (op : BinOp) | CmpNone.
Definition comparison_of (t : Token) : comparison_kind :=
  match t with
  | TkIs => CmpIs
  | TkNot => CmpNot
  | TkIn => CmpIn
  | TkBetween => CmpBetween
  | _ => match cmp_op t with Some op => CmpOp op | None => CmpNone end
  end.

Fixpoint comparison_loop (left : Expr) (n : nat) : M Expr :=
  match n with
  | O => out_of_fuel
  | S n' =>
      c ← current;
      match comparison_of c with
      | CmpIs => _ ← advance; e ← parse_is left; comparison_loop e n'
      | CmpNot => _ ← advance; e ← parse_negated left; comparison_loop e n'
      | CmpIn => _ ← advance; e ← parse_in left; comparison_loop e n'
      | CmpBetween => _ ← advance; e ← parse_between left; comparison_loop e n'
      | CmpOp op => _ ← advance; right ← parse_addition; comparison_loop (BinaryOp left op right) n'
      | CmpNone => mret left
      end
  end.

Definition parse_comparison : M Expr := left ← parse_addition; with_fuel (comparison_loop left).
Definition parse_and_expr : M Expr :=
  left ← parse_comparison; with_fuel (binary_loop and_op parse_comparison left).
Definition parse_or_expr : M Expr :=
  left ← parse_and_expr; with_fuel (binary_loop or_op parse_and_expr left).

(** ** Queries *)

Definition parse_select_columns : M (list SelectColumn) :=
  star ← accept TkStar;
  if (star : bool) then mret [SelectStar]
  else comma_list (expr ← parse_expr; alias ← optional TkAs expect_ident; mret (SelectExpr expr alias)).

Definition parse_from_clause : M (FromClause * option str) :=
  paren ← accept TkLParen;
  if (paren : bool) then
    subquery ← parse_subquery;
    alias ← try_parse_alias;
    mret (FromSubquery subquery, alias)
  else
    table ← expect_ident;
    dot ← accept TkDot;
    name ← (if (dot : bool) then sub ← expect_ident; mret (table ++ chars "." ++ sub) else mret table : M str);
    alias ← try_parse_alias;
    mret (FromTable name, alias).

Definition parse_join_type : M JoinType :=
  c ← current;
  match c with
  | TkInner => _ ← advance; _ ← expect TkJoin; mret JInner
  | TkLeft => _ ← advance; _ ← expect TkJoin; mret JLeft
  | TkRight => _ ← advance; _ ← expect TkJoin; mret JRight
  | TkJoin => _ ← advance; mret JInner
  | _ => fail (Msg "Expected JOIN")
  end.

Definition parse_join : M JoinClause :=
  join_type ← parse_join_type;
  table ← expect_ident;
  c ← current;
  alias ← (match c with TkOn => mret None | _ => try_parse_alias end : M (option str));
  _ ← expect TkOn;
  condition ← parse_expr;
  mret (mkJoin join_type table alias condition).

Fixpoint join_loop (n : nat) : M (list JoinClause) :=
  match n with
  | O => out_of_fuel
  | S n' =>
      c ← current;
      match c with
      | TkJoin | TkInner | TkLeft | TkRight => j ← parse_join; rest ← join_loop n'; mret (j :: rest)
      | _ => mret []
      end
  end.

Definition parse_usize : M Z := n ← expect_integer; mret (wrap 64 n).

Definition select_body : M SelectStmt :=
  distinct ← accept TkDistinct;
  columns ← parse_select_columns;
  f ← accept TkFrom;
  '(from, from_alias) ← (if (f : bool) then parse_from_clause else mret (FromNone, None) : M (FromClause * option str));
  joins ← with_fuel join_loop;
  where_clause ← optional TkWhere parse_expr;
  g ← accept TkGroup;
  group_by ← (if (g : bool) then _ ← expect TkBy; parse_expr_list else mret [] : M (list Expr));
  having ← optional TkHaving parse_expr;
  o ← accept TkOrder;
  order_by ← (if (o : bool) then _ ← expect TkBy; parse_order_by else mret [] : M (list OrderByExpr));
  limit ← optional TkLimit parse_usize;
  offset ← optional TkOffset parse_usize;
  mret (mkSelect columns distinct from from_alias joins where_clause group_by having order_by limit offset []).
End expressions.

(** The functions of depth [d]: an expression and a query in it. *)
Fixpoint level (d : nat) : M Expr * M SelectStmt :=
  match d with
  | O => (out_of_fuel, out_of_fuel)
  | S d' => let '(e, s) := level d' in (parse_or_expr e s, select_body e s)
  end.

(** Deep enough for the tokens that are left. *)
Definition parse_expr : M Expr := λ p, (level (2 * length (toks p) + 1)).1 p.
Definition parse_select_body : M SelectStmt := λ p, (level (2 * length (toks p) + 2)).2 p.
(** ** Statements *)

Definition parse_returning : M (option (list SelectColumn)) :=
  optional TkReturning (parse_select_columns parse_expr).

(** [col = expr], separated by commas. *)
Definition parse_assignments : M (list (str * Expr)) :=
  comma_list (col ← expect_ident; _ ← expect TkEq; e ← parse_expr; mret (col, e)).

Definition parse_select : M Statement := _ ← expect TkSelect; s ← parse_select_body; mret (Select s).

Definition set_ctes (s : SelectStmt) (ctes : list Cte) : SelectStmt :=
  match s with
  | mkSelect cols dis from al joins wh gr hav ord lim off _ => mkSelect cols dis from al joins wh gr hav ord lim off ctes
  end.

Definition parse_cte : M Cte :=
  name ← expect_ident;
  _ ← expect TkAs;
  _ ← expect TkLParen;
  query ← parse_subquery parse_select_body;
  mret (mkCte name query).

Definition parse_with : M Statement :=
  _ ← expect TkWith;
  _ ← accept TkRecursive;
  ctes ← comma_list parse_cte;
  _ ← expect TkSelect;
  select ← parse_select_body;
  mret (Select (set_ctes select ctes)).

Definition parse_conflict_action : M ConflictAction :=
  nothing ← accept TkNothing;
  if (nothing : bool) then mret DoNothing
  else _ ← expect TkUpdate; _ ← expect TkSet; a ← parse_assignments; mret (DoUpdate a).

Definition parse_parenthesized_idents : M (list str) :=
  _ ← expect TkLParen; cols ← parse_ident_list; _ ← expect TkRParen; mret cols.

Definition parse_on_conflict : M OnConflict :=
  _ ← expect TkConflict;
  cols ← parse_parenthesized_idents;
  _ ← expect TkDo;
  action ← parse_conflict_action;
  mret (mkOnConflict cols action).

Definition parse_values_row : M (list Expr) :=
  _ ← expect TkLParen; row ← parse_expr_list parse_expr; _ ← expect TkRParen; mret row.

Definition parse_insert : M Statement :=
  _ ← expect TkInsert;
  _ ← expect TkInto;
  table ← expect_ident;
  columns ← optional TkLParen (cols ← parse_ident_list; _ ← expect TkRParen; mret cols);
  sel ← accept TkSelect;
  source ←
    (if (sel : bool) then select ← parse_select_body; mret (InsertSelect select)
     else _ ← expect TkValues; rows ← comma_list parse_values_row; mret (InsertValues rows) : M InsertSource);
  on_conflict ← optional TkOn parse_on_conflict;
  returning ← parse_returning;
  mret (Insert (mkInsert table columns source on_conflict returning)).

Definition parse_update : M Statement :=
  _ ← expect TkUpdate;
  table ← expect_ident;
  _ ← expect TkSet;
  assignments ← parse_assignments;
  where_clause ← optional TkWhere parse_expr;
  returning ← parse_returning;
  mret (Update (mkUpdate table assignments where_clause returning)).

Definition parse_delete : M Statement :=
  _ ← expect TkDelete;
  _ ← expect TkFrom;
  table ← expect_ident;
  where_clause ← optional TkWhere parse_expr;
  returning ← parse_returning;
  mret (Delete (mkDelete table where_clause returning)).

(** [IF NOT EXISTS] and [IF EXISTS]. *)
Definition parse_if_not_exists : M bool :=
  i ← accept TkIf; if (i : bool) then _ ← expect TkNot; _ ← expect TkExists; mret true else mret false.
Definition parse_if_exists : M bool :=
  i ← accept TkIf; if (i : bool) then _ ← expect TkExists; mret true else mret false.

(** ** Tables *)

Definition parse_fk_action : M FkAction :=
  c ← current;
  match c with
  | TkCascade => _ ← advance; mret FkCascade
  | TkRestrict => _ ← advance; mret FkRestrict
  | TkSet =>
      _ ← advance;
      nl ← accept TkNullLit;
      if (nl : bool) then mret FkSetNull else fail (Msg "Expected NULL after SET")
  | _ =>
      if is_word "NO" c then
        _ ← advance;
        act ← accept_word "ACTION";
        if (act : bool) then mret FkRestrict else fail (Msg "Expected ACTION after NO")
      else fail (MsgToken "Expected CASCADE/RESTRICT/SET NULL, got " c)
  end.

Fixpoint fk_loop (on_delete on_update : FkAction) (n : nat) : M (FkAction * FkAction) :=
  match n with
  | O => out_of_fuel
  | S n' =>
      on ← accept TkOn;
      if (on : bool) then
        c ← current;
        match c with
        | TkDelete => _ ← advance; a ← parse_fk_action; fk_loop a on_update n'
        | TkUpdate => _ ← advance; a ← parse_fk_action; fk_loop on_delete a n'
        | _ => fail (Msg "Expected DELETE or UPDATE after ON")
        end
      else mret (on_delete, on_update)
  end.
Definition parse_fk_actions : M (FkAction * FkAction) := with_fuel (fk_loop FkRestrict FkRestrict).

(** The variables of the loop over the options of a column. *)
Record col_opts := mkOpts {
  o_nullable : bool;
  o_primary : bool;
  o_unique : bool;
  o_default : option Expr;
  o_check : option Expr;
  o_references : option (str * str);
  o_on_delete : FkAction;
  o_on_update : FkAction;
}.
Definition no_opts : col_opts := mkOpts true false false None None None FkRestrict FkRestrict.

Definition parse_references (o : col_opts) : M col_opts :=
  ref_table ← expect_ident;
  paren ← accept TkLParen;
  ref_col ← (if (paren : bool) then c ← expect_ident; _ ← expect TkRParen; mret c else mret (chars "id") : M str);
  '(od, ou) ← parse_fk_actions;
  mret (mkOpts (o_nullable o) (o_primary o) (o_unique o) (o_default o) (o_check o) (Some (ref_table, ref_col)) od ou).

Fixpoint options_loop (o : col_opts) (n : nat) : M col_opts :=
  match n with
  | O => out_of_fuel
  | S n' =>
      c ← current;
      match c with
      | TkNot =>
          _ ← advance; _ ← expect TkNullLit;
          options_loop (mkOpts false (o_primary o) (o_unique o) (o_default o) (o_check o) (o_references o)
                          (o_on_delete o) (o_on_update o)) n'
      | TkPrimary =>
          _ ← advance; _ ← expect TkKey;
          options_loop (mkOpts false true (o_unique o) (o_default o) (o_check o) (o_references o)
                          (o_on_delete o) (o_on_update o)) n'
      | TkUnique =>
          _ ← advance;
          options_loop (mkOpts (o_nullable o) (o_primary o) true (o_default o) (o_check o) (o_references o)
                          (o_on_delete o) (o_on_update o)) n'
      | TkDefault =>
          _ ← advance;
          e ← parse_primary parse_expr parse_select_body (parse_unary parse_expr parse_select_body);
          options_loop (mkOpts (o_nullable o) (o_primary o) (o_unique o) (Some e) (o_check o) (o_references o)
                          (o_on_delete o) (o_on_update o)) n'
      | _ =>
          if is_word "CHECK" c then
            _ ← advance; _ ← expect TkLParen; e ← parse_expr; _ ← expect TkRParen;
            options_loop (mkOpts (o_nullable o) (o_primary o) (o_unique o) (o_default o) (Some e) (o_references o)
                            (o_on_delete o) (o_on_update o)) n'
          else if is_word "REFERENCES" c then _ ← advance; o' ← parse_references o; options_loop o' n'
          else mret o
      end
  end.

Definition parse_column : M ColumnDef :=
  name ← expect_ident;
  '(data_type, max_length) ← parse_data_type;
  o ← with_fuel (options_loop no_opts);
  serial ← ((λ p, Ret (last_data_type_serial p) p) : M bool);
  mret (mkColumnDef name data_type max_length (if (serial : bool) then false else o_nullable o)
          (if serial then true else o_primary o) (o_unique o) serial (o_default o) (o_check o) (o_references o)
          (o_on_delete o) (o_on_update o)).

(** The variables of the loop over the items of a table. *)
Record table_items := mkItems {
  t_columns : list ColumnDef;
  t_checks : list Expr;
  t_fks : list ForeignKeyDef;
  t_pk : list str;
  t_unique : list str;
}.

Definition is_constraint (c : Token) : bool :=
  match c with
  | TkUnique | TkPrimary => true
  | _ => is_word "CHECK" c || is_word "CONSTRAINT" c || is_word "FOREIGN" c
  end.

Definition parse_constraint (t : table_items) : M table_items :=
  named ← accept_word "CONSTRAINT";
  _ ← (if (named : bool) then _ ← expect_ident; mret () else mret () : M ());
  c ← current;
  if is_word "CHECK" c then
    _ ← advance; _ ← expect TkLParen; e ← parse_expr; _ ← expect TkRParen;
    mret (mkItems (t_columns t) (t_checks t ++ [e]) (t_fks t) (t_pk t) (t_unique t))
  else if is_word "FOREIGN" c then
    _ ← advance;
    _ ← expect TkKey;
    cols ← parse_parenthesized_idents;
    refs ← accept_word "REFERENCES";
    if (refs : bool) then
      ref_table ← expect_ident;
      ref_cols ← parse_parenthesized_idents;
      '(od, ou) ← parse_fk_actions;
      mret (mkItems (t_columns t) (t_checks t) (t_fks t ++ [mkForeignKey cols ref_table ref_cols od ou])
              (t_pk t) (t_unique t))
    else fail (Msg "Expected REFERENCES")
  else match c with
       | TkPrimary =>
           _ ← advance; _ ← expect TkKey; cols ← parse_parenthesized_idents;
           mret (mkItems (t_columns t) (t_checks t) (t_fks t) cols (t_unique t))
       | TkUnique =>
           _ ← advance; cols ← parse_parenthesized_idents;
           mret (mkItems (t_columns t) (t_checks t) (t_fks t) (t_pk t) (t_unique t ++ cols))
       | _ => fail (MsgToken "Unexpected constraint token: " c)
       end.

Definition parse_table_item (t : table_items) : M table_items :=
  c ← current;
  if is_constraint c then parse_constraint t
  else col ← parse_column; mret (mkItems (t_columns t ++ [col]) (t_checks t) (t_fks t) (t_pk t) (t_unique t)).

Fixpoint items_loop (t : table_items) (n : nat) : M table_items :=
  match n with
  | O => out_of_fuel
  | S n' =>
      t' ← parse_table_item t;
      c ← accept TkComma;
      if (c : bool) then items_loop t' n' else mret t'
  end.

(** [columns.iter_mut().find(|c| c.name == name)], changed by [f]. *)
Fixpoint update_column (name : str) (f : ColumnDef → ColumnDef) (cols : list ColumnDef) : list ColumnDef :=
  match cols with
  | [] => []
  | c :: cols' => if bool_decide (col_name c = name) then f c :: cols' else c :: update_column name f cols'
  end.

Definition set_primary (c : ColumnDef) : ColumnDef :=
  mkColumnDef (col_name c) (col_data_type c) (max_length c) false true (col_unique c) (auto_increment c)
    (default_value c) (check c) (references c) (col_on_delete c) (col_on_update c).
Definition set_unique (c : ColumnDef) : ColumnDef :=
  mkColumnDef (col_name c) (col_data_type c) (max_length c) (nullable c) (primary_key c) true (auto_increment c)
    (default_value c) (check c) (references c) (col_on_delete c) (col_on_update c).

Definition parse_create_table : M Statement :=
  _ ← expect TkTable;
  if_not_exists ← parse_if_not_exists;
  name ← expect_ident;
  _ ← expect TkLParen;
  t ← with_fuel (items_loop (mkItems [] [] [] [] []));
  _ ← expect TkRParen;
  let cols1 := foldl (λ cs pk, update_column pk set_primary cs) (t_columns t) (t_pk t) in
  let cols2 := foldl (λ cs u, update_column u set_unique cs) cols1 (t_unique t) in
  mret (CreateTable (mkCreateTable name cols2 if_not_exists (t_checks t) (t_fks t))).

Definition parse_create_index (unique : bool) : M Statement :=
  name ← expect_ident;
  _ ← expect TkOn;
  table ← expect_ident;
  columns ← parse_parenthesized_idents;
  mret (CreateIndex (mkCreateIndex name table columns unique)).

Definition parse_create : M Statement :=
  _ ← expect TkCreate;
  c ← current;
  match c with
  | TkUnique => _ ← advance; _ ← expect TkIndex; parse_create_index true
  | TkTable => parse_create_table
  | TkIndex => _ ← advance; parse_create_index false
  | TkDatabase =>
      _ ← advance; if_not_exists ← parse_if_not_exists; name ← expect_ident;
      mret (CreateDatabase name if_not_exists)
  | _ => fail (Msg "Expected TABLE, INDEX or DATABASE after CREATE")
  end.

Definition parse_drop : M Statement :=
  _ ← expect TkDrop;
  c ← current;
  match c with
  | TkTable => _ ← advance; if_exists ← parse_if_exists; name ← expect_ident; mret (DropTable name if_exists)
  | TkIndex => _ ← advance; name ← expect_ident; mret (DropIndex name)
  | TkDatabase => _ ← advance; if_exists ← parse_if_exists; name ← expect_ident; mret (DropDatabase name if_exists)
  | _ => fail (Msg "Expected TABLE, INDEX or DATABASE after DROP")
  end.

(** The options of [ADD COLUMN]: whether the column is nullable, and its key. *)
Fixpoint add_loop (nullable primary_key : bool) (n : nat) : M (bool * bool) :=
  match n with
  | O => out_of_fuel
  | S n' =>
      c ← current;
      match c with
      | TkNot => _ ← advance; _ ← expect TkNullLit; add_loop false primary_key n'
      | TkPrimary => _ ← advance; _ ← expect TkKey; add_loop false true n'
      | _ => mret (nullable, primary_key)
      end
  end.

Definition parse_alter_action : M AlterTableAction :=
  c ← current;
  match c with
  | TkAdd =>
      _ ← advance;
      _ ← accept TkColumn;
      name ← expect_ident;
      '(data_type, max_length) ← parse_data_type;
      '(nullable, primary_key) ← with_fuel (add_loop true false);
      mret (AddColumn (mkColumnDef name data_type max_length nullable primary_key false false None None None
                         FkRestrict FkRestrict))
  | TkDrop => _ ← advance; _ ← accept TkColumn; name ← expect_ident; mret (DropColumn name)
  | TkRename =>
      _ ← advance;
      _ ← accept TkColumn;
      old_name ← expect_ident;
      c1 ← current;
      _ ← (match c1 with
           | TkTo => advance
           | TkIdent s =>
               if bool_decide (to_uppercase s = chars "TO") then advance
               else fail (Msg "Expected TO after column name in RENAME")
           | _ => fail (Msg "Expected TO after column name in RENAME")
           end : M ());
      new_name ← expect_ident;
      mret (RenameColumn old_name new_name)
  | _ => fail (Msg "Expected ADD, DROP, or RENAME after ALTER TABLE <name>")
  end.

Definition parse_alter : M Statement :=
  _ ← expect TkAlter; _ ← expect TkTable; table ← expect_ident;
  action ← parse_alter_action; mret (AlterTable table action).

(** ** Other statements *)

Definition parse_begin : M Statement :=
  _ ← expect TkBegin;
  s ← accept TkSerializable;
  mret (Begin (if (s : bool) then Some Transaction.Serializable else None)).

Definition parse_show : M Statement :=
  _ ← expect TkShow;
  c ← current;
  match c with
  | TkTables => _ ← advance; mret ShowTables
  | TkColumns => _ ← advance; _ ← expect TkFrom; table ← expect_ident; mret (ShowColumns table)
  | TkCreate => _ ← advance; _ ← expect TkTable; table ← expect_ident; mret (ShowCreateTable table)
  | _ =>
      if is_word "DATABASES" c then _ ← advance; mret ShowDatabases
      else if is_word "STATS" c then
        _ ← advance;
        f ← accept_word "FOR";
        if (f : bool) then table ← expect_ident; mret (ShowStats (Some table)) else mret (ShowStats None)
      else fail (Msg "Expected TABLES, COLUMNS, CREATE, DATABASES, or STATS after SHOW")
  end.

Definition parse_truncate : M Statement :=
  _ ← expect TkTruncate; _ ← accept TkTable; table ← expect_ident; mret (Truncate table).

Definition parse_kv : M Statement :=
  _ ← expect TkKv;
  c ← current;
  match c with
  | TkGet => _ ← advance; key ← expect_string; mret (KvGet key)
  | TkSet => _ ← advance; key ← expect_string; value ← expect_string; mret (KvSet key value)
  | TkDelete => _ ← advance; key ← expect_string; mret (KvDelete key)
  | TkScan => _ ← advance; start ← expect_string; stop ← expect_string; mret (KvScan start stop)
  | _ => fail (Msg "Expected GET, SET, DELETE, or SCAN after KV")
  end.

(** What a token adds to the text of a JSON object; the others add nothing. *)
Definition json_text (t : Token) : str :=
  match t with
  | TkLBrace => [123]
  | TkRBrace => [125]
  | TkStringLit s => [34] ++ s ++ [34]
  | TkIntLit n => show_int n
  | TkFloatLit f => display_f64 f
  | TkBoolLit b => chars (if b then "true" else "false")
  | TkNullLit => chars "null"
  | TkColon => [58]
  | TkComma => [44]
  | TkLBracket => [91]
  | TkRBracket => [93]
  | _ => []
  end.

Fixpoint json_loop (depth : Z) (acc : str) (n : nat) : M str :=
  match n with
  | O => out_of_fuel
  | S n' =>
      c ← current;
      match c with
      | TkEof => fail (Msg "Unterminated JSON object")
      | TkLBrace => _ ← advance; json_loop (depth + 1) (acc ++ json_text c) n'
      | TkRBrace =>
          _ ← advance;
          if depth - 1 =? 0 then mret (acc ++ json_text c) else json_loop (depth - 1) (acc ++ json_text c) n'
      | _ => _ ← advance; json_loop depth (acc ++ json_text c) n'
      end
  end.

Definition parse_json_object : M str :=
  c ← current;
  match c with
  | TkLBrace => with_fuel (json_loop 0 [])
  | _ => fail (Msg "Expected '{'")
  end.

Definition parse_doc : M Statement :=
  _ ← expect TkDoc;
  c ← current;
  match c with
  | TkInsert =>
      _ ← advance; _ ← expect TkInto; collection ← expect_ident; document ← parse_json_object;
      mret (DocInsert collection document)
  | TkFind =>
      _ ← advance; _ ← expect TkIn; collection ← expect_ident; f ← optional TkWhere parse_expr;
      mret (DocFind collection f)
  | TkUpdate =>
      _ ← advance; _ ← expect TkIn; collection ← expect_ident; f ← optional TkWhere parse_expr;
      _ ← expect TkSet;
      updates ← comma_list (_ ← accept TkDollarDot; path ← expect_ident; _ ← expect TkEq; e ← parse_expr; mret (path, e));
      mret (DocUpdate collection f updates)
  | TkDelete =>
      _ ← advance; _ ← expect TkFrom; collection ← expect_ident; f ← optional TkWhere parse_expr;
      mret (DocDelete collection f)
  | _ => fail (Msg "Expected INSERT, FIND, UPDATE, or DELETE after DOC")
  end.

Definition parse_backup : M Statement :=
  _ ← expect TkBackup; _ ← expect TkTo; path ← expect_string; mret (Backup path).

Definition parse_restore : M Statement :=
  _ ← expect TkRestore;
  _ ← expect TkFrom;
  path ← expect_string;
  to ← accept TkTo;
  if (to : bool) then
    _ ← expect TkLsn;
    c ← current;
    match c with
    | TkIntLit n => _ ← advance; mret (RestoreFrom path (Some (wrap 64 n)))
    | _ => fail (MsgToken "expected LSN integer, got " c)
    end
  else mret (RestoreFrom path None).

Definition parse_use : M Statement :=
  _ ← advance; _ ← accept TkDatabase; name ← expect_ident; mret (UseDatabase name).

Definition parse_analyze : M Statement :=
  _ ← advance;
  _ ← accept_word "TABLE";
  c ← current;
  match c with
  | TkIdent _ => table ← expect_ident; mret (Analyze (Some table))
  | _ => mret (Analyze None)
  end.

(** [parse_explain] calls [parse_statement] again. *)
Fixpoint statement_loop (n : nat) : M Statement :=
  match n with
  | O => out_of_fuel
  | S n' =>
      c ← current;
      match c with
      | TkExplain =>
          _ ← expect TkExplain; analyze ← accept TkAnalyze; s ← statement_loop n'; mret (Explain s analyze)
      | TkWith => parse_with
      | TkSelect => parse_select
      | TkInsert => parse_insert
      | TkUpdate => parse_update
      | TkDelete => parse_delete
      | TkCreate => parse_create
      | TkDrop => parse_drop
      | TkAlter => parse_alter
      | TkBegin => parse_begin
      | TkCommit => _ ← advance; mret Commit
      | TkRollback => _ ← advance; mret Rollback
      | TkKv => parse_kv
      | TkDoc => parse_doc
      | TkShow => parse_show
      | TkTruncate => parse_truncate
      | TkUse => parse_use
      | TkAnalyze => parse_analyze
      | TkBackup => parse_backup
      | TkRestore => parse_restore
      | TkMigrate => _ ← advance; mret Migrate
      | _ => fail (MsgToken "Unexpected token: " c)
      end
  end.
Definition parse_statement : M Statement := with_fuel statement_loop.

(** The set operation a token stands for. *)
Definition set_op (t : Token) : option (Statement → Statement → bool → Statement) :=
  match t with TkUnion => Some Union | TkIntersect => Some Intersect | TkExcept => Some Except | _ => None end.

Fixpoint union_loop (left : Statement) (n : nat) : M Statement :=
  match n with
  | O => out_of_fuel
  | S n' =>
      c ← current;
      match set_op c with
      | Some mk =>
          _ ← advance; all ← accept TkAll; right ← parse_statement; right' ← union_loop right n';
          mret (mk left right' all)
      | None => mret left
      end
  end.
Definition maybe_parse_union (left : Statement) : M Statement := with_fuel (union_loop left).

Definition parse : M Statement :=
  stmt ← parse_statement;
  stmt' ← maybe_parse_union stmt;
  _ ← accept TkSemicolon;
  mret stmt'.

(** [Parser::new] and then [m]. *)
Definition run {A} (m : M A) (input : str) : option (presult A) :=
  r ← tokenize input;
  match r with
  | PErr e => Some (PErr e)
  | POk ts => match m (mkP ts false) with Ret a _ => Some (POk a) | Fail e => Some (PErr e) | Fuel => None end
  end.

Definition parse_sql (input : str) : option (presult Statement) := run parse input.
Definition parse_expression (input : str) : option (presult Expr) := run parse_expr input.
End parser.

(** ** Concrete inputs *)

(** the parser stops at the end of a statement and does not look at what
    follows: with a misspelled [WHERE] the statement deletes every row. *)
Theorem misspelled_where_deletes_all :
  parse_sql (chars "DELETE FROM t WEHRE id = 1") = Some (POk (Delete (mkDelete (chars "t") None None))).
Proof. vm_compute. reflexivity. Qed.

(** a cast in a column's [CHECK] makes the parser forget that the column is
    [SERIAL]: the column is then neither a key nor filled in by a sequence. *)
Theorem serial_lost_by_cast :
  let columns sql := match parse_sql (chars sql) with
    | Some (POk (CreateTable t)) => (λ c, (auto_increment c, primary_key c, nullable c)) <$> ct_columns t
    | _ => []
    end in
  columns "CREATE TABLE t (id SERIAL CHECK (id > 0))" = [(true, true, false)] ∧
  columns "CREATE TABLE t (id SERIAL CHECK (id::int > 0))" = [(false, false, true)].
Proof. split; vm_compute; reflexivity. Qed.

(** the object of [DOC INSERT] is put together from tokens, and the ones that
    have no place in JSON are left out, the minus of a negative number too. *)
Theorem doc_insert_drops_sign :
  let text := chars "{" ++ [34] ++ chars "n" ++ [34] ++ chars ":-5}" in
  let stored := chars "{" ++ [34] ++ chars "n" ++ [34] ++ chars ":5}" in
  parse_sql (chars "DOC INSERT INTO c " ++ text) = Some (POk (DocInsert (chars "c") stored)).
Proof. vm_compute. reflexivity. Qed.

(** [SELECT n]. *)
Definition select_int (n : Z) : Statement :=
  Select (mkSelect [SelectExpr (Literal (Integer n)) None] false FromNone None [] None [] None [] None None []).

(** set operations group to the right: in a chain of [EXCEPT] the last query
    is taken away from the second and not from the first. *)
Theorem except_groups_right :
  parse_sql (chars "SELECT 1 EXCEPT SELECT 2 EXCEPT SELECT 3") =
    Some (POk (Except (select_int 1) (Except (select_int 2) (select_int 3) false) false)).
Proof. vm_compute. reflexivity. Qed.

(** [ANALYZE TABLE t] analyses every table: [TABLE] is a keyword and no
    identifier. *)
Lemma analyze_table_analyzes_all : parse_sql (chars "ANALYZE TABLE t") = Some (POk (Analyze None)).
Proof. vm_compute. reflexivity. Qed.

End Parser.
