(* ===== verification/ParserTotal.v ===== *)
(** The parser terminates on every list of tokens: the number of iterations its
    loops are given and the depth of its recursion are always enough, because
    each function consumes at least one token before it calls itself again. *)
From S2P Require Import Prelude Value Sql Lexer Parser.
Import Value Sql Lexer Parser.

Module ParserTotal.

Local Abbreviation len p := (length (toks p)).

(** [m] does not run out of fuel from [p], and a result satisfies [Q]. *)
Definition ok {A} (p : pstate) (m : M A) (Q : A → pstate → Prop) : Prop :=
  match m p with Ret a p' => Q a p' | Fail _ => True | Fuel => False end.

(** Results with fewer tokens left, or with no more than before. *)
Definition shrinks {A} (p : pstate) (m : M A) : Prop := ok p m (λ _ p', len p' < len p)%nat.
Definition keeps {A} (p : pstate) (m : M A) : Prop := ok p m (λ _ p', len p' ≤ len p)%nat.

Lemma ok_impl {A} p (m : M A) (Q R : A → pstate → Prop) :
  ok p m Q → (∀ a p', Q a p' → R a p') → ok p m R.
Proof. unfold ok. destruct (m p); auto. Qed.

Lemma shrinks_keeps {A} p (m : M A) : shrinks p m → keeps p m.
Proof. intros Hm. eapply ok_impl; [exact Hm|]. cbn. lia. Qed.

Lemma ok_shrinks {A} p (m : M A) (Q : A → pstate → Prop) :
  shrinks p m → (∀ a p', (len p' < len p)%nat → Q a p') → ok p m Q.
Proof. apply ok_impl. Qed.

Lemma ok_keeps {A} p (m : M A) (Q : A → pstate → Prop) :
  keeps p m → (∀ a p', (len p' ≤ len p)%nat → Q a p') → ok p m Q.
Proof. apply ok_impl. Qed.

Lemma ok_ret {A} p (a : A) (Q : A → pstate → Prop) : Q a p → ok p (mret a) Q.
Proof. done. Qed.

Lemma ok_fail {A} p e (Q : A → pstate → Prop) : ok p (fail e) Q.
Proof. done. Qed.

Lemma ok_bind {A B} p (m : M A) (f : A → M B) R Q :
  ok p m R → (∀ a p', R a p' → ok p' (f a) Q) → ok p (m ≫= f) Q.
Proof.
  intros Hm Hf. unfold ok, mbind, M_bind in *. destruct (m p) as [a p'|e|]; [by apply Hf|done|done].
Qed.

Lemma ok_bind_shrinks {A B} p (m : M A) (f : A → M B) Q :
  shrinks p m → (∀ a p', (len p' < len p)%nat → ok p' (f a) Q) → ok p (m ≫= f) Q.
Proof. apply ok_bind. Qed.

Lemma ok_bind_keeps {A B} p (m : M A) (f : A → M B) Q :
  keeps p m → (∀ a p', (len p' ≤ len p)%nat → ok p' (f a) Q) → ok p (m ≫= f) Q.
Proof. apply ok_bind. Qed.

(** The token is read; it is consumed only when it is not [Eof]. *)
Lemma ok_current {B} p (f : Token → M B) Q :
  (∀ c, (c ≠ TkEof → ∃ t r, toks p = t :: r) → ok p (f c) Q) → ok p (current ≫= f) Q.
Proof.
  intros Hf. unfold ok, mbind, M_bind, current. destruct (toks p) as [|t r] eqn:E; cbn.
  - apply (Hf TkEof). done.
  - apply (Hf t). intros _. by exists t, r.
Qed.

Lemma ok_advance {B} p (f : () → M B) Q :
  (∃ t r, toks p = t :: r) → (∀ p', len p = S (len p') → ok p' (f ()) Q) → ok p (advance ≫= f) Q.
Proof. intros (t & r & E) Hf. unfold ok, mbind, M_bind, advance. apply Hf. cbn. by rw E. Qed.

Lemma ok_advance_end p : (∃ t r, toks p = t :: r) → shrinks p advance.
Proof. intros (t & r & E). unfold shrinks, ok, advance. cbn. rw E. cbn. lia. Qed.

Lemma same_not_eof p t :
  discriminant t ≠ discriminant TkEof → same (default TkEof (head (toks p))) t = true → ∃ t' r, toks p = t' :: r.
Proof.
  intros Ht Hs. destruct (toks p) as [|t' r]; [|by exists t', r]. unfold same in Hs. apply Z.eqb_eq in Hs. by destruct Ht.
Qed.

Lemma ok_accept {B} p t (f : bool → M B) Q :
  discriminant t ≠ discriminant TkEof →
  (∀ p', len p = S (len p') → ok p' (f true) Q) → ok p (f false) Q → ok p (accept t ≫= f) Q.
Proof.
  intros Ht H1 H2. unfold accept, ok, mbind, M_bind, current. destruct (same _ t) eqn:Hs; [|exact H2].
  apply same_not_eof in Hs as (t' & r & E); [|done]. unfold advance. apply H1. cbn. by rw E.
Qed.

Lemma ok_expect {B} p t (f : () → M B) Q :
  discriminant t ≠ discriminant TkEof → (∀ p', len p = S (len p') → ok p' (f ()) Q) → ok p (expect t ≫= f) Q.
Proof.
  intros Ht H1. unfold expect, ok, mbind, M_bind, current. destruct (same _ t) eqn:Hs; [|done].
  apply same_not_eof in Hs as (t' & r & E); [|done]. unfold advance. apply H1. cbn. by rw E.
Qed.

Lemma ok_accept_word {B} p w (f : bool → M B) Q :
  (∀ p', len p = S (len p') → ok p' (f true) Q) → ok p (f false) Q → ok p (accept_word w ≫= f) Q.
Proof.
  intros H1 H2. unfold accept_word, ok, mbind, M_bind, current. destruct (is_word w _) eqn:Hs; [|exact H2].
  apply H1. by destruct (toks p).
Qed.

(** Loops given their fuel. *)
Lemma ok_with_fuel {A} p (f : nat → M A) Q :
  (∀ n, (len p < n)%nat → ok p (f n) Q) → ok p (with_fuel f) Q.
Proof. intros Hf. unfold ok, with_fuel. apply Hf. lia. Qed.

Create HintDb ptotal.
#[export] Hint Extern 1 (_ < _)%nat => lia : ptotal.
#[export] Hint Extern 1 (_ ≤ _)%nat => lia : ptotal.
#[export] Hint Resolve ok_advance_end : ptotal.

(** What a token that has been looked at says of the tokens that are left. *)
Ltac tok c Hc :=
  destruct c; try (specialize (Hc ltac:(discriminate))); try exact I; try (apply ok_fail).

(** One step through the text of a parsing function. *)
Ltac pstep :=
  match goal with
  | |- shrinks _ _ => unfold shrinks
  | |- keeps _ _ => unfold keeps
  | |- ok _ (mret _) _ => apply ok_ret; cbn beta; lia
  | |- ok _ (fail _) _ => apply ok_fail
  | |- ok _ (accept _ ≫= _) _ => apply ok_accept; [vm_compute; discriminate|intros ? ?|]
  | |- ok _ (expect _ ≫= _) _ => apply ok_expect; [vm_compute; discriminate|intros ? ?]
  | |- ok _ (accept_word _ ≫= _) _ => apply ok_accept_word; [intros ? ?|]
  | |- ok _ (advance ≫= _) _ => apply ok_advance; [assumption|intros ? ?]
  | |- ok _ (current ≫= _) _ => apply ok_current; let c := fresh "c" in let Hc := fresh "Hc" in intros c Hc
  | |- ok _ (if ?b then _ else _) _ => destruct b
  | |- ok _ (let '(_, _) := ?x in _) _ => destruct x
  | |- ok _ (_ ≫= _) _ =>
      first [eapply ok_bind_shrinks; [solve [eauto 4 with ptotal]|intros ? ? ?]
            |eapply ok_bind_keeps; [solve [eauto 4 with ptotal]|intros ? ? ?]]
  | |- ok _ _ _ =>
      first [apply ok_shrinks; [solve [eauto 4 with ptotal]|intros ? ? ?; lia]
            |apply ok_keeps; [solve [eauto 4 with ptotal]|intros ? ? ?; lia]]
  end; cbn beta.

Ltac ptotal := repeat pstep.

(** ** Small parts *)

Lemma expect_ok p t : discriminant t ≠ discriminant TkEof → shrinks p (expect t).
Proof.
  intros Ht. unfold shrinks. unfold expect, ok, mbind, M_bind, current. destruct (same _ t) eqn:Hs; [|done].
  apply same_not_eof in Hs as (t' & r & E); [|done]. unfold advance. cbn. rw E. cbn. lia.
Qed.

Lemma accept_ok p t : discriminant t ≠ discriminant TkEof → keeps p (accept t).
Proof.
  intros Ht. unfold keeps, accept, ok, mbind, M_bind, current. destruct (same _ t) eqn:Hs; [|cbn; lia].
  unfold advance. cbn. destruct (toks p); cbn; lia.
Qed.

Lemma accept_word_ok p w : keeps p (accept_word w).
Proof.
  unfold keeps, accept_word, ok, mbind, M_bind, current. destruct (is_word w _); [|cbn; lia].
  unfold advance. cbn. destruct (toks p); cbn; lia.
Qed.

Lemma expect_ident_ok p : shrinks p expect_ident.
Proof. unfold expect_ident. pstep. pstep. tok c Hc; ptotal. Qed.

Lemma expect_string_ok p : shrinks p expect_string.
Proof. unfold expect_string. pstep. pstep. tok c Hc; ptotal. Qed.

Lemma expect_integer_ok p : shrinks p expect_integer.
Proof. unfold expect_integer. pstep. pstep. tok c Hc; ptotal. Qed.

#[export] Hint Resolve expect_ident_ok expect_string_ok expect_integer_ok accept_word_ok : ptotal.
#[export] Hint Extern 1 (shrinks _ (expect _)) => apply expect_ok; vm_compute; discriminate : ptotal.
#[export] Hint Extern 1 (keeps _ (accept _)) => apply accept_ok; vm_compute; discriminate : ptotal.

Lemma ident_ok_ok p : keeps p ident_ok.
Proof.
  pose proof (expect_ident_ok p) as Hi. unfold keeps, shrinks, ok, ident_ok in *.
  destruct (expect_ident p); [lia|cbn; lia|done].
Qed.
#[export] Hint Resolve ident_ok_ok : ptotal.

Lemma try_parse_alias_ok p : keeps p try_parse_alias.
Proof. unfold try_parse_alias. pstep. pstep. tok c Hc; ptotal. Qed.
#[export] Hint Resolve try_parse_alias_ok : ptotal.

Lemma comma_list_ok {A} (m : M A) p :
  (∀ p', (len p' ≤ len p)%nat → shrinks p' m) → shrinks p (comma_list m).
Proof.
  intros Hm. apply ok_with_fuel. intros n. revert p Hm. induction n as [|n IH]; intros p Hm Hn; [lia|].
  cbn [comma_loop]. eapply ok_bind_shrinks; [by apply Hm|]. intros x p' Hp. pstep.
  - eapply ok_bind; [apply (IH p'0); [|lia]; intros; apply Hm; lia|]. cbn beta. intros xs p2 Hp2. ptotal.
  - ptotal.
Qed.
#[export] Hint Resolve comma_list_ok : ptotal.

Lemma optional_ok {A} t (m : M A) p :
  discriminant t ≠ discriminant TkEof → (∀ p', (len p' < len p)%nat → keeps p' m) → keeps p (optional t m).
Proof.
  intros Ht Hm. unfold optional. pstep. apply ok_accept; [done| |ptotal]. intros p' Hp. cbn beta.
  eapply ok_bind_keeps; [apply Hm; lia|]. intros a p2 Hp2. ptotal.
Qed.

Section total.
Context `{Unicode} `{FloatText}.

Lemma parse_data_type_ok p : shrinks p parse_data_type.
Proof.
  unfold parse_data_type. pstep. pstep. eapply (ok_bind p _ _ (λ _ p', toks p' = toks p)); [done|].
  intros _ p1 E. rw -E in Hc. destruct (data_type_of c) as [dt|] eqn:Ed; [|ptotal].
  assert (c ≠ TkEof) as Hne by (by intros ->). specialize (Hc Hne).
  pstep. pstep. eapply ok_bind_keeps.
  { assert (keeps p' (mret ())) as Hr by (by unfold keeps, ok; cbn).
    destruct c0; try (by destruct dt); specialize (Hc0 ltac:(discriminate)).
    destruct dt; try done; (destruct (bool_decide _); [|done]); by apply shrinks_keeps, ok_advance_end. }
  intros [] p2 Hp2. rw -E. ptotal. all: try (eapply ok_bind_keeps; [ptotal|intros ? ? ?]); ptotal.
Qed.
#[local] Hint Resolve parse_data_type_ok : ptotal.

(** ** Expressions

    Below [N] tokens the expressions and the queries inside are parsed. *)

Section expressions.
Context (N : nat) (pe : M Expr) (psel : M SelectStmt).
Hypothesis (He : ∀ p, (len p < N)%nat → shrinks p pe).
Hypothesis (Hs : ∀ p, (len p < N)%nat → shrinks p psel).

Lemma parse_expr_list_ok p : (len p < N)%nat → shrinks p (parse_expr_list pe).
Proof. intros Hp. apply comma_list_ok. intros p' ?. apply He. lia. Qed.
#[local] Hint Resolve parse_expr_list_ok : ptotal.

Lemma parse_order_item_ok p : (len p < N)%nat → shrinks p (parse_order_item pe).
Proof.
  intros Hp. unfold parse_order_item. pstep. pstep. pstep; (eapply ok_bind_keeps; [ptotal|intros ? ? ?]);
    (pstep; [|ptotal]); (eapply ok_bind_keeps; [ptotal|intros ? ? ?]); ptotal.
Qed.

Lemma parse_order_by_ok p : (len p < N)%nat → shrinks p (parse_order_by pe).
Proof. intros Hp. apply comma_list_ok. intros p' ?. apply parse_order_item_ok. lia. Qed.
#[local] Hint Resolve parse_order_by_ok : ptotal.

Lemma parse_subquery_ok p : (len p ≤ N)%nat → shrinks p (parse_subquery psel).
Proof. intros Hp. unfold parse_subquery. ptotal. Qed.
#[local] Hint Resolve parse_subquery_ok : ptotal.

Lemma when_loop_ok p : (len p ≤ N)%nat → keeps p (with_fuel (when_loop pe)).
Proof.
  intros Hp. apply ok_with_fuel. intros n. revert p Hp. induction n as [|n IH]; intros p Hp Hn; [lia|].
  cbn [when_loop]. pstep; [|ptotal]. do 3 pstep. eapply ok_bind_keeps; [apply (IH p'2); lia|]. intros ? ? ?. ptotal.
Qed.
#[local] Hint Resolve when_loop_ok : ptotal.

Lemma parse_case_ok p : (len p < N)%nat → shrinks p (parse_case pe).
Proof.
  intros Hp. unfold parse_case. pstep. pstep. eapply ok_bind_keeps; [destruct c; ptotal|]. intros ? ? ?.
  pstep. eapply ok_bind_keeps; [apply optional_ok; [done|intros; apply shrinks_keeps, He; lia]|]. intros ? ? ?. ptotal.
Qed.
#[local] Hint Resolve parse_case_ok : ptotal.

Lemma parse_args_ok name p : (len p < N)%nat → keeps p (parse_args pe name).
Proof. intros Hp. unfold parse_args. pstep. pstep. destruct c; try specialize (Hc ltac:(discriminate)); ptotal. Qed.
#[local] Hint Resolve parse_args_ok : ptotal.

Lemma parse_over_ok name args p : (len p ≤ N)%nat → shrinks p (parse_over pe name args).
Proof.
  intros Hp. unfold parse_over. pstep. pstep. pstep; (eapply ok_bind_keeps; [ptotal|intros ? ? ?]);
    pstep; (eapply ok_bind_keeps; [ptotal|intros ? ? ?]); ptotal.
Qed.
#[local] Hint Resolve parse_over_ok : ptotal.

Lemma parse_ident_expr_ok name p : (len p ≤ N)%nat → keeps p (parse_ident_expr pe name).
Proof. intros Hp. unfold parse_ident_expr. pstep. pstep. destruct c; try specialize (Hc ltac:(discriminate)); ptotal. Qed.
#[local] Hint Resolve parse_ident_expr_ok : ptotal.

Lemma parse_atom_ok pu p :
  (len p ≤ N)%nat → (∀ p', (len p' < len p)%nat → shrinks p' pu) → shrinks p (parse_atom pe psel pu).
Proof.
  intros Hp Hu. unfold parse_atom. pstep. pstep. tok c Hc; ptotal; tok c Hc0; ptotal.
Qed.

Lemma cast_loop_ok e p : keeps p (with_fuel (cast_loop e)).
Proof.
  apply ok_with_fuel. intros n. revert e p. induction n as [|n IH]; intros e p Hn; [lia|].
  cbn [cast_loop]. pstep; [|ptotal]. pstep. pstep. eapply ok_impl; [apply IH; lia|]. cbn. lia.
Qed.
#[local] Hint Resolve cast_loop_ok : ptotal.

Lemma parse_primary_ok pu p :
  (len p ≤ N)%nat → (∀ p', (len p' < len p)%nat → shrinks p' pu) → shrinks p (parse_primary pe psel pu).
Proof.
  intros Hp Hu. unfold parse_primary. pstep. eapply ok_bind_shrinks; [by apply parse_atom_ok|]. intros ? ? ?. ptotal.
Qed.

Lemma parse_unary_ok p : (len p ≤ N)%nat → shrinks p (parse_unary pe psel).
Proof.
  intros Hp. apply ok_with_fuel. intros n. revert p Hp. induction n as [|n IH]; intros p Hp Hn; [lia|].
  cbn [unary_loop]. pstep. assert (∀ p', (len p' < len p)%nat → shrinks p' (unary_loop pe psel n)) as IH'
    by (intros; apply IH; lia).
  destruct c; try (apply parse_primary_ok; [lia|done]); specialize (Hc ltac:(discriminate)); ptotal.
Qed.
#[local] Hint Resolve parse_unary_ok : ptotal.

Lemma binary_loop_ok ops m e p :
  ops TkEof = None → (∀ p', (len p' < len p)%nat → shrinks p' m) → keeps p (with_fuel (binary_loop ops m e)).
Proof.
  intros Ho Hm. apply ok_with_fuel. intros n. revert e p Hm. induction n as [|n IH]; intros e p Hm Hn; [lia|].
  cbn [binary_loop]. pstep. destruct (ops c) as [op|] eqn:Eo; [|ptotal].
  assert (c ≠ TkEof) as Hne by congruence. specialize (Hc Hne). pstep. pstep.
  eapply ok_impl; [apply IH; [intros; apply Hm|]; lia|]. cbn. lia.
Qed.

Lemma operators_ok ops m p :
  ops TkEof = None → (∀ p', (len p' ≤ len p)%nat → shrinks p' m) →
  shrinks p (left ← m; with_fuel (binary_loop ops m left)).
Proof.
  intros Ho Hm. pstep. eapply ok_bind_shrinks; [by apply Hm|]. intros e p' Hp'. eapply ok_keeps; [|intros; lia].
  apply binary_loop_ok; [done|]. intros; apply Hm; lia.
Qed.

Lemma parse_multiplication_ok p : (len p ≤ N)%nat → shrinks p (parse_multiplication pe psel).
Proof. intros Hp. apply operators_ok; [done|]. intros; apply parse_unary_ok; lia. Qed.

Lemma parse_addition_ok p : (len p ≤ N)%nat → shrinks p (parse_addition pe psel).
Proof. intros Hp. apply operators_ok; [done|]. intros; apply parse_multiplication_ok; lia. Qed.
#[local] Hint Resolve parse_addition_ok : ptotal.

Lemma parse_in_ok e p : (len p ≤ N)%nat → shrinks p (parse_in pe psel e).
Proof. intros Hp. unfold parse_in. ptotal. Qed.

Lemma parse_between_ok e p : (len p ≤ N)%nat → shrinks p (parse_between pe psel e).
Proof. intros Hp. unfold parse_between. ptotal. Qed.
#[local] Hint Resolve parse_in_ok parse_between_ok : ptotal.

Lemma parse_negated_ok e p : (len p ≤ N)%nat → shrinks p (parse_negated pe psel e).
Proof. intros Hp. unfold parse_negated. pstep. pstep. tok c Hc; ptotal. Qed.

Lemma parse_is_ok e p : shrinks p (parse_is e).
Proof. unfold parse_is. ptotal. Qed.
#[local] Hint Resolve parse_negated_ok parse_is_ok : ptotal.

Lemma comparison_loop_ok e p : (len p ≤ N)%nat → keeps p (with_fuel (comparison_loop pe psel e)).
Proof.
  intros Hp. apply ok_with_fuel. intros n. revert e p Hp. induction n as [|n IH]; intros e p Hp Hn; [lia|].
  assert (∀ e p', (len p' < len p)%nat → keeps p' (comparison_loop pe psel e n)) as IH' by (intros; apply IH; lia).
  cbn [comparison_loop]. pstep. destruct (comparison_of c) eqn:Ek; [..|ptotal];
    assert (c ≠ TkEof) as Hne by (by intros ->); specialize (Hc Hne); ptotal.
Qed.
#[local] Hint Resolve comparison_loop_ok : ptotal.

Lemma parse_comparison_ok p : (len p ≤ N)%nat → shrinks p (parse_comparison pe psel).
Proof. intros Hp. unfold parse_comparison. ptotal. Qed.

Lemma parse_and_expr_ok p : (len p ≤ N)%nat → shrinks p (parse_and_expr pe psel).
Proof. intros Hp. apply operators_ok; [done|]. intros; apply parse_comparison_ok; lia. Qed.

Lemma parse_or_expr_ok p : (len p ≤ N)%nat → shrinks p (parse_or_expr pe psel).
Proof. intros Hp. apply operators_ok; [done|]. intros; apply parse_and_expr_ok; lia. Qed.
End expressions.
#[local] Hint Resolve parse_expr_list_ok parse_order_by_ok parse_subquery_ok : ptotal.

(** ** Queries: an expression may take all the tokens, a query inside may not *)

Section queries.
Context (N : nat) (pe : M Expr) (psel : M SelectStmt).
Hypothesis (He : ∀ p, (len p < S N)%nat → shrinks p pe).
Hypothesis (Hs : ∀ p, (len p < N)%nat → shrinks p psel).

Lemma optional_expect_ok {A} t (m : M A) p :
  discriminant t ≠ discriminant TkEof → (∀ p', (len p' < len p)%nat → shrinks p' m) → keeps p (optional t m).
Proof. intros Ht Hm. apply optional_ok; [done|]. intros; by apply shrinks_keeps, Hm. Qed.
#[local] Hint Extern 1 (keeps _ (optional _ _)) =>
  apply optional_expect_ok; [vm_compute; discriminate|intros; eauto 4 with ptotal] : ptotal.

Lemma parse_select_columns_ok p : (len p ≤ N)%nat → shrinks p (parse_select_columns pe).
Proof.
  intros Hp. unfold parse_select_columns. pstep. pstep; [ptotal|]. apply comma_list_ok. intros p' Hp'. ptotal.
Qed.
#[local] Hint Resolve parse_select_columns_ok : ptotal.

Lemma parse_from_clause_ok p : (len p ≤ N)%nat → shrinks p (parse_from_clause psel).
Proof.
  intros Hp. unfold parse_from_clause. pstep. pstep; [ptotal|]. pstep. pstep;
    (eapply ok_bind_keeps; [ptotal|intros ? ? ?]); ptotal.
Qed.
#[local] Hint Resolve parse_from_clause_ok : ptotal.

Lemma parse_join_type_ok p : shrinks p parse_join_type.
Proof. unfold parse_join_type. pstep. pstep. tok c Hc; ptotal. Qed.
#[local] Hint Resolve parse_join_type_ok : ptotal.

Lemma parse_join_ok p : (len p ≤ N)%nat → shrinks p (parse_join pe).
Proof.
  intros Hp. unfold parse_join. pstep. pstep. pstep. pstep.
  eapply ok_bind_keeps; [destruct c; ptotal|]. intros ? ? ?. ptotal.
Qed.
#[local] Hint Resolve parse_join_ok : ptotal.

Lemma join_loop_ok p : (len p ≤ N)%nat → keeps p (with_fuel (join_loop pe)).
Proof.
  intros Hp. apply ok_with_fuel. intros n. revert p Hp. induction n as [|n IH]; intros p Hp Hn; [lia|].
  assert (∀ p', (len p' < len p)%nat → keeps p' (join_loop pe n)) as IH' by (intros; apply IH; lia).
  cbn [join_loop]. pstep. destruct c; ptotal.
Qed.
#[local] Hint Resolve join_loop_ok : ptotal.

Lemma parse_usize_ok p : shrinks p parse_usize.
Proof. unfold parse_usize. ptotal. Qed.
#[local] Hint Resolve parse_usize_ok : ptotal.

(** [if t { BY list }]. *)
Lemma by_list_ok {A} t (m : M (list A)) p :
  discriminant t ≠ discriminant TkEof → (∀ p', (len p' < len p)%nat → shrinks p' m) →
  ∀ {B} (f : list A → M B) Q, (∀ a p', (len p' ≤ len p)%nat → ok p' (f a) Q) →
  ok p (g ← accept t; l ← (if (g : bool) then _ ← expect TkBy; m else mret []); f l) Q.
Proof.
  intros Ht Hm B f Q Hf. apply ok_accept; [done| |]; intros; cbn beta; (eapply ok_bind_keeps; [ptotal|]);
    intros ? ? ?; apply Hf; lia.
Qed.

Lemma select_body_ok p : (len p ≤ N)%nat → shrinks p (select_body pe psel).
Proof.
  intros Hp. unfold select_body. pstep. eapply ok_bind_keeps; [eauto with ptotal|]. intros dis p1 ?. pstep.
  eapply ok_bind_keeps; [eauto with ptotal|]. intros f p3 ?. cbn beta.
  eapply ok_bind_keeps; [destruct f; ptotal|]. intros [from alias] p4 ?. pstep. pstep.
  apply by_list_ok; [done|intros; eauto with ptotal|]. intros ? ? ?.
  pstep. apply by_list_ok; [done|intros; eauto with ptotal|]. intros ? ? ?. ptotal.
Qed.
End queries.

(** The depth a number of tokens needs. *)
Lemma level_ok d :
  (∀ p, (2 * len p + 1 ≤ d)%nat → shrinks p (level d).1) ∧ (∀ p, (2 * len p + 2 ≤ d)%nat → shrinks p (level d).2).
Proof.
  induction d as [|d [IHe IHs]]; [split; intros; lia|]. cbn [level]. destruct (level d) as [e s]; cbn [fst snd] in *.
  split; intros p Hp.
  - apply (parse_or_expr_ok (len p)); [| |done]; intros; [apply IHe|apply IHs]; lia.
  - apply (select_body_ok (len p)); [| |done]; intros; [apply IHe|apply IHs]; lia.
Qed.

Lemma parse_expr_ok p : shrinks p parse_expr.
Proof. exact (proj1 (level_ok _) p (le_n _)). Qed.

Lemma parse_select_body_ok p : shrinks p parse_select_body.
Proof. exact (proj2 (level_ok _) p (le_n _)). Qed.
#[local] Hint Resolve parse_expr_ok parse_select_body_ok : ptotal.

Lemma subquery_ok p : shrinks p (parse_subquery parse_select_body).
Proof. apply (parse_subquery_ok (len p)); eauto with ptotal. Qed.

Lemma select_columns_ok p : shrinks p (parse_select_columns parse_expr).
Proof. apply (parse_select_columns_ok (len p)); eauto with ptotal. Qed.

Lemma primary_ok p : shrinks p (parse_primary parse_expr parse_select_body (parse_unary parse_expr parse_select_body)).
Proof.
  apply (parse_primary_ok (len p)); eauto with ptotal. intros. apply (parse_unary_ok (len p)); eauto with ptotal.
Qed.
#[local] Hint Resolve subquery_ok select_columns_ok primary_ok : ptotal.
#[local] Hint Extern 1 (keeps _ (optional _ _)) =>
  apply optional_expect_ok; [vm_compute; discriminate|intros; eauto 4 with ptotal] : ptotal.

(** ** Statements *)

Lemma parse_returning_ok p : keeps p parse_returning.
Proof. unfold parse_returning. eauto with ptotal. Qed.

Lemma parse_assignments_ok p : shrinks p parse_assignments.
Proof. apply comma_list_ok. intros p' _. ptotal. Qed.

Lemma parse_ident_list_ok p : shrinks p parse_ident_list.
Proof. apply comma_list_ok. eauto with ptotal. Qed.
#[local] Hint Resolve parse_returning_ok parse_assignments_ok parse_ident_list_ok : ptotal.

Lemma parenthesized_idents_ok p : shrinks p parse_parenthesized_idents.
Proof. unfold parse_parenthesized_idents. ptotal. Qed.
#[local] Hint Resolve parenthesized_idents_ok : ptotal.

Lemma parse_select_ok p : shrinks p parse_select.
Proof. unfold parse_select. ptotal. Qed.

Lemma parse_cte_ok p : shrinks p parse_cte.
Proof. unfold parse_cte. ptotal. Qed.
#[local] Hint Resolve parse_cte_ok : ptotal.

Lemma parse_with_ok p : shrinks p parse_with.
Proof. unfold parse_with. ptotal. Qed.

Lemma parse_on_conflict_ok p : shrinks p parse_on_conflict.
Proof. unfold parse_on_conflict, parse_conflict_action. do 4 pstep. eapply ok_bind_keeps; ptotal. intros ? ? ?. ptotal. Qed.

Lemma parse_values_row_ok p : shrinks p parse_values_row.
Proof.
  unfold parse_values_row. pstep. pstep. eapply ok_bind_shrinks.
  { apply (parse_expr_list_ok (S (len p'))); eauto with ptotal. }
  intros ? ? ?. ptotal.
Qed.
#[local] Hint Resolve parse_on_conflict_ok parse_values_row_ok : ptotal.

Lemma parse_insert_ok p : shrinks p parse_insert.
Proof.
  unfold parse_insert. do 4 pstep. eapply ok_bind_keeps.
  { apply optional_expect_ok; [done|]. intros. ptotal. }
  intros cols p2 ?. pstep; (eapply ok_bind_keeps; [ptotal|intros ? ? ?; ptotal]).
Qed.

Lemma parse_update_ok p : shrinks p parse_update.
Proof. unfold parse_update. ptotal. Qed.

Lemma parse_delete_ok p : shrinks p parse_delete.
Proof. unfold parse_delete. ptotal. Qed.

Lemma parse_if_not_exists_ok p : keeps p parse_if_not_exists.
Proof. unfold parse_if_not_exists. ptotal. Qed.

Lemma parse_if_exists_ok p : keeps p parse_if_exists.
Proof. unfold parse_if_exists. ptotal. Qed.

Lemma word_not_eof p w c : (c ≠ TkEof → ∃ t r, toks p = t :: r) → is_word w c = true → ∃ t r, toks p = t :: r.
Proof. intros Hc Hw. apply Hc. by intros ->. Qed.

Lemma parse_fk_action_ok p : shrinks p parse_fk_action.
Proof.
  unfold parse_fk_action. pstep. pstep. destruct c; try specialize (Hc ltac:(discriminate)); try done; ptotal.
Qed.
#[local] Hint Resolve parse_fk_action_ok : ptotal.

Lemma fk_loop_ok od ou p : keeps p (with_fuel (fk_loop od ou)).
Proof.
  apply ok_with_fuel. intros n. revert od ou p.
  induction n as [|n IH]; intros od ou p Hn; [lia|].
  assert (∀ a b p', (len p' < len p)%nat → keeps p' (fk_loop a b n)) as IH' by (intros; apply IH; lia).
  cbn [fk_loop]. pstep; [|ptotal]. pstep. tok c Hc; ptotal.
Qed.

Lemma parse_fk_actions_ok p : keeps p parse_fk_actions.
Proof. apply fk_loop_ok. Qed.
#[local] Hint Resolve parse_if_not_exists_ok parse_if_exists_ok parse_fk_actions_ok : ptotal.

Lemma parse_references_ok o p : shrinks p (parse_references o).
Proof. unfold parse_references. pstep. pstep. pstep; (eapply ok_bind_keeps; [ptotal|intros ? ? ?; ptotal]). Qed.
#[local] Hint Resolve parse_references_ok : ptotal.

Lemma options_loop_ok o p : keeps p (with_fuel (options_loop o)).
Proof.
  apply ok_with_fuel. intros n. revert o p. induction n as [|n IH]; intros o p Hn; [lia|].
  assert (∀ o p', (len p' < len p)%nat → keeps p' (options_loop o n)) as IH' by (intros; apply IH; lia).
  cbn [options_loop]. pstep. destruct c; try specialize (Hc ltac:(discriminate)); cbn [is_word]; ptotal.
Qed.
#[local] Hint Resolve options_loop_ok : ptotal.

Lemma parse_column_ok p : shrinks p parse_column.
Proof.
  unfold parse_column. do 5 pstep. eapply (ok_bind _ _ _ (λ _ p', len p' < len p)%nat); [unfold ok; lia|].
  intros ? ? ?. ptotal.
Qed.

Lemma parse_constraint_ok t p : shrinks p (parse_constraint t).
Proof.
  unfold parse_constraint. pstep. pstep; (eapply ok_bind_keeps; [ptotal|intros ? ? ?]); pstep;
    tok c Hc; cbn [is_word]; ptotal.
Qed.
#[local] Hint Resolve parse_column_ok parse_constraint_ok : ptotal.

Lemma parse_table_item_ok t p : shrinks p (parse_table_item t).
Proof. unfold parse_table_item. ptotal. Qed.
#[local] Hint Resolve parse_table_item_ok : ptotal.

Lemma items_loop_ok t p : shrinks p (with_fuel (items_loop t)).
Proof.
  apply ok_with_fuel. intros n. revert t p. induction n as [|n IH]; intros t p Hn; [lia|].
  assert (∀ t p', (len p' < len p)%nat → shrinks p' (items_loop t n)) as IH' by (intros; apply IH; lia).
  cbn [items_loop]. ptotal.
Qed.
#[local] Hint Resolve items_loop_ok : ptotal.

Lemma parse_create_table_ok p : shrinks p parse_create_table.
Proof. unfold parse_create_table. ptotal. Qed.

Lemma parse_create_index_ok u p : shrinks p (parse_create_index u).
Proof. unfold parse_create_index. ptotal. Qed.
#[local] Hint Resolve parse_create_table_ok parse_create_index_ok : ptotal.

Lemma parse_create_ok p : shrinks p parse_create.
Proof. unfold parse_create. do 3 pstep. tok c Hc; ptotal. Qed.

Lemma parse_drop_ok p : shrinks p parse_drop.
Proof. unfold parse_drop. do 3 pstep. tok c Hc; ptotal. Qed.

Lemma add_loop_ok nl pk p : keeps p (with_fuel (add_loop nl pk)).
Proof.
  apply ok_with_fuel. intros n. revert nl pk p. induction n as [|n IH]; intros nl pk p Hn; [lia|].
  assert (∀ nl pk p', (len p' < len p)%nat → keeps p' (add_loop nl pk n)) as IH' by (intros; apply IH; lia).
  cbn [add_loop]. pstep. destruct c; try specialize (Hc ltac:(discriminate)); ptotal.
Qed.
#[local] Hint Resolve add_loop_ok : ptotal.

Lemma parse_alter_action_ok p : shrinks p parse_alter_action.
Proof.
  unfold parse_alter_action. pstep. pstep. tok c Hc; ptotal;
    (eapply ok_bind_shrinks; [|intros ? ? ?; ptotal]); tok c Hc0; ptotal.
Qed.
#[local] Hint Resolve parse_alter_action_ok : ptotal.

Lemma parse_alter_ok p : shrinks p parse_alter.
Proof. unfold parse_alter. ptotal. Qed.

Lemma parse_begin_ok p : shrinks p parse_begin.
Proof. unfold parse_begin. ptotal. Qed.

Lemma parse_show_ok p : shrinks p parse_show.
Proof. unfold parse_show. do 3 pstep. tok c Hc; cbn [is_word]; ptotal. Qed.

Lemma parse_truncate_ok p : shrinks p parse_truncate.
Proof. unfold parse_truncate. ptotal. Qed.

Lemma parse_kv_ok p : shrinks p parse_kv.
Proof. unfold parse_kv. do 3 pstep. tok c Hc; ptotal. Qed.

Lemma json_loop_ok d acc p : shrinks p (with_fuel (json_loop d acc)).
Proof.
  apply ok_with_fuel. intros n. revert d acc p. induction n as [|n IH]; intros d acc p Hn; [lia|].
  assert (∀ d acc p', (len p' < len p)%nat → shrinks p' (json_loop d acc n)) as IH' by (intros; apply IH; lia).
  cbn [json_loop]. pstep. tok c Hc; ptotal.
Qed.

Lemma parse_json_object_ok p : shrinks p parse_json_object.
Proof. unfold parse_json_object. pstep. pstep. tok c Hc. apply json_loop_ok. Qed.
#[local] Hint Resolve parse_json_object_ok : ptotal.

Lemma doc_updates_ok p :
  shrinks p (comma_list (_ ← accept TkDollarDot; path ← expect_ident; _ ← expect TkEq; e ← parse_expr; mret (path, e))).
Proof. apply comma_list_ok. intros. ptotal. Qed.
#[local] Hint Resolve doc_updates_ok : ptotal.

Lemma parse_doc_ok p : shrinks p parse_doc.
Proof. unfold parse_doc. do 3 pstep. tok c Hc; ptotal. Qed.

Lemma parse_backup_ok p : shrinks p parse_backup.
Proof. unfold parse_backup. ptotal. Qed.

Lemma parse_restore_ok p : shrinks p parse_restore.
Proof. unfold parse_restore. do 5 pstep; [|ptotal]. do 2 pstep. tok c Hc; ptotal. Qed.
#[local] Hint Resolve parse_select_ok parse_with_ok parse_insert_ok parse_update_ok parse_delete_ok parse_create_ok
  parse_drop_ok parse_alter_ok parse_begin_ok parse_show_ok parse_truncate_ok parse_kv_ok parse_doc_ok
  parse_backup_ok parse_restore_ok : ptotal.

Lemma parse_use_ok p : (∃ t r, toks p = t :: r) → shrinks p parse_use.
Proof. intros Hp. unfold parse_use. ptotal. Qed.

Lemma parse_analyze_ok p : (∃ t r, toks p = t :: r) → shrinks p parse_analyze.
Proof. intros Hp. unfold parse_analyze. do 4 pstep; destruct c; ptotal. Qed.
#[local] Hint Resolve parse_use_ok parse_analyze_ok : ptotal.

Lemma parse_statement_ok p : shrinks p parse_statement.
Proof.
  apply ok_with_fuel. intros n. revert p. induction n as [|n IH]; intros p Hn; [lia|].
  assert (∀ p', (len p' < len p)%nat → shrinks p' (statement_loop n)) as IH' by (intros; apply IH; lia).
  cbn [statement_loop]. pstep. tok c Hc; ptotal.
Qed.
#[local] Hint Resolve parse_statement_ok : ptotal.

Lemma maybe_parse_union_ok s p : keeps p (maybe_parse_union s).
Proof.
  apply ok_with_fuel. intros n. revert s p. induction n as [|n IH]; intros s p Hn; [lia|].
  assert (∀ s p', (len p' < len p)%nat → keeps p' (union_loop s n)) as IH' by (intros; apply IH; lia).
  cbn [union_loop]. pstep. destruct (set_op c) eqn:Ek; [|ptotal].
  assert (c ≠ TkEof) as Hne by (by intros ->). specialize (Hc Hne). ptotal.
Qed.
#[local] Hint Resolve maybe_parse_union_ok : ptotal.

Lemma parse_ok p : shrinks p parse.
Proof. unfold parse. ptotal. Qed.

Lemma run_total {A} (m : M A) input : (∀ p, shrinks p m) → ∃ r, run m input = Some r.
Proof.
  intros Hm. unfold run. destruct (tokenize_loop_total (S (length input)) input) as (r & E & _); [lia|].
  unfold tokenize. rw E. cbn [mbind option_bind]. destruct r as [ts|e]; [|by eexists].
  specialize (Hm (mkP ts false)). unfold shrinks, ok in Hm. destruct (m (mkP ts false)); [by eexists|by eexists|done].
Qed.

(** C28: [parse_sql] and [parse_expression] return on every input: the lexer and
    the parser end in a syntax tree or in an error, at the depth of recursion and
    with the numbers of iterations the tokens of the input allow. *)
Theorem parse_total input :
  (∃ r, parse_sql input = Some r) ∧ (∃ r, parse_expression input = Some r).
Proof. split; apply run_total; intros; [apply parse_ok|apply parse_expr_ok]. Qed.
End total.
End ParserTotal.
