(* ===== verification/SqlPrint.v ===== *)
(** The text [expr_to_sql] writes, read by the lexer.

    [printable] are the expressions whose text says what they are: no queries
    inside, identifiers that are not keywords, strings without quotes and
    backslashes, no floating-point numbers. [print_tokens] are the tokens the
    lexer finds in their text. *)
From S2P Require Import Prelude ByteOrder Value Civil Literals Sql Lexer.
Import Value Sql Lexer.

Module SqlPrint.

(** ** Induction on expressions and the expressions in their lists *)

Section induction.
Context (P : Expr → Prop).
Context (HLiteral : ∀ v, P (Literal v)) (HColumn : ∀ n, P (Column n)) (HQual : ∀ t c, P (QualifiedColumn t c))
  (HBin : ∀ l op r, P l → P r → P (BinaryOp l op r)) (HUn : ∀ op e, P e → P (Unary op e))
  (HFun : ∀ n args, Forall P args → P (Function n args)) (HJson : ∀ p, P (JsonPath p))
  (HIsNull : ∀ e, P e → P (IsNull e)) (HIsNotNull : ∀ e, P e → P (IsNotNull e))
  (HIn : ∀ e l, P e → Forall P l → P (InList e l))
  (HBetween : ∀ e a b, P e → P a → P b → P (Between e a b))
  (HCase : ∀ o ws els, from_option P True o → Forall (λ wt, P wt.1 ∧ P wt.2) ws → from_option P True els →
    P (Case o ws els))
  (HCast : ∀ e dt, P e → P (Cast e dt)) (HSub : ∀ q, P (Subquery q)) (HInSub : ∀ e q, P e → P (InSubquery e q))
  (HExists : ∀ q, P (ExistsQuery q)) (HWin : ∀ n a b o, P (WindowFunction n a b o)) (HDefault : P DefaultExpr)
  (HInterval : ∀ s, P (IntervalLit s)).

Fixpoint expr_induction (e : Expr) : P e :=
  let all := fix all (l : list Expr) : Forall P l :=
    match l with [] => Forall_nil_2 _ | x :: l' => Forall_cons_2 _ _ _ (expr_induction x) (all l') end in
  let pairs := fix pairs (l : list (Expr * Expr)) : Forall (λ wt, P wt.1 ∧ P wt.2) l :=
    match l with
    | [] => Forall_nil_2 _
    | (w, t) :: l' => Forall_cons_2 _ (w, t) _ (conj (expr_induction w) (expr_induction t)) (pairs l')
    end in
  let opt := λ o : option Expr,
    match o return from_option P True o with Some x => expr_induction x | None => I end in
  match e with
  | Literal v => HLiteral v
  | Column n => HColumn n
  | QualifiedColumn t c => HQual t c
  | BinaryOp l op r => HBin l op r (expr_induction l) (expr_induction r)
  | Unary op e => HUn op e (expr_induction e)
  | Function n args => HFun n args (all args)
  | JsonPath p => HJson p
  | IsNull e => HIsNull e (expr_induction e)
  | IsNotNull e => HIsNotNull e (expr_induction e)
  | InList e l => HIn e l (expr_induction e) (all l)
  | Between e a b => HBetween e a b (expr_induction e) (expr_induction a) (expr_induction b)
  | Case o ws els => HCase o ws els (opt o) (pairs ws) (opt els)
  | Cast e dt => HCast e dt (expr_induction e)
  | Subquery q => HSub q
  | InSubquery e q => HInSub e q (expr_induction e)
  | ExistsQuery q => HExists q
  | WindowFunction n a b o => HWin n a b o
  | DefaultExpr => HDefault
  | IntervalLit s => HInterval s
  end.
End induction.

(** The parts of a conjunction of tests. *)
Ltac conj H := repeat match type of H with (_ && _) = true =>
  let H' := fresh H in apply andb_true_iff in H as [H H']; conj H' end.

Section print.
Context `{Unicode} `{FloatText}.

(** ** Printable expressions *)

(** A word the lexer reads as an identifier. *)
Definition is_name (s : str) : bool :=
  match s with
  | c :: _ =>
      (is_alphabetic c || (c =? 95)) && negb (is_whitespace c) && forallb is_ident_char s &&
      bool_decide (is_keyword s = None)
  | [] => false
  end.

(** The characters of a string that stand for themselves. *)
Definition plain (s : str) : bool := forallb (λ c, negb (c =? 39) && negb (c =? 92)) s.

Definition is_byte (b : Z) : bool := (0 <=? b) && (b <? 256).

Definition printable_literal (v : LiteralValue) : bool :=
  match v with
  | Integer n => (- 2 ^ 63 <? n) && (n <? 2 ^ 63)
  | Float _ => false
  | LString s => plain s
  | LBool _ | LNull => true
  | LHexBlob bytes => forallb is_byte bytes
  end.

Definition is_number (e : Expr) : bool := match e with Literal (Integer _ | Float _) => true | _ => false end.

Definition star_only (args : list Expr) : bool :=
  match args with [Column s] => bool_decide (s = chars "*") | _ => false end.

Fixpoint printable (e : Expr) : bool :=
  match e with
  | Literal v => printable_literal v
  | Column name => is_name name
  | QualifiedColumn t c => is_name t && is_name c
  | BinaryOp l _ r => printable l && printable r
  | Unary OpNot e => printable e
  | Unary OpNeg e => printable e && negb (is_number e)
  | Function name args => is_name name && (star_only args || forallb printable args)
  | IsNull e | IsNotNull e | Cast e _ => printable e
  | InList e l => printable e && negb (bool_decide (l = [])) && forallb printable l
  | Between e lo hi => printable e && printable lo && printable hi
  | Case operand whens els =>
      match operand with Some o => printable o | None => negb (bool_decide (whens = [])) end &&
      forallb (λ wt, printable wt.1 && printable wt.2) whens &&
      match els with Some e => printable e | None => true end
  | IntervalLit s => plain s
  | JsonPath _ | Subquery _ | InSubquery _ _ | ExistsQuery _ | WindowFunction _ _ _ _ | DefaultExpr => false
  end.

(** ** Their tokens *)

Definition op_token (op : BinOp) : Token :=
  match op with
  | OpEq => TkEq | OpNeq => TkNeq | OpLt => TkLt | OpGt => TkGt | OpLte => TkLte | OpGte => TkGte
  | OpAnd => TkAnd | OpOr => TkOr | OpPlus => TkPlus | OpMinus => TkMinus | OpMul => TkStar | OpDiv => TkSlash
  | OpMod => TkPercent | OpLike => TkLike | OpIlike => TkIlike
  end.

Definition type_token (dt : DataType) : Token :=
  match dt with
  | TBool => TkBool | TInt64 => TkInt | TFloat64 => TkFloat | TText => TkText | TBytes => TkBytes | TJson => TkJson
  | TTimestamp => TkTimestamp | TDate => TkDate | TDecimal => TkNumeric | TUuid => TkUuid | TInterval => TkInterval
  end.

Definition literal_tokens (v : LiteralValue) : list Token :=
  match v with
  | Integer n => if n <? 0 then [TkMinus; TkIntLit (- n)] else [TkIntLit n]
  | Float f => [TkFloatLit f]
  | LString s => [TkStringLit s]
  | LBool b => [TkBoolLit b]
  | LNull => [TkNullLit]
  | LHexBlob bytes => [TkHexBlob bytes]
  end.

Definition comma_tokens (l : list (list Token)) : list Token :=
  match l with [] => [] | t :: l' => t ++ (l' ≫= λ x, TkComma :: x) end.

Fixpoint print_tokens (e : Expr) : list Token :=
  match e with
  | Literal v => literal_tokens v
  | Column name => if bool_decide (name = chars "*") then [TkStar] else [TkIdent name]
  | QualifiedColumn t c => [TkIdent t; TkDot; TkIdent c]
  | BinaryOp l op r => TkLParen :: print_tokens l ++ op_token op :: print_tokens r ++ [TkRParen]
  | Unary OpNot e => TkLParen :: TkNot :: print_tokens e ++ [TkRParen]
  | Unary OpNeg e => TkLParen :: TkMinus :: print_tokens e ++ [TkRParen]
  | Function name args => TkIdent name :: TkLParen :: comma_tokens (map print_tokens args) ++ [TkRParen]
  | IsNull e => TkLParen :: print_tokens e ++ [TkIs; TkNullLit; TkRParen]
  | IsNotNull e => TkLParen :: print_tokens e ++ [TkIs; TkNot; TkNullLit; TkRParen]
  | InList e l =>
      TkLParen :: print_tokens e ++ TkIn :: TkLParen :: comma_tokens (map print_tokens l) ++ [TkRParen; TkRParen]
  | Between e lo hi =>
      TkLParen :: print_tokens e ++ TkBetween :: print_tokens lo ++ TkAnd :: print_tokens hi ++ [TkRParen]
  | Case operand whens els =>
      TkCase :: match operand with Some o => print_tokens o | None => [] end ++
      concat (map (λ wt, TkWhen :: print_tokens wt.1 ++ TkThen :: print_tokens wt.2) whens) ++
      match els with Some e => TkElse :: print_tokens e | None => [] end ++ [TkEnd]
  | Cast e dt => TkCast :: TkLParen :: print_tokens e ++ [TkAs; type_token dt; TkRParen]
  | IntervalLit s => [TkInterval; TkStringLit s]
  | JsonPath _ | Subquery _ | InSubquery _ _ | ExistsQuery _ | WindowFunction _ _ _ _ | DefaultExpr => []
  end.

(** ** One token after the other *)

(** The first token of [s] and what follows it. *)
Definition lex1 (s : str) : option (Token * str) :=
  match skip_whitespace s with
  | ch :: rest =>
      if (ch =? 45) && bool_decide (head rest = Some 45) then None
      else match lex_char ch rest with POk x => Some x | PErr _ => None end
  | [] => None
  end.

Inductive Lex : str → list Token → Prop :=
  | Lex_end s : skip_whitespace s = [] → Lex s [TkEof]
  | Lex_step s t r ts : lex1 s = Some (t, r) → Lex r ts → Lex s (t :: ts).

Lemma lex1_shrinks s t r : lex1 s = Some (t, r) → (length r < length s)%nat ∧ discriminant t ≠ discriminant TkEof.
Proof.
  unfold lex1. pose proof (skip_whitespace_length s) as Hw. destruct (skip_whitespace s) as [|ch rest]; [done|].
  case_match; [done|]. destruct (lex_char ch rest) as [[t' r']|] eqn:E; [|done]. intros [= -> ->].
  apply lex_char_length in E as [? ?]. cbn [length] in Hw. split; [lia|done].
Qed.

Lemma next_token_lex1 s t r fuel : lex1 s = Some (t, r) → next_token (S fuel) s = Some (POk (t, r)).
Proof.
  unfold lex1. cbn [next_token]. destruct (skip_whitespace s) as [|ch rest]; [done|].
  case_match; [done|]. destruct (lex_char ch rest); [by intros [= ->]|done].
Qed.

Lemma Lex_tokenize s ts : Lex s ts → ∀ fuel, (length s < fuel)%nat → tokenize_loop fuel s = Some (POk ts).
Proof.
  induction 1 as [s Hs|s t r ts Hs _ IH]; intros [|fuel] Hf; try lia; cbn [tokenize_loop].
  - cbn [next_token]. rw Hs. reflexivity.
  - rw (next_token_lex1 _ _ _ _ Hs). cbn [mbind option_bind]. apply lex1_shrinks in Hs as [Hl Ht].
    rw (proj2 (Z.eqb_neq _ _) Ht). rw IH; [lia|]. done.
Qed.

Lemma Lex_blank s ts : Lex s ts → Lex (32 :: s) ts.
Proof. intros [s' Hs|s' t r ts' Hs Hr]; [by apply Lex_end|exact (Lex_step (32 :: s') t r ts' Hs Hr)]. Qed.

(** ** Words and marks *)

(** What may follow a word. *)
Definition word_end (s : str) : Prop :=
  match s with c :: _ => is_ident_char c = false ∧ c ≠ 39 | [] => True end.

(** What follows an expression. *)
Definition delimited (s : str) : Prop :=
  match s with c :: r => (c = 41 ∨ c = 44 ∨ c = 32) ∧ head r ≠ Some 39 | [] => True end.

Lemma delimited_word_end s : delimited s → word_end s.
Proof. destruct s as [|c s]; [done|]. intros [[->|[->| ->]] _]; done. Qed.

Lemma ident_span_word s rest : forallb is_ident_char s = true → word_end rest → ident_span (s ++ rest) = (s, rest).
Proof.
  intros Hs Hr. induction s as [|c s IH]; cbn [app ident_span].
  - destruct rest as [|c rest]; [done|]. cbn [ident_span]. by rw (proj1 Hr).
  - cbn [forallb] in Hs. apply andb_true_iff in Hs as [-> Hs]. by rw IH.
Qed.

(** A letter is none of the marks. *)
Lemma lex_char_letter c rest :
  is_alphabetic c || (c =? 95) = true → head rest ≠ Some 39 → lex_char c rest = read_ident (c :: rest).
Proof.
  intros Hc Hr. unfold lex_char.
  repeat match goal with
  | |- context [c =? ?n] =>
      destruct (Z.eqb_spec c n) as [->|?]; [first [by vm_compute in Hc|idtac]|]
  end; cbn [orb andb]; try (rw bool_decide_eq_false_2; [done|]); try reflexivity.
  all: destruct (is_ascii_digit c) eqn:Ed; [|by rw Hc].
  all: unfold is_alphabetic, is_ascii_alpha, is_ascii_digit, between in *; exfalso.
  all: apply andb_true_iff in Ed as [?%Z.leb_le ?%Z.leb_le].
  all: destruct (Z.ltb_spec c 128); [|lia].
  all: rw !orb_true_iff !andb_true_iff !Z.leb_le ?Z.eqb_eq in Hc; intuition lia.
Qed.

Definition wordy (s : str) : bool :=
  match s with
  | c :: _ => (is_alphabetic c || (c =? 95)) && negb (is_whitespace c) && forallb is_ident_char s
  | [] => false
  end.

Lemma lex_word s rest ts : wordy s = true → word_end rest → Lex rest ts → Lex (s ++ rest) (ident_token s :: ts).
Proof.
  intros Hs Hr Hts. refine (Lex_step _ _ _ _ _ Hts). destruct s as [|c s]; [done|]. cbn [wordy app] in *.
  apply andb_true_iff in Hs as [[Ha Hw]%andb_true_iff Hi]. apply negb_true_iff in Hw. unfold lex1. cbn [skip_whitespace].
  rw Hw. rw (_ : (c =? 45) = false); [apply Z.eqb_neq; by intros ->|]. cbn [andb]. rw lex_char_letter; [done| |].
  - cbn [forallb] in Hi. apply andb_true_iff in Hi as [_ Hi]. destruct s as [|d s]; cbn [app head].
    + destruct rest as [|d rest]; [done|]. destruct Hr as [_ Hr]. cbn. congruence.
    + intros [= ->]. by cbn [forallb] in Hi.
  - unfold read_ident. rw (ident_span_word (c :: s) rest Hi Hr). done.
Qed.

Lemma lex_name s rest ts : is_name s = true → word_end rest → Lex rest ts → Lex (s ++ rest) (TkIdent s :: ts).
Proof.
  intros Hs Hr Hts. pose proof (lex_word s rest ts) as Hl. destruct s as [|c s]; [done|]. cbn [is_name wordy] in *.
  apply andb_true_iff in Hs as [Hw Hk]. apply bool_decide_eq_true in Hk. unfold ident_token in Hl. rw Hk in Hl.
  exact (Hl Hw Hr Hts).
Qed.

(** The texts between the parts of an expression that end in a blank or leave
    what follows as it is. *)
Definition blank_pieces : list (string * Token) :=
  [(" = ", TkEq); (" <> ", TkNeq); (" < ", TkLt); (" > ", TkGt); (" <= ", TkLte); (" >= ", TkGte); (" AND ", TkAnd);
   (" OR ", TkOr); (" + ", TkPlus); (" - ", TkMinus); (" * ", TkStar); (" / ", TkSlash); (" % ", TkPercent);
   (" LIKE ", TkLike); (" ILIKE ", TkIlike); ("NOT ", TkNot); (", ", TkComma); (" BETWEEN ", TkBetween);
   (" WHEN ", TkWhen); (" THEN ", TkThen); (" ELSE ", TkElse); (" AS ", TkAs); ("INTERVAL ", TkInterval);
   (" IS ", TkIs); (" IN ", TkIn)].
Definition marks : list (string * Token) := [("(", TkLParen); (")", TkRParen); (".", TkDot); ("*", TkStar)].

Lemma blank_pieces_lex x : Forall (λ st, lex1 (chars st.1 ++ x) = Some (st.2, 32 :: x)) blank_pieces.
Proof. repeat constructor. Qed.

Lemma marks_lex x : Forall (λ st, lex1 (chars st.1 ++ x) = Some (st.2, x)) marks.
Proof. repeat constructor. Qed.

Lemma lex_piece s t x ts : (s, t) ∈ blank_pieces → Lex x ts → Lex (chars s ++ x) (t :: ts).
Proof.
  intros Hs Hx. pose proof (blank_pieces_lex x) as Hall. rw Forall_forall in Hall.
  exact (Lex_step _ _ _ _ (Hall _ Hs) (Lex_blank _ _ Hx)).
Qed.

Lemma lex_mark s t x ts : (s, t) ∈ marks → Lex x ts → Lex (chars s ++ x) (t :: ts).
Proof.
  intros Hs Hx. pose proof (marks_lex x) as Hall. rw Forall_forall in Hall. exact (Lex_step _ _ _ _ (Hall _ Hs) Hx).
Qed.

Lemma lex_op op x ts : Lex x ts → Lex (chars " " ++ binop_sql op ++ chars " " ++ x) (op_token op :: ts).
Proof.
  intros Hx. destruct op; cbn [binop_sql op_token]; [apply (lex_piece " = ")|apply (lex_piece " <> ")|apply (lex_piece " < ")
    |apply (lex_piece " > ")|apply (lex_piece " <= ")|apply (lex_piece " >= ")|apply (lex_piece " AND ")|apply (lex_piece " OR ")
    |apply (lex_piece " + ")|apply (lex_piece " - ")|apply (lex_piece " * ")|apply (lex_piece " / ")|apply (lex_piece " % ")
    |apply (lex_piece " LIKE ")|apply (lex_piece " ILIKE ")]; try done; unfold blank_pieces; set_solver.
Qed.

(** A minus that does not begin a comment. *)
Lemma lex_minus x ts : head x ≠ Some 45 → Lex x ts → Lex (45 :: x) (TkMinus :: ts).
Proof.
  intros Hx Hts. refine (Lex_step _ _ _ _ _ Hts). unfold lex1. cbn [skip_whitespace is_whitespace between].
  cbn -[head]. by rw bool_decide_eq_false_2.
Qed.

(** ** Literals *)

Lemma read_string_plain s rest : plain s = true → read_string 39 (s ++ 39 :: rest) = Some (s, rest).
Proof.
  induction s as [|c s IH]; intros Hs; [done|]. cbn [plain forallb] in Hs.
  apply andb_true_iff in Hs as [[H1 H2]%andb_true_iff Hs]. apply negb_true_iff in H1, H2. cbn [app read_string].
  rw H1 H2. rw (IH Hs). done.
Qed.

Lemma quote_plain s : plain s = true → quote_string s = 39 :: s ++ [39].
Proof.
  intros Hs. unfold quote_string. cbn [app]. f_equal. f_equal. induction s as [|c s IH]; [done|].
  cbn [plain forallb] in Hs. apply andb_true_iff in Hs as [[H1 _]%andb_true_iff Hs]. apply negb_true_iff in H1.
  cbn. rw H1. cbn. by rw (IH Hs).
Qed.

Lemma lex_string s rest ts : plain s = true → Lex rest ts → Lex (quote_string s ++ rest) (TkStringLit s :: ts).
Proof.
  intros Hs Hts. rw quote_plain; [done|]. refine (Lex_step _ _ _ _ _ Hts). cbn [app]. rw -app_assoc. cbn [app].
  unfold lex1. cbn -[read_string]. rw read_string_plain; [done|]. done.
Qed.

Lemma number_span_digits s rest :
  Forall Civil.digit s → delimited rest → number_span false (s ++ rest) = (s, rest, false).
Proof.
  intros Hs Hr. induction Hs as [|c s Hc Hs IH]; cbn [app number_span].
  - destruct rest as [|c rest]; [done|]. by destruct Hr as [[->|[->| ->]] _].
  - unfold is_ascii_digit, between. unfold Civil.digit in Hc.
    rw (proj2 (Z.leb_le 48 c)); [lia|]. rw (proj2 (Z.leb_le c 57)); [lia|]. cbn [andb]. by rw IH.
Qed.

Lemma exponent_delimited rest : delimited rest → exponent rest = None.
Proof. destruct rest as [|c rest]; [done|]. by intros [[->|[->| ->]] _]. Qed.

Lemma peek_delimited rest : delimited rest → peek_next rest ≠ Some 39.
Proof. destruct rest as [|c rest]; [done|]. by intros [_ ?]. Qed.

(** A digit is none of the marks and no letter. *)
Lemma lex1_digit c s : Civil.digit c → lex1 (c :: s) = match read_number (c :: s) with POk x => Some x | PErr _ => None end.
Proof.
  intros Hc. unfold Civil.digit in Hc. assert (c ∈ [48; 49; 50; 51; 52; 53; 54; 55; 56; 57]) as Hin.
  { rw !elem_of_cons. lia. }
  rw !elem_of_cons in Hin.
  repeat (destruct Hin as [->|Hin]; [reflexivity|]). by apply not_elem_of_nil in Hin.
Qed.

Lemma lex_number n rest ts :
  0 ≤ n < 2 ^ 63 → delimited rest → Lex rest ts → Lex (Civil.show_nat n ++ rest) (TkIntLit n :: ts).
Proof.
  intros Hn Hr Hts. refine (Lex_step _ _ _ _ _ Hts).
  destruct (Literals.show_nat_spec n) as (Hd & Hne & Hv); [lia|]. destruct (Civil.show_nat n) as [|c s] eqn:E; [done|].
  cbn [app]. rw lex1_digit; [by inversion Hd|]. change (c :: s ++ rest) with ((c :: s) ++ rest). unfold read_number.
  rw number_span_digits; [done|done|]. rw (bool_decide_eq_false_2 _ (peek_delimited rest Hr)). rw andb_false_r.
  rw (exponent_delimited rest Hr). cbn [number_token]. unfold parse_i64. rw Hv. cbn [mbind option_bind].
  by rw (proj2 (Z.ltb_lt _ _) (proj2 Hn)).
Qed.

Lemma show_nat_head n rest : 0 ≤ n → head (Civil.show_nat n ++ rest) ≠ Some 45.
Proof.
  intros Hn. destruct (Literals.show_nat_spec n Hn) as (Hd & Hne & _). destruct (Civil.show_nat n) as [|c s]; [done|].
  inversion Hd as [|? ? Hc]; subst. cbn. unfold Civil.digit in Hc. intros [= ->]. lia.
Qed.

Lemma hex_digit_spec d :
  0 ≤ d < 16 → hex_digit d ≠ 39 ∧ is_ascii_hexdigit (hex_digit d) = true ∧
  hex_char_to_nibble (to_ascii_lowercase (hex_digit d)) = d.
Proof.
  intros Hd. assert (d ∈ seqZ 0 16) as Hin by (apply elem_of_seqZ; lia). clear Hd.
  assert (Forall (λ d, hex_digit d ≠ 39 ∧ is_ascii_hexdigit (hex_digit d) = true ∧
    hex_char_to_nibble (to_ascii_lowercase (hex_digit d)) = d) (seqZ 0 16)) as Hall by (repeat constructor; discriminate).
  rw Forall_forall in Hall. exact (Hall d Hin).
Qed.

Lemma is_byte_spec b : is_byte b = true → 0 ≤ b / 16 < 16 ∧ 0 ≤ b mod 16 < 16.
Proof.
  unfold is_byte. intros [?%Z.leb_le ?%Z.ltb_lt]%andb_true_iff. split; [|apply Z.mod_pos_bound; lia].
  split; [apply Z.div_pos; lia|apply Z.div_lt_upper_bound; lia].
Qed.

Lemma read_hex_digits_bytes bs rest :
  forallb is_byte bs = true → read_hex_digits ((bs ≫= show_hex) ++ 39 :: rest) = POk (bs ≫= show_hex, rest).
Proof.
  induction bs as [|b bs IH]; intros Hb; [done|]. cbn [forallb] in Hb. apply andb_true_iff in Hb as [Hb Hbs].
  apply is_byte_spec in Hb as [Hh Hl]. apply hex_digit_spec in Hh as (Hh1 & Hh2 & _), Hl as (Hl1 & Hl2 & _).
  change ((b :: bs) ≫= show_hex) with (hex_digit (b / 16) :: hex_digit (b mod 16) :: (bs ≫= show_hex)).
  cbn [app read_hex_digits]. rw (proj2 (Z.eqb_neq _ _) Hh1) (proj2 (Z.eqb_neq _ _) Hl1) Hh2 Hl2. by rw (IH Hbs).
Qed.

Lemma hex_byte_show b : is_byte b = true → hex_byte (hex_digit (b / 16)) (hex_digit (b mod 16)) = b.
Proof.
  unfold is_byte. intros [?%Z.leb_le ?%Z.ltb_lt]%andb_true_iff.
  assert (forallb (λ b, hex_byte (hex_digit (b / 16)) (hex_digit (b mod 16)) =? b) (seqZ 0 256) = true) as Hall
    by (vm_compute; reflexivity).
  rw forallb_forall in Hall. apply Z.eqb_eq, Hall, list_elem_of_In, elem_of_seqZ. lia.
Qed.

Lemma decode_hex_bytes bs : forallb is_byte bs = true → decode_hex (bs ≫= show_hex) = bs.
Proof.
  induction bs as [|b bs IH]; intros Hb; [done|]. cbn [forallb] in Hb. apply andb_true_iff in Hb as [Hb Hbs].
  change ((b :: bs) ≫= show_hex) with (hex_digit (b / 16) :: hex_digit (b mod 16) :: (bs ≫= show_hex)).
  cbn [decode_hex]. by rw (IH Hbs) (hex_byte_show b Hb).
Qed.

Lemma show_hex_even bs : zlen (bs ≫= show_hex) mod 2 = 0.
Proof.
  assert (zlen (bs ≫= show_hex) = zlen bs * 2) as ->; [|by rw Z.mod_mul]. unfold zlen.
  induction bs as [|b bs IH]; [done|].
  change ((b :: bs) ≫= show_hex) with (hex_digit (b / 16) :: hex_digit (b mod 16) :: (bs ≫= show_hex)).
  cbn [length]. lia.
Qed.

Lemma lex_blob bs rest ts :
  forallb is_byte bs = true → Lex rest ts → Lex (chars "X'" ++ (bs ≫= show_hex) ++ 39 :: rest) (TkHexBlob bs :: ts).
Proof.
  intros Hb Hts. refine (Lex_step _ _ _ _ _ Hts). 
  assert (∀ x, lex1 (chars "X'" ++ x) = match read_hex_blob (88 :: 39 :: x) with POk y => Some y | PErr _ => None end)
    as -> by reflexivity.
  unfold read_hex_blob. cbn [tail]. rw Z.eqb_refl. rw read_hex_digits_bytes; [done|]. rw show_hex_even.
  cbn [Z.eqb negb]. by rw decode_hex_bytes.
Qed.

(** ** Expressions *)

Definition lexes (e : Expr) : Prop :=
  ∀ rest ts, delimited rest → Lex rest ts → Lex (write_expr e ++ rest) (print_tokens e ++ ts).

Lemma lex_literal v rest ts :
  printable_literal v = true → delimited rest → Lex rest ts → Lex (write_literal v ++ rest) (literal_tokens v ++ ts).
Proof.
  intros Hv Hr Hts. pose proof (delimited_word_end _ Hr) as Hw. destruct v as [n|f|s|b| |bs]; cbn [printable_literal] in Hv.
  - apply andb_true_iff in Hv as [?%Z.ltb_lt ?%Z.ltb_lt]. cbn [write_literal literal_tokens]. unfold show_int.
    destruct (Z.ltb_spec n 0); cbn [app]; [|apply lex_number; [lia|done|done]].
    apply lex_minus; [apply show_nat_head; lia|]. apply lex_number; [lia|done|done].
  - done.
  - by apply lex_string.
  - destruct b; [exact (lex_word (chars "TRUE") rest ts eq_refl Hw Hts)|exact (lex_word (chars "FALSE") rest ts eq_refl Hw Hts)].
  - exact (lex_word (chars "NULL") rest ts eq_refl Hw Hts).
  - cbn [write_literal literal_tokens]. rw -!app_assoc. cbn [app]. by apply lex_blob.
Qed.

Lemma lex_list es rest ts :
  Forall lexes es → head rest ≠ Some 39 → Lex rest ts →
  Lex (comma_separated (map write_expr es) ++ chars ")" ++ rest) (comma_tokens (map print_tokens es) ++ TkRParen :: ts).
Proof.
  intros Hes Hr Hts.
  assert (delimited (chars ")" ++ rest)) as Hd by (split; [by left|done]).
  assert (Lex (chars ")" ++ rest) (TkRParen :: ts)) as Hp by (by apply (lex_mark ")"); [unfold marks; set_solver|]).
  destruct Hes as [|e es He Hes]; [exact Hp|]. cbn [map comma_separated comma_tokens]. rw -!app_assoc.
  assert (delimited ((map write_expr es ≫= λ x, chars ", " ++ x) ++ chars ")" ++ rest) ∧
    Lex ((map write_expr es ≫= λ x, chars ", " ++ x) ++ chars ")" ++ rest)
      ((map print_tokens es ≫= λ x, TkComma :: x) ++ TkRParen :: ts)) as [H1 H2]; [|by apply He].
  induction Hes as [|e' es He' Hes [IH1 IH2]]; [done|]. cbn [map]. rw !bind_cons -!app_assoc.
  split; [split; [by right; left|done]|]. cbn [app].
  apply (lex_piece ", "); [unfold blank_pieces; set_solver|]. by apply He'.
Qed.

Lemma write_expr_head e rest :
  printable e = true → is_number e = false → head (write_expr e ++ rest) ≠ Some 45.
Proof.
  assert (∀ s r, is_name s = true → head (s ++ r) ≠ Some 45) as Hname.
  { intros [|c s] r Hs; [done|]. intros [= ->]. done. }
  intros Hp Hn. destruct e; try done; cbn [write_expr printable] in *; rw -?app_assoc; try done.
  - destruct v; try done. cbn. by destruct b.
  - by apply Hname.
  - apply andb_true_iff in Hp as [? ?]. by apply Hname.
  - by destruct op.
  - apply andb_true_iff in Hp as [? ?]. by apply Hname.
Qed.

Lemma delimited_op op x : delimited (chars " " ++ binop_sql op ++ chars " " ++ x).
Proof. split; [by right; right|]. by destruct op. Qed.

Lemma delimited_close x : head x ≠ Some 39 → delimited (chars ")" ++ x).
Proof. intros Hx. split; [by left|exact Hx]. Qed.

Lemma delimited_head x : delimited x → head x ≠ Some 39.
Proof. destruct x as [|c x]; [done|]. intros [[->|[->| ->]] _]; done. Qed.

(** The pieces between the parts of an expression. *)
Ltac piece s := apply (lex_piece s); [unfold blank_pieces; set_solver|].
Ltac mark s := apply (lex_mark s); [unfold marks; set_solver|].
Ltac delim := first [done | apply delimited_close; first [by apply delimited_head|done] | apply delimited_op
  | split; [by right; right|done]].

Lemma lex_close rest ts : Lex rest ts → Lex (chars ")" ++ rest) (TkRParen :: ts).
Proof. intros Hts. by mark ")". Qed.

Lemma lex_whens ws rest ts :
  Forall (λ wt, lexes wt.1 ∧ lexes wt.2) ws → delimited rest → Lex rest ts →
  let text := concat (map (λ wt, chars " WHEN " ++ write_expr wt.1 ++ chars " THEN " ++ write_expr wt.2) ws) in
  delimited (text ++ rest) ∧
  Lex (text ++ rest) (concat (map (λ wt, TkWhen :: print_tokens wt.1 ++ TkThen :: print_tokens wt.2) ws) ++ ts).
Proof.
  intros Hws Hr Hts text. unfold text. clear text. induction Hws as [|[w t] ws [Hw Ht] Hws [IH1 IH2]]; [done|].
  cbn [map concat fst snd]. rw -!app_assoc. cbn [app]. rw -!app_assoc. cbn [app]. split; [delim|].
  piece " WHEN ". apply Hw; [delim|]. piece " THEN ". by apply Ht.
Qed.

Lemma lex_type dt x ts : Lex x ts → Lex (chars (DataType_to_string dt) ++ chars ")" ++ x) (type_token dt :: TkRParen :: ts).
Proof.
  intros Hx. assert (ident_token (chars (DataType_to_string dt)) = type_token dt) as <- by (by destruct dt).
  apply lex_word; [by destruct dt|done|]. by apply lex_close.
Qed.

Lemma lex_interval s rest ts :
  plain s = true → Lex rest ts → Lex ((chars "INTERVAL " ++ quote_string s) ++ rest) (TkInterval :: TkStringLit s :: ts).
Proof. intros Hs Hts. rw -app_assoc. piece "INTERVAL ". by apply lex_string. Qed.

Lemma lex_case o ws els rest ts :
  from_option lexes True o → Forall (λ wt, lexes wt.1 ∧ lexes wt.2) ws → from_option lexes True els →
  delimited rest → Lex rest ts → Lex (write_expr (Case o ws els) ++ rest) (print_tokens (Case o ws els) ++ ts).
Proof.
  intros Ho Hws Hels Hr Hts. cbn [write_expr print_tokens]. rw -!app_assoc. cbn [app]. rw -!app_assoc. cbn [app].
  pose proof (delimited_word_end _ Hr) as Hw.
  set (e1 := match els with Some e => chars " ELSE " ++ write_expr e | None => [] end).
  assert (delimited (e1 ++ chars " END" ++ rest) ∧
    Lex (e1 ++ chars " END" ++ rest) (match els with Some e => TkElse :: print_tokens e | None => [] end ++ TkEnd :: ts))
    as [H1 H2].
  { assert (Lex (chars " END" ++ rest) (TkEnd :: ts)) as Hend
      by exact (Lex_blank _ _ (lex_word (chars "END") rest ts eq_refl Hw Hts)).
    unfold e1. destruct els as [e|]; [|split; [delim|done]]. rw -!app_assoc. cbn [app]. split; [delim|].
    piece " ELSE ". apply Hels; [delim|done]. }
  destruct (lex_whens ws _ _ Hws H1 H2) as [H3 H4].
  destruct o as [o|].
  - rw -!app_assoc. refine (lex_word (chars "CASE") _ _ eq_refl _ _); [done|]. apply Lex_blank. by apply Ho.
  - refine (lex_word (chars "CASE") _ _ eq_refl _ H4). by apply delimited_word_end.
Qed.

Lemma printable_all es : Forall (λ e, printable e = true → lexes e) es → forallb printable es = true → Forall lexes es.
Proof.
  intros Hes Hp. rw forallb_forall in Hp. rw Forall_forall in Hes. rw Forall_forall. intros e He.
  apply Hes; [done|]. by apply Hp, list_elem_of_In.
Qed.

Lemma lex_function name args rest ts :
  is_name name = true → star_only args = true ∨ Forall lexes args → delimited rest → Lex rest ts →
  Lex (write_expr (Function name args) ++ rest) (print_tokens (Function name args) ++ ts).
Proof.
  intros Hn Hargs Hr Hts. cbn [write_expr print_tokens]. rw -!app_assoc. cbn [app]. rw -!app_assoc. cbn [app].
  apply lex_name; [done|done|]. mark "(". destruct Hargs as [Hs|Hargs].
  - destruct args as [|[] [|]]; try done. cbn [star_only] in Hs. apply bool_decide_eq_true in Hs as ->.
    cbn [map write_expr comma_separated print_tokens]. rw app_nil_r. mark "*". by apply lex_close.
  - apply lex_list; [done| |done]. by apply delimited_head.
Qed.

Lemma name_not_star name : is_name name = true → bool_decide (name = chars "*") = false.
Proof. intros Hn. apply bool_decide_eq_false_2. by intros ->. Qed.

Ltac flat := repeat progress (cbn [write_expr print_tokens]; rw -?app_assoc; cbn [app]).

Lemma lex_expr e : printable e = true → lexes e.
Proof.
  induction e as [v|n|t c|l op r IHl IHr|op e IH|n args IH|p|e IH|e IH|e l IH IHl|e a b IHe IHa IHb|o ws els IHo IHw IHe
    |e dt IH|q|e q IH|q|n a b o| |s] using expr_induction; intros Hp rest ts Hr Hts; try done; cbn [printable] in Hp.
  - by apply lex_literal.
  - cbn [print_tokens]. rw name_not_star; [done|]. apply lex_name; [done|by apply delimited_word_end|done].
  - conj Hp. flat. apply lex_name; [done|done|]. mark ".". apply lex_name; [done|by apply delimited_word_end|done].
  - conj Hp. flat. mark "(". apply IHl; [done|delim|]. apply lex_op. apply IHr; [done|delim|]. by apply lex_close.
  - destruct op; flat.
    + mark "(". piece "NOT ". apply IH; [done|delim|]. by apply lex_close.
    + conj Hp. mark "(". apply lex_minus; [apply write_expr_head; [done|by apply negb_true_iff]|].
      apply IH; [done|delim|]. by apply lex_close.
  - apply andb_true_iff in Hp as [Hn Hp]. apply lex_function; [done| |done|done].
    apply orb_true_iff in Hp as [?|?]; [by left|right; by apply printable_all].
  - flat. mark "(". apply IH; [done|delim|]. piece " IS ". apply (lex_word (chars "NULL")); [done|done|]. by apply lex_close.
  - flat. mark "(". apply IH; [done|delim|]. piece " IS ". piece "NOT ". apply (lex_word (chars "NULL")); [done|done|].
    by apply lex_close.
  - conj Hp. flat. mark "(". apply IH; [done|delim|]. piece " IN ". mark "(".
    apply (lex_list l (chars ")" ++ rest)); [by apply printable_all|done|]. by apply lex_close.
  - conj Hp. flat. mark "(". apply IHe; [done|delim|]. piece " BETWEEN ". apply IHa; [done|delim|]. piece " AND ".
    apply IHb; [done|delim|]. by apply lex_close.
  - apply andb_true_iff in Hp as [[Ho Hw]%andb_true_iff He]. apply lex_case; [| | |done|done].
    + destruct o; [by apply IHo|done].
    + rw forallb_forall in Hw. rw Forall_forall in IHw. apply Forall_forall. intros wt Hin.
      pose proof (Hw wt (proj1 (list_elem_of_In _ _) Hin)) as [? ?]%andb_true_iff. destruct (IHw wt Hin). auto.
    + destruct els; [by apply IHe|done].
  - flat. refine (lex_word (chars "CAST") _ _ eq_refl _ _); [done|]. mark "(". apply IH; [done|delim|]. piece " AS ".
    by apply lex_type.
  - by apply lex_interval.
Qed.

(** The tokens of the text of a printable expression. *)
Lemma tokenize_expr e : printable e = true → tokenize (expr_to_sql e) = Some (POk (print_tokens e ++ [TkEof])).
Proof.
  intros Hp. apply Lex_tokenize; [|lia]. unfold expr_to_sql. rw -{1}(app_nil_r (write_expr e)).
  apply lex_expr; [done|done|]. by apply Lex_end.
Qed.
End print.
End SqlPrint.
