(* ===== verification/SqlRoundTrip.v ===== *)
(** An expression that [expr_to_sql] has written is read back by
    [parse_expression] as it was. *)
From S2P Require Import Prelude ByteOrder Value Sql Lexer Parser SqlPrint.
Import Value Sql Lexer Parser SqlPrint.

Module SqlRoundTrip.

(** From the tokens [ts], [m] reads [a] and leaves [r]. *)
Definition gives {A} (ts : list Token) (m : M A) (a : A) (r : list Token) : Prop :=
  ∀ b, ∃ b', m (mkP ts b) = Ret a (mkP r b').

Local Abbreviation hd ts := (default TkEof (head ts)).

Lemma gives_ret {A} ts (a : A) : gives ts (mret a) a ts.
Proof. intros b. by exists b. Qed.

Lemma gives_bind {A B} ts (m : M A) (f : A → M B) a r c r' :
  gives ts m a r → gives r (f a) c r' → gives ts (m ≫= f) c r'.
Proof.
  intros Hm Hf b. destruct (Hm b) as [b1 E1]. destruct (Hf b1) as [b2 E2]. exists b2.
  unfold mbind, M_bind. by rw E1.
Qed.

Lemma gives_current {B} ts (f : Token → M B) c r : gives ts (f (hd ts)) c r → gives ts (current ≫= f) c r.
Proof. intros Hf b. exact (Hf b). Qed.

Lemma gives_advance {B} t ts (f : () → M B) c r : gives ts (f ()) c r → gives (t :: ts) (advance ≫= f) c r.
Proof. intros Hf b. exact (Hf b). Qed.

Lemma gives_accept {B} t ts (f : bool → M B) c r : gives ts (f true) c r → gives (t :: ts) (accept t ≫= f) c r.
Proof. intros Hf. unfold accept, gives, mbind, M_bind, current. cbn. unfold same. rw Z.eqb_refl. exact Hf. Qed.

Lemma gives_reject {B} t ts (f : bool → M B) c r :
  same (hd ts) t = false → gives ts (f false) c r → gives ts (accept t ≫= f) c r.
Proof. intros Hs Hf. unfold accept, gives, mbind, M_bind, current. cbn. rw Hs. exact Hf. Qed.

Lemma gives_expect {B} t ts (f : () → M B) c r : gives ts (f ()) c r → gives (t :: ts) (expect t ≫= f) c r.
Proof. intros Hf. unfold expect, gives, mbind, M_bind, current. cbn. unfold same. rw Z.eqb_refl. exact Hf. Qed.

Lemma gives_with_fuel {A} ts (f : nat → M A) a r : gives ts (f (S (length ts))) a r → gives ts (with_fuel f) a r.
Proof. intros Hf b. exact (Hf b). Qed.

(** Tokens that end an expression, and tokens that may follow an operand. *)
Definition stop (t : Token) : bool :=
  match t with TkRParen | TkComma | TkAs | TkWhen | TkThen | TkElse | TkEnd | TkEof => true | _ => false end.
Definition follow (t : Token) : bool :=
  match t with TkDoubleColon | TkOver | TkLParen | TkDot => false | _ => true end.

Lemma stop_follow t : stop t = true → follow t = true.
Proof. by destruct t. Qed.

Section operators.
Context `{Unicode} `{FloatText} (pe : M Expr) (psel : M SelectStmt).

(** ** Operators of one precedence *)

Lemma gives_binary_stop ops m e r n : ops (hd r) = None → gives r (binary_loop ops m e (S n)) e r.
Proof. intros Ho. cbn [binary_loop]. apply gives_current. rw Ho. apply gives_ret. Qed.

Lemma gives_lift ops m e ts r :
  gives ts m e r → ops (hd r) = None → gives ts (left ← m; with_fuel (binary_loop ops m left)) e r.
Proof. intros Hm Ho. eapply gives_bind; [exact Hm|]. by apply gives_with_fuel, gives_binary_stop. Qed.

Lemma gives_operator ops m l t op e ts1 ts2 r :
  gives ts1 m l (t :: ts2) → ops t = Some op → gives ts2 m e r → ops (hd r) = None →
  gives ts1 (left ← m; with_fuel (binary_loop ops m left)) (BinaryOp l op e) r.
Proof.
  intros Hl Ht He Ho. eapply gives_bind; [exact Hl|]. apply gives_with_fuel. cbn [binary_loop length].
  apply gives_current. cbn. rw Ht. apply gives_advance. eapply gives_bind; [exact He|]. by apply gives_binary_stop.
Qed.

(** ** The comparisons *)

Lemma gives_comparison_stop e r n : stop (hd r) = true ∨ and_op (hd r) ≠ None ∨ or_op (hd r) ≠ None →
  gives r (comparison_loop pe psel e (S n)) e r.
Proof.
  intros Ho. cbn [comparison_loop]. apply gives_current. rw (_ : comparison_of (hd r) = CmpNone); [|apply gives_ret].
  destruct (hd r); destruct Ho as [?|[?|?]]; done.
Qed.

Lemma gives_comparison_lift ts e r :
  gives ts (parse_addition pe psel) e r → stop (hd r) = true ∨ and_op (hd r) ≠ None ∨ or_op (hd r) ≠ None →
  gives ts (parse_comparison pe psel) e r.
Proof. intros He Hr. eapply gives_bind; [exact He|]. by apply gives_with_fuel, gives_comparison_stop. Qed.

(** An operand, a token and the rest of the comparison it begins. *)
Lemma gives_comparison ts l t ts2 e r :
  gives ts (parse_addition pe psel) l (t :: ts2) →
  (∀ n, gives (t :: ts2) (comparison_loop pe psel l (S (S n))) e r) →
  gives ts (parse_comparison pe psel) e r.
Proof. intros Hl He. eapply gives_bind; [exact Hl|]. apply gives_with_fuel. apply He. Qed.

(** ** All levels *)

Lemma gives_multiplication ts e r :
  gives ts (parse_unary pe psel) e r → mul_op (hd r) = None → gives ts (parse_multiplication pe psel) e r.
Proof. apply gives_lift. Qed.

Lemma gives_addition ts e r :
  gives ts (parse_unary pe psel) e r → mul_op (hd r) = None → add_op (hd r) = None →
  gives ts (parse_addition pe psel) e r.
Proof. intros He Hm Ha. apply gives_lift; [by apply gives_multiplication|done]. Qed.

Lemma stop_ops t : stop t = true → mul_op t = None ∧ add_op t = None ∧ and_op t = None ∧ or_op t = None.
Proof. by destruct t. Qed.

Lemma comparison_expr ts e r :
  gives ts (parse_comparison pe psel) e r → stop (hd r) = true → gives ts (parse_or_expr pe psel) e r.
Proof. intros He (_ & _ & ? & ?)%stop_ops. apply gives_lift; [|done]. by apply gives_lift. Qed.

Lemma addition_expr ts e r :
  gives ts (parse_addition pe psel) e r → stop (hd r) = true → gives ts (parse_or_expr pe psel) e r.
Proof. intros He Hr. apply comparison_expr; [|done]. apply gives_comparison_lift; [done|by left]. Qed.

Lemma unary_expr ts e r :
  gives ts (parse_unary pe psel) e r → stop (hd r) = true → gives ts (parse_or_expr pe psel) e r.
Proof. intros He Hr. pose proof (stop_ops _ Hr) as (? & ? & _). apply addition_expr; [by apply gives_addition|done]. Qed.

(** A binary operator between two operands. *)
Lemma binary_expr l op e ts1 ts2 r :
  gives ts1 (parse_unary pe psel) l (op_token op :: ts2) → gives ts2 (parse_unary pe psel) e r → stop (hd r) = true →
  gives ts1 (parse_or_expr pe psel) (BinaryOp l op e) r.
Proof.
  intros Hl He Hr. pose proof (stop_ops _ Hr) as (? & ? & Hand & Hor).
  assert (gives ts2 (parse_addition pe psel) e r) as Hadd by (by apply gives_addition).
  assert (gives ts2 (parse_comparison pe psel) e r) as Hcmp by (apply gives_comparison_lift; [done|by left]).
  assert (mul_op (op_token op) = None → add_op (op_token op) = None → cmp_op (op_token op) = Some op →
    gives ts1 (parse_or_expr pe psel) (BinaryOp l op e) r) as Hc.
  { intros Hm Ha Hc. apply comparison_expr; [|done]. eapply gives_comparison; [by apply gives_addition|].
    intros n. cbn [comparison_loop]. apply gives_current. cbn [head default].
    rw (_ : comparison_of (op_token op) = CmpOp op); [by destruct op|]. apply gives_advance.
    eapply gives_bind; [exact Hadd|]. apply gives_comparison_stop. by left. }
  destruct op; try (by apply Hc); cbn [op_token] in Hl.
  - apply gives_lift; [|done]. apply (gives_operator _ _ _ TkAnd _ _ _ ts2); [|done|done|done].
    apply gives_comparison_lift; [by apply gives_addition|by right; left].
  - apply (gives_operator _ _ _ TkOr _ _ _ ts2); [|done|by apply gives_lift|done]. apply gives_lift; [|done].
    apply gives_comparison_lift; [by apply gives_addition|by right; right].
  - apply addition_expr; [|done]. by apply (gives_operator _ _ _ TkPlus _ _ _ ts2); try apply gives_multiplication.
  - apply addition_expr; [|done]. by apply (gives_operator _ _ _ TkMinus _ _ _ ts2); try apply gives_multiplication.
  - apply addition_expr; [|done]. apply gives_lift; [|done]. by apply (gives_operator _ _ _ TkStar _ _ _ ts2).
  - apply addition_expr; [|done]. apply gives_lift; [|done]. by apply (gives_operator _ _ _ TkSlash _ _ _ ts2).
  - apply addition_expr; [|done]. apply gives_lift; [|done]. by apply (gives_operator _ _ _ TkPercent _ _ _ ts2).
Qed.

(** ** Operands *)

Lemma gives_primary ts pu e r :
  gives ts (parse_atom pe psel pu) e r → follow (hd r) = true → gives ts (parse_primary pe psel pu) e r.
Proof.
  intros He Hr. eapply gives_bind; [exact He|]. apply gives_with_fuel. cbn [cast_loop]. apply gives_reject.
  - by destruct (hd r).
  - apply gives_ret.
Qed.

Lemma gives_atom ts n e r :
  gives ts (parse_atom pe psel (unary_loop pe psel n)) e r → hd ts ≠ TkNot → hd ts ≠ TkMinus → follow (hd r) = true →
  gives ts (unary_loop pe psel (S n)) e r.
Proof.
  intros He H1 H2 Hr. cbn [unary_loop]. apply gives_current. destruct (hd ts); try done; by apply gives_primary.
Qed.

(** An expression between parentheses that is no query. *)
Lemma gives_parens ts n e r :
  gives ts pe e (TkRParen :: r) → hd ts ≠ TkSelect → follow (hd r) = true →
  gives (TkLParen :: ts) (unary_loop pe psel (S n)) e r.
Proof.
  intros He Hs Hr. apply gives_atom; [|done|done|done]. unfold parse_atom. apply gives_current, gives_advance, gives_current.
  destruct (hd ts); try done; (eapply gives_bind; [exact He|]); apply gives_expect, gives_ret.
Qed.

Lemma gives_is_null ts l no r :
  gives ts (parse_addition pe psel) l (TkIs :: (if no : bool then [TkNot] else []) ++ TkNullLit :: r) → stop (hd r) = true →
  gives ts (parse_or_expr pe psel) (if no then IsNotNull l else IsNull l) r.
Proof.
  intros Hl Hr. apply comparison_expr; [|done]. eapply gives_comparison; [exact Hl|]. intros n.
  cbn [comparison_loop]. apply gives_current, gives_advance.
  apply (gives_bind _ _ _ (if no then IsNotNull l else IsNull l) r).
  { unfold parse_is. destruct no; [apply gives_accept|apply gives_reject; [done|]]; apply gives_expect, gives_ret. }
  apply gives_comparison_stop. by left.
Qed.

Lemma gives_in ts l ts2 items r :
  gives ts (parse_addition pe psel) l (TkIn :: TkLParen :: ts2) → hd ts2 ≠ TkSelect →
  gives ts2 (parse_expr_list pe) items (TkRParen :: r) → stop (hd r) = true →
  gives ts (parse_or_expr pe psel) (InList l items) r.
Proof.
  intros Hl Hs Hi Hr. apply comparison_expr; [|done]. eapply gives_comparison; [exact Hl|]. intros n.
  cbn [comparison_loop]. apply gives_current, gives_advance. eapply gives_bind.
  { unfold parse_in. apply gives_expect, gives_reject; [by destruct (hd ts2)|].
    eapply gives_bind; [exact Hi|]. apply gives_expect, gives_ret. }
  apply gives_comparison_stop. by left.
Qed.

Lemma gives_between ts l ts2 lo ts3 hi r :
  gives ts (parse_addition pe psel) l (TkBetween :: ts2) → gives ts2 (parse_addition pe psel) lo (TkAnd :: ts3) →
  gives ts3 (parse_addition pe psel) hi r → stop (hd r) = true →
  gives ts (parse_or_expr pe psel) (Between l lo hi) r.
Proof.
  intros Hl Hlo Hhi Hr. apply comparison_expr; [|done]. eapply gives_comparison; [exact Hl|]. intros n.
  cbn [comparison_loop]. apply gives_current, gives_advance. eapply gives_bind.
  { unfold parse_between. eapply gives_bind; [exact Hlo|]. apply gives_expect.
    eapply gives_bind; [exact Hhi|]. apply gives_ret. }
  apply gives_comparison_stop. by left.
Qed.

Lemma gives_type dt r : gives (type_token dt :: TkRParen :: r) parse_data_type (dt, None) (TkRParen :: r).
Proof. intros b. by exists (same (type_token dt) TkSerial); destruct dt. Qed.

Lemma gives_cast ts n e dt r :
  gives ts pe e (TkAs :: type_token dt :: TkRParen :: r) → follow (hd r) = true →
  gives (TkCast :: TkLParen :: ts) (unary_loop pe psel (S n)) (Cast e dt) r.
Proof.
  intros He Hr. apply gives_atom; [|done|done|done]. unfold parse_atom. apply gives_current, gives_advance, gives_expect.
  eapply gives_bind; [exact He|]. apply gives_expect. eapply gives_bind; [apply gives_type|]. apply gives_expect, gives_ret.
Qed.
End operators.

(** ** Expressions *)

Section expressions.
Context `{Unicode} `{FloatText}.

(** [e] is read as an operand, and as a whole expression. *)
Definition reads (e : Expr) : Prop := ∀ d n rest,
  (length (print_tokens e ++ rest) < n)%nat → (2 * length (print_tokens e ++ rest) ≤ d)%nat → follow (hd rest) = true →
  gives (print_tokens e ++ rest) (unary_loop (level d).1 (level d).2 n) e rest.
Definition reads_expr (e : Expr) : Prop := ∀ d rest,
  (2 * length (print_tokens e ++ rest) < d)%nat → stop (hd rest) = true →
  gives (print_tokens e ++ rest) (level d).1 e rest.

Lemma reads_unary e d rest :
  reads e → (2 * length (print_tokens e ++ rest) ≤ d)%nat → follow (hd rest) = true →
  gives (print_tokens e ++ rest) (parse_unary (level d).1 (level d).2) e rest.
Proof. intros He Hd Hr. apply gives_with_fuel. apply He; [lia|done|done]. Qed.

Lemma level_succ d : (level (S d)).1 = parse_or_expr (level d).1 (level d).2.
Proof. cbn [level]. by destruct (level d). Qed.

Lemma reads_reads_expr e : reads e → reads_expr e.
Proof.
  intros He [|d] rest Hd Hr; [lia|]. rw level_succ. apply unary_expr; [|done].
  apply reads_unary; [done|lia|by apply stop_follow].
Qed.

Lemma reads_addition e d rest :
  reads e → (2 * length (print_tokens e ++ rest) ≤ d)%nat → follow (hd rest) = true →
  mul_op (hd rest) = None → add_op (hd rest) = None →
  gives (print_tokens e ++ rest) (parse_addition (level d).1 (level d).2) e rest.
Proof. intros. apply gives_addition; [by apply reads_unary|done|done]. Qed.

(** The first token of an expression. *)
Definition starter (t : Token) : bool :=
  match t with
  | TkIntLit _ | TkMinus | TkStringLit _ | TkBoolLit _ | TkNullLit | TkHexBlob _ | TkInterval | TkCase | TkCast
  | TkIdent _ | TkLParen => true
  | _ => false
  end.

Lemma printable_starter e rest : printable e = true → starter (hd (print_tokens e ++ rest)) = true.
Proof.
  destruct e as [v|n|t c|l op r|op e|n args|p|e|e|e l|e a b|o ws els|e dt|q|e q|q|n a b o| |s]; try done; cbn [printable].
  - destruct v as [n| | | | |]; try done. cbn. by destruct (n <? 0).
  - intros Hn. cbn [print_tokens]. by rw name_not_star.
  - by destruct op.
Qed.

Create Rewrite HintDb sizes.
#[local] Hint Rewrite @length_app @length_cons : sizes.
Ltac size := autorewrite with sizes in *; cbn [length] in *; lia.

Create Rewrite HintDb flats.
#[local] Hint Rewrite <- @app_assoc : flats.
Ltac flat := repeat progress (cbn [print_tokens app] in *; autorewrite with flats in * ).

Lemma reads_list e es d rest :
  Forall reads_expr (e :: es) → (2 * length (comma_tokens (map print_tokens (e :: es)) ++ TkRParen :: rest) < d)%nat →
  gives (comma_tokens (map print_tokens (e :: es)) ++ TkRParen :: rest) (parse_expr_list (level d).1) (e :: es)
    (TkRParen :: rest).
Proof.
  intros Hes Hd. apply gives_with_fuel. cbn [map comma_tokens] in *. rw -!app_assoc in Hd |- *.
  set (n := S _). assert (length (e :: es) < n)%nat as Hn.
  { subst n. clear Hd Hes. cbn [length]. enough (length es ≤ length (map print_tokens es ≫= λ x, TkComma :: x))%nat by size.
    induction es as [|x es IH]; [done|]. cbn [map]. rw bind_cons. size. }
  clearbody n. revert e Hes n Hn Hd. induction es as [|x es IH]; intros e Hes n Hn Hd; (destruct n as [|n]; [lia|]);
    inversion Hes as [|? ? He Hes']; subst; cbn [comma_loop map] in *.
  - change ([] ≫= _) with (@nil Token) in *. cbn [app] in *. eapply gives_bind; [by apply He|].
    apply gives_reject; [done|]. apply gives_ret.
  - rw bind_cons in Hd |- *. cbn [app] in *. rw -!app_assoc in Hd |- *. eapply gives_bind; [by apply He|].
    apply gives_accept. eapply gives_bind; [apply IH; [done|cbn [length] in *; lia|size]|]. apply gives_ret.
Qed.

Lemma reads_function name args :
  star_only args = true ∨ Forall reads_expr args ∧ Forall (λ e, printable e = true) args → reads (Function name args).
Proof.
  intros Hargs d n rest Hn Hd Hr. destruct n as [|n]; [lia|]. cbn [print_tokens app] in *. rw -!app_assoc in Hn Hd |- *.
  cbn [app] in *. apply gives_atom; [|done|done|done]. unfold parse_atom, parse_ident_expr.
  apply gives_current, gives_advance, gives_current, gives_advance.
  apply (gives_bind _ _ _ (name, args) (TkRParen :: rest)).
  2: { apply gives_expect, gives_reject; [by destruct (hd rest)|]. apply gives_ret. }
  unfold parse_args. apply gives_current. destruct Hargs as [Hs|[Hes Hp]].
  - destruct args as [|[] [|]]; try done. cbn [star_only] in Hs. apply bool_decide_eq_true in Hs as ->.
    cbn [map comma_tokens print_tokens]. rw bool_decide_eq_true_2; [done|]. apply gives_advance, gives_ret.
  - destruct args as [|e es]; [apply gives_ret|]. pose proof (reads_list e es d rest Hes) as Hl. cbn [map comma_tokens] in *.
    inversion Hp as [|? ? He _]; subst. rw -!app_assoc in Hl Hn Hd |- *. set (ts := _ ++ _) in *.
    pose proof (printable_starter e ((map print_tokens es ≫= λ x, TkComma :: x) ++ TkRParen :: rest) He) as Hst.
    fold ts in Hst. destruct (hd ts); try done; (eapply gives_bind; [apply Hl; cbn [length] in *; lia|]); apply gives_ret.
Qed.

Definition when_tokens (ws : list (Expr * Expr)) : list Token :=
  concat (map (λ wt, TkWhen :: print_tokens wt.1 ++ TkThen :: print_tokens wt.2) ws).

Lemma when_tokens_stop ws rest : stop (hd rest) = true → stop (hd (when_tokens ws ++ rest)) = true.
Proof. by destruct ws as [|[]]. Qed.

Lemma reads_whens ws d rest :
  Forall (λ wt, reads_expr wt.1 ∧ reads_expr wt.2) ws → (2 * length (when_tokens ws ++ rest) < d)%nat →
  stop (hd rest) = true → same (hd rest) TkWhen = false →
  gives (when_tokens ws ++ rest) (with_fuel (when_loop (level d).1)) ws rest.
Proof.
  intros Hws Hd Hr Hw. apply gives_with_fuel. set (n := S _).
  assert (length (when_tokens ws ++ rest) < n)%nat as Hn by lia. clearbody n. revert n Hn Hd.
  induction Hws as [|[w t] ws [He1 He2] Hws IH]; intros [|n] Hn Hd; try lia; cbn [when_loop].
  - apply gives_reject; [done|]. apply gives_ret.
  - unfold when_tokens in *. cbn [map concat fst snd app] in *. rw -!app_assoc in Hn Hd |- *. cbn [app] in *.
    apply gives_accept. eapply gives_bind; [apply He1; [size|done]|]. apply gives_expect.
    eapply gives_bind; [apply He2; [size|]|].
    { by apply (when_tokens_stop ws). }
    eapply gives_bind; [apply IH; size|]. apply gives_ret.
Qed.

Lemma reads_case o ws els :
  match o with Some e => reads_expr e ∧ printable e = true | None => ws ≠ [] end →
  Forall (λ wt, reads_expr wt.1 ∧ reads_expr wt.2) ws → from_option reads_expr True els → reads (Case o ws els).
Proof.
  intros Ho Hws Hels d n rest Hn Hd Hr. destruct n as [|n]; [lia|]. cbn [print_tokens app] in *. fold (when_tokens ws) in *.
  rw -!app_assoc in Hn Hd |- *. cbn [app] in *. apply gives_atom; [|done|done|done]. unfold parse_atom.
  apply gives_current, gives_advance. unfold parse_case. apply gives_current.
  set (ts := (match els with Some e => TkElse :: print_tokens e | None => [] end) ++ TkEnd :: rest) in *.
  assert (stop (hd ts) = true ∧ same (hd ts) TkWhen = false) as [Hs Hw] by (subst ts; by destruct els).
  apply (gives_bind _ _ _ o (when_tokens ws ++ ts)).
  { destruct o as [o|].
    - destruct Ho as [Ho Hp]. pose proof (printable_starter o (when_tokens ws ++ ts) Hp) as Hst.
      assert (gives (print_tokens o ++ when_tokens ws ++ ts) (level d).1 o (when_tokens ws ++ ts)) as He
        by (apply Ho; [size|by apply when_tokens_stop]).
      set (l := print_tokens o ++ _) in *. destruct (hd l); try done; (eapply gives_bind; [exact He|]); apply gives_ret.
    - destruct ws as [|[]]; [done|]. apply gives_ret. }
  eapply gives_bind; [apply reads_whens; [done|size|done|done]|].
  apply (gives_bind _ _ _ els (TkEnd :: rest)); [|apply gives_expect, gives_ret]. unfold optional. subst ts.
  destruct els as [e|]; cbn [app] in *; [apply gives_accept|by apply gives_reject; [|apply gives_ret]].
  eapply gives_bind; [apply Hels; [size|done]|]. apply gives_ret.
Qed.

Lemma reads_literal v : printable_literal v = true → reads (Literal v).
Proof.
  intros Hv d n rest Hn Hd Hr. destruct n as [|n]; [lia|]. cbn [print_tokens] in *.
  destruct v as [k|f|s|b| |bs]; cbn [literal_tokens printable_literal] in *; try done;
    try (apply gives_atom; [|done|done|done]; unfold parse_atom; apply gives_current, gives_advance, gives_ret).
  destruct (Z.ltb_spec k 0); cbn [app] in *;
    [|apply gives_atom; [|done|done|done]; unfold parse_atom; apply gives_current, gives_advance, gives_ret].
  cbn [unary_loop]. apply gives_current, gives_advance. destruct n as [|n]; [size|].
  eapply (gives_bind _ _ _ (Literal (Integer (- k)))).
  - apply gives_atom; [|done|done|exact Hr]. unfold parse_atom. apply gives_current, gives_advance, gives_ret.
  - cbn [negate]. rw Z.opp_involutive. apply gives_ret.
Qed.

Lemma negate_other e : is_number e = false → negate e = Unary OpNeg e.
Proof. destruct e; try done. by destruct v. Qed.

Lemma printable_reads_all es :
  Forall (λ e, printable e = true → reads e) es → forallb printable es = true →
  Forall reads_expr es ∧ Forall (λ e, printable e = true) es.
Proof.
  intros Hes Hp. rw forallb_forall in Hp. assert (Forall (λ e, printable e = true) es) as Hp'.
  { apply Forall_forall. intros e He. by apply Hp, list_elem_of_In. }
  split; [|done]. rw !Forall_forall in Hes Hp' |- *. intros e He. by apply reads_reads_expr, Hes, Hp'.
Qed.

(** Inside parentheses, one level down. *)
Lemma reads_parens e ts d n rest :
  (∀ d', d = S d' → gives ts (parse_or_expr (level d').1 (level d').2) e (TkRParen :: rest)) →
  (0 < d)%nat → (0 < n)%nat → hd ts ≠ TkSelect → follow (hd rest) = true →
  gives (TkLParen :: ts) (unary_loop (level d).1 (level d).2 n) e rest.
Proof.
  intros He Hd Hn Hs Hr. destruct n as [|n], d as [|d]; try lia. apply gives_parens; [|done|done]. rw level_succ.
  by apply He.
Qed.

Lemma not_select e rest : printable e = true → hd (print_tokens e ++ rest) ≠ TkSelect.
Proof. intros He. pose proof (printable_starter e rest He) as Hs. by destruct (hd _). Qed.

Lemma reads_binary l op r : reads l → reads r → printable l = true → reads (BinaryOp l op r).
Proof.
  intros Hl He Hp d n rest Hn Hd Hr. flat.
  apply reads_parens; [|size|size|by apply not_select|done]. intros d' ->.
  apply (binary_expr _ _ _ _ _ _ (print_tokens r ++ TkRParen :: rest)); [|apply reads_unary; [done|size|done]|done].
  apply reads_unary; [done|size|by destruct op].
Qed.

Lemma reads_not e : reads e → reads (Unary OpNot e).
Proof.
  intros He d n rest Hn Hd Hr. flat.
  apply reads_parens; [|size|size|done|done]. intros d' ->. apply unary_expr; [|done]. apply gives_with_fuel.
  cbn [unary_loop]. apply gives_current, gives_advance. eapply gives_bind; [apply He; [size|size|done]|]. apply gives_ret.
Qed.

Lemma reads_neg e : reads e → is_number e = false → reads (Unary OpNeg e).
Proof.
  intros He Hneg d n rest Hn Hd Hr. flat.
  apply reads_parens; [|size|size|done|done]. intros d' ->. apply unary_expr; [|done]. apply gives_with_fuel.
  cbn [unary_loop]. apply gives_current, gives_advance. eapply gives_bind; [apply He; [size|size|done]|].
  rw negate_other; [done|]. apply gives_ret.
Qed.

Lemma reads_is_null (no : bool) e :
  reads e → printable e = true → reads (if no then IsNotNull e else IsNull e).
Proof.
  intros He Hp d n rest Hn Hd Hr. destruct no; flat;
    (apply reads_parens; [|size|size|by apply not_select|done]); intros d' ->;
    [apply (gives_is_null _ _ _ _ true)|apply (gives_is_null _ _ _ _ false)]; try done;
    (apply reads_addition; [done|size|done|done|done]).
Qed.

Lemma reads_in e x l :
  reads e → printable e = true → printable x = true → Forall reads_expr (x :: l) → reads (InList e (x :: l)).
Proof.
  intros He Hp Hx Hl d n rest Hn Hd Hr. flat.
  apply reads_parens; [|size|size|by apply not_select|done]. intros d' ->.
  eapply gives_in; [apply reads_addition; [done|size|done|done|done]| |apply reads_list; [done|size]|done].
  cbn [map comma_tokens]. rw -app_assoc. by apply not_select.
Qed.

Lemma reads_between e a b : reads e → reads a → reads b → printable e = true → reads (Between e a b).
Proof.
  intros He Ha Hb Hp d n rest Hn Hd Hr. flat.
  apply reads_parens; [|size|size|by apply not_select|done]. intros d' ->.
  eapply gives_between; [| | |done]; (apply reads_addition; [done|size|done|done|done]).
Qed.

Lemma reads_cast e dt : reads e → reads (Cast e dt).
Proof.
  intros He%reads_reads_expr d n rest Hn Hd Hr. destruct n as [|n]; [lia|]. flat.
  apply gives_cast; [|done]. apply He; [size|done].
Qed.

Lemma reads_name name rest d n :
  (0 < n)%nat → follow (hd rest) = true → gives (TkIdent name :: rest) (unary_loop (level d).1 (level d).2 n) (Column name) rest.
Proof.
  intros Hn Hr. destruct n as [|n]; [lia|]. apply gives_atom; [|done|done|done]. unfold parse_atom.
  apply gives_current, gives_advance. unfold parse_ident_expr. apply gives_current.
  destruct (hd rest); try done; apply gives_ret.
Qed.

Lemma reads_qualified t c : reads (QualifiedColumn t c).
Proof.
  intros d n rest Hn Hd Hr. destruct n as [|n]; [lia|]. cbn [print_tokens app] in *. apply gives_atom; [|done|done|done].
  unfold parse_atom. apply gives_current, gives_advance. unfold parse_ident_expr. apply gives_current, gives_advance.
  eapply gives_bind; [unfold expect_ident; apply gives_current, gives_advance, gives_ret|]. apply gives_ret.
Qed.

Lemma reads_interval s : reads (IntervalLit s).
Proof.
  intros d n rest Hn Hd Hr. destruct n as [|n]; [lia|]. cbn [print_tokens app] in *. apply gives_atom; [|done|done|done].
  unfold parse_atom. apply gives_current, gives_advance, gives_current, gives_advance, gives_ret.
Qed.

Lemma printable_reads e : printable e = true → reads e.
Proof.
  induction e as [v|n|t c|l op r IHl IHr|op e IH|n args IH|p|e IH|e IH|e l IH IHl|e a b IHe IHa IHb|o ws els IHo IHw IHe
    |e dt IH|q|e q IH|q|n a b o| |s] using expr_induction; intros Hp; try done; cbn [printable] in Hp.
  - by apply reads_literal.
  - intros d k rest Hn Hd Hr. cbn [print_tokens] in *. rw name_not_star in Hn; [done|]. rw name_not_star; [done|].
    apply reads_name; [size|done].
  - apply reads_qualified.
  - conj Hp. apply reads_binary; auto.
  - destruct op; [apply reads_not; auto|]. conj Hp. apply reads_neg; [auto|by apply negb_true_iff].
  - apply andb_true_iff in Hp as [Hn Hp]. apply reads_function. apply orb_true_iff in Hp as [?|?]; [by left|right].
    by apply printable_reads_all.
  - apply (reads_is_null false); auto.
  - apply (reads_is_null true); auto.
  - apply andb_true_iff in Hp as [[He Hne]%andb_true_iff Hl]. destruct (printable_reads_all l IHl Hl) as [Hr Hpl].
    destruct l as [|x l]; [done|]. inversion Hpl; subst. apply reads_in; auto.
  - conj Hp. apply reads_between; auto.
  - apply andb_true_iff in Hp as [[Ho Hw]%andb_true_iff He]. apply reads_case.
    + destruct o; [split; [by apply reads_reads_expr, IHo|done]|]. apply negb_true_iff, bool_decide_eq_false in Ho. done.
    + rw forallb_forall in Hw. rw Forall_forall in IHw. apply Forall_forall. intros wt Hin.
      pose proof (Hw wt (proj1 (list_elem_of_In _ _) Hin)) as [? ?]%andb_true_iff. destruct (IHw wt Hin).
      auto using reads_reads_expr.
    + destruct els; [by apply reads_reads_expr, IHe|done].
  - apply reads_cast. auto.
  - apply reads_interval.
Qed.

Lemma expression_back e : printable e = true → parse_expression (expr_to_sql e) = Some (POk e).
Proof.
  intros Hp. unfold parse_expression, run. rw tokenize_expr; [done|]. cbn [mbind option_bind]. unfold parse_expr.
  destruct (reads_reads_expr e (printable_reads e Hp) (2 * length (print_tokens e ++ [TkEof]) + 1)%nat [TkEof] ltac:(lia)
    eq_refl false) as [b' E].
  cbn [toks]. by rw E.
Qed.

(** C29: [parse_expression] reads back every printable expression from the text
    [expr_to_sql] writes for it, operators, functions, lists, [CASE] and casts
    nested as they may be. This is how a CHECK constraint is kept in the catalog
    and compiled again when the database is opened. *)
Theorem print_parse e : printable e = true → parse_expression (expr_to_sql e) = Some (POk e).
Proof. apply expression_back. Qed.

(** ** CHECK constraints

    A table's constraints are written to the catalog as text, and compiled
    again when the table is opened; what does not parse is left out. *)
Definition stored_checks (checks : list Expr) : list str := map expr_to_sql checks.
Definition reload_checks (texts : list str) : list Expr :=
  omap (λ s, match parse_expression s with Some (POk e) => Some e | _ => None end) texts.

(** the printable constraints of a table are all there, and the same, after
    it has been opened again. *)
Theorem checks_survive es :
  forallb printable es = true → reload_checks (stored_checks es) = es.
Proof.
  intros Hp. induction es as [|e es IH]; [done|]. cbn [forallb] in Hp. apply andb_true_iff in Hp as [He Hes].
  cbn [stored_checks map reload_checks omap list_omap]. rw (expression_back e He). f_equal. exact (IH Hes).
Qed.
End expressions.

(** An expression with every kind of part. *)
Definition sample : Expr :=
  Case None
    [(BinaryOp (Between (Column (chars "a")) (Literal (Integer (-5))) (Unary OpNeg (Column (chars "b")))) OpAnd
        (InList (QualifiedColumn (chars "t") (chars "c")) [Literal (LString (chars "x y")); Literal LNull]),
      Cast (Function (chars "count") [Column (chars "*")]) TDecimal);
     (Unary OpNot (IsNotNull (Literal (LHexBlob [0; 255]))), Function (chars "now") [])]
    (Some (IntervalLit (chars "1 day"))).

Lemma print_parse_witness : printable sample = true ∧ parse_expression (expr_to_sql sample) = Some (POk sample).
Proof. split; [vm_compute; reflexivity|]. apply print_parse. vm_compute. reflexivity. Defined.

Lemma checks_survive_witness :
  forallb printable [sample; sample] = true ∧ reload_checks (stored_checks [sample; sample]) = [sample; sample].
Proof. split; [vm_compute; reflexivity|]. apply checks_survive. vm_compute. reflexivity. Defined.

(** a constraint on a string with a quote is dropped when the table is opened
    again: [quote_string] doubles the quote and the lexer takes the string to end
    there. A backslash changes the string instead. *)
Theorem check_with_quote_lost :
  let check := BinaryOp (Column (chars "name")) OpNeq (Literal (LString (chars "it's"))) in
  let text := chars "name <> " ++ [34] ++ chars "it's" ++ [34] in
  parse_expression text = Some (POk check) ∧
  reload_checks (stored_checks [check]) = [] ∧
  reload_checks (stored_checks [Literal (LString [92; 92])]) = [Literal (LString [92])].
Proof. split_and!; vm_compute; reflexivity. Qed.
End SqlRoundTrip.
