(* ===== verification/Float64.v ===== *)
(** Arithmetic of [f64] on bit patterns: the operations of the standard
    library's specification of IEEE 754, binary64 with rounding to nearest even,
    between the pattern and the number it stands for. A NaN result is the
    canonical one. *)
From Stdlib Require Import SpecFloat.
From S2P Require Import Prelude ByteOrder Value.
Import Value.

Module Float64.

Definition prec : Z := 53.
Definition emax : Z := 1024.

(** The number of a pattern. *)
Definition of_bits (b : Z) : spec_float :=
  let s := 2 ^ 63 <=? b in
  let e := (b / 2 ^ 52) mod 2 ^ 11 in
  let m := b mod 2 ^ 52 in
  if e =? 0 then match m with Zpos p => S754_finite s p (-1074) | _ => S754_zero s end
  else if e =? 2047 then (if m =? 0 then S754_infinity s else S754_nan)
  else match m + 2 ^ 52 with Zpos p => S754_finite s p (e - 1075) | _ => S754_nan end.

(** The pattern of a number whose mantissa has 53 digits, or less at the least
    exponent. *)
Definition to_bits (f : spec_float) : Z :=
  let sign (s : bool) := if s then 2 ^ 63 else 0 in
  wrap 64 match f with
  | S754_zero s => sign s
  | S754_infinity s => sign s + 2047 * 2 ^ 52
  | S754_nan => 2047 * 2 ^ 52 + 2 ^ 51
  | S754_finite s m e =>
      if Zpos m <? 2 ^ 52 then sign s + Zpos m else sign s + (e + 1075) * 2 ^ 52 + (Zpos m - 2 ^ 52)
  end.

Definition lift2 (op : spec_float → spec_float → spec_float) (a b : Z) : Z := to_bits (op (of_bits a) (of_bits b)).

Definition f64_add : Z → Z → Z := lift2 (SFadd prec emax).
Definition f64_sub : Z → Z → Z := lift2 (SFsub prec emax).
Definition f64_mul : Z → Z → Z := lift2 (SFmul prec emax).
Definition f64_div : Z → Z → Z := lift2 (SFdiv prec emax).
Definition f64_sqrt (a : Z) : Z := to_bits (SFsqrt prec emax (of_bits a)).

(** [-f] and [f.abs()] change the sign bit. *)
Definition f64_neg (a : Z) : Z := Z.lxor a (2 ^ 63).
Definition f64_abs (a : Z) : Z := a mod 2 ^ 63.

(** The mantissa with its sign, and the exponent. *)
Definition signed_mantissa (s : bool) (m : positive) : Z := if s then - Zpos m else Zpos m.

(** [a % b]: exact, with the sign of [a]. *)
Definition f64_rem (a b : Z) : Z :=
  to_bits match of_bits a, of_bits b with
  | S754_nan, _ | _, S754_nan | S754_infinity _, _ | _, S754_zero _ => S754_nan
  | x, S754_infinity _ => x
  | S754_zero s, _ => S754_zero s
  | S754_finite s m e, S754_finite _ m' e' =>
      let k := Z.min e e' in
      binary_normalize prec emax (Z.rem (signed_mantissa s m * 2 ^ (e - k)) (Zpos m' * 2 ^ (e' - k))) k s
  end.

(** [f as i64]: towards zero, saturating, NaN is 0. *)
Definition f64_as_i64 (a : Z) : Z :=
  match of_bits a with
  | S754_zero _ | S754_nan => 0
  | S754_infinity s => if s then - 2 ^ 63 else 2 ^ 63 - 1
  | S754_finite s m e =>
      let v := if 0 <=? e then signed_mantissa s m * 2 ^ e else Z.quot (signed_mantissa s m) (2 ^ (- e)) in
      Z.max (- 2 ^ 63) (Z.min (2 ^ 63 - 1) v)
  end.

(** [f.floor()], [f.ceil()] and [f.round()], which rounds halves away from zero. *)
Definition f64_integral (r : Z → Z → Z) (a : Z) : Z :=
  match of_bits a with
  | S754_finite s m e => if 0 <=? e then a else to_bits (binary_normalize prec emax (r (signed_mantissa s m) (2 ^ (- e))) 0 s)
  | S754_nan => to_bits S754_nan
  | _ => a
  end.
Definition f64_floor : Z → Z := f64_integral Z.div.
Definition f64_ceil : Z → Z := f64_integral (λ n d, - ((- n) / d)).
Definition f64_round : Z → Z := f64_integral (λ n d, Z.sgn n * ((2 * Z.abs n + d) / (2 * d))).

(** [f > 0.0] and the like. *)
Definition f64_is (c : comparison) (a b : Z) : bool := bool_decide (f64_cmp a b = Some c).

Lemma to_bits_ok f : 0 ≤ to_bits f < 2 ^ 64.
Proof. unfold to_bits. apply wrap_range. lia. Qed.

(** Every pattern that is no NaN is the pattern of its number. *)
Lemma of_to_bits b : 0 ≤ b < 2 ^ 64 → f64_nan b = false → to_bits (of_bits b) = b.
Proof.
  intros Hb Hn. unfold f64_nan in Hn. apply Z.ltb_ge in Hn.
  set (s := 2 ^ 63 <=? b) in *. set (e := (b / 2 ^ 52) mod 2 ^ 11) in *. set (m := b mod 2 ^ 52) in *.
  assert (0 ≤ m < 2 ^ 52) as Hm by (apply Z.mod_pos_bound; lia).
  assert (0 ≤ e < 2 ^ 11) as He by (apply Z.mod_pos_bound; lia).
  assert (b = (if s then 2 ^ 63 else 0) + e * 2 ^ 52 + m) as Hd.
  { pose proof (Z.div_mod b (2 ^ 52) ltac:(lia)) as H1. pose proof (Z.div_mod (b / 2 ^ 52) (2 ^ 11) ltac:(lia)) as H2.
    fold e in H2. fold m in H1. assert (b / 2 ^ 52 / 2 ^ 11 = b / 2 ^ 63) as H3 by (by rw Z.div_div; [lia|lia|]).
    subst s. destruct (Z.leb_spec (2 ^ 63) b).
    - assert (b / 2 ^ 63 = 1) as H4 by (symmetry; apply (Z.div_unique _ _ 1 (b - 2 ^ 63)); lia). lia.
    - assert (b / 2 ^ 63 = 0) as H4 by (apply Z.div_small; lia). lia. }
  assert (b mod 2 ^ 63 = e * 2 ^ 52 + m) as Hr.
  { symmetry. apply (Z.mod_unique b (2 ^ 63) (if s then 1 else 0)); [left; nia|]. destruct s; lia. }
  rw Hr in Hn. unfold of_bits. fold s e m. destruct (Z.eqb_spec e 0) as [E|E].
  { rw {1}E in Hd. destruct m as [|p|p] eqn:Em; [| |lia]; unfold to_bits.
    - unfold wrap. rw Z.mod_small; [destruct s; lia|]. destruct s; lia.
    - rw (proj2 (Z.ltb_lt (Zpos p) (2 ^ 52))); [lia|]. unfold wrap. rw Z.mod_small; destruct s; lia. }
  destruct (Z.eqb_spec e 2047) as [E'|E'].
  { destruct (Z.eqb_spec m 0) as [Em|Em]; [|lia]. unfold to_bits, wrap. rw Z.mod_small; destruct s; lia. }
  destruct (m + 2 ^ 52) as [|p|p] eqn:Ep; [lia| |lia]. unfold to_bits.
  rw (proj2 (Z.ltb_ge (Zpos p) (2 ^ 52))); [lia|]. unfold wrap. rw Z.mod_small; destruct s; lia.
Qed.

(** The sum and the quotient that decimal notation makes famous. *)
Example f64_sum : f64_add 0x3FB999999999999A 0x3FC999999999999A = 0x3FD3333333333334.
Proof. vm_compute. reflexivity. Qed.
Example f64_third : f64_div (i64_as_f64 1) (i64_as_f64 3) = 0x3FD5555555555555.
Proof. vm_compute. reflexivity. Qed.
Example f64_halves : (f64_round 0x4004000000000000, f64_floor 0xBFF8000000000000, f64_as_i64 0xC004000000000000) =
  (i64_as_f64 3, i64_as_f64 (-2), -2).
Proof. vm_compute. reflexivity. Qed.
End Float64.
