(* ===== verification/Like.v ===== *)
(** [LIKE] and [ILIKE]: the matcher of [bytedb-query/src/executor/engine.rs]
    ([like_match], [ilike_match]) and the definition of pattern matching it is
    to compute. *)
From S2P Require Import Prelude ByteOrder Literals Sql Lexer.
Import Literals Sql.

Module Like.

(** ** UTF-8 *)

(** [s.chars()] on the bytes of a [String]. *)
Fixpoint utf8_chars (s : list Z) : str :=
  match s with
  | [] => []
  | b :: s1 =>
      if b <? 128 then b :: utf8_chars s1
      else
        match s1 with
        | [] => []
        | c :: s2 =>
            if b <? 224 then (b mod 32 * 64 + c mod 64) :: utf8_chars s2
            else
              match s2 with
              | [] => []
              | d :: s3 =>
                  if b <? 240 then (b mod 16 * 4096 + c mod 64 * 64 + d mod 64) :: utf8_chars s3
                  else
                    match s3 with
                    | [] => []
                    | e :: s4 =>
                        (b mod 8 * 262144 + c mod 64 * 4096 + d mod 64 * 64 + e mod 64) :: utf8_chars s4
                    end
              end
        end
  end.

(** The bytes of a [String] of these characters. *)
Definition utf8_bytes (s : str) : list Z := s ≫= utf8_char.

Definition is_ascii (s : list Z) : bool := forallb (λ b, b <? 128) s.

(** ** The matcher

    The positions [si] and [pi] are what is left of the text and of the pattern;
    [star] is what is left of both behind the last [%]. *)

Fixpoint like_loop (eq : Z → Z → bool) (fuel : nat) (s p : list Z) (star : option (list Z * list Z)) : option bool :=
  match fuel with
  | O => None
  | S fuel' =>
      let backtrack :=
        match star with
        | Some (sp, ss) => like_loop eq fuel' (tail ss) sp (Some (sp, tail ss))
        | None => Some false
        end in
      match s, p with
      | [], _ => Some (forallb (λ q, q =? 37) p)
      | c :: s', q :: p' =>
          if (q =? 95) || eq q c then like_loop eq fuel' s' p' star
          else if q =? 37 then like_loop eq fuel' s p' (Some (p', s))
          else backtrack
      | _ :: _, [] => backtrack
      end
  end.

(** As many iterations as there can be. *)
Definition like_fuel (s p : list Z) : nat := (length p + 2 + length s * (length p + 2))%nat.

Definition ascii_eq (case_insensitive : bool) (a b : Z) : bool :=
  if case_insensitive then to_ascii_lowercase a =? to_ascii_lowercase b else a =? b.

Definition like_match_ascii (s p : list Z) (case_insensitive : bool) : option bool :=
  like_loop (ascii_eq case_insensitive) (like_fuel s p) s p None.
Definition like_match_inner (s p : str) : option bool := like_loop Z.eqb (like_fuel s p) s p None.

(** [None] is a loop that does not end. *)
Definition like_match (s pattern : list Z) : option bool :=
  if is_ascii pattern && is_ascii s then like_match_ascii s pattern false
  else like_match_inner (utf8_chars s) (utf8_chars pattern).

(** [chars().flat_map(|c| c.to_lowercase())]. *)
Definition ilike_match `{Unicode} (s pattern : list Z) : option bool :=
  if is_ascii pattern && is_ascii s then like_match_ascii s pattern true
  else like_match_inner (utf8_chars s ≫= char_lower) (utf8_chars pattern ≫= char_lower).

(** ** Matching *)

Fixpoint suffixes (s : list Z) : list (list Z) :=
  match s with [] => [[]] | _ :: s' => s :: suffixes s' end.

(** [%] stands for any text, [_] for one character, every other character for
    itself. *)
Fixpoint matches (eq : Z → Z → bool) (p s : list Z) : bool :=
  match p with
  | [] => match s with [] => true | _ => false end
  | q :: p' =>
      if q =? 37 then existsb (matches eq p') (suffixes s)
      else match s with [] => false | c :: s' => ((q =? 95) || eq q c) && matches eq p' s' end
  end.

Section correct.
Context (eq : Z → Z → bool).
Local Abbreviation M := (matches eq).

Lemma suffixes_tail s : s ≠ [] → suffixes s = s :: suffixes (tail s).
Proof. by destruct s. Qed.

Lemma elem_of_suffixes u s : u ∈ suffixes s ↔ ∃ t, s = t ++ u.
Proof.
  induction s as [|c s IH]; cbn [suffixes].
  - rw list_elem_of_singleton. split; [by intros ->; exists []|]. intros [t E]. by destruct t, u.
  - rw elem_of_cons IH. split.
    + intros [->|[t ->]]; [by exists []|by exists (c :: t)].
    + intros [[|x t] E]; [by left|]. injection E as -> ->. right. by exists t.
Qed.

Lemma existsb_suffixes P s : existsb P (suffixes s) = true ↔ ∃ t u, s = t ++ u ∧ P u = true.
Proof.
  rw existsb_exists. setoid_rewrite <- list_elem_of_In. setoid_rewrite elem_of_suffixes. naive_solver.
Qed.

(** A prefix of the pattern without [%] takes as many characters of the text. *)
Lemma matches_prefix w p u :
  37 ∉ w → M (w ++ p) u = true → ∃ t v, u = t ++ v ∧ length t = length w ∧ M p v = true.
Proof.
  revert u. induction w as [|q w IH]; intros u Hw Hm; [by exists [], u|]. cbn [app matches] in Hm.
  apply not_elem_of_cons in Hw as [Hq Hw]. rw (proj2 (Z.eqb_neq q 37)) in Hm; [congruence|]. destruct u as [|c u]; [done|].
  apply andb_true_iff in Hm as [_ Hm]. destruct (IH u Hw Hm) as (t & v & -> & Hl & Hv). exists (c :: t), v.
  split; [done|]. cbn. split; [congruence|done].
Qed.

(** What backtracking to a [%] behind which [sp] and [ss] are left can still find. *)
Definition later (star : option (list Z * list Z)) : bool :=
  match star with Some (sp, ss) => existsb (M sp) (suffixes (tail ss)) | None => false end.

(** Since the last [%] the loop has read as much of the text as of the pattern. *)
Definition since (star : option (list Z * list Z)) (s p : list Z) : Prop :=
  match star with
  | Some (sp, ss) => ∃ w t, sp = w ++ p ∧ ss = t ++ s ∧ length w = length t ∧ 37 ∉ w
  | None => True
  end.

Lemma since_here s p : since (Some (p, s)) s p.
Proof. exists [], []. split_and!; [done|done|done|apply not_elem_of_nil]. Qed.

Lemma suffix_within (t s z x : list Z) : t ++ s = x ++ z → (length t ≤ length x)%nat → ∃ y, s = y ++ z.
Proof.
  intros E Hl. exists (drop (length t) x). assert (s = drop (length t) (t ++ s)) as -> by (by rw drop_app_length).
  rw E drop_app_le; [lia|done].
Qed.

(** What is found further on is found by the next [%] as well. *)
Lemma later_next star s p : since star s (37 :: p) → later star = true → M (37 :: p) s = true.
Proof.
  destruct star as [[sp ss]|]; [|done]. intros (w & t & -> & -> & Hl & Hw) Hlat. cbn [later] in Hlat.
  apply existsb_suffixes in Hlat as (x & u & Hx & Hm). apply matches_prefix in Hm as (t' & v & -> & Hl' & Hm); [|done].
  cbn [matches Z.eqb Pos.eqb] in Hm |- *. apply existsb_suffixes in Hm as (y & z & -> & Hz). apply existsb_suffixes.
  assert (∃ a, t ++ s = a ++ z ∧ (length t ≤ length a)%nat) as (a & Ha & Hla).
  { destruct (t ++ s) as [|c l]; cbn [tail] in Hx.
    - exists (x ++ t' ++ y). rw -!app_assoc. split; [exact Hx|]. rw !length_app. lia.
    - exists (c :: x ++ t' ++ y). cbn [app]. rw -!app_assoc. split; [by f_equal|]. cbn. rw !length_app. lia. }
  destruct (suffix_within t s z a Ha Hla) as [b ->]. by exists b, z.
Qed.

(** At the end of the text nothing is found further on. *)
Lemma later_end star p : since star [] p → later star = true → M p [] = true.
Proof.
  destruct star as [[sp ss]|]; [|done]. intros (w & t & -> & -> & Hl & Hw) Hlat. rw app_nil_r in Hlat. cbn [later] in Hlat.
  apply existsb_suffixes in Hlat as (x & u & Hx & Hm). apply matches_prefix in Hm as (t' & v & -> & Hl' & Hm); [|done].
  assert (v = []) as ->; [|done]. apply length_zero_iff_nil. apply (f_equal length) in Hx. rw !length_app in Hx.
  destruct t; cbn in *; lia.
Qed.

Lemma matches_end p : M p [] = forallb (λ q, q =? 37) p.
Proof.
  induction p as [|q p IH]; [done|]. cbn [matches forallb]. destruct (q =? 37); [|done]. cbn. by rw orb_false_r.
Qed.

(** Iterations that are enough, when no pattern is longer than [P]. *)
Definition enough (P fuel : nat) (s p : list Z) (star : option (list Z * list Z)) : Prop :=
  (length p ≤ P)%nat ∧
  match star with
  | Some (sp, ss) => (length sp ≤ P)%nat ∧ (length p + 1 + length ss * (P + 2) < fuel)%nat
  | None => (length p + 1 + length s * (P + 2) < fuel)%nat
  end.

Lemma like_loop_spec P fuel s p star :
  (∀ c, c ∈ s ∨ c ∈ from_option snd [] star → eq 37 c = false) → since star s p → enough P fuel s p star →
  like_loop eq fuel s p star = Some (M p s || later star).
Proof.
  revert s p star. induction fuel as [|fuel IH]; intros s p star Heq Hs [HP Hf]; [destruct star as [[]|]; lia|].
  assert (s ≠ [] → M p s = false →
    match star with
    | Some (sp, ss) => like_loop eq fuel (tail ss) sp (Some (sp, tail ss))
    | None => Some false
    end = Some (M p s || later star)) as Hback.
  { intros Hne ->. destruct star as [[sp ss]|]; [|done]. destruct Hs as (w & t & -> & -> & Hl & Hw). destruct Hf as [Hsp Hf].
    assert (t ++ s ≠ []) as Hne' by (by destruct t). destruct (t ++ s) as [|c l] eqn:E; [done|]. cbn [tail length] in *.
    rw IH; [| | |].
    - intros x Hx. apply Heq. right. cbn. rw elem_of_cons. destruct Hx; by right.
    - apply since_here.
    - split; [done|]. split; [done|]. nia.
    - f_equal. cbn [orb later tail]. destruct l as [|d l]; [cbn; by destruct (M (w ++ p) [])|done]. }
  cbn [like_loop]. destruct s as [|c s].
  { f_equal. rw -matches_end. destruct (M p []) eqn:Em; [done|]. destruct (later star) eqn:El; [|done].
    by rw (later_end star p Hs El) in Em. }
  destruct p as [|q p]; [by apply Hback|]. destruct ((q =? 95) || eq q c) eqn:Hq.
  - assert (q ≠ 37) as Hne.
    { intros ->. rw Heq in Hq; [left; by left|]. done. }
    rw IH; [intros x [Hx|Hx]; apply Heq; [left; by right|by right]| |
      |f_equal; cbn [matches]; rw (proj2 (Z.eqb_neq q 37) Hne) Hq; done].
    + destruct star as [[sp ss]|]; [|done]. destruct Hs as (w & t & -> & -> & Hl & Hw). exists (w ++ [q]), (t ++ [c]).
      rw -!app_assoc !length_app. split_and!; try done; [cbn; lia|]. rw elem_of_app list_elem_of_singleton. naive_solver.
    + split; [cbn in HP; lia|]. destruct star as [[sp ss]|]; cbn [length] in *; [split; [tauto|]; lia|]. nia.
  - destruct (Z.eqb_spec q 37) as [->|Hne].
    + rw IH; [intros x [Hx|Hx]; apply Heq; [by left|by left]| | |].
      * apply since_here.
      * split; [cbn in HP; lia|]. split; [cbn in HP; lia|]. destruct star as [[sp ss]|]; cbn [length] in *; [|lia].
        destruct Hs as (w & t & -> & -> & Hl & Hw). destruct Hf as [_ Hf]. rw length_app in Hf. cbn [length] in Hf.
        pose proof (Nat.mul_le_mono_r (S (length s)) (length t + S (length s)) (P + 2) ltac:(lia)). lia.
      * f_equal. assert (M (37 :: p) (c :: s) = M p (c :: s) || later (Some (p, c :: s))) as <- by done.
        destruct (M (37 :: p) (c :: s)) eqn:Em; [done|]. destruct (later star) eqn:El; [|done].
        by rw (later_next star (c :: s) p Hs El) in Em.
    + apply Hback; [done|]. cbn [matches]. rw (proj2 (Z.eqb_neq q 37) Hne). by rw Hq.
Qed.

(** Whatever the text, the loop ends. *)
Lemma like_loop_total P fuel s p star :
  match star with Some (_, ss) => (length s ≤ length ss)%nat | None => True end → enough P fuel s p star →
  ∃ r, like_loop eq fuel s p star = Some r.
Proof.
  revert s p star. induction fuel as [|fuel IH]; intros s p star Hs [HP Hf]; [destruct star as [[]|]; lia|].
  assert (s ≠ [] → ∃ r, match star with
    | Some (sp, ss) => like_loop eq fuel (tail ss) sp (Some (sp, tail ss))
    | None => Some false
    end = Some r) as Hback.
  { intros Hne. destruct star as [[sp ss]|]; [|by eexists]. destruct ss as [|c ss]; [destruct s; [done|cbn in Hs; lia]|]. cbn [tail].
    apply IH; [done|]. destruct Hf as [Hsp Hf]. cbn [length] in Hf. split; [done|]. split; [done|]. nia. }
  cbn [like_loop]. destruct s as [|c s]; [by eexists|]. destruct p as [|q p]; [by apply Hback|].
  destruct ((q =? 95) || eq q c).
  - apply IH; [destruct star as [[]|]; cbn in *; lia|]. split; [cbn in HP; lia|].
    destruct star as [[sp ss]|]; cbn [length] in *; [destruct Hf as [? Hf]; split; [done|lia]|nia].
  - destruct (q =? 37); [|by apply Hback]. apply IH; [done|]. split; [cbn in HP; lia|]. split; [cbn in HP; lia|].
    destruct star as [[sp ss]|]; cbn [length] in *; [|lia]. destruct Hf as [_ Hf].
    pose proof (Nat.mul_le_mono_r (S (length s)) (length ss) (P + 2) ltac:(lia)). lia.
Qed.
End correct.

(** On a text without [%] the loop ends and finds out whether the text matches. *)
Lemma like_loop_matches eq s p :
  (∀ c, c ∈ s → eq 37 c = false) → like_loop eq (like_fuel s p) s p None = Some (matches eq p s).
Proof.
  intros Heq. rw (like_loop_spec eq (length p)); [intros c [Hc|Hc]; [by apply Heq|by apply not_elem_of_nil in Hc]|done| |].
  - split; [done|]. unfold like_fuel. lia.
  - by rw orb_false_r.
Qed.

Lemma like_loop_ends eq s p : ∃ r, like_loop eq (like_fuel s p) s p None = Some r.
Proof. apply (like_loop_total eq (length p)); [done|]. split; [done|]. unfold like_fuel. lia. Qed.

Lemma ascii_chars s : is_ascii s = true → utf8_chars s = s.
Proof.
  induction s as [|b s IH]; [done|]. cbn [is_ascii forallb utf8_chars]. intros [-> Hs]%andb_true_iff. by rw IH.
Qed.

(** The characters of a text in lower case, as [ILIKE] compares them. *)
Definition lowered `{Unicode} (s : list Z) : str := utf8_chars s ≫= char_lower.

Lemma lower_ascii_special q c : (c = 37 ∨ c = 95) → (to_ascii_lowercase q =? c) = (q =? c).
Proof.
  intros Hc. unfold to_ascii_lowercase, between. destruct (Z.leb_spec 65 q), (Z.leb_spec q 90); cbn [andb]; try done.
  rw (proj2 (Z.eqb_neq (q + 32) c)); [lia|]. rw (proj2 (Z.eqb_neq q c)); [lia|done].
Qed.

Lemma suffixes_map (f : Z → Z) s : suffixes (map f s) = map (map f) (suffixes s).
Proof. induction s as [|c s IH]; cbn [map suffixes]; [done|]. by rw IH. Qed.

Lemma existsb_map {A B} (P : B → bool) (f : A → B) l : existsb P (map f l) = existsb (λ x, P (f x)) l.
Proof. induction l as [|x l IH]; cbn [map existsb]; [done|]. by rw IH. Qed.

(** Ignoring the case of two ASCII texts is lowering both. *)
Lemma matches_ascii_case p s :
  matches (ascii_eq true) p s = matches Z.eqb (map to_ascii_lowercase p) (map to_ascii_lowercase s).
Proof.
  revert s. induction p as [|q p IH]; intros s; cbn [map matches]; [by destruct s|].
  rw (lower_ascii_special q 37); [by left|]. rw (lower_ascii_special q 95); [by right|].
  destruct (q =? 37).
  - rw suffixes_map existsb_map. induction (suffixes s) as [|u us IHu]; cbn [existsb]; [done|]. by rw IH IHu.
  - destruct s as [|c s]; cbn [map]; [done|]. by rw IH.
Qed.

Lemma lowered_ascii `{Unicode} s : is_ascii s = true → lowered s = map to_ascii_lowercase s.
Proof.
  intros Hs. unfold lowered. rw (ascii_chars s Hs).
  induction s as [|c s IH]; [done|]. cbn [is_ascii forallb] in Hs. apply andb_true_iff in Hs as [Hc Hs].
  rw bind_cons (IH Hs). unfold char_lower. by rw Hc.
Qed.

Lemma not_percent (s : list Z) : 37 ∉ s → ∀ c, c ∈ s → (37 =? c) = false.
Proof. intros Hs c Hc. apply Z.eqb_neq. by intros <-. Qed.

(** C30: [LIKE] and [ILIKE] are pattern matching: for a text in which no [%] occurs
    the matcher, which goes back only to the last [%] of the pattern, ends and
    answers whether the characters of the text can be divided among the pattern,
    [LIKE] with the characters as they are and [ILIKE] with the characters of both
    in lower case, on the fast path over ASCII bytes as on the one over
    characters. A text with a [%] is the case of [like_percent_in_text]. *)
Theorem like_correct `{Unicode} s p :
  (37 ∉ utf8_chars s → like_match s p = Some (matches Z.eqb (utf8_chars p) (utf8_chars s))) ∧
  (37 ∉ lowered s → ilike_match s p = Some (matches Z.eqb (lowered p) (lowered s))).
Proof.
  unfold like_match, ilike_match, like_match_ascii, like_match_inner.
  destruct (is_ascii p && is_ascii s) eqn:Ha.
  - apply andb_true_iff in Ha as [Hp Ht]. rw (ascii_chars p Hp) (ascii_chars s Ht) (lowered_ascii p Hp) (lowered_ascii s Ht).
    rw -matches_ascii_case. split; intros Hs; apply like_loop_matches; intros c Hc; [by apply (not_percent s)|].
    apply (not_percent _ Hs). by apply list_elem_of_fmap_2.
  - split; intros Hs; apply like_loop_matches; by apply not_percent.
Qed.

(** [LIKE] and [ILIKE] end on every text and every pattern. *)
Theorem like_total `{Unicode} s p : (∃ r, like_match s p = Some r) ∧ (∃ r, ilike_match s p = Some r).
Proof. unfold like_match, ilike_match. split; case_match; apply like_loop_ends. Qed.

Lemma like_correct_witness :
  like_match (chars "stored procedure") (chars "st%o%ed_%e") = Some true ∧
  @ilike_match Lexer.ascii_only (chars "Stored Procedure") (chars "ST%o%ED_%e") = Some true.
Proof.
  split.
  - rw (proj1 (@like_correct Lexer.ascii_only (chars "stored procedure") (chars "st%o%ed_%e"))).
    + apply (bool_decide_eq_true_1 _). vm_compute. reflexivity.
    + vm_compute. reflexivity.
  - rw (proj2 (@like_correct Lexer.ascii_only (chars "Stored Procedure") (chars "ST%o%ED_%e"))).
    + apply (bool_decide_eq_true_1 _). vm_compute. reflexivity.
    + vm_compute. reflexivity.
Defined.

(** a [%] of the text is taken for the [%] of the pattern: ['100% sure'] is
    not found by ['%sure'] when the text begins with the sign, as ['%sure']. *)
Theorem like_percent_in_text :
  like_match (chars "%x sure") (chars "%sure") = Some false ∧
  matches Z.eqb (chars "%sure") (chars "%x sure") = true.
Proof. split; vm_compute; reflexivity. Qed.
End Like.
