(* ===== verification/DbFiles.v ===== *)
(** The files that say which databases and tables there are, and the store that
    keeps them with the files of the tables ([bytedb-core/src/dbstore/catalog.rs] and
    [registry.rs], [bytedb-query/src/executor/diskstore.rs]).

    The root directory is the registry file and a directory for each database. The
    JSON text of a catalog and the checksum are parameters; a device does not fail,
    and a rename is atomic. Names of databases are identifiers, so that no directory
    is called [.] or [..]. *)
From S2P Require Import Prelude ByteOrder Value DiskManager Schema Tuple Sql Literals Like TableFiles.
Import Value DiskManager.
Import Sql (chars, str).
Import Like (utf8_chars, utf8_bytes).

Module DbFiles.

(** ** The catalog of a database *)

Record IndexDef : Type := mkIndexDef { idx_name : str; idx_columns : list str; idx_unique : bool }.

(** [n as i64], read from eight bytes. *)
Definition i64_of (n : Z) : Z := wrap 64 (n + 2 ^ 63) - 2 ^ 63.

Section catalog.
Context {J : Type}.
Local Abbreviation Schema := (Schema.Schema (J := J)).

Record TableCatalog : Type := mkTableCatalog {
  name : str;
  table_id : Z;
  schema : Schema;
  sequences : list (str * Z);
  indexes : list IndexDef;
}.

Record DbCatalog : Type := mkDbCatalog { tables : list TableCatalog }.

Definition empty : DbCatalog := mkDbCatalog [].

(** The entry of a name is replaced, or a new one is added at the end. *)
Fixpoint upsert_in (t : TableCatalog) (l : list TableCatalog) : list TableCatalog :=
  match l with
  | [] => [t]
  | x :: l' => if bool_decide (name x = name t) then t :: l' else x :: upsert_in t l'
  end.
Definition upsert (c : DbCatalog) (t : TableCatalog) : DbCatalog := mkDbCatalog (upsert_in t (tables c)).

Definition remove (c : DbCatalog) (n : str) : DbCatalog * bool :=
  let kept := filter (λ t, name t ≠ n) (tables c) in
  (mkDbCatalog kept, negb (Nat.eqb (length kept) (length (tables c)))).

Definition find_table (n : str) (c : DbCatalog) : option TableCatalog := snd <$> list_find (λ t, name t = n) (tables c).

(** The first entry of a name is changed in place; [false] if there is none. *)
Fixpoint modify_in (n : str) (f : TableCatalog → TableCatalog) (l : list TableCatalog) : list TableCatalog * bool :=
  match l with
  | [] => ([], false)
  | x :: l' => if bool_decide (name x = n) then (f x :: l', true) else let '(l'', b) := modify_in n f l' in (x :: l'', b)
  end.
Definition modify (n : str) (f : TableCatalog → TableCatalog) (c : DbCatalog) : DbCatalog * bool :=
  let '(l, b) := modify_in n f (tables c) in (mkDbCatalog l, b).

Definition with_sequences (seqs : list (str * Z)) (t : TableCatalog) : TableCatalog :=
  mkTableCatalog (name t) (table_id t) (schema t) seqs (indexes t).
Definition with_indexes (defs : list IndexDef) (t : TableCatalog) : TableCatalog :=
  mkTableCatalog (name t) (table_id t) (schema t) (sequences t) defs.
End catalog.
Arguments TableCatalog J : clear implicits.
Arguments DbCatalog J : clear implicits.

(** [serde_json::to_vec] and [from_slice] at [DbCatalog]. *)
Class CatalogCodec (J : Type) := {
  cat_to_json : DbCatalog J → list Z;
  cat_from_json : list Z → option (DbCatalog J);
}.

(** The text of a catalog that JSON carries is read back: its name maps are those
    of its columns, which are not written, and its defaults are no floating-point
    numbers that JSON does not have. *)
Class CatalogCodecLaws (J : Type) `{!CatalogCodec J} (carries : DbCatalog J → Prop) : Prop := {
  cat_json_round_trip c : carries c → cat_from_json (cat_to_json c) = Some c;
}.

Section files.
Context {J : Type} `{!CatalogCodec J} `{!Crc32} `{!HashOrder}.

Definition CATALOG_MAGIC : list Z := chars "BCAT".
Definition CATALOG_VERSION : Z := 2.
Definition CATALOG_VERSION_LEGACY : Z := 1.
Definition catalog_path : list Z := chars "catalog.bin".
Definition catalog_tmp : list Z := chars "catalog.tmp".

Definition catalog_bytes (c : DbCatalog J) : list Z :=
  let payload := cat_to_json c in
  CATALOG_MAGIC ++ le_bytes 4 CATALOG_VERSION ++ TableFiles.prefixed payload ++ le_bytes 4 (crc32 payload).

Definition catalog_save (dir : TableFiles.Dir) (c : DbCatalog J) : TableFiles.Dir :=
  <[catalog_path := catalog_bytes c]> (delete catalog_tmp dir).

(** The part behind the version. *)
Definition catalog_payload (version : Z) (rest : list Z) : result (list Z) :=
  match TableFiles.read_prefixed rest with
  | None => Err Io
  | Some (buf, rest) =>
      if version =? CATALOG_VERSION then
        match TableFiles.read_le 4 rest with
        | None => Err Io
        | Some (stored, _) => if stored =? crc32 buf then Ok buf else Err (Internal "checksum mismatch (corruption)")
        end
      else Ok buf
  end.

Definition catalog_load (dir : TableFiles.Dir) : result (DbCatalog J) :=
  match dir !! catalog_path with
  | None => Ok empty
  | Some all =>
      match TableFiles.take_bytes 4 all with
      | None => Err Io
      | Some (magic, rest) =>
          if negb (bool_decide (magic = CATALOG_MAGIC)) then Err (Internal "bad magic")
          else
            match TableFiles.read_le 4 rest with
            | None => Err Io
            | Some (version, rest) =>
                if negb ((version =? CATALOG_VERSION) || (version =? CATALOG_VERSION_LEGACY)) then Err (Internal "unsupported version")
                else
                  match catalog_payload version rest with
                  | Err e => Err e
                  | Ok buf => match cat_from_json buf with Some c => Ok c | None => Err (Internal "catalog parse") end
                  end
            end
      end
  end.

(** ** The registry of databases *)

(** The root directory: [server.meta] and the directories of the databases. *)
Record Root : Type := mkRoot { meta : option (list Z); dirs : gmap (list Z) TableFiles.Dir }.

Record DatabaseRegistry : Type := mkRegistry { databases : gset str; default_db : str }.

Definition SERVER_META_MAGIC : list Z := chars "BSRV".
Definition SERVER_META_VERSION : Z := 1.

(** The names of a [BTreeSet] come in the order of their bytes. *)
Definition name_le (a b : str) : Prop := bcmp (utf8_bytes a) (utf8_bytes b) ≠ Gt.
#[local] Instance name_le_dec a b : Decision (name_le a b).
Proof. unfold name_le. apply _. Defined.
Definition list_databases (r : DatabaseRegistry) : list str := merge_sort name_le (elements (databases r)).

Definition contains (r : DatabaseRegistry) (n : str) : bool := bool_decide (n ∈ databases r).
Definition db_dir (n : str) : list Z := TableFiles.sanitize n.

Definition meta_bytes (r : DatabaseRegistry) : list Z :=
  SERVER_META_MAGIC ++ le_bytes 4 SERVER_META_VERSION ++ le_bytes 4 (wrap 32 (Z.of_nat (size (databases r)))) ++
  (list_databases r ≫= λ n, TableFiles.prefixed (utf8_bytes n)).

Definition write_meta (root : Root) (r : DatabaseRegistry) : Root := mkRoot (Some (meta_bytes r)) (dirs root).

(** The names, as many as the file says; [String::from_utf8] checks each. *)
Fixpoint read_names (count : nat) (rest : list Z) (out : gset str) : result (gset str) :=
  match count with
  | O => Ok out
  | S count' =>
      match TableFiles.read_prefixed rest with
      | None => Err Io
      | Some (nb, rest) =>
          if Tuple.Tuple.utf8_valid nb then read_names count' rest ({[utf8_chars nb]} ∪ out) else Err (Internal "invalid utf-8")
      end
  end.

Definition read_meta (all : list Z) : result (gset str) :=
  match TableFiles.take_bytes 4 all with
  | None => Err Io
  | Some (magic, rest) =>
      if negb (bool_decide (magic = SERVER_META_MAGIC)) then Err (Internal "server.meta: bad magic")
      else
        match TableFiles.read_le 4 rest with
        | None => Err Io
        | Some (version, rest) =>
            if SERVER_META_VERSION <? version then Err (Internal "server.meta: unsupported version")
            else
              match TableFiles.read_le 4 rest with
              | None => Err Io
              | Some (count, rest) => read_names (Z.to_nat count) rest ∅
              end
        end
  end.

(** [create_dir_all]: the directory exists afterwards. *)
Definition ensure_db_dir (root : Root) (n : str) : Root :=
  mkRoot (meta root) (<[db_dir n := default ∅ (dirs root !! db_dir n)]> (dirs root)).

Definition registry_open (root : Root) (default : str) : Root * result DatabaseRegistry :=
  match (match meta root with Some all => read_meta all | None => Ok ∅ end) with
  | Err e => (root, Err e)
  | Ok dbs =>
      let r := mkRegistry ({[default]} ∪ dbs) default in
      (write_meta (ensure_db_dir root default) r, Ok r)
  end.

Definition invalid_name : CoreError := Internal "invalid database name: must be 1..=128 chars".

Definition create_db (root : Root) (r : DatabaseRegistry) (n : str) : Root * DatabaseRegistry * result bool :=
  if bool_decide (n = []) || (128 <? zlen (utf8_bytes n)) then (root, r, Err invalid_name)
  else if contains r n then (root, r, Ok false)
  else
    let r' := mkRegistry ({[n]} ∪ databases r) (default_db r) in
    (write_meta (ensure_db_dir root n) r', r', Ok true).

Definition drop_db (root : Root) (r : DatabaseRegistry) (n : str) : Root * DatabaseRegistry * result bool :=
  if bool_decide (n = default_db r) then (root, r, Err (Internal "cannot drop default database"))
  else if negb (contains r n) then (root, r, Ok false)
  else
    let r' := mkRegistry (databases r ∖ {[n]}) (default_db r) in
    (write_meta (mkRoot (meta root) (delete (db_dir n) (dirs root))) r', r', Ok true).

(** ** The disk store *)

Record DiskStore : Type := mkStore { root : Root; registry : DatabaseRegistry; catalog : DbCatalog J; current_db : str }.

Definition dir_of (root : Root) (n : str) : TableFiles.Dir := default ∅ (dirs root !! db_dir n).
Definition store_dir (ds : DiskStore) : TableFiles.Dir := dir_of (root ds) (current_db ds).
Definition set_dir (d : TableFiles.Dir) (ds : DiskStore) : DiskStore :=
  mkStore (mkRoot (meta (root ds)) (<[db_dir (current_db ds) := d]> (dirs (root ds)))) (registry ds) (catalog ds) (current_db ds).

(** The catalog is changed and saved. *)
Definition save_catalog (c : DbCatalog J) (ds : DiskStore) : DiskStore :=
  set_dir (catalog_save (store_dir ds) c) (mkStore (root ds) (registry ds) c (current_db ds)).

Definition store_open (rt : Root) (default : str) : Root * result DiskStore :=
  match registry_open rt default with
  | (rt', Err e) => (rt', Err e)
  | (rt', Ok r) =>
      (rt', match catalog_load (dir_of rt' default) with Err e => Err e | Ok c => Ok (mkStore rt' r c default) end)
  end.

Definition create_database (n : str) (ds : DiskStore) : DiskStore * result bool :=
  let '(rt, r, res) := create_db (root ds) (registry ds) n in (mkStore rt r (catalog ds) (current_db ds), res).
Definition drop_database (n : str) (ds : DiskStore) : DiskStore * result bool :=
  let '(rt, r, res) := drop_db (root ds) (registry ds) n in (mkStore rt r (catalog ds) (current_db ds), res).

Definition switch_database (n : str) (ds : DiskStore) : DiskStore * result () :=
  if negb (contains (registry ds) n) then (ds, Err (Internal "Database not found"))
  else
    match catalog_load (dir_of (root ds) n) with
    | Err e => (ds, Err e)
    | Ok c => (mkStore (root ds) (registry ds) c n, Ok ())
    end.

Definition upsert_table (n : str) (id : Z) (sch : Schema.Schema) (seqs : list (str * Z)) (ds : DiskStore) : DiskStore :=
  let defs := from_option indexes [] (find_table n (catalog ds)) in
  save_catalog (upsert (catalog ds) (mkTableCatalog n id sch seqs defs)) ds.

Definition upsert_table_indexes (n : str) (defs : list IndexDef) (ds : DiskStore) : DiskStore :=
  match modify n (with_indexes defs) (catalog ds) with (c, true) => save_catalog c ds | (_, false) => ds end.

Definition drop_table (n : str) (ds : DiskStore) : DiskStore :=
  match remove (catalog ds) n with
  | (c, true) => let ds := save_catalog c ds in set_dir (TableFiles.drop_files (store_dir ds) n) ds
  | (_, false) => ds
  end.

Definition flush_table_data (n : str) (entries : list (list Z * list Z)) (ds : DiskStore) : DiskStore :=
  set_dir (TableFiles.compact_table (store_dir ds) n entries) ds.
Definition compact_table := flush_table_data.
Definition append_table_log (n : str) (ds : list TableFiles.LogDelta) (st : DiskStore) : DiskStore :=
  set_dir (TableFiles.log_append (store_dir st) n ds) st.
Definition table_log_bytes (n : str) (ds : DiskStore) : Z := TableFiles.log_size (store_dir ds) n.
Definition flush_table_sequences (n : str) (seqs : list (str * Z)) (ds : DiskStore) : DiskStore :=
  match modify n (with_sequences seqs) (catalog ds) with (c, true) => save_catalog c ds | (_, false) => ds end.
Definition load_table (n : str) (ds : DiskStore) : option (result (list (list Z * list Z))) := TableFiles.load_table_data (store_dir ds) n.
End files.
Arguments DiskStore J : clear implicits.
End DbFiles.
