(* ===== verification/Strings.v ===== *)
(** Operations of [str] and [String] the query engine calls, on the UTF-8 bytes of
    a text and on its characters. *)
From S2P Require Import Prelude ByteOrder Civil Literals Sql Like.
Import Sql Like.

Module Strings.

Fixpoint starts_with (p s : list Z) : bool :=
  match p, s with
  | [], _ => true
  | x :: p', y :: s' => (x =? y) && starts_with p' s'
  | _ :: _, [] => false
  end.

Definition ends_with (p s : list Z) : bool := starts_with (reverse p) (reverse s).

(** [s.find(p)], in bytes. *)
Fixpoint find (p s : list Z) : option nat :=
  if starts_with p s then Some 0%nat
  else match s with [] => None | _ :: s' => S <$> find p s' end.

Definition contains (p s : list Z) : bool := match find p s with Some _ => true | None => false end.

(** The parts between the occurrences of a separator that is not empty; [skip]
    bytes of one are still to be passed over. *)
Fixpoint split_at (sep : list Z) (skip : nat) (cur s : list Z) : list (list Z) :=
  match s with
  | [] => [reverse cur]
  | c :: s' =>
      match skip with
      | S k => split_at sep k cur s'
      | O => if starts_with sep s then reverse cur :: split_at sep (length sep - 1) [] s' else split_at sep 0 (c :: cur) s'
      end
  end.

(** [s.split(sep)]: an empty separator is found before, between and behind all
    characters. *)
Definition split (sep s : list Z) : list (list Z) :=
  match sep with
  | [] => [] :: map Literals.utf8_char (utf8_chars s) ++ [[]]
  | _ => split_at sep 0 [] s
  end.

Fixpoint join (sep : list Z) (parts : list (list Z)) : list Z :=
  match parts with
  | [] => []
  | [p] => p
  | p :: rest => p ++ sep ++ join sep rest
  end.

(** [s.replace(from, to)]. *)
Definition replace (from to s : list Z) : list Z := join to (split from s).

(** [pad.chars().cycle().take(n)]. *)
Definition cycle_take (n : nat) (pad : str) : str := take n (concat (replicate n pad)).

(** [str::parse::<i64>]: a sign and digits. *)
Definition parse_i64 (s : str) : option Z :=
  match s with
  | 45 :: r => match r with [] => None | _ => v ← Civil.digits_val 0 r; Civil.i64 (- v) end
  | 43 :: r => match r with [] => None | _ => v ← Civil.digits_val 0 r; Civil.i64 v end
  | [] => None
  | _ => v ← Civil.digits_val 0 s; Civil.i64 v
  end.

(** [s.split(|c| sep(c))] by characters. *)
Fixpoint split_by (sep : Z → bool) (cur : str) (s : str) : list str :=
  match s with
  | [] => [reverse cur]
  | c :: s' => if sep c then reverse cur :: split_by sep [] s' else split_by sep (c :: cur) s'
  end.

(** ** A text is its parts with the separator between them *)

Lemma starts_with_spec p s : starts_with p s = true ↔ ∃ r, s = p ++ r.
Proof.
  revert s. induction p as [|x p IH]; intros s; cbn [starts_with app]; [split; [by exists s|done]|].
  destruct s as [|y s]; [split; [done|by intros [r E]]|]. rw andb_true_iff Z.eqb_eq IH. split.
  - intros (-> & r & ->). by exists r.
  - intros [r E]. injection E as -> ->. split; [done|by exists r].
Qed.

Lemma join_cons sep p parts : parts ≠ [] → join sep (p :: parts) = p ++ sep ++ join sep parts.
Proof. by destruct parts. Qed.

Lemma split_at_nonempty sep skip cur s : split_at sep skip cur s ≠ [].
Proof. revert skip cur. induction s as [|c s IH]; intros [|k] cur; cbn [split_at]; try done. by case_match. Qed.

Lemma split_at_join sep skip cur s :
  sep ≠ [] → (skip ≤ length s)%nat → join sep (split_at sep skip cur s) = reverse cur ++ drop skip s.
Proof.
  intros Hsep. revert skip cur. induction s as [|c s IH]; intros skip cur Hk; cbn [split_at].
  - destruct skip; cbn; [by rw app_nil_r|cbn in Hk; lia].
  - destruct skip as [|k]; [|apply IH; cbn in Hk; lia]. destruct (starts_with sep (c :: s)) eqn:E.
    + apply starts_with_spec in E as [r E]. destruct sep as [|x sep]; [done|]. injection E as -> ->.
      rw join_cons; [apply split_at_nonempty|]. rw IH; [cbn; rw length_app; lia|]. cbn. rw Nat.sub_0_r.
      by rw drop_app_length.
    + rw IH; [lia|]. rw reverse_cons -app_assoc. done.
Qed.

(** Joining what [split] has taken apart gives the text back. *)
Lemma split_join sep s : sep ≠ [] → join sep (split sep s) = s.
Proof. intros Hsep. destruct sep as [|x sep]; [done|]. unfold split. rw split_at_join; [done|lia|]. done. Qed.
End Strings.
