(* ===== verification/Eval.v ===== *)
(** The evaluation of expressions over a row: [eval_value], [eval_predicate_tri]
    and the functions they call, of [bytedb-query/src/executor/engine.rs].

    Evaluating may panic (arithmetic overflow, and division of the least integer
    by -1) and may leave an error for the end of the statement (a scalar subquery
    with several rows); the monad [E] has both. The clock, the library function
    [powf], the [Debug] text of values and the execution of subqueries are the
    fields of the class [Engine]. *)
From S2P Require Import Prelude ByteOrder Value Civil Literals Schema Tuple Sql Like Strings Float64.
Import Value Sql Like Strings Float64.

(** ** Effects *)

(** The state says whether a subquery has left an error. *)
Definition E (A : Type) : Type := bool → option (A * bool).
#[export] Instance E_ret : MRet E := λ A a b, Some (a, b).
#[export] Instance E_bind : MBind E := λ A B f m b, '(a, b') ← m b; f a b'.

Class Engine (J : Type) : Type := {
  now_micros : Z;
  now_secs : Z;
  powf : Z → Z → Z;
  debug_value : Value J → list Z;
  run_subquery : SelectStmt → list (Value J) → Schema.Schema (J := J) → list (list (Value J));
}.

Module Eval.

(** [None] is a panic. *)
Definition panic_or {A} (o : option A) : E A := λ b, a ← o; Some (a, b).
Definition leave_error : E () := λ _, Some ((), true).

Fixpoint sequence {A} (l : list (E A)) : E (list A) :=
  match l with [] => mret [] | m :: l' => a ← m; r ← sequence l'; mret (a :: r) end.

(** A name as a key of a schema. *)
Definition key_of (s : str) : string :=
  String.string_of_list_ascii (map (λ b, Ascii.ascii_of_N (Z.to_N b)) (utf8_bytes s)).

Section eval.
Context {J : Type} `{Unicode} `{FloatText} `{Engine J}.
Local Abbreviation V := (Value J).
Local Abbreviation Schema := (Schema.Schema (J := J)).

Definition text (s : str) : V := Text (utf8_bytes s).

(** ** Casts *)

(** A unit and its plural. *)
Definition is_unit (u : string) (s : list Z) : bool :=
  ends_with (chars u) s || ends_with (chars u ++ [115]) s.

Definition interval_unit (s_lower : list Z) : option Z :=
  if is_unit "microsecond" s_lower then Some 1
  else if is_unit "millisecond" s_lower then Some 1000
  else if is_unit "second" s_lower then Some 1000000
  else if is_unit "minute" s_lower then Some 60000000
  else if is_unit "hour" s_lower then Some 3600000000
  else if is_unit "day" s_lower then Some 86400000000
  else if is_unit "week" s_lower then Some 604800000000
  else None.

Fixpoint drop_non_digits (s : str) : str :=
  match s with [] => [] | c :: s' => if is_ascii_digit c then s else drop_non_digits s' end.

Definition saturating_mul64 (a b : Z) : Z := Z.max (- 2 ^ 63) (Z.min (2 ^ 63 - 1) (a * b)).

Definition parse_interval (s : str) : option Z :=
  let s := Civil.trim s in
  us_per_unit ← interval_unit (to_lowercase s);
  let num_str := Civil.trim (reverse (drop_non_digits (reverse s))) in
  n ← parse_i64 num_str;
  Some (saturating_mul64 n us_per_unit).

Definition bool_text (b : bool) : list Z := chars (if b then "true" else "false").

(** [Null] where a conversion fails. *)
Definition or_null {A} (f : A → V) (o : option A) : V := match o with Some a => f a | None => Null end.

Definition cast_int (v : V) : V :=
  match v with
  | Int64 _ => v
  | Float64 f => Int64 (f64_as_i64 f)
  | Text s => or_null Int64 (parse_i64 (utf8_chars s))
  | Bool b => Int64 (if b then 1 else 0)
  | _ => Null
  end.

Definition cast_float (v : V) : V :=
  match v with
  | Float64 _ => v
  | Int64 n => Float64 (i64_as_f64 n)
  | Text s => or_null Float64 (parse_f64 (utf8_chars s))
  | _ => Null
  end.

Definition cast_text (v : V) : option V :=
  match v with
  | Text _ | Null => Some v
  | Int64 n => Some (Text (show_int n))
  | Float64 f => Some (text (display_f64 f))
  | Bool b => Some (Text (bool_text b))
  | Date d => Text <$> Civil.format_date d
  | Decimal m s => Some (Text (Literals.format_decimal m s))
  | Uuid b => Some (Text (Literals.format_uuid b))
  | Timestamp ts => Text <$> Civil.format_timestamp ts
  | Interval us => Some (Text (show_int us ++ chars " microseconds"))
  | _ => Some (Text (debug_value v))
  end.

Definition is_one_of (l : list string) (s : list Z) : bool := existsb (λ x, bool_decide (chars x = s)) l.

Definition cast_bool (v : V) : V :=
  match v with
  | Bool _ => v
  | Int64 n => Bool (negb (n =? 0))
  | Text s =>
      let l := to_lowercase (utf8_chars s) in
      if is_one_of ["true"; "t"; "1"; "yes"] l then Bool true
      else if is_one_of ["false"; "f"; "0"; "no"] l then Bool false
      else Null
  | _ => Null
  end.

Definition cast_decimal (v : V) : V :=
  match v with
  | Decimal _ _ => v
  | Int64 n => Decimal n 0
  | Float64 f => or_null (λ ms, Decimal ms.1 ms.2) (Literals.parse_decimal (display_f64 f))
  | Text s => or_null (λ ms, Decimal ms.1 ms.2) (Literals.parse_decimal (utf8_chars s))
  | _ => Null
  end.

(** [None] is a panic in the parsing or printing of a date. *)
Definition cast_value (v : V) (target : DataType) : option V :=
  match target with
  | TInt64 => Some (cast_int v)
  | TFloat64 => Some (cast_float v)
  | TText => cast_text v
  | TBool => Some (cast_bool v)
  | TDate =>
      match v with
      | Date _ => Some v
      | Text s => or_null Date <$> Civil.parse_date (utf8_chars s)
      | _ => Some Null
      end
  | TTimestamp =>
      match v with
      | Timestamp _ => Some v
      | Text s => or_null Timestamp <$> Civil.parse_timestamp (utf8_chars s)
      | Int64 n => Some (Timestamp n)
      | _ => Some Null
      end
  | TUuid =>
      Some match v with Uuid _ => v | Text s => or_null Uuid (Literals.parse_uuid (utf8_chars s)) | _ => Null end
  | TDecimal => Some (cast_decimal v)
  | TInterval =>
      Some match v with Interval _ => v | Text s => or_null Interval (parse_interval (utf8_chars s)) | _ => Null end
  | TBytes => Some match v with Bytes _ => v | Text s => Bytes s | _ => Null end
  | TJson => Some v
  end.

(** ** Operators *)

(** [a.checked_op(b)], or the same in floating point. *)
Definition checked (iop fop : Z → Z → Z) (a b : Z) : V :=
  if bool_decide (i64_ok (iop a b)) then Int64 (iop a b) else Float64 (fop (i64_as_f64 a) (i64_as_f64 b)).

(** [i as i32] and [n as i64] of a [usize]. *)
Definition as_i32 (i : Z) : Z := Tuple.signed 32 (wrap 32 i).
Definition as_i64 (n : Z) : Z := Tuple.signed 64 (wrap 64 n).

Definition eval_plus (l r : V) : option V :=
  match l, r with
  | Int64 a, Int64 b => Some (checked Z.add f64_add a b)
  | Float64 a, Float64 b => Some (Float64 (f64_add a b))
  | Int64 a, Float64 b => Some (Float64 (f64_add (i64_as_f64 a) b))
  | Float64 a, Int64 b => Some (Float64 (f64_add a (i64_as_f64 b)))
  | Text a, Text b => Some (Text (a ++ b))
  | Timestamp t, Interval i | Interval i, Timestamp t => Timestamp <$> Civil.i64 (t + i)
  | Date d, Interval i | Interval i, Date d => Date <$> Civil.i32 (d + as_i32 i)
  | Interval a, Interval b => Interval <$> Civil.i64 (a + b)
  | _, _ => Some Null
  end.

Definition eval_minus (l r : V) : option V :=
  match l, r with
  | Int64 a, Int64 b => Some (checked Z.sub f64_sub a b)
  | Float64 a, Float64 b => Some (Float64 (f64_sub a b))
  | Int64 a, Float64 b => Some (Float64 (f64_sub (i64_as_f64 a) b))
  | Float64 a, Int64 b => Some (Float64 (f64_sub a (i64_as_f64 b)))
  | Timestamp t, Interval i => Timestamp <$> Civil.i64 (t - i)
  | Date d, Interval i => Date <$> Civil.i32 (d - as_i32 i)
  | Interval a, Interval b => Interval <$> Civil.i64 (a - b)
  | _, _ => Some Null
  end.

Definition eval_mul (l r : V) : option V :=
  match l, r with
  | Int64 a, Int64 b => Some (checked Z.mul f64_mul a b)
  | Float64 a, Float64 b => Some (Float64 (f64_mul a b))
  | Int64 a, Float64 b => Some (Float64 (f64_mul (i64_as_f64 a) b))
  | Float64 a, Int64 b => Some (Float64 (f64_mul a (i64_as_f64 b)))
  | Interval i, Int64 n | Int64 n, Interval i => Interval <$> Civil.i64 (i * n)
  | _, _ => Some Null
  end.

Definition f64_zero (f : Z) : bool := f mod 2 ^ 63 =? 0.

Definition eval_div (l r : V) : option V :=
  match l, r with
  | Int64 a, Int64 b => Some (if b =? 0 then Null else checked Z.quot f64_div a b)
  | Float64 a, Float64 b => Some (if f64_zero b then Null else Float64 (f64_div a b))
  | Int64 a, Float64 b => Some (if f64_zero b then Null else Float64 (f64_div (i64_as_f64 a) b))
  | Float64 a, Int64 b => Some (if b =? 0 then Null else Float64 (f64_div a (i64_as_f64 b)))
  | Interval i, Int64 n => if n =? 0 then Some Null else Interval <$> Civil.i64 (Z.quot i n)
  | _, _ => Some Null
  end.

(** The only remainder [checked_rem] refuses is that of the least integer by -1. *)
Definition rem_overflows (a b : Z) : bool := (a =? - 2 ^ 63) && (b =? -1).

Definition eval_mod (l r : V) : V :=
  match l, r with
  | Int64 a, Int64 b => if b =? 0 then Null else if rem_overflows a b then Int64 0 else Int64 (Z.rem a b)
  | Float64 a, Float64 b => if f64_zero b then Null else Float64 (f64_rem a b)
  | _, _ => Null
  end.

(** A comparison of what [compare] says. *)
Definition order_holds (op : BinOp) (c : option comparison) : bool :=
  match op, c with
  | OpEq, Some Eq | OpLt, Some Lt | OpGt, Some Gt | OpLte, Some (Lt | Eq) | OpGte, Some (Gt | Eq) => true
  | _, _ => false
  end.

Definition eval_binary (op : BinOp) (l r : V) : option V :=
  match op with
  | OpPlus => eval_plus l r
  | OpMinus => eval_minus l r
  | OpMul => eval_mul l r
  | OpDiv => eval_div l r
  | OpMod => Some (eval_mod l r)
  | OpNeq => c ← compare l r; Some (Bool (negb (order_holds OpEq c)))
  | OpEq | OpLt | OpGt | OpLte | OpGte => c ← compare l r; Some (Bool (order_holds op c))
  | OpAnd => Some match l, r with Bool a, Bool b => Bool (a && b) | _, _ => Null end
  | OpOr => Some match l, r with Bool a, Bool b => Bool (a || b) | _, _ => Null end
  | OpLike => match l, r with Text s, Text p => Bool <$> like_match s p | _, _ => Some Null end
  | OpIlike => match l, r with Text s, Text p => Bool <$> ilike_match s p | _, _ => Some Null end
  end.

Definition eval_unary (op : UnaryOp) (v : V) : V :=
  match op, v with
  | OpNeg, Int64 n => if n =? - 2 ^ 63 then Float64 (f64_neg (i64_as_f64 n)) else Int64 (- n)
  | OpNeg, Float64 f => Float64 (f64_neg f)
  | OpNot, Bool b => Bool (negb b)
  | _, _ => Null
  end.

Definition eval_literal (v : LiteralValue) : V :=
  match v with
  | Integer n => Int64 n
  | Float f => Float64 f
  | LString s => text s
  | LBool b => Bool b
  | LNull => Null
  | LHexBlob bytes => Bytes bytes
  end.

Definition column_value (schema : Schema) (tuple : list V) (name : str) : option V :=
  i ← Schema.column_index schema (key_of name); Some (default Null (tuple !! i)).

(** ** Functions *)

Inductive Func :=
  | FCoalesce | FNullif | FGreatest | FLeast | FUpper | FLower | FBlobSize | FBlob | FLength | FTrim | FConcat
  | FConcatWs | FSplitPart | FStartsWith | FEndsWith | FContains | FReplace | FSubstring | FAbs | FCeil | FFloor
  | FRound | FPower | FSqrt | FMod | FNow | FCurrentDate | FCurrentTime | FExtract | FPosition | FLeft | FRight
  | FLpad | FRpad | FRepeat | FReverse | FInitcap | FCharLength | FOctetLength | FSign.

Definition functions : list (string * Func) :=
  [("COALESCE", FCoalesce); ("NULLIF", FNullif); ("GREATEST", FGreatest); ("LEAST", FLeast); ("UPPER", FUpper);
   ("LOWER", FLower); ("BLOB_SIZE", FBlobSize); ("BLOB", FBlob); ("LENGTH", FLength); ("TRIM", FTrim);
   ("CONCAT", FConcat); ("CONCAT_WS", FConcatWs); ("SPLIT_PART", FSplitPart); ("STARTS_WITH", FStartsWith);
   ("ENDS_WITH", FEndsWith); ("CONTAINS", FContains); ("REPLACE", FReplace); ("SUBSTRING", FSubstring);
   ("SUBSTR", FSubstring); ("ABS", FAbs); ("CEIL", FCeil); ("CEILING", FCeil); ("FLOOR", FFloor); ("ROUND", FRound);
   ("POWER", FPower); ("POW", FPower); ("SQRT", FSqrt); ("MOD", FMod); ("NOW", FNow); ("CURRENT_TIMESTAMP", FNow);
   ("CURRENT_DATE", FCurrentDate); ("CURRENT_TIME", FCurrentTime); ("EXTRACT", FExtract); ("POSITION", FPosition);
   ("STRPOS", FPosition); ("LEFT", FLeft); ("RIGHT", FRight); ("LPAD", FLpad); ("RPAD", FRpad); ("REPEAT", FRepeat);
   ("REVERSE", FReverse); ("INITCAP", FInitcap); ("CHAR_LENGTH", FCharLength); ("CHARACTER_LENGTH", FCharLength);
   ("OCTET_LENGTH", FOctetLength); ("SIGN", FSign)].

Definition func_of (upper_name : str) : option Func :=
  snd <$> (snd <$> list_find (λ kf : string * Func, chars kf.1 = upper_name) functions).

(** A function of the first argument, of exactly two, of exactly three. *)
Definition with1 (args : list (E V)) (f : V → option V) : E V :=
  match args with a :: _ => v ← a; panic_or (f v) | [] => mret Null end.
Definition with2 (args : list (E V)) (f : V → V → option V) : E V :=
  match args with [a; b] => v ← a; w ← b; panic_or (f v w) | _ => mret Null end.
Definition with3 (args : list (E V)) (f : V → V → V → option V) : E V :=
  match args with [a; b; c] => v ← a; w ← b; x ← c; panic_or (f v w x) | _ => mret Null end.

Fixpoint coalesce (args : list (E V)) : E V :=
  match args with [] => mret Null | a :: args' => v ← a; if is_null v then coalesce args' else mret v end.

Definition nullif (a b : V) : option V :=
  c ← compare a b; Some (if bool_decide (c = Some Eq) then Null else a).

(** [GREATEST] and [LEAST]: [c] is the order in which a value replaces the best
    one so far. *)
Fixpoint best_of (c : comparison) (best : option V) (args : list (E V)) : E V :=
  match args with
  | [] => mret (default Null best)
  | a :: args' =>
      v ← a;
      if is_null v then best_of c best args'
      else
        match best with
        | None => best_of c (Some v) args'
        | Some b =>
            o ← panic_or (compare v b);
            best_of c (Some (if bool_decide (o = Some c) then v else b)) args'
        end
  end.

(** The text of an argument of [CONCAT] and [CONCAT_WS]. *)
Definition concat_text (v : V) : option (list Z) :=
  match v with
  | Text s => Some s
  | Int64 n => Some (show_int n)
  | Float64 f => Some (utf8_bytes (display_f64 f))
  | Bool b => Some (bool_text b)
  | _ => None
  end.

Definition concat_ws (args : list (E V)) : E V :=
  match args with
  | [] => mret Null
  | a :: rest =>
      sep ← a;
      match sep with
      | Text sep => vs ← sequence rest; mret (Text (join sep (omap concat_text vs)))
      | _ => mret Null
      end
  end.

Definition split_part (s sep n : V) : option V :=
  match s, sep, n with
  | Text s, Text sep, Int64 n => k ← Civil.i64 (n - 1); Some (Text (default [] (split sep s !! Z.to_nat (wrap 64 k))))
  | _, _, _ => Some Null
  end.

(** [chars().skip(start).take(l)]; without a length to the end. *)
Definition substring_of (start : Z) (len : option V) (l : list Z) : list Z :=
  let rest := drop (Z.to_nat (Z.max start 1 - 1)) l in
  match len with Some (Int64 n) => take (Z.to_nat (Z.max n 0)) rest | _ => rest end.

Definition substring (s start : V) (len : option V) : V :=
  match s, start with
  | Text s, Int64 start => text (substring_of start len (utf8_chars s))
  | Bytes b, Int64 start => Bytes (substring_of start len b)
  | _, _ => Null
  end.

Definition fn_substring (args : list (E V)) : E V :=
  match args with
  | a :: b :: rest =>
      s ← a;
      start ← b;
      len ← (match rest with c :: _ => l ← c; mret (Some l) | [] => mret None end : E (option V));
      mret (substring s start len)
  | _ => mret Null
  end.

Definition abs (v : V) : V :=
  match v with
  | Int64 n => if n =? - 2 ^ 63 then Float64 (f64_abs (i64_as_f64 n)) else Int64 (Z.abs n)
  | Float64 f => Float64 (f64_abs f)
  | _ => Null
  end.

Definition rounded (r : Z → Z) (v : V) : V :=
  match v with Float64 f => Float64 (r f) | Int64 n => Int64 n | _ => Null end.

Definition power (b e : V) : V :=
  match b, e with
  | Float64 b, Float64 e => Float64 (powf b e)
  | Int64 b, Int64 e => Float64 (powf (i64_as_f64 b) (i64_as_f64 e))
  | _, _ => Null
  end.

Definition sqrt (v : V) : V :=
  match v with
  | Float64 f => if f64_is Gt f 0 || f64_is Eq f 0 then Float64 (f64_sqrt f) else Null
  | Int64 n => if 0 <=? n then Float64 (f64_sqrt (i64_as_f64 n)) else Null
  | _ => Null
  end.

(** The function, unlike the operator, panics on the least integer by -1. *)
Definition mod_fn (a b : V) : option V :=
  match a, b with
  | Int64 x, Int64 y => if y =? 0 then Some Null else if rem_overflows x y then None else Some (Int64 (Z.rem x y))
  | Float64 x, Float64 y => Some (if f64_zero y then Null else Float64 (f64_rem x y))
  | _, _ => Some Null
  end.

(** [days_to_ymd] for days after 1970. *)
Definition days_to_ymd (days : Z) : Z * Z * Z :=
  let z := days + 719468 in
  let era := Z.quot (if 0 <=? z then z else z - 146096) 146097 in
  let doe := z - era * 146097 in
  let yoe := (doe - doe / 1460 + doe / 36524 - doe / 146096) / 365 in
  let y := yoe + era * 400 in
  let doy := doe - (365 * yoe + yoe / 4 - yoe / 100) in
  let mp := (5 * doy + 2) / 153 in
  let d := doy - (153 * mp + 2) / 5 + 1 in
  let m := if mp <? 10 then mp + 3 else mp - 9 in
  (if m <=? 2 then y + 1 else y, m, d).

Definition chrono_now : list Z :=
  let secs := now_secs in
  let '(y, m, d) := days_to_ymd (secs / 86400) in
  let t := secs mod 86400 in
  let two := Civil.show_padded 2 in
  Civil.show_padded 4 y ++ [45] ++ two m ++ [45] ++ two d ++ [32] ++ two (t / 3600) ++ [58] ++
  two (t mod 3600 / 60) ++ [58] ++ two (t mod 60).

Definition extract_from_timestamp (field : str) (v : V) : V :=
  match v with
  | Text s =>
      let parts := split_by (λ c, (c =? 45) || (c =? 32) || (c =? 58) || (c =? 84)) [] (utf8_chars s) in
      let part (i : nat) := or_null Int64 (p ← parts !! i; parse_i64 p) in
      if is_one_of ["YEAR"] field then part 0%nat
      else if is_one_of ["MONTH"] field then part 1%nat
      else if is_one_of ["DAY"] field then part 2%nat
      else if is_one_of ["HOUR"] field then part 3%nat
      else if is_one_of ["MINUTE"] field then part 4%nat
      else if is_one_of ["SECOND"] field then part 5%nat
      else Null
  | _ => Null
  end.

Definition fn_extract (exprs : list Expr) (args : list (E V)) : E V :=
  match exprs, args with
  | [Column name; _], [_; a] => v ← a; mret (extract_from_timestamp (to_uppercase name) v)
  | _, _ => mret Null
  end.

(** The position is one of bytes. *)
Definition position (sub s : V) : option V :=
  match sub, s with
  | Text needle, Text haystack =>
      match find needle haystack with Some i => Int64 <$> Civil.i64 (as_i64 (Z.of_nat i) + 1) | None => Some (Int64 0) end
  | _, _ => Some Null
  end.

Definition left_of (s n : V) : V :=
  match s, n with Text s, Int64 n => text (take (Z.to_nat (Z.max n 0)) (utf8_chars s)) | _, _ => Null end.
Definition right_of (s n : V) : V :=
  match s, n with
  | Text s, Int64 n =>
      let cs := utf8_chars s in text (drop (length cs - Z.to_nat (Z.max n 0)) cs)
  | _, _ => Null
  end.

(** [LPAD] and [RPAD]. *)
Definition pad_with (on_left : bool) (s : list Z) (n : Z) (pad : list Z) : V :=
  let cs := utf8_chars s in
  let n := Z.to_nat (Z.max n 0) in
  if (n <=? length cs)%nat then text (take n cs)
  else
    let padding := utf8_bytes (cycle_take (n - length cs) (utf8_chars pad)) in
    Text (if on_left then padding ++ s else s ++ padding).

Definition fn_pad (on_left : bool) (args : list (E V)) : E V :=
  match args with
  | a :: b :: rest =>
      s ← a;
      match s with
      | Text s =>
          n ← b;
          match n with
          | Int64 n =>
              pad ← (match rest with
                     | c :: _ => p ← c; mret (match p with Text p => p | _ => [32] end)
                     | [] => mret [32]
                     end : E (list Z));
              mret (pad_with on_left s n pad)
          | _ => mret Null
          end
      | _ => mret Null
      end
  | _ => mret Null
  end.

Definition repeat_text (s n : V) : V :=
  match s, n with
  | Text s, Int64 n =>
      let count := Z.max n 0 in
      if zlen s * count <=? 64 * 1024 * 1024 then Text (concat (replicate (Z.to_nat count) s)) else Null
  | _, _ => Null
  end.

(** The first character of [c.to_uppercase()], or [c]. *)
Definition first_of (c : Z) (s : str) : Z := default c (head s).

Fixpoint initcap (cap_next : bool) (s : str) : str :=
  match s with
  | [] => []
  | c :: s' =>
      if cap_next then first_of c (char_upper c) :: initcap false s'
      else if Civil.is_whitespace c then c :: initcap true s'
      else first_of c (char_lower c) :: initcap false s'
  end.

Definition sign (v : V) : V :=
  match v with
  | Int64 n => Int64 (Z.sgn n)
  | Float64 f => Int64 (if f64_is Gt f 0 then 1 else if f64_is Lt f 0 then -1 else 0)
  | _ => Null
  end.

Definition map_text (f : str → str) (v : V) : V := match v with Text s => text (f (utf8_chars s)) | _ => Null end.
Definition test_text (f : list Z → list Z → bool) (a b : V) : V :=
  match a, b with Text s, Text p => Bool (f p s) | _, _ => Null end.

Definition call (f : Func) (exprs : list Expr) (args : list (E V)) : E V :=
  match f with
  | FCoalesce => coalesce args
  | FNullif => with2 args nullif
  | FGreatest => best_of Gt None args
  | FLeast => best_of Lt None args
  | FUpper => with1 args (λ v, Some (map_text to_uppercase v))
  | FLower => with1 args (λ v, Some (map_text to_lowercase v))
  | FBlobSize => with1 args (λ v, Some match v with Bytes b => Int64 (as_i64 (zlen b)) | _ => Null end)
  | FBlob => with1 args (λ v, Some match v with Text s => Bytes s | Bytes b => Bytes b | _ => Null end)
  | FLength =>
      with1 args (λ v, Some match v with Text s => Int64 (as_i64 (zlen (utf8_chars s))) | Bytes b => Int64 (as_i64 (zlen b)) | _ => Null end)
  | FTrim => with1 args (λ v, Some (map_text Civil.trim v))
  | FConcat => vs ← sequence args; mret (Text (concat (omap concat_text vs)))
  | FConcatWs => concat_ws args
  | FSplitPart => with3 args split_part
  | FStartsWith => with2 args (λ a b, Some (test_text starts_with a b))
  | FEndsWith => with2 args (λ a b, Some (test_text ends_with a b))
  | FContains => with2 args (λ a b, Some (test_text contains a b))
  | FReplace =>
      with3 args (λ a b c, Some match a, b, c with Text s, Text f, Text t => Text (replace f t s) | _, _, _ => Null end)
  | FSubstring => fn_substring args
  | FAbs => with1 args (λ v, Some (abs v))
  | FCeil => with1 args (λ v, Some (rounded f64_ceil v))
  | FFloor => with1 args (λ v, Some (rounded f64_floor v))
  | FRound => with1 args (λ v, Some (rounded f64_round v))
  | FPower => with2 args (λ a b, Some (power a b))
  | FSqrt => with1 args (λ v, Some (sqrt v))
  | FMod => with2 args mod_fn
  | FNow => mret (Timestamp now_micros)
  | FCurrentDate => mret (Date (as_i32 (now_secs / 86400)))
  | FCurrentTime => mret (Text chrono_now)
  | FExtract => fn_extract exprs args
  | FPosition => with2 args position
  | FLeft => with2 args (λ a b, Some (left_of a b))
  | FRight => with2 args (λ a b, Some (right_of a b))
  | FLpad => fn_pad true args
  | FRpad => fn_pad false args
  | FRepeat => with2 args (λ a b, Some (repeat_text a b))
  | FReverse => with1 args (λ v, Some (map_text reverse v))
  | FInitcap => with1 args (λ v, Some (map_text (initcap true) v))
  | FCharLength => with1 args (λ v, Some match v with Text s => Int64 (as_i64 (zlen (utf8_chars s))) | _ => Null end)
  | FOctetLength => with1 args (λ v, Some match v with Text s | Bytes s => Int64 (as_i64 (zlen s)) | _ => Null end)
  | FSign => with1 args (λ v, Some (sign v))
  end.

(** The column an aggregate has been computed into: [count( * )], [sum(x)]. *)
Definition aggregate_column (name : str) (exprs : list Expr) : str :=
  let arg := match exprs with Column c :: _ => c | _ => chars "*" end in
  to_lowercase name ++ chars "(" ++ arg ++ chars ")".

Definition eval_function (schema : Schema) (tuple : list V) (name : str) (exprs : list Expr) (args : list (E V)) : E V :=
  let upper_name := to_uppercase name in
  let computed :=
    if is_one_of ["COUNT"; "SUM"; "AVG"; "MIN"; "MAX"] upper_name
    then column_value schema tuple (aggregate_column name exprs) else None in
  match computed with
  | Some v => mret v
  | None => match func_of upper_name with Some f => call f exprs args | None => mret Null end
  end.

(** ** Expressions *)

Fixpoint case_operand (op_val : V) (whens : list (E V * E V)) : E (option (E V)) :=
  match whens with
  | [] => mret None
  | (w, t) :: whens' =>
      v ← w;
      o ← panic_or (compare op_val v);
      if bool_decide (o = Some Eq) then mret (Some t) else case_operand op_val whens'
  end.

Fixpoint case_search (whens : list (E V * E V)) : E (option (E V)) :=
  match whens with
  | [] => mret None
  | (w, t) :: whens' => v ← w; match v with Bool true => mret (Some t) | _ => case_search whens' end
  end.

(** [any] over values that are computed one after the other. *)
Fixpoint any_equal (v : V) (items : list (E V)) : E bool :=
  match items with
  | [] => mret false
  | i :: items' =>
      w ← i;
      o ← panic_or (compare v w);
      if bool_decide (o = Some Eq) then mret true else any_equal v items'
  end.

Definition eval_case (operand : option (E V)) (whens : list (E V * E V)) (els : option (E V)) : E V :=
  hit ← (match operand with
         | Some o => v ← o; case_operand v whens
         | None => case_search whens
         end : E (option (E V)));
  match hit with
  | Some t => t
  | None => match els with Some e => e | None => mret Null end
  end.

Definition in_list (e : E V) (items : list (E V)) : E V :=
  v ← e; found ← any_equal v items; mret (Bool found).

Definition between (e low high : E V) : E V :=
  v ← e;
  l ← low;
  h ← high;
  cl ← panic_or (compare v l);
  ch ← panic_or (compare v h);
  mret (Bool (order_holds OpGte cl && order_holds OpLte ch)).

(** A subquery as a value: more than one row is an error of the statement. *)
Definition scalar_subquery (rows : list (list V)) : E V :=
  match rows with
  | _ :: _ :: _ => _ ← leave_error; mret Null
  | [row] => mret (default Null (head row))
  | [] => mret Null
  end.

(** The rows of a subquery of which the first column is compared. *)
Definition first_columns (rows : list (list V)) : list (E V) := omap (λ row, mret <$> head row) rows.

Section row.
Context (schema : Schema) (tuple : list V).

Fixpoint eval_value (e : Expr) : E V :=
  match e with
  | Column name => mret (default Null (column_value schema tuple name))
  | QualifiedColumn t c =>
      mret match column_value schema tuple c with
           | Some v => v
           | None => default Null (column_value schema tuple (t ++ chars "." ++ c))
           end
  | Literal v => mret (eval_literal v)
  | IntervalLit s => mret (Interval (default 0 (parse_interval s)))
  | BinaryOp l op r => lv ← eval_value l; rv ← eval_value r; panic_or (eval_binary op lv rv)
  | Unary op e => v ← eval_value e; mret (eval_unary op v)
  | Function name args => eval_function schema tuple name args (map eval_value args)
  | Case operand whens els =>
      eval_case (eval_value <$> operand) (map (λ wt, (eval_value wt.1, eval_value wt.2)) whens) (eval_value <$> els)
  | Cast e dt => v ← eval_value e; panic_or (cast_value v dt)
  | IsNull e => v ← eval_value e; mret (Bool (is_null v))
  | IsNotNull e => v ← eval_value e; mret (Bool (negb (is_null v)))
  | InList e l => in_list (eval_value e) (map eval_value l)
  | Between e lo hi => between (eval_value e) (eval_value lo) (eval_value hi)
  | Subquery q => scalar_subquery (run_subquery q tuple schema)
  | ExistsQuery q => mret (Bool (match run_subquery q tuple schema with [] => false | _ => true end))
  | InSubquery e q => in_list (eval_value e) (first_columns (run_subquery q tuple schema))
  | JsonPath _ | WindowFunction _ _ _ _ | DefaultExpr => mret Null
  end.

(** What a value says as a condition. *)
Definition truth (v : V) : option bool := match v with Bool b => Some b | Null => None | _ => Some true end.

Definition tri_compare (op : BinOp) (l r : V) : option (option bool) :=
  if is_null l || is_null r then Some None
  else
    c ← compare l r;
    Some (Some match op with OpNeq => bool_decide (c = Some Lt ∨ c = Some Gt) | _ => order_holds op c end).

Definition tri_like (op : BinOp) (l r : V) : option (option bool) :=
  if is_null l || is_null r then Some None
  else
    match l, r with
    | Text s, Text p => Some <$> (match op with OpLike => like_match s p | _ => ilike_match s p end)
    | _, _ => Some (Some false)
    end.

(** [Some true] as soon as an item equals [v]; otherwise [None] if there was a NULL. *)
Fixpoint tri_in (v : V) (saw_null : bool) (items : list (E V)) : E (option bool) :=
  match items with
  | [] => mret (if saw_null then None else Some false)
  | i :: items' =>
      iv ← i;
      if is_null iv then tri_in v true items'
      else
        o ← panic_or (compare v iv);
        if bool_decide (o = Some Eq) then mret (Some true) else tri_in v saw_null items'
  end.

(** One side of [BETWEEN]. *)
Definition tri_bound (op : BinOp) (v bound : V) : option (option bool) :=
  if is_null bound then Some None else c ← compare v bound; Some (Some (order_holds op c)).

Definition tri_both (a b : option bool) : option bool :=
  match a, b with
  | Some false, _ | _, Some false => Some false
  | Some true, Some true => Some true
  | _, _ => None
  end.
Definition tri_either (a b : option bool) : option bool :=
  match a, b with
  | Some true, _ | _, Some true => Some true
  | Some false, Some false => Some false
  | _, _ => None
  end.

Fixpoint eval_predicate_tri (e : Expr) : E (option bool) :=
  match e with
  | BinaryOp a OpAnd b =>
      l ← eval_predicate_tri a;
      if bool_decide (l = Some false) then mret (Some false)
      else r ← eval_predicate_tri b; mret (tri_both l r)
  | BinaryOp a OpOr b =>
      l ← eval_predicate_tri a;
      if bool_decide (l = Some true) then mret (Some true)
      else r ← eval_predicate_tri b; mret (tri_either l r)
  | BinaryOp a ((OpEq | OpNeq | OpLt | OpGt | OpLte | OpGte) as op) b =>
      l ← eval_value a; r ← eval_value b; panic_or (tri_compare op l r)
  | BinaryOp a ((OpLike | OpIlike) as op) b =>
      l ← eval_value a; r ← eval_value b; panic_or (tri_like op l r)
  | Unary OpNot inner => t ← eval_predicate_tri inner; mret (negb <$> t)
  | IsNull inner => v ← eval_value inner; mret (Some (is_null v))
  | IsNotNull inner => v ← eval_value inner; mret (Some (negb (is_null v)))
  | Between e lo hi =>
      v ← eval_value e;
      if is_null v then mret None
      else
        l ← eval_value lo;
        h ← eval_value hi;
        ge ← panic_or (tri_bound OpGte v l);
        le ← panic_or (tri_bound OpLte v h);
        mret (tri_both ge le)
  | InList e l =>
      v ← eval_value e;
      if is_null v then mret None else tri_in v false (map eval_value l)
  | _ => v ← eval_value e; mret (truth v)
  end.

Definition eval_predicate (e : Expr) : E bool := t ← eval_predicate_tri e; mret (default false t).
Definition eval_check (e : Expr) : E bool := t ← eval_predicate_tri e; mret (default true t).
End row.
End eval.
End Eval.
