(* ===== verification/Scan.v ===== *)
(** Filtering the rows of a table ([try_fast_filter], the sequential scan and
    [parallel_filter_leaves] of [bytedb-query/src/executor/engine.rs]).

    A scan may decide a comparison of a column with a literal on the encoded row
    ([raw_filter_matches]) before it decodes the row and evaluates the filter. *)
From S2P Require Import Prelude ByteOrder Value OrderKey Schema Tuple Sql Lexer Like Strings Eval.
Import Value OrderKey Sql Eval.

Module Scan.

Section scan.
Context {J : Type} `{!JsonShow J, !JsonRead J} `{!Codecs} `{Unicode} `{FloatText} `{!Engine J}.
Local Abbreviation V := (Value J).
Local Abbreviation Schema := (Schema.Schema (J := J)).

(** ** Filters on the encoded row *)

(** A blob is not among the literals [eval_expr_simple] knows. *)
Definition eval_expr_simple (e : Expr) : V :=
  match e with
  | Literal (LHexBlob _) => Null
  | Literal v => eval_literal v
  | _ => Null
  end.

Definition is_comparison (op : BinOp) : bool :=
  match op with OpEq | OpNeq | OpLt | OpGt | OpLte | OpGte => true | _ => false end.

(** [literal op column] as [column op literal]. *)
Definition flip (op : BinOp) : BinOp :=
  match op with OpLt => OpGt | OpGt => OpLt | OpLte => OpGte | OpGte => OpLte | _ => op end.

Definition try_fast_filter (e : Expr) (schema : Schema) : option (nat * BinOp * V) :=
  match e with
  | BinaryOp l op r =>
      if is_comparison op then
        match l, r with
        | Column name, Literal lit =>
            idx ← Schema.column_index schema (key_of name); Some (idx, op, eval_expr_simple (Literal lit))
        | Literal lit, Column name =>
            idx ← Schema.column_index schema (key_of name); Some (idx, flip op, eval_expr_simple (Literal lit))
        | _, _ => None
        end
      else None
  | _ => None
  end.

Definition op_code (op : BinOp) : Z :=
  match op with OpEq => 0 | OpNeq => 1 | OpLt => 2 | OpGt => 3 | OpLte => 4 | OpGte => 5 | _ => 255 end.

Definition raw_filter (fast : option (nat * BinOp * V)) (data : list Z) : option bool :=
  '(idx, op, lit) ← fast; Tuple.raw_filter_matches data idx (op_code op) lit.

(** ** Scans *)

(** [decode_row] of a row without references to blobs. *)
Definition decode_row (data : list Z) : option (list V) := Tuple.deserialize data.

(** All the columns, or the needed ones. *)
Definition decode_needed (needed : option (list Z)) (data : list Z) : option (list V) :=
  match needed with Some nc => Tuple.deserialize_columns data nc | None => decode_row data end.

(** Decode the row and evaluate the filter. *)
Definition slow_row (needed : option (list Z)) (schema : Schema) (filter : option Expr) (data : list Z) :
    E (option (list V)) :=
  match decode_needed needed data with
  | None => mret None
  | Some row =>
      m ← (match filter with Some f => eval_predicate schema row f | None => mret true end : E bool);
      mret (if (m : bool) then Some row else None)
  end.

(** A row of [parallel_filter_leaves], and of the scan inside a transaction. *)
Definition parallel_row (needed : option (list Z)) (schema : Schema) (filter : option Expr) (fast : option (nat * BinOp * V)) (data : list Z) :
    E (option (list V)) :=
  match raw_filter fast data with
  | Some true => mret (decode_row data)
  | Some false => mret None
  | None => slow_row needed schema filter data
  end.

(** A row of the sequential scan outside a transaction, which has no way back
    when the encoded row does not decide. *)
Definition serial_row (needed : option (list Z)) (schema : Schema) (filter : option Expr) (fast : option (nat * BinOp * V)) (data : list Z) :
    E (option (list V)) :=
  match fast with
  | Some _ => mret (match raw_filter fast data with Some true => decode_row data | _ => None end)
  | None => slow_row needed schema filter data
  end.

Fixpoint scan (row : list Z → E (option (list V))) (rows : list (list Z)) : E (list (list V)) :=
  match rows with
  | [] => mret []
  | data :: rows' => r ← row data; rest ← scan row rows'; mret (option_list r ++ rest)
  end.

Definition fast_filter_of (filter : option Expr) (schema : Schema) : option (nat * BinOp * V) :=
  f ← filter; try_fast_filter f schema.

Definition parallel_scan (needed : option (list Z)) (schema : Schema) (filter : option Expr) :
    list (list Z) → E (list (list V)) :=
  scan (parallel_row needed schema filter (fast_filter_of filter schema)).
Definition serial_scan (needed : option (list Z)) (schema : Schema) (filter : option Expr) :
    list (list Z) → E (list (list V)) :=
  scan (serial_row needed schema filter (fast_filter_of filter schema)).
Definition slow_scan (schema : Schema) (filter : option Expr) : list (list Z) → E (list (list V)) :=
  scan (slow_row None schema filter).

(** ** What the encoded row decides *)

Context `{!CodecLaws} `{!JsonLaws J Tuple.utf8_valid}.

(** A row as it is stored. *)
Definition stored (vs : list V) : Prop := Tuple.row_fits vs ∧ zlen vs ≤ 255 ∧ Tuple.plain vs.

(** No value before the column the filter is about is stored compressed: random
    access steps one byte too far over a compressed value. *)
Definition skippable (fast : option (nat * BinOp * V)) (vs : list V) : Prop :=
  match fast with Some (idx, _, _) => Tuple.plain (take idx vs) | None => True end.

(** Timestamps are compared with integers on the encoded row only. *)
Definition comparable (fast : option (nat * BinOp * V)) (vs : list V) : Prop :=
  match fast with
  | Some (idx, _, Int64 _) => ∀ t, vs !! idx ≠ Some (Timestamp t)
  | _ => True
  end.

Lemma stored_skippable fast (vs : list V) : stored vs → Tuple.row_fits vs ∧ zlen vs ≤ 255 ∧ skippable fast vs.
Proof.
  intros (Hf & Hl & Hp). split_and!; [done..|]. destruct fast as [[[idx op] lit]|]; [|done]. by apply Forall_take.
Qed.

Lemma raw_filter_beyond vs idx op (lit : V) :
  zlen vs ≤ 255 → vs !! idx = None → Tuple.raw_filter_matches (Tuple.serialize vs) idx op lit = None.
Proof.
  intros Hl Hi. apply lookup_ge_None in Hi. assert (Tuple.column_offset (Tuple.serialize vs) idx = None) as Hoff.
  { unfold Tuple.column_offset, Tuple.serialize. rw wrap_small; [pose proof (zlen_nonneg vs); lia|].
    rw (proj2 (Z.leb_le _ _)); [unfold zlen; lia|]. done. }
  unfold Tuple.raw_filter_matches, Tuple.compare_column_int64, Tuple.compare_column_float64, Tuple.compare_column_text.
  rw Hoff. by destruct lit.
Qed.

Lemma raw_filter_value vs idx op (lit : V) b :
  Tuple.row_fits vs → zlen vs ≤ 255 → Tuple.plain (take idx vs) →
  Tuple.raw_filter_matches (Tuple.serialize vs) idx op lit = Some b →
  ∃ v o, vs !! idx = Some v ∧ Tuple.filter_order v lit = Some o ∧ b = Tuple.op_holds op o.
Proof.
  intros Hf Hl Hp Hr. destruct (vs !! idx) as [v|] eqn:Hi; [|by rw (raw_filter_beyond vs idx op lit Hl Hi) in Hr].
  rw (Tuple.raw_filter_spec vs idx v op lit Hf) in Hr; [done..|].
  apply fmap_Some in Hr as (o & Ho & ->). by exists v, o.
Qed.

Lemma f64_cmp_flip a b : f64_cmp a b = CompOpp <$> f64_cmp b a.
Proof. unfold f64_cmp. rw orb_comm. case_match; [done|]. cbn. by rw Z.compare_antisym. Qed.

(** The order of the filter is the one of [compare], from either side. *)
Lemma filter_order_compare (v lit : V) o :
  Tuple.filter_order v lit = Some o → (∀ n t, lit = Int64 n → v ≠ Timestamp t) →
  is_null v = false ∧ is_null lit = false ∧ compare v lit = Some (Some o) ∧ compare lit v = Some (Some (CompOpp o)).
Proof.
  intros Ho Ht. destruct lit as [| |n|f|s| | | | | | |], v as [| |x|g|y| | |u| | | |]; try done; cbn in Ho |- *.
  - injection Ho as <-. split_and!; try done. by rw -Z.compare_antisym.
  - by destruct (Ht n u).
  - rw Ho. split_and!; try done. by rw f64_cmp_flip Ho.
  - rw Ho. split_and!; try done. by rw f64_cmp_flip Ho.
  - destruct (Tuple.utf8_valid y); [|done]. injection Ho as <-. split_and!; try done. by rw bcmp_antisym.
Qed.

Lemma order_code op o :
  is_comparison op = true →
  match op with OpNeq => bool_decide (Some o = Some Lt ∨ Some o = Some Gt) | _ => order_holds op (Some o) end =
    Tuple.op_holds (op_code op) o.
Proof. by destruct op, o. Qed.

Lemma order_flip op o :
  is_comparison op = true →
  match op with OpNeq => bool_decide (Some (CompOpp o) = Some Lt ∨ Some (CompOpp o) = Some Gt) | _ => order_holds op (Some (CompOpp o)) end =
    Tuple.op_holds (op_code (flip op)) o.
Proof. by destruct op, o. Qed.

Lemma simple_literal v lit lit' o : Tuple.filter_order v lit' = Some o → eval_expr_simple (Literal lit) = lit' →
  lit' = eval_literal lit.
Proof. intros Ho <-. by destruct lit, v. Qed.

Lemma fast_filter_inv f schema idx op lit :
  try_fast_filter f schema = Some (idx, op, lit) →
  ∃ name lit' op', is_comparison op' = true ∧ Schema.column_index schema (key_of name) = Some idx ∧
    eval_expr_simple (Literal lit') = lit ∧
    ((f = BinaryOp (Column name) op' (Literal lit') ∧ op = op') ∨
     (f = BinaryOp (Literal lit') op' (Column name) ∧ op = flip op')).
Proof.
  destruct f as [| | |l op' r| | | | | | | | | | | | | | |]; try done. unfold try_fast_filter.
  destruct (is_comparison op') eqn:Hop; [|done]. destruct l as [lit'|name| | | | | | | | | | | | | | | | |];
    destruct r as [lit''|name'| | | | | | | | | | | | | | | | |]; try done;
    (destruct (Schema.column_index _ _) as [i|] eqn:Hi; [|done]); unfold mbind, option_bind; intros Hf;
    [exists name', lit', op'|exists name, lit'', op']; simplify_eq; split_and!; try done; [by right|by left].
Qed.

Lemma column_lookup schema (vs : list V) name idx v :
  Schema.column_index schema (key_of name) = Some idx → vs !! idx = Some v → column_value schema vs name = Some v.
Proof. intros Hi Hv. unfold column_value. rw Hi. cbn. by rw Hv. Qed.

Lemma fast_filter_sound schema (vs : list V) f idx op lit v o st :
  try_fast_filter f schema = Some (idx, op, lit) → vs !! idx = Some v → Tuple.filter_order v lit = Some o →
  (∀ n t, lit = Int64 n → v ≠ Timestamp t) →
  eval_predicate schema vs f st = Some (Tuple.op_holds (op_code op) o, st).
Proof.
  intros (name & lit' & op' & Hop & Hi & Hlit & Hf)%fast_filter_inv Hv Ho Ht.
  destruct (filter_order_compare v lit o Ho Ht) as (Hn1 & Hn2 & Hc1 & Hc2). pose proof (simple_literal v lit' lit o Ho Hlit) as ->.
  pose proof (column_lookup schema vs name idx v Hi Hv) as Hcol. unfold eval_predicate.
  destruct Hf as [[-> ->]|[-> ->]].
  - assert (tri_compare op' v (eval_literal lit') = Some (Some (Tuple.op_holds (op_code op') o))) as Hg.
    { unfold tri_compare. rw Hn1 Hn2 Hc1. cbn. by rw order_code. }
    destruct op'; try done; cbn [eval_predicate_tri eval_value]; unfold mbind, E_bind, mret, E_ret, panic_or; cbn -[tri_compare];
      rw Hcol; cbn -[tri_compare]; by rw Hg.
  - assert (tri_compare op' (eval_literal lit') v = Some (Some (Tuple.op_holds (op_code (flip op')) o))) as Hg.
    { unfold tri_compare. rw Hn1 Hn2 Hc2. cbn. by rw order_flip. }
    destruct op'; try done; cbn [eval_predicate_tri eval_value]; unfold mbind, E_bind, mret, E_ret, panic_or; cbn -[tri_compare];
      rw Hcol; cbn -[tri_compare]; by rw Hg.
Qed.

(** Where the encoded row decides, the filter evaluates to the same. *)
Lemma raw_filter_decides schema filter (vs : list V) b :
  Tuple.row_fits vs → zlen vs ≤ 255 → skippable (fast_filter_of filter schema) vs →
  comparable (fast_filter_of filter schema) vs →
  raw_filter (fast_filter_of filter schema) (Tuple.serialize vs) = Some b →
  ∃ f, filter = Some f ∧ ∀ st, eval_predicate schema vs f st = Some (b, st).
Proof.
  intros Hfit Hl Hs Hc Hr. destruct filter as [f|]; [|done]. exists f. split; [done|]. intros st.
  unfold raw_filter in Hr. cbn [fast_filter_of mbind option_bind] in *.
  destruct (try_fast_filter f schema) as [[[idx op] lit]|] eqn:Hf; [|done]. cbn [mbind option_bind] in Hr.
  destruct (raw_filter_value vs idx (op_code op) lit b Hfit Hl Hs Hr) as (v & o & Hv & Ho & ->).
  apply (fast_filter_sound schema vs f idx op lit v o st Hf Hv Ho). intros n t -> ->. cbn [comparable] in Hc. by apply (Hc t).
Qed.

Lemma decode_stored (vs : list V) : stored vs → decode_row (Tuple.serialize vs) = Some vs.
Proof. intros (Hfit & Hl & Hp). by apply Tuple.row_decodes. Qed.

Lemma parallel_row_slow schema filter vs st :
  Tuple.row_fits vs → zlen vs ≤ 255 → skippable (fast_filter_of filter schema) vs →
  comparable (fast_filter_of filter schema) vs →
  parallel_row None schema filter (fast_filter_of filter schema) (Tuple.serialize vs) st =
    slow_row None schema filter (Tuple.serialize vs) st.
Proof.
  intros Hfit Hl Hs Hc. unfold parallel_row, slow_row, decode_needed, decode_row. rw (Tuple.row_decodes vs Hfit Hl).
  destruct (raw_filter _ _) as [b|] eqn:Hr; [|done]. destruct (raw_filter_decides schema filter vs b Hfit Hl Hs Hc Hr) as (f & -> & Hf).
  unfold mbind, E_bind. rw Hf. cbn. by destruct b.
Qed.

Lemma scan_ext (row1 row2 : list Z → E (option (list V))) rows st :
  (∀ data, data ∈ rows → ∀ st, row1 data st = row2 data st) → scan row1 rows st = scan row2 rows st.
Proof.
  revert st. induction rows as [|data rows IH]; intros st Hr; [done|]. cbn [scan]. unfold mbind, E_bind.
  rw (Hr data); [by left|]. destruct (row2 data st) as [[r st']|]; [|done]. cbn. rw IH; [|done].
  intros d Hd. apply Hr. by right.
Qed.

(** C31: the scan that looks at the encoded rows first returns what decoding every
    row and evaluating the filter returns, in the same order, for every filter and
    all rows that are read back from their encodings ([Tuple.row_fits], at most 255
    columns), if no value that stands before the filtered column is stored
    compressed ([skippable]; else random access misreads the column) and the filter
    does not compare a timestamp column with an integer ([comparable]; the encoded
    row orders the two, the evaluator does not, [timestamp_against_integer]). *)
Theorem parallel_scan_filters schema filter vss st :
  Forall (λ vs, Tuple.row_fits vs ∧ zlen vs ≤ 255 ∧ skippable (fast_filter_of filter schema) vs ∧
    comparable (fast_filter_of filter schema) vs) vss →
  parallel_scan None schema filter (map Tuple.serialize vss) st = slow_scan schema filter (map Tuple.serialize vss) st.
Proof.
  intros Hvs. apply scan_ext. intros data (vs & <- & Hin%list_elem_of_In)%list_elem_of_In%in_map_iff.
  rw Forall_forall in Hvs. destruct (Hvs vs Hin) as (? & ? & ? & ?). intros st'. by apply parallel_row_slow.
Qed.
End scan.

(** ** Concrete tables *)

#[local] Existing Instance Tuple.sample_codecs.
#[local] Existing Instance Tuple.sample_codec_laws.
#[local] Existing Instance Tuple.sample_show.
#[local] Existing Instance Tuple.sample_read.
#[local] Existing Instance Tuple.sample_json.
#[local] Existing Instance Lexer.ascii_only.
#[local] Existing Instance Lexer.no_floats.

(** An engine whose subqueries return one row with a NULL. *)
#[export] Instance sample_engine : Engine unit := {
  now_micros := 0;
  now_secs := 0;
  powf a b := 0;
  debug_value v := [];
  run_subquery q row schema := [[Null]];
}.

Definition sample_schema : Schema.Schema (J := unit) :=
  Schema.new "t" [Schema.column_new "id" TInt64; Schema.column_new "active" TBool; Schema.column_new "at" TTimestamp].
Definition sample_rows : list (list (Value unit)) := [[Int64 1; Bool true; Timestamp 7]; [Int64 2; Bool false; Null]].

(** [2 > id] *)
Definition sample_filter : Expr := BinaryOp (Literal (Integer 2)) OpGt (Column (chars "id")).

Lemma parallel_scan_filters_witness :
  parallel_scan None sample_schema (Some sample_filter) (map Tuple.serialize sample_rows) false =
    Some ([[Int64 1; Bool true; Timestamp 7]], false).
Proof.
  rw (parallel_scan_filters sample_schema (Some sample_filter) sample_rows false); [|vm_compute; reflexivity].
  repeat constructor; vm_compute; congruence.
Defined.

(** outside a transaction, a small table is scanned without falling back on
    the filter: [active = TRUE] finds no row, where the parallel scan finds one. *)
Theorem serial_scan_drops_rows :
  let filter := Some (BinaryOp (Column (chars "active")) OpEq (Literal (LBool true))) in
  let rows := map Tuple.serialize sample_rows in
  serial_scan None sample_schema filter rows false = Some ([], false) ∧
  parallel_scan None sample_schema filter rows false = Some ([[Int64 1; Bool true; Timestamp 7]], false).
Proof. split; vm_compute; reflexivity. Qed.

(** A timestamp compared with an integer is ordered on the encoded row and not
    comparable after decoding. *)
Lemma timestamp_against_integer :
  let filter := Some (BinaryOp (Column (chars "at")) OpGt (Literal (Integer 5))) in
  let rows := map Tuple.serialize sample_rows in
  parallel_scan None sample_schema filter rows false = Some ([[Int64 1; Bool true; Timestamp 7]], false) ∧
  slow_scan sample_schema filter rows false = Some ([], false).
Proof. split; vm_compute; reflexivity. Qed.
End Scan.
