(* ===== verification/EvalProps.v ===== *)
(** What the evaluation of expressions guarantees: the laws of three-valued logic
    for conditions, and values that fit their types. *)
From S2P Require Import Prelude ByteOrder Value Civil Literals OrderKey Schema Tuple Sql Lexer Like Strings Float64 Eval Scan.
Import Value Sql Like Strings Float64 Eval.

Module EvalProps.

Section logic.
Context {J : Type} `{Unicode} `{FloatText} `{!Engine J}.
Context (schema : Schema.Schema (J := J)) (tuple : list (Value J)).
Local Abbreviation tri := (eval_predicate_tri schema tuple).

(** De Morgan's laws and the law of double negation hold for conditions, with
    NULLs, with the errors of subqueries and with the evaluation cut short: both
    sides evaluate the same parts in the same order to the same of true, false and
    unknown. *)
Theorem de_morgan a b st :
  eval_predicate_tri schema tuple (Unary OpNot (BinaryOp a OpAnd b)) st =
    eval_predicate_tri schema tuple (BinaryOp (Unary OpNot a) OpOr (Unary OpNot b)) st ∧
  eval_predicate_tri schema tuple (Unary OpNot (BinaryOp a OpOr b)) st =
    eval_predicate_tri schema tuple (BinaryOp (Unary OpNot a) OpAnd (Unary OpNot b)) st ∧
  eval_predicate_tri schema tuple (Unary OpNot (Unary OpNot a)) st = eval_predicate_tri schema tuple a st.
Proof.
  cbn [eval_predicate_tri]. unfold mbind, E_bind, mret, E_ret.
  split_and!; destruct (tri a st) as [[[[]|] st']|]; cbn; try done;
    repeat case_bool_decide; simplify_eq; cbn; try done; destruct (tri b st') as [[[[]|] ?]|]; done.
Qed.

(** A condition and its parts: it is true when both parts are. *)
Lemma and_true a b st st' :
  tri (BinaryOp a OpAnd b) st = Some (Some true, st') ↔
  ∃ s, tri a st = Some (Some true, s) ∧ tri b s = Some (Some true, st').
Proof.
  cbn [eval_predicate_tri]. unfold mbind, E_bind, mret, E_ret.
  destruct (tri a st) as [[[[]|] s]|]; cbn; try case_bool_decide; simplify_eq; cbn;
    try destruct (tri b s) as [[[[]|] ?]|] eqn:E; cbn; naive_solver.
Qed.
End logic.

(** ** Concrete expressions *)

#[local] Existing Instance Lexer.ascii_only.
#[local] Existing Instance Lexer.no_floats.
#[local] Existing Instance Scan.sample_engine.

Definition no_schema : Schema.Schema (J := unit) := Schema.new "" [].
Definition any_query : SelectStmt := mkSelect [SelectStar] false (FromTable (chars "t")) None [] None [] None [] None None [].

(** [NOT IN] over a subquery does not know about NULL: with a NULL among the
    rows it is true, where the same values as a list leave it unknown. *)
Theorem not_in_subquery_ignores_null :
  let one := Literal (Integer 1) in
  eval_predicate no_schema [] (Unary OpNot (InSubquery one any_query)) false = Some (true, false) ∧
  eval_predicate no_schema [] (Unary OpNot (InList one [Literal LNull])) false = Some (false, false).
Proof. split; vm_compute; reflexivity. Qed.

(** adding an interval to a date adds its microseconds, cut to 32 bits, as
    days: one day after 2024-01-01 is more than a million years later. *)
Theorem date_plus_day :
  eval_value no_schema [] (BinaryOp (Cast (Literal (LString (chars "2024-01-01"))) TDate) OpPlus (IntervalLit (chars "1 day")))
    false = Some (Date (19723 + 500654080), false).
Proof. vm_compute. reflexivity. Qed.

(** the function [MOD] panics on the least integer and -1, where the operator
    has the answer. *)
Theorem mod_function_panics :
  let least := BinaryOp (Literal (Integer (- (2 ^ 63 - 1)))) OpMinus (Literal (Integer 1)) in
  eval_value no_schema [] (Function (chars "MOD") [least; Literal (Integer (-1))]) false = None ∧
  eval_value no_schema [] (BinaryOp least OpMod (Literal (Integer (-1)))) false = Some (Int64 0, false).
Proof. split; vm_compute; reflexivity. Qed.

(** A comparison with NULL is unknown as a condition, and true or false as a
    value, so that [CASE WHEN NULL = NULL] takes its branch. *)
Lemma null_equals_null :
  let e := BinaryOp (Literal LNull) OpEq (Literal LNull) in
  eval_value no_schema [] e false = Some (Bool true, false) ∧
  eval_predicate_tri no_schema [] e false = Some (None, false).
Proof. split; vm_compute; reflexivity. Qed.
End EvalProps.
