(* ===== verification/Plan.v ===== *)
(** Query plans: [bytedb-query/src/planner/logical_plan.rs] and
    [physical_plan.rs], and the errors of the query engine
    ([bytedb-query/src/error.rs]).

    [build_logical_plan] turns a statement into a tree of relational operators;
    the optimiser ([Optimizer]) turns that into a physical plan, which the
    executor runs and [explain_tree] prints. *)
From S2P Require Import Prelude ByteOrder Value Civil Sql Strings.
Import Value Sql Strings.

Module Plan.

Inductive QueryError :=
  | QParse (e : ParseError)
  | QPlan (msg : str)
  | Execution (msg : str)
  | QCore (e : CoreError)
  | Unsupported (msg : str)
  | InvalidExpression (msg : str)
  | TypeError (msg : str)
  | Constraint (msg : str)
  | TableNotFound (table : str)
  | ColumnNotFound (column : str)
  | Cancelled
  | QueryTimeout (ms : Z)
  | ResourceLimit (msg : str).

Definition unique_violation (col : str) : QueryError :=
  Constraint (chars "UNIQUE constraint violated for column '" ++ col ++ chars "'").
Definition not_null_violation (col : str) : QueryError :=
  Constraint (chars "NOT NULL constraint violated for column '" ++ col ++ chars "'").
Definition check_violation (table : str) : QueryError :=
  Constraint (chars "CHECK constraint failed on table '" ++ table ++ chars "'").
Definition fk_violation (parent : str) : QueryError :=
  Constraint (chars "FOREIGN KEY violation: no matching row in '" ++ parent ++ chars "'").
Definition fk_referenced (child : str) : QueryError :=
  Constraint (chars "FOREIGN KEY violation: row in '" ++ child ++ chars "' references this row").

(** [Result<A>] of the query engine. *)
Inductive qresult (A : Type) :=
  | QOk (a : A)
  | QErr (e : QueryError).
#[global] Arguments QOk {A} a.
#[global] Arguments QErr {A} e.

#[export] Instance qresult_ret : MRet qresult := λ A a, QOk a.
#[export] Instance qresult_bind : MBind qresult := λ A B f r, match r with QOk a => f a | QErr e => QErr e end.

(** ** Logical plans *)

Inductive LogicalPlan :=
  | LScan (table : str) (filter : option Expr)
  | LFilter (input : LogicalPlan) (predicate : Expr)
  | LProject (input : LogicalPlan) (columns : list SelectColumn)
  | LJoin (left right : LogicalPlan) (condition : Expr) (join_type : JoinType)
  | LAggregate (input : LogicalPlan) (group_by aggregates : list Expr) (having : option Expr)
  | LSort (input : LogicalPlan) (order_by : list OrderByExpr)
  | LLimit (input : LogicalPlan) (count offset : Z)
  | LDistinct (input : LogicalPlan)
  | LInsert (table : str) (columns : option (list str)) (source : InsertSource)
  | LUpdate (table : str) (assignments : list (str * Expr)) (filter : option Expr)
  | LDelete (table : str) (filter : option Expr)
  | LCreateTable (s : CreateTableStmt)
  | LDropTable (name : str) (if_exists : bool)
  | LCreateIndex (s : CreateIndexStmt)
  | LDropIndex (name : str).

Section logical.
Context `{Unicode}.

Definition is_aggregate_name (name : str) : bool :=
  existsb (λ n, bool_decide (chars n = to_uppercase name)) ["COUNT"; "SUM"; "AVG"; "MIN"; "MAX"; "COUNT_DISTINCT"].

Fixpoint expr_has_aggregate (e : Expr) : bool :=
  match e with
  | Function name args => is_aggregate_name name || existsb expr_has_aggregate args
  | BinaryOp l _ r => expr_has_aggregate l || expr_has_aggregate r
  | Unary _ e | IsNull e | IsNotNull e | Cast e _ => expr_has_aggregate e
  | InList e items => expr_has_aggregate e || existsb expr_has_aggregate items
  | Between e low high => expr_has_aggregate e || expr_has_aggregate low || expr_has_aggregate high
  | Case operand whens els =>
      match operand with Some o => expr_has_aggregate o | None => false end
      || existsb (λ wt, expr_has_aggregate wt.1 || expr_has_aggregate wt.2) whens
      || match els with Some e => expr_has_aggregate e | None => false end
  | _ => false
  end.

Definition has_aggregate_functions (columns : list SelectColumn) : bool :=
  existsb (λ c, match c with SelectExpr e _ => expr_has_aggregate e | SelectStar => false end) columns.

(** [usize::MAX]. *)
Definition usize_max : Z := 2 ^ 64 - 1.

Definition join_step (plan : LogicalPlan) (j : JoinClause) : LogicalPlan :=
  let '(mkJoin join_type table _ condition) := j in LJoin plan (LScan table None) condition join_type.

Definition build_select_plan (select : SelectStmt) : qresult LogicalPlan :=
  let '(mkSelect columns distinct from from_alias joins where_clause group_by having order_by limit offset _) := select in
  table_name ← (match from with
                | FromTable name => QOk name
                | FromSubquery _ => QOk (default (chars "__subquery__") from_alias)
                | FromNone => QErr (QPlan (chars "SELECT without FROM is handled by the executor"))
                end : qresult str);
  let plan := foldl join_step (LScan table_name None) joins in
  let plan := match where_clause with Some w => LFilter plan w | None => plan end in
  let plan :=
    if negb (bool_decide (group_by = [])) || has_aggregate_functions columns
    then LAggregate plan group_by (omap (λ c, match c with SelectExpr e _ => Some e | SelectStar => None end) columns) having
    else plan in
  let plan := match order_by with [] => plan | _ => LSort plan order_by end in
  let plan :=
    match limit, offset with
    | None, None => plan
    | _, _ => LLimit plan (default usize_max limit) (default 0 offset)
    end in
  let plan := LProject plan columns in
  QOk (if distinct then LDistinct plan else plan).

Definition build_logical_plan (stmt : Statement) : qresult LogicalPlan :=
  match stmt with
  | Select s => build_select_plan s
  | Insert s => QOk (LInsert (ins_table s) (ins_columns s) (ins_source s))
  | Update s => QOk (LUpdate (upd_table s) (assignments s) (upd_where s))
  | Delete s => QOk (LDelete (del_table s) (del_where s))
  | CreateTable s => QOk (LCreateTable s)
  | DropTable name if_exists => QOk (LDropTable name if_exists)
  | CreateIndex s => QOk (LCreateIndex s)
  | DropIndex name => QOk (LDropIndex name)
  | _ => QErr (QPlan (chars "Statement does not produce a logical plan"))
  end.
End logical.

(** ** Physical plans *)

Inductive PhysicalPlan :=
  | SeqScan (table : str) (filter : option Expr) (limit : option Z) (needed_columns : option (list Z))
  | IndexScan (table index_name column : str) (op : BinOp) (value : Expr) (filter : option Expr) (limit : option Z)
  | PFilter (input : PhysicalPlan) (predicate : Expr)
  | PProject (input : PhysicalPlan) (columns : list SelectColumn)
  | HashJoin (left right : PhysicalPlan) (condition : Expr) (join_type : JoinType)
  | NestedLoopJoin (left right : PhysicalPlan) (condition : Expr) (join_type : JoinType)
  | HashAggregate (input : PhysicalPlan) (group_by aggregates : list Expr) (having : option Expr)
  | PSort (input : PhysicalPlan) (order_by : list OrderByExpr)
  | PLimit (input : PhysicalPlan) (count offset : Z)
  | PDistinct (input : PhysicalPlan)
  | PInsert (table : str) (columns : option (list str)) (source : InsertSource)
  | PUpdate (table : str) (assignments : list (str * Expr)) (filter : option Expr)
  | PDelete (table : str) (filter : option Expr)
  | PCreateTable (s : CreateTableStmt)
  | PDropTable (name : str) (if_exists : bool)
  | PCreateIndex (s : CreateIndexStmt)
  | PDropIndex (name : str).

(** ** Explaining a plan *)

Section explain.
Context `{Unicode} `{FloatText}.

Definition binop_text (op : BinOp) : string :=
  match op with OpEq => "=" | OpNeq => "<>" | OpLt => "<" | OpGt => ">" | OpLte => "<=" | OpGte => ">=" | _ => "?" end.

Definition join_type_text (jt : JoinType) : string :=
  match jt with JInner => "inner" | JLeft => "left" | JRight => "right" end.

(** ["  (filter: ...)"], when there is one. *)
Definition filter_text (filter : option Expr) : str :=
  match filter with Some f => chars "  (filter: " ++ expr_to_sql f ++ chars ")" | None => [] end.

Definition order_text (o : OrderByExpr) : str :=
  let '(mkOrderBy e asc _) := o in expr_to_sql e ++ chars (if asc then " ASC" else " DESC").

Fixpoint write_tree (plan : PhysicalPlan) (depth : nat) : list str :=
  let indent := concat (replicate depth (chars "  ")) in
  let arrow := match depth with O => [] | _ => indent ++ chars "-> " end in
  match plan with
  | SeqScan table filter limit _ =>
      [arrow ++ chars "Seq Scan on " ++ table ++ filter_text filter ++
       match limit with Some l => chars "  (limit " ++ show_int l ++ chars ")" | None => [] end]
  | IndexScan table index_name column op value filter _ =>
      (arrow ++ chars "Index Scan using " ++ index_name ++ chars " on " ++ table ++ chars "  (" ++ column ++ chars " " ++
       chars (binop_text op) ++ chars " " ++ expr_to_sql value ++ chars ")")
      :: match filter with Some f => [indent ++ chars "  filter: " ++ expr_to_sql f] | None => [] end
  | PFilter input predicate => (arrow ++ chars "Filter  (" ++ expr_to_sql predicate ++ chars ")") :: write_tree input (S depth)
  | PProject input columns => (arrow ++ chars "Project  (" ++ show_int (zlen columns) ++ chars " cols)") :: write_tree input (S depth)
  | HashJoin l r condition jt =>
      (arrow ++ chars "Hash Join  [" ++ chars (join_type_text jt) ++ chars "]  on " ++ expr_to_sql condition)
      :: write_tree l (S depth) ++ write_tree r (S depth)
  | NestedLoopJoin l r condition jt =>
      (arrow ++ chars "Nested Loop Join  [" ++ chars (join_type_text jt) ++ chars "]  on " ++ expr_to_sql condition)
      :: write_tree l (S depth) ++ write_tree r (S depth)
  | HashAggregate input group_by aggregates having =>
      (arrow ++ chars "Aggregate" ++
       match group_by with [] => [] | _ => chars "  (group by: " ++ join (chars ", ") (map expr_to_sql group_by) ++ chars ")" end ++
       chars "  (" ++ show_int (zlen aggregates) ++ chars " aggs)" ++
       match having with Some _ => chars "  (having)" | None => [] end)
      :: write_tree input (S depth)
  | PSort input order_by =>
      (arrow ++ chars "Sort  (" ++ join (chars ", ") (map order_text order_by) ++ chars ")") :: write_tree input (S depth)
  | PLimit input count offset =>
      (arrow ++ chars "Limit " ++ show_int count ++ chars " offset " ++ show_int offset) :: write_tree input (S depth)
  | PDistinct input => (arrow ++ chars "Distinct") :: write_tree input (S depth)
  | PInsert table _ _ => [arrow ++ chars "Insert into " ++ table]
  | PUpdate table _ filter => [arrow ++ chars "Update " ++ table ++ filter_text filter]
  | PDelete table filter => [arrow ++ chars "Delete from " ++ table ++ filter_text filter]
  | PCreateTable ct => [arrow ++ chars "Create Table " ++ ct_name ct]
  | PDropTable name _ => [arrow ++ chars "Drop Table " ++ name]
  | PCreateIndex ci => [arrow ++ chars "Create Index " ++ ci_name ci ++ chars " on " ++ ci_table ci]
  | PDropIndex name => [arrow ++ chars "Drop Index " ++ name]
  end.

Definition explain_tree (plan : PhysicalPlan) : list str := write_tree plan 0.
End explain.
End Plan.
