(* ===== verification/Collections.v ===== *)
(** What the executor uses of Rust's [sort_by], [sort_unstable_by],
    [BinaryHeap] and [HashMap], where their results are not determined: the
    order of equal elements after an unstable sort, which of several greatest
    elements a heap gives, the order in which a hash table is walked. *)
From S2P Require Import Prelude.

Module Collections.

(** ** Comparisons *)

(** [c] orders the elements of [l] totally, up to equality. *)
Record preorder_on {A} (c : A → A → comparison) (l : list A) : Prop := {
  pre_flip a b : a ∈ l → b ∈ l → c b a = CompOpp (c a b);
  pre_trans a b d : a ∈ l → b ∈ l → d ∈ l → c a b ≠ Gt → c b d ≠ Gt → c a d ≠ Gt;
}.

Definition ordered {A} (c : A → A → comparison) (l : list A) : Prop := StronglySorted (λ a b, c a b ≠ Gt) l.

(** The comparison [l1] and then [l2]. *)
Definition then_cmp (a b : comparison) : comparison := match a with Eq => b | _ => a end.

(** A comparison that may panic, on the elements of [l]: a sort is taken to
    compare every two of them. *)
Definition comparable {A} (c : A → A → option comparison) (l : list A) : option (A → A → comparison) :=
  if forallb (λ a, forallb (λ b, bool_decide (is_Some (c a b))) l) l then Some (λ a b, default Eq (c a b)) else None.

(** ** Stable sorting *)

Section insertion.
Context {A : Type} (c : A → A → comparison).

Fixpoint insert_by (x : A) (l : list A) : list A :=
  match l with
  | [] => [x]
  | y :: l' => match c x y with Gt => y :: insert_by x l' | _ => x :: l end
  end.
Definition insertion_sort (l : list A) : list A := foldr insert_by [] l.

Lemma insert_by_perm x l : insert_by x l ≡ₚ x :: l.
Proof.
  induction l as [|y l IH]; [done|]. cbn. destruct (c x y); [done|done|]. rw IH. apply Permutation_swap.
Qed.

Lemma insertion_sort_perm l : insertion_sort l ≡ₚ l.
Proof. induction l as [|x l IH]; [done|]. cbn. rw insert_by_perm. by constructor. Qed.

Lemma preorder_on_perm l l' : l ≡ₚ l' → preorder_on c l → preorder_on c l'.
Proof. intros Hp [Hf Ht]. split; intros *; rw -!Hp; [apply Hf|apply Ht]. Qed.

Lemma preorder_on_sub l l' : (∀ x, x ∈ l' → x ∈ l) → preorder_on c l → preorder_on c l'.
Proof. intros Hs [Hf Ht]. split; [auto|]. intros a b d Ha Hb Hd. apply (Ht a b d); auto. Qed.

Lemma preorder_refl l a : preorder_on c l → a ∈ l → c a a = Eq.
Proof. intros [Hf _] Ha. specialize (Hf a a Ha Ha). by destruct (c a a). Qed.

Lemma insert_by_ordered x l : preorder_on c (x :: l) → ordered c l → ordered c (insert_by x l).
Proof.
  unfold ordered. intros Hc. induction l as [|y l IH]; intros Hl; cbn; [by repeat constructor|].
  apply StronglySorted_inv in Hl as [Hl Hy].
  assert (∀ z, z ∈ x :: l → z ∈ x :: y :: l) as Hsub by (set_solver).
  assert (c x y ≠ Gt → Forall (λ b, c x b ≠ Gt) (y :: l)) as Hle.
  { intros Hxy. constructor; [done|]. apply Forall_forall. intros z Hz. rw Forall_forall in Hy.
    apply (pre_trans _ _ Hc x y z); [set_solver..|done|by apply Hy]. }
  destruct (c x y) eqn:E; [constructor; [by constructor|apply Hle; congruence] ..|].
  constructor; [apply IH; [by apply (preorder_on_sub (x :: y :: l))|done]|]. rw insert_by_perm. constructor; [|done].
  rw (pre_flip _ _ Hc x y); [set_solver..|]. by rw E.
Qed.

Lemma insertion_sort_ordered l : preorder_on c l → ordered c (insertion_sort l).
Proof.
  induction l as [|x l IH]; intros Hc; [constructor|]. cbn. apply insert_by_ordered.
  - apply (preorder_on_perm (x :: l)); [|done]. constructor. symmetry. apply insertion_sort_perm.
  - apply IH. apply (preorder_on_sub (x :: l)); [set_solver|done].
Qed.

(** Take the greatest element out. *)
Fixpoint take_greatest (x : A) (l : list A) : A * list A :=
  match l with
  | [] => (x, [])
  | y :: l' => match c x y with Lt => let r := take_greatest y l' in (r.1, x :: r.2) | _ => let r := take_greatest x l' in (r.1, y :: r.2) end
  end.

Lemma take_greatest_perm x l : x :: l ≡ₚ (take_greatest x l).1 :: (take_greatest x l).2.
Proof.
  revert x. induction l as [|y l IH]; intros x; [done|]. cbn. destruct (c x y); cbn.
  - rw {1}Permutation_swap (IH x). apply Permutation_swap.
  - rw (IH y). apply Permutation_swap.
  - rw {1}Permutation_swap (IH x). apply Permutation_swap.
Qed.

Lemma take_greatest_max x l : preorder_on c (x :: l) → Forall (λ z, c z (take_greatest x l).1 ≠ Gt) (x :: l).
Proof.
  revert x. induction l as [|y l IH]; intros x Hc.
  { repeat constructor. cbn. by rw (preorder_refl [x] x); [|set_solver|]. }
  assert (∀ z, z ∈ x :: y :: l → (take_greatest z l).1 ∈ z :: l) as Hin.
  { intros z _. rw (take_greatest_perm z l). set_solver. }
  assert (∀ m, preorder_on c (m :: l) → m ∈ x :: y :: l → ∀ w, w ∈ x :: y :: l → c w m ≠ Gt →
    c w (take_greatest m l).1 ≠ Gt) as Hstep.
  { intros m Hm Hml w Hw Hwm. specialize (IH m Hm). specialize (Hin m Hml). apply Forall_cons in IH as [IH _].
    apply (pre_trans _ _ Hc w m); [done|done| |done|done]. apply elem_of_cons in Hin as [->|Hin]; [done|].
    by do 2 apply list_elem_of_further. }
  cbn. destruct (c x y) eqn:E; cbn.
  - assert (preorder_on c (x :: l)) as Hx by (apply (preorder_on_sub (x :: y :: l)); [set_solver|done]).
    pose proof (IH x Hx) as [IHx IHl]%Forall_cons. repeat constructor; [done| |done].
    apply Hstep; [done|set_solver..|]. rw (pre_flip _ _ Hc x y); [set_solver..|]. by rw E.
  - assert (preorder_on c (y :: l)) as Hx by (apply (preorder_on_sub (x :: y :: l)); [set_solver|done]).
    pose proof (IH y Hx) as [IHx IHl]%Forall_cons. repeat constructor; [|done|done].
    apply Hstep; [done|set_solver..|]. by rw E.
  - assert (preorder_on c (x :: l)) as Hx by (apply (preorder_on_sub (x :: y :: l)); [set_solver|done]).
    pose proof (IH x Hx) as [IHx IHl]%Forall_cons. repeat constructor; [done| |done].
    apply Hstep; [done|set_solver..|]. rw (pre_flip _ _ Hc x y); [set_solver..|]. by rw E.
Qed.
End insertion.

(** ** Building orders *)

Lemma preorder_opp {A} (c : A → A → comparison) l : preorder_on c l → preorder_on (λ a b, CompOpp (c a b)) l.
Proof.
  intros [Hf Ht]. split; intros *; cbn.
  - intros Ha Hb. by rw (Hf a b).
  - intros Ha Hb Hd H1 H2. specialize (Ht d b a Hd Hb Ha). rw (Hf b d) in Ht; [done..|]. rw (Hf a b) in Ht; [done..|].
    rw (Hf a d) in Ht; [done..|]. by destruct (c a b), (c b d), (c a d); cbn in *; auto.
Qed.

(** Where [a] and [b] are equal they compare alike with [d]. *)
Lemma preorder_eq {A} (c : A → A → comparison) l a b d :
  preorder_on c l → a ∈ l → b ∈ l → d ∈ l → c a b = Eq → c a d = c b d.
Proof.
  intros [Hf Ht] Ha Hb Hd He. pose proof (Hf a b Ha Hb) as Hba. rw He in Hba. cbn in Hba.
  assert (∀ x y z, x ∈ l → y ∈ l → z ∈ l → c x y = Eq → c y z ≠ Gt → c x z ≠ Gt) as Hle.
  { intros x y z Hx Hy Hz Hxy. apply (Ht x y z Hx Hy Hz). by rw Hxy. }
  assert (∀ x y z, x ∈ l → y ∈ l → z ∈ l → c x y = Eq → c z y ≠ Gt → c z x ≠ Gt) as Hge.
  { intros x y z Hx Hy Hz Hxy Hzy. apply (Ht z y x Hz Hy Hx Hzy). rw (Hf x y); [done..|]. by rw Hxy. }
  pose proof (Hle a b d Ha Hb Hd He). pose proof (Hle b a d Hb Ha Hd Hba).
  pose proof (Hge a b d Ha Hb Hd He) as G1. pose proof (Hge b a d Hb Ha Hd Hba) as G2.
  rw (Hf b d) in G1; [done..|]. rw (Hf a d) in G1, G2; [done..|]. rw (Hf b d) in G2; [done..|].
  clear Hle Hge Hf Ht. destruct (c a d), (c b d); cbn in *; intuition congruence.
Qed.

Lemma preorder_then {A} (c1 c2 : A → A → comparison) l :
  preorder_on c1 l → preorder_on c2 l → preorder_on (λ a b, then_cmp (c1 a b) (c2 a b)) l.
Proof.
  intros H1 H2. split; cbn.
  - intros a b Ha Hb. rw (pre_flip _ _ H1 a b); [done..|]. rw (pre_flip _ _ H2 a b); [done..|]. by destruct (c1 a b).
  - intros a b d Ha Hb Hd Hab Hbd.
    destruct (c1 a b) eqn:E1; cbn in Hab; [| |done].
    + rw (preorder_eq c1 l a b d); [done..|]. destruct (c1 b d); cbn in *; [|done..]. by apply (pre_trans _ _ H2 a b d).
    + assert (c1 a d = Lt) as ->; [|done].
      assert (c1 b d ≠ Gt) as Hle by (by destruct (c1 b d)).
      pose proof (pre_trans _ _ H1 a b d Ha Hb Hd ltac:(by rw E1) Hle) as Had.
      destruct (c1 a d) eqn:E2; [|done..]. exfalso.
      pose proof (preorder_eq c1 l a d b H1 Ha Hd Hb E2) as He. rw E1 in He.
      rw (pre_flip _ _ H1 b d) in He; [done..|]. by destruct (c1 b d).
Qed.

Lemma preorder_const {A} (l : list A) : preorder_on (λ _ _, Eq) l.
Proof. by split. Qed.

Lemma preorder_ext {A} (c d : A → A → comparison) l :
  (∀ a b, a ∈ l → b ∈ l → c a b = d a b) → preorder_on c l → preorder_on d l.
Proof.
  intros Hcd [Hf Ht]. split.
  - intros a b Ha Hb. rw -!Hcd; [done..|]. auto.
  - intros a b e Ha Hb He. rw -!Hcd; [done..|]. eauto.
Qed.

Lemma ordered_ext {A} (c d : A → A → comparison) l :
  (∀ a b, a ∈ l → b ∈ l → c a b = d a b) → ordered c l → ordered d l.
Proof.
  unfold ordered. induction l as [|x l IH]; intros Hcd Hl; [constructor|].
  apply StronglySorted_inv in Hl as [Hl Hx]. constructor.
  - apply IH; [|done]. intros a b Ha Hb. apply Hcd; by right.
  - rw Forall_forall in Hx. apply Forall_forall. intros y Hy. rw -(Hcd x y); [by left|by right|]. by apply Hx.
Qed.

(** ** Nested loops *)

Lemma bind_app_perm {A B} (f g : A → list B) l : l ≫= (λ x, f x ++ g x) ≡ₚ (l ≫= f) ++ (l ≫= g).
Proof.
  induction l as [|x l IH]; [done|]. cbn. rw IH -!app_assoc. apply Permutation_app_head.
  rw !app_assoc. apply Permutation_app_tail, Permutation_app_comm.
Qed.

Lemma bind_nil {A B} (l : list A) : l ≫= (λ _, []) = @nil B.
Proof. by induction l. Qed.

(** The loops over two lists can be exchanged, up to the order of the results. *)
Lemma bind_swap {A B C} (g : A → B → list C) l m : l ≫= (λ x, m ≫= g x) ≡ₚ m ≫= (λ y, l ≫= λ x, g x y).
Proof.
  induction l as [|x l IH]; cbn; [by rw bind_nil|]. rw IH. symmetry. apply (bind_app_perm (g x) (λ y, l ≫= λ x, g x y)).
Qed.

Lemma map_filter_bind {A B} (f : A → B) (p : A → bool) (l : list A) :
  map f (filter (λ x, p x = true) l) = l ≫= λ x, if p x then [f x] else [].
Proof. induction l as [|x l IH]; [done|]. cbn. rw -IH. case_decide as E; destruct (p x); done. Qed.

Lemma bind_ext_in {A B} (f g : A → list B) l : (∀ x, x ∈ l → f x = g x) → l ≫= f = l ≫= g.
Proof.
  induction l as [|x l IH]; intros Hfg; [done|]. cbn. rw (Hfg x); [by left|]. f_equal. apply IH. intros y Hy.
  apply Hfg. by right.
Qed.

Lemma filter_iff_in {A} (P Q : A → Prop) `{!∀ x, Decision (P x), !∀ x, Decision (Q x)} (l : list A) :
  (∀ x, x ∈ l → P x ↔ Q x) → filter P l = filter Q l.
Proof.
  induction l as [|x l IH]; intros Hpq; [done|]. rw !filter_cons IH; [intros y Hy; apply Hpq; by right|].
  specialize (Hpq x ltac:(by left)). by repeat case_decide; naive_solver.
Qed.

Lemma filter_ext_in {A} (p q : A → bool) (l : list A) :
  (∀ x, x ∈ l → p x = q x) → filter (λ x, p x = true) l = filter (λ x, q x = true) l.
Proof.
  induction l as [|x l IH]; intros Hpq; [done|]. rw !filter_cons (Hpq x); [by left|]. rw IH; [|done].
  intros y Hy. apply Hpq. by right.
Qed.

(** ** The interface *)

(** A heap is the list of its elements; [heap_pop] takes a greatest one out. *)
Class Unordered := {
  sort_by {A} : (A → A → comparison) → list A → list A;
  sort_unstable_by {A} : (A → A → comparison) → list A → list A;
  heap_pop {A} : (A → A → comparison) → list A → option (A * list A);
  hash_order {A} : list A → list A;
}.

Class UnorderedLaws `{Unordered} : Prop := {
  sort_by_stable {A} c (l : list A) : preorder_on c l → sort_by c l = insertion_sort c l;
  sort_by_perm {A} c (l : list A) : sort_by c l ≡ₚ l;
  sort_unstable_perm {A} c (l : list A) : sort_unstable_by c l ≡ₚ l;
  sort_unstable_ordered {A} c (l : list A) : preorder_on c l → ordered c (sort_unstable_by c l);
  heap_pop_some {A} c (l : list A) :
    l ≠ [] → ∃ m rest, heap_pop c l = Some (m, rest) ∧ l ≡ₚ m :: rest ∧ (preorder_on c l → Forall (λ x, c x m ≠ Gt) l);
  hash_order_perm {A} (l : list A) : hash_order l ≡ₚ l;
}.

Definition heap_push {A} (x : A) (h : list A) : list A := x :: h.

(** The interface has an implementation. *)
Definition plain : Unordered := {|
  sort_by A c l := insertion_sort c l;
  sort_unstable_by A c l := insertion_sort c l;
  heap_pop A c l := match l with [] => None | x :: l' => Some (take_greatest c x l') end;
  hash_order A l := l;
|}.

Lemma plain_laws : @UnorderedLaws plain.
Proof.
  split; cbn; intros *; [done|apply insertion_sort_perm|apply insertion_sort_perm|by apply insertion_sort_ordered| |done].
  destruct l as [|x l]; [done|]. intros _. eexists _, _. split; [apply f_equal, surjective_pairing|].
  split; [apply take_greatest_perm|]. by apply take_greatest_max.
Qed.
End Collections.
