(* ===== verification/Stats.v ===== *)
(** Table statistics: [bytedb-core/src/stats/mod.rs].

    For every column the share of NULLs, the number of distinct values, the most
    common values with their shares, and the bounds of an equi-depth histogram of
    the other values. *)
From S2P Require Import Prelude ByteOrder Value OrderKey Sql Float64 Collections.
Import Value OrderKey Float64 Collections.

Module Stats.

Section stats.
Context {J : Type} `{!JsonShow J} `{!Unordered}.
Local Abbreviation V := (Value J).

Record ColumnStats : Type := mkColumnStats {
  column_name : Sql.str;
  null_fraction : Z;
  ndv : Z;
  mcv : list (V * Z);
  bucket_bounds : list V;
}.

Record TableStats : Type := mkTableStats {
  stats_table : Sql.str;
  row_count : Z;
  stats_columns : list ColumnStats;
  computed_at_secs : Z;
}.

Definition column (ts : TableStats) (name : Sql.str) : option ColumnStats :=
  snd <$> list_find (λ c, column_name c = name) (stats_columns ts).

Definition canonical_key (v : V) : list Z :=
  match v with
  | Null => [0]
  | Bool b => [1; if b then 1 else 0]
  | Int64 i => 2 :: be_bytes 8 (wrap 64 i)
  | Float64 f => 3 :: be_bytes 8 f
  | Text s => 4 :: s
  | Bytes b => 5 :: b
  | Json j => 6 :: json_to_string j
  | Date d => 7 :: be_bytes 4 (wrap 32 d)
  | Timestamp t => 8 :: be_bytes 8 (wrap 64 t)
  | Decimal m s => 9 :: be_bytes 16 (wrap 128 m) ++ [s]
  | Uuid u => 10 :: u
  | Interval us => 11 :: be_bytes 8 (wrap 64 us)
  end.

(** The table of frequencies, with the value that was seen first for a key. *)
Fixpoint count_value (v : V) (freq : list (list Z * (V * Z))) : list (list Z * (V * Z)) :=
  match freq with
  | [] => [(canonical_key v, (v, 1))]
  | (k, (w, n)) :: freq' =>
      if bool_decide (k = canonical_key v) then (k, (w, n + 1)) :: freq' else (k, (w, n)) :: count_value v freq'
  end.
Definition frequencies (vs : list V) : list (list Z * (V * Z)) := foldl (λ f v, count_value v f) [] vs.

Definition value_order (a b : V) : option comparison := default Eq <$> compare a b.

(** The bounds of [buckets] buckets over sorted values: [None] is a panic. *)
Definition bounds_of (hist : list V) (buckets : Z) : option (list V) :=
  let n := zlen hist in
  if (n <? 2) || (buckets <? 2) then Some []
  else mapM (λ b, hist !! Z.to_nat (Z.min (b * (n - 1) / buckets) (n - 1))) (seqZ 0 (buckets + 1)).

Definition compute_column_stats (name : Sql.str) (values : list V) (mcv_count : nat) (histogram_buckets : Z) :
    option ColumnStats :=
  let total := i64_as_f64 (zlen values) in
  match values with
  | [] => Some (mkColumnStats name 0 0 [] [])
  | _ =>
      let non_null := filter (λ v, is_null v = false) values in
      let null_count := zlen values - zlen non_null in
      let freq := frequencies non_null in
      let entries := sort_by (λ a b, b.2 ?= a.2) (hash_order (map snd freq)) in
      let mcv := map (λ e, (e.1, f64_div (i64_as_f64 e.2) total)) (take mcv_count entries) in
      let mcv_keys := map (λ e, canonical_key e.1) mcv in
      let others := filter (λ v, canonical_key v ∉ mcv_keys) non_null in
      cmp ← comparable value_order others;
      bounds ← bounds_of (sort_by cmp others) histogram_buckets;
      Some (mkColumnStats name (f64_div (i64_as_f64 null_count) total) (zlen freq) mcv bounds)
  end.

Definition compute_table_stats (table : Sql.str) (column_names : list Sql.str) (rows : list (list V)) (mcv_count : nat)
    (histogram_buckets : Z) (now : Z) : option TableStats :=
  cols ← mapM (λ '(i, name), compute_column_stats name (map (λ row, default Null (row !! i)) rows) mcv_count histogram_buckets)
           (imap pair column_names);
  Some (mkTableStats table (zlen rows) cols now).

End stats.
#[global] Arguments ColumnStats : clear implicits.
#[global] Arguments TableStats : clear implicits.
End Stats.
