(* ===== verification/Cost.v ===== *)
(** The cost model of the planner: [bytedb-query/src/planner/cost.rs].

    Estimates are [f64]s. The logarithm and the power of the platform's library
    are parameters. *)
From S2P Require Import Prelude ByteOrder Value OrderKey Sql Float64 Stats Plan.
Import Value Sql Float64 Plan.

(** [f64::log2] and [f64::powf]. *)
Class Libm := { f64_log2 : Z → Z; f64_powf : Z → Z → Z }.

Module Cost.

(** ** Constants and the operations of [f64] *)

Definition CPU_TUPLE_COST : Z := 0x3F847AE147AE147B.
Definition CPU_OPERATOR_COST : Z := 0x3F647AE147AE147B.
Definition IO_SEQ_PAGE_COST : Z := 0x3FF0000000000000.
Definition IO_RANDOM_PAGE_COST : Z := 0x4010000000000000.
Definition MIN_CARD : Z := 0x3FF0000000000000.
Definition DEFAULT_EQ_SELECTIVITY : Z := 0x3F747AE147AE147B.
Definition DEFAULT_RANGE_SELECTIVITY : Z := 0x3FD54FDF3B645A1D.
Definition LIKE_SELECTIVITY : Z := 0x3FB999999999999A.
Definition one : Z := 0x3FF0000000000000.
Definition two : Z := 0x4000000000000000.
Definition half : Z := 0x3FE0000000000000.
Definition quarter : Z := 0x3FD0000000000000.
Definition thousand : Z := 0x408F400000000000.

(** [MIN_CARD / f64::MAX]. *)
Definition tiny : Z := f64_div MIN_CARD 0x7FEFFFFFFFFFFFFF.

(** [f64::max] and [f64::min] prefer a number to a NaN; [clamp] keeps a NaN. *)
Definition f64_max (a b : Z) : Z :=
  if f64_nan a then b else if f64_nan b then a else if f64_key a <? f64_key b then b else a.
Definition f64_min (a b : Z) : Z :=
  if f64_nan a then b else if f64_nan b then a else if f64_key b <? f64_key a then b else a.
Definition f64_clamp (a lo hi : Z) : Z := if f64_is Lt a lo then lo else if f64_is Gt a hi then hi else a.
Definition f64_sum : list Z → Z := foldl f64_add 0.

Record PlanCost : Type := mkPlanCost { rows : Z; total_cost : Z; startup_cost : Z }.

Definition PlanCost_new (rows startup_cost total_cost : Z) : PlanCost :=
  let startup := f64_max startup_cost 0 in
  mkPlanCost (f64_max rows MIN_CARD) (f64_max total_cost startup) startup.
Definition PlanCost_empty : PlanCost := mkPlanCost MIN_CARD 0 0.

Section cost.
Context {J : Type} `{!JsonShow J} `{!Libm}.
Local Abbreviation V := (Value J).
Local Abbreviation TableStats := (Stats.TableStats J).

Definition StatsCatalog : Type := gmap str TableStats.

(** ** Selectivity of conditions *)

Definition flip_op (op : BinOp) : BinOp :=
  match op with OpLt => OpGt | OpLte => OpGte | OpGt => OpLt | OpGte => OpLte | _ => op end.

Definition column_name (e : Expr) : option str :=
  match e with Column c | QualifiedColumn _ c => Some c | _ => None end.

Definition literal_value (e : Expr) : option V :=
  match e with
  | Literal (Integer i) => Some (Int64 i)
  | Literal (Float f) => Some (Float64 f)
  | Literal (LString s) => Some (Text (Like.Like.utf8_bytes s))
  | Literal (LBool b) => Some (Bool b)
  | Literal LNull => Some Null
  | _ => None
  end.

(** The statistics of the column an expression names, and the literal. *)
Definition column_and_literal (col lit : Expr) (ts : option TableStats) : option (Stats.ColumnStats J * V) :=
  cname ← column_name col;
  val ← literal_value lit;
  ts ← ts;
  cs ← Stats.column ts cname;
  Some (cs, val).

(** [None] is a panic in a comparison. *)
Fixpoint mcv_frequency (mcv : list (V * Z)) (val : V) : option (option Z) :=
  match mcv with
  | [] => Some None
  | (v, freq) :: mcv' =>
      o ← compare v val;
      if bool_decide (o = Some Eq) then Some (Some (f64_clamp freq tiny one)) else mcv_frequency mcv' val
  end.

(** What the most common values and the NULLs leave. *)
Definition remaining_mass (cs : Stats.ColumnStats J) : Z :=
  f64_max (f64_sub (f64_sub one (Stats.null_fraction cs)) (f64_sum (map snd (Stats.mcv cs)))) 0.

Definition column_eq_selectivity (col lit : Expr) (ts : option TableStats) : option (option Z) :=
  match column_and_literal col lit ts with
  | None => Some None
  | Some (cs, val) =>
      f ← mcv_frequency (Stats.mcv cs) val;
      Some (Some match f with
        | Some freq => freq
        | None =>
            let remaining_ndv := f64_max (f64_sub (i64_as_f64 (Stats.ndv cs)) (i64_as_f64 (zlen (Stats.mcv cs)))) one in
            f64_max (f64_div (remaining_mass cs) remaining_ndv) tiny
        end)
  end.

(** The number of buckets below the value, the one it lies in counted half. *)
Fixpoint buckets_below (bounds : list V) (val : V) (acc : Z) : option Z :=
  match bounds with
  | lo :: ((hi :: _) as rest) =>
      cmp_hi ← compare hi val;
      if bool_decide (cmp_hi = Some Lt ∨ cmp_hi = Some Eq) then buckets_below rest val (f64_add acc one)
      else
        cmp_lo ← compare lo val;
        Some (if bool_decide (cmp_lo = Some Lt) then f64_add acc half else acc)
  | _ => Some acc
  end.

Definition column_range_selectivity (col : Expr) (op : BinOp) (lit : Expr) (ts : option TableStats) : option (option Z) :=
  match column_and_literal col lit ts with
  | None => Some None
  | Some (cs, val) =>
      let bounds := Stats.bucket_bounds cs in
      if zlen bounds <? 2 then Some (Some DEFAULT_RANGE_SELECTIVITY)
      else
        below_buckets ← buckets_below bounds val 0;
        let hist_mass := remaining_mass cs in
        let frac_below := f64_mul (f64_div below_buckets (i64_as_f64 (zlen bounds - 1))) hist_mass in
        let frac_above := f64_sub hist_mass frac_below in
        Some (sel ← match op with
                    | OpLt => Some frac_below
                    | OpLte => Some (f64_add frac_below 0)
                    | OpGt => Some frac_above
                    | OpGte => Some (f64_add frac_above 0)
                    | _ => None
                    end;
              Some (f64_clamp sel tiny one))
  end.

Definition column_null_fraction (e : Expr) (ts : option TableStats) : option Z :=
  cname ← column_name e; ts ← ts; cs ← Stats.column ts cname; Some (Stats.null_fraction cs).

(** [a.or_else(b)] where each may panic. *)
Definition or_else (a b : option (option Z)) : option (option Z) :=
  r ← a; match r with Some x => Some (Some x) | None => b end.

Fixpoint estimate_selectivity (e : Expr) (ts : option TableStats) : option Z :=
  match e with
  | BinaryOp l OpAnd r =>
      a ← estimate_selectivity l ts; b ← estimate_selectivity r ts; Some (f64_clamp (f64_mul a b) 0 one)
  | BinaryOp l OpOr r =>
      a ← estimate_selectivity l ts;
      b ← estimate_selectivity r ts;
      Some (f64_clamp (f64_sub (f64_add a b) (f64_mul a b)) 0 one)
  | BinaryOp l ((OpEq | OpNeq) as op) r =>
      s ← or_else (column_eq_selectivity l r ts) (column_eq_selectivity r l ts);
      let sel := default DEFAULT_EQ_SELECTIVITY s in
      Some match op with OpNeq => f64_max (f64_sub one sel) tiny | _ => sel end
  | BinaryOp l ((OpLt | OpLte | OpGt | OpGte) as op) r =>
      s ← or_else (column_range_selectivity l op r ts) (column_range_selectivity r (flip_op op) l ts);
      Some (default DEFAULT_RANGE_SELECTIVITY s)
  | BinaryOp _ (OpLike | OpIlike) _ => Some LIKE_SELECTIVITY
  | BinaryOp _ (OpPlus | OpMinus | OpMul | OpDiv | OpMod) _ => Some one
  | IsNull inner => Some (default DEFAULT_EQ_SELECTIVITY (column_null_fraction inner ts))
  | IsNotNull inner => Some (f64_sub one (default DEFAULT_EQ_SELECTIVITY (column_null_fraction inner ts)))
  | InList _ items =>
      let n := i64_as_f64 (Z.max (zlen items) 1) in
      Some (f64_clamp (f64_sub one (f64_powf (f64_sub one DEFAULT_EQ_SELECTIVITY) n)) 0 one)
  | Between _ _ _ => Some DEFAULT_RANGE_SELECTIVITY
  | Unary OpNot e => s ← estimate_selectivity e ts; Some (f64_clamp (f64_sub one s) 0 one)
  | _ => Some one
  end.

(** ** The cost of plans *)

Fixpoint leftmost_table (plan : PhysicalPlan) : option str :=
  match plan with
  | SeqScan table _ _ _ | IndexScan table _ _ _ _ _ _ => Some table
  | PFilter input _ | PProject input _ | PLimit input _ _ | PSort input _ | HashAggregate input _ _ _ | PDistinct input =>
      leftmost_table input
  | HashJoin l _ _ _ | NestedLoopJoin l _ _ _ => leftmost_table l
  | _ => None
  end.

Definition row_count_of (ts : option TableStats) : Z :=
  match ts with Some s => i64_as_f64 (Stats.row_count s) | None => thousand end.

Definition join_cost (l r : PlanCost) : PlanCost :=
  let denom := f64_max (f64_max (rows l) (rows r)) MIN_CARD in
  let out := f64_max (f64_div (f64_mul (rows l) (rows r)) denom) MIN_CARD in
  let '(build, probe) := if f64_is Lt (rows l) (rows r) || f64_is Eq (rows l) (rows r) then (l, r) else (r, l) in
  let cost :=
    f64_add (f64_add (f64_add (total_cost build) (total_cost probe)) (f64_mul (f64_mul (rows build) CPU_TUPLE_COST) two))
      (f64_mul (rows probe) CPU_TUPLE_COST) in
  PlanCost_new out (total_cost build) cost.

Fixpoint cost_plan (plan : PhysicalPlan) (stats : StatsCatalog) : option PlanCost :=
  match plan with
  | SeqScan table filter limit _ =>
      let ts := stats !! table in
      let row_count := row_count_of ts in
      sel ← (match filter with Some f => estimate_selectivity f ts | None => Some one end);
      let out_rows := f64_max (f64_mul row_count sel) MIN_CARD in
      let out_rows := match limit with Some l => f64_min out_rows (i64_as_f64 l) | None => out_rows end in
      let scan_cost := f64_add (f64_mul row_count IO_SEQ_PAGE_COST) (f64_mul row_count CPU_TUPLE_COST) in
      Some (PlanCost_new out_rows 0 scan_cost)
  | IndexScan table _ _ _ _ _ _ =>
      let row_count := row_count_of (stats !! table) in
      let probe_cost := f64_add IO_RANDOM_PAGE_COST (f64_mul (f64_log2 (f64_max row_count two)) CPU_TUPLE_COST) in
      Some (PlanCost_new MIN_CARD (f64_mul probe_cost quarter) probe_cost)
  | PFilter input predicate =>
      inner ← cost_plan input stats;
      sel ← estimate_selectivity predicate (leftmost_table input ≫= λ t, stats !! t);
      let out := f64_max (f64_mul (rows inner) sel) MIN_CARD in
      Some (PlanCost_new out (startup_cost inner) (f64_add (total_cost inner) (f64_mul (rows inner) CPU_TUPLE_COST)))
  | PProject input _ =>
      inner ← cost_plan input stats;
      Some (PlanCost_new (rows inner) (startup_cost inner) (f64_add (total_cost inner) (f64_mul (rows inner) CPU_OPERATOR_COST)))
  | HashJoin l r _ _ | NestedLoopJoin l r _ _ =>
      lc ← cost_plan l stats; rc ← cost_plan r stats; Some (join_cost lc rc)
  | HashAggregate input group_by _ _ =>
      inner ← cost_plan input stats;
      let groups := match group_by with [] => MIN_CARD | _ => f64_max (f64_sqrt (rows inner)) MIN_CARD end in
      Some (PlanCost_new groups (total_cost inner) (f64_add (total_cost inner) (f64_mul (f64_mul (rows inner) CPU_TUPLE_COST) two)))
  | PSort input _ =>
      inner ← cost_plan input stats;
      let n := f64_max (rows inner) two in
      let cost := f64_add (total_cost inner) (f64_mul (f64_mul n (f64_log2 n)) CPU_OPERATOR_COST) in
      Some (PlanCost_new (rows inner) cost cost)
  | PLimit input count _ =>
      inner ← cost_plan input stats;
      let out := f64_max (f64_min (rows inner) (i64_as_f64 count)) MIN_CARD in
      let frac := f64_clamp (f64_div out (f64_max (rows inner) MIN_CARD)) 0 one in
      let total := f64_add (startup_cost inner) (f64_mul (f64_sub (total_cost inner) (startup_cost inner)) frac) in
      Some (PlanCost_new out (startup_cost inner) total)
  | PDistinct input =>
      inner ← cost_plan input stats;
      Some (PlanCost_new (f64_max (f64_sqrt (rows inner)) MIN_CARD) (total_cost inner)
              (f64_add (total_cost inner) (f64_mul (rows inner) CPU_TUPLE_COST)))
  | _ => Some PlanCost_empty
  end.

(** ** Estimates are proper numbers *)

(** A number, no NaN, that is at least [b]. *)
Definition at_least (a b : Z) : Prop := f64_nan a = false ∧ f64_key b ≤ f64_key a.

Lemma f64_max_least a b : f64_nan b = false → at_least (f64_max a b) b.
Proof.
  intros Hb. unfold at_least, f64_max. destruct (f64_nan a) eqn:Ha; [split; [done|lia]|]. rw Hb.
  destruct (Z.ltb_spec (f64_key a) (f64_key b)); split; [done|lia|done|lia].
Qed.

Definition proper_cost (c : PlanCost) : Prop :=
  at_least (rows c) MIN_CARD ∧ at_least (startup_cost c) 0 ∧ at_least (total_cost c) (startup_cost c).

Lemma PlanCost_new_proper r s t : proper_cost (PlanCost_new r s t).
Proof.
  unfold proper_cost, PlanCost_new. cbn. pose proof (f64_max_least s 0 eq_refl) as Hs.
  split_and!; [by apply f64_max_least|done|]. apply f64_max_least. apply Hs.
Qed.

Lemma PlanCost_empty_proper : proper_cost PlanCost_empty.
Proof. unfold proper_cost, at_least. vm_compute. split_and!; done. Qed.

Lemma join_cost_proper l r : proper_cost (join_cost l r).
Proof.
  unfold join_cost. destruct (f64_is Lt (rows l) (rows r) || f64_is Eq (rows l) (rows r)); apply PlanCost_new_proper.
Qed.

#[local] Opaque PlanCost_new PlanCost_empty join_cost.

Lemma cost_plan_proper plan stats c : cost_plan plan stats = Some c → proper_cost c.
Proof.
  assert (∀ d : PlanCost, Some d = Some c → proper_cost d → proper_cost c) as Hs by (by intros d [= ->]).
  destruct plan; cbn [cost_plan]; intros Hc;
    repeat match type of Hc with mbind _ _ = Some _ => apply bind_Some in Hc as (? & _ & Hc) end;
    apply (Hs _ Hc); first [apply PlanCost_empty_proper | apply join_cost_proper | apply PlanCost_new_proper].
Qed.
End cost.
End Cost.
