(* ===== verification/Optimizer.v ===== *)
(** The optimiser: [bytedb-query/src/planner/optimizer.rs].

    A logical plan becomes a physical one: filters are merged into scans, chains
    of inner joins are reordered by estimated size when every relation has
    statistics, limits are pushed into scans, and a scan whose filter has a
    conjunct on the first column of an index becomes an index scan. *)
From S2P Require Import Prelude ByteOrder Value OrderKey Schema Sql Float64 Stats Plan Cost Like Strings Eval EvalProps.
Import Value Sql Float64 Plan Cost.

Module Optimizer.

Record IndexInfo : Type := mkIndexInfo { index_name : str; index_columns : list str; index_unique : bool }.

Definition IndexCatalog : Type := gmap str (list IndexInfo).

(** ** Using indexes *)

Fixpoint collect_conjuncts (e : Expr) : list Expr :=
  match e with BinaryOp l OpAnd r => collect_conjuncts l ++ collect_conjuncts r | _ => [e] end.

Definition is_order_op (op : BinOp) : bool :=
  match op with OpEq | OpLt | OpLte | OpGt | OpGte => true | _ => false end.

Definition as_col_op_literal (e : Expr) : option (str * BinOp * Expr) :=
  match e with
  | BinaryOp l op r =>
      if negb (is_order_op op) then None
      else
        match column_name l, r with
        | Some c, Literal _ => Some (c, op, r)
        | _, _ =>
            match l, column_name r with
            | Literal _, Some c => Some (c, flip_op op, l)
            | _, _ => None
            end
        end
  | _ => None
  end.

(** The first index whose first column is [col]. *)
Definition index_on (col : str) (idxs : list IndexInfo) : option IndexInfo :=
  snd <$> list_find (λ i, head (index_columns i) = Some col) idxs.

Fixpoint find_in (conjuncts : list Expr) (idxs : list IndexInfo) (range_match : option (str * str * BinOp * Expr)) :
    option (str * str * BinOp * Expr) :=
  match conjuncts with
  | [] => range_match
  | c :: conjuncts' =>
      match as_col_op_literal c with
      | None => find_in conjuncts' idxs range_match
      | Some (col, op, val) =>
          match index_on col idxs with
          | None => find_in conjuncts' idxs range_match
          | Some ix =>
              match op with
              | OpEq => Some (index_name ix, col, op, val)
              | OpLt | OpLte | OpGt | OpGte =>
                  find_in conjuncts' idxs
                    match range_match with None => Some (index_name ix, col, op, val) | _ => range_match end
              | _ => find_in conjuncts' idxs range_match
              end
          end
      end
  end.

Definition find_index_predicate (pred : Expr) (idxs : list IndexInfo) : option (str * str * BinOp * Expr) :=
  find_in (collect_conjuncts pred) idxs None.

Fixpoint select_indexes (plan : PhysicalPlan) (indexes : IndexCatalog) : PhysicalPlan :=
  match plan with
  | SeqScan table (Some pred) limit needed =>
      match indexes !! table ≫= find_index_predicate pred with
      | Some (index, column, op, value) => IndexScan table index column op value (Some pred) limit
      | None => plan
      end
  | PFilter input predicate => PFilter (select_indexes input indexes) predicate
  | PProject input columns => PProject (select_indexes input indexes) columns
  | HashJoin l r condition jt => HashJoin (select_indexes l indexes) (select_indexes r indexes) condition jt
  | NestedLoopJoin l r condition jt => NestedLoopJoin (select_indexes l indexes) (select_indexes r indexes) condition jt
  | HashAggregate input group_by aggregates having => HashAggregate (select_indexes input indexes) group_by aggregates having
  | PSort input order_by => PSort (select_indexes input indexes) order_by
  | PLimit input count offset => PLimit (select_indexes input indexes) count offset
  | PDistinct input => PDistinct (select_indexes input indexes)
  | _ => plan
  end.

(** ** Limits *)

Fixpoint push_limit_into_scan (plan : PhysicalPlan) (limit : Z) : PhysicalPlan :=
  match plan with
  | SeqScan table filter _ needed => SeqScan table filter (Some limit) needed
  | PFilter input predicate => PFilter (push_limit_into_scan input limit) predicate
  | _ => plan
  end.

Fixpoint push_limit_down (plan : PhysicalPlan) : PhysicalPlan :=
  match plan with
  | PProject input columns => PProject (push_limit_down input) columns
  | PLimit input count offset =>
      if offset =? 0 then
        match input with
        | PSort _ _ => plan
        | _ => PLimit (push_limit_into_scan input count) count offset
        end
      else plan
  | _ => plan
  end.

(** ** Joins *)

Record JoinEdge : Type := mkEdge { edge_condition : Expr; edge_type : JoinType }.

(** [walk]: the relations of the left spine and the joins between them. *)
Fixpoint walk (plan : LogicalPlan) : list LogicalPlan * list JoinEdge :=
  match plan with
  | LJoin l r condition jt => let '(rels, joins) := walk l in (rels ++ [r], joins ++ [mkEdge condition jt])
  | _ => ([plan], [])
  end.
Definition flatten_join_chain (plan : LogicalPlan) : list LogicalPlan * list JoinEdge := walk plan.

Section optimizer.
Context {J : Type} `{!JsonShow J} `{!Libm}.
Local Abbreviation StatsCatalog := (StatsCatalog (J := J)).

Definition chain_has_stats (rels : list LogicalPlan) (stats : StatsCatalog) : bool :=
  forallb (λ r, match r with LScan table _ => bool_decide (is_Some (stats !! table)) | _ => false end) rels.

Definition leaf_physical_for_cost (plan : LogicalPlan) : PhysicalPlan :=
  match plan with
  | LScan table filter => SeqScan table filter None None
  | _ => SeqScan [] None None None
  end.

(** [iter().enumerate().min_by(..)]: the position of the first least element. *)
Fixpoint min_pos (cmp : nat → nat → option comparison) (best : nat * nat) (pos : nat) (l : list nat) : nat :=
  match l with
  | [] => best.1
  | x :: l' =>
      match default Eq (cmp best.2 x) with
      | Gt => min_pos cmp (pos, x) (S pos) l'
      | _ => min_pos cmp best (S pos) l'
      end
  end.
Definition min_by (cmp : nat → nat → option comparison) (l : list nat) : nat :=
  match l with [] => O | x :: l' => min_pos cmp (O, x) 1%nat l' end.

Definition leaf_cost (costs : list Z) (i : nat) : Z := default 0 (costs !! i).

(** The size a join with relation [i] is estimated at. *)
Definition join_estimate (costs : list Z) (running : Z) (i : nat) : Z :=
  let c := leaf_cost costs i in f64_div (f64_mul running c) (f64_max (f64_max running c) one).

(** [remaining.remove(pos)]. *)
Definition remove_at (pos : nat) (l : list nat) : list nat := take pos l ++ drop (S pos) l.

(** One relation after the other; [fuel] is their number. *)
Fixpoint order_loop (fuel : nat) (costs : list Z) (running : Z) (remaining : list nat) : list nat :=
  match fuel, remaining with
  | S fuel', _ :: _ =>
      let pos := min_by (λ a b, f64_cmp (join_estimate costs running a) (join_estimate costs running b)) remaining in
      match remaining !! pos with
      | Some next => next :: order_loop fuel' costs (join_estimate costs running next) (remove_at pos remaining)
      | None => []
      end
  | _, _ => []
  end.

Definition join_order (costs : list Z) : list nat :=
  let remaining := seq 0 (length costs) in
  let pos := min_by (λ a b, f64_cmp (leaf_cost costs a) (leaf_cost costs b)) remaining in
  match remaining !! pos with
  | Some first => first :: order_loop (length costs) costs (leaf_cost costs first) (remove_at pos remaining)
  | None => []
  end.

(** A relation carries [A] along; [None] is a panic in a comparison of values. *)
Definition reorder_join_chain {A} (rels : list (LogicalPlan * A)) (joins : list JoinEdge) (stats : StatsCatalog) :
    option (list (LogicalPlan * A) * list JoinEdge) :=
  if (zlen rels <? 2) || bool_decide (length joins = 0%nat) then Some (rels, joins)
  else if negb (chain_has_stats (map fst rels) stats) then Some (rels, joins)
  else if existsb (λ j, match edge_type j with JInner => false | _ => true end) joins then Some (rels, joins)
  else
    costs ← mapM (λ r, rows <$> cost_plan (leaf_physical_for_cost r.1) stats) rels;
    Some (omap (λ i, rels !! i) (join_order costs), joins).

Definition build_physical_join_chain (rels : list (LogicalPlan * PhysicalPlan)) (joins : list JoinEdge) : option PhysicalPlan :=
  match rels with
  | [] => None
  | first :: rest =>
      Some (foldl (λ current re, HashJoin current re.1.2 (edge_condition re.2) (edge_type re.2)) first.2 (zip rest joins))
  end.

Definition merge_filter (existing : option Expr) (predicate : Expr) : Expr :=
  match existing with Some e => BinaryOp e OpAnd predicate | None => predicate end.

(** The relations of the chain with their physical plans are computed on the
    way down the left spine. *)
Fixpoint convert_to_physical (plan : LogicalPlan) (stats : StatsCatalog) : option PhysicalPlan :=
  match plan with
  | LScan table filter => Some (SeqScan table filter None None)
  | LFilter input predicate =>
      input ← convert_to_physical input stats;
      Some match input with
           | SeqScan table existing limit needed => SeqScan table (Some (merge_filter existing predicate)) limit needed
           | other => PFilter other predicate
           end
  | LProject input columns => input ← convert_to_physical input stats; Some (PProject input columns)
  | LJoin l r _ _ =>
      let spine :=
        fix spine (p : LogicalPlan) : option (list (LogicalPlan * PhysicalPlan)) :=
          match p with
          | LJoin l r _ _ => rels ← spine l; c ← convert_to_physical r stats; Some (rels ++ [(r, c)])
          | _ => c ← convert_to_physical p stats; Some [(p, c)]
          end in
      left_rels ← spine l;
      right_phys ← convert_to_physical r stats;
      '(rels, joins) ← reorder_join_chain (left_rels ++ [(r, right_phys)]) (flatten_join_chain plan).2 stats;
      build_physical_join_chain rels joins
  | LAggregate input group_by aggregates having =>
      input ← convert_to_physical input stats; Some (HashAggregate input group_by aggregates having)
  | LSort input order_by => input ← convert_to_physical input stats; Some (PSort input order_by)
  | LLimit input count offset => input ← convert_to_physical input stats; Some (PLimit input count offset)
  | LDistinct input => input ← convert_to_physical input stats; Some (PDistinct input)
  | LInsert table columns source => Some (PInsert table columns source)
  | LUpdate table assignments filter => Some (PUpdate table assignments filter)
  | LDelete table filter => Some (PDelete table filter)
  | LCreateTable s => Some (PCreateTable s)
  | LDropTable name if_exists => Some (PDropTable name if_exists)
  | LCreateIndex s => Some (PCreateIndex s)
  | LDropIndex name => Some (PDropIndex name)
  end.

Definition optimize_with_catalog (logical : LogicalPlan) (stats : StatsCatalog) (indexes : IndexCatalog) : option PhysicalPlan :=
  physical ← convert_to_physical logical stats;
  Some (select_indexes (push_limit_down physical) indexes).
Definition optimize_with_stats (logical : LogicalPlan) (stats : StatsCatalog) : option PhysicalPlan :=
  optimize_with_catalog logical stats ∅.
Definition optimize (logical : LogicalPlan) : option PhysicalPlan := optimize_with_stats logical ∅.
End optimizer.
End Optimizer.
