(* ===== verification/Exec.v ===== *)
(** The relational operators of the executor ([bytedb-query/src/executor/engine.rs]):
    filters, projections, DISTINCT, sorting, limits, top-n and the set operations.

    An operator takes a result and returns one; it may panic, leave the error of a
    subquery, or fail. Operators run without a query context, as they do when no
    timeout and no resource limit is set. *)
From S2P Require Import Prelude ByteOrder Value OrderKey Schema Tuple Sql Like Strings Float64 Eval Collections Plan.
Import Value Sql Like Strings Eval Collections Plan.

(** ** Effects *)

(** Evaluation with the errors of statements. *)
Definition X (A : Type) : Type := bool → option (qresult A * bool).
#[export] Instance X_ret : MRet X := λ A a b, Some (QOk a, b).
#[export] Instance X_bind : MBind X := λ A B f m b,
  '(r, b') ← m b; match r with QOk a => f a b' | QErr e => Some (QErr e, b') end.

Module Exec.

Definition fail {A} (e : QueryError) : X A := λ b, Some (QErr e, b).
Definition ok {A} (m : E A) : X A := λ b, '(a, b') ← m b; Some (QOk a, b').
Definition panic_unless {A} (o : option A) : X A := λ b, a ← o; Some (QOk a, b).

Section operators.
Context {J : Type} `{Unicode} `{FloatText} `{!Engine J} `{!Unordered}.
Local Abbreviation V := (Value J).
Local Abbreviation Schema := (Schema.Schema (J := J)).

Inductive ExecutionResult :=
  | Rows (columns : list str) (rows : list (list V))
  | Modified (count : Z)
  | OkText (msg : str).

(** The schema an intermediate result is evaluated against. *)
Definition row_schema (table : str) (columns : list str) : Schema :=
  Schema.new (key_of table) (map (λ c, Schema.column_new (key_of c) TText) columns).

(** [columns.iter().position(|c| c == name)]. *)
Definition position_of (name : str) (columns : list str) : option nat := fst <$> list_find (λ c, c = name) columns.

(** ** Filters *)

Fixpoint filter_rows (schema : Schema) (predicate : Expr) (rows : list (list V)) : E (list (list V)) :=
  match rows with
  | [] => mret []
  | row :: rows' =>
      keep ← eval_predicate schema row predicate;
      rest ← filter_rows schema predicate rows';
      mret (if (keep : bool) then row :: rest else rest)
  end.

Definition apply_filter (result : ExecutionResult) (predicate : Expr) : X ExecutionResult :=
  match result with
  | Rows columns rows => filtered ← ok (filter_rows (row_schema [] columns) predicate rows); mret (Rows columns filtered)
  | other => mret other
  end.

(** ** DISTINCT *)

Definition distinct_value (v : V) : list Z :=
  match v with
  | Null => [0]
  | Bool b => [1; if b then 1 else 0]
  | Int64 n => 2 :: le_bytes 8 (wrap 64 n)
  | Float64 f => 3 :: le_bytes 8 f
  | Text s => 4 :: s ++ [0]
  | _ => 5 :: debug_value v ++ [0]
  end.
Definition distinct_key (row : list V) : list Z := row ≫= distinct_value.

Fixpoint distinct_rows (key : list V → list Z) (seen : gset (list Z)) (rows : list (list V)) : list (list V) :=
  match rows with
  | [] => []
  | row :: rows' =>
      if bool_decide (key row ∈ seen) then distinct_rows key seen rows'
      else row :: distinct_rows key ({[key row]} ∪ seen) rows'
  end.

Definition apply_distinct (result : ExecutionResult) : X ExecutionResult :=
  match result with
  | Rows columns rows => mret (Rows columns (distinct_rows distinct_key ∅ rows))
  | other => mret other
  end.

(** ** Limits *)

Definition apply_limit (result : ExecutionResult) (count offset : Z) : X ExecutionResult :=
  match result with
  | Rows columns rows => mret (Rows columns (take (Z.to_nat count) (drop (Z.to_nat offset) rows)))
  | other => mret other
  end.

(** ** Sorting *)

(** The keys of an ORDER BY: the position of a column, ascending, NULLS FIRST. *)
Definition sort_columns (columns : list str) (order_by : list OrderByExpr) : list (nat * bool * option bool) :=
  omap (λ o, let '(mkOrderBy e asc nulls_first) := o in
             match e with Column name => i ← position_of name columns; Some (i, asc, nulls_first) | _ => None end) order_by.

Definition cell (row : list V) (i : nat) : V := default Null (row !! i).

(** Two keys in the order asked for; NULLs go last when ascending and first when
    descending unless the query says otherwise. *)
Definition sort_one (cmp : V → V → option comparison) (asc : bool) (nulls_first : option bool) (va vb : V) : option comparison :=
  let nf := default (negb asc) nulls_first in
  match is_null va, is_null vb with
  | true, true => Some Eq
  | true, false => Some (if nf then Lt else Gt)
  | false, true => Some (if nf then Gt else Lt)
  | false, false => ord ← cmp va vb; Some (if asc then ord else CompOpp ord)
  end.

(** One key after the other, until two differ. *)
Fixpoint lexicographic {K} (one : K → option comparison) (keys : list K) : option comparison :=
  match keys with
  | [] => Some Eq
  | k :: keys' => ord ← one k; match ord with Eq => lexicographic one keys' | _ => Some ord end
  end.

Definition sort_rows_cmp (cols : list (nat * bool * option bool)) (a b : list V) : option comparison :=
  lexicographic (λ '(i, asc, nf), sort_one cmp_fast asc nf (cell a i) (cell b i)) cols.

(** The key of the path for integers: a NULL counts as the least integer. *)
Definition int_key (row : list V) (i : nat) : Z := match row !! i with Some (Int64 n) => n | _ => - 2 ^ 63 end.
Definition all_int (i : nat) (rows : list (list V)) : bool :=
  forallb (λ r, match r !! i with Some (Int64 _) | Some Null => true | _ => false end) rows.

Definition descending (c : comparison) (asc : bool) : comparison := if asc then c else CompOpp c.

(** [rows[i]] moved out for one index after the other. *)
Definition pick (rows : list (list V)) (indices : list nat) : list (list V) := omap (λ i, rows !! i) indices.

Definition sort_int (i : nat) (asc : bool) (rows : list (list V)) : list (list V) :=
  let keyed := imap (λ n r, (int_key r i, n)) rows in
  pick rows (map snd (sort_unstable_by (λ a b, descending (a.1 ?= b.1) asc) keyed)).

(** The keys of expressions are computed when there are two rows to compare. *)
Definition order_keys (schema : Schema) (order_by : list OrderByExpr) (row : list V) : E (list V * list V) :=
  ks ← sequence (map (λ o, let '(mkOrderBy e _ _) := o in eval_value schema row e) order_by);
  mret (ks, row).

Definition value_order (a b : V) : option comparison := default Eq <$> compare a b.

Definition expr_keys_cmp (order_by : list OrderByExpr) (a b : list V * list V) : option comparison :=
  lexicographic (λ '(mkOrderBy _ asc nf, (va, vb)), sort_one value_order asc nf va vb) (zip order_by (zip a.1 b.1)).

Definition sort_by_exprs (columns : list str) (order_by : list OrderByExpr) (rows : list (list V)) : X (list (list V)) :=
  if zlen rows <? 2 then mret rows
  else
    keyed ← ok (sequence (map (order_keys (row_schema [] columns) order_by) rows));
    cmp ← panic_unless (comparable (expr_keys_cmp order_by) keyed);
    mret (map snd (sort_by cmp keyed)).

Definition sort_rows (columns : list str) (order_by : list OrderByExpr) (rows : list (list V)) : X (list (list V)) :=
  let cols := sort_columns columns order_by in
  if bool_decide (length cols = length order_by) then
    match cols with
    | [(i, asc, None)] =>
        if all_int i rows then mret (sort_int i asc rows)
        else cmp ← panic_unless (comparable (sort_rows_cmp cols) rows); mret (sort_unstable_by cmp rows)
    | _ => cmp ← panic_unless (comparable (sort_rows_cmp cols) rows); mret (sort_unstable_by cmp rows)
    end
  else sort_by_exprs columns order_by rows.

Definition apply_sort (result : ExecutionResult) (order_by : list OrderByExpr) : X ExecutionResult :=
  match result with
  | Rows columns rows => sorted ← sort_rows columns order_by rows; mret (Rows columns sorted)
  | other => mret other
  end.

(** ** The first rows of an order *)

(** Push one element after the other and pop the greatest when there are more
    than [n]. *)
Fixpoint heap_loop {A} (c : A → A → comparison) (n : nat) (heap : list A) (l : list A) : option (list A) :=
  match l with
  | [] => Some heap
  | x :: l' =>
      let heap := heap_push x heap in
      if (n <? length heap)%nat then '(_, heap) ← heap_pop c heap; heap_loop c n heap l'
      else heap_loop c n heap l'
  end.

(** [BinaryHeap::with_capacity(n + 1)] panics when the bytes do not fit [isize]. *)
Definition heap_capacity (n size : Z) : option () := if (n + 1) * size <=? 2 ^ 63 - 1 then Some () else None.

(** [(i64, usize)] orders by key, then by position. *)
Definition pair_cmp (a b : Z * nat) : comparison := then_cmp (a.1 ?= b.1) (Nat.compare a.2 b.2).

(** [-k] overflows on the least integer. *)
Definition heap_key (asc : bool) (k : Z) : option Z :=
  if asc then Some k else if k =? - 2 ^ 63 then None else Some (- k).

Definition top_n_int (i : nat) (asc : bool) (n : Z) (rows : list (list V)) : option (list (list V)) :=
  _ ← heap_capacity n 16;
  keyed ← mapM (λ '(pos, r), k ← heap_key asc (int_key r i); Some (k, pos)) (imap pair rows);
  heap ← heap_loop pair_cmp (Z.to_nat n) [] keyed;
  let indices := map snd heap in
  let key p := match rows !! p with Some r => int_key r i | None => - 2 ^ 63 end in
  Some (pick rows (sort_unstable_by (λ a b, descending (key a ?= key b) asc) indices)).

Definition top_cmp (cols : list (nat * bool)) (a b : list V) : option comparison :=
  lexicographic (λ '(i, asc), ord ← cmp_fast (cell a i) (cell b i); Some (descending ord asc)) cols.

Definition top_n (cols : list (nat * bool)) (n : Z) (rows : list (list V)) : option (list (list V)) :=
  _ ← heap_capacity n 32;
  cmp ← comparable (top_cmp cols) rows;
  heap ← heap_loop cmp (Z.to_nat n) [] rows;
  Some (sort_unstable_by cmp heap).

Definition top_n_rows (columns : list str) (order_by : list OrderByExpr) (n : Z) (rows : list (list V)) : option (list (list V)) :=
  let cols := map fst (sort_columns columns order_by) in
  match cols with
  | [] => Some (take (Z.to_nat n) rows)
  | _ =>
      if zlen rows <=? n then cmp ← comparable (top_cmp cols) rows; Some (sort_unstable_by cmp rows)
      else
        match cols with
        | [(i, asc)] => if all_int i rows then top_n_int i asc n rows else top_n cols n rows
        | _ => top_n cols n rows
        end
  end.

Definition apply_top_n (result : ExecutionResult) (order_by : list OrderByExpr) (n : Z) : X ExecutionResult :=
  match result with
  | Rows columns rows => top ← panic_unless (top_n_rows columns order_by n rows); mret (Rows columns top)
  | other => mret other
  end.

(** ** Set operations *)

(** [serialize_row]; every value of another type is the same byte. *)
Definition serialize_value (v : V) : list Z :=
  match v with
  | Int64 n => 1 :: be_bytes 8 (wrap 64 n)
  | Float64 f => 2 :: be_bytes 8 f
  | Text s => 3 :: s ++ [0]
  | Bool b => [4; if b then 1 else 0]
  | Null => [0]
  | _ => [5]
  end.
Definition serialize_row (row : list V) : list Z := row ≫= serialize_value.

(** How often each row occurs. *)
Definition count_rows (rows : list (list V)) : gmap (list Z) Z :=
  foldl (λ m row, <[serialize_row row := default 0 (m !! serialize_row row) + 1]> m) ∅ rows.

Fixpoint intersect_loop (all : bool) (right_set : gmap (list Z) Z) (rows : list (list V)) : list (list V) :=
  match rows with
  | [] => []
  | row :: rows' =>
      let key := serialize_row row in
      match right_set !! key with
      | Some count =>
          if 0 <? count then
            row :: intersect_loop all (if all then <[key := count - 1]> right_set else base.delete key right_set) rows'
          else intersect_loop all right_set rows'
      | None => intersect_loop all right_set rows'
      end
  end.

Fixpoint except_loop (all : bool) (right_set : gmap (list Z) Z) (rows : list (list V)) : list (list V) :=
  match rows with
  | [] => []
  | row :: rows' =>
      let key := serialize_row row in
      match right_set !! key with
      | Some count =>
          if 0 <? count then except_loop all (if all then <[key := count - 1]> right_set else base.delete key right_set) rows'
          else row :: except_loop all right_set rows'
      | None => row :: except_loop all right_set rows'
      end
  end.

(** The operands have been executed; [what] is the name in the message. *)
Definition exec_union (l r : ExecutionResult) (all : bool) : X ExecutionResult :=
  match l, r with
  | Rows columns left_rows, Rows _ right_rows =>
      let result := Rows columns (left_rows ++ right_rows) in
      if all then mret result else apply_distinct result
  | _, _ => fail (Execution (chars "UNION requires two SELECT statements"))
  end.

Definition exec_intersect (l r : ExecutionResult) (all : bool) : X ExecutionResult :=
  match l, r with
  | Rows columns left_rows, Rows _ right_rows => mret (Rows columns (intersect_loop all (count_rows right_rows) left_rows))
  | _, _ => fail (Execution (chars "INTERSECT requires two SELECT statements"))
  end.

Definition exec_except (l r : ExecutionResult) (all : bool) : X ExecutionResult :=
  match l, r with
  | Rows columns left_rows, Rows _ right_rows => mret (Rows columns (except_loop all (count_rows right_rows) left_rows))
  | _, _ => fail (Execution (chars "EXCEPT requires two SELECT statements"))
  end.

(** ** Projections *)

(** The name a function's result has as a column: [count( * )], [sum(x)]. *)
Definition agg_func_col_name (name : str) (args : list Expr) : str := aggregate_column name args.

Definition projected_names (col_names : list str) (columns : list SelectColumn) : list str :=
  columns ≫= λ col,
    match col with
    | SelectStar => col_names
    | SelectExpr (Column name) alias => [default name alias]
    | SelectExpr (QualifiedColumn _ col_name) alias => [default col_name alias]
    | SelectExpr (Function name args) alias => [default (agg_func_col_name name args) alias]
    | SelectExpr _ alias => [default (chars "?") alias]
    end.

Inductive ProjStep := StarAll | Idx (i : nat) | EvalExpr (e : Expr).

(** A column by its name, or by the end of a qualified one. *)
Definition find_col_idx (col_names : list str) (name : str) : option nat :=
  match position_of name col_names with
  | Some i => Some i
  | None => fst <$> list_find (λ c, ends_with (chars "." ++ name) c = true) col_names
  end.

Definition proj_step (col_names : list str) (col : SelectColumn) : ProjStep :=
  match col with
  | SelectStar => StarAll
  | SelectExpr (Column name) _ => Idx (default 0%nat (find_col_idx col_names name))
  | SelectExpr (QualifiedColumn table col_name) _ =>
      Idx match position_of (table ++ chars "." ++ col_name) col_names with
          | Some i => i
          | None => default 0%nat (find_col_idx col_names col_name)
          end
  | SelectExpr (Function fname args as e) _ =>
      match position_of (agg_func_col_name fname args) col_names with Some i => Idx i | None => EvalExpr e end
  | SelectExpr e _ => EvalExpr e
  end.

Fixpoint project_row (schema : Schema) (plan : list ProjStep) (row : list V) : E (list V) :=
  match plan with
  | [] => mret []
  | step :: plan' =>
      vs ← (match step with
            | StarAll => mret row
            | Idx i => mret [cell row i]
            | EvalExpr e => v ← eval_value schema row e; mret [v]
            end : E (list V));
      rest ← project_row schema plan' row;
      mret (vs ++ rest)
  end.

Definition is_window (c : SelectColumn) : bool :=
  match c with SelectExpr (WindowFunction _ _ _ _) _ => true | _ => false end.
End operators.
#[global] Arguments ExecutionResult : clear implicits.
End Exec.
