(* ===== verification/Window.v ===== *)
(** Projections and window functions of the executor ([apply_projection],
    [apply_projection_with_windows] and [compute_window_function] of
    [bytedb-query/src/executor/engine.rs]). *)
From S2P Require Import Prelude ByteOrder Value OrderKey Schema Tuple Sql Like Strings Float64 Eval Collections Plan Exec.
Import Value Sql Like Strings Float64 Eval Collections Plan Exec.

Module Window.

(** ** Grouping *)

(** [map.entry(key).or_default().push(i)], keys in the order of their first use. *)
Fixpoint push_group (key : list Z) (i : nat) (groups : list (list Z * list nat)) : list (list Z * list nat) :=
  match groups with
  | [] => [(key, [i])]
  | (k, l) :: groups' => if bool_decide (k = key) then (k, l ++ [i]) :: groups' else (k, l) :: push_group key i groups'
  end.
Definition group_by_key (keys : list (list Z)) : list (list Z * list nat) :=
  foldl (λ g '(i, k), push_group k i g) [] (imap pair keys).

Section window.
Context {J : Type} `{Unicode} `{FloatText} `{!Engine J} `{!Unordered}.
Local Abbreviation V := (Value J).
Local Abbreviation Schema := (Schema.Schema (J := J)).

Definition serialize_partition_key (values : list V) : list Z := values ≫= serialize_value.

Definition resolve_window_arg (args : list Expr) (col_names : list str) : option nat :=
  match args with Column name :: _ => position_of name col_names | _ => None end.

Definition order_by_cmp (order_by : list OrderByExpr) (ka kb : list V) : option comparison :=
  lexicographic (λ '(mkOrderBy _ asc _, (va, vb)), c ← value_order va vb; Some (descending c asc)) (zip order_by (zip ka kb)).

(** The rows of a partition in the order of the window. *)
Definition order_partition (order_by : list OrderByExpr) (sort_keys : list (list V)) (indices : list nat) : option (list nat) :=
  match order_by with
  | [] => Some indices
  | _ =>
      let key i := default [] (sort_keys !! i) in
      cmp ← comparable (λ a b, order_by_cmp order_by (key a) (key b)) indices;
      Some (sort_by cmp indices)
  end.

(** [sort_keys[a] != sort_keys[b]]; the order of [Value] decides equality. *)
Fixpoint values_equal (a b : list V) : option bool :=
  match a, b with
  | [], [] => Some true
  | x :: a', y :: b' =>
      o ← compare x y;
      if bool_decide (o = Some Eq) then values_equal a' b' else Some false
  | _, _ => Some false
  end.

(** The numbers of RANK ([dense] false) and DENSE_RANK along a partition. *)
Fixpoint ranks (dense : bool) (sort_keys : list (list V)) (prev : option nat) (pos rank : Z) (indices : list nat) : option (list Z) :=
  match indices with
  | [] => Some []
  | i :: indices' =>
      same ← match prev with
             | None => Some true
             | Some p => values_equal (default [] (sort_keys !! i)) (default [] (sort_keys !! p))
             end;
      let rank := if (same : bool) then rank else if dense then rank + 1 else pos + 1 in
      rest ← ranks dense sort_keys (Some i) (pos + 1) rank indices';
      Some (rank :: rest)
  end.

(** [rows[idx][ci]]. *)
Definition at_cell (rows : list (list V)) (idx ci : nat) : option V := row ← rows !! idx; row !! ci.

(** A running aggregate: the state after each row of the partition, shown. *)
Fixpoint running {S} (step : S → nat → option S) (out : S → V) (s : S) (indices : list nat) : option (list V) :=
  match indices with
  | [] => Some []
  | i :: indices' => s' ← step s i; rest ← running step out s' indices'; Some (out s' :: rest)
  end.

Definition sum_step (rows : list (list V)) (col : option nat) (s : Z * Z) (i : nat) : option (Z * Z) :=
  match col with
  | None => Some s
  | Some ci =>
      v ← at_cell rows i ci;
      Some match v with
           | Int64 n => (f64_add s.1 (i64_as_f64 n), s.2 + 1)
           | Float64 f => (f64_add s.1 f, s.2 + 1)
           | _ => s
           end
  end.

Definition count_step (rows : list (list V)) (col : option nat) (n : Z) (i : nat) : option Z :=
  match col with
  | None => Some (n + 1)
  | Some ci => v ← at_cell rows i ci; Some (if is_null v then n else n + 1)
  end.

(** The least ([Lt]) or greatest ([Gt]) value so far. *)
Definition extreme_step (c : comparison) (rows : list (list V)) (col : option nat) (best : V) (i : nat) : option V :=
  match col with
  | None => Some best
  | Some ci =>
      v ← at_cell rows i ci;
      if is_null v then Some best
      else if is_null best then Some v
      else o ← compare v best; Some (if bool_decide (o = Some c) then v else best)
  end.

(** [n as usize] of the second argument, 1 without one. *)
Definition window_offset (args : list Expr) : Z :=
  match args with _ :: Literal (Integer n) :: _ => wrap 64 n | _ => 1 end.

(** LAG and LEAD: the value at another place of the partition, NULL beyond its
    ends. [i + offset] overflows when the offset was a negative number. *)
Definition lag_target (offset pos : Z) : option (option Z) := Some (if offset <=? pos then Some (pos - offset) else None).
Definition lead_target (len offset pos : Z) : option (option Z) :=
  if 2 ^ 64 <=? pos + offset then None else Some (if pos + offset <? len then Some (pos + offset) else None).

Definition shifted (rows : list (list V)) (col : option nat) (target : Z → option (option Z)) (indices : list nat) : option (list V) :=
  mapM (λ '(pos, _),
    t ← target (Z.of_nat pos);
    match t with
    | None => Some Null
    | Some p =>
        idx ← indices !! Z.to_nat p;
        match col with Some ci => at_cell rows idx ci | None => Some Null end
    end) (imap pair indices).

Inductive WinFunc := WRowNumber | WRank | WDenseRank | WSum | WAvg | WCount | WMin | WMax | WLag | WLead.

Definition window_functions : list (string * WinFunc) :=
  [("ROW_NUMBER", WRowNumber); ("RANK", WRank); ("DENSE_RANK", WDenseRank); ("SUM", WSum); ("AVG", WAvg);
   ("COUNT", WCount); ("MIN", WMin); ("MAX", WMax); ("LAG", WLag); ("LEAD", WLead)].
Definition win_func_of (upper_name : str) : option WinFunc :=
  snd <$> (snd <$> list_find (λ kf : string * WinFunc, chars kf.1 = upper_name) window_functions).

(** The values of one partition, in its order; [None] for another function. *)
Definition partition_values (f : WinFunc) (args : list Expr) (rows : list (list V)) (col_names : list str)
    (sort_keys : list (list V)) (indices : list nat) : option (list V) :=
  let col := resolve_window_arg args col_names in
  let offset := window_offset args in
  match f with
  | WRowNumber => Some (imap (λ rank _, Int64 (Z.of_nat rank + 1)) indices)
  | WRank => map Int64 <$> ranks false sort_keys None 0 1 indices
  | WDenseRank => map Int64 <$> ranks true sort_keys None 0 1 indices
  | WSum => running (sum_step rows col) (λ s, Float64 s.1) (0, 0) indices
  | WAvg => running (sum_step rows col) (λ s, if 0 <? s.2 then Float64 (f64_div s.1 (i64_as_f64 s.2)) else Null) (0, 0) indices
  | WCount => running (count_step rows col) Int64 0 indices
  | WMin => running (extreme_step Lt rows col) id Null indices
  | WMax => running (extreme_step Gt rows col) id Null indices
  | WLag => shifted rows col (lag_target offset) indices
  | WLead => shifted rows col (lead_target (zlen indices) offset) indices
  end.

(** [result[idx] = value] for every row of the partition. *)
Definition store_values (result : list V) (indices : list nat) (values : list V) : list V :=
  foldl (λ r '(i, v), <[i := v]> r) result (zip indices values).

Fixpoint window_loop (f : WinFunc) (args : list Expr) (order_by : list OrderByExpr) (rows : list (list V)) (col_names : list str)
    (sort_keys : list (list V)) (partitions : list (list nat)) (result : list V) : option (list V) :=
  match partitions with
  | [] => Some result
  | indices :: partitions' =>
      indices ← order_partition order_by sort_keys indices;
      values ← partition_values f args rows col_names sort_keys indices;
      window_loop f args order_by rows col_names sort_keys partitions' (store_values result indices values)
  end.

Definition compute_window_function (name : str) (args partition_by : list Expr) (order_by : list OrderByExpr)
    (rows : list (list V)) (col_names : list str) (schema : Schema) : E (list V) :=
  partition_keys ← sequence (map (λ row, sequence (map (eval_value schema row) partition_by)) rows);
  sort_keys ← sequence (map (λ row, sequence (map (λ o, let '(mkOrderBy e _ _) := o in eval_value schema row e) order_by)) rows);
  let partitions := map snd (group_by_key (map serialize_partition_key partition_keys)) in
  let nulls := replicate (length rows) Null in
  match win_func_of (to_uppercase name) with
  | None => mret nulls
  | Some f => panic_or (window_loop f args order_by rows col_names sort_keys (hash_order partitions) nulls)
  end.

(** ** Projections *)

Definition window_names (col_names : list str) (columns : list SelectColumn) : list str :=
  columns ≫= λ col,
    match col with
    | SelectStar => col_names
    | SelectExpr (Column name) alias => [default name alias]
    | SelectExpr (WindowFunction name _ _ _) alias => [default (to_lowercase name) alias]
    | SelectExpr (Function name args) alias => [default (agg_func_col_name name args) alias]
    | SelectExpr _ alias => [default (chars "?") alias]
    end.

(** The row with index [row_idx]; the window columns are taken in order. *)
Fixpoint window_row (schema : Schema) (col_names : list str) (columns : list SelectColumn) (windows : list (list V))
    (row_idx : nat) (row : list V) : E (list V) :=
  match columns with
  | [] => mret []
  | col :: columns' =>
      vs ← (match col with
            | SelectStar => mret row
            | SelectExpr (WindowFunction _ _ _ _) _ => v ← panic_or (w ← head windows; w !! row_idx); mret [v]
            | SelectExpr (Column name) _ => mret [cell row (default 0%nat (position_of name col_names))]
            | SelectExpr e _ => v ← eval_value schema row e; mret [v]
            end : E (list V));
      rest ← window_row schema col_names columns' (if is_window col then tail windows else windows) row_idx row;
      mret (vs ++ rest)
  end.

Definition window_column (schema : Schema) (col_names : list str) (rows : list (list V)) (col : SelectColumn) : option (E (list V)) :=
  match col with
  | SelectExpr (WindowFunction name args partition_by order_by) _ =>
      Some (compute_window_function name args partition_by order_by rows col_names schema)
  | _ => None
  end.

Definition apply_projection_with_windows (col_names : list str) (rows : list (list V)) (columns : list SelectColumn) :
    X (ExecutionResult J) :=
  let schema := row_schema [] col_names in
  windows ← ok (sequence (omap (window_column schema col_names rows) columns));
  new_rows ← ok (sequence (imap (window_row schema col_names columns windows) rows));
  mret (Rows (window_names col_names columns) new_rows).

Definition apply_projection (result : ExecutionResult J) (columns : list SelectColumn) (src_table : option str) :
    X (ExecutionResult J) :=
  match result with
  | Rows col_names rows =>
      if existsb (λ c, match c with SelectStar => true | _ => false end) columns then mret (Rows col_names rows)
      else if existsb is_window columns then apply_projection_with_windows col_names rows columns
      else
        let schema := row_schema (default [] src_table) col_names in
        new_rows ← ok (sequence (map (project_row schema (map (proj_step col_names) columns)) rows));
        mret (Rows (projected_names col_names columns) new_rows)
  | other => mret other
  end.
End window.
End Window.
