(* ===== verification/Join.v ===== *)
(** Hash joins ([exec_hash_join] and [extract_join_keys] of
    [bytedb-query/src/executor/engine.rs]).

    A join builds a table from the keys of one side and looks up the keys of the
    other: integers when both key columns hold only integers, the
    order-preserving encoding of the values otherwise. *)
From S2P Require Import Prelude ByteOrder Value OrderKey Schema Tuple Sql Like Strings Float64 Eval Collections Plan Exec.
Import Value OrderKey Sql Like Strings Eval Plan Exec.

Module Join.

Section join.
Context {J : Type} `{!JsonShow J}.
Local Abbreviation V := (Value J).
Local Abbreviation row := (list V).

(** ** The key columns *)

Definition expr_column_name (e : Expr) : option str :=
  match e with Column name | QualifiedColumn _ name => Some name | _ => None end.

(** The column a name stands for: equal to it, or its last part. *)
Definition key_position (name : str) (columns : list str) : option nat :=
  fst <$> list_find (λ c, c = name ∨ ends_with (chars "." ++ c) name = true) columns.

Definition extract_join_keys (condition : Expr) (left_cols right_cols : list str) : qresult (nat * nat) :=
  match condition with
  | BinaryOp l OpEq r =>
      let found :=
        ln ← expr_column_name l;
        rn ← expr_column_name r;
        match key_position ln left_cols, key_position rn right_cols with
        | Some li, Some ri => Some (li, ri)
        | _, _ =>
            li ← key_position rn left_cols;
            ri ← key_position ln right_cols;
            Some (li, ri)
        end in
      match found with
      | Some p => QOk p
      | None => QErr (Execution (chars "Cannot determine join keys from condition"))
      end
  | _ => QErr (Execution (chars "JOIN condition must be an equality"))
  end.

(** ** Tables of row numbers *)

(** [entry(key).or_default().push(i)]. *)
Definition push_index {K} `{Countable K} (m : gmap K (list nat)) (k : K) (i : nat) : gmap K (list nat) :=
  <[k := default [] (m !! k) ++ [i]]> m.

(** The rows that have a key, under their keys. *)
Definition build_table {K} `{Countable K} (key : row → option K) (rows : list row) : gmap K (list nat) :=
  foldl (λ m '(i, r), match key r with Some k => push_index m k i | None => m end) ∅ (imap pair rows).

Definition int_at (idx : nat) (r : row) : option Z := match r !! idx with Some (Int64 k) => Some k | _ => None end.
Definition hash_key (v : V) : list Z := encode_okey [v].

(** The key of a row, unless it is NULL or missing. *)
Definition bytes_at (idx : nat) (r : row) : option (list Z) :=
  match r !! idx with Some v => if is_null v then None else Some (hash_key v) | None => None end.

Definition probe {K} `{Countable K} (table : gmap K (list nat)) (key : option K) : list nat :=
  match key with Some k => default [] (table !! k) | None => [] end.

(** [combined.resize(width, Null)]. *)
Definition resize (width : nat) (r : row) : row := take width r ++ replicate (width - length r) Null.

Definition rows_at (rows : list row) (indices : list nat) : list row := omap (λ i, rows !! i) indices.

(** ** Joins *)

Section sides.
Context {K : Type} `{Countable K} (left_key right_key : row → option K) (left_rows right_rows : list row) (left_width right_width : nat).

(** Build on the left, go through the right. *)
Definition inner_on_left : list row :=
  let table := build_table left_key left_rows in
  right_rows ≫= λ r, map (λ l, l ++ r) (rows_at left_rows (probe table (right_key r))).

(** Build on the right, go through the left. *)
Definition inner_join : list row :=
  let table := build_table right_key right_rows in
  left_rows ≫= λ l, map (λ r, l ++ r) (rows_at right_rows (probe table (left_key l))).

Definition left_join : list row :=
  let table := build_table right_key right_rows in
  left_rows ≫= λ l,
    match probe table (left_key l) with
    | [] => [resize (left_width + right_width) l]
    | hits => map (λ r, l ++ r) (rows_at right_rows hits)
    end.

Definition right_join : list row :=
  let table := build_table left_key left_rows in
  right_rows ≫= λ r,
    match probe table (right_key r) with
    | [] => [replicate left_width Null ++ r]
    | hits => map (λ l, l ++ r) (rows_at left_rows hits)
    end.

Definition join_rows (jt : JoinType) : list row :=
  match jt with JInner => inner_join | JLeft => left_join | JRight => right_join end.
End sides.

(** [r.get(idx)] is an integer in every row. *)
Definition all_ints (idx : nat) (rows : list row) : bool :=
  forallb (λ r, match r !! idx with Some (Int64 _) => true | _ => false end) rows.

Definition qualified (table : option str) (cols : list str) : list str :=
  map (λ c, match table with Some t => t ++ chars "." ++ c | None => c end) cols.

(** Both sides have been executed. A row of the left side without the key column
    makes a left join panic. *)
Definition hash_join (left_table right_table : option str) (l r : ExecutionResult J) (condition : Expr) (jt : JoinType) :
    X (ExecutionResult J) :=
  match l, r with
  | Rows left_cols left_rows, Rows right_cols right_rows =>
      '(li, ri) ← ((λ b, Some (extract_join_keys condition left_cols right_cols, b)) : X (nat * nat));
      let out_cols := qualified left_table left_cols ++ qualified right_table right_cols in
      let lw := length left_cols in
      let rw := length right_cols in
      if all_ints ri right_rows && all_ints li left_rows then
        mret (Rows out_cols
          match jt with
          | JInner =>
              if (length left_rows <? length right_rows)%nat then inner_on_left (int_at li) (int_at ri) left_rows right_rows
              else inner_join (int_at li) (int_at ri) left_rows right_rows
          | _ => join_rows (int_at li) (int_at ri) left_rows right_rows lw rw jt
          end)
      else if match jt with JLeft => negb (forallb (λ r, bool_decide (is_Some (r !! li))) left_rows) | _ => false end
      then panic_unless None
      else mret (Rows out_cols (join_rows (bytes_at li) (bytes_at ri) left_rows right_rows lw rw jt))
  | _, _ => fail (Execution (chars "JOIN requires row input"))
  end.

(** ** The reference: every pair of rows *)

Section reference.
Context (joined : row → row → bool) (left_rows right_rows : list row) (left_width right_width : nat).

Definition matching (l : row) : list row := filter (λ r, joined l r = true) right_rows.
Definition matching_left (r : row) : list row := filter (λ l, joined l r = true) left_rows.

Definition nested_inner : list row := left_rows ≫= λ l, map (λ r, l ++ r) (matching l).
Definition nested_left : list row :=
  left_rows ≫= λ l, match matching l with [] => [resize (left_width + right_width) l] | rs => map (λ r, l ++ r) rs end.
Definition nested_right : list row :=
  right_rows ≫= λ r, match matching_left r with [] => [replicate left_width Null ++ r] | ls => map (λ l, l ++ r) ls end.

Definition nested_loop (jt : JoinType) : list row :=
  match jt with JInner => nested_inner | JLeft => nested_left | JRight => nested_right end.
End reference.

(** ** Tables hold the rows with a key, in order *)

Section tables.
Context {K : Type} `{Countable K}.

Lemma build_table_snoc (key : row → option K) rows r :
  build_table key (rows ++ [r]) =
    match key r with Some k => push_index (build_table key rows) k (length rows) | None => build_table key rows end.
Proof. unfold build_table. rw imap_app foldl_app. cbn. by rw Nat.add_0_r. Qed.

Lemma rows_at_app rows r indices :
  Forall (λ i, (i < length rows)%nat) indices → rows_at (rows ++ [r]) indices = rows_at rows indices.
Proof.
  unfold rows_at. induction 1 as [|i indices Hi Hs IH]; [done|]. cbn. rw lookup_app_l; [done|].
  destruct (rows !! i); by rw IH.
Qed.

Lemma probe_spec (key : row → option K) rows k :
  let hits := default [] (build_table key rows !! k) in
  Forall (λ i, (i < length rows)%nat) hits ∧ rows_at rows hits = filter (λ r, key r = Some k) rows.
Proof.
  cbv zeta. induction rows as [|r rows IH] using rev_ind; [done|]. destruct IH as [Hlt IH].
  rw build_table_snoc filter_app length_app -IH. cbn [filter list_filter].
  assert (Forall (λ i, (i < length rows + length [r])%nat) (default [] (build_table key rows !! k))) as Hlt'.
  { apply (Forall_impl _ _ _ Hlt). intros i Hi. cbn. lia. }
  assert (key r ≠ Some k → match key r with Some k0 => push_index (build_table key rows) k0 (length rows) | None => build_table key rows end !! k
    = build_table key rows !! k) as Hother.
  { intros Hk. destruct (key r) as [k'|]; [|done]. apply lookup_insert_ne. congruence. }
  destruct (decide (key r = Some k)) as [Hk|Hk].
  - rw Hk. unfold push_index. rw lookup_insert_eq. cbn [default from_option id]. split.
    + apply Forall_app. split; [done|]. constructor; [cbn; lia|done].
    + rw -(rows_at_app rows r); [done|]. unfold rows_at. rw omap_app. f_equal. cbn. by rw (list_lookup_middle rows [] r).
  - rw Hother; [done|]. rw rows_at_app; [done|]. by rw app_nil_r.
Qed.

(** Two keys that are there and equal. *)
Definition same_key (a b : option K) : bool := match a, b with Some x, Some y => bool_decide (x = y) | _, _ => false end.

Lemma probe_rows (key : row → option K) rows k :
  rows_at rows (probe (build_table key rows) k) = filter (λ r, same_key k (key r) = true) rows ∧
  (probe (build_table key rows) k = [] ↔ filter (λ r, same_key k (key r) = true) rows = []).
Proof.
  destruct k as [k|]; cbn [probe].
  2:{ assert (filter (λ r, same_key None (key r) = true) rows = []) as -> by (induction rows; done). done. }
  assert (filter (λ r, same_key (Some k) (key r) = true) rows = filter (λ r, key r = Some k) rows) as ->.
  { apply list_filter_iff. intros r. cbn. destruct (key r) as [k'|]; [|done]. rw bool_decide_eq_true. naive_solver. }
  destruct (probe_spec key rows k) as [Hlt Hr]. cbn [probe] in *. split; [done|]. rw -Hr.
  destruct (default [] (build_table key rows !! k)) as [|i l]; [done|]. apply Forall_cons in Hlt as [Hi _].
  destruct (lookup_lt_is_Some_2 rows i Hi) as [x Hx]. cbn. rw Hx. done.
Qed.
End tables.

Section nested.
Context {K : Type} `{Countable K} (left_key right_key : row → option K) (left_rows right_rows : list row) (lw rw' : nat).
Local Abbreviation joined := (λ l r, same_key (left_key l) (right_key r)).

Lemma inner_join_nested : inner_join left_key right_key left_rows right_rows = nested_inner joined left_rows right_rows.
Proof.
  apply list_bind_ext; [|done]. intros l. by rw (proj1 (probe_rows right_key right_rows (left_key l))).
Qed.

Lemma left_join_nested :
  left_join left_key right_key left_rows right_rows lw rw' = nested_left joined left_rows right_rows lw rw'.
Proof.
  apply list_bind_ext; [|done]. intros l. unfold matching.
  destruct (probe_rows right_key right_rows (left_key l)) as [Hr He].
  destruct (probe _ _) as [|i hits] eqn:E; [by rw (proj1 He eq_refl)|]. rw Hr.
  destruct (filter _ right_rows); [|done]. by pose proof (proj2 He eq_refl).
Qed.

Lemma flip_key a b : same_key (K := K) a b = same_key b a.
Proof. destruct a, b; cbn; [|done..]. apply bool_decide_ext. split; congruence. Qed.

Lemma matching_left_key r :
  matching_left joined left_rows r = filter (λ l, same_key (right_key r) (left_key l) = true) left_rows.
Proof. apply list_filter_iff. intros l. cbn. by rw flip_key. Qed.

Lemma right_join_nested : right_join left_key right_key left_rows right_rows lw = nested_right joined left_rows right_rows lw.
Proof.
  apply list_bind_ext; [|done]. intros r. rw matching_left_key.
  destruct (probe_rows left_key left_rows (right_key r)) as [Hr He].
  destruct (probe _ _) as [|i hits] eqn:E; [by rw (proj1 He eq_refl)|]. rw Hr.
  destruct (filter _ left_rows); [|done]. by pose proof (proj2 He eq_refl).
Qed.

Lemma inner_on_left_nested :
  inner_on_left left_key right_key left_rows right_rows ≡ₚ nested_inner joined left_rows right_rows.
Proof.
  assert (inner_on_left left_key right_key left_rows right_rows =
    right_rows ≫= λ r, left_rows ≫= λ l, if joined l r then [l ++ r] else []) as ->.
  { apply list_bind_ext; [|done]. intros r. rw (proj1 (probe_rows left_key left_rows (right_key r))).
    rw -matching_left_key. apply Collections.map_filter_bind. }
  rw -Collections.bind_swap. apply reflexive_eq, list_bind_ext; [|done]. intros l. symmetry. apply Collections.map_filter_bind.
Qed.

Lemma join_rows_nested jt :
  join_rows left_key right_key left_rows right_rows lw rw' jt = nested_loop joined left_rows right_rows lw rw' jt.
Proof. destruct jt; [apply inner_join_nested|apply left_join_nested|apply right_join_nested]. Qed.
End nested.

(** ** Keys and equality *)

(** The condition of the join on two rows, as SQL evaluates it. *)
Definition sql_equal (li ri : nat) (l r : row) : bool :=
  match tri_compare OpEq (cell l li) (cell r ri) with Some (Some true) => true | _ => false end.

(** Two keys of one type, not intervals, in rows that have them. *)
Definition joinable (a b : V) : Prop :=
  value_ok a ∧ value_ok b ∧ comparable a b ∧ match a with Interval _ => False | _ => True end.
Definition keys_ok (li ri : nat) (left_rows right_rows : list row) : Prop :=
  ∀ l r, l ∈ left_rows → r ∈ right_rows → ∃ a b, l !! li = Some a ∧ r !! ri = Some b ∧ joinable a b.

Lemma compare_joinable (a b : V) :
  joinable a b → is_null a = false → is_null b = false →
  ∃ o, cmp_fast a b = Some o ∧ compare a b = Some (Some o).
Proof.
  intros (_ & _ & Hc & Hi) Ha Hb. destruct a, b; try done; cbn in Hc |- *; eauto.
  - destruct Hc as (H1 & H2 & _). unfold f64_cmp. rw H1 H2. cbn. eauto.
  - subst. unfold decimal_align. rw Z.eqb_refl. cbn. eauto.
Qed.

Lemma tri_equal (a b : V) o :
  is_null a = false → is_null b = false → compare a b = Some (Some o) →
  tri_compare OpEq a b = Some (Some (bool_decide (o = Eq))).
Proof. intros Ha Hb Hc. unfold tri_compare. rw Ha Hb Hc. cbn. do 2 f_equal. by destruct o. Qed.

(** Two keys that the join takes for equal: neither is NULL and [key_cmp] calls
    them equal, decimals by their digits alone, floats by their bits, JSON values by
    their texts. *)
Definition key_equal (li ri : nat) (l r : row) : bool :=
  negb (is_null (cell l li)) && negb (is_null (cell r ri)) && bool_decide (key_cmp (cell l li) (cell r ri) = Eq).

(** The rows have the key columns, and the keys are of one type. *)
Definition keys_typed (li ri : nat) (left_rows right_rows : list row) : Prop :=
  ∀ l r, l ∈ left_rows → r ∈ right_rows → ∃ a b, l !! li = Some a ∧ r !! ri = Some b ∧ key_ok a ∧ key_ok b ∧ same_type a b.

Lemma hash_key_cmp (a b : V) : key_ok a → key_ok b → same_type a b → hash_key a = hash_key b ↔ key_cmp a b = Eq.
Proof.
  intros Ha Hb Ht. pose proof (encode_one_key a b [] [] Ha Hb Ht) as H. rw !app_nil_r in H.
  unfold hash_key, encode_okey, encode_okey_into. cbn [mbind list_bind app]. rw !app_nil_r -bcmp_eq H. by destruct (key_cmp a b).
Qed.

Lemma bytes_keys li ri (l r : row) a b :
  l !! li = Some a → r !! ri = Some b → key_ok a → key_ok b → same_type a b →
  same_key (bytes_at li l) (bytes_at ri r) = key_equal li ri l r.
Proof.
  intros Ha Hb Hka Hkb Ht. unfold bytes_at, key_equal, cell. rw Ha Hb. cbn [default from_option id].
  destruct (is_null a); [by destruct (is_null b)|]. destruct (is_null b); [done|]. cbn.
  apply bool_decide_ext. by apply hash_key_cmp.
Qed.

Lemma int_keys li ri (l r : row) a b :
  l !! li = Some (Int64 a) → r !! ri = Some (Int64 b) → same_key (int_at li l) (int_at ri r) = key_equal li ri l r.
Proof.
  intros Ha Hb. unfold int_at, key_equal, cell. rw Ha Hb. cbn. apply bool_decide_ext. by rw Z.compare_eq_iff.
Qed.

(** Where the keys can be compared, equality of keys is the condition of the join. *)
Lemma key_equal_sql li ri (l r : row) a b :
  l !! li = Some a → r !! ri = Some b → joinable a b → key_equal li ri l r = sql_equal li ri l r.
Proof.
  intros Ha Hb Hj. unfold key_equal, sql_equal, cell. rw Ha Hb. cbn [default from_option id].
  destruct (is_null a) eqn:Na; [unfold tri_compare; rw Na; by destruct (is_null b)|].
  destruct (is_null b) eqn:Nb; [unfold tri_compare; rw Na Nb; done|].
  destruct (compare_joinable a b Hj Na Nb) as (o & Ho & Hc). rw (tri_equal a b o Na Nb Hc).
  destruct Hj as (Hva & Hvb & Hab & _). rw (key_cmp_fast a b Hva Hvb Hab) in Ho. injection Ho as ->. cbn. by destruct o.
Qed.

Lemma nested_loop_ext j1 j2 left_rows right_rows lw rw' jt :
  (∀ l r, l ∈ left_rows → r ∈ right_rows → j1 l r = j2 l r) →
  nested_loop j1 left_rows right_rows lw rw' jt = nested_loop j2 left_rows right_rows lw rw' jt.
Proof.
  intros Hj.
  assert (∀ l, l ∈ left_rows → matching j1 right_rows l = matching j2 right_rows l) as Hl.
  { intros l Hl. apply Collections.filter_ext_in. auto. }
  assert (∀ r, r ∈ right_rows → matching_left j1 left_rows r = matching_left j2 left_rows r) as Hr.
  { intros r Hr. apply (Collections.filter_ext_in (λ l, j1 l r) (λ l, j2 l r)). auto. }
  destruct jt; apply Collections.bind_ext_in; intros x Hx; [by rw Hl|by rw Hl|by rw Hr].
Qed.

Lemma all_ints_spec idx (rows : list row) r : all_ints idx rows = true → r ∈ rows → ∃ n, r !! idx = Some (Int64 n).
Proof.
  unfold all_ints. rw forallb_forall. intros Ha Hr%list_elem_of_In. specialize (Ha r Hr).
  destruct (r !! idx) as [[]|]; naive_solver.
Qed.

(** C32: a hash join over rows that have the key columns, with keys of one type,
    returns the pairs of rows whose keys are equal ([key_equal]), as comparing every
    row of one side with every row of the other does: for an inner join up to the
    order of the rows, for a left or right join in the same order, the rows without a
    partner padded with NULLs. This is the condition of the join as SQL evaluates it
    ([sql_equal]) if the decimals among the keys have one scale and the keys are not
    NaN, a negative zero beside the other one, JSON or intervals; decimals of
    different scales, and keys of two types, are the cases of
    [join_keys_across_types]. *)
Theorem hash_join_correct lt rt left_cols right_cols left_rows right_rows condition jt li ri st :
  extract_join_keys condition left_cols right_cols = QOk (li, ri) →
  keys_typed li ri left_rows right_rows →
  Forall (λ l, is_Some (l !! li)) left_rows →
  let reference j := nested_loop j left_rows right_rows (length left_cols) (length right_cols) jt in
  (∃ rows,
    hash_join lt rt (Rows left_cols left_rows) (Rows right_cols right_rows) condition jt st =
      Some (QOk (Rows (qualified lt left_cols ++ qualified rt right_cols) rows), st) ∧
    rows ≡ₚ reference (key_equal li ri) ∧ (jt ≠ JInner → rows = reference (key_equal li ri))) ∧
  (keys_ok li ri left_rows right_rows → reference (key_equal li ri) = reference (sql_equal li ri)).
Proof.
  intros Hk Hok Hleft reference. split.
  2:{ intros Hj. apply nested_loop_ext. intros l r Hl Hr. destruct (Hj l r Hl Hr) as (a & b & Ha & Hb & Hab).
      by apply (key_equal_sql li ri l r a b). }
  unfold hash_join, mbind, X_bind. rw Hk. cbn -[join_rows inner_join inner_on_left].
  destruct (all_ints ri right_rows && all_ints li left_rows) eqn:Hints.
  - apply andb_true_iff in Hints as [Hri Hli].
    assert (nested_loop (λ l r, same_key (int_at li l) (int_at ri r)) left_rows right_rows (length left_cols)
      (length right_cols) jt = reference (key_equal li ri)) as Href.
    { apply nested_loop_ext. intros l r Hl Hr. destruct (all_ints_spec _ _ _ Hli Hl) as [a Ha].
      destruct (all_ints_spec _ _ _ Hri Hr) as [b Hb]. by apply (int_keys li ri l r a b). }
    eexists. split; [done|]. rw -Href. destruct jt.
    + split; [|done]. case_match; [apply inner_on_left_nested|by rw inner_join_nested].
    + by rw join_rows_nested.
    + by rw join_rows_nested.
  - assert (forallb (λ r : row, bool_decide (is_Some (r !! li))) left_rows = true) as ->.
    { apply forallb_forall. intros l Hl%list_elem_of_In. apply bool_decide_eq_true. by rw Forall_forall in Hleft; apply Hleft. }
    assert (join_rows (bytes_at li) (bytes_at ri) left_rows right_rows (length left_cols) (length right_cols) jt = reference (key_equal li ri)) as Href.
    { rw join_rows_nested. apply nested_loop_ext. intros l r Hl Hr. destruct (Hok l r Hl Hr) as (a & b & Ha & Hb & Hka & Hkb & Ht).
      by apply (bytes_keys li ri l r a b). }
    exists (reference (key_equal li ri)). rw -Href. split; [by destruct jt|done].
Qed.
End join.

(** ** Concrete joins *)

#[local] Instance unit_show : JsonShow unit := λ _, [].

Definition on_id : Expr := BinaryOp (QualifiedColumn (chars "a") (chars "id")) OpEq (QualifiedColumn (chars "b") (chars "ref")).
Definition sample_left : list (list (Value unit)) := [[Text [97]; Int64 1]; [Null; Int64 2]; [Text [98]; Int64 3]].
Definition sample_right : list (list (Value unit)) := [[Text [98]]; [Text [97]]; [Text [98]]].
Definition join_text (l r : list (list (Value unit))) (jt : JoinType) : X (ExecutionResult unit) :=
  hash_join None None (Rows [chars "id"; chars "n"] l) (Rows [chars "ref"] r) on_id jt.

(** Every pair of keys of the two sides. *)
Ltac each_pair Hl Hr :=
  unfold sample_left, sample_right in Hl, Hr;
  repeat (apply elem_of_cons in Hl as [->|Hl]); [..|by apply not_elem_of_nil in Hl];
  repeat (apply elem_of_cons in Hr as [->|Hr]); try (by apply not_elem_of_nil in Hr);
  (eexists _, _; split_and!; [reflexivity|reflexivity|..]); repeat split; repeat constructor; done.

Lemma hash_join_correct_witness :
  (∃ rows,
    join_text sample_left sample_right JLeft false = Some (QOk (Rows [chars "id"; chars "n"; chars "ref"] rows), false) ∧
    rows = [[Text [97]; Int64 1; Text [97]]; [Null; Int64 2; Null]; [Text [98]; Int64 3; Text [98]]; [Text [98]; Int64 3; Text [98]]]) ∧
  nested_loop (key_equal 0 0) sample_left sample_right 2 1 JLeft = nested_loop (sql_equal 0 0) sample_left sample_right 2 1 JLeft.
Proof.
  destruct (hash_join_correct None None [chars "id"; chars "n"] [chars "ref"] sample_left sample_right on_id JLeft 0 0 false)
    as [(rows & Hr & _ & He) Hs].
  - vm_compute. reflexivity.
  - intros l r Hl Hr. each_pair Hl Hr.
  - repeat constructor; eexists; reflexivity.
  - split; [|apply Hs; intros l r Hl Hr'; each_pair Hl Hr'].
    exists rows. split; [exact Hr|]. rw He; [done|]. vm_compute. reflexivity.
Defined.

(** The keys of a join are compared as bytes: an integer does not meet the float
    it is equal to, and decimals of different scales meet when their digits are
    the same, 1.0 and 10 for example. *)
Theorem join_keys_across_types :
  let compared (a b : Value unit) := tri_compare OpEq a b = Some (Some true) in
  let joins a b := ∃ r, join_text [[a; Null]] [[b]] JInner false = Some (QOk (Rows [chars "id"; chars "n"; chars "ref"] [r]), false) in
  let misses a b := join_text [[a; Null]] [[b]] JInner false = Some (QOk (Rows [chars "id"; chars "n"; chars "ref"] []), false) in
  compared (Int64 1) (Float64 (i64_as_f64 1)) ∧ misses (Int64 1) (Float64 (i64_as_f64 1)) ∧
  ¬ compared (Decimal 10 1) (Decimal 10 0) ∧ joins (Decimal 10 1) (Decimal 10 0).
Proof. cbv zeta. split_and!; [vm_compute; reflexivity..|vm_compute; congruence|]. eexists. vm_compute. reflexivity. Qed.
End Join.
