(* ===== verification/ExecSpec.v ===== *)
(** What sorting and top-n return: the rows in the order of the key columns, with
    the NULLs where each path of the code puts them. *)
From Stdlib Require Import QArith_base.
From S2P Require Import Prelude ByteOrder Value OrderKey Schema Tuple Sql Lexer Like Strings Float64 Eval Scan Collections Plan Exec.
Import Value Sql Like Strings Eval Collections Plan Exec.

Module ExecSpec.

(** ** Heaps keep the least elements *)

Section heap.
Context `{!Unordered, !UnorderedLaws} {A : Type} (c : A → A → comparison).

Definition below (kept dropped : list A) : Prop := ∀ x y, x ∈ kept → y ∈ dropped → c x y ≠ Gt.

Lemma heap_step (n : nat) x heap dropped :
  preorder_on c (x :: heap ++ dropped) → below heap dropped → (n < length (x :: heap))%nat → (length heap ≤ n)%nat →
  ∃ m rest, heap_pop c (x :: heap) = Some (m, rest) ∧ x :: heap ≡ₚ m :: rest ∧ below rest (m :: dropped) ∧
    length rest = n.
Proof.
  intros Hc Hb Hn Hle. destruct (heap_pop_some c (x :: heap) ltac:(done)) as (m & rest & Hp & Hperm & Hmax).
  exists m, rest. split; [done|]. split; [done|].
  assert (preorder_on c (x :: heap)) as Hc'.
  { apply (preorder_on_sub c (x :: heap ++ dropped)); [|done]. intros z Hz. rw app_comm_cons elem_of_app. by left. }
  specialize (Hmax Hc'). rw Forall_forall in Hmax.
  assert (∀ z, z ∈ rest → z ∈ x :: heap) as Hin by (intros z Hz; rw Hperm; by right).
  split; [|apply Permutation_length in Hperm; cbn in *; lia].
  intros z y Hz [->|Hy]%elem_of_cons; [by apply Hmax, Hin|].
  assert (m ∈ x :: heap) as Hm by (rw Hperm; by left). apply elem_of_cons in Hm as [->|Hm].
  - apply Hb; [|done]. by apply Permutation_cons_inv in Hperm; rw Hperm.
  - apply (pre_trans _ _ Hc z m y); [..|by apply Hmax, Hin|by apply Hb].
    + rw app_comm_cons elem_of_app. left. by apply Hin.
    + right. rw elem_of_app. by left.
    + right. rw elem_of_app. by right.
Qed.

Lemma heap_loop_keeps n l heap dropped :
  preorder_on c (heap ++ dropped ++ l) → below heap dropped → (length heap ≤ n)%nat → (dropped = [] ∨ length heap = n) →
  ∃ kept rest, heap_loop c n heap l = Some kept ∧ heap ++ dropped ++ l ≡ₚ kept ++ rest ∧ below kept rest ∧
    (length kept ≤ n)%nat ∧ (rest = [] ∨ length kept = n).
Proof.
  revert heap dropped. induction l as [|x l IH]; intros heap dropped Hc Hb Hle Hd.
  { exists heap, dropped. rw app_nil_r. done. }
  assert (heap ++ dropped ++ x :: l ≡ₚ (x :: heap) ++ dropped ++ l) as Hp by (by rw -(Permutation_middle dropped l x) -(Permutation_middle heap _ x)).
  cbn [heap_loop]. unfold heap_push. destruct (Nat.ltb_spec n (length (x :: heap))) as [Hn|Hn].
  - destruct (heap_step n x heap dropped) as (m & rest & Hpop & Hperm & Hb' & Hl); [|done..|].
    { apply (preorder_on_sub c (heap ++ dropped ++ x :: l)); [|done]. intros z. rw Hp. set_solver. }
    rw Hpop. cbn [mbind option_bind].
    destruct (IH rest (m :: dropped)) as (kept & rest' & Hk & Hp' & Hrest); [|done|lia|by right|].
    { apply (preorder_on_perm c (heap ++ dropped ++ x :: l)); [|done]. rw Hp Hperm. cbn. by rw -(Permutation_middle rest). }
    exists kept, rest'. split; [done|]. split; [|done]. rw Hp Hperm -Hp'. cbn. by rw -(Permutation_middle rest).
  - destruct (IH (x :: heap) dropped) as (kept & rest' & Hk & Hp' & Hrest).
    + by apply (preorder_on_perm c (heap ++ dropped ++ x :: l)).
    + intros z y [->|Hz]%elem_of_cons Hy; [|by apply Hb]. destruct Hd as [->|Hd]; [by apply not_elem_of_nil in Hy|].
      cbn in Hn. lia.
    + done.
    + destruct Hd as [->|Hd]; [by left|]. cbn in Hn. lia.
    + exists kept, rest'. split; [done|]. by rw Hp.
Qed.

Lemma heap_loop_least n l :
  preorder_on c l → ∃ kept rest, heap_loop c n [] l = Some kept ∧ l ≡ₚ kept ++ rest ∧ below kept rest ∧
    length kept = (n `min` length l)%nat.
Proof.
  intros Hc. destruct (heap_loop_keeps n l [] []) as (kept & rest & Hk & Hp & Hb & Hle & Hd); [done| |cbn; lia|by left|].
  { intros x y Hx. by apply not_elem_of_nil in Hx. }
  exists kept, rest. split_and!; [done..|]. cbn in Hp. apply Permutation_length in Hp. rw length_app in Hp.
  destruct Hd as [->|Hd]; cbn in *; lia.
Qed.
End heap.

(** ** Orders of rows *)

Section orders.
Context {J : Type} `{!OrderKey.JsonShow J}.
Local Abbreviation V := (Value J).
Local Abbreviation row := (list V).

(** Two values in the direction asked for, with the NULLs first or last. *)
Definition placed_one (asc nulls_first : bool) (va vb : V) : comparison :=
  match is_null va, is_null vb with
  | true, true => Eq
  | true, false => if nulls_first then Lt else Gt
  | false, true => if nulls_first then Gt else Lt
  | false, false => descending (default Eq (cmp_fast va vb)) asc
  end.

(** Columns one after the other: the position, ascending, NULLs first. *)
Fixpoint placed_order (cols : list (nat * bool * bool)) (a b : row) : comparison :=
  match cols with
  | [] => Eq
  | (i, asc, nf) :: cols' => then_cmp (placed_one asc nf (cell a i) (cell b i)) (placed_order cols' a b)
  end.

(** NULLs before all values when ascending and after them when descending. *)
Definition nulls_least (cols : list (nat * bool)) : list (nat * bool * bool) := map (λ c, (c, c.2)) cols.
Definition row_order (cols : list (nat * bool)) : row → row → comparison := placed_order (nulls_least cols).

(** Two values of a column that can be sorted: of one type or NULL, no NaN, and
    decimals that can be brought to one scale within 128 bits. *)
Definition decimals_align (x sx y sy : Z) : Prop :=
  Z.abs (sx - sy) ≤ 38 ∧ i128_ok (x * 10 ^ (Z.max sx sy - sx)) ∧ i128_ok (y * 10 ^ (Z.max sx sy - sy)).
Definition sort_ok (a b : V) : Prop :=
  OrderKey.same_type a b ∧
  match a, b with
  | Float64 f, Float64 g => f64_nan f = false ∧ f64_nan g = false
  | Decimal x sx, Decimal y sy => decimals_align x sx y sy
  | _, _ => True
  end.

Definition sortable (cols : list (nat * bool)) (rows : list row) : Prop :=
  ∀ a b i asc, a ∈ rows → b ∈ rows → (i, asc) ∈ cols → value_ok (cell a i) ∧ sort_ok (cell a i) (cell b i).

(** ** Ranks *)

(** A value as a number and a text, in whose order the values of a type are sorted. *)
Definition rank (v : V) : Q * list Z :=
  match v with
  | Float64 f => (inject_Z (f64_key f), [])
  | Decimal m s => (Qmake m (Z.to_pos (10 ^ s)), [])
  | Json _ => (0%Q, [])
  | _ => (0%Q, OrderKey.encode_one v)
  end.
Definition rank_cmp (a b : V) : comparison := then_cmp (Qcompare (rank a).1 (rank b).1) (bcmp (rank a).2 (rank b).2).

Lemma preorder_key {A B} (c : B → B → comparison) (f : A → B) l :
  (∀ l', preorder_on c l') → preorder_on (λ a b, c (f a) (f b)) l.
Proof.
  intros Hc. split; intros *; [intros _ _; apply (pre_flip _ _ (Hc [f a; f b])); set_solver|].
  intros _ _ _. apply (pre_trans _ _ (Hc [f a; f b; f d])); set_solver.
Qed.

Lemma Q_preorder l : preorder_on Qcompare l.
Proof.
  split; intros *; [intros _ _; by rw Qcompare_antisym|]. intros _ _ _. rw -!Qle_alt. apply Qle_trans.
Qed.

Lemma bcmp_preorder l : preorder_on bcmp l.
Proof. split; intros *; [intros _ _; apply bcmp_antisym|]. intros _ _ _ H1 H2. by apply (ble_trans _ b). Qed.

Lemma Z_preorder l : preorder_on Z.compare l.
Proof. split; intros *; [intros _ _; apply Z.compare_antisym|]. intros _ _ _. rw !Z.compare_le_iff. lia. Qed.

Lemma rank_preorder l : preorder_on rank_cmp l.
Proof.
  apply preorder_then.
  - apply (preorder_key Qcompare (λ v : V, (rank v).1)). apply Q_preorder.
  - apply (preorder_key bcmp (λ v : V, (rank v).2)). apply bcmp_preorder.
Qed.

Lemma descending_preorder {A} (c : A → A → comparison) asc l :
  preorder_on c l → preorder_on (λ a b, descending (c a b) asc) l.
Proof. destruct asc; [done|]. apply preorder_opp. Qed.

Lemma pow10_some k : 0 ≤ k ≤ 38 → pow10 k = Some (10 ^ k).
Proof.
  intros Hk. unfold pow10. rw bool_decide_true; [|done]. unfold i128_ok.
  pose proof (Z.pow_le_mono_r 10 k 38 ltac:(lia) ltac:(lia)). pose proof (Z.pow_pos_nonneg 10 k). lia.
Qed.

Lemma saturating_exact a b : i128_ok (a * b) → saturating_mul128 a b = a * b.
Proof. unfold i128_ok, saturating_mul128. lia. Qed.

Lemma scale_cmp a b k : 0 ≤ k → (a * 10 ^ k ?= b * 10 ^ k) = (a ?= b).
Proof. intros Hk. symmetry. apply Zmult_compare_compat_r. pose proof (Z.pow_pos_nonneg 10 k). lia. Qed.

Lemma aligned_cmp x sx y sy :
  byte_ok sx → byte_ok sy → decimals_align x sx y sy →
  ∃ nx ny, decimal_align x sx y sy = Some (nx, ny) ∧ (nx ?= ny) = (x * 10 ^ sy ?= y * 10 ^ sx).
Proof.
  unfold byte_ok. intros Hsx Hsy (Hd & Hx & Hy). unfold decimal_align.
  destruct (Z.eqb_spec sx sy) as [->|Hne].
  { exists x, y. split; [done|]. rw scale_cmp; [lia|done]. }
  destruct (Z.ltb_spec sx sy) as [Hlt|Hge]; (rw pow10_some; [lia|]); cbn [mbind option_bind]; eexists _, _; (split; [done|]).
  - rw Z.max_r in Hx; [lia|]. rw (saturating_exact _ _ Hx).
    rw (_ : x * 10 ^ sy = x * 10 ^ (sy - sx) * 10 ^ sx); [|rw scale_cmp; [lia|done]].
    rw -Z.mul_assoc -Z.pow_add_r; [lia|lia|]. do 2 f_equal. lia.
  - rw Z.max_l in Hy; [lia|]. rw (saturating_exact _ _ Hy).
    rw (_ : y * 10 ^ sx = y * 10 ^ (sx - sy) * 10 ^ sy); [|rw scale_cmp; [lia|done]].
    rw -Z.mul_assoc -Z.pow_add_r; [lia|lia|]. do 2 f_equal. lia.
Qed.

(** Values that can be sorted compare as their ranks. *)
Lemma cmp_fast_rank (a b : V) :
  is_null a = false → is_null b = false → value_ok a → value_ok b → sort_ok a b → cmp_fast a b = Some (rank_cmp a b).
Proof.
  intros Na Nb Ha Hb [Ht Hs]. assert (∀ o, OrderKey.comparable a b → cmp_fast a b = Some o → rank_cmp a b = bcmp (OrderKey.encode_one a) (OrderKey.encode_one b) →
    cmp_fast a b = Some (rank_cmp a b)) as Hcode.
  { intros o Hc Ho Hr. pose proof (OrderKey.encode_one_cmp a b o [] [] Ha Hb Hc Ho) as He. rw !app_nil_r in He.
    rw Hr Ho He. by destruct o. }
  destruct a, b; try done; try (by eapply Hcode); clear Hcode; cbn in Ha, Hb, Hs |- *.
  - destruct Hs as [Hn1 Hn2]. unfold f64_cmp, rank_cmp. rw Hn1 Hn2. cbn [orb default from_option id rank fst snd].
    unfold Qcompare, inject_Z. cbn [Qnum Qden]. rw !Z.mul_1_r. by destruct (_ ?= _).
  - destruct (aligned_cmp _ _ _ _ (proj2 Ha) (proj2 Hb) Hs) as (nx & ny & -> & Hc). cbn [mbind option_bind]. rw Hc.
    destruct Ha as [_ Hsx], Hb as [_ Hsy]. unfold byte_ok in *. unfold rank_cmp, Qcompare. cbn [rank fst snd Qnum Qden].
    rw !Z2Pos.id; [apply Z.pow_pos_nonneg; lia..|]. by destruct (m * 10 ^ scale0 ?= m0 * 10 ^ scale).
Qed.

(** ** Orders of rows as orders of ranks *)

Definition null_class (nf : bool) (v : V) : Z := if is_null v then (if nf then 0 else 2) else 1.

Fixpoint code_cmp (cols : list (nat * bool * bool)) (a b : row) : comparison :=
  match cols with
  | [] => Eq
  | (i, asc, nf) :: cols' =>
      then_cmp (then_cmp (null_class nf (cell a i) ?= null_class nf (cell b i)) (descending (rank_cmp (cell a i) (cell b i)) asc))
        (code_cmp cols' a b)
  end.

Lemma code_cmp_preorder cols l : preorder_on (code_cmp cols) l.
Proof.
  induction cols as [|[[i asc] nf] cols IH]; cbn [code_cmp]; [apply preorder_const|]. apply preorder_then; [|done].
  apply preorder_then.
  - apply (preorder_key Z.compare (λ a : row, null_class nf (cell a i))), Z_preorder.
  - apply (descending_preorder (λ a b : row, rank_cmp (cell a i) (cell b i))).
    apply (preorder_key rank_cmp (λ a : row, cell a i)), rank_preorder.
Qed.

Lemma placed_one_code asc nf (va vb : V) :
  value_ok va → value_ok vb → sort_ok va vb →
  placed_one asc nf va vb = then_cmp (null_class nf va ?= null_class nf vb) (descending (rank_cmp va vb) asc).
Proof.
  intros Ha Hb Hs. unfold placed_one, null_class.
  destruct (is_null va) eqn:Na, (is_null vb) eqn:Nb; [|by destruct nf..|by rw (cmp_fast_rank va vb Na Nb Ha Hb Hs)].
  rw Z.compare_refl. destruct va, vb; try done. by destruct asc.
Qed.

Lemma sortable_cons c cols rows : sortable (c :: cols) rows → sortable cols rows.
Proof. intros Hs a b i asc Ha Hb Hin. apply (Hs a b i asc); [done..|by right]. Qed.

Lemma placed_code (cols : list (nat * bool * bool)) rows a b :
  sortable (map fst cols) rows → a ∈ rows → b ∈ rows → placed_order cols a b = code_cmp cols a b.
Proof.
  intros Hs Ha Hb. induction cols as [|[[i asc] nf] cols IH]; [done|]. cbn [placed_order code_cmp].
  destruct (Hs a b i asc Ha Hb ltac:(by left)) as [Hv Hc]. destruct (Hs b a i asc Hb Ha ltac:(by left)) as [Hv' _].
  rw (placed_one_code asc nf _ _ Hv Hv' Hc). f_equal. apply IH. exact (sortable_cons _ _ _ Hs).
Qed.

Lemma placed_preorder (cols : list (nat * bool * bool)) rows : sortable (map fst cols) rows → preorder_on (placed_order cols) rows.
Proof.
  intros Hs. apply (preorder_ext (code_cmp cols)); [|apply code_cmp_preorder]. intros a b Ha Hb. symmetry. by apply (placed_code cols rows).
Qed.

Lemma nulls_least_cols cols : map fst (nulls_least cols) = cols.
Proof. induction cols as [|[i asc] cols IH]; [done|]. cbn. by rw IH. Qed.

Lemma top_cmp_placed cols rows a b : sortable cols rows → a ∈ rows → b ∈ rows → top_cmp cols a b = Some (row_order cols a b).
Proof.
  intros Hs Ha Hb. unfold top_cmp, row_order. induction cols as [|[i asc] cols IH]; [done|].
  cbn [lexicographic nulls_least map placed_order snd].
  destruct (Hs a b i asc Ha Hb ltac:(by left)) as [Hv Hc]. destruct (Hs b a i asc Hb Ha ltac:(by left)) as [Hv' _].
  assert (∃ o, cmp_fast (cell a i) (cell b i) = Some o ∧ placed_one asc asc (cell a i) (cell b i) = descending o asc) as (o & Ho & Hp).
  { unfold placed_one. destruct (is_null (cell a i)) eqn:Na, (is_null (cell b i)) eqn:Nb.
    4: by rw (cmp_fast_rank _ _ Na Nb Hv Hv' Hc); eexists.
    all: destruct (cell a i), (cell b i); try done; eexists; (split; [done|]); by destruct asc. }
  rw Ho Hp. cbn. destruct (descending o asc); [|done..]. cbn. apply IH. exact (sortable_cons _ _ _ Hs).
Qed.

Definition with_nulls (c : nat * bool * option bool) : nat * bool * bool := (c.1, default (negb c.1.2) c.2).

Lemma sort_cmp_placed (cols : list (nat * bool * option bool)) rows a b :
  sortable (map fst cols) rows → a ∈ rows → b ∈ rows → sort_rows_cmp cols a b = Some (placed_order (map with_nulls cols) a b).
Proof.
  intros Hs Ha Hb. unfold sort_rows_cmp. induction cols as [|[[i asc] nf] cols IH]; [done|]. cbn [lexicographic map fst].
  destruct (Hs a b i asc Ha Hb ltac:(by left)) as [Hv Hc]. destruct (Hs b a i asc Hb Ha ltac:(by left)) as [Hv' _].
  assert (sort_one cmp_fast asc nf (cell a i) (cell b i) = Some (placed_one asc (default (negb asc) nf) (cell a i) (cell b i))) as ->.
  { unfold sort_one, placed_one. destruct (is_null (cell a i)) eqn:Na, (is_null (cell b i)) eqn:Nb; [done..|].
    by rw (cmp_fast_rank _ _ Na Nb Hv Hv' Hc). }
  cbn [mbind option_bind with_nulls placed_order fst snd].
  destruct (placed_one _ _ _ _); [|done..]. cbn. apply IH. exact (sortable_cons _ _ _ Hs).
Qed.

(** A comparison that does not panic on the rows. *)
Lemma comparable_total {A} (c : A → A → option comparison) (d : A → A → comparison) l :
  (∀ a b, a ∈ l → b ∈ l → c a b = Some (d a b)) →
  ∃ cmp, comparable c l = Some cmp ∧ ∀ a b, a ∈ l → b ∈ l → cmp a b = d a b.
Proof.
  intros Hc. unfold comparable.
  assert (forallb (λ a, forallb (λ b, bool_decide (is_Some (c a b))) l) l = true) as ->.
  { apply forallb_forall. intros a Ha%list_elem_of_In. apply forallb_forall. intros b Hb%list_elem_of_In.
    apply bool_decide_eq_true. rw (Hc a b Ha Hb). eauto. }
  eexists. split; [done|]. intros a b Ha Hb. cbn. by rw (Hc a b Ha Hb).
Qed.

(** The path for integers reads NULL as the least integer: no NULL stands beside
    that integer. *)
Definition nulls_apart (i : nat) (rows : list row) : Prop :=
  ∀ a b, a ∈ rows → b ∈ rows → is_null (cell a i) = true → cell b i ≠ Int64 (- 2 ^ 63).

(** The key of the path for integers orders as the column does, with NULLs least. *)
Lemma int_order i asc rows a b :
  sortable [(i, asc)] rows → all_int i rows = true → nulls_apart i rows → a ∈ rows → b ∈ rows →
  row_order [(i, asc)] a b = descending (int_key a i ?= int_key b i) asc.
Proof.
  intros Hs Hi Hn Ha Hb. unfold all_int in Hi. rw forallb_forall in Hi.
  pose proof (Hi a (proj1 (list_elem_of_In _ _) Ha)) as Hia. pose proof (Hi b (proj1 (list_elem_of_In _ _) Hb)) as Hib.
  destruct (Hs a b i asc Ha Hb ltac:(by left)) as [Hva _]. destruct (Hs b a i asc Hb Ha ltac:(by left)) as [Hvb _].
  pose proof (Hn a b Ha Hb) as Hab. pose proof (Hn b a Hb Ha) as Hba. unfold row_order. cbn [nulls_least map placed_order snd].
  unfold int_key, cell in *. destruct (a !! i) as [va|], (b !! i) as [vb|]; try done. destruct va, vb; try done; cbn in *; unfold i64_ok in *.
  - by destruct asc.
  - destruct (Z.compare_spec (- 2 ^ 63) n) as [He| |]; [|by destruct asc|lia]. by destruct (Hab eq_refl); f_equal.
  - destruct (Z.compare_spec n (- 2 ^ 63)) as [He| |]; [|lia|by destruct asc]. by destruct (Hba eq_refl); f_equal.
  - by destruct (descending _ _).
Qed.
End orders.

(** ** Sorting *)

Lemma ordered_map {A B} (c : B → B → comparison) (f : A → B) l : ordered (λ a b, c (f a) (f b)) l → ordered c (map f l).
Proof.
  unfold ordered. induction l as [|x l IH]; intros Hl; [constructor|]. apply StronglySorted_inv in Hl as [Hl Hx].
  cbn. constructor; [by apply IH|]. by apply Forall_map.
Qed.

Section sorting.
Context {J : Type} `{Unicode} `{FloatText} `{!Engine J} `{!OrderKey.JsonShow J} `{!Unordered, !UnorderedLaws}.
Local Abbreviation V := (Value J).
Local Abbreviation row := (list V).

Implicit Types rows : list row.

(** ** Rows by their numbers *)

Definition row_at (rows : list row) (i : nat) : row := default [] (rows !! i).

Lemma pick_map rows l : Forall (λ i, (i < length rows)%nat) l → pick rows l = map (row_at rows) l.
Proof.
  unfold pick, row_at. induction 1 as [|i l Hi Hl IH]; [done|]. cbn. destruct (lookup_lt_is_Some_2 rows i Hi) as [r Hr].
  rw Hr IH. done.
Qed.

Lemma map_row_at rows : map (row_at rows) (seq 0 (length rows)) = rows.
Proof.
  apply list_eq. intros i. unfold row_at. rw list_lookup_fmap. destruct (decide (i < length rows)%nat) as [Hi|Hi].
  - rw lookup_seq_lt; [done|]. cbn. by destruct (lookup_lt_is_Some_2 rows i Hi) as [r ->].
  - rw lookup_seq_ge; [lia|]. cbn. symmetry. apply lookup_ge_None. lia.
Qed.

Lemma pick_perm rows l m : l ++ m ≡ₚ seq 0 (length rows) → rows ≡ₚ pick rows l ++ pick rows m.
Proof.
  intros Hp. assert (Forall (λ i, (i < length rows)%nat) (l ++ m)) as Hlt.
  { rw Hp. apply Forall_forall. intros i Hi%elem_of_seq. lia. }
  apply Forall_app in Hlt as [Hl Hm]. rw (pick_map _ _ Hl) (pick_map _ _ Hm) -map_app -{1}(map_row_at rows).
  apply Permutation_map. by symmetry.
Qed.

Lemma row_at_in rows i : (i < length rows)%nat → row_at rows i ∈ rows.
Proof.
  intros Hi. unfold row_at. destruct (lookup_lt_is_Some_2 rows i Hi) as [r Hr]. rw Hr. by apply list_elem_of_lookup_2 in Hr.
Qed.

(** Numbers sorted by a key are rows sorted by an order that agrees with it. *)
Lemma pick_ordered rows l (c : nat → nat → comparison) (d : row → row → comparison) :
  Forall (λ i, (i < length rows)%nat) l →
  (∀ a b, a ∈ l → b ∈ l → c a b = d (row_at rows a) (row_at rows b)) → ordered c l → ordered d (pick rows l).
Proof. intros Hl Hcd Ho. rw (pick_map _ _ Hl). apply ordered_map. by apply (ordered_ext c). Qed.

Lemma imap_keyed (f : nat → row → Z * nat) rows :
  (∀ n r, (f n r).2 = n) → map snd (imap f rows) = seq 0 (length rows).
Proof.
  intros Hf. apply list_eq. intros i. rw list_lookup_fmap list_lookup_imap.
  destruct (decide (i < length rows)%nat) as [Hi|Hi].
  - rw lookup_seq_lt; [done|]. destruct (lookup_lt_is_Some_2 rows i Hi) as [r ->]. cbn. by rw Hf.
  - rw lookup_seq_ge; [lia|]. rw (proj2 (lookup_ge_None rows i)); [lia|]. done.
Qed.

Lemma sort_int_spec i asc rows :
  sortable [(i, asc)] rows → all_int i rows = true → nulls_apart i rows →
  sort_int i asc rows ≡ₚ rows ∧ ordered (row_order [(i, asc)]) (sort_int i asc rows).
Proof.
  intros Hs Hi Hn. unfold sort_int. set (keyed := imap _ rows). set (c := λ a b : Z * nat, descending (a.1 ?= b.1) asc).
  assert (∀ p, p ∈ keyed → (p.2 < length rows)%nat ∧ p.1 = int_key (row_at rows p.2) i) as Hk.
  { intros p (n & r & -> & Hr)%elem_of_lookup_imap. cbn. unfold row_at. rw Hr. split; [by apply lookup_lt_Some in Hr|done]. }
  assert (preorder_on c keyed) as Hc.
  { apply (descending_preorder (λ a b : Z * nat, a.1 ?= b.1)). split; intros *; [intros _ _; apply Z.compare_antisym|].
    intros _ _ _. rw !Z.compare_le_iff. lia. }
  pose proof (sort_unstable_perm c keyed) as Hp. pose proof (sort_unstable_ordered c keyed Hc) as Ho.
  assert (Forall (λ n, (n < length rows)%nat) (map snd (sort_unstable_by c keyed))) as Hlt.
  { apply Forall_map, Forall_forall. intros p Hin. rw Hp in Hin. by apply Hk. }
  split.
  - rw {2}(pick_perm rows (map snd (sort_unstable_by c keyed)) []); [|by rw app_nil_r].
    rw app_nil_r Hp. apply reflexive_eq, imap_keyed. done.
  - apply (pick_ordered rows _ (λ a b, descending (int_key (row_at rows a) i ?= int_key (row_at rows b) i) asc)); [done| |].
    + intros a b Ha Hb. rw Forall_forall in Hlt. symmetry. apply (int_order i asc rows); [done..|by apply row_at_in, Hlt|by apply row_at_in, Hlt].
    + apply ordered_map. apply (ordered_ext c); [|done]. intros p q Hp1 Hq. unfold c.
      rw Hp in Hp1, Hq. by rw (proj2 (Hk p Hp1)) (proj2 (Hk q Hq)).
Qed.

Lemma sort_cols_spec (cols : list (nat * bool * option bool)) rows :
  sortable (map fst cols) rows →
  ∃ cmp, comparable (sort_rows_cmp cols) rows = Some cmp ∧ sort_unstable_by cmp rows ≡ₚ rows ∧
    ordered (placed_order (map with_nulls cols)) (sort_unstable_by cmp rows).
Proof.
  intros Hs. destruct (comparable_total (sort_rows_cmp cols) (placed_order (map with_nulls cols)) rows) as (cmp & Hc & Hcmp).
  { intros a b Ha Hb. by apply (sort_cmp_placed cols rows). }
  exists cmp. split; [done|]. pose proof (sort_unstable_perm cmp rows) as Hp. split; [done|].
  assert (map fst (map with_nulls cols) = map fst cols) as Hfst by (rw map_map; apply map_ext; by intros [[]]).
  apply (ordered_ext cmp).
  - intros a b Ha Hb. rw Hp in Ha, Hb. by apply Hcmp.
  - apply sort_unstable_ordered. apply (preorder_ext (placed_order (map with_nulls cols))); [|by apply placed_preorder; rw Hfst].
    intros a b Ha Hb. by rw Hcmp.
Qed.

(** Where the NULLs go: where the query says, and without a word of it last when
    ascending and first when descending; a single column in which all values are
    integers or NULL is the other way round. *)
Definition placement (rows : list row) (cols : list (nat * bool * option bool)) : list (nat * bool * bool) :=
  match cols with
  | [(i, asc, None)] => if all_int i rows then [(i, asc, asc)] else [(i, asc, negb asc)]
  | _ => map with_nulls cols
  end.

(** C33: ORDER BY over columns returns the same rows, ordered by the columns one
    after the other in the directions asked for, on the path for integers and on the
    general one. NULLs go where NULLS FIRST or LAST says, by default last when
    ascending and first when descending; but for one column of integers and NULLs
    without such a clause they go first when ascending and last when descending
    ([placement]). The values of a key column are of one type, no NaN, decimals can be
    brought to one scale within 128 bits ([sortable]), and in a single integer
    column no NULL stands beside the least integer, with which it is confused. *)
Theorem apply_sort_sorts columns order_by rows st :
  let cols := sort_columns columns order_by in
  length cols = length order_by → sortable (map fst cols) rows →
  (∀ i asc, cols = [(i, asc, None)] → all_int i rows = true → nulls_apart i rows) →
  ∃ sorted, apply_sort (Rows columns rows) order_by st = Some (QOk (Rows columns sorted), st) ∧
    sorted ≡ₚ rows ∧ ordered (placed_order (placement rows cols)) sorted.
Proof.
  intros cols Hl Hs Hn. unfold apply_sort, sort_rows. fold cols. rw bool_decide_true; [done|].
  destruct (sort_cols_spec cols rows Hs) as (cmp & Hc & Hgen).
  destruct cols as [|[[i asc] [nf|]] [|col cols']]; cbn [map fst placement] in *;
    try (exists (sort_unstable_by cmp rows); split; [|done]; unfold mbind, X_bind, panic_unless, mret, X_ret; cbn -[comparable]; by rw Hc).
  destruct (all_int i rows) eqn:Hi.
  - exists (sort_int i asc rows). split; [done|]. apply (sort_int_spec i asc rows); [done..|by apply (Hn i asc)].
  - exists (sort_unstable_by cmp rows); split; [|done]. unfold mbind, X_bind, panic_unless, mret, X_ret. cbn -[comparable].
    by rw Hc.
Qed.

(** ** Top-n *)

(** [res] is sorted and no row outside it comes before one of it. *)
Definition first_rows (cols : list (nat * bool)) (n : nat) rows (res : list row) : Prop :=
  ∃ rest, rows ≡ₚ res ++ rest ∧ ordered (row_order cols) res ∧ below (row_order cols) res rest ∧ length res = (n `min` length rows)%nat.

Lemma top_cols_cmp cols rows :
  sortable cols rows →
  ∃ cmp, comparable (top_cmp cols) rows = Some cmp ∧ preorder_on cmp rows ∧ ∀ a b, a ∈ rows → b ∈ rows → cmp a b = row_order cols a b.
Proof.
  intros Hs. destruct (comparable_total (top_cmp cols) (row_order cols) rows) as (cmp & Hc & Hcmp).
  { intros a b Ha Hb. by apply (top_cmp_placed cols rows). }
  exists cmp. split_and!; [done| |done].
  apply (preorder_ext (row_order cols)); [|by apply placed_preorder; rw nulls_least_cols]. intros a b Ha Hb. by rw Hcmp.
Qed.

Lemma top_n_spec cols n rows :
  sortable cols rows → (n + 1) * 32 ≤ 2 ^ 63 - 1 → ∃ res, top_n cols n rows = Some res ∧ first_rows cols (Z.to_nat n) rows res.
Proof.
  intros Hs Hn. destruct (top_cols_cmp cols rows Hs) as (cmp & Hc & Hpre & Hcmp). unfold top_n, heap_capacity.
  rw (proj2 (Z.leb_le _ _) Hn) Hc. cbn [mbind option_bind].
  destruct (heap_loop_least cmp (Z.to_nat n) rows Hpre) as (kept & rest & -> & Hp & Hb & Hl). cbn [mbind option_bind].
  eexists. split; [done|]. exists rest.
  pose proof (sort_unstable_perm cmp kept) as Hk.
  assert (∀ x, x ∈ sort_unstable_by cmp kept → x ∈ rows) as Hin by (intros x; rw Hk Hp elem_of_app; by left).
  split_and!.
  - by rw Hk.
  - apply (ordered_ext cmp); [auto|]. apply sort_unstable_ordered. apply (preorder_on_sub cmp rows); [|done].
    intros x Hx. apply Hin. by rw Hk.
  - intros x y Hx Hy. rw -Hcmp; [auto|rw Hp elem_of_app; by right|]. apply Hb; [|done]. by rw -Hk.
  - by rw (Permutation_length Hk).
Qed.

Lemma pair_cmp_preorder l : preorder_on pair_cmp l.
Proof.
  unfold pair_cmp. apply preorder_then; split; intros *.
  - intros _ _. apply Z.compare_antisym.
  - intros _ _ _. rw !Z.compare_le_iff. lia.
  - intros _ _. apply Nat.compare_antisym.
  - intros _ _ _. rw !Nat.compare_le_iff. lia.
Qed.

Lemma heap_key_order asc a b x y :
  heap_key asc a = Some x → heap_key asc b = Some y → (x ?= y) = descending (a ?= b) asc.
Proof.
  unfold heap_key. destruct asc; [by intros [= ->] [= ->]|]. destruct (a =? _), (b =? _); [done..|].
  intros [= <-] [= <-]. cbn. by rw Z.compare_opp Z.compare_antisym.
Qed.

Lemma top_n_int_keys i asc rows :
  (asc = false → Forall (λ r, int_key r i ≠ - 2 ^ 63) rows) →
  ∃ keyed, mapM (λ '(pos, r), k ← heap_key asc (int_key r i); Some (k, pos)) (imap pair rows) = Some keyed ∧
    map snd keyed = seq 0 (length rows) ∧ Forall (λ p, heap_key asc (int_key (row_at rows p.2) i) = Some p.1) keyed.
Proof.
  intros Hr.
  assert (∃ keyed, mapM (λ '(pos, r), k ← heap_key asc (int_key r i); Some (k, pos)) (imap pair rows) = Some keyed) as [keyed Hk].
  { apply mapM_is_Some. apply Forall_forall. intros [pos r] (n & r' & [= -> ->] & Hl)%elem_of_lookup_imap.
    unfold compose, heap_key. cbv beta iota. destruct asc; [by eexists|]. specialize (Hr eq_refl).
    rw Forall_forall in Hr. specialize (Hr r' (list_elem_of_lookup_2 _ _ _ Hl)). destruct (Z.eqb_spec (int_key r' i) (- 2 ^ 63)); [done|]. by eexists. }
  exists keyed. split; [done|]. apply mapM_Some in Hk.
  assert (∀ n p, keyed !! n = Some p → p.2 = n ∧ heap_key asc (int_key (row_at rows n) i) = Some p.1) as Hp.
  { intros n p Hp. destruct (Forall2_lookup_r _ _ _ _ _ Hk Hp) as ([pos r] & Hl & He).
    rw list_lookup_imap in Hl. destruct (rows !! n) as [r'|] eqn:Hn; [|done]. injection Hl as <- <-.
    apply bind_Some in He as (k & Hkey & [= <-]). cbn. unfold row_at. by rw Hn. }
  pose proof (Forall2_length _ _ _ Hk) as Hlen. rw length_imap in Hlen. split.
  - apply list_eq. intros n. rw list_lookup_fmap. destruct (keyed !! n) as [p|] eqn:E.
    + destruct (Hp n p E) as [<- _]. rw lookup_seq_lt; [|done]. apply lookup_lt_Some in E. lia.
    + rw lookup_seq_ge; [|done]. apply lookup_ge_None in E. lia.
  - apply Forall_lookup. intros n p Hn. destruct (Hp n p Hn) as [Hn2 Hh]. by rw Hn2.
Qed.

Lemma top_n_int_spec i asc n rows :
  sortable [(i, asc)] rows → all_int i rows = true → nulls_apart i rows → (asc = false → Forall (λ r, int_key r i ≠ - 2 ^ 63) rows) →
  (n + 1) * 16 ≤ 2 ^ 63 - 1 → ∃ res, top_n_int i asc n rows = Some res ∧ first_rows [(i, asc)] (Z.to_nat n) rows res.
Proof.
  intros Hs Hi Hnull Hmin Hn. destruct (top_n_int_keys i asc rows Hmin) as (keyed & Hk & Hseq & Hkey).
  unfold top_n_int, heap_capacity. rw (proj2 (Z.leb_le _ _) Hn) Hk. cbn [mbind option_bind].
  destruct (heap_loop_least pair_cmp (Z.to_nat n) keyed (pair_cmp_preorder _)) as (kept & rest & -> & Hp & Hb & Hl).
  cbn [mbind option_bind]. eexists. split; [done|]. set (c := λ a b : nat, descending _ _).
  pose proof (sort_unstable_perm c (map snd kept)) as Hks. set (order := sort_unstable_by c (map snd kept)) in *.
  assert (order ++ map snd rest ≡ₚ seq 0 (length rows)) as Hall by (rw Hks -map_app -Hseq; apply Permutation_map; by symmetry).
  assert (Forall (λ p, (p < length rows)%nat) (order ++ map snd rest)) as Hlt.
  { rw Hall. apply Forall_forall. intros p Hp'%elem_of_seq. lia. }
  assert (∀ a b, a ∈ order ++ map snd rest → b ∈ order ++ map snd rest →
    c a b = row_order [(i, asc)] (row_at rows a) (row_at rows b)) as Hc.
  { intros a b Ha Hb'. rw Forall_forall in Hlt. rw (int_order i asc rows); [done|done|done|by apply row_at_in, Hlt..|].
    unfold c, row_at. destruct (lookup_lt_is_Some_2 rows a (Hlt a Ha)) as [ra ->].
    by destruct (lookup_lt_is_Some_2 rows b (Hlt b Hb')) as [rb ->]. }
  exists (pick rows (map snd rest)). split_and!.
  - by apply pick_perm.
  - apply (pick_ordered rows order c); [by apply Forall_app in Hlt as [? _]| |].
    + intros a b Ha Hb'. apply Hc; apply elem_of_app; by left.
    + apply sort_unstable_ordered. apply (descending_preorder (λ a b : nat, _ ?= _)). split; intros *; [intros _ _; apply Z.compare_antisym|].
      intros _ _ _. rw !Z.compare_le_iff. lia.
  - apply Forall_app in Hlt as [Hlo Hlr]. rw (pick_map rows _ Hlo) (pick_map rows _ Hlr).
    intros x y (a & -> & Ha)%list_elem_of_fmap (b & -> & Hb')%list_elem_of_fmap.
    rw Hks in Ha. apply list_elem_of_fmap in Ha as (p & -> & Hpk). apply list_elem_of_fmap in Hb' as (q & -> & Hq).
    rw -Hc; [rw elem_of_app Hks; left; by apply list_elem_of_fmap_2|rw elem_of_app; right; by apply list_elem_of_fmap_2|].
    rw Hp in Hkey. rw Forall_forall in Hkey. pose proof (Hkey p ltac:(rw elem_of_app; by left)) as Kp.
    pose proof (Hkey q ltac:(rw elem_of_app; by right)) as Kq. specialize (Hb p q Hpk Hq). unfold pair_cmp in Hb.
    rw (heap_key_order asc _ _ _ _ Kp Kq) in Hb. unfold c, row_at in *.
    destruct (rows !! p.2), (rows !! q.2); cbn in *; by destruct (descending _ _).
  - rw (pick_map rows order); [by apply Forall_app in Hlt as [? _]|]. rw length_map (Permutation_length Hks) length_map Hl.
    apply (f_equal length) in Hseq. rw length_map length_seq in Hseq. by rw Hseq.
Qed.

Lemma sort_all_spec cols n rows :
  sortable cols rows → zlen rows ≤ n →
  ∃ cmp, comparable (top_cmp cols) rows = Some cmp ∧ first_rows cols (Z.to_nat n) rows (sort_unstable_by cmp rows).
Proof.
  intros Hs Hn. destruct (top_cols_cmp cols rows Hs) as (cmp & Hc & Hpre & Hcmp). exists cmp. split; [done|]. exists [].
  pose proof (sort_unstable_perm cmp rows) as Hp. split_and!.
  - by rw app_nil_r Hp.
  - apply (ordered_ext cmp); [|by apply sort_unstable_ordered]. intros a b Ha Hb. rw Hp in Ha, Hb. auto.
  - intros x y _ Hy. by apply not_elem_of_nil in Hy.
  - rw (Permutation_length Hp). unfold zlen in Hn. lia.
Qed.

(** The heap of integers: no NULL stands beside the least integer, and when
    descending, where the keys are negated, neither occurs. *)
Definition int_heap_ok (cols : list (nat * bool)) (n : Z) rows : Prop :=
  ∀ i asc, cols = [(i, asc)] → all_int i rows = true → n < zlen rows →
    nulls_apart i rows ∧ (asc = false → Forall (λ r, int_key r i ≠ - 2 ^ 63) rows).

(** C34: ORDER BY with LIMIT keeps a heap of the least rows instead of sorting
    all: it returns the first rows of the sorted order, as many as there are up to
    the limit, and no row it leaves out comes before one it returns. NULLs come
    before all values when ascending and after them when descending, whatever
    NULLS FIRST or LAST says ([row_order]). The values of a key column are of one
    type, no NaN, decimals can be brought to one scale ([sortable]); the limit is
    below about [2^58], so that the heap can be allocated; and where the heap is one
    of integers, of a single column and with more rows than the limit, no NULL stands
    beside the least integer, and neither occurs when descending, where the negation
    overflows ([int_heap_ok]). *)
Theorem top_n_correct columns order_by n rows st :
  let cols := map fst (sort_columns columns order_by) in
  cols ≠ [] → sortable cols rows → int_heap_ok cols n rows → (n + 1) * 32 ≤ 2 ^ 63 - 1 →
  ∃ res, apply_top_n (Rows columns rows) order_by n st = Some (QOk (Rows columns res), st) ∧ first_rows cols (Z.to_nat n) rows res.
Proof.
  intros cols Hne Hs Hmin Hn.
  assert (∃ res, top_n_rows columns order_by n rows = Some res ∧ first_rows cols (Z.to_nat n) rows res) as (res & Hr & Hf).
  { unfold top_n_rows. fold cols. destruct (Z.leb_spec (zlen rows) n) as [Hle|Hgt].
    - destruct (sort_all_spec cols n rows Hs Hle) as (cmp & Hc & Hf). exists (sort_unstable_by cmp rows).
      split; [|done]. destruct cols; [done|]. by rw Hc.
    - destruct cols as [|[i asc] [|col cols']] eqn:Ecols; [done| |by apply top_n_spec].
      destruct (all_int i rows) eqn:Hi; [|by apply top_n_spec].
      destruct (Hmin i asc eq_refl Hi Hgt) as [Hnull Hneg]. apply top_n_int_spec; [done..|lia]. }
  exists res. split; [|done]. unfold apply_top_n, mbind, X_bind, panic_unless. by rw Hr.
Qed.
End sorting.

(** ** Concrete results *)

#[local] Existing Instance Lexer.ascii_only.
#[local] Existing Instance Lexer.no_floats.
#[local] Existing Instance Scan.sample_engine.
#[local] Existing Instance plain.
#[local] Existing Instance plain_laws.
#[local] Instance unit_show : OrderKey.JsonShow unit := λ _, [].

Definition sample_columns : list str := [chars "a"; chars "b"].
Definition sample_rows : list (list (Value unit)) :=
  [[Int64 3; Decimal 15 1]; [Null; Decimal 2 0]; [Int64 1; Null]; [Int64 2; Decimal 150 2]].
Definition by_column (name : string) (asc : bool) : OrderByExpr := mkOrderBy (Column (chars name)) asc None.

(** Every row of the sample. *)
Ltac each_sample H := unfold sample_rows in H; repeat (apply elem_of_cons in H as [->|H]); [..|by apply not_elem_of_nil in H].

Lemma sample_sortable cols :
  Forall (λ c : nat * bool, (c.1 < 2)%nat) cols → sortable cols sample_rows.
Proof.
  intros Hc a b i asc Ha Hb Hin. rw Forall_forall in Hc. specialize (Hc _ Hin). cbn in Hc.
  assert (i = 0%nat ∨ i = 1%nat) as Hi by lia. clear Hin Hc.
  each_sample Ha; each_sample Hb; destruct Hi as [->| ->]; apply (bool_decide_unpack _); vm_compute; reflexivity.
Qed.

Lemma sample_nulls_apart : nulls_apart 0 sample_rows.
Proof. intros a b Ha Hb _. each_sample Hb; by vm_compute. Qed.

Lemma apply_sort_sorts_witness :
  ∃ sorted, apply_sort (Rows sample_columns sample_rows) [by_column "b" true; by_column "a" false] false =
      Some (QOk (Rows sample_columns sorted), false) ∧
    sorted = [[Int64 3; Decimal 15 1]; [Int64 2; Decimal 150 2]; [Null; Decimal 2 0]; [Int64 1; Null]].
Proof.
  destruct (apply_sort_sorts sample_columns [by_column "b" true; by_column "a" false] sample_rows false)
    as (sorted & Hs & _ & _).
  - vm_compute. reflexivity.
  - apply sample_sortable. vm_compute. repeat constructor.
  - intros i asc E. by vm_compute in E.
  - exists sorted. split; [exact Hs|]. vm_compute in Hs. by injection Hs as <-.
Defined.

Lemma top_n_correct_witness :
  ∃ res, apply_top_n (Rows sample_columns sample_rows) [by_column "a" true] 2 false =
      Some (QOk (Rows sample_columns res), false) ∧ res = [[Null; Decimal 2 0]; [Int64 1; Null]].
Proof.
  destruct (top_n_correct sample_columns [by_column "a" true] 2 sample_rows false) as (res & Hr & _).
  - vm_compute. congruence.
  - apply sample_sortable. vm_compute. repeat constructor.
  - intros i asc E _ _. vm_compute in E. injection E as <- <-. split; [exact sample_nulls_apart|done].
  - vm_compute. congruence.
  - exists res. split; [exact Hr|]. vm_compute in Hr. by injection Hr as <-.
Defined.
End ExecSpec.
