(* ===== verification/SetOpsSpec.v ===== *)
(** DISTINCT against the first occurrences of rows, and the set operations against
    the multisets of rows they stand for. *)
From S2P Require Import Prelude ByteOrder Value OrderKey SecondaryIndex Schema Tuple Sql Lexer Like Strings Float64 Eval Scan Collections Plan Exec.
Import Value Sql Like Strings Eval Plan Exec.

Module SetOpsSpec.

(** ** Codes of rows *)

(** A code of single values that can be taken off the front of a row's code. *)
Definition prefix_code {A} (P : A → Prop) (code : A → list Z) : Prop :=
  ∀ a b x y, P a → P b → code a ++ x = code b ++ y → a = b ∧ x = y.

Lemma bind_code_inj {A} (P : A → Prop) code (r s : list A) :
  prefix_code P code → (∀ a, code a ≠ []) → Forall P r → Forall P s → r ≫= code = s ≫= code → r = s.
Proof.
  intros Hc Hne Hr. revert s. induction Hr as [|a r Ha Hr IH]; intros [|b s] Hs He; cbn in He; [done| | |].
  - destruct (code b) eqn:Eb; [by apply Hne in Eb|done].
  - destruct (code a) eqn:Ea; [by apply Hne in Ea|done].
  - apply Forall_cons in Hs as [Hb Hs]. destruct (Hc a b _ _ Ha Hb He) as [-> He']. by rw (IH s Hs He').
Qed.

(** A text ends at its first zero. *)
Lemma zero_terminated (s t x y : list Z) : 0 ∉ s → 0 ∉ t → s ++ 0 :: x = t ++ 0 :: y → s = t ∧ x = y.
Proof.
  revert t. induction s as [|a s IH]; intros [|b t] Hs Ht He; cbn in He.
  { by injection He as ->. }
  all: injection He as E1 E2.
  - apply not_elem_of_cons in Ht as [Ht _]. congruence.
  - apply not_elem_of_cons in Hs as [Hs _]. congruence.
  - apply not_elem_of_cons in Hs as [_ Hs]. apply not_elem_of_cons in Ht as [_ Ht]. subst.
    by destruct (IH t Hs Ht E2) as [-> ->].
Qed.

#[local] Existing Instance SecondaryIndex.Value_eq_dec.

Section rows.
Context {J : Type} `{!EqDecision J} `{Unicode} `{FloatText} `{!Engine J}.
Local Abbreviation V := (Value J).
Local Abbreviation row := (list V).

(** NULLs, booleans, numbers and texts without a zero. *)
Definition plain_value (v : V) : Prop :=
  match v with
  | Null | Bool _ => True
  | Int64 n => i64_ok n
  | Float64 f => 0 ≤ f < 2 ^ 64
  | Text s => 0 ∉ s
  | _ => False
  end.
Definition plain_rows (rows : list row) : Prop := Forall (Forall plain_value) rows.

Lemma fixed_bytes (f : nat → Z → list Z) a b x y :
  (∀ n z, length (f n z) = n) → (∀ z w, 0 ≤ z < 256 ^ 8 → 0 ≤ w < 256 ^ 8 → f 8%nat z = f 8%nat w → z = w) →
  0 ≤ a < 256 ^ 8 → 0 ≤ b < 256 ^ 8 → f 8%nat a ++ x = f 8%nat b ++ y → a = b ∧ x = y.
Proof.
  intros Hl Hi Ha Hb He. apply app_inj_1 in He as [He ->]; [|by rw !Hl]. split; [by apply Hi|done].
Qed.

Lemma wrap_inj a b : i64_ok a → i64_ok b → wrap 64 a = wrap 64 b → a = b.
Proof.
  unfold i64_ok, wrap. intros Ha Hb He.
  pose proof (Z.div_mod a (2 ^ 64) ltac:(lia)). pose proof (Z.div_mod b (2 ^ 64) ltac:(lia)).
  pose proof (Z.mod_pos_bound a (2 ^ 64) ltac:(lia)). pose proof (Z.mod_pos_bound b (2 ^ 64) ltac:(lia)). lia.
Qed.

Lemma le_inj z w : 0 ≤ z < 256 ^ 8 → 0 ≤ w < 256 ^ 8 → le_bytes 8 z = le_bytes 8 w → z = w.
Proof. apply (le_bytes_inj 8). Qed.
Lemma be_inj z w : 0 ≤ z < 256 ^ 8 → 0 ≤ w < 256 ^ 8 → be_bytes 8 z = be_bytes 8 w → z = w.
Proof. intros Hz Hw He. unfold be_bytes in He. apply (inj reverse) in He. by apply le_inj. Qed.

Lemma cons_tail {A} (a b : A) l m : a :: l = b :: m → l = m.
Proof. by intros [= _ ->]. Qed.

(** A tag, and a body of a fixed width or ended by a zero. *)
Ltac code_cases Hlen Hinj :=
  intros a b x y Ha Hb He; destruct a, b; cbn in Ha, Hb; try done; cbn [distinct_value serialize_value app] in He; try discriminate He; apply cons_tail in He;
    [by subst
    | repeat match goal with b : bool |- _ => destruct b end; try discriminate He; by apply cons_tail in He as ->
    | apply (fixed_bytes _ _ _ _ _ Hlen Hinj) in He as [He ->]; [|apply wrap_range; lia..]; apply wrap_inj in He; [by subst|done..]
    | apply (fixed_bytes _ _ _ _ _ Hlen Hinj) in He as [-> ->]; done
    | rw -!app_assoc in He; apply zero_terminated in He as [-> ->]; done ].

Lemma distinct_code : prefix_code plain_value distinct_value.
Proof. code_cases length_le_bytes le_inj. Qed.

Lemma serialize_code : prefix_code plain_value serialize_value.
Proof. code_cases length_be_bytes be_inj. Qed.

Lemma distinct_key_inj r s : Forall plain_value r → Forall plain_value s → distinct_key r = distinct_key s → r = s.
Proof. apply bind_code_inj; [apply distinct_code|by intros []]. Qed.

Lemma serialize_row_inj r s : Forall plain_value r → Forall plain_value s → serialize_row r = serialize_row s → r = s.
Proof. apply bind_code_inj; [apply serialize_code|by intros []]. Qed.

(** ** DISTINCT *)

(** Of the rows that are the same as one another, the first; the others of them go. *)
Fixpoint keep_first (same : row → row → bool) (rows : list row) : list row :=
  match rows with [] => [] | r :: rows' => r :: filter (λ s, negb (same r s) = true) (keep_first same rows') end.

Definition same_code (key : row → list Z) (r s : row) : bool := bool_decide (key r = key s).
Definition same_row (r s : row) : bool := bool_decide (r = s).

Lemma distinct_rows_first (key : row → list Z) seen rows :
  distinct_rows key seen rows = filter (λ r, key r ∉ seen) (keep_first (same_code key) rows).
Proof.
  revert seen. induction rows as [|r rows IH]; intros seen; cbn [distinct_rows keep_first]; [done|]. rw filter_cons.
  case_bool_decide as Hr.
  - rw decide_False; [by intros []|]. rw IH list_filter_filter. apply list_filter_iff. intros s. unfold same_code.
    rw negb_true_iff bool_decide_eq_false. split; [|naive_solver]. intros Hs. split; [done|]. by intros Heq; rw Heq in Hr.
  - rw decide_True; [done|]. f_equal. rw IH list_filter_filter. apply list_filter_iff. intros s. unfold same_code.
    rw negb_true_iff bool_decide_eq_false not_elem_of_union not_elem_of_singleton. naive_solver.
Qed.

Lemma keep_first_snoc (key : row → list Z) rows x :
  keep_first (same_code key) (rows ++ [x]) =
    keep_first (same_code key) rows ++ (if decide (key x ∈ map key rows) then [] else [x]).
Proof.
  induction rows as [|r rows IH]; cbn [app keep_first map]; [by destruct (decide _) as [[]%not_elem_of_nil|]|].
  rw IH filter_app. cbn [app]. do 2 f_equal. unfold same_code.
  destruct (decide (key x ∈ map key rows)) as [Hin|Hin]; [by rw decide_True; [by right|]|]. rw filter_cons filter_nil.
  destruct (decide (key x ∈ key r :: map key rows)) as [[He|?]%elem_of_cons|Hn]; [|done|].
  - by rw bool_decide_true.
  - rw bool_decide_false; [|done]. intros He. apply Hn. rw He. by left.
Qed.

Lemma keep_first_in same rows r : r ∈ keep_first same rows → r ∈ rows.
Proof.
  induction rows as [|x rows IH]; [done|]. cbn. intros [->|Hr]%elem_of_cons; [by left|]. right. apply IH.
  by apply list_elem_of_filter in Hr as [_ Hr].
Qed.

Lemma keep_first_ext same1 same2 rows :
  (∀ r s, r ∈ rows → s ∈ rows → same1 r s = same2 r s) → keep_first same1 rows = keep_first same2 rows.
Proof.
  induction rows as [|x rows IH]; intros Hs; [done|]. cbn. rw IH; [intros; apply Hs; by right|]. f_equal.
  apply (Collections.filter_ext_in (λ s, negb (same1 x s)) (λ s, negb (same2 x s))). intros s Hin%keep_first_in. f_equal. apply Hs; [by left|by right].
Qed.

Lemma distinct_rows_plain rows : plain_rows rows → keep_first (same_code distinct_key) rows = keep_first same_row rows.
Proof.
  intros Hp. unfold plain_rows in Hp. rw Forall_forall in Hp. apply keep_first_ext. intros r s Hr Hs. apply bool_decide_ext.
  split; [|by intros ->]. intros He. by apply distinct_key_inj; [apply Hp..|].
Qed.

(** C35: DISTINCT returns the rows in order without those that are the same as an
    earlier one. Two rows are the same when their codes are; for rows of NULLs,
    booleans, integers, floats and texts without a zero byte that is equality (of the
    bits, for floats). The code of a value of another type is its [Debug] text, which
    is not modelled. *)
Theorem distinct_correct columns rows st :
  ∃ out, apply_distinct (Rows columns rows) st = Some (QOk (Rows columns out), st) ∧
    out = keep_first (same_code distinct_key) rows ∧
    (plain_rows rows → out = keep_first same_row rows).
Proof.
  exists (keep_first (same_code distinct_key) rows). split_and!; [|done|by apply distinct_rows_plain].
  cbn [apply_distinct]. rw distinct_rows_first filter_every; [|done]. apply Forall_forall. intros r _. set_solver.
Qed.

(** ** Set operations *)

(** How often a row occurs, by its code. *)
Definition copies (k : list Z) (rows : list row) : Z := zlen (filter (λ r, serialize_row r = k) rows).

Lemma copies_cons k r rows : copies k (r :: rows) = (if bool_decide (serialize_row r = k) then 1 else 0) + copies k rows.
Proof. unfold copies. rw filter_cons. case_decide; [rw bool_decide_true // zlen_cons; lia|by rw bool_decide_false]. Qed.

Lemma copies_app k rows rows' : copies k (rows ++ rows') = copies k rows + copies k rows'.
Proof. unfold copies. by rw filter_app zlen_app. Qed.

Lemma copies_nonneg k rows : 0 ≤ copies k rows.
Proof. apply zlen_nonneg. Qed.

Lemma count_rows_spec rows k : default 0 (count_rows rows !! k) = copies k rows ∧ (count_rows rows !! k = None ↔ copies k rows = 0).
Proof.
  unfold count_rows. induction rows as [|r rows IH] using rev_ind; [done|]. rw foldl_app copies_app copies_cons. cbn [foldl].
  change (copies k []) with 0. pose proof (copies_nonneg k rows). destruct (decide (serialize_row r = k)) as [<-|Hne].
  - rw lookup_insert_eq bool_decide_true; [done|]. destruct IH as [-> _]. cbn. split; [lia|]. split; [done|lia].
  - rw lookup_insert_ne; [congruence|]. rw bool_decide_false; [done|]. by rw !Z.add_0_r.
Qed.

(** What is left of the right operand under a key. *)
Definition left_over (m : gmap (list Z) Z) (k : list Z) : Z := default 0 (m !! k).

Lemma spend_nonneg m k n : (∀ k, 0 ≤ left_over m k) → 0 < n → ∀ k', 0 ≤ left_over (<[k := n - 1]> m) k'.
Proof.
  intros Hm Hn k'. unfold left_over. destruct (decide (k' = k)) as [->|]; [rw lookup_insert_eq; cbn; lia|].
  rw lookup_insert_ne; [congruence|]. apply Hm.
Qed.

(** One row against what is left of the right operand. *)
Ltac spend IH Hm m r k :=
  pose proof (Hm k) as Hk; pose proof (copies_nonneg k) as Hc; pose proof (Hm (serialize_row r)) as Hr; unfold left_over in Hr;
  destruct (m !! serialize_row r) as [n|] eqn:E; [destruct (Z.ltb_spec 0 n)|]; rw ?copies_cons; (rw IH; [by first [apply spend_nonneg|apply Hm]|]);
  unfold left_over in *; case_bool_decide; subst; rw ?lookup_insert_eq ?E; try (rw lookup_insert_ne; [congruence|]); rw ?E in Hk |- *; cbn in *.

Lemma intersect_all_spec m rows k :
  (∀ k, 0 ≤ left_over m k) → copies k (intersect_loop true m rows) = Z.min (left_over m k) (copies k rows).
Proof.
  revert m. induction rows as [|r rows IH]; intros m Hm; cbn [intersect_loop].
  { change (copies k []) with 0. specialize (Hm k). lia. }
  spend IH Hm m r k; specialize (Hc rows); lia.
Qed.

Lemma except_all_spec m rows k :
  (∀ k, 0 ≤ left_over m k) → copies k (except_loop true m rows) = Z.max 0 (copies k rows - left_over m k).
Proof.
  revert m. induction rows as [|r rows IH]; intros m Hm; cbn [except_loop].
  { change (copies k []) with 0. specialize (Hm k). lia. }
  spend IH Hm m r k; specialize (Hc rows); lia.
Qed.

Lemma intersect_spec m rows k :
  (∀ k n, m !! k = Some n → 0 < n) →
  copies k (intersect_loop false m rows) = if bool_decide (is_Some (m !! k)) then Z.min 1 (copies k rows) else 0.
Proof.
  revert m. induction rows as [|r rows IH]; intros m Hm; cbn [intersect_loop].
  { change (copies k []) with 0. by case_bool_decide. }
  pose proof (copies_nonneg k rows). destruct (m !! serialize_row r) as [n|] eqn:E; rw !copies_cons.
  - rw (proj2 (Z.ltb_lt 0 n)); [by apply (Hm (serialize_row r))|]. rw copies_cons IH.
    { intros k' n'. destruct (decide (k' = serialize_row r)) as [->|]; [by rw lookup_delete_eq|]. rw lookup_delete_ne; [congruence|]. apply Hm. }
    case_bool_decide as Hb; [subst; rw lookup_delete_eq|rw lookup_delete_ne; [congruence|done]]. rw bool_decide_false; [by intros [? ?]|].
    rw bool_decide_true; [rw E; eauto|]. lia.
  - rw IH; [done|]. case_bool_decide as Hs; [|done]. case_bool_decide as Hb; [|lia]. subst. rw E in Hs. by destruct Hs.
Qed.

Lemma except_spec m rows k :
  (∀ k n, m !! k = Some n → 0 < n) →
  copies k (except_loop false m rows) = Z.max 0 (copies k rows - if bool_decide (is_Some (m !! k)) then 1 else 0).
Proof.
  revert m. induction rows as [|r rows IH]; intros m Hm; cbn [except_loop].
  { change (copies k []) with 0. by case_bool_decide. }
  pose proof (copies_nonneg k rows). destruct (m !! serialize_row r) as [n|] eqn:E; rw !copies_cons.
  - rw (proj2 (Z.ltb_lt 0 n)); [by apply (Hm (serialize_row r))|]. rw IH.
    { intros k' n'. destruct (decide (k' = serialize_row r)) as [->|]; [by rw lookup_delete_eq|]. rw lookup_delete_ne; [congruence|]. apply Hm. }
    destruct (decide (serialize_row r = k)) as [<-|Hb].
    + rw lookup_delete_eq E (bool_decide_true (serialize_row r = serialize_row r)); [done|].
      rw (bool_decide_false (is_Some None)); [by intros [? ?]|]. rw (bool_decide_true (is_Some (Some n))); [eauto|lia].
    + rw lookup_delete_ne; [congruence|]. by rw (bool_decide_false (serialize_row r = k)).
  - rw IH; [done|]. destruct (decide (serialize_row r = k)) as [<-|Hb]; [|by rw (bool_decide_false (serialize_row r = k))].
    rw E (bool_decide_true (serialize_row r = serialize_row r)); [done|]. rw (bool_decide_false (is_Some None)); [by intros [? ?]|]. lia.
Qed.

Lemma count_rows_pos (rows : list row) k n : count_rows rows !! k = Some n → 0 < n.
Proof.
  intros Hk. destruct (count_rows_spec rows k) as [Hd Hz]. rw Hk in Hd, Hz. cbn in Hd. subst.
  pose proof (copies_nonneg k rows). destruct (Z.eq_dec (copies k rows) 0) as [E|]; [by apply Hz in E|lia].
Qed.

Lemma count_rows_some (rows : list row) k : (if bool_decide (is_Some (count_rows rows !! k)) then 1 else 0) = Z.min 1 (copies k rows).
Proof.
  pose proof (copies_nonneg k rows). destruct (count_rows_spec rows k) as [_ Hz]. case_bool_decide as Hs.
  - destruct (Z.eq_dec (copies k rows) 0) as [E|]; [apply Hz in E; rw E in Hs; by destruct Hs|lia].
  - assert (copies k rows = 0); [|lia]. apply Hz. by apply eq_None_not_Some.
Qed.

(** How often a row occurs. *)
Definition occurrences (r : row) (rows : list row) : Z := zlen (filter (λ s, s = r) rows).

Lemma copies_plain r rows : Forall plain_value r → plain_rows rows → copies (serialize_row r) rows = occurrences r rows.
Proof.
  intros Hr Hp. unfold copies, occurrences. f_equal. unfold plain_rows in Hp. induction Hp as [|s rows Hs _ IH]; [done|].
  rw !filter_cons IH. destruct (decide (s = r)) as [->|Hne]; [by rw decide_True|].
  rw decide_False; [|done]. intros He. by apply Hne, serialize_row_inj.
Qed.

(** C36: How often a row occurs in the result of a set operation: UNION ALL adds up,
    INTERSECT ALL takes the smaller number, EXCEPT ALL subtracts, and INTERSECT returns
    a row once when both operands have it. EXCEPT without ALL takes away one occurrence
    of a row that the right operand has, not all of them, and does not merge the
    others. UNION without ALL returns the first of every row. Rows are counted by their
    codes ([copies]); the count is that of equal rows for NULLs, booleans, integers,
    floats and texts without a zero byte ([occurrences]), while all values of the other
    types have the same code. *)
Theorem set_operations_count columns columns' left_rows right_rows st :
  let l := Rows columns left_rows in
  let r := Rows columns' right_rows in
  (∃ out, exec_union l r true st = Some (QOk (Rows columns out), st) ∧
    ∀ k, copies k out = copies k left_rows + copies k right_rows) ∧
  (∃ out, exec_intersect l r true st = Some (QOk (Rows columns out), st) ∧
    ∀ k, copies k out = Z.min (copies k left_rows) (copies k right_rows)) ∧
  (∃ out, exec_except l r true st = Some (QOk (Rows columns out), st) ∧
    ∀ k, copies k out = Z.max 0 (copies k left_rows - copies k right_rows)) ∧
  (∃ out, exec_intersect l r false st = Some (QOk (Rows columns out), st) ∧
    ∀ k, copies k out = Z.min 1 (Z.min (copies k left_rows) (copies k right_rows))) ∧
  (∃ out, exec_except l r false st = Some (QOk (Rows columns out), st) ∧
    ∀ k, copies k out = Z.max 0 (copies k left_rows - Z.min 1 (copies k right_rows))) ∧
  exec_union l r false st = Some (QOk (Rows columns (keep_first (same_code distinct_key) (left_rows ++ right_rows))), st) ∧
  (∀ (a : row) rows, Forall plain_value a → plain_rows rows → copies (serialize_row a) rows = occurrences a rows).
Proof.
  assert (∀ k, left_over (count_rows right_rows) k = copies k right_rows) as Hl by (intros k; apply count_rows_spec).
  assert (∀ k, 0 ≤ left_over (count_rows right_rows) k) as Hn by (intros k; rw Hl; apply copies_nonneg).
  cbv zeta. split_and!; [eexists; split; [done|]; intros k..| |intros; by apply copies_plain].
  - apply copies_app.
  - rw intersect_all_spec; [done|]. rw Hl. lia.
  - rw except_all_spec; [done|]. by rw Hl.
  - pose proof (copies_nonneg k left_rows). pose proof (count_rows_some right_rows k) as Hc.
    rw intersect_spec; [apply count_rows_pos|]. case_bool_decide; lia.
  - rw except_spec; [apply count_rows_pos|]. by rw count_rows_some.
  - cbn [exec_union apply_distinct]. rw distinct_rows_first filter_every; [|done]. apply Forall_forall. intros r _. set_solver.
Qed.
End rows.

(** ** Concrete results *)

#[local] Existing Instance Lexer.ascii_only.
#[local] Existing Instance Lexer.no_floats.
#[local] Existing Instance Scan.sample_engine.

Definition ones : ExecutionResult unit := Rows [chars "a"] [[Int64 1]; [Int64 1]].
Definition one : ExecutionResult unit := Rows [chars "a"] [[Int64 1]].
Definition dates (days : list Z) : ExecutionResult unit := Rows [chars "d"] (map (λ d, [Date d]) days).

Lemma distinct_correct_witness :
  ∃ out, apply_distinct (Rows [chars "a"; chars "b"] [[Int64 1; Text [97]]; [Null; Null]; [Int64 1; Text [97]]]) false =
    Some (QOk (Rows [chars "a"; chars "b"] out), false) ∧ out = [[Int64 (J := unit) 1; Text [97]]; [Null; Null]].
Proof.
  destruct (distinct_correct (J := unit) [chars "a"; chars "b"] [[Int64 1; Text [97]]; [Null; Null]; [Int64 1; Text [97]]] false)
    as (out & Ho & _ & Hp).
  exists out. split; [exact Ho|]. rw Hp; [|vm_compute; reflexivity].
  assert (0 ∉ [97]) as H97 by (intros [?|?%not_elem_of_nil]%elem_of_cons; done). repeat constructor; done.
Defined.

(** EXCEPT takes one occurrence away instead of all: a row that occurs twice
    on the left and once on the right is still returned; dates, timestamps, UUIDs,
    decimals and intervals are all the same to EXCEPT and INTERSECT. *)
Theorem except_keeps_duplicates :
  exec_except ones one false false = Some (QOk one, false) ∧
  exec_intersect (dates [1]) (dates [2]) false false = Some (QOk (dates [1]), false).
Proof. split; vm_compute; reflexivity. Qed.
End SetOpsSpec.
