(* ===== verification/Aggregate.v ===== *)
(** Grouping and aggregates ([exec_hash_aggregate], [compute_aggregate_fast] and
    [try_fast_aggregate] of [bytedb-query/src/executor/engine.rs]). *)
From S2P Require Import Prelude ByteOrder Value OrderKey Schema Tuple Sql Like Strings Float64 Eval Collections Plan Exec Window.
Import Value OrderKey Sql Like Strings Float64 Eval Plan Exec Window.

Module Aggregate.

Inductive AggKind := AggCount | AggCountDistinct | AggSum | AggAvg | AggMin | AggMax | AggOther.
#[export] Instance AggKind_eq_dec : EqDecision AggKind.
Proof. solve_decision. Defined.

Definition from_name (name : str) : AggKind :=
  if eq_ignore_ascii_case name (chars "count") then AggCount
  else if eq_ignore_ascii_case name (chars "count_distinct") then AggCountDistinct
  else if eq_ignore_ascii_case name (chars "sum") then AggSum
  else if eq_ignore_ascii_case name (chars "avg") then AggAvg
  else if eq_ignore_ascii_case name (chars "min") then AggMin
  else if eq_ignore_ascii_case name (chars "max") then AggMax
  else AggOther.

Section aggregate.
Context {J : Type} `{Unicode} `{FloatText} `{!Engine J} `{!JsonShow J, !JsonRead J} `{!Codecs} `{!Collections.Unordered}.
Local Abbreviation V := (Value J).
Local Abbreviation row := (list V).

(** ** The aggregates of a query *)

(** The functions found so far, and their names. *)
Fixpoint collect_agg_functions (e : Expr) (acc : list Expr * gset str) : list Expr * gset str :=
  match e with
  | Function name args =>
      if bool_decide (from_name name ≠ AggOther) then
        let key := agg_func_col_name name args in
        if bool_decide (key ∈ acc.2) then acc else (acc.1 ++ [e], {[key]} ∪ acc.2)
      else foldl (λ acc a, collect_agg_functions a acc) acc args
  | BinaryOp l _ r => collect_agg_functions r (collect_agg_functions l acc)
  | Unary _ e | IsNull e | IsNotNull e | Cast e _ => collect_agg_functions e acc
  | InList e items => foldl (λ acc a, collect_agg_functions a acc) (collect_agg_functions e acc) items
  | Between e low high => collect_agg_functions high (collect_agg_functions low (collect_agg_functions e acc))
  | Case operand whens els =>
      let acc := match operand with Some o => collect_agg_functions o acc | None => acc end in
      let acc := foldl (λ acc wt, collect_agg_functions wt.2 (collect_agg_functions wt.1 acc)) acc whens in
      match els with Some er => collect_agg_functions er acc | None => acc end
  | _ => acc
  end.

Definition agg_functions_of (aggregates : list Expr) (having : option Expr) : list Expr :=
  (foldl (λ acc e, collect_agg_functions e acc) ([], ∅) (aggregates ++ option_list having)).1.

Definition agg_column (col_names : list str) (e : Expr) : option nat :=
  match e with Function _ (Column name :: _) => position_of name col_names | _ => None end.
Definition agg_kind (e : Expr) : AggKind := match e with Function name _ => from_name name | _ => AggOther end.

(** ** One aggregate over a group *)

(** [int128_to_value]. *)
Definition int128_to_value (s : Z) : V := if bool_decide (i64_ok s) then Int64 s else Float64 (i64_as_f64 s).

(** The column in the rows of the group, missing cells left out. *)
Definition group_cells (idx : nat) (rows : list row) : list V := omap (λ r, r !! idx) rows.

Definition sum_loop (cells : list V) : Z * option Z * bool :=
  foldl (λ '(sum, fsum, seen) v,
    match v with
    | Int64 n => (sum + n, fsum, true)
    | Float64 f => (sum, Some (f64_add (default 0 fsum) f), true)
    | _ => (sum, fsum, seen)
    end) (0, None, false) cells.

Definition avg_loop (cells : list V) : Z * Z :=
  foldl (λ '(sum, count) v,
    match v with
    | Int64 n => (f64_add sum (i64_as_f64 n), count + 1)
    | Float64 f => (f64_add sum f, count + 1)
    | _ => (sum, count)
    end) (0, 0) cells.

(** The least ([Lt]) or greatest ([Gt]) of the values that are not NULL. *)
Fixpoint extreme (c : comparison) (best : option V) (cells : list V) : option (option V) :=
  match cells with
  | [] => Some best
  | v :: cells' =>
      if is_null v then extreme c best cells'
      else
        match best with
        | None => extreme c (Some v) cells'
        | Some current =>
            o ← cmp_fast v current;
            extreme c (Some (if bool_decide (o = c) then v else current)) cells'
        end
  end.

Definition hash_key (v : V) : list Z := encode_okey [v].

(** [None] is a panic in a comparison. *)
Definition compute_aggregate_fast (kind : AggKind) (col_idx : option nat) (rows : list row) : option V :=
  match kind, col_idx with
  | AggCount, Some idx => Some (Int64 (zlen (filter (λ v, is_null v = false) (group_cells idx rows))))
  | AggCount, None | AggCountDistinct, None => Some (Int64 (zlen rows))
  | AggCountDistinct, Some idx =>
      let keys := map hash_key (filter (λ v, is_null v = false) (group_cells idx rows)) in
      Some (Int64 (Z.of_nat (size (list_to_set keys : gset (list Z)))))
  | AggSum, Some idx =>
      let '(sum, fsum, seen) := sum_loop (group_cells idx rows) in
      Some (if negb seen then Null
            else match fsum with
                 | Some f => Float64 (f64_add f (i64_as_f64 sum))
                 | None => int128_to_value sum
                 end)
  | AggAvg, Some idx =>
      let '(sum, count) := avg_loop (group_cells idx rows) in
      Some (if 0 <? count then Float64 (f64_div sum (i64_as_f64 count)) else Null)
  | AggMin, Some idx => default Null <$> extreme Lt None (group_cells idx rows)
  | AggMax, Some idx => default Null <$> extreme Gt None (group_cells idx rows)
  | _, _ => Some Null
  end.

(** ** Groups *)

Definition group_indices_of (col_names : list str) (group_by : list Expr) : list nat :=
  omap (λ e, match e with Column name => position_of name col_names | _ => None end) group_by.

Definition group_key (group_indices : list nat) (r : row) : list Z := group_indices ≫= λ i, encode_okey [cell r i].

Definition group_names (group_by : list Expr) : list str :=
  omap (λ e, match e with Column name => Some name | _ => None end) group_by.

(** The row of a group: its columns from the first of its rows, its aggregates. *)
Definition build_group (group_indices : list nat) (aggs : list (AggKind * option nat)) (rows : list row) : option row :=
  values ← (match group_indices with
            | [] => Some []
            | _ => first ← head rows; Some (map (cell first) group_indices)
            end);
  results ← mapM (λ '(kind, col), compute_aggregate_fast kind col rows) aggs;
  Some (values ++ results).

Definition groups_of (group_by : list Expr) (group_indices : list nat) (rows : list row) : list (list row) :=
  let groups := map (λ '(_, members), pick rows members) (group_by_key (map (group_key group_indices) rows)) in
  match group_by, groups with
  | [], [] => [[]]
  | _, _ => groups
  end.

Definition exec_hash_aggregate (input : ExecutionResult J) (group_by aggregates : list Expr) (having : option Expr) :
    X (ExecutionResult J) :=
  match input with
  | Rows col_names rows =>
      let group_indices := group_indices_of col_names group_by in
      let agg_functions := agg_functions_of aggregates having in
      let aggs := map (λ e, (agg_kind e, agg_column col_names e)) agg_functions in
      let out_col_names :=
        group_names group_by ++ omap (λ e, match e with Function name args => Some (agg_func_col_name name args) | _ => None end) agg_functions in
      out_rows ← panic_unless (mapM (build_group group_indices aggs) (Collections.hash_order (groups_of group_by group_indices rows)));
      match having with
      | None => mret (Rows out_col_names out_rows)
      | Some h => kept ← ok (filter_rows (row_schema [] out_col_names) h out_rows); mret (Rows out_col_names kept)
      end
  | _ => fail (Execution (chars "Aggregate requires row input"))
  end.

(** ** Aggregates over the encoded rows *)

Record GroupAcc : Type := mkAcc { acc_count : Z; acc_sum : Z; acc_min : Z; acc_max : Z; acc_vals : list V }.

Definition upper_is (name : str) (s : string) : bool := bool_decide (to_uppercase name = chars s).

(** The functions and the columns they read; [None] when this path is not taken. *)
Definition fast_functions (col_names : list str) (group_by aggregates : list Expr) : option (list nat * list (str * option nat)) :=
  let group_indices := group_indices_of col_names group_by in
  let simple e :=
    match e with
    | Column n => bool_decide (n ∈ group_names group_by)
    | Function name _ => bool_decide (from_name name ≠ AggOther)
    | _ => false
    end in
  let functions := omap (λ e, match e with Function name _ => Some (name, agg_column col_names e) | _ => None end) aggregates in
  let others := omap (λ '(name, col), if upper_is name "COUNT" then None else col) functions in
  if negb (bool_decide (length group_indices = length group_by)) then None
  else if negb (forallb simple aggregates) then None
  else if negb (forallb (λ '(name, col), upper_is name "COUNT" || bool_decide (is_Some col)) functions) then None
  else if existsb (λ '(name, _), upper_is name "COUNT_DISTINCT") functions then None
  else if negb (forallb (λ c, bool_decide (Some c = head others)) others) then None
  else Some (group_indices, functions).

(** The bytes of the group columns; the outer [None] is a panic of a slice, the
    inner one a row without the column. *)
Fixpoint fast_key (data : list Z) (group_indices : list nat) : option (option (list Z)) :=
  match group_indices with
  | [] => Some (Some [])
  | gi :: rest =>
      match Tuple.column_offset data gi with
      | None => Some None
      | Some pos =>
          let next_pos := default (zlen data) (Tuple.column_offset data (S gi)) in
          bytes ← get_slice data pos (next_pos - pos);
          r ← fast_key data rest;
          Some match r with Some l => Some (bytes ++ l) | None => None end
      end
  end.

Definition fast_value (functions : list (str * option nat)) (data : list Z) : option Z :=
  head (omap (λ '(name, col), if upper_is name "COUNT" then None else ci ← col; Tuple.read_int64_at data ci) functions).

Definition add_value (acc : GroupAcc) (v : option Z) : GroupAcc :=
  match v with
  | None => mkAcc (acc_count acc + 1) (acc_sum acc) (acc_min acc) (acc_max acc) (acc_vals acc)
  | Some n => mkAcc (acc_count acc + 1) (acc_sum acc + n) (Z.min n (acc_min acc)) (Z.max n (acc_max acc)) (acc_vals acc)
  end.

Definition new_group (group_indices : list nat) (data : list Z) : GroupAcc :=
  mkAcc 0 0 (2 ^ 63 - 1) (- 2 ^ 63) (map (λ gi, default Null (Tuple.read_value_at data gi)) group_indices).

Fixpoint add_to_group (key : list Z) (fresh : GroupAcc) (v : option Z) (groups : list (list Z * GroupAcc)) : list (list Z * GroupAcc) :=
  match groups with
  | [] => [(key, add_value fresh v)]
  | (k, acc) :: groups' =>
      if bool_decide (k = key) then (k, add_value acc v) :: groups' else (k, acc) :: add_to_group key fresh v groups'
  end.

Fixpoint fast_groups (group_indices : list nat) (functions : list (str * option nat)) (groups : list (list Z * GroupAcc))
    (datas : list (list Z)) : option (list (list Z * GroupAcc)) :=
  match datas with
  | [] => Some groups
  | data :: datas' =>
      k ← fast_key data group_indices;
      fast_groups group_indices functions
        match k with
        | None => groups
        | Some key => add_to_group key (new_group group_indices data) (fast_value functions data) groups
        end datas'
  end.

Definition fast_result (acc : GroupAcc) (name : str) : V :=
  if upper_is name "COUNT" then Int64 (acc_count acc)
  else if upper_is name "SUM" then int128_to_value (acc_sum acc)
  else if upper_is name "AVG" then
    if 0 <? acc_count acc then Float64 (f64_div (i64_as_f64 (acc_sum acc)) (i64_as_f64 (acc_count acc))) else Null
  else if upper_is name "MIN" then if acc_min acc =? 2 ^ 63 - 1 then Null else Int64 (acc_min acc)
  else if upper_is name "MAX" then if acc_max acc =? - 2 ^ 63 then Null else Int64 (acc_max acc)
  else Null.

Definition try_fast_aggregate (datas : list (list Z)) (col_names : list str) (group_by aggregates : list Expr) :
    option (option (ExecutionResult J)) :=
  match fast_functions col_names group_by aggregates with
  | None => Some None
  | Some (group_indices, functions) =>
      groups ← fast_groups group_indices functions [] datas;
      let name_of '(name, col) :=
        to_lowercase name ++ chars "(" ++ default (chars "*") (col ≫= λ i : nat, col_names !! i) ++ chars ")" in
      Some (Some (Rows (group_names group_by ++ map name_of functions)
                    (map (λ acc, acc_vals acc ++ map (λ '(name, _), fast_result acc name) functions)
                       (Collections.hash_order (map snd groups)))))
  end.
End aggregate.
End Aggregate.
