(* ===== verification/AggregateSpec.v ===== *)
(** GROUP BY and aggregates against their definitions: one group for every
    distinct key with the rows that have it, and the aggregates of integer columns
    as sums, least and greatest numbers. *)
From S2P Require Import Prelude ByteOrder Value OrderKey Schema Tuple Sql Lexer Like Strings Float64 Eval Scan Collections Plan Exec SetOpsSpec Window Aggregate.
Import Value OrderKey Sql Like Strings Float64 Eval Plan Exec Window Aggregate.

Module AggregateSpec.

(** ** Grouping by key *)

(** The numbers of the elements equal to [k]. *)
Definition positions (k : list Z) (keys : list (list Z)) : list nat :=
  omap (λ ik : nat * list Z, if decide (ik.2 = k) then Some ik.1 else None) (imap pair keys).

Lemma positions_snoc k keys x :
  positions k (keys ++ [x]) = positions k keys ++ (if decide (x = k) then [length keys] else []).
Proof. unfold positions. rw imap_app omap_app. cbn. rw Nat.add_0_r. by case_decide. Qed.

Lemma group_by_key_snoc keys x : group_by_key (keys ++ [x]) = push_group x (length keys) (group_by_key keys).
Proof. unfold group_by_key. rw imap_app foldl_app. cbn. by rw Nat.add_0_r. Qed.

Lemma push_group_keys x i groups :
  map fst (push_group x i groups) = if decide (x ∈ map fst groups) then map fst groups else map fst groups ++ [x].
Proof.
  induction groups as [|[k l] groups IH]; [done|]. cbn [push_group map fst]. case_bool_decide as Hk; cbn [map fst].
  - subst. rw decide_True; [by left|]. done.
  - rw IH. destruct (decide (x ∈ map fst groups)) as [Hx|Hx].
    + by rw decide_True; [by right|].
    + rw decide_False; [|done]. rw elem_of_cons. naive_solver.
Qed.

Lemma push_group_lookup x i groups k l :
  NoDup (map fst groups) →
  (k, l) ∈ push_group x i groups ↔
    (k ≠ x ∧ (k, l) ∈ groups) ∨ (k = x ∧ ∃ l', l = l' ++ [i] ∧ ((x, l') ∈ groups ∨ (l' = [] ∧ x ∉ map fst groups))).
Proof.
  induction groups as [|[k' l'] groups IH]; intros Hn; cbn [push_group].
  { rw list_elem_of_singleton. split.
    - intros [= -> ->]. right. split; [done|]. exists []. split; [done|]. right. split; [done|]. apply not_elem_of_nil.
    - intros [[_ H%not_elem_of_nil]|(-> & l0 & -> & [H%not_elem_of_nil|[-> _]])]; done. }
  apply NoDup_cons in Hn as [Hk' Hn]. cbn in Hk'. case_bool_decide as Hx.
  - subst. rw !elem_of_cons. split.
    + intros [[= -> ->]|Hin]; [right; eauto 6 using list_elem_of_here|]. left. split; [|by right].
      intros ->. apply Hk'. change x with (x, l).1. by apply list_elem_of_fmap_2.
    + intros [[Hne [[= -> _]|Hin]]|(-> & l0 & -> & [[[= ->]|Hin]%elem_of_cons|[-> Hnot]])]; [done|by right|by left| |].
      * exfalso. apply Hk'. change x with (x, l0).1. by apply list_elem_of_fmap_2.
      * exfalso. apply Hnot. by left.
  - rw elem_of_cons IH; [done|]. cbn [map fst]. rw !elem_of_cons. split.
    + intros [[= -> ->]|[[Hne Hin]|(-> & l0 & -> & [Hin|[-> Hnot]])]]; [by left; eauto|by left; eauto| |].
      * right. split; [done|]. exists l0. split; [done|]. left. by right.
      * right. split; [done|]. exists []. split; [done|]. right. split; [done|]. by intros [->|?]%elem_of_cons.
    + intros [[Hne [[= -> ->]|Hin]]|(-> & l0 & -> & [[[= -> ->]|Hin]%elem_of_cons|[-> Hnot]])]; [by left|by right; left|done| |].
      * right. right. split; [done|]. exists l0. eauto.
      * right. right. split; [done|]. exists []. split; [done|]. right. split; [done|]. intros Hin'. apply Hnot. by right.
Qed.

(** There is one group for every key, with the numbers of the elements that have it. *)
Lemma group_by_key_spec keys :
  NoDup (map fst (group_by_key keys)) ∧ (∀ k, k ∈ map fst (group_by_key keys) ↔ k ∈ keys) ∧
  (∀ k l, (k, l) ∈ group_by_key keys → l = positions k keys).
Proof.
  induction keys as [|x keys IH] using rev_ind.
  { split_and!; [constructor|done|]. intros k l H%not_elem_of_nil. done. }
  destruct IH as (Hn & Hk & Hl). rw group_by_key_snoc push_group_keys. split_and!.
  - case_decide; [done|]. apply NoDup_app. split_and!; [done| |apply NoDup_singleton].
    intros y Hy ->%list_elem_of_singleton. done.
  - intros k. rw elem_of_app list_elem_of_singleton. case_decide as Hx; [rw Hk; split; [by left|intros [?| ->]]; [done|by apply Hk]|].
    by rw elem_of_app list_elem_of_singleton Hk.
  - intros k l. rw push_group_lookup; [done|]. rw positions_snoc. intros [[Hne Hin]|(-> & l' & -> & Hin)].
    + rw decide_False; [congruence|]. rw app_nil_r. by apply Hl.
    + rw decide_True; [done|]. f_equal. destruct Hin as [Hin|[-> Hnot]]; [by apply Hl|]. rw Hk in Hnot.
      clear -Hnot. induction keys as [|y keys IH] using rev_ind; [done|]. rw positions_snoc.
      apply not_elem_of_app in Hnot as [H1 H2]. rw -IH; [done|]. rw decide_False; [|done]. intros ->. by apply H2, list_elem_of_singleton.
Qed.

Lemma NoDup_map_fst {A B} (l : list (A * B)) : NoDup (map fst l) → NoDup l.
Proof. apply NoDup_fmap_1. Qed.

Section groups.
Context {J : Type} `{Unicode} `{FloatText} `{!Engine J} `{!JsonShow J} `{!Collections.Unordered, !Collections.UnorderedLaws}.
Local Abbreviation V := (Value J).
Local Abbreviation row := (list V).
Implicit Types rows : list row.

Lemma pick_app rows r l : Forall (λ i, (i < length rows)%nat) l → pick (rows ++ [r]) l = pick rows l.
Proof.
  unfold pick. induction 1 as [|i l Hi Hl IH]; [done|]. cbn. rw lookup_app_l; [done|]. destruct (rows !! i); by rw IH.
Qed.

Lemma positions_lt k keys : Forall (λ i, (i < length keys)%nat) (positions k keys).
Proof.
  induction keys as [|x keys IH] using rev_ind; [constructor|]. rw positions_snoc length_app. apply Forall_app. split.
  - apply (Forall_impl _ _ _ IH). cbn. lia.
  - case_decide; repeat constructor. cbn. lia.
Qed.

Lemma pick_positions (key : row → list Z) k rows : pick rows (positions k (map key rows)) = filter (λ r, key r = k) rows.
Proof.
  induction rows as [|r rows IH] using rev_ind; [done|]. rw map_app positions_snoc filter_app length_map -IH. unfold pick at 1. rw omap_app.
  fold (pick (rows ++ [r]) (positions k (map key rows))). rw pick_app; [by rw -(length_map key rows); apply positions_lt|].
  f_equal. cbn. case_decide; [|done]. cbn. by rw (list_lookup_middle rows [] r).
Qed.

(** ** Rows that agree on the grouping columns *)

(** Two rows with the same values in the grouping columns: [key_cmp] is equality,
    but for decimals, of which it compares the digits, and JSON values, of which it
    compares the texts. *)
Definition agree (group_indices : list nat) (r s : row) : bool :=
  forallb (λ i, bool_decide (key_cmp (cell r i) (cell s i) = Eq)) group_indices.

(** The values of a grouping column are of one type, or NULL. *)
Definition groupable (group_indices : list nat) rows : Prop :=
  ∀ r s i, r ∈ rows → s ∈ rows → i ∈ group_indices → key_ok (cell r i) ∧ same_type (cell r i) (cell s i).

(** One group for the first row of each kind, with the rows that agree with it;
    without GROUP BY, a group also when there are no rows. *)
Definition groups_by (group_by : list Expr) (group_indices : list nat) rows : list (list row) :=
  match group_by, rows with
  | [], [] => [[]]
  | _, _ => map (λ r, filter (λ s, agree group_indices r s = true) rows) (SetOpsSpec.keep_first (agree group_indices) rows)
  end.

Lemma group_key_cmp gi (r s : row) :
  (∀ i, i ∈ gi → key_ok (cell r i) ∧ key_ok (cell s i) ∧ same_type (cell r i) (cell s i)) →
  bcmp (group_key gi r) (group_key gi s) = Eq ↔ agree gi r s = true.
Proof.
  unfold group_key, agree. induction gi as [|i gi IH]; intros Hg; [done|]. cbn [mbind list_bind forallb].
  destruct (Hg i ltac:(by left)) as (Hr & Hs & Ht). unfold encode_okey, encode_okey_into. cbn [mbind list_bind app]. rw !app_nil_r.
  rw (encode_one_key _ _ _ _ Hr Hs Ht) andb_true_iff bool_decide_eq_true -IH; [intros j Hj; apply Hg; by right|].
  destruct (key_cmp (cell r i) (cell s i)); cbn [then_cmp]; naive_solver.
Qed.

Lemma same_code_agree gi rows r s :
  groupable gi rows → r ∈ rows → s ∈ rows → SetOpsSpec.same_code (group_key gi) r s = agree gi r s.
Proof.
  intros Hg Hr Hs. apply eq_true_iff_eq. unfold SetOpsSpec.same_code. rw bool_decide_eq_true -bcmp_eq. apply group_key_cmp.
  intros i Hi. destruct (Hg r s i Hr Hs Hi), (Hg s r i Hs Hr Hi). done.
Qed.

Lemma keep_first_keys (key : row → list Z) rows :
  map key (SetOpsSpec.keep_first (SetOpsSpec.same_code key) rows) = map fst (group_by_key (map key rows)).
Proof.
  induction rows as [|x rows IH] using rev_ind; [done|]. rw SetOpsSpec.keep_first_snoc map_app IH map_app group_by_key_snoc push_group_keys.
  destruct (group_by_key_spec (map key rows)) as (_ & Hk & _). specialize (Hk (key x)).
  destruct (decide (key x ∈ map key rows)) as [Hin|Hin].
  - rw decide_True; [by apply Hk|]. by rw app_nil_r.
  - by rw decide_False; [by intros ?%Hk|].
Qed.

Lemma groups_of_spec group_by gi rows :
  (group_by = [] → gi = []) → groupable gi rows → groups_of group_by gi rows = groups_by group_by gi rows.
Proof.
  intros Hnil Hg. destruct (group_by_key_spec (map (group_key gi) rows)) as (_ & _ & Hl).
  assert (map (λ '(_, members), pick rows members) (group_by_key (map (group_key gi) rows)) =
    map (λ r, filter (λ s, agree gi r s = true) rows) (SetOpsSpec.keep_first (agree gi) rows)) as He.
  { rw -(SetOpsSpec.keep_first_ext (SetOpsSpec.same_code (group_key gi)) (agree gi)); [intros; by apply (same_code_agree gi rows)|].
    transitivity (map (λ k, filter (λ s, group_key gi s = k) rows) (map fst (group_by_key (map (group_key gi) rows)))).
    - rw map_map. apply map_ext_in. intros [k l] Hin%list_elem_of_In. cbn. rw (Hl k l Hin). apply pick_positions.
    - rw -keep_first_keys map_map. apply map_ext_in. intros r Hin%list_elem_of_In%SetOpsSpec.keep_first_in.
      apply Collections.filter_iff_in. intros s Hs. rw -(same_code_agree gi rows r s Hg Hin Hs). unfold SetOpsSpec.same_code.
      rw bool_decide_eq_true. split; congruence. }
  unfold groups_of, groups_by. rw He. destruct group_by; [|done]. destruct rows; [done|]. done.
Qed.

(** Where the values are no decimals and no JSON, agreeing is having the same
    values (floats: the same bits). *)
Definition exact (v : V) : Prop := match v with Decimal _ _ | Json _ => False | _ => True end.

Lemma f64_total_inj f g : 0 ≤ f < 2 ^ 64 → 0 ≤ g < 2 ^ 64 → f64_total f = f64_total g → f = g.
Proof. unfold f64_total. destruct (Z.ltb_spec f (2 ^ 63)), (Z.ltb_spec g (2 ^ 63)); lia. Qed.

Lemma key_cmp_exact (a b : V) : key_ok a → key_ok b → same_type a b → exact a → key_cmp a b = Eq ↔ a = b.
Proof.
  intros [Ha _] [Hb _] Ht He. split.
  - destruct a, b; try done; cbn; cbn in Ha, Hb; rw ?Z.compare_eq_iff ?bcmp_eq; try congruence.
    + by destruct b0, b.
    + intros E. by rw (f64_total_inj _ _ Ha Hb E).
  - intros <-. destruct a; cbn; rw ?Z.compare_refl ?bcmp_refl; try done. by destruct b.
Qed.

Lemma agree_values gi rows r s :
  groupable gi rows → r ∈ rows → s ∈ rows → (∀ i, i ∈ gi → exact (cell r i)) →
  agree gi r s = true ↔ map (cell r) gi = map (cell s) gi.
Proof.
  intros Hg Hr Hs. unfold agree. induction gi as [|i gi IH]; intros He; [done|]. cbn [forallb map].
  destruct (Hg r s i Hr Hs ltac:(by left)) as [Hkr Ht]. destruct (Hg s r i Hs Hr ltac:(by left)) as [Hks _].
  rw andb_true_iff bool_decide_eq_true (key_cmp_exact _ _ Hkr Hks Ht (He i ltac:(by left))) IH.
  - intros r' s' j Hr' Hs' Hj. apply Hg; [done..|by right].
  - intros j Hj. apply He. by right.
  - split; [intros [-> ->]; done|]. intros E. by injection E.
Qed.

(** ** No comparison panics *)

(** Comparing two decimals panics when their scales are more than 38 apart. *)
Definition no_panic rows : Prop := ∀ r s v w, r ∈ rows → s ∈ rows → v ∈ r → w ∈ s → is_Some (cmp_fast v w).

Lemma extreme_total c (best : option V) cells :
  (∀ v w, v ∈ option_list best ++ cells → w ∈ option_list best ++ cells → is_Some (cmp_fast v w)) → is_Some (extreme c best cells).
Proof.
  revert best. induction cells as [|v cells IH]; intros best Hb; [by eexists|]. cbn [extreme].
  destruct (is_null v); [apply IH; intros x y Hx Hy; apply Hb; set_solver|].
  destruct best as [b|]; [|by apply IH]. cbn [option_list app] in Hb.
  destruct (Hb v b) as [o ->]; [set_solver..|]. cbn. apply IH. destruct (bool_decide _); intros x y Hx Hy; apply Hb; set_solver.
Qed.

Lemma group_cells_in idx rows v : v ∈ group_cells idx rows → ∃ r, r ∈ rows ∧ v ∈ r.
Proof. intros (r & Hin & Hv)%list_elem_of_omap. exists r. split; [done|]. by apply list_elem_of_lookup_2 in Hv. Qed.

Lemma aggregate_total kind col rows : no_panic rows → is_Some (compute_aggregate_fast kind col rows).
Proof.
  intros Hr. assert (∀ c idx, is_Some (extreme c None (group_cells idx rows))) as He.
  { intros c idx. apply extreme_total. intros v w (r & Hr1 & Hv)%group_cells_in (s & Hs & Hw)%group_cells_in. by apply (Hr r s). }
  unfold compute_aggregate_fast. destruct kind, col as [idx|]; try by eexists.
  - destruct (sum_loop _) as [[? ?] ?]. by eexists.
  - destruct (avg_loop _) as [? ?]. by eexists.
  - by apply fmap_is_Some.
  - by apply fmap_is_Some.
Qed.

Lemma build_group_total group_indices aggs rows :
  no_panic rows → rows ≠ [] ∨ group_indices = [] → is_Some (build_group group_indices aggs rows).
Proof.
  intros Hr Hne. unfold build_group.
  assert (is_Some (mapM (λ '(kind, col), compute_aggregate_fast kind col rows) aggs)) as [res Hres].
  { apply mapM_is_Some, Forall_forall. intros [kind col] _. by apply aggregate_total. }
  destruct group_indices; [cbn; rw Hres; by eexists|]. destruct rows as [|r rows]; [by destruct Hne|]. cbn. rw Hres. by eexists.
Qed.

Lemma groups_by_total group_by gi aggs rows :
  (group_by = [] → gi = []) → no_panic rows → is_Some (mapM (build_group gi aggs) (groups_by group_by gi rows)).
Proof.
  intros Hnil Hp. apply mapM_is_Some. assert (Forall (λ g, is_Some (build_group gi aggs g))
    (map (λ r, filter (λ s, agree gi r s = true) rows) (SetOpsSpec.keep_first (agree gi) rows))) as Hall.
  { apply Forall_map, Forall_forall. intros r Hr%SetOpsSpec.keep_first_in. apply build_group_total.
    - intros x y v w [_ Hx]%list_elem_of_filter [_ Hy]%list_elem_of_filter. by apply Hp.
    - left. intros Hn. assert (r ∈ filter (λ s, agree gi r s = true) rows) as Hin; [|rw Hn in Hin; by apply not_elem_of_nil in Hin].
      apply list_elem_of_filter. split; [|done]. apply forallb_forall. intros i _. apply bool_decide_eq_true.
      destruct (cell r i); cbn; rw ?Z.compare_refl ?bcmp_refl; try done. by destruct b. }
  unfold groups_by. destruct group_by; [|done]. destruct rows; [|done].
  apply Forall_singleton. apply build_group_total; [|right; by apply Hnil]. intros r s v w Hr. by apply not_elem_of_nil in Hr.
Qed.

Lemma mapM_cons_Some {A B} (f : A → option B) x l res :
  mapM f (x :: l) = Some res → ∃ b bs, res = b :: bs ∧ f x = Some b ∧ mapM f l = Some bs.
Proof. cbn. intros (b & Hb & (bs & Hbs & [= <-])%bind_Some)%bind_Some. eauto. Qed.

Lemma mapM_perm {A B} (f : A → option B) l m res :
  l ≡ₚ m → mapM f l = Some res → ∃ res', mapM f m = Some res' ∧ res ≡ₚ res'.
Proof.
  intros Hp. revert res. induction Hp as [|x l m Hp IH|x y l|l m n P1 IH1 P2 IH2]; intros res Hr.
  - exists res. done.
  - apply mapM_cons_Some in Hr as (b & bs & -> & Hb & Hbs). destruct (IH bs Hbs) as (bs' & Hm & Hp').
    exists (b :: bs'). cbn. rw Hb Hm. cbn. split; [done|]. by constructor.
  - apply mapM_cons_Some in Hr as (b & bs & -> & Hb & Hbs). apply mapM_cons_Some in Hbs as (b' & bs' & -> & Hb' & Hbs').
    exists (b' :: b :: bs'). cbn. rw Hb Hb' Hbs'. cbn. split; [done|]. apply Permutation_swap.
  - destruct (IH1 res Hr) as (res1 & M1 & E1). destruct (IH2 res1 M1) as (res2 & M2 & E2). exists res2. split; [done|]. by rw E1.
Qed.

(** The aggregates a query computes. *)
Definition query_aggs (col_names : list str) (aggregates : list Expr) (having : option Expr) : list (AggKind * option nat) :=
  map (λ e, (agg_kind e, agg_column col_names e)) (agg_functions_of aggregates having).

(** The names of the result: the grouping columns and the aggregates. *)
Definition result_names (group_by aggregates : list Expr) (having : option Expr) : list str :=
  group_names group_by ++ omap (λ e, match e with Function name args => Some (agg_func_col_name name args) | _ => None end)
    (agg_functions_of aggregates having).

(** HAVING over the rows of the groups. *)
Definition having_rows (names : list str) (having : option Expr) (out : list row) : X (ExecutionResult J) :=
  match having with
  | None => mret (Rows names out)
  | Some h => kept ← ok (filter_rows (row_schema [] names) h out); mret (Rows names kept)
  end.

(** C37: GROUP BY divides the rows by the values of the grouping columns, the
    columns of the input that it names: for the first row of each kind there is one
    group of exactly the rows that agree with it on these columns, and one row of the
    result, with the values of the grouping columns and the aggregates over that group,
    in some order; without GROUP BY there is one group also of no rows. HAVING is then
    evaluated on these rows. Rows agree when the values of the grouping columns are
    equal, except that decimals agree by their digits whatever their scales and JSON
    values by their texts. The values of a grouping column are of one type or NULL, and
    no comparison of two decimals panics (scales at most 38 apart). *)
Theorem aggregate_groups col_names rows group_by aggregates having st :
  let gi := group_indices_of col_names group_by in
  groupable gi rows → no_panic rows →
  (∃ out results,
    exec_hash_aggregate (Rows col_names rows) group_by aggregates having st =
      having_rows (result_names group_by aggregates having) having out st ∧
    mapM (build_group gi (query_aggs col_names aggregates having)) (groups_by group_by gi rows) = Some results ∧
    out ≡ₚ results) ∧
  (∀ r s, r ∈ rows → s ∈ rows → (∀ i, i ∈ gi → exact (cell r i)) →
    agree gi r s = true ↔ map (cell r) gi = map (cell s) gi).
Proof.
  intros gi Hg Hp. split; [|intros r s Hr Hs; by apply (agree_values gi rows)].
  assert (group_by = [] → gi = []) as Hnil by (by intros ->).
  unfold exec_hash_aggregate. fold gi. set (aggs := map _ (agg_functions_of aggregates having)).
  destruct (groups_by_total group_by gi aggs rows Hnil Hp) as [results Hres].
  rw (groups_of_spec group_by gi rows Hnil Hg).
  destruct (mapM_perm (build_group gi aggs) (groups_by group_by gi rows) (Collections.hash_order (groups_by group_by gi rows)) results)
    as (out & Hout & Hperm); [symmetry; apply Collections.hash_order_perm|done|].
  exists out, results. split_and!; [|done|by symmetry].
  unfold mbind, X_bind, panic_unless. rw Hout. by destruct having.
Qed.

(** ** Integer columns *)

Definition int_or_null (v : V) : Prop := match v with Int64 _ | Null => True | _ => False end.
Definition ints (cells : list V) : list Z := omap Value.as_i64 cells.

Lemma sum_loop_ints cells s seen :
  Forall int_or_null cells →
  foldl (λ '(sum, fsum, seen) v,
    match v with
    | Int64 n => (sum + n, fsum, true)
    | Float64 f => (sum, Some (f64_add (default 0 fsum) f), true)
    | _ => (sum, fsum, seen)
    end) (s, None, seen) cells = (s + foldr Z.add 0 (ints cells), None, seen || bool_decide (ints cells ≠ [])).
Proof.
  intros Hc. revert s seen. induction Hc as [|v cells Hv Hc IH]; intros s seen; cbn; [by rw Z.add_0_r orb_false_r|].
  destruct v; try done. rw IH. change (ints (Int64 n :: cells)) with (n :: ints cells).
  replace (s + n + foldr Z.add 0 (ints cells)) with (s + foldr Z.add 0 (n :: ints cells)) by (cbn; lia). by rw orb_true_r.
Qed.

Lemma extreme_ints (c : comparison) (pick_one : Z → Z → Z) cells n :
  Forall int_or_null cells → (∀ a b, pick_one a b = if bool_decide ((a ?= b) = c) then a else b) →
  extreme c (Some (Int64 n)) cells = Some (Some (Int64 (foldl (λ b a, pick_one a b) n (ints cells)))).
Proof.
  intros Hc Hp. revert n. induction Hc as [|v cells Hv Hc IH]; intros n; [done|]. destruct v as [| |m| | | | | | | | |]; try done; cbn; [apply IH|].
  rw Hp. case_bool_decide; apply IH.
Qed.

Lemma extreme_ints_none c (pick_one : Z → Z → Z) cells :
  Forall int_or_null cells → (∀ a b, pick_one a b = if bool_decide ((a ?= b) = c) then a else b) →
  extreme c None cells = Some match ints cells with [] => None | n :: l => Some (Int64 (foldl (λ b a, pick_one a b) n l)) end.
Proof.
  intros Hc Hp. induction Hc as [|v cells Hv Hc IH]; [done|]. destruct v; try done. by apply extreme_ints.
Qed.

(** C38: over the integers of a column, NULLs left out, COUNT is their number, SUM
    their exact sum or the nearest float when it does not fit, MIN and MAX the least
    and greatest; all but COUNT are NULL when there is none. *)
Theorem integer_aggregates idx rows :
  let cells := group_cells idx rows in
  Forall int_or_null cells →
  compute_aggregate_fast AggCount (Some idx) rows = Some (Int64 (zlen (ints cells))) ∧
  compute_aggregate_fast AggSum (Some idx) rows =
    Some (if bool_decide (ints cells = []) then Null else int128_to_value (foldr Z.add 0 (ints cells))) ∧
  compute_aggregate_fast AggMin (Some idx) rows =
    Some match ints cells with [] => Null | n :: l => Int64 (foldl (λ b a, Z.min a b) n l) end ∧
  compute_aggregate_fast AggMax (Some idx) rows =
    Some match ints cells with [] => Null | n :: l => Int64 (foldl (λ b a, Z.max a b) n l) end.
Proof.
  intros cells Hc. cbn [compute_aggregate_fast]. fold cells. split_and!.
  - do 2 f_equal. unfold ints. clear -Hc. induction Hc as [|v cells Hv Hc IH]; [done|].
    rw filter_cons. destruct v; try done. cbn. by rw !zlen_cons IH.
  - unfold sum_loop. rw sum_loop_ints; [done|]. cbn [orb]. repeat case_bool_decide; try done; congruence.
  - rw (extreme_ints_none Lt Z.min); [done| |by destruct (ints cells)]. intros a b. unfold Z.min.
    case_bool_decide as E; [by rw E|]. destruct (Z.compare_spec a b); congruence.
  - rw (extreme_ints_none Gt Z.max); [done| |by destruct (ints cells)]. intros a b. unfold Z.max.
    case_bool_decide as E; [by rw E|]. destruct (Z.compare_spec a b); congruence.
Qed.
End groups.

(** ** Concrete groups *)

#[local] Existing Instance Lexer.ascii_only.
#[local] Existing Instance Lexer.no_floats.
#[local] Existing Instance Scan.sample_engine.
#[local] Existing Instance Tuple.sample_codecs.
#[local] Existing Instance Tuple.sample_show.
#[local] Existing Instance Tuple.sample_read.
#[local] Existing Instance Collections.plain.
#[local] Existing Instance Collections.plain_laws.

Definition sample_names : list str := [chars "g"; chars "x"].
Definition sample_rows : list (list (Value unit)) := [[Int64 1; Int64 10]; [Int64 2; Null]; [Int64 1; Int64 32]].

(** Every row of the sample, every cell of a row. *)
Ltac each_cell H := repeat (apply elem_of_cons in H as [->|H]); [..|by apply not_elem_of_nil in H].
Ltac each_sample H := unfold sample_rows in H; each_cell H.

Definition agg (name : string) : Expr := Function (chars name) [Column (chars "x")].
Definition sample_aggs : list Expr := [agg "COUNT"; agg "SUM"; agg "MIN"].

Lemma aggregate_groups_witness :
  ∃ out, exec_hash_aggregate (Rows sample_names sample_rows) [Column (chars "g")] sample_aggs None false =
      having_rows (result_names [Column (chars "g")] sample_aggs None) None out false ∧
    out = [[Int64 1; Int64 2; Int64 42; Int64 10]; [Int64 2; Int64 0; Null; Null]].
Proof.
  destruct (aggregate_groups sample_names sample_rows [Column (chars "g")] sample_aggs None false) as [(out & results & Ho & _) _].
  - intros r s i Hr Hs Hi. vm_compute in Hi. apply list_elem_of_singleton in Hi as ->. each_sample Hr; each_sample Hs; by repeat constructor.
  - intros r s v w Hr Hs Hv Hw. each_sample Hr; each_sample Hs; each_cell Hv; each_cell Hw; by eexists.
  - exists out. split; [exact Ho|]. vm_compute in Ho. by injection Ho as <-.
Defined.

Lemma integer_aggregates_witness :
  compute_aggregate_fast AggSum (Some 1%nat) sample_rows = Some (Int64 42) ∧
  compute_aggregate_fast AggMax (Some 1%nat) sample_rows = Some (Int64 32).
Proof.
  destruct (integer_aggregates 1 sample_rows) as (_ & Hs & _ & Hm).
  - vm_compute. repeat constructor.
  - split; [rw Hs|rw Hm]; vm_compute; reflexivity.
Defined.

(** Decimals are grouped by their digits: 1.0 and 10 make one group. *)
Theorem group_merges_decimals :
  exec_hash_aggregate (Rows [chars "d"] [[Decimal (J := unit) 10 1]; [Decimal 10 0]]) [Column (chars "d")] [Function (chars "COUNT") []] None false =
    Some (QOk (Rows [chars "d"; chars "count(*)"] [[Decimal 10 1; Int64 2]]), false) ∧
  cmp_fast (J := unit) (Decimal 10 1) (Decimal 10 0) = Some Lt.
Proof. split; vm_compute; reflexivity. Qed.

(** the path over the encoded rows counts the rows of a group where COUNT(x)
    should count the values, gives 0 for the SUM of a group without any, and
    divides AVG by the number of rows; the general path does not. *)
Theorem fast_aggregate_counts_nulls :
  let by_g := [Column (chars "g")] in
  (∃ names, try_fast_aggregate (map Tuple.serialize sample_rows) sample_names by_g [agg "COUNT"; agg "SUM"] =
     Some (Some (Rows names [[Int64 1; Int64 2; Int64 42]; [Int64 2; Int64 1; Int64 0]]))) ∧
  (∃ names, exec_hash_aggregate (Rows sample_names sample_rows) by_g [agg "COUNT"; agg "SUM"] None false =
     Some (QOk (Rows names [[Int64 1; Int64 2; Int64 42]; [Int64 2; Int64 0; Null]]), false)).
Proof. split; eexists; vm_compute; reflexivity. Qed.
End AggregateSpec.
