(* ===== verification/TableAccess.v ===== *)
(** Reading tables ([TableData] and the scans of
    [bytedb-query/src/executor/engine.rs]).

    A table has a B+Tree of encoded rows, a version store with what transactions
    have written, and secondary indexes. A scan inside a transaction reads what
    its snapshot shows of both; it may go through the primary key, a range of it,
    a secondary index or all the rows.

    Scans run without a query context and without a disk store: no limits of
    resources, no blobs in files. *)
From S2P Require Import Prelude ByteOrder BTree Value OrderKey BTreeSpec OrderedIndex SecondaryIndex Schema Tuple Transaction VersionStore Civil Sql Lexer Like Strings Float64 Eval Scan Collections Plan Exec.
Import Value OrderKey Sql Like Strings Eval Collections Plan Exec.

(** ** Effects *)

(** What a statement changes besides the tables: the transaction manager and the
    error a subquery has left. *)
Record Session : Type := mkSession { txns : Transaction.TransactionManager; pending : bool }.

Definition Q (A : Type) : Type := Session → option (qresult A * Session).
#[export] Instance Q_ret : MRet Q := λ A a s, Some (QOk a, s).
#[export] Instance Q_bind : MBind Q := λ A B f m s,
  '(r, s') ← m s; match r with QOk a => f a s' | QErr e => Some (QErr e, s') end.

Module TableAccess.

Definition PARALLEL_SCAN_THRESHOLD : Z := 16384.

Definition q_fail {A} (e : QueryError) : Q A := λ s, Some (QErr e, s).
Definition q_panic {A} (o : option A) : Q A := λ s, a ← o; Some (QOk a, s).
Definition lift {A} (m : X A) : Q A := λ s, '(r, b) ← m (pending s); Some (r, mkSession (txns s) b).
Definition lift_eval {A} (m : E A) : Q A := lift (ok m).
Definition update_txns (f : Transaction.TransactionManager → Transaction.TransactionManager) : Q () :=
  λ s, Some (QOk (), mkSession (f (txns s)) (pending s)).

(** [Display] of [CoreError]; an I/O error carries no text here. *)
Definition core_error_text (e : CoreError) : str :=
  match e with
  | Prelude.Io => chars "I/O error: "
  | Prelude.PageNotFound p => chars "Page " ++ show_int p ++ chars " not found"
  | Prelude.BufferPoolFull => chars "Buffer pool full"
  | Prelude.ChecksumMismatch p => chars "Page corrupted: checksum mismatch on page " ++ show_int p
  | Prelude.KeyNotFound => chars "Key not found"
  | Prelude.DuplicateKey => chars "Duplicate key"
  | Prelude.TransactionAborted t => chars "Transaction " ++ show_int t ++ chars " aborted"
  | Prelude.TransactionNotFound t => chars "Transaction " ++ show_int t ++ chars " not found"
  | Prelude.Deadlock => chars "Deadlock detected"
  | Prelude.SerializationConflict => chars "Serialization conflict"
  | Prelude.WriteConflict => chars "Write conflict: row was modified by concurrent transaction"
  | Prelude.LockTimeout t => chars "Lock wait timeout for txn " ++ show_int t
  | Prelude.TransactionTimeout t => chars "Transaction " ++ show_int t ++ chars " timed out"
  | Prelude.WalCorrupted l => chars "WAL corrupted at LSN " ++ show_int l
  | Prelude.TableNotFound t => chars "Table '" ++ chars t ++ chars "' not found"
  | Prelude.TableAlreadyExists t => chars "Table '" ++ chars t ++ chars "' already exists"
  | Prelude.ColumnNotFound c => chars "Column '" ++ chars c ++ chars "' not found"
  | Prelude.TypeMismatch x y => chars "Type mismatch: expected " ++ chars x ++ chars ", got " ++ chars y
  | Prelude.ValueTooLarge n => chars "Overflow: value too large (" ++ show_int n ++ chars " bytes)"
  | Prelude.Internal m => chars m
  end.

Definition get_snapshot (tid : Z) : Q Transaction.Snapshot := λ s,
  Some (match Transaction.get_snapshot tid (txns s) with
        | Ok sn => QOk sn
        | Err e => QErr (Execution (core_error_text e))
        end, s).

(** A name of a schema as text. *)
Definition name_of (s : string) : str := utf8_chars (chars s).

(** ** Access by primary key *)

Definition extract_bound (e : Expr) (pk_name : string) : option (BinOp * LiteralValue) :=
  match e with
  | BinaryOp (Column n) op (Literal lit) => if bool_decide (key_of n = pk_name) then Some (op, lit) else None
  | BinaryOp (Literal lit) op (Column n) => if bool_decide (key_of n = pk_name) then Some (Scan.flip op, lit) else None
  | _ => None
  end.

Section keys.
Context {J : Type} `{!JsonShow J} `{!Codecs}.
Local Abbreviation V := (Value J).
Local Abbreviation Schema := (Schema.Schema (J := J)).

(** The only column of the primary key, if there is exactly one. *)
Definition single_pk (schema : Schema) : option string :=
  match Schema.primary_key_columns schema with
  | [i] => Schema.col_name <$> Schema.columns schema !! i
  | _ => None
  end.

Definition literal_to_key_bytes (lit : LiteralValue) : list Z := Tuple.key_bytes [eval_literal (J := J) lit] [0%nat].

Definition try_pk_lookup (filter : option Expr) (schema : Schema) : option (list Z) :=
  f ← filter;
  pk_name ← single_pk schema;
  match f with
  | BinaryOp (Column n) OpEq (Literal lit) | BinaryOp (Literal lit) OpEq (Column n) =>
      if bool_decide (key_of n = pk_name) then Some (literal_to_key_bytes lit) else None
  | _ => None
  end.

Definition try_pk_range (filter : option Expr) (schema : Schema) : option (list Z * list Z) :=
  f ← filter;
  pk_name ← single_pk schema;
  match f with
  | BinaryOp l OpAnd r =>
      '(lop, ll) ← extract_bound l pk_name;
      '(rop, rl) ← extract_bound r pk_name;
      match lop, rop with
      | OpGte, OpLte | OpGt, OpLte => Some (literal_to_key_bytes ll, literal_to_key_bytes rl)
      | OpLte, OpGte | OpLte, OpGt => Some (literal_to_key_bytes rl, literal_to_key_bytes ll)
      | _, _ => None
      end
  | _ => None
  end.
End keys.

(** ** Tables *)

Section tables.
Context {J T : Type} `{!JsonShow J, !JsonRead J} `{!Codecs} `{Unicode} `{FloatText} `{!Engine J} `{!KvTree T} `{!HashOrder} `{!Unordered}.
Local Abbreviation V := (Value J).
Local Abbreviation Schema := (Schema.Schema (J := J)).
Local Abbreviation row := (list V).
Local Abbreviation entry := (list Z * list Z)%type.

Record TableData : Type := mkTable {
  schema : Schema;
  index : T;
  version_store : VersionStore.VersionStore row;
  check_exprs : list Expr;
  secondary_indexes : list (SecondaryIndex.SecondaryIndex T);
}.

Definition col_names (td : TableData) : list str := map (λ c, name_of (Schema.col_name c)) (Schema.columns (schema td)).

(** What the snapshot of a transaction says about the keys with versions. *)
Definition resolve (td : TableData) (tid : Z) (sn : Transaction.Snapshot) : gmap (list Z) (option row) :=
  VersionStore.snapshot_resolved tid (Transaction.sn_start_ts sn) (Transaction.sn_active_txns sn) (version_store td).

Definition read_visible_entries (td : TableData) (txn : option Z) : Q (list entry) :=
  match txn with
  | None => q_panic (kt_scan_all (index td))
  | Some tid =>
      if VersionStore.key_count (version_store td) =? 0 then q_panic (kt_scan_all (index td))
      else
        sn ← get_snapshot tid;
        let resolved := resolve td tid sn in
        base ← q_panic (kt_scan_all (index td));
        mret (filter (λ kv : entry, resolved !! kv.1 = None) base ++
              omap (λ '(k, o), t ← o; Some (k, Tuple.serialize t)) (hash_iter resolved))
  end.

Definition read_visible_one (td : TableData) (txn : option Z) (key : list Z) : Q (option (list Z)) :=
  match txn with
  | None => q_panic (kt_search (index td) key)
  | Some tid =>
      sn ← get_snapshot tid;
      match VersionStore.lookup_for_read key tid (Transaction.sn_start_ts sn) (Transaction.sn_active_txns sn) (version_store td) with
      | VersionStore.Visible t => mret (Some (Tuple.serialize t))
      | VersionStore.Tombstone => mret None
      | VersionStore.NoVersions => q_panic (kt_search (index td) key)
      end
  end.

Definition Tables : Type := gmap str TableData.

(** Without a disk store a table that is not in memory does not exist. *)
Definition get_table (tables : Tables) (name : str) : Q TableData :=
  match tables !! name with
  | Some td => mret td
  | None => q_fail (Execution (chars "Table '" ++ name ++ chars "' not found"))
  end.

Definition ssi_read (txn : option Z) (table : str) (key : list Z) : Q () :=
  match txn with Some tid => update_txns (Transaction.ssi_record_read tid (key_of table) key) | None => mret () end.
Definition ssi_predicate (txn : option Z) (table : str) : Q () :=
  match txn with Some tid => update_txns (Transaction.ssi_record_predicate tid (key_of table)) | None => mret () end.

(** ** Loops over rows *)

Definition reached (limit : option Z) (rows : list row) : bool :=
  match limit with Some lim => lim <=? zlen rows | None => false end.

(** [step] reads an entry, and a row it gives is pushed; a limit ends the loop. *)
Fixpoint read_rows (step : entry → Q (option row)) (limit : option Z) (rows : list row) (entries : list entry) : Q (list row) :=
  match entries with
  | [] => mret rows
  | e :: entries' =>
      r ← step e;
      match r with
      | None => read_rows step limit rows entries'
      | Some row =>
          let rows := rows ++ [row] in
          if reached limit rows then mret rows else read_rows step limit rows entries'
      end
  end.

Definition matches_filter (schema : Schema) (filter : option Expr) (row : row) : Q bool :=
  lift_eval (match filter with Some f => eval_predicate schema row f | None => mret true end).

(** Decode the row, evaluate the filter, record the read. *)
Definition accept_row (table : str) (td : TableData) (filter : option Expr) (txn : option Z) (e : entry) : Q (option row) :=
  match Scan.decode_row e.2 with
  | None => mret None
  | Some row =>
      m ← matches_filter (schema td) filter row;
      if (m : bool) then _ ← ssi_read txn table e.1; mret (Some row) else mret None
  end.

(** A row of a scan inside a transaction, the filter decided on the encoded row
    where that is possible. *)
Definition txn_row (table : str) (td : TableData) (filter : option Expr) (fast : option (nat * BinOp * V)) (tid : Z) (e : entry) :
    Q (option row) :=
  match Scan.raw_filter fast e.2 with
  | Some true =>
      match Scan.decode_row e.2 with
      | Some row => _ ← ssi_read (Some tid) table e.1; mret (Some row)
      | None => mret None
      end
  | Some false => mret None
  | None => accept_row table td filter (Some tid) e
  end.

(** The row of a key in a range: the snapshot decides where it knows the key. *)
Definition range_row (table : str) (td : TableData) (filter : option Expr) (tid : Z) (resolved : option (gmap (list Z) (option row)))
    (e : entry) : Q (option row) :=
  match (map ← resolved; map !! e.1) with
  | None => accept_row table td filter (Some tid) e
  | Some None => mret None
  | Some (Some t) => accept_row table td filter (Some tid) (e.1, Tuple.serialize t)
  end.

(** A row of the snapshot in the range that the tree does not have. *)
Definition new_row (table : str) (td : TableData) (filter : option Expr) (tid : Z) (lo hi : list Z)
    (kt : list Z * option row) : Q (option row) :=
  match kt.2 with
  | None => mret None
  | Some t =>
      if bleb lo kt.1 && bleb kt.1 hi then
        stored ← q_panic (kt_search (index td) kt.1);
        match stored with
        | Some _ => mret None
        | None => accept_row table td filter (Some tid) (kt.1, Tuple.serialize t)
        end
      else mret None
  end.

Fixpoint new_rows (step : list Z * option row → Q (option row)) (rows : list row) (entries : list (list Z * option row)) : Q (list row) :=
  match entries with
  | [] => mret rows
  | e :: entries' => r ← step e; new_rows step (rows ++ option_list r) entries'
  end.

Definition range_rows (table : str) (td : TableData) (filter : option Expr) (limit : option Z) (tid : Z) (lo hi : list Z) : Q (list row) :=
  _ ← ssi_predicate (Some tid) table;
  sn ← get_snapshot tid;
  base ← q_panic (kt_range_scan (index td) lo hi);
  let resolved := if VersionStore.key_count (version_store td) =? 0 then None else Some (resolve td tid sn) in
  rows ← read_rows (range_row table td filter tid resolved) limit [] base;
  match resolved with
  | None => mret rows
  | Some map => new_rows (new_row table td filter tid lo hi) rows (hash_iter map)
  end.

(** ** Scans *)

(** The callbacks of [index.for_each] that push rows; [None] is a panic. *)
Definition push_row (limit : option Z) (step : list Z → E (option row)) (s : option (list row * bool)) (data : list Z) :
    option (list row * bool) * bool :=
  match s with
  | None => (None, false)
  | Some (rows, b) =>
      match step data b with
      | None => (None, false)
      | Some (None, b') => (Some (rows, b'), true)
      | Some (Some row, b') => let rows := rows ++ [row] in (Some (rows, b'), negb (reached limit rows))
      end
  end.

Definition each_row (td : TableData) (limit : option Z) (step : list Z → E (option row)) : E (list row) := λ b,
  r ← kt_for_each (index td) (λ s _ data, push_row limit step s data) (Some ([], b));
  r.

(** The scan outside a transaction. *)
Definition plain_scan (td : TableData) (filter : option Expr) (limit : option Z) (needed : option (list Z)) : E (list row) :=
  let fast := Scan.fast_filter_of filter (schema td) in
  if bool_decide (limit = None) && bool_decide (is_Some filter) && (PARALLEL_SCAN_THRESHOLD <=? kt_len (index td)) then
    leaves ← panic_or (kt_leaf_values (index td));
    Scan.parallel_scan needed (schema td) filter (mjoin leaves)
  else
    match fast, filter, limit, needed with
    | Some _, _, _, _ => each_row td limit (Scan.serial_row needed (schema td) filter fast)
    | None, None, None, None => each_row td None (λ data, mret (Tuple.deserialize_to_vec data))
    | None, _, _, _ => each_row td limit (Scan.slow_row needed (schema td) filter)
    end.

Definition scan_rows (table : str) (td : TableData) (filter : option Expr) (txn : option Z) (limit : option Z)
    (needed : option (list Z)) : Q (list row) :=
  match txn with
  | Some tid =>
      match try_pk_lookup filter (schema td) with
      | Some key =>
          _ ← ssi_read (Some tid) table key;
          data ← read_visible_one td (Some tid) key;
          mret (option_list (data ≫= Scan.decode_row))
      | None =>
          match try_pk_range filter (schema td) with
          | Some (lo, hi) => range_rows table td filter limit tid lo hi
          | None =>
              _ ← ssi_predicate (Some tid) table;
              entries ← read_visible_entries td (Some tid);
              read_rows (txn_row table td filter (Scan.fast_filter_of filter (schema td)) tid) limit [] entries
          end
      end
  | None =>
      match try_pk_lookup filter (schema td) with
      | Some key => data ← q_panic (kt_search (index td) key); mret (option_list (data ≫= Scan.decode_row))
      | None => lift_eval (plain_scan td filter limit needed)
      end
  end.

(** The tables of the information schema; names in some order of the hash table. *)
Definition filter_info (columns : list str) (filter : option Expr) (rows : list row) : Q (ExecutionResult J) :=
  rows ← (match filter with
          | Some f => lift_eval (filter_rows (row_schema [] columns) f rows)
          | None => mret rows
          end : Q (list row));
  mret (Rows columns rows).

Definition exec_information_schema_tables (tables : Tables) (filter : option Expr) : Q (ExecutionResult J) :=
  filter_info (map chars ["table_catalog"; "table_schema"; "table_name"; "table_type"]) filter
    (map (λ name, [text (chars "bytedb"); text (chars "public"); text name; text (chars "BASE TABLE")]) (hash_keys tables)).

(** [{:?}] of a data type. *)
Definition data_type_debug (t : DataType) : string :=
  match t with
  | TBool => "Bool" | TInt64 => "Int64" | TFloat64 => "Float64" | TText => "Text" | TBytes => "Bytes"
  | TJson => "Json" | TTimestamp => "Timestamp" | TDate => "Date" | TDecimal => "Decimal" | TUuid => "Uuid" | TInterval => "Interval"
  end.

Definition exec_information_schema_columns (tables : Tables) (filter : option Expr) : Q (ExecutionResult J) :=
  filter_info
    (map chars ["table_catalog"; "table_schema"; "table_name"; "column_name"; "ordinal_position"; "is_nullable"; "data_type"]) filter
    (hash_iter tables ≫= λ '(table, td),
       imap (λ i c,
         [text (chars "bytedb"); text (chars "public"); text table; text (name_of (Schema.col_name c));
          Int64 (Z.of_nat i + 1); text (chars (if Schema.nullable c then "YES" else "NO"));
          text (chars (data_type_debug (Schema.col_data_type c)))]) (Schema.columns (schema td))).

Definition exec_seq_scan (tables : Tables) (table : str) (filter : option Expr) (txn : option Z) (limit : option Z)
    (needed : option (list Z)) : Q (ExecutionResult J) :=
  if bool_decide (table = chars "information_schema.tables") then exec_information_schema_tables tables filter
  else if bool_decide (table = chars "information_schema.columns") then exec_information_schema_columns tables filter
  else
    td ← get_table tables table;
    rows ← scan_rows table td filter txn limit needed;
    mret (Rows (col_names td) rows).

(** ** Index scans *)

(** The row of a primary key found in the index. *)
Definition index_row (table : str) (td : TableData) (filter : option Expr) (txn : option Z) (pk : list Z) : Q (option row) :=
  data ← read_visible_one td txn pk;
  match data with
  | None => mret None
  | Some data => accept_row table td filter txn (pk, data)
  end.

(** An index is used when nobody's versions can hide or show rows, for a literal
    that can be cast to the type of the column. *)
Definition index_probe (td : TableData) (column : str) (value : Expr) : option (option V) :=
  match Schema.column_index (schema td) (key_of column) with
  | None => Some None
  | Some i =>
      c ← Schema.columns (schema td) !! i;
      match Schema.col_data_type c with
      | TDecimal | TJson => Some None
      | t => probe ← cast_value (Scan.eval_expr_simple value) t; Some (if is_null probe then None else Some probe)
      end
  end.

Definition index_keys (sec : SecondaryIndex.SecondaryIndex T) (op : BinOp) (probe : V) : option (option (list (list Z))) :=
  match op with
  | OpEq => Some <$> SecondaryIndex.lookup_eq sec [probe]
  | OpLt | OpLte => Some <$> SecondaryIndex.lookup_range sec None (Some probe)
  | OpGt | OpGte => Some <$> SecondaryIndex.lookup_range sec (Some probe) None
  | _ => Some None
  end.

Definition find_index (td : TableData) (index_name : str) (txn : option Z) : option (SecondaryIndex.SecondaryIndex T) :=
  if bool_decide (txn = None) || (VersionStore.key_count (version_store td) =? 0) then
    snd <$> list_find (λ s, SecondaryIndex.name s = key_of index_name) (secondary_indexes td)
  else None.

(** The keys the index gives, if it is used. *)
Definition index_lookup (td : TableData) (index_name column : str) (op : BinOp) (value : Expr) (txn : option Z) :
    option (option (list (list Z))) :=
  match find_index td index_name txn with
  | None => Some None
  | Some sec =>
      probe ← index_probe td column value;
      match probe with None => Some None | Some probe => index_keys sec op probe end
  end.

Definition exec_index_scan (tables : Tables) (table index_name column : str) (op : BinOp) (value : Expr) (filter : option Expr)
    (limit : option Z) (txn : option Z) : Q (ExecutionResult J) :=
  td ← get_table tables table;
  keys ← q_panic (index_lookup td index_name column op value txn);
  match keys with
  | None => exec_seq_scan tables table filter txn limit None
  | Some pks =>
      _ ← ssi_predicate txn table;
      rows ← read_rows (λ e, index_row table td filter txn e.1) limit [] (map (λ pk, (pk, [])) pks);
      mret (Rows (col_names td) rows)
  end.

(** ** The first rows of a scan in the order of a column *)

(** The heap holds keys and places in [kept_data]; [all_int] is false once a row
    has no integer to sort by. *)
Record TopState : Type := mkTop { heap : list (Z * nat); kept_data : list (list Z); top_ints : bool }.

(** [process]: the flag says whether to go on. *)
Definition top_process (fast : option (nat * BinOp * V)) (sort_col : nat) (asc : bool) (n : Z) (s : TopState) (data : list Z) :
    option (TopState * bool) :=
  if match fast with Some _ => default false (Scan.raw_filter fast data) | None => true end then
    match Tuple.read_int64_at data sort_col with
    | None => Some (mkTop (heap s) (kept_data s) false, false)
    | Some k =>
        key ← heap_key asc k;
        let place := length (kept_data s) in
        if zlen (heap s) <? n then Some (mkTop (heap_push (key, place) (heap s)) (kept_data s ++ [data]) (top_ints s), true)
        else
          match heap_pop pair_cmp (heap s) with
          | Some ((top_key, old), heap') =>
              if key <? top_key then
                Some (mkTop (heap_push (key, place) heap') (<[old := []]> (kept_data s) ++ [data]) (top_ints s), true)
              else Some (s, true)
          | None => Some (s, true)
          end
    end
  else Some (s, true).

(** The rows of the tree as a transaction sees them. *)
Definition top_visible (td : TableData) (tid : Z) (sn : Transaction.Snapshot) (process : TopState → list Z → option (TopState * bool))
    (s : TopState) (key data : list Z) : option (TopState * bool) :=
  match VersionStore.lookup_for_read key tid (Transaction.sn_start_ts sn) (Transaction.sn_active_txns sn) (version_store td) with
  | VersionStore.Visible t => process s (Tuple.serialize t)
  | VersionStore.Tombstone => Some (s, true)
  | VersionStore.NoVersions => process s data
  end.

Definition or_stop {S} (r : option (S * bool)) : option S * bool :=
  match r with Some (s, go) => (Some s, go) | None => (None, false) end.

Definition top_scan (td : TableData) (tid_sn : option (Z * Transaction.Snapshot)) (process : TopState → list Z → option (TopState * bool))
    (s : TopState) : option TopState :=
  match tid_sn with
  | None =>
      r ← kt_for_each (index td) (λ s _ data, match s with Some s => or_stop (process s data) | None => (None, false) end) (Some s);
      r
  | Some (tid, sn) =>
      r ← kt_for_each (index td)
            (λ s key data, match s with
                           | Some (s, _) => let '(r, go) := or_stop (top_visible td tid sn process s key data) in
                                            (match r with Some s => Some (s, go) | None => None end, go)
                           | None => (None, false)
                           end) (Some (s, true));
      '(s, keep) ← r;
      if (keep : bool) then
        VersionStore.for_each_visible tid (Transaction.sn_start_ts sn) (Transaction.sn_active_txns sn)
          (λ s k t, match s with
                    | Some s =>
                        match kt_search (index td) k with
                        | Some (Some _) => (Some s, true)
                        | _ => or_stop (process s (Tuple.serialize t))
                        end
                    | None => (None, false)
                    end) (version_store td) (Some s)
      else Some s
  end.

Definition top_entries (sort_col : nat) (asc : bool) (s : TopState) : list row :=
  let entries := omap (λ '(_, place),
                   data ← kept_data s !! place;
                   match data with
                   | [] => None
                   | _ => row ← Scan.decode_row data; Some (int_key row sort_col, row)
                   end) (heap s) in
  map snd (sort_unstable_by (λ a b, descending (a.1 ?= b.1) asc) entries).

Definition exec_scan_top_n (tables : Tables) (table : str) (filter : option Expr) (txn : option Z) (order_by : list OrderByExpr) (n : Z) :
    Q (ExecutionResult J) :=
  td ← get_table tables table;
  match order_by with
  | mkOrderBy (Column name) asc _ :: _ =>
      match Schema.column_index (schema td) (key_of name) with
      | None => q_fail (Execution (chars "Column '" ++ name ++ chars "' not found"))
      | Some sort_col =>
          _ ← q_panic (heap_capacity n 16);
          _ ← q_panic (heap_capacity n 24);
          _ ← ssi_predicate txn table;
          tid_sn ← (match txn with
                    | Some tid => sn ← get_snapshot tid; mret (Some (tid, sn))
                    | None => mret None
                    end : Q (option (Z * Transaction.Snapshot)));
          let fast := Scan.fast_filter_of filter (schema td) in
          s ← q_panic (top_scan td tid_sn (top_process fast sort_col asc n) (mkTop [] [] true));
          if top_ints s then mret (Rows (col_names td) (top_entries sort_col asc s))
          else q_fail (Execution (chars "Non-int sort column"))
      end
  | _ :: _ => q_fail (Execution (chars "Non-column ORDER BY"))
  | [] => q_panic None
  end.

(** ** SELECT without FROM, and materialised queries *)

Fixpoint no_from_columns (i : Z) (columns : list SelectColumn) : Q (list str * row) :=
  match columns with
  | [] => mret ([], [])
  | SelectStar :: _ => q_fail (Execution (chars "SELECT * requires a FROM clause"))
  | SelectExpr e alias :: columns' =>
      let name := default (match e with Column c => c | _ => chars "col" ++ show_int (i + 1) end) alias in
      v ← lift_eval (eval_value (Schema.new "" []) [] e);
      '(names, vs) ← no_from_columns (i + 1) columns';
      mret (name :: names, v :: vs)
  end.

Definition exec_select_no_from (select : SelectStmt) : Q (ExecutionResult J) :=
  let '(mkSelect columns _ _ _ _ _ _ _ _ _ _ _) := select in
  '(names, vs) ← no_from_columns 0 columns;
  mret (Rows names [vs]).

(** The first column of a materialised query is its primary key, its rows are
    stored under their numbers. *)
Definition cte_schema (name : str) (columns : list str) : Schema :=
  Schema.new (key_of name) (imap (λ i c, Schema.mkColumn (key_of c) TText true (bool_decide (i = 0%nat)) false false None None) columns).

Definition cte_key (i : nat) : list Z := be_bytes 8 (wrap 64 (Z.of_nat i)).

Fixpoint insert_rows (t : T) (i : nat) (rows : list row) : option T :=
  match rows with
  | [] => Some t
  | r :: rows' => t ← kt_insert t (cte_key i) (Tuple.serialize r); insert_rows t (S i) rows'
  end.

Definition materialize_cte (tables : Tables) (name : str) (columns : list str) (rows : list row) : option Tables :=
  t ← insert_rows (kt_new (key_of name) 64) 0 rows;
  Some (<[name := mkTable (cte_schema name columns) t VersionStore.new [] []]> tables).
End tables.
Arguments TableData J T : clear implicits.
Arguments Tables J T : clear implicits.
End TableAccess.
