(* ===== verification/TableSpec.v ===== *)
(** What a scan of a table returns: the rows the snapshot shows that satisfy the
    filter, whichever way the scan takes to them. *)
From S2P Require Import Prelude ByteOrder BTree Value OrderKey BTreeSpec OrderedIndex SecondaryIndex Schema Tuple Transaction VersionStore Civil Sql Lexer Like Strings Float64 Eval Scan Collections Plan Exec TableAccess.
Import Value OrderKey Sql Like Strings Eval Collections Plan Exec TableAccess.

Module TableSpec.

Section spec.
Context {J T : Type} `{!JsonShow J, !JsonRead J} `{!Codecs} `{Unicode} `{FloatText} `{!Engine J} `{!KvTree T} `{!HashOrder}.
Context `{!KvTreeLaws T} `{!CodecLaws} `{!JsonLaws J Tuple.utf8_valid}.
Local Abbreviation V := (Value J).
Local Abbreviation row := (list V).
Local Abbreviation entry := (list Z * list Z)%type.
Implicit Types (td : TableData J T) (m : gmap (list Z) (list Z)) (vis : gmap (list Z) row) (s : Session).

(** ** What a reader sees *)

(** A reader: nobody in particular, or a transaction with its snapshot. *)
Definition Reader : Type := option (Z * Transaction.Snapshot).

(** The encoded row a reader sees under a key, over the rows [m] of the tree. *)
Definition shown td m (rd : Reader) (k : list Z) : option (list Z) :=
  match rd with
  | None => m !! k
  | Some (tid, sn) =>
      match VersionStore.lookup_for_read k tid (Transaction.sn_start_ts sn) (Transaction.sn_active_txns sn) (version_store td) with
      | VersionStore.Visible t => Some (Tuple.serialize t)
      | VersionStore.Tombstone => None
      | VersionStore.NoVersions => m !! k
      end
  end.

(** The rows [vis] are what the reader sees of the table. *)
Record table_shows td m (rd : Reader) vis : Prop := {
  ts_index : kt_rep (index td) m;
  ts_store : ∃ vm, VersionStore.store_rel (version_store td) vm ∧ Z.of_nat (size vm) < 2 ^ 64;
  ts_rows : ∀ k, shown td m rd k = Tuple.serialize <$> vis !! k;
  ts_stored : ∀ k vs, vis !! k = Some vs → Scan.stored vs;
}.

(** The transaction of a statement has the snapshot of the reader. *)
Definition reads_as (txn : option Z) (rd : Reader) s : Prop :=
  match txn, rd with
  | None, None => True
  | Some tid, Some (tid', sn) => tid = tid' ∧ Transaction.get_snapshot tid (txns s) = Ok sn
  | _, _ => False
  end.

Lemma snapshot_of tid sn s : Transaction.get_snapshot tid (txns s) = Ok sn → get_snapshot tid s = Some (QOk sn, s).
Proof. intros Hs. unfold get_snapshot. by rw Hs. Qed.

Lemma predicate_snapshot tid table t (tm : Transaction.TransactionManager) :
  Transaction.get_snapshot tid (Transaction.ssi_record_predicate t table tm) = Transaction.get_snapshot tid tm.
Proof. unfold Transaction.get_snapshot, Transaction.ssi_record_predicate. by destruct (Transaction.ssi tm !! t). Qed.

Lemma read_snapshot tid table k t (tm : Transaction.TransactionManager) :
  Transaction.get_snapshot tid (Transaction.ssi_record_read t table k tm) = Transaction.get_snapshot tid tm.
Proof. unfold Transaction.get_snapshot, Transaction.ssi_record_read. by destruct (Transaction.ssi tm !! t). Qed.

(** ** The visible entries *)

Lemma lookup_no_versions td vm k tid sts active :
  VersionStore.store_rel (version_store td) vm →
  VersionStore.lookup_for_read k tid sts active (version_store td) =
    match vm !! k with
    | None => VersionStore.NoVersions
    | Some c => match VersionStore.newest_visible tid sts active c with
                | Some t => VersionStore.Visible t
                | None => VersionStore.Tombstone
                end
    end.
Proof.
  intros Hr. unfold VersionStore.lookup_for_read. pose proof (VersionStore.rel_chain _ _ Hr k) as Hc.
  unfold VersionStore.chain_of in Hc. rw Hc. destruct (vm !! k) as [c|] eqn:Hk; [|done].
  case_bool_decide as Hl; [|done]. destruct c; [|done]. by destruct (VersionStore.rel_full _ _ Hr k).
Qed.

Lemma sorted_pairs_perm m : sorted_pairs m ≡ₚ map_to_list m.
Proof. unfold sorted_pairs. apply merge_sort_Permutation. Qed.

Lemma NoDup_keyed {A} (l : list (list Z * A)) : NoDup l.*1 → NoDup l.
Proof. apply NoDup_fmap_1. Qed.

(** The snapshot's rows over the tree's, as the code puts them together. *)
Lemma merged_entries m (resolved : gmap (list Z) (option row)) (d : gmap (list Z) (list Z)) :
  (∀ k, d !! k = match resolved !! k with Some o => Tuple.serialize <$> o | None => m !! k end) →
  filter (λ kv : entry, resolved !! kv.1 = None) (sorted_pairs m) ++
    omap (λ '(k, o), t ← o; Some (k, Tuple.serialize t)) (hash_iter resolved) ≡ₚ map_to_list d.
Proof.
  intros Hd. apply NoDup_Permutation.
  - apply NoDup_app. split_and!.
    + apply NoDup_filter. rw sorted_pairs_perm. apply NoDup_map_to_list.
    + intros [k x] [Hk _]%list_elem_of_filter. rw list_elem_of_omap. intros ([k' o] & Hin%elem_of_hash_iter & Ho).
      cbn in *. destruct o; [|done]. by simplify_eq/=.
    + apply NoDup_keyed. rw hash_iter_perm. eapply sublist_NoDup; [apply (NoDup_fst_map_to_list resolved)|].
      induction (map_to_list resolved) as [|[k o] l IH]; [done|]. cbn. destruct o; cbn; by constructor.
  - apply NoDup_map_to_list.
  - intros [k x]. rw elem_of_app list_elem_of_filter elem_of_sorted_pairs list_elem_of_omap elem_of_map_to_list Hd. cbn [fst].
    split.
    + intros [[-> ?]|([k' o] & Hin%elem_of_hash_iter & Ho)]; [done|]. destruct o as [t|]; [|done].
      cbn in Ho. simplify_eq. by rw Hin.
    + destruct (resolved !! k) as [o|] eqn:Hk; [|by left]. intros Ho. right. exists (k, o).
      split; [by apply elem_of_hash_iter|]. destruct o as [t|]; [|done]. cbn in *. by simplify_eq.
Qed.

Lemma visible_entries td m tid sn vis s :
  table_shows td m (Some (tid, sn)) vis → Transaction.get_snapshot tid (txns s) = Ok sn →
  ∃ entries, read_visible_entries td (Some tid) s = Some (QOk entries, s) ∧ entries ≡ₚ map_to_list (Tuple.serialize <$> vis).
Proof.
  intros [Hi (vm & Hr & Hlt) Hv _] Hsn. unfold read_visible_entries, VersionStore.key_count. rw (VersionStore.rel_count _ _ Hr).
  rw wrap_small; [lia|]. unfold q_panic. rw (kt_scan_all_rep _ _ Hi). case (Z.eqb_spec (Z.of_nat (size vm)) 0) as [Hz|_].
  - eexists. split; [done|]. rw sorted_pairs_perm. assert (vm = ∅) as -> by (apply map_size_empty_iff; lia).
    assert (m = Tuple.serialize <$> vis) as ->; [|done]. apply map_eq. intros k. rw lookup_fmap -Hv. unfold shown.
    rw (lookup_no_versions td ∅ k _ _ _ Hr). by rw lookup_empty.
  - unfold mbind, Q_bind. rw (snapshot_of tid sn s Hsn). cbn. eexists. split; [done|]. unfold resolve.
    rw (VersionStore.snapshot_resolved_spec _ _ _ _ _ Hr). apply merged_entries.
    intros k. rw lookup_fmap -Hv. unfold shown. rw (lookup_no_versions td vm k _ _ _ Hr) lookup_fmap.
    destruct (vm !! k) as [c|]; [|done]. cbn. by destruct (VersionStore.newest_visible _ _ _ c).
Qed.

Lemma visible_one td m txn rd vis k s :
  table_shows td m rd vis → reads_as txn rd s →
  read_visible_one td txn k s = Some (QOk (Tuple.serialize <$> vis !! k), s).
Proof.
  intros [Hi _ Hv _] Hrd. rw -Hv. unfold read_visible_one, shown, reads_as in *.
  destruct txn as [tid|], rd as [[tid' sn]|]; try done.
  - destruct Hrd as [<- Hsn]. unfold mbind, Q_bind. rw (snapshot_of tid sn s Hsn). cbn.
    destruct (VersionStore.lookup_for_read _ _ _ _ _); try done. unfold q_panic. by rw (kt_search_rep _ _ _ Hi).
  - unfold q_panic. by rw (kt_search_rep _ _ _ Hi).
Qed.

(** ** Loops *)

Section effects.
Context (who : option Z) (me : Reader).

(** A computation of the reader that gives a value and at most records reads. *)
Definition gives {A} (c : Q A) (a : A) : Prop := ∀ s, reads_as who me s → ∃ tm,
  c s = Some (QOk a, mkSession tm (pending s)) ∧ ∀ tid, Transaction.get_snapshot tid tm = Transaction.get_snapshot tid (txns s).

Lemma reads_same s tm b :
  reads_as who me s → (∀ tid, Transaction.get_snapshot tid tm = Transaction.get_snapshot tid (txns s)) →
  reads_as who me (mkSession tm b).
Proof. intros Hr Hs. destruct who as [tid|], me as [[tid' sn]|]; try done. cbn in *. by rw Hs. Qed.

Lemma return_gives {A} (a : A) : gives (mret a) a.
Proof. intros [tm b] _. by exists tm. Qed.

Lemma chain_gives {A B} (c : Q A) (f : A → Q B) a b : gives c a → gives (f a) b → gives (mbind f c) b.
Proof.
  intros Hc Hf s Hr. destruct (Hc s Hr) as (tm & Hs & Hsn).
  destruct (Hf (mkSession tm (pending s)) (reads_same s tm (pending s) Hr Hsn)) as (tm' & Hs' & Hsn').
  exists tm'. unfold mbind, Q_bind. rw Hs. cbn. rw Hs'. split; [done|]. intros tid. by rw Hsn' /= Hsn.
Qed.

Lemma gives_read txn table k : gives (ssi_read txn table k) ().
Proof.
  intros [tm b] _. destruct txn as [tid|]; cbn; [|by exists tm]. unfold update_txns. eexists. split; [done|].
  intros t. apply read_snapshot.
Qed.

Lemma gives_predicate txn table : gives (ssi_predicate txn table) ().
Proof.
  intros [tm b] _. destruct txn as [tid|]; cbn; [|by exists tm]. unfold update_txns. eexists. split; [done|].
  intros t. apply predicate_snapshot.
Qed.

(** At most [limit] rows, and at least one if there is one. *)
Definition limited (limit : option Z) (rows : list row) : list row :=
  match limit with Some lim => take (Z.to_nat (Z.max 1 lim)) rows | None => rows end.

(** Rows added one by one until the limit is reached. *)
Lemma limited_snoc limit (acc : list row) r rest :
  reached limit acc = false ∨ acc = [] →
  reached limit (acc ++ [r]) = true → limited limit ((acc ++ [r]) ++ rest) = acc ++ [r].
Proof.
  intros Ha Hr. destruct limit as [lim|]; [|done]. cbn in *. apply Z.leb_le in Hr. rw zlen_app zlen_cons zlen_nil in Hr.
  assert (Z.to_nat (Z.max 1 lim) = length (acc ++ [r])) as ->; [|by rw take_app_length].
  rw length_app. cbn [length]. destruct Ha as [Ha%Z.leb_gt| ->]; [|unfold zlen in *; cbn in *; lia].
  unfold zlen in *. lia.
Qed.

Lemma limited_below limit (acc : list row) : reached limit acc = false ∨ acc = [] → limited limit acc = acc.
Proof.
  intros Ha. destruct limit as [lim|]; [|done]. cbn in *. destruct Ha as [Ha%Z.leb_gt| ->]; [|by rw take_nil].
  apply take_ge. unfold zlen in Ha. lia.
Qed.

Lemma read_rows_gives (step : entry → Q (option row)) (f : entry → option row) limit entries acc :
  (∀ e, e ∈ entries → gives (step e) (f e)) → reached limit acc = false ∨ acc = [] →
  gives (read_rows step limit acc entries) (limited limit (acc ++ omap f entries)).
Proof.
  revert acc. induction entries as [|e entries IH]; intros acc Hst Ha; cbn [read_rows].
  { rw app_nil_r limited_below; [done|]. apply return_gives. }
  apply (chain_gives _ _ (f e)); [apply Hst; by left|]. rw list_omap_cons.
  assert (∀ e', e' ∈ entries → gives (step e') (f e')) as Hst' by (intros; apply Hst; by right).
  destruct (f e) as [r|]; [|by apply IH]. rw (cons_middle r acc (omap f entries)) (app_assoc acc [r] (omap f entries)).
  destruct (reached limit (acc ++ [r])) eqn:Hr.
  - rw (limited_snoc limit acc r (omap f entries) Ha Hr). apply return_gives.
  - apply IH; [done|by left].
Qed.
End effects.

(** ** Filters *)

(** The filter of a scan evaluates on every row the reader sees, without an
    error: [holds] says to what. *)
Definition decides td (filter : option Expr) (holds : row → bool) vis : Prop :=
  ∀ k vs b, vis !! k = Some vs →
    (match filter with Some f => eval_predicate (schema td) vs f | None => mret true end : E bool) b = Some (holds vs, b).

Definition kept (holds : row → bool) (vs : row) : option row := if holds vs then Some vs else None.

(** The rows a scan is to return, in some order. *)
Definition matching (holds : row → bool) vis : list row := omap (kept holds) (map_to_list vis).*2.

Section filtered.
Context td m (rd : Reader) vis (table : str) (filter : option Expr) (holds : row → bool).
Context (Hts : table_shows td m rd vis) (Hdec : decides td filter holds vis).

Lemma accept_gives who me txn k vs : vis !! k = Some vs → gives who me (accept_row table td filter txn (k, Tuple.serialize vs)) (kept holds vs).
Proof.
  intros Hk. unfold accept_row. cbn [fst snd]. rw (Scan.decode_stored vs (ts_stored _ _ _ _ Hts k vs Hk)).
  apply (chain_gives _ _ _ _ (holds vs)).
  - intros [tm b] _. exists tm. split; [|done]. unfold matches_filter, lift_eval, lift, ok. cbn [pending txns].
    by rw (Hdec k vs b Hk).
  - unfold kept. destruct (holds vs); [|apply return_gives]. apply (chain_gives _ _ _ _ ()); [apply gives_read|apply return_gives].
Qed.

Lemma txn_row_gives who me tid k vs :
  vis !! k = Some vs → Scan.comparable (Scan.fast_filter_of filter (schema td)) vs →
  gives who me (txn_row table td filter (Scan.fast_filter_of filter (schema td)) tid (k, Tuple.serialize vs)) (kept holds vs).
Proof.
  intros Hk Hc. pose proof (ts_stored _ _ _ _ Hts k vs Hk) as Hs. unfold txn_row. cbn [fst snd].
  destruct (Scan.raw_filter _ _) as [b|] eqn:Hr; [|by apply accept_gives].
  destruct (Scan.stored_skippable (Scan.fast_filter_of filter (schema td)) vs Hs) as (Hfit & Hlen & Hsk).
  destruct (Scan.raw_filter_decides (schema td) filter vs b Hfit Hlen Hsk Hc Hr) as (f & Hf & Hb).
  pose proof (Hdec k vs false Hk) as Hd. rw Hf Hb in Hd. simplify_eq. unfold kept. rw (Scan.decode_stored vs Hs).
  destruct (holds vs); [|apply return_gives]. apply (chain_gives _ _ _ _ ()); [apply gives_read|apply return_gives].
Qed.

(** The row an encoded entry stands for. *)
Definition entry_row (e : entry) : option row := Scan.decode_row e.2 ≫= kept holds.

Lemma entries_matching entries :
  entries ≡ₚ map_to_list (Tuple.serialize <$> vis) → omap entry_row entries ≡ₚ matching holds vis.
Proof.
  intros ->. unfold matching. rw map_to_list_fmap.
  assert (∀ l : list (list Z * row), (∀ k vs, (k, vs) ∈ l → vis !! k = Some vs) →
    omap entry_row (prod_map id Tuple.serialize <$> l) = omap (kept holds) l.*2) as ->; [|done|].
  - induction l as [|[k vs] l IH]; intros Hl; [done|]. rw !fmap_cons !list_omap_cons. unfold entry_row at 1. cbn [prod_map snd].
    rw (Scan.decode_stored vs); [apply (ts_stored _ _ _ _ Hts k), Hl; by left|]. cbn. rw IH; [|done].
    intros k' vs' Hin. apply Hl. by right.
  - intros k vs. by rw elem_of_map_to_list.
Qed.
End filtered.

(** ** Scans outside a transaction *)

Lemma push_rows_spec limit (step : list Z → E (option row)) (f : list Z → option row) (l : list entry) (acc : list row) (b : bool) :
  (∀ kv, kv ∈ l → ∀ b, step kv.2 b = Some (f kv.2, b)) → reached limit acc = false ∨ acc = [] →
  (BTree.visit_pairs (λ st _ data, push_row limit step st data) (Some (acc, b)) l).1 =
    Some (limited limit (acc ++ omap (λ kv : entry, f kv.2) l), b).
Proof.
  revert acc. induction l as [|[k d] l IH]; intros acc Hst Ha; cbn [BTree.visit_pairs].
  { cbn. by rw app_nil_r limited_below. }
  assert (∀ kv, kv ∈ l → ∀ b, step kv.2 b = Some (f kv.2, b)) as Hst' by (intros; apply Hst; by right).
  cbn [push_row]. rw (Hst (k, d)); [by left|]. rw list_omap_cons. cbn [snd]. destruct (f d) as [r|]; [|by apply IH].
  rw (cons_middle r acc (omap _ l)) (app_assoc acc [r] (omap _ l)).
  destruct (reached limit (acc ++ [r])) eqn:Hr; cbn [negb fst]; [by rw (limited_snoc limit acc r _ Ha Hr)|].
  apply IH; [done|by left].
Qed.

Lemma each_row_spec td m limit (step : list Z → E (option row)) (f : list Z → option row) b :
  kt_rep (index td) m → (∀ kv, kv ∈ sorted_pairs m → ∀ b, step kv.2 b = Some (f kv.2, b)) →
  each_row td limit step b = Some (limited limit (omap (λ kv : entry, f kv.2) (sorted_pairs m)), b).
Proof.
  intros Hi Hst. unfold each_row. rw (kt_for_each_rep _ _ _ _ Hi). cbn. apply (push_rows_spec limit step f _ [] b Hst). by right.
Qed.

Lemma scan_spec (step : list Z → E (option row)) (f : list Z → option row) datas b :
  (∀ d, d ∈ datas → ∀ b, step d b = Some (f d, b)) → Scan.scan step datas b = Some (omap f datas, b).
Proof.
  revert b. induction datas as [|d datas IH]; intros b Hst; [done|]. cbn [Scan.scan]. unfold mbind, E_bind.
  rw (Hst d); [by left|]. cbn. rw IH; [intros; apply Hst; by right|]. cbn. by destruct (f d).
Qed.

Lemma omap_values {A} (f : list Z → option A) (l : list entry) : omap f l.*2 = omap (λ kv : entry, f kv.2) l.
Proof. induction l as [|[k d] l IH]; [done|]. rw fmap_cons !list_omap_cons. cbn [snd]. by rw IH. Qed.

Section plain.
Context td m vis (filter : option Expr) (holds : row → bool).
Context (Hts : table_shows td m None vis) (Hdec : decides td filter holds vis).
Context (Hcmp : ∀ k vs, vis !! k = Some vs → Scan.comparable (Scan.fast_filter_of filter (schema td)) vs).
Context (Hraw : Scan.fast_filter_of filter (schema td) ≠ None →
                ∀ k vs, vis !! k = Some vs → holds vs = true → Scan.raw_filter (Scan.fast_filter_of filter (schema td)) (Tuple.serialize vs) ≠ None).

Lemma plain_map : m = Tuple.serialize <$> vis.
Proof. apply map_eq. intros k. by rw lookup_fmap -(ts_rows _ _ _ _ Hts). Qed.

Lemma entry_of kv : kv ∈ sorted_pairs m → ∃ vs, vis !! kv.1 = Some vs ∧ kv.2 = Tuple.serialize vs ∧ Scan.stored vs.
Proof.
  destruct kv as [k d]. rw elem_of_sorted_pairs plain_map lookup_fmap. intros (vs & Hk & ->)%fmap_Some.
  exists vs. split_and!; try done. by apply (ts_stored _ _ _ _ Hts k).
Qed.

Definition data_row (d : list Z) : option row := Scan.decode_row d ≫= kept holds.

Lemma slow_gives kv b : kv ∈ sorted_pairs m → Scan.slow_row None (schema td) filter kv.2 b = Some (data_row kv.2, b).
Proof.
  intros (vs & Hk & -> & Hs)%entry_of. unfold Scan.slow_row, data_row, Scan.decode_needed. rw (Scan.decode_stored vs Hs).
  unfold mbind, E_bind. by rw (Hdec kv.1 vs b Hk).
Qed.

Lemma parallel_gives kv b :
  kv ∈ sorted_pairs m →
  Scan.parallel_row None (schema td) filter (Scan.fast_filter_of filter (schema td)) kv.2 b = Some (data_row kv.2, b).
Proof.
  intros Hin. rw -(slow_gives kv b Hin). destruct (entry_of kv Hin) as (vs & Hk & -> & Hs).
  destruct (Scan.stored_skippable (Scan.fast_filter_of filter (schema td)) vs Hs) as (Hfit & Hlen & Hsk).
  apply Scan.parallel_row_slow; [done..|]. by apply (Hcmp kv.1).
Qed.

Lemma serial_gives kv b :
  kv ∈ sorted_pairs m →
  Scan.serial_row None (schema td) filter (Scan.fast_filter_of filter (schema td)) kv.2 b = Some (data_row kv.2, b).
Proof.
  intros Hin. pose proof (parallel_gives kv b Hin) as Hp. destruct (entry_of kv Hin) as (vs & Hk & Hkv & Hs). rw Hkv in Hp |- *.
  unfold Scan.serial_row, Scan.parallel_row in *. destruct (Scan.fast_filter_of filter (schema td)) as [f|] eqn:Hf; [|done].
  destruct (Scan.raw_filter (Some f) _) as [[]|] eqn:Hr; [done|done|].
  unfold data_row, kept. rw (Scan.decode_stored vs Hs). cbn [mbind option_bind].
  destruct (holds vs) eqn:Hh; [|done]. by destruct (Hraw ltac:(done) kv.1 vs Hk Hh).
Qed.

Lemma all_gives kv b : filter = None → kv ∈ sorted_pairs m → (mret (Tuple.deserialize_to_vec kv.2) : E (option row)) b = Some (data_row kv.2, b).
Proof.
  intros Hf Hin. rw -(slow_gives kv b Hin). destruct (entry_of kv Hin) as (vs & Hk & -> & Hs). unfold Scan.slow_row.
  pose proof (Scan.decode_stored vs Hs) as Hd. unfold Scan.decode_needed. rw Hd Hf. unfold Scan.decode_row, Tuple.deserialize in Hd. by rw Hd.
Qed.

Lemma plain_scan_spec limit b :
  plain_scan td filter limit None b = Some (limited limit (omap (entry_row holds) (sorted_pairs m)), b).
Proof.
  pose proof (ts_index _ _ _ _ Hts) as Hi. unfold plain_scan.
  destruct (bool_decide (limit = None) && _ && _) eqn:Hp.
  - destruct (kt_leaf_values_rep _ _ Hi) as (ls & Hls & Hj). unfold mbind, E_bind, panic_or. rw Hls. unfold mbind, option_bind.
    apply andb_true_iff in Hp as [[->%bool_decide_eq_true _]%andb_true_iff _]. unfold Scan.parallel_scan. rw Hj. cbn [limited].
    rw (scan_spec _ data_row); [|by rw omap_values].
    intros d (kv & -> & Hin)%list_elem_of_fmap b'. by apply parallel_gives.
  - assert (∀ lim, each_row td lim (Scan.slow_row None (schema td) filter) b =
      Some (limited lim (omap (entry_row holds) (sorted_pairs m)), b)) as Hslow.
    { intros lim. apply (each_row_spec td m lim _ data_row b Hi). intros. by apply slow_gives. }
    pose proof (each_row_spec td m limit _ data_row b Hi (λ kv Hin b, serial_gives kv b Hin)) as Hser.
    pose proof (λ Hf, each_row_spec td m None (λ data, mret (Tuple.deserialize_to_vec data)) data_row b Hi (λ kv Hin b, all_gives kv b Hf Hin)) as Hall. clear Hcmp Hraw Hdec.
    destruct (Scan.fast_filter_of filter (schema td)) as [ff|]; [exact Hser|].
    destruct filter as [e|]; [apply Hslow|]. destruct limit as [lim|]; [apply Hslow|]. by apply Hall.
Qed.
End plain.

(** ** The primary key *)

(** [pk = literal] of a filter: the place of the column and the literal. *)
Definition pk_equality td (filter : option Expr) : option (nat * LiteralValue) :=
  match filter, Schema.primary_key_columns (schema td) with
  | Some (BinaryOp (Column n) OpEq (Literal lit)), [i] | Some (BinaryOp (Literal lit) OpEq (Column n)), [i] =>
      c ← Schema.columns (schema td) !! i;
      if bool_decide (key_of n = Schema.col_name c) then Some (i, lit) else None
  | _, _ => None
  end.

Lemma pk_lookup_equality td filter :
  try_pk_lookup filter (schema td) = (λ p : nat * LiteralValue, literal_to_key_bytes p.2) <$> pk_equality td filter.
Proof.
  unfold try_pk_lookup, single_pk, pk_equality. destruct filter as [f|]; [|done]. cbn [mbind option_bind].
  destruct (Schema.primary_key_columns (schema td)) as [|i [|]]; cbn [mbind option_bind].
  1, 3: destruct f as [| | |[] [] []| | | | | | | | | | | | | | |]; done.
  destruct (Schema.columns (schema td) !! i) as [c|]; cbn [fmap option_fmap option_map mbind option_bind].
  2: destruct f as [| | |[] [] []| | | | | | | | | | | | | | |]; done.
  destruct f as [| | |[] [] []| | | | | | | | | | | | | | |]; try done; by case_bool_decide.
Qed.

(** A value of a key column and a literal that the code can compare by their
    bytes: of one type with one encoding per value, or the literal NULL. *)
Definition same_kind (v l : V) : Prop :=
  match v, l with
  | Int64 _, Int64 _ | Text _, Text _ | Bool _, Bool _ | Bytes _, Bytes _ => value_ok l ∧ Tuple.fits l
  | Null, _ => False
  | _, Null => True
  | _, _ => False
  end.

Lemma same_kind_eq (v l : V) :
  same_kind v l → ∃ t, tri_compare OpEq v l = Some t ∧ tri_compare OpEq l v = Some t ∧ (default false t = true ↔ v = l).
Proof.
  destruct v as [|x|x| |x|x| | | | | |], l as [|y|y| |y|y| | | | | |]; try done; cbn; intros _; eexists; (split; [done|]); split; try done.
  - by destruct x, y.
  - by destruct x, y.
  - by rw (Z.compare_antisym x y); destruct (x ?= y).
  - cbn. destruct (x ?= y) eqn:Hb; [apply Z.compare_eq in Hb as ->; done|..]; (split; [done|]); intros [= ->]; by rw Z.compare_refl in Hb.
  - by rw bcmp_antisym; destruct (bcmp x y).
  - cbn. destruct (bcmp x y) eqn:Hb; [apply bcmp_eq in Hb as ->; done|..]; (split; [done|]); intros [= ->]; by rw bcmp_refl in Hb.
  - by rw bcmp_antisym; destruct (bcmp x y).
  - cbn. destruct (bcmp x y) eqn:Hb; [apply bcmp_eq in Hb as ->; done|..]; (split; [done|]); intros [= ->]; by rw bcmp_refl in Hb.
Qed.

Lemma encode_value_inj (v w : V) :
  value_ok v → Tuple.fits v → value_ok w → Tuple.fits w → Tuple.encode_value v = Tuple.encode_value w → v = w.
Proof.
  intros Hv Hfv Hw Hfw Heq.
  assert (Tuple.decode_value (Tuple.encode_value v) (zlen ([] : list Z)) = Some (v, zlen ([] : list Z) + zlen (Tuple.encode_value v))) as Hdv.
  { apply (Tuple.decode_encode_value v _ [] []); [done..|]. by rw app_nil_r. }
  assert (Tuple.decode_value (Tuple.encode_value v) (zlen ([] : list Z)) = Some (w, zlen ([] : list Z) + zlen (Tuple.encode_value w))) as Hdw.
  { apply (Tuple.decode_encode_value w _ [] []); [done..|]. by rw app_nil_r. }
  congruence.
Qed.

(** The rows are stored under the bytes of their primary keys. *)
Definition keyed td vis : Prop := ∀ k vs, vis !! k = Some vs → k = Tuple.key_bytes vs (Schema.primary_key_columns (schema td)).

(** A comparison with the primary key is one of values of the same kind. *)
Definition pk_typed td (filter : option Expr) vis : Prop :=
  ∀ i lit, pk_equality td filter = Some (i, lit) →
    (∀ c, Schema.columns (schema td) !! i = Some c → Schema.column_index (schema td) (Schema.col_name c) = Some i) ∧
    ∀ k vs, vis !! k = Some vs → ∃ v, vs !! i = Some v ∧ same_kind v (eval_literal lit).

Lemma pk_equality_inv td filter i lit :
  pk_equality td filter = Some (i, lit) →
  Schema.primary_key_columns (schema td) = [i] ∧ ∃ n c, Schema.columns (schema td) !! i = Some c ∧ key_of n = Schema.col_name c ∧
    (filter = Some (BinaryOp (Column n) OpEq (Literal lit)) ∨ filter = Some (BinaryOp (Literal lit) OpEq (Column n))).
Proof.
  unfold pk_equality. destruct filter as [f|]; [|done].
  destruct f as [| | |[lit'|name| | | | | | | | | | | | | | | | |] [] [lit''|name'| | | | | | | | | | | | | | | | |]| | | | | | | | | | | | | | |]; try done;
    (destruct (Schema.primary_key_columns (schema td)) as [|i' [|]]; try done);
    (destruct (Schema.columns (schema td) !! i') as [c|] eqn:Hc; [|done]); cbn; case_bool_decide as Hn; try done; intros [= <- <-];
    (split; [done|]).
  - exists name', c. split_and!; try done. by right.
  - exists name, c. split_and!; try done. by left.
Qed.

Lemma pk_holds td m rd vis filter holds i lit k vs :
  table_shows td m rd vis → decides td filter holds vis → keyed td vis → pk_typed td filter vis →
  pk_equality td filter = Some (i, lit) → vis !! k = Some vs → holds vs = true ↔ k = literal_to_key_bytes lit.
Proof.
  intros Hts Hdec Hkey Htyp Hpk Hk. destruct (Htyp i lit Hpk) as [Hcol Hval]. destruct (Hval k vs Hk) as (v & Hv & Hsk).
  destruct (pk_equality_inv td filter i lit Hpk) as (Hpks & n & c & Hc & Hn & Hf). rw (Hkey k vs Hk) Hpks.
  destruct (same_kind_eq v (eval_literal lit) Hsk) as (t & Ht & Ht' & Hiff).
  assert (column_value (schema td) vs n = Some v) as Hcv.
  { apply (Scan.column_lookup (schema td) vs n i v); [|done]. rw Hn. by apply Hcol. }
  assert (holds vs = default false t) as ->.
  { pose proof (Hdec k vs false Hk) as Hd.
    destruct Hf as [-> | ->]; unfold eval_predicate, mbind, E_bind in Hd; cbn [eval_predicate_tri eval_value] in Hd;
      unfold mbind, E_bind, mret, E_ret, panic_or in Hd; cbn -[tri_compare] in Hd; rw Hcv /= in Hd;
      [rw Ht in Hd|rw Ht' in Hd]; cbn in Hd; congruence. }
  rw Hiff. unfold literal_to_key_bytes, Tuple.key_bytes. cbn. rw Hv !app_nil_r.
  destruct (ts_stored _ _ _ _ Hts k vs Hk) as ((Hok & Hfit) & _). rw !Forall_lookup in Hok, Hfit.
  split; [by intros ->|]. intros Heq.
  apply encode_value_inj; [by apply (Hok i)|by apply (Hfit i)|..|done];
    destruct v, (eval_literal lit); cbn in Hsk |- *; try done; by destruct Hsk.
Qed.

(** One row at most has the key. *)
Lemma matching_key holds vis key :
  (∀ k vs, vis !! k = Some vs → holds vs = true ↔ k = key) → option_list (vis !! key) ≡ₚ matching holds vis.
Proof.
  intros Hh. assert (∀ l : list (list Z * row), (∀ k vs, (k, vs) ∈ l → holds vs = false) → omap (kept holds) l.*2 = []) as Hnil.
  { induction l as [|[k vs] l IH]; intros Hl; [done|]. rw fmap_cons list_omap_cons. unfold kept at 1. cbn [snd].
    rw (Hl k vs); [by left|]. apply IH. intros k' vs' Hin. apply (Hl k'). by right. }
  assert (∀ k vs, vis !! k = Some vs → k ≠ key → holds vs = false) as Hne.
  { intros k vs Hk Hn. destruct (holds vs) eqn:Hv; [|done]. by apply (Hh k vs Hk) in Hv. }
  unfold matching. destruct (vis !! key) as [vs|] eqn:Hk; cbn [option_list].
  - rw -(map_to_list_delete vis key vs Hk) fmap_cons list_omap_cons. unfold kept at 1. cbn [snd].
    rw (proj2 (Hh key vs Hk) eq_refl). rw Hnil; [|done]. intros k' vs' [Hn Hk']%elem_of_map_to_list%lookup_delete_Some. apply (Hne k'); congruence.
  - rw Hnil; [|done]. intros k' vs' Hin%elem_of_map_to_list. apply (Hne k'); congruence.
Qed.

(** ** Scans *)

(** What a scan needs. The filter evaluates on every row; it does not compare a
    timestamp column with an integer. If it is an equality on a single primary key
    column, the rows are stored under their primary keys and the literal is of the
    type of the key. Outside a transaction, where the sequential scan drops a row
    that the encoded comparison leaves undecided, a filter that is evaluated on
    encoded rows is decided there on the rows it holds for. Inside a transaction the filter is
    not a pair of bounds on the primary key, which is read from the tree alone. *)
Record scan_ok td (rd : Reader) vis (filter : option Expr) (holds : row → bool) : Prop := {
  so_decides : decides td filter holds vis;
  so_comparable : ∀ k vs, vis !! k = Some vs → Scan.comparable (Scan.fast_filter_of filter (schema td)) vs;
  so_keyed : pk_equality td filter ≠ None → keyed td vis;
  so_typed : pk_typed td filter vis;
  so_raw : rd = None → Scan.fast_filter_of filter (schema td) ≠ None →
           ∀ k vs, vis !! k = Some vs → holds vs = true → Scan.raw_filter (Scan.fast_filter_of filter (schema td)) (Tuple.serialize vs) ≠ None;
  so_range : rd ≠ None → try_pk_range filter (schema td) = None;
}.

Lemma limited_one limit (rows : list row) : (length rows ≤ 1)%nat → limited limit rows = rows.
Proof. intros Hl. destruct limit as [lim|]; [|done]. apply take_ge. lia. Qed.

Lemma lookup_gives td m txn rd vis filter holds key s :
  table_shows td m rd vis → scan_ok td rd vis filter holds → reads_as txn rd s → try_pk_lookup filter (schema td) = Some key →
  option_list (vis !! key) ≡ₚ matching holds vis ∧
  option_list ((Tuple.serialize <$> vis !! key) ≫= Scan.decode_row) = option_list (vis !! key).
Proof.
  intros Hts Hso Hrd Hpk. rw pk_lookup_equality in Hpk. apply fmap_Some in Hpk as ([i lit] & Hpk & ->). split.
  - apply matching_key. intros k vs Hk.
    exact (pk_holds td m rd vis filter holds i lit k vs Hts (so_decides _ _ _ _ _ Hso) (so_keyed _ _ _ _ _ Hso ltac:(congruence)) (so_typed _ _ _ _ _ Hso) Hpk Hk).
  - destruct (vis !! _) as [vs|] eqn:Hk; [|done]. cbn [fmap option_fmap option_map mbind option_bind].
    by rw (Scan.decode_stored vs (ts_stored _ _ _ _ Hts _ _ Hk)).
Qed.

Lemma scan_rows_spec td m txn rd vis table filter holds limit s :
  table_shows td m rd vis → scan_ok td rd vis filter holds → reads_as txn rd s →
  ∃ all tm, scan_rows table td filter txn limit None s = Some (QOk (limited limit all), mkSession tm (pending s)) ∧
    all ≡ₚ matching holds vis ∧ ∀ tid, Transaction.get_snapshot tid tm = Transaction.get_snapshot tid (txns s).
Proof.
  intros Hts Hso Hrd. unfold scan_rows. destruct (try_pk_lookup filter (schema td)) as [key|] eqn:Hpk.
  - destruct (lookup_gives td m txn rd vis filter holds key s Hts Hso Hrd Hpk) as [Hperm Hrows].
    exists (option_list (vis !! key)). rw limited_one; [destruct (vis !! key); cbn; lia|].
    destruct txn as [tid|], rd as [[tid' sn]|]; try done.
    + destruct Hrd as [<- Hsn]. destruct (gives_read None None (Some tid) table key s I) as (tm & Hs & Hsame). exists tm.
      unfold mbind, Q_bind. rw Hs. cbn [mbind option_bind].
      rw (visible_one td m (Some tid) (Some (tid, sn)) vis key (mkSession tm (pending s)) Hts); [split; [done|]; by rw Hsame|].
      cbn. by rw Hrows.
    + exists (txns s). unfold mbind, Q_bind, q_panic. rw (kt_search_rep _ _ _ (ts_index _ _ _ _ Hts)). cbn.
      rw (ts_rows _ _ _ _ Hts key : m !! key = _). rw Hrows. by destruct s.
  - destruct txn as [tid|], rd as [[tid' sn]|]; try done.
    + rw (so_range _ _ _ _ _ Hso ltac:(done)). destruct Hrd as [<- Hsn].
      destruct (gives_predicate None None (Some tid) table s I) as (tm & Hs & Hsame). unfold mbind, Q_bind. rw Hs. cbn [mbind option_bind].
      destruct (visible_entries td m tid sn vis (mkSession tm (pending s)) Hts) as (entries & He & Hperm); [by rw Hsame|].
      rw He. cbn [mbind option_bind].
      destruct (read_rows_gives None None (txn_row table td filter (Scan.fast_filter_of filter (schema td)) tid) (entry_row holds) limit entries []
        ) with (s := mkSession tm (pending s)) as (tm' & Hr & Hsame'); [|by right|done|].
      * intros [k d]. rw Hperm elem_of_map_to_list lookup_fmap. intros (vs & Hk & ->)%fmap_Some.
        unfold entry_row. cbn [snd]. rw (Scan.decode_stored vs (ts_stored _ _ _ _ Hts k vs Hk)). cbn [mbind option_bind].
        by apply (txn_row_gives td m (Some (tid, sn)) vis table filter holds Hts (so_decides _ _ _ _ _ Hso) None None tid k vs Hk), (so_comparable _ _ _ _ _ Hso k).
      * exists (omap (entry_row holds) entries), tm'. split; [exact Hr|]. split; [|intros t; by rw Hsame' /= Hsame].
        by apply (entries_matching td m (Some (tid, sn)) vis holds Hts).
    + exists (omap (entry_row holds) (sorted_pairs m)), (txns s). unfold lift_eval, lift, ok.
      rw (plain_scan_spec td m vis filter holds Hts (so_decides _ _ _ _ _ Hso) (so_comparable _ _ _ _ _ Hso) (so_raw _ _ _ _ _ Hso eq_refl)).
      split; [done|]. split; [|done]. apply (entries_matching td m None vis holds Hts).
      by rw -(plain_map td m vis Hts) sorted_pairs_perm.
Qed.
End spec.
End TableSpec.
