(* ===== verification/Subquery.v ===== *)
(** Rewriting of names in queries, of [bytedb-query/src/executor/engine.rs]:
    table aliases become table names before planning, and the columns of the outer
    row become literals in a correlated subquery. A subquery that names no table
    of an outer query is evaluated once per statement; [subquery_per_row]
    says when that is sound, [own_table_captured] is a query for which it is not. *)
From S2P Require Import Prelude ByteOrder Value OrderKey Civil Literals Schema Tuple Sql Lexer Like Strings Float64 Eval.
Import Value OrderKey Sql Like Strings Eval.

Module Subquery.

(** ** Aliases *)

Fixpoint rewrite_expr_aliases (expr : Expr) (alias_map : gmap str str) : Expr :=
  match expr with
  | QualifiedColumn table col =>
      match alias_map !! table with Some real_table => QualifiedColumn real_table col | None => expr end
  | BinaryOp l op r => BinaryOp (rewrite_expr_aliases l alias_map) op (rewrite_expr_aliases r alias_map)
  | Unary op inner => Unary op (rewrite_expr_aliases inner alias_map)
  | Function name args => Function name (map (λ a, rewrite_expr_aliases a alias_map) args)
  | IsNull inner => IsNull (rewrite_expr_aliases inner alias_map)
  | IsNotNull inner => IsNotNull (rewrite_expr_aliases inner alias_map)
  | InList inner l => InList (rewrite_expr_aliases inner alias_map) (map (λ e, rewrite_expr_aliases e alias_map) l)
  | Between inner low high =>
      Between (rewrite_expr_aliases inner alias_map) (rewrite_expr_aliases low alias_map) (rewrite_expr_aliases high alias_map)
  | Case operand when_clauses else_result =>
      Case (option_map (λ o, rewrite_expr_aliases o alias_map) operand)
        (map (λ '(w, t), (rewrite_expr_aliases w alias_map, rewrite_expr_aliases t alias_map)) when_clauses)
        (option_map (λ e, rewrite_expr_aliases e alias_map) else_result)
  | Cast inner data_type => Cast (rewrite_expr_aliases inner alias_map) data_type
  | Subquery s => Subquery (rewrite_subquery_aliases s alias_map)
  | ExistsQuery s => ExistsQuery (rewrite_subquery_aliases s alias_map)
  | InSubquery inner subquery => InSubquery (rewrite_expr_aliases inner alias_map) (rewrite_subquery_aliases subquery alias_map)
  | WindowFunction _ _ _ _ | DefaultExpr | IntervalLit _ | Literal _ | Column _ | JsonPath _ => expr
  end
with rewrite_subquery_aliases (select : SelectStmt) (parent_map : gmap str str) : SelectStmt :=
  match select with
  | mkSelect columns distinct from from_alias joins where_clause group_by having order_by limit offset ctes =>
      let remove (m : gmap str str) (alias : option str) := match alias with Some a => delete a m | None => m end in
      let map' := fold_left (λ m '(mkJoin _ _ alias _), remove m alias) joins (remove parent_map from_alias) in
      if bool_decide (map' = ∅) then select
      else
        mkSelect
          (map (λ c, match c with SelectExpr e al => SelectExpr (rewrite_expr_aliases e map') al | SelectStar => c end) columns)
          distinct
          (match from with FromSubquery inner => FromSubquery (rewrite_subquery_aliases inner map') | _ => from end)
          from_alias
          (map (λ '(mkJoin jt t al c), mkJoin jt t al (rewrite_expr_aliases c map')) joins)
          (option_map (λ e, rewrite_expr_aliases e map') where_clause)
          (map (λ e, rewrite_expr_aliases e map') group_by)
          (option_map (λ e, rewrite_expr_aliases e map') having)
          (map (λ '(mkOrderBy e a n), mkOrderBy (rewrite_expr_aliases e map') a n) order_by)
          limit offset ctes
  end.

(** The aliases of the tables of a query. *)
Definition alias_map (from : FromClause) (from_alias : option str) (joins : list JoinClause) : gmap str str :=
  let first := match from, from_alias with FromTable table, Some alias => <[alias := table]> ∅ | _, _ => ∅ end in
  fold_left (λ m '(mkJoin _ table alias _), match alias with Some a => <[a := table]> m | None => m end) joins first.

Definition rewrite_aliases (stmt : Statement) : Statement :=
  match stmt with
  | Select (mkSelect columns distinct from from_alias joins where_clause group_by having order_by limit offset ctes as select) =>
      let m := alias_map from from_alias joins in
      if bool_decide (m = ∅) then Select select
      else
        Select (mkSelect
          (map (λ c, match c with SelectExpr e al => SelectExpr (rewrite_expr_aliases e m) al | SelectStar => c end) columns)
          distinct from from_alias
          (map (λ '(mkJoin jt t al c), mkJoin jt t al (rewrite_expr_aliases c m)) joins)
          (option_map (λ e, rewrite_expr_aliases e m) where_clause)
          (map (λ e, rewrite_expr_aliases e m) group_by)
          (option_map (λ e, rewrite_expr_aliases e m) having)
          (map (λ '(mkOrderBy e a n), mkOrderBy (rewrite_expr_aliases e m) a n) order_by)
          limit offset ctes)
  | other => other
  end.

(** ** Correlated subqueries *)

Section correlated.
Context {J : Type} `{!JsonShow J}.
Local Abbreviation V := (Value J).
Local Abbreviation Schema := (Schema.Schema (J := J)).

Definition value_to_literal_expr (v : V) : option Expr :=
  Literal <$> match v with
  | Int64 n => Some (Integer n)
  | Float64 f => Some (Float f)
  | Text s => Some (LString (utf8_chars s))
  | Bool b => Some (LBool b)
  | Null => Some LNull
  | Bytes b => Some (LHexBlob b)
  | Date d => LString <$> Civil.format_date d
  | Timestamp t => LString <$> Civil.format_timestamp t
  | Uuid u => Some (LString (Literals.format_uuid u))
  | Decimal m s => Some (LString (Literals.format_decimal m s))
  | Json j => Some (LString (utf8_chars (json_to_string j)))
  | Interval us => Some (Integer us)
  end.

Section row.
Context (outer_table : str) (tuple : list V) (schema : Schema).

(** [None] is the panic of formatting a date out of range. *)
Fixpoint rewrite_expr_correlated (expr : Expr) : option Expr :=
  match expr with
  | QualifiedColumn t c =>
      if eq_ignore_ascii_case t outer_table then
        match Schema.column_index schema (key_of c) with
        | Some idx => value_to_literal_expr (default Null (tuple !! idx))
        | None => Some expr
        end
      else Some expr
  | BinaryOp l op r => l ← rewrite_expr_correlated l; r ← rewrite_expr_correlated r; Some (BinaryOp l op r)
  | Unary op e => e ← rewrite_expr_correlated e; Some (Unary op e)
  | Function name args => args ← mapM rewrite_expr_correlated args; Some (Function name args)
  | IsNull e => e ← rewrite_expr_correlated e; Some (IsNull e)
  | IsNotNull e => e ← rewrite_expr_correlated e; Some (IsNotNull e)
  | InList e l => e ← rewrite_expr_correlated e; l ← mapM rewrite_expr_correlated l; Some (InList e l)
  | Between e low high =>
      e ← rewrite_expr_correlated e; low ← rewrite_expr_correlated low; high ← rewrite_expr_correlated high;
      Some (Between e low high)
  | Case operand when_clauses else_result =>
      o ← match operand with Some o => o ← rewrite_expr_correlated o; Some (Some o) | None => Some None end;
      ws ← mapM (λ '(w, t), w ← rewrite_expr_correlated w; t ← rewrite_expr_correlated t; Some (w, t)) when_clauses;
      els ← match else_result with Some e => e ← rewrite_expr_correlated e; Some (Some e) | None => Some None end;
      Some (Case o ws els)
  | Cast e dt => e ← rewrite_expr_correlated e; Some (Cast e dt)
  | Subquery s => s ← rewrite_select_correlated s; Some (Subquery s)
  | ExistsQuery s => s ← rewrite_select_correlated s; Some (ExistsQuery s)
  | InSubquery e s => e ← rewrite_expr_correlated e; s ← rewrite_select_correlated s; Some (InSubquery e s)
  | Literal _ | Column _ | JsonPath _ | WindowFunction _ _ _ _ | DefaultExpr | IntervalLit _ => Some expr
  end
with rewrite_select_correlated (stmt : SelectStmt) : option SelectStmt :=
  match stmt with
  | mkSelect columns distinct from from_alias joins where_clause group_by having order_by limit offset ctes =>
      columns ← mapM (λ c, match c with SelectExpr e al => e ← rewrite_expr_correlated e; Some (SelectExpr e al) | SelectStar => Some c end) columns;
      where_clause ← match where_clause with Some w => w ← rewrite_expr_correlated w; Some (Some w) | None => Some None end;
      joins ← mapM (λ '(mkJoin jt t al c), c ← rewrite_expr_correlated c; Some (mkJoin jt t al c)) joins;
      group_by ← mapM rewrite_expr_correlated group_by;
      having ← match having with Some h => h ← rewrite_expr_correlated h; Some (Some h) | None => Some None end;
      order_by ← mapM (λ '(mkOrderBy e a n), e ← rewrite_expr_correlated e; Some (mkOrderBy e a n)) order_by;
      from ← match from with FromSubquery s => s ← rewrite_select_correlated s; Some (FromSubquery s) | _ => Some from end;
      Some (mkSelect columns distinct from from_alias joins where_clause group_by having order_by limit offset ctes)
  end.
End row.

Definition correlate_subquery (subquery : SelectStmt) (tuple : list V) (schema : Schema) : option SelectStmt :=
  let table := utf8_chars (chars (Schema.table_name schema)) in
  if bool_decide (table = []) then Some subquery else rewrite_select_correlated table tuple schema subquery.
End correlated.

(** ** Subqueries that depend on no outer row *)

Definition lower (s : str) : str := to_ascii_lowercase <$> s.

(** The names of the tables in a query, added to those in [out]. *)
Fixpoint collect_scope_tables (stmt : SelectStmt) (out : gset str) : gset str :=
  match stmt with
  | mkSelect columns _ from from_alias joins where_clause group_by having order_by _ _ ctes =>
      let out := match from with
                 | FromTable t => {[lower t]} ∪ out
                 | FromSubquery s => collect_scope_tables s out
                 | FromNone => out
                 end in
      let out := match from_alias with Some a => {[lower a]} ∪ out | None => out end in
      let out := fold_left (λ out '(mkJoin _ table alias condition),
        let out := {[lower table]} ∪ out in
        let out := match alias with Some a => {[lower a]} ∪ out | None => out end in
        collect_expr_scope_tables condition out) joins out in
      let out := fold_left (λ out '(mkCte name query), collect_scope_tables query ({[lower name]} ∪ out)) ctes out in
      let out := fold_left (λ out c, match c with SelectExpr e _ => collect_expr_scope_tables e out | SelectStar => out end) columns out in
      let out := match where_clause with Some w => collect_expr_scope_tables w out | None => out end in
      let out := fold_left (λ out g, collect_expr_scope_tables g out) group_by out in
      let out := match having with Some h => collect_expr_scope_tables h out | None => out end in
      fold_left (λ out '(mkOrderBy e _ _), collect_expr_scope_tables e out) order_by out
  end
with collect_expr_scope_tables (e : Expr) (out : gset str) : gset str :=
  match e with
  | Subquery s | ExistsQuery s => collect_scope_tables s out
  | InSubquery e s => collect_scope_tables s (collect_expr_scope_tables e out)
  | BinaryOp l _ r => collect_expr_scope_tables r (collect_expr_scope_tables l out)
  | Unary _ e | IsNull e | IsNotNull e | Cast e _ => collect_expr_scope_tables e out
  | Function _ args => fold_left (λ out a, collect_expr_scope_tables a out) args out
  | InList e l => fold_left (λ out x, collect_expr_scope_tables x out) l (collect_expr_scope_tables e out)
  | Between e low high => collect_expr_scope_tables high (collect_expr_scope_tables low (collect_expr_scope_tables e out))
  | Case operand when_clauses else_result =>
      let out := match operand with Some o => collect_expr_scope_tables o out | None => out end in
      let out := fold_left (λ out '(w, t), collect_expr_scope_tables t (collect_expr_scope_tables w out)) when_clauses out in
      match else_result with Some e => collect_expr_scope_tables e out | None => out end
  | WindowFunction _ args partition_by order_by =>
      let out := fold_left (λ out a, collect_expr_scope_tables a out) args out in
      let out := fold_left (λ out p, collect_expr_scope_tables p out) partition_by out in
      fold_left (λ out '(mkOrderBy e _ _), collect_expr_scope_tables e out) order_by out
  | Literal _ | Column _ | QualifiedColumn _ _ | JsonPath _ | DefaultExpr | IntervalLit _ => out
  end.

Section scope.
Context (scope : gset str).

Fixpoint select_qualcols_in_scope (stmt : SelectStmt) : bool :=
  match stmt with
  | mkSelect columns _ from _ joins where_clause group_by having order_by _ _ ctes =>
      forallb (λ c, match c with SelectExpr e _ => expr_qualcols_in_scope e | SelectStar => true end) columns
      && match where_clause with Some w => expr_qualcols_in_scope w | None => true end
      && forallb (λ '(mkJoin _ _ _ c), expr_qualcols_in_scope c) joins
      && forallb expr_qualcols_in_scope group_by
      && match having with Some h => expr_qualcols_in_scope h | None => true end
      && forallb (λ '(mkOrderBy e _ _), expr_qualcols_in_scope e) order_by
      && match from with FromSubquery s => select_qualcols_in_scope s | _ => true end
      && forallb (λ '(mkCte _ q), select_qualcols_in_scope q) ctes
  end
with expr_qualcols_in_scope (e : Expr) : bool :=
  match e with
  | QualifiedColumn t _ => bool_decide (lower t ∈ scope)
  | Subquery s | ExistsQuery s => select_qualcols_in_scope s
  | InSubquery e s => expr_qualcols_in_scope e && select_qualcols_in_scope s
  | BinaryOp l _ r => expr_qualcols_in_scope l && expr_qualcols_in_scope r
  | Unary _ e | IsNull e | IsNotNull e | Cast e _ => expr_qualcols_in_scope e
  | Function _ args => forallb expr_qualcols_in_scope args
  | InList e l => expr_qualcols_in_scope e && forallb expr_qualcols_in_scope l
  | Between e low high => expr_qualcols_in_scope e && expr_qualcols_in_scope low && expr_qualcols_in_scope high
  | Case operand when_clauses else_result =>
      match operand with Some o => expr_qualcols_in_scope o | None => true end
      && forallb (λ '(w, t), expr_qualcols_in_scope w && expr_qualcols_in_scope t) when_clauses
      && match else_result with Some e => expr_qualcols_in_scope e | None => true end
  | WindowFunction _ args partition_by order_by =>
      forallb expr_qualcols_in_scope args && forallb expr_qualcols_in_scope partition_by
      && forallb (λ '(mkOrderBy e _ _), expr_qualcols_in_scope e) order_by
  | Literal _ | Column _ | JsonPath _ | DefaultExpr | IntervalLit _ => true
  end.
End scope.

Definition subquery_is_constant (stmt : SelectStmt) : bool := select_qualcols_in_scope (collect_scope_tables stmt ∅) stmt.

(** ** The rows of a subquery *)

Section rows.
Context {J : Type} `{!JsonShow J}.
Local Abbreviation rows := (list (list (Value J))).
(** [run]: the rows that executing a query gives inside the transaction given. *)
Context (run : option Z → SelectStmt → rows).

(** The cache of a statement, by the addresses of the subqueries in its tree,
    and the thread's [CURRENT_TXN_ID]. *)
Record SubState : Type := mkSub { subquery_cache : gmap Z rows; current_txn_id : option Z }.

(** [execute] sets the thread's transaction and leaves it empty. *)
Definition run_subquery (sq : SelectStmt) (st : SubState) : rows * SubState :=
  (run (current_txn_id st) sq, mkSub (subquery_cache st) None).

Definition eval_subquery_rows (depth0 : bool) (key : Z) (subquery : SelectStmt) (schema : Schema.Schema (J := J))
    (tuple : list (Value J)) (st : SubState) : option (rows * SubState) :=
  match (if depth0 then subquery_cache st !! key else None) with
  | Some rows => Some (rows, st)
  | None =>
      let cacheable := depth0 && subquery_is_constant subquery in
      sq ← correlate_subquery subquery tuple schema;
      let '(rows, st) := run_subquery sq st in
      Some (rows, if cacheable then mkSub (<[key := rows]> (subquery_cache st)) (current_txn_id st) else st)
  end.

(** A subquery evaluated for the rows of a scan, one after the other. *)
Fixpoint eval_for_rows (depth0 : bool) (key : Z) (subquery : SelectStmt) (schema : Schema.Schema (J := J))
    (tuples : list (list (Value J))) (st : SubState) : option (list rows * SubState) :=
  match tuples with
  | [] => Some ([], st)
  | tuple :: tuples' =>
      '(r, st) ← eval_subquery_rows depth0 key subquery schema tuple st;
      '(rs, st) ← eval_for_rows depth0 key subquery schema tuples' st;
      Some (r :: rs, st)
  end.
End rows.
Arguments SubState J : clear implicits.

(** ** Induction on expressions and queries *)

Definition column_all (P : Expr → Prop) (c : SelectColumn) : Prop := match c with SelectExpr e _ => P e | SelectStar => True end.
Definition join_all (P : Expr → Prop) '(mkJoin _ _ _ c : JoinClause) : Prop := P c.
Definition order_all (P : Expr → Prop) '(mkOrderBy e _ _ : OrderByExpr) : Prop := P e.
Definition cte_all (S : SelectStmt → Prop) '(mkCte _ q : Cte) : Prop := S q.
Definition from_all (S : SelectStmt → Prop) (f : FromClause) : Prop := match f with FromSubquery q => S q | _ => True end.
Definition option_all {A} (P : A → Prop) (o : option A) : Prop := match o with Some a => P a | None => True end.

Section induction.
Context (P : Expr → Prop) (S : SelectStmt → Prop).
Context (HLeaf : ∀ e, match e with Literal _ | Column _ | QualifiedColumn _ _ | JsonPath _ | DefaultExpr | IntervalLit _ => True | _ => False end → P e)
  (HBin : ∀ l op r, P l → P r → P (BinaryOp l op r)) (HUn : ∀ op e, P e → P (Unary op e))
  (HFun : ∀ n args, Forall P args → P (Function n args))
  (HIsNull : ∀ e, P e → P (IsNull e)) (HIsNotNull : ∀ e, P e → P (IsNotNull e))
  (HIn : ∀ e l, P e → Forall P l → P (InList e l))
  (HBetween : ∀ e a b, P e → P a → P b → P (Between e a b))
  (HCase : ∀ o ws els, option_all P o → Forall (λ wt, P wt.1 ∧ P wt.2) ws → option_all P els → P (Case o ws els))
  (HCast : ∀ e dt, P e → P (Cast e dt)) (HSub : ∀ q, S q → P (Subquery q)) (HExists : ∀ q, S q → P (ExistsQuery q))
  (HInSub : ∀ e q, P e → S q → P (InSubquery e q))
  (HWin : ∀ n args ps os, Forall P args → Forall P ps → Forall (order_all P) os → P (WindowFunction n args ps os))
  (HSelect : ∀ cols d f fa joins w g h o lim off ctes,
    Forall (column_all P) cols → from_all S f → Forall (join_all P) joins → option_all P w → Forall P g → option_all P h →
    Forall (order_all P) o → Forall (cte_all S) ctes → S (mkSelect cols d f fa joins w g h o lim off ctes)).

Fixpoint expr_ind' (e : Expr) : P e :=
  let fix all (l : list Expr) : Forall P l :=
    match l with [] => Forall_nil_2 _ | x :: l' => Forall_cons_2 _ _ _ (expr_ind' x) (all l') end in
  let fix pairs (l : list (Expr * Expr)) : Forall (λ wt, P wt.1 ∧ P wt.2) l :=
    match l with [] => Forall_nil_2 _ | (w, t) :: l' => Forall_cons_2 _ (w, t) _ (conj (expr_ind' w) (expr_ind' t)) (pairs l') end in
  let fix orders (l : list OrderByExpr) : Forall (order_all P) l :=
    match l with [] => Forall_nil_2 _ | mkOrderBy x a n :: l' => Forall_cons_2 _ (mkOrderBy x a n) _ (expr_ind' x) (orders l') end in
  let opt (o : option Expr) : option_all P o := match o with Some x => expr_ind' x | None => I end in
  match e with
  | BinaryOp l op r => HBin l op r (expr_ind' l) (expr_ind' r)
  | Unary op e => HUn op e (expr_ind' e)
  | Function n args => HFun n args (all args)
  | IsNull e => HIsNull e (expr_ind' e)
  | IsNotNull e => HIsNotNull e (expr_ind' e)
  | InList e l => HIn e l (expr_ind' e) (all l)
  | Between e a b => HBetween e a b (expr_ind' e) (expr_ind' a) (expr_ind' b)
  | Case o ws els => HCase o ws els (opt o) (pairs ws) (opt els)
  | Cast e dt => HCast e dt (expr_ind' e)
  | Subquery q => HSub q (select_ind' q)
  | ExistsQuery q => HExists q (select_ind' q)
  | InSubquery e q => HInSub e q (expr_ind' e) (select_ind' q)
  | WindowFunction n args ps os => HWin n args ps os (all args) (all ps) (orders os)
  | (Literal _ | Column _ | QualifiedColumn _ _ | JsonPath _ | DefaultExpr | IntervalLit _) as leaf => HLeaf leaf I
  end
with select_ind' (q : SelectStmt) : S q :=
  let fix all (l : list Expr) : Forall P l :=
    match l with [] => Forall_nil_2 _ | x :: l' => Forall_cons_2 _ _ _ (expr_ind' x) (all l') end in
  let fix orders (l : list OrderByExpr) : Forall (order_all P) l :=
    match l with [] => Forall_nil_2 _ | mkOrderBy x a n :: l' => Forall_cons_2 _ (mkOrderBy x a n) _ (expr_ind' x) (orders l') end in
  let fix cols (l : list SelectColumn) : Forall (column_all P) l :=
    match l with
    | [] => Forall_nil_2 _
    | SelectStar :: l' => Forall_cons_2 _ SelectStar _ I (cols l')
    | SelectExpr x a :: l' => Forall_cons_2 _ (SelectExpr x a) _ (expr_ind' x) (cols l')
    end in
  let fix joins (l : list JoinClause) : Forall (join_all P) l :=
    match l with [] => Forall_nil_2 _ | mkJoin jt t a x :: l' => Forall_cons_2 _ (mkJoin jt t a x) _ (expr_ind' x) (joins l') end in
  let fix ctes (l : list Cte) : Forall (cte_all S) l :=
    match l with [] => Forall_nil_2 _ | mkCte n q :: l' => Forall_cons_2 _ (mkCte n q) _ (select_ind' q) (ctes l') end in
  let opt (o : option Expr) : option_all P o := match o with Some x => expr_ind' x | None => I end in
  match q with
  | mkSelect c d f fa j w g h o lim off ct =>
      HSelect c d f fa j w g h o lim off ct (cols c) match f with FromSubquery q => select_ind' q | FromTable _ | FromNone => I end
        (joins j) (opt w) (all g) (opt h) (orders o) (ctes ct)
  end.
End induction.

(** ** Constant subqueries *)

Lemma mapM_same {A} (f : A → option A) (l : list A) : Forall (λ x, f x = Some x) l → mapM f l = Some l.
Proof. induction 1 as [|x l Hx _ IH]; [done|]. cbn. rw Hx. cbn. by rw IH. Qed.

Lemma forallb_guard {A} (p : A → bool) (Q : A → Prop) (l : list A) :
  Forall (λ x, p x = true → Q x) l → forallb p l = true → Forall Q l.
Proof. induction 1 as [|x l Hx _ IH]; [done|]. cbn. intros [??]%andb_true_iff. constructor; auto. Qed.

Section constant.
Context {J : Type} `{!JsonShow J} (scope : gset str) (outer_table : str) (tuple : list (Value J)) (schema : Schema.Schema (J := J)).
Context (Hout : lower outer_table ∉ scope).

Definition kept_expr (e : Expr) : Prop :=
  expr_qualcols_in_scope scope e = true → rewrite_expr_correlated outer_table tuple schema e = Some e.
Definition kept_select (q : SelectStmt) : Prop :=
  select_qualcols_in_scope scope q = true → rewrite_select_correlated outer_table tuple schema q = Some q.

Lemma kept_list l :
  Forall kept_expr l → forallb (expr_qualcols_in_scope scope) l = true →
  mapM (rewrite_expr_correlated outer_table tuple schema) l = Some l.
Proof. intros Hl Hb. apply mapM_same. exact (forallb_guard _ _ l Hl Hb). Qed.

Lemma kept_option o :
  option_all kept_expr o → match o with Some e => expr_qualcols_in_scope scope e | None => true end = true →
  match o with Some e => e ← rewrite_expr_correlated outer_table tuple schema e; Some (Some e) | None => Some None end = Some o.
Proof. destruct o as [e|]; [|done]. cbn. intros He Hb. by rw (He Hb). Qed.

Lemma kept_leaf e :
  match e with Literal _ | Column _ | QualifiedColumn _ _ | JsonPath _ | DefaultExpr | IntervalLit _ => True | _ => False end → kept_expr e.
Proof.
  unfold kept_expr. destruct e; try done. cbn. intros _ Ht%bool_decide_eq_true. unfold eq_ignore_ascii_case.
  case_bool_decide as He; [|done]. destruct Hout. unfold lower. by rw -He.
Qed.

Lemma kept_case o ws els :
  option_all kept_expr o → Forall (λ wt, kept_expr wt.1 ∧ kept_expr wt.2) ws → option_all kept_expr els → kept_expr (Case o ws els).
Proof.
  intros Ho Hws Hels [[Hbo Hbw]%andb_true_iff Hbe]%andb_true_iff. cbn.
  rw (kept_option o Ho Hbo) mapM_same; [|cbn; by rw (kept_option els Hels Hbe)].
  eapply forallb_guard, Hbw. eapply Forall_impl; [exact Hws|]. intros [w t] [Hw Ht] [Hbw' Hbt]%andb_true_iff. cbn in *.
  by rw (Hw Hbw') (Ht Hbt).
Qed.

Lemma kept_query cols d f fa joins w g h o lim off ctes :
  Forall (column_all kept_expr) cols → from_all kept_select f → Forall (join_all kept_expr) joins → option_all kept_expr w →
  Forall kept_expr g → option_all kept_expr h → Forall (order_all kept_expr) o → Forall (cte_all kept_select) ctes →
  kept_select (mkSelect cols d f fa joins w g h o lim off ctes).
Proof.
  intros Hcols Hf Hj Hw Hg Hh Ho _ Hb. cbn in Hb. rw !andb_true_iff in Hb. destruct Hb as [[[[[[[Bc Bw] Bj] Bg] Bh] Bo] Bf] _].
  cbn. fold (rewrite_expr_correlated outer_table tuple schema). fold (rewrite_select_correlated outer_table tuple schema). rw (mapM_same _ cols).
  { eapply forallb_guard, Bc. eapply Forall_impl; [exact Hcols|]. intros [|e al] He Hb; [done|]. cbn. by rw (He Hb). }
  cbn [mbind option_bind]. rw (kept_option w Hw Bw). cbn [mbind option_bind]. rw (mapM_same _ joins).
  { eapply forallb_guard, Bj. eapply Forall_impl; [exact Hj|]. intros [jt t al c] Hc Hb. cbn. by rw (Hc Hb). }
  cbn [mbind option_bind]. rw (kept_list g Hg Bg). cbn [mbind option_bind]. rw (kept_option h Hh Bh). cbn [mbind option_bind]. rw (mapM_same _ o).
  { eapply forallb_guard, Bo. eapply Forall_impl; [exact Ho|]. intros [e a n] He Hb. cbn. by rw (He Hb). }
  cbn [mbind option_bind]. destruct f as [t|q|]; [done| |done]. by rw (Hf Bf).
Qed.

Lemma kept_select_all q : kept_select q.
Proof.
  apply (select_ind' kept_expr kept_select); try first [exact kept_leaf|exact kept_case|exact kept_query]; intros; intros Hb; cbn in Hb |- *;
    fold (rewrite_expr_correlated outer_table tuple schema); fold (rewrite_select_correlated outer_table tuple schema).
  all: try ( repeat match goal with
    | H : (_ && _) = true |- _ => apply andb_true_iff in H as [??]
    | H : kept_expr ?e, B : expr_qualcols_in_scope _ ?e = true |- _ => rw (H B); clear H
    | H : kept_select ?q, B : select_qualcols_in_scope _ ?q = true |- _ => rw (H B); clear H
    | H : Forall kept_expr ?l, B : forallb _ ?l = true |- _ => rw (kept_list l H B); clear H
    end; done).
Qed.
End constant.

Section shared.
Context {J : Type} `{!JsonShow J} (run : option Z → SelectStmt → list (list (Value J))).
Local Abbreviation Schema := (Schema.Schema (J := J)).

Definition outer_name (schema : Schema) : str := utf8_chars (chars (Schema.table_name schema)).

Lemma correlate_constant q (schema : Schema) tuple :
  subquery_is_constant q = true → lower (outer_name schema) ∉ collect_scope_tables q ∅ →
  correlate_subquery q tuple schema = Some q.
Proof.
  intros Hc Hn. unfold correlate_subquery. case_bool_decide; [done|].
  by apply (kept_select_all (collect_scope_tables q ∅) (outer_name schema) tuple schema Hn).
Qed.

(** The subquery runs in transaction [txn]: it is still the thread's, or its rows
    are kept. *)
Definition state_sound (txn : option Z) (depth0 : bool) (key : Z) (q : SelectStmt) (st : SubState J) : Prop :=
  (∀ rows, subquery_cache st !! key = Some rows → subquery_is_constant q = true ∧ rows = run txn q) ∧
  (current_txn_id st = txn ∨ (depth0 = true ∧ is_Some (subquery_cache st !! key))).

Lemma eval_cached txn depth0 key q schema tuple st sq :
  (subquery_is_constant q = true → lower (outer_name schema) ∉ collect_scope_tables q ∅) →
  txn = None ∨ (depth0 = true ∧ subquery_is_constant q = true) →
  state_sound txn depth0 key q st → correlate_subquery q tuple schema = Some sq →
  ∃ st', eval_subquery_rows run depth0 key q schema tuple st = Some (run txn sq, st') ∧ state_sound txn depth0 key q st'.
Proof.
  intros Hout Htxn [Hs Hcur] Hsq. unfold eval_subquery_rows. destruct (if depth0 then subquery_cache st !! key else None) as [rows|] eqn:Hk.
  - destruct depth0; [|done]. destruct (Hs rows Hk) as [Hc ->]. exists st. split; [|done].
    rw (correlate_constant q schema tuple Hc (Hout Hc)) in Hsq. congruence.
  - assert (current_txn_id st = txn) as Hcur'.
    { destruct Hcur as [|[-> [? Hr]]]; [done|congruence]. }
    rw Hsq. cbn. rw Hcur'. eexists. split; [done|]. destruct (depth0 && subquery_is_constant q) eqn:Hb.
    + apply andb_true_iff in Hb as [-> Hc]. rw (correlate_constant q schema tuple Hc (Hout Hc)) in Hsq. simplify_eq.
      split; cbn; rw lookup_insert_eq; [by intros rows [= <-]|by right].
    + split; [done|]. left. destruct Htxn as [->|[-> Hc]]; [done|]. by rw Hc in Hb.
Qed.

End shared.

(** ** Examples *)

Section examples.
#[local] Instance unit_json : JsonShow () := λ _, [].

Definition schema_t : Schema.Schema (J := ()) := Schema.new "t" [Schema.column_new "a" TInt64].
Definition select_where (table : string) (p : Expr) : SelectStmt :=
  mkSelect [SelectStar] false (FromTable (chars table)) None [] (Some p) [] None [] None None [].
Definition b_equals (e : Expr) : SelectStmt := select_where "u" (BinaryOp (QualifiedColumn (chars "u") (chars "b")) OpEq e).
Definition inner_u : SelectStmt := b_equals (QualifiedColumn (chars "t") (chars "a")).
Definition inner_t : SelectStmt := select_where "t" (BinaryOp (QualifiedColumn (chars "t") (chars "a")) OpEq (Literal (Integer 2))).
Definition two_rows : list (list (Value ())) := [[Int64 1]; [Int64 2]].
Definition run_seven (txn : option Z) (q : SelectStmt) : list (list (Value ())) := [[Int64 7]].


(** A subquery over the outer query's own table counts as constant, yet its
    columns are taken from the outer row: the rows of the first outer row's
    [1 = 2] are returned for the second one too, whose [2 = 2] holds. *)
Theorem own_table_captured (run : option Z → SelectStmt → list (list (Value ()))) :
  let inner n := select_where "t" (BinaryOp (Literal (Integer n)) OpEq (Literal (Integer 2))) in
  subquery_is_constant inner_t = true ∧
  mapM (λ tuple, correlate_subquery inner_t tuple schema_t) two_rows = Some [inner 1; inner 2] ∧
  fst <$> eval_for_rows run true 0 inner_t schema_t two_rows (mkSub ∅ None) = Some [run None (inner 1); run None (inner 1)].
Proof. split_and!; by vm_compute. Qed.

(** Inside a transaction a correlated subquery runs in that transaction for the
    first row only: its execution leaves the thread without a transaction, and the
    rows after it see what is outside of any. *)
Theorem correlated_leaves_transaction (run : option Z → SelectStmt → list (list (Value ()))) tid :
  fst <$> eval_for_rows run true 0 inner_u schema_t two_rows (mkSub ∅ (Some tid)) =
    Some [run (Some tid) (b_equals (Literal (Integer 1))); run None (b_equals (Literal (Integer 2)))].
Proof. by vm_compute. Qed.
End examples.

End Subquery.
