(* ===== verification/Query.v ===== *)
(** Executing physical plans ([execute_physical] of
    [bytedb-query/src/executor/engine.rs]): every operator applied to the results
    of its inputs, with the short cuts for ORDER BY with LIMIT and for aggregates
    over a whole table. *)
From S2P Require Import Prelude ByteOrder Value OrderKey OrderedIndex Schema Tuple Transaction VersionStore Sql Lexer Like Strings Float64 Eval Scan Collections Stats Plan Cost Optimizer Exec Window Join Aggregate TableAccess SecondaryIndex Subquery.
Import Value OrderKey Sql Like Strings Eval Collections Plan Exec Window Join Aggregate TableAccess.

Module Query.

Fixpoint plan_table_name (plan : PhysicalPlan) : option str :=
  match plan with
  | SeqScan table _ _ _ | IndexScan table _ _ _ _ _ _ => Some table
  | PFilter input _ | PSort input _ | PLimit input _ _ | PDistinct input => plan_table_name input
  | _ => None
  end.

Section query.
Context {J T : Type} `{!JsonShow J, !JsonRead J} `{!Codecs} `{Unicode} `{FloatText} `{!Engine J} `{!KvTree T} `{!HashOrder} `{!Unordered}.
Context (tables : Tables J T) (txn : option Z).
Local Abbreviation result := (ExecutionResult J).

(** The encoded rows of a table in key order. *)
Definition table_datas (td : TableData J T) : option (list (list Z)) := (λ l : list (list Z * list Z), l.*2) <$> kt_scan_all (index td).

(** Aggregates over a whole table outside a transaction. *)
Definition fast_aggregate (input : PhysicalPlan) (group_by aggregates : list Expr) (having : option Expr) : option (option result) :=
  match group_by, input, txn, having with
  | _ :: _, SeqScan table None _ _, None, None =>
      match tables !! table with
      | Some td => datas ← table_datas td; try_fast_aggregate datas (col_names td) group_by aggregates
      | None => Some None
      end
  | _, _, _, _ => Some None
  end.

(** Statements that are not queries are executed by [other]. *)
Context (other : PhysicalPlan → Q result).

Fixpoint execute_physical (plan : PhysicalPlan) : Q result :=
  match plan with
  | PProject input columns =>
      r ← execute_physical input;
      lift (apply_projection r columns (plan_table_name input))
  | SeqScan table filter limit needed => exec_seq_scan tables table filter txn limit needed
  | PFilter input predicate => r ← execute_physical input; lift (apply_filter r predicate)
  | PSort input order_by => r ← execute_physical input; lift (apply_sort r order_by)
  | PLimit input count offset =>
      match input with
      | PSort sort_input order_by =>
          if offset =? 0 then
            let top := r ← execute_physical sort_input; lift (apply_top_n r order_by count) in
            match sort_input, order_by with
            | SeqScan table filter _ _, [_] => λ s,
                '(r, s') ← exec_scan_top_n tables table filter txn order_by count s;
                match r with QOk res => Some (QOk res, s') | QErr _ => top s' end
            | _, _ => top
            end
          else r ← execute_physical input; lift (apply_limit r count offset)
      | _ => r ← execute_physical input; lift (apply_limit r count offset)
      end
  | HashJoin l r condition jt | NestedLoopJoin l r condition jt =>
      lr ← execute_physical l;
      rr ← execute_physical r;
      lift (hash_join (plan_table_name l) (plan_table_name r) lr rr condition jt)
  | HashAggregate input group_by aggregates having =>
      fast ← q_panic (fast_aggregate input group_by aggregates having);
      match fast with
      | Some res => mret res
      | None => r ← execute_physical input; lift (exec_hash_aggregate r group_by aggregates having)
      end
  | IndexScan table index_name column op value filter limit => exec_index_scan tables table index_name column op value filter limit txn
  | PDistinct input => r ← execute_physical input; lift (apply_distinct r)
  | _ => other plan
  end.
End query.

(** ** Statements that read *)

(** A statement changes the tables, also where it fails. *)
Definition Db_of (Tb A : Type) : Type := Tb * Session → option (qresult A * (Tb * Session)).
#[export] Instance Db_ret Tb : MRet (Db_of Tb) := λ A a st, Some (QOk a, st).
#[export] Instance Db_bind Tb : MBind (Db_of Tb) := λ A B f m st,
  '(r, st') ← m st; match r with QOk a => f a st' | QErr e => Some (QErr e, st') end.

Section statements.
Context {J T : Type} `{!JsonShow J, !JsonRead J} `{!Codecs} `{Unicode} `{FloatText} `{!Engine J} `{!KvTree T} `{!HashOrder} `{!Unordered}.
Local Abbreviation result := (ExecutionResult J).
Local Abbreviation Tables := (Tables J T).
Local Abbreviation Db := (Db_of (TableAccess.Tables J T)).

(** What the planner is told of the indexes. *)
Definition index_info (td : TableData J T) (s : SecondaryIndex.SecondaryIndex T) : Optimizer.IndexInfo :=
  Optimizer.mkIndexInfo (name_of (SecondaryIndex.name s))
    (omap (λ i, (λ c, name_of (Schema.col_name c)) <$> Schema.columns (schema td) !! i) (SecondaryIndex.columns s))
    (SecondaryIndex.unique s).

Definition index_snapshot (tables : Tables) : Optimizer.IndexCatalog :=
  omap (λ td, match secondary_indexes td with [] => None | l => Some (map (index_info td) l) end) tables.

Context `{!Libm} (stats : Cost.StatsCatalog (J := J)) (txn : option Z) (other : Tables → PhysicalPlan → Q result).

(** A query over tables that exist. *)
Definition plan_and_run (select : SelectStmt) (tables : Tables) : Q result :=
  match build_logical_plan (Subquery.rewrite_aliases (Select select)) with
  | QErr e => q_fail e
  | QOk logical =>
      physical ← q_panic (Optimizer.optimize_with_catalog logical stats (index_snapshot tables));
      execute_physical tables txn (other tables) physical
  end.

(** [top]: the statement is not part of a subquery. A top-level statement forgets
    the error an earlier one left and reports the one its subqueries left. *)
Context (top : bool) (other_statement : Statement → Db result).

Definition subquery_error : str := chars "more than one row returned by a subquery used as an expression".

Definition statement {Tb} (m : Db_of Tb result) : Db_of Tb result := λ '(t, s),
  '(r, (t', s')) ← m (t, if top then mkSession (txns s) false else s);
  Some match r with
       | QOk _ => if top && pending s' then (QErr (Execution subquery_error), (t', mkSession (txns s') false)) else (r, (t', s'))
       | QErr _ => (r, (t', s'))
       end.

Definition on_tables {A} (m : Tables → Q A) : Db A := λ '(t, s), '(r, s') ← m t s; Some (r, (t, s')).

Definition materialize (name : str) (columns : list str) (rows : list (list (Value J))) : Db () := λ '(t, s),
  t' ← materialize_cte t name columns rows; Some (QOk (), (t', s)).

(** The tables are removed whether or not the query succeeds. *)
Definition dropping (names : list str) (m : Db result) : Db result := λ st,
  '(r, (t, s)) ← m st; Some (r, (foldl (λ t n, delete n t) t names, s)).

Definition run_select (select : SelectStmt) : Db result :=
  let '(mkSelect _ _ from _ _ _ _ _ _ _ _ _) := select in
  match from with
  | FromNone => on_tables (λ _, exec_select_no_from select)
  | _ => on_tables (plan_and_run select)
  end.

(** CTEs and derived tables become tables for the time of the query. *)
Fixpoint execute_select (select : SelectStmt) : Db result :=
  match select with
  | mkSelect columns distinct from from_alias joins where_clause group_by having order_by limit offset ctes =>
      statement
        match ctes, from with
        | [], (FromTable _ | FromNone) => run_select select
        | _, _ =>
            let fix materialize_all (l : list Cte) (cte_names : list str) : Db (list str) :=
              match l with
              | [] => mret cte_names
              | mkCte name query :: l' =>
                  r ← execute_select query;
                  match r with
                  | Rows cols rows => _ ← materialize name cols rows; materialize_all l' (cte_names ++ [name])
                  | _ => materialize_all l' cte_names
                  end
              end in
            let alias := default (chars "__subquery__") from_alias in
            cte_names ← materialize_all ctes [];
            cte_names ← match from with
                        | FromSubquery subquery =>
                            r ← execute_select subquery;
                            match r with
                            | Rows cols rows => _ ← materialize alias cols rows; mret (cte_names ++ [alias])
                            | _ => mret cte_names
                            end
                        | _ => mret cte_names
                        end;
            dropping cte_names (statement (run_select
              (mkSelect columns distinct (match from with FromSubquery _ => FromTable alias | f => f end) from_alias joins where_clause
                 group_by having order_by limit offset [])))
        end
  end.

Definition lift_db {A} (m : X A) : Db A := on_tables (λ _, lift m).

Fixpoint execute (stmt : Statement) : Db result :=
  match stmt with
  | Select select => execute_select select
  | Union l r all => statement (lr ← execute l; rr ← execute r; lift_db (exec_union lr rr all))
  | Intersect l r all => statement (lr ← execute l; rr ← execute r; lift_db (exec_intersect lr rr all))
  | Except l r all => statement (lr ← execute l; rr ← execute r; lift_db (exec_except lr rr all))
  | _ => other_statement stmt
  end.
End statements.
End Query.
