(* ===== verification/IndexScanSpec.v ===== *)
(** What a scan through a secondary index returns: the rows the scan of the whole
    table would, since the index has an entry for every row of the table and the
    rows it gives are filtered with the whole condition. *)
From S2P Require Import Prelude ByteOrder BTree Value OrderKey BTreeSpec OrderedIndex SecondaryIndex Schema Tuple Transaction VersionStore Civil Sql Lexer Like Strings Float64 Eval EvalProps Scan Collections Plan Stats Cost Optimizer Exec TableAccess TableSpec Subquery Query.
Import Value OrderKey Sql Like Strings Eval Collections Plan Exec TableAccess TableSpec Query.

Module IndexScanSpec.

(** ** Lookups by the first column *)

Section first.
Context {J T : Type} `{!EqDecision J} `{!JsonShow J} `{!KvTree T} `{!KvTreeLaws T}.
Local Abbreviation V := (Value J).
Implicit Types (ix : SecondaryIndex.SecondaryIndex T) (E : list (list V * list Z)).

(** The entries of a table: one per primary key. *)
Definition entries_keyed E : Prop := NoDup E.*2 ∧ Forall (λ e, e.2 ≠ [] ∧ bytes_ok e.2) E.

Lemma keyed_same E cs ds pk : NoDup E.*2 → (cs, pk) ∈ E → (ds, pk) ∈ E → cs = ds.
Proof.
  induction E as [|[es q] E IH]; [by intros _ ?%not_elem_of_nil|]. cbn. intros [Hq Hnd]%NoDup_cons.
  assert (∀ xs, (xs, q) ∈ E → False) as Hno by (intros xs Hin; apply Hq, list_elem_of_fmap; by exists (xs, q)).
  rw !elem_of_cons. intros [Hc|Hc] [Hd|Hd]; simplify_eq; [done|by destruct (Hno ds)|by destruct (Hno cs)|by apply IH].
Qed.

(** The primary keys that a scan of part of the index returns are distinct. *)
Lemma scanned_NoDup E (m : gmap (list Z) (list Z)) (P : list Z * list Z → Prop) `{!∀ x, Decision (P x)} :
  NoDup E.*2 → (∀ k v, m !! k = Some v ↔ ∃ cs, (cs, v) ∈ E ∧ k = encode_okey cs ++ v) →
  NoDup (filter P (sorted_pairs m)).*2.
Proof.
  intros Hnd Hm. apply NoDup_fmap_2_strong.
  - intros [k1 v1] [k2 v2] [_ Hi]%list_elem_of_filter [_ Hj]%list_elem_of_filter. cbn. intros ->.
    apply elem_of_sorted_pairs, Hm in Hi as (cs & Hc & ->), Hj as (ds & Hd & ->). by rw (keyed_same E cs ds v2 Hnd Hc Hd).
  - apply NoDup_filter. rw sorted_pairs_perm. apply NoDup_map_to_list.
Qed.

Lemma lookup_first_eq t ts ix E v :
  SecondaryIndex.keeps (t :: ts) ix E → entries_keyed E → SecondaryIndex.col_ok t v →
  ∃ r, SecondaryIndex.lookup_eq ix [v] = Some r ∧ NoDup r ∧ ∀ rest pk, (v :: rest, pk) ∈ E → pk ∈ r.
Proof.
  intros Hk [Hnd _] Hv. pose proof Hk as (_ & m & Hm & Hkey). unfold SecondaryIndex.lookup_eq.
  rw (kt_prefix_rep _ m _ Hm). eexists. split; [done|]. split; [by apply (scanned_NoDup E m)|].
  intros rest pk Hin. apply list_elem_of_fmap. exists (encode_okey (v :: rest) ++ pk, pk). split; [done|].
  apply list_elem_of_filter. split; [|apply elem_of_sorted_pairs, Hkey; by exists (v :: rest)].
  unfold has_prefix, SecondaryIndex.key_prefix. cbn [fst].
  assert (encode_okey (v :: rest) = encode_okey [v] ++ encode_okey rest) as ->.
  { unfold encode_okey, encode_okey_into. cbn. by rw app_nil_r. }
  rw -app_assoc. by apply starts_with_app.
Qed.

Lemma lookup_first_range t ts ix E lo hi :
  SecondaryIndex.keeps (t :: ts) ix E → entries_keyed E → SecondaryIndex.bound_ok t lo → SecondaryIndex.bound_ok t hi →
  ∃ r, SecondaryIndex.lookup_range ix lo hi = Some r ∧ NoDup r ∧
    ∀ v rest pk, (v :: rest, pk) ∈ E → SecondaryIndex.between lo hi v → pk ∈ r.
Proof.
  intros Hk [Hnd Hpk] Hlo Hhi. destruct (SecondaryIndex.lookup_range_entries t ts ix E lo hi Hk Hpk Hlo Hhi) as (r & Hr & Hin).
  exists r. split; [done|]. split; [|intros v rest pk Hv Hb; apply Hin; by exists v, rest].
  pose proof Hk as (_ & m & Hm & Hkey). unfold SecondaryIndex.lookup_range in Hr. rw (kt_range_rep _ m _ _ Hm) in Hr.
  cbn in Hr. simplify_eq. by apply (scanned_NoDup E m).
Qed.

(** ** Comparisons of a column with a literal *)

(** The values of literals that an index is asked for. *)
Definition literal_kind (w : V) : Prop := match w with Int64 _ | Float64 _ | Text _ | Bool _ => True | _ => False end.

Lemma compare_flip t (v w : V) :
  SecondaryIndex.col_ok t v → SecondaryIndex.col_ok t w → literal_kind w → is_null v = false →
  ∃ o, compare v w = Some (Some o) ∧ compare w v = Some (Some (CompOpp o)) ∧ cmp_fast v w = Some o ∧ cmp_fast w v = Some (CompOpp o).
Proof.
  intros [_ Hv] [_ Hw] Hk Hn.
  destruct v as [|x|x|x|x|x| | | | | |], w as [|y|y|y|y|y| | | | | |]; try done; cbn in Hv, Hw;
    repeat match goal with H : _ ∧ _ |- _ => destruct H end; try congruence.
  - exists (bool_cmp x y). split_and!; try done; by destruct x, y.
  - exists (x ?= y). cbn. by rw -Z.compare_antisym.
  - exists (f64_key x ?= f64_key y). cbn. unfold f64_cmp.
    repeat match goal with E : f64_nan _ = false |- _ => rw E; clear E end. cbn. by rw -Z.compare_antisym.
  - exists (bcmp x y). cbn. by rw (bcmp_antisym x y).
Qed.

Lemma tri_compare_flip t op (v w : V) :
  SecondaryIndex.col_ok t v → SecondaryIndex.col_ok t w → literal_kind w → Optimizer.is_order_op op = true →
  tri_compare op w v = Some (Some true) → tri_compare (Cost.flip_op op) v w = Some (Some true).
Proof.
  intros Hv Hw Hk Hop. unfold tri_compare. rw orb_comm. destruct (is_null v) eqn:Hn; [by cbn|].
  destruct (compare_flip t v w Hv Hw Hk Hn) as (o & Ho & Ho' & _). rw Ho Ho'. destruct (is_null w); [done|]. cbn.
  by destruct op, o.
Qed.

(** A value for which the comparison holds is among those the index is asked for. *)
Lemma compare_covered t op (v w : V) :
  SecondaryIndex.col_ok t v → SecondaryIndex.col_ok t w → literal_kind w → tri_compare op v w = Some (Some true) →
  match op with
  | OpEq => v = w
  | OpLt | OpLte => SecondaryIndex.between None (Some w) v
  | OpGt | OpGte => SecondaryIndex.between (Some w) None v
  | _ => True
  end.
Proof.
  intros Hv Hw Hk. unfold tri_compare. destruct (is_null v) eqn:Hn; [done|].
  destruct (compare_flip t v w Hv Hw Hk Hn) as (o & Ho & _ & Hf & Hf'). rw Ho. destruct (is_null w); [done|]. cbn.
  destruct (SecondaryIndex.col_cmp t v w Hv Hw) as (o' & Hc & Heq). rw Hf in Hc. simplify_eq.
  destruct op; try done; cbn; destruct o'; try done; intros _; try (by apply Heq); cbn in Hf'; split; intros ? [= <-]; congruence.
Qed.

(** Casting a literal to the type of the column it is compared with. *)
Lemma cast_literal `{Unicode} `{FloatText} `{!Engine J} t (w : V) :
  SecondaryIndex.col_ok t w → literal_kind w → cast_value w (SecondaryIndex.ct_type t) = Some w.
Proof.
  intros [_ Hw] Hk. destruct t as [dt sc]. destruct w; try done; cbn in Hw |- *; by destruct dt; (done || destruct Hw).
Qed.
End first.

(** ** The condition an index is asked about *)

Section condition.
Context {J : Type} `{Unicode} `{FloatText} `{!Engine J}.
Context (schema : Schema.Schema (J := J)) (tuple : list (Value J)).

Lemma conjunct_true pred e st st' :
  eval_predicate_tri schema tuple pred st = Some (Some true, st') → e ∈ Optimizer.collect_conjuncts pred →
  ∃ s s', eval_predicate_tri schema tuple e s = Some (Some true, s').
Proof.
  revert st st'. induction pred as [| | |l IHl op r IHr| | | | | | | | | | | | | | |]; intros st st' Ht;
    try (intros ->%list_elem_of_singleton; by exists st, st').
  destruct op; try (intros ->%list_elem_of_singleton; by exists st, st').
  apply EvalProps.and_true in Ht as (s & Hl & Hr). cbn. intros [Hin|Hin]%elem_of_app; [exact (IHl _ _ Hl Hin)|exact (IHr _ _ Hr Hin)].
Qed.

(** A conjunct that compares a column with a literal. *)
Lemma conjunct_compares t e col op val i v s s' :
  Optimizer.as_col_op_literal e = Some (col, op, val) → eval_predicate_tri schema tuple e s = Some (Some true, s') →
  Schema.column_index schema (key_of col) = Some i → tuple !! i = Some v → SecondaryIndex.col_ok t v →
  ∃ lit, val = Literal lit ∧
    (SecondaryIndex.col_ok t (eval_literal (J := J) lit) → literal_kind (eval_literal (J := J) lit) →
     tri_compare op v (eval_literal lit) = Some (Some true)).
Proof.
  intros He Ht Hi Hv Hok. pose proof (Scan.column_lookup schema tuple col i v Hi Hv) as Hcv.
  destruct e as [| | |l op' r| | | | | | | | | | | | | | |]; try done. cbn in He.
  destruct (Optimizer.is_order_op op') eqn:Hop; [|done]. cbn [negb] in He.
  assert (eval_predicate_tri schema tuple (BinaryOp l op' r) s =
    (lv ← eval_value schema tuple l; rv ← eval_value schema tuple r; panic_or (tri_compare op' lv rv)) s) as Heq by (by destruct op').
  rw Heq in Ht. clear Heq.
  assert (∀ x, Cost.column_name x = Some col → eval_value schema tuple x = mret v) as Hcol.
  { intros [| | | | | | | | | | | | | | | | | |]; try done; cbn; intros [= ->]; by rw Hcv. }
  assert (∀ lv rv : Value J, panic_or (tri_compare op' lv rv) s = Some (Some true, s') → tri_compare op' lv rv = Some (Some true)) as Hrun.
  { intros lv rv. unfold panic_or. by destruct (tri_compare op' lv rv) as [[[]|]|]; intros; simplify_eq/=. }
  destruct (Cost.column_name l) as [c|] eqn:Hl.
  - destruct r as [lit|n|tb n| | | | | | | | | | | | | | | |]; try done;
      try (by destruct l); simplify_eq. exists lit. split; [done|]. intros _ _.
    rw (Hcol l Hl) in Ht. exact (Hrun _ _ Ht).
  - destruct l as [lit| | | | | | | | | | | | | | | | | |]; try done. destruct (Cost.column_name r) as [c|] eqn:Hr; [|done].
    simplify_eq. exists lit. split; [done|]. intros Hw Hk. apply (tri_compare_flip t); [done..|].
    unfold mbind, E_bind in Ht. rw (Hcol r Hr) in Ht. exact (Hrun _ _ Ht).
Qed.
End condition.

(** What the planner finds is a conjunct on the first column of an index. *)
Definition planned (pred : Expr) (idxs : list Optimizer.IndexInfo) (found : str * str * BinOp * Expr) : Prop :=
  let '(name, col, op, val) := found in
  ∃ e ix, e ∈ Optimizer.collect_conjuncts pred ∧ Optimizer.as_col_op_literal e = Some (col, op, val) ∧
    ix ∈ idxs ∧ head (Optimizer.index_columns ix) = Some col ∧ Optimizer.index_name ix = name ∧ Optimizer.is_order_op op = true.

Lemma find_planned pred idxs found : Optimizer.find_index_predicate pred idxs = Some found → planned pred idxs found.
Proof.
  unfold Optimizer.find_index_predicate.
  assert (∀ cs range, (∀ e, e ∈ cs → e ∈ Optimizer.collect_conjuncts pred) → (∀ f, range = Some f → planned pred idxs f) →
    Optimizer.find_in cs idxs range = Some found → planned pred idxs found) as Hgen; [|by apply Hgen].
  induction cs as [|e cs IH]; intros range Hcs Hr; cbn; [by apply Hr|].
  assert (∀ x, x ∈ cs → x ∈ Optimizer.collect_conjuncts pred) as Hcs' by (intros; apply Hcs; by right).
  destruct (Optimizer.as_col_op_literal e) as [[[col op] val]|] eqn:He; [|by apply IH].
  destruct (Optimizer.index_on col idxs) as [ix|] eqn:Hix; [|by apply IH].
  unfold Optimizer.index_on in Hix. apply fmap_Some in Hix as ([n ix'] & (Hn & Hh & _)%list_find_Some & ->). cbn in *.
  assert (Optimizer.is_order_op op = true → planned pred idxs (Optimizer.index_name ix', col, op, val)) as Hpl.
  { intros Hop. exists e, ix'. split_and!; try done; [apply Hcs; by left|]. exact (list_elem_of_lookup_2 _ _ _ Hn). }
  destruct op; try (by apply IH); try (by intros [= <-]; apply Hpl).
  all: apply IH; [done|]; intros f; destruct range; [by apply Hr|]; intros [= <-]; by apply Hpl.
Qed.

(** ** Scans through an index *)

Section scans.
Context {J T : Type} `{!EqDecision J} `{!JsonShow J, !JsonRead J} `{!Codecs} `{Unicode} `{FloatText} `{!Engine J} `{!KvTree T} `{!HashOrder} `{!Unordered}.
Context `{!KvTreeLaws T} `{!CodecLaws} `{!JsonLaws J Tuple.utf8_valid}.
Local Abbreviation V := (Value J).
Local Abbreviation row := (list V).
Implicit Types (td : TableData J T) (m : gmap (list Z) (list Z)) (vis : gmap (list Z) row).

(** The index [sec], whose first column is column [i] of the table, has an entry
    for every row. *)
Record index_kept td vis (sec : SecondaryIndex.SecondaryIndex T) : Prop := {
  ik_first : ∃ i is' c t ts E, SecondaryIndex.columns sec = i :: is' ∧ Schema.columns (schema td) !! i = Some c ∧
    Schema.column_index (schema td) (Schema.col_name c) = Some i ∧ key_of (name_of (Schema.col_name c)) = Schema.col_name c ∧
    SecondaryIndex.ct_type t = Schema.col_data_type c ∧ SecondaryIndex.keeps (t :: ts) sec E ∧ entries_keyed E ∧
    ∀ k vs, vis !! k = Some vs → ∃ v rest, vs !! i = Some v ∧ (v :: rest, k) ∈ E;
  ik_name : key_of (name_of (SecondaryIndex.name sec)) = SecondaryIndex.name sec;
}.

Definition indexes_kept td vis : Prop :=
  Forall (index_kept td vis) (secondary_indexes td) ∧ NoDup (SecondaryIndex.name <$> secondary_indexes td).

(** The literals compared with the first columns of indexes in the conjuncts of a
    condition are of the types of the columns. *)
Definition literals_typed td (pred : Expr) : Prop :=
  ∀ e col op lit i c sec, sec ∈ secondary_indexes td → head (SecondaryIndex.columns sec) = Some i → e ∈ Optimizer.collect_conjuncts pred → Optimizer.as_col_op_literal e = Some (col, op, Literal lit) →
    Schema.column_index (schema td) (key_of col) = Some i → Schema.columns (schema td) !! i = Some c →
    literal_kind (eval_literal (J := J) lit) ∧
    ∀ sc, SecondaryIndex.col_ok (SecondaryIndex.mkColType (Schema.col_data_type c) sc) (eval_literal (J := J) lit).

Lemma probe_literal td col lit i c sc :
  Schema.column_index (schema td) (key_of col) = Some i → Schema.columns (schema td) !! i = Some c →
  literal_kind (eval_literal (J := J) lit) →
  SecondaryIndex.col_ok (SecondaryIndex.mkColType (Schema.col_data_type c) sc) (eval_literal (J := J) lit) →
  index_probe td col (Literal lit) = Some (Some (eval_literal lit)).
Proof.
  intros Hi Hc Hk Hok. unfold index_probe. rw Hi. rw Hc. cbn [mbind option_bind].
  assert (Scan.eval_expr_simple (J := J) (Literal lit) = eval_literal lit) as -> by (by destruct lit).
  pose proof (cast_literal _ _ Hok Hk) as Hcast. cbn [SecondaryIndex.ct_type] in Hcast.
  destruct Hok as [_ Hd].
  destruct (eval_literal lit), (Schema.col_data_type c); try done; cbn in Hd; try (by destruct Hd); by rw Hcast.
Qed.

(** The keys an index gives are distinct, and all rows for which the condition
    holds are among them. *)
Lemma index_keys_cover sec t ts E op (w : V) :
  SecondaryIndex.keeps (t :: ts) sec E → entries_keyed E → SecondaryIndex.col_ok t w → literal_kind w → Optimizer.is_order_op op = true →
  ∃ pks, index_keys sec op w = Some (Some pks) ∧ NoDup pks ∧
    ∀ v rest k, (v :: rest, k) ∈ E → tri_compare op v w = Some (Some true) → k ∈ pks.
Proof.
  intros Hkeep HE Hw Hk Hop.
  assert (∀ v rest k, (v :: rest, k) ∈ E → SecondaryIndex.col_ok t v) as Hcol.
  { intros v rest k Hin. pose proof (SecondaryIndex.keeps_row _ _ _ Hkeep _ _ Hin) as Hr. by inversion Hr. }
  assert (SecondaryIndex.bound_ok t (Some w)) as Hb by (by intros ? [= <-]).
  assert (SecondaryIndex.bound_ok (J := J) t None) as Hb0 by done.
  pose proof (lookup_first_eq t ts sec E w Hkeep HE Hw) as (re & He & Hne & Hine).
  pose proof (lookup_first_range t ts sec E None (Some w) Hkeep HE Hb0 Hb) as (rl & Hl & Hnl & Hinl).
  pose proof (lookup_first_range t ts sec E (Some w) None Hkeep HE Hb Hb0) as (rg & Hg & Hng & Hing).
  destruct op; try done; cbn [index_keys]; rw ?He ?Hl ?Hg; eexists; (split; [done|]); (split; [done|]);
    intros v rest k Hin Hc; pose proof (compare_covered t _ v w (Hcol _ _ _ Hin) Hw Hk Hc) as Hcov; cbn in Hcov.
  1: subst v; exact (Hine rest k Hin).
  all: first [exact (Hinl v rest k Hin Hcov)|exact (Hing v rest k Hin Hcov)].
Qed.

Lemma find_index_named td txn sec :
  sec ∈ secondary_indexes td → NoDup (SecondaryIndex.name <$> secondary_indexes td) →
  key_of (name_of (SecondaryIndex.name sec)) = SecondaryIndex.name sec →
  find_index td (name_of (SecondaryIndex.name sec)) txn = None ∨ find_index td (name_of (SecondaryIndex.name sec)) txn = Some sec.
Proof.
  intros Hin Hnd Hn. unfold find_index. rw Hn. case_match; [right|by left].
  destruct (list_find _ _) as [[n x]|] eqn:Hf; cbn.
  - apply list_find_Some in Hf as (Hx & Hname & _). apply list_elem_of_lookup in Hin as [n' Hs]. f_equal.
    assert (n = n') as ->; [|congruence]. apply (NoDup_lookup _ n n' (SecondaryIndex.name sec) Hnd); rw list_lookup_fmap.
    + by rw Hx /= Hname.
    + by rw Hs.
  - apply list_find_None in Hf. rw Forall_forall in Hf. by destruct (Hf sec Hin).
Qed.

Lemma holds_conjunct td vis pred (holds : row → bool) (k : list Z) vs e :
  decides td (Some pred) holds vis → vis !! k = Some vs → holds vs = true → e ∈ Optimizer.collect_conjuncts pred →
  ∃ s s', eval_predicate_tri (schema td) vs e s = Some (Some true, s').
Proof.
  intros Hd Hk Hh. specialize (Hd k vs false Hk). rw Hh in Hd. unfold eval_predicate, mbind, E_bind in Hd.
  destruct (eval_predicate_tri (schema td) vs pred false) as [[[[]|] st]|] eqn:Ht; cbn in Hd; simplify_eq.
  exact (conjunct_true (schema td) vs pred e false st Ht).
Qed.

Lemma index_lookup_cover td vis pred (holds : row → bool) txn name col op val :
  decides td (Some pred) holds vis → indexes_kept td vis → literals_typed td pred →
  Optimizer.find_index_predicate pred (map (index_info td) (secondary_indexes td)) = Some (name, col, op, val) →
  ∃ o, index_lookup td name col op val txn = Some o ∧
    ∀ pks, o = Some pks → NoDup pks ∧ ∀ k vs, vis !! k = Some vs → holds vs = true → k ∈ pks.
Proof.
  intros Hdec [Hkept Hnames] Htyp (e & ix & He & Hcmp & Hix & Hhead & <- & Hop)%find_planned.
  apply list_elem_of_In, in_map_iff in Hix as (sec & <- & Hsec%list_elem_of_In). rw Forall_forall in Hkept.
  destruct (Hkept sec Hsec) as [(i & is' & c & t & ts & E & Hcols & Hc & Hi & Hnm & Ht & Hkeep & HE & Hcov) Hsn].
  cbn in Hhead. rw Hcols /= Hc /= in Hhead. injection Hhead as <-. rw -Hnm in Hi.
  assert (∃ lit, val = Literal lit) as [lit ->].
  { destruct e as [| | |l op' r| | | | | | | | | | | | | | |]; try done. cbn in Hcmp. destruct (negb _); [done|].
    destruct (Cost.column_name l) as [?|]; [destruct r|]; destruct l; try done;
      try (destruct (Cost.column_name _); try done); simplify_eq; by eexists. }
  destruct (Htyp e _ op lit i c sec Hsec ltac:(by rw Hcols) He Hcmp Hi Hc) as [Hk Hok].
  assert (SecondaryIndex.col_ok t (eval_literal (J := J) lit)) as Hw.
  { destruct t as [dt sc]. cbn in Ht. subst dt. apply Hok. }
  unfold index_lookup. destruct (find_index_named td txn sec Hsec Hnames Hsn) as [Hf|Hf]; cbn [index_info Optimizer.index_name]; rw Hf.
  { exists None. by split. }
  rw (probe_literal td _ lit i c 0 Hi Hc Hk (Hok 0)). cbn [mbind option_bind].
  destruct (index_keys_cover sec t ts E op _ Hkeep HE Hw Hk Hop) as (pks & -> & Hnd & Hin). exists (Some pks). split; [done|].
  intros ? [= <-]. split; [done|]. intros k vs Hvs Hh. destruct (Hcov k vs Hvs) as (v & rest & Hv & HinE).
  destruct (holds_conjunct td vis pred holds k vs e Hdec Hvs Hh He) as (s & s' & Htrue).
  pose proof (SecondaryIndex.keeps_row _ _ _ Hkeep _ _ HinE) as Hrow.
  assert (SecondaryIndex.col_ok t v) as Hv' by (by inversion Hrow).
  destruct (conjunct_compares (schema td) vs t e _ op _ i v s s' Hcmp Htrue Hi Hv Hv') as (lit' & [= <-] & Hcv).
  exact (Hin v rest k HinE (Hcv Hw Hk)).
Qed.

Lemma omap_filter {A B} (f : A → option B) (l : list A) : omap f l = omap f (filter (λ x, is_Some (f x)) l).
Proof.
  induction l as [|x l IH]; [done|]. rw filter_cons !list_omap_cons. case_decide as Hx.
  - rw list_omap_cons. by rw IH.
  - destruct (f x) eqn:Hf; [|done]. by destruct Hx.
Qed.

Lemma keys_matching (holds : row → bool) vis (pks : list (list Z)) :
  NoDup pks → (∀ k vs, vis !! k = Some vs → holds vs = true → k ∈ pks) →
  omap (λ k, vis !! k ≫= kept holds) pks ≡ₚ matching holds vis.
Proof.
  intros Hnd Hcov.
  assert (matching holds vis = omap (λ k, vis !! k ≫= kept holds) (map_to_list vis).*1) as ->.
  { unfold matching. assert (∀ l : list (list Z * row), (∀ k vs, (k, vs) ∈ l → vis !! k = Some vs) →
      omap (kept holds) l.*2 = omap (λ k, vis !! k ≫= kept holds) l.*1) as Hl.
    { induction l as [|[k vs] l IH]; intros Hin; [done|]. rw !fmap_cons !list_omap_cons. cbn [fst snd].
      rw (Hin k vs); [by left|]. cbn. rw IH; [intros; apply Hin; by right|done]. }
    apply Hl. intros k vs. by rw elem_of_map_to_list. }
  rw (omap_filter _ pks) (omap_filter _ (map_to_list vis).*1). apply omap_Permutation, NoDup_Permutation.
  - by apply NoDup_filter.
  - apply NoDup_filter, NoDup_fst_map_to_list.
  - intros k. rw !list_elem_of_filter. split; intros [Hf Hin]; (split; [done|]);
      destruct Hf as [r (vs & Hk & Hr)%bind_Some].
    + apply list_elem_of_fmap. exists (k, vs). split; [done|]. by apply elem_of_map_to_list.
    + apply (Hcov k vs Hk). unfold kept in Hr. by destruct (holds vs).
Qed.

Lemma index_row_gives td m txn rd vis table filter holds k :
  table_shows td m rd vis → decides td filter holds vis →
  gives txn rd (index_row table td filter txn k) (vis !! k ≫= kept holds).
Proof.
  intros Hts Hdec. apply (chain_gives _ _ _ _ (Tuple.serialize <$> vis !! k)).
  - intros s Hr. exists (txns s). rw (visible_one td m txn rd vis k s Hts Hr). by destruct s.
  - destruct (vis !! k) as [vs|] eqn:Hk; cbn; [|apply return_gives]. by apply (accept_gives td m rd vis table filter holds Hts Hdec).
Qed.

Lemma index_scan_gives td m txn rd vis table filter holds limit pks :
  table_shows td m rd vis → decides td filter holds vis →
  gives txn rd (read_rows (λ e, index_row table td filter txn e.1) limit [] (map (λ pk, (pk, [])) pks))
    (limited limit (omap (λ k, vis !! k ≫= kept holds) pks)).
Proof.
  intros Hts Hdec.
  assert (omap (λ k, vis !! k ≫= kept holds) pks =
    omap (λ e : list Z * list Z, vis !! e.1 ≫= kept holds) (map (λ pk, (pk, [])) pks)) as ->.
  { induction pks as [|k pks IH]; [done|]. cbn. by rw IH. }
  apply (read_rows_gives txn rd _ _ limit _ []); [|by right]. intros e _. by apply (index_row_gives td m txn rd).
Qed.
End scans.
End IndexScanSpec.
