(* ===== verification/QuerySpec.v ===== *)
(** Queries from the syntax tree to the rows: planned, optimised and executed, a
    query over one table returns the rows of the table that the reader sees and
    for which the condition holds, whichever statistics and indexes there are. *)
From S2P Require Import Prelude ByteOrder BTree Value OrderKey BTreeSpec OrderedIndex SecondaryIndex Schema Tuple Transaction VersionStore Civil Sql Lexer Like Strings Float64 Eval EvalProps Scan Collections Plan Stats Cost Optimizer Exec Window Join Aggregate TableAccess TableSpec Subquery Query IndexScanSpec.
Import Value OrderKey Sql Like Strings Eval Collections Plan Exec Window TableAccess TableSpec Query IndexScanSpec.

Module QuerySpec.

Section spec.
Context {J T : Type} `{!EqDecision J} `{!JsonShow J, !JsonRead J} `{!Codecs} `{Unicode} `{FloatText} `{!Engine J} `{!KvTree T} `{!HashOrder} `{!Unordered} `{!Libm}.
Context `{!KvTreeLaws T} `{!CodecLaws} `{!JsonLaws J Tuple.utf8_valid}.
Local Abbreviation row := (list (Value J)).

(** ** Scans *)

(** The rows [vis] of a table [td] that a reader sees, ready to be queried with a
    filter: an ordinary table whose indexes are kept, and a filter whose literals
    have the types of the columns they are compared with. *)
Record queryable (tables : Tables J T) (table : str) (td : TableData J T) (m : gmap (list Z) (list Z)) (rd : Reader)
    (vis : gmap (list Z) row) (filter : option Expr) (holds : row → bool) : Prop := {
  qy_table : tables !! table = Some td;
  qy_ordinary : table ≠ chars "information_schema.tables" ∧ table ≠ chars "information_schema.columns";
  qy_shows : table_shows td m rd vis;
  qy_scan : scan_ok td rd vis filter holds;
  qy_indexes : indexes_kept td vis;
  qy_literals : ∀ p, filter = Some p → literals_typed td p;
}.

Section table.
Context (tables : Tables J T) (table : str) (td : TableData J T) (m : gmap (list Z) (list Z)) (txn : option Z) (rd : Reader)
  (vis : gmap (list Z) row) (filter : option Expr) (holds : row → bool) (other : PhysicalPlan → Q (ExecutionResult J)).
Context (Hq : queryable tables table td m rd vis filter holds).

(** A computation returns the rows for which the condition holds, in some order
    and cut off at a limit. *)
Definition returns (c : Q (ExecutionResult J)) (limit : option Z) : Prop := ∀ s, reads_as txn rd s → ∃ all tm,
  c s = Some (QOk (Rows (col_names td) (limited limit all)), mkSession tm (pending s)) ∧ all ≡ₚ matching holds vis.

Lemma get_table_found s : get_table tables table s = Some (QOk td, s).
Proof. unfold get_table. by rw (qy_table _ _ _ _ _ _ _ _ Hq). Qed.

Lemma seq_scan_returns limit : returns (exec_seq_scan tables table filter txn limit None) limit.
Proof.
  intros s Hr. destruct (qy_ordinary _ _ _ _ _ _ _ _ Hq) as [Hn1 Hn2]. unfold exec_seq_scan. rw !bool_decide_eq_false_2; [done..|].
  destruct (scan_rows_spec td m txn rd vis table filter holds limit s (qy_shows _ _ _ _ _ _ _ _ Hq) (qy_scan _ _ _ _ _ _ _ _ Hq) Hr)
    as (all & tm & Hs & Hall & _).
  exists all, tm. split; [|done]. unfold mbind, Q_bind. rw get_table_found. cbn [mbind option_bind]. by rw Hs.
Qed.

Lemma index_scan_returns name col op val limit pred :
  filter = Some pred → Optimizer.find_index_predicate pred (map (index_info td) (secondary_indexes td)) = Some (name, col, op, val) →
  returns (exec_index_scan tables table name col op val filter limit txn) limit.
Proof.
  intros Hf Hfind s Hr. pose proof (qy_shows _ _ _ _ _ _ _ _ Hq) as Hts. pose proof (so_decides _ _ _ _ _ (qy_scan _ _ _ _ _ _ _ _ Hq)) as Hdec.
  pose proof Hdec as Hdec'. rw Hf in Hdec'.
  destruct (index_lookup_cover td vis pred holds txn name col op val Hdec' (qy_indexes _ _ _ _ _ _ _ _ Hq)
    (qy_literals _ _ _ _ _ _ _ _ Hq pred Hf) Hfind) as (o & Ho & Hcov).
  unfold exec_index_scan, mbind, Q_bind. rw get_table_found. cbn [mbind option_bind]. unfold q_panic at 1. rw Ho. cbn [mbind option_bind].
  destruct o as [pks|]; [|by apply seq_scan_returns]. destruct (Hcov pks eq_refl) as [Hnd Hin].
  pose proof (chain_gives txn rd _ (λ _, read_rows (λ e, index_row table td filter txn e.1) limit [] (map (λ pk, (pk, [])) pks)) ()
    _ (gives_predicate txn rd txn table) (index_scan_gives td m txn rd vis table filter holds limit pks Hts Hdec)) as Hg.
  destruct (Hg s Hr) as (tm & Hs & _).
  exists (omap (λ k, vis !! k ≫= kept holds) pks), tm. split; [|by apply keys_matching].
  unfold mbind, Q_bind in Hs. destruct (ssi_predicate txn table s) as [[[u|e] s1]|]; cbn in Hs |- *; try done. by rw Hs.
Qed.

Lemma snapshot_indexes : index_snapshot tables !! table =
  match secondary_indexes td with [] => None | l => Some (map (index_info td) l) end.
Proof. unfold index_snapshot. rw lookup_omap. by rw (qy_table _ _ _ _ _ _ _ _ Hq). Qed.

(** The scan the planner chooses, sequential or through an index. *)
Lemma planned_scan_returns limit :
  returns (execute_physical tables txn other (Optimizer.select_indexes (SeqScan table filter limit None) (index_snapshot tables))) limit.
Proof.
  cbn [Optimizer.select_indexes]. pose proof seq_scan_returns as Hseq. pose proof index_scan_returns as Hidx.
  pose proof snapshot_indexes as Hsnap. clear Hq.
  destruct filter as [pred|]; [|apply Hseq]. rw Hsnap.
  destruct (secondary_indexes td) as [|sec secs] eqn:Hsec; [apply Hseq|]. cbn [mbind option_bind]. rw -Hsec. rw -Hsec in Hidx.
  destruct (Optimizer.find_index_predicate pred _) as [[[[name col] op] val]|] eqn:Hf; [|apply Hseq].
  by apply (Hidx name col op val limit pred).
Qed.
End table.

(** ** Queries *)

(** [SELECT * FROM table WHERE ... LIMIT ... OFFSET ...]. *)
Definition where_query (table : str) (where_clause : option Expr) (limit offset : option Z) : SelectStmt :=
  mkSelect [SelectStar] false (FromTable table) None [] where_clause [] None [] limit offset [].

Definition page (limit offset : option Z) (rows : list row) : list row :=
  match limit, offset with
  | None, None => rows
  | _, _ => take (Z.to_nat (default usize_max limit)) (drop (Z.to_nat (default 0 offset)) rows)
  end.

Lemma page_limited limit offset (rows : list row) :
  match limit, offset with
  | None, None => limited None rows
  | _, _ => take (Z.to_nat (default usize_max limit)) (drop (Z.to_nat (default 0 offset))
              (limited (if default 0 offset =? 0 then Some (default usize_max limit) else None) rows))
  end = page limit offset rows.
Proof.
  assert (∀ n, take (Z.to_nat n) (drop (Z.to_nat (default 0 offset)) (limited (if default 0 offset =? 0 then Some n else None) rows)) =
    take (Z.to_nat n) (drop (Z.to_nat (default 0 offset)) rows)) as Hn.
  { intros n. case (Z.eqb_spec (default 0 offset) 0) as [->|_]; [|done]. cbn. rw !drop_0 take_take. f_equal. lia. }
  destruct limit, offset; cbn [page]; try done; apply Hn.
Qed.

(** The plan of such a query: the limit is pushed into the scan if no rows are skipped. *)
Lemma plan_where stats table where_clause limit offset :
  ∃ logical, build_logical_plan (Subquery.rewrite_aliases (Select (where_query table where_clause limit offset))) = QOk logical ∧
    ∀ cat, Optimizer.optimize_with_catalog (J := J) logical stats cat =
      Some (PProject match limit, offset with
                     | None, None => Optimizer.select_indexes (SeqScan table where_clause None None) cat
                     | _, _ => PLimit (Optimizer.select_indexes (SeqScan table where_clause
                                 (if default 0 offset =? 0 then Some (default usize_max limit) else None) None) cat)
                                 (default usize_max limit) (default 0 offset)
                     end [SelectStar]).
Proof.
  destruct where_clause as [w|], limit as [n|], offset as [o|]; (eexists; split; [done|]); intros cat;
    unfold Optimizer.optimize_with_catalog; cbn -[Optimizer.select_indexes]; try done;
    destruct (o =? 0); done.
Qed.

Section query.
Context (tables : Tables J T) (table : str) (td : TableData J T) (m : gmap (list Z) (list Z)) (txn : option Z) (rd : Reader)
  (vis : gmap (list Z) row) (where_clause : option Expr) (holds : row → bool) (other : Tables J T → PhysicalPlan → Q (ExecutionResult J))
  (stats : Cost.StatsCatalog (J := J)).
Context (Hq : queryable tables table td m rd vis where_clause holds).

Lemma limit_of_scan (plan : PhysicalPlan) count offset :
  match plan with SeqScan _ _ _ _ | IndexScan _ _ _ _ _ _ _ => True | _ => False end →
  execute_physical tables txn (other tables) (PLimit plan count offset) =
    (r ← execute_physical tables txn (other tables) plan; lift (apply_limit r count offset)).
Proof. by destruct plan. Qed.

Lemma scan_plan filter limit cat :
  match Optimizer.select_indexes (SeqScan table filter limit None) cat with
  | SeqScan _ _ _ _ | IndexScan _ _ _ _ _ _ _ => True
  | _ => False
  end.
Proof.
  cbn [Optimizer.select_indexes]. destruct filter as [pred|]; [|done].
  by destruct (cat !! table ≫= Optimizer.find_index_predicate pred) as [[[[name col] op] val]|].
Qed.

Lemma plan_and_run_where limit offset s :
  reads_as txn rd s → ∃ all tm,
  plan_and_run stats txn other (where_query table where_clause limit offset) tables s =
    Some (QOk (Rows (col_names td) (page limit offset all)), mkSession tm (pending s)) ∧ all ≡ₚ matching holds vis.
Proof.
  intros Hr. unfold plan_and_run. destruct (plan_where stats table where_clause limit offset) as (logical & -> & Hopt). rw Hopt.
  unfold q_panic, mbind, Q_bind. cbn [mbind option_bind execute_physical].
  set (lim := if default 0 offset =? 0 then Some (default usize_max limit) else None).
  destruct (planned_scan_returns tables table td m txn rd vis where_clause holds (other tables) Hq
    (match limit, offset with None, None => None | _, _ => lim end) s Hr) as (all & tm & Hs & Hall).
  exists all, tm. split; [|done]. rw -page_limited. fold lim.
  destruct limit as [n|], offset as [o|].
  4: unfold mbind, Q_bind; by rw Hs.
  all: rw limit_of_scan; [apply scan_plan|]; unfold mbind, Q_bind; by rw Hs.
Qed.

(** C3: [SELECT * FROM t WHERE p LIMIT n OFFSET o], planned with any statistics
    and with the indexes of the table, and executed, returns the rows [o .. o+n)
    of the rows of [t] that the transaction's snapshot shows and for which [p]
    holds, in some order: whether the rows are found by primary key, through a
    secondary index, in parallel or one by one, and with the limit pushed into the
    scan. No table is changed and no error is left.

    The conditions ([queryable]) are: the rows are read back from their encodings
    and no value is stored compressed; [p] evaluates without an error on every row
    and does not compare a timestamp column with an integer. If [p] is an equality
    on the primary key, rows are stored under their keys and the literal has the
    type of the key. Outside a transaction, a [p] of the form column-compared-with-
    literal is decided on the encoded rows it holds for ([so_raw]: a boolean or
    decimal column never is, and the sequential scan drops such rows). Inside a transaction, [p] is not a
    pair of bounds on the primary key ([so_range]: those are read from the tree
    alone). Every index has the entries of the visible rows, with values of the
    types of the columns (decimals of one scale, no NaN, [-0.0] or JSON), and the
    literals compared with the first column of an index have its type. *)
Theorem select_where_correct top limit offset s :
  reads_as txn rd s → ∃ all tm,
  execute_select stats txn other top (where_query table where_clause limit offset) (tables, s) =
    Some (QOk (Rows (col_names td) (page limit offset all)), (tables, mkSession tm (if top then false else pending s))) ∧
  all ≡ₚ matching holds vis.
Proof.
  intros Hr. set (s0 := if top then mkSession (txns s) false else s).
  destruct (plan_and_run_where limit offset s0) as (all & tm & Hs & Hall).
  { unfold s0. destruct top; [|done]. unfold reads_as in *. by destruct txn, rd as [[]|]. }
  exists all, tm. split; [|done]. cbn [execute_select where_query]. unfold statement, run_select, on_tables, where_query in *.
  fold s0. cbn [mbind option_bind]. rw Hs. cbn. unfold s0. by destruct top.
Qed.
End query.
End spec.

(** ** A table with an index *)

(** A tree with the pairs given. *)
Definition build_tree {T} `{!KvTree T} (name : string) (l : list (list Z * list Z)) : T :=
  foldr (λ kv t, default t (kt_insert t kv.1 kv.2)) (kt_new name 64) l.

Lemma build_tree_rep {T} `{!KvTree T, !KvTreeLaws T} name l : kt_rep (build_tree name l) (list_to_map l).
Proof.
  induction l as [|[k v] l IH]; [apply kt_new_rep; lia|]. destruct (kt_insert_rep _ _ k v IH) as (t' & Hi & Hr).
  assert (build_tree name ((k, v) :: l) = t') as ->; [|done]. unfold build_tree in *. cbn. by rw Hi.
Qed.

Section example.
#[local] Existing Instance Tuple.sample_codecs.
#[local] Existing Instance Tuple.sample_codec_laws.
#[local] Existing Instance Tuple.sample_show.
#[local] Existing Instance Tuple.sample_read.
#[local] Existing Instance Tuple.sample_json.
#[local] Existing Instance Lexer.ascii_only.
#[local] Existing Instance Lexer.no_floats.
#[local] Existing Instance Scan.sample_engine.
#[local] Existing Instance Collections.plain.
#[local] Existing Instance SecondaryIndex.Value_eq_dec.
#[local] Instance no_libm : Libm := { f64_log2 := id; f64_powf := λ x _, x }.
Local Abbreviation V := (Value unit).

Definition city_schema : Schema.Schema (J := unit) :=
  Schema.new "t" [Schema.with_primary_key (Schema.column_new "id" TInt64); Schema.column_new "city" TText].
Definition city_rows : list (list V) := [[Int64 1; Text (chars "ulm")]; [Int64 2; Text (chars "bonn")]; [Int64 3; Text (chars "bonn")]].
Definition keyed_rows : list (list Z * list V) := map (λ r, (Tuple.key_bytes r [0%nat], r)) city_rows.
Definition city_vis : gmap (list Z) (list V) := list_to_map keyed_rows.
Definition city_data : list (list Z * list Z) := map (λ kr, (kr.1, Tuple.serialize kr.2)) keyed_rows.
Definition city_ops : list (SecondaryIndex.iop (J := unit)) :=
  map (λ kr : list Z * list V, SecondaryIndex.IInsert (drop 1 kr.2) kr.1) keyed_rows.
Definition city_index : SecondaryIndex.SecondaryIndex BTree.BTree.BPlusTree :=
  match SecondaryIndex.run_index (SecondaryIndex.new "by_city" [1%nat] false) city_ops with
  | Some (ix, _) => ix
  | None => SecondaryIndex.new "by_city" [1%nat] false
  end.
Definition city_table : TableData unit BTree.BTree.BPlusTree :=
  mkTable city_schema (build_tree "t" city_data) VersionStore.new [] [city_index].
Definition city_tables : Tables unit BTree.BTree.BPlusTree := {[chars "t" := city_table]}.
Definition city_where : Expr :=
  BinaryOp (BinaryOp (Column (chars "city")) OpEq (Literal (LString (chars "bonn")))) OpAnd
           (BinaryOp (Column (chars "id")) OpGt (Literal (Integer 1))).
Definition city_holds (r : list V) : bool :=
  match eval_predicate city_schema r city_where false with Some (b, _) => b | None => false end.

Lemma city_all (P : list Z → list V → Prop) :
  Forall (λ kr, P kr.1 kr.2) keyed_rows → ∀ k vs, city_vis !! k = Some vs → P k vs.
Proof. intros HP k vs Hin%elem_of_list_to_map_2. rw Forall_forall in HP. exact (HP (k, vs) Hin). Qed.

(** A property of every row of the table, checked row by row. *)
Ltac each_city := apply city_all; unfold keyed_rows, city_rows; cbn [map]; repeat apply Forall_cons_2; [..|apply Forall_nil_2]; cbn [fst snd].

Lemma small_stored n s : i64_ok n → forallb (λ b, (0 <=? b) && (b <? 256)) s = true → zlen s < 64 → Scan.stored ([Int64 n; Text s] : list V).
Proof.
  intros Hn Hs Hl. split; [split|split; [done|]]; repeat apply Forall_cons_2; try apply Forall_nil_2; try done; cbn; [|lia].
  apply Forall_forall. intros b Hb%list_elem_of_In. rw forallb_forall in Hs. specialize (Hs b Hb). unfold byte_ok. lia.
Qed.

Lemma city_shows : table_shows city_table (list_to_map city_data) None city_vis.
Proof.
  split.
  - apply build_tree_rep.
  - exists ∅. split; [apply VersionStore.store_rel_new|done].
  - intros k. cbn [shown]. rw -lookup_fmap. by f_equal.
  - each_city; apply small_stored; done.
Qed.

Lemma city_scan : scan_ok city_table None city_vis (Some city_where) city_holds.
Proof.
  split; try done.
  - intros k vs b. revert k vs. each_city; by destruct b; vm_compute.
Qed.

Lemma city_ops_ok : Forall (SecondaryIndex.iop_ok [SecondaryIndex.mkColType TText 0]) city_ops.
Proof. repeat constructor; by vm_compute. Qed.

Lemma city_indexes : indexes_kept city_table city_vis.
Proof.
  destruct (SecondaryIndex.new_run (T := BTree.BTree.BPlusTree) _ "by_city" [1%nat] false city_ops city_ops_ok) as (ix & Hrun & Hk & Hok).
  assert (city_index = ix) as Heq by (unfold city_index; by rw Hrun).
  split; [|apply NoDup_singleton]. constructor; [|constructor]. split; [|by vm_compute].
  exists 1%nat, [], (Schema.column_new "city" TText), (SecondaryIndex.mkColType TText 0), [], (SecondaryIndex.run_set "by_city" false [] city_ops).1.
  rw -Heq in Hk. split; [by vm_compute|]. split; [by vm_compute|]. split; [by vm_compute|]. split; [by vm_compute|]. split; [done|].
  split; [exact Hk|]. split.
  - split; [|exact (SecondaryIndex.eo_pk _ _ Hok)]. apply (bool_decide_unpack _). by vm_compute.
  - each_city; eexists _, []; (split; [done|]); apply (bool_decide_unpack _); by vm_compute.
Qed.

Lemma city_literals : literals_typed city_table city_where.
Proof.
  intros e col op lit i c sec _ _ He. cbn in He. apply elem_of_cons in He as [->|[->|[]%not_elem_of_nil]%elem_of_cons]; cbn; intros [= <- <- <-];
    vm_compute; intros [= <-] [= <-]; (split; [done|]); intros sc; split; try done; by repeat constructor.
Qed.

Lemma city_queryable : queryable city_tables (chars "t") city_table (list_to_map city_data) None city_vis (Some city_where) city_holds.
Proof.
  split; [by vm_compute|done|exact city_shows|exact city_scan|exact city_indexes|]. intros p [= <-]. exact city_literals.
Qed.

Lemma select_where_correct_witness :
  ∃ all tm, execute_select ∅ None (λ _ _, q_fail (QPlan [])) true (where_query (chars "t") (Some city_where) (Some 5) None)
      (city_tables, mkSession Transaction.new false) =
    Some (QOk (Rows [chars "id"; chars "city"] all), (city_tables, mkSession tm false)) ∧
  all ≡ₚ [[Int64 2; Text (chars "bonn")]; [Int64 3; Text (chars "bonn")]].
Proof.
  destruct (select_where_correct city_tables (chars "t") city_table (list_to_map city_data) None None city_vis (Some city_where) city_holds
    (λ _ _, q_fail (QPlan [])) ∅ city_queryable true (Some 5) None (mkSession Transaction.new false) I) as (all & tm & Hs & Hall).
  assert (matching city_holds city_vis ≡ₚ [[Int64 2; Text (chars "bonn")]; [Int64 3; Text (chars "bonn")]]) as Hm.
  { vm_compute. apply perm_swap. }
  rw Hm in Hall. exists all, tm. split; [|done]. rw Hs. repeat f_equal. cbn. rw drop_0. apply take_ge. rw Hall. cbn. lia.
Defined.
End example.
End QuerySpec.
