(* ===== verification/QueryFindings.v ===== *)
(** Queries whose results are not what they say, computed by the model: a filter
    forgotten by ORDER BY with LIMIT, rows lost by a range of the primary key
    inside a transaction, and a common table expression that cannot be searched by
    its first column. *)
From S2P Require Import Prelude ByteOrder BTree Value OrderKey BTreeSpec OrderedIndex SecondaryIndex Schema Tuple Transaction VersionStore Civil Sql Lexer Like Strings Float64 Eval Scan Collections Plan Stats Cost Optimizer Exec Window Join Aggregate TableAccess TableSpec Subquery Query IndexScanSpec QuerySpec.
Import Value OrderKey Sql Like Strings Eval Collections Plan Exec TableAccess Query QuerySpec.

Module QueryFindings.

#[local] Existing Instance Tuple.sample_codecs.
#[local] Existing Instance Tuple.sample_show.
#[local] Existing Instance Tuple.sample_read.
#[local] Existing Instance Lexer.ascii_only.
#[local] Existing Instance Lexer.no_floats.
#[local] Existing Instance Scan.sample_engine.
#[local] Existing Instance Collections.plain.
#[local] Existing Instance no_libm.
Local Abbreviation tables_of := (Tables unit BTree.BTree.BPlusTree).

(** A statement outside a transaction, and inside a new one. *)
Definition query_rows (tables : tables_of) (txn : option Z) (tm : Transaction.TransactionManager) (q : SelectStmt) : option (list (list (Value unit))) :=
  '(r, _) ← execute_select ∅ txn (λ _ _, q_fail (QPlan [])) true q (tables, mkSession tm false);
  match r with QOk (Rows _ rows) => Some rows | _ => None end.
Definition outside (tables : tables_of) (q : SelectStmt) : option (list (list (Value unit))) := query_rows tables None Transaction.new q.
Definition inside (tables : tables_of) (q : SelectStmt) : option (list (list (Value unit))) :=
  let '(tm, tid) := Transaction.begin Transaction.ReadCommitted 0 Transaction.new in query_rows tables (Some tid) tm q.

Definition table_with (rows : list (list (Value unit))) : tables_of :=
  {[chars "t" := mkTable city_schema (build_tree "t" (map (λ r, (Tuple.key_bytes r [0%nat], Tuple.serialize r)) rows)) VersionStore.new [] []]}.
Definition cities : tables_of := table_with city_rows.

Definition ordered_query (w : Expr) : SelectStmt :=
  mkSelect [SelectStar] false (FromTable (chars "t")) None [] (Some w) [] None [mkOrderBy (Column (chars "id")) true None] (Some 1) None [].

(** [SELECT * FROM t WHERE city = 'bonn' AND id > 1 ORDER BY id LIMIT 1] returns a
    row of another city: the top-n scan applies a filter only if it is one
    comparison of a column with a literal. Without LIMIT the filter is applied. *)
Theorem top_n_forgets_filter :
  outside cities (ordered_query city_where) = Some [[Int64 1; Text (chars "ulm")]] ∧
  outside cities (where_query (chars "t") (Some city_where) None None) =
    Some [[Int64 2; Text (chars "bonn")]; [Int64 3; Text (chars "bonn")]].
Proof. by vm_compute. Qed.

Definition id_between (lo hi : Z) : Expr :=
  BinaryOp (BinaryOp (Column (chars "id")) OpGte (Literal (Integer lo))) OpAnd (BinaryOp (Column (chars "id")) OpLte (Literal (Integer hi))).
Definition one_row : tables_of := table_with [[Int64 45; Text (chars "ulm")]].

(** Keys are little-endian, so a range of keys is not a range of integers:
    [id >= 1 AND id <= 300] finds the row 45 outside a transaction and not inside
    one. *)
Theorem pk_range_loses_rows :
  outside one_row (where_query (chars "t") (Some (id_between 1 300)) None None) = Some [[Int64 45; Text (chars "ulm")]] ∧
  inside one_row (where_query (chars "t") (Some (id_between 1 300)) None None) = Some [].
Proof. by vm_compute. Qed.

Definition with_cte (w : option Expr) : SelectStmt :=
  mkSelect [SelectStar] false (FromTable (chars "c")) None [] w [] None [] None None
    [mkCte (chars "c") (where_query (chars "t") None None None)].

(** A common table expression is stored under row numbers while its first column
    is taken for the primary key: [WITH c AS (SELECT * FROM t) SELECT * FROM c WHERE
    id = 2] returns nothing. *)
Theorem cte_not_found_by_first_column :
  outside cities (with_cte None) = Some city_rows ∧
  outside cities (with_cte (Some (BinaryOp (Column (chars "id")) OpEq (Literal (Integer 2))))) = Some [].
Proof. by vm_compute. Qed.

(** A common table expression named like a table removes that table. *)
Theorem cte_removes_table :
  let q := mkSelect [SelectStar] false (FromTable (chars "t")) None [] None [] None [] None None
             [mkCte (chars "t") (where_query (chars "t") None None None)] in
  (λ r : qresult (ExecutionResult unit) * (tables_of * Session), r.2.1 !! chars "t") <$>
    execute_select ∅ None (λ _ _, q_fail (QPlan [])) true q (cities, mkSession Transaction.new false) = Some None.
Proof. by vm_compute. Qed.
End QueryFindings.
