(* ===== verification/RowShape.v ===== *)
(** The shape of results: every operator of a plan returns rows that are as wide
    as the list of column names, with the columns that the plan says. *)
From S2P Require Import Prelude ByteOrder BTree Value OrderKey BTreeSpec OrderedIndex SecondaryIndex Schema Tuple Transaction VersionStore Civil Sql Lexer Like Strings Float64 Eval Scan Collections Plan Exec Window Join Aggregate TableAccess TableSpec Subquery Query IndexScanSpec QuerySpec.
Import Value OrderKey Sql Like Strings Eval Collections Plan Exec Window Join Aggregate TableAccess Query.

Module RowShape.

(** ** Rows of one width *)

Section wide.
Context {J : Type}.
Local Abbreviation row := (list (Value J)).

Definition wide (n : nat) (rows : list row) : Prop := Forall (λ r, length r = n) rows.

Lemma wide_incl n (l l' : list row) : (∀ r, r ∈ l' → r ∈ l) → wide n l → wide n l'.
Proof. unfold wide. rw !Forall_forall. auto. Qed.

Lemma wide_rows_at n (rows : list row) indices : wide n rows → wide n (rows_at rows indices).
Proof.
  apply wide_incl. intros r (i & _ & Hi)%list_elem_of_omap. exact (list_elem_of_lookup_2 _ _ _ Hi).
Qed.
End wide.

Section operators.
Context {J : Type} `{Unicode} `{FloatText} `{!Engine J} `{!JsonShow J, !JsonRead J} `{!Codecs} `{!Unordered} `{!UnorderedLaws}.
Local Abbreviation V := (Value J).
Local Abbreviation row := (list V).
Local Abbreviation result := (ExecutionResult J).

(** A result of the right shape, with the columns [cols]. *)
Definition shaped (cols : list str) (r : result) : Prop :=
  match r with Rows columns rows => columns = cols ∧ wide (length columns) rows | _ => False end.
Definition shaped_any (r : result) : Prop := match r with Rows columns rows => wide (length columns) rows | _ => True end.

(** A computation whose rows, if it returns any, satisfy [P]. *)
Definition yields (c : X result) (P : result → Prop) : Prop := ∀ b r b', c b = Some (QOk r, b') → P r.

(** ** Filter, DISTINCT, LIMIT *)

Lemma bind_E {A B} (m : E A) (f : A → E B) b r b' :
  (m ≫= f) b = Some (r, b') → ∃ a c, m b = Some (a, c) ∧ f a c = Some (r, b').
Proof. unfold mbind, E_bind. intros ([a c] & Ha & Hf)%bind_Some. by exists a, c. Qed.

Lemma bind_X {A B} (m : X A) (f : A → X B) b r b' :
  (m ≫= f) b = Some (QOk r, b') → ∃ a c, m b = Some (QOk a, c) ∧ f a c = Some (QOk r, b').
Proof. unfold mbind, X_bind. intros ([[a|e] c] & Ha & Hf)%bind_Some; [by exists a, c|done]. Qed.

Lemma ok_X {A} (m : E A) b a b' : ok m b = Some (QOk a, b') → m b = Some (a, b').
Proof. unfold ok. by intros ([x c] & -> & [= <- <-])%bind_Some. Qed.

Lemma panic_X {A} (o : option A) b a b' : panic_unless o b = Some (QOk a, b') → o = Some a.
Proof. unfold panic_unless. by intros (x & -> & [= <- <-])%bind_Some. Qed.

Lemma filter_incl schema p (rows : list row) b l b' :
  filter_rows schema p rows b = Some (l, b') → ∀ r, r ∈ l → r ∈ rows.
Proof.
  revert b l b'. induction rows as [|x rows IH]; cbn [filter_rows]; intros b l b'; [by intros [= <- _]|].
  intros (keep & c & _ & (rest & c' & Hr & [= <- _])%bind_E)%bind_E r. specialize (IH _ _ _ Hr r).
  destruct keep; rw ?elem_of_cons; naive_solver.
Qed.

Lemma distinct_incl key seen (rows : list row) r : r ∈ distinct_rows key seen rows → r ∈ rows.
Proof.
  revert seen. induction rows as [|x rows IH]; cbn [distinct_rows]; intros seen; [done|].
  case_bool_decide; rw !elem_of_cons; [by intros ?%IH; right|intros [->|?%IH]; [by left|by right]].
Qed.

Lemma filter_shaped cols r p : shaped cols r → yields (apply_filter r p) (shaped cols).
Proof.
  destruct r as [columns rows| |]; try done. intros [-> Hw] b r b' (l & c & Hl%ok_X & [= <- _])%bind_X. split; [done|].
  by eapply wide_incl; [apply (filter_incl _ _ _ _ _ _ Hl)|].
Qed.

Lemma distinct_shaped cols r : shaped cols r → yields (apply_distinct r) (shaped cols).
Proof.
  destruct r as [columns rows| |]; try done. intros [-> Hw] b r b' [= <- _]. split; [done|].
  eapply wide_incl; [|exact Hw]. intros r. apply distinct_incl.
Qed.

Lemma limit_shaped cols r count offset : shaped cols r → yields (apply_limit r count offset) (shaped cols).
Proof.
  destruct r as [columns rows| |]; try done. intros [-> Hw] b r b' [= <- _]. split; [done|].
  by apply Forall_take, Forall_drop.
Qed.

(** ** Sorting *)

Lemma perm_incl {A} (l l' : list A) : l' ≡ₚ l → ∀ x, x ∈ l' → x ∈ l.
Proof. intros Hp x. by rw Hp. Qed.

Lemma sequence_map {A B} (f : A → E B) (l : list A) b r b' :
  sequence (map f l) b = Some (r, b') → Forall2 (λ x y, ∃ c c', f x c = Some (y, c')) l r.
Proof.
  revert b r b'. induction l as [|x l IH]; cbn; intros b r b'; [intros [= <- _]; constructor|].
  intros (y & c & Hy & (ys & c' & Hys & [= <- _])%bind_E)%bind_E. constructor; [by exists b, c|exact (IH _ _ _ Hys)].
Qed.

Lemma order_keys_rows schema order_by (rows : list row) keyed :
  Forall2 (λ x y, ∃ c c', order_keys schema order_by x c = Some (y, c')) rows keyed → map snd keyed = rows.
Proof.
  induction 1 as [|x y rows keyed (c & c' & Hy) _ IH]; [done|]. cbn. rw IH.
  unfold order_keys in Hy. apply bind_E in Hy as (ks & d & _ & [= <- _]). done.
Qed.

Lemma sort_incl columns order_by (rows : list row) b l b' :
  sort_rows columns order_by rows b = Some (QOk l, b') → ∀ r, r ∈ l → r ∈ rows.
Proof.
  assert (∀ cols, (cmp ← panic_unless (comparable (sort_rows_cmp cols) rows); mret (sort_unstable_by cmp rows) : X (list row)) b = Some (QOk l, b') →
    ∀ r, r ∈ l → r ∈ rows) as Hcmp.
  { intros cols (cmp & c & _ & [= <- _])%bind_X. apply perm_incl, sort_unstable_perm. }
  unfold sort_rows. case_bool_decide.
  - destruct (sort_columns columns order_by) as [|[[i asc] [nf|]] [|]]; try (by apply Hcmp).
    destruct (all_int i rows); [|by apply Hcmp]. intros [= <- _] r (n & _ & Hn)%list_elem_of_omap.
    exact (list_elem_of_lookup_2 _ _ _ Hn).
  - unfold sort_by_exprs. destruct (zlen rows <? 2); [by intros [= <- _]|].
    intros (keyed & c & Hk%ok_X%sequence_map & (cmp & c' & _ & [= <- _])%bind_X)%bind_X r.
    rw -(order_keys_rows _ _ _ _ Hk). rw !list_elem_of_In !in_map_iff. intros (kr & <- & Hin%list_elem_of_In). exists kr. split; [done|].
    rw sort_by_perm in Hin. by apply list_elem_of_In.
Qed.

Lemma heap_incl {A} (c : A → A → comparison) n heap l h : heap_loop c n heap l = Some h → ∀ x, x ∈ h → x ∈ heap ∨ x ∈ l.
Proof.
  revert heap. induction l as [|x l IH]; cbn [heap_loop]; intros heap; [intros [= <-]; by left|].
  destruct (n <? length (heap_push x heap))%nat.
  - destruct (heap_pop_some c (heap_push x heap)) as (m & rest & -> & Hp & _); [done|]. cbn. intros Hh y Hy.
    destruct (IH rest Hh y Hy) as [Hr|]; [|by right; right]. assert (y ∈ heap_push x heap) as Hin by (rw Hp; by right).
    unfold heap_push in Hin. apply elem_of_cons in Hin as [->|]; [by right; left|by left].
  - intros Hh y Hy. destruct (IH _ Hh y Hy) as [[->|]%elem_of_cons|]; [by right; left|by left|by right; right].
Qed.

Lemma top_n_incl columns order_by n (rows l : list row) : top_n_rows columns order_by n rows = Some l → ∀ r, r ∈ l → r ∈ rows.
Proof.
  unfold top_n_rows. set (cols := map fst _).
  assert (∀ cs, top_n cs n rows = Some l → ∀ r, r ∈ l → r ∈ rows) as Htop.
  { intros cs (_ & _ & (cmp & _ & (h & Hh & [= <-])%bind_Some)%bind_Some)%bind_Some r. rw sort_unstable_perm. intros Hr.
    by destruct (heap_incl _ _ _ _ _ Hh r Hr) as [?%not_elem_of_nil|]. }
  assert (∀ i asc, top_n_int i asc n rows = Some l → ∀ r, r ∈ l → r ∈ rows) as Hint.
  { intros i asc (_ & _ & (keyed & _ & (h & _ & [= <-])%bind_Some)%bind_Some)%bind_Some r (p & _ & Hp)%list_elem_of_omap.
    exact (list_elem_of_lookup_2 _ _ _ Hp). }
  destruct cols as [|[i asc] cols']; [intros [= <-] r; intros (? & Hi & _)%elem_of_take; exact (list_elem_of_lookup_2 _ _ _ Hi)|]. destruct (zlen rows <=? n).
  - intros (cmp & _ & [= <-])%bind_Some r. by rw sort_unstable_perm.
  - destruct cols'; [|apply Htop]. destruct (all_int i rows); [apply Hint|apply Htop].
Qed.

Lemma sort_shaped cols r order_by : shaped cols r → yields (apply_sort r order_by) (shaped cols).
Proof.
  destruct r as [columns rows| |]; try done. intros [-> Hw] b r b' (l & c & Hl & [= <- _])%bind_X. split; [done|].
  eapply wide_incl; [|exact Hw]. exact (sort_incl _ _ _ _ _ _ Hl).
Qed.

Lemma top_n_shaped cols r order_by n : shaped cols r → yields (apply_top_n r order_by n) (shaped cols).
Proof.
  destruct r as [columns rows| |]; try done. intros [-> Hw] b r b' (l & c & Hl%panic_X & [= <- _])%bind_X. split; [done|].
  eapply wide_incl; [|exact Hw]. exact (top_n_incl _ _ _ _ _ Hl).
Qed.

(** ** Joins *)

Lemma wide_bind {A} n (f : A → list row) (l : list A) : (∀ x, x ∈ l → wide n (f x)) → wide n (l ≫= f).
Proof. intros Hf. induction l as [|x l IH]; [constructor|]. cbn. apply Forall_app. split; [apply Hf; by left|apply IH; intros; apply Hf; by right]. Qed.

Lemma wide_joined lw rw (l : row) (rs : list row) : length l = lw → wide rw rs → wide (lw + rw) (map (λ r, l ++ r) rs).
Proof. intros Hl Hr. apply Forall_map. eapply Forall_impl; [exact Hr|]. intros r <-. cbn. by rw length_app Hl. Qed.

Lemma wide_joined_left lw rw (ls : list row) (r : row) : wide lw ls → length r = rw → wide (lw + rw) (map (λ l, l ++ r) ls).
Proof. intros Hl Hr. apply Forall_map. eapply Forall_impl; [exact Hl|]. intros l <-. cbn. by rw length_app Hr. Qed.

Lemma length_resize w (r : row) : length (resize w r) = w.
Proof. unfold resize. rw length_app length_take length_replicate. lia. Qed.

Lemma inner_wide {K} `{Countable K} (lk rk : row → option K) lw rw left_rows right_rows :
  wide lw left_rows → wide rw right_rows →
  wide (lw + rw) (inner_on_left lk rk left_rows right_rows) ∧ wide (lw + rw) (inner_join lk rk left_rows right_rows).
Proof.
  intros Hl Hr. pose proof Hl as Hl'. pose proof Hr as Hr'. unfold wide in Hl', Hr'. rw !Forall_forall in Hl', Hr'. split; apply wide_bind; intros x Hx.
  - apply wide_joined_left; [by apply wide_rows_at|by apply Hr'].
  - apply wide_joined; [by apply Hl'|by apply wide_rows_at].
Qed.

Lemma join_wide {K} `{Countable K} (lk rk : row → option K) lw rw left_rows right_rows jt :
  wide lw left_rows → wide rw right_rows → wide (lw + rw) (join_rows lk rk left_rows right_rows lw rw jt).
Proof.
  intros Hl Hr. pose proof Hl as Hl'. pose proof Hr as Hr'. unfold wide in Hl', Hr'. rw !Forall_forall in Hl', Hr'.
  destruct jt; [by apply inner_wide|..]; apply wide_bind; intros x Hx; destruct (probe _ _) as [|h hits].
  - apply Forall_singleton. apply length_resize.
  - apply wide_joined; [by apply Hl'|by apply wide_rows_at].
  - apply Forall_singleton. rw length_app length_replicate. by rw (Hr' x Hx).
  - apply wide_joined_left; [by apply wide_rows_at|by apply Hr'].
Qed.

Lemma length_qualified t cols : length (qualified t cols) = length cols.
Proof. apply length_map. Qed.

Lemma join_shaped lc rc l r lt rt condition jt :
  shaped lc l → shaped rc r → yields (hash_join lt rt l r condition jt) (shaped (qualified lt lc ++ qualified rt rc)).
Proof.
  destruct l as [? lrows| |]; try done. destruct r as [? rrows| |]; try done. intros [-> Hl] [-> Hr] b res b' Hj. unfold hash_join in Hj.
  apply bind_X in Hj as ([li ri] & c & _ & Hj).
  assert (∀ rows, wide (length lc + length rc) rows → shaped (qualified lt lc ++ qualified rt rc) (Rows (qualified lt lc ++ qualified rt rc) rows)) as Hs.
  { intros rows Hw. split; [done|]. by rw length_app !length_qualified. }
  destruct (all_ints ri rrows && all_ints li lrows).
  - destruct jt; [destruct (length lrows <? length rrows)%nat|..]; injection Hj as <- _; apply Hs;
      [by apply inner_wide|by apply inner_wide|by apply (join_wide _ _ _ _ _ _ JLeft)|by apply (join_wide _ _ _ _ _ _ JRight)].
  - destruct (match jt with JLeft => _ | _ => _ end); [by apply panic_X in Hj|]. injection Hj as <- _. by apply Hs, join_wide.
Qed.

(** ** Projections *)

Lemma project_length schema cols columns (r : row) b l b' :
  length r = length cols → project_row schema (map (proj_step cols) columns) r b = Some (l, b') → length l = length (projected_names cols columns).
Proof.
  intros Hr. revert b l b'. induction columns as [|c columns IH]; cbn [map project_row]; intros b l b'; [by intros [= <- _]|].
  intros (vs & d & Hv & (rest & d' & Hrest & [= <- _])%bind_E)%bind_E. unfold projected_names. cbn [mbind list_bind]. rw !length_app.
  rw (IH _ _ _ Hrest : length rest = length (projected_names cols columns)). unfold projected_names. f_equal.
  destruct c as [|e alias]; cbn in Hv; [by injection Hv as <- _|].
  destruct e; cbn in Hv; try (apply bind_E in Hv as (v & d0 & _ & Hv)); try (by injection Hv as <- _).
  destruct (position_of _ cols); [by injection Hv as <- _|]. apply bind_E in Hv as (v & d0 & _ & Hv). by injection Hv as <- _.
Qed.

Lemma window_length schema cols columns windows n (r : row) b l b' :
  length r = length cols → window_row schema cols columns windows n r b = Some (l, b') → length l = length (window_names cols columns).
Proof.
  intros Hr. revert windows b l b'. induction columns as [|c columns IH]; cbn [window_row]; intros windows b l b'; [by intros [= <- _]|].
  intros (vs & d & Hv & (rest & d' & Hrest & [= <- _])%bind_E)%bind_E. unfold window_names. cbn [mbind list_bind]. rw !length_app.
  rw (IH _ _ _ _ Hrest : length rest = length (window_names cols columns)). unfold window_names. f_equal.
  destruct c as [|e alias]; cbn in Hv; [by injection Hv as <- _|].
  destruct e; cbn in Hv; try (apply bind_E in Hv as (v & d0 & _ & Hv)); by injection Hv as <- _.
Qed.

Lemma sequence_all {A} (l : list (E A)) (P : A → Prop) b r b' :
  (∀ m, m ∈ l → ∀ b y b', m b = Some (y, b') → P y) → sequence l b = Some (r, b') → Forall P r.
Proof.
  revert b r b'. induction l as [|m l IH]; cbn; intros b r b' Hm; [intros [= <- _]; constructor|].
  intros (y & c & Hy & (ys & c' & Hys & [= <- _])%bind_E)%bind_E. constructor.
  - apply (Hm m) in Hy; [done|by left].
  - apply (IH c ys c'); [|done]. intros m' Hin. apply Hm. by right.
Qed.

(** The columns of a projection. *)
Definition projection_columns (cols : list str) (columns : list SelectColumn) : list str :=
  if existsb (λ c, match c with SelectStar => true | _ => false end) columns then cols
  else if existsb is_window columns then window_names cols columns
  else projected_names cols columns.

Lemma projection_shaped cols r columns src :
  shaped cols r → yields (apply_projection r columns src) (shaped (projection_columns cols columns)).
Proof.
  destruct r as [cs rows| |]; try done. intros [-> Hw] b r b'. unfold apply_projection, projection_columns.
  destruct (existsb _ columns); [by intros [= <- _]|]. unfold wide in Hw. rw Forall_forall in Hw. destruct (existsb is_window columns).
  - intros (windows & c & _ & (new & c' & Hn%ok_X & [= <- _])%bind_X)%bind_X. split; [done|].
    apply (sequence_all _ (λ l, length l = length (window_names cols columns))) in Hn; [done|].
    intros m (n & x & -> & Hx)%elem_of_lookup_imap b0 y b0'. apply window_length, Hw. exact (list_elem_of_lookup_2 _ _ _ Hx).
  - intros (new & c & Hn%ok_X & [= <- _])%bind_X. split; [done|].
    apply (sequence_all _ (λ l, length l = length (projected_names cols columns))) in Hn; [done|].
    intros m (x & <- & Hx%list_elem_of_In)%list_elem_of_In%in_map_iff b0 y b0'. by apply project_length, Hw.
Qed.

(** ** Aggregates *)

Definition is_function (e : Expr) : Prop := match e with Function _ _ => True | _ => False end.

Lemma fold_functions (f : Expr → list Expr * gset str → list Expr * gset str) (l : list Expr) acc :
  Forall (λ e, ∀ acc, Forall is_function acc.1 → Forall is_function (f e acc).1) l → Forall is_function acc.1 →
  Forall is_function (foldl (λ acc e, f e acc) acc l).1.
Proof. intros Hl. revert acc. induction Hl as [|e l He _ IH]; intros acc Ha; [done|]. cbn. by apply IH, He. Qed.

Lemma collected_functions e acc : Forall is_function acc.1 → Forall is_function (collect_agg_functions e acc).1.
Proof.
  revert acc. apply (Subquery.expr_ind' (λ e, ∀ acc, Forall is_function acc.1 → Forall is_function (collect_agg_functions e acc).1) (λ _, True)); try done.
  - intros [| | | | | | | | | | | | | | | | | |]; done.
  - intros l op r IHl IHr acc Ha. cbn. auto.
  - intros n args Hargs acc Ha. cbn [collect_agg_functions]. case_bool_decide; [|by apply fold_functions].
    case_bool_decide; [done|]. apply Forall_app. by split; [|apply Forall_singleton].
  - intros e' l He Hl acc Ha. cbn. apply fold_functions; auto.
  - intros e' a b0 He Ha Hb acc Hacc. cbn. auto.
  - intros o ws els Ho Hws Hels acc Ha. cbn [collect_agg_functions].
    assert (∀ acc', Forall is_function acc'.1 → Forall is_function
      (foldl (λ acc wt, collect_agg_functions wt.2 (collect_agg_functions wt.1 acc)) acc' ws).1) as Hw.
    { clear -Hws. induction Hws as [|wt ws [H1 H2] _ IH]; intros acc' Hacc; [done|]. cbn. auto. }
    destruct o as [o|], els as [els|]; cbn in *; auto.
Qed.

Lemma agg_names_length aggregates having :
  length (omap (λ e, match e with Function name args => Some (agg_func_col_name name args) | _ => None end) (agg_functions_of aggregates having)) =
  length (agg_functions_of aggregates having).
Proof.
  assert (Forall is_function (agg_functions_of aggregates having)) as Hf.
  { unfold agg_functions_of. apply fold_functions; [|constructor]. apply Forall_forall. intros e _. apply collected_functions. }
  induction Hf as [|e l He _ IH]; [done|]. destruct e; try done. cbn. by rw IH.
Qed.

(** The GROUP BY columns are found in the input. *)
Definition groups_found (cols : list str) (group_by : list Expr) : Prop :=
  Forall (λ e, match e with Column name => name ∈ cols | _ => True end) group_by.

Lemma position_found name cols : name ∈ cols → ∃ i, position_of name cols = Some i.
Proof.
  intros Hin. unfold position_of. destruct (list_find_elem_of (λ c, c = name) cols name Hin eq_refl) as [[i c] ->]. by exists i.
Qed.

Lemma group_lengths cols group_by : groups_found cols group_by → length (group_indices_of cols group_by) = length (group_names group_by).
Proof.
  induction 1 as [|e l He _ IH]; [done|]. unfold group_indices_of, group_names in *. rw !list_omap_cons. destruct e; try done.
  destruct (position_found _ _ He) as (i & ->). cbn. by rw IH.
Qed.

Lemma group_length group_indices aggs (rows : list row) r :
  build_group group_indices aggs rows = Some r → length r = (length group_indices + length aggs)%nat.
Proof.
  unfold build_group. intros (values & Hv & (results & Hr & [= <-])%bind_Some)%bind_Some. rw length_app.
  rw (length_mapM _ _ _ Hr). f_equal. destruct group_indices; [by injection Hv as <-|].
  apply bind_Some in Hv as (first & _ & [= <-]). cbn. by rw length_map.
Qed.

Lemma aggregate_shaped cols r group_by aggregates having :
  shaped cols r → groups_found cols group_by → yields (exec_hash_aggregate r group_by aggregates having) (λ r, ∃ cs, shaped cs r).
Proof.
  destruct r as [cs rows| |]; try done. intros [-> Hw] Hg b r b'. unfold exec_hash_aggregate.
  set (names := group_names group_by ++ _). intros (out & c & Ho%panic_X & Hr)%bind_X.
  assert (wide (length names) out) as Hout.
  { apply mapM_Some in Ho. unfold names. rw length_app agg_names_length -(group_lengths cols group_by Hg).
    clear -Ho. induction Ho as [|x y l k Hy _ IH]; constructor; [|done]. apply group_length in Hy. rw Hy. by rw length_map. }
  exists names. destruct having as [h|]; [|by injection Hr as <- _].
  apply bind_X in Hr as (kept & c' & Hk%ok_X & [= <- _]). split; [done|]. eapply wide_incl; [|exact Hout]. exact (filter_incl _ _ _ _ _ _ Hk).
Qed.

Lemma fast_vals_length group_indices functions groups datas groups' :
  Forall (λ g, length (acc_vals g.2) = length group_indices) groups →
  fast_groups (J := J) group_indices functions groups datas = Some groups' →
  Forall (λ g, length (acc_vals g.2) = length group_indices) groups'.
Proof.
  assert (∀ acc v, acc_vals (J := J) (add_value acc v) = acc_vals acc) as Hadd by (intros acc [n|]; done).
  revert groups. induction datas as [|d datas IH]; cbn [fast_groups]; intros groups Hg; [by intros [= <-]|].
  intros ([key|] & _ & Hf)%bind_Some; [|by apply (IH groups)]. eapply IH, Hf. clear IH Hf.
  induction Hg as [|[k acc] groups Hk Hg IH]; cbn.
  - constructor; [|constructor]. cbn. by rw Hadd /= length_map.
  - case_bool_decide; constructor; try done. cbn. by rw Hadd.
Qed.

Lemma omap_fewer {A B C} (f : A → option B) (g : A → option C) (l : list A) :
  (∀ x, is_Some (f x) → is_Some (g x)) → (length (omap f l) ≤ length (omap g l) ≤ length l)%nat.
Proof.
  intros Hfg. induction l as [|x l IH]; [done|]. rw !list_omap_cons. specialize (Hfg x).
  destruct (f x), (g x); cbn in *; try lia. by destruct Hfg.
Qed.

Lemma fast_shaped datas cols group_by aggregates r :
  try_fast_aggregate (J := J) datas cols group_by aggregates = Some (Some r) → ∃ cs, shaped cs r.
Proof.
  unfold try_fast_aggregate. destruct (fast_functions cols group_by aggregates) as [[gi fs]|] eqn:Hf; [|done].
  intros (groups & Hg & [= <-])%bind_Some. eexists. split; [done|]. apply fast_vals_length in Hg; [|constructor].
  assert (length gi = length (group_names group_by)) as Hlen.
  { unfold fast_functions in Hf. destruct (negb (bool_decide _)) eqn:Hb; [done|]. apply negb_false_iff, bool_decide_eq_true in Hb.
    repeat case_match; try done. simplify_eq.
    pose proof (omap_fewer (λ e, match e with Column name => position_of name cols | _ => None end)
      (λ e, match e with Column name => Some name | _ => None end) group_by) as Hle.
    unfold group_indices_of, group_names in *. assert (∀ e, is_Some (match e with Column name => position_of name cols | _ => None end) →
      is_Some (match e with Column name => Some name | _ => None end)) as He by (intros [] [? ?]; done). specialize (Hle He). lia. }
  apply Forall_map. apply Forall_forall. intros acc. rw hash_order_perm. intros (g & <- & Hin%list_elem_of_In)%list_elem_of_In%in_map_iff.
  rw Forall_forall in Hg. specialize (Hg g Hin). cbn. rw !length_app !length_map. lia.
Qed.
End operators.

(** ** Scans *)

Section scans.
Context {J T : Type} `{!JsonShow J, !JsonRead J} `{!Codecs} `{Unicode} `{FloatText} `{!Engine J} `{!KvTree T} `{!HashOrder} `{!Unordered}.
Context `{!KvTreeLaws T} `{!UnorderedLaws}.
Local Abbreviation V := (Value J).
Local Abbreviation row := (list V).
Local Abbreviation entry := (list Z * list Z)%type.

(** Encoded rows of [n] columns. *)
Definition data_wide (n : nat) (d : list Z) : Prop := ∀ r : row, Scan.decode_row d = Some r → length r = n.

(** All rows of a table, in its tree and in its version store, are as wide as its schema. *)
Record table_shaped (td : TableData J T) : Prop := {
  tsh_index : ∃ m, kt_rep (index td) m ∧ ∀ k d, m !! k = Some d → data_wide (length (Schema.columns (schema td))) d;
  tsh_store : ∃ vm, VersionStore.store_rel (version_store td) vm ∧
    ∀ k c v, vm !! k = Some c → v ∈ c → data_wide (length (Schema.columns (schema td))) (Tuple.serialize (VersionStore.data v));
}.

Definition yieldsQ {A} (c : Q A) (P : A → Prop) : Prop := ∀ s a s', c s = Some (QOk a, s') → P a.

Lemma bind_Q {A B} (m : Q A) (f : A → Q B) (P : A → Prop) (R : B → Prop) :
  yieldsQ m P → (∀ a, P a → yieldsQ (f a) R) → yieldsQ (m ≫= f) R.
Proof.
  intros Hm Hf s b s'. unfold mbind, Q_bind. intros ([[a|e] t] & Ha & Hb)%bind_Some; [|done]. exact (Hf a (Hm _ _ _ Ha) _ _ _ Hb).
Qed.

Lemma ret_Q {A} (a : A) (P : A → Prop) : P a → yieldsQ (mret a) P.
Proof. by intros Ha s a' s' [= <- _]. Qed.

Lemma any_Q {A} (c : Q A) : yieldsQ c (λ _, True).
Proof. done. Qed.

Lemma panic_Q {A} (o : option A) (P : A → Prop) : (∀ a, o = Some a → P a) → yieldsQ (q_panic o) P.
Proof. intros Ho s a s'. unfold q_panic. intros (x & Hx & [= <- _])%bind_Some. by apply Ho. Qed.

Lemma lift_Q {A} (m : E A) (P : A → Prop) : (∀ b a b', m b = Some (a, b') → P a) → yieldsQ (lift_eval m) P.
Proof.
  intros Hm s a s'. unfold lift_eval, lift, ok. intros ([r b] & ([x c] & Hx & [= <- <-])%bind_Some & [= -> _])%bind_Some. exact (Hm _ _ _ Hx).
Qed.

(** A row that a step gives, if any, has [n] columns. *)
Definition gives_wide (n : nat) (o : option row) : Prop := ∀ r, o = Some r → length r = n.

Section table.
Context (table : str) (td : TableData J T) (filter : option Expr) (n : nat).

Lemma wide_snoc (rows : list row) r : wide n rows → length r = n → wide n (rows ++ [r]).
Proof. intros Hw Hr. apply Forall_app. split; [done|]. by apply Forall_singleton. Qed.

Lemma read_rows_wide step limit (acc : list row) entries :
  (∀ e : entry, e ∈ entries → yieldsQ (step e) (gives_wide n)) → wide n acc → yieldsQ (read_rows step limit acc entries) (wide n).
Proof.
  revert acc. induction entries as [|e entries IH]; cbn [read_rows]; intros acc Hst Ha; [by apply ret_Q|].
  eapply bind_Q; [apply Hst; by left|]. intros [r|] Hr; [|apply IH; [|done]; intros; apply Hst; by right].
  assert (wide n (acc ++ [r])) as Ha' by (by apply wide_snoc; [|apply Hr]).
  destruct (reached limit _); [by apply ret_Q|]. apply IH; [|done]. intros; apply Hst; by right.
Qed.

Lemma new_rows_wide step (acc : list row) entries :
  (∀ e, e ∈ entries → yieldsQ (step e) (gives_wide n)) → wide n acc → yieldsQ (new_rows step acc entries) (wide n).
Proof.
  revert acc. induction entries as [|e entries IH]; cbn [new_rows]; intros acc Hst Ha; [by apply ret_Q|].
  eapply bind_Q; [apply Hst; by left|]. intros o Ho. apply IH; [intros; apply Hst; by right|].
  destruct o as [r|]; cbn; [by apply wide_snoc; [|apply Ho]|by rw app_nil_r].
Qed.

Lemma accept_wide txn e : data_wide n e.2 → yieldsQ (accept_row table td filter txn e) (gives_wide n).
Proof.
  intros Hd. unfold accept_row. destruct (Scan.decode_row e.2) as [r|] eqn:Hr; [|by apply ret_Q].
  eapply bind_Q; [apply any_Q|]. intros [] _; [|by apply ret_Q]. eapply bind_Q; [apply any_Q|]. intros _ _. apply ret_Q.
  intros r' [= <-]. by apply Hd.
Qed.

Lemma txn_row_wide fast tid e : data_wide n e.2 → yieldsQ (txn_row table td filter fast tid e) (gives_wide n).
Proof.
  intros Hd. unfold txn_row. destruct (Scan.raw_filter fast e.2) as [[]|]; [|by apply ret_Q|by apply accept_wide].
  destruct (Scan.decode_row e.2) as [r|] eqn:Hr; [|by apply ret_Q]. eapply bind_Q; [apply any_Q|]. intros _ _. apply ret_Q.
  intros r' [= <-]. by apply Hd.
Qed.
End table.

Section shaped_table.
Context (table : str) (td : TableData J T) (filter : option Expr) (Hts : table_shaped td).
Local Abbreviation n := (length (Schema.columns (schema td))).

Lemma search_wide k d : kt_search (index td) k = Some (Some d) → data_wide n d.
Proof. destruct (tsh_index _ Hts) as (m & Hm & Hw). rw (kt_search_rep _ _ _ Hm). intros [= Hd]. exact (Hw k d Hd). Qed.

Lemma pairs_wide : ∃ m, kt_rep (index td) m ∧ ∀ e : entry, e ∈ sorted_pairs m → data_wide n e.2.
Proof.
  destruct (tsh_index _ Hts) as (m & Hm & Hw). exists m. split; [done|]. intros [k d]. rw elem_of_sorted_pairs. apply Hw.
Qed.

Lemma scanned_wide base : kt_scan_all (index td) = Some base → ∀ e : entry, e ∈ base → data_wide n e.2.
Proof. destruct pairs_wide as (m & Hm & Hw). rw (kt_scan_all_rep _ _ Hm). by intros [= <-]. Qed.

Lemma ranged_wide lo hi base : kt_range_scan (index td) lo hi = Some base → ∀ e : entry, e ∈ base → data_wide n e.2.
Proof.
  destruct pairs_wide as (m & Hm & Hw). rw (kt_range_rep _ _ _ _ Hm). intros [= <-] e [_ He]%list_elem_of_filter. by apply Hw.
Qed.

Lemma newest_in tid sts active (c : list (VersionStore.VersionedTuple row)) t :
  VersionStore.newest_visible tid sts active c = Some t → ∃ v, v ∈ c ∧ VersionStore.data v = t.
Proof.
  unfold VersionStore.newest_visible. intros (v & ([i v'] & Hf & [= <-])%bind_Some & ->)%fmap_Some.
  apply list_find_Some in Hf as (Hl & _). exists v'. split; [|done]. apply elem_of_reverse. exact (list_elem_of_lookup_2 _ _ _ Hl).
Qed.

Lemma visible_wide k tid sts active t :
  VersionStore.lookup_for_read k tid sts active (version_store td) = VersionStore.Visible t → data_wide n (Tuple.serialize t).
Proof.
  destruct (tsh_store _ Hts) as (vm & Hr & Hw). rw (TableSpec.lookup_no_versions td vm k tid sts active Hr).
  destruct (vm !! k) as [c|] eqn:Hk; [|done]. destruct (VersionStore.newest_visible tid sts active c) as [t'|] eqn:Hn; [|done].
  intros [= <-]. destruct (newest_in _ _ _ _ _ Hn) as (v & Hv & <-). by apply (Hw k c v).
Qed.

Lemma resolved_wide tid sn k t : resolve td tid sn !! k = Some (Some t) → data_wide n (Tuple.serialize t).
Proof.
  destruct (tsh_store _ Hts) as (vm & Hr & Hw). unfold resolve. rw (VersionStore.snapshot_resolved_spec _ _ _ _ _ Hr) lookup_fmap.
  intros (c & Hk & Hn)%fmap_Some. destruct (newest_in _ _ _ _ _ (eq_sym Hn)) as (v & Hv & <-). by apply (Hw k c v).
Qed.

Definition entries_wide (es : list entry) : Prop := ∀ e : entry, e ∈ es → data_wide n e.2.

Lemma base_wide : yieldsQ (q_panic (kt_scan_all (index td))) entries_wide.
Proof. apply panic_Q. exact scanned_wide. Qed.

Lemma visible_entries_wide txn : yieldsQ (read_visible_entries td txn) entries_wide.
Proof.
  unfold read_visible_entries. destruct txn as [tid|]; [destruct (_ =? 0)|]; try apply base_wide.
  eapply bind_Q; [apply any_Q|]. intros sn _. eapply bind_Q; [apply base_wide|]. intros base Hb. apply ret_Q.
  intros e [[_ He]%list_elem_of_filter|([k o] & Hk%elem_of_hash_iter & Ho)%list_elem_of_omap]%elem_of_app; [by apply Hb|].
  apply bind_Some in Ho as (t & -> & [= <-]). by apply (resolved_wide tid sn k).
Qed.

Lemma visible_one_wide txn k : yieldsQ (read_visible_one td txn k) (λ o, ∀ d, o = Some d → data_wide n d).
Proof.
  assert (yieldsQ (q_panic (kt_search (index td) k)) (λ o, ∀ d, o = Some d → data_wide n d)) as Hs.
  { apply panic_Q. intros o Ho d ->. by apply (search_wide k). }
  unfold read_visible_one. destruct txn as [tid|]; [|done]. eapply bind_Q; [apply any_Q|]. intros sn _.
  destruct (VersionStore.lookup_for_read _ _ _ _ _) as [t| |] eqn:Hl; [|by apply ret_Q|done].
  apply ret_Q. intros d [= <-]. exact (visible_wide _ _ _ _ _ Hl).
Qed.

(** A step over an encoded row of the table. *)
Definition row_step (step : list Z → E (option row)) : Prop :=
  ∀ d b o b', data_wide n d → step d b = Some (o, b') → gives_wide n o.

Lemma slow_step : row_step (Scan.slow_row None (schema td) filter).
Proof.
  intros d b o b' Hd. unfold Scan.slow_row, Scan.decode_needed. destruct (Scan.decode_row d) as [r|] eqn:Hr; [|by intros [= <- _]].
  intros (m & c & _ & [= <- _])%bind_E. destruct m; [|done]. intros r' [= <-]. by apply Hd.
Qed.

Lemma parallel_step fast : row_step (Scan.parallel_row None (schema td) filter fast).
Proof.
  intros d b o b' Hd. unfold Scan.parallel_row. destruct (Scan.raw_filter fast d) as [[]|]; [|by intros [= <- _]|by apply slow_step].
  intros [= <- _] r Hr. by apply Hd.
Qed.

Lemma serial_step fast : row_step (Scan.serial_row None (schema td) filter fast).
Proof.
  intros d b o b' Hd. unfold Scan.serial_row. destruct fast as [f|]; [|by apply slow_step].
  intros [= <- _] r Hr. apply Hd. by repeat case_match.
Qed.

Lemma scan_wide step datas b rows b' :
  row_step step → Forall (data_wide n) datas → Scan.scan step datas b = Some (rows, b') → wide n rows.
Proof.
  intros Hs Hd. revert b rows b'. induction Hd as [|d datas Hd _ IH]; cbn [Scan.scan]; intros b rows b'; [intros [= <- _]; constructor|].
  intros (o & c & Ho & (rest & c' & Hr & [= <- _])%bind_E)%bind_E. apply Forall_app. split; [|exact (IH _ _ _ Hr)].
  destruct o as [r|]; constructor; [|constructor]. exact (Hs d b (Some r) c Hd Ho r eq_refl).
Qed.

Lemma push_wide limit step (l : list entry) st :
  row_step step → (∀ e, e ∈ l → data_wide n e.2) → (∀ rows b, st = Some (rows, b) → wide n rows) →
  ∀ rows b, (BTree.visit_pairs (λ s _ d, push_row limit step s d) st l).1 = Some (rows, b) → wide n rows.
Proof.
  intros Hs. revert st. induction l as [|[k d] l IH]; cbn [BTree.visit_pairs]; intros st Hl Hst rows b; [by apply Hst|].
  destruct st as [[acc b0]|]; cbn [push_row]; [|done]. destruct (step d b0) as [[[r|] b1]|] eqn:Hd; [| |done].
  - assert (wide n (acc ++ [r])) as Ha.
    { apply wide_snoc; [by apply (Hst acc b0)|]. refine (Hs d b0 (Some r) b1 _ Hd r eq_refl). apply (Hl (k, d)). by left. }
    destruct (negb _); [|by intros [= <- _]]. apply IH; [intros e He; apply Hl; by right|]. by intros ? ? [= <- _].
  - apply IH; [intros e He; apply Hl; by right|]. intros ? ? [= <- _]. by apply (Hst acc b0).
Qed.

Lemma each_row_wide limit step b rows b' : row_step step → each_row td limit step b = Some (rows, b') → wide n rows.
Proof.
  intros Hs. unfold each_row. destruct pairs_wide as (m & Hm & Hw). rw (kt_for_each_rep _ _ _ _ Hm). cbn.
  apply (push_wide limit step (sorted_pairs m) _ Hs Hw). intros ? ? [= <- _]. constructor.
Qed.

Lemma plain_wide limit b rows b' : plain_scan td filter limit None b = Some (rows, b') → wide n rows.
Proof.
  unfold plain_scan. destruct (_ && _ && _).
  - intros (leaves & c & Hl & Hs)%bind_E. destruct pairs_wide as (m & Hm & Hw).
    destruct (kt_leaf_values_rep _ _ Hm) as (ls & Hls & Hj). unfold panic_or in Hl. rw Hls in Hl. cbn in Hl. simplify_eq.
    unfold Scan.parallel_scan in Hs. rw Hj in Hs. apply (scan_wide _ _ _ _ _ (parallel_step _)) in Hs; [done|].
    apply Forall_map, Forall_forall. intros e He. by apply Hw.
  - pose proof (each_row_wide limit _ b rows b' slow_step) as Hslow.
    pose proof (λ fast, each_row_wide limit _ b rows b' (serial_step fast)) as Hser.
    assert (each_row td None (λ data, mret (Tuple.deserialize_to_vec data)) b = Some (rows, b') → wide n rows) as Hall.
    { apply each_row_wide. intros d b0 o b1 Hd [= <- _] r Hr. by apply Hd. }
    destruct (Scan.fast_filter_of filter (schema td)); [apply Hser|]. by destruct filter, limit.
Qed.

Lemma decoded_wide o : (∀ d, o = Some d → data_wide n d) → wide n (option_list (o ≫= Scan.decode_row)).
Proof.
  intros Ho. destruct o as [d|]; [|constructor]. cbn. destruct (Scan.decode_row d) as [r|] eqn:Hr; constructor; [|constructor].
  by apply (Ho d).
Qed.

Lemma range_rows_wide limit tid lo hi : yieldsQ (range_rows table td filter limit tid lo hi) (wide n).
Proof.
  unfold range_rows. eapply bind_Q; [apply any_Q|]. intros _ _. eapply bind_Q; [apply any_Q|]. intros sn _.
  eapply (bind_Q _ _ entries_wide); [apply panic_Q; exact (ranged_wide lo hi)|]. intros base Hb.
  set (resolved := if _ =? 0 then None else _).
  assert (∀ m k t, resolved = Some m → m !! k = Some (Some t) → data_wide n (Tuple.serialize t)) as Hres.
  { intros m k t. unfold resolved. destruct (_ =? 0); [done|]. intros [= <-]. apply resolved_wide. }
  eapply (bind_Q _ _ (wide n)).
  - apply read_rows_wide; [|constructor]. intros e He. unfold range_row.
    destruct (resolved ≫= _) as [[t|]|] eqn:Hr; [|by apply ret_Q|by apply accept_wide, Hb].
    apply accept_wide. cbn. apply bind_Some in Hr as (m & Hm & Ht). by apply (Hres m e.1).
  - intros rows Hrows. destruct resolved as [m|]; [|by apply ret_Q]. apply new_rows_wide; [|done].
    intros [k o] Hin%elem_of_hash_iter. unfold new_row. cbn [fst snd]. destruct o as [t|]; [|by apply ret_Q].
    destruct (_ && _); [|by apply ret_Q]. eapply bind_Q; [apply any_Q|]. intros [d|] _; [by apply ret_Q|].
    apply accept_wide. cbn. by apply (Hres m k).
Qed.

Lemma scan_rows_wide txn limit : yieldsQ (scan_rows table td filter txn limit None) (wide n).
Proof.
  unfold scan_rows. destruct txn as [tid|].
  - destruct (try_pk_lookup filter (schema td)) as [key|].
    + eapply bind_Q; [apply any_Q|]. intros _ _. eapply bind_Q; [apply visible_one_wide|]. intros o Ho. by apply ret_Q, decoded_wide.
    + destruct (try_pk_range filter (schema td)) as [[lo hi]|]; [apply range_rows_wide|].
      eapply bind_Q; [apply any_Q|]. intros _ _. eapply bind_Q; [apply visible_entries_wide|]. intros es Hes.
      apply read_rows_wide; [|constructor]. intros e He. by apply txn_row_wide, Hes.
  - destruct (try_pk_lookup filter (schema td)) as [key|].
    + eapply (bind_Q _ _ (λ o, ∀ d, o = Some d → data_wide n d)).
      { apply panic_Q. intros o Ho d ->. by apply (search_wide key). }
      intros o Ho. by apply ret_Q, decoded_wide.
    + apply lift_Q. intros b rows b'. apply plain_wide.
Qed.

Lemma index_rows_wide txn limit pks :
  yieldsQ (read_rows (λ e, index_row table td filter txn e.1) limit [] (map (λ pk, (pk, [])) pks)) (wide n).
Proof.
  apply read_rows_wide; [|constructor]. intros e _. unfold index_row. eapply bind_Q; [apply visible_one_wide|].
  intros [d|] Hd; [|by apply ret_Q]. by apply accept_wide, Hd.
Qed.

(** *** The first rows of an order *)

Definition top_wide (s : TopState) : Prop := ∀ d, d ∈ kept_data s → d = [] ∨ data_wide n d.

Lemma top_process_wide fast sort_col asc k s d s' go :
  top_wide s → data_wide n d → top_process (J := J) fast sort_col asc k s d = Some (s', go) → top_wide s'.
Proof.
  intros Hs Hd. unfold top_process. destruct (match fast with Some _ => _ | None => _ end); [|by intros [= <- _]].
  assert (∀ l : list (list Z), (∀ x, x ∈ l → x = [] ∨ data_wide n x) → ∀ x, x ∈ l ++ [d] → x = [] ∨ data_wide n x) as Happ.
  { intros l Hl x [?| ->%list_elem_of_singleton]%elem_of_app; [by apply Hl|by right]. }
  destruct (Tuple.read_int64_at d sort_col) as [v|]; [|intros [= <- _]; exact Hs].
  intros (key & _ & Hk)%bind_Some. cbn in Hk. destruct (zlen (heap s) <? k); [injection Hk as <- _; exact (Happ _ Hs)|].
  destruct (heap_pop pair_cmp (heap s)) as [[[top_key old] h]|]; [|by injection Hk as <- _].
  destruct (key <? top_key); [|by injection Hk as <- _]. injection Hk as <- _. intros y. cbn [kept_data]. apply Happ. clear y.
  intros x [j Hj]%list_elem_of_lookup. destruct (decide (old = j)) as [->|Hne].
  - destruct (decide (j < length (kept_data s))%nat).
    + rw list_lookup_insert_eq in Hj; [done|]. simplify_eq. by left.
    + rw list_insert_ge in Hj; [lia|]. apply Hs. exact (list_elem_of_lookup_2 _ _ _ Hj).
  - rw list_lookup_insert_ne in Hj; [done|]. apply Hs. exact (list_elem_of_lookup_2 _ _ _ Hj).
Qed.

(** A loop over entries keeps what each step keeps. *)
Lemma visit_keeps {S} (f : S → list Z → list Z → S * bool) (P : S → Prop) (l : list entry) st :
  (∀ e s, e ∈ l → P s → P (f s e.1 e.2).1) → P st → P (BTree.visit_pairs f st l).1.
Proof.
  revert st. induction l as [|[k d] l IH]; cbn [BTree.visit_pairs]; intros st Hf Hst; [done|].
  pose proof (Hf (k, d) st ltac:(by left) Hst) as Hp. cbn in Hp. destruct (f st k d) as [s' []]; cbn in *; [|done].
  apply IH; [|done]. intros e s He. apply Hf. by right.
Qed.

Lemma visit_entries_keeps {S} (f : S → list Z → row → S * bool) (P : S → Prop) tid sts active l st :
  (∀ k c t s, (k, c) ∈ l → VersionStore.newest_visible tid sts active c = Some t → P s → P (f s k t).1) → P st →
  P (VersionStore.visit_entries f tid sts active l st).
Proof.
  revert st. induction l as [|[k c] l IH]; cbn [VersionStore.visit_entries]; intros st Hf Hst; [done|].
  assert (∀ k c t s, (k, c) ∈ l → VersionStore.newest_visible tid sts active c = Some t → P s → P (f s k t).1) as Hf'.
  { intros k' c' t s Hin. apply Hf. by right. }
  destruct (VersionStore.newest_visible tid sts active c) as [t|] eqn:Ht; [|by apply IH].
  pose proof (Hf k c t st ltac:(by left) Ht Hst) as Hp. destruct (f st k t) as [s' []]; cbn in Hp; [by apply IH|done].
Qed.

Lemma top_scan_wide tid_sn process st st' :
  (∀ s d s' go, top_wide s → data_wide n d → process s d = Some (s', go) → top_wide s') → top_wide st →
  top_scan td tid_sn process st = Some st' → top_wide st'.
Proof.
  intros Hp Hst. destruct pairs_wide as (m & Hm & Hw). unfold top_scan. destruct tid_sn as [[tid sn]|]; rw (kt_for_each_rep _ _ _ _ Hm); cbn.
  - set (f := λ (s : option (TopState * bool)) (key data : list Z), _). set (v := (BTree.visit_pairs f (Some (st, true)) (sorted_pairs m)).1).
    assert (∀ s keep, v = Some (s, keep) → top_wide s) as Hv.
    { apply (visit_keeps f (λ o, ∀ s keep, o = Some (s, keep) → top_wide s)); [|by intros ? ? [= <- _]].
      intros e [[s k0]|] He Hs s' keep; cbn; [|done]. unfold top_visible.
      pose proof (Hs s k0 eq_refl) as Hs0.
      destruct (VersionStore.lookup_for_read _ _ _ _ _) as [t| |] eqn:Hl; cbn; [|by intros [= <- _]|].
      - destruct (process s (Tuple.serialize t)) as [[s1 go]|] eqn:Hpr; cbn; [|done]. intros [= <- _].
        exact (Hp s _ s1 go Hs0 (visible_wide _ _ _ _ _ Hl) Hpr).
      - destruct (process s e.2) as [[s1 go]|] eqn:Hpr; cbn; [|done]. intros [= <- _]. exact (Hp s _ s1 go Hs0 (Hw e He) Hpr). }
    intros ([s keep] & Hs & Hr)%bind_Some. pose proof (Hv s keep Hs) as Hs0. destruct keep; [|by injection Hr as <-].
    unfold VersionStore.for_each_visible in Hr. revert st' Hr.
    apply (visit_entries_keeps _ (λ o, ∀ s, o = Some s → top_wide s)); [|by intros ? [= <-]].
    intros k c t [s1|] Hin Ht Hs1 s2; cbn; [|done]. destruct (kt_search (index td) k) as [[d|]|]; cbn.
    1: by intros [= <-]; apply Hs1.
    all: destruct (tsh_store _ Hts) as (vm & Hrel & Hvw); destruct (newest_in _ _ _ _ _ Ht) as (w & Hin' & <-);
      rw (VersionStore.all_entries_perm _ _ Hrel) elem_of_map_to_list in Hin;
      destruct (process s1 _) as [[s3 go]|] eqn:Hpr; cbn; [|done]; intros [= <-];
      exact (Hp s1 _ s3 go (Hs1 s1 eq_refl) (Hvw k c w Hin Hin') Hpr).
  - apply (visit_keeps _ (λ o, ∀ s, o = Some s → top_wide s)); [|by intros ? [= <-]].
    intros e [s|] He Hs s'; cbn; [|done]. destruct (process s e.2) as [[s1 go]|] eqn:Hpr; cbn; [|done]. intros [= <-].
    exact (Hp s _ s1 go (Hs s eq_refl) (Hw e He) Hpr).
Qed.

Lemma top_entries_wide sort_col asc s : top_wide s → wide n (top_entries sort_col asc s).
Proof.
  intros Hs. unfold top_entries. apply Forall_map, Forall_forall. intros kr. rw sort_unstable_perm.
  intros ([key place] & _ & (d & Hd & Hr)%bind_Some)%list_elem_of_omap.
  destruct d as [|x d]; [done|]. apply bind_Some in Hr as (r & Hr & [= <-]). cbn.
  destruct (Hs (x :: d)) as [|Hw]; [exact (list_elem_of_lookup_2 _ _ _ Hd)|done|by apply Hw].
Qed.
End shaped_table.
End scans.

(** ** Plans *)

Section plans.
Context {J T : Type} `{!JsonShow J, !JsonRead J} `{!Codecs} `{Unicode} `{FloatText} `{!Engine J} `{!KvTree T} `{!HashOrder} `{!Unordered}.
Context `{!KvTreeLaws T} `{!UnorderedLaws}.
Context (tables : Tables J T) (txn : option Z) (other : PhysicalPlan → Q (ExecutionResult J)).

Definition information_schema (table : str) : bool :=
  bool_decide (table = chars "information_schema.tables") || bool_decide (table = chars "information_schema.columns").

(** The columns of the result of a plan; those of an aggregate depend on the way
    it is computed. *)
Fixpoint plan_columns (plan : PhysicalPlan) : option (list str) :=
  match plan with
  | SeqScan table _ _ _ | IndexScan table _ _ _ _ _ _ => col_names <$> tables !! table
  | PFilter input _ | PSort input _ | PLimit input _ _ | PDistinct input => plan_columns input
  | PProject input columns => cols ← plan_columns input; Some (projection_columns cols columns)
  | HashJoin l r _ _ | NestedLoopJoin l r _ _ =>
      lc ← plan_columns l; rc ← plan_columns r; Some (qualified (plan_table_name l) lc ++ qualified (plan_table_name r) rc)
  | _ => None
  end.

(** A query over tables of the database: no table of the information schema, no
    scan of some columns only, and the columns of a GROUP BY are columns of its
    input, which is not an aggregate itself. *)
Fixpoint plan_typed (plan : PhysicalPlan) : Prop :=
  match plan with
  | SeqScan table _ _ needed => information_schema table = false ∧ needed = None
  | IndexScan table _ _ _ _ _ _ => information_schema table = false
  | PFilter input _ | PSort input _ | PLimit input _ _ | PDistinct input | PProject input _ => plan_typed input
  | HashJoin l r _ _ | NestedLoopJoin l r _ _ => plan_typed l ∧ plan_typed r
  | HashAggregate input group_by _ _ =>
      plan_typed input ∧ ∃ cols, plan_columns input = Some cols ∧ groups_found cols group_by
  | _ => False
  end.

Definition tables_shaped : Prop := ∀ name td, tables !! name = Some td → table_shaped td.
Context (Htables : tables_shaped).

(** What a plan returns: rows of the right shape, with the columns of the plan. *)
Definition typed_result (plan : PhysicalPlan) (r : ExecutionResult J) : Prop :=
  ∃ cols, shaped cols r ∧ ∀ cols', plan_columns plan = Some cols' → cols' = cols.

Lemma table_result table td (rows : list (list (Value J))) : tables !! table = Some td → wide (length (Schema.columns (schema td))) rows →
  shaped (col_names td) (Rows (col_names td) rows) ∧ ∀ cols', col_names <$> tables !! table = Some cols' → cols' = col_names td.
Proof.
  intros Ht Hw. split.
  - split; [done|]. unfold col_names. by rw length_map.
  - rw Ht. by intros ? [= <-].
Qed.

Lemma get_table_Q table : yieldsQ (get_table tables table) (λ td, tables !! table = Some td).
Proof. unfold get_table. destruct (tables !! table) as [td|]; [by apply ret_Q|]. by intros s a s' [=]. Qed.

Lemma seq_scan_typed table filter limit : information_schema table = false →
  yieldsQ (exec_seq_scan tables table filter txn limit None) (typed_result (SeqScan table filter limit None)).
Proof.
  unfold information_schema. intros [Hn1 Hn2]%orb_false_iff. unfold exec_seq_scan. rw Hn1 Hn2.
  eapply bind_Q; [apply get_table_Q|]. intros td Ht. eapply bind_Q; [apply scan_rows_wide; exact (Htables _ _ Ht)|]. intros rows Hr.
  apply ret_Q. exists (col_names td). by apply table_result.
Qed.

Lemma index_scan_typed table name column op value filter limit : information_schema table = false →
  yieldsQ (exec_index_scan tables table name column op value filter limit txn) (typed_result (IndexScan table name column op value filter limit)).
Proof.
  intros Hi. unfold exec_index_scan. eapply bind_Q; [apply get_table_Q|]. intros td Ht. eapply bind_Q; [apply any_Q|].
  intros [pks|] _; [|by apply (seq_scan_typed table filter limit)]. eapply bind_Q; [apply any_Q|]. intros _ _.
  eapply bind_Q; [apply index_rows_wide; exact (Htables _ _ Ht)|]. intros rows Hr. apply ret_Q. exists (col_names td). by apply table_result.
Qed.

Lemma top_scan_typed table filter order_by k :
  yieldsQ (exec_scan_top_n tables table filter txn order_by k) (typed_result (SeqScan table filter None None)).
Proof.
  unfold exec_scan_top_n. eapply bind_Q; [apply get_table_Q|]. intros td Ht.
  destruct order_by as [|[[| | | | | | | | | | | | | | | | | |] asc nf] order_by]; try (by intros ? ? ? [=]).
  destruct (Schema.column_index _ _) as [sort_col|]; [|by intros s a s' [=]].
  do 4 (eapply bind_Q; [apply any_Q|]; intros ? _).
  eapply (bind_Q _ _ (top_wide td)).
  { apply panic_Q. intros st Hst. refine (top_scan_wide td (Htables _ _ Ht) _ _ _ st _ _ Hst).
    - intros s d s' go. apply top_process_wide.
    - by intros d ?%not_elem_of_nil. }
  intros st Hst. destruct (top_ints st); [|by intros ? ? ? [=]]. apply ret_Q. exists (col_names td).
  apply table_result; [done|]. by apply top_entries_wide.
Qed.

Lemma lift_typed (c : X (ExecutionResult J)) (P : ExecutionResult J → Prop) : yields c P → yieldsQ (lift c) P.
Proof. intros Hc s a s'. unfold lift. intros ([r b] & Hr & [= -> _])%bind_Some. exact (Hc _ _ _ Hr). Qed.

(** A plan whose results are typed, and for a sort the plan below it too. *)
Definition sound (plan : PhysicalPlan) : Prop := plan_typed plan → yieldsQ (execute_physical tables txn other plan) (typed_result plan).
Definition sound_below (plan : PhysicalPlan) : Prop := sound plan ∧ match plan with PSort input _ => sound input | _ => True end.

(** An operator that keeps the columns. *)
Lemma keep_typed input plan (op : ExecutionResult J → X (ExecutionResult J)) :
  (∀ cols r, shaped cols r → yields (op r) (shaped cols)) → plan_columns plan = plan_columns input →
  yieldsQ (execute_physical tables txn other input) (typed_result input) →
  yieldsQ (r ← execute_physical tables txn other input; lift (op r)) (typed_result plan).
Proof.
  intros Hop Hcols Hin. eapply bind_Q; [exact Hin|]. intros r (cols & Hr & Hc). apply lift_typed. intros b r' b' Hb.
  exists cols. split; [exact (Hop cols r Hr b r' b' Hb)|]. by rw Hcols.
Qed.

Lemma project_sound input columns : sound input → sound (PProject input columns).
Proof.
  intros IH Ht. cbn [execute_physical]. eapply bind_Q; [by apply IH|]. intros r (cols & Hr & Hc). apply lift_typed. intros b r' b' Hb.
  exists (projection_columns cols columns). split; [exact (projection_shaped cols r columns _ Hr b r' b' Hb)|].
  cbn. intros cols' (cs & Hcs & [= <-])%bind_Some. by rw (Hc cs Hcs).
Qed.

Lemma join_sound l r condition jt :
  sound l → sound r → sound (HashJoin l r condition jt) ∧ sound (NestedLoopJoin l r condition jt).
Proof.
  intros IHl IHr. assert (plan_typed l → plan_typed r → yieldsQ
    (lr ← execute_physical tables txn other l; rr ← execute_physical tables txn other r;
     lift (hash_join (plan_table_name l) (plan_table_name r) lr rr condition jt)) (typed_result (HashJoin l r condition jt))) as Hj.
  { intros Hl Hr. eapply bind_Q; [by apply IHl|]. intros lr (lc & Hlr & Hlc). eapply bind_Q; [by apply IHr|]. intros rr (rc & Hrr & Hrc).
    apply lift_typed. intros b r' b' Hb. eexists. split; [exact (join_shaped _ _ _ _ _ _ _ _ Hlr Hrr b r' b' Hb)|].
    cbn. intros cols' (cl & Hcl & (cr & Hcr & [= <-])%bind_Some)%bind_Some. by rw (Hlc cl Hcl) (Hrc cr Hcr). }
  split; intros [Hl Hr]; by apply Hj.
Qed.

Lemma aggregate_sound input group_by aggregates having : sound input → sound (HashAggregate input group_by aggregates having).
Proof.
  intros IH [Hin (cols & Hcols & Hg)]. cbn [execute_physical].
  eapply (bind_Q _ _ (λ o : option (ExecutionResult J), ∀ r, o = Some r → typed_result (HashAggregate input group_by aggregates having) r)).
  - apply panic_Q. intros o Ho r ->. unfold fast_aggregate in Ho.
    assert (∀ ds cs, try_fast_aggregate ds cs group_by aggregates = Some (Some r) → typed_result (HashAggregate input group_by aggregates having) r) as Hfast.
    { intros ds cs Hf%fast_shaped. destruct Hf as (c & Hc). by exists c. }
    destruct group_by as [|g gs]; [done|]. destruct input as [table [f|] ? ?| | | | | | | | | | | | | | | |]; try done.
    destruct txn; [done|]. destruct having; [done|]. destruct (tables !! table); [|done].
    apply bind_Some in Ho as (ds & _ & Hf). exact (Hfast _ _ Hf).
  - intros [r|] Hr; [by apply ret_Q, Hr|]. eapply bind_Q; [by apply IH|]. intros r (cs & Hs & Hc). rw -(Hc cols Hcols) in Hs.
    apply lift_typed. intros b r' b' Hb. destruct (aggregate_shaped cols r group_by aggregates having Hs Hg b r' b' Hb) as (c & Hsc). by exists c.
Qed.

Lemma limit_sound input count offset : sound_below input → sound (PLimit input count offset).
Proof.
  intros [IH Hbelow] Ht. pose proof (keep_typed input (PLimit input count offset) (λ r, apply_limit r count offset)
    (λ cols r, limit_shaped cols r count offset) eq_refl (IH Ht)) as Hlim.
  destruct input; try exact Hlim. cbn [execute_physical]. destruct (offset =? 0); [|exact Hlim].
  pose proof (keep_typed input (PLimit (PSort input order_by) count offset) (λ r, apply_top_n r order_by count)
    (λ cols r, top_n_shaped cols r order_by count) eq_refl (Hbelow Ht)) as Htop.
  destruct input; try exact Htop. destruct order_by as [|o [|]]; try exact Htop.
  intros s r s'. intros ([[res|e] s1] & Hs & Hr)%bind_Some; [|exact (Htop _ _ _ Hr)]. injection Hr as <- <-.
  exact (top_scan_typed _ _ _ _ _ _ _ Hs).
Qed.

(** C39: A query plan over tables whose rows have the width of their schemas is
    executed, if it succeeds, to rows that are as wide as the list of column names
    of the result, and these are the columns the plan has: through every scan,
    filter, join, aggregate, projection, window function, sort and limit. The plan is
    one of a query ([plan_typed]): no table of the information schema, no scan
    restricted to some columns, aggregates not over other aggregates, and every column
    a GROUP BY names is one of its input; else the names are more than the
    values, [group_by_missing_name]. *)
Theorem plans_typed plan s r s' :
  plan_typed plan → execute_physical tables txn other plan s = Some (QOk r, s') →
  ∃ cols rows, r = Rows cols rows ∧ Forall (λ row, length row = length cols) rows ∧
    ∀ cols', plan_columns plan = Some cols' → cols' = cols.
Proof.
  intros Ht Hr. assert (sound_below plan) as [Hs _].
  { clear Ht Hr. induction plan; (split; [|try done; by apply IHplan]).
    all: try (by intros []).
    - intros [Hi ->]. by apply seq_scan_typed.
    - intros Hi. by apply index_scan_typed.
    - intros Hin. apply (keep_typed plan); [intros; by apply filter_shaped|done|by apply IHplan].
    - apply project_sound, IHplan.
    - apply join_sound; [apply IHplan1|apply IHplan2].
    - apply join_sound; [apply IHplan1|apply IHplan2].
    - apply aggregate_sound, IHplan.
    - intros Hin. apply (keep_typed plan); [intros; by apply sort_shaped|done|by apply IHplan].
    - by apply limit_sound.
    - intros Hin. apply (keep_typed plan); [intros; by apply distinct_shaped|done|by apply IHplan]. }
  destruct (Hs Ht s r s' Hr) as (cols & Hsh & Hc). destruct r as [columns rows| |]; try done. destruct Hsh as [-> Hw]. by exists cols, rows.
Qed.
End plans.

(** ** A plan over a table *)

Section example.
#[local] Existing Instance Tuple.sample_codecs.
#[local] Existing Instance Tuple.sample_codec_laws.
#[local] Existing Instance Tuple.sample_show.
#[local] Existing Instance Tuple.sample_read.
#[local] Existing Instance Tuple.sample_json.
#[local] Existing Instance Lexer.ascii_only.
#[local] Existing Instance Lexer.no_floats.
#[local] Existing Instance Scan.sample_engine.
#[local] Existing Instance Collections.plain.
#[local] Existing Instance Collections.plain_laws.

Lemma city_tables_shaped : tables_shaped QuerySpec.city_tables.
Proof.
  intros name td Ht. apply (lookup_singleton_Some (M := gmap str) (chars "t") name QuerySpec.city_table td) in Ht as [<- <-]. split.
  - exists (list_to_map QuerySpec.city_data). split; [apply QuerySpec.build_tree_rep|].
    intros k d Hd%elem_of_list_to_map_2. unfold QuerySpec.city_data, QuerySpec.keyed_rows, QuerySpec.city_rows in Hd. cbn [map fst snd] in Hd.
    rw !elem_of_cons in Hd.
    destruct Hd as [[= _ ->]|[[= _ ->]|[[= _ ->]|?%not_elem_of_nil]]]; [..|done]; intros r; vm_compute; by intros [= <-].
  - exists ∅. split; [apply VersionStore.store_rel_new|]. intros k c v. by rw lookup_empty.
Qed.

Definition cities_plan : PhysicalPlan :=
  PProject (PLimit (PSort (SeqScan (chars "t") (Some QuerySpec.city_where) None None) [mkOrderBy (Column (chars "city")) true None]) 5 0)
    [SelectExpr (Column (chars "city")) None; SelectExpr (BinaryOp (Column (chars "id")) OpPlus (Literal (Integer 1))) (Some (chars "next"))].

Lemma plans_typed_witness :
  ∃ cols rows, Rows [chars "city"; chars "next"] [[Text (chars "bonn"); Int64 3]; [Text (chars "bonn"); Int64 4]] = Rows cols rows ∧
    Forall (λ row : list (Value unit), length row = length cols) rows ∧
    ∀ cols', plan_columns QuerySpec.city_tables cities_plan = Some cols' → cols' = cols.
Proof.
  apply (plans_typed QuerySpec.city_tables None (λ _, q_fail (QPlan [])) city_tables_shaped cities_plan
    (mkSession Transaction.new false) _ (mkSession Transaction.new false)); by vm_compute.
Defined.

(** A GROUP BY of a name that the input does not have is dropped from the rows and
    not from the columns: the count stands under the name of the missing column. *)
Theorem group_by_missing_name :
  exec_hash_aggregate (Rows [chars "x"] [[Int64 (J := unit) 7]; [Int64 8]]) [Column (chars "y")] [Function (chars "COUNT") []] None false =
    Some (QOk (Rows [chars "y"; chars "count(*)"] [[Int64 2]]), false).
Proof. vm_compute. reflexivity. Qed.
End example.
End RowShape.
