(* ===== verification/Dml.v ===== *)
(** Statements that change rows (INSERT, UPDATE, DELETE) and the ends of
    transactions, of [bytedb-query/src/executor/engine.rs].

    A statement checks the constraints of every row, logs it, adds a version for
    the transaction, updates the secondary indexes and writes the tree; the value
    a key had before the transaction first wrote it is kept for ROLLBACK. What a
    statement has done before it fails stays done.

    With a disk store every row written or deleted is also noted as a change for
    the files of its table; what becomes of these changes is in [Persist]. No value
    is spilled to a file of its own. *)
From S2P Require Import Prelude ByteOrder Value OrderKey OrderedIndex SecondaryIndex Schema Tuple Transaction VersionStore Wal DiskManager Civil Literals Sql TableFiles Lexer Like Strings Float64 Eval Scan Collections Stats Plan Cost Optimizer Exec Window Join Aggregate TableAccess Subquery Query.
Import Value OrderKey Sql Like Strings Eval Collections Plan Exec TableAccess Query.

Module Dml.

Section dml.
Context {J T : Type} `{!JsonShow J, !JsonRead J} `{!Codecs} `{Unicode} `{FloatText} `{!Engine J} `{!KvTree T} `{!HashOrder} `{!Unordered} `{!Libm}.
Local Abbreviation V := (Value J).
Local Abbreviation row := (list V).
Local Abbreviation Schema := (Schema.Schema (J := J)).
Local Abbreviation SColumn := (Schema.Column (J := J)).
Local Abbreviation SIndex := (SecondaryIndex.SecondaryIndex T).
Local Abbreviation result := (ExecutionResult J).
Local Abbreviation entry := (list Z * list Z)%type.

(** ** State *)

(** What a key held before a transaction first wrote it. *)
Definition Undo : Type := gmap (str * list Z) (option (list Z)).

(** The tables, their sequences (by table and column), the next row numbers of
    tables without a primary key, the undo logs of the transactions, the records
    given to the write-ahead log, and the changes not yet given to the disk store,
    if there is one. *)
Record World : Type := mkWorld {
  tables : Tables J T;
  sequences : gmap (str * string) Z;
  rowids : gmap str Z;
  txn_undo : gmap Z Undo;
  wal : list Wal.LogRecord;
  deltas : option (list (str * TableFiles.LogDelta));
}.

Local Abbreviation D := (Db_of World).

Definition fail {A} (e : QueryError) : D A := λ st, Some (QErr e, st).
Definition panic {A} (o : option A) : D A := λ st, a ← o; Some (QOk a, st).
Definition world : D World := λ st, Some (QOk st.1, st).
Definition change (f : World → World) : D () := λ st, Some (QOk (), (f st.1, st.2)).
Definition reading {A} (m : Tables J T → Q A) : D A := λ '(w, s), '(r, s') ← m (tables w) s; Some (r, (w, s')).
Definition evaluate {A} (m : E A) : D A := reading (λ _, lift_eval m).

Definition set_tables (t : Tables J T) (w : World) : World := mkWorld t (sequences w) (rowids w) (txn_undo w) (wal w) (deltas w).
Definition set_sequences (m : gmap (str * string) Z) (w : World) : World := mkWorld (tables w) m (rowids w) (txn_undo w) (wal w) (deltas w).
Definition set_rowids (m : gmap str Z) (w : World) : World := mkWorld (tables w) (sequences w) m (txn_undo w) (wal w) (deltas w).
Definition set_undo (m : gmap Z Undo) (w : World) : World := mkWorld (tables w) (sequences w) (rowids w) m (wal w) (deltas w).
Definition set_deltas (l : option (list (str * TableFiles.LogDelta))) (w : World) : World :=
  mkWorld (tables w) (sequences w) (rowids w) (txn_undo w) (wal w) l.

Definition wal_append (r : Wal.LogRecord) : D () :=
  change (λ w, mkWorld (tables w) (sequences w) (rowids w) (txn_undo w) (wal w ++ [r]) (deltas w)).

Definition table_data (table : str) : D (TableData J T) := reading (λ t, get_table t table).
Definition set_table (table : str) (td : TableData J T) : D () := change (λ w, set_tables (<[table := td]> (tables w)) w).

Definition with_index (td : TableData J T) (t : T) : TableData J T :=
  mkTable (schema td) t (version_store td) (check_exprs td) (secondary_indexes td).
Definition with_store (td : TableData J T) (vs : VersionStore.VersionStore row) : TableData J T :=
  mkTable (schema td) (index td) vs (check_exprs td) (secondary_indexes td).
Definition with_secondary (td : TableData J T) (secs : list SIndex) : TableData J T :=
  mkTable (schema td) (index td) (version_store td) (check_exprs td) secs.

(** [index.insert] and [index.delete]. *)
Definition write_row (table : str) (key data : list Z) : D () :=
  td ← table_data table; t ← panic (kt_insert (index td) key data); set_table table (with_index td t).
Definition remove_row (table : str) (key : list Z) : D () :=
  td ← table_data table; t ← panic (fst <$> kt_delete (index td) key); set_table table (with_index td t).

(** Changes for the files of the tables. *)
Definition log_delta (table : str) (d : TableFiles.LogDelta) : D () :=
  change (λ w, set_deltas ((λ l, l ++ [(table, d)]) <$> deltas w) w).
Definition log_put (table : str) (key data : list Z) : D () := log_delta table (TableFiles.mkDelta TableFiles.OP_PUT key data).
Definition log_del (table : str) (key : list Z) : D () := log_delta table (TableFiles.mkDelta TableFiles.OP_DEL key []).
Definition clear_pending_deltas : D () := change (λ w, set_deltas ((λ _, []) <$> deltas w) w).

(** [put_row], and a deletion with its change. *)
Definition put_row (table : str) (key data : list Z) : D () :=
  _ ← table_data table; _ ← log_put table key data; write_row table key data.
Definition delete_row (table : str) (key : list Z) : D () :=
  _ ← table_data table; _ ← log_del table key; remove_row table key.

Definition search_row (table : str) (key : list Z) : D (option (list Z)) :=
  td ← table_data table; panic (kt_search (index td) key).

Definition change_store (table : str) (f : VersionStore.VersionStore row → VersionStore.VersionStore row) : D () :=
  td ← table_data table; set_table table (with_store td (f (version_store td))).

(** An operation on the version store that may fail. *)
Definition try_store {A} (table : str) (f : VersionStore.VersionStore row → VersionStore.VersionStore row * Prelude.result A) : D () :=
  td ← table_data table;
  let '(vs, r) := f (version_store td) in
  _ ← set_table table (with_store td vs);
  match r with Ok _ => mret () | Err e => fail (QCore e) end.

Definition ssi_write (txn : option Z) (table : str) (key : list Z) : D () :=
  match txn with
  | Some tid => reading (λ _, update_txns (Transaction.ssi_record_write tid (key_of table) key))
  | None => mret ()
  end.

(** ** Undo logs *)

Definition record_undo (txn : option Z) (table : str) (key : list Z) (prev : option (list Z)) : D () :=
  match txn with
  | None => mret ()
  | Some tid => change (λ w,
      let log := default ∅ (txn_undo w !! tid) in
      set_undo (<[tid := if bool_decide (is_Some (log !! (table, key))) then log else <[(table, key) := prev]> log]> (txn_undo w)) w)
  end.

Definition clear_txn_undo (tid : Z) : D () := change (λ w, set_undo (delete tid (txn_undo w)) w).

(** ** Secondary indexes *)

(** The values of the columns of an index, if the row has all of them. *)
Definition key_values (sec : SIndex) (values : row) : option row :=
  let key_vals := omap (λ i, values !! i) (SecondaryIndex.columns sec) in
  if bool_decide (length key_vals = length (SecondaryIndex.columns sec)) then Some key_vals else None.

(** The loop over the indexes; the first error ends it. *)
Fixpoint each_index (step : SIndex → option (SIndex * Prelude.result ())) (secs : list SIndex) : option (list SIndex * qresult ()) :=
  match secs with
  | [] => Some ([], QOk ())
  | sec :: secs' =>
      '(sec, r) ← step sec;
      match r with
      | Err e => Some (sec :: secs', QErr (Execution (core_error_text e)))
      | Ok _ => '(secs', r) ← each_index step secs'; Some (sec :: secs', r)
      end
  end.

Definition insert_step (values : row) (pk : list Z) (sec : SIndex) : option (SIndex * Prelude.result ()) :=
  match key_values sec values with Some vals => SecondaryIndex.insert sec vals pk | None => Some (sec, Ok ()) end.

(** The result of removing an entry is ignored. *)
Definition delete_step (values : row) (pk : list Z) (sec : SIndex) : option (SIndex * Prelude.result ()) :=
  match key_values sec values with
  | Some vals => '(sec, _) ← SecondaryIndex.remove sec vals pk; Some (sec, Ok ())
  | None => Some (sec, Ok ())
  end.

(** [old_vals == new_vals]. *)
Fixpoint values_eq (l l' : row) : option bool :=
  match l, l' with
  | [], [] => Some true
  | v :: l, v' :: l' => b ← value_eq v v'; if (b : bool) then values_eq l l' else Some false
  | _, _ => Some false
  end.

Definition update_step (old_values new_values : row) (pk : list Z) (sec : SIndex) : option (SIndex * Prelude.result ()) :=
  match key_values sec old_values, key_values sec new_values with
  | Some old_vals, Some new_vals =>
      same ← values_eq old_vals new_vals;
      if (same : bool) then Some (sec, Ok ())
      else '(sec, _) ← SecondaryIndex.remove sec old_vals pk; SecondaryIndex.insert sec new_vals pk
  | _, _ => Some (sec, Ok ())
  end.

(** A loop over the indexes of a table. *)
Definition update_indexes (table : str) (step : SIndex → option (SIndex * Prelude.result ())) : D () :=
  td ← table_data table;
  '(secs, r) ← panic (each_index step (secondary_indexes td));
  _ ← set_table table (with_secondary td secs);
  match r with QOk _ => mret () | QErr e => fail e end.

Definition update_secondary_indexes_insert (table : str) (values : row) (pk : list Z) : D () := update_indexes table (insert_step values pk).
Definition update_secondary_indexes_delete (table : str) (values : row) (pk : list Z) : D () := update_indexes table (delete_step values pk).
Definition update_secondary_indexes_update (table : str) (old_values new_values : row) (pk : list Z) : D () :=
  update_indexes table (update_step old_values new_values pk).

(** ** Foreign keys *)

Definition fk_index_eligible (vals : row) : bool :=
  forallb (λ v, match v with
                | Bool _ | Int64 _ | Timestamp _ | Interval _ | Date _ | Uuid _ | Text _ | Bytes _ => true
                | _ => false
                end) vals.

(** [get(idxs[j]) == Some(vals[j])] for every [j]; a value that is not there is a
    panic. *)
Fixpoint all_eq (get : nat → option V) (idxs : list nat) (vals : row) : option bool :=
  match idxs with
  | [] => Some true
  | i :: idxs' =>
      match vals with
      | [] => None
      | v :: vals' =>
          b ← match get i with Some x => value_eq x v | None => Some false end;
          if (b : bool) then all_eq get idxs' vals' else Some false
      end
  end.

(** The same where [vals[j]] is only read if the row has the column. *)
Fixpoint all_eq_raw (get : nat → option V) (idxs : list nat) (vals : row) : option bool :=
  match idxs with
  | [] => Some true
  | i :: idxs' =>
      match get i with
      | None => Some false
      | Some x =>
          match vals with
          | [] => None
          | v :: vals' => b ← value_eq x v; if (b : bool) then all_eq_raw get idxs' vals' else Some false
          end
      end
  end.

(** Columns sorted and without duplicates. *)
Definition needed_columns (idxs : list nat) : list Z := remove_dups (merge_sort Z.le (Z.of_nat <$> idxs)).

(** Whether a row of the table, read in part, has the values. *)
Definition row_matches (data : list Z) (idxs : list nat) (vals : row) : option bool :=
  match Tuple.deserialize_columns data (needed_columns idxs) with
  | Some t => all_eq (λ i, t !! i) idxs vals
  | None => Some false
  end.

(** The first key whose row has the values. *)
Fixpoint any_key_matches (parent : TableData J T) (idxs : list nat) (vals : row) (pks : list (list Z)) : option bool :=
  match pks with
  | [] => Some false
  | pk :: pks' =>
      data ← kt_search (index parent) pk;
      b ← match data with Some pdata => row_matches pdata idxs vals | None => Some false end;
      if (b : bool) then Some true else any_key_matches parent idxs vals pks'
  end.

Definition index_on (td : TableData J T) (idxs : list nat) : option SIndex :=
  snd <$> list_find (λ s, SecondaryIndex.columns s = idxs) (secondary_indexes td).

(** A search for a row that stops at the first one found; the state is [None]
    after a panic. *)
Definition find_row (td : TableData J T) (test : list Z → list Z → option bool) : option bool :=
  r ← kt_for_each (index td) (λ hit k data,
        match test k data with
        | None => (None, false)
        | Some true => (Some true, false)
        | Some false => (hit, true)
        end) (Some false);
  r.

Definition fk_parent_exists (parent : TableData J T) (parent_idxs : list nat) (child_vals : row) : option bool :=
  let parent_pk := Schema.primary_key_columns (schema parent) in
  if negb (bool_decide (parent_pk = [])) && bool_decide (parent_idxs = parent_pk) then
    found ← kt_search (index parent) (Tuple.key_bytes child_vals (seq 0 (length child_vals)));
    Some (bool_decide (is_Some found))
  else
    match (if fk_index_eligible child_vals then index_on parent parent_idxs else None) with
    | Some sec => pks ← SecondaryIndex.lookup_eq sec child_vals; any_key_matches parent parent_idxs child_vals pks
    | None => find_row parent (λ _ pdata, all_eq_raw (Tuple.read_value_at pdata) parent_idxs child_vals)
    end.

(** The values of the columns of a foreign key; [None] if one of them is NULL.
    Columns the table does not have are skipped. *)
Definition fk_values (schema : Schema) (cols : list string) (values : row) : option row :=
  mapM (λ i, let v := default Null (values !! i) in if is_null v then None else Some v) (omap (Schema.column_index schema) cols).

(** The rows a new row refers to exist; the messages differ between statements. *)
Fixpoint check_foreign_keys (unknown missing : str → QueryError) (schema : Schema) (values : row) (fks : list Schema.ForeignKey) : D () :=
  match fks with
  | [] => mret ()
  | fk :: fks' =>
      match fk_values schema (Schema.fk_columns fk) values with
      | None => check_foreign_keys unknown missing schema values fks'
      | Some child_vals =>
          let ref_table := name_of (Schema.ref_table fk) in
          w ← world;
          match tables w !! ref_table with
          | None => fail (unknown ref_table)
          | Some parent =>
              let parent_idxs := omap (Schema.column_index (TableAccess.schema parent)) (Schema.ref_columns fk) in
              found ← panic (fk_parent_exists parent parent_idxs child_vals);
              if (found : bool) then check_foreign_keys unknown missing schema values fks' else fail (missing ref_table)
          end
      end
  end.

(** ** Constraints *)

(** Another row than that of the key [self] has the value in column [i]. *)
Definition unique_violated (td : TableData J T) (self : option (list Z)) (i : nat) (v : V) : option bool :=
  match index_on td [i] with
  | Some sec => hits ← SecondaryIndex.lookup_eq sec [v]; Some (existsb (λ pk, bool_decide (self ≠ Some pk)) hits)
  | None =>
      find_row td (λ k data,
        if bool_decide (self = Some k) then Some false
        else match Tuple.read_value_at data i with Some ov => value_eq ov v | None => Some false end)
  end.

Fixpoint check_unique (violation : str → QueryError) (table : str) (self : option (list Z)) (values : row) (i : nat) (cols : list SColumn) : D () :=
  match cols with
  | [] => mret ()
  | col :: cols' =>
      let rest := check_unique violation table self values (S i) cols' in
      match values !! i with
      | Some v =>
          if Schema.unique col && negb (Schema.primary_key col) && negb (is_null v) then
            td ← table_data table;
            violated ← panic (unique_violated td self i v);
            if (violated : bool) then fail (violation (name_of (Schema.col_name col))) else rest
          else rest
      | None => rest
      end
  end.

Fixpoint check_checks (violation : QueryError) (schema : Schema) (values : row) (checks : list Expr) : D () :=
  match checks with
  | [] => mret ()
  | chk :: checks' =>
      b ← evaluate (eval_check schema values chk);
      if (b : bool) then check_checks violation schema values checks' else fail violation
  end.

(** ** RETURNING *)

Definition returning_name (c : SelectColumn) : option str :=
  match c with
  | SelectStar => None
  | SelectExpr expr alias => Some (match alias with Some a => a | None => match expr with Column c => c | _ => chars "?column?" end end)
  end.

Definition returning_value (schema : Schema) (values : row) (c : SelectColumn) : E V :=
  match c with SelectStar => panic_or None | SelectExpr expr _ => eval_value schema values expr end.

(** A star that is not the first column is a panic. *)
Definition build_returning_result (ret_cols : list SelectColumn) (rows : list row) (names : list str) (schema : Schema) : D result :=
  match ret_cols with
  | SelectStar :: _ => mret (Rows names rows)
  | _ =>
      out_names ← panic (mapM returning_name ret_cols);
      out_rows ← evaluate (sequence (map (λ r, sequence (map (returning_value schema r) ret_cols)) rows));
      mret (Rows out_names out_rows)
  end.

Definition finish (returning : option (list SelectColumn)) (td : TableData J T) (done : list row) : D result :=
  match returning with
  | Some ret_cols => build_returning_result ret_cols done (col_names td) (schema td)
  | None => mret (Modified (zlen done))
  end.

(** [tuple.set(idx, eval_value(expr))] for every assignment: later ones see what
    earlier ones have set. *)
Fixpoint assign (schema : Schema) (assignments : list (str * Expr)) (tuple : row) : E row :=
  match assignments with
  | [] => mret tuple
  | (name, expr) :: rest =>
      match Schema.column_index schema (key_of name) with
      | Some idx => v ← eval_value schema tuple expr; assign schema rest (<[idx := v]> tuple)
      | None => assign schema rest tuple
      end
  end.

(** ** INSERT *)

Definition eval_insert_value (e : Expr) (schema : Schema) (col_idx : nat) : E V :=
  match e with
  | Literal lit => mret (eval_literal lit)
  | DefaultExpr => mret (default Null (c ← Schema.columns schema !! col_idx; Schema.col_default c))
  | _ => eval_value schema [] e
  end.

(** The values of a row, put where they belong; values without a column are not
    evaluated. *)
Fixpoint place_values (schema : Schema) (targets : list nat) (exprs : list Expr) (row_values : row) : E row :=
  match targets, exprs with
  | i :: targets', e :: exprs' => v ← eval_insert_value e schema i; place_values schema targets' exprs' (<[i := v]> row_values)
  | _, _ => mret row_values
  end.

Fixpoint column_indices (schema : Schema) (cols : list str) : D (list nat) :=
  match cols with
  | [] => mret []
  | c :: cols' =>
      match Schema.column_index schema (key_of c) with
      | Some i => is' ← column_indices schema cols'; mret (i :: is')
      | None => fail (Execution (chars "Column '" ++ c ++ chars "' not found"))
      end
  end.

(** [s[..n]], which panics inside a character. *)
Definition str_prefix (n : Z) (s : list Z) : option (list Z) :=
  match s !! Z.to_nat n with
  | Some b => if (128 <=? b) && (b <? 192) then None else Some (take (Z.to_nat n) s)
  | None => Some s
  end.

Definition truncate_text (max_len : option Z) (v : V) : option V :=
  match max_len, v with
  | Some n, Text s => if n <? zlen s then Text <$> str_prefix n s else Some v
  | _, _ => Some v
  end.

Definition coerce_bool (s : str) : option bool :=
  let l := map to_ascii_lowercase (Civil.trim s) in
  if is_one_of ["true"; "t"; "1"; "yes"] l then Some true
  else if is_one_of ["false"; "f"; "0"; "no"] l then Some false
  else None.

(** A value written as text, as a value of the type of the column if it can be
    read as one. *)
Definition coerce_text (t : DataType) (s : str) (v : V) : option V :=
  match t with
  | TInt64 => Some (from_option Int64 v (parse_i64 (Civil.trim s)))
  | TFloat64 => Some (from_option Float64 v (parse_f64 (Civil.trim s)))
  | TBool => Some (from_option Bool v (coerce_bool s))
  | TDate => from_option Date v <$> Civil.parse_date s
  | TTimestamp => from_option Timestamp v <$> Civil.parse_timestamp s
  | TUuid => Some (from_option Uuid v (Literals.parse_uuid s))
  | TDecimal => Some (from_option (λ ms, Decimal ms.1 ms.2) v (Literals.parse_decimal s))
  | _ => Some v
  end.

Definition coerce (col : SColumn) (v : V) : option V :=
  if is_null v then Some v
  else
    v ← truncate_text (Schema.max_length col) v;
    match v with
    | Text s => coerce_text (Schema.col_data_type col) (utf8_chars s) v
    | Int64 n => Some (if bool_decide (Schema.col_data_type col = TDecimal) then Decimal n 0 else v)
    | Float64 f =>
        Some (if bool_decide (Schema.col_data_type col = TDecimal)
              then from_option (λ ms, Decimal ms.1 ms.2) v (Literals.parse_decimal (display_f64 f)) else v)
    | _ => Some v
    end.

(** A value that is not given: the next of the sequence, or the default; a value
    that is given moves the sequence past it. *)
Definition fill_default (table : str) (col : SColumn) (v : V) : D V :=
  w ← world;
  let seq := (table, Schema.col_name col) in
  if is_null v then
    if Schema.auto_increment col then
      match sequences w !! seq with
      | Some c =>
          let '(n, c) := Schema.seq_next c in
          _ ← change (set_sequences (<[seq := c]> (sequences w)));
          mret (Int64 n)
      | None => mret v
      end
    else mret (default v (Schema.col_default col))
  else
    match Schema.auto_increment col, v, sequences w !! seq with
    | true, Int64 n, Some c =>
        c ← panic (Schema.seq_observe c n);
        _ ← change (set_sequences (<[seq := c]> (sequences w)));
        mret v
    | _, _, _ => mret v
    end.

(** Defaults, lengths, types and NOT NULL, column by column. *)
Fixpoint complete_row (table : str) (cols : list SColumn) (values : row) : D row :=
  match cols with
  | [] => mret []
  | col :: cols' =>
      v ← fill_default table col (default Null (head values));
      v ← panic (coerce col v);
      if is_null v && negb (Schema.nullable col) then fail (not_null_violation (name_of (Schema.col_name col)))
      else rest ← complete_row table cols' (tail values); mret (v :: rest)
  end.

Definition u64 (z : Z) : option Z := if z <? 2 ^ 64 then Some z else None.

(** The row numbers go on after the largest key of eight bytes. *)
Definition max_rowid (entries : list entry) : Z :=
  foldl (λ m kv, if bool_decide (length kv.1 = 8%nat) then Z.max m (be_val kv.1) else m) 0 entries.

Definition next_rowid (table : str) : D (list Z) :=
  w ← world;
  v ← match rowids w !! table with
      | Some c => mret c
      | None => td ← table_data table; entries ← panic (kt_scan_all (index td)); panic (u64 (max_rowid entries + 1))
      end;
  next ← panic (u64 (v + 1));
  _ ← change (set_rowids (<[table := next]> (rowids w)));
  mret (be_bytes 8 v).

Definition row_key (table : str) (pk_cols : list nat) (values : row) : D (list Z) :=
  match pk_cols with [] => next_rowid table | _ => mret (Tuple.key_bytes values pk_cols) end.

Definition insert_unknown_parent (t : str) : QueryError := Execution (chars "Foreign key references unknown table '" ++ t ++ chars "'").

(** The row is checked against every constraint but the primary key. *)
Definition check_insert (table : str) (td : TableData J T) (values : row) : D () :=
  _ ← check_unique unique_violation table None values 0 (Schema.columns (schema td));
  _ ← check_checks (check_violation table) (schema td) values (check_exprs td);
  check_foreign_keys insert_unknown_parent fk_violation (schema td) values (Schema.foreign_keys (schema td)).

(** [ON CONFLICT DO UPDATE]: no constraint is checked and no version is added. *)
Definition update_existing (table : str) (td : TableData J T) (txn : option Z) (key existing : list Z)
    (assignments : list (str * Expr)) : D row :=
  old ← panic (Scan.decode_row existing);
  new ← evaluate (assign (schema td) assignments old);
  _ ← update_secondary_indexes_update table old new key;
  _ ← record_undo txn table key (Some existing);
  _ ← put_row table key (Tuple.serialize new);
  mret new.

(** The version and the log record of a row a transaction inserts. *)
Definition insert_version (table : str) (td : TableData J T) (txn : option Z) (count : Z) (key : list Z) (values : row) : D () :=
  match txn with
  | None => mret ()
  | Some tid =>
      _ ← wal_append (Wal.Insert tid (wrap 32 (zlen (Schema.columns (schema td)))) 0 (wrap 16 count) (Tuple.serialize values));
      sn ← reading (λ _, get_snapshot tid);
      _ ← change_store table (VersionStore.insert key values tid (Transaction.sn_start_ts sn));
      ssi_write (Some tid) table key
  end.

Definition duplicate_key (table : str) : QueryError :=
  Execution (chars "duplicate key value violates primary key constraint on table '" ++ table ++ chars "'").

(** A row whose key is free, or is overwritten if the table has no primary key. *)
Definition insert_new (table : str) (td : TableData J T) (txn : option Z) (count : Z) (key : list Z) (existing : option (list Z)) (values : row) :
    D row :=
  _ ← insert_version table td txn count key values;
  _ ← update_secondary_indexes_insert table values key;
  _ ← record_undo txn table key existing;
  _ ← put_row table key (Tuple.serialize values);
  mret values.

(** One row: the row written, if there is one. *)
Definition insert_row (table : str) (td : TableData J T) (on_conflict : option OnConflict) (txn : option Z) (count : Z) (values : row) :
    D (option row) :=
  let pk_cols := Schema.primary_key_columns (schema td) in
  values ← complete_row table (Schema.columns (schema td)) values;
  _ ← check_insert table td values;
  key ← row_key table pk_cols values;
  existing ← search_row table key;
  match existing, on_conflict with
  | Some _, Some (mkOnConflict _ DoNothing) => mret None
  | Some data, Some (mkOnConflict _ (DoUpdate assignments)) =>
      r ← update_existing table td txn key data assignments; mret (Some r)
  | Some _, None =>
      if bool_decide (pk_cols = []) then r ← insert_new table td txn count key existing values; mret (Some r)
      else fail (duplicate_key table)
  | None, _ => r ← insert_new table td txn count key existing values; mret (Some r)
  end.

Fixpoint insert_rows (table : str) (td : TableData J T) (on_conflict : option OnConflict) (txn : option Z) (done : list row) (rows : list row) :
    D (list row) :=
  match rows with
  | [] => mret done
  | r :: rows' =>
      o ← insert_row table td on_conflict txn (zlen done) r;
      insert_rows table td on_conflict txn (done ++ option_list o) rows'
  end.

Context (stats : Cost.StatsCatalog (J := J)) (other : Tables J T → PhysicalPlan → Q result).

(** A statement executed by another one; it is not part of a subquery. *)
Definition nested_select (txn : option Z) (q : SelectStmt) : D result := λ '(w, s),
  '(r, (t, s)) ← execute_select stats txn other true q (tables w, s);
  Some (r, (set_tables t w, s)).

Definition source_rows (table : str) (columns : option (list str)) (source : InsertSource) (txn : option Z) : D (list row) :=
  match source with
  | InsertValues values =>
      td ← table_data table;
      let num_cols := length (Schema.columns (schema td)) in
      targets ← (match columns with
                 | Some cols => column_indices (schema td) cols
                 | None => mret (seq 0 num_cols)
                 end : D (list nat));
      evaluate (sequence (map (λ exprs, place_values (schema td) targets exprs (replicate num_cols Null)) values))
  | InsertSelect q =>
      r ← nested_select txn q;
      match r with Rows _ rows => mret rows | _ => fail (Execution (chars "INSERT ... SELECT did not return rows")) end
  end.

Definition exec_insert (ins : InsertStmt) (txn : option Z) : D result :=
  let table := ins_table ins in
  rows ← source_rows table (ins_columns ins) (ins_source ins) txn;
  td ← table_data table;
  done ← insert_rows table td (on_conflict ins) txn [] rows;
  finish (ins_returning ins) td done.

(** ** UPDATE *)

(** The rows UPDATE and DELETE look at. *)
Definition target_entries (table : str) (td : TableData J T) (filter : option Expr) (txn : option Z) : Q (list entry) :=
  match try_pk_lookup filter (schema td) with
  | Some key =>
      _ ← ssi_read txn table key;
      data ← read_visible_one td txn key;
      mret (match data with Some d => [(key, d)] | None => [] end)
  | None => _ ← ssi_predicate txn table; read_visible_entries td txn
  end.

Fixpoint check_not_null (values : row) (i : nat) (cols : list SColumn) : D () :=
  match cols with
  | [] => mret ()
  | col :: cols' =>
      if negb (Schema.nullable col) && from_option is_null false (values !! i) then fail (not_null_violation (name_of (Schema.col_name col)))
      else check_not_null values (S i) cols'
  end.

Definition update_unique_violation (col : str) : QueryError :=
  Execution (chars "UNIQUE constraint violated for column '" ++ col ++ chars "'").
Definition update_check_violation (table : str) : QueryError := Execution (chars "CHECK constraint failed on table '" ++ table ++ chars "'").
Definition update_unknown_parent (t : str) : QueryError := Execution (chars "FK references unknown table '" ++ t ++ chars "'").
Definition update_fk_violation (t : str) : QueryError := Execution (chars "FOREIGN KEY violation: no matching row in '" ++ t ++ chars "'").

Definition check_update (table : str) (td : TableData J T) (key : list Z) (values : row) : D () :=
  _ ← check_not_null values 0 (Schema.columns (schema td));
  _ ← check_unique update_unique_violation table (Some key) values 0 (Schema.columns (schema td));
  _ ← check_checks (update_check_violation table) (schema td) values (check_exprs td);
  check_foreign_keys update_unknown_parent update_fk_violation (schema td) values (Schema.foreign_keys (schema td)).

(** The version and the log record of a row a transaction updates. *)
Definition update_version (table : str) (td : TableData J T) (txn : option Z) (count : Z) (key old_data : list Z) (old new : row) : D () :=
  match txn with
  | None => mret ()
  | Some tid =>
      sn ← reading (λ _, get_snapshot tid);
      let ts := Transaction.sn_start_ts sn in
      _ ← change_store table (VersionStore.ensure_base key old);
      _ ← try_store table (VersionStore.try_update key new tid ts ts (Transaction.sn_active_txns sn));
      _ ← ssi_write (Some tid) table key;
      wal_append (Wal.Update tid (wrap 32 (zlen (Schema.columns (schema td)))) 0 (wrap 16 count) old_data (Tuple.serialize new))
  end.

Definition update_one (table : str) (td : TableData J T) (assignments : list (str * Expr)) (txn : option Z) (count : Z)
    (key data : list Z) (old : row) : D row :=
  _ ← reading (λ _, ssi_read txn table key);
  _ ← record_undo txn table key (Some data);
  new ← evaluate (assign (schema td) assignments old);
  _ ← check_update table td key new;
  _ ← update_version table td txn count key data old new;
  _ ← update_secondary_indexes_update table old new key;
  _ ← put_row table key (Tuple.serialize new);
  mret new.

(** The loop of UPDATE and DELETE: [step] changes the rows that match. *)
Fixpoint each_match (schema : Schema) (filter : option Expr) (step : Z → list Z → list Z → row → D row) (done : list (list Z * row))
    (entries : list entry) : D (list (list Z * row)) :=
  match entries with
  | [] => mret done
  | (key, data) :: entries' =>
      match Scan.decode_row data with
      | None => each_match schema filter step done entries'
      | Some tuple =>
          m ← reading (λ _, matches_filter schema filter tuple);
          if (m : bool) then r ← step (zlen done) key data tuple; each_match schema filter step (done ++ [(key, r)]) entries'
          else each_match schema filter step done entries'
      end
  end.

Definition exec_update (upd : UpdateStmt) (txn : option Z) : D result :=
  let table := upd_table upd in
  td ← table_data table;
  entries ← reading (λ _, target_entries table td (upd_where upd) txn);
  done ← each_match (schema td) (upd_where upd) (update_one table td (assignments upd) txn) [] entries;
  finish (upd_returning upd) td done.*2.

(** ** DELETE *)

Record FkRef : Type := mkFkRef {
  child_name : str;
  parent_idxs : list nat;
  child_idxs : list nat;
  fr_on_delete : Schema.FkAction;
}.

(** The foreign keys of other tables that refer to the table. *)
Definition fk_refs (table : str) (parent : Schema) (ts : Tables J T) : list FkRef :=
  hash_iter ts ≫= λ '(other_name, other_td),
    if bool_decide (other_name = table) then []
    else
      omap (λ fk,
        if bool_decide (name_of (Schema.ref_table fk) = table) then
          Some (mkFkRef other_name (omap (Schema.column_index parent) (Schema.ref_columns fk))
                  (omap (Schema.column_index (schema other_td)) (Schema.fk_columns fk)) (Schema.on_delete fk))
        else None) (Schema.foreign_keys (schema other_td)).

(** The rows of the keys an index gives. *)
Fixpoint rows_of_keys (td : TableData J T) (pks : list (list Z)) : option (list entry) :=
  match pks with
  | [] => Some []
  | pk :: pks' =>
      data ← kt_search (index td) pk;
      rest ← rows_of_keys td pks';
      Some (match data with Some d => (pk, d) :: rest | None => rest end)
  end.

Definition fk_candidates (child : TableData J T) (fkr : FkRef) (vals : row) : option (list entry) :=
  match (if fk_index_eligible vals then index_on child (child_idxs fkr) else None) with
  | Some sec => pks ← SecondaryIndex.lookup_eq sec vals; rows_of_keys child pks
  | None => kt_scan_all (index child)
  end.

(** The keys of the rows that refer to the values; with RESTRICT there must be none. *)
Fixpoint referring (fkr : FkRef) (vals : row) (entries : list entry) : D (list (list Z)) :=
  match entries with
  | [] => mret []
  | (ck, cdata) :: entries' =>
      b ← panic (row_matches cdata (child_idxs fkr) vals);
      if (b : bool) then
        match fr_on_delete fkr with
        | Schema.Restrict => fail (fk_referenced (child_name fkr))
        | _ => rest ← referring fkr vals entries'; mret (ck :: rest)
        end
      else referring fkr vals entries'
  end.

(** The values a deleted row is referred to by; [None] if one of them is NULL. *)
Definition parent_values (idxs : list nat) (tuple : row) : option row :=
  mapM (λ i, let v := default Null (tuple !! i) in if is_null v then None else Some v) idxs.

(** The rows that refer to the deleted row, with what is to be done to them. *)
Fixpoint cascade_targets (tuple : row) (refs : list FkRef) : D (list (FkRef * list Z)) :=
  match refs with
  | [] => mret []
  | fkr :: refs' =>
      w ← world;
      match tables w !! child_name fkr, parent_values (parent_idxs fkr) tuple with
      | Some child, Some vals =>
          entries ← panic (fk_candidates child fkr vals);
          cks ← referring fkr vals entries;
          rest ← cascade_targets tuple refs';
          mret (map (pair fkr) cks ++ rest)
      | _, _ => cascade_targets tuple refs'
      end
  end.

Definition set_nulls (idxs : list nat) (values : row) : row := foldl (λ r i, <[i := Null]> r) values idxs.

(** A row that refers to the deleted one is deleted, or its columns are set to
    NULL; rows that refer to it in turn are not looked at. *)
Definition cascade_one (txn : option Z) (target : FkRef * list Z) : D () :=
  let '(fkr, ck) := target in
  let cname := child_name fkr in
  prev ← search_row cname ck;
  match fr_on_delete fkr with
  | Schema.Cascade =>
      _ ← (match prev ≫= Tuple.deserialize_to_vec with
           | Some cvals => update_secondary_indexes_delete cname cvals ck
           | None => mret ()
           end : D ());
      _ ← record_undo txn cname ck prev;
      delete_row cname ck
  | Schema.SetNull =>
      match prev, prev ≫= Scan.decode_row with
      | Some d, Some old =>
          let new := set_nulls (child_idxs fkr) old in
          _ ← update_secondary_indexes_update cname old new ck;
          _ ← record_undo txn cname ck (Some d);
          put_row cname ck (Tuple.serialize new)
      | _, _ => mret ()
      end
  | Schema.Restrict => mret ()
  end.

Fixpoint for_all {A} (f : A → D ()) (l : list A) : D () :=
  match l with [] => mret () | a :: l' => _ ← f a; for_all f l' end.

(** The tombstone and the log record of a row a transaction deletes. *)
Definition delete_version (table : str) (td : TableData J T) (txn : option Z) (count : Z) (key data : list Z) (tuple : row) : D () :=
  match txn with
  | None => mret ()
  | Some tid =>
      sn ← reading (λ _, get_snapshot tid);
      let ts := Transaction.sn_start_ts sn in
      _ ← change_store table (VersionStore.ensure_base key tuple);
      _ ← try_store table (VersionStore.try_delete key tid ts ts (Transaction.sn_active_txns sn));
      _ ← ssi_write (Some tid) table key;
      wal_append (Wal.Delete tid (wrap 32 (zlen (Schema.columns (schema td)))) 0 (wrap 16 count) data)
  end.

(** The row stays in the tree until all the rows are done. *)
Definition delete_one (table : str) (td : TableData J T) (refs : list FkRef) (txn : option Z) (count : Z) (key data : list Z) (tuple : row) :
    D row :=
  _ ← reading (λ _, ssi_read txn table key);
  _ ← record_undo txn table key (Some data);
  targets ← cascade_targets tuple refs;
  _ ← for_all (cascade_one txn) targets;
  _ ← delete_version table td txn count key data tuple;
  _ ← update_secondary_indexes_delete table tuple key;
  mret tuple.

Definition exec_delete (del : DeleteStmt) (txn : option Z) : D result :=
  let table := del_table del in
  td ← table_data table;
  entries ← reading (λ _, target_entries table td (del_where del) txn);
  w ← world;
  done ← each_match (schema td) (del_where del) (delete_one table td (fk_refs table (schema td) (tables w)) txn) [] entries;
  _ ← for_all (delete_row table) done.*1;
  finish (del_returning del) td done.*2.

(** ** The ends of transactions *)

(** Errors of the indexes are ignored. *)
Definition ignoring (m : D ()) : D () := λ st, '(_, st) ← m st; Some (QOk (), st).

(** One key gets its old value back; a row that does not decode leaves the
    indexes alone. *)
Definition undo_one (e : (str * list Z) * option (list Z)) : D () :=
  let '((table, key), prev) := e in
  w ← world;
  match tables w !! table with
  | None => mret ()
  | Some _ =>
      current ← search_row table key;
      match current, prev with
      | Some cur, Some pv =>
          _ ← (match Tuple.deserialize_to_vec cur, Tuple.deserialize_to_vec pv with
               | Some cv, Some pvv => ignoring (update_secondary_indexes_update table cv pvv key)
               | _, _ => mret ()
               end : D ());
          write_row table key pv
      | Some cur, None =>
          _ ← (match Tuple.deserialize_to_vec cur with
               | Some cv => update_secondary_indexes_delete table cv key
               | None => mret ()
               end : D ());
          remove_row table key
      | None, Some pv =>
          _ ← (match Tuple.deserialize_to_vec pv with
               | Some pvv => ignoring (update_secondary_indexes_insert table pvv key)
               | None => mret ()
               end : D ());
          write_row table key pv
      | None, None => mret ()
      end
  end.

(** The versions of the transaction are removed from the tables of the log, in
    any order. *)
Definition forget_versions (tid : Z) (table : str) : D () :=
  w ← world;
  match tables w !! table with
  | None => mret ()
  | Some _ => change_store table (VersionStore.rollback_txn tid)
  end.

Definition rollback_txn_effects (tid : Z) : D () :=
  _ ← clear_pending_deltas;
  w ← world;
  match txn_undo w !! tid with
  | None => mret ()
  | Some undo =>
      _ ← clear_txn_undo tid;
      _ ← for_all undo_one (hash_iter undo);
      for_all (forget_versions tid) (remove_dups (hash_iter undo).*1.*1)
  end.

Definition no_transaction : QueryError := Execution (chars "No active transaction").

(** [now] is the clock, which the transaction manager reads when it begins one. *)
Definition exec_begin (now : Z) (isolation : option Transaction.IsolationLevel) : D result := λ '(w, s),
  let '(tm, tid) := Transaction.begin (default Transaction.ReadCommitted isolation) now (txns s) in
  (_ ← wal_append (Wal.Begin tid); mret (OkText (chars "Transaction " ++ show_int tid ++ chars " started")))
    (w, mkSession tm (pending s)).

(** What the transaction manager says; an error is reported as text. *)
Definition end_txn {A} (f : Transaction.TransactionManager → Transaction.TransactionManager * Prelude.result A) : D (option CoreError) :=
  λ '(w, s), let '(tm, r) := f (txns s) in
    Some (QOk (match r with Ok _ => None | Err e => Some e end), (w, mkSession tm (pending s))).

Definition exec_commit (txn : option Z) : D result :=
  match txn with
  | None => fail no_transaction
  | Some tid =>
      failed ← end_txn (Transaction.commit tid);
      match failed with
      | None => _ ← clear_txn_undo tid; _ ← wal_append (Wal.Commit tid); mret (OkText (chars "COMMIT"))
      | Some e =>
          _ ← rollback_txn_effects tid;
          _ ← wal_append (Wal.Abort tid);
          fail (Execution (core_error_text e))
      end
  end.

Definition exec_rollback (txn : option Z) : D result :=
  match txn with
  | None => fail no_transaction
  | Some tid =>
      _ ← rollback_txn_effects tid;
      _ ← wal_append (Wal.Abort tid);
      failed ← end_txn (Transaction.abort tid);
      match failed with None => mret (OkText (chars "ROLLBACK")) | Some e => fail (Execution (core_error_text e)) end
  end.

Definition on_database (m : Db_of (Tables J T) result) : D result := λ '(w, s),
  '(r, (t, s)) ← m (tables w, s); Some (r, (set_tables t w, s)).

(** A statement with its transaction. The operands of set operations that are not
    queries are executed by [operand], and statements that neither read nor change
    rows by [administer]. *)
Definition execute_statement (now : Z) (top : bool) (operand : Statement → Db_of (Tables J T) result) (administer : Statement → D result) (stmt : Statement) (txn : option Z) : D result :=
  match stmt with
  | Insert ins => statement top (exec_insert ins txn)
  | Update upd => statement top (exec_update upd txn)
  | Delete del => statement top (exec_delete del txn)
  | Begin isolation => statement top (exec_begin now isolation)
  | Commit => statement top (exec_commit txn)
  | Rollback => statement top (exec_rollback txn)
  | Select _ | Union _ _ _ | Intersect _ _ _ | Except _ _ _ =>
      on_database (execute stats txn other top operand stmt)
  | _ => statement top (administer stmt)
  end.
End dml.
Arguments World J T : clear implicits.
End Dml.
