(* ===== verification/DmlFindings.v ===== *)
(** What statements do that is not what they say, computed by the model from SQL
    text: updates lost by the ROLLBACK of another transaction, reads of data not
    committed and of data out of date, constraints left violated, statements that
    fail and still change rows. *)
From S2P Require Import Prelude ByteOrder BTree Value OrderKey BTreeSpec OrderedIndex SecondaryIndex Schema Tuple Transaction VersionStore Wal Civil Sql Lexer Parser Like Strings Float64 Eval Scan Collections Plan Stats Cost Optimizer Exec Window Join Aggregate TableAccess TableSpec Subquery Query IndexScanSpec QuerySpec Dml.
Import Value OrderKey Sql Like Strings Eval Collections Plan Exec TableAccess Query QuerySpec Dml.

Module DmlFindings.

#[local] Existing Instance Tuple.sample_codecs.
#[local] Existing Instance Tuple.sample_show.
#[local] Existing Instance Tuple.sample_read.
#[local] Existing Instance Lexer.ascii_only.
#[local] Existing Instance Lexer.no_floats.
#[local] Existing Instance Scan.sample_engine.
#[local] Existing Instance Collections.plain.
#[local] Existing Instance no_libm.
Local Abbreviation Tree := BTree.BTree.BPlusTree.
Local Abbreviation result := (ExecutionResult unit).

(** A text executed by a transaction, or outside of any. *)
Definition execute_sql `{!Engine unit} (txn : option Z) (sql : string) : Db_of (World unit Tree) result :=
  match Parser.parse_sql (chars sql) with
  | Some (POk stmt) => execute_statement ∅ (λ _ _, q_fail (QPlan [])) 0 true (λ _ _, None) (λ _ _, None) stmt txn
  | _ => λ _, None
  end.

(** The results of a sequence of texts; [None] at the end if one of them panics. *)
Fixpoint script `{!Engine unit} (l : list (option Z * string)) (st : World unit Tree * Session) : list (option (qresult result)) :=
  match l with
  | [] => []
  | (txn, sql) :: l' =>
      match execute_sql txn sql st with
      | Some (r, st') => Some r :: script l' st'
      | None => [None]
      end
  end.

Definition fresh (ts : Tables unit Tree) : World unit Tree * Session := (mkWorld ts ∅ ∅ ∅ [] None, mkSession Transaction.new false).

Definition column (name : string) (t : DataType) : Schema.Column (J := unit) := Schema.column_new name t.
Definition empty_table (name : string) (cols : list Schema.Column) (fks : list Schema.ForeignKey) (secs : list (SecondaryIndex.SecondaryIndex Tree)) :
    TableData unit Tree :=
  mkTable (Schema.mkSchema cols name [] fks (Schema.collect_map cols)) (kt_new name 64) VersionStore.new [] secs.

Definition pk : Schema.Column (J := unit) := Schema.with_primary_key (column "id" TInt64).
Definition counters : Tables unit Tree := {[chars "t" := empty_table "t" [pk; column "v" TInt64] [] []]}.

Definition done (n : Z) : option (qresult result) := Some (QOk (Modified n)).
Definition said (m : string) : option (qresult result) := Some (QOk (OkText (chars m))).
Definition rows (l : list (list Z)) : option (qresult result) := Some (QOk (Rows [chars "id"; chars "v"] (map (map Int64) l))).

Definition failed (e : QueryError) : option (qresult result) := Some (QErr e).
Definition begun (n : string) : option (qresult result) := said ("Transaction " +:+ n +:+ " started").

(** ** Transactions *)

(** An update of a row another transaction has updated fails, after the row the
    snapshot shows has been written down as the one to restore: ROLLBACK then
    writes it over the other transaction's row, whose update is lost although the
    other transaction commits. *)
Theorem rollback_loses_update :
  script
    [(None, "INSERT INTO t VALUES (1, 10)"); (None, "BEGIN"); (None, "BEGIN"); (Some 1, "UPDATE t SET v = 11 WHERE id = 1");
     (Some 2, "UPDATE t SET v = 12 WHERE id = 1"); (Some 2, "ROLLBACK"); (Some 1, "COMMIT"); (None, "SELECT * FROM t")] (fresh counters) =
    [done 1; begun "1"; begun "2"; done 1; failed (QCore Prelude.WriteConflict); said "ROLLBACK"; said "COMMIT"; rows [[1; 10]]].
Proof. by vm_compute. Qed.

(** A statement outside a transaction writes the tree and adds no version: where a
    transaction has left versions, later transactions go on reading these. *)
Theorem autocommit_unseen :
  script
    [(None, "INSERT INTO t VALUES (1, 10)"); (None, "BEGIN"); (Some 1, "UPDATE t SET v = 11 WHERE id = 1"); (Some 1, "COMMIT");
     (None, "UPDATE t SET v = 12 WHERE id = 1"); (None, "SELECT * FROM t"); (None, "BEGIN"); (Some 2, "SELECT * FROM t")] (fresh counters) =
    [done 1; begun "1"; done 1; said "COMMIT"; done 1; rows [[1; 12]]; begun "2"; rows [[1; 11]]].
Proof. by vm_compute. Qed.

(** [ON CONFLICT DO UPDATE] adds no version, so that another transaction reads
    what is not committed and is rolled back later. *)
Theorem conflict_update_read_uncommitted :
  script
    [(None, "INSERT INTO t VALUES (1, 10)"); (None, "BEGIN"); (None, "BEGIN");
     (Some 1, "INSERT INTO t VALUES (1, 11) ON CONFLICT (id) DO UPDATE SET v = 11"); (Some 2, "SELECT * FROM t"); (Some 1, "ROLLBACK");
     (Some 2, "SELECT * FROM t")] (fresh counters) =
    [done 1; begun "1"; begun "2"; done 1; rows [[1; 11]]; said "ROLLBACK"; rows [[1; 10]]].
Proof. by vm_compute. Qed.

(** ** Rows and their keys *)

(** A row whose primary key is updated stays under its old key: it is not found by
    the new one, and a second row with that key is accepted. *)
Theorem key_update_keeps_place :
  script
    [(None, "INSERT INTO t VALUES (1, 10)"); (None, "UPDATE t SET id = 2"); (None, "SELECT * FROM t WHERE id = 2");
     (None, "INSERT INTO t VALUES (2, 20)"); (None, "SELECT * FROM t")] (fresh counters) =
    [done 1; done 1; rows []; done 1; rows [[2; 10]; [2; 20]]].
Proof. by vm_compute. Qed.

(** An INSERT that fails at one of its rows has inserted the rows before it. *)
Theorem failed_insert_keeps_rows :
  script [(None, "INSERT INTO t VALUES (1, 10), (2, 20), (1, 30)"); (None, "SELECT * FROM t")] (fresh counters) =
    [failed (duplicate_key (chars "t")); rows [[1; 10]; [2; 20]]].
Proof. by vm_compute. Qed.

(** The assignments of an UPDATE are made one after the other: columns cannot be
    exchanged. *)
Theorem assignments_in_sequence :
  script [(None, "INSERT INTO t VALUES (1, 10)"); (None, "UPDATE t SET v = id, id = v WHERE id = 1"); (None, "SELECT * FROM t")] (fresh counters) =
    [done 1; done 1; rows [[1; 1]]].
Proof. by vm_compute. Qed.

(** A text too long for its column is cut at a number of bytes: inside a character
    of several bytes that is a panic. *)
Theorem long_text_panics :
  coerce (J := unit) (Schema.with_max_length (column "name" TText) 2) (Text [97; 195; 164]) = None ∧
  coerce (J := unit) (Schema.with_max_length (column "name" TText) 2) (Text [97; 98; 99]) = Some (Text [97; 98]).
Proof. by vm_compute. Qed.

(** A scalar subquery with several rows is reported when the rows are already
    inserted, with NULL for its value. *)
Theorem failed_subquery_inserts :
  let two_rows := {| now_micros := 0; now_secs := 0; powf _ _ := 0; debug_value _ := []; run_subquery _ _ _ := [[Int64 1]; [Int64 2]] |} in
  script (Engine0 := two_rows) [(None, "INSERT INTO t VALUES (1, (SELECT v FROM t))"); (None, "SELECT * FROM t")] (fresh counters) =
    [failed (Execution subquery_error); Some (QOk (Rows [chars "id"; chars "v"] [[Int64 1; Null]]))].
Proof. by vm_compute. Qed.

(** ** Constraints *)

Definition refers (col table : string) : Schema.ForeignKey := Schema.mkFk [col] table ["id"] Schema.Cascade Schema.Restrict.
Definition family : Tables unit Tree := list_to_map
  [(chars "a", empty_table "a" [pk; column "v" TInt64] [] []);
   (chars "b", empty_table "b" [pk; column "v" TInt64] [refers "v" "a"] []);
   (chars "c", empty_table "c" [pk; column "v" TInt64] [refers "v" "b"] [])].

(** ON DELETE CASCADE does not go on from the rows it deletes: rows that refer to
    them are left without the row they refer to. *)
Theorem cascade_stops :
  script
    [(None, "INSERT INTO a VALUES (1, 0)"); (None, "INSERT INTO b VALUES (2, 1)"); (None, "INSERT INTO c VALUES (3, 2)");
     (None, "DELETE FROM a WHERE id = 1"); (None, "SELECT * FROM b"); (None, "SELECT * FROM c")] (fresh family) =
    [done 1; done 1; done 1; done 1; rows []; rows [[3; 2]]].
Proof. by vm_compute. Qed.

Definition indexed : Tables unit Tree :=
  {[chars "t" := empty_table "t" [pk; column "v" TInt64; column "w" TInt64] []
      [SecondaryIndex.new "by_v" [1%nat] false; SecondaryIndex.new "by_w" [2%nat] true]]}.
Definition wide_rows (l : list (list Z)) : option (qresult result) :=
  Some (QOk (Rows [chars "id"; chars "v"; chars "w"] (map (map Int64) l))).

(** A row refused by a unique index stays in the indexes before it. When its key
    is used later, a search through such an index finds the row twice. *)
Theorem refused_row_indexed :
  script
    [(None, "INSERT INTO t VALUES (1, 10, 5)"); (None, "INSERT INTO t VALUES (2, 20, 5)"); (None, "INSERT INTO t VALUES (2, 30, 6)");
     (None, "SELECT * FROM t WHERE v > 15"); (None, "SELECT * FROM t WHERE id > 1")] (fresh indexed) =
    [done 1; failed (Execution (chars "unique index by_w violated")); done 1; wide_rows [[2; 30; 6]; [2; 30; 6]]; wide_rows [[2; 30; 6]]].
Proof. by vm_compute. Qed.

(** A row a transaction inserts has a version before the indexes are asked. When a
    unique index refuses it, nothing is written down for ROLLBACK: the version of
    the transaction that was rolled back stays, and later transactions see a row
    that is in no table. *)
Theorem refused_insert_seen :
  script
    [(None, "INSERT INTO t VALUES (1, 10, 5)"); (None, "BEGIN"); (Some 1, "INSERT INTO t VALUES (2, 20, 5)"); (Some 1, "ROLLBACK");
     (None, "SELECT * FROM t"); (None, "BEGIN"); (Some 2, "SELECT * FROM t")] (fresh indexed) =
    [done 1; begun "1"; failed (Execution (chars "unique index by_w violated")); said "ROLLBACK"; wide_rows [[1; 10; 5]]; begun "2";
     wide_rows [[1; 10; 5]; [2; 20; 5]]].
Proof. by vm_compute. Qed.
End DmlFindings.
