(* ===== verification/RollbackSpec.v ===== *)
(** ROLLBACK undoes what a transaction has done: after any statements of the
    transaction that change rows, failed or not, every table has the rows again
    that it had before, as long as nobody else has written in the meantime and no
    secondary index is unique. *)
From S2P Require Import Prelude ByteOrder BTree Value OrderKey BTreeSpec OrderedIndex SecondaryIndex Schema Tuple Transaction VersionStore Wal Civil Sql Lexer Parser Like Strings Float64 Eval Scan Collections Plan Stats Cost Optimizer Exec Window Join Aggregate TableAccess TableSpec Subquery Query IndexScanSpec QuerySpec Dml.
Import Value OrderKey Sql Like Strings Eval Collections Plan Exec TableAccess TableSpec Query Dml.

Module RollbackSpec.

Section spec.
Context {J T : Type} `{!JsonShow J, !JsonRead J} `{!Codecs} `{Unicode} `{FloatText} `{!Engine J} `{!KvTree T} `{!HashOrder} `{!Unordered} `{!Libm}.
Context `{!KvTreeLaws T}.
Local Abbreviation row := (list (Value J)).
Local Abbreviation D := (Db_of (World J T)).
Local Abbreviation state := (World J T * Session)%type.
Local Abbreviation address := (str * list Z)%type.
Implicit Types (st : state) (td : TableData J T).

(** ** What holds during a transaction *)

Context (tid : Z) (sn : Transaction.Snapshot) (before : gmap str (gmap (list Z) (list Z))).

Definition log st : Undo := default ∅ (txn_undo st.1 !! tid).
Definition logged (x : address) st : Prop := is_Some (log st !! x).

(** An index that accepts every entry. *)
Definition plain_index (sec : SecondaryIndex.SecondaryIndex T) : Prop :=
  SecondaryIndex.unique sec = false ∧ ∃ m, kt_rep (SecondaryIndex.tree sec) m.

(** The version the transaction sees of a key, if the key has versions. *)
Definition seen (vm : gmap (list Z) (list (VersionStore.VersionedTuple row))) (k : list Z) : option (option (list Z)) :=
  (λ c, Tuple.serialize <$> VersionStore.newest_visible tid (Transaction.sn_start_ts sn) (Transaction.sn_active_txns sn) c) <$> vm !! k.

(** A table that had the rows [m0], of which the keys in [undo] may have been
    written since. Of the other keys the transaction sees what the tree has,
    where [open] does not exempt them. *)
Record table_kept td (m0 : gmap (list Z) (list Z)) (undo : list Z → option (option (list Z))) (open : list Z → Prop) : Prop := {
  tk_indexes : Forall plain_index (secondary_indexes td);
  tk_undo : ∀ k prev, undo k = Some prev → prev = m0 !! k;
  tk_rows : ∃ m, kt_rep (index td) m ∧ ∀ k, undo k = None → m !! k = m0 !! k;
  tk_seen : ∃ vm, VersionStore.store_rel (version_store td) vm ∧
    ∀ k, undo k = None → ¬ open k → from_option (λ o, o = m0 !! k) True (seen vm k);
}.

Record intact (open : address → Prop) st : Prop := {
  kp_snapshot : Transaction.get_snapshot tid (txns st.2) = Ok sn;
  kp_same : ∀ table, is_Some (tables st.1 !! table) ↔ is_Some (before !! table);
  kp_tables : ∀ table td m0, tables st.1 !! table = Some td → before !! table = Some m0 →
    table_kept td m0 (λ k, log st !! (table, k)) (λ k, open (table, k));
}.

Definition closed : address → Prop := λ _, False.

(** The undo log only grows. *)
Definition grows st st' : Prop := ∀ x, logged x st → logged x st'.

(** What a key had at first, if it is not logged. *)
Definition first_value (x : address) (prev : option (list Z)) st : Prop :=
  log st !! x = None → ∀ m0, before !! x.1 = Some m0 → m0 !! x.2 = prev.

Lemma first_grows x prev st st' : grows st st' → first_value x prev st → first_value x prev st'.
Proof. intros Hg Hf Hn. apply Hf. destruct (log st !! x) as [p|] eqn:Hx; [|done]. destruct (Hg x) as [? ?]; [by exists p|congruence]. Qed.

Lemma grows_refl st : grows st st. Proof. by intros x. Qed.
Lemma grows_trans st1 st2 st3 : grows st1 st2 → grows st2 st3 → grows st1 st3.
Proof. intros Ha Hb x Hx. apply Hb, Ha, Hx. Qed.

(** ** Computations that keep it *)

(** From states with [P], a computation that does not panic keeps the invariant and,
    if it succeeds, ends with [R]. *)
Definition keeps {A} (P : state → Prop) (c : D A) (R : A → state → Prop) : Prop := ∀ st r st',
  intact closed st → P st → c st = Some (r, st') → intact closed st' ∧ grows st st' ∧ ∀ a, r = QOk a → R a st'.

(** A property of states that lasts while the log grows. *)
Definition lasting (P : state → Prop) : Prop := ∀ st st', grows st st' → P st → P st'.

Lemma logged_lasting x : lasting (logged x). Proof. intros st st' Hg. apply Hg. Qed.
Lemma first_lasting x prev : lasting (first_value x prev). Proof. intros st st' Hg. by apply first_grows. Qed.

Lemma bind_inv {A B} (c : D A) (f : A → D B) st r st' :
  mbind f c st = Some (r, st') →
  (∃ a st1, c st = Some (QOk a, st1) ∧ f a st1 = Some (r, st')) ∨ (∃ e, c st = Some (QErr e, st') ∧ r = QErr e).
Proof.
  unfold mbind at 1, Db_bind. destruct (c st) as [[[a|e] st1]|]; cbn; [..|done].
  - intros Hf. left. by exists a, st1.
  - intros [= <- <-]. right. by exists e.
Qed.

Lemma keeps_bind {A B} P (c : D A) (f : A → D B) Q R :
  keeps P c Q → (∀ a, keeps (Q a) (f a) R) → keeps P (mbind f c) R.
Proof.
  intros Hc Hf st r st' Hk HP [(a & st1 & Hr1 & Hr2)|(e & Hr1 & ->)]%bind_inv.
  - destruct (Hc _ _ _ Hk HP Hr1) as (Hk1 & Hg1 & HQ). destruct (Hf a _ _ _ Hk1 (HQ a eq_refl) Hr2) as (Hk2 & Hg2 & HR).
    split; [done|]. split; [exact (grows_trans _ _ _ Hg1 Hg2)|done].
  - destruct (Hc _ _ _ Hk HP Hr1) as (Hk1 & Hg1 & _). split; [done|]. split; [done|]. by intros.
Qed.

(** The assertion is carried along. *)
Lemma keeps_then {A B} P (c : D A) (f : A → D B) R :
  lasting P → keeps P c (λ _ _, True) → (∀ a, keeps P (f a) R) → keeps P (mbind f c) R.
Proof.
  intros HP Hc Hf. apply (keeps_bind P c f (λ _, P)); [|done]. intros st r st' Hk HPs Hr.
  destruct (Hc _ _ _ Hk HPs Hr) as (Hk' & Hg & _). split; [done|]. split; [done|]. intros _ _. by apply (HP st).
Qed.

Lemma keeps_weaken {A} (P P' : state → Prop) (c : D A) (R R' : A → state → Prop) :
  keeps P c R → (∀ st, P' st → P st) → (∀ a st, R a st → R' a st) → keeps P' c R'.
Proof.
  intros Hc HP HR st r st' Hk HPs Hr. destruct (Hc _ _ _ Hk (HP _ HPs) Hr) as (Hk' & Hg & HRs).
  split; [done|]. split; [done|]. intros a Ha. by apply HR, HRs.
Qed.

Lemma keeps_any {A} P (c : D A) R : keeps (λ _, True) c R → keeps P c R.
Proof. intros Hc. by apply (keeps_weaken _ _ _ _ _ Hc). Qed.

Lemma keeps_ret {A} P (a : A) (R : A → state → Prop) : (∀ st, P st → R a st) → keeps P (mret a) R.
Proof. intros HR st r st' Hk HP [= <- <-]. split; [done|]. split; [apply grows_refl|]. intros ? [= <-]. auto. Qed.

Lemma keeps_fail {A} P e (R : A → state → Prop) : keeps P (fail e) R.
Proof. intros st r st' Hk HP [= <- <-]. split; [done|]. by split; [apply grows_refl|]. Qed.

Lemma keeps_panic {A} P (o : option A) (R : A → state → Prop) : (∀ a st, P st → o = Some a → R a st) → keeps P (panic o) R.
Proof.
  intros HR st r st' Hk HP. unfold panic. destruct o as [a|]; [|done]. intros [= <- <-]. split; [done|].
  split; [apply grows_refl|]. intros ? [= <-]. auto.
Qed.

Lemma keeps_world P : keeps P world (λ w st, True).
Proof. intros st r st' Hk HP [= <- <-]. split; [done|]. by split; [apply grows_refl|]. Qed.

(** ** Steps *)

Lemma intact_session X w s s' :
  Transaction.get_snapshot tid (txns s') = Transaction.get_snapshot tid (txns s) → intact X (w, s) → intact X (w, s').
Proof. intros Hs [Hsn Hsame Ht]. split; [by rw -Hsn|done|done]. Qed.

(** The rest of the world does not matter. *)
Lemma intact_world X w w' s : tables w' = tables w → txn_undo w' = txn_undo w → intact X (w, s) → intact X (w', s).
Proof.
  intros Ht Hu [Hsn Hsame Htab]. unfold log in *. cbn [fst] in *. split; cbn [fst]; [done|by rw Ht|]. unfold log. cbn [fst]. by rw Ht Hu.
Qed.

Lemma keeps_change P (f : World J T → World J T) :
  (∀ w, tables (f w) = tables w) → (∀ w, txn_undo (f w) = txn_undo w) → keeps P (change f) (λ _ _, True).
Proof.
  intros Ht Hu [w s] r st' Hk HP [= <- <-]. split; [by apply (intact_world _ w)|]. split; [|done].
  intros x. unfold logged, log. cbn [fst]. by rw Hu.
Qed.

(** Computations of the session leave the snapshot alone. *)
Definition quiet {A} (m : Q A) : Prop := ∀ s r s', m s = Some (r, s') → ∀ t, Transaction.get_snapshot t (txns s') = Transaction.get_snapshot t (txns s).

Lemma quiet_bind {A B} (m : Q A) (f : A → Q B) : quiet m → (∀ a, quiet (f a)) → quiet (mbind f m).
Proof.
  intros Hm Hf s r s'. unfold mbind at 1, Q_bind. destruct (m s) as [[[a|e] s1]|] eqn:Hs; cbn; [..|done].
  - intros Hr t. by rw (Hf a _ _ _ Hr) (Hm _ _ _ Hs).
  - intros [= <- <-] t. exact (Hm _ _ _ Hs t).
Qed.

Lemma quiet_ret {A} (a : A) : quiet (mret a). Proof. by intros s r s' [= <- <-]. Qed.
Lemma quiet_panic {A} (o : option A) : quiet (q_panic o). Proof. intros s r s'. unfold q_panic. destruct o; [|done]. by intros [= <- <-]. Qed.
Lemma quiet_eval {A} (m : E A) : quiet (lift_eval m).
Proof.
  intros s r s'. unfold lift_eval, lift, ok. destruct (m (pending s)) as [[a b]|]; cbn; [|done]. by intros [= <- <-].
Qed.
Lemma quiet_snapshot t : quiet (get_snapshot t). Proof. by intros s r s' [= <- <-]. Qed.
Lemma quiet_read txn table k : quiet (ssi_read txn table k).
Proof. destruct txn as [t|]; [|apply quiet_ret]. intros s r s' [= <- <-] t'. apply read_snapshot. Qed.
Lemma quiet_predicate txn table : quiet (ssi_predicate txn table).
Proof. destruct txn as [t|]; [|apply quiet_ret]. intros s r s' [= <- <-] t'. apply predicate_snapshot. Qed.
Lemma quiet_write t table k : quiet (update_txns (Transaction.ssi_record_write t table k)).
Proof.
  intros s r s' [= <- <-] t'. cbn. unfold Transaction.get_snapshot, Transaction.ssi_record_write. by destruct (Transaction.ssi (txns s) !! t).
Qed.
Lemma quiet_visible td txn : quiet (read_visible_entries td txn).
Proof.
  unfold read_visible_entries. destruct txn as [t|]; [|apply quiet_panic]. case_match; [apply quiet_panic|].
  apply quiet_bind; [apply quiet_snapshot|]. intros sn'. apply quiet_bind; [apply quiet_panic|]. intros l. apply quiet_ret.
Qed.
Lemma quiet_visible_one td txn k : quiet (read_visible_one td txn k).
Proof.
  unfold read_visible_one. destruct txn as [t|]; [|apply quiet_panic]. apply quiet_bind; [apply quiet_snapshot|].
  intros sn'. case_match; [apply quiet_ret..|apply quiet_panic].
Qed.

Lemma quiet_targets table td filter txn : quiet (target_entries table td filter txn).
Proof.
  unfold target_entries. destruct (try_pk_lookup filter (schema td)).
  - apply quiet_bind; [apply quiet_read|]. intros _. apply quiet_bind; [apply quiet_visible_one|]. intros o. apply quiet_ret.
  - apply quiet_bind; [apply quiet_predicate|]. intros _. apply quiet_visible.
Qed.

Lemma keeps_reading {A} P (m : Tables J T → Q A) : (∀ t, quiet (m t)) → keeps P (reading m) (λ _ _, True).
Proof.
  intros Hm [w s] r st' Hk HP. unfold reading. destruct (m (tables w) s) as [[r' s']|] eqn:Hr; cbn; [|done]. intros [= <- <-].
  split; [|by split]. apply (intact_session _ w s); [|done]. exact (Hm _ _ _ _ Hr tid).
Qed.

Lemma keeps_evaluate {A} P (m : E A) : keeps P (evaluate m) (λ _ _, True).
Proof. apply keeps_reading. intros _. apply quiet_eval. Qed.

Lemma keeps_table_data P table : keeps P (table_data (J := J) (T := T) table) (λ td st, True).
Proof. apply keeps_reading. intros t s r s'. unfold get_table. case_match; by intros [= <- <-]. Qed.

(** ** Queries are quiet *)

Create HintDb quiet.
#[local] Hint Resolve quiet_ret quiet_panic quiet_eval quiet_snapshot quiet_read quiet_predicate quiet_visible quiet_visible_one : quiet.

Lemma quiet_fail {A} e : quiet (q_fail (A := A) e). Proof. by intros s r s' [= <- <-]. Qed.
Lemma quiet_lift {A} (m : X A) : quiet (lift m).
Proof. intros s r s'. unfold lift. destruct (m (pending s)) as [[a b]|]; cbn; [|done]. by intros [= <- <-]. Qed.
#[local] Hint Resolve quiet_fail quiet_lift : quiet.

Ltac quietly := repeat first
  [ progress auto with quiet nocore
  | apply quiet_bind; [|intros]
  | match goal with |- quiet (match ?x with _ => _ end) => destruct x end
  | match goal with |- quiet (if ?x then _ else _) => destruct x end ].

Lemma quiet_get_table (t : Tables J T) name : quiet (get_table t name).
Proof. unfold get_table. quietly. Qed.
Lemma quiet_read_rows (step : list Z * list Z → Q (option (list (Value J)))) limit rows entries :
  (∀ e, quiet (step e)) → quiet (read_rows step limit rows entries).
Proof. intros Hs. revert rows. induction entries as [|e entries IH]; intros rows; cbn [read_rows]; quietly. Qed.
Lemma quiet_new_rows (step : list Z * option (list (Value J)) → Q (option (list (Value J)))) rows entries :
  (∀ e, quiet (step e)) → quiet (new_rows step rows entries).
Proof. intros Hs. revert rows. induction entries as [|e entries IH]; intros rows; cbn [new_rows]; quietly. Qed.
Lemma quiet_accept table (td : TableData J T) filter txn e : quiet (accept_row table td filter txn e).
Proof. unfold accept_row, matches_filter. quietly. Qed.
#[local] Hint Resolve quiet_get_table quiet_read_rows quiet_new_rows quiet_accept : quiet.

Lemma quiet_scan_rows table (td : TableData J T) filter txn limit needed : quiet (scan_rows table td filter txn limit needed).
Proof.
  unfold scan_rows, range_rows. quietly.
  - apply quiet_read_rows. intros e. unfold range_row. quietly.
  - apply quiet_new_rows. intros e. unfold new_row. quietly.
  - apply quiet_read_rows. intros e. unfold txn_row. quietly.
Qed.
#[local] Hint Resolve quiet_scan_rows : quiet.

Lemma quiet_seq_scan (t : Tables J T) table filter txn limit needed : quiet (exec_seq_scan t table filter txn limit needed).
Proof. unfold exec_seq_scan, exec_information_schema_tables, exec_information_schema_columns, filter_info. quietly. Qed.
#[local] Hint Resolve quiet_seq_scan : quiet.

Lemma quiet_index_scan (t : Tables J T) table name column op value filter limit txn :
  quiet (exec_index_scan t table name column op value filter limit txn).
Proof. unfold exec_index_scan. quietly. apply quiet_read_rows. intros e. unfold index_row. quietly. Qed.
Lemma quiet_top_n (t : Tables J T) table filter txn order_by n : quiet (exec_scan_top_n t table filter txn order_by n).
Proof. unfold exec_scan_top_n. quietly. Qed.
#[local] Hint Resolve quiet_index_scan quiet_top_n : quiet.

Lemma quiet_plan (t : Tables J T) txn (other : PhysicalPlan → Q (ExecutionResult J)) plan :
  (∀ p, quiet (other p)) → quiet (execute_physical t txn other plan).
Proof.
  intros Ho. assert (quiet (execute_physical t txn other plan) ∧
    match plan with PSort input _ => quiet (execute_physical t txn other input) | _ => True end) as [Hp _]; [|done].
  induction plan; (split; [|try done; by apply IHplan]); cbn [execute_physical]; try (by apply Ho);
    repeat match goal with H : _ ∧ _ |- _ => destruct H end; try (by quietly).
  assert (quiet (r ← execute_physical t txn other plan; lift (apply_limit r count offset))) as Hlim by quietly.
  destruct plan; try done. destruct (offset =? 0); [|done]. cbn [execute_physical] in *.
  assert (quiet (r ← execute_physical t txn other plan; lift (apply_top_n r order_by count))) as Htop by quietly.
  destruct plan; try exact Htop. destruct order_by as [|o [|]]; try exact Htop.
  intros s r s' ([[res|e] s1] & Hs & Hr)%bind_Some u.
  - injection Hr as <- <-. exact (quiet_top_n _ _ _ _ _ _ _ _ _ Hs u).
  - rw (Htop _ _ _ Hr u). exact (quiet_top_n _ _ _ _ _ _ _ _ _ Hs u).
Qed.

(** A query over tables, without WITH and without a query in FROM: those make and
    remove tables. *)
Definition plain_select (q : SelectStmt) : Prop :=
  let '(mkSelect _ _ from _ _ _ _ _ _ _ _ ctes) := q in
  ctes = [] ∧ match from with FromSubquery _ => False | _ => True end.

Lemma quiet_no_from i columns : quiet (no_from_columns (J := J) i columns).
Proof. revert i. induction columns as [|[|e alias] columns IH]; intros i; cbn [no_from_columns]; quietly. Qed.

Lemma plain_select_run `{!Libm} stats txn (other : Tables J T → PhysicalPlan → Q (ExecutionResult J)) q : plain_select q →
  ∃ m : Tables J T → Q (ExecutionResult J), execute_select stats txn other true q = statement true (on_tables m) ∧
    ((∀ t p, quiet (other t p)) → ∀ t, quiet (m t)).
Proof.
  destruct q as [columns distinct from alias joins wh gb hv ob lim off ctes]. intros [-> Hfrom].
  set (q := mkSelect columns distinct from alias joins wh gb hv ob lim off []). destruct from as [table|sub|]; [|done|].
  - exists (plan_and_run stats txn other q). split; [done|]. intros Ho t. unfold plan_and_run.
    destruct (build_logical_plan _); [|apply quiet_fail]. apply quiet_bind; [apply quiet_panic|]. intros p. by apply quiet_plan.
  - exists (λ _, exec_select_no_from q). split; [done|]. intros _ _. cbn. apply quiet_bind; [apply quiet_no_from|].
    intros [names vs]. apply quiet_ret.
Qed.

(** Such a query changes no table, and no snapshot. *)
Lemma nested_select_run `{!Libm} stats txn (other : Tables J T → PhysicalPlan → Q (ExecutionResult J)) q (w : World J T) s r w' s' :
  plain_select q → nested_select stats other txn q (w, s) = Some (r, (w', s')) →
  w' = w ∧ ((∀ t p, quiet (other t p)) → ∀ u, Transaction.get_snapshot u (txns s') = Transaction.get_snapshot u (txns s)).
Proof.
  intros (m & Hq & Hm)%(plain_select_run stats txn other). unfold nested_select. rw Hq. unfold statement, on_tables.
  destruct (m (tables w) (mkSession (txns s) false)) as [[r1 s1]|] eqn:Hr; [|done]. cbn [mbind option_bind].
  assert (∀ b, (∀ t p, quiet (other t p)) → ∀ u, Transaction.get_snapshot u (txns (mkSession (txns s1) b)) = Transaction.get_snapshot u (txns s)) as Hsn.
  { intros b Ho. exact (Hm Ho _ _ _ _ Hr). }
  destruct w. destruct s1 as [tm b1]. destruct r1 as [res|e]; [destruct b1|]; cbn;
    intros [= <- <- <-]; (split; [done|]); exact (Hsn false).
Qed.

(** ** Changes of a table *)

Lemma intact_table X X' w s table td td' :
  intact X (w, s) → tables w !! table = Some td → (∀ t k, t ≠ table → X (t, k) → X' (t, k)) →
  (∀ m0, before !! table = Some m0 → table_kept td m0 (λ k, log (w, s) !! (table, k)) (λ k, X (table, k)) →
     table_kept td' m0 (λ k, log (w, s) !! (table, k)) (λ k, X' (table, k))) →
  intact X' (set_tables (<[table := td']> (tables w)) w, s).
Proof.
  intros [Hsn Hsame Ht] Htd HX Hstep. cbn [fst] in *. split; cbn [fst snd tables set_tables]; [done|..].
  - intros t. destruct (decide (t = table)) as [->|Hne]; [|rw lookup_insert_ne; [congruence|apply Hsame]].
    rw lookup_insert_eq -Hsame Htd. by split; eexists.
  - intros t td1 m0 Htd1 Hm0. unfold log. cbn [fst txn_undo set_tables]. destruct (decide (t = table)) as [->|Hne].
    + rw lookup_insert_eq in Htd1. injection Htd1 as <-. by apply Hstep, Ht.
    + rw lookup_insert_ne in Htd1; [congruence|]. destruct (Ht t td1 m0 Htd1 Hm0) as [Hi Hu Hr (vm & Hvm & Hseen)]. split; [done..|].
      exists vm. split; [done|]. intros k Hk Ho. apply Hseen; [done|]. intros Hx. by apply Ho, HX.
Qed.

(** The computations that read a table and write it back. *)
Definition table_step {A} (table : str) (step : TableData J T → option (qresult A * TableData J T)) : D A := λ '(w, s),
  match tables w !! table with
  | None => Some (QErr (Execution (chars "Table '" ++ table ++ chars "' not found")), (w, s))
  | Some td => '(r, td') ← step td; Some (r, (set_tables (<[table := td']> (tables w)) w, s))
  end.

Lemma keeps_table_step {A} P table (step : TableData J T → option (qresult A * TableData J T)) :
  (∀ st td td' r m0, P st → step td = Some (r, td') →
     table_kept td m0 (λ k, log st !! (table, k)) (λ _, False) → table_kept td' m0 (λ k, log st !! (table, k)) (λ _, False)) →
  keeps P (table_step table step) (λ _ _, True).
Proof.
  intros Hstep [w s] r st' Hk HP. unfold table_step. destruct (tables w !! table) as [td|] eqn:Htd.
  - destruct (step td) as [[r1 td']|] eqn:Hs; cbn; [|done]. intros [= <- <-]. split; [|by split].
    apply (intact_table closed _ w s table td td' Hk Htd); [done|]. intros m0 Hm0. exact (Hstep _ _ _ _ _ HP Hs).
  - intros [= <- <-]. split; [done|]. split; [apply grows_refl|done].
Qed.

Lemma table_data_run table (w : World J T) s :
  table_data table (w, s) = Some (match tables w !! table with
    | Some td => QOk td | None => QErr (Execution (chars "Table '" ++ table ++ chars "' not found")) end, (w, s)).
Proof. unfold table_data, reading, get_table. by destruct (tables w !! table). Qed.

Lemma write_row_step table key data st :
  write_row table key data st = table_step table (λ td, t ← kt_insert (index td) key data; Some (QOk (), with_index td t)) st.
Proof.
  destruct st as [w s]. unfold write_row, mbind at 1, Db_bind. rw table_data_run. cbn. destruct (tables w !! table) as [td|]; [|done].
  unfold panic, mbind at 1. cbn. by destruct (kt_insert (index td) key data).
Qed.

Lemma remove_row_step table key st :
  remove_row table key st = table_step table (λ td, t ← fst <$> kt_delete (index td) key; Some (QOk (), with_index td t)) st.
Proof.
  destruct st as [w s]. unfold remove_row, mbind at 1, Db_bind. rw table_data_run. cbn. destruct (tables w !! table) as [td|]; [|done].
  unfold panic, mbind at 1. cbn. by destruct (kt_delete (index td) key).
Qed.

Lemma store_step table f st :
  change_store table f st = table_step table (λ td, Some (QOk (), with_store td (f (version_store td)))) st.
Proof.
  destruct st as [w s]. unfold change_store, mbind at 1, Db_bind. rw table_data_run. cbn. by destruct (tables w !! table).
Qed.

Lemma try_store_step {A} table (f : VersionStore.VersionStore row → VersionStore.VersionStore row * Prelude.result A) st :
  try_store table f st = table_step table (λ td, Some (match (f (version_store td)).2 with Ok _ => QOk () | Err e => QErr (QCore e) end,
                                                       with_store td (f (version_store td)).1)) st.
Proof.
  destruct st as [w s]. unfold try_store, mbind at 1, Db_bind. rw table_data_run. cbn. destruct (tables w !! table) as [td|]; [|done].
  destruct (f (version_store td)) as [vs [a|e]]; done.
Qed.

Lemma indexes_step table step st :
  update_indexes (J := J) table step st = table_step table (λ td,
    '(secs, r) ← each_index step (secondary_indexes td); Some (r, with_secondary td secs)) st.
Proof.
  destruct st as [w s]. unfold update_indexes, mbind at 1, Db_bind. rw table_data_run. cbn. destruct (tables w !! table) as [td|]; [|done].
  unfold panic, mbind at 1. cbn. destruct (each_index step (secondary_indexes td)) as [[secs [[]|e]]|]; done.
Qed.

Lemma keeps_same_run {A} P (c c' : D A) R : (∀ st, c st = c' st) → keeps P c' R → keeps P c R.
Proof. intros He Hc st r st' Hk HP Hr. rw He in Hr. exact (Hc _ _ _ Hk HP Hr). Qed.

(** Rows are written only under keys that are logged. *)
Lemma table_write td m0 undo open k t' :
  is_Some (undo k) → (∀ m, kt_rep (index td) m → ∃ m', kt_rep t' m' ∧ ∀ k', k' ≠ k → m' !! k' = m !! k') →
  table_kept td m0 undo open → table_kept (with_index td t') m0 undo open.
Proof.
  intros [p Hk] Ht [Hi Hu (m & Hm & Hrows) Hs]. split; [done..| |done]. destruct (Ht m Hm) as (m' & Hm' & Heq).
  exists m'. split; [done|]. intros k' Hn. rw Heq; [congruence|]. by apply Hrows.
Qed.

Lemma keeps_delta P table d : keeps P (log_delta (J := J) (T := T) table d) (λ _ _, True).
Proof. by apply keeps_change. Qed.

Lemma keeps_put_row table key data : keeps (logged (table, key)) (put_row table key data) (λ _ _, True).
Proof.
  apply keeps_then; [apply logged_lasting|apply keeps_table_data|]. intros _.
  apply keeps_then; [apply logged_lasting|apply keeps_delta|]. intros _.
  eapply keeps_same_run; [apply write_row_step|]. apply keeps_table_step. intros st td td' r m0 HP Hs Hk.
  destruct (kt_insert (index td) key data) as [t'|] eqn:Ht; [|done]. cbn in Hs. simplify_eq.
  apply (table_write _ _ _ _ key); [exact HP| |done]. intros m Hm. destruct (kt_insert_rep _ _ key data Hm) as (t1 & Ht1 & Hr).
  assert (t1 = t') as -> by congruence. eexists. split; [exact Hr|]. intros k' Hne. apply lookup_insert_ne. congruence.
Qed.

Lemma keeps_delete_row table key : keeps (logged (table, key)) (delete_row table key) (λ _ _, True).
Proof.
  apply keeps_then; [apply logged_lasting|apply keeps_table_data|]. intros _.
  apply keeps_then; [apply logged_lasting|apply keeps_delta|]. intros _.
  eapply keeps_same_run; [apply remove_row_step|]. apply keeps_table_step. intros st td td' r m0 HP Hs Hk.
  destruct (kt_delete (index td) key) as [[t' b]|] eqn:Ht; [|done]. cbn in Hs. simplify_eq.
  apply (table_write _ _ _ _ key); [exact HP| |done]. intros m Hm. destruct (kt_delete_rep _ _ key Hm) as (t1 & Ht1 & Hr).
  assert (t1 = t') as -> by congruence. eexists. split; [exact Hr|]. intros k' Hne. apply lookup_delete_ne. congruence.
Qed.

Lemma keeps_search P table key : keeps P (search_row (J := J) (T := T) table key) (λ o, first_value (table, key) o).
Proof.
  intros [w s] r st' Hk HP. unfold search_row, mbind at 1, Db_bind. rw table_data_run. cbn.
  destruct (tables w !! table) as [td|] eqn:Htd; cbn.
  - destruct (before !! table) as [m0|] eqn:Hm0.
    2: { destruct (proj1 (kp_same _ _ Hk table)) as [m0 Hm0']; [by exists td|congruence]. }
    destruct (tk_rows _ _ _ _ (kp_tables _ _ Hk _ _ _ Htd Hm0)) as (m & Hm & Hrows). unfold panic. rw (kt_search_rep _ _ _ Hm). cbn.
    intros [= <- <-]. split; [done|]. split; [apply grows_refl|]. intros o [= <-] Hn m1 Hm1. cbn in Hm1. simplify_eq.
    by rw (Hrows key Hn).
  - intros [= <- <-]. split; [done|]. split; [apply grows_refl|done].
Qed.

(** ** The log *)

Definition add_entry (x : address) (prev : option (list Z)) (u : Undo) : Undo := if bool_decide (is_Some (u !! x)) then u else <[x := prev]> u.

Lemma add_entry_cases x prev u y :
  add_entry x prev u !! y = u !! y ∨ (y = x ∧ u !! x = None ∧ add_entry x prev u !! y = Some prev).
Proof.
  unfold add_entry. case_bool_decide as Hs; [by left|]. apply eq_None_not_Some in Hs. destruct (decide (y = x)) as [->|Hne].
  - right. by rw lookup_insert_eq.
  - left. apply lookup_insert_ne. congruence.
Qed.

Lemma add_entry_logged x prev u : is_Some (add_entry x prev u !! x).
Proof. unfold add_entry. case_bool_decide as Hs; [done|]. rw lookup_insert_eq. by eexists. Qed.

(** A key is logged with the value it had at first: from then on it may be written
    and its versions may differ. *)
Lemma intact_record X w s x prev :
  intact X (w, s) → (∀ y, X y → y = x) → first_value x prev (w, s) →
  ∃ w', record_undo (Some tid) x.1 x.2 prev (w, s) = Some (QOk (), (w', s)) ∧ intact closed (w', s) ∧ grows (w, s) (w', s) ∧ logged x (w', s).
Proof.
  intros [Hsn Hsame Ht] HX Hf. destruct x as [table key]. cbn [fst snd] in *.
  set (w' := set_undo (<[tid := add_entry (table, key) prev (log (w, s))]> (txn_undo w)) w). exists w'. split; [done|].
  assert (log (w', s) = add_entry (table, key) prev (log (w, s))) as Hlog. { unfold log, w'. cbn. by rw lookup_insert_eq. }
  split; [|split].
  - split; cbn [fst snd]; [done..|]. intros t td m0 Htd Hm0. rw Hlog. destruct (Ht t td m0 Htd Hm0) as [Hi Hu (m & Hm & Hrows) (vm & Hvm & Hseen)].
    assert (∀ k, add_entry (table, key) prev (log (w, s)) !! (t, k) = None → log (w, s) !! (t, k) = None ∧ (t, k) ≠ (table, key)) as Hnone.
    { intros k Hn. destruct (add_entry_cases (table, key) prev (log (w, s)) (t, k)) as [He|(He & _ & Hc)]; [|congruence].
      split; [congruence|]. intros [= -> ->]. destruct (add_entry_logged (table, key) prev (log (w, s))); congruence. }
    split; [done|..].
    + intros k p Hp. destruct (add_entry_cases (table, key) prev (log (w, s)) (t, k)) as [He|([= -> ->] & Hn & Hc)].
      * apply Hu. congruence.
      * rw (Hf Hn m0 Hm0). congruence.
    + exists m. split; [done|]. intros k [Hn _]%Hnone. by apply Hrows.
    + exists vm. split; [done|]. intros k [Hn Hne]%Hnone _. apply Hseen; [done|]. intros Hx%HX. congruence.
  - intros y Hy. unfold logged in *. rw Hlog. destruct (add_entry_cases (table, key) prev (log (w, s)) y) as [->|(_ & _ & ->)]; [done|by eexists].
  - unfold logged. rw Hlog. apply add_entry_logged.
Qed.

Lemma keeps_record table key prev :
  keeps (first_value (table, key) prev) (record_undo (Some tid) table key prev) (λ _, logged (table, key)).
Proof.
  intros [w s] r st' Hk Hf Hr. destruct (intact_record closed w s (table, key) prev Hk) as (w' & Hr' & Hk' & Hg & Hl); [done..|].
  cbn [fst snd] in Hr'. rw Hr' in Hr. by simplify_eq.
Qed.

(** ** Versions and indexes *)

Definition own_op (o : VersionStore.vop (T := row)) : Prop := match o with VersionStore.VGc _ _ | VersionStore.VRollback _ => False | _ => True end.

Lemma spec_elsewhere vm o k : own_op o → k ≠ VersionStore.op_key o → VersionStore.spec_step vm o !! k = vm !! k.
Proof. intros Ho Hk. destruct o; try done; cbn [VersionStore.spec_step VersionStore.op_key] in *; apply lookup_partial_alter_ne; congruence. Qed.

(** Versions are added only to keys that are logged, or exempt. *)
Lemma table_version td m0 undo (open open' : list Z → Prop) o :
  own_op o → is_Some (undo (VersionStore.op_key o)) ∨ open' (VersionStore.op_key o) → (∀ k, open k → open' k) →
  table_kept td m0 undo open → table_kept (with_store td (VersionStore.vstep (version_store td) o)) m0 undo open'.
Proof.
  intros Ho Hk Hopen [Hi Hu Hr (vm & Hvm & Hseen)]. split; [done..|]. exists (VersionStore.spec_step vm o).
  split; [exact (VersionStore.store_rel_step _ _ o Hvm)|]. intros k Hn Hx. unfold seen. rw spec_elsewhere; [done| |].
  - intros ->. destruct Hk as [[? ?]|?]; [congruence|done].
  - apply Hseen; [done|]. intros Hy. by apply Hx, Hopen.
Qed.

Lemma keeps_ensure_base table key t : keeps (logged (table, key)) (change_store table (VersionStore.ensure_base key t)) (λ _ _, True).
Proof.
  eapply keeps_same_run; [apply store_step|]. apply keeps_table_step. intros st td td' r m0 HP [= <- <-] Hk.
  apply (table_version td m0 _ (λ _, False) _ (VersionStore.VEnsureBase key t)); [done|by left|done|done].
Qed.

Lemma keeps_try_update table key t ts sts act :
  keeps (logged (table, key)) (try_store table (VersionStore.try_update key t tid ts sts act)) (λ _ _, True).
Proof.
  eapply keeps_same_run; [apply try_store_step|]. apply keeps_table_step. intros st td td' r m0 HP [= <- <-] Hk.
  apply (table_version td m0 _ (λ _, False) _ (VersionStore.VTryUpdate key t tid ts sts act)); [done|by left|done|done].
Qed.

Lemma keeps_try_delete table key ts sts act :
  keeps (logged (table, key)) (try_store table (VersionStore.try_delete key tid ts sts act)) (λ _ _, True).
Proof.
  eapply keeps_same_run; [apply try_store_step|]. apply keeps_table_step. intros st td td' r m0 HP [= <- <-] Hk.
  apply (table_version td m0 _ (λ _, False) _ (VersionStore.VTryDelete key tid ts sts act)); [done|by left|done|done].
Qed.

(** A step on plain indexes leaves them plain, and does not fail. *)
Definition plain_step (step : SecondaryIndex.SecondaryIndex T → option (SecondaryIndex.SecondaryIndex T * Prelude.result ())) : Prop :=
  ∀ sec sec' r, plain_index sec → step sec = Some (sec', r) → plain_index sec' ∧ r = Ok ().

Lemma index_insert_plain sec (vals : row) pk :
  plain_index sec → ∃ sec', SecondaryIndex.insert sec vals pk = Some (sec', Ok ()) ∧ plain_index sec'.
Proof.
  intros [Hu [m Hm]]. unfold SecondaryIndex.insert. rw Hu. cbn [mbind option_bind].
  destruct (kt_insert_rep _ _ (SecondaryIndex.composite vals pk) pk Hm) as (t & -> & Ht). eexists. split; [done|]. split; [done|eexists; exact Ht].
Qed.

Lemma index_remove_plain sec (vals : row) pk :
  plain_index sec → ∃ sec', SecondaryIndex.remove sec vals pk = Some (sec', Ok ()) ∧ plain_index sec'.
Proof.
  intros [Hu [m Hm]]. unfold SecondaryIndex.remove.
  destruct (kt_delete_rep _ _ (SecondaryIndex.composite vals pk) Hm) as (t & -> & Ht). cbn. eexists. split; [done|]. split; [done|eexists; exact Ht].
Qed.

Lemma insert_plain (values : row) pk : plain_step (insert_step values pk).
Proof.
  intros sec sec' r Hp. unfold insert_step. destruct (key_values sec values) as [vals|]; [|by intros [= <- <-]].
  destruct (index_insert_plain sec vals pk Hp) as (sec1 & -> & Hp1). by intros [= <- <-].
Qed.

Lemma delete_plain (values : row) pk : plain_step (delete_step values pk).
Proof.
  intros sec sec' r Hp. unfold delete_step. destruct (key_values sec values) as [vals|]; [|by intros [= <- <-]].
  destruct (index_remove_plain sec vals pk Hp) as (sec1 & -> & Hp1). by intros [= <- <-].
Qed.

Lemma update_plain (old new : row) pk : plain_step (update_step old new pk).
Proof.
  intros sec sec' r Hp. unfold update_step. destruct (key_values sec old) as [o|], (key_values sec new) as [n|]; try by intros [= <- <-].
  destruct (values_eq o n) as [[]|]; cbn; [by intros [= <- <-]| |done].
  destruct (index_remove_plain sec o pk Hp) as (sec1 & -> & Hp1). cbn. destruct (index_insert_plain sec1 n pk Hp1) as (sec2 & -> & Hp2).
  by intros [= <- <-].
Qed.

Lemma each_plain step secs secs' r :
  plain_step step → Forall plain_index secs → each_index step secs = Some (secs', r) → Forall plain_index secs' ∧ r = QOk ().
Proof.
  intros Hstep Hs. revert secs' r. induction Hs as [|sec secs Hsec Hs IH]; intros secs' r; cbn; [by intros [= <- <-]|].
  destruct (step sec) as [[sec1 r1]|] eqn:H1s; cbn; [|done]. destruct (Hstep _ _ _ Hsec H1s) as [Hp ->].
  destruct (each_index step secs) as [[secs1 r2]|]; cbn; [|done]. destruct (IH _ _ eq_refl) as [Hps ->]. intros [= <- <-].
  split; [by constructor|done].
Qed.

Lemma keeps_indexes P table step : plain_step step → keeps P (update_indexes (J := J) table step) (λ _ _, True).
Proof.
  intros Hstep. eapply keeps_same_run; [apply indexes_step|]. apply keeps_table_step. intros st td td' r m0 HP Hs [Hi Hu Hr Hv].
  destruct (each_index step (secondary_indexes td)) as [[secs r1]|] eqn:He; [|done]. cbn in Hs. simplify_eq.
  split; [|done..]. by destruct (each_plain _ _ _ _ Hstep Hi He).
Qed.

(** ** Statements *)

Local Abbreviation always := (λ _ : state, True).
Local Abbreviation nothing := (λ _ _, True).

Lemma always_lasting : lasting always. Proof. done. Qed.
Create HintDb lasting.
Create HintDb keeps.
#[local] Hint Resolve always_lasting logged_lasting first_lasting : lasting.

Lemma panic_nothing {A} P (o : option A) : keeps P (panic o) nothing. Proof. by apply keeps_panic. Qed.
Lemma ret_nothing {A} P (a : A) : keeps P (mret a) nothing. Proof. by apply keeps_ret. Qed.
#[local] Hint Resolve panic_nothing ret_nothing keeps_fail keeps_world keeps_evaluate keeps_table_data : keeps.

(** One step of a computation, the assertion carried along. *)
Ltac step := apply keeps_then; [solve [eauto with lasting]|try solve [eauto with keeps lasting]|intros ?].
Ltac steps := repeat step; eauto with keeps lasting.

Lemma keeps_check_unique P violation table self (values : row) i cols :
  lasting P → keeps P (check_unique (T := T) violation table self values i cols) nothing.
Proof.
  intros HP. revert i. induction cols as [|col cols IH]; intros i; cbn; [apply ret_nothing|]. destruct (values !! i) as [v|]; [|apply IH].
  case_match; [|apply IH]. steps. case_match; [apply keeps_fail|apply IH].
Qed.

Lemma keeps_check_checks P violation schema (values : row) checks :
  lasting P → keeps P (check_checks (T := T) violation schema values checks) nothing.
Proof.
  intros HP. induction checks as [|chk checks IH]; cbn; [apply ret_nothing|]. steps. case_match; [apply IH|apply keeps_fail].
Qed.

Lemma keeps_check_not_null P (values : row) i cols : keeps P (check_not_null (T := T) values i cols) nothing.
Proof. revert i. induction cols as [|col cols IH]; intros i; cbn; [apply ret_nothing|]. case_match; [apply keeps_fail|apply IH]. Qed.

Lemma keeps_check_fks P unknown missing schema (values : row) fks :
  lasting P → keeps P (check_foreign_keys (T := T) unknown missing schema values fks) nothing.
Proof.
  intros HP. induction fks as [|fk fks IH]; cbn; [apply ret_nothing|]. case_match; [|apply IH]. step. case_match; [|apply keeps_fail].
  steps. case_match; [apply IH|apply keeps_fail].
Qed.

Lemma keeps_finish P returning td (l : list row) : lasting P → keeps P (finish returning td l) nothing.
Proof.
  intros HP. unfold finish, build_returning_result. destruct returning as [[|[|] ?]|]; steps.
Qed.

#[local] Hint Resolve keeps_check_unique keeps_check_checks keeps_check_not_null keeps_check_fks keeps_finish : keeps.

Lemma keeps_complete_row P table cols (values : row) : lasting P → keeps P (complete_row (T := T) table cols values) nothing.
Proof.
  intros HP. revert values. induction cols as [|col cols IH]; intros values; cbn; [apply ret_nothing|]. step.
  { unfold fill_default. step. case_match.
    - case_match; [|steps]. case_match; [|steps]. step; [|steps]. by apply keeps_change.
    - case_match; [|steps]. case_match; try by steps. case_match; [|steps]. step. step; [|steps]. by apply keeps_change. }
  step. case_match; [apply keeps_fail|]. steps.
Qed.

Lemma keeps_row_key P table pk_cols (values : row) : lasting P → keeps P (row_key (T := T) table pk_cols values) nothing.
Proof.
  intros HP. unfold row_key, next_rowid. destruct pk_cols; [|apply ret_nothing]. step. step.
  { case_match; steps. }
  step. step; [by apply keeps_change|]. steps.
Qed.

Lemma keeps_check_insert P table td (values : row) : lasting P → keeps P (check_insert table td values) nothing.
Proof. intros HP. unfold check_insert. steps. Qed.

Lemma keeps_check_update P table td key (values : row) : lasting P → keeps P (check_update table td key values) nothing.
Proof. intros HP. unfold check_update. steps. Qed.

Lemma keeps_update_indexes P table (old new : row) pk : keeps P (update_secondary_indexes_update (T := T) table old new pk) nothing.
Proof. apply keeps_indexes, update_plain. Qed.
Lemma keeps_delete_indexes P table (values : row) pk : keeps P (update_secondary_indexes_delete (T := T) table values pk) nothing.
Proof. apply keeps_indexes, delete_plain. Qed.
#[local] Hint Resolve keeps_row_key keeps_complete_row keeps_check_insert keeps_check_update keeps_update_indexes keeps_delete_indexes : keeps.

Lemma keeps_ssi_write P table key : keeps P (ssi_write (J := J) (T := T) (Some tid) table key) nothing.
Proof. apply keeps_reading. intros _. apply quiet_write. Qed.
Lemma keeps_get_snapshot P : keeps P (reading (J := J) (T := T) (λ _, get_snapshot tid)) nothing.
Proof. apply keeps_reading. intros _. apply quiet_snapshot. Qed.
Lemma keeps_ssi_read P table key : keeps P (reading (J := J) (T := T) (λ _, ssi_read (Some tid) table key)) nothing.
Proof. apply keeps_reading. intros _. apply quiet_read. Qed.
Lemma keeps_wal P r : keeps P (wal_append (J := J) (T := T) r) nothing.
Proof. by apply keeps_change. Qed.
Lemma keeps_matches P schema filter (tuple : row) : keeps P (reading (T := T) (λ _, matches_filter schema filter tuple)) nothing.
Proof. apply keeps_reading. intros _. apply quiet_eval. Qed.
#[local] Hint Resolve keeps_ssi_write keeps_get_snapshot keeps_ssi_read keeps_wal keeps_matches keeps_ensure_base keeps_try_update keeps_try_delete keeps_put_row keeps_delete_row : keeps.

Lemma keeps_update_version table td count key data (old new : row) :
  keeps (logged (table, key)) (update_version table td (Some tid) count key data old new) nothing.
Proof. unfold update_version. steps. Qed.

Lemma keeps_delete_version table td count key data (tuple : row) :
  keeps (logged (table, key)) (delete_version table td (Some tid) count key data tuple) nothing.
Proof. unfold delete_version. steps. Qed.
#[local] Hint Resolve keeps_update_version keeps_delete_version : keeps.

Lemma keeps_update_one table td assignments count key data (old : row) :
  keeps (first_value (table, key) (Some data)) (update_one table td assignments (Some tid) count key data old) (λ _, logged (table, key)).
Proof.
  unfold update_one. step. apply (keeps_bind _ _ _ (λ _, logged (table, key))); [apply keeps_record|]. intros _. steps.
  by apply keeps_ret.
Qed.

Lemma keeps_update_existing table td key data assignments :
  keeps (first_value (table, key) (Some data)) (update_existing table td (Some tid) key data assignments) nothing.
Proof.
  unfold update_existing. do 3 step. apply (keeps_bind _ _ _ (λ _, logged (table, key))); [apply keeps_record|]. intros _. steps.
Qed.

(** A row that is inserted has a version before it is logged: for that time its key
    is exempt. *)
Definition just (x : address) : address → Prop := λ y, y = x.

Lemma insert_version_open table td count key (values : row) st r st' :
  intact closed st → insert_version table td (Some tid) count key values st = Some (r, st') →
  log st' = log st ∧ match r with
    | QOk _ => intact (just (table, key)) st' ∧ is_Some (tables st'.1 !! table)
    | QErr _ => intact closed st'
    end.
Proof.
  intros Hk. unfold insert_version. unfold mbind at 1, Db_bind. cbn [wal_append change fst snd mbind option_bind].
  destruct st as [w s]. cbn [fst snd]. set (w1 := mkWorld _ _ _ _ _ _).
  assert (intact closed (w1, s)) as Hk1 by by apply (intact_world _ w).
  unfold mbind at 1, Db_bind. unfold reading at 1, get_snapshot. rw (kp_snapshot _ _ Hk : Transaction.get_snapshot tid (txns s) = Ok sn).
  cbn [mbind option_bind]. unfold mbind at 1, Db_bind. rw store_step. unfold table_step.
  change (tables w1) with (tables w). destruct (tables w !! table) as [td1|] eqn:Htd; cbn [mbind option_bind].
  2: { intros [= <- <-]. done. }
  set (w2 := set_tables _ w1). intros Hr. assert (intact (just (table, key)) (w2, s)) as Hk2.
  { apply (intact_table closed _ w1 s table td1 _ Hk1 Htd); [done|]. intros m0 Hm0 Ht.
    by apply (table_version td1 m0 _ (λ _, False) _ (VersionStore.VInsert key values tid (Transaction.sn_start_ts sn))); [done|right| |]. }
  cbn in Hr. injection Hr as <- <-. split; [done|]. split.
  - apply (intact_session _ w2 s); [|done]. apply (quiet_write tid (key_of table) key s (QOk ())). done.
  - cbn. rw lookup_insert_eq. by eexists.
Qed.

Lemma indexes_open X table step st r st' :
  intact X st → plain_step step → update_indexes (J := J) table step st = Some (r, st') →
  log st' = log st ∧ intact X st' ∧ (is_Some (tables st.1 !! table) → r = QOk ()).
Proof.
  intros Hk Hstep. rw indexes_step. destruct st as [w s]. unfold table_step. cbn [fst].
  destruct (tables w !! table) as [td|] eqn:Htd; [|intros [= <- <-]; split; [done|]; split; [done|]; by intros [? ?]].
  destruct (each_index step (secondary_indexes td)) as [[secs r1]|] eqn:He; cbn [mbind option_bind]; [|done]. intros [= <- <-].
  destruct (before !! table) as [m0|] eqn:Hm0.
  2: { destruct (proj1 (kp_same _ _ Hk table)) as [m0 Hm0']; [by exists td|congruence]. }
  destruct (each_plain _ _ _ _ Hstep (tk_indexes _ _ _ _ (kp_tables _ _ Hk _ _ _ Htd Hm0)) He) as [Hp ->]. split; [done|]. split; [|done].
  apply (intact_table X _ w s table td _ Hk Htd); [done|]. intros m1 Hm1 [Hi Hu Hr Hv]. by split.
Qed.

Lemma keeps_insert_new table td count key existing (values : row) :
  keeps (first_value (table, key) existing) (insert_new table td (Some tid) count key existing values) nothing.
Proof.
  intros st r st' Hk Hf. unfold insert_new. intros [(a & st1 & Hr1 & Hr2)|(e & Hr1 & ->)]%bind_inv.
  2: { destruct (insert_version_open _ _ _ _ _ _ _ _ Hk Hr1) as [Hl Hk1]. split; [done|]. split; [|done]. intros x. unfold logged. by rw Hl. }
  destruct (insert_version_open _ _ _ _ _ _ _ _ Hk Hr1) as (Hl1 & Hk1 & Htd).
  assert (∀ A (f : () → D A) r', mbind f (update_secondary_indexes_insert table values key) st1 = Some (r', st') →
    ∃ st2, f () st2 = Some (r', st') ∧ intact (just (table, key)) st2 ∧ log st2 = log st1) as Hix.
  { intros A f r' [([] & st2 & Hi & Hf2)|(e & Hi & ->)]%bind_inv; destruct (indexes_open _ _ _ _ _ _ Hk1 (insert_plain values key) Hi) as (Hl & Hk2 & He).
    - by exists st2.
    - by specialize (He Htd). }
  apply Hix in Hr2 as (st2 & Hr2 & Hk2 & Hl2). clear Hix. rw Hl1 in Hl2. destruct st2 as [w2 s2].
  assert (first_value (table, key) existing (w2, s2)) as Hf2. { unfold first_value in *. by rw Hl2. }
  destruct (intact_record _ w2 s2 (table, key) existing Hk2) as (w3 & Hr3 & Hk3 & Hg3 & Hl3); [done..|].
  unfold mbind at 1, Db_bind in Hr2. cbn [fst snd] in Hr3. rw Hr3 in Hr2. cbn [mbind option_bind] in Hr2.
  assert (keeps (logged (table, key)) (mbind (λ _, mret values) (put_row table key (Tuple.serialize values))) nothing) as Hput by steps.
  destruct (Hput _ _ _ Hk3 Hl3 Hr2) as (Hk' & Hg' & _). split; [done|]. split; [|done].
  intros x Hx. apply Hg', Hg3. unfold logged in *. by rw Hl2.
Qed.

Lemma keeps_insert_row P table td oc count (values : row) : lasting P → keeps P (insert_row table td oc (Some tid) count values) nothing.
Proof.
  intros HP. unfold insert_row. do 3 step. apply (keeps_bind _ _ _ (λ o, first_value (table, a1) o)); [apply keeps_search|].
  intros o. assert (∀ values', keeps (first_value (table, a1) o) (r ← insert_new table td (Some tid) count a1 o values'; mret (Some r)) nothing) as Hnew.
  { intros values'. step; [apply keeps_insert_new|]. steps. }
  destruct o as [data|]; [|apply Hnew]. destruct oc as [[cols [|assignments]]|]; [steps| |].
  - step; [apply keeps_update_existing|]. steps.
  - case_match; [apply Hnew|apply keeps_fail].
Qed.

Lemma keeps_insert_rows P table td oc (l done : list row) : lasting P → keeps P (insert_rows table td oc (Some tid) done l) nothing.
Proof.
  intros HP. revert done. induction l as [|r l IH]; intros done; cbn; [apply ret_nothing|]. step; [by apply keeps_insert_row|]. apply IH.
Qed.

(** ** The rows a statement looks at *)

Lemma seen_first (m0 : gmap (list Z) (list Z)) (undo : list Z → option (option (list Z))) k c vm :
  (∀ k, undo k = None → ¬ False → from_option (λ o, o = m0 !! k) True (seen vm k)) → undo k = None → vm !! k = Some c →
  Tuple.serialize <$> VersionStore.newest_visible tid (Transaction.sn_start_ts sn) (Transaction.sn_active_txns sn) c = m0 !! k.
Proof. intros Hseen Hn Hc. specialize (Hseen k Hn (λ f, f)). unfold seen in Hseen. by rw Hc in Hseen. Qed.

Lemma visible_first td m0 undo s s' entries :
  table_kept td m0 undo (λ _, False) → Transaction.get_snapshot tid (txns s) = Ok sn →
  read_visible_entries td (Some tid) s = Some (QOk entries, s') → ∀ k d, (k, d) ∈ entries → undo k = None → m0 !! k = Some d.
Proof.
  intros [_ _ (m & Hm & Hrows) (vm & Hvm & Hseen)] Hsn Hr k d Hin Hn. unfold read_visible_entries, q_panic in Hr.
  rw (kt_scan_all_rep _ _ Hm) in Hr. destruct (VersionStore.key_count (version_store td) =? 0).
  - cbn in Hr. simplify_eq. apply elem_of_sorted_pairs in Hin. by rw -(Hrows k Hn).
  - unfold mbind at 1, Q_bind in Hr. rw (snapshot_of tid sn s Hsn) in Hr. cbn [mbind option_bind Q_bind mret Q_ret] in Hr. injection Hr as <- <-. unfold resolve in Hin.
    rw (VersionStore.snapshot_resolved_spec _ _ _ _ _ Hvm) in Hin. apply elem_of_app in Hin as [Hin|Hin].
    + apply list_elem_of_filter in Hin as [_ Hin%elem_of_sorted_pairs]. by rw -(Hrows k Hn).
    + apply list_elem_of_omap in Hin as ([k' o] & Hin%elem_of_hash_iter & Ho). destruct o as [t|]; [|done]. cbn in Ho. simplify_eq.
      rw lookup_fmap in Hin. destruct (vm !! k) as [c|] eqn:Hc; [|done]. cbn in Hin. injection Hin as Hc'.
      by rw -(seen_first m0 undo k c vm Hseen Hn Hc) Hc'.
Qed.

Lemma visible_one_first td m0 undo s s' k o :
  table_kept td m0 undo (λ _, False) → Transaction.get_snapshot tid (txns s) = Ok sn →
  read_visible_one td (Some tid) k s = Some (QOk o, s') → undo k = None → m0 !! k = o.
Proof.
  intros [_ _ (m & Hm & Hrows) (vm & Hvm & Hseen)] Hsn Hr Hn. unfold read_visible_one, mbind, Q_bind in Hr.
  rw (snapshot_of tid sn s Hsn) in Hr. cbn [mbind option_bind] in Hr. rw (lookup_no_versions td vm _ _ _ _ Hvm) in Hr.
  destruct (vm !! k) as [c|] eqn:Hc.
  - rw -(seen_first m0 undo k c vm Hseen Hn Hc). destruct (VersionStore.newest_visible _ _ _ c) in Hr |- *; by injection Hr as <- <-.
  - unfold q_panic in Hr. rw (kt_search_rep _ _ _ Hm) in Hr. cbn in Hr. simplify_eq. by rw (Hrows k Hn).
Qed.

Lemma targets_first table td filter m0 undo s s' entries :
  table_kept td m0 undo (λ _, False) → Transaction.get_snapshot tid (txns s) = Ok sn →
  target_entries table td filter (Some tid) s = Some (QOk entries, s') → ∀ k d, (k, d) ∈ entries → undo k = None → m0 !! k = Some d.
Proof.
  intros Hk Hsn. unfold target_entries. destruct (try_pk_lookup filter (schema td)) as [key|]; unfold mbind at 1, Q_bind.
  - destruct (ssi_read (Some tid) table key s) as [[[[]|e] s1]|] eqn:Hs1; cbn [mbind option_bind]; [|done..].
    pose proof (quiet_read (Some tid) table key _ _ _ Hs1 tid) as Hq. rw Hsn in Hq. unfold mbind at 1, Q_bind.
    destruct (read_visible_one td (Some tid) key s1) as [[[o|e] s2]|] eqn:Hv; cbn [mbind option_bind]; [|done..]. intros [= <- <-] k d Hin Hn.
    destruct o as [data|]; [|by apply not_elem_of_nil in Hin]. apply list_elem_of_singleton in Hin. simplify_eq.
    exact (visible_one_first td m0 undo s1 s2 key (Some data) Hk Hq Hv Hn).
  - destruct (ssi_predicate (Some tid) table s) as [[[[]|e] s1]|] eqn:Hs1; cbn [mbind option_bind]; [|done..].
    pose proof (quiet_predicate (Some tid) table _ _ _ Hs1 tid) as Hq. rw Hsn in Hq. by apply visible_first.
Qed.

Lemma keeps_found P table : keeps P (table_data table) (λ td st, tables st.1 !! table = Some td).
Proof.
  intros [w s] r st' Hk HP. rw table_data_run. destruct (tables w !! table) as [td|] eqn:Htd; intros [= <- <-];
    (split; [done|]; split; [apply grows_refl|]; [intros ? [= <-]|..]; done).
Qed.

Lemma keeps_targets table td filter :
  keeps (λ st, tables st.1 !! table = Some td) (reading (λ _, target_entries table td filter (Some tid)))
    (λ entries st, Forall (λ kv : list Z * list Z, first_value (table, kv.1) (Some kv.2) st) entries).
Proof.
  intros [w s] r st' Hk Htd Hr. pose proof (keeps_reading (λ _, True) _ (λ _, quiet_targets table td filter (Some tid)) _ _ _ Hk I Hr) as (Hk' & Hg & _).
  split; [done|]. split; [done|]. intros entries ->. unfold reading in Hr. cbn [fst] in Htd.
  destruct (target_entries table td filter (Some tid) s) as [[r' s']|] eqn:Ht; cbn in Hr; [|done]. simplify_eq.
  apply Forall_forall. intros [k d] Hin Hn m0 Hm0. cbn [fst snd] in *.
  exact (targets_first table td filter m0 _ s s' entries (kp_tables _ _ Hk _ _ _ Htd Hm0) (kp_snapshot _ _ Hk) Ht k d Hin Hn).
Qed.

(** ** UPDATE and DELETE *)

Lemma keeps_each_match table schema filter (step : Z → list Z → list Z → row → D row) (entries : list (list Z * list Z)) l :
  (∀ n k d t, keeps (first_value (table, k) (Some d)) (step n k d t) (λ _, logged (table, k))) →
  keeps (λ st, Forall (λ kv, first_value (table, kv.1) (Some kv.2) st) entries ∧ Forall (λ kr, logged (table, kr.1) st) l)
    (each_match schema filter step l entries) (λ l st, Forall (λ kr, logged (table, kr.1) st) l).
Proof.
  intros Hstep. revert l. induction entries as [|[k d] entries IH]; intros l; cbn.
  - apply keeps_ret. by intros st [_ Hl].
  - assert (∀ l', lasting (λ st, Forall (λ kv, first_value (table, kv.1) (Some kv.2) st) ((k, d) :: entries) ∧ Forall (λ kr : list Z * row, logged (table, kr.1) st) l')) as Hlast.
    { intros l' st st' Hg [He Hl]. split; (eapply Forall_impl; [eassumption|]); intros ? ?; [by apply (first_lasting _ _ st)|by apply Hg]. }
    destruct (Scan.decode_row d) as [t|]; [|apply (keeps_weaken _ _ _ _ _ (IH l)); [|done]; intros st [[_ He]%Forall_cons Hl]; done].
    apply keeps_then; [apply Hlast|apply keeps_matches|]. intros m.
    case_match; [|apply (keeps_weaken _ _ _ _ _ (IH l)); [|done]; intros st [[_ He]%Forall_cons Hl]; done].
    apply (keeps_bind _ _ _ (λ r st, Forall (λ kv, first_value (table, kv.1) (Some kv.2) st) entries ∧ Forall (λ kr, logged (table, kr.1) st) (l ++ [(k, r)]))).
    2: { intros r. apply IH. }
    intros st r st' Hk [Hf Hl] Hr. pose proof Hf as [Hf1 Hf2]%Forall_cons. destruct (Hstep (zlen l) k d t _ _ _ Hk Hf1 Hr) as (Hk' & Hg & Hlog).
    split; [done|]. split; [done|]. intros a ->. destruct (Hlast l st st' Hg (conj Hf Hl)) as [[_ Hf']%Forall_cons Hl'].
    split; [done|]. apply Forall_app. split; [done|]. apply Forall_singleton. by apply (Hlog a).
Qed.

Lemma keeps_for_all {A} P (f : A → D ()) (l : list A) :
  lasting P → Forall (λ a, keeps P (f a) nothing) l → keeps P (for_all f l) nothing.
Proof. intros HP Hf. induction Hf as [|a l Ha Hl IH]; cbn; [apply ret_nothing|]. by step. Qed.

Lemma keeps_exec_update P upd : keeps P (exec_update upd (Some tid)) nothing.
Proof.
  unfold exec_update. eapply keeps_bind; [apply keeps_found|]. intros td. eapply keeps_bind; [apply keeps_targets|]. intros entries. cbn beta.
  eapply keeps_bind.
  - eapply keeps_weaken; [apply (keeps_each_match (upd_table upd) _ _ _ entries [])|intros st Hf; by split|intros a st Hl; exact Hl]. intros n k d t. apply keeps_update_one.
  - intros l. apply keeps_any, keeps_finish, always_lasting.
Qed.

Lemma keeps_referring P fkr vals entries : keeps P (referring (T := T) fkr vals entries) nothing.
Proof.
  apply keeps_any. induction entries as [|[ck d] entries IH]; cbn; [apply ret_nothing|]. step. case_match; [|apply IH].
  case_match; [apply keeps_fail|steps..].
Qed.

Lemma keeps_cascade_targets P tuple refs : keeps P (cascade_targets (T := T) tuple refs) nothing.
Proof.
  apply keeps_any. induction refs as [|fkr refs IH]; cbn; [apply ret_nothing|]. step. case_match; [|apply IH]. case_match; [|apply IH].
  step. step; [apply keeps_referring|]. steps.
Qed.

Lemma keeps_cascade_one P target : keeps P (cascade_one (Some tid) target) nothing.
Proof.
  destruct target as [fkr ck]. unfold cascade_one. eapply keeps_bind; [apply keeps_search|]. intros prev. cbn beta.
  assert (∀ p, keeps (first_value (child_name fkr, ck) p) (_ ← record_undo (Some tid) (child_name fkr) ck p; delete_row (child_name fkr) ck) nothing) as Hdel.
  { intros p. eapply keeps_bind; [apply keeps_record|]. intros []. apply keeps_delete_row. }
  destruct (fr_on_delete fkr); [steps| |].
  - step; [|apply Hdel]. case_match; [apply keeps_delete_indexes|apply ret_nothing].
  - destruct prev as [d|]; [|steps]. destruct (Some d ≫= Scan.decode_row) as [old|]; [|steps]. step.
    eapply keeps_bind; [apply keeps_record|]. intros []. apply keeps_put_row.
Qed.

Lemma keeps_delete_one table td refs count key data (tuple : row) :
  keeps (first_value (table, key) (Some data)) (delete_one table td refs (Some tid) count key data tuple) (λ _, logged (table, key)).
Proof.
  unfold delete_one. step. eapply keeps_bind; [apply keeps_record|]. intros []. cbn beta. step; [apply keeps_cascade_targets|].
  step. { apply keeps_for_all; [apply logged_lasting|]. apply Forall_forall. intros target _. apply keeps_cascade_one. }
  steps. by apply keeps_ret.
Qed.

Lemma keeps_exec_delete P del : keeps P (exec_delete del (Some tid)) nothing.
Proof.
  unfold exec_delete. eapply keeps_bind; [apply keeps_found|]. intros td. eapply keeps_bind; [apply keeps_targets|]. intros entries. cbn beta.
  set (first := λ st, Forall (λ kv : list Z * list Z, first_value (del_table del, kv.1) (Some kv.2) st) entries).
  assert (lasting first) as Hfirst. { intros st st' Hg. unfold first. intros Hf. eapply Forall_impl; [exact Hf|]. intros ? ?. by apply (first_lasting _ _ st). }
  apply keeps_then; [exact Hfirst|apply keeps_world|]. intros w. eapply keeps_bind.
  - eapply keeps_weaken; [apply (keeps_each_match (del_table del) _ _ _ entries [])|intros st Hf; by split|intros a st Hl; exact Hl]. intros n k d t. apply keeps_delete_one.
  - intros l. cbn beta. apply keeps_then.
    + intros st st' Hg Hl. eapply Forall_impl; [exact Hl|]. intros ? ?. by apply Hg.
    + intros st r st' Hk Hl. apply (keeps_for_all (λ st, Forall (λ kr : list Z * row, logged (del_table del, kr.1) st) l)); try done.
      * intros st1 st2 Hg Hl1. eapply Forall_impl; [exact Hl1|]. intros ? ?. by apply Hg.
      * apply Forall_fmap, Forall_forall. intros [k t] Hin. cbn. eapply keeps_weaken; [apply keeps_delete_row| |done].
        intros st1 Hl1. rw Forall_forall in Hl1. exact (Hl1 (k, t) Hin).
    + intros _. apply keeps_any, keeps_finish, always_lasting.
Qed.

(** ** ROLLBACK *)

(** Decimals of at most 38 digits after the point can be compared. *)
Definition small_scale (v : Value J) : Prop := match v with Decimal _ s => 0 ≤ s ≤ 38 | _ => True end.
Definition comparable_row (data : list Z) : Prop := ∀ vs, Tuple.deserialize_to_vec data = Some vs → Forall small_scale vs.

Lemma pow10_small s : 0 ≤ s ≤ 38 → ∃ p, pow10 s = Some p.
Proof.
  intros Hs. unfold pow10. rw bool_decide_eq_true_2; [|by eexists]. unfold i128_ok. pose proof (Z.pow_nonneg 10 s).
  pose proof (Z.pow_le_mono_r 10 s 38). lia.
Qed.

Lemma value_eq_small a b : small_scale a → small_scale b → ∃ r, value_eq a b = Some r.
Proof.
  intros Ha Hb. assert (∃ o, compare a b = Some o) as [o Ho]; [|unfold value_eq; rw Ho; by eexists].
  destruct a, b; cbn in Ha, Hb |- *; try by eexists.
  - destruct (pow10_small scale) as [p ->]; [done|]. by eexists.
  - destruct (pow10_small scale) as [p ->]; [done|]. by eexists.
  - unfold decimal_align. case_match; [by eexists|]. case_match.
    + destruct (pow10_small (scale0 - scale)) as [p ->]; [lia|]. by eexists.
    + destruct (pow10_small (scale - scale0)) as [p ->]; [lia|]. by eexists.
Qed.

Lemma values_eq_small (l l' : row) : Forall small_scale l → Forall small_scale l' → ∃ b, values_eq l l' = Some b.
Proof.
  intros Hl. revert l'. induction Hl as [|v l Hv Hl IH]; intros l' Hl'; destruct Hl' as [|v' l' Hv' Hl']; cbn; try by eexists.
  destruct (value_eq_small v v' Hv Hv') as [[] ->]; cbn; [by apply IH|by eexists].
Qed.

(** Steps on indexes that neither fail nor panic. *)
Definition total_step (step : SecondaryIndex.SecondaryIndex T → option (SecondaryIndex.SecondaryIndex T * Prelude.result ())) : Prop :=
  ∀ sec, plain_index sec → ∃ sec', step sec = Some (sec', Ok ()) ∧ plain_index sec'.

Lemma insert_total (values : row) pk : total_step (insert_step values pk).
Proof. intros sec Hp. unfold insert_step. destruct (key_values sec values) as [vals|]; [by apply index_insert_plain|by exists sec]. Qed.

Lemma delete_total (values : row) pk : total_step (delete_step values pk).
Proof.
  intros sec Hp. unfold delete_step. destruct (key_values sec values) as [vals|]; [|by exists sec].
  destruct (index_remove_plain sec vals pk Hp) as (sec' & -> & Hp'). by exists sec'.
Qed.

Lemma key_values_small (sec : SecondaryIndex.SecondaryIndex T) (values vals : row) : Forall small_scale values → key_values sec values = Some vals → Forall small_scale vals.
Proof.
  intros Hv. unfold key_values. case_bool_decide; [|done]. intros [= <-]. apply Forall_forall. intros v Hin.
  apply list_elem_of_omap in Hin as (i & _ & Hi). rw Forall_lookup in Hv. exact (Hv i v Hi).
Qed.

Lemma update_total (old new : row) pk : Forall small_scale old → Forall small_scale new → total_step (update_step old new pk).
Proof.
  intros Ho Hn sec Hp. unfold update_step. destruct (key_values sec old) as [o|] eqn:Hko; [|by exists sec].
  destruct (key_values sec new) as [n|] eqn:Hkn; [|by exists sec].
  destruct (values_eq_small o n) as [[] ->]; [exact (key_values_small _ _ _ Ho Hko)|exact (key_values_small _ _ _ Hn Hkn)|by exists sec|]. cbn.
  destruct (index_remove_plain sec o pk Hp) as (sec1 & -> & Hp1). cbn. by apply index_insert_plain.
Qed.

Lemma each_total step secs : total_step step → Forall plain_index secs → ∃ secs', each_index step secs = Some (secs', QOk ()) ∧ Forall plain_index secs'.
Proof.
  intros Hstep Hs. induction Hs as [|sec secs Hsec Hs (secs' & IH & Hp)]; cbn; [by exists []|].
  destruct (Hstep sec Hsec) as (sec' & -> & Hp'). cbn. rw IH. cbn. eexists. split; [done|by constructor].
Qed.

(** The tables while the log is undone: only the keys of [rest] may still differ. *)
Record table_undone td (m0 : gmap (list Z) (list Z)) (rest : list Z → Prop) : Prop := {
  tu_indexes : Forall plain_index (secondary_indexes td);
  tu_rows : ∃ m, kt_rep (index td) m ∧ (∀ k, ¬ rest k → m !! k = m0 !! k) ∧ ∀ k d, m !! k = Some d → comparable_row d;
}.

Record undone (rest : address → Prop) st : Prop := {
  un_session : Transaction.get_snapshot tid (txns st.2) = Ok sn ∧ pending st.2 = false;
  un_same : ∀ table, is_Some (tables st.1 !! table) ↔ is_Some (before !! table);
  un_tables : ∀ table td m0, tables st.1 !! table = Some td → before !! table = Some m0 → table_undone td m0 (λ k, rest (table, k));
}.

Lemma undone_table rest rest' w s table td td' :
  undone rest (w, s) → tables w !! table = Some td → (∀ t k, t ≠ table → rest (t, k) → rest' (t, k)) →
  (∀ m0, before !! table = Some m0 → table_undone td m0 (λ k, rest (table, k)) → table_undone td' m0 (λ k, rest' (table, k))) →
  undone rest' (set_tables (<[table := td']> (tables w)) w, s).
Proof.
  intros [Hsn Hsame Ht] Htd Hrest Hstep. cbn [fst snd] in *. split; cbn [fst snd tables set_tables]; [done|..].
  - intros t. destruct (decide (t = table)) as [->|Hne]; [|rw lookup_insert_ne; [congruence|apply Hsame]].
    rw lookup_insert_eq -Hsame Htd. by split; eexists.
  - intros t td1 m0 Htd1 Hm0. destruct (decide (t = table)) as [->|Hne].
    + rw lookup_insert_eq in Htd1. injection Htd1 as <-. by apply Hstep, Ht.
    + rw lookup_insert_ne in Htd1; [congruence|]. destruct (Ht t td1 m0 Htd1 Hm0) as [Hi (m & Hm & Heq & Hc)]. split; [done|].
      exists m. split; [done|]. split; [|done]. intros k Hk. apply Heq. intros Hr. by apply Hk, Hrest.
Qed.

Lemma undone_indexes rest table step st :
  undone rest st → total_step step → is_Some (tables st.1 !! table) →
  ∃ st', update_indexes (J := J) table step st = Some (QOk (), st') ∧ undone rest st' ∧ is_Some (tables st'.1 !! table).
Proof.
  intros Hu Hstep [td Htd]. rw indexes_step. destruct st as [w s]. unfold table_step. cbn [fst] in Htd. rw Htd.
  destruct (proj1 (un_same _ _ Hu table)) as [m0 Hm0]; [by exists td|].
  destruct (each_total step (secondary_indexes td) Hstep (tu_indexes _ _ _ (un_tables _ _ Hu _ _ _ Htd Hm0))) as (secs & -> & Hp). cbn [mbind option_bind].
  eexists. split; [done|]. split.
  - apply (undone_table rest _ w s table td); [done..|]. intros m1 Hm1 [Hi Hr]. by split.
  - cbn. rw lookup_insert_eq. by eexists.
Qed.

(** A row gets its old value back. *)
Lemma table_restore td m0 (rest rest' : list Z → Prop) key t' :
  (∀ m, kt_rep (index td) m → ∃ m', kt_rep t' m' ∧ m' !! key = m0 !! key ∧ ∀ k, k ≠ key → m' !! k = m !! k) →
  (∀ d, m0 !! key = Some d → comparable_row d) → (∀ k, rest k → k = key ∨ rest' k) →
  table_undone td m0 rest → table_undone (with_index td t') m0 rest'.
Proof.
  intros Ht Hc Hrest [Hi (m & Hm & Heq & Hcs)]. split; [done|]. destruct (Ht m Hm) as (m' & Hm' & Hk & Hne). exists m'. split; [done|]. split.
  - intros k Hn. destruct (decide (k = key)) as [->|Hk']; [done|]. rw Hne; [done|]. apply Heq. intros Hr. by destruct (Hrest k Hr).
  - intros k d. destruct (decide (k = key)) as [->|Hk']; [rw Hk; apply Hc|]. rw Hne; [done|]. apply Hcs.
Qed.

Lemma undone_put rest table key pv st :
  undone (λ y, y = (table, key) ∨ rest y) st → is_Some (tables st.1 !! table) → comparable_row pv →
  (∀ m0, before !! table = Some m0 → m0 !! key = Some pv) → ∃ st', write_row table key pv st = Some (QOk (), st') ∧ undone rest st'.
Proof.
  intros Hu [td Htd] Hc Hpv. rw write_row_step. destruct st as [w s]. unfold table_step. cbn [fst] in Htd. rw Htd.
  destruct (proj1 (un_same _ _ Hu table)) as [m0 Hm0]; [by exists td|].
  destruct (tu_rows _ _ _ (un_tables _ _ Hu _ _ _ Htd Hm0)) as (m & Hm & _ & _). destruct (kt_insert_rep _ _ key pv Hm) as (t' & Ht & _). rw Ht.
  eexists. split; [done|]. apply (undone_table _ _ w s table td _ Hu Htd); [intros t k Hne [[= ]|]; done|].
  intros m1 Hm1. pose proof (Hpv m1 Hm1) as Hv. apply (table_restore _ _ _ _ key); [|intros d; by rw Hv => - [= <-]|intros k [[= ->]|]; by [left|right]].
  intros m2 Hm2. destruct (kt_insert_rep _ _ key pv Hm2) as (t2 & Ht2 & Hr2). rw Ht in Ht2. simplify_eq. eexists. split; [exact Hr2|].
  rw lookup_insert_eq Hv. split; [done|]. intros k Hne. apply lookup_insert_ne. congruence.
Qed.

Lemma undone_delete rest table key st :
  undone (λ y, y = (table, key) ∨ rest y) st → is_Some (tables st.1 !! table) →
  (∀ m0, before !! table = Some m0 → m0 !! key = None) → ∃ st', remove_row table key st = Some (QOk (), st') ∧ undone rest st'.
Proof.
  intros Hu [td Htd] Hpv. rw remove_row_step. destruct st as [w s]. unfold table_step. cbn [fst] in Htd. rw Htd.
  destruct (proj1 (un_same _ _ Hu table)) as [m0 Hm0]; [by exists td|].
  destruct (tu_rows _ _ _ (un_tables _ _ Hu _ _ _ Htd Hm0)) as (m & Hm & _ & _). destruct (kt_delete_rep _ _ key Hm) as (t' & Ht & _). rw Ht.
  eexists. split; [done|]. apply (undone_table _ _ w s table td _ Hu Htd); [intros t k Hne [[= ]|]; done|].
  intros m1 Hm1. pose proof (Hpv m1 Hm1) as Hv. apply (table_restore _ _ _ _ key); [|intros d; by rw Hv|intros k [[= ->]|]; by [left|right]].
  intros m2 Hm2. destruct (kt_delete_rep _ _ key Hm2) as (t2 & Ht2 & Hr2). rw Ht in Ht2. simplify_eq. eexists. split; [exact Hr2|].
  rw lookup_delete_eq Hv. split; [done|]. intros k Hne. apply lookup_delete_ne. congruence.
Qed.

(** A key that already has its old value, or whose table is gone. *)
Lemma undone_already rest table key st :
  undone (λ y, y = (table, key) ∨ rest y) st →
  (∀ td m0, tables st.1 !! table = Some td → before !! table = Some m0 → kt_search (index td) key = Some (m0 !! key)) → undone rest st.
Proof.
  intros [Hsn Hsame Ht] Hkey. split; [done..|]. intros t td m0 Htd Hm0. destruct (Ht t td m0 Htd Hm0) as [Hi (m & Hm & Heq & Hc)]. split; [done|].
  exists m. split; [done|]. split; [|done]. intros k Hk. destruct (decide ((t, k) = (table, key))) as [[= -> ->]|Hne].
  - pose proof (Hkey td m0 Htd Hm0) as Hs. rw (kt_search_rep _ _ _ Hm) in Hs. by injection Hs.
  - apply Heq. by intros [?|?].
Qed.

Lemma search_run (table : str) (key : list Z) (w : World J T) (s : Session) td (m : gmap (list Z) (list Z)) :
  tables w !! table = Some td → kt_rep (index td) m → search_row (J := J) table key (w, s) = Some (QOk (m !! key), (w, s)).
Proof.
  intros Htd Hm. unfold search_row, mbind, Db_bind. rw table_data_run Htd. cbn [mbind option_bind]. unfold panic. by rw (kt_search_rep _ _ _ Hm).
Qed.

(** Work on the indexes of a table does no harm to its rows. *)
Definition harmless rest table (c : D ()) : Prop := ∀ st, undone rest st → is_Some (tables st.1 !! table) →
  ∃ st', c st = Some (QOk (), st') ∧ undone rest st' ∧ is_Some (tables st'.1 !! table).

Lemma harmless_ret rest table : harmless rest table (mret ()).
Proof. intros st Hu Ht. by exists st. Qed.

Lemma harmless_indexes rest table step : total_step step → harmless rest table (update_indexes (J := J) table step).
Proof. intros Hstep st Hu Ht. by apply undone_indexes. Qed.

Lemma harmless_ignoring rest table (c : D ()) : harmless rest table c → harmless rest table (ignoring c).
Proof. intros Hc st Hu Ht. destruct (Hc st Hu Ht) as (st' & Hr & ?). exists st'. split; [|done]. unfold ignoring. by rw Hr. Qed.

Lemma harmless_then rest rest' table (c write : D ()) st :
  harmless rest table c → undone rest st → is_Some (tables st.1 !! table) →
  (∀ st', undone rest st' → is_Some (tables st'.1 !! table) → ∃ st2, write st' = Some (QOk (), st2) ∧ undone rest' st2) →
  ∃ st', (c ≫= λ _, write) st = Some (QOk (), st') ∧ undone rest' st'.
Proof.
  intros Hc Hu Ht Hw. destruct (Hc st Hu Ht) as (st1 & Hr & Hu1 & Ht1). destruct (Hw st1 Hu1 Ht1) as (st2 & Hr2 & Hu2).
  exists st2. split; [|done]. unfold mbind, Db_bind. by rw Hr.
Qed.

Lemma undo_one_ok rest table key prev st :
  undone (λ y, y = (table, key) ∨ rest y) st → (∀ m0, before !! table = Some m0 → m0 !! key = prev) → (∀ d, prev = Some d → comparable_row d) →
  ∃ st', undo_one ((table, key), prev) st = Some (QOk (), st') ∧ undone rest st'.
Proof.
  intros Hu Hprev Hc. unfold undo_one. unfold mbind at 1, Db_bind. cbn [world mbind option_bind]. destruct st as [w s]. cbn [fst].
  destruct (tables w !! table) as [td|] eqn:Htd.
  2: { exists (w, s). split; [done|]. apply (undone_already _ table key); [done|]. cbn. intros. congruence. }
  destruct (proj1 (un_same _ _ Hu table)) as [m0 Hm0]; [by exists td|]. pose proof (Hprev m0 Hm0) as Hp.
  destruct (tu_rows _ _ _ (un_tables _ _ Hu _ _ _ Htd Hm0)) as (m & Hm & _ & Hcs).
  unfold mbind at 1, Db_bind. rw (search_run table key w s td m Htd Hm). cbn [mbind option_bind].
  assert (∀ cur, m !! key = Some cur → comparable_row cur) as Hcur by (intros cur; apply Hcs).
  assert (is_Some (tables (w, s).1 !! table)) as His by by exists td.
  destruct (m !! key) as [cur|] eqn:Hk, prev as [pv|].
  - apply (harmless_then (λ y, y = (table, key) ∨ rest y) rest table _ _ (w, s)); [|exact Hu|done|]; [|intros st' Hu' Ht'; apply undone_put; auto; congruence].
    destruct (Tuple.deserialize_to_vec cur) as [cv|] eqn:Hcv; [|apply harmless_ret]. destruct (Tuple.deserialize_to_vec pv) as [pvv|] eqn:Hpv; [|apply harmless_ret].
    apply harmless_ignoring, harmless_indexes, update_total; [exact (Hcur cur eq_refl cv Hcv)|exact (Hc pv eq_refl pvv Hpv)].
  - apply (harmless_then (λ y, y = (table, key) ∨ rest y) rest table _ _ (w, s)); [|exact Hu|done|]; [|intros st' Hu' Ht'; by apply undone_delete].
    destruct (Tuple.deserialize_to_vec cur) as [cv|]; [|apply harmless_ret]. apply harmless_indexes, delete_total.
  - apply (harmless_then (λ y, y = (table, key) ∨ rest y) rest table _ _ (w, s)); [|exact Hu|done|]; [|intros st' Hu' Ht'; apply undone_put; auto; congruence].
    destruct (Tuple.deserialize_to_vec pv) as [pvv|]; [|apply harmless_ret]. apply harmless_ignoring, harmless_indexes, insert_total.
  - exists (w, s). split; [done|]. apply (undone_already _ table key); [done|]. intros td1 m1 Htd1 Hm1. cbn in Htd1. simplify_eq.
    by rw (kt_search_rep _ _ _ Hm) Hk Hp.
Qed.

Lemma undo_all_ok (l : list (address * option (list Z))) st :
  undone (λ y, y ∈ l.*1) st → Forall (λ e, (∀ m0, before !! e.1.1 = Some m0 → m0 !! e.1.2 = e.2) ∧ ∀ d, e.2 = Some d → comparable_row d) l →
  ∃ st', for_all undo_one l st = Some (QOk (), st') ∧ undone closed st'.
Proof.
  intros Hu Hl. revert st Hu. induction Hl as [|[[table key] prev] l [Hp Hc] Hl IH]; intros st Hu.
  - exists st. split; [done|]. destruct Hu as [Hsn Hsame Ht]. split; [done..|]. intros t td m0 Htd Hm0.
    destruct (Ht t td m0 Htd Hm0) as [Hi (m & Hm & Heq & Hcs)]. split; [done|]. exists m. split; [done|]. split; [|done].
    intros k _. apply Heq. apply not_elem_of_nil.
  - cbn [for_all]. destruct (undo_one_ok (λ y, y ∈ l.*1) table key prev st) as (st1 & Hr1 & Hu1); [|done..|].
    { destruct Hu as [Hsn Hsame Ht]. split; [done..|]. intros t td m0 Htd Hm0. destruct (Ht t td m0 Htd Hm0) as [Hi (m & Hm & Heq & Hcs)].
      split; [done|]. exists m. split; [done|]. split; [|done]. intros k Hk. apply Heq. cbn. by rw elem_of_cons. }
    destruct (IH st1 Hu1) as (st2 & Hr2 & Hu2). exists st2. split; [|done]. unfold mbind, Db_bind. by rw Hr1.
Qed.

Lemma forget_versions_ok (l : list str) st :
  undone closed st → ∃ st', for_all (forget_versions tid) l st = Some (QOk (), st') ∧ undone closed st'.
Proof.
  revert st. induction l as [|table l IH]; intros [w s] Hu; [by exists (w, s)|]. cbn [for_all].
  assert (∃ st', forget_versions tid table (w, s) = Some (QOk (), st') ∧ undone closed st') as (st1 & Hr1 & Hu1).
  { unfold forget_versions, mbind, Db_bind. cbn [world mbind option_bind fst]. destruct (tables w !! table) as [td|] eqn:Htd; [|by exists (w, s)].
    rw store_step. unfold table_step. rw Htd. eexists. split; [done|]. apply (undone_table closed _ w s table td _ Hu Htd); [done|].
    intros m0 Hm0 [Hi Hr]. by split. }
  destruct (IH st1 Hu1) as (st2 & Hr2 & Hu2). exists st2. split; [|done]. unfold mbind, Db_bind. by rw Hr1.
Qed.

(** Every row of the tables can be compared. *)
Definition comparable_tables st : Prop :=
  ∀ table td l, tables st.1 !! table = Some td → kt_scan_all (index td) = Some l → Forall (λ kv, comparable_row kv.2) l.

(** The same, decided. *)
Definition small_row (data : list Z) : bool :=
  match Tuple.deserialize_to_vec (J := J) data with
  | Some vs => forallb (λ v, match v with Decimal _ s => (0 <=? s) && (s <=? 38) | _ => true end) vs
  | None => true
  end.

Lemma small_row_comparable data : small_row data = true → comparable_row data.
Proof.
  unfold small_row. intros Hs vs Hd. rw Hd in Hs. apply Forall_forall. intros v Hv%list_elem_of_In. rw forallb_forall in Hs.
  specialize (Hs v Hv). destruct v; cbn in *; try done. lia.
Qed.

Lemma comparable_tables_decided st :
  forallb (λ p, match kt_scan_all (index p.2) with Some l => forallb (λ kv, small_row kv.2) l | None => true end) (map_to_list (tables st.1)) = true →
  comparable_tables st.
Proof.
  intros Hb table td l Htd Hl. rw forallb_forall in Hb. specialize (Hb (table, td)). cbn in Hb. rw Hl in Hb. apply Forall_forall.
  intros kv Hkv%list_elem_of_In. apply small_row_comparable. assert (forallb (λ kv : list Z * list Z, small_row kv.2) l = true) as Hf.
  { apply Hb. exact (proj1 (list_elem_of_In _ _) (proj2 (elem_of_map_to_list _ _ _) Htd)). }
  rw forallb_forall in Hf. by apply Hf.
Qed.

Definition comparable_log st : Prop := ∀ x d, log st !! x = Some (Some d) → comparable_row d.

Lemma intact_undone st : intact closed st → pending st.2 = false → comparable_tables st → undone (λ y, y ∈ (hash_iter (log st)).*1) st.
Proof.
  intros [Hsn Hsame Ht] Hpend Hc. split; [done..|]. intros table td m0 Htd Hm0. destruct (Ht table td m0 Htd Hm0) as [Hi _ (m & Hm & Heq) _].
  split; [done|]. exists m. split; [done|]. split.
  - intros k Hn. apply Heq. apply eq_None_not_Some. intros [p Hp]. apply Hn. apply list_elem_of_fmap. exists ((table, k), p).
    split; [done|]. by apply elem_of_hash_iter.
  - intros k d Hk. pose proof (Hc table td _ Htd (kt_scan_all_rep _ _ Hm)) as Hf. rw Forall_forall in Hf.
    apply (Hf (k, d)). by apply elem_of_sorted_pairs.
Qed.

Lemma comparable_log_decided st :
  forallb (λ p, match p.2 with Some d => small_row d | None => true end) (map_to_list (log st)) = true → comparable_log st.
Proof.
  intros Hb x d Hx. rw forallb_forall in Hb. apply small_row_comparable. apply (Hb (x, Some d)).
  exact (proj1 (list_elem_of_In _ _) (proj2 (elem_of_map_to_list _ _ _) Hx)).
Qed.

(** The rows are the ones from before. *)
Definition restored st : Prop :=
  (∀ table, is_Some (tables st.1 !! table) ↔ is_Some (before !! table)) ∧
  ∀ table td m0, tables st.1 !! table = Some td → before !! table = Some m0 → kt_rep (index td) m0.

Lemma undone_restored st : undone closed st → restored st.
Proof.
  intros [Hsn Hsame Ht]. split; [done|]. intros table td m0 Htd Hm0.
  destruct (Ht table td m0 Htd Hm0) as [_ (m & Hm & Heq & _)]. assert (m = m0) as <-; [|done]. apply map_eq. intros k. by apply Heq.
Qed.

Lemma rollback_effects_ok st :
  intact closed st → pending st.2 = false → comparable_tables st → comparable_log st →
  ∃ st', rollback_txn_effects tid st = Some (QOk (), st') ∧ undone closed st'.
Proof.
  intros Hk0 Hpend Hct0 Hcl0. destruct st as [w0 s]. unfold rollback_txn_effects, mbind at 1, Db_bind.
  cbn [clear_pending_deltas change mbind option_bind fst snd]. set (w := set_deltas _ w0).
  assert (intact closed (w, s)) as Hk by by apply (intact_world _ w0).
  assert (comparable_tables (w, s)) as Hct by exact Hct0. assert (comparable_log (w, s)) as Hcl by exact Hcl0.
  pose proof (intact_undone (w, s) Hk Hpend Hct) as Hu. unfold mbind at 1, Db_bind.
  cbn [world mbind option_bind fst]. destruct (txn_undo w !! tid) as [u|] eqn:Hundo.
  2: { exists (w, s). split; [done|]. destruct Hu as [Hsn Hsame Hut]. split; [done..|]. intros table td m0 Htd Hm0.
    destruct (Hut table td m0 Htd Hm0) as [Hi (m & Hm & Heq & Hcs)]. split; [done|]. exists m. split; [done|]. split; [|done].
    intros k _. apply Heq. unfold log. cbn [fst]. rw Hundo. cbn. rw list_elem_of_fmap. intros ([x p] & _ & Hin%elem_of_hash_iter). done. }
  assert (log (w, s) = u) as Hlog by (unfold log; cbn; by rw Hundo). rw Hlog in Hu.
  unfold mbind at 1, Db_bind. cbn [clear_txn_undo change mbind option_bind fst snd]. set (w1 := set_undo _ w).
  destruct (undo_all_ok (hash_iter u) (w1, s)) as (st1 & Hr1 & Hu1).
  { destruct Hu as [Hsn Hsame Ht]. by split. }
  { apply Forall_forall. intros [[table key] prev] Hin%elem_of_hash_iter. cbn [fst snd]. rw -Hlog in Hin. split.
    - intros m0 Hm0. destruct (proj2 (kp_same _ _ Hk table)) as [td Htd]; [by exists m0|].
      symmetry. exact (tk_undo _ _ _ _ (kp_tables _ _ Hk _ _ _ Htd Hm0) key prev Hin).
    - intros d ->. exact (Hcl (table, key) d Hin). }
  destruct (forget_versions_ok (remove_dups (hash_iter u).*1.*1) st1 Hu1) as (st2 & Hr2 & Hu2). exists st2. split; [|done].
  unfold mbind, Db_bind. by rw Hr1.
Qed.

(** ** Transactions *)

Context (stats : Cost.StatsCatalog (J := J)) (other : Tables J T → PhysicalPlan → Q (ExecutionResult J)) (now : Z)
  (operand : Statement → Db_of (Tables J T) (ExecutionResult J)) (administer : Statement → D (ExecutionResult J)).

(** Plans that are not queries, which no query has, do not change transactions. *)
Context (Hother : ∀ t p, quiet (other t p)).

(** INSERT, UPDATE and DELETE; a query whose rows are inserted has no WITH and no
    query in its FROM. *)
Definition changes_rows (stmt : Statement) : Prop :=
  match stmt with
  | Insert ins => match ins_source ins with InsertValues _ => True | InsertSelect q => plain_select q end
  | Update _ | Delete _ => True
  | _ => False
  end.

(** The statements of the transaction one after the other, failed or not. *)
Fixpoint run_statements (stmts : list Statement) st : option state :=
  match stmts with
  | [] => Some st
  | stmt :: stmts' => '(_, st) ← execute_statement stats other now true operand administer stmt (Some tid) st; run_statements stmts' st
  end.

Lemma keeps_column_indices P schema cols : lasting P → keeps P (column_indices (J := J) (T := T) schema cols) nothing.
Proof.
  intros HP. induction cols as [|c cols IH]; cbn; [apply ret_nothing|]. case_match; [|apply keeps_fail]. step. apply ret_nothing.
Qed.

Lemma keeps_nested_select P q : plain_select q → keeps P (nested_select stats other (Some tid) q) nothing.
Proof.
  intros Hq [w s] r [w' s'] Hk HP Hr. destruct (nested_select_run stats (Some tid) other q w s r w' s' Hq Hr) as [-> Hsn].
  split; [|by split]. apply (intact_session _ w s); [by apply Hsn|done].
Qed.

Lemma keeps_exec_insert P ins : changes_rows (Insert ins) → keeps P (exec_insert stats other ins (Some tid)) nothing.
Proof.
  intros Hsrc. apply keeps_any. unfold exec_insert. step.
  { unfold source_rows. cbn in Hsrc. destruct (ins_source ins) as [values|q].
    - step. step.
      + case_match; [|apply ret_nothing]. by apply keeps_column_indices.
      + apply keeps_evaluate.
    - step; [by apply keeps_nested_select|]. case_match; [apply ret_nothing|apply keeps_fail..]. }
  step. step; [by apply keeps_insert_rows|]. by apply keeps_finish.
Qed.

Lemma keeps_statement {A} (c : D (ExecutionResult A)) : keeps always c nothing → keeps always (statement true c) nothing.
Proof.
  intros Hc [w s] r st' Hk _. unfold statement. destruct (c (w, mkSession (txns s) false)) as [[r1 [w1 s1]]|] eqn:Hr; [|done]. cbn [mbind option_bind].
  destruct (Hc (w, mkSession (txns s) false) r1 (w1, s1)) as (Hk1 & Hg1 & _); [by apply (intact_session _ w s)|done..|].
  destruct r1 as [res|e]; [destruct (true && pending s1)|]; intros [= <- <-]; (split; [|by split]); [|done..].
  by apply (intact_session _ w1 s1).
Qed.

(** A transaction that has changed nothing yet and is alone: it sees the rows of the
    trees, and there are no unique indexes. *)
Record alone st : Prop := {
  al_snapshot : Transaction.get_snapshot tid (txns st.2) = Ok sn;
  al_log : txn_undo st.1 !! tid = None;
  al_same : ∀ table, is_Some (tables st.1 !! table) ↔ is_Some (before !! table);
  al_tables : ∀ table td m0, tables st.1 !! table = Some td → before !! table = Some m0 →
    kt_rep (index td) m0 ∧ Forall plain_index (secondary_indexes td) ∧
    ∃ vm, VersionStore.store_rel (version_store td) vm ∧ ∀ k o, seen vm k = Some o → o = m0 !! k;
}.

Lemma alone_intact st : alone st → intact closed st.
Proof.
  intros [Hsn Hlog Hsame Ht]. split; [done..|]. intros table td m0 Htd Hm0. destruct (Ht table td m0 Htd Hm0) as (Hm & Hi & vm & Hvm & Hseen).
  unfold log. rw Hlog. split; [done|done|by exists m0|]. exists vm. split; [done|]. intros k _ _. destruct (seen vm k) as [o|] eqn:Ho; [|done].
  exact (Hseen k o Ho).
Qed.

Lemma run_intact stmts st st' : Forall changes_rows stmts → run_statements stmts st = Some st' → intact closed st → intact closed st'.
Proof.
  intros Hs. revert st. induction Hs as [|stmt stmts Hstmt Hs IH]; intros st; cbn [run_statements]; [by intros [= <-]|].
  destruct (execute_statement _ _ _ _ _ _ _ _ st) as [[r st1]|] eqn:Hr; [|done]. cbn. intros Hrun Hk. apply (IH st1 Hrun).
  assert (∀ c, keeps always c nothing → statement true c st = Some (r, st1) → intact closed st1) as Hstep.
  { intros c Hc Hcr. by destruct (keeps_statement c Hc _ _ _ Hk I Hcr). }
  destruct stmt; try done; refine (Hstep _ _ Hr); [by apply keeps_exec_insert|apply keeps_exec_update|apply keeps_exec_delete].
Qed.

Lemma abort_active tm : Transaction.get_snapshot tid tm = Ok sn → ∃ tm', Transaction.abort tid tm = (tm', Ok ()).
Proof.
  unfold Transaction.get_snapshot, Transaction.abort. destruct (Transaction.active_txns tm !! tid) as [t|] eqn:Ht; [|done]. intros _.
  cbn. rw Ht. by eexists.
Qed.

Lemma exec_rollback_run st w2 s2 tm' :
  rollback_txn_effects (J := J) (T := T) tid st = Some (QOk (), (w2, s2)) → Transaction.abort tid (txns s2) = (tm', Ok ()) →
  ∃ w3, exec_rollback (Some tid) st = Some (QOk (OkText (chars "ROLLBACK")), (w3, mkSession tm' (pending s2))) ∧ tables w3 = tables w2.
Proof.
  intros Hr Hab. unfold exec_rollback. unfold mbind at 1, Db_bind. rw Hr. cbn [mbind option_bind]. unfold mbind at 1, Db_bind.
  cbn [wal_append change mbind option_bind fst snd]. unfold mbind at 1, Db_bind, end_txn. rw Hab. by eexists.
Qed.

End spec.

(** ** A transaction *)

Section example.
#[local] Existing Instance Tuple.sample_codecs.
#[local] Existing Instance Tuple.sample_show.
#[local] Existing Instance Tuple.sample_read.
#[local] Existing Instance Lexer.ascii_only.
#[local] Existing Instance Lexer.no_floats.
#[local] Existing Instance Scan.sample_engine.
#[local] Existing Instance Collections.plain.
#[local] Existing Instance QuerySpec.no_libm.
#[local] Existing Instance Tuple.sample_codec_laws.
#[local] Existing Instance Tuple.sample_json.
#[local] Existing Instance SecondaryIndex.Value_eq_dec.
Local Abbreviation Tree := BTree.BTree.BPlusTree.

Definition sql (text : string) : Statement := match Parser.parse_sql (chars text) with Some (POk stmt) => stmt | _ => Rollback end.

(** The third INSERT fails at its second row. *)
Definition sample_statements : list Statement := map sql
  ["INSERT INTO t VALUES (4, 'ulm')"; "UPDATE t SET city = 'koeln' WHERE id > 1"; "DELETE FROM t WHERE id = 2";
   "INSERT INTO t VALUES (5, 'essen'), (1, 'trier')"; "INSERT INTO t SELECT id + 10, city FROM t WHERE id > 2"].

Definition sample_start : World unit Tree * Session :=
  let '(tm, _) := Transaction.begin Transaction.RepeatableRead 0 Transaction.new in
  (mkWorld QuerySpec.city_tables ∅ ∅ ∅ [] None, mkSession tm false).
Definition sample_snapshot : Transaction.Snapshot := Transaction.mkSnapshot 1 1 [].
Definition city_before : gmap str (gmap (list Z) (list Z)) := {[chars "t" := list_to_map QuerySpec.city_data]}.
Definition no_plan : Tables unit Tree → PhysicalPlan → Q (ExecutionResult unit) := λ _ _, q_fail (QPlan []).
Definition sample_end : World unit Tree * Session :=
  default sample_start (run_statements 1 ∅ no_plan 0 (λ _ _, None) (λ _ _, None) sample_statements sample_start).

Lemma city_index_plain : plain_index QuerySpec.city_index.
Proof.
  destruct (SecondaryIndex.new_run (T := Tree) _ "by_city" [1%nat] false QuerySpec.city_ops QuerySpec.city_ops_ok) as (ix & Hrun & [_ (m & Hm & _)] & _).
  assert (QuerySpec.city_index = ix) as Heq by (unfold QuerySpec.city_index; by rw Hrun). split; [by vm_compute|]. exists m. by rw Heq.
Qed.

Lemma sample_alone : alone 1 sample_snapshot city_before sample_start.
Proof.
  split; [by vm_compute..| |].
  - intros table. change (tables sample_start.1) with QuerySpec.city_tables. unfold QuerySpec.city_tables, city_before. by rw !lookup_singleton_is_Some.
  - intros table td m0. change (tables sample_start.1) with QuerySpec.city_tables. unfold QuerySpec.city_tables, city_before.
    intros [<- <-]%(lookup_singleton_Some (M := gmap str)) [_ <-]%lookup_singleton_Some.
    split; [apply QuerySpec.build_tree_rep|]. split; [apply Forall_singleton, city_index_plain|].
    exists ∅. split; [apply VersionStore.store_rel_new|done].
Qed.

End example.
End RollbackSpec.
