(* ===== verification/Journal.v ===== *)
(** What a statement notes for the disk store is what it does: the changes it
    notes, applied to the rows a table had, give the rows the table has. *)
From S2P Require Import Prelude ByteOrder Value OrderKey OrderedIndex SecondaryIndex Schema Tuple Transaction VersionStore Wal DiskManager Civil Sql TableFiles Lexer Parser Like Strings Float64 Eval Scan Collections Plan Stats Cost Optimizer Exec Window Join Aggregate TableAccess TableSpec Subquery Query QuerySpec Dml RollbackSpec.
Import Value OrderKey Sql Like Strings Eval Collections Plan Exec TableAccess Query Dml RollbackSpec.

Module Journal.

Section journal.
Context {J T : Type} `{!JsonShow J, !JsonRead J} `{!Codecs} `{Unicode} `{FloatText} `{!Engine J} `{!KvTree T} `{!HashOrder} `{!Unordered} `{!Libm}.
Context `{!KvTreeLaws T}.
Local Abbreviation row := (list (Value J)).
Local Abbreviation D := (Db_of (World J T)).
Local Abbreviation state := (World J T * Session)%type.
Local Abbreviation rows := (gmap (list Z) (list Z)).

(** ** Changes and rows *)

(** The changes of one table. *)
Definition for_table (table : str) (l : list (str * TableFiles.LogDelta)) : list TableFiles.LogDelta :=
  (filter (λ d : str * TableFiles.LogDelta, d.1 = table) l).*2.

Definition replay (m : rows) (l : list TableFiles.LogDelta) : rows := foldl TableFiles.apply_delta m l.

Lemma for_table_app table l l' : for_table table (l ++ l') = for_table table l ++ for_table table l'.
Proof. unfold for_table. by rw filter_app fmap_app. Qed.

Lemma for_table_same table d : for_table table [(table, d)] = [d].
Proof. unfold for_table. by rw filter_cons_True. Qed.
Lemma for_table_other t table d : t ≠ table → for_table t [(table, d)] = [].
Proof. intros Hne. unfold for_table. by rw filter_cons_False; [cbn; congruence|]. Qed.

Lemma replay_app m l l' : replay m (l ++ l') = replay (replay m l) l'.
Proof. apply foldl_app. Qed.

(** The table has the rows of before with the changes. *)
Definition td_follows (l : list TableFiles.LogDelta) (td td' : TableData J T) : Prop :=
  schema td' = schema td ∧ ∀ m, kt_rep (index td) m → kt_rep (index td') (replay m l).

(** From [w] to [w'] the changes [l] were noted and made. *)
Definition noted (l : list (str * TableFiles.LogDelta)) (w w' : World J T) : Prop :=
  deltas w' = (λ l0, l0 ++ l) <$> deltas w ∧ Forall (λ d, is_Some (tables w !! d.1)) l ∧
  (∀ table, is_Some (tables w' !! table) → is_Some (tables w !! table)) ∧
  ∀ table td, tables w !! table = Some td → ∃ td', tables w' !! table = Some td' ∧ td_follows (for_table table l) td td'.

Lemma noted_app l l' w1 w2 w3 : noted l w1 w2 → noted l' w2 w3 → noted (l ++ l') w1 w3.
Proof.
  intros (Hd1 & Hl1 & Hs1 & Ht1) (Hd2 & Hl2 & Hs2 & Ht2). split; [|split; [|split]].
  - rw Hd2 Hd1. destruct (deltas w1); cbn; [|done]. by rw app_assoc.
  - apply Forall_app. split; [done|]. apply (Forall_impl _ _ _ Hl2). intros d. apply Hs1.
  - intros table Hin. by apply Hs1, Hs2.
  - intros table td Htd. destruct (Ht1 table td Htd) as (td1 & Htd1 & Hsc1 & Hr1). destruct (Ht2 table td1 Htd1) as (td2 & Htd2 & Hsc2 & Hr2).
    exists td2. split; [done|]. split; [congruence|]. intros m Hm. rw for_table_app replay_app. by apply Hr2, Hr1.
Qed.

(** Nothing was noted and no row was written. *)
Lemma noted_nothing w w' : tables w' = tables w → deltas w' = deltas w → noted [] w w'.
Proof.
  intros Ht Hd. split; [|split; [constructor|split]].
  - rw Hd. destruct (deltas w); cbn; [|done]. by rw app_nil_r.
  - intros table. by rw Ht.
  - intros table td Htd. rw Ht. exists td. split; [done|]. by split.
Qed.

(** ** Computations that note what they do *)

Definition follows (w w' : World J T) : Prop := ∃ l, noted l w w'.
Definition tracks {A} (c : D A) : Prop := ∀ st r st', c st = Some (r, st') → follows st.1 st'.1.

Lemma follows_refl w : follows w w. Proof. exists []. by apply noted_nothing. Qed.
Lemma follows_trans w1 w2 w3 : follows w1 w2 → follows w2 w3 → follows w1 w3.
Proof. intros [l Hl] [l' Hl']. exists (l ++ l'). exact (noted_app _ _ _ _ _ Hl Hl'). Qed.

Lemma tracks_bind {A B} (c : D A) (f : A → D B) : tracks c → (∀ a, tracks (f a)) → tracks (mbind f c).
Proof.
  intros Hc Hf st r st' [(a & st1 & Hr1 & Hr2)|(e & Hr1 & ->)]%bind_inv.
  - exact (follows_trans _ _ _ (Hc _ _ _ Hr1) (Hf a _ _ _ Hr2)).
  - exact (Hc _ _ _ Hr1).
Qed.

Lemma tracks_ret {A} (a : A) : tracks (mret a). Proof. intros st r st' [= <- <-]. apply follows_refl. Qed.
Lemma tracks_fail {A} e : tracks (fail e : D A). Proof. intros st r st' [= <- <-]. apply follows_refl. Qed.
Lemma tracks_panic {A} (o : option A) : tracks (panic o).
Proof. intros st r st'. unfold panic. destruct o; [|done]. intros [= <- <-]. apply follows_refl. Qed.
Lemma tracks_world : tracks world. Proof. intros st r st' [= <- <-]. apply follows_refl. Qed.
Lemma tracks_reading {A} (m : Tables J T → Q A) : tracks (reading m).
Proof. intros [w s] r st'. unfold reading. destruct (m (tables w) s) as [[r' s']|]; [|done]. intros [= <- <-]. apply follows_refl. Qed.
Lemma tracks_evaluate {A} (m : E A) : tracks (evaluate m). Proof. apply tracks_reading. Qed.
Lemma tracks_table_data table : tracks (table_data (J := J) (T := T) table). Proof. apply tracks_reading. Qed.

Lemma tracks_change (f : World J T → World J T) :
  (∀ w, tables (f w) = tables w) → (∀ w, deltas (f w) = deltas w) → tracks (Dml.change f).
Proof. intros Ht Hd [w s] r st' [= <- <-]. exists []. apply noted_nothing; [apply Ht|apply Hd]. Qed.

(** A table is written back with the same tree. *)
Lemma tracks_table_step {A} table (step : TableData J T → option (qresult A * TableData J T)) :
  (∀ td td' r, step td = Some (r, td') → schema td' = schema td ∧ index td' = index td) → tracks (table_step table step).
Proof.
  intros Hstep [w s] r st'. unfold table_step. destruct (tables w !! table) as [td|] eqn:Htd; [|intros [= <- <-]; apply follows_refl].
  destruct (step td) as [[r1 td']|] eqn:Hs; cbn; [|done]. intros [= <- <-]. destruct (Hstep _ _ _ Hs) as [Hsc Hix]. exists []. split; [|split; [constructor|split]]; cbn.
  - destruct (deltas w); cbn; [|done]. by rw app_nil_r.
  - intros t. destruct (decide (t = table)) as [->|Hne]; [by rw Htd|]. rw lookup_insert_ne; [congruence|done].
  - intros t td1 Htd1. destruct (decide (t = table)) as [->|Hne].
    + rw lookup_insert_eq. exists td'. split; [done|]. rw Htd in Htd1. injection Htd1 as <-. split; [done|]. by rw Hix.
    + rw lookup_insert_ne; [congruence|]. exists td1. by split.
Qed.

Lemma tracks_same_run {A} (c c' : D A) : (∀ st, c st = c' st) → tracks c' → tracks c.
Proof. intros He Hc st r st' Hr. rw He in Hr. exact (Hc _ _ _ Hr). Qed.

Lemma tracks_change_store table f : tracks (change_store (J := J) (T := T) table f).
Proof. eapply tracks_same_run; [apply store_step|]. apply tracks_table_step. by intros td td' r [= <- <-]. Qed.

Lemma tracks_try_store {A} table (f : VersionStore.VersionStore row → VersionStore.VersionStore row * Prelude.result A) : tracks (try_store (T := T) table f).
Proof. eapply tracks_same_run; [apply try_store_step|]. apply tracks_table_step. by intros td td' r [= <- <-]. Qed.

Lemma tracks_update_indexes table step : tracks (update_indexes (J := J) (T := T) table step).
Proof.
  eapply tracks_same_run; [apply indexes_step|]. apply tracks_table_step. intros td td' r.
  destruct (each_index step (secondary_indexes td)) as [[secs r1]|]; [|done]. by intros [= <- <-].
Qed.

(** A row is written, or removed, after its change was noted. *)
Lemma tracks_logged table d (c : D ()) (step : T → option T) :
  (∀ st, c st = table_step table (λ td, t ← step (index td); Some (QOk (), with_index td t)) st) →
  (∀ t m, kt_rep t m → ∃ t', step t = Some t' ∧ kt_rep t' (TableFiles.apply_delta m d)) →
  tracks (_ ← table_data table; _ ← log_delta table d; c).
Proof.
  intros He Hstep [w s] r st'. unfold mbind at 1, Db_bind. rw table_data_run. cbn [mbind option_bind].
  destruct (tables w !! table) as [td|] eqn:Htd; [|intros [= <- <-]; apply follows_refl].
  unfold mbind at 1, Db_bind. cbn [log_delta Dml.change mbind option_bind fst snd]. rw He. unfold table_step.
  cbn [tables set_deltas]. rw Htd. intros Hr. exists [(table, d)].
  - destruct (step (index td)) as [t'|] eqn:Ht; [|done]. cbn in Hr. injection Hr as <- <-. split; [done|].
    cbn [tables set_deltas set_tables fst]. split; [apply Forall_singleton; by exists td|]. split.
    + intros t. destruct (decide (t = table)) as [->|Hne]; [by rw Htd|]. rw lookup_insert_ne; [congruence|done].
    + intros t td1 Htd1. destruct (decide (t = table)) as [->|Hne].
      * rw lookup_insert_eq. rw Htd in Htd1. injection Htd1 as <-. eexists. split; [done|]. split; [done|]. intros m Hm.
        destruct (Hstep _ _ Hm) as (t1 & Ht1 & Hrep). rw for_table_same. rw Ht in Ht1. by injection Ht1 as <-.
      * rw lookup_insert_ne; [congruence|]. exists td1. split; [done|]. rw for_table_other; [done|]. by split.
Qed.

Lemma tracks_put_row table key data : tracks (put_row (J := J) (T := T) table key data).
Proof.
  apply (tracks_logged table _ _ (λ t, kt_insert t key data)); [intros st; apply write_row_step|]. intros t m Hm. by apply kt_insert_rep.
Qed.

Lemma tracks_delete_row table key : tracks (delete_row (J := J) (T := T) table key).
Proof.
  apply (tracks_logged table _ _ (λ t, fst <$> kt_delete t key)); [intros st; apply remove_row_step|]. intros t m Hm.
  destruct (kt_delete_rep t m key Hm) as (t' & Ht & Hr). exists t'. by rw Ht.
Qed.

(** ** Statements *)

Create HintDb tracks.
#[local] Hint Resolve tracks_ret tracks_fail tracks_panic tracks_world tracks_reading tracks_evaluate tracks_table_data tracks_change_store tracks_try_store tracks_update_indexes tracks_put_row tracks_delete_row : tracks.

(** Goes through a computation, binding by binding and case by case. *)
Ltac track := repeat first
  [ solve [eauto with tracks] | (apply tracks_change; intros; done) | (apply tracks_bind; [|intros]) | case_match ].

Lemma tracks_record_undo txn table key prev : tracks (record_undo (J := J) (T := T) txn table key prev).
Proof. unfold record_undo. track. Qed.
Lemma tracks_wal r : tracks (wal_append (J := J) (T := T) r). Proof. by apply tracks_change. Qed.
Lemma tracks_ssi_write txn table key : tracks (ssi_write (J := J) (T := T) txn table key).
Proof. unfold ssi_write. track. Qed.
Lemma tracks_search table key : tracks (search_row (J := J) (T := T) table key).
Proof. unfold search_row. track. Qed.
#[local] Hint Resolve tracks_record_undo tracks_wal tracks_ssi_write tracks_search : tracks.

Lemma tracks_foreign_keys unknown missing schema (values : row) fks : tracks (check_foreign_keys (T := T) unknown missing schema values fks).
Proof. induction fks as [|fk fks IH]; cbn [check_foreign_keys]; track. Qed.
Lemma tracks_unique violation table self (values : row) i cols : tracks (check_unique (T := T) violation table self values i cols).
Proof. revert i. induction cols as [|col cols IH]; intros i; cbn [check_unique]; track. Qed.
Lemma tracks_checks violation schema (values : row) checks : tracks (check_checks (T := T) violation schema values checks).
Proof. induction checks as [|c checks IH]; cbn [check_checks]; track. Qed.
Lemma tracks_not_null (values : row) i cols : tracks (check_not_null (T := T) values i cols).
Proof. revert i. induction cols as [|col cols IH]; intros i; cbn [check_not_null]; track. Qed.
Lemma tracks_column_indices (sc : Schema.Schema (J := J)) cols : tracks (column_indices (T := T) sc cols).
Proof. induction cols as [|c cols IH]; cbn [column_indices]; track. Qed.
Lemma tracks_fill_default table col (v : Value J) : tracks (fill_default (T := T) table col v).
Proof. unfold fill_default. track. Qed.
#[local] Hint Resolve tracks_foreign_keys tracks_unique tracks_checks tracks_not_null tracks_column_indices tracks_fill_default : tracks.

Lemma tracks_complete_row table cols (values : row) : tracks (complete_row (T := T) table cols values).
Proof. revert values. induction cols as [|col cols IH]; intros values; cbn [complete_row]; track. Qed.
Lemma tracks_row_key table pk_cols (values : row) : tracks (row_key (T := T) table pk_cols values).
Proof. unfold row_key, next_rowid. track. Qed.
Lemma tracks_finish returning td (done : list row) : tracks (finish (T := T) returning td done).
Proof. unfold finish, build_returning_result. track. Qed.
Lemma tracks_for_all {A} (f : A → D ()) l : (∀ a, tracks (f a)) → tracks (for_all f l).
Proof. intros Hf. induction l as [|a l IH]; cbn [for_all]; track. Qed.
#[local] Hint Resolve tracks_complete_row tracks_row_key tracks_finish : tracks.

Lemma tracks_insert_row table td on_conflict txn count (values : row) : tracks (insert_row (T := T) table td on_conflict txn count values).
Proof.
  unfold insert_row, check_insert, update_existing, insert_new, insert_version, update_secondary_indexes_insert, update_secondary_indexes_update.
  track.
Qed.
#[local] Hint Resolve tracks_insert_row : tracks.

Lemma tracks_insert_rows table td on_conflict txn (done rows : list row) : tracks (insert_rows (T := T) table td on_conflict txn done rows).
Proof. revert done. induction rows as [|r rows IH]; intros done; cbn [insert_rows]; track. Qed.

Lemma tracks_each_match sc filter (step : Z → list Z → list Z → row → D row) done entries :
  (∀ n k d t, tracks (step n k d t)) → tracks (each_match sc filter step done entries).
Proof. intros Hs. revert done. induction entries as [|[k d] entries IH]; intros done; cbn [each_match]; track. Qed.

Lemma tracks_update_one table td assignments txn count key data (old : row) :
  tracks (update_one (T := T) table td assignments txn count key data old).
Proof. unfold update_one, check_update, update_version, update_secondary_indexes_update. track. Qed.

Lemma tracks_cascade_targets (tuple : row) refs : tracks (cascade_targets (T := T) tuple refs).
Proof.
  assert (∀ fkr (vals : row) entries, tracks (referring (T := T) fkr vals entries)) as Hr.
  { intros fkr vals entries. induction entries as [|[k d] entries IH]; cbn [referring]; track. }
  induction refs as [|fkr refs IH]; cbn [cascade_targets]; track.
Qed.

Lemma tracks_cascade_one txn target : tracks (cascade_one (J := J) (T := T) txn target).
Proof. unfold cascade_one, update_secondary_indexes_delete, update_secondary_indexes_update. track. Qed.
#[local] Hint Resolve tracks_insert_rows tracks_update_one tracks_cascade_targets tracks_cascade_one : tracks.

Lemma tracks_delete_one table td refs txn count key data (tuple : row) : tracks (delete_one (T := T) table td refs txn count key data tuple).
Proof.
  unfold delete_one, delete_version, update_secondary_indexes_delete. track. apply tracks_for_all. intros. apply tracks_cascade_one.
Qed.

Context (stats : Cost.StatsCatalog (J := J)) (other : Tables J T → PhysicalPlan → Q (ExecutionResult J)).

(** The part of a statement that changes rows. *)
Definition row_change (stmt : Statement) (txn : option Z) : D (ExecutionResult J) :=
  match stmt with
  | Insert ins => exec_insert stats other ins txn
  | Update upd => exec_update upd txn
  | Delete del => exec_delete del txn
  | _ => fail no_transaction
  end.

Lemma tracks_nested_select q txn : plain_select q → tracks (nested_select stats other txn q).
Proof.
  intros Hq [w s] r [w' s'] Hr. destruct (nested_select_run stats txn other q w s r w' s' Hq Hr) as [-> _]. exists []. by apply noted_nothing.
Qed.

Lemma tracks_insert ins txn : changes_rows (Insert ins) → tracks (exec_insert stats other ins txn).
Proof.
  unfold exec_insert, source_rows. cbn. destruct (ins_source ins) as [values|q]; intros Hq; [track|].
  pose proof (tracks_nested_select q txn Hq). track.
Qed.
Lemma tracks_update upd txn : tracks (exec_update (J := J) (T := T) upd txn).
Proof. unfold exec_update. track. apply tracks_each_match. intros. apply tracks_update_one. Qed.
Lemma tracks_delete del txn : tracks (exec_delete (J := J) (T := T) del txn).
Proof.
  unfold exec_delete. track.
  - apply tracks_each_match. intros. apply tracks_delete_one.
  - apply tracks_for_all. intros. apply tracks_delete_row.
Qed.

(** What an INSERT, an UPDATE or a DELETE notes is what it does, also
    where it fails. *)
Lemma tracks_row_change stmt txn : changes_rows stmt → tracks (row_change stmt txn).
Proof. intros Hc. destruct stmt; try done; [by apply tracks_insert|apply tracks_update|apply tracks_delete]. Qed.
End journal.
End Journal.
