(* ===== verification/TableFilesSpec.v ===== *)
(** What the files of a table promise: after any sequence of appends and
    compactions, and a crash at any point of the next one, loading the table gives
    the rows of the completed changes and of a prefix of the interrupted one. *)
From S2P Require Import Prelude DiskManager Sql TableFiles.
Import DiskManager.
Import Sql (chars).
Import TableFiles.

Module TableFilesSpec.

Section spec.
Context `{Crc32} `{HashOrder}.

(** ** Reading back what was written *)

Lemma take_bytes_app bs rest : take_bytes (zlen bs) (bs ++ rest) = Some (bs, rest).
Proof.
  unfold take_bytes. rw zlen_app. pose proof (zlen_nonneg rest).
  destruct (Z.leb_spec (zlen bs) (zlen bs + zlen rest)); [|lia].
  unfold zlen. by rw Nat2Z.id take_app_length drop_app_length.
Qed.

Lemma take_bytes_short n rest : zlen rest < n → take_bytes n rest = None.
Proof. intros. unfold take_bytes. destruct (Z.leb_spec n (zlen rest)); [lia|done]. Qed.

Lemma read_le_app (n : nat) z rest :
  0 ≤ z < 256 ^ Z.of_nat n → read_le (Z.of_nat n) (le_bytes n z ++ rest) = Some (z, rest).
Proof.
  intros Hz. unfold read_le. pose proof (take_bytes_app (le_bytes n z) rest) as E.
  unfold zlen in E. rw length_le_bytes in E. rw E. cbn [mbind option_bind]. by rw le_bytes_val_small.
Qed.

Lemma read_prefixed_app bs rest : zlen bs < 2 ^ 32 → read_prefixed (prefixed bs ++ rest) = Some (bs, rest).
Proof.
  intros Hs. pose proof (zlen_nonneg bs). unfold read_prefixed, prefixed. rw -app_assoc.
  rw (read_le_app 4); [unfold wrap; rw Z.mod_small; lia|].
  cbn [mbind option_bind]. unfold wrap. rw Z.mod_small; [lia|]. apply take_bytes_app.
Qed.

(** Lengths that fit their fields. *)
Definition sized (d : LogDelta) : Prop := zlen (body_of d) < 2 ^ 32.

Lemma sized_fields d : sized d → zlen (key d) < 2 ^ 32 ∧ zlen (value d) < 2 ^ 32.
Proof.
  unfold sized, body_of, prefixed. rw zlen_cons !zlen_app. unfold zlen. rw !length_le_bytes. lia.
Qed.

Lemma decode_body_of d : sized d → decode_body (body_of d) = Some d.
Proof.
  intros [Hk Hv]%sized_fields. unfold body_of, decode_body.
  rw read_prefixed_app; [done|]. cbn [mbind option_bind].
  rw -(app_nil_r (prefixed (value d))) read_prefixed_app; [done|]. by destruct d.
Qed.

Lemma zlen_record d : zlen (record_of d) = 8 + zlen (body_of d).
Proof. unfold record_of. rw !zlen_app. unfold zlen. rw !length_le_bytes. lia. Qed.

Lemma read_record_app d rest : sized d → read_record (record_of d ++ rest) = Some (d, rest).
Proof.
  intros Hs. unfold read_record. rw zlen_app zlen_record.
  pose proof (zlen_nonneg (body_of d)). pose proof (zlen_nonneg rest).
  destruct (Z.ltb_spec (8 + zlen (body_of d) + zlen rest) 8); [lia|].
  unfold record_of. rw -!app_assoc (read_le_app 4); [unfold wrap; rw Z.mod_small; unfold sized in Hs; lia|].
  cbn [mbind option_bind]. rw (read_le_app 4); [apply crc32_range|]. cbn [mbind option_bind].
  unfold wrap. rw Z.mod_small; [unfold sized in Hs; lia|].
  rw take_bytes_app. cbn [mbind option_bind]. rw Z.eqb_refl. cbn [negb]. by rw decode_body_of.
Qed.

(** A record that was cut is not read: its length field says so. *)
Lemma read_record_cut d n : sized d → (n < length (record_of d))%nat → read_record (take n (record_of d)) = None.
Proof.
  intros Hs Hn. unfold read_record. pose proof (zlen_record d) as Hz.
  destruct (Z.ltb_spec (zlen (take n (record_of d))) 8) as [|Hge]; [done|].
  unfold zlen in Hge, Hz. rw length_take in Hge.
  unfold record_of. rw take_app_ge; [rw length_le_bytes; lia|]. rw length_le_bytes.
  rw (read_le_app 4); [unfold wrap; apply Z.mod_pos_bound; lia|]. cbn [mbind option_bind].
  rw take_app_ge; [rw length_le_bytes; lia|]. rw length_le_bytes.
  rw (read_le_app 4); [apply crc32_range|]. cbn [mbind option_bind].
  rw take_bytes_short; [|done]. unfold wrap. rw Z.mod_small; [unfold sized in Hs; pose proof (zlen_nonneg (body_of d)); lia|].
  unfold zlen. rw length_take. lia.
Qed.

(** Records that are whole are read, and then those that the cut left whole. *)
Lemma read_records_cut es fuel n :
  Forall sized es → (length (take n (es ≫= record_of)) ≤ fuel)%nat →
  ∃ j, read_records fuel (take n (es ≫= record_of)) = take j es.
Proof.
  intros Hs. revert fuel n. induction Hs as [|d es Hd Hes IH]; intros fuel n Hf.
  - exists 0%nat. cbn [mbind list_bind]. rw !take_nil. by destruct fuel.
  - cbn [mbind list_bind] in *. fold (mbind (M := list) record_of es) in *.
    assert (Hl : (8 ≤ length (record_of d))%nat) by (pose proof (zlen_record d); unfold zlen in *; lia).
    destruct (decide (n < length (record_of d))%nat) as [Hlt|Hge].
    + exists 0%nat. rw take_app_le; [lia|]. destruct fuel; [done|]. cbn [read_records]. by rw read_record_cut.
    + rw take_app_ge; [lia|]. rw take_app_ge in Hf; [lia|]. rw length_app in Hf.
      destruct fuel as [|fuel]; [lia|]. cbn [read_records]. rw read_record_app; [done|].
      destruct (IH fuel (n - length (record_of d))%nat ltac:(lia)) as [j Hj]. exists (S j). by rw Hj.
Qed.

Lemma read_records_app ds fuel tail :
  Forall sized ds → (length (ds ≫= record_of) + length tail ≤ fuel)%nat →
  ∃ fuel', (length tail ≤ fuel')%nat ∧ read_records fuel ((ds ≫= record_of) ++ tail) = ds ++ read_records fuel' tail.
Proof.
  intros Hs. revert fuel. induction Hs as [|d ds Hd Hds IH]; intros fuel Hf.
  - by exists fuel.
  - cbn [mbind list_bind] in *. fold (mbind (M := list) record_of ds) in *. rw length_app in Hf.
    assert (Hl : (8 ≤ length (record_of d))%nat) by (pose proof (zlen_record d); unfold zlen in *; lia).
    destruct fuel as [|fuel]; [lia|]. cbn [read_records]. rw -app_assoc read_record_app; [done|].
    destruct (IH fuel ltac:(lia)) as (fuel' & Hf' & E). exists fuel'. split; [done|]. by rw E.
Qed.

(** ** The log *)

(** The contents of a log of [ds] with a cut append of [es] behind it. *)
Definition log_of (ds : list LogDelta) : list Z := log_header ++ (ds ≫= record_of).

Lemma log_load_cut (dir : Dir) table ds es n :
  Forall sized ds → Forall sized es → dir !! log_path table = Some (log_of ds ++ take n (es ≫= record_of)) →
  ∃ j, log_load dir table = Ok (ds ++ take j es).
Proof.
  intros Hds Hes Hlog. unfold log_load. rw Hlog. unfold log_of. rw -app_assoc.
  set tail := take n _. rw zlen_app. pose proof (zlen_nonneg ((ds ≫= record_of) ++ tail)).
  change (zlen log_header) with 8.
  destruct (Z.ltb_spec (8 + zlen ((ds ≫= record_of) ++ tail)) 8); [lia|].
  change (take 4 (log_header ++ _)) with LOG_MAGIC. rw bool_decide_eq_true_2; [done|]. cbn [negb].
  unfold slice.
  change (take (Z.to_nat 4) (drop (Z.to_nat 4) (log_header ++ _))) with (le_bytes 4 LOG_VERSION).
  change (drop 8 (log_header ++ _)) with ((ds ≫= record_of) ++ tail). cbn [negb].
  change (le_val (le_bytes 4 LOG_VERSION) =? LOG_VERSION) with true. cbn [negb].
  destruct (read_records_app ds (length (log_header ++ (ds ≫= record_of) ++ tail)) tail) as (fuel & Hf & ->); [done| |].
  - rw !length_app. lia.
  - destruct (read_records_cut es fuel n Hes Hf) as [j Hj]. exists j. by rw Hj.
Qed.

(** Fewer than eight bytes are no log yet. *)
Lemma log_load_short (dir : Dir) table l : dir !! log_path table = Some l → (length l < 8)%nat → log_load dir table = Ok [].
Proof.
  intros E Hl. unfold log_load. rw E. unfold zlen. by destruct (Z.ltb_spec (Z.of_nat (length l)) 8); [|lia].
Qed.

(** ** The base file *)

Definition entry_sized (kv : list Z * list Z) : Prop := zlen kv.1 < 2 ^ 32 ∧ zlen kv.2 < 2 ^ 32.

Lemma read_entries_of l : Forall entry_sized l → read_entries (length l) (l ≫= entry_bytes) = Some l.
Proof.
  induction 1 as [|[k v] l [Hk Hv] _ IH]; [done|]. cbn [mbind list_bind read_entries length].
  fold (mbind (M := list) entry_bytes l). unfold entry_bytes at 1. cbn [fst snd]. rw -app_assoc.
  rw read_prefixed_app; [done|]. cbn [mbind option_bind]. rw read_prefixed_app; [done|]. cbn [mbind option_bind]. by rw IH.
Qed.

(** Entries that can be written and read: their number fits an allocation. *)
Definition entries_sized (l : list (list Z * list Z)) : Prop := Forall entry_sized l ∧ 48 * zlen l < 2 ^ 63.

Lemma load_payload_of l : entries_sized l → load_payload (payload_of l) = Some (Ok l).
Proof.
  intros [Hl Hn]. pose proof (zlen_nonneg l). unfold load_payload, payload_of.
  rw (read_le_app 8); [unfold wrap; rw Z.mod_small; lia|]. unfold wrap. rw Z.mod_small; [lia|].
  destruct (Z.ltb_spec (48 * zlen l) (2 ^ 63)); [|lia]. unfold zlen. by rw Nat2Z.id read_entries_of.
Qed.

Lemma check_payload_of payload : check_payload TABLE_VERSION (payload ++ le_bytes 4 (crc32 payload)) = Ok payload.
Proof.
  unfold check_payload. rw Z.eqb_refl zlen_app. pose proof (zlen_nonneg payload).
  replace (zlen (le_bytes 4 (crc32 payload))) with 4 by (unfold zlen; by rw length_le_bytes).
  destruct (Z.ltb_spec (zlen payload + 4) 4); [lia|].
  replace (Z.to_nat (zlen payload + 4 - 4)) with (length payload) by (unfold zlen; lia).
  rw drop_app_length take_app_length le_bytes_val_small; [apply crc32_range|]. by rw Z.eqb_refl.
Qed.

Lemma table_load_saved (dir : Dir) table l :
  entries_sized l → dir !! tbl_path table = Some (table_bytes l) → table_load dir table = Some (Ok l).
Proof.
  intros Hl E. unfold table_load. rw E. unfold table_bytes.
  rw (take_bytes_app TABLE_MAGIC). rw bool_decide_eq_true_2; [done|]. cbn [negb].
  rw (read_le_app 4); [done|]. cbn [negb]. rw check_payload_of. by apply load_payload_of.
Qed.

(** ** Rows *)

Lemma apply_lookup (d : LogDelta) (m : gmap (list Z) (list Z)) k :
  apply_delta m d !! k = (if decide (key d = k) then (if op d =? OP_DEL then None else Some (value d)) else m !! k).
Proof.
  unfold apply_delta. destruct (decide (key d = k)) as [<-|Hne]; destruct (op d =? OP_DEL).
  - by rw lookup_delete_eq.
  - by rw lookup_insert_eq.
  - by rw lookup_delete_ne.
  - by rw lookup_insert_ne.
Qed.

(** The last change of a key decides; so changes may be applied again. *)
Lemma deltas_lookup (ds : list LogDelta) (m m' : gmap (list Z) (list Z)) k :
  m !! k = m' !! k ∨ k ∈ key <$> ds → foldl apply_delta m ds !! k = foldl apply_delta m' ds !! k.
Proof.
  revert m m'. induction ds as [|d ds IH]; intros m m' Hk.
  - destruct Hk as [|Hk]; [done|]. by apply elem_of_nil in Hk.
  - cbn [foldl]. apply IH. rw !apply_lookup. destruct (decide (key d = k)) as [|Hne]; [by left|].
    destruct Hk as [|Hk]; [by left|]. cbn in Hk. apply elem_of_cons in Hk as [->|Hk]; [done|]. by right.
Qed.

Lemma deltas_other (ds : list LogDelta) (m : gmap (list Z) (list Z)) k : k ∉ key <$> ds → foldl apply_delta m ds !! k = m !! k.
Proof.
  revert m. induction ds as [|d ds IH]; intros m Hk; [done|]. cbn in *. apply not_elem_of_cons in Hk as [Hne Hk].
  rw IH; [done|]. rw apply_lookup. by destruct (decide (key d = k)); [congruence|].
Qed.

Lemma deltas_again (ds : list LogDelta) (m : gmap (list Z) (list Z)) : foldl apply_delta (foldl apply_delta m ds) ds = foldl apply_delta m ds.
Proof.
  apply map_eq. intros k. apply deltas_lookup. destruct (decide (k ∈ key <$> ds)); [by right|left]. by apply deltas_other.
Qed.

Lemma of_entries_foldl (l : list (list Z * list Z)) (m : gmap (list Z) (list Z)) : NoDup l.*1 → (∀ k, k ∈ l.*1 → m !! k = None) →
  foldl (λ m kv, <[kv.1 := kv.2]> m) m l = list_to_map l ∪ m.
Proof.
  revert m. induction l as [|[k v] l IH]; intros m Hnd Hm; cbn.
  - by rw (left_id_L ∅ (∪)).
  - apply NoDup_cons in Hnd as [Hk Hnd]. rw IH; [done| |].
    + intros k' Hk'. rw lookup_insert_ne; [by intros ->|]. apply Hm. cbn. by apply elem_of_cons; right.
    + rw -insert_union_l. rw -insert_union_r; [by apply not_elem_of_list_to_map_1|done].
Qed.

(** The rows of [of_entries] are those of the list, and back. *)
Lemma of_entries_list l : NoDup l.*1 → of_entries l = list_to_map l.
Proof. intros Hl. unfold of_entries. rw of_entries_foldl; [done|intros; apply lookup_empty|]. apply (right_id_L ∅ (∪)). Qed.

Lemma hash_iter_rows (m : gmap (list Z) (list Z)) : NoDup (hash_iter m).*1 ∧ of_entries (hash_iter m) = m.
Proof.
  assert (Hnd : NoDup (hash_iter m).*1) by (rw hash_iter_perm; apply NoDup_fst_map_to_list).
  split; [done|]. rw of_entries_list; [done|]. rw (list_to_map_proper (hash_iter m) (map_to_list m)); [done|apply hash_iter_perm|].
  apply list_to_map_to_list.
Qed.

(** The rows that folding delivers. *)
Lemma fold_rows base ds : NoDup base.*1 →
  NoDup (fold base ds).*1 ∧ of_entries (fold base ds) = foldl apply_delta (of_entries base) ds.
Proof. intros Hb. unfold fold. destruct ds; [done|]. apply hash_iter_rows. Qed.

(** ** The names of the files *)

Lemma paths_differ table : tbl_path table ≠ log_path table ∧ tmp_path table ≠ log_path table ∧ tmp_path table ≠ tbl_path table.
Proof.
  unfold tbl_path, log_path, tmp_path.
  split_and!; intros E%(f_equal last); rw !app_assoc !last_app in E; vm_compute in E; discriminate.
Qed.

(** ** Changes of a table *)

(** What the engine does to the files of a table. *)
Inductive Change : Type :=
  | Logged (ds : list LogDelta)
  | Compacted (entries : list (list Z * list Z)).

Definition change (table : list Z) (dir : Dir) (c : Change) : Dir :=
  match c with Logged ds => log_append dir table ds | Compacted es => compact_table dir table es end.

(** The rows behind a change; a compaction keeps them. *)
Definition rows_after (m : gmap (list Z) (list Z)) (c : Change) : gmap (list Z) (list Z) :=
  match c with Logged ds => foldl apply_delta m ds | Compacted _ => m end.

(** The sizes fit, and a compaction writes the rows there are. *)
Definition allowed (m : gmap (list Z) (list Z)) (c : Change) : Prop :=
  match c with
  | Logged ds => Forall sized ds
  | Compacted es => NoDup es.*1 ∧ list_to_map es = m ∧ entries_sized es
  end.

Fixpoint all_allowed (m : gmap (list Z) (list Z)) (cs : list Change) : Prop :=
  match cs with [] => True | c :: cs => allowed m c ∧ all_allowed (rows_after m c) cs end.

(** The directory a crash in the middle of a change may leave: an append may have
    written any number of its bytes; a compaction may have written anything into
    the temporary file, or renamed it and not removed the log. *)
Inductive crashed (table : list Z) (dir : Dir) : Change → Dir → Prop :=
  | crashed_before c : crashed table dir c dir
  | crashed_append ds n :
      crashed table dir (Logged ds)
        (<[log_path table := default [] (dir !! log_path table) ++ take n (log_bytes (dir !! log_path table) ds)]> dir)
  | crashed_writing es bytes : crashed table dir (Compacted es) (<[tmp_path table := bytes]> dir)
  | crashed_renamed es : crashed table dir (Compacted es) (table_save dir table es)
  | crashed_after c : crashed table dir c (change table dir c).

(** The part of a change that survived. *)
Inductive survived (m : gmap (list Z) (list Z)) : Change → gmap (list Z) (list Z) → Prop :=
  | survived_deltas ds j : survived m (Logged ds) (foldl apply_delta m (take j ds))
  | survived_rows es : survived m (Compacted es) m.

(** Loading the table gives the rows [m], each key once. *)
Definition loads (table : list Z) (dir : Dir) (m : gmap (list Z) (list Z)) : Prop :=
  ∃ l, load_table_data dir table = Some (Ok l) ∧ NoDup l.*1 ∧ list_to_map l = m.

(** The files hold a base and a log whose rows are [m]. *)
Definition base_file (base : list (list Z * list Z)) (f : option (list Z)) : Prop :=
  (f = None ∧ base = []) ∨ f = Some (table_bytes base).
Definition log_file (ds : list LogDelta) (f : option (list Z)) : Prop := (f = None ∧ ds = []) ∨ f = Some (log_of ds).

Definition stored (table : list Z) (dir : Dir) (m : gmap (list Z) (list Z)) : Prop :=
  ∃ base ds, base_file base (dir !! tbl_path table) ∧ log_file ds (dir !! log_path table) ∧
    NoDup base.*1 ∧ entries_sized base ∧ Forall sized ds ∧ m = foldl apply_delta (of_entries base) ds.

Lemma table_load_base (dir : Dir) table base :
  base_file base (dir !! tbl_path table) → entries_sized base → table_load dir table = Some (Ok base).
Proof. intros [[E ->]|E] Hb; [unfold table_load; by rw E|by apply table_load_saved]. Qed.

Lemma loads_fold (dir : Dir) table base ds m :
  base_file base (dir !! tbl_path table) → NoDup base.*1 → entries_sized base → log_load dir table = Ok ds →
  m = foldl apply_delta (of_entries base) ds → loads table dir m.
Proof.
  intros Hf Hnd Hb Hl ->. exists (fold base ds). unfold load_table_data.
  rw (table_load_base dir table base Hf Hb). cbn [mbind option_bind]. rw Hl.
  destruct (fold_rows base ds Hnd) as [Hk Hr]. rw -of_entries_list; [done|]. done.
Qed.

Lemma log_load_file (dir : Dir) table ds : log_file ds (dir !! log_path table) → Forall sized ds → log_load dir table = Ok ds.
Proof.
  intros [[E ->]|E] Hds; [unfold log_load; by rw E|].
  destruct (log_load_cut dir table ds [] 0 Hds) as [j Hj]; [constructor|by rw E take_0 app_nil_r|]. by rw take_nil app_nil_r in Hj.
Qed.

Lemma stored_loads table (dir : Dir) m : stored table dir m → loads table dir m.
Proof.
  intros (base & ds & Hf & Hl & Hnd & Hb & Hds & ->). apply (loads_fold dir table base ds); [done..| |done]. by apply log_load_file.
Qed.

(** ** Crashes *)

Lemma log_of_app ds es : log_of ds ++ (es ≫= record_of) = log_of (ds ++ es).
Proof. unfold log_of. by rw bind_app -app_assoc. Qed.

(** What an append writes, cut or not, is a cut log or fewer than eight bytes. *)
Lemma append_load (dir : Dir) table ds es n :
  log_file ds (dir !! log_path table) → Forall sized ds → Forall sized es →
  ∃ j, log_load (<[log_path table := default [] (dir !! log_path table) ++ take n (log_bytes (dir !! log_path table) es)]> dir) table
       = Ok (ds ++ take j es).
Proof.
  intros Hf Hds Hes. set dir' := <[_ := _]> dir.
  destruct Hf as [[E ->]|E]; rw E in dir' |- *; unfold log_bytes in dir'; cbn [default from_option id] in dir'.
  - destruct (decide (n < 8)%nat) as [Hn|Hn].
    + exists 0%nat. apply (log_load_short dir' table (take n (log_header ++ (es ≫= record_of)))).
      * unfold dir'. by rw lookup_insert_eq.
      * rw length_take. lia.
    + apply (log_load_cut dir' table [] es (n - 8)); [done|done|]. unfold dir'. rw lookup_insert_eq. f_equal. cbn [app].
      rw bool_decide_eq_true_2; [done|]. rw take_app_ge; [cbn; lia|]. done.
  - apply (log_load_cut dir' table ds es n); [done|done|]. unfold dir'. rw lookup_insert_eq. f_equal.
Qed.

Lemma insert_other (dir : Dir) p q bytes : p ≠ q → <[p := bytes]> dir !! q = dir !! q.
Proof. intros. by rw lookup_insert_ne. Qed.

Lemma stored_append table (dir : Dir) m ds : stored table dir m → Forall sized ds →
  stored table (log_append dir table ds) (foldl apply_delta m ds).
Proof.
  intros (base & old & Hf & Hl & Hnd & Hb & Hold & ->) Hds. destruct (paths_differ table) as (Hp & _).
  unfold log_append. destruct ds as [|d ds]; [by exists base, old|]. exists base, (old ++ d :: ds).
  rw foldl_app insert_other; [congruence|]. rw lookup_insert_eq. split_and!; try done.
  - right. f_equal. rw -log_of_app. unfold log_bytes. destruct Hl as [[-> ->]| -> ]; cbn [default from_option id].
    + by rw bool_decide_eq_true_2.
    + by rw bool_decide_eq_false_2.
  - by apply Forall_app.
Qed.

Lemma saved_lookup (dir : Dir) table es :
  table_save dir table es !! tbl_path table = Some (table_bytes es) ∧ table_save dir table es !! log_path table = dir !! log_path table.
Proof.
  destruct (paths_differ table) as (Hp1 & Hp2 & Hp3). unfold table_save. rw lookup_insert_eq. split; [done|].
  rw lookup_insert_ne; [done|]. by rw lookup_delete_ne.
Qed.

(** A compaction whose log is still there: the changes are applied twice. *)
Lemma renamed_loads table (dir : Dir) m es : stored table dir m → allowed m (Compacted es) → loads table (table_save dir table es) m.
Proof.
  intros (base & ds & _ & Hl & _ & _ & Hds & Hm) (Hnd & He & Hes). destruct (saved_lookup dir table es) as [Ht Hg].
  apply (loads_fold _ _ es ds); [by right|done|done| |].
  - apply log_load_file; [by rw Hg|done].
  - rw of_entries_list; [done|]. rw He Hm. by rw deltas_again.
Qed.

Lemma stored_compact table (dir : Dir) m es : allowed m (Compacted es) → stored table (compact_table dir table es) m.
Proof.
  intros (Hnd & He & Hes). destruct (saved_lookup dir table es) as [Ht Hg]. destruct (paths_differ table) as (Hp & _).
  exists es, []. unfold compact_table, log_truncate. rw lookup_delete_ne; [congruence|]. rw lookup_delete_eq.
  split_and!; [by right|by left|done|done|done|]. cbn. rw of_entries_list; [done|]. done.
Qed.

Lemma stored_change table (dir : Dir) m c : stored table dir m → allowed m c → stored table (change table dir c) (rows_after m c).
Proof. destruct c; [apply stored_append|]. intros _. apply stored_compact. Qed.

Lemma stored_changes table cs : ∀ (dir : Dir) m, stored table dir m → all_allowed m cs →
  stored table (foldl (change table) dir cs) (foldl rows_after m cs).
Proof.
  induction cs as [|c cs IH]; intros dir m Hs Ha; [done|]. destruct Ha as [Hc Ha]. cbn. apply IH; [|done]. by apply stored_change.
Qed.

Lemma stored_fresh table (dir : Dir) : dir !! tbl_path table = None → dir !! log_path table = None → stored table dir ∅.
Proof.
  intros Et El. exists [], []. rw Et El. split_and!; [by left|by left|constructor| |constructor|done]. split; [constructor|done].
Qed.

Lemma survived_all m c : survived m c (rows_after m c).
Proof. destruct c as [ds|es]; [|constructor]. cbn. rw -{2}(take_ge ds (length ds)); [done|]. constructor. Qed.

Lemma survived_none m c : survived m c m.
Proof. destruct c as [ds|es]; [|constructor]. exact (survived_deltas m ds 0). Qed.

Lemma crash_loads table (dir : Dir) m c dir' : stored table dir m → allowed m c → crashed table dir c dir' →
  ∃ m', survived m c m' ∧ loads table dir' m'.
Proof.
  intros Hs Ha Hc. destruct (paths_differ table) as (Hp1 & Hp2 & Hp3).
  destruct Hc as [c|ds n|es bytes|es|c].
  - exists m. split; [apply survived_none|]. by apply stored_loads.
  - destruct Hs as (base & old & Hf & Hl & Hnd & Hb & Hold & ->).
    destruct (append_load dir table old ds n Hl Hold Ha) as [j Hj].
    exists (foldl apply_delta (foldl apply_delta (of_entries base) old) (take j ds)). split; [constructor|].
    apply (loads_fold _ table base (old ++ take j ds)); [|done|done|exact Hj|by rw foldl_app]. by rw insert_other; [congruence|].
  - exists m. split; [apply survived_none|]. apply stored_loads.
    destruct Hs as (base & old & Hs). exists base, old. by rw !insert_other.
  - exists m. split; [constructor|]. by apply renamed_loads.
  - exists (rows_after m c). split; [apply survived_all|]. by apply stored_loads, stored_change.
Qed.

(** C6: A table that has no files is changed by appends to its log and by
    compactions that write the rows there are. Whatever the changes were, the
    table loads with exactly their rows; and if the next change is cut short by a
    crash at any byte of an append, or before or behind the rename of a compaction,
    the table still loads, with the rows of all completed changes and those of a
    prefix of the interrupted append. *)
Theorem table_files_survive_crash table (dir dir' : Dir) cs c :
  dir !! tbl_path table = None → dir !! log_path table = None → all_allowed ∅ (cs ++ [c]) →
  crashed table (foldl (change table) dir cs) c dir' →
  loads table (foldl (change table) dir cs) (foldl rows_after ∅ cs) ∧
  ∃ m, survived (foldl rows_after ∅ cs) c m ∧ loads table dir' m.
Proof.
  intros Et El Ha Hc.
  assert (Hb : all_allowed ∅ cs ∧ allowed (foldl rows_after ∅ cs) c).
  { clear -Ha. revert Ha. generalize (∅ : gmap (list Z) (list Z)). induction cs as [|c' cs IH]; intros m; cbn; [by intros [? _]|].
    intros [Hc' Ha]. destruct (IH _ Ha). done. }
  destruct Hb as [Hb Hd]. pose proof (stored_changes table cs dir ∅ (stored_fresh table dir Et El) Hb) as Hs.
  split; [by apply stored_loads|]. exact (crash_loads _ _ _ _ _ Hs Hd Hc).
Qed.

Lemma dropped_lookup (dir : Dir) table :
  drop_files dir table !! tbl_path table = None ∧ drop_files dir table !! log_path table = None.
Proof.
  destruct (paths_differ table) as (Hp & _). unfold drop_files, log_truncate, table_delete. rw lookup_delete_eq.
  split; [|done]. by rw lookup_delete_ne; [congruence|]; rw lookup_delete_eq.
Qed.

(** ** What is lost after a crash *)

Definition tbl : list Z := chars "t".
Definition put (k v : string) : LogDelta := mkDelta OP_PUT (chars k) (chars v).
Definition long_row : LogDelta := put "x" "a value that is longer than the next record".

(** The files after an append to an empty table that was cut after [n] bytes. *)
Definition torn (n : nat) : Dir := <[log_path tbl := take n (log_bytes None [long_row])]> ∅.

(** The end of a cut record is not removed when the table is loaded, so that
    records appended behind it are not found: the row [b], whose append
    succeeded, is gone at the next load. *)
Theorem torn_tail_hides_appends :
  crashed tbl ∅ (Logged [long_row]) (torn 16) ∧
  log_load (torn 16) tbl = Ok [] ∧ log_load (log_append (torn 16) tbl [put "b" "2"]) tbl = Ok [].
Proof. split; [exact (crashed_append tbl ∅ [long_row] 16)|]. split; vm_compute; reflexivity. Qed.

(** A header that was cut is not completed by the next append, and the table can
    no longer be loaded. *)
Theorem torn_header_spoils_log :
  crashed tbl ∅ (Logged [long_row]) (torn 4) ∧ load_table_data (torn 4) tbl = Some (Ok []) ∧
  load_table_data (log_append (torn 4) tbl [put "b" "2"]) tbl = Some (Err (Internal "unsupported version")).
Proof. split; [exact (crashed_append tbl ∅ [long_row] 4)|]. split; vm_compute; reflexivity. Qed.

(** Two tables whose names differ in a character that no file name may have share
    their files: dropping one removes the rows of the other. *)
Theorem names_share_files :
  chars "a b" ≠ chars "a_b" ∧ ∀ dir : Dir, log_path (chars "a b") = log_path (chars "a_b") ∧
    load_table_data (drop_files dir (chars "a b")) (chars "a_b") = Some (Ok []).
Proof.
  split; [done|]. intros dir. split; [done|].
  change (drop_files dir (chars "a b")) with (drop_files dir (chars "a_b")).
  destruct (dropped_lookup dir (chars "a_b")) as [Et El]. unfold load_table_data, table_load, log_load. by rw Et El.
Qed.

End spec.

(** The theorem at a table that was written, compacted and then cut in an append. *)
Lemma table_files_survive_crash_witness :
  let cs := [Logged [put "a" "1"; put "b" "2"]; Compacted [(chars "a", chars "1"); (chars "b", chars "2")]] in
  let c := Logged [mkDelta OP_DEL (chars "a") []; put "c" "3"] in
  let dir := foldl (change tbl) ∅ cs in
  let dir' := <[log_path tbl := default [] (dir !! log_path tbl) ++ take 30 (log_bytes (dir !! log_path tbl) [mkDelta OP_DEL (chars "a") []; put "c" "3"])]> dir in
  ∃ m, survived (foldl rows_after ∅ cs) c m ∧ loads tbl dir' m.
Proof.
  refine (proj2 (table_files_survive_crash tbl ∅ _ _ _ _ _ _ (crashed_append tbl _ _ 30))); [done|done|].
  cbn [app all_allowed]. split; [by repeat constructor|]. split; [|split; [by repeat constructor|done]].
  cbn [allowed rows_after]. split; [by apply (bool_decide_unpack _); vm_compute|]. split; [by vm_compute|].
  split; [by repeat constructor|done].
Defined.
End TableFilesSpec.
