(* ===== verification/DbFilesSpec.v ===== *)
(** What the registry and the catalog files promise: reading them gives back what
    was written, and a store that is opened again on the files of another one has
    its databases, its catalog and its tables. *)
From S2P Require Import Prelude ByteOrder Value DiskManager Schema Tuple Sql Literals Like TableFiles TableFilesSpec DbFiles.
Import Value DiskManager.
Import Sql (chars, str).
Import Like (utf8_chars, utf8_bytes).
Import DbFiles.

Module DbFilesSpec.

(** ** UTF-8 *)

(** The values a [char] may have. *)
Definition scalar (c : Z) : Prop := 0 ≤ c < 1114112 ∧ ¬ 55296 ≤ c < 57344.

(** Decides a test on bytes. *)
Ltac solve_byte := unfold Tuple.Tuple.within, Tuple.Tuple.cont; Z.to_euclidean_division_equations; lia.
Ltac byte_test := match goal with
  |- context [if ?b then _ else _] => first [rw (_ : b = true); [solve_byte|] | rw (_ : b = false); [solve_byte|]]
  end.

Ltac range_test := match goal with
  |- context [if ?b then ?x else ?y] => rw (_ : (if b then x else y) = true); [repeat case_match; solve_byte|]
  end.

Lemma chars_char c s : scalar c → utf8_chars (Literals.utf8_char c ++ s) = c :: utf8_chars s.
Proof.
  intros [Hc _]. unfold Literals.utf8_char.
  destruct (Z.ltb_spec c 128) as [h1|h1]; [|destruct (Z.ltb_spec c 2048) as [h2|h2]; [|destruct (Z.ltb_spec c 65536) as [h3|h3]]];
    cbn [app utf8_chars].
  - byte_test. done.
  - do 2 byte_test. f_equal. solve_byte.
  - do 3 byte_test. f_equal. solve_byte.
  - do 3 byte_test. f_equal. solve_byte.
Qed.

Lemma valid_char c s : scalar c → Tuple.Tuple.utf8_valid (Literals.utf8_char c ++ s) = Tuple.Tuple.utf8_valid s.
Proof.
  intros [Hc Hs]. unfold Literals.utf8_char.
  destruct (Z.ltb_spec c 128) as [h1|h1]; [|destruct (Z.ltb_spec c 2048) as [h2|h2]; [|destruct (Z.ltb_spec c 65536) as [h3|h3]]];
    cbn [app Tuple.Tuple.utf8_valid].
  - byte_test. done.
  - do 2 byte_test. rw (_ : Tuple.Tuple.cont _ = true); [solve_byte|done].
  - do 3 byte_test. range_test.
    rw (_ : Tuple.Tuple.cont _ = true); [solve_byte|done].
  - do 3 byte_test. rw (_ : Tuple.Tuple.within _ _ _ = true); [solve_byte|]. range_test.
    rw (_ : Tuple.Tuple.cont (128 + c / 64 mod 64) = true); [solve_byte|]. rw (_ : Tuple.Tuple.cont _ = true); [solve_byte|done].
Qed.

Lemma utf8_round_trip (s : str) : Forall scalar s → utf8_chars (utf8_bytes s) = s ∧ Tuple.Tuple.utf8_valid (utf8_bytes s) = true.
Proof.
  unfold utf8_bytes. induction 1 as [|c s Hc Hs [IHc IHv]]; [done|]. cbn [mbind list_bind]. fold (mbind (M := list) Literals.utf8_char s).
  rw (chars_char c _ Hc) (valid_char c _ Hc). by rw IHc.
Qed.

(** ** Reading back *)

Section files.
Context {J : Type} `{!CatalogCodec J} {carries : DbCatalog J → Prop} `{!CatalogCodecLaws J carries} `{!Crc32} `{!HashOrder}.

(** Names that can be written: characters, and a length that fits its field. *)
Definition name_ok (n : str) : Prop := Forall scalar n ∧ zlen (utf8_bytes n) < 2 ^ 32.

Lemma read_names_back (l : list str) (out : gset str) :
  Forall name_ok l → read_names (length l) (l ≫= λ n, TableFiles.prefixed (utf8_bytes n)) out = Ok (list_to_set l ∪ out).
Proof.
  intros Hl. revert out. induction Hl as [|n l [Hs Hz] Hl IH]; intros out; cbn [length read_names mbind list_bind].
  - f_equal. set_solver.
  - fold (mbind (M := list) (λ n : str, TableFiles.prefixed (utf8_bytes n)) l). rw TableFilesSpec.read_prefixed_app; [done|].
    destruct (utf8_round_trip n Hs) as [-> ->]. rw IH. f_equal. cbn. set_solver.
Qed.

Definition registry_ok (r : DatabaseRegistry) : Prop := (∀ n, n ∈ databases r → name_ok n) ∧ Z.of_nat (size (databases r)) < 2 ^ 32.

(** The same, decided. *)
Definition scalarb (c : Z) : bool := (0 <=? c) && (c <? 1114112) && negb ((55296 <=? c) && (c <? 57344)).
Definition registry_okb (r : DatabaseRegistry) : bool :=
  forallb (λ n, forallb scalarb n && (zlen (utf8_bytes n) <? 2 ^ 32)) (elements (databases r)) && (Z.of_nat (size (databases r)) <? 2 ^ 32).

Lemma registry_decided r : registry_okb r = true → registry_ok r.
Proof.
  intros [Hn Hs]%andb_true_iff. split; [|lia]. intros n Hin%elem_of_elements%list_elem_of_In. rw forallb_forall in Hn.
  apply Hn, andb_true_iff in Hin as [Hc Hz]. split; [|lia]. apply Forall_forall. intros c Hc'%list_elem_of_In. rw forallb_forall in Hc.
  specialize (Hc c Hc'). unfold scalarb in Hc. unfold scalar. lia.
Qed.

Lemma list_databases_perm r : list_databases r ≡ₚ elements (databases r).
Proof. apply merge_sort_Permutation. Qed.

Lemma read_meta_back r : registry_ok r → read_meta (meta_bytes r) = Ok (databases r).
Proof.
  intros [Hn Hz]. unfold read_meta, meta_bytes. rw (TableFilesSpec.take_bytes_app SERVER_META_MAGIC). rw bool_decide_eq_true_2; [done|].
  cbn [negb]. rw (TableFilesSpec.read_le_app 4); [done|]. cbn [Z.ltb]. rw Z.ltb_irrefl.
  rw (TableFilesSpec.read_le_app 4); [unfold wrap; apply Z.mod_pos_bound; lia|]. unfold wrap. rw Z.mod_small; [lia|].
  rw (_ : Z.to_nat (Z.of_nat (size (databases r))) = length (list_databases r)); [rw list_databases_perm; unfold size, set_size; cbn; lia|].
  rw read_names_back.
  - apply Forall_forall. intros n. rw list_databases_perm elem_of_elements. apply Hn.
  - f_equal. rw (right_id_L ∅ (∪)). apply set_eq. intros n. by rw elem_of_list_to_set list_databases_perm elem_of_elements.
Qed.

Lemma catalog_load_saved (dir : TableFiles.Dir) (c : DbCatalog J) :
  dir !! catalog_path = Some (catalog_bytes c) → zlen (cat_to_json c) < 2 ^ 32 → carries c → catalog_load dir = Ok c.
Proof.
  intros E Hz Hc. unfold catalog_load. rw E. unfold catalog_bytes. rw (TableFilesSpec.take_bytes_app CATALOG_MAGIC). rw bool_decide_eq_true_2; [done|].
  cbn [negb]. rw (TableFilesSpec.read_le_app 4); [done|]. cbn [negb orb Z.eqb Pos.eqb]. unfold catalog_payload.
  rw TableFilesSpec.read_prefixed_app; [done|]. rw Z.eqb_refl.
  pose proof (TableFilesSpec.read_le_app 4 (crc32 (cat_to_json c)) []) as Hr. rw app_nil_r in Hr. rw Hr; [apply crc32_range|].
  by rw Z.eqb_refl cat_json_round_trip.
Qed.

(** ** Opening again *)

(** The files of a store say what the store has in memory. *)
Record in_files (ds : DiskStore J) : Prop := {
  if_meta : meta (root ds) = Some (meta_bytes (registry ds));
  if_default : default_db (registry ds) ∈ databases (registry ds);
  if_dir : is_Some (dirs (root ds) !! db_dir (current_db ds));
  if_catalog : store_dir ds !! catalog_path = Some (catalog_bytes (catalog ds)) ∨ (store_dir ds !! catalog_path = None ∧ catalog ds = empty);
}.

(** The sizes of the files fit, and JSON carries the catalog. *)
Definition files_fit (ds : DiskStore J) : Prop := registry_ok (registry ds) ∧ zlen (cat_to_json (catalog ds)) < 2 ^ 32 ∧ carries (catalog ds).

Lemma load_in_files ds : in_files ds → files_fit ds → catalog_load (store_dir ds) = Ok (catalog ds).
Proof.
  intros [_ _ _ Hc] (_ & Hz & Hcar). destruct Hc as [Hc|[Hc He]]; [by apply catalog_load_saved|]. unfold catalog_load. rw Hc. by rw He.
Qed.

(** A store is opened again on the files of another one that has its default
    database in use: it is the same store. *)
Lemma store_reopens ds : in_files ds → files_fit ds → current_db ds = default_db (registry ds) → store_open (root ds) (current_db ds) = (root ds, Ok ds).
Proof.
  intros Hf Hfit Hcur. pose proof (load_in_files ds Hf Hfit) as Hload. destruct Hf as [Hm Hd [d Hdir] _], Hfit as (Hr & _ & _).
  destruct ds as [[m ds] [dbs def] c cur]. cbn in *. subst cur m.
  unfold store_open, registry_open, ensure_db_dir, write_meta. cbn [meta dirs]. rw (read_meta_back _ Hr). cbn [databases].
  rw (_ : {[def]} ∪ dbs = dbs); [set_solver|]. rw Hdir. cbn [default from_option id]. rw insert_id; [done|]. 
  unfold store_dir in Hload. cbn in Hload. by rw Hload.
Qed.

(** ** Operations *)

(** What the engine does to a store. *)
Inductive Op : Type :=
  | CreateDb (n : str)
  | DropDb (n : str)
  | SwitchDb (n : str)
  | UpsertTable (n : str) (id : Z) (sch : Schema.Schema (J := J)) (seqs : list (str * Z))
  | UpsertIndexes (n : str) (defs : list IndexDef)
  | DropTable (n : str)
  | FlushData (n : str) (entries : list (list Z * list Z))
  | AppendLog (n : str) (l : list TableFiles.LogDelta)
  | FlushSequences (n : str) (seqs : list (str * Z)).

Definition apply_op (ds : DiskStore J) (o : Op) : DiskStore J :=
  match o with
  | CreateDb n => (create_database n ds).1
  | DropDb n => (drop_database n ds).1
  | SwitchDb n => (switch_database n ds).1
  | UpsertTable n id sch seqs => upsert_table n id sch seqs ds
  | UpsertIndexes n defs => upsert_table_indexes n defs ds
  | DropTable n => drop_table n ds
  | FlushData n entries => flush_table_data n entries ds
  | AppendLog n l => append_table_log n l ds
  | FlushSequences n seqs => flush_table_sequences n seqs ds
  end.

(** A database that is dropped is not the one in use and shares its directory
    neither with that nor with the default one. *)
Definition op_apart (def : str) (ds : DiskStore J) (o : Op) : Prop :=
  match o with DropDb n => n = def ∨ (db_dir n ≠ db_dir def ∧ db_dir n ≠ db_dir (current_db ds)) | _ => True end.

(** The store on an empty directory. *)
Definition fresh (def : str) : DiskStore J :=
  let r := mkRegistry {[def]} def in mkStore (mkRoot (Some (meta_bytes r)) {[db_dir def := ∅]}) r empty def.

(** The default database is in use and its files are there. *)
Definition kept (def : str) (ds : DiskStore J) : Prop := in_files ds ∧ current_db ds = def ∧ default_db (registry ds) = def.

Lemma store_dir_set (dir : TableFiles.Dir) (ds : DiskStore J) : store_dir (set_dir dir ds) = dir.
Proof. unfold store_dir, dir_of. cbn. by rw lookup_insert_eq. Qed.

Lemma kept_dir def (dir : TableFiles.Dir) (ds : DiskStore J) : kept def ds → dir !! catalog_path = store_dir ds !! catalog_path → kept def (set_dir dir ds).
Proof.
  intros ([Hm Hd Hdir Hc] & Hcur & Hdef) He. split; [|done]. split; [done|done| |].
  - cbn. rw lookup_insert_eq. by eexists.
  - rw store_dir_set He. exact Hc.
Qed.

Lemma kept_save def (c : DbCatalog J) (ds : DiskStore J) : kept def ds → kept def (save_catalog c ds).
Proof.
  intros ([Hm Hd Hdir _] & Hcur & Hdef). split; [|done]. split; [done|done| |].
  - cbn. rw lookup_insert_eq. by eexists.
  - left. unfold save_catalog. rw store_dir_set. unfold catalog_save. by rw lookup_insert_eq.
Qed.

(** The files of tables have other names than the catalog. *)
Lemma table_files_differ (t : str) : TableFiles.tbl_path t ≠ catalog_path ∧ TableFiles.tmp_path t ≠ catalog_path ∧ TableFiles.log_path t ≠ catalog_path.
Proof. done. Qed.

Lemma compact_catalog (dir : TableFiles.Dir) t entries : TableFiles.compact_table dir t entries !! catalog_path = dir !! catalog_path.
Proof.
  destruct (table_files_differ t) as (Ha & Hb & Hc). unfold TableFiles.compact_table, TableFiles.log_truncate, TableFiles.table_save.
  rw lookup_delete_ne; [done|]. rw lookup_insert_ne; [done|]. by rw lookup_delete_ne.
Qed.

Lemma append_catalog (dir : TableFiles.Dir) t l : TableFiles.log_append dir t l !! catalog_path = dir !! catalog_path.
Proof. destruct (table_files_differ t) as (_ & _ & Hc). unfold TableFiles.log_append. destruct l; [done|]. by rw lookup_insert_ne. Qed.

Lemma drop_catalog (dir : TableFiles.Dir) t : TableFiles.drop_files dir t !! catalog_path = dir !! catalog_path.
Proof.
  destruct (table_files_differ t) as (Ha & _ & Hc). unfold TableFiles.drop_files, TableFiles.log_truncate, TableFiles.table_delete.
  rw lookup_delete_ne; [done|]. by rw lookup_delete_ne.
Qed.

Lemma kept_sequences def n seqs (ds : DiskStore J) : kept def ds → kept def (flush_table_sequences n seqs ds).
Proof. unfold flush_table_sequences. case_match. case_match; [by apply kept_save|done]. Qed.
Lemma kept_append def n l (ds : DiskStore J) : kept def ds → kept def (append_table_log n l ds).
Proof. intros Hk. apply kept_dir; [done|]. apply append_catalog. Qed.
Lemma kept_flush def n entries (ds : DiskStore J) : kept def ds → kept def (flush_table_data n entries ds).
Proof. intros Hk. apply kept_dir; [done|]. apply compact_catalog. Qed.

Lemma kept_fresh def : kept def (fresh def).
Proof.
  split; [|done]. split; cbn; [done|set_solver|rw lookup_singleton_eq; by eexists|]. right. split; [|done].
  unfold store_dir, dir_of. cbn. by rw lookup_singleton_eq.
Qed.

(** ** Any operations *)

(** A catalog that can be written and read: its size fits and JSON carries it. *)
Definition cat_fits (c : DbCatalog J) : Prop := zlen (cat_to_json c) < 2 ^ 32 ∧ carries c.
Definition dir_fits (dir : TableFiles.Dir) : Prop :=
  dir !! catalog_path = None ∨ ∃ c, dir !! catalog_path = Some (catalog_bytes c) ∧ cat_fits c.

(** The files say what the store has in memory, and every directory has a catalog
    that can be read, or none. *)
Record sound (def : str) (ds : DiskStore J) : Prop := {
  sd_meta : meta (root ds) = Some (meta_bytes (registry ds));
  sd_default : default_db (registry ds) = def ∧ def ∈ databases (registry ds) ∧ is_Some (dirs (root ds) !! db_dir def);
  sd_current : current_db ds ∈ databases (registry ds);
  sd_catalog : (store_dir ds !! catalog_path = Some (catalog_bytes (catalog ds)) ∧ cat_fits (catalog ds)) ∨
               (store_dir ds !! catalog_path = None ∧ catalog ds = empty);
  sd_dirs : ∀ x dir, dirs (root ds) !! x = Some dir → dir_fits dir;
}.

Lemma dir_fits_same (dir dir' : TableFiles.Dir) : dir !! catalog_path = dir' !! catalog_path → dir_fits dir' → dir_fits dir.
Proof. unfold dir_fits. by intros ->. Qed.

Lemma fitting_dir def (ds : DiskStore J) n : sound def ds → dir_fits (dir_of (root ds) n).
Proof. intros Hs. unfold dir_of. destruct (dirs (root ds) !! db_dir n) as [dir|] eqn:E; [exact (sd_dirs _ _ Hs _ _ E)|by left]. Qed.

Lemma load_fitting (dir : TableFiles.Dir) : dir_fits dir →
  ∃ c, catalog_load dir = Ok c ∧ ((dir !! catalog_path = Some (catalog_bytes c) ∧ cat_fits c) ∨ (dir !! catalog_path = None ∧ c = empty)).
Proof.
  intros [Hn|(c & Hc & Hz & Hcar)].
  - exists empty. split; [unfold catalog_load; by rw Hn|by right].
  - exists c. split; [by apply catalog_load_saved|by left].
Qed.

Lemma sound_set_dir def (dir : TableFiles.Dir) (ds : DiskStore J) :
  sound def ds → dir !! catalog_path = store_dir ds !! catalog_path → sound def (set_dir dir ds).
Proof.
  intros Hs He. pose proof (fitting_dir def ds (current_db ds) Hs) as Hfit. destruct Hs as [Hm (Hd & Hin & Hdir) Hcur Hc Hds]. split; [done| |done|..].
  - split_and!; [done..|]. unfold save_catalog, set_dir; cbn [root dirs current_db].
    destruct (decide (db_dir (current_db ds) = db_dir def)) as [He'|Hne]; [rw He' lookup_insert_eq; by eexists|by rw lookup_insert_ne].
  - rw store_dir_set He. exact Hc.
  - unfold save_catalog, set_dir; cbn [root dirs current_db]. intros x d. destruct (decide (db_dir (current_db ds) = x)) as [<-|Hne]; [|rw lookup_insert_ne; [done|]; apply Hds].
    rw lookup_insert_eq. intros [= <-]. by apply (dir_fits_same _ _ He).
Qed.

Lemma sound_save def (c : DbCatalog J) (ds : DiskStore J) : cat_fits c → sound def ds → sound def (save_catalog c ds).
Proof.
  intros Hf [Hm (Hd & Hin & Hdir) Hcur Hc Hds]. assert (catalog_save (store_dir ds) c !! catalog_path = Some (catalog_bytes c)) as Hs.
  { unfold catalog_save. by rw lookup_insert_eq. }
  split; [done| |done|..].
  - split_and!; [done..|]. unfold save_catalog, set_dir; cbn [root dirs current_db].
    destruct (decide (db_dir (current_db ds) = db_dir def)) as [He'|Hne]; [rw He' lookup_insert_eq; by eexists|by rw lookup_insert_ne].
  - left. split; [|done]. unfold save_catalog. by rw store_dir_set.
  - unfold save_catalog, set_dir; cbn [root dirs current_db]. intros x d. destruct (decide (db_dir (current_db ds) = x)) as [<-|Hne]; [|rw lookup_insert_ne; [done|]; apply Hds].
    rw lookup_insert_eq. intros [= <-]. right. by exists c.
Qed.

Lemma sound_create def n (ds : DiskStore J) : sound def ds → sound def (create_database n ds).1.
Proof.
  intros Hs. pose proof (fitting_dir def ds n Hs) as Hfit. unfold create_database, create_db.
  destruct (bool_decide (n = []) || (128 <? zlen (utf8_bytes n))); [by destruct ds|]. destruct (contains (registry ds) n); [by destruct ds|].
  destruct Hs as [Hm (Hd & Hin & Hdir) Hcur Hc Hds].
  assert (∀ x, default ∅ (<[db_dir n := default ∅ (dirs (root ds) !! db_dir n)]> (dirs (root ds)) !! x) = default ∅ (dirs (root ds) !! x)) as Hsame.
  { intros x. destruct (decide (db_dir n = x)) as [<-|Hne]; [by rw lookup_insert_eq|by rw lookup_insert_ne]. }
  split; cbn [fst root registry catalog current_db meta dirs write_meta ensure_db_dir databases default_db]; [done| |set_solver|..].
  - split_and!; [done|set_solver|]. destruct (decide (db_dir n = db_dir def)) as [He'|Hne]; [rw He' lookup_insert_eq; by eexists|by rw lookup_insert_ne].
  - unfold store_dir, dir_of in *. cbn. by rw Hsame.
  - intros x d. destruct (decide (db_dir n = x)) as [<-|Hne]; [|rw lookup_insert_ne; [done|]; apply Hds].
    rw lookup_insert_eq. intros [= <-]. exact Hfit.
Qed.

Lemma sound_drop def n (ds : DiskStore J) :
  n = def ∨ (db_dir n ≠ db_dir def ∧ db_dir n ≠ db_dir (current_db ds)) → sound def ds → sound def (drop_database n ds).1.
Proof.
  intros Hn Hs. pose proof Hs as [Hm (Hd & Hin & Hdir) Hcur Hc Hds]. unfold drop_database, drop_db.
  destruct (bool_decide (n = default_db (registry ds))) eqn:Hb; [by destruct ds|]. apply bool_decide_eq_false in Hb.
  destruct (negb (contains (registry ds) n)); [by destruct ds|]. destruct Hn as [Hn|[Hn Hn']]; [congruence|].
  assert (current_db ds ≠ n) as Hne by (intros He; by rw He in Hn').
  split; cbn [fst root registry catalog current_db meta dirs write_meta databases default_db]; [done| |set_solver|..].
  - split_and!; [done|set_solver|]. by rw lookup_delete_ne.
  - unfold store_dir, dir_of in *. cbn. by rw lookup_delete_ne.
  - intros x d [_ Hx]%lookup_delete_Some. exact (Hds x d Hx).
Qed.

Lemma sound_switch def n (ds : DiskStore J) : sound def ds → sound def (switch_database n ds).1.
Proof.
  intros Hs. unfold switch_database. destruct (contains (registry ds) n) eqn:Hc; [|done]. apply bool_decide_eq_true in Hc. cbn [negb].
  destruct (load_fitting _ (fitting_dir def ds n Hs)) as (c & -> & Hcat). destruct Hs as [Hm Hd _ _ Hds]. by split.
Qed.

(** The operations keep apart, and every catalog written can be read. *)
Fixpoint ops_ok (def : str) (ops : list Op) (ds : DiskStore J) : Prop :=
  match ops with
  | [] => True
  | o :: ops' => op_apart def ds o ∧ cat_fits (catalog (apply_op ds o)) ∧ ops_ok def ops' (apply_op ds o)
  end.

Lemma sound_op def o (ds : DiskStore J) : op_apart def ds o → cat_fits (catalog (apply_op ds o)) → sound def ds → sound def (apply_op ds o).
Proof.
  intros Ho Hf Hs. destruct o as [n|n|n|n id sch seqs|n defs|n|n entries|n l|n seqs]; cbn [apply_op] in *.
  - by apply sound_create.
  - by apply sound_drop.
  - by apply sound_switch.
  - by apply sound_save.
  - unfold upsert_table_indexes in *. case_match. case_match; [by apply sound_save|done].
  - unfold drop_table in *. case_match. case_match; [|done]. apply sound_set_dir; [by apply sound_save|]. apply drop_catalog.
  - apply sound_set_dir; [done|]. apply compact_catalog.
  - apply sound_set_dir; [done|]. apply append_catalog.
  - unfold flush_table_sequences in *. case_match. case_match; [by apply sound_save|done].
Qed.

Lemma sound_ops def ops (ds : DiskStore J) : ops_ok def ops ds → sound def ds → sound def (foldl apply_op ds ops).
Proof.
  revert ds. induction ops as [|o ops IH]; intros ds; [done|]. cbn [ops_ok foldl]. intros (Ha & Hf & Hops) Hs. apply IH; [done|]. by apply sound_op.
Qed.

Lemma sound_fresh def : sound def (fresh def).
Proof.
  split; cbn; [done| |set_solver|..].
  - split_and!; [done|set_solver|rw lookup_singleton_eq; by eexists].
  - right. split; [|done]. unfold store_dir, dir_of. cbn. by rw lookup_singleton_eq.
  - intros x dir [_ <-]%lookup_singleton_Some. by left.
Qed.

(** C7: After any operations on a store, USE of other databases among them, a store
    that is opened on the files has the same databases and the same directories; when
    it switches to the database that was in use it is the same store, with the same
    catalog, and at once if that is the default database. The conditions: a database
    that is dropped is not the one in use and shares its directory neither with it nor
    with the default one ([op_apart]; else its files are gone,
    [drop_removes_other_database]); the catalogs written, and in the end the list of
    databases, have sizes that fit and are carried by JSON ([ops_ok], [registry_ok]). *)
Theorem store_survives_restart def ops :
  let ds := foldl apply_op (fresh def) ops in
  ops_ok def ops (fresh def) → registry_ok (registry ds) →
  ∃ ds0, store_open (root ds) def = (root ds, Ok ds0) ∧ registry ds0 = registry ds ∧
    switch_database (current_db ds) ds0 = (ds, Ok ()) ∧ (current_db ds = def → ds0 = ds).
Proof.
  intros ds Hops Hreg. pose proof (sound_ops def ops _ Hops (sound_fresh def)) as Hs. fold ds in Hs. clearbody ds. clear Hops ops.
  destruct (load_fitting _ (fitting_dir def ds def Hs)) as (c0 & Hload0 & Hcat0). destruct Hs as [Hm (Hd & Hin & [d Hdir]) Hcur Hc Hds].
  assert (catalog_load (store_dir ds) = Ok (catalog ds)) as Hload.
  { destruct Hc as [[Hc [Hz Hcar]]|[Hc He]]; [by apply catalog_load_saved|]. unfold catalog_load. rw Hc. by rw He. }
  exists (mkStore (root ds) (registry ds) c0 def). destruct ds as [[m ds] [dbs def'] c cur]. cbn in *. subst def' m. split_and!; [|done|..].
  - unfold store_open, registry_open, ensure_db_dir, write_meta. cbn [meta dirs]. rw (read_meta_back _ Hreg). cbn [databases].
    rw (_ : {[def]} ∪ dbs = dbs); [set_solver|]. rw Hdir. cbn [default from_option id]. rw insert_id; [done|]. by rw Hload0.
  - unfold switch_database, contains. cbn [registry databases root]. rw bool_decide_eq_true_2; [done|]. cbn [negb].
    unfold store_dir in Hload. cbn in Hload. by rw Hload.
  - intros ->. unfold store_dir in Hload. cbn in Hload. rw Hload in Hload0. by injection Hload0 as ->.
Qed.
End files.

(** ** A store *)

Section example.
#[local] Existing Instance DiskManager.sum_crc32.

Definition sample_schema : Schema.Schema (J := unit) :=
  Schema.Schema.new "t" [Schema.Schema.with_primary_key (Schema.Schema.column_new "id" TInt64)].
Definition sample_catalog : DbCatalog unit := mkDbCatalog [mkTableCatalog (chars "t") 1 sample_schema [(chars "id", 5)] []].

(** A codec that carries the empty catalog and this one. *)
#[local] Instance sample_codec : CatalogCodec unit := {
  cat_to_json c := [zlen (tables c)];
  cat_from_json bytes := match bytes with [0] => Some empty | [1] => Some sample_catalog | _ => None end;
}.
Definition sample_carries (c : DbCatalog unit) : Prop := c = empty ∨ c = sample_catalog.
#[local] Instance sample_codec_laws : CatalogCodecLaws unit sample_carries.
Proof. split. by intros c [->| ->]. Qed.

Definition sample_ops : list (Op (J := unit)) :=
  [CreateDb (chars "other"); UpsertTable (chars "t") 1 sample_schema [(chars "id", 5)]; FlushData (chars "t") []; AppendLog (chars "t") [TableFiles.mkDelta 0 [1] [2; 3]];
   FlushSequences (chars "t") [(chars "id", 5)]; DropDb (chars "gone"); SwitchDb (chars "other")].

Lemma store_survives_restart_witness :
  let ds := foldl apply_op (fresh (chars "main")) sample_ops in
  ops_ok (carries := sample_carries) (chars "main") sample_ops (fresh (chars "main")) ∧
  ∃ ds0, store_open (root ds) (chars "main") = (root ds, Ok ds0) ∧ registry ds0 = registry ds ∧
    switch_database (chars "other") ds0 = (ds, Ok ()) ∧ (current_db ds = chars "main" → ds0 = ds).
Proof.
  intros ds. assert (ops_ok (carries := sample_carries) (chars "main") sample_ops (fresh (chars "main"))) as Ha.
  { unfold sample_ops. cbn [ops_ok].
    do 7 (split; [first [exact I | right; split; vm_compute; discriminate]|];
          split; [split; [vm_compute; reflexivity|first [left; vm_compute; reflexivity | right; vm_compute; reflexivity]]|]). exact I. }
  split; [exact Ha|]. apply (store_survives_restart (carries := sample_carries) (chars "main") sample_ops Ha).
  apply registry_decided. vm_compute. reflexivity.
Defined.

(** Two databases whose names differ in a letter that file names do not have share
    their directory; dropping one removes the files of the other, which stays in the
    registry. *)
Theorem drop_removes_other_database :
  let both := foldl apply_op (fresh (chars "main")) [CreateDb [233]; CreateDb [232]] in
  let after := apply_op both (DropDb [233]) in
  contains (registry after) [232] = true ∧ is_Some (dirs (root both) !! db_dir [232]) ∧ dirs (root after) !! db_dir [232] = None.
Proof. split; [vm_compute; reflexivity|]. split; [vm_compute; by eexists|vm_compute; reflexivity]. Qed.
End example.
End DbFilesSpec.
