(* ===== verification/Catalog.v ===== *)
(** The catalog in memory ([bytedb-core/src/catalog/database.rs], [table.rs] and
    [index_catalog.rs]): the tables of a database by name, and the numbered
    indexes. *)
From S2P Require Import Prelude Value Schema Sql Eval.
Import Sql (str).
Import Eval (key_of).

Module Catalog.

Section catalog.
Context {J : Type} `{!HashOrder}.
Local Abbreviation Schema := (Schema.Schema (J := J)).

Record TableMeta : Type := mkMeta {
  meta_name : str;
  meta_schema : Schema;
  table_id : Z;
  index_ids : list Z;
}.

Definition meta_new (name : str) (schema : Schema) (id : Z) : TableMeta := mkMeta name schema id [].
Definition add_index (t : TableMeta) (index_id : Z) : TableMeta := mkMeta (meta_name t) (meta_schema t) (table_id t) (index_ids t ++ [index_id]).

Record Database : Type := mkDatabase { db_name : str; db_metas : gmap str TableMeta }.

Definition database_new (name : str) : Database := mkDatabase name ∅.

Definition create_table (db : Database) (meta : TableMeta) : Database * result () :=
  if bool_decide (is_Some (db_metas db !! meta_name meta)) then (db, Err (TableAlreadyExists (key_of (meta_name meta))))
  else (mkDatabase (db_name db) (<[meta_name meta := meta]> (db_metas db)), Ok ()).

Definition drop_table (db : Database) (name : str) : Database * result () :=
  match db_metas db !! name with
  | None => (db, Err (TableNotFound (key_of name)))
  | Some _ => (mkDatabase (db_name db) (delete name (db_metas db)), Ok ())
  end.

Definition get_table (db : Database) (name : str) : result TableMeta :=
  match db_metas db !! name with Some t => Ok t | None => Err (TableNotFound (key_of name)) end.

Definition table_exists (db : Database) (name : str) : bool := bool_decide (is_Some (db_metas db !! name)).
Definition list_tables (db : Database) : list str := hash_keys (db_metas db).

(** ** Indexes *)

Record IndexMeta : Type := mkIndexMeta {
  im_name : str;
  im_id : Z;
  im_table : str;
  im_columns : list str;
  im_unique : bool;
}.

Record IndexCatalog : Type := mkIndexCatalog { indexes : gmap str IndexMeta; next_id : Z }.

Definition index_catalog_new : IndexCatalog := mkIndexCatalog ∅ 1.

(** The counter wraps around. *)
Definition create_index (c : IndexCatalog) (name table : str) (columns : list str) (unique : bool) : IndexCatalog * IndexMeta :=
  let meta := mkIndexMeta name (next_id c) table columns unique in
  (mkIndexCatalog (<[name := meta]> (indexes c)) (wrap 32 (next_id c + 1)), meta).

Definition get_index (c : IndexCatalog) (name : str) : option IndexMeta := indexes c !! name.
Definition get_table_indexes (c : IndexCatalog) (table : str) : list IndexMeta :=
  filter (λ i, im_table i = table) (hash_values (indexes c)).
Definition drop_index (c : IndexCatalog) (name : str) : IndexCatalog * bool :=
  (mkIndexCatalog (delete name (indexes c)) (next_id c), bool_decide (is_Some (indexes c !! name))).

(** ** Facts *)

(** A table is there from its creation until it is dropped. *)
Lemma created_found db meta db' : create_table db meta = (db', Ok ()) →
  get_table db' (meta_name meta) = Ok meta ∧ ∀ n, n ≠ meta_name meta → get_table db' n = get_table db n.
Proof.
  unfold create_table, get_table. case_bool_decide; intros [= <-]. cbn. rw lookup_insert_eq. split; [done|].
  intros n Hn. rw lookup_insert_ne; [congruence|done].
Qed.

Lemma dropped_gone db name db' : drop_table db name = (db', Ok ()) →
  table_exists db' name = false ∧ ∀ n, n ≠ name → get_table db' n = get_table db n.
Proof.
  unfold drop_table, get_table, table_exists. destruct (db_metas db !! name); intros [= <-]. cbn. rw lookup_delete_eq.
  split; [done|]. intros n Hn. rw lookup_delete_ne; [congruence|done].
Qed.
End catalog.
Arguments TableMeta J : clear implicits.
Arguments Database J : clear implicits.
End Catalog.
