(* ===== verification/Ddl.v ===== *)
(** Statements on tables, indexes and databases of
    [bytedb-query/src/executor/engine.rs]: CREATE and DROP TABLE, CREATE and DROP
    INDEX, ALTER TABLE, TRUNCATE, the SHOW statements, databases and ANALYZE, and
    the replay of the write-ahead log.

    The catalog in memory is one for all databases; the tables and sequences of the
    databases that are not in use are kept aside. There is no disk store. *)
From S2P Require Import Prelude ByteOrder Value OrderKey OrderedIndex SecondaryIndex Schema Tuple Transaction VersionStore Wal Civil Literals Sql Lexer Like Strings Float64 Eval Scan Collections Stats Plan Cost Optimizer Exec Window Join Aggregate TableAccess Subquery Query DbFiles Catalog Dml.
Import Value OrderKey Sql Like Strings Eval Collections Plan Exec TableAccess Query Dml.

Module Ddl.

(** [DEFAULT_MCV_COUNT] and [DEFAULT_HISTOGRAM_BUCKETS]. *)
Definition DEFAULT_MCV_COUNT : nat := 10.
Definition DEFAULT_HISTOGRAM_BUCKETS : Z := 10.

(** [String::cmp]. *)
Definition str_le (a b : str) : Prop := bcmp a b ≠ Gt.
#[export] Instance str_le_dec a b : Decision (str_le a b).
Proof. unfold str_le. apply _. Defined.
Definition sort_names (l : list str) : list str := merge_sort str_le l.

Section ddl.
Context {J T : Type} `{!JsonShow J, !JsonRead J} `{!Codecs} `{Unicode} `{FloatText} `{!Engine J} `{!KvTree T} `{!HashOrder} `{!Unordered} `{!Libm}.
Local Abbreviation V := (Value J).
Local Abbreviation row := (list V).
Local Abbreviation Schema := (Schema.Schema (J := J)).
Local Abbreviation SColumn := (Schema.Column (J := J)).
Local Abbreviation SIndex := (SecondaryIndex.SecondaryIndex T).
Local Abbreviation result := (ExecutionResult J).
Local Abbreviation entry := (list Z * list Z)%type.

(** ** State *)

Record System : Type := mkSystem {
  world_of : World J T;
  database : Catalog.Database J;
  stats : Cost.StatsCatalog (J := J);
  databases : gset str;
  current_db : str;
  db_tables : gmap str (Tables J T * gmap (str * string) Z);
}.

Local Abbreviation S := (Db_of System).

Definition s_fail {A} (e : QueryError) : S A := λ st, Some (QErr e, st).
Definition s_panic {A} (o : option A) : S A := λ st, a ← o; Some (QOk a, st).
Definition system : S System := λ st, Some (QOk st.1, st).
Definition modify (f : System → System) : S () := λ st, Some (QOk (), (f st.1, st.2)).
Definition in_world {A} (m : Db_of (World J T) A) : S A := λ '(y, s),
  '(r, (w, s)) ← m (world_of y, s); Some (r, (mkSystem w (database y) (stats y) (databases y) (current_db y) (db_tables y), s)).

Definition set_database (d : Catalog.Database J) (y : System) : System :=
  mkSystem (world_of y) d (stats y) (databases y) (current_db y) (db_tables y).
Definition set_stats (m : Cost.StatsCatalog (J := J)) (y : System) : System :=
  mkSystem (world_of y) (database y) m (databases y) (current_db y) (db_tables y).
Definition set_databases (d : gset str) (m : gmap str (Tables J T * gmap (str * string) Z)) (y : System) : System :=
  mkSystem (world_of y) (database y) (stats y) d (current_db y) m.

(** An operation of the catalog; its error is reported as text. *)
Definition in_catalog (f : Catalog.Database J → Catalog.Database J * Prelude.result ()) : S (option QueryError) := λ '(y, s),
  let '(d, r) := f (database y) in
  Some (QOk (match r with Ok _ => None | Err e => Some (Execution (core_error_text e)) end), (set_database d y, s)).

Definition no_table (name : str) : QueryError := Execution (chars "Table '" ++ name ++ chars "' not found").

(** ** CREATE TABLE *)

Definition column_of (c : ColumnDef) : SColumn :=
  let col := Schema.column_new (key_of (Sql.col_name c)) (Sql.col_data_type c) in
  let col := if Sql.nullable c then col else Schema.not_null col in
  let col := if Sql.primary_key c then Schema.with_primary_key col else col in
  let col := if Sql.col_unique c then Schema.with_unique col else col in
  let col := if Sql.auto_increment c then Schema.with_auto_increment col else col in
  let col := match Sql.default_value c with Some e => Schema.with_default col (Scan.eval_expr_simple e) | None => col end in
  match Sql.max_length c with Some len => Schema.with_max_length col len | None => col end.

Definition ast_fk_action_to_core (a : FkAction) : Schema.FkAction :=
  match a with FkRestrict => Schema.Restrict | FkCascade => Schema.Cascade | FkSetNull => Schema.SetNull end.

Definition table_fk (fk : ForeignKeyDef) : Schema.ForeignKey :=
  Schema.mkFk (key_of <$> Sql.fk_columns fk) (key_of (Sql.ref_table fk)) (key_of <$> Sql.ref_columns fk)
    (ast_fk_action_to_core (Sql.fk_on_delete fk)) (ast_fk_action_to_core (Sql.fk_on_update fk)).

Definition column_fk (c : ColumnDef) : option Schema.ForeignKey :=
  '(rt, rc) ← Sql.references c;
  Some (Schema.mkFk [key_of (Sql.col_name c)] (key_of rt) [key_of rc]
          (ast_fk_action_to_core (Sql.col_on_delete c)) (ast_fk_action_to_core (Sql.col_on_update c))).

(** The constraints of the table, then those of its columns. *)
Definition all_checks (ct : CreateTableStmt) : list Expr := Sql.check_constraints ct ++ omap Sql.check (ct_columns ct).

Definition schema_of (ct : CreateTableStmt) : Schema :=
  let columns := column_of <$> ct_columns ct in
  Schema.mkSchema columns (key_of (ct_name ct)) ((λ e, key_of (expr_to_sql e)) <$> all_checks ct)
    ((table_fk <$> Sql.foreign_keys ct) ++ omap column_fk (ct_columns ct)) (Schema.collect_map columns).

(** The sequences of a table with this name are replaced. *)
Definition without_sequences (table : str) (m : gmap (str * string) Z) : gmap (str * string) Z := filter (λ kv, kv.1.1 ≠ table) m.
Definition fresh_sequences (table : str) (schema : Schema) (m : gmap (str * string) Z) : gmap (str * string) Z :=
  foldl (λ m c, if Schema.auto_increment c then <[(table, Schema.col_name c) := 1]> m else m) (without_sequences table m) (Schema.columns schema).

Definition pk_tree (table : str) : T := kt_new (key_of table +:+ "_pk") 128.

Definition exec_create_table (ct : CreateTableStmt) : S result :=
  let schema := schema_of ct in
  y ← system;
  let len := wrap 32 (Z.of_nat (size (tables (world_of y)))) in
  table_id ← s_panic (if len + 1 <? 2 ^ 32 then Some (len + 1) else None);
  failed ← in_catalog (λ d, Catalog.create_table d (Catalog.meta_new (ct_name ct) schema table_id));
  match failed with
  | Some e => s_fail e
  | None =>
      _ ← in_world (change (λ w, set_sequences (fresh_sequences (ct_name ct) schema (sequences w)) w));
      _ ← in_world (set_table (ct_name ct) (mkTable schema (pk_tree (ct_name ct)) VersionStore.new (all_checks ct) []));
      mret (OkText (chars "Table " ++ ct_name ct ++ chars " created"))
  end.

Definition exec_drop_table (name : str) (if_exists : bool) : S result :=
  failed ← in_catalog (λ d, Catalog.drop_table d name);
  match failed with
  | Some e => if if_exists then mret (OkText (chars "OK")) else s_fail e
  | None =>
      _ ← in_world (change (λ w, mkWorld (delete name (tables w)) (without_sequences name (sequences w)) (delete name (rowids w)) (txn_undo w) (wal w) (deltas w)));
      _ ← modify (λ y, set_stats (delete name (stats y)) y);
      mret (OkText (chars "Table " ++ name ++ chars " dropped"))
  end.

(** ** Indexes *)

(** The loop that fills a new index; rows that cannot be read or are too short are
    left out. *)
Fixpoint fill_index (sec : SIndex) (rows : list entry) : option (SIndex * Prelude.result ()) :=
  match rows with
  | [] => Some (sec, Ok ())
  | (pk, data) :: rows' =>
      match (values ← Tuple.deserialize_to_vec (J := J) data; key_values sec values) with
      | None => fill_index sec rows'
      | Some key_vals =>
          '(sec, r) ← SecondaryIndex.insert sec key_vals pk;
          match r with Ok _ => fill_index sec rows' | Err e => Some (sec, Err e) end
      end
  end.

Definition exec_create_index (ci : CreateIndexStmt) : S result :=
  y ← system;
  match tables (world_of y) !! ci_table ci with
  | None => s_fail (no_table (ci_table ci))
  | Some td =>
      if existsb (λ s, bool_decide (SecondaryIndex.name s = key_of (ci_name ci))) (secondary_indexes td)
      then s_fail (Execution (chars "Index '" ++ ci_name ci ++ chars "' already exists"))
      else
        match mapM (λ c, Schema.column_index (schema td) (key_of c)) (ci_columns ci) with
        | None => s_fail (Execution (chars "indexed column not found"))
        | Some col_idxs =>
            rows ← s_panic (kt_scan_all (index td));
            '(sec, r) ← s_panic (fill_index (SecondaryIndex.new (key_of (ci_name ci)) col_idxs (ci_unique ci)) rows);
            match r with
            | Err e => s_fail (Execution (core_error_text e))
            | Ok _ =>
                _ ← in_world (set_table (ci_table ci) (with_secondary td (secondary_indexes td ++ [sec])));
                mret (OkText (chars "Index " ++ ci_name ci ++ chars " created on " ++ ci_table ci))
            end
        end
  end.

(** The first table, in the order of the hash table, that has an index of the name. *)
Definition index_owner (name : str) (ts : Tables J T) : option (str * TableData J T) :=
  let has := λ e : str * TableData J T, existsb (λ s, bool_decide (SecondaryIndex.name s = key_of name)) (secondary_indexes e.2) in
  snd <$> list_find (λ e, has e = true) (hash_iter ts).

Definition exec_drop_index (name : str) : S result :=
  y ← system;
  match index_owner name (tables (world_of y)) with
  | None => mret (OkText (chars "Index " ++ name ++ chars " not found"))
  | Some (tname, td) =>
      _ ← in_world (set_table tname (with_secondary td (filter (λ s, SecondaryIndex.name s ≠ key_of name) (secondary_indexes td))));
      mret (OkText (chars "Index " ++ name ++ chars " dropped"))
  end.

(** [build_secondary_indexes]: the indexes of a catalog entry over the rows of a
    tree. An index on a column that is not there is left out. *)
Local Abbreviation IndexDef := DbFiles.IndexDef.

Definition needed_of (cols : list nat) : list Z := remove_dups (merge_sort Z.le (Z.of_nat <$> cols)).

Fixpoint rebuild_index (sec : SIndex) (rows : list entry) : option (SIndex * Prelude.result ()) :=
  match rows with
  | [] => Some (sec, Ok ())
  | (pk, data) :: rows' =>
      match (values ← Tuple.deserialize_columns (J := J) data (needed_of (SecondaryIndex.columns sec)); key_values sec values) with
      | None => rebuild_index sec rows'
      | Some key_vals =>
          '(sec, r) ← SecondaryIndex.insert sec key_vals pk;
          match r with Ok _ => rebuild_index sec rows' | Err e => Some (sec, Err e) end
      end
  end.

Fixpoint build_indexes (schema : Schema) (rows : list entry) (defs : list IndexDef) : option (Prelude.result (list SIndex)) :=
  match defs with
  | [] => Some (Ok [])
  | def :: defs' =>
      let col_idxs := omap (λ c, Schema.column_index schema (key_of c)) (DbFiles.idx_columns def) in
      if negb (bool_decide (length col_idxs = length (DbFiles.idx_columns def))) then build_indexes schema rows defs'
      else
        '(sec, r) ← rebuild_index (SecondaryIndex.new (key_of (DbFiles.idx_name def)) col_idxs (DbFiles.idx_unique def)) rows;
        match r with
        | Err e => Some (Err e)
        | Ok _ => rest ← build_indexes schema rows defs'; Some (match rest with Ok l => Ok (sec :: l) | Err e => Err e end)
        end
  end.

Definition build_secondary_indexes (schema : Schema) (pk_index : T) (defs : list IndexDef) : option (Prelude.result (list SIndex)) :=
  match defs with
  | [] => Some (Ok [])
  | _ => rows ← kt_scan_all pk_index; build_indexes schema rows defs
  end.

Definition index_defs_for (schema : Schema) (secs : list SIndex) : list IndexDef :=
  (λ s, DbFiles.mkIndexDef (name_of (SecondaryIndex.name s))
          (omap (λ i, (λ c, name_of (Schema.col_name c)) <$> Schema.columns schema !! i) (SecondaryIndex.columns s))
          (SecondaryIndex.unique s)) <$> secs.

(** ** ALTER TABLE *)

(** The new schema has the columns and the name; the other parts of the old one are
    not taken over. Rows stay as they are. *)
Definition altered (td : TableData J T) (columns : list SColumn) (secs : list SIndex) : TableData J T :=
  mkTable (Schema.new (Schema.table_name (schema td)) columns) (index td) (version_store td) (check_exprs td) secs.

Definition added_column (c : ColumnDef) : SColumn :=
  let col := Schema.column_new (key_of (Sql.col_name c)) (Sql.col_data_type c) in
  let col := if Sql.nullable c then col else Schema.not_null col in
  let col := if Sql.primary_key c then Schema.with_primary_key col else col in
  match Sql.max_length c with Some len => Schema.with_max_length col len | None => col end.

Definition rename_column (name : str) (c : SColumn) : SColumn :=
  Schema.mkColumn (key_of name) (Schema.col_data_type c) (Schema.nullable c) (Schema.primary_key c) (Schema.unique c)
    (Schema.auto_increment c) (Schema.col_default c) (Schema.max_length c).

Definition no_column (name : str) : QueryError := Execution (chars "Column '" ++ name ++ chars "' not found").

Definition exec_alter_table (table : str) (action : AlterTableAction) : S result :=
  y ← system;
  match tables (world_of y) !! table with
  | None => s_fail (no_table table)
  | Some td =>
      let columns := Schema.columns (schema td) in
      match action with
      | AddColumn c =>
          _ ← in_world (set_table table (altered td (columns ++ [added_column c]) (secondary_indexes td)));
          mret (OkText (chars "Column '" ++ Sql.col_name c ++ chars "' added"))
      | DropColumn name =>
          match Schema.column_index (schema td) (key_of name) with
          | None => s_fail (no_column name)
          | Some idx =>
              if bool_decide (idx ∈ Schema.primary_key_columns (schema td))
              then s_fail (Execution (chars "Cannot drop primary key column"))
              else
                _ ← s_panic (columns !! idx);
                _ ← in_world (set_table table (altered td (delete idx columns) []));
                mret (OkText (chars "Column '" ++ name ++ chars "' dropped"))
          end
      | RenameColumn old_name new_name =>
          match Schema.column_index (schema td) (key_of old_name) with
          | None => s_fail (no_column old_name)
          | Some idx =>
              _ ← s_panic (columns !! idx);
              _ ← in_world (set_table table (altered td (alter (rename_column new_name) idx columns) []));
              mret (OkText (chars "Column '" ++ old_name ++ chars "' renamed to '" ++ new_name ++ chars "'"))
          end
      end
  end.

(** ** TRUNCATE *)

Definition exec_truncate (name : str) : S result :=
  td ← in_world (table_data name);
  let secs := (λ s, SecondaryIndex.new (SecondaryIndex.name s) (SecondaryIndex.columns s) (SecondaryIndex.unique s)) <$> secondary_indexes td in
  _ ← in_world (set_table name (mkTable (schema td) (pk_tree name) VersionStore.new (check_exprs td) secs));
  mret (OkText (chars "TRUNCATE TABLE")).

(** ** Descriptions *)

Definition exec_show_tables : S result :=
  y ← system; mret (Rows [chars "table_name"] ((λ t, [text t]) <$> Catalog.list_tables (database y))).

Definition describe_column (c : SColumn) : row :=
  [text (name_of (Schema.col_name c)); text (chars (data_type_debug (Schema.col_data_type c))); Bool (Schema.nullable c); Bool (Schema.primary_key c)].

Definition exec_describe (name : str) : S result :=
  td ← in_world (table_data name);
  mret (Rows [chars "name"; chars "type"; chars "nullable"; chars "primary_key"] (describe_column <$> Schema.columns (schema td))).

Definition newline : str := [10].
Definition column_ddl (c : SColumn) : str :=
  chars "  " ++ name_of (Schema.col_name c) ++ chars " " ++ chars (data_type_debug (Schema.col_data_type c)) ++
  (if Schema.primary_key c then chars " PRIMARY KEY" else []) ++ (if Schema.nullable c then [] else chars " NOT NULL").

Fixpoint join_lines (sep : str) (l : list str) : str :=
  match l with [] => [] | [x] => x | x :: l' => x ++ sep ++ join_lines sep l' end.

Definition exec_show_create_table (name : str) : S result :=
  td ← in_world (table_data name);
  mret (Rows [chars "Create Table"]
    [[text (chars "CREATE TABLE " ++ name ++ chars " (" ++ newline ++
            join_lines (chars "," ++ newline) (column_ddl <$> Schema.columns (schema td)) ++ newline ++ chars ")")]]).

(** ** Databases *)

Definition exec_create_database (name : str) (if_not_exists : bool) : S result :=
  y ← system;
  if bool_decide (name ∈ databases y) then
    if if_not_exists then mret (OkText (chars "Database " ++ name ++ chars " already exists"))
    else s_fail (Execution (chars "Database '" ++ name ++ chars "' already exists"))
  else
    _ ← modify (λ y, set_databases ({[name]} ∪ databases y) (db_tables y) y);
    mret (OkText (chars "Database " ++ name ++ chars " created")).

Definition no_database (name : str) : QueryError := Execution (chars "Database '" ++ name ++ chars "' not found").

Definition exec_drop_database (name : str) (if_exists : bool) : S result :=
  y ← system;
  if bool_decide (name = current_db y) then s_fail (Execution (chars "Cannot drop the current database; USE another first"))
  else if bool_decide (name ∈ databases y) then
    _ ← modify (λ y, set_databases (databases y ∖ {[name]}) (delete name (db_tables y)) y);
    mret (OkText (chars "Database " ++ name ++ chars " dropped"))
  else if if_exists then mret (OkText (chars "OK")) else s_fail (no_database name).

(** [switch_to_database]: the tables in use are put aside; without a disk store a
    database that was never used starts without tables. *)
Definition switch_to_database (name : str) (y : System) : System :=
  if bool_decide (current_db y = name) then y
  else
    let w := world_of y in
    let cache := <[current_db y := (tables w, sequences w)]> (db_tables y) in
    let '(ts, seqs) := default (∅, ∅) (cache !! name) in
    mkSystem (mkWorld ts seqs (rowids w) (txn_undo w) (wal w) (deltas w)) (database y) (stats y) (databases y) name (delete name cache).

Definition exec_use_database (name : str) : S result :=
  y ← system;
  if bool_decide (name ∈ databases y) then
    _ ← modify (switch_to_database name);
    mret (OkText (chars "Now using database " ++ name))
  else s_fail (no_database name).

Definition exec_show_databases : S result :=
  y ← system; mret (Rows [chars "database"] ((λ n, [text n]) <$> sort_names (elements (databases y)))).

(** ** Statistics *)

Definition collect_table_rows (table : str) : S (list str * list row) :=
  td ← in_world (table_data table);
  entries ← s_panic (kt_scan_all (index td));
  mret (col_names td, omap (λ e : entry, Scan.decode_row e.2) entries).

Fixpoint analyze_tables (now : Z) (names : list str) (analyzed : Z) : S Z :=
  match names with
  | [] => mret analyzed
  | name :: names' =>
      '(cols, rows) ← collect_table_rows name;
      s ← s_panic (Stats.compute_table_stats name cols rows DEFAULT_MCV_COUNT DEFAULT_HISTOGRAM_BUCKETS now);
      _ ← modify (λ y, set_stats (<[name := s]> (stats y)) y);
      analyze_tables now names' (analyzed + 1)
  end.

Definition exec_analyze (now : Z) (table : option str) : S result :=
  y ← system;
  names ← match table with
          | Some t => if bool_decide (is_Some (tables (world_of y) !! t)) then mret [t] else s_fail (no_table t)
          | None => mret (hash_keys (tables (world_of y)))
          end;
  analyzed ← analyze_tables now names 0;
  mret (OkText (chars "ANALYZE " ++ show_int analyzed)).

(** [as i64] of an unsigned number. *)
Definition as_i64 (n : Z) : V := Int64 (wrap 64 (n + 2 ^ 63) - 2 ^ 63).

Definition stats_row (ts : Stats.TableStats J) (col : Stats.ColumnStats J) : row :=
  [text (Stats.stats_table ts); as_i64 (Stats.row_count ts); text (Stats.column_name col); Float64 (Stats.null_fraction col);
   as_i64 (Stats.ndv col); as_i64 (zlen (Stats.mcv col));
   as_i64 (match Stats.bucket_bounds col with [] => 0 | l => zlen l - 1 end); as_i64 (Stats.computed_at_secs ts)].

Definition stats_header : list str :=
  [chars "table"; chars "row_count"; chars "column"; chars "null_fraction"; chars "ndv"; chars "mcv_count"; chars "histogram_buckets"; chars "computed_at_secs"].

Definition exec_show_stats (table : option str) : S result :=
  y ← system;
  let names := match table with
               | Some t => if bool_decide (is_Some (stats y !! t)) then [t] else []
               | None => sort_names (hash_keys (stats y))
               end in
  mret (Rows stats_header (names ≫= λ n, match stats y !! n with Some ts => stats_row ts <$> Stats.stats_columns ts | None => [] end)).

(** ** Statements *)

Definition needs_disk (what : string) : S result := s_fail (Execution (chars what ++ chars " requires a disk-backed engine")).

(** Statements that neither read nor change rows. EXPLAIN prints costs, whose text
    is not modelled: it is a parameter. *)
Definition administer (now : Z) (explain : Statement → bool → S result) (stmt : Statement) : S result :=
  match stmt with
  | CreateTable ct => exec_create_table ct
  | DropTable name if_exists => exec_drop_table name if_exists
  | CreateIndex ci => exec_create_index ci
  | DropIndex name => exec_drop_index name
  | AlterTable table action => exec_alter_table table action
  | ShowTables => exec_show_tables
  | Describe name | ShowColumns name => exec_describe name
  | ShowCreateTable name => exec_show_create_table name
  | Truncate name => exec_truncate name
  | KvGet _ | KvSet _ _ | KvDelete _ | KvScan _ _ => s_fail (Execution (chars "Use KV engine for KV operations"))
  | DocInsert _ _ | DocFind _ _ | DocUpdate _ _ _ | DocDelete _ _ => s_fail (Execution (chars "Use Document engine for DOC operations"))
  | CreateDatabase name if_not_exists => exec_create_database name if_not_exists
  | DropDatabase name if_exists => exec_drop_database name if_exists
  | UseDatabase name => exec_use_database name
  | ShowDatabases => exec_show_databases
  | Analyze table => exec_analyze now table
  | ShowStats table => exec_show_stats table
  | Backup _ => needs_disk "BACKUP"
  | RestoreFrom _ _ => needs_disk "RESTORE"
  | Migrate => needs_disk "MIGRATE"
  | Explain inner analyze => explain inner analyze
  | _ => s_panic None
  end.

Definition row_statement (stmt : Statement) : bool :=
  match stmt with
  | Insert _ | Update _ | Delete _ | Begin _ | Commit | Rollback | Select _ | Union _ _ _ | Intersect _ _ _ | Except _ _ _ => true
  | _ => false
  end.

(** [execute]: statements on rows work with the statistics there are. *)
Definition execute_any (now : Z) (top : bool) (explain : Statement → bool → S result) (other : Tables J T → PhysicalPlan → Q result)
    (operand : Statement → Db_of (Tables J T) result) (stmt : Statement) (txn : option Z) : S result := λ '(y, s),
  (if row_statement stmt
   then in_world (execute_statement (stats y) other now top operand (λ _ _, None) stmt txn)
   else statement top (administer now explain stmt)) (y, s).

(** ** Replay of the write-ahead log *)

(** The first table, in the order of the hash table, with as many columns as the
    row has. *)
Definition table_with_arity (ts : Tables J T) (n : nat) : option (str * TableData J T) :=
  snd <$> list_find (λ e : str * TableData J T, length (Schema.columns (schema e.2)) = n) (hash_iter ts).

(** For an insertion tables without a primary key are passed over. *)
Definition keyed_table_with_arity (ts : Tables J T) (n : nat) : option (str * TableData J T) :=
  snd <$> list_find (λ e : str * TableData J T, length (Schema.columns (schema e.2)) = n ∧ Schema.primary_key_columns (schema e.2) ≠ [])
            (hash_iter ts).

Definition replay_record (ts : Tables J T) (r : Wal.LogRecord) : option (Tables J T) :=
  match r with
  | Wal.Insert _ _ _ _ data =>
      match Scan.decode_row data with
      | None => Some ts
      | Some tuple =>
          match keyed_table_with_arity ts (length tuple) with
          | None => Some ts
          | Some (name, td) =>
              t ← kt_insert (index td) (Tuple.key_bytes tuple (Schema.primary_key_columns (schema td))) data;
              Some (<[name := with_index td t]> ts)
          end
      end
  | Wal.Delete _ _ _ _ old_data =>
      match Tuple.deserialize old_data with
      | None => Some ts
      | Some tuple =>
          match table_with_arity ts (length tuple) with
          | None => Some ts
          | Some (name, td) =>
              match Schema.primary_key_columns (schema td) with
              | [] => Some ts
              | pk_cols => '(t, _) ← kt_delete (index td) (Tuple.key_bytes tuple pk_cols); Some (<[name := with_index td t]> ts)
              end
          end
      end
  | Wal.Update _ _ _ _ old_data new_data =>
      match Tuple.deserialize old_data with
      | None => Some ts
      | Some tuple =>
          match table_with_arity ts (length tuple) with
          | None => Some ts
          | Some (name, td) =>
              match Schema.primary_key_columns (schema td) with
              | [] => Some ts
              | pk_cols => t ← kt_insert (index td) (Tuple.key_bytes tuple pk_cols) new_data; Some (<[name := with_index td t]> ts)
              end
          end
      end
  | _ => Some ts
  end.

Definition replay_wal_recovery (ts : Tables J T) (redo_records : list (Z * Wal.LogRecord)) : option (Tables J T) :=
  foldl (λ ts r, ts ← ts; replay_record ts r.2) (Some ts) redo_records.

(** [bulk_insert]: rows written without any check. *)
Fixpoint bulk_rows (pk_cols : list nat) (rows : list row) (t : T) (count : Z) : option (T * Z) :=
  match rows with
  | [] => Some (t, count)
  | values :: rows' => t ← kt_insert t (Tuple.key_bytes values pk_cols) (Tuple.serialize values); bulk_rows pk_cols rows' t (count + 1)
  end.

Definition bulk_insert (table : str) (rows : list row) : S Z :=
  td ← in_world (table_data table);
  '(t, count) ← s_panic (bulk_rows (Schema.primary_key_columns (schema td)) rows (index td) 0);
  _ ← in_world (set_table table (with_index td t));
  mret count.

End ddl.
Arguments System J T : clear implicits.
End Ddl.
