(* ===== verification/DdlFindings.v ===== *)
(** What statements on tables and databases do that is not what they say, computed
    by the model from SQL text. *)
From S2P Require Import Prelude ByteOrder BTree Value OrderKey BTreeSpec OrderedIndex SecondaryIndex Schema Tuple Transaction VersionStore Wal Civil Sql Lexer Parser Like Strings Float64 Eval Scan Collections Plan Stats Cost Optimizer Exec Window Join Aggregate TableAccess TableSpec Subquery Query IndexScanSpec QuerySpec Catalog Dml Ddl.
Import Value OrderKey Sql Like Strings Eval Collections Plan Exec TableAccess Query QuerySpec Dml Ddl.

Module DdlFindings.

#[local] Existing Instance Tuple.sample_codecs.
#[local] Existing Instance Tuple.sample_show.
#[local] Existing Instance Tuple.sample_read.
#[local] Existing Instance Lexer.ascii_only.
#[local] Existing Instance Lexer.no_floats.
#[local] Existing Instance Scan.sample_engine.
#[local] Existing Instance Collections.plain.
#[local] Existing Instance no_libm.
Local Abbreviation Tree := BTree.BTree.BPlusTree.
Local Abbreviation result := (ExecutionResult unit).

Definition run_sql (txn : option Z) (sql : string) : Db_of (System unit Tree) result :=
  match Parser.parse_sql (chars sql) with
  | Some (POk stmt) => execute_any 0 true (λ _ _ _, None) (λ _ _, q_fail (QPlan [])) (λ _ _, None) stmt txn
  | _ => λ _, None
  end.

Fixpoint session (l : list (option Z * string)) (st : System unit Tree * Session) : list (option (qresult result)) :=
  match l with
  | [] => []
  | (txn, sql) :: l' =>
      match run_sql txn sql st with
      | Some (r, st') => Some r :: session l' st'
      | None => [None]
      end
  end.

(** An engine without tables. *)
Definition start : System unit Tree * Session :=
  (mkSystem (mkWorld ∅ ∅ ∅ ∅ [] None) (Catalog.database_new (chars "main")) ∅ {[chars "main"]} (chars "main") ∅, mkSession Transaction.new false).

Definition plain (l : list string) : list (option (qresult result)) := session (pair None <$> l) start.
Definition said (m : string) : option (qresult result) := Some (QOk (OkText (chars m))).
Definition modified (n : Z) : option (qresult result) := Some (QOk (Modified n)).
Definition ints (cols : list string) (l : list (list Z)) : option (qresult result) := Some (QOk (Rows (chars <$> cols) (map (map Int64) l))).
Definition refused (m : string) : option (qresult result) := Some (QErr (Execution (chars m))).

(** ** ALTER TABLE *)

(** The rows keep the values of a dropped column, and the columns behind it show
    the values of the columns before them. *)
Theorem dropped_column_shifts_values :
  plain ["CREATE TABLE t (id INT PRIMARY KEY, a INT, b INT)"; "INSERT INTO t VALUES (1, 10, 20)"; "ALTER TABLE t DROP COLUMN a";
         "SELECT b FROM t"; "SELECT * FROM t"] =
    [said "Table t created"; modified 1; said "Column 'a' dropped"; ints ["b"] [[10]]; ints ["id"; "b"] [[1; 10; 20]]].
Proof. by vm_compute. Qed.

(** Changing a table forgets its foreign keys. *)
Theorem altered_table_forgets_foreign_keys :
  plain ["CREATE TABLE p (id INT PRIMARY KEY)"; "CREATE TABLE t (id INT PRIMARY KEY, a INT REFERENCES p(id))"; "INSERT INTO t VALUES (1, 5)";
         "ALTER TABLE t ADD COLUMN c INT"; "INSERT INTO t VALUES (1, 5, 6)"] =
    [said "Table p created"; said "Table t created"; Some (QErr (Constraint (chars "FOREIGN KEY violation: no matching row in 'p'")));
     said "Column 'c' added"; modified 1].
Proof. by vm_compute. Qed.

(** Renaming a column drops the indexes of the table, unique ones among them. *)
Theorem renaming_drops_unique_index :
  plain ["CREATE TABLE t (id INT PRIMARY KEY, a INT)"; "CREATE UNIQUE INDEX ia ON t (a)"; "INSERT INTO t VALUES (1, 5)";
         "INSERT INTO t VALUES (2, 5)"; "ALTER TABLE t RENAME COLUMN a TO b"; "INSERT INTO t VALUES (2, 5)"; "SELECT * FROM t"] =
    [said "Table t created"; said "Index ia created on t"; modified 1; refused "unique index ia violated"; said "Column 'a' renamed to 'b'";
     modified 1; ints ["id"; "b"] [[1; 5]; [2; 5]]].
Proof. by vm_compute. Qed.

(** ** Databases *)

(** [IF NOT EXISTS] is not looked at for tables. *)
Theorem if_not_exists_ignored :
  plain ["CREATE TABLE t (id INT PRIMARY KEY)"; "CREATE TABLE IF NOT EXISTS t (id INT PRIMARY KEY)"] =
    [said "Table t created"; refused "Table 't' already exists"].
Proof. by vm_compute. Qed.

(** All databases share one catalog: a name that is used in one cannot be used in
    another, and DROP TABLE in one removes the entry of another's table, which
    can then be created anew over its rows. *)
Theorem databases_share_catalog :
  plain ["CREATE TABLE t (id INT PRIMARY KEY)"; "INSERT INTO t VALUES (1)"; "CREATE DATABASE d2"; "USE d2"; "CREATE TABLE t (id INT PRIMARY KEY)";
         "DROP TABLE t"; "USE main"; "SELECT * FROM t"; "DROP TABLE t"; "CREATE TABLE t (id INT PRIMARY KEY)"; "SELECT * FROM t"] =
    [said "Table t created"; modified 1; said "Database d2 created"; said "Now using database d2"; refused "Table 't' already exists";
     said "Table t dropped"; said "Now using database main"; ints ["id"] [[1]]; refused "Table 't' not found"; said "Table t created"; ints ["id"] []].
Proof. by vm_compute. Qed.

(** TRUNCATE is not undone by ROLLBACK, and rows that the transaction changed
    before are brought back alone. *)
Theorem truncate_not_undone :
  session [(None, "CREATE TABLE t (id INT PRIMARY KEY, v INT)"); (None, "INSERT INTO t VALUES (1, 10)"); (None, "INSERT INTO t VALUES (2, 20)");
           (None, "BEGIN"); (Some 1, "UPDATE t SET v = 11 WHERE id = 1"); (Some 1, "TRUNCATE TABLE t"); (Some 1, "ROLLBACK"); (None, "SELECT * FROM t")] start =
    [said "Table t created"; modified 1; modified 1; said "Transaction 1 started"; modified 1; said "TRUNCATE TABLE"; said "ROLLBACK";
     ints ["id"; "v"] [[1; 10]]].
Proof. by vm_compute. Qed.

(** ** Replay *)

(** The tables after some statements. *)
Fixpoint tables_after (l : list string) (st : System unit Tree * Session) : option (Tables unit Tree) :=
  match l with
  | [] => Some (tables (world_of st.1))
  | sql :: l' => '(_, st') ← run_sql None sql st; tables_after l' st'
  end.

(** A record of the write-ahead log is replayed into some table with as many
    columns as the row, not into the table it was written for: for some order of
    the tables, the row of [a] is found in [b]. *)
Theorem replay_into_other_table :
  (ts ← tables_after ["CREATE TABLE a (id INT PRIMARY KEY, v INT)"; "CREATE TABLE b (id INT PRIMARY KEY, w INT)"] start;
   ts ← replay_wal_recovery ts [(1, Wal.Insert 1 1 0 0 (Tuple.serialize [Int64 7; Int64 8]))];
   a ← ts !! chars "a"; b ← ts !! chars "b";
   ra ← kt_scan_all (index a); rb ← kt_scan_all (index b);
   Some (length ra, omap (Tuple.deserialize (J := unit)) rb.*2)) = Some (0%nat, [[Int64 7; Int64 8]]).
Proof. vm_compute. reflexivity. Qed.
End DdlFindings.
