(* ===== verification/DdlSpec.v ===== *)
(** CREATE INDEX: the new index finds exactly the rows of the table, and the table
    is as fit for queries as it was before; a unique index is refused exactly if two
    rows have the same values. *)
From S2P Require Import Prelude ByteOrder BTree Value OrderKey BTreeSpec OrderedIndex SecondaryIndex Schema Tuple Transaction VersionStore Wal Civil Sql Lexer Like Strings Float64 Eval Scan Collections Plan Stats Cost Optimizer Exec Window Join Aggregate TableAccess TableSpec Subquery Query IndexScanSpec QuerySpec Catalog Dml Ddl.
Import Value OrderKey Sql Like Strings Eval Collections Plan Exec TableAccess TableSpec Query IndexScanSpec QuerySpec Dml Ddl.

Module DdlSpec.

Section spec.
Context {J T : Type} `{!EqDecision J} `{!JsonShow J, !JsonRead J} `{!Codecs} `{Unicode} `{FloatText} `{!Engine J} `{!KvTree T} `{!HashOrder} `{!Unordered} `{!Libm}.
Context `{!KvTreeLaws T} `{!CodecLaws} `{!JsonLaws J Tuple.utf8_valid}.
Local Abbreviation V := (Value J).
Local Abbreviation row := (list V).
Local Abbreviation SIndex := (SecondaryIndex.SecondaryIndex T).
Local Abbreviation ientry := (list V * list Z)%type.
Local Abbreviation ColType := SecondaryIndex.ColType.

(** ** Filling an index *)

(** The values of columns, if the row has all of them. *)
Definition columns_of (cols : list nat) (vs : row) : option row := mapM (λ i, vs !! i) cols.

Lemma columns_omap cols (vs cs : row) : columns_of cols vs = Some cs → omap (λ i, vs !! i) cols = cs ∧ length cs = length cols.
Proof.
  unfold columns_of. revert cs. induction cols as [|i cols IH]; intros cs; cbn; [by intros [= <-]|].
  intros (v & Hv & (cs' & Hcs & [= <-])%bind_Some)%bind_Some. destruct (IH cs' Hcs) as [E El]. rw Hv. cbn. by rw E El.
Qed.

Lemma key_values_columns (sec : SIndex) (vs cs : row) : columns_of (SecondaryIndex.columns sec) vs = Some cs → key_values sec vs = Some cs.
Proof. intros [E El]%columns_omap. unfold key_values. rw E El. by rw bool_decide_eq_true_2. Qed.

Lemma insert_columns (sec sec' : SIndex) (cs : row) pk r :
  SecondaryIndex.insert sec cs pk = Some (sec', r) → SecondaryIndex.columns sec' = SecondaryIndex.columns sec.
Proof.
  unfold SecondaryIndex.insert. intros (b & _ & Hb)%bind_Some. destruct b; [by injection Hb as <- _|].
  apply bind_Some in Hb as (t & _ & [= <- _]). done.
Qed.

(** A row with the types [ts] in the columns [cols], under a key. *)
Definition fits (cols : list nat) (ts : list ColType) (kv : list Z * row) : Prop :=
  Scan.stored kv.2 ∧ ∃ cs, columns_of cols kv.2 = Some cs ∧ SecondaryIndex.row_ok ts cs.

Definition entry_of (cols : list nat) (kv : list Z * row) : ientry := (default [] (columns_of cols kv.2), kv.1).
Definition encoded (kv : list Z * row) : list Z * list Z := (kv.1, Tuple.serialize kv.2).

(** Equal columns belong to one row. *)
Definition distinct_columns (E : list ientry) : Prop := ∀ cs p q, (cs, p) ∈ E → (cs, q) ∈ E → p = q.

Definition violated (nm : string) : CoreError := Prelude.Internal ("unique index " +:+ nm +:+ " violated").

Lemma not_taken_distinct E (cs : row) pk : distinct_columns E → SecondaryIndex.taken E cs pk = false → distinct_columns ((cs, pk) :: E).
Proof.
  intros HE Ht cs' p q Hp Hq. assert (∀ x, (cs, x) ∈ E → x = pk) as Hx.
  { intros x Hin. destruct (decide (x = pk)) as [|Hne]; [done|]. enough (SecondaryIndex.taken E cs pk = true) by congruence.
    apply SecondaryIndex.taken_spec. by exists x. }
  apply elem_of_cons in Hp as [[= -> ->]|Hp]; apply elem_of_cons in Hq as [Eq|Hq].
  - by injection Eq.
  - by rw (Hx q).
  - injection Eq as -> ->. by rw (Hx p).
  - by apply (HE cs').
Qed.

(** What filling an index with rows gives, over the entries it has. *)
Lemma fill_index_spec ts rows : ∀ (sec : SIndex) E,
  SecondaryIndex.keeps ts sec E → (SecondaryIndex.unique sec = true → distinct_columns E) → Forall (fits (SecondaryIndex.columns sec) ts) rows →
  let E' := reverse (entry_of (SecondaryIndex.columns sec) <$> rows) ++ E in
  ∃ sec' r, fill_index sec (encoded <$> rows) = Some (sec', r) ∧
    ((r = Ok () ∧ SecondaryIndex.keeps ts sec' E' ∧ (SecondaryIndex.unique sec = true → distinct_columns E') ∧
      SecondaryIndex.columns sec' = SecondaryIndex.columns sec ∧ SecondaryIndex.name sec' = SecondaryIndex.name sec) ∨
     (r = Err (violated (SecondaryIndex.name sec)) ∧ SecondaryIndex.unique sec = true ∧ ¬ distinct_columns E')).
Proof.
  induction rows as [|[k vs] rows IH]; intros sec E Hk Hd Hf; cbn zeta.
  - exists sec, (Ok ()). split; [done|]. left. by rw fmap_nil reverse_nil.
  - apply Forall_cons in Hf as [(Hs & cs & Hcs & Hok) Hf]. rw (fmap_cons (entry_of (SecondaryIndex.columns sec))) reverse_cons -app_assoc. cbn [app].
    assert (entry_of (SecondaryIndex.columns sec) (k, vs) = (cs, k)) as -> by (unfold entry_of; cbn [snd fst]; by rw Hcs).
    rw (fmap_cons encoded). cbn [fill_index encoded fst snd]. cbn [snd] in Hs.
    replace (Tuple.deserialize_to_vec (Tuple.serialize vs)) with (Some vs) by (symmetry; exact (Scan.decode_stored vs Hs)).
    cbn [mbind option_bind]. rw (key_values_columns sec vs cs Hcs).
    destruct (SecondaryIndex.insert_entry ts sec E Hk cs k Hok) as (sec1 & r & Hi & Hu & Hn & Hr).
    rw Hi. cbn [mbind option_bind]. pose proof (insert_columns _ _ _ _ _ Hi) as Hc.
    destruct (SecondaryIndex.unique sec && SecondaryIndex.taken E cs k) eqn:Ht.
    + destruct Hr as [-> ->]. exists sec. eexists. split; [done|]. right. apply andb_prop in Ht as [Hun Ht]. split_and!; [done|done|].
      apply SecondaryIndex.taken_spec in Ht as (p & Hin & Hne). intros Hdd. apply Hne. apply (Hdd cs); rw elem_of_app elem_of_cons; [by right; right|by right; left].
    + destruct Hr as [-> Hk']. destruct (IH sec1 ((cs, k) :: E) Hk') as (sec' & r & Hrun & Hres).
      * rw Hu. intros Hun. rw Hun in Ht. cbn [andb] in Ht. by apply not_taken_distinct; [apply Hd|].
      * by rw Hc.
      * exists sec', r. split; [done|]. by rw Hu Hc Hn in Hres.
Qed.

(** ** The rows of a table *)

Lemma rows_scanned (td : TableData J T) (m : gmap (list Z) (list Z)) (vis : gmap (list Z) row) : table_shows td m None vis →
  ∃ rows, kt_scan_all (index td) = Some (encoded <$> rows) ∧ rows ≡ₚ map_to_list vis.
Proof.
  intros [Hi _ Hv _]. assert (m = Tuple.serialize <$> vis) as -> by (apply map_eq; intros k; rw lookup_fmap; exact (Hv k)).
  assert (sorted_pairs (Tuple.serialize <$> vis) ≡ₚ map encoded (map_to_list vis)) as Hs.
  { rw sorted_pairs_perm map_to_list_fmap. apply reflexive_eq. apply list_fmap_ext. by intros i [k v] _. }
  destruct (Permutation_map_inv _ _ Hs) as (rows & Hr & Hp). exists rows. split; [|by symmetry]. rw (kt_scan_all_rep _ _ Hi) Hr. done.
Qed.

(** What the table has to be like: every column of the index is in the schema with
    its type, and every row has values of these types. *)
Record indexable (td : TableData J T) (vis : gmap (list Z) row) (ci : CreateIndexStmt) (cols : list nat) (ts : list ColType) : Prop := {
  ia_schema : schema td = Schema.mkSchema (Schema.columns (schema td)) (Schema.table_name (schema td)) (Schema.check_constraints (schema td))
                (Schema.foreign_keys (schema td)) (Schema.collect_map (Schema.columns (schema td)));
  ia_names : Forall (λ s, name_of (key_of s) = s) (ci_name ci :: ci_columns ci);
  ia_fresh : key_of (ci_name ci) ∉ SecondaryIndex.name <$> secondary_indexes td;
  ia_columns : mapM (λ c, Schema.column_index (schema td) (key_of c)) (ci_columns ci) = Some cols;
  ia_some : ci_columns ci ≠ [];
  ia_types : Forall2 (λ i t, ∀ c, Schema.columns (schema td) !! i = Some c → SecondaryIndex.ct_type t = Schema.col_data_type c) cols ts;
  ia_rows : ∀ k vs, vis !! k = Some vs → k ≠ [] ∧ bytes_ok k ∧ ∃ cs, columns_of cols vs = Some cs ∧ SecondaryIndex.row_ok ts cs;
}.

(** Two rows have equal values in the columns. *)
Definition duplicated (vis : gmap (list Z) row) (cols : list nat) : Prop :=
  ∃ k k' vs vs' cs, k ≠ k' ∧ vis !! k = Some vs ∧ vis !! k' = Some vs' ∧ columns_of cols vs = Some cs ∧ columns_of cols vs' = Some cs.

Section index.
Context (td : TableData J T) (m : gmap (list Z) (list Z)) (vis : gmap (list Z) row) (ci : CreateIndexStmt) (cols : list nat) (ts : list ColType).
Context (Hts : table_shows td m None vis) (Hia : indexable td vis ci cols ts).

(** The entries of the rows. *)
Definition entries (rows : list (list Z * row)) : list ientry := reverse (entry_of cols <$> rows).

Lemma elem_of_entries rows cs k : rows ≡ₚ map_to_list vis →
  (cs, k) ∈ entries rows ↔ ∃ vs, vis !! k = Some vs ∧ columns_of cols vs = Some cs.
Proof.
  intros Hp. unfold entries. rw elem_of_reverse list_elem_of_fmap. split.
  - intros ([k' vs] & [= Hc ->] & Hin). rw Hp elem_of_map_to_list in Hin. exists vs. split; [done|].
    destruct (ia_rows _ _ _ _ _ Hia k' vs Hin) as (_ & _ & cs' & Hcs & _). by rw Hcs in Hc |- *; cbn in Hc; subst.
  - intros (vs & Hv & Hcs). exists (k, vs). split; [unfold entry_of; cbn; by rw Hcs|]. by rw Hp elem_of_map_to_list.
Qed.

Lemma entries_fit rows : rows ≡ₚ map_to_list vis → Forall (fits cols ts) rows.
Proof.
  intros Hp. apply Forall_forall. intros [k vs] Hin. rw Hp elem_of_map_to_list in Hin.
  split; [exact (ts_stored _ _ _ _ Hts k vs Hin)|]. by destruct (ia_rows _ _ _ _ _ Hia k vs Hin) as (_ & _ & Hcs).
Qed.

Lemma distinct_iff rows : rows ≡ₚ map_to_list vis → distinct_columns (entries rows) ↔ ¬ duplicated vis cols.
Proof.
  intros Hp. split.
  - intros Hd (k & k' & vs & vs' & cs & Hne & Hk & Hk' & Hc & Hc'). apply Hne.
    apply (Hd cs); apply elem_of_entries; [done|by exists vs|done|by exists vs'].
  - intros Hn cs p q (vs & Hk & Hc)%(elem_of_entries _ _ _ Hp) (vs' & Hk' & Hc')%(elem_of_entries _ _ _ Hp).
    destruct (decide (p = q)) as [|Hne]; [done|]. exfalso. apply Hn. by exists p, q, vs, vs', cs.
Qed.

Lemma filled rows : rows ≡ₚ map_to_list vis →
  let sec := SecondaryIndex.new (key_of (ci_name ci)) cols (ci_unique ci) in
  ∃ sec' r, fill_index sec (encoded <$> rows) = Some (sec', r) ∧
    ((r = Ok () ∧ SecondaryIndex.keeps ts sec' (entries rows) ∧ ¬ (ci_unique ci = true ∧ duplicated vis cols) ∧
      SecondaryIndex.columns sec' = cols ∧ SecondaryIndex.name sec' = key_of (ci_name ci)) ∨
     (r = Err (violated (key_of (ci_name ci))) ∧ ci_unique ci = true ∧ ¬ distinct_columns (entries rows))).
Proof.
  intros Hp sec. destruct (fill_index_spec ts rows sec [] (SecondaryIndex.new_keeps _ _ _ _)) as (sec' & r & Hf & Hr).
  - intros _ cs p q []%not_elem_of_nil.
  - exact (entries_fit rows Hp).
  - exists sec', r. split; [done|]. cbn zeta in Hr. rw app_nil_r in Hr. destruct Hr as [(-> & Hk & Hd & Hc & Hn)|(-> & Hu & Hd)]; [left|by right].
    split_and!; [done|done| |done|done]. intros [Hu Hdup]. by apply (distinct_iff rows Hp) in Hdup; [|apply Hd].
Qed.

(** The new index is kept like the others. *)
Lemma new_index_kept sec rows :
  rows ≡ₚ map_to_list vis → SecondaryIndex.keeps ts sec (entries rows) → SecondaryIndex.columns sec = cols →
  SecondaryIndex.name sec = key_of (ci_name ci) → index_kept td vis sec.
Proof.
  intros Hp Hk Hc Hn. pose proof (λ cs k, elem_of_entries rows cs k Hp) as Hel. pose proof Hia as [Hsc Hnames _ Hcols Hsome Htypes Hrows]. split.
  - destruct (ci_columns ci) as [|c1 cs]; [done|]. cbn in Hcols.
    apply bind_Some in Hcols as (i & Hi & (is' & _ & Heq)%bind_Some). injection Heq as <-.
    destruct ts as [|t ts']; [by inversion Htypes|]. apply Forall2_cons_1 in Htypes as [Ht _].
    rw Hsc in Hi. unfold Schema.column_index in Hi. cbn [Schema.column_map] in Hi.
    destruct (proj1 (Schema.column_index_spec "" _ _ i eq_refl (key_of c1)) Hi) as (c & Hci & Hname & _).
    exists i, is', c, t, ts', (entries rows). rw Hname. split_and!; try done.
    + rw Hsc. exact Hi.
    + rw Forall_cons in Hnames. destruct Hnames as [_ [E _]%Forall_cons]. by rw E.
    + by apply Ht.
    + split.
      * unfold entries. rw fmap_reverse reverse_Permutation -list_fmap_compose. change (snd ∘ entry_of cols) with (fst (A := list Z) (B := row)). rw Hp. apply NoDup_fst_map_to_list.
      * apply Forall_forall. intros [cs' k] (vs & Hv & _)%Hel. cbn. by destruct (Hrows k vs Hv) as (? & ? & _).
    + intros k vs Hv. destruct (Hrows k vs Hv) as (_ & _ & cs' & Hcs & _). pose proof Hcs as Hcs0. unfold columns_of in Hcs. cbn in Hcs.
      apply bind_Some in Hcs as (v & Hvi & (rest & _ & [= <-])%bind_Some). exists v, rest. split; [done|].
      apply Hel. by exists vs.
  - rw Hn. apply Forall_cons in Hnames as [E _]. by rw E.
Qed.
End index.

(** ** CREATE INDEX *)

Definition with_tables (y : System J T) (t : Tables J T) : System J T :=
  mkSystem (set_tables t (world_of y)) (database y) (stats y) (databases y) (current_db y) (db_tables y).

Definition index_created (ci : CreateIndexStmt) : str := chars "Index " ++ ci_name ci ++ chars " created on " ++ ci_table ci.

Lemma exec_create_index_fill (y : System J T) s td ci cols rows sec r :
  tables (world_of y) !! ci_table ci = Some td → key_of (ci_name ci) ∉ SecondaryIndex.name <$> secondary_indexes td →
  mapM (λ c, Schema.column_index (schema td) (key_of c)) (ci_columns ci) = Some cols → kt_scan_all (index td) = Some rows →
  fill_index (SecondaryIndex.new (key_of (ci_name ci)) cols (ci_unique ci)) rows = Some (sec, r) →
  exec_create_index ci (y, s) =
    match r with
    | Ok _ => Some (QOk (OkText (index_created ci)),
                (with_tables y (<[ci_table ci := with_secondary td (secondary_indexes td ++ [sec])]> (tables (world_of y))), s))
    | Err e => Some (QErr (Execution (core_error_text e)), (y, s))
    end.
Proof.
  intros Ht Hn Hc Hs Hf. unfold exec_create_index, system. unfold mbind at 1, Db_bind. cbn [fst snd mbind option_bind]. rw Ht.
  destruct (existsb _ _) eqn:Hex.
  { exfalso. apply Hn. apply existsb_exists in Hex as (x & Hin & Hx%bool_decide_eq_true). rw -Hx.
    apply list_elem_of_fmap. exists x. by rw list_elem_of_In. }
  rw Hc. unfold s_panic. unfold mbind at 1. cbn [mbind option_bind]. rw Hs. cbn [mbind option_bind].
  unfold mbind at 1. cbn [mbind option_bind]. rw Hf. cbn [mbind option_bind]. by destruct r as [[]|e].
Qed.

Lemma index_kept_same (td : TableData J T) (vis : gmap (list Z) row) secs sec : index_kept td vis sec → index_kept (with_secondary td secs) vis sec.
Proof. intros [Hf Hn]. by split. Qed.

(** C8: CREATE INDEX on a table whose rows have values of the types of the columns:
    if the index is unique and two rows have equal values the statement fails and
    nothing is changed; otherwise the table has one more index, which finds for
    all values exactly the rows that have them, the table shows the same rows,
    and all its indexes are complete, so that queries may use them. The conditions
    ([indexable], [row_ok], [table_shows]): the name is new and the columns are there;
    in the indexed columns all decimals have one scale (the keys have the digits only,
    so that with several scales different decimals are taken for equal,
    [decimal_index_wrong]), no float is NaN or [-0.0] and there is no JSON; no
    value of a row is stored compressed, and rows are read back from their
    encodings. *)
Theorem create_index_correct (y : System J T) s td m vis ci cols ts :
  tables (world_of y) !! ci_table ci = Some td → table_shows td m None vis → indexes_kept td vis → indexable td vis ci cols ts →
  (ci_unique ci = true ∧ duplicated vis cols →
     exec_create_index ci (y, s) = Some (QErr (Execution (chars ("unique index " +:+ key_of (ci_name ci) +:+ " violated"))), (y, s))) ∧
  (¬ (ci_unique ci = true ∧ duplicated vis cols) → ∃ sec,
     let td' := with_secondary td (secondary_indexes td ++ [sec]) in
     exec_create_index ci (y, s) =
       Some (QOk (OkText (index_created ci)), (with_tables y (<[ci_table ci := td']> (tables (world_of y))), s)) ∧
     table_shows td' m None vis ∧ indexes_kept td' vis ∧
     ∀ cs, SecondaryIndex.row_ok ts cs → ∃ r, SecondaryIndex.lookup_eq sec cs = Some r ∧ NoDup r ∧
       ∀ k, k ∈ r ↔ ∃ vs, vis !! k = Some vs ∧ columns_of cols vs = Some cs).
Proof.
  intros Ht Hts [Hkept Hnames] Hia. destruct (rows_scanned td m vis Hts) as (rows & Hs & Hp).
  destruct (filled td m vis ci cols ts Hts Hia rows Hp) as (sec & r & Hf & Hr).
  pose proof (exec_create_index_fill y s td ci cols _ sec r Ht (ia_fresh _ _ _ _ _ Hia) (ia_columns _ _ _ _ _ Hia) Hs Hf) as Hrun.
  destruct Hr as [(-> & Hk & Hd & Hc & Hn)|(-> & Hu & Hd)].
  - split; [done|]. intros _. exists sec. cbn zeta. split_and!.
    + exact Hrun.
    + by destruct Hts.
    + split; cbn [with_secondary secondary_indexes].
      * apply Forall_app. split; [eapply Forall_impl; [exact Hkept|intros x; apply index_kept_same]|]. constructor; [|constructor].
        apply index_kept_same. exact (new_index_kept td vis ci cols ts Hia sec rows Hp Hk Hc Hn).
      * rw fmap_app. apply NoDup_app. split_and!; [done| |apply NoDup_singleton].
        intros x Hx ->%list_elem_of_singleton. rw Hn in Hx. exact (ia_fresh _ _ _ _ _ Hia Hx).
    + intros cs Hcs. destruct (SecondaryIndex.lookup_eq_entries ts sec _ Hk cs Hcs) as (r & Hl & Hnd & Hin). exists r.
      split_and!; [done|done|]. intros k. rw Hin. exact (elem_of_entries td vis ci cols ts Hia rows cs k Hp).
  - split; [intros _; exact Hrun|]. intros Hno. exfalso. apply Hd. apply (distinct_iff td vis ci cols ts Hia rows Hp). intros Hdup. by apply Hno.
Qed.

End spec.

(** ** An example *)

Section example.
#[local] Existing Instance Tuple.sample_codecs.
#[local] Existing Instance Tuple.sample_codec_laws.
#[local] Existing Instance Tuple.sample_show.
#[local] Existing Instance Tuple.sample_read.
#[local] Existing Instance Tuple.sample_json.
#[local] Existing Instance Lexer.ascii_only.
#[local] Existing Instance Lexer.no_floats.
#[local] Existing Instance Scan.sample_engine.
#[local] Existing Instance Collections.plain.
#[local] Existing Instance SecondaryIndex.Value_eq_dec.
#[local] Existing Instance no_libm.

Definition city_system : System unit BTree.BTree.BPlusTree :=
  mkSystem (mkWorld city_tables ∅ ∅ ∅ [] None) (Catalog.database_new (chars "main")) ∅ {[chars "main"]} (chars "main") ∅.
Definition by_id : CreateIndexStmt := mkCreateIndex (chars "by_id") (chars "t") [chars "id"] false.
Definition id_type : SecondaryIndex.ColType := SecondaryIndex.mkColType TInt64 0.

Lemma city_indexable : indexable city_table city_vis by_id [0%nat] [id_type].
Proof.
  split.
  - by vm_compute.
  - repeat constructor; by vm_compute.
  - apply (bool_decide_unpack _). by vm_compute.
  - by vm_compute.
  - done.
  - constructor; [|constructor]. by intros c [= <-].
  - apply city_all. unfold keyed_rows, city_rows. cbn [map]. repeat apply Forall_cons_2; [..|apply Forall_nil_2]; cbn [fst snd].
    all: split; [by vm_compute|]; split; [unfold bytes_ok, byte_ok; apply (bool_decide_unpack _); by vm_compute|].
    all: eexists; split; [done|]; constructor; [|constructor]; by split.
Qed.

Lemma create_index_correct_witness : let s := mkSession Transaction.new false in ∃ sec,
  exec_create_index by_id (city_system, s) = Some (QOk (OkText (index_created by_id)),
    (with_tables city_system (<[chars "t" := with_secondary city_table (secondary_indexes city_table ++ [sec])]> city_tables), s)) ∧
  indexes_kept (with_secondary city_table (secondary_indexes city_table ++ [sec])) city_vis.
Proof.
  intros s. destruct (proj2 (create_index_correct city_system s city_table (list_to_map city_data) city_vis by_id [0%nat] [id_type]
    ltac:(by vm_compute) city_shows city_indexes city_indexable) ltac:(by intros [? _])) as (sec & Hrun & _ & Hk & _).
  by exists sec.
Defined.
End example.
End DdlSpec.
