(* ===== verification/Persist.v ===== *)
(** The engine with its disk store ([bytedb-query/src/executor/engine.rs]): how the
    changes of a statement reach the files of the tables, what statements on tables
    and databases do to the catalog, and how tables are built from the files.

    A statement notes the rows it writes ([Dml.log_delta]). Outside a transaction
    they are appended to the logs of the tables when the statement has succeeded;
    inside one they are kept until COMMIT. A log that has become long is replaced by
    a base file with the rows of the tree. *)
From S2P Require Import Prelude ByteOrder Value OrderKey OrderedIndex SecondaryIndex Schema Tuple Transaction VersionStore Wal DiskManager Civil Literals Sql TableFiles Lexer Parser SqlPrint SqlRoundTrip Like DbFiles Strings Float64 Eval Scan Collections Stats Plan Cost Optimizer Exec Window Join Aggregate TableAccess Subquery Query Catalog Dml Ddl.
Import Value OrderKey DiskManager Sql Like Strings Eval Collections Plan Exec TableAccess Query Dml Ddl.
Import DbFiles (CatalogCodec, DiskStore).

Module Persist.

Definition LOG_COMPACT_THRESHOLD_BYTES : Z := 8 * 1024 * 1024.

(** A change of a row with its table. *)
Definition Delta : Type := str * TableFiles.LogDelta.

Section persist.
Context {J T : Type} `{!JsonShow J, !JsonRead J} `{!Codecs} `{Unicode} `{FloatText} `{!Engine J} `{!KvTree T} `{!HashOrder} `{!Unordered} `{!Libm}.
Context `{!CatalogCodec J} `{!Crc32}.
Local Abbreviation result := (ExecutionResult J).
Local Abbreviation entry := (list Z * list Z)%type.

(** ** State *)

Record Stored : Type := mkStored {
  system_of : System J T;
  store : DiskStore J;
  txn_deltas : gmap Z (list Delta);
}.

Local Abbreviation P := (Db_of Stored).

Definition p_fail {A} (e : QueryError) : P A := λ st, Some (QErr e, st).
Definition stored : P Stored := λ st, Some (QOk st.1, st).
Definition update (f : Stored → Stored) : P () := λ st, Some (QOk (), (f st.1, st.2)).
Definition in_system {A} (m : Db_of (System J T) A) : P A := λ '(p, s),
  '(r, (y, s)) ← m (system_of p, s); Some (r, (mkStored y (store p) (txn_deltas p), s)).

Definition set_store (ds : DiskStore J) (p : Stored) : Stored := mkStored (system_of p) ds (txn_deltas p).
Definition set_txn_deltas (m : gmap Z (list Delta)) (p : Stored) : Stored := mkStored (system_of p) (store p) m.
Definition on_store (f : DiskStore J → DiskStore J) : P () := update (λ p, set_store (f (store p)) p).
Definition world_in (p : Stored) : World J T := world_of (system_of p).

(** ** Changes on their way to the disk *)

(** The sequences of a table in the order of the hash table. *)
Definition table_sequences (table : str) (w : World J T) : list (str * Z) :=
  (λ kv, (name_of kv.1.2, kv.2)) <$> filter (λ kv : (str * string) * Z, kv.1.1 = table) (hash_iter (sequences w)).

Definition flush_sequences_for (table : str) (w : World J T) (ds : DiskStore J) : DiskStore J :=
  match table_sequences table w with [] => ds | seqs => DbFiles.flush_table_sequences table seqs ds end.

Definition by_table (l : list Delta) : gmap str (list TableFiles.LogDelta) :=
  foldl (λ m td, <[td.1 := default [] (m !! td.1) ++ [td.2]]> m) ∅ l.

(** One table: its log is appended to, and replaced if it has become too long. *)
Definition write_table_deltas (w : World J T) (ds : DiskStore J) (table : str) (l : list TableFiles.LogDelta) : option (DiskStore J) :=
  let ds := DbFiles.append_table_log table l ds in
  match tables w !! table with
  | None => Some ds
  | Some td =>
      let ds := flush_sequences_for table w ds in
      if LOG_COMPACT_THRESHOLD_BYTES <=? DbFiles.table_log_bytes table ds then
        entries ← kt_scan_all (index td); Some (DbFiles.compact_table table entries ds)
      else Some ds
  end.

Fixpoint write_tables (w : World J T) (ds : DiskStore J) (l : list (str * list TableFiles.LogDelta)) : option (DiskStore J) :=
  match l with
  | [] => Some ds
  | (table, deltas) :: l' => ds ← write_table_deltas w ds table deltas; write_tables w ds l'
  end.

Definition write_deltas_to_disk (w : World J T) (ds : DiskStore J) (l : list Delta) : option (DiskStore J) :=
  match l with [] => Some ds | _ => write_tables w ds (hash_iter (by_table l)) end.

Definition persist (l : list Delta) : P () := λ '(p, s), ds ← write_deltas_to_disk (world_in p) (store p) l; Some (QOk (), (set_store ds p, s)).

(** The pending changes are taken. *)
Definition take_pending : P (list Delta) :=
  p ← stored; _ ← in_system (in_world clear_pending_deltas); mret (default [] (deltas (world_in p))).

Definition stash_or_persist_deltas (txn : option Z) : P () :=
  l ← take_pending;
  match txn with
  | Some tid =>
      if bool_decide (l = []) then mret ()
      else update (λ p, set_txn_deltas (<[tid := default [] (txn_deltas p !! tid) ++ l]> (txn_deltas p)) p)
  | None => persist l
  end.

Definition commit_txn_deltas (tid : Z) : P () :=
  p ← stored;
  _ ← update (λ p, set_txn_deltas (delete tid (txn_deltas p)) p);
  persist (default [] (txn_deltas p !! tid)).

Definition discard_txn_deltas (tid : Z) : P () := update (λ p, set_txn_deltas (delete tid (txn_deltas p)) p).

(** ** Statements on rows *)

Context (stats : Cost.StatsCatalog (J := J)) (other : Tables J T → PhysicalPlan → Q result).

(** INSERT, UPDATE and DELETE: the changes of a statement that fails are forgotten,
    although rows it has written stay in the tree. *)
Definition change_rows (m : Db_of (World J T) result) (txn : option Z) : P result := λ st,
  '(r, st) ← in_system (in_world m) st;
  match r with
  | QOk a => (_ ← stash_or_persist_deltas txn; mret a) st
  | QErr e => (_ ← in_system (in_world clear_pending_deltas); p_fail e) st
  end.

Definition undo_effects (tid : Z) : P () := _ ← discard_txn_deltas tid; in_system (in_world (rollback_txn_effects tid)).

Definition commit_stored (txn : option Z) : P result :=
  match txn with
  | None => p_fail no_transaction
  | Some tid =>
      failed ← in_system (in_world (end_txn (Transaction.commit tid)));
      match failed with
      | None =>
          _ ← in_system (in_world (clear_txn_undo tid));
          _ ← commit_txn_deltas tid;
          _ ← in_system (in_world (wal_append (Wal.Commit tid)));
          mret (OkText (chars "COMMIT"))
      | Some e =>
          _ ← undo_effects tid;
          _ ← in_system (in_world (wal_append (Wal.Abort tid)));
          p_fail (Execution (core_error_text e))
      end
  end.

Definition rollback_stored (txn : option Z) : P result :=
  match txn with
  | None => p_fail no_transaction
  | Some tid => _ ← discard_txn_deltas tid; in_system (in_world (exec_rollback (Some tid)))
  end.

(** ** Tables from files *)

Fixpoint insert_entries (t : T) (l : list entry) : option T :=
  match l with [] => Some t | (k, v) :: l' => t ← kt_insert t k v; insert_entries t l' end.

Definition find_sequence (col : str) (seqs : list (str * Z)) : Z :=
  from_option (λ x, x.2.2) 1 (list_find (λ s : str * Z, s.1 = col) seqs).

Definition loaded_sequences (tcat : DbFiles.TableCatalog J) (m : gmap (str * string) Z) : gmap (str * string) Z :=
  foldl (λ m c, if Schema.auto_increment c
                then <[(DbFiles.name tcat, Schema.col_name c) := find_sequence (name_of (Schema.col_name c)) (DbFiles.sequences tcat)]> m else m)
    (without_sequences (DbFiles.name tcat) m) (Schema.columns (DbFiles.schema tcat)).

(** [build_table_data]: the rows, the indexes and the constraints; the name is
    entered into the catalog of the engine, if it is not there. *)
Definition build_table_data (tcat : DbFiles.TableCatalog J) : P (TableData J T) := λ '(p, s),
  loaded ← DbFiles.load_table (DbFiles.name tcat) (store p);
  match loaded with
  | Err e => Some (QErr (Execution (core_error_text e)), (p, s))
  | Ok entries =>
      index ← insert_entries (pk_tree (DbFiles.name tcat)) entries;
      secs ← build_secondary_indexes (DbFiles.schema tcat) index (DbFiles.indexes tcat);
      match secs with
      | Err e => Some (QErr (Execution (core_error_text e)), (p, s))
      | Ok secs =>
          let meta := Catalog.meta_new (DbFiles.name tcat) (DbFiles.schema tcat) (DbFiles.table_id tcat) in
          let y := system_of p in
          let checks := SqlRoundTrip.reload_checks (name_of <$> Schema.check_constraints (DbFiles.schema tcat)) in
          Some (QOk (mkTable (DbFiles.schema tcat) index VersionStore.new checks secs),
                (mkStored (set_database (Catalog.create_table (database y) meta).1 y) (store p) (txn_deltas p), s))
      end
  end.

Definition install (tcat : DbFiles.TableCatalog J) (td : TableData J T) : P () :=
  in_system (in_world (Dml.change (λ w,
    set_sequences (loaded_sequences tcat (sequences w)) (set_tables (<[DbFiles.name tcat := td]> (tables w)) w)))).

Fixpoint restore_tables (l : list (DbFiles.TableCatalog J)) : P () :=
  match l with [] => mret () | tcat :: l' => td ← build_table_data tcat; _ ← install tcat td; restore_tables l' end.

Definition restore_current_db_from_disk : P () :=
  _ ← in_system (in_world (Dml.change (λ w, set_sequences ∅ (set_tables ∅ w))));
  p ← stored;
  restore_tables (DbFiles.tables (DbFiles.catalog (store p))).

(** [attach_disk_store]: an error of the restoration is ignored. *)
Definition attach_disk_store (y : System J T) (ds : DiskStore J) : P () := λ '(_, s),
  let y := set_databases (databases y ∪ list_to_set (DbFiles.list_databases (DbFiles.registry ds))) (db_tables y) y in
  let y := mkSystem (set_deltas (Some []) (world_of y)) (database y) (Ddl.stats y) (databases y) (current_db y) (db_tables y) in
  '(_, st) ← restore_current_db_from_disk (mkStored y ds ∅, s); Some (QOk (), st).

Definition reload_table_from_disk (name : str) : P (option (TableData J T)) :=
  p ← stored;
  match DbFiles.find_table name (DbFiles.catalog (store p)) with
  | None => mret None
  | Some tcat => td ← build_table_data tcat; _ ← install tcat td; mret (Some td)
  end.

(** [get_table]: a table that is not in memory is loaded. *)
Definition get_stored_table (name : str) : P (TableData J T) :=
  p ← stored;
  match tables (world_in p) !! name with
  | Some td => mret td
  | None => o ← reload_table_from_disk name; match o with Some td => mret td | None => p_fail (no_table name) end
  end.

(** ** Eviction *)

Definition fk_involved (c : DbFiles.DbCatalog J) : gset str :=
  list_to_set (DbFiles.tables c ≫= λ t, Schema.foreign_keys (DbFiles.schema t) ≫= λ fk, [DbFiles.name t; name_of (Schema.ref_table fk)]).

(** The loop over the candidates: a table goes if nobody holds it and it has no
    versions. *)
Fixpoint evict_loop (in_use : str → bool) (want : nat) (l : list str) (ts : Tables J T) : Tables J T * nat :=
  match want, l with
  | O, _ | _, [] => (ts, 0%nat)
  | S want', name :: l' =>
      match ts !! name with
      | Some td =>
          if negb (in_use name) && (VersionStore.key_count (version_store td) =? 0) then
            let '(ts, n) := evict_loop in_use want' l' (delete name ts) in (ts, S n)
          else evict_loop in_use want l' ts
      | None => evict_loop in_use want l' ts
      end
  end.

Definition older (last_access : str → Z) (a b : str) : Prop := last_access a ≤ last_access b.
#[local] Instance older_dec f : RelDecision (older f).
Proof. intros a b. unfold older. apply _. Defined.

(** [evict_cold_tables], with the times of the last accesses and the tables that
    are held elsewhere. The sequences of a table go with it. *)
Definition evict_cold_tables (last_access : str → Z) (in_use : str → bool) (max_resident : nat) : P nat := λ '(p, s),
  let w := world_in p in
  if bool_decide (max_resident = 0%nat) || bool_decide (size (tables w) ≤ max_resident)%nat then Some (QOk 0%nat, (p, s))
  else
    let names := filter (λ n, n ∉ fk_involved (DbFiles.catalog (store p))) (hash_iter (tables w)).*1 in
    let candidates := merge_sort (older last_access) names in
    let '(ts, n) := evict_loop in_use (size (tables w) - max_resident) candidates (tables w) in
    let seqs := filter (λ kv : (str * string) * Z, is_Some (ts !! kv.1.1)) (sequences w) in
    let y := system_of p in
    Some (QOk n, (mkStored (mkSystem (set_sequences seqs (set_tables ts w)) (database y) (Ddl.stats y) (databases y) (current_db y) (db_tables y))
                    (store p) (txn_deltas p), s)).

(** ** Statements on tables and databases *)

Definition flush_table_to_disk (table : str) : P () := λ '(p, s),
  match tables (world_in p) !! table with
  | None => Some (QOk (), (p, s))
  | Some td =>
      entries ← kt_scan_all (index td);
      Some (QOk (), (set_store (flush_sequences_for table (world_in p) (DbFiles.compact_table table entries (store p))) p, s))
  end.

Definition stored_create_table (ct : CreateTableStmt) : P result :=
  p ← stored;
  let table_id := wrap 32 (Z.of_nat (size (tables (world_in p)))) + 1 in
  r ← in_system (exec_create_table ct);
  p ← stored;
  _ ← on_store (DbFiles.upsert_table (ct_name ct) table_id (schema_of ct) (table_sequences (ct_name ct) (world_in p)));
  _ ← on_store (DbFiles.flush_table_data (ct_name ct) []);
  mret r.

Definition stored_drop_table (name : str) (if_exists : bool) : P result :=
  p ← stored;
  r ← in_system (exec_drop_table name if_exists);
  _ ← (if Catalog.table_exists (database (system_of p)) name then on_store (DbFiles.drop_table name) else mret () : P ());
  mret r.

Definition save_indexes (table : str) : P () :=
  p ← stored;
  match tables (world_in p) !! table with
  | Some td => on_store (DbFiles.upsert_table_indexes table (index_defs_for (schema td) (secondary_indexes td)))
  | None => mret ()
  end.

Definition stored_create_index (ci : CreateIndexStmt) : P result :=
  r ← in_system (exec_create_index ci); _ ← save_indexes (ci_table ci); mret r.

Definition stored_drop_index (name : str) : P result :=
  p ← stored;
  r ← in_system (exec_drop_index name);
  _ ← (match index_owner name (tables (world_in p)) with Some (tname, _) => save_indexes tname | None => mret () end : P ());
  mret r.

(** The new columns are not written to the catalog. *)
Definition stored_alter_table (table : str) (action : AlterTableAction) : P result :=
  r ← in_system (exec_alter_table table action);
  _ ← (match action with AddColumn _ => mret () | _ => on_store (DbFiles.upsert_table_indexes table []) end : P ());
  mret r.

Definition stored_truncate (name : str) : P result := r ← in_system (exec_truncate name); _ ← flush_table_to_disk name; mret r.

(** An operation of the store that may fail. *)
Definition try_store_op {A} (f : DiskStore J → DiskStore J * Prelude.result A) : P () := λ '(p, s),
  let '(ds, r) := f (store p) in
  Some (match r with Ok _ => QOk () | Err e => QErr (Execution (core_error_text e)) end, (set_store ds p, s)).

Definition stored_create_database (name : str) (if_not_exists : bool) : P result :=
  p ← stored;
  _ ← (if bool_decide (name ∈ databases (system_of p)) then mret () else try_store_op (DbFiles.create_database name) : P ());
  in_system (exec_create_database name if_not_exists).

Definition stored_drop_database (name : str) (if_exists : bool) : P result :=
  p ← stored;
  let y := system_of p in
  _ ← (if bool_decide (name ≠ current_db y ∧ name ∈ databases y) then try_store_op (DbFiles.drop_database name) else mret () : P ());
  in_system (exec_drop_database name if_exists).

(** The tables in use are put aside before the other database is looked for; an
    error leaves the engine without tables. *)
Definition put_aside (y : System J T) : System J T :=
  let w := world_of y in
  mkSystem (set_sequences ∅ (set_tables ∅ w)) (database y) (Ddl.stats y) (databases y) (current_db y)
    (<[current_db y := (tables w, sequences w)]> (db_tables y)).
Definition set_current (name : str) (y : System J T) : System J T :=
  mkSystem (world_of y) (database y) (Ddl.stats y) (databases y) name (db_tables y).

Definition switch_stored_database (name : str) : P () :=
  p ← stored;
  if bool_decide (current_db (system_of p) = name) then mret ()
  else
    match db_tables (system_of p) !! name with
    | Some _ =>
        _ ← in_system (modify (switch_to_database name));
        on_store (λ ds, (DbFiles.switch_database name ds).1)
    | None =>
        _ ← in_system (modify put_aside);
        _ ← try_store_op (DbFiles.switch_database name);
        _ ← in_system (modify (set_current name));
        restore_current_db_from_disk
    end.

Definition stored_use_database (name : str) : P result :=
  p ← stored;
  if bool_decide (name ∈ databases (system_of p)) then
    _ ← switch_stored_database name; mret (OkText (chars "Now using database " ++ name))
  else p_fail (no_database name).

(** ** All statements *)

Definition execute_stored (now : Z) (top : bool) (administer : Statement → Db_of (System J T) result)
    (operand : Statement → Db_of (Tables J T) result) (stmt : Statement) (txn : option Z) : P result :=
  match stmt with
  | Insert ins => statement top (change_rows (exec_insert stats other ins txn) txn)
  | Update upd => statement top (change_rows (exec_update upd txn) txn)
  | Delete del => statement top (change_rows (exec_delete del txn) txn)
  | Commit => statement top (commit_stored txn)
  | Rollback => statement top (rollback_stored txn)
  | Begin isolation => statement top (in_system (in_world (exec_begin now isolation)))
  | Select _ | Union _ _ _ | Intersect _ _ _ | Except _ _ _ =>
      in_system (in_world (on_database (execute stats txn other top operand stmt)))
  | CreateTable ct => statement top (stored_create_table ct)
  | DropTable name if_exists => statement top (stored_drop_table name if_exists)
  | CreateIndex ci => statement top (stored_create_index ci)
  | DropIndex name => statement top (stored_drop_index name)
  | AlterTable table action => statement top (stored_alter_table table action)
  | Truncate name => statement top (stored_truncate name)
  | CreateDatabase name if_not_exists => statement top (stored_create_database name if_not_exists)
  | DropDatabase name if_exists => statement top (stored_drop_database name if_exists)
  | UseDatabase name => statement top (stored_use_database name)
  | _ => statement top (in_system (administer stmt))
  end.
End persist.
Arguments Stored J T : clear implicits.
End Persist.
