(* ===== verification/PersistSpec.v ===== *)
(** What the disk store promises: when statements that changed rows have succeeded,
    and their transaction has committed, the files of every table load with exactly
    the rows the table has in memory; and an engine that is started on these files
    has these rows. *)
From S2P Require Import Prelude ByteOrder BTree Value OrderKey BTreeSpec OrderedIndex SecondaryIndex Schema Tuple Transaction VersionStore Wal DiskManager Civil Literals Sql TableFiles Lexer Parser SqlPrint SqlRoundTrip Like DbFiles Strings Float64 Eval Scan Collections Stats Plan Cost Optimizer Exec Window Join Aggregate TableAccess TableSpec Subquery Query QuerySpec Catalog Dml RollbackSpec Journal TableFilesSpec DbFilesSpec Ddl Persist.
Import Value OrderKey DiskManager Sql Like Strings Eval Collections Plan Exec TableAccess Query Dml RollbackSpec Journal Ddl Persist.
Import DbFiles (CatalogCodec, DiskStore).

Module PersistSpec.

(** ** The names of files *)

Lemma last_char (a b : list Z) x y : a ++ [x] = b ++ [y] → x = y.
Proof. intros E%(f_equal last). rw !last_snoc in E. congruence. Qed.

Lemma log_path_inj t t' : TableFiles.log_path t = TableFiles.log_path t' → TableFiles.sanitize t = TableFiles.sanitize t'.
Proof. unfold TableFiles.log_path. by intros ?%app_inv_head%app_inv_tail. Qed.
Lemma tbl_path_inj t t' : TableFiles.tbl_path t = TableFiles.tbl_path t' → TableFiles.sanitize t = TableFiles.sanitize t'.
Proof. unfold TableFiles.tbl_path. by intros ?%app_inv_head%app_inv_tail. Qed.

Lemma kinds_differ t t' :
  TableFiles.tbl_path t ≠ TableFiles.log_path t' ∧ TableFiles.tmp_path t ≠ TableFiles.log_path t' ∧ TableFiles.tmp_path t ≠ TableFiles.tbl_path t'.
Proof.
  unfold TableFiles.tbl_path, TableFiles.log_path, TableFiles.tmp_path.
  split_and!; intros E%(f_equal last); rw !app_assoc !last_app in E; vm_compute in E; discriminate.
Qed.

Lemma catalog_differs t p : p = TableFiles.tbl_path t ∨ p = TableFiles.log_path t → DbFiles.catalog_path ≠ p ∧ DbFiles.catalog_tmp ≠ p.
Proof. by intros [->| ->]. Qed.

Section spec.
Context {J T : Type} `{!JsonShow J, !JsonRead J} `{!Codecs} `{Unicode} `{FloatText} `{!Engine J} `{!KvTree T} `{!HashOrder} `{!Unordered} `{!Libm}.
Context `{!CatalogCodec J} {carries : DbFiles.DbCatalog J → Prop} `{!DbFiles.CatalogCodecLaws J carries} `{!Crc32} `{!KvTreeLaws T}.
Local Abbreviation rows := (gmap (list Z) (list Z)).
Local Abbreviation LogDelta := TableFiles.LogDelta.
Local Abbreviation state := (Stored J T * Session)%type.
Implicit Types (w : World J T) (ds : DiskStore J) (dir : TableFiles.Dir).

(** ** Files that stay as they are *)

Definition same_files (table : str) dir dir' : Prop :=
  dir' !! TableFiles.tbl_path table = dir !! TableFiles.tbl_path table ∧ dir' !! TableFiles.log_path table = dir !! TableFiles.log_path table.

Lemma stored_same (table : str) dir dir' (m : rows) : same_files table dir dir' → TableFilesSpec.stored table dir m → TableFilesSpec.stored table dir' m.
Proof. intros [Ht Hl] (base & l & Hs). exists base, l. by rw Ht Hl. Qed.

Lemma append_same t table dir l : TableFiles.sanitize t ≠ TableFiles.sanitize table → same_files t dir (TableFiles.log_append dir table l).
Proof.
  intros Hne. destruct (kinds_differ t table) as (Hp & _). unfold TableFiles.log_append. destruct l; [done|].
  split; rw lookup_insert_ne; [congruence|done| |done]. intros E%log_path_inj. congruence.
Qed.

Lemma compact_same t table dir l : TableFiles.sanitize t ≠ TableFiles.sanitize table → same_files t dir (TableFiles.compact_table dir table l).
Proof.
  intros Hne. destruct (kinds_differ table t) as (Hp1 & Hp2 & Hp3). destruct (kinds_differ t table) as (Hp4 & _).
  unfold TableFiles.compact_table, TableFiles.log_truncate, TableFiles.table_save. split.
  - rw lookup_delete_ne; [congruence|]. rw lookup_insert_ne; [intros E%tbl_path_inj; congruence|]. by rw lookup_delete_ne.
  - rw lookup_delete_ne; [intros E%log_path_inj; congruence|]. rw lookup_insert_ne; [done|]. by rw lookup_delete_ne.
Qed.

Lemma catalog_same t dir (c : DbFiles.DbCatalog J) : same_files t dir (DbFiles.catalog_save dir c).
Proof.
  unfold DbFiles.catalog_save.
  split; (rw lookup_insert_ne; [by apply (catalog_differs t); auto|]); rw lookup_delete_ne; try done; by apply (catalog_differs t); auto.
Qed.

(** The sequences are written to the catalog only. *)
Lemma sequences_same t table w ds : same_files t (DbFiles.store_dir ds) (DbFiles.store_dir (flush_sequences_for table w ds)).
Proof.
  unfold flush_sequences_for. case_match; [done|]. unfold DbFiles.flush_table_sequences. case_match. case_match; [|done].
  unfold DbFiles.save_catalog. rw DbFilesSpec.store_dir_set. apply catalog_same.
Qed.

(** ** Rows that were written can be written again *)

Lemma entries_of_lookup (l : list (list Z * list Z)) (m : rows) k v :
  foldl (λ m kv, <[kv.1 := kv.2]> m) m l !! k = Some v → (k, v) ∈ l ∨ m !! k = Some v.
Proof.
  revert m. induction l as [|[k1 v1] l IH]; intros m; cbn; [auto|]. intros [Hin|Hm]%IH; [left; by apply elem_of_cons; right|].
  destruct (decide (k1 = k)) as [->|Hne].
  - rw lookup_insert_eq in Hm. injection Hm as ->. left. by apply elem_of_cons; left.
  - rw lookup_insert_ne in Hm; [done|]. by right.
Qed.

Lemma replay_entries (l : list LogDelta) (m : rows) :
  Forall TableFilesSpec.sized l → (∀ k v, m !! k = Some v → TableFilesSpec.entry_sized (k, v)) →
  ∀ k v, replay m l !! k = Some v → TableFilesSpec.entry_sized (k, v).
Proof.
  intros Hl. revert m. induction Hl as [|d l Hd Hl IH]; intros m Hm; [done|]. apply IH. intros k v. rw TableFilesSpec.apply_lookup.
  destruct (decide (TableFiles.key d = k)) as [<-|Hne]; [|apply Hm]. case_match; [done|]. intros [= <-].
  by destruct (TableFilesSpec.sized_fields d Hd).
Qed.

Lemma stored_entries (table : str) dir (m : rows) k v : TableFilesSpec.stored table dir m → m !! k = Some v → TableFilesSpec.entry_sized (k, v).
Proof.
  intros (base & l & _ & _ & _ & [Hb _] & Hl & ->). apply (replay_entries l _ Hl). clear k v. intros k v [Hin|Hm]%entries_of_lookup; [|done].
  rw Forall_forall in Hb. exact (Hb _ Hin).
Qed.

Lemma sorted_pairs_map (m : rows) : NoDup (sorted_pairs m).*1 ∧ list_to_map (sorted_pairs m) = m.
Proof.
  assert (sorted_pairs m ≡ₚ map_to_list m) as Hp by apply merge_sort_Permutation.
  assert (NoDup (sorted_pairs m).*1) as Hnd by (rw Hp; apply NoDup_fst_map_to_list). split; [done|].
  rw (list_to_map_proper (sorted_pairs m) (map_to_list m)); [done|done|]. apply list_to_map_to_list.
Qed.

Lemma sorted_allowed (table : str) dir (m : rows) :
  TableFilesSpec.stored table dir m → 48 * Z.of_nat (size m) < 2 ^ 63 → TableFilesSpec.allowed m (TableFilesSpec.Compacted (sorted_pairs m)).
Proof.
  intros Hs Hn. destruct (sorted_pairs_map m) as [Hnd Hm]. split; [done|]. split; [done|]. split.
  - apply Forall_forall. intros [k v] Hin%elem_of_sorted_pairs. exact (stored_entries _ _ _ _ _ Hs Hin).
  - unfold zlen, sorted_pairs. rw merge_sort_Permutation length_map_to_list. done.
Qed.

(** ** Writing the changes *)

(** The changes [o] of each table are missing on the disk. *)
Definition lag w ds (o : str → list LogDelta) : Prop :=
  ∀ table td, tables w !! table = Some td → ∃ m, TableFilesSpec.stored table (DbFiles.store_dir ds) m ∧ kt_rep (index td) (replay m (o table)).

(** Different tables have different files. *)
Definition apart w : Prop := ∀ t t', is_Some (tables w !! t) → is_Some (tables w !! t') → TableFiles.sanitize t = TableFiles.sanitize t' → t = t'.

(** The rows of a table can be put into one allocation. *)
Definition roomy w : Prop := ∀ table td, tables w !! table = Some td → 48 * kt_len (index td) < 2 ^ 63.

Definition done_for (table : str) (o : str → list LogDelta) : str → list LogDelta := λ t, if decide (t = table) then [] else o t.

(** Steps on one table leave the others. *)
Lemma lag_others w ds ds' table o o' :
  lag w ds o → (∀ t, is_Some (tables w !! t) → t ≠ table → o' t = o t ∧ same_files t (DbFiles.store_dir ds) (DbFiles.store_dir ds')) →
  (∀ td m, tables w !! table = Some td → TableFilesSpec.stored table (DbFiles.store_dir ds) m → kt_rep (index td) (replay m (o table)) →
     ∃ m', TableFilesSpec.stored table (DbFiles.store_dir ds') m' ∧ kt_rep (index td) (replay m' (o' table))) →
  lag w ds' o'.
Proof.
  intros Hl Hother Hthis t td Htd. destruct (Hl t td Htd) as (m & Hs & Hr). destruct (decide (t = table)) as [->|Hne]; [by apply (Hthis td m)|].
  destruct (Hother t) as [-> Hsame]; [by exists td|done|]. exists m. split; [|done]. exact (stored_same _ _ _ _ Hsame Hs).
Qed.

Lemma lag_append w ds table o :
  apart w → is_Some (tables w !! table) → Forall TableFilesSpec.sized (o table) → lag w ds o →
  lag w (DbFiles.append_table_log table (o table) ds) (done_for table o).
Proof.
  intros Hap Hin Hsz Hl. apply (lag_others w ds _ table o _ Hl).
  - intros t Ht Hne. unfold done_for. rw decide_False; [done|]. split; [done|]. unfold DbFiles.append_table_log. rw DbFilesSpec.store_dir_set.
    apply append_same. intros E. by apply Hne, Hap.
  - intros td m Htd Hs Hr. unfold done_for. rw decide_True; [done|]. exists (replay m (o table)). split; [|done].
    unfold DbFiles.append_table_log. rw DbFilesSpec.store_dir_set. by apply TableFilesSpec.stored_append.
Qed.

Lemma lag_sequences w w' ds table o : lag w ds o → lag w (flush_sequences_for table w' ds) o.
Proof.
  intros Hl t td Htd. destruct (Hl t td Htd) as (m & Hs & Hr). exists m. split; [|done]. by apply (stored_same _ _ _ _ (sequences_same t table w' ds)).
Qed.

Lemma lag_compact w ds table td o :
  apart w → tables w !! table = Some td → o table = [] → 48 * kt_len (index td) < 2 ^ 63 → lag w ds o →
  ∃ entries, kt_scan_all (index td) = Some entries ∧ lag w (DbFiles.compact_table table entries ds) o.
Proof.
  intros Hap Htd Ho Hroom Hl. destruct (Hl table td Htd) as (m & Hs & Hr). rw Ho in Hr. exists (sorted_pairs m).
  split; [by apply kt_scan_all_rep|]. apply (lag_others w ds _ table o _ Hl).
  - intros t Ht Hne. split; [done|]. unfold DbFiles.compact_table, DbFiles.flush_table_data. rw DbFilesSpec.store_dir_set. apply compact_same.
    intros E. apply Hne, Hap; [done|by exists td|done].
  - intros td1 m1 Htd1 _ _. rw Htd in Htd1. injection Htd1 as <-. exists m. split; [|by rw Ho].
    unfold DbFiles.compact_table, DbFiles.flush_table_data. rw DbFilesSpec.store_dir_set. apply TableFilesSpec.stored_compact.
    apply (sorted_allowed table _ m Hs). by rw -(kt_len_rep _ _ Hr).
Qed.

Lemma write_table_lag w ds table o :
  apart w → roomy w → is_Some (tables w !! table) → Forall TableFilesSpec.sized (o table) → lag w ds o →
  ∃ ds', write_table_deltas w ds table (o table) = Some ds' ∧ lag w ds' (done_for table o).
Proof.
  intros Hap Hroom Hin Hsz Hl. pose proof (lag_append w ds table o Hap Hin Hsz Hl) as Hl1. destruct Hin as [td Htd].
  unfold write_table_deltas. rw Htd. pose proof (lag_sequences w w _ table _ Hl1) as Hl2. case_match; [|by eexists].
  destruct (lag_compact w _ table td _ Hap Htd (decide_True _ _ eq_refl) (Hroom _ _ Htd) Hl2) as (entries & Hsc & Hl3). rw Hsc. by eexists.
Qed.

(** ** The changes by table *)

Lemma by_table_lookup (l : list Delta) (t : str) :
  by_table l !! t = match for_table t l with [] => None | x => Some x end.
Proof.
  unfold by_table. induction l as [|[u d] l IH] using rev_ind; [apply lookup_empty|]. rw foldl_app for_table_app. cbn [foldl fst snd].
  destruct (decide (t = u)) as [->|Hne].
  - rw lookup_insert_eq IH for_table_same. by destruct (for_table u l).
  - rw lookup_insert_ne; [congruence|]. rw IH for_table_other; [done|]. by rw app_nil_r.
Qed.

(** The changes of a list of tables. *)
Definition listed (l : list (str * list LogDelta)) : str → list LogDelta := λ t, default [] ((list_to_map l : gmap str (list LogDelta)) !! t).

Lemma hash_iter_map (m : gmap str (list LogDelta)) : NoDup (hash_iter m).*1 ∧ list_to_map (hash_iter m) = m.
Proof.
  assert (NoDup (hash_iter m).*1) as Hnd by (rw hash_iter_perm; apply NoDup_fst_map_to_list). split; [done|].
  rw (list_to_map_proper (hash_iter m) (map_to_list m)); [done|apply hash_iter_perm|]. apply list_to_map_to_list.
Qed.

Lemma lag_ext w ds (o o' : str → list LogDelta) : (∀ t, o t = o' t) → lag w ds o → lag w ds o'.
Proof. intros He Hl t td Htd. rw -He. by apply Hl. Qed.

Lemma write_tables_lag w (l : list (str * list LogDelta)) ds :
  apart w → roomy w → NoDup l.*1 → Forall (λ x, is_Some (tables w !! x.1) ∧ Forall TableFilesSpec.sized x.2) l → lag w ds (listed l) →
  ∃ ds', write_tables w ds l = Some ds' ∧ lag w ds' (λ _, []).
Proof.
  intros Hap Hroom Hnd Hall. revert ds. induction l as [|[table x] l IH]; intros ds Hl; [by exists ds|]. cbn [write_tables].
  apply NoDup_cons in Hnd as [Hnin Hnd]. inversion_clear Hall as [|? ? [Hin Hsz] Hall'].
  assert (listed ((table, x) :: l) table = x) as Hx by (unfold listed; cbn; by rw lookup_insert_eq).
  destruct (write_table_lag w ds table (listed ((table, x) :: l)) Hap Hroom Hin) as (ds1 & Hw & Hl1); [by rw Hx|done|].
  rw Hx in Hw. rw Hw. cbn [mbind option_bind]. apply (IH Hnd Hall'). refine (lag_ext w ds1 _ _ _ Hl1).
  intros t. unfold done_for, listed. destruct (decide (t = table)) as [->|Hne].
  - by rw not_elem_of_list_to_map_1.
  - cbn. rw lookup_insert_ne; [congruence|done].
Qed.

(** The changes can be written: their tables are there and their sizes fit. *)
Definition writable w (l : list Delta) : Prop := Forall (λ d, is_Some (tables w !! d.1) ∧ TableFilesSpec.sized d.2) l.

Lemma writable_table w (l : list Delta) t : writable w l → for_table t l ≠ [] → is_Some (tables w !! t) ∧ Forall TableFilesSpec.sized (for_table t l).
Proof.
  intros Hw Hne. assert (∀ d, d ∈ for_table t l → is_Some (tables w !! t) ∧ TableFilesSpec.sized d) as Hd.
  { intros d ([u d'] & -> & [Hu Hin]%list_elem_of_filter)%list_elem_of_fmap. cbn in Hu. subst u. unfold writable in Hw. rw Forall_forall in Hw. by apply (Hw (t, d')). }
  split; [|apply Forall_forall; intros d Hin; by destruct (Hd d Hin)]. destruct (for_table t l) as [|d x]; [done|]. apply (Hd d), elem_of_cons. by left.
Qed.

Lemma write_deltas_lag w ds (l : list Delta) :
  apart w → roomy w → writable w l → lag w ds (λ t, for_table t l) → ∃ ds', write_deltas_to_disk w ds l = Some ds' ∧ lag w ds' (λ _, []).
Proof.
  intros Hap Hroom Hw Hl. unfold write_deltas_to_disk. destruct l as [|d l]; [by exists ds|]. set (l0 := d :: l) in *.
  destruct (hash_iter_map (by_table l0)) as [Hnd Hmap].
  apply (write_tables_lag w (hash_iter (by_table l0)) ds Hap Hroom Hnd).
  - apply Forall_forall. intros [t x] Hin%elem_of_hash_iter. rw by_table_lookup in Hin. cbn [fst snd].
    destruct (for_table t l0) as [|y z] eqn:Hf; [done|]. injection Hin as <-. rw -Hf. apply (writable_table w l0 t Hw). by rw Hf.
  - refine (lag_ext w ds _ _ _ Hl). intros t. unfold listed. rw Hmap by_table_lookup. by destruct (for_table t l0).
Qed.

(** ** Statements *)

Context (stats : Cost.StatsCatalog (J := J)) (other : Tables J T → PhysicalPlan → Q (ExecutionResult J)) (now : Z)
  (administer : Statement → Db_of (System J T) (ExecutionResult J)) (operand : Statement → Db_of (Tables J T) (ExecutionResult J)) (txn : option Z).

Local Abbreviation run := (execute_stored stats other now true administer operand).

(** What the transaction has changed and not yet written. *)
Definition outstanding (p : Stored J T) : list Delta := match txn with Some tid => default [] (txn_deltas p !! tid) | None => [] end.

(** The disk has the rows of the memory, but for what is outstanding. *)
Record in_step (p : Stored J T) : Prop := {
  is_pending : deltas (world_in p) = Some [];
  is_apart : apart (world_in p);
  is_roomy : roomy (world_in p);
  is_writable : writable (world_in p) (outstanding p);
  is_lag : lag (world_in p) (store p) (λ t, for_table t (outstanding p));
}.

(** The changes of a statement and the tables behind it have sizes that can be
    written. *)
Definition small_delta (d : Delta) : bool := zlen (TableFiles.body_of d.2) <? 2 ^ 32.
Definition small_world w : bool :=
  forallb small_delta (default [] (deltas w)) && forallb (λ e, 48 * kt_len (index e.2) <? 2 ^ 63) (map_to_list (tables w)).
Definition fitting (stmt : Statement) (st : state) : bool :=
  match row_change stats other stmt txn (world_in st.1, mkSession (txns st.2) false) with Some (_, (w, _)) => small_world w | None => false end.

(** The statements succeed one after the other. *)
Fixpoint run_fitting (stmts : list Statement) (st : state) : option state :=
  match stmts with
  | [] => Some st
  | stmt :: stmts' =>
      if fitting stmt st then match run stmt txn st with Some (QOk _, st') => run_fitting stmts' st' | _ => None end else None
  end.

Lemma small_world_ok w : small_world w = true → Forall (λ d, TableFilesSpec.sized d.2) (default [] (deltas w)) ∧ roomy w.
Proof.
  intros [Hd Ht]%andb_true_iff. split.
  - apply Forall_forall. intros d Hin%list_elem_of_In. rw forallb_forall in Hd. specialize (Hd d Hin). unfold small_delta in Hd. unfold TableFilesSpec.sized. lia.
  - intros table td Htd. rw forallb_forall in Ht. specialize (Ht (table, td)). cbn in Ht.
    assert (48 * kt_len (index td) <? 2 ^ 63 = true) as Hb; [|lia]. apply Ht. exact (proj1 (list_elem_of_In _ _) (proj2 (elem_of_map_to_list _ _ _) Htd)).
Qed.

(** ** Running inside the engine *)

Definition with_world w (p : Stored J T) : Stored J T :=
  let y := system_of p in mkStored (mkSystem w (database y) (Ddl.stats y) (databases y) (current_db y) (db_tables y)) (store p) (txn_deltas p).

Lemma in_world_run {A} (m : Db_of (World J T) A) (p : Stored J T) (s : Session) :
  in_system (in_world m) (p, s) = '(r, (w, s')) ← m (world_in p, s); Some (r, (with_world w p, s')).
Proof. unfold in_system, in_world, world_in. by destruct (m (world_of (system_of p), s)) as [[r [w s']]|]. Qed.

(** What is said of the disk depends on the tables only. *)
Lemma lag_tables w w' ds o : tables w' = tables w → lag w ds o → lag w' ds o.
Proof. intros He Hl table td. rw He. apply Hl. Qed.
Lemma apart_tables w w' : tables w' = tables w → apart w → apart w'.
Proof. intros He Ha t t'. rw He. apply Ha. Qed.
Lemma writable_tables w w' l : tables w' = tables w → writable w l → writable w' l.
Proof. unfold writable. by intros ->. Qed.

(** The changes of a statement come on top of what is outstanding. *)
Lemma noted_lag (l : list Delta) (p : Stored J T) w :
  in_step p → noted l (world_in p) w → Forall (λ d, TableFilesSpec.sized d.2) l →
  apart w ∧ writable w (outstanding p ++ l) ∧ lag w (store p) (λ t, for_table t (outstanding p ++ l)).
Proof.
  intros [Hp Hap Hroom Hw Hl] (Hd & Hres & Hback & Ht) Hsz. assert (∀ t, is_Some (tables (world_in p) !! t) → is_Some (tables w !! t)) as Hfwd.
  { intros t [td Htd]. destruct (Ht t td Htd) as (td' & Htd' & _). by exists td'. }
  split; [|split].
  - intros t t' Hi Hi'. apply Hap; by apply Hback.
  - apply Forall_app. split.
    + apply (Forall_impl _ _ _ Hw). intros d [Hi Hs]. split; [by apply Hfwd|done].
    + apply Forall_forall. intros d Hin. rw Forall_forall in Hres. rw Forall_forall in Hsz. split; [by apply Hfwd, Hres|by apply Hsz].
  - intros table td' Htd'. destruct (Hback table) as [td Htd]; [by exists td'|]. destruct (Ht table td Htd) as (td1 & Htd1 & _ & Hrep).
    rw Htd' in Htd1. injection Htd1 as <-. destruct (Hl table td Htd) as (m & Hs & Hr). exists m. split; [done|].
    rw for_table_app replay_app. by apply Hrep.
Qed.

Lemma persist_run (l : list Delta) (p : Stored J T) (s : Session) :
  apart (world_in p) → roomy (world_in p) → writable (world_in p) l → lag (world_in p) (store p) (λ t, for_table t l) →
  ∃ ds, persist l (p, s) = Some (QOk (), (set_store ds p, s)) ∧ lag (world_in p) ds (λ _, []).
Proof.
  intros Hap Hroom Hw Hl. destruct (write_deltas_lag (world_in p) (store p) l Hap Hroom Hw Hl) as (ds & Hr & Hl').
  exists ds. split; [|done]. unfold persist. by rw Hr.
Qed.

Definition cleared w : World J T := set_deltas ((λ _, []) <$> deltas w) w.

Lemma take_pending_run (p : Stored J T) (s : Session) :
  take_pending (p, s) = Some (QOk (default [] (deltas (world_in p))), (with_world (cleared (world_in p)) p, s)).
Proof. unfold take_pending, mbind at 1, Db_bind. cbn [stored mbind option_bind fst]. unfold mbind at 1, Db_bind. by rw in_world_run. Qed.

(** The pending changes of a statement that succeeded are stashed or written. *)
Lemma stash_in_step (l : list Delta) (p0 p : Stored J T) (s : Session) r (p' : Stored J T) (s' : Session) :
  in_step p0 → txn_deltas p = txn_deltas p0 → store p = store p0 → noted l (world_in p0) (world_in p) → Forall (λ d, TableFilesSpec.sized d.2) l →
  roomy (world_in p) → stash_or_persist_deltas txn (p, s) = Some (r, (p', s')) → in_step p'.
Proof.
  intros Hin0 Htd Hst Hn Hsz Hroom Hrun. destruct (noted_lag l p0 _ Hin0 Hn Hsz) as (Hap & Hw & Hl). pose proof (proj1 Hn) as Hd.
  rw (is_pending _ Hin0) in Hd. cbn in Hd. unfold stash_or_persist_deltas, mbind at 1, Db_bind in Hrun. rw take_pending_run in Hrun. rw Hd in Hrun.
  cbn [mbind option_bind default from_option id] in Hrun. set (w := cleared (world_in p)) in *.
  assert (deltas w = Some []) as Hcl by (unfold w, cleared; cbn; by rw Hd).
  assert (∀ o, lag (world_in p) (store p0) o → lag w (store p0) o) as Hlag by (intros o; by apply lag_tables).
  unfold outstanding in Hw, Hl. destruct txn as [tid|] eqn:Etxn.
  - destruct (bool_decide (l = [])) eqn:Hb.
    + apply bool_decide_eq_true in Hb as ->. injection Hrun as <- <- <-. rw app_nil_r in Hw. split; [done|by apply (apart_tables (world_in p))|done|..].
      * unfold outstanding. rw Etxn. cbn. rw Htd. by apply (writable_tables (world_in p)).
      * unfold outstanding. rw Etxn. cbn. rw Htd Hst. apply Hlag. refine (lag_ext _ _ _ _ _ Hl). intros t. by rw app_nil_r.
    + injection Hrun as <- <- <-. split; [done|by apply (apart_tables (world_in p))|done|..]; unfold outstanding; rw Etxn; cbn; rw lookup_insert_eq Htd; cbn.
      * by apply (writable_tables (world_in p)).
      * rw Hst. by apply Hlag.
  - destruct (persist_run l (with_world w p) s) as (ds & Hr & Hl'); [by apply (apart_tables (world_in p))|done|by apply (writable_tables (world_in p))| |].
    + cbn. rw Hst. by apply Hlag.
    + rw Hr in Hrun. injection Hrun as <- <- <-. split; [done|by apply (apart_tables (world_in p))|done|..]; unfold outstanding; rw Etxn; [constructor|]. done.
Qed.

Lemma statement_ok {X} (c : Db_of X (ExecutionResult J)) (x : X) (s : Session) a x' s' :
  statement true c (x, s) = Some (QOk a, (x', s')) → ∃ s1, c (x, mkSession (txns s) false) = Some (QOk a, (x', s1)).
Proof.
  unfold statement. destruct (c (x, mkSession (txns s) false)) as [[[b|e] [x1 s1]]|]; cbn; [|done..].
  destruct (pending s1); [done|]. intros [= <- <- <-]. by exists s1.
Qed.

Lemma run_changes stmt (st : state) : changes_rows stmt → run stmt txn st = statement true (change_rows (row_change stats other stmt txn) txn) st.
Proof. by destruct stmt. Qed.

Lemma statement_in_step stmt (p : Stored J T) (s : Session) a (p' : Stored J T) (s' : Session) :
  in_step p → changes_rows stmt → fitting stmt (p, s) = true → run stmt txn (p, s) = Some (QOk a, (p', s')) → in_step p'.
Proof.
  intros Hin Hc Hfit. rw run_changes; [done|]. intros [s1 Hrun]%statement_ok. unfold change_rows in Hrun. rw in_world_run in Hrun.
  unfold fitting in Hfit. cbn [fst snd] in Hfit. destruct (row_change stats other stmt txn _) as [[r [w s2]]|] eqn:Hr; [|done].
  cbn [mbind option_bind] in Hrun. destruct r as [b|e]; [|by unfold mbind, Db_bind in Hrun; rw in_world_run in Hrun].
  destruct (tracks_row_change stats other stmt txn Hc _ _ _ Hr) as [l Hn]. cbn [fst] in Hn.
  apply small_world_ok in Hfit as [Hsz Hroom]. pose proof (proj1 Hn) as Hd. rw (is_pending _ Hin) in Hd. cbn in Hd. rw Hd in Hsz.
  unfold mbind at 1, Db_bind in Hrun. destruct (stash_or_persist_deltas txn (with_world w p, s2)) as [[[u|e] [p1 s3]]|] eqn:Hs; [|done..].
  injection Hrun as <- <- <-. exact (stash_in_step l p (with_world w p) s2 _ p1 s3 Hin eq_refl eq_refl Hn Hsz Hroom Hs).
Qed.

Lemma run_in_step stmts (st st' : state) :
  Forall changes_rows stmts → in_step st.1 → run_fitting stmts st = Some st' → in_step st'.1.
Proof.
  intros Hc. revert st. induction Hc as [|stmt stmts Hs Hc IH]; intros [p s] Hin; cbn [run_fitting]; [by intros [= <-]|].
  destruct (fitting stmt (p, s)) eqn:Hfit; [|done]. destruct (run stmt txn (p, s)) as [[[a|e] [p1 s1]]|] eqn:Hr; [|done..].
  apply IH. exact (statement_in_step stmt p s a p1 s1 Hin Hs Hfit Hr).
Qed.

(** Every table can be loaded with the rows it has. *)
Definition on_disk (p : Stored J T) : Prop :=
  ∀ table td, tables (world_in p) !! table = Some td →
    ∃ m, kt_rep (index td) m ∧ TableFilesSpec.loads table (DbFiles.store_dir (store p)) m.

Definition settled (p : Stored J T) : Prop := in_step p ∧ outstanding p = [].

Lemma settled_on_disk (p : Stored J T) : settled p → on_disk p.
Proof.
  intros [[_ _ _ _ Hl] Ho] table td Htd. destruct (Hl table td Htd) as (m & Hs & Hr). rw Ho in Hr. exists m. split; [done|].
  by apply TableFilesSpec.stored_loads.
Qed.

Lemma commit_deltas_run tid (p : Stored J T) (s : Session) :
  commit_txn_deltas tid (p, s) = persist (default [] (txn_deltas p !! tid)) (set_txn_deltas (delete tid (txn_deltas p)) p, s).
Proof. done. Qed.

(** COMMIT writes what is outstanding. *)
Lemma commit_settles tid (p : Stored J T) (s : Session) a (p' : Stored J T) (s' : Session) :
  txn = Some tid → in_step p → run Commit txn (p, s) = Some (QOk a, (p', s')) → settled p'.
Proof.
  intros Ht [Hp Hap Hroom Hw Hl]. cbn [execute_stored]. intros [s1 Hrun]%statement_ok. unfold commit_stored in Hrun. rw Ht in Hrun.
  unfold mbind at 1, Db_bind in Hrun. rw in_world_run in Hrun. unfold end_txn in Hrun. cbn [mbind option_bind txns] in Hrun.
  destruct (Transaction.commit tid (txns s)) as [tm [ts|e]]; cbn [mbind option_bind] in Hrun.
  2: { unfold mbind at 1, Db_bind in Hrun. destruct (undo_effects tid _) as [[[[]|?] [p2 s2]]|]; [|done..]. cbn [mbind option_bind] in Hrun.
       unfold mbind at 1, Db_bind in Hrun. rw in_world_run in Hrun. done. }
  unfold mbind at 1, Db_bind in Hrun. rw in_world_run in Hrun. cbn [clear_txn_undo Dml.change mbind option_bind fst snd] in Hrun.
  unfold mbind at 1, Db_bind in Hrun. rw commit_deltas_run in Hrun. unfold outstanding in Hw, Hl. rw Ht in Hw, Hl.
  match type of Hrun with context [persist _ (?x, _)] => set (p1 := x) in Hrun end.
  destruct (persist_run (default [] (txn_deltas p !! tid)) p1 (mkSession tm false)) as (ds & Hr & Hl'); [done..|].
  change (txn_deltas (with_world _ _)) with (txn_deltas p) in Hrun. rw Hr in Hrun. cbn [mbind option_bind] in Hrun.
  unfold mbind at 1, Db_bind in Hrun. rw in_world_run in Hrun. injection Hrun as <- <- <-.
  match goal with |- settled ?x => assert (outstanding x = []) as Ho by (unfold outstanding; rw Ht; cbn; by rw lookup_delete_eq) end.
  split; [|exact Ho]. split; [done|done|done| |]; rw Ho; [constructor|exact Hl'].
Qed.

(** ** The catalog *)

(** The same tables, whose sequences may have moved. *)
Definition same_entry (t t' : DbFiles.TableCatalog J) : Prop :=
  DbFiles.name t' = DbFiles.name t ∧ DbFiles.schema t' = DbFiles.schema t ∧ DbFiles.indexes t' = DbFiles.indexes t.

(** The files are kept, and so are the entries of the catalog. *)
Definition store_kept ds ds' : Prop :=
  (∀ def, DbFilesSpec.kept def ds → DbFilesSpec.kept def ds') ∧
  Forall2 same_entry (DbFiles.tables (DbFiles.catalog ds)) (DbFiles.tables (DbFiles.catalog ds')).

Lemma same_entries_refl (l : list (DbFiles.TableCatalog J)) : Forall2 same_entry l l.
Proof. induction l; by constructor. Qed.

Lemma store_kept_refl ds : store_kept ds ds.
Proof. split; [done|apply same_entries_refl]. Qed.

Lemma store_kept_trans ds1 ds2 ds3 : store_kept ds1 ds2 → store_kept ds2 ds3 → store_kept ds1 ds3.
Proof.
  intros [Ha Hb] [Hc Hd]. split; [by auto|]. revert Hd. generalize (DbFiles.tables (DbFiles.catalog ds3)). clear Ha Hc.
  induction Hb as [|x y l l' (Hn & Hs & Hi) _ IH]; intros k Hk; inversion_clear Hk as [|? z ? k' (Hn' & Hs' & Hi')]; constructor; [|by apply IH].
  split_and!; congruence.
Qed.

Lemma sequences_entries n seqs (l : list (DbFiles.TableCatalog J)) : Forall2 same_entry l (DbFiles.modify_in n (DbFiles.with_sequences seqs) l).1.
Proof.
  induction l as [|t l IH]; [constructor|]. cbn [DbFiles.modify_in]. case_match.
  - constructor; [done|apply same_entries_refl].
  - destruct (DbFiles.modify_in n _ l) as [l' b]. by constructor.
Qed.

Lemma flush_sequences_kept table w ds : store_kept ds (flush_sequences_for table w ds).
Proof.
  unfold flush_sequences_for. case_match; [apply store_kept_refl|]. set (seqs := _ :: _). split.
  - intros def. exact (DbFilesSpec.kept_sequences def table seqs ds).
  - unfold DbFiles.flush_table_sequences, DbFiles.modify. pose proof (sequences_entries table seqs (DbFiles.tables (DbFiles.catalog ds))) as Hs.
    destruct (DbFiles.modify_in table _ _) as [l' [|]]; [exact Hs|apply same_entries_refl].
Qed.

Lemma append_kept table l ds : store_kept ds (DbFiles.append_table_log table l ds).
Proof. split; [intros def; exact (DbFilesSpec.kept_append def table l ds)|apply same_entries_refl]. Qed.
Lemma compact_kept table l ds : store_kept ds (DbFiles.compact_table table l ds).
Proof. split; [intros def; exact (DbFilesSpec.kept_flush def table l ds)|apply same_entries_refl]. Qed.

Lemma write_tables_kept w l ds ds' : write_tables w ds l = Some ds' → store_kept ds ds'.
Proof.
  revert ds. induction l as [|[table x] l IH]; intros ds; cbn [write_tables]; [intros [= <-]; apply store_kept_refl|].
  destruct (write_table_deltas w ds table x) as [ds1|] eqn:Hw; [|done]. cbn. intros Hrest. apply (store_kept_trans _ ds1); [|by apply IH].
  revert Hw. unfold write_table_deltas. pose proof (append_kept table x ds) as Ha. destruct (tables w !! table) as [td|]; [|by intros [= <-]].
  pose proof (store_kept_trans _ _ _ Ha (flush_sequences_kept table w _)) as Hb. case_match; [|by intros [= <-]].
  destruct (kt_scan_all (index td)) as [es|]; [|done]. intros [= <-]. exact (store_kept_trans _ _ _ Hb (compact_kept table es _)).
Qed.

Lemma persist_kept l (p : Stored J T) (s : Session) r (p' : Stored J T) s' : persist l (p, s) = Some (r, (p', s')) → store_kept (store p) (store p').
Proof.
  unfold persist. destruct (write_deltas_to_disk (world_in p) (store p) l) as [ds|] eqn:Hw; [|done]. intros [= <- <- <-]. cbn. revert Hw.
  unfold write_deltas_to_disk. destruct l; [intros [= <-]; apply store_kept_refl|apply write_tables_kept].
Qed.

Lemma stash_kept (p : Stored J T) (s : Session) r (p' : Stored J T) s' :
  stash_or_persist_deltas txn (p, s) = Some (r, (p', s')) → store_kept (store p) (store p').
Proof.
  unfold stash_or_persist_deltas, mbind at 1, Db_bind. rw take_pending_run. cbn [mbind option_bind]. destruct txn as [tid|].
  - case_match; intros [= <- <- <-]; apply store_kept_refl.
  - intros Hp. exact (persist_kept _ _ _ _ _ _ Hp).
Qed.

(** ** Schemas *)

Definition schema_at w (table : str) : option (Schema.Schema (J := J)) := schema <$> tables w !! table.

(** From [p] to [p'] files and catalog are kept, and the tables keep their schemas. *)
Definition engine_kept (p p' : Stored J T) : Prop :=
  store_kept (store p) (store p') ∧ ∀ table, schema_at (world_in p') table = schema_at (world_in p) table.

Lemma engine_kept_refl p : engine_kept p p. Proof. split; [apply store_kept_refl|done]. Qed.
Lemma engine_kept_trans p1 p2 p3 : engine_kept p1 p2 → engine_kept p2 p3 → engine_kept p1 p3.
Proof. intros [Ha Hb] [Hc Hd]. split; [exact (store_kept_trans _ _ _ Ha Hc)|]. intros t. by rw Hd Hb. Qed.

Lemma noted_schemas l w w' table : noted l w w' → schema_at w' table = schema_at w table.
Proof.
  intros (_ & _ & Hback & Ht). unfold schema_at. destruct (tables w !! table) as [td|] eqn:Htd.
  - destruct (Ht table td Htd) as (td' & -> & Hs & _). cbn. by rw Hs.
  - destruct (tables w' !! table) as [td'|] eqn:Htd'; [|done]. destruct (Hback table) as [? ?]; [by exists td'|congruence].
Qed.

Lemma persist_tables l (p : Stored J T) (s : Session) r (p' : Stored J T) s' : persist l (p, s) = Some (r, (p', s')) → world_in p' = world_in p.
Proof. unfold persist. by destruct (write_deltas_to_disk _ _ _); [intros [= <- <- <-]|]. Qed.

Lemma stash_tables (p : Stored J T) (s : Session) r (p' : Stored J T) s' :
  stash_or_persist_deltas txn (p, s) = Some (r, (p', s')) → tables (world_in p') = tables (world_in p).
Proof.
  unfold stash_or_persist_deltas, mbind at 1, Db_bind. rw take_pending_run. cbn [mbind option_bind]. destruct txn as [tid|].
  - case_match; by intros [= <- <- <-].
  - intros Hp. by rw (persist_tables _ _ _ _ _ _ Hp).
Qed.

(** The successful runs of statements and of COMMIT. *)
Lemma statement_kept stmt (p : Stored J T) (s : Session) a (p' : Stored J T) (s' : Session) :
  changes_rows stmt → run stmt txn (p, s) = Some (QOk a, (p', s')) → engine_kept p p'.
Proof.
  intros Hc. rw run_changes; [done|]. intros [s1 Hrun]%statement_ok. unfold change_rows in Hrun. rw in_world_run in Hrun.
  destruct (row_change stats other stmt txn _) as [[r [w s2]]|] eqn:Hr; [|done]. cbn [mbind option_bind] in Hrun.
  destruct r as [b|e]; [|by unfold mbind, Db_bind in Hrun; rw in_world_run in Hrun].
  destruct (tracks_row_change stats other stmt txn Hc _ _ _ Hr) as [l Hn]. cbn [fst] in Hn.
  unfold mbind at 1, Db_bind in Hrun. destruct (stash_or_persist_deltas txn (with_world w p, s2)) as [[[u|e] [p1 s3]]|] eqn:Hs; [|done..].
  injection Hrun as <- <- <-. split; [exact (stash_kept _ _ _ _ _ Hs)|]. intros table. unfold schema_at at 1. rw (stash_tables _ _ _ _ _ Hs).
  exact (noted_schemas l _ w table Hn).
Qed.

Lemma run_kept stmts (st st' : state) : Forall changes_rows stmts → run_fitting stmts st = Some st' → engine_kept st.1 st'.1.
Proof.
  intros Hc. revert st. induction Hc as [|stmt stmts Hs Hc IH]; intros [p s]; cbn [run_fitting]; [intros [= <-]; apply engine_kept_refl|].
  destruct (fitting stmt (p, s)); [|done]. destruct (run stmt txn (p, s)) as [[[a|e] [p1 s1]]|] eqn:Hr; [|done..].
  intros Hrest%IH. exact (engine_kept_trans _ _ _ (statement_kept stmt p s a p1 s1 Hs Hr) Hrest).
Qed.

Lemma commit_kept (p : Stored J T) (s : Session) a (p' : Stored J T) (s' : Session) :
  run Commit txn (p, s) = Some (QOk a, (p', s')) → engine_kept p p'.
Proof.
  cbn [execute_stored]. intros [s1 Hrun]%statement_ok. unfold commit_stored in Hrun. destruct txn as [tid|]; [|done].
  unfold mbind at 1, Db_bind in Hrun. rw in_world_run in Hrun. unfold end_txn in Hrun. cbn [mbind option_bind txns] in Hrun.
  destruct (Transaction.commit tid (txns s)) as [tm [ts|e]]; cbn [mbind option_bind] in Hrun.
  2: { unfold mbind at 1, Db_bind in Hrun. destruct (undo_effects tid _) as [[[[]|?] [p2 s2]]|]; [|done..]. cbn [mbind option_bind] in Hrun.
       unfold mbind at 1, Db_bind in Hrun. rw in_world_run in Hrun. done. }
  unfold mbind at 1, Db_bind in Hrun. rw in_world_run in Hrun. cbn [clear_txn_undo Dml.change mbind option_bind fst snd] in Hrun.
  unfold mbind at 1, Db_bind in Hrun. rw commit_deltas_run in Hrun.
  destruct (persist _ _) as [[[[]|e] [p1 s2]]|] eqn:Hp; [|done..]. cbn [mbind option_bind] in Hrun.
  unfold mbind at 1, Db_bind in Hrun. rw in_world_run in Hrun. injection Hrun as <- <- <-.
  split; [exact (persist_kept _ _ _ _ _ _ Hp)|]. intros table. unfold schema_at. cbn. by rw (persist_tables _ _ _ _ _ _ Hp).
Qed.

(** The catalog lists the tables in memory, each once, with their schemas. *)
Record catalogued (p : Stored J T) : Prop := {
  ct_once : NoDup (DbFiles.name <$> DbFiles.tables (DbFiles.catalog (store p)));
  ct_schemas : ∀ t, t ∈ DbFiles.tables (DbFiles.catalog (store p)) → schema_at (world_in p) (DbFiles.name t) = Some (DbFiles.schema t);
  ct_all : ∀ table, is_Some (tables (world_in p) !! table) → table ∈ DbFiles.name <$> DbFiles.tables (DbFiles.catalog (store p));
}.

Lemma same_names (l l' : list (DbFiles.TableCatalog J)) : Forall2 same_entry l l' → DbFiles.name <$> l' = DbFiles.name <$> l.
Proof. induction 1 as [|t t' l l' (Hn & _) _ IH]; [done|]. cbn. by rw Hn IH. Qed.

Lemma catalogued_kept p p' : engine_kept p p' → catalogued p → catalogued p'.
Proof.
  intros [[_ He] Hsc] [Ho Hs Ha]. split.
  - by rw (same_names _ _ He).
  - intros t' Hin. apply list_elem_of_lookup_1 in Hin as [i Hi]. destruct (Forall2_lookup_r _ _ _ _ _ He Hi) as (t & Ht & Hn & Hsch & _).
    rw Hsc Hn Hsch. apply Hs. exact (list_elem_of_lookup_2 _ _ _ Ht).
  - intros table [td Htd]. rw (same_names _ _ He). apply Ha. pose proof (Hsc table) as Hx. unfold schema_at in Hx. rw Htd in Hx.
    destruct (tables (world_in p) !! table) as [td0|]; [by exists td0|done].
Qed.

(** ** Starting again *)

Lemma insert_entries_rep (l : list (list Z * list Z)) (t : T) (m : rows) :
  kt_rep t m → ∃ t', insert_entries t l = Some t' ∧ kt_rep t' (foldl (λ m kv, <[kv.1 := kv.2]> m) m l).
Proof.
  revert t m. induction l as [|[k v] l IH]; intros t m Hm; [by exists t|]. cbn [insert_entries].
  destruct (kt_insert_rep t m k v Hm) as (t1 & -> & Hr). exact (IH t1 _ Hr).
Qed.

(** The indexes of a table can be built over its rows. *)
Definition rebuilds (tcat : DbFiles.TableCatalog J) (m : rows) : Prop :=
  ∀ t, kt_rep t m → ∃ secs, build_secondary_indexes (T := T) (DbFiles.schema tcat) t (DbFiles.indexes tcat) = Some (Ok secs).

(** ** Indexes that are not unique can be built over any rows *)

Definition plain_defs (tcat : DbFiles.TableCatalog J) : Prop := Forall (λ d, DbFiles.idx_unique d = false) (DbFiles.indexes tcat).

Lemma rebuild_plain (l : list (list Z * list Z)) (sec : SecondaryIndex.SecondaryIndex T) :
  plain_index sec → ∃ sec', rebuild_index (J := J) sec l = Some (sec', Ok ()).
Proof.
  revert sec. induction l as [|[pk data] l IH]; intros sec [Hu [m Hm]]; cbn [rebuild_index]; [by eexists|].
  destruct (mbind _ (Tuple.deserialize_columns data _)) as [key_vals|]; [|apply IH; split; [done|by exists m]].
  unfold SecondaryIndex.insert. rw Hu. cbn [mbind option_bind].
  destruct (kt_insert_rep (SecondaryIndex.tree sec) m (SecondaryIndex.composite key_vals pk) pk Hm) as (t & -> & Ht). cbn [mbind option_bind].
  apply IH. split; [done|]. eexists. exact Ht.
Qed.

Lemma plain_rebuilds (tcat : DbFiles.TableCatalog J) (m : rows) : plain_defs tcat → rebuilds tcat m.
Proof.
  intros Hp t Ht. unfold build_secondary_indexes. destruct (DbFiles.indexes tcat) as [|d defs] eqn:E; [by eexists|]. rw -E.
  unfold plain_defs in Hp. clear E. rw (kt_scan_all_rep _ _ Ht). cbn [mbind option_bind].
  induction Hp as [|d' defs' Hd _ IH]; cbn [build_indexes]; [by eexists|]. destruct (negb _); [done|].
  destruct (rebuild_plain (sorted_pairs m) (SecondaryIndex.new (key_of (DbFiles.idx_name d'))
    (omap (λ c, Schema.column_index (DbFiles.schema tcat) (key_of c)) (DbFiles.idx_columns d')) (DbFiles.idx_unique d'))) as [sec ->].
  { split; [done|]. exists ∅. apply kt_new_rep. lia. }
  cbn [mbind option_bind]. destruct IH as [secs ->]. by eexists.
Qed.

(** A table in memory with the schema of its entry and the rows [m]. *)
Definition holds_table w (tcat : DbFiles.TableCatalog J) (m : rows) : Prop :=
  ∃ td, tables w !! DbFiles.name tcat = Some td ∧ schema td = DbFiles.schema tcat ∧ kt_rep (index td) m.

Lemma build_run (p : Stored J T) (s : Session) tcat m :
  TableFilesSpec.loads (DbFiles.name tcat) (DbFiles.store_dir (store p)) m → rebuilds tcat m →
  ∃ td p', build_table_data tcat (p, s) = Some (QOk td, (p', s)) ∧ store p' = store p ∧ world_in p' = world_in p ∧
    schema td = DbFiles.schema tcat ∧ kt_rep (index td) m.
Proof.
  intros (l & Hload & Hnd & Hm) Hreb. unfold build_table_data, DbFiles.load_table. rw Hload. cbn [mbind option_bind].
  destruct (insert_entries_rep l (pk_tree (DbFiles.name tcat)) ∅) as (t & Ht & Hr); [apply kt_new_rep; lia|].
  assert (kt_rep t m) as Hrep by (rw -Hm -(TableFilesSpec.of_entries_list l Hnd); exact Hr).
  rw Ht. cbn [mbind option_bind]. destruct (Hreb t Hrep) as [secs ->]. cbn [mbind option_bind]. do 2 eexists. by split_and!.
Qed.

Lemma install_run (p : Stored J T) (s : Session) tcat td :
  ∃ p', install tcat td (p, s) = Some (QOk (), (p', s)) ∧ store p' = store p ∧
    tables (world_in p') = <[DbFiles.name tcat := td]> (tables (world_in p)).
Proof. unfold install. rw in_world_run. cbn [Dml.change mbind option_bind fst snd]. eexists. split; [done|]. by split. Qed.

Lemma restore_tables_run (l : list (DbFiles.TableCatalog J)) (rows_of : DbFiles.TableCatalog J → rows) (p : Stored J T) (s : Session) :
  NoDup (DbFiles.name <$> l) →
  (∀ t, t ∈ l → TableFilesSpec.loads (DbFiles.name t) (DbFiles.store_dir (store p)) (rows_of t) ∧ rebuilds t (rows_of t)) →
  ∃ p', restore_tables l (p, s) = Some (QOk (), (p', s)) ∧ store p' = store p ∧ (∀ t, t ∈ l → holds_table (world_in p') t (rows_of t)) ∧
    ∀ table, table ∉ DbFiles.name <$> l → tables (world_in p') !! table = tables (world_in p) !! table.
Proof.
  revert p. induction l as [|t l IH]; intros p Hnd Hall.
  { exists p. split_and!; [done..| |done]. intros t Ht. by apply elem_of_nil in Ht. }
  cbn in Hnd. apply NoDup_cons in Hnd as [Hn Hnd]. destruct (Hall t) as [Hload Hreb]; [by apply elem_of_cons; left|].
  destruct (build_run p s t (rows_of t) Hload Hreb) as (td & p1 & Hr1 & Hs1 & Hw1 & Hsch & Hrep).
  destruct (install_run p1 s t td) as (p2 & Hr2 & Hs2 & Ht2).
  destruct (IH p2 Hnd) as (p3 & Hr3 & Hs3 & Hh3 & Ho3).
  { intros t' Hin. rw Hs2 Hs1. apply Hall. by apply elem_of_cons; right. }
  exists p3. split_and!.
  - cbn [restore_tables]. unfold mbind at 1, Db_bind. rw Hr1. cbn [mbind option_bind]. unfold mbind at 1, Db_bind. by rw Hr2.
  - congruence.
  - intros t' Hin. apply elem_of_cons in Hin as [->|Hin]; [|by apply Hh3]. exists td. split; [|done]. rw Ho3; [done|]. by rw Ht2 lookup_insert_eq.
  - intros table Hne. cbn in Hne. apply not_elem_of_cons in Hne as [Hne Hnin]. rw Ho3; [done|]. rw Ht2 lookup_insert_ne; [congruence|]. by rw Hw1.
Qed.

Lemma restore_run (p : Stored J T) (s : Session) :
  restore_current_db_from_disk (p, s) =
  restore_tables (DbFiles.tables (DbFiles.catalog (store p))) (with_world (set_sequences ∅ (set_tables ∅ (world_in p))) p, s).
Proof. unfold restore_current_db_from_disk, mbind at 1, Db_bind. by rw in_world_run. Qed.

(** The engine that is started on the files of [p] has the tables of [p]. *)
Definition same_tables (p p' : Stored J T) : Prop :=
  (∀ table, is_Some (tables (world_in p') !! table) ↔ is_Some (tables (world_in p) !! table)) ∧
  ∀ table td, tables (world_in p) !! table = Some td → ∃ td' m,
    tables (world_in p') !! table = Some td' ∧ schema td' = schema td ∧ kt_rep (index td) m ∧ kt_rep (index td') m.

(** No table of the catalog has a unique index. *)
Definition no_unique_index (p : Stored J T) : Prop := Forall plain_defs (DbFiles.tables (DbFiles.catalog (store p))).

Lemma attach_same (p : Stored J T) (y : System J T) (s : Session) :
  on_disk p → catalogued p → no_unique_index p → ∃ p', attach_disk_store y (store p) (p, s) = Some (QOk (), (p', s)) ∧ same_tables p p'.
Proof.
  intros Hdisk [Hnd Hsch Hall] Hreb. unfold attach_disk_store. set (y1 := mkSystem _ _ _ _ _ _). set (p0 := mkStored y1 (store p) ∅).
  pose (rows_of := λ t : DbFiles.TableCatalog J, from_option (λ td, default ∅ (list_to_map <$> kt_scan_all (index td) : option rows)) ∅ (tables (world_in p) !! DbFiles.name t)).
  assert (∀ t, t ∈ DbFiles.tables (DbFiles.catalog (store p)) → ∃ td, tables (world_in p) !! DbFiles.name t = Some td ∧ schema td = DbFiles.schema t ∧
    kt_rep (index td) (rows_of t) ∧ TableFilesSpec.loads (DbFiles.name t) (DbFiles.store_dir (store p)) (rows_of t)) as Hrows.
  { intros t Hin. pose proof (Hsch t Hin) as Hs. unfold schema_at in Hs. destruct (tables (world_in p) !! DbFiles.name t) as [td|] eqn:Htd; [|done].
    exists td. cbn in Hs. injection Hs as Hs. destruct (Hdisk _ td Htd) as (m & Hr & Hl). assert (rows_of t = m) as ->; [|done].
    unfold rows_of. rw Htd. cbn. rw (kt_scan_all_rep _ _ Hr). cbn. by destruct (sorted_pairs_map m). }
  rw restore_run. set (p1 := with_world _ p0).
  destruct (restore_tables_run (DbFiles.tables (DbFiles.catalog (store p))) rows_of p1 s Hnd) as (p2 & Hrun & _ & Hh & Ho).
  { intros t Hin. destruct (Hrows t Hin) as (td & Htd & _ & Hr & Hl). split; [exact Hl|]. apply plain_rebuilds. unfold no_unique_index in Hreb. rw Forall_forall in Hreb. exact (Hreb t Hin). }
  exists p2. change (store p0) with (store p). rw Hrun. split; [done|]. split.
  - intros table. split; [|intros Hi].
    + intros Hi. destruct (decide (table ∈ DbFiles.name <$> DbFiles.tables (DbFiles.catalog (store p)))) as [Hin|Hnin].
      * apply list_elem_of_fmap in Hin as (t & -> & Hin). destruct (Hrows t Hin) as (td & Htd & _). by exists td.
      * rw (Ho table Hnin) in Hi. cbn in Hi. rw lookup_empty in Hi. by destruct Hi.
    + apply Hall, list_elem_of_fmap in Hi as (t & -> & Hin). destruct (Hh t Hin) as (td & Htd & _). by exists td.
  - intros table td Htd. destruct (proj1 (list_elem_of_fmap _ _ _) (Hall table ltac:(by exists td))) as (t & -> & Hin).
    destruct (Hrows t Hin) as (td0 & Htd0 & Hs0 & Hr0 & _). rw Htd in Htd0. injection Htd0 as <-. destruct (Hh t Hin) as (td' & Htd' & Hs' & Hr').
    exists td', (rows_of t). split_and!; [done|congruence|done|done].
Qed.

End spec.

(** ** A restart *)

Section example.
#[local] Existing Instance Tuple.sample_codecs.
#[local] Existing Instance Tuple.sample_show.
#[local] Existing Instance Tuple.sample_read.
#[local] Existing Instance Lexer.ascii_only.
#[local] Existing Instance Lexer.no_floats.
#[local] Existing Instance Scan.sample_engine.
#[local] Existing Instance Collections.plain.
#[local] Existing Instance QuerySpec.no_libm.
#[local] Existing Instance SecondaryIndex.Value_eq_dec.
#[local] Existing Instance DiskManager.sum_crc32.
Local Abbreviation Tree := BTree.BTree.BPlusTree.

Definition sql (text : string) : Statement := match Parser.parse_sql (chars text) with Some (POk stmt) => stmt | _ => Rollback end.
Definition create_cities : CreateTableStmt :=
  match sql "CREATE TABLE t (id INT PRIMARY KEY, city TEXT)" with CreateTable ct => ct | _ => mkCreateTable [] [] false [] [] end.
Definition cities_schema : Schema.Schema (J := unit) := schema_of create_cities.
Definition cities_catalog : DbFiles.DbCatalog unit := DbFiles.mkDbCatalog [DbFiles.mkTableCatalog (chars "t") 1 cities_schema [] []].

#[local] Instance city_codec : CatalogCodec unit := {
  DbFiles.cat_to_json c := [zlen (DbFiles.tables c)];
  DbFiles.cat_from_json bytes := match bytes with [0] => Some DbFiles.empty | [1] => Some cities_catalog | _ => None end;
}.
Definition city_carries (c : DbFiles.DbCatalog unit) : Prop := c = DbFiles.empty ∨ c = cities_catalog.
#[local] Instance city_codec_laws : DbFiles.CatalogCodecLaws unit city_carries.
Proof. split. by intros c [->| ->]. Qed.

Definition fresh_system : System unit Tree :=
  mkSystem (mkWorld ∅ ∅ ∅ ∅ [] (Some [])) (Catalog.database_new (chars "main")) ∅ {[chars "main"]} (chars "main") ∅.
Definition no_plan : Tables unit Tree → PhysicalPlan → Q (ExecutionResult unit) := λ _ _, q_fail (QPlan []).
Definition run_in (txn : option Z) (stmt : Statement) (st : Stored unit Tree * Session) : option (qresult (ExecutionResult unit) * (Stored unit Tree * Session)) :=
  execute_stored ∅ no_plan 0 true (λ _ _, None) (λ _ _, None) stmt txn st.

(** The table is created, and a transaction begins. *)
Definition city_start : Stored unit Tree * Session :=
  match run_in None (CreateTable create_cities) (mkStored fresh_system (DbFilesSpec.fresh (chars "main")) ∅, mkSession Transaction.new false) with
  | Some (_, (p, s)) => (p, mkSession (Transaction.begin Transaction.RepeatableRead 0 (txns s)).1 false)
  | None => (mkStored fresh_system (DbFilesSpec.fresh (chars "main")) ∅, mkSession Transaction.new false)
  end.
Definition city_statements : list Statement := map sql
  ["INSERT INTO t VALUES (1, 'ulm'), (2, 'bonn')"; "UPDATE t SET city = 'koeln' WHERE id = 2"; "DELETE FROM t WHERE id = 1"; "INSERT INTO t VALUES (3, 'essen')"].
Definition city_mid : Stored unit Tree * Session :=
  default city_start (run_fitting ∅ no_plan 0 (λ _ _, None) (λ _ _, None) (Some 1) city_statements city_start).
Definition city_end : Stored unit Tree * Session := match run_in (Some 1) Commit city_mid with Some (_, st) => st | None => city_mid end.

Definition empty_cities : TableData unit Tree := mkTable cities_schema (pk_tree (chars "t")) VersionStore.new [] [].

Lemma city_start_tables : tables (world_in city_start.1) = {[chars "t" := empty_cities]}.
Proof. vm_compute. reflexivity. Qed.

Lemma city_lookup table td : tables (world_in city_start.1) !! table = Some td → table = chars "t" ∧ td = empty_cities.
Proof. rw city_start_tables. by intros [<- <-]%(lookup_singleton_Some (M := gmap str)). Qed.

Lemma city_settled : settled (Some 1) city_start.1.
Proof.
  assert (outstanding (Some 1) city_start.1 = []) as Ho by (vm_compute; reflexivity). split; [|exact Ho]. split.
  - vm_compute. reflexivity.
  - intros t t' [td [-> _]%city_lookup] [td' [-> _]%city_lookup]. done.
  - intros table td [-> ->]%city_lookup. vm_compute. reflexivity.
  - rw Ho. constructor.
  - rw Ho. intros table td [-> ->]%city_lookup. exists ∅. split; [|apply kt_new_rep; lia].
    exists [], []. split; [right; vm_compute; reflexivity|]. split; [left; split; [vm_compute; reflexivity|done]|].
    split; [constructor|]. split; [split; [constructor|vm_compute; reflexivity]|]. split; [constructor|done].
Qed.

Lemma city_kept : DbFilesSpec.kept (chars "main") (store city_start.1).
Proof.
  rw (_ : store city_start.1 = DbFiles.flush_table_data (chars "t") [] (DbFiles.upsert_table (chars "t") 1 cities_schema [] (DbFilesSpec.fresh (chars "main"))));
    [vm_compute; reflexivity|].
  apply DbFilesSpec.kept_flush, DbFilesSpec.kept_save, (DbFilesSpec.kept_fresh (carries := city_carries)).
Qed.

Definition cities_entry : DbFiles.TableCatalog unit := DbFiles.mkTableCatalog (chars "t") 1 cities_schema [] [].

Lemma city_catalogued : catalogued city_start.1.
Proof.
  assert (DbFiles.tables (DbFiles.catalog (store city_start.1)) = [cities_entry]) as Hc by (vm_compute; reflexivity). split; rw Hc.
  - apply NoDup_singleton.
  - intros t ->%list_elem_of_singleton. unfold schema_at. by rw city_start_tables lookup_singleton_eq.
  - intros table [td [-> _]%city_lookup]. by apply list_elem_of_singleton.
Qed.

Lemma city_rebuild : no_unique_index city_end.1.
Proof.
  unfold no_unique_index. rw (_ : DbFiles.tables (DbFiles.catalog (store city_end.1)) = [cities_entry]); [vm_compute; reflexivity|].
  apply Forall_singleton, Forall_nil_2.
Qed.

End example.
End PersistSpec.
