(* ===== verification/PersistFindings.v ===== *)
(** Changes that do not reach the disk, or reach it too early: what an engine finds
    after a restart that differs from what it had. *)
From S2P Require Import Prelude ByteOrder BTree Value OrderKey BTreeSpec OrderedIndex SecondaryIndex Schema Tuple Transaction VersionStore Wal DiskManager Civil Literals Sql TableFiles Lexer Parser SqlPrint SqlRoundTrip Like DbFiles Strings Float64 Eval Scan Collections Stats Plan Cost Optimizer Exec Window Join Aggregate TableAccess TableSpec Subquery Query QuerySpec Catalog Dml RollbackSpec Journal TableFilesSpec DbFilesSpec Ddl Persist PersistSpec.
Import Value OrderKey DiskManager Sql Like Strings Eval Collections Plan Exec TableAccess Query Dml Ddl Persist PersistSpec.
Import DbFiles (CatalogCodec, DiskStore).

Module PersistFindings.

(** ** Compaction *)

Section compaction.
Context {J T : Type} `{!JsonShow J, !JsonRead J} `{!Codecs} `{Unicode} `{FloatText} `{!Engine J} `{!KvTree T} `{!HashOrder} `{!Unordered} `{!Libm}.
Context `{!CatalogCodec J} {carries : DbFiles.DbCatalog J → Prop} `{!DbFiles.CatalogCodecLaws J carries} `{!Crc32} `{!KvTreeLaws T}.

(** When a log has become long, whatever the tree has is written to the base file:
    the table then loads with all the rows in memory, also those that running
    transactions have written and not committed. *)
Theorem compaction_writes_everything (w : World J T) (ds : DiskStore J) (table : str) (td : TableData J T) (m : gmap (list Z) (list Z)) l :
  tables w !! table = Some td → kt_rep (index td) m → TableFilesSpec.entries_sized (sorted_pairs m) →
  LOG_COMPACT_THRESHOLD_BYTES ≤ DbFiles.table_log_bytes table (flush_sequences_for table w (DbFiles.append_table_log table l ds)) →
  ∃ ds', write_table_deltas w ds table l = Some ds' ∧ TableFilesSpec.loads table (DbFiles.store_dir ds') m.
Proof.
  intros Htd Hr Hsz Hlong. unfold write_table_deltas. rw Htd. apply Z.leb_le in Hlong. rw Hlong (kt_scan_all_rep _ _ Hr). eexists. split; [done|].
  unfold DbFiles.compact_table, DbFiles.flush_table_data. rw DbFilesSpec.store_dir_set. apply TableFilesSpec.stored_loads, TableFilesSpec.stored_compact.
  destruct (sorted_pairs_map m) as [Hnd Hm]. done.
Qed.

(** When an index of the first table of the catalog cannot be built over the rows,
    because a unique one finds a value twice, the start succeeds without a table. *)
Theorem failed_rebuild_ignored (y : System J T) (ds : DiskStore J) (p : Stored J T) (s : Session) tcat rest entries t e :
  DbFiles.tables (DbFiles.catalog ds) = tcat :: rest → DbFiles.load_table (DbFiles.name tcat) ds = Some (Ok entries) →
  insert_entries (pk_tree (DbFiles.name tcat)) entries = Some t →
  build_secondary_indexes (DbFiles.schema tcat) t (DbFiles.indexes tcat) = Some (Err e) →
  ∃ p', attach_disk_store y ds (p, s) = Some (QOk (), (p', s)) ∧ tables (world_in p') = ∅.
Proof.
  intros Hc Hl Hi Hb. unfold attach_disk_store. set (y1 := mkSystem _ _ _ _ _ _).
  pose (p1 := with_world (set_sequences ∅ (set_tables ∅ (world_in (mkStored y1 ds ∅)))) (mkStored y1 ds ∅)).
  assert (build_table_data tcat (p1, s) = Some (QErr (Execution (core_error_text e)), (p1, s))) as Hbt.
  { unfold build_table_data. change (store p1) with ds. rw Hl. cbn [mbind option_bind]. rw Hi. cbn [mbind option_bind]. by rw Hb. }
  assert (restore_current_db_from_disk (mkStored y1 ds ∅, s) = Some (QErr (Execution (core_error_text e)), (p1, s))) as Hr.
  { rw restore_run. cbn [store]. rw Hc. cbn [restore_tables]. unfold mbind, Db_bind. fold p1. by rw Hbt. }
  rw Hr. cbn [mbind option_bind]. by exists p1.
Qed.
End compaction.

(** ** Runs *)

Section runs.
#[local] Existing Instance Tuple.sample_codecs.
#[local] Existing Instance Tuple.sample_show.
#[local] Existing Instance Tuple.sample_read.
#[local] Existing Instance Lexer.ascii_only.
#[local] Existing Instance Lexer.no_floats.
#[local] Existing Instance Scan.sample_engine.
#[local] Existing Instance Collections.plain.
#[local] Existing Instance QuerySpec.no_libm.
#[local] Existing Instance SecondaryIndex.Value_eq_dec.
#[local] Existing Instance DiskManager.sum_crc32.
#[local] Existing Instance city_codec.
Local Abbreviation Tree := BTree.BTree.BPlusTree.
Local Abbreviation state := (Stored unit Tree * Session)%type.

Definition start : state := (mkStored fresh_system (DbFilesSpec.fresh (chars "main")) ∅, mkSession Transaction.new false).

(** Statements one after the other, failed or not. *)
Definition step (txn : option Z) (st : state) (text : string) : state := match run_in txn (sql text) st with Some (_, st) => st | None => st end.
Definition script (txn : option Z) (st : state) (texts : list string) : state := foldl (step txn) st texts.

(** The engine that is started on the files of another one. *)
Definition restart (st : state) : state :=
  match attach_disk_store fresh_system (store st.1) st with Some (_, st) => st | None => st end.

Definition row_count (st : state) (table : string) : option Z := kt_len ∘ index <$> tables (world_in st.1) !! chars table.
Definition column_count (st : state) (table : string) : option nat := length ∘ Schema.columns ∘ schema <$> tables (world_in st.1) !! chars table.
Definition failed (txn : option Z) (st : state) (text : string) : bool :=
  match run_in txn (sql text) st with Some (QErr _, _) => true | _ => false end.

Definition with_t : state := script None start ["CREATE TABLE t (id INT PRIMARY KEY, city TEXT)"; "INSERT INTO t VALUES (1, 'ulm')"].

(** ALTER TABLE does not change the catalog on the disk: after a restart the new
    column is gone. *)
Theorem altered_table_forgotten :
  let st := script None with_t ["ALTER TABLE t ADD COLUMN zip INT"] in
  column_count st "t" = Some 3%nat ∧ column_count (restart st) "t" = Some 2%nat.
Proof. split; vm_compute; reflexivity. Qed.

(** A statement that fails half way leaves its first rows in memory and forgets
    their changes: they are gone after a restart, although later statements have
    seen them. *)
Theorem failed_statement_forgotten :
  let st := script None with_t ["INSERT INTO t VALUES (2, 'bonn'), (1, 'trier')"] in
  failed None with_t "INSERT INTO t VALUES (2, 'bonn'), (1, 'trier')" = true ∧
  row_count st "t" = Some 2 ∧ row_count (restart st) "t" = Some 1.
Proof. split_and!; vm_compute; reflexivity. Qed.

(** Inside a transaction such a row is not in the files after COMMIT either; only
    the write-ahead log has it. *)
Definition in_txn (st : state) : state := (st.1, mkSession (Transaction.begin Transaction.RepeatableRead 0 (txns st.2)).1 false).

Theorem committed_row_forgotten :
  let st := script (Some 1) (in_txn with_t) ["INSERT INTO t VALUES (2, 'bonn'), (1, 'trier')"; "COMMIT"] in
  row_count st "t" = Some 2 ∧ row_count (restart st) "t" = Some 1.
Proof. split; vm_compute; reflexivity. Qed.

(** COMMIT writes the logs of the tables one after the other. A crash in between
    leaves the changes of one table on the disk without those of the other. *)
Definition two_tables : state :=
  script (Some 1) (in_txn (script None start ["CREATE TABLE t (id INT PRIMARY KEY)"; "CREATE TABLE u (id INT PRIMARY KEY)"]))
    ["INSERT INTO t VALUES (1)"; "INSERT INTO u VALUES (1)"].
Definition half_written (st : state) : option (DiskStore unit) :=
  write_tables (world_in st.1) (store st.1) (take 1 (hash_iter (by_table (outstanding (Some 1) st.1)))).
Definition restart_on (ds : DiskStore unit) (st : state) : state := restart (set_store ds st.1, st.2).

Theorem commit_not_atomic :
  match half_written two_tables with
  | Some ds => let st := restart_on ds two_tables in (row_count st "t", row_count st "u") ∈ [(Some 1, Some 0); (Some 0, Some 1)]
  | None => False
  end.
Proof. vm_compute. apply elem_of_cons. first [left; reflexivity | right; apply elem_of_cons; left; reflexivity]. Qed.

(** At a start the redo records of the write-ahead log, which is never cut by the
    engine, are applied on top of the files. *)
Definition replayed (st : state) : option Z :=
  let redo := Wal.Wal.redo_records (Wal.Wal.analyze_records (imap (λ i r, (Z.of_nat i, r)) (wal (world_in st.1)))) in
  ts ← replay_wal_recovery (tables (world_in (restart st).1)) redo; kt_len ∘ index <$> ts !! chars "t".

(** Statements outside a transaction are not in that log: a row that a transaction
    has inserted and such a statement has deleted is back after the restart. *)
Theorem deleted_row_replayed :
  let st := script None (script (Some 1) (in_txn with_t) ["INSERT INTO t VALUES (2, 'bonn')"; "COMMIT"]) ["DELETE FROM t WHERE id = 2"] in
  row_count st "t" = Some 1 ∧ row_count (restart st) "t" = Some 1 ∧ replayed st = Some 2.
Proof. split_and!; vm_compute; reflexivity. Qed.
End runs.
End PersistFindings.
