(* ===== verification/Batch.v ===== *)
(** The vectorised scan ([bytedb-query/src/executor/batch.rs] and
    [exec_seq_scan_vectorized] of [engine.rs]): the rows of a leaf become columns,
    a comparison selects positions, and the selected rows are built again.

    A batch gives back the rows it was built from if every column has one type and
    starts with a value, or holds integers; otherwise columns and NULL flags get out
    of step. *)
From S2P Require Import Prelude ByteOrder Value OrderKey OrderedIndex Schema Tuple Transaction VersionStore SecondaryIndex Sql Like Strings Float64 Eval Scan Collections Plan Exec TableAccess.
Import Value OrderKey Sql Like Strings Eval Collections Plan Exec TableAccess.

Module Batch.

(** ** Columns *)

Inductive ColumnVector : Type :=
  | CInt64 (values : list Z) (nulls : list bool)
  | CFloat64 (values : list Z) (nulls : list bool)
  | CBool (values : list bool) (nulls : list bool)
  | CText (values : list (list Z)) (nulls : list bool)
  | CNull (n : nat).

Record RecordBatch : Type := mkBatch { columns : list ColumnVector; num_rows : nat }.

Definition column_len (c : ColumnVector) : nat :=
  match c with CInt64 v _ | CFloat64 v _ => length v | CBool v _ => length v | CText v _ => length v | CNull n => n end.

(** The vectors a column is collected in, and the tag of its first value, 255 while
    there is none. *)
Record Builder : Type := mkBuilder {
  ints : list Z;
  floats : list Z;
  texts : list (list Z);
  bools : list bool;
  nulls : list bool;
  col_type : Z;
}.

Definition empty_builder : Builder := mkBuilder [] [] [] [] [] 255.

Definition note_type (tag : Z) (b : Builder) : Builder :=
  if (col_type b =? 255) && negb (tag =? 0) then mkBuilder (ints b) (floats b) (texts b) (bools b) (nulls b) tag else b.

Definition push_int (n : Z) (null : bool) (b : Builder) : Builder :=
  mkBuilder (ints b ++ [n]) (floats b) (texts b) (bools b) (nulls b ++ [null]) (col_type b).
Definition push_float (f : Z) (null : bool) (b : Builder) : Builder :=
  mkBuilder (ints b) (floats b ++ [f]) (texts b) (bools b) (nulls b ++ [null]) (col_type b).
Definition push_text (s : list Z) (null : bool) (b : Builder) : Builder :=
  mkBuilder (ints b) (floats b) (texts b ++ [s]) (bools b) (nulls b ++ [null]) (col_type b).
Definition push_bool (v null : bool) (b : Builder) : Builder :=
  mkBuilder (ints b) (floats b) (texts b) (bools b ++ [v]) (nulls b ++ [null]) (col_type b).

(** NULL goes where the type of the column says, and to the integers while there is
    none. *)
Definition push_null (b : Builder) : Builder :=
  if col_type b =? 3 then push_float 0 true b
  else if col_type b =? 4 then push_text [] true b
  else if col_type b =? 1 then push_bool false true b
  else push_int 0 true b.

(** A value at a position, and the position behind it. *)
Definition read_column (data : list Z) (pos : Z) (b : Builder) : option (Builder * Z) :=
  tag ← Tuple.byte_at data pos;
  let p := pos + 1 in
  let b := note_type tag b in
  if tag =? 0 then Some (push_null b, p)
  else if tag =? 1 then v ← Tuple.byte_at data p; Some (push_bool (negb (v =? 0)) false b, p + 1)
  else if tag =? 2 then n ← get_slice data p 8; Some (push_int (Tuple.signed 64 (le_val n)) false b, p + 8)
  else if tag =? 3 then f ← get_slice data p 8; Some (push_float (le_val f) false b, p + 8)
  else if tag =? 4 then '(s, e) ← Tuple.read_prefixed data p; Some (push_text s false b, e)
  else if (tag =? 5) || (tag =? 6) then l ← get_slice data p 4; Some (push_text [] true b, p + 4 + le_val l)
  else if tag =? 7 then n ← get_slice data p 8; Some (push_int (Tuple.signed 64 (le_val n)) false b, p + 8)
  else None.

Fixpoint read_columns (data : list Z) (pos : Z) (bs : list Builder) : option (list Builder) :=
  match bs with
  | [] => Some []
  | b :: bs' => '(b, pos) ← read_column data pos b; bs' ← read_columns data pos bs'; Some (b :: bs')
  end.

Definition read_row (data : list Z) (bs : list Builder) : option (list Builder) :=
  match data with
  | [] => None
  | count :: _ => if count =? zlen bs then read_columns data 1 bs else None
  end.

Fixpoint read_rows (datas : list (list Z)) (bs : list Builder) : option (list Builder) :=
  match datas with [] => Some bs | data :: datas' => bs ← read_row data bs; read_rows datas' bs end.

Definition finish (batch_size : nat) (b : Builder) : ColumnVector :=
  if col_type b =? 1 then CBool (bools b) (nulls b)
  else if (col_type b =? 2) || (col_type b =? 7) then CInt64 (ints b) (nulls b)
  else if col_type b =? 3 then CFloat64 (floats b) (nulls b)
  else if col_type b =? 4 then CText (texts b) (nulls b)
  else CNull batch_size.

Definition deserialize_batch (datas : list (list Z)) (num_columns : nat) : option RecordBatch :=
  if bool_decide (datas = [] ∨ num_columns = 0%nat) then None
  else bs ← read_rows datas (replicate num_columns empty_builder); Some (mkBatch (finish (length datas) <$> bs) (length datas)).

(** ** Rows *)

Section rows.
Context {J : Type}.
Local Abbreviation V := (Value J).

(** A value of a vector, with the panics of its two accesses. *)
Definition nullable_at {A} (values : list A) (nulls : list bool) (mk : A → V) (i : nat) : option V :=
  n ← nulls !! i; if (n : bool) then Some Null else mk <$> values !! i.

Definition value_at (c : ColumnVector) (i : nat) : option V :=
  match c with
  | CInt64 v n => nullable_at v n Int64 i
  | CFloat64 v n => nullable_at v n Float64 i
  | CBool v n => nullable_at v n Bool i
  | CText v n => nullable_at v n Text i
  | CNull _ => Some Null
  end.

Definition row_at (b : RecordBatch) (i : nat) : option (list V) := mapM (λ c, value_at c i) (columns b).

(** [materialize_rows] and [materialize_all_rows]; the positions are 16-bit. *)
Definition materialize_rows (b : RecordBatch) (sel : list Z) : option (list (list V)) := mapM (λ i, row_at b (Z.to_nat i)) sel.
Definition materialize_all_rows (b : RecordBatch) : option (list (list V)) := mapM (row_at b) (seq 0 (num_rows b)).

(** ** Filters *)

(** The positions whose value is not NULL and satisfies the comparison, with the
    panics of the accesses. *)
Definition select_at {A} (values : list A) (nulls : list bool) (matches : A → bool) (i : nat) : option (option Z) :=
  n ← nulls !! i;
  if (n : bool) then Some None
  else v ← values !! i; Some (if matches v then Some (wrap 16 (Z.of_nat i)) else None).
Definition select {A} (values : list A) (nulls : list bool) (matches : A → bool) (n : nat) : option (list Z) :=
  l ← mapM (select_at values nulls matches) (seq 0 n); Some (omap id l).

Definition compares {A} (cmp : A → A → option comparison) (op : BinOp) (lit v : A) : bool :=
  match op with
  | OpEq => bool_decide (cmp v lit = Some Eq)
  | OpNeq => negb (bool_decide (cmp v lit = Some Eq))
  | OpLt => bool_decide (cmp v lit = Some Lt)
  | OpGt => bool_decide (cmp v lit = Some Gt)
  | OpLte => bool_decide (cmp v lit = Some Lt) || bool_decide (cmp v lit = Some Eq)
  | OpGte => bool_decide (cmp v lit = Some Gt) || bool_decide (cmp v lit = Some Eq)
  | _ => true
  end.

Definition filter_int64_column (b : RecordBatch) (col : nat) (op : BinOp) (lit : Z) : option (list Z) :=
  match columns b !! col with
  | Some (CInt64 v n) => select v n (compares (λ x y, Some (x ?= y)) op lit) (num_rows b)
  | _ => Some []
  end.
Definition filter_float64_column (b : RecordBatch) (col : nat) (op : BinOp) (lit : Z) : option (list Z) :=
  match columns b !! col with
  | Some (CFloat64 v n) => select v n (compares f64_cmp op lit) (num_rows b)
  | _ => Some []
  end.
Definition filter_text_column (b : RecordBatch) (col : nat) (op : BinOp) (lit : list Z) : option (list Z) :=
  match columns b !! col with
  | Some (CText v n) => select v n (compares (λ x y, Some (bcmp x y)) op lit) (num_rows b)
  | _ => Some []
  end.

(** ** The scan *)

(** The rows of a leaf; a leaf that cannot be read has none. A filter that is not
    a comparison of a column with a literal is not applied. *)
Definition batch_rows (fast : option (nat * BinOp * V)) (b : RecordBatch) : option (list (list V)) :=
  match fast with
  | Some (col, op, lit) =>
      sel ← match lit with
            | Int64 v => filter_int64_column b col op v
            | Float64 v => filter_float64_column b col op v
            | Text v => filter_text_column b col op v
            | _ => Some ((λ i : nat, wrap 16 (Z.of_nat i)) <$> seq 0 (Z.to_nat (wrap 16 (Z.of_nat (num_rows b)))))
            end;
      materialize_rows b sel
  | None => materialize_all_rows b
  end.

Fixpoint scan_leaves (fast : option (nat * BinOp * V)) (num_columns : nat) (limit : option Z) (leaves : list (list (list Z))) (rows : list (list V)) :
    option (list (list V)) :=
  match leaves with
  | [] => Some rows
  | leaf :: leaves' =>
      match deserialize_batch leaf num_columns with
      | None => scan_leaves fast num_columns limit leaves' rows
      | Some b =>
          new ← batch_rows fast b;
          let rows := rows ++ new in
          match limit with
          | Some lim => if lim <=? zlen rows then Some (take (Z.to_nat lim) rows) else scan_leaves fast num_columns limit leaves' rows
          | None => scan_leaves fast num_columns limit leaves' rows
          end
      end
  end.

Section scan.
Context {T : Type} `{!JsonShow J, !JsonRead J} `{!Codecs} `{Unicode} `{FloatText} `{!Engine J} `{!KvTree T} `{!HashOrder} `{!Unordered}.

Definition exec_seq_scan_vectorized (tables : Tables J T) (table : str) (filter : option Expr) (limit : option Z) : Q (ExecutionResult J) :=
  td ← get_table tables table;
  leaves ← q_panic (kt_leaf_values (index td));
  rows ← q_panic (scan_leaves (Scan.fast_filter_of filter (schema td)) (length (col_names td)) limit leaves []);
  mret (Rows (col_names td) rows).
End scan.
End rows.
End Batch.
