(* ===== verification/BatchSpec.v ===== *)
(** The vectorised scan against the rows: a batch of rows whose columns have one type
    each gives back exactly these rows, and filters select what the comparison says.
    NULLs before the first value of a column, and other types, are lost. *)
From S2P Require Import Prelude ByteOrder Value OrderKey OrderedIndex Schema Tuple Transaction VersionStore SecondaryIndex Sql Like Strings Float64 Eval Scan Collections Plan Exec TableAccess Batch.
Import Value OrderKey Sql Like Strings Eval Collections Plan Exec TableAccess Batch.

Module BatchSpec.

Section spec.
Context {J : Type} `{!JsonShow J, !JsonRead J} `{!Codecs}.
Context `{!CodecLaws} `{!JsonLaws J Tuple.utf8_valid}.
Local Abbreviation V := (Value J).

(** The types a column may have. *)
Inductive kind : Type := KBool | KInt | KFloat | KText.

Definition tag_of (k : kind) : Z := match k with KBool => 1 | KInt => 2 | KFloat => 3 | KText => 4 end.
Definition of_kind (k : kind) (v : V) : Prop :=
  match v, k with Null, _ | Bool _, KBool | Int64 _, KInt | Float64 _, KFloat | Text _, KText => True | _, _ => False end.
Definition filler (k : kind) : V := match k with KBool => Bool false | KInt => Int64 0 | KFloat => Float64 0 | KText => Text [] end.
Definition filled (k : kind) (v : V) : V := if is_null v then filler k else v.

Definition payload (k : kind) (b : Builder) : list V :=
  match k with KBool => Bool <$> bools b | KInt => Int64 <$> ints b | KFloat => Float64 <$> floats b | KText => Text <$> texts b end.

(** The builder [b] has collected the values [vs] of a column of kind [k]. *)
Definition built (k : kind) (vs : list V) (b : Builder) : Prop :=
  Forall (of_kind k) vs ∧ nulls b = is_null <$> vs ∧ payload k b = filled k <$> vs ∧
  ((col_type b = tag_of k) ∨ (col_type b = 255 ∧ Forall (λ v, is_null v = true) vs ∧ (k = KInt ∨ vs = []))).

(** ** One value *)

(** What reading a value does to a builder. *)
Definition push (v : V) (b : Builder) : Builder :=
  match v with
  | Null => push_null b
  | Bool x => push_bool x false (note_type 1 b)
  | Int64 n => push_int n false (note_type 2 b)
  | Float64 f => push_float f false (note_type 3 b)
  | Text s => push_text s false (note_type 4 b)
  | _ => b
  end.

Lemma note_null b : note_type 0 b = b.
Proof. unfold note_type. by rw andb_false_r. Qed.

Lemma read_column_value k v data pos p b :
  of_kind k v → Tuple.decode_value data pos = Some (v, p) → read_column data pos b = Some (push v b, p).
Proof.
  unfold Tuple.decode_value, read_column. intros Hk. destruct (Tuple.byte_at data pos) as [tag|]; [|done]. cbn [mbind option_bind].
  change Tuple.TAG_NULL with 0. change Tuple.TAG_BOOL with 1. change Tuple.TAG_INT64 with 2. change Tuple.TAG_FLOAT64 with 3. change Tuple.TAG_TEXT with 4.
  destruct (Z.eqb_spec tag 0) as [->|]; [intros [= <- <-]; by rw note_null|].
  destruct (Z.eqb_spec tag 1) as [->|]; [destruct (Tuple.byte_at data (pos + 1)); [|done]; by intros [= <- <-]|].
  destruct (Z.eqb_spec tag 2) as [->|]; [destruct (get_slice data (pos + 1) 8); [|done]; by intros [= <- <-]|].
  destruct (Z.eqb_spec tag 3) as [->|]; [destruct (get_slice data (pos + 1) 8); [|done]; by intros [= <- <-]|].
  destruct (Z.eqb_spec tag 4) as [->|]; [destruct (Tuple.read_prefixed data (pos + 1)) as [[]|]; [|done]; by intros [= <- <-]|].
  intros Hd. exfalso.
  repeat match goal with
  | Hd : (if ?c then _ else _) = Some _ |- _ => destruct c
  | Hd : mbind _ _ = Some _ |- _ => apply bind_Some in Hd as (? & _ & Hd)
  | Hd : (let '(_, _) := ?x in _) = Some _ |- _ => destruct x
  end; simplify_eq; by destruct k.
Qed.

(** A column that has no value yet may take one, unless NULLs went to the wrong
    vector before. *)
Definition may_push (k : kind) (vs : list V) (v : V) : Prop := k = KInt ∨ vs ≠ [] ∨ is_null v = false.

Lemma push_built k vs v b : built k vs b → of_kind k v → may_push k vs v → built k (vs ++ [v]) (push v b).
Proof.
  intros (Hf & Hn & Hp & Hc) Hk Hm. split; [apply Forall_app; split; [done|by constructor]|]. rw !fmap_app.
  destruct Hc as [Hc|(Hc & Hnull & Hkind)].
  - destruct v, k; try done; unfold push, push_null, note_type; rw Hc; cbn in Hp |- *; rw fmap_app Hp Hn; (split; [done|]; split; [done|]; by left).
  - destruct v; try done.
    + assert (k = KInt) as -> by (destruct Hkind as [|]; [done|]; by destruct Hm as [|[|]]).
      unfold push, push_null. rw Hc. cbn in Hp |- *. rw fmap_app Hp Hn. split; [done|]. split; [done|]. right.
      split_and!; [done| |by left]. apply Forall_app. split; [done|]. by constructor.
    + destruct k; try done. destruct Hkind as [| ->]; [done|]. unfold push, note_type. rw Hc. cbn in Hp, Hn |- *. rw fmap_app Hp Hn. by split_and!; [..|left].
    + destruct k; try done. unfold push, note_type. rw Hc. cbn in Hp, Hn |- *. rw fmap_app Hp Hn. by split_and!; [..|left].
    + destruct k; try done. destruct Hkind as [| ->]; [done|]. unfold push, note_type. rw Hc. cbn in Hp, Hn |- *. rw fmap_app Hp Hn. by split_and!; [..|left].
    + destruct k; try done. destruct Hkind as [| ->]; [done|]. unfold push, note_type. rw Hc. cbn in Hp, Hn |- *. rw fmap_app Hp Hn. by split_and!; [..|left].
Qed.

(** A finished column has the values it was built from. *)
Lemma built_value k vs b n i v : built k vs b → vs !! i = Some v → value_at (finish n b) i = Some v.
Proof.
  intros (Hf & Hn & Hp & Hc) Hi.
  assert (nulls b !! i = Some (is_null v)) as Hni by (rw Hn list_lookup_fmap Hi; done).
  assert (payload k b !! i = Some (filled k v)) as Hpi by (rw Hp list_lookup_fmap Hi; done).
  unfold finish. destruct Hc as [Hc|(Hc & Hnull & _)]; rw Hc.
  - assert (is_null v = true → v = Null) as Hnn by (by destruct v).
    destruct k; cbn in Hpi |- *; unfold nullable_at; rw Hni; cbn; destruct (is_null v) eqn:E; try (by rw Hnn);
      rw list_lookup_fmap in Hpi; destruct (_ !! i); try done; cbn in Hpi |- *; rw Hpi; unfold filled; by rw E.
  - cbn. rw Forall_lookup in Hnull. specialize (Hnull i v Hi). by destruct v.
Qed.

(** ** Rows *)

Definition add_row (cols : list (list V)) (r : list V) : list (list V) := zip_with (λ c v, c ++ [v]) cols r.

Lemma read_columns_row kinds cols bs : Forall3 built kinds cols bs → ∀ row data pre post,
  Forall2 of_kind kinds row → Forall3 may_push kinds cols row → Tuple.row_fits row → data = pre ++ (row ≫= Tuple.encode_value) ++ post →
  ∃ bs', read_columns data (zlen pre) bs = Some bs' ∧ Forall3 built kinds (add_row cols row) bs'.
Proof.
  induction 1 as [|k c b kinds cols bs Hb Hbs IH]; intros row data pre post Hk Hm Hfit Hd.
  - exists []. split; [done|]. destruct row; [constructor|by inversion Hk].
  - destruct row as [|v row]; [by inversion Hk|]. apply Forall2_cons in Hk as [Hv Hk]. inversion Hm as [|????? Hmv Hmr]; simplify_eq.
    destruct Hfit as [[Hok Hoks]%Forall_cons [Hf Hfs]%Forall_cons]. cbn [mbind list_bind] in *. rw -app_assoc.
    pose proof (Tuple.decode_encode_value v _ pre ((row ≫= Tuple.encode_value) ++ post) Hok Hf eq_refl) as Hdec.
    cbn [read_columns]. rw (read_column_value k v _ _ _ b Hv Hdec). cbn [mbind option_bind].
    destruct (IH row (pre ++ Tuple.encode_value v ++ (row ≫= Tuple.encode_value) ++ post) (pre ++ Tuple.encode_value v) post) as (bs' & Hr & Hb'); [done|done|done|by rw -app_assoc|].
    rw zlen_app in Hr. cbn [mbind list_bind] in Hr. rw Hr. exists (push v b :: bs'). split; [done|]. constructor; [by apply push_built|done].
Qed.

(** A row of the kinds of the columns, as it is stored. *)
Definition row_of (kinds : list kind) (r : list V) : Prop := Scan.stored r ∧ Forall2 of_kind kinds r.

Lemma read_row_spec kinds cols bs row : Forall3 built kinds cols bs → row_of kinds row → Forall3 may_push kinds cols row →
  ∃ bs', read_row (Tuple.serialize row) bs = Some bs' ∧ Forall3 built kinds (add_row cols row) bs'.
Proof.
  intros Hb [(Hfit & Hl & _) Hk] Hm. unfold read_row, Tuple.serialize. cbn [mbind list_bind].
  assert (length bs = length row) as Hlen by (apply Forall2_length in Hk; apply Forall3_length_lr in Hb; congruence).
  pose proof (zlen_nonneg row). unfold wrap. rw Z.mod_small; [lia|]. unfold zlen at 1 2. rw Hlen Z.eqb_refl.
  exact (read_columns_row kinds cols bs Hb row _ [zlen row] [] Hk Hm Hfit ltac:(by rw app_nil_r)).
Qed.

Lemma may_push_later kinds : ∀ cols row row', length cols = length kinds → Forall2 of_kind kinds row → Forall2 of_kind kinds row' →
  Forall3 may_push kinds (add_row cols row) row'.
Proof.
  induction kinds as [|k kinds IH]; intros cols row row' Hl Hr Hr'.
  - destruct cols; [|done]. apply Forall2_nil_inv_l in Hr as ->. apply Forall2_nil_inv_l in Hr' as ->. constructor.
  - destruct cols as [|c cols]; [done|]. destruct row as [|v row]; [by inversion Hr|]. destruct row' as [|v' row']; [by inversion Hr'|].
    apply Forall2_cons in Hr as [_ Hr]. apply Forall2_cons in Hr' as [_ Hr']. cbn. constructor; [|apply IH; [by injection Hl|done|done]].
    right. left. by destruct c.
Qed.

Lemma read_rows_spec kinds rows : ∀ cols bs, Forall3 built kinds cols bs → Forall (row_of kinds) rows →
  (∀ r, head rows = Some r → Forall3 may_push kinds cols r) →
  ∃ bs', read_rows (Tuple.serialize <$> rows) bs = Some bs' ∧ Forall3 built kinds (foldl add_row cols rows) bs'.
Proof.
  induction rows as [|r rows IH]; intros cols bs Hb Hr Hm; [by exists bs|]. apply Forall_cons in Hr as [Hr Hrs].
  destruct (read_row_spec kinds cols bs r Hb Hr (Hm r eq_refl)) as (bs1 & H1 & Hb1). rw fmap_cons. cbn [read_rows]. rw H1.
  apply IH; [done|done|]. intros r' Hr'. destruct rows as [|x rows]; [done|]. injection Hr' as ->. apply Forall_cons in Hrs as [[_ Hx] _].
  apply may_push_later; [|by destruct Hr|done]. by apply Forall3_length_lm in Hb.
Qed.

(** ** Columns and rows *)

Lemma mapM_lookup_add (cols : list (list V)) (r : list V) j : length r = length cols → Forall (λ c, (j < length c)%nat) cols →
  mapM (λ c, c !! j) (add_row cols r) = mapM (λ c, c !! j) cols.
Proof.
  revert r. induction cols as [|c cols IH]; intros [|v r] Hl Hj; try done. apply Forall_cons in Hj as [Hc Hj]. cbn.
  rw lookup_app_l; [done|]. destruct (c !! j); [|done]. cbn. unfold add_row in IH. by rw IH; [injection Hl|..].
Qed.

Lemma mapM_lookup_last (cols : list (list V)) (r : list V) m : length r = length cols → Forall (λ c, length c = m) cols →
  mapM (λ c, c !! m) (add_row cols r) = Some r.
Proof.
  revert r. induction cols as [|c cols IH]; intros [|v r] Hl Hm; try done. apply Forall_cons in Hm as [Hc Hm]. cbn.
  rw lookup_app_r; [lia|]. rw Hc Nat.sub_diag. cbn. unfold add_row in IH. by rw IH; [injection Hl|..].
Qed.

Lemma add_row_lengths (cols : list (list V)) (r : list V) m : length r = length cols → Forall (λ c, length c = m) cols →
  length (add_row cols r) = length cols ∧ Forall (λ c, length c = S m) (add_row cols r).
Proof.
  revert r. induction cols as [|c cols IH]; intros [|v r] Hl Hm; try done. apply Forall_cons in Hm as [Hc Hm].
  destruct (IH r) as [El Ef]; [by injection Hl|done|]. cbn. split; [by f_equal|]. constructor; [rw length_app; cbn; lia|done].
Qed.

Lemma columns_stable rows : ∀ (cols : list (list V)) m j, (j < m)%nat → Forall (λ c, length c = m) cols → Forall (λ r, length r = length cols) rows →
  mapM (λ c, c !! j) (foldl add_row cols rows) = mapM (λ c, c !! j) cols.
Proof.
  induction rows as [|r rows IH]; intros cols m j Hj Hm Hr; [done|]. apply Forall_cons in Hr as [Hr Hrs].
  destruct (add_row_lengths cols r m Hr Hm) as [El Ef]. cbn [foldl]. rw (IH _ (S m)); [lia|done|by rw El|].
  apply mapM_lookup_add; [done|]. eapply Forall_impl; [exact Hm|]. cbn. lia.
Qed.

Lemma columns_row rows : ∀ (cols : list (list V)) m i r, Forall (λ c, length c = m) cols → Forall (λ r, length r = length cols) rows →
  rows !! i = Some r → mapM (λ c, c !! (m + i)%nat) (foldl add_row cols rows) = Some r.
Proof.
  induction rows as [|r0 rows IH]; intros cols m i r Hm Hr Hi; [done|]. apply Forall_cons in Hr as [Hr Hrs].
  destruct (add_row_lengths cols r0 m Hr Hm) as [El Ef]. cbn [foldl]. destruct i as [|i].
  - injection Hi as ->. rw Nat.add_0_r (columns_stable _ _ (S m)); [lia|done|by rw El|]. by apply mapM_lookup_last.
  - replace (m + S i)%nat with (S m + i)%nat by lia. by apply IH; [|rw El|].
Qed.

Lemma built_row kinds cols bs n i r : Forall3 built kinds cols bs → mapM (λ c, c !! i) cols = Some r →
  mapM (λ c, value_at c i) (finish n <$> bs) = Some r.
Proof.
  intros Hb. revert r. induction Hb as [|k c b kinds cols bs Hb _ IH]; intros r; cbn; [done|].
  intros (v & Hv & (r' & Hr & [= <-])%bind_Some)%bind_Some. rw (built_value k c b n i v Hb Hv). cbn. by rw (IH r' Hr).
Qed.

(** ** Batches *)

(** Rows whose columns have the kinds given and start with a value, or hold
    integers. *)
Definition uniform (kinds : list kind) (rows : list (list V)) : Prop :=
  Forall (row_of kinds) rows ∧ ∀ r, head rows = Some r → Forall2 (λ k v, k = KInt ∨ is_null v = false) kinds r.

Lemma first_may_push kinds r : Forall2 (λ k v, k = KInt ∨ is_null v = false) kinds r → Forall3 may_push kinds (replicate (length kinds) []) r.
Proof. induction 1 as [|k v kinds r Hk _ IH]; cbn; constructor; [|done]. destruct Hk as [|]; [by left|by right; right]. Qed.

Lemma empty_built kinds : Forall3 built kinds (replicate (length kinds) []) (replicate (length kinds) empty_builder).
Proof.
  induction kinds as [|k kinds IH]; cbn; constructor; [|done]. split; [constructor|]. split; [done|]. split; [by destruct k|].
  right. split; [done|]. split; [constructor|by right].
Qed.

Lemma row_lengths kinds rows : Forall (row_of kinds) rows → Forall (λ r, length r = length kinds) rows.
Proof. intros Hr. eapply Forall_impl; [exact Hr|]. intros r [_ Hk]. by apply Forall2_length in Hk. Qed.

(** What a batch of uniform rows is. *)
Record batch_of (kinds : list kind) (rows : list (list V)) (b : RecordBatch) : Prop := {
  bo_rows : num_rows b = length rows;
  bo_row i r : rows !! i = Some r → row_at b i = Some r;
  bo_column j k : kinds !! j = Some k → ∃ bd vs, columns b !! j = Some (finish (length rows) bd) ∧ built k vs bd ∧ length vs = length rows ∧
    ∀ i r, rows !! i = Some r → vs !! i = r !! j;
}.

Lemma columns_length rows : ∀ (cols : list (list V)) m, Forall (λ c, length c = m) cols → Forall (λ r, length r = length cols) rows →
  Forall (λ c, length c = (m + length rows)%nat) (foldl add_row cols rows).
Proof.
  induction rows as [|r rows IH]; intros cols m Hm Hr; cbn [foldl length]; [by rw Nat.add_0_r|]. apply Forall_cons in Hr as [Hr Hrs].
  destruct (add_row_lengths cols r m Hr Hm) as [El Ef]. replace (m + S (length rows))%nat with (S m + length rows)%nat by lia.
  by apply IH; [|rw El].
Qed.

Lemma mapM_lookup_at {A B} (f : A → option B) l r j x : mapM f l = Some r → l !! j = Some x → f x = r !! j.
Proof.
  revert r j. induction l as [|y l IH]; intros r j Hm Hj; [done|]. cbn in Hm. apply bind_Some in Hm as (v & Hv & (r' & Hr & [= <-])%bind_Some).
  destruct j as [|j]; [by injection Hj as ->|]. exact (IH r' j Hr Hj).
Qed.

Lemma batch_built kinds rows : kinds ≠ [] → rows ≠ [] → uniform kinds rows →
  ∃ b, deserialize_batch (Tuple.serialize <$> rows) (length kinds) = Some b ∧ batch_of kinds rows b.
Proof.
  intros Hk Hne [Hr Hfirst]. pose proof (row_lengths kinds rows Hr) as Hl.
  destruct (read_rows_spec kinds rows _ _ (empty_built kinds) Hr) as (bs & Hread & Hb).
  { intros r Hh. by apply first_may_push, Hfirst. }
  set cols := foldl add_row _ rows in Hb. unfold deserialize_batch.
  rw bool_decide_eq_false_2; [intros [E|E]; [by apply fmap_nil_inv in E|by destruct kinds]|]. rw Hread length_fmap. cbn [mbind option_bind].
  eexists. split; [done|].
  assert (Forall (λ r, length r = length (replicate (length kinds) ([] : list V))) rows) as Hl' by (by rw length_replicate).
  assert (Forall (λ c, length c = 0%nat) (replicate (length kinds) ([] : list V))) as H0' by (by apply Forall_replicate).
  assert (∀ i r, rows !! i = Some r → mapM (λ c, c !! i) cols = Some r) as Hrow by (intros i r Hi; exact (columns_row rows _ 0 i r H0' Hl' Hi)).
  split; cbn [num_rows columns row_at].
  - done.
  - intros i r Hi. exact (built_row kinds cols bs _ i r Hb (Hrow i r Hi)).
  - intros j k Hj. destruct (Forall3_lookup_l _ _ _ _ _ _ Hb Hj) as (c & bd & Hc & Hbd & Hbuilt). exists bd, c.
    split; [by rw list_lookup_fmap Hbd|]. split; [done|]. split.
    + pose proof (columns_length rows _ 0 H0' Hl') as Hlen. rw Forall_lookup in Hlen. exact (Hlen j c Hc).
    + intros i r Hi. exact (mapM_lookup_at _ _ _ _ _ (Hrow i r Hi) Hc).
Qed.

(** ** Selections *)

Lemma omap_seq {A B} (f : A → option B) (l pre : list A) : omap (λ i, (pre ++ l) !! i ≫= f) (seq (length pre) (length l)) = omap f l.
Proof.
  revert pre. induction l as [|x l IH]; intros pre; [done|]. cbn [seq length omap list_omap].
  rw list_lookup_middle; [done|]. specialize (IH (pre ++ [x])). rw length_app Nat.add_1_r -app_assoc in IH. cbn [app] in IH.
  rw IH. done.
Qed.

Lemma mapM_all {A B} (f : A → option B) (g : A → B) l : (∀ x, x ∈ l → f x = Some (g x)) → mapM f l = Some (g <$> l).
Proof.
  induction l as [|x l IH]; intros Hf; [done|]. cbn. rw (Hf x); [by left|]. cbn. rw IH; [|done]. intros y Hy. apply Hf. by right.
Qed.

Lemma all_rows kinds rows b : batch_of kinds rows b → materialize_all_rows b = Some rows.
Proof.
  intros [Hn Hrow _]. unfold materialize_all_rows. rw Hn.
  rw (mapM_all _ (λ i, default [] (rows !! i))).
  - intros i [_ Hi]%elem_of_seq. destruct (lookup_lt_is_Some_2 rows i) as [r Hr]; [lia|]. rw (Hrow i r Hr) Hr. done.
  - f_equal. apply list_eq. intros i. rw list_lookup_fmap. destruct (decide (i < length rows)%nat) as [Hi|Hi].
    + rw lookup_seq_lt; [done|]. cbn. by destruct (lookup_lt_is_Some_2 rows i Hi) as [r ->].
    + rw lookup_seq_ge; [lia|]. by rw (lookup_ge_None_2 rows i); [lia|].
Qed.

(** The row has an integer in the column that satisfies the comparison. *)
Definition int_holds (j : nat) (p : Z → bool) (r : list V) : bool := match r !! j with Some (Int64 n) => p n | _ => false end.
Definition keep (j : nat) (p : Z → bool) (r : list V) : option (list V) := if int_holds j p r then Some r else None.

Lemma mapM_omap {A B C} (f : B → option C) (hit : A → option B) (tgt : A → option C) (l : list A) :
  (∀ i, i ∈ l → hit i ≫= f = tgt i ∧ (hit i = None → tgt i = None) ∧ (tgt i = None → hit i = None)) → mapM f (omap hit l) = Some (omap tgt l).
Proof.
  induction l as [|i l IH]; intros Hl; [done|]. destruct (Hl i) as (Hi & Hn & Hs); [by left|]. specialize (IH (λ x Hx, Hl x ltac:(by right))).
  cbn. destruct (hit i) as [y|].
  - cbn in Hi |- *. rw Hi. destruct (tgt i); [|by specialize (Hs eq_refl)]. cbn. by rw IH.
  - by rw (Hn eq_refl).
Qed.

Lemma omap_id_fmap {A B} (f : A → option B) (l : list A) : omap id (f <$> l) = omap f l.
Proof. induction l as [|x l IH]; [done|]. cbn. by rw IH. Qed.

Lemma omap_none {A B} (f : A → option B) (l : list A) : (∀ x, x ∈ l → f x = None) → omap f l = [].
Proof. induction l as [|x l IH]; intros Hl; [done|]. cbn. rw (Hl x); [by left|]. apply IH. intros y Hy. apply Hl. by right. Qed.

Lemma filter_omap j p (rows : list (list V)) : omap (keep j p) rows = filter (λ r, int_holds j p r = true) rows.
Proof.
  induction rows as [|r rows IH]; [done|]. rw filter_cons. cbn. unfold keep at 1. rw IH.
  destruct (int_holds j p r); destruct (decide _); done.
Qed.

Lemma select_ints vs bd p (n : nat) : built KInt vs bd → length vs = n →
  select (ints bd) (nulls bd) p n =
    Some (omap (λ i, vs !! i ≫= λ v, match v with Int64 x => if p x then Some (wrap 16 (Z.of_nat i)) else None | _ => None end) (seq 0 n)).
Proof.
  intros (Hf & Hn & Hp & _) Hl. unfold select.
  erewrite mapM_all; [cbn [mbind option_bind]; by rw omap_id_fmap|]. intros i [_ Hi]%elem_of_seq. cbn beta.
  destruct (lookup_lt_is_Some_2 vs i) as [v Hv]; [lia|]. unfold select_at. rw Hn list_lookup_fmap Hv. cbn [fmap option_fmap option_map mbind option_bind].
  assert (payload KInt bd !! i = Some (filled KInt v)) as Hpi by (rw Hp list_lookup_fmap Hv; done).
  rw Forall_lookup in Hf. specialize (Hf i v Hv). destruct v; try done. cbn. cbn in Hpi. rw list_lookup_fmap in Hpi.
  destruct (ints bd !! i); [|done]. cbn in Hpi |- *. by injection Hpi as ->.
Qed.

Lemma int_selection kinds rows b j p : batch_of kinds rows b → kinds !! j = Some KInt → Z.of_nat (length rows) ≤ 2 ^ 16 →
  ∃ sel, match columns b !! j with Some (CInt64 v n) => select v n p (num_rows b) | _ => Some [] end = Some sel ∧
    materialize_rows b sel = Some (filter (λ r, int_holds j p r = true) rows).
Proof.
  intros Hb Hj Hle. destruct (bo_column _ _ _ Hb j KInt Hj) as (bd & vs & Hc & Hbuilt & Hl & Hvs). rw Hc -filter_omap (bo_rows _ _ _ Hb).
  unfold finish. destruct (Hbuilt) as (_ & _ & _ & [Ht|(Ht & Hnull & _)]); rw Ht; cbn [Z.eqb Pos.eqb orb tag_of].
  - eexists. split; [exact (select_ints vs bd p _ Hbuilt Hl)|]. unfold materialize_rows.
    erewrite mapM_omap; [f_equal; exact (omap_seq (keep j p) rows [])|]. intros i [_ Hi]%elem_of_seq. cbn beta.
    destruct (lookup_lt_is_Some_2 rows i) as [r Hr]; [lia|]. cbn [app]. rw (Hvs i r Hr) Hr. cbn [mbind option_bind]. unfold keep, int_holds.
    destruct (r !! j) as [v|]; [|done]. cbn [mbind option_bind]. destruct v; try done. destruct (p n); [|done]. cbn.
    unfold wrap. rw Z.mod_small; [lia|]. by rw Nat2Z.id (bo_row _ _ _ Hb i r Hr).
  - exists []. split; [done|]. cbn. f_equal. rw omap_none; [|done]. intros r [i Hi]%list_elem_of_lookup_1.
    unfold keep, int_holds. rw -(Hvs i r Hi). destruct (vs !! i) as [v|] eqn:Hv; [|done]. rw Forall_lookup in Hnull. specialize (Hnull i v Hv).
    by destruct v.
Qed.

(** Rows whose columns have one type each, and start with a value or hold integers,
    come back from a batch unchanged, and a comparison of an integer column with
    an integer selects exactly the rows for which it holds. *)
Theorem batch_round_trip kinds rows : kinds ≠ [] → rows ≠ [] → uniform kinds rows → Z.of_nat (length rows) ≤ 2 ^ 16 →
  ∃ b, deserialize_batch (Tuple.serialize <$> rows) (length kinds) = Some b ∧ materialize_all_rows b = Some rows ∧
    ∀ j op lit, kinds !! j = Some KInt →
      batch_rows (Some (j, op, Int64 lit)) b = Some (filter (λ r, int_holds j (compares (λ x y, Some (x ?= y)) op lit) r = true) rows).
Proof.
  intros Hk Hr Hu Hle. destruct (batch_built kinds rows Hk Hr Hu) as (b & Hb & Hof). exists b. split; [done|]. split; [exact (all_rows _ _ _ Hof)|].
  intros j op lit Hj. destruct (int_selection kinds rows b j (compares (λ x y, Some (x ?= y)) op lit) Hof Hj Hle) as (sel & Hs & Hm).
  cbn [batch_rows]. unfold filter_int64_column. rw Hs. exact Hm.
Qed.
End spec.

(** ** What a batch loses *)

Section losses.
#[local] Existing Instance Tuple.sample_codecs.
#[local] Existing Instance Tuple.sample_show.
#[local] Existing Instance Tuple.sample_read.
Local Abbreviation V := (Value unit).

Definition batch_of_rows (n : nat) (rows : list (list V)) : option RecordBatch := deserialize_batch (Tuple.serialize <$> rows) n.

(** NULLs before the first text of a column are put with the integers: building the
    rows again panics. *)
Theorem leading_null_panics :
  (batch_of_rows 1 [[Null]; [Text (chars "a")]] ≫= materialize_all_rows (J := unit)) = None ∧
  is_Some (batch_of_rows 1 [[Null]; [Text (chars "a")]]).
Proof. split; [by vm_compute|]. vm_compute. by eexists. Qed.

(** Timestamps come back as integers, byte strings as NULL, and rows with a date
    are left out of the scan. *)
Theorem types_lost :
  (batch_of_rows 2 [[Timestamp 7; Bytes [1]]] ≫= materialize_all_rows) = Some ([[Int64 7; Null]] : list (list V)) ∧
  scan_leaves None 1 None [[Tuple.serialize [Date 3 : V]]] [] = Some ([] : list (list V)).
Proof. split; by vm_compute. Qed.

(** A comparison with a boolean selects every row. *)
Theorem boolean_filter_ignored :
  (b ← batch_of_rows 1 [[Bool true]; [Bool false]]; batch_rows (Some (0%nat, OpEq, Bool true)) b) = Some ([[Bool true]; [Bool false]] : list (list V)).
Proof. by vm_compute. Qed.
End losses.
End BatchSpec.
