(* ===== verification/Blobs.v ===== *)
(** Large values in files of their own ([bytedb-core/src/blob.rs], and the spilling,
    resolving, caching and collecting of [bytedb-query/src/executor/engine.rs]).

    A file is known by the sixteen bytes of its identifier; identifiers are drawn
    from a source that is a parameter. The device does not fail. *)
From S2P Require Import Prelude ByteOrder Value OrderKey Tuple.
Import Value OrderKey.

(** [Uuid::new_v4]: the identifiers drawn, one after the other. *)
Class Uuids : Type := {
  new_v4 : nat → list Z;
  new_v4_length : ∀ n, length (new_v4 n) = 16%nat
}.

Module Blobs.

(** ** The store *)

Definition BLOB_MAGIC : list Z := [66; 68; 66; 76].
Definition BLOB_VERSION : Z := 1.
Definition MAX_INLINE_BYTES : Z := 65536.

(** The files by identifier, with the time they were written, and the number of
    identifiers drawn. *)
Record BlobStore : Type := mkStore { files : gmap (list Z) (list Z); modified : gmap (list Z) Z; drawn : nat }.

Section store.
Context `{!Codecs} `{!Uuids}.

(** The contents of a file: compressed, or behind a header of the same form. *)
Definition blob_frame (data : list Z) : list Z :=
  match Tuple.compress data with
  | Some (enc, _) => enc
  | None => 5 :: le_bytes 8 (wrap 64 (zlen data)) ++ le_bytes 4 (wrap 32 (zlen data)) ++ data
  end.

Definition blob_file (data : list Z) : list Z := BLOB_MAGIC ++ [BLOB_VERSION] ++ blob_frame data.

(** [store]: a value that is small enough, or an identifier that is taken, is an
    error. *)
Definition store (now : Z) (bs : BlobStore) (data : list Z) : BlobStore * option (list Z) :=
  if zlen data <=? MAX_INLINE_BYTES then (bs, None)
  else
    let uuid := new_v4 (drawn bs) in
    if bool_decide (is_Some (files bs !! uuid)) then (mkStore (files bs) (modified bs) (S (drawn bs)), None)
    else (mkStore (<[uuid := blob_file data]> (files bs)) (<[uuid := now]> (modified bs)) (S (drawn bs)), Some uuid).

(** [load_uuid]; the [None] is an error. *)
Definition load_file (all : list Z) : option (list Z) :=
  if negb (bool_decide (take 4 all = BLOB_MAGIC)) then None
  else
    version ← all !! 4%nat;
    if negb (version =? BLOB_VERSION) then None
    else
      header ← get_slice all 5 13;
      algo ← header !! 0%nat;
      let comp_size := le_val (slice header 9 4) in
      body ← get_slice all 18 comp_size;
      if (algo =? 12) || (algo =? 13) then Tuple.decompress (header ++ body) else Some body.

Definition load_bytes (bs : BlobStore) (uuid : list Z) : option (list Z) := all ← files bs !! uuid; load_file all.

Definition delete_bytes (bs : BlobStore) (uuid : list Z) : BlobStore := mkStore (delete uuid (files bs)) (delete uuid (modified bs)) (drawn bs).

(** [sweep_unreferenced]: a file that is not referenced and old enough is removed. *)
Definition sweepable (now min_age : Z) (live : gset (list Z)) (bs : BlobStore) (uuid : list Z) : bool :=
  bool_decide (uuid ∉ live) &&
  ((min_age <=? 0) || match modified bs !! uuid with Some t => min_age <=? Z.max 0 (now - t) | None => true end).

Definition sweep_unreferenced (now min_age : Z) (live : gset (list Z)) (bs : BlobStore) : BlobStore * Z :=
  let gone := filter (λ kv, sweepable now min_age live bs kv.1 = true) (files bs) in
  (mkStore (files bs ∖ gone) (modified bs ∖ ((λ _, 0) <$> gone)) (drawn bs), Z.of_nat (size gone)).

(** ** The cache *)

(** Identifiers in the order they were put in. *)
Record BlobCache : Type := mkCache { cached : gmap (list Z) (list Z); order : list (list Z); bytes : Z; budget : Z }.

Definition cache_new : BlobCache := mkCache ∅ [] 0 0.

(** The loop that makes room; every round takes an identifier out of the order. *)
Fixpoint shrink (order : list (list Z)) (m : gmap (list Z) (list Z)) (used limit : Z) : gmap (list Z) (list Z) * list (list Z) * Z :=
  if limit <? used then
    match order with
    | [] => (m, [], used)
    | old :: order' =>
        match m !! old with
        | Some v => shrink order' (delete old m) (used - zlen v) limit
        | None => shrink order' m used limit
        end
    end
  else (m, order, used).

Definition cache_put (c : BlobCache) (uuid val : list Z) : BlobCache :=
  if (budget c =? 0) || (budget c <? zlen val) || bool_decide (is_Some (cached c !! uuid)) then c
  else
    let '(m, o, used) := shrink (order c ++ [uuid]) (<[uuid := val]> (cached c)) (bytes c + zlen val) (budget c) in
    mkCache m o used (budget c).

Definition load_blob_cached (bs : BlobStore) (c : BlobCache) (uuid : list Z) : BlobCache * option (list Z) :=
  match cached c !! uuid with
  | Some v => (c, Some v)
  | None =>
      match load_bytes bs uuid with
      | Some v => (cache_put c uuid v, Some v)
      | None => (c, None)
      end
  end.

(** ** Rows *)

Definition is_spillable_tag (tag : Z) : bool := (tag =? 4) || (tag =? 5) || (tag =? 6) || (tag =? 12) || (tag =? 13).

(** [set_blob_config]: nothing smaller than the store accepts is spilled. *)
Definition effective_threshold (t : Z) : Z := if t =? 0 then 0 else Z.max t 65537.

Definition spills (threshold : Z) (protected : list nat) (i : nat) (tag len : Z) : bool :=
  negb (bool_decide (i ∈ protected)) && is_spillable_tag tag && (threshold <? len).

(** The loop over the columns; the [None] is a panic. *)
Fixpoint spill_columns (now threshold : Z) (protected : list nat) (data : list Z) (i : nat) (ranges : list (Z * Z)) (bs : BlobStore) :
    option (BlobStore * list Z) :=
  match ranges with
  | [] => Some (bs, [])
  | (s, e) :: ranges' =>
      piece ← get_slice data s (e - s);
      tag ← Tuple.byte_at data s;
      let '(bs, out) :=
        if spills threshold protected i tag (zlen piece) then
          match store now bs piece with
          | (bs, Some uuid) => (bs, Tuple.TAG_BLOB_REF :: uuid)
          | (bs, None) => (bs, piece)
          end
        else (bs, piece) in
      '(bs, rest) ← spill_columns now threshold protected data (S i) ranges' bs;
      Some (bs, out ++ rest)
  end.

(** Some column is to be spilled. *)
Definition needs_spill (threshold : Z) (protected : list nat) (data : list Z) (ranges : list (Z * Z)) : bool :=
  existsb (λ ir, spills threshold protected ir.1 (default 0 (Tuple.byte_at data ir.2.1)) (ir.2.2 - ir.2.1)) (imap pair ranges).

(** [spill_serialized] with a disk store; [protected] are the columns of the
    primary key and of the indexes. *)
Definition spill_serialized (now threshold : Z) (protected : list nat) (bs : BlobStore) (data : list Z) : option (BlobStore * list Z) :=
  if threshold =? 0 then Some (bs, data)
  else
    match Tuple.column_ranges data with
    | None => Some (bs, data)
    | Some ranges =>
        if needs_spill threshold protected data ranges then
          count ← data !! 0%nat;
          '(bs, out) ← spill_columns now threshold protected data 0 ranges bs;
          Some (bs, count :: out)
        else Some (bs, data)
    end.

(** The loop of [resolve_serialized]. *)
Fixpoint resolve_columns (bs : BlobStore) (c : BlobCache) (data : list Z) (ranges : list (Z * Z)) : option (BlobCache * list Z) :=
  match ranges with
  | [] => Some (c, [])
  | (s, e) :: ranges' =>
      tag ← Tuple.byte_at data s;
      piece ← get_slice data s (e - s);
      let '(c, out) :=
        if (tag =? Tuple.TAG_BLOB_REF) && (e - s =? 17) then
          match load_blob_cached bs c (drop 1 piece) with
          | (c, Some b) => (c, b)
          | (c, None) => (c, piece)
          end
        else (c, piece) in
      '(c, rest) ← resolve_columns bs c data ranges';
      Some (c, out ++ rest)
  end.

Definition resolve_serialized (bs : BlobStore) (c : BlobCache) (data : list Z) : option (BlobCache * list Z) :=
  if negb (Tuple.has_blob_ref data) then Some (c, data)
  else
    match Tuple.column_ranges data with
    | None => Some (c, data)
    | Some ranges =>
        count ← data !! 0%nat;
        '(c, out) ← resolve_columns bs c data ranges;
        Some (c, count :: out)
    end.

(** [decode_row] with a disk store, and [needed_has_blob]. *)
Definition needed_has_blob (data : list Z) (needed : list nat) : bool :=
  Tuple.has_blob_ref data &&
  match Tuple.column_ranges data with
  | Some r => existsb (λ i, match r !! i with Some (s, _) => bool_decide (Tuple.byte_at data s = Some Tuple.TAG_BLOB_REF) | None => false end) needed
  | None => false
  end.

(** [gc_blobs]: the references in the rows of the tables, in the deltas and in the
    undo logs of transactions are kept. *)
Definition gc_blobs (now threshold min_age : Z) (rows deltas undo : list (list Z)) (bs : BlobStore) : BlobStore * Z :=
  if threshold =? 0 then (bs, 0)
  else
    let refs := foldl (λ out data, Tuple.collect_blob_refs data out) [] (rows ++ deltas ++ undo) in
    sweep_unreferenced now min_age (list_to_set refs) bs.
End store.
End Blobs.
