(* ===== verification/BlobsSpec.v ===== *)
(** Large values in files: a row that was spilled is resolved to the row it was, from
    the files or from the cache, and the collection of files keeps those that rows
    refer to. *)
From S2P Require Import Prelude ByteOrder Value OrderKey Tuple Blobs.
Import Value OrderKey Blobs.

Module BlobsSpec.

Section spec.
Context `{!Codecs, !CodecLaws} `{!Uuids}.

(** ** Files *)

Lemma wrap_small_len w (l : list Z) : zlen l < 2 ^ w → wrap w (zlen l) = zlen l.
Proof. intros. unfold wrap. apply Z.mod_small. pose proof (zlen_nonneg l). lia. Qed.

(** A frame of a header of thirteen bytes and a body. *)
Lemma load_frame tag size (body : list Z) :
  zlen body < 2 ^ 32 → zlen (le_bytes 8 size) = 8 →
  load_file (BLOB_MAGIC ++ [BLOB_VERSION] ++ (tag :: le_bytes 8 size ++ le_bytes 4 (wrap 32 (zlen body)) ++ body)) =
    if (tag =? 12) || (tag =? 13) then Tuple.decompress (tag :: le_bytes 8 size ++ le_bytes 4 (wrap 32 (zlen body)) ++ body) else Some body.
Proof.
  intros Hb H8. pose proof (zlen_nonneg body). set len := le_bytes 4 (wrap 32 (zlen body)).
  assert (zlen len = 4) as H4 by (unfold len, zlen; by rw length_le_bytes).
  set header := tag :: le_bytes 8 size ++ len.
  assert (zlen header = 13) as Hh by (unfold header; rw zlen_cons zlen_app; lia).
  assert (tag :: le_bytes 8 size ++ len ++ body = header ++ body) as -> by (unfold header; by rw -app_comm_cons -app_assoc).
  unfold load_file. set all := BLOB_MAGIC ++ [BLOB_VERSION] ++ header ++ body.
  change (take 4 all) with BLOB_MAGIC. rw bool_decide_eq_true_2; [done|]. cbn [negb].
  change (all !! 4%nat) with (Some BLOB_VERSION). cbn [mbind option_bind]. rw Z.eqb_refl. cbn [negb].
  rw (Tuple.get_slice_mid all (BLOB_MAGIC ++ [BLOB_VERSION]) header body 5 13); [by unfold all; rw -app_assoc|done|by rw Hh|].
  cbn [mbind option_bind]. change (header !! 0%nat) with (Some tag). cbn [mbind option_bind].
  rw (Tuple.slice_mid header (tag :: le_bytes 8 size) len [] 9 4); [by rw app_nil_r|rw zlen_cons; lia|by rw H4|].
  unfold len at 1. rw le_bytes_val_small; [rw wrap_small_len; [done|lia]|]. rw wrap_small_len; [done|].
  rw (Tuple.get_slice_mid all (BLOB_MAGIC ++ [BLOB_VERSION] ++ header) body [] 18 (zlen body)); [by unfold all; rw app_nil_r -!app_assoc|by rw !zlen_app Hh|done|].
  done.
Qed.

Lemma load_blob_file data : zlen data < 2 ^ 32 → load_file (blob_file data) = Some data.
Proof.
  intros Hd. unfold blob_file, blob_frame. destruct (Tuple.compress data) as [[enc a]|] eqn:Hc.
  - destruct (Tuple.compress_frame data enc a Hc) as (tag & buf & -> & Htag & Hlen & Hdec). unfold Tuple.frame.
    rw load_frame; [lia|unfold zlen; by rw length_le_bytes|]. destruct Htag as [->| ->]; cbn [Z.eqb Pos.eqb orb];
      fold (Tuple.frame 12 data buf); fold (Tuple.frame 13 data buf); apply Tuple.decompress_frame; auto; lia.
  - rw load_frame; [done|unfold zlen; by rw length_le_bytes|]. done.
Qed.

(** Every blob of the first store is in the second. *)
Definition extends (bs bs' : BlobStore) : Prop := ∀ u v, load_bytes bs u = Some v → load_bytes bs' u = Some v.

#[local] Instance extends_preorder : PreOrder extends.
Proof. split; [by intros bs u v|]. intros x y z Hxy Hyz u v Hv. by apply Hyz, Hxy. Qed.

Lemma store_spec now bs data bs' r : zlen data < 2 ^ 32 → store now bs data = (bs', r) →
  extends bs bs' ∧ ∀ u, r = Some u → length u = 16%nat ∧ load_bytes bs' u = Some data.
Proof.
  intros Hd. unfold store. destruct (zlen data <=? MAX_INLINE_BYTES); [intros [= <- <-]; by split|].
  case_bool_decide as Hu; intros [= <- <-]; [by split|]. split.
  - intros u v. unfold load_bytes. cbn [files]. destruct (decide (u = new_v4 (drawn bs))) as [->|Hne].
    + destruct (files bs !! new_v4 (drawn bs)); [|done]. exfalso. apply Hu. by eexists.
    + rw lookup_insert_ne; [congruence|done].
  - intros u [= <-]. split; [apply new_v4_length|]. unfold load_bytes. cbn [files]. rw lookup_insert_eq. cbn. by apply load_blob_file.
Qed.

(** ** The cache *)

Definition coherent (bs : BlobStore) (c : BlobCache) : Prop := ∀ u v, cached c !! u = Some v → load_bytes bs u = Some v.

Lemma shrink_sub o : ∀ m used limit m' o' used', shrink o m used limit = (m', o', used') → m' ⊆ m.
Proof.
  induction o as [|u o IH]; intros m used limit m' o' used'; cbn; destruct (limit <? used); try (by intros [= <- <- <-]).
  destruct (m !! u); intros Hs; apply IH in Hs; [|done]. etrans; [exact Hs|]. apply delete_subseteq.
Qed.

Lemma cached_load bs now c u c' r : coherent bs c → load_bytes now u = load_bytes bs u → load_blob_cached now c u = (c', r) →
  coherent bs c' ∧ r = load_bytes bs u.
Proof.
  intros Hc Hsame. unfold load_blob_cached. rw Hsame. destruct (cached c !! u) as [v|] eqn:Hu; [intros [= <- <-]; split; [done|]; symmetry; by apply Hc|].
  destruct (load_bytes bs u) as [v|] eqn:Hl; intros [= <- <-]; [|done]. split; [|done]. unfold cache_put. destruct (_ || _); [done|].
  destruct (shrink _ _ _ _) as [[m o] used] eqn:Hs. intros u' v'. cbn. intros Hm.
  pose proof (lookup_weaken _ _ _ _ Hm (shrink_sub _ _ _ _ _ _ _ Hs)) as Hm'. apply lookup_insert_Some in Hm' as [[<- <-]|[_ Hm']]; [done|by apply Hc].
Qed.

(** ** Rows as pieces *)

(** A piece of a row that the code steps over, with its tag. *)
Definition steps_over (tag : Z) (piece : list Z) : Prop :=
  (∃ body, piece = tag :: body) ∧ ∀ pre post, Tuple.skip_value (pre ++ piece ++ post) (zlen pre) = Some (zlen pre + zlen piece).

(** Where the pieces are. *)
Fixpoint ranges_of (p : Z) (pieces : list (list Z)) : list (Z * Z) :=
  match pieces with [] => [] | x :: l => (p, p + zlen x) :: ranges_of (p + zlen x) l end.

Section pieces.
Context (count : Z).
Definition row_data (pieces : list (list Z)) : list Z := count :: mjoin pieces.

Lemma ranges_loop_pieces pieces : Forall (λ x, ∃ t, steps_over t x) pieces → ∀ pre post,
  Tuple.ranges_loop (length pieces) (pre ++ mjoin pieces ++ post) (zlen pre) = Some (ranges_of (zlen pre) pieces).
Proof.
  induction 1 as [|x l [t [_ Hx]] _ IH]; intros pre post; [done|]. cbn [length Tuple.ranges_loop mjoin list_join ranges_of].
  rw -app_assoc Hx. cbn [mbind option_bind]. specialize (IH (pre ++ x) post). rw -app_assoc zlen_app in IH. by rw IH.
Qed.

Lemma column_ranges_pieces pieces : count = zlen pieces → Forall (λ x, ∃ t, steps_over t x) pieces →
  Tuple.column_ranges (row_data pieces) = Some (ranges_of 1 pieces).
Proof.
  intros Hn Hx. unfold Tuple.column_ranges, row_data. replace (Z.to_nat count) with (length pieces) by (rw Hn; unfold zlen; lia).
  pose proof (ranges_loop_pieces pieces Hx [count] []) as E. by rw app_nil_r in E.
Qed.

(** Some piece is a reference. *)
Lemma blob_loop_pieces pieces tags : Forall2 steps_over tags pieces → ∀ pre post,
  Tuple.blob_loop (length pieces) (pre ++ mjoin pieces ++ post) (zlen pre) = existsb (Z.eqb Tuple.TAG_BLOB_REF) tags.
Proof.
  induction 1 as [|t x tags l [[body ->] Hx] _ IH]; intros pre post; [done|]. cbn [length Tuple.blob_loop mjoin list_join existsb].
  rw -app_assoc. rw (Tuple.byte_at_mid _ pre (body ++ mjoin l ++ post) t); [done|done|]. rw Z.eqb_sym.
  destruct (Tuple.TAG_BLOB_REF =? t); [done|]. cbn [orb]. rw (Hx pre (mjoin l ++ post)).
  specialize (IH (pre ++ (t :: body)) post). rw -app_assoc zlen_app in IH. exact IH.
Qed.

(** A value and a reference are such pieces. *)
Lemma value_piece {J} `{!JsonShow J, !JsonRead J, !JsonLaws J Tuple.utf8_valid} (v : Value J) :
  value_ok v → Tuple.fits v → Tuple.compressed v = false → ∃ t, steps_over t (Tuple.encode_value v) ∧ t ≠ Tuple.TAG_BLOB_REF.
Proof.
  intros Hok Hf Hc. assert (∃ t body, Tuple.encode_value v = t :: body ∧ t ≠ Tuple.TAG_BLOB_REF) as (t & body & E & Ht).
  { destruct v as [|b|n|f|s|b|j|t|d|m sc|u|us]; cbn in Hc |- *; try (eexists _, _; split; [reflexivity|done]).
    destruct (Tuple.compress b); [done|]. eexists _, _. by split. }
  exists t. split; [|done]. split; [by exists body|]. intros pre post. rw (Tuple.skip_encode_value v _ pre post Hok Hf eq_refl) Hc. f_equal. lia.
Qed.

Lemma reference_piece u : length u = 16%nat → steps_over Tuple.TAG_BLOB_REF (Tuple.TAG_BLOB_REF :: u).
Proof.
  intros Hu. split; [by exists u|]. intros pre post. unfold Tuple.skip_value.
  rw (Tuple.byte_at_mid _ pre (u ++ post) Tuple.TAG_BLOB_REF); [done|done|]. cbn [mbind option_bind].
  change (Tuple.TAG_BLOB_REF) with 22. cbn [Z.eqb Pos.eqb orb].
  rw (Tuple.get_slice_mid _ (pre ++ [22]) u post (zlen pre + 1) 16); [by rw -app_assoc|by rw zlen_app|unfold zlen; by rw Hu|].
  cbn [mbind option_bind]. f_equal. rw zlen_cons. unfold zlen at 3. rw Hu. lia.
Qed.
End pieces.

(** A piece and what became of it. *)
Definition spilt (bs : BlobStore) (x y : list Z) : Prop :=
  (y = x ∧ ∃ t, steps_over t x ∧ t ≠ Tuple.TAG_BLOB_REF) ∨ (∃ u, y = Tuple.TAG_BLOB_REF :: u ∧ length u = 16%nat ∧ load_bytes bs u = Some x).

Lemma spilt_extends bs bs' x y : extends bs bs' → spilt bs x y → spilt bs' x y.
Proof. intros He [Hx|(u & Hy & Hu & Hl)]; [by left|right]. exists u. split_and!; [done|done|by apply He]. Qed.

Lemma spilt_piece bs x y : spilt bs x y → ∃ t, steps_over t y.
Proof. intros [[-> (t & Ht & _)]|(u & -> & Hu & _)]; [by exists t|]. eexists. by apply reference_piece. Qed.

(** ** Spilling and resolving *)

Definition valued (x : list Z) : Prop := zlen x < 2 ^ 32 ∧ ∃ t, steps_over t x ∧ t ≠ Tuple.TAG_BLOB_REF.

Lemma spill_pieces now threshold protected data pieces : Forall valued pieces → ∀ pre post i bs,
  data = pre ++ mjoin pieces ++ post →
  ∃ bs' out, spill_columns now threshold protected data i (ranges_of (zlen pre) pieces) bs = Some (bs', mjoin out) ∧
    extends bs bs' ∧ Forall2 (spilt bs') pieces out.
Proof.
  induction 1 as [|x l [Hlen (t & [[body Hb] Hskip] & Ht)] _ IH]; intros pre post i bs Hd; [by exists bs, []; split_and!; [..|constructor]|].
  cbn [mjoin list_join] in Hd. rw -app_assoc in Hd. cbn [ranges_of spill_columns].
  rw (Tuple.get_slice_mid data pre x (mjoin l ++ post)); [done|done|lia|]. cbn [mbind option_bind].
  rw (Tuple.byte_at_mid data pre (body ++ mjoin l ++ post) t); [by rw Hd Hb|done|]. cbn [mbind option_bind].
  assert (∃ bs1 y, (if spills threshold protected i t (zlen x)
                    then match store now bs x with (b, Some uuid) => (b, Tuple.TAG_BLOB_REF :: uuid) | (b, None) => (b, x) end
                    else (bs, x)) = (bs1, y) ∧ extends bs bs1 ∧ spilt bs1 x y) as (bs1 & y & E & He & Hs).
  { assert (∀ b, spilt b x x) as Hsame by (intros b; left; split; [done|]; exists t; split; [split; [by exists body|done]|done]).
    destruct (spills _ _ _ _ _); [|exists bs, x; split_and!; [done|done|apply Hsame]].
    destruct (store now bs x) as [bs1 [u|]] eqn:Hst; destruct (store_spec now bs x bs1 _ Hlen Hst) as [He Hu].
    - exists bs1, (Tuple.TAG_BLOB_REF :: u). destruct (Hu u eq_refl). split_and!; [done|done|]. right. by exists u.
    - exists bs1, x. split_and!; [done|done|apply Hsame]. }
  rw E. destruct (IH (pre ++ x) post (S i) bs1) as (bs' & out & Hrun & He' & Hout); [by rw -app_assoc|].
  rw zlen_app in Hrun. rw Hrun. cbn [mbind option_bind]. exists bs', (y :: out). split; [done|]. split; [by transitivity bs1|].
  constructor; [exact (spilt_extends bs1 bs' x y He' Hs)|done].
Qed.

(** The files that are there now serve the references of the pieces. *)
Definition serves (bs now : BlobStore) (ys : list (list Z)) : Prop :=
  ∀ u, length u = 16%nat → Tuple.TAG_BLOB_REF :: u ∈ ys → load_bytes now u = load_bytes bs u.

Lemma resolve_pieces bs now data xs ys : Forall2 (spilt bs) xs ys → serves bs now ys → ∀ pre post c, coherent bs c → data = pre ++ mjoin ys ++ post →
  ∃ c', resolve_columns now c data (ranges_of (zlen pre) ys) = Some (c', mjoin xs) ∧ coherent bs c'.
Proof.
  induction 1 as [|x y xs ys Hs _ IH]; intros Hserve pre post c Hc Hd; [by exists c|].
  specialize (IH (λ u Hu Hin, Hserve u Hu ltac:(by right))). cbn [mjoin list_join] in Hd. rw -app_assoc in Hd.
  destruct (spilt_piece bs x y Hs) as (t & [[body Hb] _]). cbn [ranges_of resolve_columns].
  rw (Tuple.byte_at_mid data pre (body ++ mjoin ys ++ post) t); [by rw Hd Hb|done|]. cbn [mbind option_bind].
  rw (Tuple.get_slice_mid data pre y (mjoin ys ++ post)); [done|done|lia|]. cbn [mbind option_bind].
  replace (zlen pre + zlen y - zlen pre) with (zlen y) by lia.
  assert (∃ c1, (if (t =? Tuple.TAG_BLOB_REF) && (zlen y =? 17)
                 then match load_blob_cached now c (drop 1 y) with (c, Some b) => (c, b) | (c, None) => (c, y) end else (c, y)) = (c1, x) ∧
            coherent bs c1) as (c1 & -> & Hc1).
  { destruct Hs as [[-> (t' & [[body' Hb'] _] & Ht)]|(u & Hy & Hu & Hl)].
    - rw Hb in Hb'. injection Hb' as <- _. destruct (Z.eqb_spec t Tuple.TAG_BLOB_REF); [done|]. by exists c.
    - rw Hy in Hb. injection Hb as <- <-. rw Z.eqb_refl Hy zlen_cons. unfold zlen. rw Hu. change (drop 1 (Tuple.TAG_BLOB_REF :: u)) with u. cbn [andb].
      change (1 + Z.of_nat 16 =? 17) with true. destruct (load_blob_cached now c u) as [c1 r] eqn:Hload.
      destruct (cached_load bs now c u c1 r Hc (Hserve u Hu ltac:(rw Hy; by left)) Hload) as [Hc1 ->]. rw Hl. by exists c1. }
  destruct (IH (pre ++ y) post c1 Hc1) as (c' & Hrun & Hc'); [by rw -app_assoc|]. rw zlen_app in Hrun. rw Hrun. by exists c'.
Qed.

Lemma refs_collected ys : Forall (λ y, ∃ t, steps_over t y) ys → ∀ pre post u, length u = 16%nat → Tuple.TAG_BLOB_REF :: u ∈ ys →
  u ∈ Tuple.collect_loop (length ys) (pre ++ mjoin ys ++ post) (zlen pre).
Proof.
  induction 1 as [|y ys (t & [[body ->] Hstep]) _ IH]; intros pre post u Hu Hin; [by apply elem_of_nil in Hin|].
  cbn [length Tuple.collect_loop mjoin list_join]. rw -app_assoc.
  rw (Tuple.byte_at_mid _ pre (body ++ mjoin ys ++ post) t); [done|done|]. rw (Hstep pre (mjoin ys ++ post)). apply elem_of_app.
  apply elem_of_cons in Hin as [[= <- ->]|Hin].
  - left. rw Z.eqb_refl. rw (Tuple.get_slice_mid _ (pre ++ [Tuple.TAG_BLOB_REF]) body (mjoin ys ++ post) (zlen pre + 1) 16).
    + by rw -app_assoc.
    + by rw zlen_app.
    + unfold zlen. by rw Hu.
    + by left.
  - right. specialize (IH (pre ++ (t :: body)) post u Hu Hin). rw -app_assoc zlen_app in IH. exact IH.
Qed.

Lemma existsb_none (tags : list Z) : existsb (Z.eqb Tuple.TAG_BLOB_REF) tags = false → Tuple.TAG_BLOB_REF ∉ tags.
Proof. intros Hf Hin. rw -not_true_iff_false existsb_exists in Hf. apply Hf. exists Tuple.TAG_BLOB_REF. by rw -list_elem_of_In Z.eqb_refl. Qed.

(** Without references nothing was spilled. *)
Lemma spilt_same bs xs ys tags : Forall2 (spilt bs) xs ys → Forall2 steps_over tags ys → Tuple.TAG_BLOB_REF ∉ tags → xs = ys.
Proof.
  intros Hs. revert tags. induction Hs as [|x y xs ys Hs _ IH]; intros tags Ht Hn; [done|].
  destruct tags as [|t tags]; [by inversion Ht|]. apply Forall2_cons in Ht as [[[body Hb] _] Ht]. apply not_elem_of_cons in Hn as [Hne Hn].
  rw (IH tags Ht Hn). destruct Hs as [[-> _]|(u & -> & _)]; [done|]. injection Hb as <-. done.
Qed.

(** What is collected is kept. *)
Lemma gc_keeps now threshold min_age rows deltas undo bs data u :
  data ∈ rows ++ deltas ++ undo → u ∈ Tuple.collect_blob_refs data [] →
  load_bytes (gc_blobs now threshold min_age rows deltas undo bs).1 u = load_bytes bs u.
Proof.
  intros Hd Hu. unfold gc_blobs. destruct (threshold =? 0); [done|]. unfold sweep_unreferenced. cbn [fst]. unfold load_bytes. cbn [files].
  set live := list_to_set _. f_equal. destruct (files bs !! u) as [f|] eqn:Hf; [|apply lookup_difference_None; by left].
  apply lookup_difference_Some. split; [done|]. apply map_lookup_filter_None. right. intros f' _ Hsw. unfold sweepable in Hsw.
  apply andb_prop in Hsw as [Hn%bool_decide_eq_true _]. apply Hn. unfold live. apply elem_of_list_to_set.
  assert (∀ l out, (u ∈ out ∨ data ∈ l) → u ∈ foldl (λ out data, Tuple.collect_blob_refs data out) out l) as Hfold; [|apply Hfold; by right].
  induction l as [|d l IH]; intros out Hin; cbn [foldl]; [destruct Hin as [|Hin]; [done|by apply elem_of_nil in Hin]|].
  apply IH. unfold Tuple.collect_blob_refs in Hu |- *. rw app_nil_l in Hu. destruct Hin as [Hin|Hin]; [left; apply elem_of_app; by left|].
  apply elem_of_cons in Hin as [<-|Hin]; [left; apply elem_of_app; by right|by right].
Qed.

(** ** Rows of values *)

Section rows.
Context {J : Type} `{!JsonShow J, !JsonRead J, !JsonLaws J Tuple.utf8_valid}.

(** A row without compressed values whose encoding is shorter than 4 GiB. *)
Definition spillable (vs : list (Value J)) : Prop :=
  Tuple.row_fits vs ∧ Tuple.plain vs ∧ zlen vs ≤ 255 ∧ zlen (Tuple.serialize vs) < 2 ^ 32.

Lemma serialize_pieces (vs : list (Value J)) : zlen vs ≤ 255 → Tuple.serialize vs = row_data (zlen vs) (Tuple.encode_value <$> vs).
Proof.
  intros Hl. unfold Tuple.serialize, row_data, wrap. pose proof (zlen_nonneg vs). rw Z.mod_small; [lia|]. f_equal.
  clear. induction vs as [|v vs IH]; [done|]. cbn. f_equal. exact IH.
Qed.

Lemma zlen_join (x : list Z) l : x ∈ l → zlen x ≤ zlen (mjoin l).
Proof.
  induction l as [|y l IH]; intros Hin; [by apply elem_of_nil in Hin|]. change (mjoin (y :: l)) with (y ++ mjoin l). rw zlen_app. pose proof (zlen_nonneg (mjoin l)). pose proof (zlen_nonneg y).
  apply elem_of_cons in Hin as [->|Hin]; [lia|]. specialize (IH Hin). lia.
Qed.

Lemma row_valued (vs : list (Value J)) : spillable vs → Forall valued (Tuple.encode_value <$> vs).
Proof.
  intros ([Hok Hfit] & Hp & Hl & Hz). rw (serialize_pieces vs Hl) in Hz. unfold row_data in Hz. rw zlen_cons in Hz.
  rw !Forall_forall in Hok, Hfit. unfold Tuple.plain in Hp. rw Forall_forall in Hp. apply Forall_forall. intros x Hx.
  split; [pose proof (zlen_join x _ Hx); lia|]. apply list_elem_of_fmap in Hx as (v & -> & Hv).
  by apply value_piece; [apply Hok|apply Hfit|apply Hp].
Qed.

Lemma valued_pieces pieces : Forall valued pieces → Forall (λ x, ∃ t, steps_over t x) pieces.
Proof. intros Hv. eapply Forall_impl; [exact Hv|]. intros x [_ (t & Ht & _)]. by exists t. Qed.

(** What spilling leaves of a row: the pieces, some of them in files. *)
Lemma spill_row now threshold protected bs (vs : list (Value J)) : spillable vs →
  ∃ bs' ys, spill_serialized now threshold protected bs (Tuple.serialize vs) = Some (bs', row_data (zlen vs) ys) ∧ extends bs bs' ∧
    Forall2 (spilt bs') (Tuple.encode_value <$> vs) ys.
Proof.
  intros Hs. pose proof (row_valued vs Hs) as Hv. destruct Hs as (_ & _ & Hl & _). rw (serialize_pieces vs Hl). set xs := Tuple.encode_value <$> vs in Hv |- *.
  assert (∀ b, Forall2 (spilt b) xs xs) as Hsame.
  { intros b. apply Forall2_same_length_lookup_2; [done|]. intros i x x' E E'. rw E in E'. injection E' as <-. left. split; [done|].
    rw Forall_lookup in Hv. by destruct (Hv i x E) as [_ ?]. }
  unfold spill_serialized. destruct (threshold =? 0); [exists bs, xs; split_and!; [done|done|apply Hsame]|].
  rw column_ranges_pieces; [unfold xs, zlen; by rw length_fmap|by apply valued_pieces|]. destruct (needs_spill _ _ _ _); [|exists bs, xs; split_and!; [done|done|apply Hsame]].
  change (row_data (zlen vs) xs !! 0%nat) with (Some (zlen vs)). cbn [mbind option_bind].
  destruct (spill_pieces now threshold protected (row_data (zlen vs) xs) xs Hv [zlen vs] [] 0 bs) as (bs' & ys & E & He & Hf); [by rw app_nil_r|].
  change (zlen [zlen vs]) with 1 in E. rw E. cbn [mbind option_bind]. by exists bs', ys.
Qed.

Lemma resolve_row bs now c (vs : list (Value J)) ys : zlen vs ≤ 255 → Forall2 (spilt bs) (Tuple.encode_value <$> vs) ys →
  serves bs now ys → coherent bs c →
  ∃ c', resolve_serialized now c (row_data (zlen vs) ys) = Some (c', Tuple.serialize vs) ∧ coherent bs c'.
Proof.
  intros Hl Hs Hserve Hc. rw (serialize_pieces vs Hl). set xs := Tuple.encode_value <$> vs in Hs |- *.
  assert (Forall (λ y, ∃ t, steps_over t y) ys) as Hy.
  { apply Forall_forall. intros y [i Hi]%list_elem_of_lookup_1. destruct (Forall2_lookup_r _ _ _ _ _ Hs Hi) as (x & _ & Hx). exact (spilt_piece bs x y Hx). }
  assert (zlen vs = zlen ys) as Hn by (apply Forall2_length in Hs; unfold xs, zlen in *; rw length_fmap in Hs; by rw Hs).
  unfold resolve_serialized. destruct (Tuple.has_blob_ref (row_data (zlen vs) ys)) eqn:Hb; cbn [negb].
  - rw column_ranges_pieces; [done|done|]. change (row_data (zlen vs) ys !! 0%nat) with (Some (zlen vs)). cbn [mbind option_bind].
    destruct (resolve_pieces bs now (row_data (zlen vs) ys) xs ys Hs Hserve [zlen vs] [] c Hc) as (c' & E & Hc'); [by rw app_nil_r|].
    change (zlen [zlen vs]) with 1 in E. rw E. by exists c'.
  - exists c. split; [|done]. do 3 f_equal. symmetry.
    assert (∃ tags, Forall2 steps_over tags ys) as [tags Ht].
    { clear -Hy. induction Hy as [|y ys [t Ht] _ [tags IH]]; [by exists []|]. exists (t :: tags). by constructor. }
    apply (spilt_same bs xs ys tags Hs Ht). apply existsb_none. unfold Tuple.has_blob_ref, row_data in Hb.
    replace (Z.to_nat (zlen vs)) with (length ys) in Hb by (rw Hn; unfold zlen; lia).
    pose proof (blob_loop_pieces ys tags Ht [zlen vs] []) as E. rw app_nil_r in E. by rw -E.
Qed.

(** C9: A row, spilled with any threshold, is resolved to itself whatever the cache
    holds that the files agree with; the values spilled before stay readable;
    and it is still resolved to itself after a collection of files that is told of
    the row, whichever other files it removes. The row has at most 255 columns and less
    than 4 GiB, its values fit their fields, and none of them is stored compressed
    ([spillable]; the ranges of columns end one byte behind a compressed value, so that
    spilling panics or shifts columns, [compressed_row_panics]). *)
Theorem spilled_row_resolves now threshold protected bs (vs : list (Value J)) : spillable vs →
  ∃ bs' data, spill_serialized now threshold protected bs (Tuple.serialize vs) = Some (bs', data) ∧ extends bs bs' ∧
    ∀ c, coherent bs' c →
      (∃ c', resolve_serialized bs' c data = Some (c', Tuple.serialize vs) ∧ coherent bs' c') ∧
      ∀ now' t min_age rows deltas undo, data ∈ rows ++ deltas ++ undo →
        ∃ c', resolve_serialized (gc_blobs now' t min_age rows deltas undo bs').1 c data = Some (c', Tuple.serialize vs).
Proof.
  intros Hsp. pose proof Hsp as (_ & _ & Hl & _). destruct (spill_row now threshold protected bs vs Hsp) as (bs' & ys & E & He & Hs).
  exists bs', (row_data (zlen vs) ys). split; [done|]. split; [done|]. intros c Hc. split.
  - exact (resolve_row bs' bs' c vs ys Hl Hs (λ _ _ _, eq_refl) Hc).
  - intros now' t min_age rows deltas undo Hin. destruct (resolve_row bs' (gc_blobs now' t min_age rows deltas undo bs').1 c vs ys Hl Hs) as (c' & Hc' & _).
    + intros u Hu Hy. apply (gc_keeps now' t min_age rows deltas undo bs' _ u Hin). unfold Tuple.collect_blob_refs, row_data. rw app_nil_l.
      assert (Forall (λ y, ∃ t, steps_over t y) ys) as Hst.
      { apply Forall_forall. intros y [i Hi]%list_elem_of_lookup_1. destruct (Forall2_lookup_r _ _ _ _ _ Hs Hi) as (x & _ & Hx). exact (spilt_piece bs' x y Hx). }
      apply Forall2_length in Hs. rw length_fmap in Hs. replace (Z.to_nat (zlen vs)) with (length ys) by (unfold zlen; lia).
      pose proof (refs_collected ys Hst [zlen vs] [] u Hu Hy) as Hr. by rw app_nil_r in Hr.
    + done.
    + by exists c'.
Qed.
End rows.
End spec.

(** ** An example *)

Section example.
#[local] Existing Instance Tuple.sample_codecs.
#[local] Existing Instance Tuple.sample_codec_laws.
#[local] Existing Instance Tuple.sample_show.
#[local] Existing Instance Tuple.sample_read.
#[local] Existing Instance Tuple.sample_json.
#[local] Instance counted_uuids : Uuids := {| new_v4 n := le_bytes 16 (Z.of_nat n); new_v4_length n := length_le_bytes 16 (Z.of_nat n) |}.

Definition empty_store : BlobStore := mkStore ∅ ∅ 0.
Definition long_text : Value unit := Text (replicate (Z.to_nat 70000) 97).

Lemma long_row_spillable : spillable [Int64 1; long_text].
Proof.
  assert (∀ n, zlen (replicate n 97) = Z.of_nat n) as Hz by (intros n; unfold zlen; by rw length_replicate).
  unfold long_text. split; [split|split; [|split; [done|]]].
  - constructor; [done|]. constructor; [|constructor]. cbn [value_ok]. by apply Forall_replicate.
  - constructor; [done|]. constructor; [|constructor]. cbn [Tuple.fits]. rw Hz. lia.
  - by repeat constructor.
  - vm_compute. reflexivity.
Qed.

Lemma spilled_row_resolves_witness :
  ∃ bs' data c', spill_serialized 0 (effective_threshold 1) [] empty_store (Tuple.serialize [Int64 1; long_text]) = Some (bs', data) ∧
    resolve_serialized bs' cache_new data = Some (c', Tuple.serialize [Int64 1; long_text]).
Proof.
  destruct (spilled_row_resolves 0 (effective_threshold 1) [] empty_store _ long_row_spillable) as (bs' & data & E & _ & Hr).
  destruct (Hr cache_new) as [(c' & Hc & _) _]; [intros u v Hu; discriminate Hu|]. exact (ex_intro _ bs' (ex_intro _ data (ex_intro _ c' (conj E Hc)))).
Defined.

(** The value really is in a file, and the row has its reference. *)
Example long_row_spilled :
  (λ r, (r.2, size (files r.1))) <$> spill_serialized 0 (effective_threshold 1) [] empty_store (Tuple.serialize [Int64 1; long_text]) =
    Some ([2; 2; 1; 0; 0; 0; 0; 0; 0; 0; Tuple.TAG_BLOB_REF] ++ replicate 16 0, 1%nat).
Proof. vm_compute. reflexivity. Qed.

(** The end of a compressed value is taken to be one byte too far: spilling a row
    whose last value is compressed panics. *)
Theorem compressed_row_panics :
  spill_serialized 0 (effective_threshold 1) [] empty_store (Tuple.serialize [long_text; Bytes Tuple.zeros]) = None.
Proof. vm_compute. reflexivity. Qed.
End example.
End BlobsSpec.
