(* ===== verification/Context.v ===== *)
(** Limits and cancellation of a running query
    ([bytedb-query/src/executor/context.rs]), the settings of the engine they come
    from, and what the engine remembers between statements: parsed statements and
    slow ones ([engine.rs]).

    Times are numbers of milliseconds read from a clock that is an argument. A
    counter that overflows panics, as the addition behind it does. *)
From S2P Require Import Prelude Value Schema Transaction Sql Lexer Parser Like Strings Plan.
Import Sql Like Strings Plan.

Module Context.

(** ** Limits *)

Record ResourceLimits : Type := mkLimits {
  max_memory_bytes : option Z;
  max_temp_spill_bytes : option Z;
  max_scan_rows : option Z;
}.

Definition UNLIMITED : ResourceLimits := mkLimits None None None.
Definition with_memory (bytes : Z) (l : ResourceLimits) : ResourceLimits := mkLimits (Some bytes) (max_temp_spill_bytes l) (max_scan_rows l).
Definition with_temp_spill (bytes : Z) (l : ResourceLimits) : ResourceLimits := mkLimits (max_memory_bytes l) (Some bytes) (max_scan_rows l).
Definition with_scan_rows (rows : Z) (l : ResourceLimits) : ResourceLimits := mkLimits (max_memory_bytes l) (max_temp_spill_bytes l) (Some rows).

Record ResourceUsage : Type := mkUsage { memory_bytes : Z; temp_spill_bytes : Z; scan_rows : Z }.

Record QueryContext : Type := mkContext {
  cancelled : bool;
  deadline : option Z;
  timeout : option Z;
  limits : ResourceLimits;
  usage : ResourceUsage;
}.

Definition no_usage : ResourceUsage := mkUsage 0 0 0.
Definition context_new : QueryContext := mkContext false None None UNLIMITED no_usage.
Definition with_timeout (now t : Z) : QueryContext := mkContext false (Some (now + t)) (Some t) UNLIMITED no_usage.
Definition with_limits (l : ResourceLimits) : QueryContext := mkContext false None None l no_usage.
(** [QueryContextBuilder::build]. *)
Definition build (now : Z) (t : option Z) (l : ResourceLimits) : QueryContext := mkContext false ((λ d, now + d) <$> t) t l no_usage.

Definition cancel (c : QueryContext) : QueryContext := mkContext true (deadline c) (timeout c) (limits c) (usage c).
Definition set_usage (c : QueryContext) (u : ResourceUsage) : QueryContext := mkContext (cancelled c) (deadline c) (timeout c) (limits c) u.

Definition check (now : Z) (c : QueryContext) : qresult () :=
  if cancelled c then QErr Cancelled
  else
    match deadline c with
    | Some dl => if dl <=? now then QErr (QueryTimeout (wrap 64 (default 0 (timeout c)))) else QOk ()
    | None => QOk ()
    end.

(** The common part of the [account] operations: the counter has been raised to
    [n]; it stays raised if the limit is exceeded. *)
Definition exceeded (what : string) (n : Z) (limit : option Z) : qresult () :=
  match limit with
  | Some max => if max <? n then QErr (ResourceLimit (chars what ++ chars " exceeded: " ++ show_int n ++ chars " > " ++ show_int max)) else QOk ()
  | None => QOk ()
  end.

Definition u64_sum (a b : Z) : option Z := if a + b <? 2 ^ 64 then Some (a + b) else None.

Definition account_scan_rows (rows : Z) (c : QueryContext) : option (qresult () * QueryContext) :=
  let u := usage c in
  n ← u64_sum (scan_rows u) rows;
  Some (exceeded "max_scan_rows" n (max_scan_rows (limits c)), set_usage c (mkUsage (memory_bytes u) (temp_spill_bytes u) n)).
Definition account_scan_row (c : QueryContext) : option (qresult () * QueryContext) := account_scan_rows 1 c.

Definition account_memory (bytes : Z) (c : QueryContext) : option (qresult () * QueryContext) :=
  let u := usage c in
  n ← u64_sum (memory_bytes u) bytes;
  Some (exceeded "max_memory_bytes" n (max_memory_bytes (limits c)), set_usage c (mkUsage n (temp_spill_bytes u) (scan_rows u))).

Definition account_temp_spill (bytes : Z) (c : QueryContext) : option (qresult () * QueryContext) :=
  let u := usage c in
  n ← u64_sum (temp_spill_bytes u) bytes;
  Some (exceeded "max_temp_spill_bytes" n (max_temp_spill_bytes (limits c)), set_usage c (mkUsage (memory_bytes u) n (scan_rows u))).

Definition release_memory (bytes : Z) (c : QueryContext) : QueryContext :=
  let u := usage c in set_usage c (mkUsage (Z.max 0 (memory_bytes u - bytes)) (temp_spill_bytes u) (scan_rows u)).

Definition check_every (now counter period : Z) (c : QueryContext) : Z * qresult () :=
  let counter := wrap 64 (counter + 1) in
  (counter, if counter mod Z.max period 1 =? 0 then check now c else QOk ()).

(** ** Settings of the engine *)

Definition set_statement_timeout_ms (ms : Z) : option Z := if ms =? 0 then None else Some ms.
Definition set_resource_limits (max_scan max_memory : Z) : ResourceLimits :=
  let l := if 0 <? max_scan then with_scan_rows max_scan UNLIMITED else UNLIMITED in
  if 0 <? max_memory then with_memory max_memory l else l.

(** [build_default_ctx]: no context if nothing is limited. *)
Definition build_default_ctx (now : Z) (t : option Z) (l : ResourceLimits) : option QueryContext :=
  let has_limits := bool_decide (is_Some (max_memory_bytes l)) || bool_decide (is_Some (max_temp_spill_bytes l)) || bool_decide (is_Some (max_scan_rows l)) in
  if negb (bool_decide (is_Some t)) && negb has_limits then None else Some (build now t l).

(** [account_scan_row] of the engine: the deadline is looked at every 1024 rows. *)
Definition engine_scan_row (now : Z) (ctx : option QueryContext) : option (qresult () * option QueryContext) :=
  match ctx with
  | None => Some (QOk (), None)
  | Some c =>
      '(r, c) ← account_scan_row c;
      Some (match r with
            | QErr e => QErr e
            | QOk _ => if scan_rows (usage c) mod 1024 =? 0 then check now c else QOk ()
            end, Some c)
  end.

(** A scan of [n] rows at the times of the clock: it stops at the first error. *)
Fixpoint engine_scan (clock : list Z) (ctx : option QueryContext) : option (qresult () * option QueryContext) :=
  match clock with
  | [] => Some (QOk (), ctx)
  | now :: clock' => '(r, ctx) ← engine_scan_row now ctx; match r with QOk _ => engine_scan clock' ctx | QErr e => Some (QErr e, ctx) end
  end.

(** ** What limits guarantee *)

Lemma scan_row_cases now c r c' : engine_scan_row now (Some c) = Some (r, c') →
  ∃ c1, c' = Some c1 ∧ limits c1 = limits c ∧ deadline c1 = deadline c ∧ cancelled c1 = cancelled c ∧ scan_rows (usage c1) = scan_rows (usage c) + 1 ∧
    (r = QOk () → ∀ max, max_scan_rows (limits c) = Some max → scan_rows (usage c1) ≤ max).
Proof.
  unfold engine_scan_row, account_scan_row, account_scan_rows, u64_sum. destruct (_ <? _); [|done]. cbn [mbind option_bind]. intros [= <- <-].
  eexists. split; [done|]. cbn. split_and!; [done|done|done|done|]. intros Hr max Hmax. rw Hmax in Hr. unfold exceeded in Hr.
  destruct (Z.ltb_spec max (scan_rows (usage c) + 1)); [done|lia].
Qed.

Lemma scan_ok_step now clock c c' : engine_scan (now :: clock) (Some c) = Some (QOk (), c') →
  ∃ c1, engine_scan_row now (Some c) = Some (QOk (), Some c1) ∧ engine_scan clock (Some c1) = Some (QOk (), c').
Proof.
  cbn [engine_scan]. intros ([r1 ctx1] & Hstep & Hrest)%bind_Some. destruct r1 as [[]|e]; [|done].
  destruct (scan_row_cases now c _ _ Hstep) as (c1 & -> & _). by exists c1.
Qed.

(** A scan that succeeds has not read more rows than the limit allows. *)
Theorem scan_limit_enforced clock : ∀ c c' max, max_scan_rows (limits c) = Some max → clock ≠ [] →
  engine_scan clock (Some c) = Some (QOk (), c') → scan_rows (usage c) + zlen clock ≤ max.
Proof.
  induction clock as [|now clock IH]; intros c c' max Hmax Hne Hrun; [done|]. apply scan_ok_step in Hrun as (c1 & Hstep & Hrun).
  destruct (scan_row_cases now c _ _ Hstep) as (? & [= <-] & Hl & _ & _ & Hn & Hok). rw zlen_cons.
  destruct clock as [|now' clock].
  - specialize (Hok eq_refl max Hmax). unfold zlen. cbn. lia.
  - rw -Hl in Hmax. specialize (IH c1 c' max Hmax ltac:(done) Hrun). lia.
Qed.

(** A scan of 1024 rows or more behind the deadline, or after a cancellation, fails. *)
Theorem scan_stops clock : ∀ c c', Forall (λ now, check now c ≠ QOk ()) clock →
  (∃ k, 0 < k ≤ zlen clock ∧ (scan_rows (usage c) + k) mod 1024 = 0) → engine_scan clock (Some c) ≠ Some (QOk (), c').
Proof.
  induction clock as [|now clock IH]; intros c c' Hlate (k & Hk & Hmod) Hrun; [unfold zlen in Hk; cbn in Hk; lia|].
  apply scan_ok_step in Hrun as (c1 & Hstep & Hrun). apply Forall_cons in Hlate as [Hnow Hlate].
  destruct (scan_row_cases now c _ _ Hstep) as (? & [= <-] & _ & Hd & Hc & Hn & _).
  assert (∀ t, check t c1 = QOk () → check t c = QOk ()) as Hcheck.
  { intros t. unfold check. rw Hd Hc. destruct (cancelled c); [done|]. destruct (deadline c) as [dl|]; [|done]. by destruct (dl <=? t). }
  destruct (decide (k = 1)) as [->|Hne].
  - apply Hnow, Hcheck. revert Hstep. unfold engine_scan_row. intros ([r c2] & _ & Hr)%bind_Some. destruct r as [[]|]; [|done].
    injection Hr as Hr ->. by rw Hn Hmod in Hr.
  - apply (IH c1 c'); [|exists (k - 1); rw Hn zlen_cons in Hk |- *; split; [lia|by rw -Hmod; f_equal; lia]|exact Hrun].
    eapply Forall_impl; [exact Hlate|]. intros t Ht E. by apply Ht, Hcheck.
Qed.

(** ** Statements already parsed *)

Definition STMT_CACHE_SIZE : Z := 256.

Record StmtCache : Type := mkStmtCache { entries : list (Z * str * Statement) }.
Definition cache_new : StmtCache := mkStmtCache [].

(** FNV-1a over the bytes of the text. *)
Definition hash_sql (sql : str) : Z :=
  foldl (λ h b, wrap 64 (Z.lxor h b * 1099511628211)) 14695981039346656037 (utf8_bytes sql).

Definition cache_get (c : StmtCache) (hash : Z) (sql : str) : option Statement :=
  (λ e, e.2.2) <$> list_find (λ e : Z * str * Statement, e.1.1 = hash ∧ e.1.2 = sql) (entries c).

Definition cache_insert (c : StmtCache) (hash : Z) (sql : str) (stmt : Statement) : StmtCache :=
  mkStmtCache ((if STMT_CACHE_SIZE <=? zlen (entries c) then drop 1 (entries c) else entries c) ++ [(hash, sql, stmt)]).

Section parse.
Context `{Unicode} `{FloatText}.

Definition parse_cached (c : StmtCache) (sql : str) : option (StmtCache * presult Statement) :=
  let hash := hash_sql sql in
  match cache_get c hash sql with
  | Some s => Some (c, POk s)
  | None =>
      r ← Parser.parse_sql sql;
      Some (match r with POk stmt => cache_insert c hash sql stmt | PErr _ => c end, r)
  end.

(** Every statement of the cache is what its text parses to. *)
Definition faithful (c : StmtCache) : Prop :=
  Forall (λ e, Parser.parse_sql e.1.2 = Some (POk e.2)) (entries c) ∧ zlen (entries c) ≤ STMT_CACHE_SIZE.

(** The cache is invisible: texts parse to the same statements with it, however it
    was filled, and it never grows beyond its size. *)
Theorem parse_cached_transparent c sql : faithful c →
  snd <$> parse_cached c sql = Parser.parse_sql sql ∧ ∀ c' r, parse_cached c sql = Some (c', r) → faithful c'.
Proof.
  intros Hc. pose proof Hc as [Hf Hn]. unfold parse_cached, cache_get. destruct (list_find _ _) as [[i e]|] eqn:Hfind; cbn [fmap option_fmap option_map].
  - apply list_find_Some in Hfind as (He & [_ Hs] & _). rw Forall_lookup in Hf. specialize (Hf i e He). cbn [snd]. rw -Hs Hf.
    split; [done|]. by intros c' r [= <- _].
  - destruct (Parser.parse_sql sql) as [r|] eqn:Hp; [|done]. split; [done|]. intros c' r' [= <- <-]. destruct r as [stmt|]; [|done]. split; cbn [entries].
    + apply Forall_app. split; [|by constructor]. destruct (_ <=? _); [by apply Forall_drop|done].
    + rw zlen_app. unfold STMT_CACHE_SIZE in *. destruct (Z.leb_spec 256 (zlen (entries c))); unfold zlen in *; cbn [length]; [rw length_drop|]; lia.
Qed.
End parse.

(** ** Slow queries *)

Record SlowQueryEntry : Type := mkSlow { slow_sql : str; duration_micros : Z; slow_txn : option Z; timestamp_micros : Z }.

(** [maybe_record_slow_query]: the oldest entry makes room. *)
Definition maybe_record_slow_query (capacity : Z) (threshold_ms : option Z) (now elapsed : Z) (sql : str) (txn : option Z) (log : list SlowQueryEntry) :
    list SlowQueryEntry :=
  match threshold_ms with
  | None => log
  | Some t =>
      if elapsed / 1000 <? t then log
      else (if capacity <=? zlen log then drop 1 log else log) ++ [mkSlow sql elapsed txn now]
  end.

Lemma slow_log_bounded capacity t now elapsed sql txn log : 0 < capacity → zlen log ≤ capacity →
  zlen (maybe_record_slow_query capacity t now elapsed sql txn log) ≤ capacity.
Proof.
  intros Hc Hl. unfold maybe_record_slow_query. destruct t as [t|]; [|done]. destruct (elapsed / 1000 <? t); [done|]. rw zlen_app.
  destruct (Z.leb_spec capacity (zlen log)); unfold zlen in *; cbn [length]; [rw length_drop|]; lia.
Qed.
End Context.
