(* ===== verification/Stores.v ===== *)
(** The stores beside the tables: the key-value store
    ([bytedb-query/src/kv/kv_engine.rs]), and collections of JSON documents
    ([bytedb-query/src/document/doc_engine.rs], [json_path.rs]).

    The key-value store is a tree over the bytes of its strings. Documents are JSON
    values; reading their text and the numbers of JSON are parameters.

    What the stores beside the tables promise: the key-value store is a map of
    strings, a value that was set at a path is found there, and documents that were
    deleted are gone. *)
From S2P Require Import Prelude ByteOrder BTree BTreeInv BTreeSpec OrderedIndex Value Tuple Civil Literals DiskManager Sql TableFiles Like DbFiles Strings TableFilesSpec DbFilesSpec.
Import Sql (str, chars).
Import Like (utf8_chars, utf8_bytes).

Module Stores.

(** ** The key-value store *)

Section kv.
Context {T : Type} `{!KvTree T}.

Definition kv_new : T := kt_new "kv_store" 256.

(** The values in the tree are the bytes of strings, on which [from_utf8_lossy] is
    the decoding. *)
Definition kv_get (t : T) (key : str) : option (option str) := fmap (M := option) utf8_chars <$> kt_search t (utf8_bytes key).
Definition kv_set (t : T) (key value : str) : option T := kt_insert t (utf8_bytes key) (utf8_bytes value).
Definition kv_delete (t : T) (key : str) : option (T * bool) := kt_delete t (utf8_bytes key).
Definition kv_scan (t : T) (start stop : str) : option (list (str * str)) :=
  map (λ kv, (utf8_chars kv.1, utf8_chars kv.2)) <$> kt_range_scan t (utf8_bytes start) (utf8_bytes stop).
End kv.

(** ** JSON *)

Section json.
Context {Num : Type} `{!EqDecision Num}.

(** [serde_json::Value]; the entries of an object come in the order of their keys,
    each key once. *)
Inductive Json : Type :=
  | JNull
  | JBool (b : bool)
  | JNumber (n : Num)
  | JString (s : str)
  | JArray (l : list Json)
  | JObject (l : list (str * Json)).

(** [==] on values. *)
Fixpoint json_eqb (a b : Json) : bool :=
  match a, b with
  | JNull, JNull => true
  | JBool x, JBool y => Bool.eqb x y
  | JNumber x, JNumber y => bool_decide (x = y)
  | JString x, JString y => bool_decide (x = y)
  | JArray x, JArray y =>
      (fix eqs (x y : list Json) : bool := match x, y with [], [] => true | a :: x', b :: y' => json_eqb a b && eqs x' y' | _, _ => false end) x y
  | JObject x, JObject y =>
      (fix eqs (x y : list (str * Json)) : bool :=
         match x, y with
         | [], [] => true
         | (k, a) :: x', (k', b) :: y' => bool_decide (k = k') && json_eqb a b && eqs x' y'
         | _, _ => false
         end) x y
  | _, _ => false
  end.

(** The entry of a key. *)
Fixpoint obj_get (key : str) (l : list (str * Json)) : option Json :=
  match l with [] => None | (k, v) :: l' => if bool_decide (k = key) then Some v else obj_get key l' end.

(** [Map::insert]: the entry is replaced, or put in its place. *)
Fixpoint obj_insert (key : str) (v : Json) (l : list (str * Json)) : list (str * Json) :=
  match l with
  | [] => [(key, v)]
  | (k, x) :: l' =>
      if bool_decide (k = key) then (k, v) :: l'
      else if bltb (utf8_bytes key) (utf8_bytes k) then (key, v) :: l
      else (k, x) :: obj_insert key v l'
  end.

(** [Value::get] with a key and with a number. *)
Definition get_key (j : Json) (key : str) : option Json := match j with JObject l => obj_get key l | _ => None end.
Definition get_index (j : Json) (i : Z) : option Json := match j with JArray l => l !! Z.to_nat i | _ => None end.

(** ** Paths *)

Definition path_parts (path : str) : list str := Strings.split_by (λ c, c =? 46) [] path.

(** The text between brackets, if there are any. *)
Definition bracketed (part : str) : option str :=
  match part with
  | 91 :: rest => match reverse rest with 93 :: r => Some (reverse r) | _ => None end
  | _ => None
  end.

(** [str::parse::<usize>]. *)
Definition parse_usize (s : str) : option Z :=
  let digits := match s with 43 :: r => r | _ => s end in
  match digits with
  | [] => None
  | _ => v ← Civil.digits_val 0 digits; if v <? 2 ^ 64 then Some v else None
  end.

Definition path_step (j : Json) (part : str) : option Json :=
  match bracketed part with
  | Some idx => i ← parse_usize idx; get_index j i
  | None => get_key j part
  end.

Definition evaluate_path (doc : Json) (path : str) : option Json := foldl (λ cur part, j ← cur; path_step j part) (Some doc) (path_parts path).

(** The entry under a key is changed; where there is none, an empty object is put
    there first. [None] if there is no object to go into. *)
Fixpoint obj_alter (key : str) (v : Json) (l : list (str * Json)) : list (str * Json) :=
  match l with [] => [] | (k, x) :: l' => if bool_decide (k = key) then (k, v) :: l' else (k, x) :: obj_alter key v l' end.

(** [set_path] on the parts of a path: the document and whether the value was set. *)
Fixpoint set_parts (doc : Json) (parts : list str) (value : Json) : Json * bool :=
  match parts with
  | [] => (doc, false)
  | [part] => match doc with JObject l => (JObject (obj_insert part value l), true) | _ => (doc, false) end
  | part :: parts' =>
      match doc with
      | JObject l =>
          let l := match obj_get part l with None => obj_insert part (JObject []) l | Some _ => l end in
          match obj_get part l with
          | Some next => let '(next, b) := set_parts next parts' value in (JObject (obj_alter part next l), b)
          | None => (JObject l, false)
          end
      | _ => (doc, false)
      end
  end.

Definition set_path (doc : Json) (path : str) (value : Json) : Json * bool := set_parts doc (path_parts path) value.

(** ** Collections *)

Record Document : Type := mkDocument { doc_id : str; data : Json }.
Record DocEngine : Type := mkDocEngine { collections : gmap str (list Document); next_id : Z }.

Definition doc_new : DocEngine := mkDocEngine ∅ 1.

(** A document gets its identifier as an entry, if it is an object. The counter
    wraps around. *)
Definition doc_insert (parse : str → option Json) (e : DocEngine) (collection text : str) : DocEngine * option str :=
  match parse text with
  | None => (e, None)
  | Some j =>
      let id := chars "doc_" ++ Civil.show_nat (next_id e) in
      let j := match j with JObject l => JObject (obj_insert (chars "_id") (JString id) l) | _ => j end in
      (mkDocEngine (<[collection := default [] (collections e !! collection) ++ [mkDocument id j]]> (collections e)) (wrap 64 (next_id e + 1)), Some id)
  end.

Definition docs_of (e : DocEngine) (collection : str) : list Document := default [] (collections e !! collection).
Definition set_docs (e : DocEngine) (collection : str) (l : list Document) : DocEngine :=
  match collections e !! collection with
  | Some _ => mkDocEngine (<[collection := l]> (collections e)) (next_id e)
  | None => e
  end.

Definition doc_find (e : DocEngine) (collection : str) (f : Json → bool) : list Json := data <$> filter (λ d, f (data d) = true) (docs_of e collection).
Definition doc_find_all (e : DocEngine) (collection : str) : list Json := doc_find e collection (λ _, true).

(** A document has the value at the path. *)
Definition path_is (path : str) (expected : Json) (j : Json) : bool :=
  match evaluate_path j path with Some v => json_eqb v expected | None => false end.

Definition find_by_path (e : DocEngine) (collection path : str) (expected : Json) : list Json := doc_find e collection (path_is path expected).

(** The new entry goes under the text of the path, as one key. *)
Definition update_doc (filter_path : str) (filter_value : Json) (set_key : str) (v : Json) (d : Document) : Document * Z :=
  match path_is filter_path filter_value (data d), data d with
  | true, JObject l => (mkDocument (doc_id d) (JObject (obj_insert set_key v l)), 1)
  | _, _ => (d, 0)
  end.
Definition update_by_path (e : DocEngine) (collection filter_path : str) (filter_value : Json) (set_key : str) (v : Json) : DocEngine * Z :=
  let l := update_doc filter_path filter_value set_key v <$> docs_of e collection in
  (set_docs e collection l.*1, foldl Z.add 0 l.*2).

Definition delete_by_path (e : DocEngine) (collection path : str) (expected : Json) : DocEngine * Z :=
  let docs := docs_of e collection in
  let kept := filter (λ d, path_is path expected (data d) = false) docs in
  (set_docs e collection kept, zlen docs - zlen kept).

Definition doc_count (e : DocEngine) (collection : str) : Z := zlen (docs_of e collection).
Definition list_collections `{!HashOrder} (e : DocEngine) : list str := hash_keys (collections e).
End json.
Arguments Json Num : clear implicits.
Arguments DocEngine Num : clear implicits.
End Stores.

Import Sql (str, chars).
Import Like (utf8_chars, utf8_bytes).
Import DbFilesSpec (scalar, utf8_round_trip).
Import Stores.

Module StoresSpec.

(** ** The key-value store *)

Section kv.
Context {T : Type} `{!KvTree T} `{!KvTreeLaws T}.

Inductive KvOp : Type := KvSet (key value : str) | KvDelete (key : str).

Definition kv_op_ok (o : KvOp) : Prop := match o with KvSet k v => Forall scalar k ∧ Forall scalar v | KvDelete k => Forall scalar k end.

Definition kv_run (t : T) (o : KvOp) : option T := match o with KvSet k v => kv_set t k v | KvDelete k => fst <$> kv_delete t k end.
Definition kv_spec (m : gmap str str) (o : KvOp) : gmap str str := match o with KvSet k v => <[k := v]> m | KvDelete k => delete k m end.

Fixpoint kv_runs (t : T) (ops : list KvOp) : option T := match ops with [] => Some t | o :: ops' => t ← kv_run t o; kv_runs t ops' end.

Lemma utf8_inj (a b : str) : Forall scalar a → Forall scalar b → utf8_bytes a = utf8_bytes b → a = b.
Proof. intros [Ha _]%utf8_round_trip [Hb _]%utf8_round_trip He. rw -Ha -Hb. by rw He. Qed.

(** The map of bytes has the bytes of the strings of the map. *)
Record encodes (mm : gmap (list Z) (list Z)) (m : gmap str str) : Prop := {
  en_ok : ∀ (k v : str), m !! k = Some v → Forall scalar k ∧ Forall scalar v;
  en_rel : ∀ (b c : list Z), mm !! b = Some c ↔ ∃ k v : str, b = utf8_bytes k ∧ c = utf8_bytes v ∧ m !! k = Some v;
}.

Definition kv_rel (t : T) (m : gmap str str) : Prop := ∃ mm, kt_rep t mm ∧ encodes mm m.

Lemma kv_rel_new : kv_rel kv_new ∅.
Proof.
  exists ∅. split; [apply kt_new_rep; lia|]. split; [by intros k v|]. intros b c. rw lookup_empty. split; [done|]. by intros (k & v & _ & _ & ?).
Qed.

Lemma encodes_lookup (mm : gmap (list Z) (list Z)) (m : gmap str str) (k : str) : encodes mm m → Forall scalar k → mm !! utf8_bytes k = utf8_bytes <$> m !! k.
Proof.
  intros [Hok Hrel] Hk. destruct (m !! k) as [v|] eqn:Hm; cbn.
  - apply Hrel. by exists k, v.
  - apply eq_None_not_Some. intros [c (k' & v & Hb & _ & Hm')%Hrel]. destruct (Hok _ _ Hm') as [Hk' _].
    apply (utf8_inj k k' Hk Hk') in Hb as <-. congruence.
Qed.

Lemma kv_run_rel (t : T) (m : gmap str str) o : kv_op_ok o → kv_rel t m → ∃ t', kv_run t o = Some t' ∧ kv_rel t' (kv_spec m o).
Proof.
  intros Ho (mm & Hrep & [Hok Hrel]). destruct o as [k v|k]; cbn [kv_run kv_spec kv_op_ok] in *.
  - destruct Ho as [Hk Hv]. destruct (kt_insert_rep t mm (utf8_bytes k) (utf8_bytes v) Hrep) as (t' & Ht & Hr). exists t'. split; [done|].
    exists (<[utf8_bytes k := utf8_bytes v]> mm). split; [done|]. split.
    + intros k' v'. destruct (decide (k = k')) as [<-|Hne]; [rw lookup_insert_eq; by intros [= <-]|rw lookup_insert_ne; [done|]; apply Hok].
    + intros b c. destruct (decide (utf8_bytes k = b)) as [<-|Hne].
      * rw lookup_insert_eq. split.
        -- intros [= <-]. exists k, v. by rw lookup_insert_eq.
        -- intros (k' & v' & Hb & -> & Hm'). destruct (decide (k = k')) as [<-|Hne]; [rw lookup_insert_eq in Hm'; by injection Hm' as ->|].
           rw lookup_insert_ne in Hm'; [done|]. destruct (Hok _ _ Hm') as [Hk' _]. by destruct (Hne (utf8_inj k k' Hk Hk' Hb)).
      * rw lookup_insert_ne; [done|]. rw Hrel. split; intros (k' & v' & -> & -> & Hm'); exists k', v'; (split; [done|]; split; [done|]).
        -- rw lookup_insert_ne; [by intros ->|done].
        -- rw lookup_insert_ne in Hm'; [by intros ->|done].
  - destruct (kt_delete_rep t mm (utf8_bytes k) Hrep) as (t' & Ht & Hr). exists t'. unfold kv_delete. rw Ht. split; [done|].
    exists (delete (utf8_bytes k) mm). split; [done|]. split.
    + intros k' v'. destruct (decide (k = k')) as [<-|Hne]; [by rw lookup_delete_eq|rw lookup_delete_ne; [done|]; apply Hok].
    + intros b c. destruct (decide (utf8_bytes k = b)) as [<-|Hne].
      * rw lookup_delete_eq. split; [done|]. intros (k' & v' & Hb & _ & Hm'). destruct (decide (k = k')) as [<-|Hne]; [by rw lookup_delete_eq in Hm'|].
        rw lookup_delete_ne in Hm'; [done|]. destruct (Hok _ _ Hm') as [Hk' _]. by destruct (Hne (utf8_inj k k' Ho Hk' Hb)).
      * rw lookup_delete_ne; [done|]. rw Hrel. split; intros (k' & v' & -> & -> & Hm'); exists k', v'; (split; [done|]; split; [done|]).
        -- rw lookup_delete_ne; [by intros ->|done].
        -- rw lookup_delete_ne in Hm'; [by intros ->|done].
Qed.

Lemma kv_runs_rel (ops : list KvOp) (t : T) (m : gmap str str) : Forall kv_op_ok ops → kv_rel t m → ∃ t', kv_runs t ops = Some t' ∧ kv_rel t' (foldl kv_spec m ops).
Proof.
  intros Ho. revert t m. induction Ho as [|o ops Ho _ IH]; intros t m Hr; [by exists t|]. cbn [kv_runs foldl].
  destruct (kv_run_rel t m o Ho Hr) as (t1 & Ht & Hr1). rw Ht. cbn [mbind option_bind]. by apply IH.
Qed.

(** An entry between two strings, in the order of their bytes. *)
Definition in_strings (start stop : str) (kv : str * str) : Prop := ble (utf8_bytes start) (utf8_bytes kv.1) ∧ ble (utf8_bytes kv.1) (utf8_bytes stop).
Definition string_le (a b : str * str) : Prop := ble (utf8_bytes a.1) (utf8_bytes b.1).

Lemma encodes_pair (mm : gmap (list Z) (list Z)) (m : gmap str str) b c : encodes mm m → mm !! b = Some c →
  m !! utf8_chars b = Some (utf8_chars c) ∧ utf8_bytes (utf8_chars b) = b.
Proof.
  intros [Hok Hrel] (k & v & -> & -> & Hm)%Hrel. destruct (Hok k v Hm) as [Hk Hv].
  destruct (utf8_round_trip k Hk) as [-> _]. by destruct (utf8_round_trip v Hv) as [-> _].
Qed.

Lemma scan_sorted (mm : gmap (list Z) (list Z)) (m : gmap str str) (l : list (list Z * list Z)) :
  encodes mm m → (∀ kv, kv ∈ l → mm !! kv.1 = Some kv.2) → StronglySorted key_le l →
  StronglySorted string_le (map (λ kv, (utf8_chars kv.1, utf8_chars kv.2)) l).
Proof.
  intros He Hin Hs. induction Hs as [|[b c] l Hs IH Hall]; cbn; constructor.
  - apply IH. intros kv Hkv. apply Hin. by apply elem_of_cons; right.
  - apply Forall_forall. intros kv Hkv%list_elem_of_In. apply in_map_iff in Hkv as ([b' c'] & <- & Hkv). apply list_elem_of_In in Hkv.
    rw Forall_forall in Hall. specialize (Hall _ Hkv).
    unfold string_le. cbn [fst snd]. destruct (encodes_pair mm m b c He) as [_ ->]; [apply (Hin (b, c)); by apply elem_of_cons; left|].
    destruct (encodes_pair mm m b' c' He) as [_ ->]; [apply (Hin (b', c')); by apply elem_of_cons; right|]. done.
Qed.

Lemma sorted_filter {A} (R : A → A → Prop) (P : A → Prop) `{!∀ x, Decision (P x)} l : StronglySorted R l → StronglySorted R (filter P l).
Proof.
  induction 1 as [|x l Hs IH Hall]; [constructor|]. destruct (decide (P x)) as [Hx|Hx]; [rw filter_cons_True; [done|]|rw filter_cons_False; done].
  constructor; [done|]. apply Forall_forall. intros y [_ Hy]%list_elem_of_filter. rw Forall_forall in Hall. by apply Hall.
Qed.

Lemma kv_scan_spec (t : T) (m : gmap str str) (start stop : str) : kv_rel t m → Forall scalar start → Forall scalar stop →
  ∃ l, kv_scan t start stop = Some l ∧ StronglySorted string_le l ∧ ∀ k v, (k, v) ∈ l ↔ m !! k = Some v ∧ in_strings start stop (k, v).
Proof.
  intros (mm & Hrep & He) Hs Ht. unfold kv_scan. rw (kt_range_rep t mm _ _ Hrep). eexists. split; [done|]. split.
  - apply (scan_sorted mm m); [done| |].
    + intros [b c] [_ Hin]%list_elem_of_filter. by apply elem_of_sorted_pairs in Hin.
    + apply sorted_filter. unfold sorted_pairs. apply (@StronglySorted_merge_sort _ key_le _); [apply BTreeSpec.key_le_trans|apply BTreeSpec.key_le_total].
  - intros k v. rw list_elem_of_In in_map_iff. split.
    + intros ([b c] & [= <- <-] & [Hr Hin]%list_elem_of_In%list_elem_of_filter). apply elem_of_sorted_pairs in Hin.
      destruct (encodes_pair mm m b c He Hin) as [Hm Hb]. split; [done|]. unfold in_strings. cbn [fst]. rw Hb. exact Hr.
    + intros [Hm Hr]. destruct (en_ok _ _ He k v Hm) as [Hk Hv]. exists (utf8_bytes k, utf8_bytes v). cbn.
      destruct (utf8_round_trip k Hk) as [-> _], (utf8_round_trip v Hv) as [-> _]. split; [done|]. apply list_elem_of_In, list_elem_of_filter.
      split; [exact Hr|]. apply elem_of_sorted_pairs, (en_rel _ _ He). by exists k, v.
Qed.

(** The key-value store is a map of strings. After any settings and deletions of
    strings on a new store, a key has the value it was last set to, if it was not
    deleted since; a deletion says whether there was one; and a scan returns the
    entries between its bounds, both included, in the order of their bytes. *)
Theorem kv_refines_map (ops : list KvOp) : Forall kv_op_ok ops →
  ∃ t, kv_runs kv_new ops = Some t ∧ let m := foldl kv_spec ∅ ops in
  (∀ k : str, Forall scalar k → kv_get t k = Some (m !! k) ∧ ∃ t', kv_delete t k = Some (t', bool_decide (is_Some (m !! k)))) ∧
  ∀ start stop : str, Forall scalar start → Forall scalar stop →
    ∃ l, kv_scan t start stop = Some l ∧ StronglySorted string_le l ∧ ∀ k v, (k, v) ∈ l ↔ m !! k = Some v ∧ in_strings start stop (k, v).
Proof.
  intros Ho. destruct (kv_runs_rel ops kv_new ∅ Ho kv_rel_new) as (t & Ht & Hr). exists t. split; [done|]. cbn. split.
  - intros k Hk. pose proof Hr as (mm & Hrep & He). pose proof (encodes_lookup mm _ k He Hk) as Hl. split.
    + unfold kv_get. rw (kt_search_rep t mm _ Hrep) Hl. cbn. f_equal. destruct (foldl kv_spec ∅ ops !! k) as [v|] eqn:Hm; [|done]. cbn. f_equal.
      destruct (en_ok _ _ He k v Hm) as [_ Hv]. by destruct (utf8_round_trip v Hv).
    + destruct (kt_delete_rep t mm (utf8_bytes k) Hrep) as (t' & Hd & _). exists t'. unfold kv_delete. rw Hd Hl. do 2 f_equal.
      apply bool_decide_ext. by rw fmap_is_Some.
  - intros start stop. by apply kv_scan_spec.
Qed.
End kv.

(** ** Documents *)

Section docs.
Context {Num : Type} `{!EqDecision Num}.
Implicit Types (j v : Json Num) (l : list (str * Json Num)) (e : DocEngine Num).

Lemma obj_get_insert (key : str) v l : obj_get key (obj_insert key v l) = Some v.
Proof.
  induction l as [|[k x] l IH]; cbn; [by rw bool_decide_eq_true_2|]. destruct (bool_decide (k = key)) eqn:Hk; cbn; [by rw Hk|].
  case_match; cbn; [by rw bool_decide_eq_true_2|by rw Hk].
Qed.

Lemma obj_get_insert_ne (key key' : str) v l : key ≠ key' → obj_get key' (obj_insert key v l) = obj_get key' l.
Proof.
  intros Hne. induction l as [|[k x] l IH]; cbn; [by rw bool_decide_eq_false_2|]. destruct (bool_decide (k = key)) eqn:Hk; cbn.
  - apply bool_decide_eq_true in Hk as ->. by rw bool_decide_eq_false_2.
  - case_match; cbn; [by rw (bool_decide_eq_false_2 (key = key'))|]. by rw IH.
Qed.

Lemma obj_get_alter (key : str) v l : is_Some (obj_get key l) → obj_get key (obj_alter key v l) = Some v.
Proof.
  induction l as [|[k x] l IH]; cbn; [by intros []|]. destruct (bool_decide (k = key)) eqn:Hk; cbn; rw Hk; [done|]. exact IH.
Qed.

(** The parts of a path that are no numbers in brackets. *)
Definition plain_part (part : str) : Prop := bracketed part = None.

Lemma step_get (part : str) j : plain_part part → path_step j part = get_key j part.
Proof. unfold plain_part, path_step. by intros ->. Qed.

Definition walk (j : option (Json Num)) (parts : list str) : option (Json Num) := foldl (λ cur part, j ← cur; path_step j part) j parts.

Lemma set_parts_walk (parts : list str) v j j' : Forall plain_part parts → set_parts j parts v = (j', true) → walk (Some j') parts = Some v.
Proof.
  intros Hp. revert j j'. induction Hp as [|part parts Hpart Hp IH]; intros j j'; [done|]. cbn [set_parts]. destruct parts as [|part2 parts].
  - destruct j as [| | | | |l]; try done. intros [= <-]. cbn. rw step_get; [done|]. apply obj_get_insert.
  - destruct j as [| | | | |l]; try done. set (l1 := match obj_get part l with None => _ | Some _ => l end).
    destruct (obj_get part l1) as [next|] eqn:Hnext; [|done]. destruct (set_parts next (part2 :: parts) v) as [next' b] eqn:Hs. intros [= <- ->].
    cbn [walk foldl mbind option_bind]. rw step_get; [done|]. cbn [get_key]. rw obj_get_alter; [by rw Hnext|]. exact (IH next next' Hs).
Qed.

(** A value that [set_path] says it has set is the one [evaluate_path] finds, where
    no part of the path has brackets. *)
Theorem set_path_found (path : str) v j j' : Forall plain_part (path_parts path) → set_path j path v = (j', true) → evaluate_path j' path = Some v.
Proof. apply set_parts_walk. Qed.

(** A value is set at every path of an object whose parts lead through objects or
    to where there is nothing yet. *)
Fixpoint open_path j (parts : list str) : bool :=
  match parts, j with
  | [], _ => false
  | [_], JObject _ => true
  | part :: parts', JObject l => match obj_get part l with Some next => open_path next parts' | None => true end
  | _, _ => false
  end.

Lemma set_parts_cons (part p2 : str) (parts : list str) v l :
  set_parts (JObject l) (part :: p2 :: parts) v =
  let l := match obj_get part l with None => obj_insert part (JObject []) l | Some _ => l end in
  match obj_get part l with
  | Some next => let '(next, b) := set_parts next (p2 :: parts) v in (JObject (obj_alter part next l), b)
  | None => (JObject l, false)
  end.
Proof. done. Qed.

Lemma open_empty (parts : list str) v : parts ≠ [] → (set_parts (JObject []) parts v).2 = true.
Proof.
  induction parts as [|part parts IH]; [done|]. intros _. destruct parts as [|p2 parts]; [done|]. rw set_parts_cons. cbn zeta. cbn [obj_get].
  rw obj_get_insert. destruct (set_parts (JObject []) (p2 :: parts) v) as [next b] eqn:Hs. cbn.
  exact (IH ltac:(done)).
Qed.

Theorem set_path_sets (path : str) v j : (set_path j path v).2 = open_path j (path_parts path).
Proof.
  unfold set_path. generalize (path_parts path). intros parts. revert j. induction parts as [|part parts IH]; intros j; [done|].
  destruct parts as [|p2 parts]; [by destruct j|]. destruct j as [| | | | |l]; try done. rw set_parts_cons. cbn zeta.
  change (open_path (JObject l) (part :: p2 :: parts)) with (match obj_get part l with Some next => open_path next (p2 :: parts) | None => true end).
  destruct (obj_get part l) as [next|] eqn:Hg.
  - rw Hg. rw -IH. by destruct (set_parts next (p2 :: parts) v).
  - rw obj_get_insert. pose proof (open_empty (p2 :: parts) v ltac:(done)) as Ho. by destruct (set_parts (JObject []) (p2 :: parts) v).
Qed.

(** Deleting by a path says how many documents had the value there; none has it
    afterwards, and the others stay in order. *)
Theorem delete_by_path_spec e (collection path : str) v : let '(e', n) := delete_by_path e collection path v in
  n = zlen (find_by_path e collection path v) ∧ find_by_path e' collection path v = [] ∧
  docs_of e' collection = filter (λ d, path_is path v (data d) = false) (docs_of e collection) ∧
  ∀ other, other ≠ collection → docs_of e' other = docs_of e other.
Proof.
  cbn. set (kept := filter _ _). assert (docs_of (set_docs e collection kept) collection = kept) as Hk.
  { unfold docs_of, set_docs in *. destruct (collections e !! collection) as [ds|] eqn:Hc; cbn; [by rw lookup_insert_eq|]. unfold kept. rw Hc. by cbn. }
  split; [|split; [|split]].
  - unfold find_by_path, doc_find, kept. unfold zlen. rw length_fmap. generalize (docs_of e collection). intros ds.
    induction ds as [|d ds IH]; [done|]. destruct (path_is path v (data d)) eqn:Hp.
    + rw (filter_cons_True (λ d, path_is path v (data d) = true)); [done|]. rw filter_cons_False; [congruence|]. cbn [length]. lia.
    + rw (filter_cons_True (λ d, path_is path v (data d) = false)); [done|]. rw filter_cons_False; [congruence|]. cbn [length]. lia.
  - unfold find_by_path, doc_find. rw Hk. unfold kept. generalize (docs_of e collection). intros ds.
    induction ds as [|d ds IH]; [done|]. destruct (path_is path v (data d)) eqn:Hp.
    + rw (filter_cons_False (λ d, path_is path v (data d) = false)); [congruence|]. exact IH.
    + rw (filter_cons_True (λ d, path_is path v (data d) = false)); [done|]. rw filter_cons_False; [congruence|]. exact IH.
  - exact Hk.
  - intros other Hne. unfold docs_of, set_docs. destruct (collections e !! collection); cbn; [|done]. rw lookup_insert_ne; [congruence|done].
Qed.
End docs.

(** ** Paths that are not found *)

(** A value set under a number in brackets is not found again, and an update with a
    path of two parts makes one entry with a point in its name. *)
Theorem bracket_not_found :
  let doc := JObject (Num := Z) [] in
  set_path doc (chars "[0]") (JBool true) = (JObject [(chars "[0]", JBool true)], true) ∧
  evaluate_path (set_path doc (chars "[0]") (JBool true)).1 (chars "[0]") = None ∧
  let e := mkDocEngine {[chars "c" := [mkDocument (chars "doc_1") (JObject [(chars "a", JNumber 1)])]]} 2 in
  let e' := (update_by_path e (chars "c") (chars "a") (JNumber 1) (chars "b.d") (JBool true)).1 in
  find_by_path e' (chars "c") (chars "b.d") (JBool true) = [] ∧ doc_find_all e' (chars "c") = [JObject [(chars "a", JNumber 1); (chars "b.d", JBool true)]].
Proof. vm_compute. split_and!; reflexivity. Qed.

End StoresSpec.
