(* ===== verification/Server.v ===== *)
(** The server ([bytedb-server/src/connection.rs], [protocol/codec.rs],
    [protocol/message.rs], [auth/credentials.rs]): frames, users and sessions, and
    what a connection does with the requests it reads.

    The query engine is behind the interface [Service]; the JSON of messages, the
    hashes of passwords and the texts of errors are parameters. A connection reads
    the frames it is given and then finds the stream closed, or is idle too long,
    which ends it in the same way. A statement that panics is not followed further.

    What the server promises: frames are read as they were written, a connection
    that has not shown a password changes nothing, and the session of a connection
    is gone when it ends; and where it does not keep the transaction of a
    connection. *)
From S2P Require Import Prelude ByteOrder BTree BTreeSpec OrderedIndex Value OrderKey SecondaryIndex Tuple Schema Civil Literals Transaction VersionStore Wal DiskManager Sql TableFiles Lexer Parser Float64 Like DbFiles Strings Eval Scan Plan Collections Stats Cost Optimizer Exec Window Join Aggregate TableAccess Subquery Query QuerySpec Dml TableFilesSpec Catalog Ddl Stores.
Import Value OrderKey Sql Like Strings Eval Collections Plan Exec TableAccess Query.

Module Server.

(** ** Frames *)

Definition MAX_FRAME_SIZE : Z := 16 * 1024 * 1024.

Definition write_frame (data : list Z) : list Z := le_bytes 4 (wrap 32 (zlen data)) ++ data.

(** The next frame and what is behind it; [None] if the stream ends or the frame is
    too large. *)
Definition read_frame (stream : list Z) : option (list Z * list Z) :=
  match TableFiles.read_le 4 stream with
  | None => None
  | Some (len, rest) => if MAX_FRAME_SIZE <? len then None else TableFiles.take_bytes len rest
  end.

(** ** Users *)

(** Argon2: a hash for a password, with the salt that was drawn, and the check. *)
Class Passwords : Type := {
  hash_password : Z → str → option str;
  verify_password : str → str → bool;
}.

Section users.
Context `{!Passwords}.

Definition Credentials : Type := gmap str str.

Definition with_admin (salt : Z) (password : str) : Credentials :=
  match hash_password salt password with Some h => {[chars "admin" := h]} | None => ∅ end.
Definition credentials_new (salt : Z) : Credentials := with_admin salt (chars "admin").
Definition authenticate (users : Credentials) (username password : str) : bool :=
  match users !! username with Some stored => verify_password password stored | None => false end.
Definition add_user (users : Credentials) (salt : Z) (username password : str) : Credentials * bool :=
  match hash_password salt password with Some h => (<[username := h]> users, true) | None => (users, false) end.
Definition remove_user (users : Credentials) (username : str) : Credentials * bool :=
  (delete username users, bool_decide (is_Some (users !! username))).

(** [generate_password]: the hexadecimal digits of eighteen random bytes. *)
Definition generate_password (bytes : list Z) : str := bytes ≫= Literals.hex_byte.
End users.

(** ** Sessions *)

Record UserSession : Type := mkUserSession { us_id : Z; us_username : str; us_txn : option Z }.
Record SessionManager : Type := mkSessions { next_id : Z; sessions : gmap Z UserSession }.

Definition sessions_new : SessionManager := mkSessions 1 ∅.
Definition create_session (m : SessionManager) (username : str) : SessionManager * Z :=
  (mkSessions (wrap 64 (next_id m + 1)) (<[next_id m := mkUserSession (next_id m) username None]> (sessions m)), next_id m).
Definition get_session (m : SessionManager) (id : Z) : option UserSession := sessions m !! id.
Definition set_txn (m : SessionManager) (id : Z) (txn : option Z) : SessionManager :=
  mkSessions (next_id m) (alter (λ s, mkUserSession (us_id s) (us_username s) txn) id (sessions m)).
Definition remove_session (m : SessionManager) (id : Z) : SessionManager := mkSessions (next_id m) (delete id (sessions m)).

(** ** Messages *)

Inductive Request : Type :=
  | Authenticate (username password : str)
  | Query (sql : str) (txn_id : option Z)
  | Ping
  | Disconnect.

Section server.
Context {J Num E T : Type} `{!EqDecision Num} `{Unicode} `{FloatText} `{!KvTree T} `{!Passwords}.

Inductive Response : Type :=
  | AuthOk (session_id : Z)
  | AuthFail (reason : str)
  | ResultSet (columns : list str) (rows : list (list (Value J)))
  | RModified (count : Z)
  | ROk (message : str)
  | RError (code : Z) (message : str)
  | Pong.

(** [serde_json] at the two types. *)
Class MessageCodec : Type := {
  request_of : list Z → option Request;
  response_bytes : Response → list Z;
}.

(** What the connections ask of the query engine. *)
Class Service : Type := {
  sv_execute : Statement → option Z → E → option (qresult (ExecutionResult J) * E);
  sv_rollback : Z → E → option E;
}.

Context `{!MessageCodec} `{!Service} (show_error : QueryError → str) (parse_json : str → option (Stores.Json Num)) (show_json : Stores.Json Num → str).

(** The shared state: the engine, the other stores, the users and the sessions. *)
Record Shared : Type := mkShared { engine : E; kv : T; docs : Stores.DocEngine Num; users : Credentials; manager : SessionManager }.

Definition set_engine (e : E) (s : Shared) : Shared := mkShared e (kv s) (docs s) (users s) (manager s).
Definition set_kv (t : T) (s : Shared) : Shared := mkShared (engine s) t (docs s) (users s) (manager s).
Definition set_docs (d : Stores.DocEngine Num) (s : Shared) : Shared := mkShared (engine s) (kv s) d (users s) (manager s).
Definition set_manager (m : SessionManager) (s : Shared) : Shared := mkShared (engine s) (kv s) (docs s) (users s) m.

(** ** A statement *)

Definition response_of (r : ExecutionResult J) : Response :=
  match r with Rows columns rows => ResultSet columns rows | Modified count => RModified count | OkText msg => ROk msg end.

Definition key_value : list str := [chars "key"; chars "value"].

(** [execute_query] behind the parser. DOC UPDATE and DOC DELETE do nothing, and DOC
    FIND returns all documents. *)
Definition execute_statement (stmt : Statement) (txn : option Z) (s : Shared) : option (qresult Response * Shared) :=
  match stmt with
  | KvGet key =>
      o ← Stores.kv_get (kv s) key;
      Some (QOk (ResultSet key_value (match o with Some v => [[text key; text v]] | None => [] end)), s)
  | KvSet key value => t ← Stores.kv_set (kv s) key value; Some (QOk (ROk (chars "OK")), set_kv t s)
  | KvDelete key => '(t, deleted) ← Stores.kv_delete (kv s) key; Some (QOk (RModified (if deleted : bool then 1 else 0)), set_kv t s)
  | KvScan start stop =>
      l ← Stores.kv_scan (kv s) start stop;
      Some (QOk (ResultSet key_value (map (λ kv, [text kv.1; text kv.2]) l)), s)
  | DocInsert collection document =>
      let '(d, id) := Stores.doc_insert parse_json (docs s) collection document in
      Some (match id with Some id => QOk (ROk (chars "Inserted: " ++ id)) | None => QErr (Execution (chars "Invalid JSON")) end, set_docs d s)
  | DocFind collection _ =>
      Some (QOk (ResultSet [chars "document"] (map (λ j, [text (show_json j)]) (Stores.doc_find_all (docs s) collection))), s)
  | DocDelete _ _ => Some (QOk (ROk (chars "DOC DELETE executed")), s)
  | DocUpdate _ _ _ => Some (QOk (ROk (chars "DOC UPDATE executed")), s)
  | _ =>
      '(r, e) ← sv_execute stmt txn (engine s);
      Some (match r with QOk a => QOk (response_of a) | QErr err => QErr err end, set_engine e s)
  end.

(** The cache of parsed statements gives what the parser gives. *)
Definition execute_query (sql : str) (txn : option Z) (s : Shared) : option (qresult Response * Shared) :=
  r ← Parser.parse_sql sql;
  match r with POk stmt => execute_statement stmt txn s | PErr e => Some (QErr (QParse e), s) end.

(** ** A connection *)

(** The session of the connection and the transaction it is in. *)
Record Connection : Type := mkConnection { session_id : option Z; active_txn : option Z }.

Definition fresh_connection : Connection := mkConnection None None.

(** The text says that a transaction ends, whatever it is. *)
Definition ends_txn (sql : str) : bool :=
  let s := map to_ascii_uppercase (Civil.trim_start sql) in
  starts_with (chars "COMMIT") s || starts_with (chars "ROLLBACK") s || starts_with (chars "END") s.

Definition words (s : str) : list str := filter (λ w, w ≠ []) (split_by Civil.is_whitespace [] s).

(** The transaction of the connection after a message of the engine. *)
Definition txn_after (message : str) (txn : option Z) : option Z :=
  if starts_with (chars "Transaction ") message && ends_with (chars " started") message then
    match words message !! 1%nat ≫= Stores.parse_usize with Some id => Some id | None => txn end
  else if bool_decide (message = chars "COMMIT") || bool_decide (message = chars "ROLLBACK") then None
  else txn.

(** One request; [None] in place of a response closes the connection. *)
Definition handle_request (req : Request) (c : Connection) (s : Shared) : option (option Response * Connection * Shared) :=
  match req with
  | Authenticate username password =>
      if authenticate (users s) username password then
        let '(m, sid) := create_session (manager s) username in
        Some (Some (AuthOk sid), mkConnection (Some sid) (active_txn c), set_manager m s)
      else Some (Some (AuthFail (chars "Invalid credentials")), c, s)
  | Query sql txn_id =>
      match session_id c with
      | None => Some (Some (RError 401 (chars "Not authenticated")), c, s)
      | Some _ =>
          let effective := match txn_id with Some t => Some t | None => active_txn c end in
          '(r, s) ← execute_query sql effective s;
          match r with
          | QOk resp =>
              let txn := match resp with ROk message => txn_after message (active_txn c) | _ => active_txn c end in
              Some (Some resp, mkConnection (session_id c) txn, s)
          | QErr e =>
              let txn := if ends_txn sql then None else active_txn c in
              Some (Some (RError 500 (chars "Query error: " ++ show_error e)), mkConnection (session_id c) txn, s)
          end
      end
  | Ping => Some (Some Pong, c, s)
  | Disconnect => Some (None, c, s)
  end.

(** The loop over the frames that arrive; the responses that are written. *)
Fixpoint connection_loop (frames : list (list Z)) (c : Connection) (s : Shared) : option (list Response * Connection * Shared) :=
  match frames with
  | [] => Some ([], c, s)
  | frame :: frames' =>
      match request_of frame with
      | None => Some ([RError 400 (chars "Invalid request")], c, s)
      | Some req =>
          '(resp, c, s) ← handle_request req c s;
          match resp with
          | None => Some ([], c, s)
          | Some resp => '(out, c, s) ← connection_loop frames' c s; Some (resp :: out, c, s)
          end
      end
  end.

(** The transaction that is left is rolled back, and the session is removed. *)
Definition close (c : Connection) (s : Shared) : option Shared :=
  s ← match active_txn c with Some t => e ← sv_rollback t (engine s); Some (set_engine e s) | None => Some s end;
  Some (match session_id c with Some sid => set_manager (remove_session (manager s) sid) s | None => s end).

Definition handle_connection (frames : list (list Z)) (s : Shared) : option (list Response * Shared) :=
  '(out, c, s) ← connection_loop frames fresh_connection s;
  s ← close c s;
  Some (out, s).
End server.
Arguments Response J : clear implicits.
Arguments MessageCodec J : clear implicits.
Arguments Service J E : clear implicits.
Arguments Shared Num E T : clear implicits.

(** ** The engine as a service *)

Section engine.
Context {J T : Type} `{!JsonShow J, !JsonRead J} `{!Codecs} `{Unicode} `{FloatText} `{!Engine J} `{!KvTree T} `{!HashOrder} `{!Unordered} `{!Libm}.
Context (now : Z) (explain : Statement → bool → Db_of (Ddl.System J T) (ExecutionResult J)) (other : Tables J T → PhysicalPlan → Q (ExecutionResult J))
  (operand : Statement → Db_of (Tables J T) (ExecutionResult J)).

(** [QueryEngine::rollback]. *)
Definition rollback (tid : Z) (st : Ddl.System J T * Session) : option (Ddl.System J T * Session) :=
  snd <$> Ddl.in_world (_ ← Dml.rollback_txn_effects tid; _ ← Dml.end_txn (Transaction.abort tid); mret ()) st.

Definition engine_service : Service J (Ddl.System J T * Session) := {|
  sv_execute stmt txn st := Ddl.execute_any now true explain other operand stmt txn st;
  sv_rollback := rollback;
|}.
End engine.
End Server.

Import Value OrderKey Sql Like Strings Eval Collections Plan Exec TableAccess Query Server.

Module ServerSpec.

(** A frame that is not too large is read back, whatever follows it. *)
Theorem frame_round_trip (data rest : list Z) : zlen data ≤ MAX_FRAME_SIZE → read_frame (write_frame data ++ rest) = Some (data, rest).
Proof.
  intros Hz. pose proof (zlen_nonneg data). unfold MAX_FRAME_SIZE in Hz. unfold read_frame, write_frame. rw -app_assoc.
  rw (TableFilesSpec.read_le_app 4); [unfold wrap; rw Z.mod_small; lia|]. unfold wrap. rw Z.mod_small; [lia|].
  unfold MAX_FRAME_SIZE. destruct (Z.ltb_spec (16 * 1024 * 1024) (zlen data)); [lia|]. apply TableFilesSpec.take_bytes_app.
Qed.

Section spec.
Context {J Num E T : Type} `{!EqDecision Num} `{Unicode} `{FloatText} `{!KvTree T} `{!Passwords} `{!MessageCodec J} `{!Service J E}.
Context (show_error : QueryError → str) (parse_json : str → option (Stores.Json Num)) (show_json : Stores.Json Num → str).
Local Abbreviation shared := (Shared Num E T).
Local Abbreviation loop := (connection_loop (J := J) show_error parse_json show_json).
Local Abbreviation handle := (handle_request (J := J) show_error parse_json show_json).
Local Abbreviation connect := (handle_connection (J := J) show_error parse_json show_json).

(** ** Connections without a password *)

(** The frame is a request that logs a user in. *)
Definition logs_in (users : Credentials) (frame : list Z) : bool :=
  match request_of (J := J) frame with Some (Authenticate u p) => authenticate users u p | _ => false end.

(** A response that tells nothing. *)
Definition refusal (r : Response J) : Prop :=
  match r with AuthFail _ | Pong => True | RError code _ => code = 400 ∨ code = 401 | _ => False end.

Lemma stranger_loop frames (s : shared) : Forall (λ f, logs_in (users s) f = false) frames →
  ∃ out, loop frames fresh_connection s = Some (out, fresh_connection, s) ∧ Forall refusal out.
Proof.
  induction 1 as [|frame frames Hf _ (out & Hout & Href)]; cbn [connection_loop]; [by exists []|].
  unfold logs_in in Hf. destruct (request_of frame) as [req|] eqn:Hreq; [|eexists; split; [done|]; by repeat constructor].
  destruct req as [u p|sql txn| |]; cbn [handle_request fresh_connection session_id].
  - rw Hf. cbn [mbind option_bind]. rw Hout. eexists. split; [done|]. by constructor.
  - cbn [mbind option_bind]. rw Hout. eexists. split; [done|]. constructor; [by right|done].
  - cbn [mbind option_bind]. rw Hout. eexists. split; [done|]. by constructor.
  - cbn [mbind option_bind]. by exists [].
Qed.

(** C10: A connection that never sends the password of a user changes nothing: whatever
    it sends, the engine, the stores, the users and the sessions are the same when it
    ends, and all it is told is that it is refused. *)
Theorem stranger_changes_nothing frames (s : shared) : Forall (λ f, logs_in (users s) f = false) frames →
  ∃ out, connect frames s = Some (out, s) ∧ Forall refusal out.
Proof.
  intros Hf. destruct (stranger_loop frames s Hf) as (out & Hout & Href). exists out. split; [|done].
  unfold handle_connection. rw Hout. done.
Qed.

(** ** Sessions *)

Lemma query_keeps_users sql txn (s : shared) r s' :
  execute_query (J := J) parse_json show_json sql txn s = Some (r, s') → users s' = users s ∧ manager s' = manager s.
Proof.
  unfold execute_query. destruct (Parser.parse_sql sql) as [[stmt|e]|]; [|by intros [= <- <-]|done]. cbn [mbind option_bind].
  destruct stmt; cbn [execute_statement]; try (by intros [= <- <-]);
    try (destruct (sv_execute _ _ _) as [[r1 e1]|]; [|done]; by intros [= <- <-]).
  - destruct (Stores.kv_get _ _); [|done]. by intros [= <- <-].
  - destruct (Stores.kv_set _ _ _); [|done]. by intros [= <- <-].
  - destruct (Stores.kv_delete _ _) as [[? ?]|]; [|done]. by intros [= <- <-].
  - destruct (Stores.kv_scan _ _ _); [|done]. by intros [= <- <-].
  - destruct (Stores.doc_insert _ _ _ _) as [d o]. by intros [= <- <-].
Qed.

(** Only logging in changes the sessions. *)
Lemma handle_keeps req c (s : shared) resp c' s' : handle req c s = Some (resp, c', s') →
  match req with Authenticate u p => authenticate (users s) u p = false | _ => True end →
  users s' = users s ∧ manager s' = manager s ∧ session_id c' = session_id c.
Proof.
  destruct req as [u p|sql txn| |]; cbn [handle_request]; [|..].
  - intros Hh Hf. rw Hf in Hh. by injection Hh as <- <- <-.
  - destruct (session_id c) as [sid|] eqn:Hc; [|intros [= <- <- <-]; done]. destruct (execute_query _ _ _ _ _) as [[r s1]|] eqn:Hq; [|done].
    apply query_keeps_users in Hq as [Hu Hm]. cbn. destruct r; intros [= <- <- <-]; done.
  - by intros [= <- <- <-].
  - by intros [= <- <- <-].
Qed.

(** The frames that log in, at most one of them. *)
Definition logins (users : Credentials) (frames : list (list Z)) : list (list Z) := filter (λ f, logs_in users f = true) frames.

Lemma loop_quiet frames c (s : shared) out c' s' :
  logins (users s) frames = [] → loop frames c s = Some (out, c', s') → manager s' = manager s ∧ session_id c' = session_id c ∧ users s' = users s.
Proof.
  revert c s out c' s'. induction frames as [|frame frames IH]; intros c s out c' s' Hno; cbn [connection_loop]; [by intros [= <- <- <-]|].
  unfold logins in Hno. destruct (logs_in (users s) frame) eqn:Hl; [by rw filter_cons_True in Hno|]. rw filter_cons_False in Hno; [congruence|].
  unfold logs_in in Hl. destruct (request_of frame) as [req|] eqn:Hreq; [|by intros [= <- <- <-]].
  destruct (handle req c s) as [[[resp c1] s1]|] eqn:Hh; [|done]. cbn [mbind option_bind].
  assert (users s1 = users s ∧ manager s1 = manager s ∧ session_id c1 = session_id c) as (Hu & Hm & Hs).
  { apply (handle_keeps _ _ _ _ _ _ Hh). by destruct req. }
  destruct resp as [resp|]; [|by intros [= <- <- <-]]. destruct (loop frames c1 s1) as [[[out1 c2] s2]|] eqn:Hloop; [|done]. cbn [mbind option_bind].
  intros [= <- <- <-]. destruct (IH c1 s1 out1 c2 s2) as (Hm' & Hs' & Hu'); [unfold logins; by rw Hu|done|]. split_and!; congruence.
Qed.

(** What a connection has done to the sessions: nothing, or it has opened one. *)
Definition opened (m m' : SessionManager) (c : Connection) : Prop :=
  match session_id c with
  | None => sessions m' = sessions m
  | Some sid => sid = next_id m ∧ ∃ u, sessions m' = <[sid := u]> (sessions m)
  end.

Lemma loop_opens frames c (s : shared) out c' s' : (length (logins (users s) frames) ≤ 1)%nat → session_id c = None →
  loop frames c s = Some (out, c', s') → opened (manager s) (manager s') c'.
Proof.
  revert c s out c' s'. induction frames as [|frame frames IH]; intros c s out c' s' Hone Hc; cbn [connection_loop]; [intros [= <- <- <-]; unfold opened; by rw Hc|].
  destruct (logs_in (users s) frame) eqn:Hl.
  - unfold logins in Hone. rw filter_cons_True in Hone; [done|]. cbn [length] in Hone. unfold logs_in in Hl.
    destruct (request_of frame) as [[u p| | |]|] eqn:Hreq; try done. cbn [handle_request]. rw Hl. cbn [create_session mbind option_bind].
    destruct (loop frames _ _) as [[[out1 c2] s2]|] eqn:Hloop; [|done]. cbn [mbind option_bind]. intros [= <- <- <-].
    apply loop_quiet in Hloop as (Hm & Hs & _); [|apply nil_length_inv; unfold logins; cbn [users set_manager]; lia].
    unfold opened. rw Hs. cbn [session_id]. split; [done|]. eexists. by rw Hm.
  - unfold logins in Hone. rw filter_cons_False in Hone; [congruence|]. unfold logs_in in Hl.
    destruct (request_of frame) as [req|] eqn:Hreq; [|intros [= <- <- <-]; unfold opened; by rw Hc].
    destruct (handle req c s) as [[[resp c1] s1]|] eqn:Hh; [|done]. cbn [mbind option_bind].
    assert (users s1 = users s ∧ manager s1 = manager s ∧ session_id c1 = session_id c) as (Hu & Hm & Hs).
    { apply (handle_keeps _ _ _ _ _ _ Hh). by destruct req. }
    destruct resp as [resp|]; [|intros [= <- <- <-]; unfold opened; by rw Hs Hc Hm].
    destruct (loop frames c1 s1) as [[[out1 c2] s2]|] eqn:Hloop; [|done]. cbn [mbind option_bind]. intros [= <- <- <-].
    rw -Hm. apply (IH c1 s1 out1); [unfold logins; by rw Hu|congruence|done].
Qed.

Lemma close_sessions c (s s' : shared) : close c s = Some s' →
  manager s' = match session_id c with Some sid => remove_session (manager s) sid | None => manager s end.
Proof.
  unfold close. destruct (active_txn c) as [t|]; [destruct (sv_rollback t (engine s)) as [e|]; [|done]|];
    cbn [mbind option_bind]; intros [= <-]; by destruct (session_id c).
Qed.

(** A connection that logs in at most once leaves no session behind. *)
Theorem sessions_closed frames (s : shared) out s' : (length (logins (users s) frames) ≤ 1)%nat →
  sessions (manager s) !! next_id (manager s) = None → connect frames s = Some (out, s') → sessions (manager s') = sessions (manager s).
Proof.
  intros Hone Hnew. unfold handle_connection. destruct (loop frames fresh_connection s) as [[[out1 c1] s1]|] eqn:Hloop; [|done].
  cbn [mbind option_bind]. destruct (close c1 s1) as [s2|] eqn:Hclose; [|done]. cbn [mbind option_bind]. intros [= <- <-].
  apply close_sessions in Hclose. apply loop_opens in Hloop; [|done|done]. unfold opened in Hloop. rw Hclose.
  destruct (session_id c1) as [sid|]; [|done]. destruct Hloop as (-> & u & Hs). cbn. rw Hs. by apply delete_insert_id.
Qed.
End spec.

(** ** On concrete connections *)

#[local] Existing Instance Tuple.sample_codecs.
#[local] Existing Instance Tuple.sample_show.
#[local] Existing Instance Tuple.sample_read.
#[local] Existing Instance Lexer.ascii_only.
#[local] Existing Instance Lexer.no_floats.
#[local] Existing Instance Scan.sample_engine.
#[local] Existing Instance Collections.plain.
#[local] Existing Instance QuerySpec.no_libm.
Local Abbreviation Tree := BTree.BTree.BPlusTree.

(** Passwords that are their own hash. *)
#[local] Instance open_passwords : Passwords := { hash_password _ p := Some p; verify_password p h := bool_decide (p = h) }.

Definition system : Type := Ddl.System unit Tree * Session.
#[local] Instance plain_engine : Service unit system := engine_service 0 (λ _ _ _, None) (λ _ _, q_fail (QPlan [])) (λ _ _, None).

(** The frames of a connection are the places in a list of requests. *)
Definition script (reqs : list Request) : MessageCodec unit := {|
  request_of f := match f with [n] => reqs !! Z.to_nat n | _ => None end;
  response_bytes _ := [];
|}.
Definition frames_of (reqs : list Request) : list (list Z) := map (λ n, [Z.of_nat n]) (seq 0 (length reqs)).

Definition server : Type := Shared Z system Tree.
Definition start : server :=
  mkShared (Ddl.mkSystem (Dml.mkWorld ∅ ∅ ∅ ∅ [] None) (Catalog.database_new (chars "main")) ∅ {[chars "main"]} (chars "main") ∅, mkSession Transaction.new false)
    Stores.kv_new Stores.doc_new (credentials_new 0) sessions_new.
Definition serve (reqs : list Request) (s : server) : option (list (Response unit) * server) :=
  let codec := script reqs in
  handle_connection (J := unit) (λ _, chars "?") (λ _, Some (Stores.JNumber 7)) (λ _, chars "7") (frames_of reqs) s.
(** One connection after another. *)
Fixpoint serves (l : list (list Request)) (s : server) : option (list (list (Response unit)) * server) :=
  match l with
  | [] => Some ([], s)
  | reqs :: l' => '(out, s) ← serve reqs s; '(outs, s) ← serves l' s; Some (out :: outs, s)
  end.

Definition login : Request := Authenticate (chars "admin") (chars "admin").
Definition ask (text : string) : Request := Query (chars text) None.
Definition active (s : server) : list Z := (map_to_list (Transaction.active_txns (txns (engine s).2))).*1.
Definition said (text : string) : Response unit := ROk (chars text).

Lemma stranger_changes_nothing_witness : ∃ out, serve [Authenticate (chars "admin") (chars "guess"); ask "DROP TABLE t"; Ping] start = Some (out, start) ∧ Forall refusal out.
Proof.
  apply (stranger_changes_nothing (MessageCodec0 := script [Authenticate (chars "admin") (chars "guess"); ask "DROP TABLE t"; Ping])
    (λ _, chars "?") (λ _, Some (Stores.JNumber 7)) (λ _, chars "7") (frames_of [Authenticate (chars "admin") (chars "guess"); ask "DROP TABLE t"; Ping]) start).
  repeat constructor.
Defined.

Definition begun (id : Z) : Response unit := ROk (chars "Transaction " ++ show_int id ++ chars " started").
Definition failed : Response unit := RError 500 (chars "Query error: ?").
Definition ids (l : list Z) : Response unit := ResultSet [chars "id"] (map (λ n, [Int64 n]) l).
Definition create_insert : list Request := [login; ask "CREATE TABLE t (id INT PRIMARY KEY)"; ask "BEGIN"; ask "INSERT INTO t VALUES (1)"].

(** A connection that ends in a transaction rolls it back. *)
Theorem dropped_connection_rolls_back :
  (λ x, (x.1, active x.2)) <$> serves [create_insert; [login; ask "SELECT id FROM t"]] start =
    Some ([[AuthOk 1; said "Table t created"; begun 1; RModified 1]; [AuthOk 2; ids []]], []).
Proof. by vm_compute. Qed.

(** A statement that fails and only begins like COMMIT makes the connection forget
    its transaction, which stays active with what it has written. *)
Theorem mistyped_commit_leaks_transaction :
  (λ x, (x.1, active x.2)) <$> serves [create_insert ++ [ask "COMMITT"]; [login; ask "SELECT id FROM t"]] start =
    Some ([[AuthOk 1; said "Table t created"; begun 1; RModified 1; failed]; [AuthOk 2; ids [1]]], [1]).
Proof. by vm_compute. Qed.

(** A second BEGIN makes the connection forget the first transaction. *)
Theorem second_begin_leaks_transaction :
  (λ x, (x.1, active x.2)) <$> serves [[login; ask "BEGIN"; ask "BEGIN"]] start = Some ([[AuthOk 1; begun 1; begun 2]], [1]).
Proof. by vm_compute. Qed.

(** Logging in twice leaves a session behind. *)
Theorem second_login_leaks_session :
  (λ x, (x.1, (map_to_list (sessions (manager x.2))).*1)) <$> serves [[login; login]] start = Some ([[AuthOk 1; AuthOk 2]], [1]).
Proof. by vm_compute. Qed.

(** DOC DELETE is confirmed and deletes nothing, and DOC FIND does not look at its
    condition. *)
Theorem doc_delete_does_nothing :
  (λ x, (x.1, Stores.doc_count (docs x.2) (chars "c"))) <$>
    serves [[login; ask "DOC INSERT INTO c {}"; ask "DOC DELETE FROM c"; ask "DOC FIND IN c WHERE x = 3"]] start =
  Some ([[AuthOk 1; said "Inserted: doc_1"; said "DOC DELETE executed"; ResultSet [chars "document"] [[text (chars "7")]]]], 1).
Proof. by vm_compute. Qed.
End ServerSpec.
