(* ===== verification/Snapshots.v ===== *)
(** Snapshots of the tables ([bytedb-core/src/snapshot/format.rs], [binary.rs],
    [json.rs], [manager.rs]), and how the server writes them and starts from the files
    it finds ([bytedb-server/src/server.rs]).

    The directory of the snapshots maps file names to contents, and is listed in an
    order that is a parameter. The JSON of schemas and of whole snapshots, and the
    clock, are parameters; a device does not fail, and a rename is atomic.

    What snapshots promise: a snapshot is read back from its file as it was written,
    and an engine without tables that starts from it has the rows of the engine that
    wrote it; and which tables a server finds at its start that it should not. *)
From S2P Require Import Prelude ByteOrder BTree BTreeSpec OrderedIndex Value OrderKey SecondaryIndex Tuple Schema Civil Literals Transaction VersionStore Wal DiskManager Sql TableFiles Lexer Parser SqlPrint SqlRoundTrip Float64 Like DbFiles Strings Eval Scan Plan Collections Stats Cost Optimizer Exec Window Join Aggregate TableAccess TableSpec Subquery Query QuerySpec Dml RollbackSpec Journal TableFilesSpec DbFilesSpec Catalog Ddl Persist PersistSpec PersistFindings Stores.
Import Value OrderKey DiskManager Sql Like Strings Eval Collections Plan Exec TableAccess Query Dml Ddl Persist.
Import DbFiles (CatalogCodec, DiskStore).

Module Snapshots.

(** ** Format *)

Definition SNAPSHOT_MAGIC : list Z := chars "BSDB".
Definition SNAPSHOT_VERSION : Z := 2.

Inductive SnapshotFormat : Type := Binary | Json.

Record SnapshotHeader : Type := mkHeader { version : Z; lsn : Z; timestamp : Z; table_count : Z }.

Section format.
Context {J : Type}.

Record TableSnapshot : Type := mkTableSnapshot {
  ts_name : str;
  ts_table_id : Z;
  ts_schema : Schema.Schema (J := J);
  ts_entries : list (list Z * list Z);
  ts_sequences : list (str * Z);
}.

Record FullSnapshot : Type := mkSnapshot { header : SnapshotHeader; snapshot_tables : list TableSnapshot }.
End format.
Arguments TableSnapshot J : clear implicits.
Arguments FullSnapshot J : clear implicits.

(** [serde_json] at [Schema] and at [FullSnapshot]. *)
Class SnapshotCodec (J : Type) := {
  schema_to_json : Schema.Schema (J := J) → list Z;
  schema_from_json : list Z → option (Schema.Schema (J := J));
  snapshot_to_json : FullSnapshot J → list Z;
  snapshot_from_json : list Z → option (FullSnapshot J);
}.

(** ** Readers *)

(** A reader takes bytes off a file; an error ends it, and so does a panic. *)
Definition Reader (A : Type) : Type := list Z → option (result (A * list Z)).

#[global] Instance Reader_ret : MRet Reader := λ A a rest, Some (Ok (a, rest)).
#[global] Instance Reader_bind : MBind Reader := λ A B f m rest,
  match m rest with
  | Some (Ok (a, rest)) => f a rest
  | Some (Err e) => Some (Err e)
  | None => None
  end.

Definition r_fail {A} (e : CoreError) : Reader A := λ _, Some (Err e).
Definition r_panic {A} : Reader A := λ _, None.
Definition read_with {A} (f : list Z → option (A * list Z)) : Reader A := λ rest,
  Some (match f rest with Some x => Ok x | None => Err (Internal "failed to fill whole buffer") end).

Definition r_bytes (n : Z) : Reader (list Z) := read_with (TableFiles.take_bytes n).
Definition r_u32 : Reader Z := read_with (TableFiles.read_le 4).
Definition r_u64 : Reader Z := read_with (TableFiles.read_le 8).
Definition r_i64 : Reader Z := n ← r_u64; mret (DbFiles.i64_of n).
Definition r_prefixed : Reader (list Z) := n ← r_u32; r_bytes n.
Definition r_string : Reader str :=
  bs ← r_prefixed; if Tuple.Tuple.utf8_valid bs then mret (utf8_chars bs) else r_fail (Internal "invalid utf-8").

Fixpoint r_times {A} (n : nat) (m : Reader A) : Reader (list A) :=
  match n with O => mret [] | S n' => a ← m; l ← r_times n' m; mret (a :: l) end.

(** ** The binary format *)

Section binary.
Context {J : Type} `{!SnapshotCodec J} `{!Crc32}.

Definition sequence_bytes (s : str * Z) : list Z := TableFiles.prefixed (utf8_bytes s.1) ++ le_bytes 8 (wrap 64 s.2).

Definition table_bytes (t : TableSnapshot J) : list Z :=
  TableFiles.prefixed (utf8_bytes (ts_name t)) ++
  le_bytes 4 (ts_table_id t) ++
  TableFiles.prefixed (schema_to_json (ts_schema t)) ++
  le_bytes 8 (wrap 64 (zlen (ts_entries t))) ++ (ts_entries t ≫= TableFiles.entry_bytes) ++
  le_bytes 4 (wrap 32 (zlen (ts_sequences t))) ++ (ts_sequences t ≫= sequence_bytes).

(** The checksum at the end is that of no bytes. *)
Definition serialize_snapshot (s : FullSnapshot J) : list Z :=
  SNAPSHOT_MAGIC ++ le_bytes 4 SNAPSHOT_VERSION ++
  le_bytes 8 (lsn (header s)) ++ le_bytes 8 (wrap 64 (timestamp (header s))) ++ le_bytes 4 (table_count (header s)) ++
  (snapshot_tables s ≫= table_bytes) ++
  le_bytes 4 (crc32 []).

Definition read_entry : Reader (list Z * list Z) := k ← r_prefixed; v ← r_prefixed; mret (k, v).
Definition read_sequence : Reader (str * Z) := c ← r_string; v ← r_i64; mret (c, v).

(** [Vec::with_capacity] panics on a number of entries whose size is no [isize]. *)
Definition read_table (version : Z) : Reader (TableSnapshot J) :=
  name ← r_string;
  table_id ← r_u32;
  schema_bytes ← r_prefixed;
  schema ← (match schema_from_json schema_bytes with Some s => mret s | None => r_fail (Internal "invalid JSON") end : Reader _);
  entry_count ← r_u64;
  entries ← (if 48 * entry_count <? 2 ^ 63 then r_times (Z.to_nat entry_count) read_entry else r_panic);
  sequences ← (if 2 <=? version then n ← r_u32; r_times (Z.to_nat n) read_sequence else mret []);
  mret (mkTableSnapshot name table_id schema entries sequences).

(** What is behind the last table is not read. *)
Definition read_snapshot : Reader (FullSnapshot J) :=
  magic ← r_bytes 4;
  if negb (bool_decide (magic = SNAPSHOT_MAGIC)) then r_fail (Internal "Invalid snapshot magic") else
  version ← r_u32;
  if SNAPSHOT_VERSION <? version then r_fail (Internal "Unsupported snapshot version") else
  lsn ← r_u64;
  timestamp ← r_i64;
  table_count ← r_u32;
  tables ← r_times (Z.to_nat table_count) (read_table version);
  mret (mkSnapshot (mkHeader version lsn timestamp table_count) tables).

Definition deserialize_snapshot (file : list Z) : option (result (FullSnapshot J)) :=
  r ← read_snapshot file; Some (match r with Ok (s, _) => Ok s | Err e => Err e end).
End binary.

(** ** File names *)

(** [{:016x}]. *)
Fixpoint hex_fixed (n : nat) (z : Z) : str := match n with O => [] | S n' => hex_fixed n' (z / 16) ++ [Literals.hex_digit (z mod 16)] end.

Definition stem_of (h : SnapshotHeader) : str := chars "snapshot_" ++ hex_fixed 16 (lsn h) ++ [95] ++ show_int (timestamp h).
Definition file_of (h : SnapshotHeader) (ext : str) : str := stem_of h ++ [46] ++ ext.

(** [Path::file_stem] and [Path::extension]: the last dot divides, if it is not the
    first character. *)
Fixpoint until_dot (acc r : str) : option (str * str) :=
  match r with [] => None | c :: r' => if c =? 46 then Some (reverse r', acc) else until_dot (c :: acc) r' end.
Definition split_extension (name : str) : str * option str :=
  match until_dot [] (reverse name) with Some (c :: stem, ext) => (c :: stem, Some ext) | _ => (name, None) end.

(** [u64::from_str_radix(_, 16)]. *)
Fixpoint hex_val (acc : Z) (s : str) : option Z :=
  match s with [] => Some acc | c :: s' => d ← Literals.hex_nibble c; hex_val (16 * acc + d) s' end.
Definition parse_hex (s : str) : option Z :=
  let digits := match s with 43 :: r => r | _ => s end in
  match digits with [] => None | _ => v ← hex_val 0 digits; if v <? 2 ^ 64 then Some v else None end.

(** The number in the name of a snapshot with the extension. *)
Definition lsn_of_name (ext name : str) : option Z :=
  match split_extension name with
  | (stem, Some e) =>
      if bool_decide (e = ext) && starts_with (chars "snapshot_") stem then split_by (λ c, c =? 95) [] stem !! 1%nat ≫= parse_hex else None
  | _ => None
  end.

(** ** The manager *)

Section manager.
Context {J : Type} `{!SnapshotCodec J} `{!Crc32} `{!HashOrder}.

Record SnapshotManager : Type := mkManager {
  data_dir : gmap str (list Z);
  write_count : Z;
  write_threshold : Z;
  interval : Z;
  last_snapshot_lsn : Z;
  format : SnapshotFormat;
}.

Definition manager_new (dir : gmap str (list Z)) (write_threshold interval_secs : Z) (format : SnapshotFormat) : SnapshotManager :=
  mkManager dir 0 write_threshold interval_secs 0 format.

(** The counter wraps around; the addition behind it panics there. *)
Definition record_write (m : SnapshotManager) : option (SnapshotManager * bool) :=
  if write_count m + 1 <? 2 ^ 64 then
    Some (mkManager (data_dir m) (write_count m + 1) (write_threshold m) (interval m) (last_snapshot_lsn m) (format m),
          write_threshold m <=? write_count m + 1)
  else None.
Definition reset_write_count (m : SnapshotManager) : SnapshotManager :=
  mkManager (data_dir m) 0 (write_threshold m) (interval m) (last_snapshot_lsn m) (format m).
Definition set_last_lsn (n : Z) (m : SnapshotManager) : SnapshotManager :=
  mkManager (data_dir m) (write_count m) (write_threshold m) (interval m) n (format m).
Definition last_lsn (m : SnapshotManager) : Z := last_snapshot_lsn m.

(** The file is written under another name, which is then given to it. *)
Definition save_as (ext : str) (bytes : list Z) (h : SnapshotHeader) (m : SnapshotManager) : SnapshotManager * str :=
  let path := file_of h ext in
  let dir := <[path := bytes]> (delete (file_of h (chars "tmp")) (data_dir m)) in
  (reset_write_count (set_last_lsn (lsn h) (mkManager dir (write_count m) (write_threshold m) (interval m) (last_snapshot_lsn m) (format m))), path).
Definition save_binary (m : SnapshotManager) (s : FullSnapshot J) : SnapshotManager * str := save_as (chars "bin") (serialize_snapshot s) (header s) m.
Definition save_json (m : SnapshotManager) (s : FullSnapshot J) : SnapshotManager * str := save_as (chars "json") (snapshot_to_json s) (header s) m.
Definition save (m : SnapshotManager) (s : FullSnapshot J) : SnapshotManager * str :=
  match format m with Binary => save_binary m s | Json => save_json m s end.

(** Of the files with the greatest number the first one that is listed. *)
Definition later (ext : str) (latest : option (Z * (str * list Z))) (file : str * list Z) : option (Z * (str * list Z)) :=
  match lsn_of_name ext file.1 with
  | None => latest
  | Some n =>
      match latest with
      | Some (current, _) => if n <=? current then latest else Some (n, file)
      | None => Some (n, file)
      end
  end.
Definition find_latest_file (m : SnapshotManager) (ext : str) : option (Z * (str * list Z)) := foldl (later ext) None (hash_iter (data_dir m)).

Definition json_snapshot (bytes : list Z) : option (result (FullSnapshot J)) :=
  Some (match snapshot_from_json bytes with Some s => Ok s | None => Err (Internal "invalid JSON") end).

Definition load_latest (m : SnapshotManager) : option (SnapshotManager * result (option (FullSnapshot J))) :=
  let chosen :=
    match find_latest_file m (chars "bin"), find_latest_file m (chars "json") with
    | Some (b, fb), Some (j, fj) => if j <=? b then Some (deserialize_snapshot fb.2) else Some (json_snapshot fj.2)
    | Some (_, fb), None => Some (deserialize_snapshot fb.2)
    | None, Some (_, fj) => Some (json_snapshot fj.2)
    | None, None => None
    end in
  match chosen with
  | None => Some (m, Ok None)
  | Some read =>
      r ← read;
      Some (match r with Ok s => (set_last_lsn (lsn (header s)) m, Ok (Some s)) | Err e => (m, Err e) end)
  end.

Definition create_snapshot_header (now lsn table_count : Z) : SnapshotHeader := mkHeader SNAPSHOT_VERSION lsn now table_count.
End manager.

(** ** The server *)

Section server.
Context {J T : Type} `{!JsonShow J, !JsonRead J} `{!Codecs} `{Unicode} `{FloatText} `{!Engine J} `{!KvTree T} `{!HashOrder} `{!Unordered} `{!Libm}.
Context `{!CatalogCodec J} `{!SnapshotCodec J} `{!Crc32} `{!Wal.LogCodec}.

(** A table as it is written: the number of its columns is its identifier. *)
Definition table_snapshot (w : World J T) (table : str * TableData J T) : option (TableSnapshot J) :=
  entries ← kt_scan_all (index table.2);
  Some (mkTableSnapshot table.1 (wrap 32 (zlen (Schema.columns (schema table.2)))) (schema table.2) entries (table_sequences table.1 w)).

Definition snapshot_of (now : Z) (w : World J T) : option (FullSnapshot J) :=
  l ← mapM (table_snapshot w) (hash_iter (tables w));
  Some (mkSnapshot (create_snapshot_header now 0 (wrap 32 (zlen l))) l).

Definition create_snapshot (now : Z) (w : World J T) (m : SnapshotManager) : option SnapshotManager :=
  s ← snapshot_of now w; Some (save m s).1.

(** A table that is in memory is left as it is; the others come without indexes. *)
Definition restore_table (y : System J T) (t : TableSnapshot J) : option (System J T) :=
  let w := world_of y in
  match tables w !! ts_name t with
  | Some _ => Some y
  | None =>
      index ← insert_entries (pk_tree (ts_name t)) (ts_entries t);
      let tcat := DbFiles.mkTableCatalog (ts_name t) (ts_table_id t) (ts_schema t) (ts_sequences t) [] in
      let checks := SqlRoundTrip.reload_checks (name_of <$> Schema.check_constraints (ts_schema t)) in
      let td := mkTable (ts_schema t) index VersionStore.new checks [] in
      let w := set_sequences (loaded_sequences tcat (sequences w)) (set_tables (<[ts_name t := td]> (tables w)) w) in
      let d := (Catalog.create_table (database y) (Catalog.meta_new (ts_name t) (ts_schema t) (ts_table_id t))).1 in
      Some (mkSystem w d (Ddl.stats y) (databases y) (current_db y) (db_tables y))
  end.

Fixpoint restore_from_snapshot (y : System J T) (l : list (TableSnapshot J)) : option (System J T) :=
  match l with [] => Some y | t :: l' => y ← restore_table y t; restore_from_snapshot y l' end.

(** The point to recover to, from the text of its file. *)
Definition pitr_target (marker : option str) : option Z := text ← marker; Stores.parse_usize (Civil.trim text).

(** The engine of a server, and its store if it could be opened. *)
Record Started : Type := mkStarted { started_system : System J T; started_store : option (DiskStore J); started_session : Session }.

Definition bytedb : str := chars "bytedb".
Definition new_system : System J T := mkSystem (mkWorld ∅ ∅ ∅ ∅ [] None) (Catalog.database_new bytedb) ∅ {[bytedb]} bytedb ∅.

Definition open_engine (root : DbFiles.Root) : option (DbFiles.Root * Started) :=
  let s := mkSession Transaction.new false in
  match DbFiles.store_open root bytedb with
  | (root, Ok ds) =>
      '(_, (p, s)) ← attach_disk_store new_system ds (mkStored new_system ds ∅, s);
      Some (DbFiles.root (store p), mkStarted (system_of p) (Some (store p)) s)
  | (root, Err _) => Some (root, mkStarted new_system None s)
  end.

Definition with_tables (ts : Tables J T) (y : System J T) : System J T :=
  mkSystem (set_tables ts (world_of y)) (database y) (Ddl.stats y) (databases y) (current_db y) (db_tables y).

(** [Server::new]: the log is opened, the tables are read from the files, the log is
    replayed on top of them, and tables that are only in the latest snapshot are
    added. A log that cannot be opened is a panic; a log or a snapshot that cannot be
    read is passed over. *)
Definition start (root : DbFiles.Root) (wal_file : list Z) (marker : option str) (m : SnapshotManager)
    : option (DbFiles.Root * Wal.LogManager * SnapshotManager * Started) :=
  opened ← Wal.new wal_file;
  lm ← (match opened with Ok lm => Some lm | Err _ => None end : option Wal.LogManager);
  '(root, st) ← open_engine root;
  '(lm, recovery) ← (match pitr_target marker with Some n => Wal.recover_to_lsn lm n | None => Wal.recover lm end);
  let y := started_system st in
  y ← (match recovery with
       | Ok r => ts ← replay_wal_recovery (tables (world_of y)) (Wal.redo_records r); Some (with_tables ts y)
       | Err _ => Some y
       end);
  '(m, latest) ← load_latest m;
  y ← (match latest with Ok (Some s) => restore_from_snapshot y (snapshot_tables s) | _ => Some y end);
  Some (root, lm, m, mkStarted y (started_store st) (started_session st)).
End server.
Arguments Started J T : clear implicits.
End Snapshots.

Import Value OrderKey DiskManager Sql Like Strings Eval Collections Plan Exec TableAccess Query Dml Ddl Persist PersistSpec Snapshots.
Import DbFiles (CatalogCodec, DiskStore).

Module SnapshotsSpec.

(** ** Readers *)

(** The reader takes these bytes, and gives this. *)
Definition reads {A} (m : Reader A) (bs : list Z) (a : A) : Prop := ∀ rest, m (bs ++ rest) = Some (Ok (a, rest)).

Lemma reads_ret {A} (a : A) : reads (mret a) [] a.
Proof. by intros rest. Qed.

Lemma reads_bind {A B} (m : Reader A) (f : A → Reader B) bs bs' a b : reads m bs a → reads (f a) bs' b → reads (m ≫= f) (bs ++ bs') b.
Proof. intros Hm Hf rest. unfold mbind, Reader_bind. rw -app_assoc Hm. apply Hf. Qed.

(** The last step of a reader. *)
Lemma reads_map {A B} (m : Reader A) (f : A → B) bs a : reads m bs a → reads (x ← m; mret (f x)) bs (f a).
Proof. intros Hm. rw -(app_nil_r bs). apply (reads_bind _ (λ x, mret (f x)) _ _ a); [done|apply reads_ret]. Qed.

Lemma reads_times {A} (m : Reader A) (enc : A → list Z) (l : list A) : Forall (λ x, reads m (enc x) x) l → reads (r_times (length l) m) (l ≫= enc) l.
Proof.
  induction 1 as [|x l Hx Hl IH]; [apply reads_ret|]. cbn [length r_times]. change ((x :: l) ≫= enc) with (enc x ++ (l ≫= enc)).
  apply (reads_bind _ _ _ _ x); [done|]. by apply (reads_map _ (cons x)).
Qed.

Lemma reads_bytes bs : reads (r_bytes (zlen bs)) bs bs.
Proof. intros rest. unfold r_bytes, read_with. by rw TableFilesSpec.take_bytes_app. Qed.
Lemma reads_u32 n : 0 ≤ n < 2 ^ 32 → reads r_u32 (le_bytes 4 n) n.
Proof. intros Hn rest. unfold r_u32, read_with. by rw (TableFilesSpec.read_le_app 4). Qed.
Lemma reads_u64 n : 0 ≤ n < 2 ^ 64 → reads r_u64 (le_bytes 8 n) n.
Proof. intros Hn rest. unfold r_u64, read_with. by rw (TableFilesSpec.read_le_app 8). Qed.

Lemma i64_back n : - 2 ^ 63 ≤ n < 2 ^ 63 → DbFiles.i64_of (wrap 64 n) = n.
Proof. intros. unfold DbFiles.i64_of, wrap. rw Zplus_mod_idemp_l. rw Z.mod_small; lia. Qed.

Lemma reads_i64 n : - 2 ^ 63 ≤ n < 2 ^ 63 → reads r_i64 (le_bytes 8 (wrap 64 n)) n.
Proof.
  intros Hn. unfold r_i64. rw -{2}(i64_back n Hn). apply (reads_map _ DbFiles.i64_of), reads_u64. unfold wrap. apply Z.mod_pos_bound. lia.
Qed.

Lemma reads_prefixed bs : zlen bs < 2 ^ 32 → reads r_prefixed (TableFiles.prefixed bs) bs.
Proof.
  intros Hs. pose proof (zlen_nonneg bs). unfold r_prefixed, TableFiles.prefixed, wrap. rw Z.mod_small; [lia|].
  apply (reads_bind _ _ _ _ (zlen bs)); [apply reads_u32; lia|apply reads_bytes].
Qed.

Lemma reads_string (s : str) : DbFilesSpec.name_ok s → reads r_string (TableFiles.prefixed (utf8_bytes s)) s.
Proof.
  intros [Hs Hz]. destruct (DbFilesSpec.utf8_round_trip s Hs) as [Hc Hv]. unfold r_string. rw -(app_nil_r (TableFiles.prefixed _)).
  apply (reads_bind _ _ _ _ (utf8_bytes s)); [by apply reads_prefixed|]. rw Hv Hc. apply reads_ret.
Qed.

(** ** The binary format *)

Section binary.
Context {J : Type} `{!SnapshotCodec J} `{!Crc32}.

(** What can be written and read back: numbers and lengths that fit their fields, and
    a schema that JSON carries. *)
Record table_fits (t : TableSnapshot J) : Prop := {
  tf_name : DbFilesSpec.name_ok (ts_name t);
  tf_id : 0 ≤ ts_table_id t < 2 ^ 32;
  tf_schema : schema_from_json (schema_to_json (ts_schema t)) = Some (ts_schema t) ∧ zlen (schema_to_json (ts_schema t)) < 2 ^ 32;
  tf_entries : TableFilesSpec.entries_sized (ts_entries t);
  tf_sequences : Forall (λ s : str * Z, DbFilesSpec.name_ok s.1 ∧ - 2 ^ 63 ≤ s.2 < 2 ^ 63) (ts_sequences t) ∧ zlen (ts_sequences t) < 2 ^ 32;
}.

Record snapshot_fits (s : FullSnapshot J) : Prop := {
  sf_version : version (header s) = SNAPSHOT_VERSION;
  sf_lsn : 0 ≤ lsn (header s) < 2 ^ 64;
  sf_time : - 2 ^ 63 ≤ timestamp (header s) < 2 ^ 63;
  sf_count : table_count (header s) = zlen (snapshot_tables s) ∧ zlen (snapshot_tables s) < 2 ^ 32;
  sf_tables : Forall table_fits (snapshot_tables s);
}.

Lemma reads_entry kv : TableFilesSpec.entry_sized kv → reads read_entry (TableFiles.entry_bytes kv) kv.
Proof.
  destruct kv as [k v]. intros [Hk Hv]. apply (reads_bind _ _ _ _ k); [by apply reads_prefixed|]. by apply (reads_map _ (pair k)), reads_prefixed.
Qed.

Lemma reads_sequence (s : str * Z) : DbFilesSpec.name_ok s.1 ∧ - 2 ^ 63 ≤ s.2 < 2 ^ 63 → reads read_sequence (sequence_bytes s) s.
Proof.
  destruct s as [c v]. intros [Hc Hv]. apply (reads_bind _ _ _ _ c); [by apply reads_string|]. by apply (reads_map _ (pair c)), reads_i64.
Qed.

Lemma reads_table t : table_fits t → reads (read_table SNAPSHOT_VERSION) (table_bytes t) t.
Proof.
  intros [Hn Hid [Hj Hjz] [He Hez] [Hs Hsz]]. pose proof (zlen_nonneg (ts_entries t)). pose proof (zlen_nonneg (ts_sequences t)).
  unfold read_table, table_bytes. apply (reads_bind _ _ _ _ (ts_name t)); [by apply reads_string|].
  apply (reads_bind _ _ _ _ (ts_table_id t)); [by apply reads_u32|]. apply (reads_bind _ _ _ _ (schema_to_json (ts_schema t))); [by apply reads_prefixed|].
  rw Hj. rw -(app_nil_l (le_bytes 8 _ ++ _)). apply (reads_bind _ _ _ _ (ts_schema t)); [apply reads_ret|].
  unfold wrap. rw !Z.mod_small; [lia..|]. apply (reads_bind _ _ _ _ (zlen (ts_entries t))); [apply reads_u64; lia|].
  destruct (Z.ltb_spec (48 * zlen (ts_entries t)) (2 ^ 63)); [|lia]. unfold zlen at 1. rw Nat2Z.id.
  apply (reads_bind _ _ _ _ (ts_entries t)); [by apply reads_times, (Forall_impl _ _ _ He), reads_entry|].
  cbn [Z.leb SNAPSHOT_VERSION]. destruct t as [n i s es qs]. cbn [ts_name ts_table_id ts_schema ts_entries ts_sequences] in *. apply (reads_map _ (mkTableSnapshot n i s es)).
  apply (reads_bind _ _ _ _ (zlen qs)); [apply reads_u32; lia|]. unfold zlen. rw Nat2Z.id. by apply reads_times, (Forall_impl _ _ _ Hs), reads_sequence.
Qed.

(** A snapshot is read back from its file. *)
Theorem snapshot_round_trip (s : FullSnapshot J) : snapshot_fits s → deserialize_snapshot (serialize_snapshot s) = Some (Ok s).
Proof.
  destruct s as [[v n ts c] l]. intros [Hv Hn Ht [Hc Hz] Hl]. cbn in *. subst v c. pose proof (zlen_nonneg l).
  assert (reads read_snapshot (SNAPSHOT_MAGIC ++ le_bytes 4 SNAPSHOT_VERSION ++ le_bytes 8 n ++ le_bytes 8 (wrap 64 ts) ++ le_bytes 4 (zlen l) ++ (l ≫= table_bytes))
    (mkSnapshot (mkHeader SNAPSHOT_VERSION n ts (zlen l)) l)) as Hr.
  { apply (reads_bind _ _ _ _ SNAPSHOT_MAGIC); [exact (reads_bytes SNAPSHOT_MAGIC)|]. rw bool_decide_eq_true_2; [done|]. cbn [negb].
    apply (reads_bind _ _ _ _ SNAPSHOT_VERSION); [by apply reads_u32|]. rw Z.ltb_irrefl.
    apply (reads_bind _ _ _ _ n); [by apply reads_u64|]. apply (reads_bind _ _ _ _ ts); [by apply reads_i64|].
    apply (reads_bind _ _ _ _ (zlen l)); [apply reads_u32; lia|]. apply (reads_map _ (mkSnapshot (mkHeader SNAPSHOT_VERSION n ts (zlen l)))).
    unfold zlen. rw Nat2Z.id. apply reads_times, (Forall_impl _ _ _ Hl), reads_table. }
  unfold deserialize_snapshot, serialize_snapshot. cbn [header lsn timestamp table_count snapshot_tables].
  specialize (Hr (le_bytes 4 (crc32 []))). rw -!app_assoc in Hr. by rw Hr.
Qed.
End binary.

(** ** File names *)

Lemma until_dot_app (acc s r : str) : 46 ∉ s → until_dot acc (s ++ 46 :: r) = Some (reverse r, reverse s ++ acc).
Proof.
  revert acc. induction s as [|c s IH]; intros acc Hs; [done|]. apply not_elem_of_cons in Hs as [Hc Hs]. cbn [app until_dot].
  destruct (Z.eqb_spec c 46); [congruence|]. rw IH; [done|]. by rw reverse_cons -app_assoc.
Qed.

Lemma split_extension_app c (s ext : str) : 46 ∉ ext → split_extension (c :: s ++ 46 :: ext) = (c :: s, Some ext).
Proof.
  intros He. unfold split_extension. rw reverse_cons reverse_app reverse_cons -!app_assoc. cbn [app].
  rw until_dot_app; [by rw elem_of_reverse|]. rw reverse_involutive app_nil_r reverse_app reverse_involutive. done.
Qed.

(** The name of a file that the server has written says that its number is 0. *)
Lemma server_file_name (h : SnapshotHeader) (ext ext' : str) : lsn h = 0 → 46 ∉ ext →
  lsn_of_name ext' (file_of h ext) = if bool_decide (ext = ext') then Some 0 else None.
Proof.
  intros Hh He. unfold lsn_of_name, file_of, stem_of. rw Hh. change (chars "snapshot_") with (115 :: chars "napshot_"). cbn [app].
  rw split_extension_app; [done|]. by destruct (bool_decide (ext = ext')).
Qed.

(** ** Restoring *)

Section restoring.
Context {J T : Type} `{!JsonShow J, !JsonRead J} `{!Codecs} `{Unicode} `{FloatText} `{!Engine J} `{!KvTree T} `{!HashOrder} `{!Unordered} `{!Libm}.
Context `{!CatalogCodec J} `{!SnapshotCodec J} `{!Crc32} `{!KvTreeLaws T}.
Local Abbreviation rows := (gmap (list Z) (list Z)).

(** A table in memory as it is in the snapshot. *)
Definition restored (y : System J T) (t : TableSnapshot J) : Prop := ∃ td,
  tables (world_of y) !! ts_name t = Some td ∧ schema td = ts_schema t ∧ kt_rep (index td) (TableFiles.of_entries (ts_entries t)).

Lemma restore_table_run (y : System J T) (t : TableSnapshot J) : tables (world_of y) !! ts_name t = None →
  ∃ y' td, restore_table y t = Some y' ∧ tables (world_of y') = <[ts_name t := td]> (tables (world_of y)) ∧
    schema td = ts_schema t ∧ kt_rep (index td) (TableFiles.of_entries (ts_entries t)).
Proof.
  intros Hn. unfold restore_table. rw Hn. destruct (insert_entries_rep (ts_entries t) (pk_tree (ts_name t)) ∅) as (i & -> & Hr); [apply kt_new_rep; lia|].
  cbn [mbind option_bind]. do 2 eexists. by split_and!.
Qed.

Lemma restore_run_all (l : list (TableSnapshot J)) (y : System J T) : NoDup (ts_name <$> l) → (∀ t, t ∈ l → tables (world_of y) !! ts_name t = None) →
  ∃ y', restore_from_snapshot y l = Some y' ∧ (∀ t, t ∈ l → restored y' t) ∧
    ∀ table, table ∉ ts_name <$> l → tables (world_of y') !! table = tables (world_of y) !! table.
Proof.
  revert y. induction l as [|t l IH]; intros y Hnd Hnone; [exists y; split_and!; [done| |done]; by intros t Ht%elem_of_nil|].
  cbn in Hnd. apply NoDup_cons in Hnd as [Hnin Hnd]. destruct (restore_table_run y t) as (y1 & td & Hy1 & Ht1 & Hs1 & Hr1); [apply Hnone; by left|].
  destruct (IH y1 Hnd) as (y2 & Hy2 & Hh & Ho).
  { intros t' Hin. rw Ht1 lookup_insert_ne; [|apply Hnone; by right]. intros Heq. apply Hnin. rw Heq. by apply list_elem_of_fmap_2. }
  exists y2. split_and!.
  - cbn [restore_from_snapshot]. by rw Hy1.
  - intros t' Hin. apply elem_of_cons in Hin as [->|Hin]; [|by apply Hh]. exists td. split; [|done]. by rw (Ho _ Hnin) Ht1 lookup_insert_eq.
  - intros table Hne. cbn in Hne. apply not_elem_of_cons in Hne as [Hne Hnin']. rw (Ho _ Hnin') Ht1 lookup_insert_ne; [congruence|done].
Qed.

(** The tables of a snapshot are those of the engine. *)
Definition taken (w : World J T) (table : str) (t : TableSnapshot J) : Prop := ∃ td,
  tables w !! table = Some td ∧ ts_name t = table ∧ ts_schema t = schema td ∧ kt_scan_all (index td) = Some (ts_entries t).

Lemma snapshot_taken now (w : World J T) s : snapshot_of now w = Some s →
  lsn (header s) = 0 ∧ ts_name <$> snapshot_tables s = hash_keys (tables w) ∧ ∀ t, t ∈ snapshot_tables s → taken w (ts_name t) t.
Proof.
  unfold snapshot_of. destruct (mapM _ _) as [l|] eqn:Hl; [|done]. cbn [mbind option_bind]. intros [= <-]. cbn [header lsn create_snapshot_header snapshot_tables].
  apply mapM_Some_1 in Hl. split; [done|]. unfold hash_keys.
  assert (∀ kv t, table_snapshot w kv = Some t → ts_name t = kv.1 ∧ ts_schema t = schema kv.2 ∧ kt_scan_all (index kv.2) = Some (ts_entries t)) as Hone.
  { intros [k td] t. unfold table_snapshot. cbn [fst snd]. destruct (kt_scan_all (index td)) as [es|]; [|done]. by intros [= <-]. }
  split.
  - clear -Hl Hone. induction Hl as [|kv t l1 l2 Hkv _ IH]; [done|]. cbn. f_equal; [by destruct (Hone _ _ Hkv)|exact IH].
  - intros t Hin. apply list_elem_of_lookup_1 in Hin as [i Hi]. destruct (Forall2_lookup_r _ _ _ _ _ Hl Hi) as ([k td] & Hk & Ht).
    destruct (Hone _ _ Ht) as (Hn & Hs & He). cbn in Hn, Hs, He. exists td. split_and!; [|done..]. rw Hn. apply elem_of_hash_iter, (list_elem_of_lookup_2 _ _ _ Hk).
Qed.

Lemma hash_keys_nodup (w : World J T) : NoDup (hash_keys (tables w)).
Proof. unfold hash_keys. rw hash_iter_perm. apply NoDup_fst_map_to_list. Qed.

Lemma latest_saved (h : SnapshotHeader) (bytes : list Z) n k f l : lsn h = 0 →
  find_latest_file (mkManager {[file_of h (chars "bin") := bytes]} n k f l Binary) (chars "bin") = Some (0, (file_of h (chars "bin"), bytes)) ∧
  find_latest_file (mkManager {[file_of h (chars "bin") := bytes]} n k f l Binary) (chars "json") = None.
Proof.
  intros Hh. unfold find_latest_file. cbn [data_dir]. pose proof (hash_iter_perm ({[file_of h (chars "bin") := bytes]} : gmap str (list Z))) as Hp.
  rw map_to_list_singleton in Hp. apply Permutation_singleton_r in Hp. rw Hp. unfold foldl, later. cbn [fst].
  assert (46 ∉ chars "bin") as Hd by (apply (bool_decide_unpack _); by vm_compute). rw !(server_file_name _ _ _ Hh Hd). done.
Qed.

Lemma snapshot_total now (w : World J T) : (∀ table td, tables w !! table = Some td → ∃ m, kt_rep (index td) m) → ∃ s, snapshot_of now w = Some s.
Proof.
  intros Hrep. unfold snapshot_of. destruct (mapM_is_Some_2 (table_snapshot w) (hash_iter (tables w))) as [l ->]; [|by eexists].
  apply Forall_forall. intros [k td] Hin%elem_of_hash_iter. destruct (Hrep _ _ Hin) as [m Hm]. change (is_Some (table_snapshot w (k, td))). unfold table_snapshot. cbn [fst snd].
  rw (kt_scan_all_rep _ _ Hm). by eexists.
Qed.

(** The tables of an engine, with their schemas and their rows. *)
Definition same_rows (w w' : World J T) : Prop := ∀ table,
  match tables w !! table, tables w' !! table with
  | Some td, Some td' => schema td' = schema td ∧ ∃ m : rows, kt_rep (index td) m ∧ kt_rep (index td') m
  | None, None => True
  | _, _ => False
  end.

(** An engine without tables that restores the snapshot another one has saved has its
    tables, with the same schemas and exactly the same rows. *)
Theorem snapshot_restores now threshold secs (w : World J T) :
  (∀ table td, tables w !! table = Some td → ∃ m, kt_rep (index td) m) → (∀ s, snapshot_of now w = Some s → snapshot_fits s) →
  ∃ s m1 m2 y, create_snapshot now w (manager_new ∅ threshold secs Binary) = Some m1 ∧ load_latest m1 = Some (m2, Ok (Some s)) ∧
    restore_from_snapshot new_system (snapshot_tables s) = Some y ∧ same_rows w (world_of y).
Proof.
  intros Hrep Hfits. destruct (snapshot_total now w Hrep) as [s Hs]. pose proof (Hfits s Hs) as Hfit.
  destruct (snapshot_taken now w s Hs) as (Hlsn & Hnames & Htaken).
  destruct (restore_run_all (snapshot_tables s) new_system) as (y & Hy & Hh & Ho); [rw Hnames; apply hash_keys_nodup|intros t _; exact (lookup_empty _)|].
  unfold create_snapshot. rw Hs. cbn [mbind option_bind]. do 4 eexists. split_and!; [done| |exact Hy|].
  - unfold save, save_binary, save_as. cbn [format manager_new fst data_dir reset_write_count set_last_lsn]. rw delete_empty.
    unfold load_latest, reset_write_count, set_last_lsn. cbn [data_dir format write_threshold interval last_snapshot_lsn].
    destruct (latest_saved (header s) (serialize_snapshot s) 0 threshold secs (lsn (header s)) Hlsn) as [Hb Hj].
    unfold singletonM, map_singleton in Hb, Hj. rw Hb Hj. cbn [snd]. by rw snapshot_round_trip.
  - intros table. destruct (tables w !! table) as [td|] eqn:Htd.
    + assert (table ∈ ts_name <$> snapshot_tables s) as Hin by (rw Hnames; apply elem_of_hash_keys; by exists td).
      apply list_elem_of_fmap in Hin as (t & -> & Hin). destruct (Hh t Hin) as (td' & -> & Hs' & Hr').
      destruct (Htaken t Hin) as (td0 & Htd0 & _ & Hs0 & He). rw Htd in Htd0. injection Htd0 as <-. split; [congruence|].
      destruct (Hrep _ _ Htd) as [m Hm]. exists m. split; [done|]. rw (kt_scan_all_rep _ _ Hm) in He. injection He as He.
      destruct (sorted_pairs_map m) as [Hnd Hl]. rw -Hl -(TableFilesSpec.of_entries_list _ Hnd). by rw He.
    + rw Ho; [rw Hnames elem_of_hash_keys Htd; by intros [? ?]|]. cbn. by rw lookup_empty.
Qed.
End restoring.

(** ** Runs *)

Section runs.
#[local] Existing Instance Tuple.sample_codecs.
#[local] Existing Instance Tuple.sample_show.
#[local] Existing Instance Tuple.sample_read.
#[local] Existing Instance Lexer.ascii_only.
#[local] Existing Instance Lexer.no_floats.
#[local] Existing Instance Scan.sample_engine.
#[local] Existing Instance Collections.plain.
#[local] Existing Instance QuerySpec.no_libm.
#[local] Existing Instance SecondaryIndex.Value_eq_dec.
#[local] Existing Instance DiskManager.sum_crc32.
#[local] Existing Instance city_codec.
Local Abbreviation Tree := BTree.BTree.BPlusTree.
Local Abbreviation state := (Stored unit Tree * Session)%type.

(** The only schema is that of the cities. *)
#[local] Instance city_snapshots : SnapshotCodec unit := {
  schema_to_json _ := [1];
  schema_from_json _ := Some cities_schema;
  snapshot_to_json _ := [];
  snapshot_from_json _ := None;
}.

Definition manager : SnapshotManager := manager_new ∅ 100 60 Binary.
Definition snap (now : Z) (st : state) (m : SnapshotManager) : SnapshotManager := default m (create_snapshot now (world_in st.1) m).
Definition rows_in (y : System unit Tree) : option Z := kt_len ∘ index <$> tables (world_of y) !! chars "t".

(** The engine that is started on the files of another one, and then on the
    snapshots. *)
Definition restart_with (m : SnapshotManager) (st : state) : option (System unit Tree) :=
  '(_, (p, _)) ← attach_disk_store fresh_system (store st.1) st;
  '(_, latest) ← load_latest m;
  match latest with Ok (Some s) => restore_from_snapshot (system_of p) (snapshot_tables s) | _ => Some (system_of p) end.

Definition with_t : state := PersistFindings.with_t.

(** A table that is dropped after a snapshot is back at the next start, with the rows
    it had then. *)
Theorem dropped_table_restored :
  let m := snap 1 with_t manager in
  let st := PersistFindings.script None with_t ["DROP TABLE t"] in
  rows_in (system_of st.1) = None ∧ (restart_with m st ≫= rows_in) = Some 1.
Proof. split; vm_compute; reflexivity. Qed.

(** A directory that is listed in the opposite order. *)
Definition other_order : HashOrder.
Proof. exists (λ _ _ _ _ m, reverse (map_to_list m)). intros K V ? ? m. by rw reverse_Permutation. Defined.

(** All snapshots of a server have the number 0, and the first one that is listed is
    loaded: the order of the directory decides whether it is the newest. *)
Definition two_snapshots : SnapshotManager :=
  snap 2 (PersistFindings.script None with_t ["INSERT INTO t VALUES (2, 'bonn')"]) (snap 1 with_t manager).
Definition loaded_time (order : HashOrder) : option Z :=
  '(_, r) ← @load_latest unit city_snapshots order two_snapshots; match r with Ok (Some s) => Some (timestamp (header s)) | _ => None end.

Theorem newest_not_loaded : ∃ order, loaded_time order = Some 1.
Proof. first [exists some_hash_order; vm_compute; reflexivity | exists other_order; vm_compute; reflexivity]. Qed.

(** The checksum covers nothing and is not read: a changed byte of a row is not
    noticed. *)
Definition damaged (bytes : list Z) : list Z := alter (Z.lxor 1) (length bytes - 9)%nat bytes.
Definition city_bytes : list Z := match map_to_list (data_dir (snap 1 with_t manager)) with [(_, bytes)] => bytes | _ => [] end.
Definition entries_in (bytes : list Z) : list (list Z * list Z) :=
  match deserialize_snapshot bytes with Some (Ok s) => snapshot_tables s ≫= ts_entries | _ => [] end.

Theorem damage_not_noticed : length (entries_in (damaged city_bytes)) = 1%nat ∧ entries_in (damaged city_bytes) ≠ entries_in city_bytes.
Proof. split; [vm_compute; reflexivity|]. by vm_compute. Qed.
End runs.
End SnapshotsSpec.
