(* ===== verification/Backup.v ===== *)
(** Copies of the data directory ([bytedb-core/src/backup.rs]), and the check of the
    versions of its files ([bytedb-core/src/migration.rs]), with the statements BACKUP,
    RESTORE and MIGRATE of [bytedb-query/src/executor/engine.rs].

    A directory is the list of its entries in the order in which it is listed. The
    data directory, the backup and the directory that is restored are apart from each
    other. The device does not fail: an error [Io] is a file in the place of a
    directory, or a directory in the place of a file.

    What backups promise: a directory that is restored from a backup has the log, the
    registry, the snapshots and the databases that the data directory had, without
    files that were being written; and what migration does to old files. *)
From S2P Require Import Prelude ByteOrder OrderedIndex Value OrderKey SecondaryIndex Tuple Schema Civil Literals Transaction VersionStore Wal DiskManager Sql TableFiles Lexer Parser SqlPrint SqlRoundTrip Float64 Like DbFiles Strings Eval Scan Plan Collections Stats Cost Optimizer Exec Window Join Aggregate TableAccess Subquery Query Dml TableFilesSpec DbFilesSpec Catalog Ddl Persist Stores Snapshots.
Import DiskManager.
Import Sql (str, chars, show_int).
Import Like (utf8_chars, utf8_bytes).
Import Snapshots (split_extension).

Module Backup.

(** ** Directories *)

Inductive Node : Type :=
  | File (bytes : list Z)
  | Folder (entries : list (str * Node)).

Definition Entries : Type := list (str * Node).

Fixpoint entry (name : str) (d : Entries) : option Node :=
  match d with [] => None | (n, x) :: d' => if bool_decide (n = name) then Some x else entry name d' end.

(** An entry is replaced, or added. *)
Fixpoint put (name : str) (x : Node) (d : Entries) : Entries :=
  match d with [] => [(name, x)] | (n, y) :: d' => if bool_decide (n = name) then (n, x) :: d' else (n, y) :: put name x d' end.

Definition without (name : str) (d : Entries) : Entries := filter (λ e : str * Node, e.1 ≠ name) d.

(** [Path::with_extension]. *)
Definition with_extension (name ext : str) : str := (split_extension name).1 ++ 46 :: ext.

(** What has become of a directory, and whether it went well. *)
Definition Outcome : Type := Entries * result ().
Definition and_then (o : Outcome) (f : Entries → Outcome) : Outcome := match o with (d, Ok _) => f d | (d, Err e) => (d, Err e) end.

(** [File::create] and what is written; a directory of that name is an error. *)
Definition write_file (name : str) (bytes : list Z) (d : Entries) : Outcome :=
  match entry name d with Some (Folder _) => (d, Err Io) | _ => (put name (File bytes) d, Ok ()) end.

(** [fs::rename] of a file that is there. *)
Definition rename_file (from to : str) (bytes : list Z) (d : Entries) : Outcome :=
  match entry to d with Some (Folder _) => (d, Err Io) | _ => (put to (File bytes) (without from d), Ok ()) end.

(** ** Copies *)

(** The file is written under another name, which is then given to it. *)
Definition copy_file (bytes : list Z) (name : str) (d : Entries) : Outcome :=
  let tmp := with_extension name (chars "tmp.bkp") in
  and_then (write_file tmp bytes d) (rename_file tmp name bytes).

Definition is_tmp (name : str) : bool := bool_decide ((split_extension name).2 = Some (chars "tmp")).

(** [create_dir_all], and the directory that is then there. *)
Definition ensure_folder (name : str) (d : Entries) : option Entries :=
  match entry name d with Some (File _) => None | Some (Folder l) => Some l | None => Some [] end.

(** One entry of [copy_dir]; the entries of a directory are copied in turn. *)
Fixpoint copy_node (x : Node) (name : str) (d : Entries) : Outcome :=
  match x with
  | File bytes => if is_tmp name then (d, Ok ()) else copy_file bytes name d
  | Folder l =>
      match ensure_folder name d with
      | None => (d, Err Io)
      | Some sub =>
          let '(sub, r) :=
            (fix copy_entries (l sub : Entries) : Outcome :=
               match l with [] => (sub, Ok ()) | (n, y) :: l' => and_then (copy_node y n sub) (copy_entries l') end) l sub in
          (put name (Folder sub) d, r)
      end
  end.
Fixpoint copy_entries (l sub : Entries) : Outcome :=
  match l with [] => (sub, Ok ()) | (n, y) :: l' => and_then (copy_node y n sub) (copy_entries l') end.

(** [copy_dir] of an entry that is there. Reading a file as a directory fails when
    the new directory has been made. *)
Definition copy_dir (x : Node) (name : str) (d : Entries) : Outcome :=
  match ensure_folder name d with
  | None => (d, Err Io)
  | Some sub => match x with Folder _ => copy_node x name d | File _ => (put name (Folder sub) d, Err Io) end
  end.

(** A part of the data directory, if it is there. *)
Definition copy_part_file (src : Entries) (name : str) (d : Entries) : Outcome :=
  match entry name src with None => (d, Ok ()) | Some (File bytes) => copy_file bytes name d | Some (Folder _) => (d, Err Io) end.
Definition copy_part_dir (src : Entries) (name : str) (d : Entries) : Outcome :=
  match entry name src with None => (d, Ok ()) | Some x => copy_dir x name d end.

Definition wal_name : str := chars "bytedb.wal".
Definition snapshots_name : str := chars "snapshots".
Definition databases_name : str := chars "databases".
Definition meta_name : str := chars "server.meta".
Definition manifest_name : str := chars "manifest.bin".

(** ** The manifest *)

Section backup.
Context `{!Crc32}.

Definition BACKUP_MANIFEST_MAGIC : list Z := chars "BBKM".
Definition BACKUP_MANIFEST_VERSION : Z := 1.

Record BackupManifest : Type := mkManifest { source_data_dir : str; backup_lsn : Z; timestamp : Z; source_format_version : Z }.

Definition manifest_payload (m : BackupManifest) : list Z :=
  BACKUP_MANIFEST_MAGIC ++ le_bytes 4 BACKUP_MANIFEST_VERSION ++ le_bytes 8 (backup_lsn m) ++ le_bytes 8 (wrap 64 (timestamp m)) ++
  le_bytes 4 (source_format_version m) ++ TableFiles.prefixed (utf8_bytes (source_data_dir m)).
Definition manifest_bytes (m : BackupManifest) : list Z := let p := manifest_payload m in p ++ le_bytes 4 (crc32 p).

Definition write_manifest (m : BackupManifest) (d : Entries) : Outcome := write_file manifest_name (manifest_bytes m) d.

(** The bytes from [a] to [b]. *)
Definition slice (a b : nat) (bs : list Z) : list Z := take (b - a) (drop a bs).

Definition read_manifest_bytes (buf : list Z) : result BackupManifest :=
  if zlen buf <? 36 then Err (Internal "backup manifest truncated") else
  let crc_pos := (length buf - 4)%nat in
  let stored := le_val (drop crc_pos buf) in
  let payload := take crc_pos buf in
  if negb (crc32 payload =? stored) then Err (Internal "backup manifest crc mismatch") else
  if negb (bool_decide (take 4 payload = BACKUP_MANIFEST_MAGIC)) then Err (Internal "backup manifest bad magic") else
  if negb (le_val (slice 4 8 payload) =? BACKUP_MANIFEST_VERSION) then Err (Internal "backup manifest unsupported version") else
  let path_len := le_val (slice 28 32 payload) in
  if zlen payload <? 32 + path_len then Err (Internal "backup manifest path truncated") else
  Ok (mkManifest (utf8_chars (take (Z.to_nat path_len) (drop 32 payload))) (le_val (slice 8 16 payload))
        (DbFiles.i64_of (le_val (slice 16 24 payload))) (le_val (slice 24 28 payload))).

Definition read_manifest (d : Entries) : result BackupManifest :=
  match entry manifest_name d with Some (File buf) => read_manifest_bytes buf | _ => Err Io end.

(** ** Backup and restoration *)

(** The data directory with the file of the log as it is on the disk. *)
Definition with_log (lm : Wal.LogManager) (src : Entries) : Entries := put wal_name (File (Wal.disk lm)) src.

(** [Backup::create]: the log is flushed, and the parts of the data directory are
    copied. *)
Definition create (src_path : str) (src : Entries) (lm : Wal.LogManager) (now format_version : Z) (backup : Entries)
    : Wal.LogManager * Entries * result BackupManifest :=
  match Wal.flush lm with
  | (lm, Err e) => (lm, backup, Err e)
  | (lm, Ok lsn) =>
      let src := with_log lm src in
      let m := mkManifest src_path lsn now format_version in
      let o := and_then (copy_part_file src wal_name backup) (λ d,
               and_then (copy_part_dir src snapshots_name d) (λ d,
               and_then (copy_part_dir src databases_name d) (λ d,
               and_then (copy_part_file src meta_name d) (write_manifest m)))) in
      (lm, o.1, match o.2 with Ok _ => Ok m | Err e => Err e end)
  end.

(** [Backup::restore_to]: everything is copied to a new directory first, whose
    entries then take the place of those of the target. *)
Definition restore_to (backup target : Entries) : Entries * result BackupManifest :=
  match read_manifest backup with
  | Err e => (target, Err e)
  | Ok m =>
      match and_then (copy_part_file backup wal_name []) (λ d,
            and_then (copy_part_file backup meta_name d) (λ d,
            and_then (copy_part_dir backup snapshots_name d) (copy_part_dir backup databases_name))) with
      | (staging, Ok _) => (staging, Ok m)
      | (_, Err e) => (target, Err e)
      end
  end.

(** The statements, on an engine with a disk store; [path] is where the backup is. *)
Definition STORAGE_FORMAT_VERSION : Z := 3.

Definition exec_backup (src_path path : str) (src : Entries) (lm : Wal.LogManager) (now : Z) (backup : Entries)
    : Wal.LogManager * Entries * result str :=
  let '(lm, backup, r) := create src_path src lm now STORAGE_FORMAT_VERSION backup in
  (lm, backup, match r with Ok m => Ok (chars "BACKUP at LSN " ++ show_int (backup_lsn m) ++ chars " -> " ++ path) | Err e => Err e end).

Definition pitr_name : str := chars "pitr_target.txt".

Definition exec_restore (path : str) (to_lsn : option Z) (backup target : Entries) : Entries * result str :=
  match restore_to backup target with
  | (target, Err e) => (target, Err e)
  | (target, Ok m) =>
      let o := match to_lsn with Some lsn => write_file pitr_name (show_int lsn) target | None => (target, Ok ()) end in
      (o.1, match o.2 with
            | Err e => Err e
            | Ok _ =>
                Ok (chars "RESTORE from " ++ path ++ chars " (backup_lsn=" ++ show_int (backup_lsn m) ++
                    match to_lsn with Some l => chars ", PITR target LSN " ++ show_int l | None => [] end ++
                    chars "). Restart the server to load restored data.")
            end)
  end.
End backup.

(** ** Migration *)

Inductive FileKind : Type := KCatalog | KTableFile | KSnapshot | KServerMeta | KUnknown.

Record FileFormat : Type := mkFormat { path : list str; kind : FileKind; version : Z }.
Record MigrationReport : Type := mkReport { scanned : list FileFormat; migrated : list (list str); backups : list (list str) }.

Definition expected_current_version (k : FileKind) : Z :=
  match k with KCatalog | KTableFile | KSnapshot => 2 | KServerMeta => 1 | KUnknown => 0 end.

Definition kind_of (magic : list Z) : FileKind :=
  if bool_decide (magic = chars "BCAT") then KCatalog
  else if bool_decide (magic = chars "BTBL") then KTableFile
  else if bool_decide (magic = chars "BSDB") then KSnapshot
  else if bool_decide (magic = chars "BSRV") then KServerMeta
  else KUnknown.

Definition identify (at_ : list str) (bytes : list Z) : option FileFormat :=
  if zlen bytes <? 8 then None else
  match kind_of (take 4 bytes) with
  | KUnknown => None
  | k => Some (mkFormat at_ k (le_val (slice 4 8 bytes)))
  end.

(** [scan_dir]; a path is the names on the way to a file. *)
Fixpoint scan_node (at_ : list str) (x : Node) : list FileFormat :=
  match x with
  | File bytes => match identify at_ bytes with Some f => [f] | None => [] end
  | Folder l => (fix scan_entries (l : Entries) : list FileFormat :=
                   match l with [] => [] | (n, y) :: l' => scan_node (at_ ++ [n]) y ++ scan_entries l' end) l
  end.
Definition scan (data_dir : Entries) : list FileFormat := scan_node [] (Folder data_dir).

(** [backup_file]: the copy stands beside the file. *)
Definition bak_name (name : str) : str :=
  with_extension name (default (chars "bin") (split_extension name).2 ++ chars ".v0.2.bak").
Fixpoint backup_file (p : list str) (d : Entries) : Entries * result (list str) :=
  match p with
  | [] => (d, Err Io)
  | [name] =>
      match entry name d with
      | Some (File bytes) => let '(d, r) := write_file (bak_name name) bytes d in (d, match r with Ok _ => Ok [bak_name name] | Err e => Err e end)
      | _ => (d, Err Io)
      end
  | dir :: p' =>
      match entry dir d with
      | Some (Folder l) => let '(l, r) := backup_file p' l in (put dir (Folder l) d, match r with Ok q => Ok (dir :: q) | Err e => Err e end)
      | _ => (d, Err Io)
      end
  end.

Definition migrate_file_in_place (f : FileFormat) (d : Entries) : Outcome := (d, Ok ()).

Fixpoint migrate_files (l : list FileFormat) (report : MigrationReport) (d : Entries) : Entries * result MigrationReport :=
  match l with
  | [] => (d, Ok report)
  | f :: l' =>
      if version f <? expected_current_version (kind f) then
        match backup_file (path f) d with
        | (d, Err e) => (d, Err e)
        | (d, Ok bak) =>
            match migrate_file_in_place f d with
            | (d, Err e) => (d, Err e)
            | (d, Ok _) => migrate_files l' (mkReport (scanned report) (migrated report ++ [path f]) (backups report ++ [bak])) d
            end
        end
      else if expected_current_version (kind f) <? version f then (d, Err (Internal "newer than supported"))
      else migrate_files l' report d
  end.
Definition migrate_to_current (d : Entries) : Entries * result MigrationReport := let l := scan d in migrate_files l (mkReport l [] []) d.

Definition exec_migrate (d : Entries) : Entries * result str :=
  match migrate_to_current d with
  | (d, Err e) => (d, Err e)
  | (d, Ok r) =>
      (d, Ok (chars "MIGRATE scanned " ++ show_int (zlen (scanned r)) ++ chars " files, migrated " ++ show_int (zlen (migrated r)) ++
              chars ", backups " ++ show_int (zlen (backups r))))
  end.
End Backup.

Import DiskManager Backup.
Import Sql (str, chars, show_int).
Import Like (utf8_chars, utf8_bytes).

Module BackupSpec.

(** ** Directories *)

(** Induction over the files and directories inside a directory. *)
Lemma node_ind (P : Node → Prop) : (∀ bytes, P (File bytes)) → (∀ l, Forall (λ e : str * Node, P e.2) l → P (Folder l)) → ∀ x, P x.
Proof.
  intros Hf Hd. fix IH 1. intros [bytes|l]; [apply Hf|]. apply Hd. induction l as [|[n y] l IHl]; constructor; [apply IH|exact IHl].
Qed.

(** A name is not among names that are known. *)
Ltac fresh_name := apply (bool_decide_unpack _); by vm_compute.

Lemma entry_fresh (name : str) (d : Entries) : name ∉ d.*1 → entry name d = None.
Proof.
  induction d as [|[n x] d IH]; [done|]. cbn. intros [Hn Hd]%not_elem_of_cons. rw bool_decide_eq_false_2; [congruence|]. by apply IH.
Qed.

Lemma put_fresh (name : str) x (d : Entries) : name ∉ d.*1 → put name x d = d ++ [(name, x)].
Proof.
  induction d as [|[n y] d IH]; [done|]. cbn. intros [Hn Hd]%not_elem_of_cons. rw bool_decide_eq_false_2; [congruence|]. by rw IH.
Qed.

Lemma without_fresh (name : str) x (d : Entries) : name ∉ d.*1 → without name (d ++ [(name, x)]) = d.
Proof.
  intros Hd. unfold without. rw filter_app. rw (filter_cons_False _ (name, x)); [cbn; tauto|]. rw filter_nil app_nil_r.
  apply filter_every, Forall_forall. intros e He Heq. apply Hd. rw -Heq. by apply list_elem_of_fmap_2.
Qed.

Lemma entry_app (name : str) (d d' : Entries) : entry name (d ++ d') = match entry name d with Some x => Some x | None => entry name d' end.
Proof. induction d as [|[n x] d IH]; [done|]. cbn. by case_bool_decide. Qed.

(** ** Copies *)

Definition tmp_of (name : str) : str := with_extension name (chars "tmp.bkp").

Lemma copy_file_fresh bytes (name : str) (d : Entries) : name ∉ d.*1 → tmp_of name ∉ d.*1 →
  copy_file bytes name d = (d ++ [(name, File bytes)], Ok ()).
Proof.
  intros Hn Ht. unfold copy_file, write_file. fold (tmp_of name). rw (entry_fresh _ _ Ht) (put_fresh _ _ _ Ht). cbn [and_then].
  unfold rename_file. rw entry_app (entry_fresh _ _ Hn) (without_fresh _ _ _ Ht) (put_fresh _ _ _ Hn). cbn. by case_bool_decide.
Qed.

(** A file that is being written is left out. *)
Definition skipped (name : str) (x : Node) : bool := match x with File _ => is_tmp name | Folder _ => false end.

Fixpoint prune (x : Node) : Node :=
  match x with
  | File bytes => File bytes
  | Folder l => Folder ((fix go (l : Entries) : Entries :=
                  match l with [] => [] | (n, y) :: l' => if skipped n y then go l' else (n, prune y) :: go l' end) l)
  end.
Fixpoint prune_entries (l : Entries) : Entries :=
  match l with [] => [] | (n, y) :: l' => if skipped n y then prune_entries l' else (n, prune y) :: prune_entries l' end.

Lemma prune_folder l : prune (Folder l) = Folder (prune_entries l).
Proof. done. Qed.

Lemma copy_folder l (name : str) (d : Entries) :
  copy_node (Folder l) name d =
  match ensure_folder name d with None => (d, Err Io) | Some sub => let '(sub, r) := copy_entries l sub in (put name (Folder sub) d, r) end.
Proof.
  cbn. destruct (ensure_folder name d) as [sub|]; [|done]. match goal with |- (let '(_, _) := ?f l sub in _) = _ => enough (∀ sub, f l sub = copy_entries l sub) as -> end; [done|].
  clear. induction l as [|[n y] l IH]; intros sub; [done|]. cbn. destruct (copy_node y n sub) as [sub' [|]]; cbn; [apply IH|done].
Qed.

(** The names in a directory are different, and none of them is a name that copying
    gives a file for a while; and so on inside. *)
Inductive clean : Node → Prop :=
  | clean_file bytes : clean (File bytes)
  | clean_folder l : NoDup l.*1 → (∀ a, a ∈ l.*1 → tmp_of a ∉ l.*1) → Forall (λ e : str * Node, clean e.2) l → clean (Folder l).

Lemma copy_entries_fresh (l sub : Entries) :
  Forall (λ e : str * Node, clean e.2 → ∀ name d, name ∉ d.*1 → tmp_of name ∉ d.*1 →
     copy_node e.2 name d = (if skipped name e.2 then d else d ++ [(name, prune e.2)], Ok ())) l →
  NoDup (sub.*1 ++ l.*1) → (∀ a, a ∈ l.*1 → tmp_of a ∉ sub.*1 ++ l.*1) → Forall (λ e : str * Node, clean e.2) l →
  copy_entries l sub = (sub ++ prune_entries l, Ok ()).
Proof.
  revert sub. induction l as [|[n y] l IH]; intros sub Hcopy Hnd Htmp Hcl; [cbn; by rw app_nil_r|].
  apply Forall_cons in Hcopy as [Hy Hcopy]. apply Forall_cons in Hcl as [Hcy Hcl]. cbn [copy_entries prune_entries fmap list_fmap fst snd] in *.
  assert (n ∉ sub.*1) as Hn. { intros Hin. apply NoDup_app in Hnd as (_ & Hd & _). apply (Hd n Hin). by left. }
  assert (tmp_of n ∉ sub.*1) as Ht. { intros Hin. apply (Htmp n); [by left|]. apply elem_of_app. by left. }
  rw (Hy Hcy n sub Hn Ht). cbn [and_then]. destruct (skipped n y) eqn:Hskip.
  - apply IH; [done| | |done].
    + apply NoDup_app in Hnd as (H1 & H2 & H3). apply NoDup_cons in H3 as [_ H3]. apply NoDup_app. split_and!; [done| |done].
      intros a Ha Hal. apply (H2 a Ha). by right.
    + intros a Ha Hin. apply (Htmp a); [by right|]. apply elem_of_app in Hin as [Hin|Hin]; apply elem_of_app; [by left|]. right. by right.
  - rw IH; [done| | |done|by rw -app_assoc].
    + rw fmap_app -app_assoc. exact Hnd.
    + intros a Ha. rw fmap_app -app_assoc. apply Htmp. by right.
Qed.

Lemma copy_node_fresh x : clean x → ∀ (name : str) (d : Entries), name ∉ d.*1 → tmp_of name ∉ d.*1 →
  copy_node x name d = (if skipped name x then d else d ++ [(name, prune x)], Ok ()).
Proof.
  induction x as [bytes|l IH] using node_ind; intros Hcl name d Hn Ht.
  - cbn. destruct (is_tmp name); [done|]. by apply copy_file_fresh.
  - inversion Hcl as [|? Hnd Htmp Hall]; subst. rw copy_folder. unfold ensure_folder. rw (entry_fresh _ _ Hn).
    rw (copy_entries_fresh l []); [done..|]. cbn [app skipped]. by rw (put_fresh _ _ _ Hn) prune_folder.
Qed.

(** What was copied is copied as it is. *)
Lemma skipped_prune (name : str) x : skipped name (prune x) = skipped name x.
Proof. by destruct x. Qed.

Lemma prune_prune x : prune (prune x) = prune x.
Proof.
  induction x as [bytes|l IH] using node_ind; [done|]. rw !prune_folder. f_equal.
  induction IH as [|[n y] l Hy _ IHl]; [done|]. cbn [prune_entries]. destruct (skipped n y) eqn:Hs; [done|]. cbn [prune_entries].
  rw skipped_prune Hs. cbn in Hy. by rw Hy IHl.
Qed.

Lemma prune_names l : (prune_entries l).*1 `sublist_of` l.*1.
Proof. induction l as [|[n y] l IH]; [done|]. cbn. destruct (skipped n y); [by apply sublist_cons|by apply sublist_skip]. Qed.

Lemma clean_prune x : clean x → clean (prune x).
Proof.
  induction x as [bytes|l IH] using node_ind; intros Hcl; [constructor|]. inversion Hcl as [|? Hnd Htmp Hall]; subst. rw prune_folder.
  pose proof (prune_names l) as Hsub. constructor.
  - exact (sublist_NoDup _ _ Hnd Hsub).
  - intros a Ha Hin. apply (Htmp a); [exact (proj1 (elem_of_subseteq _ _) (sublist_subseteq _ _ Hsub) _ Ha)|exact (proj1 (elem_of_subseteq _ _) (sublist_subseteq _ _ Hsub) _ Hin)].
  - clear -IH Hall. induction IH as [|[n y] l Hy _ IHl]; [constructor|]. apply Forall_cons in Hall as [Hcy Hall]. cbn [prune_entries].
    destruct (skipped n y); [by apply IHl|]. constructor; [by apply Hy|by apply IHl].
Qed.

(** ** Parts of the data directory *)

Definition part (name : str) (o : option Node) : Entries := match o with Some x => [(name, x)] | None => [] end.

Lemma copy_part_file_fresh (src : Entries) (name : str) (d : Entries) : name ∉ d.*1 → tmp_of name ∉ d.*1 →
  (∀ l, entry name src ≠ Some (Folder l)) → copy_part_file src name d = (d ++ part name (entry name src), Ok ()).
Proof.
  intros Hn Ht Hf. unfold copy_part_file. destruct (entry name src) as [[bytes|l]|]; [by apply copy_file_fresh|by destruct (Hf l)|]. cbn. by rw app_nil_r.
Qed.

Lemma copy_part_dir_fresh (src : Entries) (name : str) (d : Entries) : name ∉ d.*1 → tmp_of name ∉ d.*1 →
  (∀ x, entry name src = Some x → clean x ∧ ∃ l, x = Folder l) → copy_part_dir src name d = (d ++ part name (prune <$> entry name src), Ok ()).
Proof.
  intros Hn Ht Hx. unfold copy_part_dir. destruct (entry name src) as [x|]; [|cbn; by rw app_nil_r]. destruct (Hx x eq_refl) as [Hcl [l ->]].
  unfold copy_dir, ensure_folder. rw (entry_fresh _ _ Hn). by rw (copy_node_fresh _ Hcl _ _ Hn Ht).
Qed.

(** A data directory: its parts are what they should be. *)
Record data_dir (src : Entries) : Prop := {
  dd_meta : ∀ l, entry meta_name src ≠ Some (Folder l);
  dd_snapshots : ∀ x, entry snapshots_name src = Some x → clean x ∧ ∃ l, x = Folder l;
  dd_databases : ∀ x, entry databases_name src = Some x → clean x ∧ ∃ l, x = Folder l;
}.

Lemma entry_put (name : str) x (name' : str) (d : Entries) : entry name' (put name x d) = if bool_decide (name = name') then Some x else entry name' d.
Proof.
  induction d as [|[n y] d IH]; cbn; [done|]. destruct (bool_decide_reflect (n = name)) as [->|Hn]; cbn; [by destruct (bool_decide (name = name'))|].
  rw IH. destruct (bool_decide_reflect (n = name')) as [->|]; [|done]. rw (bool_decide_eq_false_2 (name = name')); [congruence|done].
Qed.

Section backup.
Context `{!Crc32}.

(** ** The manifest *)

Definition manifest_fits (m : BackupManifest) : Prop :=
  DbFilesSpec.name_ok (source_data_dir m) ∧ 0 ≤ backup_lsn m < 2 ^ 64 ∧ - 2 ^ 63 ≤ timestamp m < 2 ^ 63 ∧ 0 ≤ source_format_version m < 2 ^ 32.

(** The fields of a manifest stand where they are read. *)
Lemma slices (m : BackupManifest) : let p := manifest_payload m in
  take 4 p = BACKUP_MANIFEST_MAGIC ∧ slice 4 8 p = le_bytes 4 BACKUP_MANIFEST_VERSION ∧ slice 8 16 p = le_bytes 8 (backup_lsn m) ∧
  slice 16 24 p = le_bytes 8 (wrap 64 (timestamp m)) ∧ slice 24 28 p = le_bytes 4 (source_format_version m) ∧
  slice 28 32 p = le_bytes 4 (wrap 32 (zlen (utf8_bytes (source_data_dir m)))) ∧ drop 32 p = utf8_bytes (source_data_dir m).
Proof.
  split_and!; reflexivity.
Qed.

Lemma manifest_back (m : BackupManifest) : manifest_fits m → read_manifest_bytes (manifest_bytes m) = Ok m.
Proof.
  intros ((Hs & Hz) & Hl & Ht & Hv). destruct (slices m) as (S0 & S1 & S2 & S3 & S4 & S5 & S6). unfold read_manifest_bytes, manifest_bytes. cbn zeta.
  assert (zlen (manifest_payload m) = 32 + zlen (utf8_bytes (source_data_dir m))) as Hlen.
  { rw -S6. unfold zlen. rw length_drop. enough (32 ≤ length (manifest_payload m))%nat by lia. unfold manifest_payload, TableFiles.prefixed. rw !length_app !length_le_bytes. cbn. lia. }
  set (p := manifest_payload m) in *. pose proof (zlen_nonneg (utf8_bytes (source_data_dir m))).
  assert (length (p ++ le_bytes 4 (crc32 p)) - 4 = length p)%nat as -> by (rw length_app length_le_bytes; lia).
  rw zlen_app {2}/zlen length_le_bytes drop_app_length take_app_length.
  destruct (Z.ltb_spec (zlen p + Z.of_nat 4) 36); [lia|]. rw le_bytes_val_small; [apply crc32_range|]. rw Z.eqb_refl. cbn [negb].
  rw S0 S1 S2 S3 S4 S5 S6. rw bool_decide_eq_true_2; [done|]. rw (le_bytes_val_small 4 BACKUP_MANIFEST_VERSION); [done|].
  rw (le_bytes_val_small 8 (backup_lsn m)); [done|]. rw (le_bytes_val_small 8 (wrap 64 (timestamp m))); [apply Z.mod_pos_bound; lia|].
  rw (le_bytes_val_small 4 (source_format_version m)); [done|]. rw (le_bytes_val_small 4 (wrap 32 _)); [apply Z.mod_pos_bound; lia|].
  rw SnapshotsSpec.i64_back; [done|]. unfold wrap. rw Z.mod_small; [lia|]. cbn [negb Z.eqb Pos.eqb BACKUP_MANIFEST_VERSION]. rw Hlen Z.ltb_irrefl.
  rw firstn_all2; [unfold zlen; lia|]. destruct (DbFilesSpec.utf8_round_trip _ Hs) as [-> _]. by destruct m.
Qed.

(** ** Backup and restoration *)

Lemma flush_ok lm : ∃ lm' lsn, Wal.Wal.flush lm = (lm', Ok lsn).
Proof. unfold Wal.Wal.flush, Wal.Wal.flush_through. case_match; by do 2 eexists. Qed.

(** What a backup keeps of an entry of the data directory. *)
Definition kept (src : Entries) (name : str) : option Node :=
  if bool_decide (name = wal_name ∨ name = meta_name) then entry name src
  else if bool_decide (name = snapshots_name ∨ name = databases_name) then prune <$> entry name src
  else None.

(** The entries of a backup, and of a directory that is restored from it. *)
Definition backup_of (src : Entries) (m : BackupManifest) : Entries :=
  part wal_name (entry wal_name src) ++ part snapshots_name (prune <$> entry snapshots_name src) ++
  part databases_name (prune <$> entry databases_name src) ++ part meta_name (entry meta_name src) ++ [(manifest_name, File (manifest_bytes m))].
Definition restored_from (src : Entries) : Entries :=
  part wal_name (entry wal_name src) ++ part meta_name (entry meta_name src) ++
  part snapshots_name (prune <$> entry snapshots_name src) ++ part databases_name (prune <$> entry databases_name src).

Lemma copy_parts (src : Entries) (m : BackupManifest) bytes : entry wal_name src = Some (File bytes) → data_dir src →
  and_then (copy_part_file src wal_name []) (λ d, and_then (copy_part_dir src snapshots_name d) (λ d,
    and_then (copy_part_dir src databases_name d) (λ d, and_then (copy_part_file src meta_name d) (write_manifest m)))) = (backup_of src m, Ok ()).
Proof.
  intros Hw [Hm Hs Hd]. unfold backup_of, write_manifest, write_file.
  rw copy_part_file_fresh; [fresh_name..|by rw Hw|]. cbn [and_then app]. rw copy_part_dir_fresh; [rw Hw; fresh_name..|done|]. cbn [and_then].
  rw copy_part_dir_fresh; [rw Hw; destruct (entry snapshots_name src); fresh_name..|done|]. cbn [and_then].
  rw copy_part_file_fresh; [rw Hw; destruct (entry snapshots_name src), (entry databases_name src); fresh_name..|done|]. cbn [and_then].
  rw entry_fresh; [rw Hw; destruct (entry snapshots_name src), (entry databases_name src), (entry meta_name src); fresh_name|].
  rw put_fresh; [rw Hw; destruct (entry snapshots_name src), (entry databases_name src), (entry meta_name src); fresh_name|]. by rw -!app_assoc.
Qed.

(** The parts of a backup are those of the data directory. *)
Lemma backup_parts (src : Entries) (m : BackupManifest) : let b := backup_of src m in
  entry wal_name b = entry wal_name src ∧ entry meta_name b = entry meta_name src ∧ entry manifest_name b = Some (File (manifest_bytes m)) ∧
  entry snapshots_name b = prune <$> entry snapshots_name src ∧ entry databases_name b = prune <$> entry databases_name src.
Proof.
  unfold backup_of. destruct (entry wal_name src), (entry snapshots_name src), (entry databases_name src), (entry meta_name src); by split_and!.
Qed.

Lemma pruned_dir (src : Entries) (name : str) : (∀ x, entry name src = Some x → clean x ∧ ∃ l, x = Folder l) →
  ∀ x, prune <$> entry name src = Some x → clean x ∧ ∃ l, x = Folder l.
Proof.
  intros Hx x. destruct (entry name src) as [y|]; [|done]. intros [= <-]. destruct (Hx y eq_refl) as [Hcl [l ->]]. split; [by apply clean_prune|].
  rw prune_folder. by eexists.
Qed.

Lemma prune_again (o : option Node) : prune <$> (prune <$> o) = prune <$> o.
Proof. destruct o; [cbn; by rw prune_prune|done]. Qed.

Lemma restore_parts (src target : Entries) (m : BackupManifest) bytes : entry wal_name src = Some (File bytes) → data_dir src → manifest_fits m →
  restore_to (backup_of src m) target = (restored_from src, Ok m).
Proof.
  intros Hw [Hm Hs Hd] Hfit. destruct (backup_parts src m) as (Bw & Bm & Bx & Bs & Bd). unfold restore_to, read_manifest, restored_from.
  rw Bx (manifest_back m Hfit). rw copy_part_file_fresh; [fresh_name..|by rw Bw Hw|]. rw Bw. cbn [and_then app].
  rw copy_part_file_fresh; [rw Hw; fresh_name..|by rw Bm|]. rw Bm. cbn [and_then].
  rw copy_part_dir_fresh; [rw Hw; destruct (entry meta_name src); fresh_name..|rw Bs; by apply pruned_dir|]. rw Bs prune_again. cbn [and_then].
  rw copy_part_dir_fresh; [rw Hw; destruct (entry meta_name src), (entry snapshots_name src); fresh_name..|rw Bd; by apply pruned_dir|].
  rw Bd prune_again. by rw -!app_assoc.
Qed.

Lemma restored_entry (src : Entries) (name : str) : entry name (restored_from src) = kept src name.
Proof.
  unfold kept, restored_from.
  destruct (decide (name = wal_name)) as [->|N1]; [destruct (entry wal_name src), (entry snapshots_name src), (entry databases_name src), (entry meta_name src); done|].
  destruct (decide (name = meta_name)) as [->|N2]; [destruct (entry wal_name src), (entry snapshots_name src), (entry databases_name src), (entry meta_name src); done|].
  rw bool_decide_eq_false_2; [tauto|].
  destruct (decide (name = snapshots_name)) as [->|N3]; [destruct (entry wal_name src), (entry snapshots_name src), (entry databases_name src), (entry meta_name src); done|].
  destruct (decide (name = databases_name)) as [->|N4]; [destruct (entry wal_name src), (entry snapshots_name src), (entry databases_name src), (entry meta_name src); done|].
  rw bool_decide_eq_false_2; [tauto|]. apply entry_fresh. rw !fmap_app !not_elem_of_app. unfold part.
  split_and!; repeat case_match; rw ?list_elem_of_singleton; cbn; set_solver.
Qed.

(** C11: A directory that is restored from a backup has the log as it was flushed, the
    registry, the snapshots and the databases of the data directory, without files
    that were being written, and nothing else, whatever it had before. *)
Theorem backup_restores (src_path : str) (src target : Entries) (lm : Wal.Wal.LogManager) now format_version : data_dir src →
  (∀ lsn, (Wal.Wal.flush lm).2 = Ok lsn → manifest_fits (mkManifest src_path lsn now format_version)) →
  ∃ lm' backup m target', create src_path src lm now format_version [] = (lm', backup, Ok m) ∧ restore_to backup target = (target', Ok m) ∧
    lm' = (Wal.Wal.flush lm).1 ∧ ∀ name, entry name target' = kept (with_log lm' src) name.
Proof.
  intros Hdir Hfit. destruct (flush_ok lm) as (lm' & lsn & Hf). rw Hf in Hfit. specialize (Hfit lsn eq_refl). set (m := mkManifest src_path lsn now format_version) in *.
  assert (entry wal_name (with_log lm' src) = Some (File (Wal.Wal.disk lm'))) as Hw by (unfold with_log; rw entry_put bool_decide_eq_true_2; done).
  assert (data_dir (with_log lm' src)) as Hdir'. { destruct Hdir as [H1 H2 H3]. unfold with_log. split; rw entry_put; done. }
  exists lm', (backup_of (with_log lm' src) m), m, (restored_from (with_log lm' src)). split_and!.
  - unfold create. rw Hf. cbn zeta. fold m. by rw (copy_parts _ m _ Hw Hdir').
  - exact (restore_parts _ target m _ Hw Hdir' Hfit).
  - by rw Hf.
  - intros name. apply restored_entry.
Qed.
End backup.

(** ** Runs *)

Section runs.
#[local] Existing Instance DiskManager.sum_crc32.

(** A data directory with a table, and a file that is being written. *)
Definition old_table : list Z := chars "BTBL" ++ le_bytes 4 1 ++ replicate 8 0.
Definition tables_dir : Entries := [(chars "a.tbl", File old_table); (chars "b.tmp", File [7])].
Definition some_dir : Entries :=
  [(meta_name, File [1; 2]); (databases_name, Folder [(chars "main", Folder [(chars "tables", Folder tables_dir)])]); (chars "junk", File [])].
Definition some_log : Wal.Wal.LogManager := Wal.Wal.mkLog [1; 2; 3] [4; 5] 2 1 Wal.Wal.Strict 0 0 0 0.

Lemma backup_restores_witness : ∃ lm' backup m target', create (chars "data") some_dir some_log 0 3 [] = (lm', backup, Ok m) ∧
  restore_to backup [(chars "old", File [])] = (target', Ok m) ∧ lm' = (Wal.Wal.flush some_log).1 ∧
  ∀ name, entry name target' = kept (with_log lm' some_dir) name.
Proof.
  apply (backup_restores (chars "data") some_dir [(chars "old", File [])] some_log 0 3).
  - split; [done|done|]. intros x [= <-]. split; [|by eexists]. repeat first [constructor | fresh_name | intros a Ha; repeat (apply elem_of_cons in Ha as [->|Ha]; [fresh_name|]); by apply elem_of_nil in Ha].
  - intros lsn [= <-]. split; [|cbn; lia]. split; [|done]. change (Forall DbFilesSpec.scalar [100; 97; 116; 97]). unfold DbFilesSpec.scalar. repeat (apply Forall_cons_2; [lia|]). apply Forall_nil_2.
Defined.

(** Old files are copied and not changed, although they are reported as migrated;
    the copies are old files too, and every migration copies them again. *)
Definition migrations (n : nat) : option (nat * nat) :=
  let d := Nat.iter n (λ d, (migrate_to_current d).1) some_dir in
  match (migrate_to_current d).2 with Ok r => Some (length (scanned r), length (migrated r)) | Err _ => None end.

Theorem migration_changes_nothing : migrations 0 = Some (1, 1)%nat ∧ migrations 1 = Some (2, 2)%nat ∧ migrations 2 = Some (3, 3)%nat.
Proof. by vm_compute. Qed.
End runs.
End BackupSpec.
